(* ===== verification/_CoqProject ===== *)
-Q . S2P
Prelude.v
Types.v
Values.v
SnapshotTracker.v
VersionManager.v
VersionSteps.v
Watermarks.v
WriteSet.v
WalTypes.v
OrderedCodec.v
OrderedFacts.v
OrderedDecimal.v
OrderedValues.v
OrderedExample.v
IndexKeys.v
IndexKeyFacts.v
IndexManifest.v
IndexManifestFacts.v
ByteMap.v
BufferPool.v
BufferPoolFacts.v
IndexChunk.v
IndexChunkFacts.v
IndexShardRuntime.v
IndexShardFacts.v
IndexChain.v
IndexChainFacts.v
IndexGenerations.v
IndexCursor.v
IndexCursorFacts.v
IndexFiles.v
IndexFilesFacts.v
IndexReload.v
IndexExamples.v
IndexPending.v
CsrShared.v
MutableCsr.v
CsrView.v
CsrInv.v
CsrDelete.v
CsrMaintain.v
CsrReach.v
CsrCodec.v
CsrLoad.v
CsrExample.v
WalScan.v
WalParser.v
WalWriter.v
GroupCommit.v
WalFacts.v
WalCommit.v
WalFilter.v
WalRecovery.v
WalCrash.v
WalReplay.v
WalBuffered.v
WalManager.v
WalFiles.v
WalExample.v
Stats.v
Certifier.v
UndoLog.v
Journal.v
Context.v
ContextFacts.v
ContextMutation.v
Isolation.v
Events.v
CheckpointGate.v
PendingRecovery.v
WalCheckpoint.v
Manager.v
ManagerCommit.v
ManagerFacts.v
ManagerInv.v
ManagerOutcome.v
ManagerReach.v
ManagerSafety.v
Connection.v
ManagerExample.v
