(* ===== verification/Prelude.v ===== *)
(** * Linkrs: the transactional core, the secondary indexes and the edge store

    Linkrs is a graph database.  This library models the crate
    [linkrs-transaction] with the parts of [linkrs-core] and [linkrs-storage]
    it stands on: multi-version concurrency control, optimistic certification,
    the transaction context with its journal, undo log and savepoints, the
    transaction manager over them, and the write-ahead log with crash
    recovery.  Of the storage crate it also models the native secondary indexes:
    the order-preserving key codec, index keys and scan ranges, shards,
    generations and cursors, and the buffer pool that holds their chunks; and the
    mutable edge store, which holds the adjacency rows of the graph.  The query
    engine, the other storage tables and the network layers are outside it.

    ** How the parts work together

    The transaction manager ([manager.rs], [manager/]) owns the table of live
    transactions and drives every other part.  A transaction passes the
    checkpoint gate ([checkpoint.rs]) and gets its start timestamp from the version manager
    ([mvcc.rs]), which pins it in the snapshot tracker so that garbage
    collection keeps what the transaction may read.  Its statements record
    reads, writes and mutations in its context ([context.rs]): each mutation is
    one record of the mutation journal, an undo entry and a footprint in the
    write set.  At commit the certifier ([certify.rs]) compares the write set
    (and, for serializable transactions, the read set) with the transactions
    that are validated or committed; a commit timestamp is reserved, the redo
    entries of the journal go to the write-ahead log as one batch that a commit
    record closes ([wal/writer]), and publishing the timestamp moves the read
    frontier.  A commit that reached the log but not the tables waits in the
    recovery queue ([recovery.rs]) for its re-drive.  Observers hear of each
    outcome through the event registry ([event_dispatch.rs] of the core crate).
    Commits reach the log through the storage engine's WAL manager
    ([engine/wal_manager.rs]): a commit is appended under the writer's lock, other
    records go through a buffer that a background thread drains
    ([wal/writer/buffer.rs]), and concurrent commits share an fsync
    ([wal/writer/group_commit.rs]).  A checkpoint moves the recovery boundary
    ([wal/checkpoint.rs]) and lets old segments go ([local/file_ops.rs]).
    Sessions reach the manager through [connection.rs].
    After a crash the log is scanned ([wal/parser]), its committed
    batches are collected ([wal/commit.rs], [wal/dry_replay.rs]) and replayed
    ([wal/recovery]).

    An index maps encoded property values to entities.  A write encodes the value
    and the entity with the ordered codec ([value/ordered_codec.rs] of the core
    crate) into a forward and a reverse key ([index/key_codec]), is collected in a
    pending delta and published as a generation ([index_data_manager/pending_delta.rs])
    whose parent is the one before; the manifest catalog ([index/manifest.rs])
    says which generation is active and keeps the ones readers hold.  A shard of
    a generation ([index/shard_runtime]) is a chunked index ([index/chunk]) in a
    buffer pool ([cache/buffer_pool.rs]) overlaid with a delta, with a log and a
    checkpoint of its own.  A scan turns its predicate into a byte range, the
    manifest cuts it into shard ranges, an iterator per shard walks the
    generations newest first ([index/cursor.rs]), and a cursor turns the entries
    into batches of rows ([vertex_index_manager.rs], [edge_index_manager.rs]).
    Compaction folds a chain into one generation, retirement removes old ones.

    Edges live in the mutable store of [linkrs-storage/src/edge/mutable_csr]: a row
    per source vertex, whose entries (neighbour, rank, edge identifier, deletion
    stamp) lie in a block of one array and, when the block is full, in overflow
    chunks behind it.  An entry is deleted by its stamp and reclaimed when no
    snapshot can see it: by an insertion that reuses the slot, or by compaction.
    Wide rows have an index of their live keys, which decides whether a key may be
    inserted and answers lookups.  Maintenance sorts, rebalances and compacts rows;
    a checkpoint dumps the store as compressed integer columns and loads it again.

    ** Files

    - [Prelude]: machine integers, [f64], results, the state-and-error monad of
      methods that mutate [self] and use [?], least keys and ordered maps.
    - [Types]: timestamps, vertex and edge identifiers, the enumerations of the
      transaction crate.
    - [SnapshotTracker] ([snapshot_tracker.rs]): the tracker, its refinement of a
      multiset of timestamps, and the two steps of a registration, which lose a
      pin when two of them overlap.
    - [VersionManager] ([mvcc.rs], [mvcc/]): allocation, slots, the read
      frontier, ordered commit, reaping, reader admission.  [VersionSteps]: a
      step relation over the atomic sections of these methods, its invariant
      and the theorems that hold under every interleaving.
    - [Watermarks] ([mvcc_watermarks.rs], [snapshot_lease.rs],
      [mvcc_visibility.rs] of the storage crate): garbage-collection cutoffs,
      leases, row visibility and the gate for pending writes.
    - [WriteSet] ([types/writeset.rs], [conflict.rs]), [Stats]
      ([types/stats.rs]), [Certifier] ([certify.rs], [certify/]): certification
      against the interface [CertContext] of a context.  [Isolation]: the
      certification system with any number of transactions, from the reservation
      of a start timestamp to forced re-drives, with prunings at any cutoff; the
      isolation theorems, for verdicts that no pruning has overrun, the discipline
      of prunings under which none is, and the run in which one is.
    - [UndoLog] ([undo_log.rs], [undo_log/file_backed.rs]): the spilling undo
      log over the class [UndoTarget].
    - [Journal] ([mutation_journal.rs], [wal/buffer.rs]), [Context]
      ([context.rs], [context/]): the transaction context; it is an instance of
      [CertContext].  [ContextFacts], [ContextMutation]: contexts under any
      sequence of operations.
    - [Events] ([event_dispatch.rs]): subscriptions and dispatch.
      [CheckpointGate] ([checkpoint.rs], [maintenance.rs]): the gate, and its
      atomic steps with the condition variable under every interleaving.
      [PendingRecovery] ([recovery.rs], [participant.rs]): the queue of durable
      commits that were not finalized and its sidecar file; the class
      [CommitSink] is storage as the manager sees it.
    - [Manager] ([manager.rs], [manager/begin.rs], [abort.rs],
      [event_registry.rs], [leases_checkpoint.rs], [cleaner.rs]) and
      [ManagerCommit] ([manager/commit.rs], [statement_scope.rs],
      [savepoint.rs], [snapshot_lease.rs], [checkpoint.rs], [monitoring.rs]):
      the manager, one definition per method, the commit cut into its phases.
      [ManagerFacts]: the part of the state the theorems speak of, and what an
      abort does to it.  [ManagerInv], [ManagerReach]: the invariant that ties
      table, timestamps, gate and write exclusion together, over every call;
      [ManagerOutcome]: the outcomes of a commit.  [ManagerSafety]: the theorems
      over sequences of calls.  [ManagerExample]: concrete runs.
    - [WalTypes] (the formats of [linkrs-core/src/wal]), [WalScan]
      ([wal/parser/scan.rs], [fragment.rs]), [WalParser]
      ([wal/parser/sequential.rs], [parallel.rs], [discover.rs]), [WalWriter]
      ([wal/writer/local.rs], [local/]), [WalCommit] ([wal/commit.rs],
      [wal/dry_replay.rs]), [WalRecovery] ([wal/recovery]): the log, one file
      for each part.  [WalFacts], [WalCrash], [WalReplay]: from the bytes the
      writer produces to what recovery replays.  [WalExample]: codecs that
      satisfy the hypotheses, a small log, and defects shown on it.
    - [GroupCommit] ([wal/writer/group_commit.rs]): the atomic steps of any number
      of waiting calls with appends and rotations, and the runs that lose
      durability.  [WalBuffered] ([wal/writer/buffer.rs],
      [local/async_buffer.rs]): the buffered mode over the direct writer, and its
      refinement of it, with the background thread's rounds cut in two.  [WalManager] ([engine/wal_manager.rs]), [WalFiles]
      ([local/file_ops.rs]): the manager of the storage engine and the segments of
      the log in their directory; concrete runs of these are in [WalExample].
    - [WalCheckpoint] ([wal/checkpoint.rs], [types/table_tracker.rs] of the core
      crate): the checkpoint manager and its metadata file.  [WalFilter]
      ([wal/filter.rs]): the intents an index has to catch up with.
    - [Connection] ([connection.rs]): connections over the manager; runs of it are in
      [ManagerExample].
    - [Values] ([types.rs], [value/] of the core crate): data types, values,
      their equality and order, floats by their bit patterns.  [OrderedCodec]
      ([value/ordered_codec.rs]): the codec.  [OrderedFacts], [OrderedDecimal],
      [OrderedValues]: round trip, order and ranges of its encodings, over the
      class [DecimalLaws] of the decimal library.  [OrderedExample]: an instance
      and concrete keys.
    - [IndexKeys] ([index/key_codec], the scan ranges of the index managers),
      [IndexKeyFacts]; [IndexManifest] ([index/manifest.rs]),
      [IndexManifestFacts] (the catalog as a step relation with its handles).
    - [ByteMap]: the ordered maps of the standard library with byte-string keys.
      [BufferPool] ([cache/buffer_pool.rs]), [BufferPoolFacts] (the operations as
      a step relation).  [IndexChunk] ([index/chunk],
      [index/types.rs]), [IndexChunkFacts].
    - [IndexShardRuntime] ([shard_runtime/shard.rs], [bloom.rs]): a shard over the
      class [MapStore], what it needs of the index it keeps its base in, with the
      laws [MapStoreLaws].  [IndexShardFacts]: the theorems of a shard, proved
      against the class, and the chunked index as an instance.
    - [IndexChain] ([shard_runtime/generation.rs], [runtime.rs],
      [index/cursor.rs], [pending_delta.rs], [manifest_access/generations.rs]):
      generations, chains, the iterator, publication, compaction, retirement.
      [IndexChainFacts]: the iterator; [IndexGenerations]: publication and
      compaction.  [IndexCursor], [IndexCursorFacts]: the cursors.  [IndexPending]: pending deltas.
    - [IndexFiles] ([index/wal.rs], [chunk/serialize.rs], [entity_ref_codec.rs]):
      the bytes of a shard's log, chunk files and checkpoint directory;
      [IndexFilesFacts] (readers on written and on cut bytes), [IndexReload] (a
      pool over a loader).
    - [IndexExamples]: the index theorems on concrete keys, manifests, pools, shards,
      chains, cursors and files, a module for each.
    - [CsrShared] ([edge/slot.rs], [edge/csr_shared.rs]): slots, the segmented row
      table and its presence bits, with the facts that make it a finite map.
      [MutableCsr]: the state of the store and its writes ([edge/mutable_csr.rs],
      [core.rs], [overflow.rs], [live_set.rs], [row.rs], [write.rs]) in module [Csr],
      walks and lookups ([read.rs], [iter.rs], [stats.rs]) in [CsrRead], batches,
      sorting, rebalancing and compaction ([write.rs], [row.rs], [compaction.rs]) in
      [CsrRows].
    - [CsrView]: the live-key index as a map, the view of one row, the layout under
      which a write is a function on one view, and the primitive writes.  [CsrInv]:
      the invariant of a row and of the store, insertion.  [CsrDelete]: deletion,
      reversal, rollback, deletion by endpoint.  [CsrMaintain]: clearing, sorting,
      rebalancing, both compactions.  [CsrReach]: batches, reads, the operations as a
      step relation and the theorems of the store.
    - [CsrCodec] ([serialization.rs], [persistence.rs]): columns, dump and load, and
      columns read back.  [CsrLoad]: the image of a dump, and the round trip.
      [CsrExample]: concrete stores.

    ** What the theorems show

    - Timestamps and snapshots: the read frontier is exact and monotone under
      every interleaving, the tracker counts exactly the live snapshots, ordered
      commit publishes, readers repeat their reads, pending writes are hidden
      from others and visible to their owner, garbage collection reclaims
      nothing a current or future reader can see.
    - Isolation: the conflict predicates mean what they should on every recorded
      history; publication is decided by the whole history when the indices are pruned
      below the committer's start; then there are no lost updates, and no write
      skew on items between serializable optimistic transactions; prunings that
      respect reserved and active starts keep it so, and the code's do not always.
    - Contexts: a mutation takes effect once or not at all, the journal stays
      within its budget, the lifecycle only moves forward, a rollback to a
      savepoint restores it after any later operations; the spilling undo log is
      a stack and undoes newest first.
    - The manager: over any sequence of calls the gate counts exactly the
      writers that hold their lease, one transaction at most holds the write
      exclusion, no reader's snapshot covers an uncommitted writer, every commit
      ends in one of four ways, a published commit is never aborted and its
      re-drive, while it is queued, completes it, shutdown releases everything.  In every
      interleaving a drained gate has no writer behind it and never stays
      closed.
    - The log: a segment cut at any byte after its header is read back as exactly the
      transactions whose batch is complete, and recovery replays in order those
      committed after its start;
      the parallel parser agrees with the sequential one for any schedule.
    - Durability: a group-commit leader never acknowledges what is not on disk,
      followers do not under conditions the theorem names, and every call
      returns; the buffered mode writes the bytes of the direct mode while no drain
      or sync cuts a background round in two; reclaiming
      removes exactly the segments before the checkpoint; the recovery boundary
      never moves back, and a reported checkpoint is the one a restart reads.
    - Connections: every call is a sequence of steps of the manager, and a
      transaction is closed to all connections but its own.
    - Keys: the codec round-trips, accepts exactly the types it lists, and sorts
      its encodings as the values sort; composite keys sort by their fields; the
      byte range of a predicate holds exactly the keys that match it.
    - Index storage: a chunked index in a pool of sufficient capacity is the map
      it was built from; the pool's usage is exact, eviction frees what it is
      asked for or all that is not pinned; a shard that is flushed and reopened
      has the same entries, as long as no crash tears an entry of its log; a shard's log that is cut is read up to the cut, and
      a complete checkpoint reloads lazily at any capacity of the pool.
    - Index reads: routing is total and unique and shard ranges partition a
      query; a scan of a chain of generations terminates and yields exactly the
      newest visible record of each key; a published delta overlays the chain, a
      compaction keeps what is visible, a pinned generation is not reclaimed;
      batches lose and repeat nothing.
    - Edges: in every store the operations (with the guards of [csr_step]) reach, the rows are disjoint, live keys
      are distinct, the index holds exactly them and the count is the number of live
      edges; insertion, deletion, batches and compaction do to a row what they
      promise and leave the others alone; a lookup by the index is a scan, a
      bisected range is a filter or, for crossed bounds, a panic; a dumpable store
      that is dumped and loaded comes back.
    - Defects: some theorems state, on the same definitions, behaviour that
      contradicts the code's intent or comments; their doc comments say so.

    ** Conventions

    A w-bit integer is a [Z] whose wrap-around is written out where the code
    wraps; bytes are [Z].  A method on [&self] with interior mutability is a
    function from state to state, [ST] when it can fail.  A critical section is
    one step; methods that release their locks half way are cut there.  A call
    of the transaction manager is one step: its theorems speak of sequences of
    calls, and what overlapping calls may do is shown by runs of their phases.  The
    clock, the outcome of file operations, thread schedules and random salts
    are arguments.  Libraries that are not part of the repository ([crc32fast],
    [zstd], [postcard], [dec]) are parameters with their documented laws as
    hypotheses, and every theorem that uses them has an instance with concrete
    functions.  Hash maps whose order the code does not observe are finite
    maps; iteration over concurrent maps is over a list that stands for any
    order.  The capacity that an allocation grants is a parameter of the edge store
    (the class [Allocator]).

    Fuel occurs in the scan of a log file (one round for each byte: every round
    moves the offset, [Scan.parse_total]) and in splitting a payload or a file
    list into chunks (one step for each element); the undo loop runs once for
    each entry it holds.  Cutting index entries into chunks takes one step for
    each entry; a generation chain has at most as many members as there are
    generations, since a parent is older ([chain_fuel]); the iterator takes a
    round for each generation left, and the loops that drain it or fill a batch
    one for each entry and range: the theorems give the bound and prove that the
    result is there.  An entry of an index log takes a byte at least, and a run of
    a column stands for a value at least.  Digits of a printed integer: at most its binary length.

    ** What is not modelled

    The monitor's reports and the metrics mirror of the statistics, the rollback
    helpers ([rollback.rs]), the direct flush of a transaction's local log buffer,
    timed and queued event dispatch; of the indexes, the format of the manifest
    file, failing file operations, splits, barriers, the
    memory limit, garbage collection and the search for existing values of the
    write path; comparisons between two composite values; the frozen and mapped
    variants of the edge store, edge tables, node groups and properties of edges,
    the counters of the edge store's instrumentation; and everything outside
    the transactional core, the indexes and the edge store.  A call on an index is one step.  The flush
    thread of the buffered mode takes a round in one step.
    In the log's crash theorems the appends of a segment succeed; what a failed
    fsync leaves behind is shown by an example. *)

From stdpp Require Import base gmap sets list strings sorting relations.
From Stdlib Require Import ZArith Lia SpecFloat.

#[global] Open Scope Z_scope.

(** ** Machine integers

    A w-bit integer of the source is a [Z] kept in range by the operations
    below.  [AtomicU64::fetch_add] and friends wrap in every build profile. *)

Definition U64_MAX : Z := 18446744073709551615.

Definition wrap_u64 (z : Z) : Z := z mod 18446744073709551616.

Definition wrap_i32 (z : Z) : Z := (z + 2147483648) mod 4294967296 - 2147483648.

Definition is_u64 (z : Z) : Prop := 0 <= z <= U64_MAX.

(** [u64::checked_add]. *)
Definition checked_add_u64 (a b : Z) : option Z :=
  if decide (a + b <= U64_MAX) then Some (a + b) else None.

(** [u64::saturating_add] and [u64::saturating_sub]. *)
Definition saturating_add_u64 (a b : Z) : Z := Z.min (a + b) U64_MAX.

Definition saturating_sub_u64 (a b : Z) : Z := Z.max (a - b) 0.

(** ** Floating point

    [f64] is IEEE binary64 with rounding to nearest, ties to even. *)

Definition f64_of_Z (z : Z) : spec_float := binary_normalize 53 1024 z 0 false.

Definition f64_div (a b : spec_float) : spec_float := SFdiv 53 1024 a b.

Definition f64_mul (a b : spec_float) : spec_float := SFmul 53 1024 a b.

(** ** Results

    [Result<A, E>] of the source. *)

Inductive result (A E : Type) : Type :=
| Ok (a : A)
| Err (e : E).
Arguments Ok {A E} a.
Arguments Err {A E} e.

Definition is_ok {A E} (r : result A E) : bool :=
  match r with Ok _ => true | Err _ => false end.

(** [Result::map_err]. *)
Definition map_err {A E F} (f : E -> F) (r : result A E) : result A F :=
  match r with Ok a => Ok a | Err e => Err (f e) end.

#[export] Instance result_eq_dec `{EqDecision A, EqDecision E} :
  EqDecision (result A E).
Proof. solve_decision. Defined.

(** A computation that threads a state and may return early with an error:
    the shape of a method that mutates [self] and uses [?]. *)
Definition ST (S E A : Type) : Type := S -> S * result A E.

Declare Scope linkrs_scope.
Delimit Scope linkrs_scope with linkrs.
#[global] Open Scope linkrs_scope.

Definition st_ret {S E A} (a : A) : ST S E A := fun s => (s, Ok a).

Definition st_err {S E A} (e : E) : ST S E A := fun s => (s, Err e).

Definition st_bind {S E A B} (m : ST S E A) (k : A -> ST S E B) : ST S E B :=
  fun s => match m s with
           | (s', Ok a) => k a s'
           | (s', Err e) => (s', Err e)
           end.

Definition st_get {S E} : ST S E S := fun s => (s, Ok s).

Definition st_put {S E} (s : S) : ST S E unit := fun _ => (s, Ok tt).

Definition st_modify {S E} (f : S -> S) : ST S E unit := fun s => (f s, Ok tt).

(** [expr?] on a pure result. *)
Definition st_lift {S E A} (r : result A E) : ST S E A := fun s => (s, r).

Notation "'let!' x ':=' m 'in' k" := (st_bind m (fun x => k))
  (at level 10, x binder, m at level 100, k at level 200) : linkrs_scope.
Notation "'do!' m 'in' k" := (st_bind m (fun _ => k))
  (at level 10, m at level 100, k at level 200) : linkrs_scope.

(** ** Tactics *)

(** Split every match of the goal and of the hypotheses, keeping the equations. *)
Ltac split_cases := repeat case_match; simplify_eq/=.

(** ** Hints *)

Create HintDb linkrs discriminated.
Create Rewrite HintDb linkrs.

(** ** Generic lemmas *)

Lemma wrap_u64_small z : is_u64 z -> wrap_u64 z = z.
Proof. unfold is_u64, wrap_u64, U64_MAX. intros. apply Z.mod_small. lia. Qed.

Lemma wrap_u64_range z : is_u64 (wrap_u64 z).
Proof.
  unfold is_u64, wrap_u64, U64_MAX.
  pose proof (Z.mod_pos_bound z 18446744073709551616). lia.
Qed.

Lemma wrap_i32_small z : -2147483648 <= z < 2147483648 -> wrap_i32 z = z.
Proof. unfold wrap_i32. intros. rewrite Z.mod_small; lia. Qed.

Lemma wrap_i32_add_l a b : wrap_i32 (wrap_i32 a + b) = wrap_i32 (a + b).
Proof.
  unfold wrap_i32.
  replace ((a + 2147483648) mod 4294967296 - 2147483648 + b + 2147483648)
    with ((a + 2147483648) mod 4294967296 + b) by lia.
  rewrite Z.add_mod_idemp_l by lia. do 2 f_equal. lia.
Qed.

Lemma wrap_u64_add_l a b : wrap_u64 (wrap_u64 a + b) = wrap_u64 (a + b).
Proof. unfold wrap_u64. by rewrite Z.add_mod_idemp_l by lia. Qed.

#[export] Hint Resolve wrap_u64_range : linkrs.
#[export] Hint Rewrite wrap_i32_add_l wrap_u64_add_l : linkrs.

(** Inversion of a successful sequence. *)
Lemma st_bind_ok {S E A B} (m : ST S E A) (k : A -> ST S E B) s s' b :
  st_bind m k s = (s', Ok b) -> exists s1 a, m s = (s1, Ok a) /\ k a s1 = (s', Ok b).
Proof. unfold st_bind. destruct (m s) as [s1 [a|e]]; [eauto|discriminate]. Qed.

(** Inversion of a failed sequence. *)
Lemma st_bind_err {S E A B} (m : ST S E A) (k : A -> ST S E B) s s' x :
  st_bind m k s = (s', Err x) ->
  m s = (s', Err x) \/ exists s1 a, m s = (s1, Ok a) /\ k a s1 = (s', Err x).
Proof. unfold st_bind. destruct (m s) as [s1 [a|e]]; [eauto|]. intros [= <- <-]. by left. Qed.

(** ** Ordered maps

    [BTreeMap::keys().next()]: the least key of a map with integer keys. *)

Definition list_min (l : list Z) : option Z :=
  foldr (fun k acc => Some (from_option (Z.min k) k acc)) None l.

Definition first_key {A} (m : gmap Z A) : option Z := list_min (map_to_list m).*1.

Lemma list_min_spec l :
  match list_min l with
  | None => l = []
  | Some k => k ∈ l /\ forall x, x ∈ l -> k <= x
  end.
Proof.
  induction l as [|x l IH]; simpl; [done|].
  destruct (list_min l) as [k|]; simpl.
  - destruct IH as [Hk Hmin]. split.
    + destruct (Z.min_spec x k) as [[_ ->]|[_ ->]]; set_solver.
    + intros y [->|Hy]%elem_of_cons; [lia|]. specialize (Hmin y Hy). lia.
  - subst. split; [set_solver|]. intros y Hy. apply list_elem_of_singleton in Hy. lia.
Qed.

Lemma elem_of_keys {A} (m : gmap Z A) k : k ∈ (map_to_list m).*1 <-> is_Some (m !! k).
Proof.
  rewrite list_elem_of_fmap. split.
  - intros [[k' v] [-> Hin%elem_of_map_to_list]]. by exists v.
  - intros [v Hv]. exists (k, v). split; [done|by apply elem_of_map_to_list].
Qed.

Lemma first_key_spec {A} (m : gmap Z A) :
  match first_key m with
  | None => m = ∅
  | Some k => is_Some (m !! k) /\ forall x, is_Some (m !! x) -> k <= x
  end.
Proof.
  unfold first_key. pose proof (list_min_spec (map_to_list m).*1) as H.
  destruct (list_min _) as [k|].
  - destruct H as [Hk Hmin]. split; [by apply elem_of_keys|].
    intros x Hx. apply Hmin. by apply elem_of_keys.
  - by apply fmap_nil_inv, map_to_list_empty_iff in H.
Qed.

(** The least key of a map, or the sentinel when it is empty, in the form the
    components use it. *)
Definition min_key_or (d : Z) {A} (m : gmap Z A) : Z := default d (first_key m).

Lemma min_key_or_le d {A} (m : gmap Z A) k v : m !! k = Some v -> min_key_or d m <= k.
Proof.
  intros Hk. unfold min_key_or. pose proof (first_key_spec m) as H.
  destruct (first_key m); simpl; [apply H; eauto|]. subst. by rewrite lookup_empty in Hk.
Qed.

Lemma min_key_or_cases d {A} (m : gmap Z A) :
  (m = ∅ /\ min_key_or d m = d) \/ is_Some (m !! min_key_or d m).
Proof.
  unfold min_key_or. pose proof (first_key_spec m) as H.
  destruct (first_key m); simpl; [right; apply H|by left].
Qed.

(** Characterisation of [min_key_or] used to recompute it. *)
Lemma min_key_or_unique d {A} (m : gmap Z A) x :
  (forall k, is_Some (m !! k) -> x <= k) ->
  (is_Some (m !! x) \/ m = ∅ /\ x = d) ->
  min_key_or d m = x.
Proof.
  intros Hle Hx. destruct (min_key_or_cases d m) as [[-> ->]|Hin].
  - destruct Hx as [[v Hv]|[_ ->]]; [by rewrite lookup_empty in Hv|done].
  - destruct Hx as [[v Hv]|[-> ->]].
    + apply min_key_or_le with (d:=d) in Hv. apply Hle in Hin. lia.
    + destruct Hin as [? Hv]. by rewrite lookup_empty in Hv.
Qed.

(** Iteration order of a [BTreeMap]: entries by increasing key. *)
Definition key_le {A} (a b : Z * A) : Prop := a.1 <= b.1.

#[export] Instance key_le_dec {A} : RelDecision (@key_le A).
Proof. intros a b. unfold key_le. apply _. Defined.

Definition sorted_entries {A} (m : gmap Z A) : list (Z * A) :=
  merge_sort key_le (map_to_list m).

Lemma elem_of_sorted_entries {A} (m : gmap Z A) k v :
  (k, v) ∈ sorted_entries m <-> m !! k = Some v.
Proof.
  unfold sorted_entries. rewrite merge_sort_Permutation. apply elem_of_map_to_list.
Qed.

(** The first match of two lists. *)
Lemma find_app {A} (f : A -> bool) (l1 l2 : list A) :
  List.find f (l1 ++ l2) = match List.find f l1 with Some x => Some x | None => List.find f l2 end.
Proof. induction l1 as [|x l1 IH]; simpl; [done|]. by destruct (f x). Qed.
