(* ===== verification/Types.v ===== *)
(** * Shared types

    Timestamps and their sentinels ([linkrs-core/src/types/storage_ids.rs]),
    vertex and edge identities, and the enumerations of the transaction crate
    ([linkrs-transaction/src/types.rs], [error.rs], [types/config.rs],
    [certify/conflict_kind.rs], [linkrs-core/src/types/transaction_config.rs]). *)

From stdpp Require Import base gmap sets list strings.
From Stdlib Require Import ZArith Lia.
From S2P Require Import Prelude.

(** ** Timestamps *)

(** [pub type Timestamp = u64]. *)
Abbreviation Timestamp := Z (only parsing).

(** [TransactionId(pub u64)]. *)
Abbreviation TransactionId := Z (only parsing).

Definition RESERVED_ZERO_TIMESTAMP : Timestamp := 0.

Definition INVALID_TIMESTAMP : Timestamp := U64_MAX.

Definition MAX_TIMESTAMP : Timestamp := U64_MAX - 1.

Definition is_allocatable_timestamp (ts : Timestamp) : bool :=
  bool_decide (ts <> RESERVED_ZERO_TIMESTAMP) &&
  bool_decide (ts <> INVALID_TIMESTAMP) &&
  bool_decide (ts <> MAX_TIMESTAMP).

Lemma is_allocatable_spec ts :
  is_u64 ts -> is_allocatable_timestamp ts = true <-> 0 < ts < MAX_TIMESTAMP.
Proof.
  unfold is_u64, is_allocatable_timestamp, RESERVED_ZERO_TIMESTAMP,
    INVALID_TIMESTAMP, MAX_TIMESTAMP, U64_MAX.
  intros. rewrite !andb_true_iff, !bool_decide_eq_true. lia.
Qed.

(** ** Identities *)

(** [VertexIdKind] and its one-byte tag. *)
Inductive VertexIdKind := KEmpty | KInt | KUint | KText | KEdgeEndpoint.

#[export] Instance VertexIdKind_eq_dec : EqDecision VertexIdKind.
Proof. solve_decision. Defined.

Definition kind_as_u8 (k : VertexIdKind) : Z :=
  match k with
  | KEmpty => 0 | KInt => 1 | KUint => 2 | KText => 3 | KEdgeEndpoint => 4
  end.

Definition kind_from_u8 (v : Z) : option VertexIdKind :=
  if decide (v = 0) then Some KEmpty
  else if decide (v = 1) then Some KInt
  else if decide (v = 2) then Some KUint
  else if decide (v = 3) then Some KText
  else if decide (v = 4) then Some KEdgeEndpoint
  else None.

Definition VERTEX_ID_MAX_SIZE : nat := 32.

(** [VertexId]: a 32-byte buffer, the payload length and the kind tag;
    equality and hashing are derived, that is over all three fields. *)
Record VertexId := mkVertexId {
  vid_data : list Z;
  vid_len : Z;
  vid_kind : Z;
}.

#[export] Instance VertexId_eq_dec : EqDecision VertexId.
Proof. solve_decision. Defined.

#[export] Instance VertexId_countable : Countable VertexId.
Proof.
  apply (inj_countable'
    (fun v => (vid_data v, vid_len v, vid_kind v))
    (fun t => mkVertexId t.1.1 t.1.2 t.2)).
  by intros [].
Defined.

(** [u64::to_be_bytes]: the [n] low bytes of [z], most significant first. *)
Fixpoint be_bytes (n : nat) (z : Z) : list Z :=
  match n with
  | O => []
  | S n' => be_bytes n' (z / 256) ++ [z mod 256]
  end.

(** [u64::from_be_bytes]. *)
Definition from_be_bytes (l : list Z) : Z :=
  fold_left (fun acc b => acc * 256 + b) l 0.

(** Copy a payload to the front of a zeroed 32-byte buffer. *)
Definition pad_payload (bytes : list Z) : list Z :=
  bytes ++ replicate (VERTEX_ID_MAX_SIZE - length bytes) 0.

Definition vid_new : VertexId := mkVertexId (replicate VERTEX_ID_MAX_SIZE 0) 0 0.

(** [VertexId::kind]. *)
Definition vid_kind_of (v : VertexId) : VertexIdKind :=
  match kind_from_u8 (vid_kind v) with Some k => k | None => KEmpty end.

(** Errors of identifier construction carry no structure here: the source
    reports a message. *)
Inductive VidError :=
| VidTooLong | VidNotEmpty | VidBadIntLength | VidBadEndpointLength | VidNegative.

(** [VertexId::from_typed_bytes]. *)
Definition from_typed_bytes (kind : VertexIdKind) (bytes : list Z)
  : result VertexId VidError :=
  if decide (VERTEX_ID_MAX_SIZE < length bytes)%nat then Err VidTooLong
  else
    let built := mkVertexId (pad_payload bytes) (Z.of_nat (length bytes)) (kind_as_u8 kind) in
    match kind with
    | KEmpty => if decide (bytes = []) then Ok built else Err VidNotEmpty
    | KInt | KUint =>
        if decide (length bytes = 8)%nat then Ok built else Err VidBadIntLength
    | KEdgeEndpoint =>
        if decide (length bytes = 16)%nat then Ok built else Err VidBadEndpointLength
    | KText => Ok built
    end.

(** [VertexId::try_from_int64]. *)
Definition try_from_int64 (id : Z) : result VertexId VidError :=
  if decide (id < 0) then Err VidNegative
  else from_typed_bytes KInt (be_bytes 8 id).

(** [VertexId::from_u64]. *)
Definition from_u64 (id : Z) : VertexId :=
  mkVertexId (pad_payload (be_bytes 8 id)) 8 (kind_as_u8 KUint).

(** [VertexId::as_bytes]. *)
Definition as_bytes (v : VertexId) : list Z := take (Z.to_nat (vid_len v)) (vid_data v).

(** [EdgeIdentifier]. *)
Record EdgeIdentifier := mkEdge {
  src_label : Z;
  src_vid : VertexId;
  dst_label : Z;
  dst_vid : VertexId;
  edge_label : Z;
  rank : Z;
}.

#[export] Instance EdgeIdentifier_eq_dec : EqDecision EdgeIdentifier.
Proof. solve_decision. Defined.

#[export] Instance EdgeIdentifier_countable : Countable EdgeIdentifier.
Proof.
  apply (inj_countable'
    (fun e => (src_label e, src_vid e, dst_label e, dst_vid e, edge_label e, rank e))
    (fun t => match t with (a, b, c, d, e, f) => mkEdge a b c d e f end)).
  by intros [].
Defined.

(** [<[u8]>::cmp]: lexicographic comparison of byte slices. *)
Fixpoint bytes_cmp (a b : list Z) : comparison :=
  match a, b with
  | [], [] => Eq
  | [], _ :: _ => Lt
  | _ :: _, [] => Gt
  | x :: a', y :: b' =>
      match Z.compare x y with
      | Eq => bytes_cmp a' b'
      | c => c
      end
  end.

(** ** Transaction enumerations *)

(** [TransactionState]. *)
Inductive TransactionState := Active | Committing | Aborting | Committed | Aborted.

#[export] Instance TransactionState_eq_dec : EqDecision TransactionState.
Proof. solve_decision. Defined.

Definition can_execute_state (s : TransactionState) : bool :=
  match s with Active => true | _ => false end.

Definition can_commit (s : TransactionState) : bool :=
  match s with Active => true | _ => false end.

Definition can_abort (s : TransactionState) : bool :=
  match s with Active | Committing | Aborting => true | _ => false end.

Definition is_terminal (s : TransactionState) : bool :=
  match s with Committed | Aborted => true | _ => false end.

(** [TransactionType]. *)
Inductive TransactionType := TReadOnly | TWrite | TCheckpoint | TRecovery | TDummy.

#[export] Instance TransactionType_eq_dec : EqDecision TransactionType.
Proof. solve_decision. Defined.

Definition is_user_transaction (t : TransactionType) : bool :=
  match t with TReadOnly | TWrite => true | _ => false end.

Definition is_system (t : TransactionType) : bool :=
  match t with TCheckpoint | TRecovery | TDummy => true | _ => false end.

Definition requires_wal (t : TransactionType) : bool :=
  match t with TWrite | TCheckpoint => true | _ => false end.

Definition uses_mvcc (t : TransactionType) : bool :=
  match t with TReadOnly | TWrite => true | _ => false end.

(** [TransactionIsolationLevel], [DurabilityLevel] and [ConcurrencyMode]. *)
Inductive IsolationLevel := RepeatableRead | ReadCommitted | Serializable.

#[export] Instance IsolationLevel_eq_dec : EqDecision IsolationLevel.
Proof. solve_decision. Defined.

Inductive DurabilityLevel := DNone | DAsync | DSync.

Inductive ConcurrencyMode := Optimistic | SingleWriter.

#[export] Instance ConcurrencyMode_eq_dec : EqDecision ConcurrencyMode.
Proof. solve_decision. Defined.

(** [ConflictType]. *)
Inductive ConflictType :=
| WriteWrite | ReadWrite | Phantom | SchemaGeneration | IndexGeneration.

#[export] Instance ConflictType_eq_dec : EqDecision ConflictType.
Proof. solve_decision. Defined.

(** [TransactionErrorKind]; the constructors that the source builds from a
    conflict class carry it, since the message names it. *)
Inductive TransactionError :=
| BeginFailed | CommitFailed | AbortFailed
| TransactionNotFound (id : TransactionId)
| TransactionNotOwner (id : TransactionId)
| SavepointFailed
| SavepointNotFound (id : Z)
| SavepointNotActive (id : Z)
| NoSavepointsInTransaction
| InvalidStateTransition (from to : TransactionState)
| InvalidStateForCommit (s : TransactionState)
| InvalidStateForAbort (s : TransactionState)
| InvalidStateForExecution (s : TransactionState)
| TransactionTimeout
| TransactionExpired
| RollbackFailed
| TooManyTransactions
| ReadOnlyTransaction
| WriteTransactionConflict
| RecoveryFailed
| PersistenceFailed
| SerializationFailed (c : ConflictType)
| SyncFailed
| CheckpointInProgress
| CheckpointTimeout (active_writes : Z)
| TransactionBudgetExceeded (current limit : Z)
| CommitVetoed
| SnapshotExpired (holder : TransactionId) (floor_ts : Timestamp)
| InternalError.

#[export] Instance TransactionError_eq_dec : EqDecision TransactionError.
Proof. solve_decision. Defined.

(** [TransactionError::is_timeout] and [TransactionError::is_retryable]. *)
Definition is_timeout (e : TransactionError) : bool :=
  match e with TransactionTimeout | TransactionExpired => true | _ => false end.

Definition is_retryable (e : TransactionError) : bool :=
  match e with
  | WriteTransactionConflict | SerializationFailed _ | SnapshotExpired _ _ => true
  | _ => false
  end.

(** ** Byte order of integer identifiers *)

Lemma length_be_bytes n z : length (be_bytes n z) = n.
Proof.
  revert z; induction n as [|n IH]; intros z; simpl; [done|].
  rewrite length_app, IH. simpl. lia.
Qed.

Lemma bytes_cmp_app a1 a2 b1 b2 :
  length a1 = length b1 ->
  bytes_cmp (a1 ++ a2) (b1 ++ b2) =
  match bytes_cmp a1 b1 with Eq => bytes_cmp a2 b2 | c => c end.
Proof.
  revert b1; induction a1 as [|x a1 IH]; intros [|y b1] Hlen; simplify_eq/=; [done|].
  destruct (Z.compare x y) eqn:E; auto.
Qed.

Lemma bytes_cmp_be n a b :
  0 <= a < 256 ^ Z.of_nat n -> 0 <= b < 256 ^ Z.of_nat n ->
  bytes_cmp (be_bytes n a) (be_bytes n b) = Z.compare a b.
Proof.
  revert a b; induction n as [|n IH]; intros a b Ha Hb.
  - simpl in *. replace a with 0 by lia. by replace b with 0 by lia.
  - rewrite Nat2Z.inj_succ, Z.pow_succ_r in Ha, Hb by lia.
    cbn [be_bytes]. rewrite bytes_cmp_app by by rewrite !length_be_bytes.
    rewrite IH by (split; [apply Z.div_pos|apply Z.div_lt_upper_bound]; lia).
    pose proof (Z.div_mod a 256) as Da; pose proof (Z.div_mod b 256) as Db.
    pose proof (Z.mod_pos_bound a 256); pose proof (Z.mod_pos_bound b 256).
    simpl. destruct (Z.compare_spec (a / 256) (b / 256));
      [destruct (Z.compare_spec (a mod 256) (b mod 256))| |];
      symmetry; first [apply Z.compare_eq_iff | apply Z.compare_lt_iff | apply Z.compare_gt_iff];
      lia.
Qed.

Lemma be_bytes_fold n z acc :
  0 <= z < 256 ^ Z.of_nat n ->
  fold_left (fun acc b => acc * 256 + b) (be_bytes n z) acc
  = acc * 256 ^ Z.of_nat n + z.
Proof.
  revert z acc; induction n as [|n IH]; intros z acc Hz.
  - simpl in *. lia.
  - rewrite Nat2Z.inj_succ, Z.pow_succ_r in * by lia. cbn [be_bytes].
    rewrite fold_left_app, IH by
      (split; [apply Z.div_pos|apply Z.div_lt_upper_bound]; lia).
    simpl. pose proof (Z.div_mod z 256). nia.
Qed.

Lemma from_be_bytes_be n z :
  0 <= z < 256 ^ Z.of_nat n -> from_be_bytes (be_bytes n z) = z.
Proof. intros. unfold from_be_bytes. rewrite be_bytes_fold; [lia|done]. Qed.

Lemma be_bytes_byte n z : Forall (fun b => 0 <= b < 256) (be_bytes n z).
Proof.
  revert z; induction n as [|n IH]; intros z; simpl; [done|].
  apply Forall_app. split; [done|]. repeat constructor; apply Z.mod_pos_bound; lia.
Qed.

Lemma as_bytes_pad bytes n k :
  n = Z.of_nat (length bytes) ->
  as_bytes (mkVertexId (pad_payload bytes) n k) = bytes.
Proof.
  intros ->. unfold as_bytes, pad_payload; simpl.
  by rewrite Nat2Z.id, take_app_length.
Qed.

Lemma try_from_int64_bytes a v :
  try_from_int64 a = Ok v -> 0 <= a /\ as_bytes v = be_bytes 8 a.
Proof.
  unfold try_from_int64, from_typed_bytes.
  rewrite !length_be_bytes. unfold VERTEX_ID_MAX_SIZE.
  repeat case_decide; try discriminate. intros [= <-]. split; [lia|reflexivity].
Qed.

(** Integer identifiers compare, as byte strings, in numeric order. *)
Lemma int_id_order a b va vb :
  a < 2 ^ 63 -> b < 2 ^ 63 ->
  try_from_int64 a = Ok va -> try_from_int64 b = Ok vb ->
  bytes_cmp (as_bytes va) (as_bytes vb) = Z.compare a b.
Proof.
  intros Ha Hb [? ->]%try_from_int64_bytes [? ->]%try_from_int64_bytes.
  apply bytes_cmp_be; change (256 ^ Z.of_nat 8) with (2 ^ 64); lia.
Qed.
