(* ===== verification/Values.v ===== *)
(** * Values and data types

    [linkrs-core/src/types.rs] ([DataType]), [value/value_def.rs] ([Value]),
    [value/null.rs], [value/date_time.rs] (the data), [value/uuid.rs] (the data)
    and [value/value_compare.rs] (equality and order of scalar values).

    A floating-point value is its bit pattern, and comparing two of them is
    [SFcompare] on the numbers the patterns stand for.  A string is its UTF-8
    bytes.  Decimals are those of the library [dec]: a type with the operations
    of [Decimal].  A composite value (vertex, list, map, JSON, ...) is known by
    its constructor and its data type only; the order between two composites of
    one constructor is not modelled. *)

From stdpp Require Import base list strings.
From Stdlib Require Import ZArith Lia SpecFloat.
From S2P Require Import Prelude Types.

(** ** Data types *)

Inductive DataType :=
| TyEmpty | TyUnknown | TyNull | TyBool | TySmallInt | TyInt | TyBigInt | TyFloat | TyDouble
| TyDecimal128 | TyString | TyDate | TyTime | TyDateTime | TyVertex | TyEdge | TyPath
| TyList (element : DataType) | TyMap (value : DataType) | TySet (element : DataType)
| TyGeography | TyDataSet | TyFixedString (n : Z) | TyBlob | TyVector | TyVectorDense (n : Z)
| TyVectorSparse (n : Z) | TyJson | TyJsonB | TyUuid | TyInterval
| TyDecimal (precision scale : Z)
| TyUnion (types : list DataType)
| TyStruct (fields : list (string * DataType))
| TyArray (element : DataType) (size : option Z).

(** ** Values *)

Inductive NullType :=
| NNull | NNaN | NBadData | NBadType | NErrOverflow | NUnknownProp | NDivByZero | NOutOfRange.

#[export] Instance NullType_eq_dec : EqDecision NullType.
Proof. solve_decision. Defined.

Record DateValue := mkDate { d_year : Z; d_month : Z; d_day : Z }.

Record TimeValue := mkTime { t_hour : Z; t_minute : Z; t_sec : Z; t_microsec : Z }.

Record DateTimeValue := mkDateTime {
  dt_year : Z; dt_month : Z; dt_day : Z;
  dt_hour : Z; dt_minute : Z; dt_sec : Z; dt_microsec : Z
}.

(** Its calendar and clock halves. *)
Definition dt_date (dt : DateTimeValue) : DateValue :=
  mkDate (dt_year dt) (dt_month dt) (dt_day dt).

Definition dt_time (dt : DateTimeValue) : TimeValue :=
  mkTime (dt_hour dt) (dt_minute dt) (dt_sec dt) (dt_microsec dt).

#[export] Instance DateValue_eq_dec : EqDecision DateValue.
Proof. solve_decision. Defined.

#[export] Instance TimeValue_eq_dec : EqDecision TimeValue.
Proof. solve_decision. Defined.

#[export] Instance DateTimeValue_eq_dec : EqDecision DateTimeValue.
Proof. solve_decision. Defined.

(** Constructors of composite values, with [EdgeId]. *)
Inductive CompositeKind :=
| CVertex | CEdge | CEdgeHeader | CPath | CList | CMap | CSet | CGeography | CVector | CDataSet
| CJson | CJsonB | CInterval | CEdgeId | CStruct | CArray.

#[export] Instance CompositeKind_eq_dec : EqDecision CompositeKind.
Proof. solve_decision. Defined.

(** [Decimal128Value] over the library [dec]: its text, the parser and the
    order. *)
Class Decimal (Dec : Type) := {
  dec_to_string : Dec -> list Z;
  dec_parse : list Z -> option Dec;
  dec_cmp : Dec -> Dec -> comparison;
  dec_eqb : Dec -> Dec -> bool;
}.

Inductive Value (Dec : Type) :=
| VEmpty
| VNull (n : NullType)
| VBool (b : bool)
| VSmallInt (n : Z)
| VInt (n : Z)
| VBigInt (n : Z)
| VFloat (bits : Z)
| VDouble (bits : Z)
| VDecimal128 (d : Dec)
| VString (s : list Z)
| VFixedString (s : list Z)
| VBlob (b : list Z)
| VDate (d : DateValue)
| VTime (t : TimeValue)
| VDateTime (dt : DateTimeValue)
| VUuid (u : list Z)
| VVertexId (v : VertexId)
| VComposite (k : CompositeKind) (t : DataType).
Arguments VEmpty {_}.
Arguments VNull {_} n.
Arguments VBool {_} b.
Arguments VSmallInt {_} n.
Arguments VInt {_} n.
Arguments VBigInt {_} n.
Arguments VFloat {_} bits.
Arguments VDouble {_} bits.
Arguments VDecimal128 {_} d.
Arguments VString {_} s.
Arguments VFixedString {_} s.
Arguments VBlob {_} b.
Arguments VDate {_} d.
Arguments VTime {_} t.
Arguments VDateTime {_} dt.
Arguments VUuid {_} u.
Arguments VVertexId {_} v.
Arguments VComposite {_} k t.

Module Float.

(** A format: the bits of the fraction and of the exponent. *)
Record format := mkFormat { frac : Z; expo : Z }.

Definition f32 : format := mkFormat 23 8.
Definition f64 : format := mkFormat 52 11.

Definition width (f : format) : Z := frac f + expo f + 1.

Definition emin (f : format) : Z := 3 - 2 ^ (expo f - 1) - (frac f + 1).

(** [from_bits]: the number a bit pattern stands for. *)
Definition of_bits (f : format) (bits : Z) : spec_float :=
  let sign := Z.testbit bits (width f - 1) in
  let m := bits mod 2 ^ frac f in
  let e := (bits / 2 ^ frac f) mod 2 ^ expo f in
  if decide (e = 0) then
    if decide (m = 0) then S754_zero sign else S754_finite sign (Z.to_pos m) (emin f)
  else if decide (e = 2 ^ expo f - 1) then
    if decide (m = 0) then S754_infinity sign else S754_nan
  else S754_finite sign (Z.to_pos (m + 2 ^ frac f)) (e + emin f - 1).

Definition is_nan (x : spec_float) : bool := match x with S754_nan => true | _ => false end.

Definition is_zero (x : spec_float) : bool := match x with S754_zero _ => true | _ => false end.

(** [as f32], [as f64]: from an integer, and from [f32] to [f64]. *)
Definition of_int (f : format) (n : Z) : spec_float :=
  binary_normalize (frac f + 1) (2 ^ (expo f - 1)) n 0 false.

Definition to_f64 (x : spec_float) : spec_float :=
  match x with
  | S754_finite s m e => binary_normalize 53 1024 (cond_Zopp s (Zpos m)) e s
  | _ => x
  end.

(** [a.partial_cmp(&b).unwrap_or(Equal)]. *)
Definition cmp_or_equal (a b : spec_float) : comparison :=
  match SFcompare a b with Some c => c | None => Eq end.

(** [a == b]. *)
Definition eqb (a b : spec_float) : bool :=
  match SFcompare a b with Some Eq => true | _ => false end.

(** [Value::cmp_f32] and [Value::cmp_f64]. *)
Definition total_cmp (a b : spec_float) : comparison :=
  if is_nan a && is_nan b then Eq
  else if is_nan a then Lt
  else if is_nan b then Gt
  else cmp_or_equal a b.

(** The equality of float values. *)
Definition value_eqb (a b : spec_float) : bool := eqb a b || (is_nan a && is_nan b).

(** ** The order of bit patterns *)

Section order.
Context (f : format).
Hypothesis Hfrac : 0 < frac f.
Hypothesis Hexpo : 1 < expo f.

Local Abbreviation half := (2 ^ (width f - 1)).

(** The exponent and the fraction together, the sign removed. *)
Definition mag (bits : Z) : Z := bits mod 2 ^ (width f - 1).

Definition negative (bits : Z) : bool := bool_decide (2 ^ (width f - 1) <= bits).

(** The magnitude of the infinities; above it are the NaNs. *)
Definition inf_mag : Z := (2 ^ expo f - 1) * 2 ^ frac f.

(** The position of a pattern on the line of numbers. *)
Definition key (bits : Z) : Z := if negative bits then - mag bits else mag bits.

Definition of_mag (s : bool) (m : Z) : spec_float :=
  if decide (m / 2 ^ frac f = 0) then
    if decide (m mod 2 ^ frac f = 0) then S754_zero s
    else S754_finite s (Z.to_pos (m mod 2 ^ frac f)) (emin f)
  else if decide (m / 2 ^ frac f = 2 ^ expo f - 1) then
    if decide (m mod 2 ^ frac f = 0) then S754_infinity s else S754_nan
  else S754_finite s (Z.to_pos (m mod 2 ^ frac f + 2 ^ frac f)) (m / 2 ^ frac f + emin f - 1).

Lemma half_split : half = 2 ^ expo f * 2 ^ frac f.
Proof. rewrite <- Z.pow_add_r by lia. f_equal. unfold width. lia. Qed.

Lemma pow_pos : 0 < 2 ^ frac f /\ 2 < 2 ^ expo f.
Proof.
  split; [apply Z.pow_pos_nonneg; lia|].
  change 2 with (2 ^ 1) at 1. apply Z.pow_lt_mono_r; lia.
Qed.

Lemma mag_range bits : 0 <= mag bits < half.
Proof. apply Z.mod_pos_bound. rewrite half_split. pose proof pow_pos. nia. Qed.

Lemma bits_split bits :
  0 <= bits < 2 ^ width f -> bits = mag bits + (if negative bits then half else 0).
Proof.
  intros Hb. replace (width f) with (width f - 1 + 1) in Hb by lia.
  rewrite Z.pow_add_r, Z.pow_1_r in Hb by (unfold width; lia).
  unfold mag, negative. case_bool_decide.
  - replace bits with (bits - half + 1 * half) at 2 by lia.
    rewrite Z.mod_add by lia. rewrite Z.mod_small; lia.
  - rewrite Z.mod_small; lia.
Qed.

Lemma of_bits_mag bits :
  0 <= bits < 2 ^ width f -> of_bits f bits = of_mag (negative bits) (mag bits).
Proof.
  intros Hb. pose proof (bits_split bits Hb) as Hs. pose proof (mag_range bits).
  pose proof pow_pos. pose proof half_split as Hh.
  assert (Ht : Z.testbit bits (width f - 1) = negative bits).
  { rewrite Z.testbit_odd, Z.shiftr_div_pow2 by (unfold width; lia). rewrite Hs at 1.
    destruct (negative bits).
    - replace (mag bits + half) with (mag bits + 1 * half) by lia.
      rewrite Z.div_add by lia. by rewrite Z.div_small.
    - rewrite Z.add_0_r. by rewrite Z.div_small. }
  assert (Hm : bits mod 2 ^ frac f = mag bits mod 2 ^ frac f).
  { rewrite Hs at 1. destruct (negative bits); [|by rewrite Z.add_0_r].
    rewrite Hh. by rewrite Z.mod_add by lia. }
  assert (He : (bits / 2 ^ frac f) mod 2 ^ expo f = mag bits / 2 ^ frac f).
  { assert (mag bits / 2 ^ frac f < 2 ^ expo f) by (apply Z.div_lt_upper_bound; lia).
    assert (0 <= mag bits / 2 ^ frac f) by (apply Z.div_pos; lia).
    rewrite Hs at 1. destruct (negative bits).
    - rewrite Hh, Z.div_add by lia. replace (2 ^ expo f) with (1 * 2 ^ expo f) at 1 by lia.
      rewrite Z.mod_add by lia. by rewrite Z.mod_small.
    - rewrite Z.add_0_r. by rewrite Z.mod_small. }
  unfold of_bits, of_mag. by rewrite Ht, Hm, He.
Qed.

(** The shape of the finite numbers other than zero. *)
Lemma of_mag_finite s m :
  0 < m < inf_mag ->
  exists p e, of_mag s m = S754_finite s p e /\ Zpos p = m - (e - emin f) * 2 ^ frac f /\
    emin f <= e /\ Zpos p < 2 * 2 ^ frac f /\ (e = emin f \/ 2 ^ frac f <= Zpos p).
Proof.
  unfold inf_mag. intros Hm. pose proof pow_pos as [Hp He].
  pose proof (Z.div_mod m (2 ^ frac f) ltac:(lia)) as Hd.
  pose proof (Z.mod_pos_bound m (2 ^ frac f) Hp) as Hr.
  assert (m / 2 ^ frac f < 2 ^ expo f - 1) by (apply Z.div_lt_upper_bound; lia).
  assert (0 <= m / 2 ^ frac f) by (apply Z.div_pos; lia).
  unfold of_mag. case_decide as Hz.
  - rewrite decide_False by lia. eexists _, _. split; [done|].
    rewrite Z2Pos.id by lia. split_and!; lia.
  - rewrite decide_False by lia. eexists _, _. split; [done|].
    rewrite Z2Pos.id by lia. split_and!; nia.
Qed.

Lemma of_mag_zero s : of_mag s 0 = S754_zero s.
Proof.
  unfold of_mag. pose proof pow_pos. rewrite Z.div_0_l, Z.mod_0_l by lia. done.
Qed.

Lemma of_mag_inf s : of_mag s inf_mag = S754_infinity s.
Proof.
  unfold of_mag, inf_mag. pose proof pow_pos. rewrite Z.div_mul, Z.mod_mul by lia.
  rewrite decide_False by lia. rewrite decide_True by done. done.
Qed.

Lemma of_mag_nan s m : inf_mag < m < half -> of_mag s m = S754_nan.
Proof.
  rewrite half_split. unfold of_mag, inf_mag. intros Hm. pose proof pow_pos as [Hp He].
  assert (E : m / 2 ^ frac f = 2 ^ expo f - 1).
  { symmetry. apply (Z.div_unique_pos _ _ _ (m - inf_mag)); unfold inf_mag; lia. }
  pose proof (Z.div_mod m (2 ^ frac f) ltac:(lia)).
  rewrite E, decide_False, decide_True, decide_False by (done || lia). done.
Qed.

Lemma inf_mag_half : 0 < inf_mag < half.
Proof. rewrite half_split. unfold inf_mag. pose proof pow_pos. nia. Qed.

(** The classes of a magnitude. *)
Lemma mag_cases m :
  0 <= m < half -> m = 0 \/ 0 < m < inf_mag \/ m = inf_mag \/ inf_mag < m < half.
Proof. pose proof inf_mag_half. lia. Qed.

Lemma finite_cmp a b p e q g :
  Zpos p = a - (e - emin f) * 2 ^ frac f -> emin f <= e -> Zpos p < 2 * 2 ^ frac f ->
  (e = emin f \/ 2 ^ frac f <= Zpos p) ->
  Zpos q = b - (g - emin f) * 2 ^ frac f -> emin f <= g -> Zpos q < 2 * 2 ^ frac f ->
  (g = emin f \/ 2 ^ frac f <= Zpos q) ->
  match Z.compare e g with Lt => Lt | Gt => Gt | Eq => Pos.compare p q end = Z.compare a b.
Proof.
  intros Hp He Hp2 Hpn Hq Hg Hq2 Hqn. pose proof pow_pos as [HF _].
  destruct (Z.compare_spec e g) as [<- | H | H].
  - change (Pos.compare p q) with (Z.compare (Zpos p) (Zpos q)). rewrite Hp, Hq.
    destruct (Z.compare_spec a b); [apply Z.compare_eq_iff|apply Z.compare_lt_iff|apply Z.compare_gt_iff]; lia.
  - symmetry. apply Z.compare_lt_iff. nia.
  - symmetry. apply Z.compare_gt_iff. nia.
Qed.

(** Patterns that are not NaN compare like their keys. *)
Lemma of_mag_cmp s t a b :
  0 <= a <= inf_mag -> 0 <= b <= inf_mag ->
  SFcompare (of_mag s a) (of_mag t b) =
    Some (Z.compare (if s then - a else a) (if t then - b else b)).
Proof.
  intros Ha Hb. pose proof inf_mag_half as Hi.
  destruct (decide (a = 0)) as [->|]; [rewrite of_mag_zero|
    destruct (decide (a = inf_mag)) as [->|]; [rewrite of_mag_inf|
      destruct (of_mag_finite s a ltac:(lia)) as (p & e & -> & Hp & He & Hp2 & Hpn)]];
  (destruct (decide (b = 0)) as [->|]; [rewrite of_mag_zero|
    destruct (decide (b = inf_mag)) as [->|]; [rewrite of_mag_inf|
      destruct (of_mag_finite t b ltac:(lia)) as (q & g & -> & Hq & Hg & Hq2 & Hqn)]]);
  destruct s, t; cbn [SFcompare]; f_equal; symmetry;
  try (apply Z.compare_lt_iff; lia); try (apply Z.compare_gt_iff; lia);
  try (apply Z.compare_eq_iff; lia).
  - rewrite Z.compare_opp. rewrite <- (finite_cmp b a q g p e) by done.
    rewrite (Z.compare_antisym e g). destruct (Z.compare e g); simpl; try done.
    by rewrite <- Pos.compare_antisym.
  - by rewrite <- (finite_cmp a b p e q g).
Qed.

(** The NaN patterns. *)
Definition nan_bits (bits : Z) : bool := bool_decide (inf_mag < mag bits).

Lemma is_nan_bits bits :
  0 <= bits < 2 ^ width f -> is_nan (of_bits f bits) = nan_bits bits.
Proof.
  intros Hb. rewrite of_bits_mag by done. pose proof (mag_range bits) as Hm. unfold nan_bits.
  destruct (mag_cases _ Hm) as [E|[E|[E|E]]].
  - rewrite E, of_mag_zero, bool_decide_false; [done|pose proof inf_mag_half; lia].
  - destruct (of_mag_finite (negative bits) _ E) as (p & e & -> & _).
    rewrite bool_decide_false; [done|lia].
  - rewrite E, of_mag_inf, bool_decide_false; [done|lia].
  - rewrite of_mag_nan by done. rewrite bool_decide_true; [done|lia].
Qed.

Lemma is_zero_bits bits :
  0 <= bits < 2 ^ width f -> is_zero (of_bits f bits) = bool_decide (mag bits = 0).
Proof.
  intros Hb. rewrite of_bits_mag by done. pose proof (mag_range bits) as Hm.
  pose proof inf_mag_half.
  destruct (mag_cases _ Hm) as [E|[E|[E|E]]].
  - by rewrite E, of_mag_zero.
  - destruct (of_mag_finite (negative bits) _ E) as (p & e & -> & _).
    rewrite bool_decide_false; [done|lia].
  - rewrite E, of_mag_inf, bool_decide_false; [done|lia].
  - rewrite of_mag_nan by done. rewrite bool_decide_false; [done|lia].
Qed.

(** The rank of a pattern in the order of values: NaNs first, the zeros equal. *)
Definition rank_of (bits : Z) : Z := if nan_bits bits then - inf_mag - 1 else key bits.

(** [total_cmp] compares ranks. *)
Lemma total_cmp_rank a b :
  0 <= a < 2 ^ width f -> 0 <= b < 2 ^ width f ->
  total_cmp (of_bits f a) (of_bits f b) = Z.compare (rank_of a) (rank_of b).
Proof.
  intros Ha Hb. unfold total_cmp. rewrite !is_nan_bits by done. unfold rank_of.
  pose proof (mag_range a); pose proof (mag_range b). pose proof inf_mag_half.
  assert (Hk : forall x, nan_bits x = false -> 0 <= mag x -> - inf_mag <= key x).
  { unfold nan_bits, key. intros x Hx%bool_decide_eq_false. destruct (negative x); lia. }
  destruct (nan_bits a) eqn:Na, (nan_bits b) eqn:Nb; simpl; symmetry.
  - by rewrite Z.compare_refl.
  - apply Z.compare_lt_iff. specialize (Hk b Nb). lia.
  - apply Z.compare_gt_iff. specialize (Hk a Na). lia.
  - unfold nan_bits in *. apply bool_decide_eq_false in Na, Nb.
    unfold cmp_or_equal. rewrite !of_bits_mag, of_mag_cmp by (done || lia). done.
Qed.

End order.
End Float.

Module Val.
Section values.
Context {Dec : Type} `{Decimal Dec}.

(** ** Types *)

(** [str::chars().count()]: the bytes that do not continue a character. *)
Definition char_count (s : list Z) : Z :=
  Z.of_nat (length (filter (fun b => ~ (128 <= b <= 191)) s)).

Definition get_type (v : Value Dec) : DataType :=
  match v with
  | VEmpty => TyEmpty
  | VNull _ => TyNull
  | VBool _ => TyBool
  | VSmallInt _ => TySmallInt
  | VInt _ => TyInt
  | VBigInt _ => TyBigInt
  | VFloat _ => TyFloat
  | VDouble _ => TyDouble
  | VDecimal128 _ => TyDecimal128
  | VString _ => TyString
  | VFixedString s => TyFixedString (char_count s)
  | VBlob _ => TyBlob
  | VDate _ => TyDate
  | VTime _ => TyTime
  | VDateTime _ => TyDateTime
  | VUuid _ => TyUuid
  | VVertexId _ => TyVertex
  | VComposite _ t => t
  end.

(** The types a composite of each constructor can have. *)
Definition composite_type (k : CompositeKind) (t : DataType) : bool :=
  match k, t with
  | CVertex, TyVertex | CEdge, TyEdge | CEdgeHeader, TyEdge | CPath, TyPath | CList, TyList _
  | CMap, TyMap _ | CSet, TySet _ | CGeography, TyGeography | CVector, TyVectorDense _
  | CDataSet, TyDataSet | CJson, TyJson | CJsonB, TyJsonB | CInterval, TyInterval
  | CEdgeId, TyEdge | CStruct, TyStruct _ | CArray, TyArray _ None => true
  | _, _ => false
  end.

(** ** Order *)

Definition null_type_priority (n : NullType) : Z :=
  match n with
  | NNull => 0 | NNaN => 1 | NBadData => 2 | NBadType => 2 | NErrOverflow => 3
  | NUnknownProp => 4 | NDivByZero => 5 | NOutOfRange => 6
  end.

Definition cmp_null (a b : NullType) : comparison :=
  match a, b with
  | NNull, NNull | NNaN, NNaN | NBadData, NBadData | NBadType, NBadType => Eq
  | _, _ => Z.compare (null_type_priority a) (null_type_priority b)
  end.

Definition cmp_bool (a b : bool) : comparison :=
  Z.compare (if a then 1 else 0) (if b then 1 else 0).

(** [Ordering::then]. *)
Definition then_cmp (c d : comparison) : comparison := match c with Eq => d | _ => c end.

Definition cmp_date (a b : DateValue) : comparison :=
  then_cmp (Z.compare (d_year a) (d_year b))
    (then_cmp (Z.compare (d_month a) (d_month b)) (Z.compare (d_day a) (d_day b))).

Definition cmp_time (a b : TimeValue) : comparison :=
  then_cmp (Z.compare (t_hour a) (t_hour b))
    (then_cmp (Z.compare (t_minute a) (t_minute b))
       (then_cmp (Z.compare (t_sec a) (t_sec b)) (Z.compare (t_microsec a) (t_microsec b)))).

Definition cmp_datetime (a b : DateTimeValue) : comparison :=
  then_cmp (Z.compare (dt_year a) (dt_year b))
    (then_cmp (Z.compare (dt_month a) (dt_month b))
       (then_cmp (Z.compare (dt_day a) (dt_day b))
          (then_cmp (Z.compare (dt_hour a) (dt_hour b))
             (then_cmp (Z.compare (dt_minute a) (dt_minute b))
                (then_cmp (Z.compare (dt_sec a) (dt_sec b))
                   (Z.compare (dt_microsec a) (dt_microsec b))))))).

Definition composite_priority (k : CompositeKind) : Z :=
  match k with
  | CVertex => 15 | CEdge => 16 | CEdgeHeader => 32 | CPath => 17 | CList => 18 | CMap => 19
  | CSet => 20 | CGeography => 21 | CJson => 22 | CJsonB => 23 | CDataSet => 24 | CVector => 25
  | CInterval => 27 | CEdgeId => 29 | CStruct => 30 | CArray => 31
  end.

Definition type_priority (v : Value Dec) : Z :=
  match v with
  | VEmpty => 0 | VNull _ => 1 | VBool _ => 2 | VSmallInt _ => 3 | VInt _ => 4 | VBigInt _ => 5
  | VFloat _ => 6 | VDouble _ => 7 | VDecimal128 _ => 8 | VDate _ => 9 | VTime _ => 10
  | VDateTime _ => 11 | VString _ => 12 | VFixedString _ => 13 | VBlob _ => 14 | VUuid _ => 26
  | VVertexId _ => 28 | VComposite k _ => composite_priority k
  end.

Definition cmp_by_type_priority (a b : Value Dec) : comparison :=
  Z.compare (type_priority a) (type_priority b).

(** Numbers of mixed comparisons: an integer, a float or a double. *)
Inductive number := NInt (n : Z) | NF32 (x : spec_float) | NF64 (x : spec_float).

Definition as_number (v : Value Dec) : option number :=
  match v with
  | VSmallInt n | VInt n | VBigInt n => Some (NInt n)
  | VFloat b => Some (NF32 (Float.of_bits Float.f32 b))
  | VDouble b => Some (NF64 (Float.of_bits Float.f64 b))
  | _ => None
  end.

(** Between an integer and a float, and between the two float types, the
    comparison is made in the float type, or the wider one. *)
Definition cmp_numbers (a b : number) : comparison :=
  match a, b with
  | NInt x, NInt y => Z.compare x y
  | NF32 x, NF32 y | NF64 x, NF64 y => Float.total_cmp x y
  | NInt x, NF32 y => Float.cmp_or_equal (Float.of_int Float.f32 x) y
  | NF32 x, NInt y => Float.cmp_or_equal x (Float.of_int Float.f32 y)
  | NInt x, NF64 y => Float.cmp_or_equal (Float.of_int Float.f64 x) y
  | NF64 x, NInt y => Float.cmp_or_equal x (Float.of_int Float.f64 y)
  | NF32 x, NF64 y => Float.cmp_or_equal (Float.to_f64 x) y
  | NF64 x, NF32 y => Float.cmp_or_equal x (Float.to_f64 y)
  end.

(** The composites whose order has an arm of its own; the others are equal to
    every value of their constructor. *)
Definition ordered_composite (k : CompositeKind) : bool :=
  match k with CVector | CDataSet | CEdgeId => false | _ => true end.

Definition json_kind (k : CompositeKind) : bool :=
  match k with CJson | CJsonB => true | _ => false end.

(** [Ord for Value]; [None] for two composites whose contents would decide. *)
Definition value_cmp (a b : Value Dec) : option comparison :=
  match as_number a, as_number b with
  | Some x, Some y => Some (cmp_numbers x y)
  | _, _ =>
      match a, b with
      | VNull x, VNull y => Some (cmp_null x y)
      | VBool x, VBool y => Some (cmp_bool x y)
      | VDecimal128 x, VDecimal128 y => Some (dec_cmp x y)
      | VBlob x, VBlob y | VString x, VString y | VFixedString x, VFixedString y
      | VUuid x, VUuid y => Some (bytes_cmp x y)
      | VDate x, VDate y => Some (cmp_date x y)
      | VTime x, VTime y => Some (cmp_time x y)
      | VDateTime x, VDateTime y => Some (cmp_datetime x y)
      | VComposite j _, VComposite k _ =>
          if decide (j = k) then
            if ordered_composite k then None else Some (cmp_by_type_priority a b)
          else if json_kind j && json_kind k then None
          else Some (cmp_by_type_priority a b)
      | _, _ => Some (cmp_by_type_priority a b)
      end
  end.

(** ** Equality *)

Definition eq_numbers (a b : number) : bool :=
  match a, b with
  | NInt x, NInt y => bool_decide (x = y)
  | NF32 x, NF32 y | NF64 x, NF64 y => Float.value_eqb x y
  | NInt x, NF32 y => Float.eqb (Float.of_int Float.f32 x) y
  | NF32 x, NInt y => Float.eqb x (Float.of_int Float.f32 y)
  | NInt x, NF64 y => Float.eqb (Float.of_int Float.f64 x) y
  | NF64 x, NInt y => Float.eqb x (Float.of_int Float.f64 y)
  | NF32 x, NF64 y => Float.eqb (Float.to_f64 x) y
  | NF64 x, NF32 y => Float.eqb x (Float.to_f64 y)
  end.

(** [PartialEq for Value]; [None] for two composites whose contents would decide. *)
Definition value_eq (a b : Value Dec) : option bool :=
  match as_number a, as_number b with
  | Some x, Some y => Some (eq_numbers x y)
  | _, _ =>
      match a, b with
      | VEmpty, VEmpty => Some true
      | VNull x, VNull y => Some (bool_decide (x = y))
      | VBool x, VBool y => Some (Bool.eqb x y)
      | VDecimal128 x, VDecimal128 y => Some (dec_eqb x y)
      | VBlob x, VBlob y | VString x, VString y | VFixedString x, VFixedString y
      | VUuid x, VUuid y => Some (bool_decide (x = y))
      | VDate x, VDate y => Some (bool_decide (x = y))
      | VTime x, VTime y => Some (bool_decide (x = y))
      | VDateTime x, VDateTime y => Some (bool_decide (x = y))
      | VVertexId x, VVertexId y => Some (bool_decide (x = y))
      | VComposite j _, VComposite k _ =>
          if decide (j = k) then None
          else if json_kind j && json_kind k then None else Some false
      | _, _ => Some false
      end
  end.

End values.
End Val.
