(* ===== verification/SnapshotTracker.v ===== *)
(** * Snapshot tracker

    [linkrs-transaction/src/snapshot_tracker.rs]: the reference-counted set of
    snapshot timestamps that pin history, with the cached minimum that garbage
    collection reads.  Instants are integers and the clock reading is the
    argument [now]; a method that takes [&self] and mutates atomics is a
    function from tracker to tracker.

    The abstract tracker is a finite multiset of timestamps; [tracker_refines]
    relates the five fields of the code to it and is preserved by every
    operation that runs without interruption; two overlapping registrations
    of one timestamp are [overlapping_adds_lose_pin]. *)

From stdpp Require Import base gmap gmultiset sets list.
From Stdlib Require Import ZArith Lia.
From S2P Require Import Prelude Types.

(** [StorageErrorKind::InvalidInput] is the only error the tracker builds. *)
Inductive StorageError := InvalidInput.

Record SnapshotTracker := mkTracker {
  snapshots : gmap Z Z;
  ordered_snapshots : gmap Z Z;
  registered_at : gmap Z Z;
  min_active : Z;
  active_references : Z;
}.

Module Tracker.

Definition new : SnapshotTracker := mkTracker ∅ ∅ ∅ U64_MAX 0.

(** [AtomicU64::fetch_min] on the cached minimum. *)
Definition update_min_active (ts : Timestamp) (st : SnapshotTracker) : SnapshotTracker :=
  mkTracker (snapshots st) (ordered_snapshots st) (registered_at st)
    (Z.min (min_active st) ts) (active_references st).

(** [add_snapshot] reads the entry and, when there is none, inserts one in a
    second step: the guard of [get] is held over the increment, but nothing is
    held between a miss and the insertion.  [true] means done. *)
Definition add_lookup (ts : Timestamp) (st : SnapshotTracker) : SnapshotTracker * bool :=
  let refs := wrap_u64 (active_references st + 1) in
  match snapshots st !! ts with
  | Some count =>
      (mkTracker (<[ts := wrap_u64 (count + 1)]> (snapshots st)) (ordered_snapshots st)
         (registered_at st) (min_active st) refs, true)
  | None =>
      (mkTracker (snapshots st) (ordered_snapshots st) (registered_at st) (min_active st) refs,
       false)
  end.

Definition add_insert (now : Z) (ts : Timestamp) (st : SnapshotTracker) : SnapshotTracker :=
  update_min_active ts
    (mkTracker (<[ts := 1]> (snapshots st)) (<[ts := 1]> (ordered_snapshots st))
       (<[ts := now]> (registered_at st)) (min_active st) (active_references st)).

(** One call run without interruption. *)
Definition add_snapshot (now : Z) (ts : Timestamp) (st : SnapshotTracker)
  : SnapshotTracker * result unit StorageError :=
  match add_lookup ts st with
  | (st1, true) => (st1, Ok tt)
  | (st1, false) => (add_insert now ts st1, Ok tt)
  end.

Definition release_snapshot (ts : Timestamp) (st : SnapshotTracker)
  : SnapshotTracker * result unit StorageError :=
  match snapshots st !! ts with
  | Some count =>
      let new_count := wrap_u64 (count - 1) in
      let refs := wrap_u64 (active_references st - 1) in
      if decide (new_count = 0) then
        let ordered := delete ts (ordered_snapshots st) in
        let m := if decide (min_active st = ts)
                 then default U64_MAX (first_key ordered) else min_active st in
        (mkTracker (delete ts (snapshots st)) ordered (delete ts (registered_at st)) m refs,
         Ok tt)
      else
        (mkTracker (<[ts := new_count]> (snapshots st)) (ordered_snapshots st)
           (registered_at st) (min_active st) refs, Ok tt)
  | None => (st, Err InvalidInput)
  end.

Definition min_active_snapshot (st : SnapshotTracker) : Timestamp :=
  if decide (min_active st = U64_MAX) then U64_MAX else min_active st.

Definition cleanup_threshold (st : SnapshotTracker) : Timestamp := min_active_snapshot st.

Definition is_active (st : SnapshotTracker) (ts : Timestamp) : bool :=
  bool_decide (is_Some (snapshots st !! ts)).

Definition clear (st : SnapshotTracker) : SnapshotTracker := mkTracker ∅ ∅ ∅ U64_MAX 0.

Definition contains_snapshot (st : SnapshotTracker) (ts : Timestamp) : bool :=
  bool_decide (is_Some (snapshots st !! ts)).

Definition distinct_count (st : SnapshotTracker) : nat := size (ordered_snapshots st).

Definition ref_count (st : SnapshotTracker) (ts : Timestamp) : option Z := snapshots st !! ts.

Definition active_count (st : SnapshotTracker) : Z := active_references st.

(** The greatest [now - registered_at], if any. *)
Definition oldest_age (now : Z) (st : SnapshotTracker) : option Z :=
  foldr (fun t acc => Some (from_option (Z.max (now - t)) (now - t) acc)) None
    (map_to_list (registered_at st)).*2.

(** ** The abstract tracker *)

Inductive op := OpAdd (now : Z) (ts : Timestamp) | OpRelease (ts : Timestamp) | OpClear.

(** The concrete effect and answer of one call. *)
Definition run_op (o : op) (st : SnapshotTracker)
  : SnapshotTracker * result unit StorageError :=
  match o with
  | OpAdd now ts => add_snapshot now ts st
  | OpRelease ts => release_snapshot ts st
  | OpClear => (clear st, Ok tt)
  end.

(** The abstract effect and answer: a multiset of held timestamps. *)
Definition abs_op (o : op) (held : gmultiset Z) : gmultiset Z * result unit StorageError :=
  match o with
  | OpAdd _ ts => ({[+ ts +]} ⊎ held, Ok tt)
  | OpRelease ts =>
      if decide (ts ∈ held) then (held ∖ {[+ ts +]}, Ok tt) else (held, Err InvalidInput)
  | OpClear => (∅, Ok tt)
  end.

Fixpoint run_ops (os : list op) (st : SnapshotTracker)
  : SnapshotTracker * list (result unit StorageError) :=
  match os with
  | [] => (st, [])
  | o :: os' =>
      let '(st1, r) := run_op o st in
      let '(st2, rs) := run_ops os' st1 in (st2, r :: rs)
  end.

Fixpoint abs_ops (os : list op) (held : gmultiset Z)
  : gmultiset Z * list (result unit StorageError) :=
  match os with
  | [] => (held, [])
  | o :: os' =>
      let '(h1, r) := abs_op o held in
      let '(h2, rs) := abs_ops os' h1 in (h2, r :: rs)
  end.

(** Structural invariant of the code's fields alone. *)
Record tracker_inv (st : SnapshotTracker) : Prop := {
  ti_ordered : dom (ordered_snapshots st) = dom (snapshots st);
  ti_registered : dom (registered_at st) = dom (snapshots st);
  ti_keys : forall ts, is_Some (snapshots st !! ts) -> is_u64 ts;
  ti_min : min_active st = min_key_or U64_MAX (snapshots st);
}.

(** The simulation relation. *)
Record tracker_refines (st : SnapshotTracker) (held : gmultiset Z) : Prop := {
  tr_inv : tracker_inv st;
  tr_counts : forall ts,
    snapshots st !! ts =
    if decide (multiplicity ts held = 0%nat) then None
    else Some (Z.of_nat (multiplicity ts held));
  tr_size : Z.of_nat (size held) <= U64_MAX;
  tr_refs : active_references st = Z.of_nat (size held);
}.

Lemma new_inv : tracker_inv new.
Proof. split; try done. intros ts [? H]. simpl in H. by rewrite lookup_empty in H. Qed.

Lemma tracker_new_refines : tracker_refines new ∅.
Proof.
  split; [apply new_inv| |done|done]. intros ts. simpl.
  rewrite lookup_empty, multiplicity_empty. by case_decide.
Qed.

Lemma min_active_snapshot_eq st : min_active_snapshot st = min_active st.
Proof. unfold min_active_snapshot. case_decide; congruence. Qed.

Lemma min_key_or_dom {A B} d (m1 : gmap Z A) (m2 : gmap Z B) :
  dom m1 = dom m2 -> min_key_or d m1 = min_key_or d m2.
Proof.
  intros Hd. assert (forall k, is_Some (m1 !! k) <-> is_Some (m2 !! k)) as Hk.
  { intros k. by rewrite <- !elem_of_dom, Hd. }
  apply min_key_or_unique.
  - intros k Hm. apply Hk in Hm as [v Hv]. by eapply min_key_or_le.
  - destruct (min_key_or_cases d m2) as [[-> E]|H]; [right|left; by apply Hk].
    split; [|done]. by rewrite dom_empty_L in Hd; apply dom_empty_inv_L in Hd.
Qed.

(** Inserting a key lowers the minimum to it. *)
Lemma min_key_or_insert {A} d (m : gmap Z A) k v :
  (forall x, is_Some (m !! x) -> x <= d) -> k <= d ->
  min_key_or d (<[k := v]> m) = Z.min (min_key_or d m) k.
Proof.
  intros Hd Hk. apply min_key_or_unique.
  - intros x [->|[? [w Hw]]]%lookup_insert_is_Some; [lia|].
    apply min_key_or_le with (d := d) in Hw. lia.
  - left. destruct (Z.min_spec (min_key_or d m) k) as [[Hlt ->]|[_ ->]].
    + rewrite lookup_insert_ne by lia.
      destruct (min_key_or_cases d m) as [[-> E]|]; [lia|done].
    + by rewrite lookup_insert_eq.
Qed.

(** Overwriting a present key keeps it. *)
Lemma min_key_or_update {A} d (m : gmap Z A) k v :
  is_Some (m !! k) -> min_key_or d (<[k := v]> m) = min_key_or d m.
Proof. intros [w Hw]. apply min_key_or_dom, dom_insert_lookup_L. eauto. Qed.

(** Deleting a key that is not the minimum keeps it. *)
Lemma min_key_or_delete_ne {A} d (m : gmap Z A) k :
  is_Some (m !! k) -> min_key_or d m <> k -> min_key_or d (delete k m) = min_key_or d m.
Proof.
  intros [w Hw] Hne. apply min_key_or_unique.
  - intros x [v [_ Hv]%lookup_delete_Some]. by eapply min_key_or_le.
  - left. rewrite lookup_delete_ne by done.
    destruct (min_key_or_cases d m) as [[-> E]|]; [by rewrite lookup_empty in Hw|done].
Qed.

(** The two steps of an uninterrupted registration, taken together. *)
Lemma add_snapshot_eq now ts st :
  add_snapshot now ts st =
  match snapshots st !! ts with
  | Some count =>
      (mkTracker (<[ts := wrap_u64 (count + 1)]> (snapshots st)) (ordered_snapshots st)
         (registered_at st) (min_active st) (wrap_u64 (active_references st + 1)), Ok tt)
  | None =>
      (update_min_active ts
         (mkTracker (<[ts := 1]> (snapshots st)) (<[ts := 1]> (ordered_snapshots st))
            (<[ts := now]> (registered_at st)) (min_active st)
            (wrap_u64 (active_references st + 1))), Ok tt)
  end.
Proof. unfold add_snapshot, add_lookup. by destruct (snapshots st !! ts). Qed.

Lemma add_snapshot_inv now ts st :
  is_u64 ts -> tracker_inv st -> tracker_inv (add_snapshot now ts st).1.
Proof.
  intros Hts [Ho Hr Hk Hm]. rewrite add_snapshot_eq.
  destruct (snapshots st !! ts) as [c|] eqn:E; split; simpl.
  - by rewrite dom_insert_lookup_L.
  - by rewrite dom_insert_lookup_L.
  - intros x [->|[? ?]]%lookup_insert_is_Some; auto.
  - by rewrite min_key_or_update.
  - by rewrite !dom_insert_L, Ho.
  - by rewrite !dom_insert_L, Hr.
  - intros x [->|[? ?]]%lookup_insert_is_Some; auto.
  - rewrite min_key_or_insert, Hm; [done|intros x ?%Hk|]; unfold is_u64 in *; lia.
Qed.

Lemma release_snapshot_inv ts st :
  tracker_inv st -> tracker_inv (release_snapshot ts st).1.
Proof.
  intros [Ho Hr Hk Hm]. unfold release_snapshot.
  destruct (snapshots st !! ts) as [c|] eqn:E; [|by split].
  destruct (decide (wrap_u64 (c - 1) = 0)) as [Hz|Hz]; split; cbn [fst snapshots
    ordered_snapshots registered_at min_active active_references].
  - by rewrite !dom_delete_L, Ho.
  - by rewrite !dom_delete_L, Hr.
  - intros x [v [_ Hv]%lookup_delete_Some]. eauto.
  - destruct (decide (min_active st = ts)) as [Hmin|Hmin].
    + apply (min_key_or_dom U64_MAX (delete ts (ordered_snapshots st))).
      by rewrite !dom_delete_L, Ho.
    + rewrite min_key_or_delete_ne; [done|eauto|congruence].
  - by rewrite dom_insert_lookup_L.
  - by rewrite dom_insert_lookup_L.
  - intros x [->|[? ?]]%lookup_insert_is_Some; eauto.
  - rewrite min_key_or_update; eauto.
Qed.

Lemma clear_inv st : tracker_inv (clear st).
Proof. apply new_inv. Qed.

(** ** Refinement *)

Lemma multiplicity_le_size ts (held : gmultiset Z) : (multiplicity ts held <= size held)%nat.
Proof.
  assert (multiplicity ts held *: {[+ ts +]} ⊆ held) as H%gmultiset_subseteq_size.
  { intros x. rewrite multiplicity_scalar_mul, multiplicity_singleton. case_decide; subst; lia. }
  rewrite gmultiset_size_scalar_mul, gmultiset_size_singleton in H. lia.
Qed.

Lemma tracker_add_refines now ts st held :
  is_u64 ts -> Z.of_nat (size held) < U64_MAX -> tracker_refines st held ->
  tracker_refines (add_snapshot now ts st).1 ({[+ ts +]} ⊎ held) /\
  (add_snapshot now ts st).2 = Ok tt.
Proof.
  intros Hts Hb [Hinv Hc Hs Hr].
  assert (Hsz : Z.of_nat (size ({[+ ts +]} ⊎ held)) = Z.of_nat (size held) + 1).
  { rewrite gmultiset_size_disj_union, gmultiset_size_singleton. lia. }
  pose proof (multiplicity_le_size ts held).
  pose proof (add_snapshot_inv now ts st Hts Hinv) as Hinv'.
  split; [|rewrite add_snapshot_eq; by case_match].
  split; [done| |lia|].
  - intros x. pose proof (Hc x) as Hx. pose proof (Hc ts) as Ht.
    rewrite add_snapshot_eq, multiplicity_disj_union, multiplicity_singleton.
    destruct (snapshots st !! ts) as [c|] eqn:E; simpl; destruct (decide (x = ts)) as [->|Hne];
      rewrite ?lookup_insert_eq, ?lookup_insert_ne by done;
      repeat case_decide; simplify_eq/=; try lia; f_equal; try lia; auto.
    rewrite wrap_u64_small; unfold is_u64; lia.
  - rewrite Hsz, add_snapshot_eq, Hr.
    case_match; simpl; apply wrap_u64_small; unfold is_u64; lia.
Qed.

Lemma release_snapshot_fields ts st c :
  snapshots st !! ts = Some c ->
  (release_snapshot ts st).2 = Ok tt /\
  active_references (release_snapshot ts st).1 = wrap_u64 (active_references st - 1) /\
  snapshots (release_snapshot ts st).1 =
    (if decide (wrap_u64 (c - 1) = 0) then delete ts (snapshots st)
     else <[ts := wrap_u64 (c - 1)]> (snapshots st)).
Proof. intros H. unfold release_snapshot. rewrite H. by case_decide. Qed.

Lemma release_snapshot_missing ts st :
  snapshots st !! ts = None -> release_snapshot ts st = (st, Err InvalidInput).
Proof. intros H. unfold release_snapshot. by rewrite H. Qed.

Lemma release_refines ts st held :
  tracker_refines st held ->
  tracker_refines (release_snapshot ts st).1 (abs_op (OpRelease ts) held).1 /\
  (release_snapshot ts st).2 = (abs_op (OpRelease ts) held).2.
Proof.
  intros Href. pose proof Href as [Hinv Hc Hs Hr].
  pose proof (multiplicity_le_size ts held) as Hle.
  pose proof (release_snapshot_inv ts st Hinv) as Hinv'.
  pose proof (Hc ts) as Ht. cbn [abs_op].
  destruct (decide (ts ∈ held)) as [Hin|Hin].
  2:{ apply not_elem_of_multiplicity in Hin. rewrite decide_True in Ht by done.
      by rewrite release_snapshot_missing. }
  assert (Hsz : Z.of_nat (size (held ∖ {[+ ts +]})) = Z.of_nat (size held) - 1).
  { rewrite gmultiset_size_difference, gmultiset_size_singleton; [|multiset_solver].
    rewrite elem_of_multiplicity in Hin. lia. }
  rewrite elem_of_multiplicity in Hin. rewrite decide_False in Ht by lia.
  destruct (release_snapshot_fields _ _ _ Ht) as (Hok & Hrefs & Hmap).
  rewrite wrap_u64_small in Hmap by (unfold is_u64; lia).
  split; [|done]. split; [done| |simpl; lia|].
  - intros x. specialize (Hc x). rewrite Hmap. cbn [fst].
    rewrite multiplicity_difference, multiplicity_singleton.
    destruct (decide (x = ts)) as [->|Hne].
    + destruct (decide (Z.of_nat (multiplicity ts held) - 1 = 0)).
      * by rewrite lookup_delete_eq, decide_True by lia.
      * rewrite lookup_insert_eq, decide_False by lia. f_equal; lia.
    + rewrite Nat.sub_0_r, <- Hc.
      case_decide; rewrite ?lookup_insert_ne, ?lookup_delete_ne by done; done.
  - rewrite Hrefs. cbn [fst]. rewrite Hsz, Hr. apply wrap_u64_small. unfold is_u64. lia.
Qed.

Lemma run_op_refines o st held :
  (forall now ts, o = OpAdd now ts -> is_u64 ts) -> Z.of_nat (size held) < U64_MAX ->
  tracker_refines st held ->
  tracker_refines (run_op o st).1 (abs_op o held).1 /\ (run_op o st).2 = (abs_op o held).2.
Proof.
  intros Hts Hb Href. destruct o as [now ts|ts|]; simpl.
  - apply tracker_add_refines; eauto.
  - by apply release_refines.
  - split; [apply tracker_new_refines|done].
Qed.

Lemma abs_op_size o held : (size (abs_op o held).1 <= S (size held))%nat.
Proof.
  destruct o as [now ts|ts|]; simpl.
  - rewrite gmultiset_size_disj_union, gmultiset_size_singleton. lia.
  - case_decide; simpl; [|lia].
    assert (held ∖ {[+ ts +]} ⊆ held) as ?%gmultiset_subseteq_size by multiset_solver. lia.
  - rewrite (gmultiset_size_empty (A:=Z)). lia.
Qed.

Definition valid_op (o : op) : Prop :=
  match o with OpAdd _ ts => is_u64 ts | _ => True end.

Lemma run_ops_refines os st held :
  Forall valid_op os -> Z.of_nat (size held + length os) <= U64_MAX ->
  tracker_refines st held ->
  tracker_refines (run_ops os st).1 (abs_ops os held).1 /\
  (run_ops os st).2 = (abs_ops os held).2.
Proof.
  revert st held. induction os as [|o os IH]; intros st held Hv Hb Href; [done|].
  apply Forall_cons in Hv as [Ho Hv].
  destruct (run_op_refines o st held) as [Href' Hans].
  { intros now ts ->. exact Ho. } { simpl in Hb. lia. } { done. }
  pose proof (abs_op_size o held) as Hsz. simpl in *.
  destruct (run_op o st) as [st1 r] eqn:E1. destruct (abs_op o held) as [h1 r'] eqn:E2.
  simpl in *. subst r'.
  destruct (IH st1 h1 Hv) as [Href2 Hans2]; [lia|done|].
  destruct (run_ops os st1), (abs_ops os h1). simpl in *. by subst.
Qed.

(** What the cached minimum means for a refined tracker. *)
Lemma refines_min st held :
  tracker_refines st held ->
  (held = ∅ /\ min_active_snapshot st = U64_MAX) \/
  (min_active_snapshot st ∈ held /\ forall ts, ts ∈ held -> min_active_snapshot st <= ts).
Proof.
  intros [[_ _ Hk Hm] Hc _ _]. rewrite min_active_snapshot_eq, Hm.
  assert (forall ts, is_Some (snapshots st !! ts) <-> ts ∈ held) as Hiff.
  { intros ts. rewrite Hc, elem_of_multiplicity. case_decide; split; intros HS; try lia; eauto.
    by destruct HS. }
  destruct (min_key_or_cases U64_MAX (snapshots st)) as [[E ->]|Hin].
  - left. split; [|done]. apply gmultiset_eq. intros x. rewrite multiplicity_empty.
    specialize (Hc x). rewrite E, lookup_empty in Hc. by case_decide.
  - right. split; [by apply Hiff|]. intros ts [v Hv]%Hiff. by eapply min_key_or_le.
Qed.

(** The snapshot tracker implements a multiset of held timestamps: over any
    sequence of registrations, releases and clears from a fresh tracker (fewer
    than 2^64 of them, so that no counter wraps), every call answers as the
    multiset does (a release fails exactly when the timestamp is not held),
    reference counts are multiplicities, the active count is the multiset's
    size, and the cached minimum is the least held timestamp, or [u64::MAX]
    exactly when nothing is held. *)
Theorem tracker_implements_multiset os :
  Forall valid_op os -> Z.of_nat (length os) <= U64_MAX ->
  let st := (run_ops os new).1 in
  let held := (abs_ops os ∅).1 in
  (run_ops os new).2 = (abs_ops os ∅).2 /\
  (forall ts, ref_count st ts =
     if decide (ts ∈ held) then Some (Z.of_nat (multiplicity ts held)) else None) /\
  active_count st = Z.of_nat (size held) /\
  ((held = ∅ /\ min_active_snapshot st = U64_MAX) \/
   (min_active_snapshot st ∈ held /\ forall ts, ts ∈ held -> min_active_snapshot st <= ts)).
Proof.
  intros Hv Hb. destruct (run_ops_refines os new ∅ Hv) as [Href Hans].
  { by rewrite (gmultiset_size_empty (A:=Z)). } { apply tracker_new_refines. }
  cbv zeta. split; [done|]. split; [|split; [apply Href|by apply refines_min]].
  intros ts. unfold ref_count. rewrite (tr_counts _ _ Href).
  destruct (decide (ts ∈ _)) as [Hin|Hin].
  - rewrite elem_of_multiplicity in Hin. by rewrite decide_False by lia.
  - rewrite not_elem_of_multiplicity in Hin. by rewrite decide_True.
Qed.

Lemma tracker_implements_multiset_witness :
  let os := [OpAdd 0 5; OpAdd 1 3; OpRelease 7; OpAdd 2 3; OpRelease 3] in
  (run_ops os new).2 = [Ok tt; Ok tt; Err InvalidInput; Ok tt; Ok tt] /\
  min_active_snapshot (run_ops os new).1 = 3 /\
  active_count (run_ops os new).1 = Z.of_nat (size (abs_ops os ∅).1).
Proof.
  cbv zeta. split; [reflexivity|]. split; [reflexivity|].
  refine (proj1 (proj2 (proj2 (tracker_implements_multiset
    [OpAdd 0 5; OpAdd 1 3; OpRelease 7; OpAdd 2 3; OpRelease 3] _ _)))).
  - repeat constructor; simpl; unfold U64_MAX; lia.
  - simpl. unfold U64_MAX. lia.
Defined.

(** ** Overlapping registrations *)

(** Two registrations of a timestamp nobody holds: both look up before either
    inserts. *)
Definition overlapping_adds (now1 now2 : Z) (ts : Timestamp) (st : SnapshotTracker)
  : SnapshotTracker :=
  add_insert now2 ts (add_insert now1 ts (add_lookup ts (add_lookup ts st).1).1).

(** Two overlapping registrations of one timestamp leave a single pin: both
    calls succeed, yet the first release removes the entry while its second
    holder is still counted, and a minimum that was this timestamp moves on. *)
Theorem overlapping_adds_lose_pin now1 now2 ts st :
  tracker_inv st -> 0 <= ts < min_active st -> snapshots st !! ts = None ->
  0 <= active_references st < U64_MAX - 1 ->
  let st' := overlapping_adds now1 now2 ts st in
  ref_count st' ts = Some 1 /\ active_count st' = active_count st + 2 /\
  min_active_snapshot st' = ts /\
  let r := release_snapshot ts st' in
  r.2 = Ok tt /\ is_active r.1 ts = false /\ active_count r.1 = active_count st + 1 /\
  min_active_snapshot r.1 = min_active_snapshot st.
Proof.
  intros [Ho Hr Hk Hm] Hts Hn Hb. cbv zeta.
  assert (Hw : forall x, 0 <= x <= U64_MAX -> wrap_u64 x = x).
  { intros x Hx. by apply wrap_u64_small. }
  unfold overlapping_adds, add_lookup. simpl. rewrite Hn. simpl. rewrite Hn.
  unfold add_insert, update_min_active, ref_count, active_count, release_snapshot. simpl.
  rewrite !(Hw (active_references st + 1)) by lia.
  rewrite !(Hw (active_references st + 1 + 1)) by lia.
  rewrite lookup_insert_eq. change (wrap_u64 (1 - 1)) with 0.
  replace (Z.min (Z.min (min_active st) ts) ts) with ts by lia.
  rewrite (decide_True (P := 0 = 0)), (decide_True (P := ts = ts)) by done. simpl.
  rewrite (Hw (active_references st + 1 + 1 - 1)) by lia.
  split; [done|]. split; [lia|].
  split; [unfold min_active_snapshot; simpl; by case_decide|].
  split; [done|]. split; [|split; [lia|]].
  - unfold is_active. simpl. rewrite lookup_delete_eq. by apply bool_decide_eq_false_2, is_Some_None.
  - unfold min_active_snapshot at 1. simpl.
    assert (Hon : ordered_snapshots st !! ts = None).
    { apply not_elem_of_dom. rewrite Ho. by apply not_elem_of_dom. }
    rewrite insert_insert_eq, delete_insert_id by done.
    change (default U64_MAX (first_key (ordered_snapshots st)))
      with (min_key_or U64_MAX (ordered_snapshots st)).
    by rewrite (min_key_or_dom U64_MAX _ _ Ho), <- Hm.
Qed.

End Tracker.

#[export] Hint Resolve Tracker.add_snapshot_inv Tracker.release_snapshot_inv
  Tracker.clear_inv Tracker.new_inv : linkrs.
