(* ===== verification/VersionManager.v ===== *)
(** * MVCC version manager

    [linkrs-transaction/src/mvcc.rs] and [mvcc/]: timestamp allocation, the
    table of write-timestamp slots, the read frontier and reader admission.
    The record keeps the code's atomics and lock-protected map; condition
    variables and lock objects carry no state.  Each method that holds its
    locks throughout is one function here; [VersionSteps] interleaves the
    methods that do not.  [now] is the reading of the monotonic clock. *)

From stdpp Require Import base gmap sets list sorting.
From Stdlib Require Import ZArith Lia.
From S2P Require Import Prelude Types SnapshotTracker.

Definition RELEASED_TIMESTAMP : Timestamp := 0.

Inductive VersionManagerError :=
| VmTooManyTransactions
| InvalidTimestamp (ts : Timestamp)
| VmTimeout
| SnapshotTrackingFailed
| TimestampExhausted.

Inductive WriteTimestampState := WPending | WCommitted | WAborted.

#[export] Instance WriteTimestampState_eq_dec : EqDecision WriteTimestampState.
Proof. solve_decision. Defined.

Inductive TimestampSlot := SlotPending | SlotCommitted | SlotAborted | SlotVanished.

#[export] Instance TimestampSlot_eq_dec : EqDecision TimestampSlot.
Proof. solve_decision. Defined.

(** [VersionManagerConfig]; durations in milliseconds. *)
Record VersionManagerConfig := mkVmConfig {
  max_concurrent_reads : Z;
  wait_timeout : Z;
  write_reap_timeout : Z;
}.

Record VersionManager := mkVm {
  write_ts : Z;
  read_ts : Z;
  read_pending : Z;
  write_pending : Z;
  vm_config : VersionManagerConfig;
  snapshot_tracker : SnapshotTracker;
  write_states : gmap Z (Z * WriteTimestampState);
}.

Module Vm.

Definition default_config : VersionManagerConfig := mkVmConfig 1000 5000 60000.

Definition with_max_concurrent_reads (max : Z) (c : VersionManagerConfig) :=
  mkVmConfig max (wait_timeout c) (write_reap_timeout c).

Definition with_write_reap_timeout (timeout : Z) (c : VersionManagerConfig) :=
  mkVmConfig (max_concurrent_reads c) (wait_timeout c) timeout.

Definition with_config (config : VersionManagerConfig) : VersionManager :=
  mkVm 1 1 0 0 config Tracker.new ∅.

Definition new : VersionManager := with_config default_config.

(** Field updates. *)
Definition set_write_ts (ts : Z) (vm : VersionManager) :=
  mkVm ts (read_ts vm) (read_pending vm) (write_pending vm) (vm_config vm)
    (snapshot_tracker vm) (write_states vm).
Definition set_read_ts (ts : Z) (vm : VersionManager) :=
  mkVm (write_ts vm) ts (read_pending vm) (write_pending vm) (vm_config vm)
    (snapshot_tracker vm) (write_states vm).
Definition set_tracker (t : SnapshotTracker) (vm : VersionManager) :=
  mkVm (write_ts vm) (read_ts vm) (read_pending vm) (write_pending vm) (vm_config vm)
    t (write_states vm).
Definition set_states (m : gmap Z (Z * WriteTimestampState)) (vm : VersionManager) :=
  mkVm (write_ts vm) (read_ts vm) (read_pending vm) (write_pending vm) (vm_config vm)
    (snapshot_tracker vm) m.
(** [AtomicI32::fetch_add] / [fetch_sub] on the two pending counters. *)
Definition add_read_pending (d : Z) (vm : VersionManager) :=
  mkVm (write_ts vm) (read_ts vm) (wrap_i32 (read_pending vm + d)) (write_pending vm)
    (vm_config vm) (snapshot_tracker vm) (write_states vm).
Definition add_write_pending (d : Z) (vm : VersionManager) :=
  mkVm (write_ts vm) (read_ts vm) (read_pending vm) (wrap_i32 (write_pending vm + d))
    (vm_config vm) (snapshot_tracker vm) (write_states vm).

Definition slot_state (vm : VersionManager) (ts : Timestamp) : option WriteTimestampState :=
  snd <$> write_states vm !! ts.

Definition pending_count (vm : VersionManager) : Z :=
  wrap_i32 (read_pending vm + write_pending vm).

Definition get_safe_gc_timestamp (vm : VersionManager) : Timestamp :=
  Tracker.min_active_snapshot (snapshot_tracker vm).

Definition read_timestamp (vm : VersionManager) : Timestamp := read_ts vm.

Definition write_timestamp (vm : VersionManager) : Timestamp := write_ts vm.

(** [reserve_timestamp]: the compare-exchange loop retries until it succeeds,
    so its outcome is that of its last, successful round. *)
Definition reserve_timestamp : ST VersionManager VersionManagerError Timestamp :=
  fun vm =>
    match checked_add_u64 (write_ts vm) 1 with
    | None => (vm, Err TimestampExhausted)
    | Some next =>
        if is_allocatable_timestamp next then (set_write_ts next vm, Ok next)
        else (vm, Err TimestampExhausted)
    end.

(** [snapshot_tracker.add_snapshot(ts)], errors mapped as both callers do. *)
Definition track (now : Z) (ts : Timestamp) : ST VersionManager VersionManagerError unit :=
  fun vm =>
    let '(t, r) := Tracker.add_snapshot now ts (snapshot_tracker vm) in
    (set_tracker t vm, map_err (fun _ => SnapshotTrackingFailed) r).

(** [let _ = snapshot_tracker.release_snapshot(ts)]. *)
Definition untrack (ts : Timestamp) (vm : VersionManager) : VersionManager :=
  set_tracker (Tracker.release_snapshot ts (snapshot_tracker vm)).1 vm.

Definition insert_slot (ts : Timestamp) (now : Z) (s : WriteTimestampState)
    (vm : VersionManager) : VersionManager :=
  set_states (<[ts := (now, s)]> (write_states vm)) vm.

(** ** Frontier *)

(** The loop of [advance_read_frontier]: one slot is removed per round, so the
    number of slots bounds the rounds. *)
Fixpoint advance_loop (fuel : nat) (frontier : Z) (states : gmap Z (Z * WriteTimestampState))
  : Z * gmap Z (Z * WriteTimestampState) :=
  match fuel with
  | O => (frontier, states)
  | S fuel' =>
      let next := saturating_add_u64 frontier 1 in
      match snd <$> states !! next with
      | Some WCommitted | Some WAborted => advance_loop fuel' next (delete next states)
      | _ => (frontier, states)
      end
  end.

Definition advance_read_frontier (vm : VersionManager) : VersionManager :=
  let '(f, states) := advance_loop (size (write_states vm)) (read_ts vm) (write_states vm) in
  set_read_ts f (set_states states vm).

(** The settle block shared by publishing, finishing and reaping: a [Pending]
    slot takes its final state, its snapshot pin and pending count are
    released; any other slot is left alone. *)
Definition settle_slot (ts : Timestamp) (s : WriteTimestampState) (vm : VersionManager)
  : VersionManager :=
  match write_states vm !! ts with
  | Some (acquired, WPending) =>
      add_write_pending (-1) (untrack ts (insert_slot ts acquired s vm))
  | _ => vm
  end.

(** ** Writers *)

Definition try_next_write_timestamp (now : Z)
  : ST VersionManager VersionManagerError Timestamp :=
  let! ts := reserve_timestamp in
  do! st_modify (add_write_pending 1) in
  do! track now ts in
  do! st_modify (insert_slot ts now WPending) in
  st_ret ts.

Definition next_write_timestamp (now : Z)
  : ST VersionManager VersionManagerError Timestamp := try_next_write_timestamp now.

Definition acquire_insert_timestamp (now : Z)
  : ST VersionManager VersionManagerError Timestamp :=
  let! ts := reserve_timestamp in
  do! track now ts in
  do! st_modify (insert_slot ts now WPending) in
  do! st_modify (add_write_pending 1) in
  st_ret ts.

Definition finish_write_timestamp (ts : Timestamp) (s : WriteTimestampState)
    (vm : VersionManager) : VersionManager :=
  advance_read_frontier (settle_slot ts s vm).

Definition abort_write_timestamp (ts : Timestamp) (vm : VersionManager) : VersionManager :=
  finish_write_timestamp ts WAborted vm.

Definition allocate_commit_timestamp (now : Z) (start_ts : Timestamp)
  : ST VersionManager VersionManagerError Timestamp :=
  let! commit_ts := reserve_timestamp in
  do! st_modify (settle_slot start_ts WCommitted) in
  do! st_modify (insert_slot commit_ts now WCommitted) in
  do! st_modify advance_read_frontier in
  st_ret commit_ts.

Definition reserve_commit_timestamp (now : Z) (start_ts : Timestamp)
  : ST VersionManager VersionManagerError Timestamp :=
  let! vm := st_get in
  match slot_state vm start_ts with
  | Some WPending =>
      let! commit_ts := reserve_timestamp in
      do! st_modify (insert_slot commit_ts now WPending) in
      st_ret commit_ts
  | _ => st_err (InvalidTimestamp start_ts)
  end.

Definition publish_commit_slot (now : Z) (commit_ts : Timestamp) (vm : VersionManager)
  : VersionManager :=
  match write_states vm !! commit_ts with
  | Some (acquired, WPending) => insert_slot commit_ts acquired WCommitted vm
  | Some _ => vm
  | None => insert_slot commit_ts now WCommitted vm
  end.

Definition publish_reserved_commit (now : Z) (start_ts commit_ts : Timestamp)
    (vm : VersionManager) : VersionManager :=
  advance_read_frontier (publish_commit_slot now commit_ts (settle_slot start_ts WCommitted vm)).

Definition commit_ordered (now : Z) (start : Timestamp)
  : ST VersionManager VersionManagerError Timestamp :=
  let! commit_ts := reserve_commit_timestamp now start in
  do! st_modify (publish_reserved_commit now start commit_ts) in
  st_ret commit_ts.

Definition age_le (a b : Timestamp * Z) : Prop := a.2 <= b.2.

#[export] Instance age_le_dec : RelDecision age_le.
Proof. intros a b. unfold age_le. apply _. Defined.

Definition timestamp_slot (vm : VersionManager) (ts : Timestamp) : TimestampSlot :=
  match slot_state vm ts with
  | Some WPending => SlotPending
  | Some WCommitted => SlotCommitted
  | Some WAborted => SlotAborted
  | None => SlotVanished
  end.

(** Ages of the pending slots, oldest first. *)
Definition pending_write_ages (now : Z) (vm : VersionManager) : list (Timestamp * Z) :=
  reverse (merge_sort age_le
    ((fun e => (e.1, now - e.2.1)) <$>
       (filter (fun e => e.2.2 = WPending) (sorted_entries (write_states vm))))).

(** ** Reaper and resets *)

Definition expired_slots (timeout : Z) (owned : gset Z) (now : Z) (vm : VersionManager)
  : list Timestamp :=
  (filter (fun e => e.2.2 = WPending /\ (e.1 ∉ owned) /\ (timeout < now - e.2.1))
     (sorted_entries (write_states vm))).*1.

(** The slots were read under the same lock, so each is still [Pending] when
    the loop reaches it; the code checks again all the same. *)
Fixpoint reap_loop (expired : list Timestamp) (vm : VersionManager) : VersionManager * Z :=
  match expired with
  | [] => (vm, 0)
  | ts :: rest =>
      match slot_state vm ts with
      | Some WPending =>
          let '(vm', n) := reap_loop rest (settle_slot ts WAborted vm) in (vm', n + 1)
      | _ => reap_loop rest vm
      end
  end.

Definition reap_expired_write_timestamps (timeout : Z) (owned : gset Z) (now : Z)
    (vm : VersionManager) : VersionManager * Z :=
  let '(vm', reaped) := reap_loop (expired_slots timeout owned now vm) vm in
  (if decide (reaped > 0) then advance_read_frontier vm' else vm', reaped).

Definition init_ts (ts : Timestamp) (vm : VersionManager) : VersionManager :=
  mkVm ts ts (read_pending vm) (write_pending vm) (vm_config vm)
    (Tracker.clear (snapshot_tracker vm)) ∅.

Definition clear (vm : VersionManager) : VersionManager :=
  mkVm (write_ts vm) 0 0 0 (vm_config vm) (Tracker.clear (snapshot_tracker vm)) ∅.

(** ** Readers *)

(** One round of [acquire_read_timestamp]: [None] is the wait on the condition
    variable.  [max_concurrent_reads as i32] truncates. *)
Definition acquire_read_round (now : Z) (vm : VersionManager)
  : option (VersionManager * result Timestamp VersionManagerError) :=
  if decide (0 <= read_pending vm) then
    if decide (read_pending vm >= wrap_i32 (max_concurrent_reads (vm_config vm))) then None
    else
      let vm1 := add_read_pending 1 vm in
      let ts := read_ts vm1 in
      match track now ts vm1 with
      | (vm2, Ok _) => Some (vm2, Ok ts)
      | (vm2, Err _) => Some (add_read_pending (-1) vm2, Err SnapshotTrackingFailed)
      end
  else None.

(** What one round of [acquire_read_timestamp_with_timeout] does. *)
Inductive read_round :=
| RoundAcquired (vm : VersionManager) (ts : Timestamp)
| RoundGaveUp (vm : VersionManager)
| RoundWait (remaining : Z).

(** One round of [acquire_read_timestamp_with_timeout], [elapsed] after its
    start.  A [RoundWait] whose wait itself times out returns nothing. *)
Definition acquire_read_timeout_round (now elapsed timeout : Z) (vm : VersionManager)
  : read_round :=
  let wait := if decide (elapsed >= timeout) then RoundGaveUp vm
              else RoundWait (timeout - elapsed) in
  if decide (0 <= read_pending vm) then
    if decide (read_pending vm >= wrap_i32 (max_concurrent_reads (vm_config vm))) then wait
    else
      let vm1 := add_read_pending 1 vm in
      let ts := read_ts vm1 in
      match track now ts vm1 with
      | (vm2, Ok _) => RoundAcquired vm2 ts
      | (vm2, Err _) => RoundGaveUp (add_read_pending (-1) vm2)
      end
  else wait.

Definition release_read_timestamp_at (ts : Timestamp) (vm : VersionManager) : VersionManager :=
  add_read_pending (-1) (untrack ts vm).

Definition release_read_timestamp (vm : VersionManager) : VersionManager :=
  release_read_timestamp_at (read_ts vm) vm.

(** ** Frontier lemmas *)

Definition terminal (s : WriteTimestampState) : bool :=
  match s with WPending => false | _ => true end.

(** Result of the frontier loop: it swallows exactly the run of settled slots
    above the frontier and stops in front of the first slot that is not. *)
Record advanced (f : Z) (st : gmap Z (Z * WriteTimestampState))
    (f' : Z) (st' : gmap Z (Z * WriteTimestampState)) : Prop := {
  adv_le : f <= f';
  adv_run : forall ts, f < ts <= f' -> exists e, st !! ts = Some e /\ terminal e.2 = true;
  adv_kept : forall ts, ~ (f < ts <= f') -> st' !! ts = st !! ts;
  adv_gone : forall ts, f < ts <= f' -> st' !! ts = None;
  adv_stop : forall e, st' !! (f' + 1) = Some e -> e.2 = WPending;
}.

Lemma advance_loop_spec fuel f st :
  (size st <= fuel)%nat -> f <= U64_MAX ->
  (forall ts, is_Some (st !! ts) -> ts < U64_MAX) ->
  advanced f st (advance_loop fuel f st).1 (advance_loop fuel f st).2.
Proof.
  revert f st. induction fuel as [|fuel IH]; intros f st Hsz Hf Hb; simpl.
  { assert (st = ∅) as -> by (apply map_size_empty_inv; lia).
    split; simpl; try done; try lia.  }
  unfold saturating_add_u64.
  destruct (decide (f = U64_MAX)) as [->|Hne].
  { replace (Z.min (U64_MAX + 1) U64_MAX) with U64_MAX by lia.
    destruct (st !! U64_MAX) as [e|] eqn:E; [specialize (Hb U64_MAX); rewrite E in Hb;
      specialize (Hb ltac:(eauto)); lia|]. simpl.
    split; simpl; try done; try lia. intros e He.
    specialize (Hb (U64_MAX + 1)). rewrite He in Hb. specialize (Hb ltac:(eauto)). lia. }
  rewrite Z.min_l by lia.
  assert (Hstop : (forall e, st !! (f + 1) = Some e -> e.2 = WPending) ->
    advanced f st f st).
  { intros H. split; try done; lia. }
  destruct (st !! (f + 1)) as [[a w]|] eqn:E; [|by apply Hstop].
  destruct (terminal w) eqn:Hw; [|destruct w; try done; apply Hstop; by intros ? [= <-]].
  assert (Hnext : advanced f st (advance_loop fuel (f + 1) (delete (f + 1) st)).1
                    (advance_loop fuel (f + 1) (delete (f + 1) st)).2).
  { destruct (IH (f + 1) (delete (f + 1) st)) as [H1 H2 H3 H4 H5].
    - rewrite map_size_delete_Some by eauto. lia.
    - lia.
    - intros ts [e [_ He]%lookup_delete_Some]. eauto.
    - split; [lia| | | |done].
      + intros ts Hts. destruct (decide (ts = f + 1)) as [->|]; [eauto|].
        destruct (H2 ts) as (e & [_ He]%lookup_delete_Some & ?); [lia|eauto].
      + intros ts Hts. rewrite H3 by lia. apply lookup_delete_ne. lia.
      + intros ts Hts. destruct (decide (ts = f + 1)) as [->|]; [|apply H4; lia].
        rewrite H3 by lia. apply lookup_delete_eq. }
  destruct w; done.
Qed.

Definition slots_below (b : Z) (vm : VersionManager) : Prop :=
  forall ts, is_Some (write_states vm !! ts) -> ts < b.

Lemma advance_spec vm :
  read_ts vm <= U64_MAX -> slots_below U64_MAX vm ->
  advanced (read_ts vm) (write_states vm)
    (read_ts (advance_read_frontier vm)) (write_states (advance_read_frontier vm)).
Proof.
  intros Hr Hb. unfold advance_read_frontier.
  pose proof (advance_loop_spec (size (write_states vm)) (read_ts vm) (write_states vm)) as H.
  destruct (advance_loop _ _ _) as [f st]. simpl in *. by apply H.
Qed.

Lemma advance_frame vm :
  write_ts (advance_read_frontier vm) = write_ts vm /\
  read_pending (advance_read_frontier vm) = read_pending vm /\
  write_pending (advance_read_frontier vm) = write_pending vm /\
  vm_config (advance_read_frontier vm) = vm_config vm /\
  snapshot_tracker (advance_read_frontier vm) = snapshot_tracker vm.
Proof. unfold advance_read_frontier. by destruct (advance_loop _ _ _). Qed.

(** ** Allocation *)

Lemma reserve_timestamp_ok vm vm' ts :
  reserve_timestamp vm = (vm', Ok ts) ->
  ts = write_ts vm + 1 /\ vm' = set_write_ts ts vm /\ is_allocatable_timestamp ts = true.
Proof.
  unfold reserve_timestamp, checked_add_u64. intros H. repeat case_match; simplify_eq. auto.
Qed.

Lemma reserve_timestamp_err vm vm' e :
  reserve_timestamp vm = (vm', Err e) -> vm' = vm /\ e = TimestampExhausted.
Proof. unfold reserve_timestamp. intros H. repeat case_match; simplify_eq; auto. Qed.

(** The allocator fails exactly at the sentinels. *)
Lemma reserve_timestamp_total vm :
  0 <= write_ts vm <= U64_MAX ->
  (write_ts vm + 1 < MAX_TIMESTAMP /\
     reserve_timestamp vm = (set_write_ts (write_ts vm + 1) vm, Ok (write_ts vm + 1))) \/
  (MAX_TIMESTAMP <= write_ts vm + 1 /\ reserve_timestamp vm = (vm, Err TimestampExhausted)).
Proof.
  intros Hr. unfold reserve_timestamp, checked_add_u64.
  case_decide as Hb; [|right; unfold MAX_TIMESTAMP; split; [lia|done]].
  pose proof (is_allocatable_spec (write_ts vm + 1)) as Hspec.
  destruct (is_allocatable_timestamp (write_ts vm + 1)) eqn:E.
  - left. split; [apply Hspec; [unfold is_u64; lia|done]|done].
  - right. split; [|done]. destruct (decide (write_ts vm + 1 < MAX_TIMESTAMP)); [|lia].
    exfalso. assert (is_u64 (write_ts vm + 1)) as Hu by (unfold is_u64; lia).
    apply Hspec in Hu. destruct Hu as [_ Hu]. discriminate Hu. lia.
Qed.

Lemma track_ok now ts vm :
  track now ts vm =
  (set_tracker (Tracker.add_snapshot now ts (snapshot_tracker vm)).1 vm, Ok tt).
Proof.
  unfold track. rewrite Tracker.add_snapshot_eq. by destruct (snapshots (snapshot_tracker vm) !! ts).
Qed.

(** ** Settling *)

Lemma settle_slot_pending ts s vm a :
  write_states vm !! ts = Some (a, WPending) ->
  settle_slot ts s vm = add_write_pending (-1) (untrack ts (insert_slot ts a s vm)).
Proof. unfold settle_slot. by intros ->. Qed.

Lemma settle_slot_other ts s vm :
  slot_state vm ts <> Some WPending -> settle_slot ts s vm = vm.
Proof.
  unfold settle_slot, slot_state. destruct (write_states vm !! ts) as [[a []]|]; simpl; done.
Qed.

Lemma settle_slot_states ts s vm x :
  write_states (settle_slot ts s vm) !! x =
  if decide (x = ts /\ slot_state vm ts = Some WPending)
  then (fun e => (e.1, s)) <$> write_states vm !! x else write_states vm !! x.
Proof.
  unfold settle_slot, slot_state. case_decide as H.
  - destruct H as [-> H]. destruct (write_states vm !! ts) as [[a w]|] eqn:E; simplify_eq/=.
    by rewrite lookup_insert_eq.
  - destruct (write_states vm !! ts) as [[a []]|] eqn:E; try done. simpl.
    rewrite lookup_insert_ne; [done|]. intros ->. apply H. split; [done|]. done.
Qed.

Lemma slot_state_settle ts s vm x :
  slot_state (settle_slot ts s vm) x =
  if decide (x = ts /\ slot_state vm ts = Some WPending) then Some s else slot_state vm x.
Proof.
  unfold slot_state at 1. rewrite settle_slot_states. case_decide as H; [|done].
  destruct H as [-> H]. unfold slot_state in H. by destruct (write_states vm !! ts).
Qed.

Lemma settle_slot_frame ts s vm :
  write_ts (settle_slot ts s vm) = write_ts vm /\ read_ts (settle_slot ts s vm) = read_ts vm /\
  read_pending (settle_slot ts s vm) = read_pending vm /\
  vm_config (settle_slot ts s vm) = vm_config vm.
Proof. unfold settle_slot. by destruct (write_states vm !! ts) as [[a []]|]. Qed.

Lemma settle_slot_tracker ts s vm :
  snapshot_tracker (settle_slot ts s vm) =
  if decide (slot_state vm ts = Some WPending)
  then (Tracker.release_snapshot ts (snapshot_tracker vm)).1 else snapshot_tracker vm.
Proof.
  unfold settle_slot, slot_state. destruct (write_states vm !! ts) as [[a []]|]; simpl; try done;
    by case_decide.
Qed.

End Vm.
