(* ===== verification/VersionSteps.v ===== *)
(** * Interleavings of the version manager

    The methods of [VersionManager] that release their locks half way are cut
    here at those points, and a step relation interleaves the pieces of any
    number of readers, writers, committers and the reaper.  Ghost components
    record what a thread between two pieces knows: timestamps reserved and not
    yet pinned, pinned and not yet registered, loaded by a reader and not yet
    pinned, pinned by a reader, and the owner of each reserved commit slot. *)

From stdpp Require Import base gmap gmultiset sets list relations.
From Stdlib Require Import ZArith Lia.
From S2P Require Import Prelude Types SnapshotTracker VersionManager.

Record vstate := mkVs {
  v_vm : VersionManager;
  v_flight : gset Z;
  v_tracked : gset Z;
  v_loading : gmultiset Z;
  v_readers : gmultiset Z;
  v_reserved : gmap Z Z;
}.

Module VmSteps.
Import Vm.

(** A fresh manager, or one restarted at a recovered timestamp. *)
Inductive initial : vstate -> Prop :=
| initial_new config : initial (mkVs (with_config config) ∅ ∅ ∅ ∅ ∅)
| initial_restart config ts :
    0 <= ts < MAX_TIMESTAMP ->
    initial (mkVs (init_ts ts (with_config config)) ∅ ∅ ∅ ∅ ∅).

Definition room (vm : VersionManager) : Prop :=
  active_references (snapshot_tracker vm) < U64_MAX.

Inductive vstep : vstate -> vstate -> Prop :=
(** [reserve_timestamp], as the first piece of a write acquisition or of
    [allocate_commit_timestamp]. *)
| step_reserve vm fl tr ld rd rs vm' ts :
    reserve_timestamp vm = (vm', Ok ts) ->
    vstep (mkVs vm fl tr ld rd rs) (mkVs vm' ({[ts]} ∪ fl) tr ld rd rs)
(** [write_pending.fetch_add(1)]. *)
| step_bump vm fl tr ld rd rs :
    vstep (mkVs vm fl tr ld rd rs) (mkVs (add_write_pending 1 vm) fl tr ld rd rs)
(** [snapshot_tracker.add_snapshot(ts)] of a writer. *)
| step_track vm fl tr ld rd rs ts now :
    ts ∈ fl -> room vm ->
    vstep (mkVs vm fl tr ld rd rs)
      (mkVs (track now ts vm).1 (fl ∖ {[ts]}) ({[ts]} ∪ tr) ld rd rs)
(** [write_states.lock().insert(ts, Pending)]. *)
| step_insert vm fl tr ld rd rs ts now :
    ts ∈ tr ->
    vstep (mkVs vm fl tr ld rd rs)
      (mkVs (insert_slot ts now WPending vm) fl (tr ∖ {[ts]}) ld rd rs)
(** The locked part of [allocate_commit_timestamp]. *)
| step_allocate_commit vm fl tr ld rd rs ts start now :
    ts ∈ fl ->
    vstep (mkVs vm fl tr ld rd rs)
      (mkVs (advance_read_frontier (insert_slot ts now WCommitted
               (settle_slot start WCommitted vm))) (fl ∖ {[ts]}) tr ld rd rs)
| step_reserve_commit vm fl tr ld rd rs start now vm' c :
    reserve_commit_timestamp now start vm = (vm', Ok c) ->
    vstep (mkVs vm fl tr ld rd rs) (mkVs vm' fl tr ld rd (<[c := start]> rs))
| step_publish vm fl tr ld rd rs start c now :
    rs !! c = Some start ->
    vstep (mkVs vm fl tr ld rd rs)
      (mkVs (publish_reserved_commit now start c vm) fl tr ld rd rs)
| step_finish vm fl tr ld rd rs ts s :
    terminal s = true ->
    vstep (mkVs vm fl tr ld rd rs) (mkVs (finish_write_timestamp ts s vm) fl tr ld rd rs)
| step_reap vm fl tr ld rd rs timeout owned now :
    vstep (mkVs vm fl tr ld rd rs)
      (mkVs (reap_expired_write_timestamps timeout owned now vm).1 fl tr ld rd rs)
(** Reader admission up to the frontier load. *)
| step_read_load vm fl tr ld rd rs :
    0 <= read_pending vm < wrap_i32 (max_concurrent_reads (vm_config vm)) ->
    vstep (mkVs vm fl tr ld rd rs)
      (mkVs (add_read_pending 1 vm) fl tr ({[+ read_ts vm +]} ⊎ ld) rd rs)
(** [snapshot_tracker.add_snapshot(ts)] of a reader. *)
| step_read_track vm fl tr ld rd rs ts now :
    ts ∈ ld -> room vm ->
    vstep (mkVs vm fl tr ld rd rs)
      (mkVs (track now ts vm).1 fl tr (ld ∖ {[+ ts +]}) ({[+ ts +]} ⊎ rd) rs)
| step_read_release vm fl tr ld rd rs ts :
    ts ∈ rd ->
    vstep (mkVs vm fl tr ld rd rs)
      (mkVs (release_read_timestamp_at ts vm) fl tr ld (rd ∖ {[+ ts +]}) rs).

Definition reachable (s : vstate) : Prop := exists s0, initial s0 /\ rtc vstep s0 s.

(** ** Invariant *)

(** A writer's pin: registered with the tracker and not yet settled. *)
Definition pinned (vm : VersionManager) (tr : gset Z) (rs : gmap Z Z) (ts : Z) : Prop :=
  ts ∈ tr \/ (slot_state vm ts = Some WPending /\ rs !! ts = None).

#[export] Instance pinned_dec vm tr rs ts : Decision (pinned vm tr rs ts).
Proof. unfold pinned. apply _. Defined.

Definition pins (vm : VersionManager) (tr : gset Z) (rs : gmap Z Z) (ts : Z) : nat :=
  if decide (pinned vm tr rs ts) then 1%nat else 0%nat.

(** Everything but the frontier being fully advanced. *)
Record vbase (s : vstate) : Prop := {
  vb_range : 0 <= read_ts (v_vm s) <= write_ts (v_vm s) /\ write_ts (v_vm s) < MAX_TIMESTAMP;
  vb_slots : forall ts e, write_states (v_vm s) !! ts = Some e ->
    ts <= write_ts (v_vm s) /\ (e.2 = WPending -> read_ts (v_vm s) < ts);
  vb_flight : forall ts, ts ∈ v_flight s ∪ v_tracked s ->
    read_ts (v_vm s) < ts <= write_ts (v_vm s) /\ write_states (v_vm s) !! ts = None /\
    v_reserved s !! ts = None;
  vb_disj : v_flight s ## v_tracked s;
  vb_cover : forall ts, read_ts (v_vm s) < ts <= write_ts (v_vm s) ->
    ts ∈ v_flight s ∪ v_tracked s \/ is_Some (write_states (v_vm s) !! ts);
  vb_reserved : forall c st, v_reserved s !! c = Some st -> st < c <= write_ts (v_vm s);
  vb_readers : forall r, r ∈ v_readers s \/ r ∈ v_loading s -> 0 <= r <= read_ts (v_vm s);
  vb_held : exists held, Tracker.tracker_refines (snapshot_tracker (v_vm s)) held /\
    forall ts, multiplicity ts held =
      (multiplicity ts (v_readers s) +
       pins (v_vm s) (v_tracked s) (v_reserved s) ts)%nat;
}.

(** The slot in front of the frontier is never settled. *)
Definition vblocked (vm : VersionManager) : Prop :=
  forall e, write_states vm !! (read_ts vm + 1) = Some e -> e.2 = WPending.

Definition vinv (s : vstate) : Prop := vbase s /\ vblocked (v_vm s).

Lemma MAX_lt_U64 : MAX_TIMESTAMP < U64_MAX.
Proof. unfold MAX_TIMESTAMP. lia. Qed.

Lemma vbase_slots_below s : vbase s -> slots_below U64_MAX (v_vm s).
Proof.
  intros [Hr Hs _ _ _ _ _ _] ts [e He]. apply Hs in He. pose proof MAX_lt_U64. lia.
Qed.

Lemma pins_ext vm vm' tr tr' rs rs' ts :
  (pinned vm tr rs ts <-> pinned vm' tr' rs' ts) -> pins vm tr rs ts = pins vm' tr' rs' ts.
Proof. intros H. unfold pins. repeat case_decide; tauto. Qed.

(** Advancing the frontier keeps the base invariant and establishes the rest. *)
Lemma vbase_advance vm fl tr ld rd rs :
  vbase (mkVs vm fl tr ld rd rs) -> vinv (mkVs (advance_read_frontier vm) fl tr ld rd rs).
Proof.
  intros Hb. pose proof (vbase_slots_below _ Hb) as Hsb.
  destruct Hb as [Hr Hs Hf Hd Hc Hrs Hrd Hh]; simpl in *.
  destruct (advance_frame vm) as (Ew & _ & _ & _ & Et).
  pose proof MAX_lt_U64. destruct (advance_spec vm) as [H1 H2 H3 H4 H5]; [lia|done|].
  split; [|exact H5].
  assert (Hle : read_ts (advance_read_frontier vm) <= write_ts vm).
  { destruct (decide (read_ts (advance_read_frontier vm) = read_ts vm)) as [->|]; [lia|].
    destruct (H2 (read_ts (advance_read_frontier vm))) as (e & He & _); [lia|].
    apply Hs in He. lia. }
  split; simpl; rewrite ?Ew, ?Et.
  - lia.
  - intros ts e He.
    destruct (decide (read_ts vm < ts <= read_ts (advance_read_frontier vm))) as [Hin|Hout].
    + by rewrite (H4 _ Hin) in He.
    + rewrite (H3 _ Hout) in He. apply Hs in He as [? Hpe]. split; [done|].
      intros Hw. specialize (Hpe Hw). lia.
  - intros ts Hts. destruct (Hf ts Hts) as (? & Hn & ?).
    destruct (decide (read_ts vm < ts <= read_ts (advance_read_frontier vm))) as [Hin|Hout].
    + destruct (H2 _ Hin) as (? & ? & _). congruence.
    + rewrite (H3 _ Hout). split; [lia|done].
  - done.
  - intros ts Hts. rewrite H3 by lia. apply Hc. lia.
  - done.
  - intros r Hrr. apply Hrd in Hrr. lia.
  - destruct Hh as (held & Href & Hm). exists held. split; [done|]. intros ts. rewrite Hm.
    f_equal. apply pins_ext. unfold pinned, slot_state.
    destruct (decide (read_ts vm < ts <= read_ts (advance_read_frontier vm))) as [Hin|Hout].
    + destruct (H2 _ Hin) as ([a w] & -> & Hw). rewrite (H4 _ Hin). simpl in *.
      destruct w; try discriminate Hw; split; intros [?|[? ?]]; auto; discriminate.
    + by rewrite (H3 _ Hout).
Qed.

(** Settling a slot keeps the base invariant. *)
Lemma vbase_settle vm fl tr ld rd rs ts s :
  terminal s = true -> vbase (mkVs vm fl tr ld rd rs) ->
  vbase (mkVs (settle_slot ts s vm) fl tr ld rd rs).
Proof.
  intros Hs0. destruct (decide (slot_state vm ts = Some WPending)) as [Hp|Hp];
    [|by rewrite settle_slot_other].
  intros [Hr Hs Hf Hd Hc Hrs Hrd Hh]; simpl in *.
  destruct (settle_slot_frame ts s vm) as (Ew & Er & _ & _).
  assert (Hlk : forall x, is_Some (write_states (settle_slot ts s vm) !! x) <->
                 is_Some (write_states vm !! x)).
  { intros x. rewrite settle_slot_states. case_decide; [apply fmap_is_Some|done]. }
  assert (Hts : exists a, write_states vm !! ts = Some (a, WPending)).
  { unfold slot_state in Hp. apply fmap_Some in Hp as ([a w] & -> & ->). eauto. }
  split; simpl; rewrite ?Ew, ?Er; try done.
  - intros x e. rewrite settle_slot_states. case_decide as Hq; [|apply Hs].
    intros (e' & He' & ->)%fmap_Some. simpl. split; [by eapply Hs|].
    intros ->. discriminate Hs0.
  - intros x Hx. destruct (Hf x Hx) as (? & Hn & ?). split; [lia|]. split; [|done].
    rewrite settle_slot_states, Hn. by case_decide.
  - intros x Hx. rewrite Hlk. auto.
  - destruct Hh as (held & Href & Hm). rewrite settle_slot_tracker, decide_True by done.
    destruct (Tracker.release_refines ts _ _ Href) as [Href' _].
    exists (Tracker.abs_op (Tracker.OpRelease ts) held).1. split; [done|].
    assert (Hrdz : multiplicity ts rd = 0%nat).
    { apply not_elem_of_multiplicity. intros Hin. destruct Hts as [a Ha].
      apply Hs in Ha as [_ Ha]. specialize (Hrd ts (or_introl Hin)). specialize (Ha eq_refl).
      lia. }
    assert (Htr : ts ∉ tr).
    { intros Hin. destruct (Hf ts) as (_ & Hn & _); [apply elem_of_union_r, Hin|].
      destruct Hts as [? Hx]. congruence. }
    assert (Hpost : forall x, pins (settle_slot ts s vm) tr rs x =
      if decide (x = ts) then 0%nat else pins vm tr rs x).
    { intros x. destruct (decide (x = ts)) as [->|Hne].
      - unfold pins. rewrite decide_False; [done|]. unfold pinned.
        rewrite slot_state_settle, decide_True by done.
        intros [?|[? _]]; [done|]. destruct s; discriminate.
      - apply pins_ext. unfold pinned.
        rewrite slot_state_settle, decide_False by (by intros [? _]). done. }
    intros x. rewrite Hpost. cbn [Tracker.abs_op].
    specialize (Hm ts) as Hmts. specialize (Hm x).
    destruct (decide (ts ∈ held)) as [Hin|Hin]; cbn [fst].
    + rewrite elem_of_multiplicity in Hin.
      rewrite multiplicity_difference, multiplicity_singleton.
      assert (pins vm tr rs ts <= 1)%nat by (unfold pins; case_decide; lia).
      destruct (decide (x = ts)) as [->|Hne]; lia.
    + apply not_elem_of_multiplicity in Hin.
      destruct (decide (x = ts)) as [->|Hne]; lia.
Qed.

(** Counters play no part in the invariant. *)
Lemma vinv_counters vm vm' fl tr ld rd rs :
  write_ts vm' = write_ts vm -> read_ts vm' = read_ts vm ->
  write_states vm' = write_states vm -> snapshot_tracker vm' = snapshot_tracker vm ->
  vinv (mkVs vm fl tr ld rd rs) -> vinv (mkVs vm' fl tr ld rd rs).
Proof.
  intros E1 E2 E3 E4 [[Hr Hs Hf Hd Hc Hrs Hrd Hh] Hb]; simpl in *.
  split; [|unfold vblocked in *; simpl in *; by rewrite E2, E3].
  split; simpl; rewrite ?E1, ?E2, ?E3, ?E4; try done.
  destruct Hh as (held & Href & Hm). exists held. split; [done|]. intros ts. rewrite Hm.
  f_equal. apply pins_ext. unfold pinned, slot_state. by rewrite E3.
Qed.

Lemma vinv_reserve vm fl tr ld rd rs vm' ts :
  reserve_timestamp vm = (vm', Ok ts) ->
  vinv (mkVs vm fl tr ld rd rs) -> vinv (mkVs vm' ({[ts]} ∪ fl) tr ld rd rs).
Proof.
  intros (Ets & -> & Hal)%reserve_timestamp_ok [[Hr Hs Hf Hd Hc Hrs Hrd Hh] Hb]; simpl in *.
  assert (Hlt : ts < MAX_TIMESTAMP).
  { apply is_allocatable_spec; [|done]. pose proof MAX_lt_U64. unfold is_u64. lia. }
  assert (Hfresh : forall x, read_ts vm < x <= write_ts vm -> x <> ts) by lia.
  assert (Hnone : write_states vm !! ts = None).
  { apply eq_None_not_Some. intros [e He%Hs]. lia. }
  assert (Hnr : rs !! ts = None).
  { destruct (rs !! ts) eqn:E; [|done]. apply Hrs in E. lia. }
  split; [|exact Hb]. split; simpl; try done.
  - lia.
  - intros x e He%Hs. split; [lia|apply He].
  - intros x [[->%elem_of_singleton|Hx]%elem_of_union|Hx]%elem_of_union.
    + split; [lia|done].
    + destruct (Hf x) as (? & ? & ?); [set_solver +Hx|]. split; [lia|done].
    + destruct (Hf x) as (? & ? & ?); [set_solver +Hx|]. split; [lia|done].
  - assert (ts ∉ tr) as Hnt; [|set_solver +Hnt Hd].
    intros Hin. destruct (Hf ts) as (? & _); [set_solver +Hin|lia].
  - intros x Hx. destruct (decide (x = ts)) as [->|]; [left; set_solver +|].
    destruct (Hc x) as [Hx2|?]; [lia|left; set_solver +Hx2|by right].
  - intros c st Hcs%Hrs. lia.
Qed.

(** Registering a snapshot adds one to its multiplicity. *)
Lemma track_refines now ts vm held :
  is_u64 ts -> room vm ->
  Tracker.tracker_refines (snapshot_tracker vm) held ->
  Tracker.tracker_refines (snapshot_tracker (track now ts vm).1) ({[+ ts +]} ⊎ held).
Proof.
  intros Hts Hroom Href. rewrite track_ok. apply Tracker.tracker_add_refines; [done| |done].
  unfold room in Hroom. by rewrite (Tracker.tr_refs _ _ Href) in Hroom.
Qed.

Lemma vinv_track vm fl tr ld rd rs ts now :
  ts ∈ fl -> room vm -> vinv (mkVs vm fl tr ld rd rs) ->
  vinv (mkVs (track now ts vm).1 (fl ∖ {[ts]}) ({[ts]} ∪ tr) ld rd rs).
Proof.
  intros Hin Hroom [[Hr Hs Hf Hd Hc Hrs Hrd Hh] Hb]; simpl in *.
  destruct (Hf ts) as (Hrg & Hn & Hnr); [set_solver +Hin|].
  destruct Hh as (held & Href & Hm).
  assert (Hu : is_u64 ts) by (pose proof MAX_lt_U64; unfold is_u64; lia).
  pose proof (track_refines now ts vm held Hu Hroom Href) as Href'.
  rewrite track_ok in *. split; [|exact Hb]. simpl in *.
  split; simpl; try done.
  - intros x Hx. apply Hf. destruct (decide (x = ts)) as [->|]; set_solver +Hx Hin.
  - set_solver +Hd.
  - intros x Hx. destruct (Hc x Hx) as [Hx2|?]; [left|by right].
    destruct (decide (x = ts)) as [->|Hne]; [set_solver +|set_solver +Hx2 Hne].
  - exists ({[+ ts +]} ⊎ held). split; [done|]. intros x.
    rewrite multiplicity_disj_union, multiplicity_singleton, Hm.
    unfold pins, pinned, slot_state; simpl.
    destruct (decide (x = ts)) as [->|Hne].
    + rewrite (decide_True (P := ts ∈ {[ts]} ∪ tr \/ _)) by set_solver +.
      rewrite decide_False; [lia|]. rewrite Hn.
      intros [Htr|[? _]]; [|discriminate]. by apply (Hd ts).
    + simpl. f_equal. clear -Hne. repeat case_decide; set_solver.
Qed.

(** A registered slot takes over the pin of its writer. *)
Lemma vinv_insert vm fl tr ld rd rs ts now :
  ts ∈ tr -> vinv (mkVs vm fl tr ld rd rs) ->
  vinv (mkVs (insert_slot ts now WPending vm) fl (tr ∖ {[ts]}) ld rd rs).
Proof.
  intros Hin [[Hr Hs Hf Hd Hc Hrs Hrd Hh] Hb]; simpl in *.
  destruct (Hf ts) as (Hrg & Hn & Hnr); [set_solver +Hin|].
  split.
  2:{ unfold vblocked; simpl. intros e. destruct (decide (read_ts vm + 1 = ts)) as [->|].
      - rewrite lookup_insert_eq. by intros [= <-].
      - rewrite lookup_insert_ne by done. apply Hb. }
  split; simpl; try done.
  - intros x e [[<- <-]|[? Hx]]%lookup_insert_Some; [split; [lia|intros; lia]|eauto].
  - intros x Hx. assert (x <> ts) by (intros ->; set_solver +Hx Hin Hd).
    rewrite lookup_insert_ne by done. apply Hf. set_solver +Hx.
  - set_solver +Hd.
  - intros x Hx. destruct (decide (x = ts)) as [->|]; [right; rewrite lookup_insert_eq; eauto|].
    rewrite lookup_insert_ne by done. destruct (Hc x Hx) as [Hx2|?]; [left|by right].
    set_solver +Hx2 n.
  - destruct Hh as (held & Href & Hm). exists held. split; [done|]. intros x. rewrite Hm.
    f_equal. apply pins_ext. unfold pinned, slot_state; simpl.
    destruct (decide (x = ts)) as [->|].
    + rewrite lookup_insert_eq. simpl. tauto.
    + rewrite lookup_insert_ne by done. set_solver +n.
Qed.

(** A settled slot inserted for a timestamp that never was pinned. *)
Lemma vbase_insert_settled vm fl tr ld rd rs ts now :
  ts ∈ fl -> vbase (mkVs vm fl tr ld rd rs) ->
  vbase (mkVs (insert_slot ts now WCommitted vm) (fl ∖ {[ts]}) tr ld rd rs).
Proof.
  intros Hin [Hr Hs Hf Hd Hc Hrs Hrd Hh]; simpl in *.
  destruct (Hf ts) as (Hrg & Hn & Hnr); [set_solver +Hin|].
  split; simpl; try done.
  - intros x e [[<- <-]|[? Hx]]%lookup_insert_Some; [split; [lia|discriminate]|eauto].
  - intros x Hx. assert (x <> ts) by (intros ->; set_solver +Hx Hin Hd).
    rewrite lookup_insert_ne by done. apply Hf. set_solver +Hx.
  - set_solver +Hd.
  - intros x Hx. destruct (decide (x = ts)) as [->|Hne];
      [right; rewrite lookup_insert_eq; eauto|].
    rewrite lookup_insert_ne by done. destruct (Hc x Hx) as [Hx2|?]; [left|by right].
    set_solver +Hx2 Hne.
  - destruct Hh as (held & Href & Hm). exists held. split; [done|]. intros x. rewrite Hm.
    f_equal. apply pins_ext. unfold pinned, slot_state; simpl.
    destruct (decide (x = ts)) as [->|].
    + rewrite lookup_insert_eq, Hn. simpl.
      split; intros [?|[? _]]; first [discriminate | by left].
    + by rewrite lookup_insert_ne.
Qed.

Lemma vinv_reserve_commit vm fl tr ld rd rs start now vm' c :
  reserve_commit_timestamp now start vm = (vm', Ok c) ->
  vinv (mkVs vm fl tr ld rd rs) -> vinv (mkVs vm' fl tr ld rd (<[c := start]> rs)).
Proof.
  unfold reserve_commit_timestamp, st_bind, st_get, st_modify, st_ret, st_err.
  destruct (slot_state vm start) as [[]|] eqn:Hst; try discriminate.
  destruct (reserve_timestamp vm) as [vm1 [ts|]] eqn:Hres; [|discriminate].
  intros [= <- <-] Hinv.
  pose proof (vinv_reserve _ _ _ _ _ _ _ _ Hres Hinv)
    as [[Hr Hs Hf Hd Hc Hrs Hrd Hh] Hb]; simpl in *.
  apply reserve_timestamp_ok in Hres as (Ets & -> & _). simpl in *.
  destruct (Hf ts) as (Hrg & Hn & Hnr); [set_solver +|].
  assert (Hlt : start < ts).
  { unfold slot_state in Hst. apply fmap_Some in Hst as (e & He & _).
    destruct Hinv as [[_ Hs0 _ _ _ _ _ _] _]. apply Hs0 in He. simpl in He. lia. }
  assert (Hfl : ts ∉ fl).
  { destruct Hinv as [[_ _ Hf0 _ _ _ _ _] _]. intros Hin.
    destruct (Hf0 ts) as (? & _); simpl; [set_solver +Hin|]. simpl in *. lia. }
  split.
  2:{ unfold vblocked; simpl. intros e. destruct (decide (read_ts vm + 1 = ts)) as [->|].
      - rewrite lookup_insert_eq. by intros [= <-].
      - rewrite lookup_insert_ne by done. apply Hb. }
  split; simpl; try done.
  - intros x e [[<- <-]|[? Hx]]%lookup_insert_Some; [split; [lia|intros; lia]|eauto].
  - intros x Hx. destruct (Hf x) as (? & ? & ?); [set_solver +Hx|].
    assert (x <> ts) by (intros ->; set_solver +Hx Hfl Hd).
    rewrite !lookup_insert_ne by done. auto.
  - set_solver +Hd.
  - intros x Hx. destruct (decide (x = ts)) as [->|Hne];
      [right; rewrite lookup_insert_eq; eauto|].
    rewrite lookup_insert_ne by done. destruct (Hc x Hx) as [Hx2|?]; [left|by right].
    set_solver +Hx2 Hne.
  - intros x st [[<- <-]|[? Hx]]%lookup_insert_Some; [lia|eauto].
  - destruct Hh as (held & Href & Hm). exists held. split; [done|]. intros x. rewrite Hm.
    f_equal. apply pins_ext. unfold pinned, slot_state; simpl.
    destruct (decide (x = ts)) as [->|].
    + rewrite !lookup_insert_eq, Hn.
      split; intros [?|[? ?]]; first [discriminate | by left].
    + by rewrite !lookup_insert_ne.
Qed.

(** The commit slot of a reservation holds no pin, so it settles in place. *)
Lemma vbase_publish_slot vm fl tr ld rd rs c start now :
  rs !! c = Some start -> vbase (mkVs vm fl tr ld rd rs) ->
  vbase (mkVs (publish_commit_slot now c vm) fl tr ld rd rs).
Proof.
  intros Hc0 Hv. pose proof Hv as [Hr Hs Hf Hd Hc Hrs Hrd Hh]; simpl in *.
  assert (Hins : forall a, vbase (mkVs (insert_slot c a WCommitted vm) fl tr ld rd rs)).
  { intros a. apply Hrs in Hc0 as Hcr. split; simpl; try done.
    - intros x e [[<- <-]|[? Hx]]%lookup_insert_Some; [split; [lia|discriminate]|eauto].
    - intros x Hx. destruct (Hf x Hx) as (? & ? & ?).
      rewrite lookup_insert_ne by congruence. auto.
    - intros x Hx. destruct (Hc x Hx) as [?|?]; [by left|right].
      apply lookup_insert_is_Some'. by right.
    - destruct Hh as (held & Href & Hm). exists held. split; [done|]. intros x. rewrite Hm.
      f_equal. apply pins_ext. unfold pinned, slot_state; simpl.
      destruct (decide (x = c)) as [->|].
      + rewrite lookup_insert_eq, Hc0. split; intros [?|[? ?]]; first [discriminate | by left].
      + by rewrite lookup_insert_ne. }
  unfold publish_commit_slot. destruct (write_states vm !! c) as [[a []]|]; auto.
Qed.

Lemma vbase_reap_loop vm fl tr ld rd rs expired :
  vbase (mkVs vm fl tr ld rd rs) -> vbase (mkVs (reap_loop expired vm).1 fl tr ld rd rs).
Proof.
  revert vm. induction expired as [|ts rest IH]; intros vm Hv; simpl; [done|].
  destruct (slot_state vm ts) as [[]|]; [|by apply IH..].
  specialize (IH (settle_slot ts WAborted vm)).
  destruct (reap_loop rest (settle_slot ts WAborted vm)). simpl in *.
  apply IH. by apply vbase_settle.
Qed.

Lemma reap_loop_count expired vm :
  0 <= (reap_loop expired vm).2 /\
  ((reap_loop expired vm).2 = 0 -> (reap_loop expired vm).1 = vm).
Proof.
  revert vm. induction expired as [|ts rest IH]; intros vm; simpl; [done|].
  destruct (slot_state vm ts) as [[]|]; [|by apply IH..].
  specialize (IH (settle_slot ts WAborted vm)).
  destruct (reap_loop rest (settle_slot ts WAborted vm)). simpl in *. lia.
Qed.

Lemma vinv_reap vm fl tr ld rd rs timeout owned now :
  vinv (mkVs vm fl tr ld rd rs) ->
  vinv (mkVs (reap_expired_write_timestamps timeout owned now vm).1 fl tr ld rd rs).
Proof.
  intros Hinv. unfold reap_expired_write_timestamps.
  pose proof (reap_loop_count (expired_slots timeout owned now vm) vm) as [Hpos Hz].
  pose proof (vbase_reap_loop vm fl tr ld rd rs (expired_slots timeout owned now vm)
    (proj1 Hinv)) as Hb.
  destruct (reap_loop _ vm) as [vm' n]. simpl in *.
  case_decide; [by apply vbase_advance|]. by rewrite Hz by lia.
Qed.

Lemma vinv_read_track vm fl tr ld rd rs ts now :
  ts ∈ ld -> room vm -> vinv (mkVs vm fl tr ld rd rs) ->
  vinv (mkVs (track now ts vm).1 fl tr (ld ∖ {[+ ts +]}) ({[+ ts +]} ⊎ rd) rs).
Proof.
  intros Hin Hroom [[Hr Hs Hf Hd Hc Hrs Hrd Hh] Hb]; simpl in *.
  destruct Hh as (held & Href & Hm). pose proof (Hrd ts (or_intror Hin)) as Hts.
  assert (Hu : is_u64 ts) by (pose proof MAX_lt_U64; unfold is_u64; lia).
  pose proof (track_refines now ts vm held Hu Hroom Href) as Href'.
  rewrite track_ok in *. split; [|exact Hb]. simpl in *.
  split; simpl; try done.
  - intros r [[->%gmultiset_elem_of_singleton|Hx]%gmultiset_elem_of_disj_union|Hx]; auto.
    apply Hrd. right. rewrite elem_of_multiplicity in *.
    rewrite multiplicity_difference in Hx. lia.
  - exists ({[+ ts +]} ⊎ held). split; [done|]. intros x.
    rewrite !multiplicity_disj_union, Hm, Nat.add_assoc. done.
Qed.

Lemma vinv_read_release vm fl tr ld rd rs ts :
  ts ∈ rd -> vinv (mkVs vm fl tr ld rd rs) ->
  vinv (mkVs (release_read_timestamp_at ts vm) fl tr ld (rd ∖ {[+ ts +]}) rs).
Proof.
  intros Hin [[Hr Hs Hf Hd Hc Hrs Hrd Hh] Hb]; simpl in *.
  split; [|exact Hb]. destruct Hh as (held & Href & Hm).
  split; simpl; try done.
  - intros r [Hx|Hx]; [|auto]. apply Hrd. left. rewrite elem_of_multiplicity in *.
    rewrite multiplicity_difference in Hx. lia.
  - destruct (Tracker.release_refines ts _ _ Href) as [Href' _].
    assert (Hh : ts ∈ held).
    { rewrite elem_of_multiplicity in *. rewrite Hm. lia. }
    simpl in Href'. rewrite decide_True in Href' by done.
    exists (held ∖ {[+ ts +]}). split; [done|]. intros x.
    rewrite !multiplicity_difference, multiplicity_singleton, Hm.
    rewrite elem_of_multiplicity in Hin.
    change (pins (release_read_timestamp_at ts vm) tr rs x) with (pins vm tr rs x).
    destruct (decide (x = ts)) as [->|]; lia.
Qed.

Lemma vinv_read_load vm fl tr ld rd rs :
  vinv (mkVs vm fl tr ld rd rs) ->
  vinv (mkVs (add_read_pending 1 vm) fl tr ({[+ read_ts vm +]} ⊎ ld) rd rs).
Proof.
  intros [[Hr Hs Hf Hd Hc Hrs Hrd Hh] Hb]; simpl in *. split; [|exact Hb].
  split; simpl; try done.
  intros r [Hx|[->%gmultiset_elem_of_singleton|Hx]%gmultiset_elem_of_disj_union]; auto. lia.
Qed.

Lemma vinv_initial s : initial s -> vinv s.
Proof.
  assert (Hnil : forall P : Z -> Prop, (forall ts, ts ∈ (∅ : gset Z) ∪ ∅ -> P ts))
    by set_solver.
  intros [config|config ts Hts]; (split; [|intros e He; simpl in He; by rewrite lookup_empty in He]).
  all: split; simpl; try done; try (unfold MAX_TIMESTAMP, U64_MAX in *; lia).
  all: try (apply Hnil).
  all: try (intros r [Hx|Hx]; by apply gmultiset_not_elem_of_empty in Hx).
  all: exists ∅; split; [apply Tracker.tracker_new_refines|].
  all: intros x; unfold pins; rewrite decide_False, (multiplicity_empty (A:=Z)); [done|].
  all: unfold pinned, slot_state; simpl; rewrite lookup_empty; set_solver.
Qed.

Lemma vinv_step s s' : vstep s s' -> vinv s -> vinv s'.
Proof.
  destruct 1; intros Hinv.
  - by eapply vinv_reserve.
  - by eapply vinv_counters; [..|exact Hinv].
  - by apply vinv_track.
  - by apply vinv_insert.
  - apply vbase_advance, vbase_insert_settled; [done|]. by apply vbase_settle, Hinv.
  - by eapply vinv_reserve_commit.
  - apply vbase_advance. eapply vbase_publish_slot; [done|]. by apply vbase_settle, Hinv.
  - apply vbase_advance. by apply vbase_settle, Hinv.
  - by apply vinv_reap.
  - by apply vinv_read_load.
  - by apply vinv_read_track.
  - by apply vinv_read_release.
Qed.

Lemma vinv_reachable s : reachable s -> vinv s.
Proof.
  intros (s0 & H0%vinv_initial & Hsteps). induction Hsteps; eauto using vinv_step.
Qed.

(** ** Monotonicity *)

(** The life of an allocated timestamp: not settled while a thread holds it
    unregistered or its slot is pending. *)
Definition unsettled (s : vstate) (ts : Z) : Prop :=
  ts ∈ v_flight s ∪ v_tracked s \/ slot_state (v_vm s) ts = Some WPending.

Lemma unsettled_above s ts :
  vinv s -> unsettled s ts -> read_ts (v_vm s) < ts <= write_ts (v_vm s).
Proof.
  intros [[_ Hs Hf _ _ _ _ _] _] [Hin|Hp]; [by apply Hf|].
  unfold slot_state in Hp. apply fmap_Some in Hp as (e & He & Hw).
  apply Hs in He as [? He]. split; [by apply He|done].
Qed.

Lemma advance_mono vm :
  read_ts vm <= U64_MAX -> slots_below U64_MAX vm ->
  read_ts vm <= read_ts (advance_read_frontier vm) /\
  (forall ts, slot_state (advance_read_frontier vm) ts = Some WPending <->
              slot_state vm ts = Some WPending).
Proof.
  intros Hr Hb. destruct (advance_spec vm Hr Hb) as [H1 H2 H3 H4 _]. split; [done|].
  intros ts. unfold slot_state.
  destruct (decide (read_ts vm < ts <= read_ts (advance_read_frontier vm))) as [Hin|Hout].
  - destruct (H2 _ Hin) as ([a w] & -> & Hw). rewrite (H4 _ Hin). simpl in *.
    split; [discriminate|]. intros [= ->]. discriminate Hw.
  - by rewrite (H3 _ Hout).
Qed.

(** Effect of one step on the two frontiers and on unsettled timestamps: the
    frontiers only grow, and only fresh timestamps become unsettled. *)
Definition step_effect (s s' : vstate) : Prop :=
  read_ts (v_vm s) <= read_ts (v_vm s') /\ write_ts (v_vm s) <= write_ts (v_vm s') /\
  (forall ts, unsettled s' ts -> ts <= write_ts (v_vm s) -> unsettled s ts).

(** The same for a settle of some slots followed by an advance. *)
Lemma advance_effect vm1 vm fl fl' tr ld ld' rd rd' rs rs' :
  vbase (mkVs vm1 fl' tr ld' rd' rs') ->
  read_ts vm1 = read_ts vm -> write_ts vm1 = write_ts vm -> fl' ⊆ fl ->
  (forall ts, slot_state vm1 ts = Some WPending -> slot_state vm ts = Some WPending) ->
  step_effect (mkVs vm fl tr ld rd rs)
    (mkVs (advance_read_frontier vm1) fl' tr ld' rd' rs').
Proof.
  intros Hb Er Ew Hfl Hp. pose proof (vbase_slots_below _ Hb) as Hsb.
  destruct (advance_mono vm1) as [Hle Hpe]; [|done|].
  { destruct Hb as [? _ _ _ _ _ _ _]; simpl in *. pose proof MAX_lt_U64. lia. }
  destruct (advance_frame vm1) as (Ew' & _).
  unfold step_effect, unsettled; simpl. rewrite Ew', Ew. split; [lia|]. split; [lia|].
  intros ts [Hin|Hq] _; [left; set_solver +Hin Hfl|right]. by apply Hp, Hpe.
Qed.

Lemma settle_pending_mono ts s vm x :
  terminal s = true ->
  slot_state (settle_slot ts s vm) x = Some WPending -> slot_state vm x = Some WPending.
Proof.
  intros Hs. rewrite slot_state_settle. case_decide; [|done]. intros [= ->]. discriminate Hs.
Qed.

Lemma insert_committed_mono ts now vm x :
  slot_state (insert_slot ts now WCommitted vm) x = Some WPending ->
  slot_state vm x = Some WPending.
Proof.
  unfold slot_state; simpl. destruct (decide (x = ts)) as [->|];
    [by rewrite lookup_insert_eq|by rewrite lookup_insert_ne].
Qed.

Lemma publish_slot_mono now c vm x :
  slot_state (publish_commit_slot now c vm) x = Some WPending ->
  slot_state vm x = Some WPending.
Proof.
  unfold publish_commit_slot. destruct (write_states vm !! c) as [[a []]|]; try done;
    apply insert_committed_mono.
Qed.

Lemma reap_loop_mono expired vm :
  (forall x, slot_state (reap_loop expired vm).1 x = Some WPending ->
             slot_state vm x = Some WPending) /\
  read_ts (reap_loop expired vm).1 = read_ts vm /\
  write_ts (reap_loop expired vm).1 = write_ts vm.
Proof.
  revert vm. induction expired as [|ts rest IH]; intros vm; simpl; [done|].
  destruct (slot_state vm ts) as [[]|]; [|apply IH..].
  specialize (IH (settle_slot ts WAborted vm)).
  destruct (settle_slot_frame ts WAborted vm) as (Ew & Er & _).
  destruct (reap_loop rest (settle_slot ts WAborted vm)) as [vm' n]. simpl in *.
  rewrite <- Ew, <- Er. split; [|apply IH]. intros x Hx%IH. revert Hx. by apply settle_pending_mono.
Qed.

Lemma vstep_effect s s' : vinv s -> vstep s s' -> step_effect s s'.
Proof.
  intros Hinv Hstep. pose proof (vinv_step _ _ Hstep Hinv) as Hinv'.
  destruct Hstep as [vm fl tr ld rd rs vm' ts Hres|vm fl tr ld rd rs
    |vm fl tr ld rd rs ts now Hin Hroom|vm fl tr ld rd rs ts now Hin
    |vm fl tr ld rd rs ts start now Hin|vm fl tr ld rd rs start now vm' c Hres
    |vm fl tr ld rd rs start c now Hc|vm fl tr ld rd rs ts s Hs
    |vm fl tr ld rd rs timeout owned now|vm fl tr ld rd rs Hg
    |vm fl tr ld rd rs ts now Hin Hroom|vm fl tr ld rd rs ts Hin].
  - apply reserve_timestamp_ok in Hres as (-> & -> & _).
    split; [done|]. split; [simpl; lia|]. unfold unsettled; simpl.
    intros x [[[->%elem_of_singleton|Hx]%elem_of_union|Hx]%elem_of_union|Hx] Hle;
      [lia|left; set_solver +Hx|left; set_solver +Hx|by right].
  - done.
  - rewrite track_ok. split; [done|]. split; [done|]. unfold unsettled; simpl.
    intros x [Hx|Hx] _; [left|by right]. destruct (decide (x = ts)) as [->|Hne];
      [set_solver +Hin|set_solver +Hx Hne].
  - split; [done|]. split; [done|]. unfold unsettled, slot_state; simpl.
    intros x [Hx|Hx] _; [left; set_solver +Hx|].
    destruct (decide (x = ts)) as [->|]; [left; set_solver +Hin|right].
    by rewrite lookup_insert_ne in Hx.
  - destruct (settle_slot_frame start WCommitted vm) as (Ew & Er & _).
    eapply advance_effect.
    + apply vbase_insert_settled; [done|]. by apply vbase_settle, Hinv.
    + done.
    + done.
    + set_solver +.
    + intros x Hx%insert_committed_mono. revert Hx. by apply settle_pending_mono.
  - unfold reserve_commit_timestamp, st_bind, st_get, st_modify, st_ret, st_err in Hres.
    destruct (slot_state vm start) as [[]|]; try discriminate.
    destruct (reserve_timestamp vm) as [vm1 [ts|]] eqn:E; [|discriminate].
    injection Hres as <- <-. apply reserve_timestamp_ok in E as (-> & -> & _).
    split; [done|]. split; [simpl; lia|]. unfold unsettled, slot_state; simpl.
    intros x [Hx|Hx] Hle; [by left|right]. rewrite lookup_insert_ne in Hx by lia. done.
  - destruct (settle_slot_frame start WCommitted vm) as (Ew & Er & _).
    assert (Hframe : forall v, read_ts (publish_commit_slot now c v) = read_ts v /\
              write_ts (publish_commit_slot now c v) = write_ts v).
    { intros v. unfold publish_commit_slot.
      by destruct (write_states v !! c) as [[? []]|]. }
    destruct (Hframe (settle_slot start WCommitted vm)) as [Er' Ew'].
    eapply advance_effect.
    + eapply vbase_publish_slot; [done|]. by apply vbase_settle, Hinv.
    + congruence.
    + congruence.
    + done.
    + intros x Hx%publish_slot_mono. revert Hx. by apply settle_pending_mono.
  - destruct (settle_slot_frame ts s vm) as (Ew & Er & _).
    eapply advance_effect; [by apply vbase_settle, Hinv|done|done|done|].
    intros x Hx. revert Hx. by apply settle_pending_mono.
  - unfold reap_expired_write_timestamps in *.
    pose proof (reap_loop_mono (expired_slots timeout owned now vm) vm) as (Hm & Er & Ew).
    pose proof (vbase_reap_loop vm fl tr ld rd rs (expired_slots timeout owned now vm)
      (proj1 Hinv)) as Hb.
    destruct (reap_loop _ vm) as [vm' n]. simpl in *. case_decide.
    + by apply advance_effect.
    + split; [simpl; lia|]. split; [simpl; lia|]. unfold unsettled; simpl.
      intros x [Hx|Hx] _; [by left|right; auto].
  - done.
  - rewrite track_ok. done.
  - done.
Qed.

Lemma steps_effect s s' : vinv s -> rtc vstep s s' -> vinv s' /\ step_effect s s'.
Proof.
  intros Hinv Hs. induction Hs as [s|s s1 s2 H1 _ IH].
  - split; [done|]. split; [lia|]. split; [lia|]. auto.
  - destruct (vstep_effect _ _ Hinv H1) as (Hr & Hw & Hu).
    destruct IH as (Hinv2 & Hr2 & Hw2 & Hu2); [by eapply vinv_step|].
    split; [done|]. split; [lia|]. split; [lia|]. intros ts Ht Hle.
    apply Hu; [|done]. apply Hu2; [done|lia].
Qed.

(** ** The methods as runs of steps *)

Lemma acquire_insert_steps now vm vm' ts fl tr ld rd rs :
  vinv (mkVs vm fl tr ld rd rs) -> room vm ->
  acquire_insert_timestamp now vm = (vm', Ok ts) ->
  rtc vstep (mkVs vm fl tr ld rd rs) (mkVs vm' fl tr ld rd rs).
Proof.
  intros Hinv Hroom. unfold acquire_insert_timestamp, st_bind, st_modify, st_ret.
  destruct (reserve_timestamp vm) as [vm1 [t|]] eqn:Hres; [|discriminate].
  rewrite track_ok. intros [= <- <-].
  pose proof (vinv_reserve _ _ _ _ _ _ _ _ Hres Hinv) as Hinv1.
  assert (Hnf : t ∉ fl ∪ tr).
  { intros Hin. destruct Hinv as [[_ _ Hf _ _ _ _ _] _]. apply Hf in Hin. simpl in *.
    apply reserve_timestamp_ok in Hres as (-> & _). lia. }
  eapply rtc_l; [by apply step_reserve|].
  eapply rtc_l; [apply (step_track _ _ _ _ _ _ t now); [set_solver +|]|].
  { by apply reserve_timestamp_ok in Hres as (_ & -> & _). }
  eapply rtc_l; [apply (step_insert _ _ _ _ _ _ t now); set_solver +|].
  rewrite track_ok. eapply rtc_l; [apply step_bump|].
  replace (({[t]} ∪ fl) ∖ {[t]}) with fl by set_solver +Hnf.
  replace (({[t]} ∪ tr) ∖ {[t]}) with tr by set_solver +Hnf. apply rtc_refl.
Qed.

Lemma acquire_read_steps now vm vm' ts fl tr ld rd rs :
  room vm -> acquire_read_round now vm = Some (vm', Ok ts) ->
  rtc vstep (mkVs vm fl tr ld rd rs) (mkVs vm' fl tr ld ({[+ ts +]} ⊎ rd) rs).
Proof.
  intros Hroom. unfold acquire_read_round. repeat case_decide; try discriminate.
  rewrite track_ok. intros [= <- <-].
  eapply rtc_l; [apply step_read_load; lia|].
  eapply rtc_l; [apply (step_read_track _ _ _ _ _ _ (read_ts vm) now); [multiset_solver|done]|].
  rewrite track_ok. replace (({[+ read_ts vm +]} ⊎ ld) ∖ {[+ read_ts vm +]}) with ld
    by multiset_solver. apply rtc_refl.
Qed.

Lemma commit_ordered_steps now start vm vm' c fl tr ld rd rs :
  commit_ordered now start vm = (vm', Ok c) ->
  rtc vstep (mkVs vm fl tr ld rd rs) (mkVs vm' fl tr ld rd (<[c := start]> rs)).
Proof.
  unfold commit_ordered, st_bind, st_modify, st_ret.
  destruct (reserve_commit_timestamp now start vm) as [vm1 [t|]] eqn:E; [|discriminate].
  intros [= <- <-]. eapply rtc_l; [by apply (step_reserve_commit _ _ _ _ _ _ start now)|].
  eapply rtc_l; [apply (step_publish _ _ _ _ _ _ start t now), lookup_insert_eq|]. apply rtc_refl.
Qed.

(** ** Properties *)

(** [C1] Exact read frontier.  In every state reached by any interleaving of
    readers, writers, committers and the reaper: no timestamp that is pending,
    or reserved by a thread that has not registered it yet, is at or below the
    read frontier; every timestamp between the frontier and the allocator is
    accounted for by such a thread or by a slot; and the frontier is as high
    as it may be: unless it has reached the allocator, the timestamp right
    above it is unsettled. *)
Theorem frontier_exact s :
  reachable s ->
  let vm := v_vm s in
  (forall ts, unsettled s ts -> read_ts vm < ts <= write_ts vm) /\
  (forall ts, read_ts vm < ts <= write_ts vm ->
     ts ∈ v_flight s ∪ v_tracked s \/ is_Some (write_states vm !! ts)) /\
  (read_ts vm = write_ts vm \/ unsettled s (read_ts vm + 1)).
Proof.
  intros Hinv%vinv_reachable. cbv zeta. split; [intros ts; by apply unsettled_above|].
  destruct Hinv as [[Hr _ _ _ Hc _ _ _] Hb]. split; [done|].
  destruct (decide (read_ts (v_vm s) = write_ts (v_vm s))); [by left|right].
  destruct (Hc (read_ts (v_vm s) + 1)) as [?|[e He]]; [lia|by left|right].
  unfold slot_state. rewrite He. simpl. f_equal. by apply Hb.
Qed.

(** Timestamps move forward only.  Along every run the read frontier and
    the allocator never decrease, an allocated timestamp that has been settled
    never becomes unsettled again, and a timestamp reserved later is strictly
    greater than every timestamp allocated before, so no timestamp is handed
    out twice. *)
Theorem timestamps_monotone s s' vm' ts :
  reachable s -> rtc vstep s s' -> reserve_timestamp (v_vm s') = (vm', Ok ts) ->
  read_ts (v_vm s) <= read_ts (v_vm s') /\
  write_ts (v_vm s) <= write_ts (v_vm s') /\ write_ts (v_vm s) < ts < MAX_TIMESTAMP /\
  (forall t, t <= write_ts (v_vm s) -> ~ unsettled s t -> ~ unsettled s' t).
Proof.
  intros Hre%vinv_reachable Hs Hres.
  destruct (steps_effect _ _ Hre Hs) as (Hinv' & Hr & Hw & Hu).
  split; [done|]. split; [done|].
  pose proof (reserve_timestamp_ok _ _ _ Hres) as (-> & _ & Hal).
  split; [|intros t Hle Hn Hn'; eauto]. split; [lia|]. apply is_allocatable_spec; [|done].
  destruct Hinv' as [[Hrg _ _ _ _ _ _ _] _]. pose proof MAX_lt_U64. unfold is_u64. lia.
Qed.

(** No pin is lost and none leaks.  In every reachable state the tracker
    counts, for each timestamp, exactly the readers holding it plus one for a
    writer that has registered it and not settled; so the safe-GC timestamp
    never exceeds a held snapshot, and once no reader or writer is left the
    tracker reports that nothing is active. *)
Theorem pins_exact s :
  reachable s ->
  let vm := v_vm s in
  (forall ts, default 0 (Tracker.ref_count (snapshot_tracker vm) ts) =
     Z.of_nat (multiplicity ts (v_readers s) + pins vm (v_tracked s) (v_reserved s) ts)) /\
  (forall ts, ts ∈ v_readers s \/ pinned vm (v_tracked s) (v_reserved s) ts ->
     get_safe_gc_timestamp vm <= ts) /\
  (v_readers s = ∅ -> (forall ts, ~ unsettled s ts) -> get_safe_gc_timestamp vm = U64_MAX).
Proof.
  intros [[_ _ _ _ _ _ _ (held & Href & Hm)] _]%vinv_reachable. cbv zeta.
  assert (Hin : forall ts, ts ∈ v_readers s \/
            pinned (v_vm s) (v_tracked s) (v_reserved s) ts <-> ts ∈ held).
  { intros ts. rewrite !elem_of_multiplicity, Hm. unfold pins. case_decide as Hp.
    - split; [lia|by right].
    - split; [|left; lia]. intros [?|?]; [lia|done]. }
  split; [|split].
  - intros ts. unfold Tracker.ref_count. rewrite (Tracker.tr_counts _ _ Href), <- Hm.
    case_decide as E; simpl; lia.
  - intros ts Hts%Hin. unfold get_safe_gc_timestamp.
    destruct (Tracker.refines_min _ _ Href) as [[-> _]|[_ Hmin]]; [multiset_solver|auto].
  - intros Hrd Hu. unfold get_safe_gc_timestamp.
    destruct (Tracker.refines_min _ _ Href) as [[_ ->]|[Hmin _]]; [done|exfalso].
    apply Hin in Hmin as [Hx|Hx]; [rewrite Hrd in Hx; multiset_solver|].
    apply (Hu (Tracker.min_active_snapshot (snapshot_tracker (v_vm s)))).
    destruct Hx as [Hx|[Hx _]]; [left; set_solver +Hx|by right].
Qed.

(** Publication settles both slots of the committer. *)
Lemma publish_reserved_settles now start c vm x :
  read_ts vm <= U64_MAX -> slots_below U64_MAX vm -> c < U64_MAX ->
  slot_state (publish_reserved_commit now start c vm) x = Some WPending ->
  x <> start /\ x <> c.
Proof.
  intros Hr Hsb Hc. unfold publish_reserved_commit.
  set (vm1 := settle_slot start WCommitted vm).
  assert (Hsb1 : slots_below U64_MAX vm1).
  { intros y Hy. apply Hsb. revert Hy. unfold vm1. rewrite settle_slot_states.
    case_decide; [by rewrite fmap_is_Some|done]. }
  assert (Hr1 : read_ts vm1 <= U64_MAX).
  { unfold vm1. by destruct (settle_slot_frame start WCommitted vm) as (_ & -> & _). }
  assert (Hpub : slots_below U64_MAX (publish_commit_slot now c vm1) /\
                 read_ts (publish_commit_slot now c vm1) <= U64_MAX).
  { unfold publish_commit_slot. destruct (write_states vm1 !! c) as [[a []]|]; (split; [|done]);
      try done; intros y Hy; simpl in Hy; apply lookup_insert_is_Some in Hy as [->|[_ Hy]]; auto. }
  destruct (advance_mono _ (proj2 Hpub) (proj1 Hpub)) as [_ Hadv].
  rewrite Hadv. intros Hx. split; intros ->.
  - apply publish_slot_mono in Hx. unfold vm1 in Hx. rewrite slot_state_settle in Hx.
    case_decide as Hn; [discriminate Hx|]. by apply Hn.
  - unfold publish_commit_slot in Hx.
    destruct (write_states vm1 !! c) as [[a []]|] eqn:E; unfold slot_state in Hx; simpl in Hx;
      rewrite ?lookup_insert_eq in Hx; try discriminate Hx; by rewrite E in Hx.
Qed.

(** With nothing unsettled the frontier has caught up with the allocator. *)
Lemma settled_frontier s :
  vinv s -> (forall ts, ts <= write_ts (v_vm s) -> ~ unsettled s ts) ->
  read_ts (v_vm s) = write_ts (v_vm s).
Proof.
  intros [[Hr _ _ _ Hc _ _ _] Hb] Hu.
  destruct (decide (read_ts (v_vm s) = write_ts (v_vm s))) as [|Hlt]; [done|exfalso].
  apply (Hu (read_ts (v_vm s) + 1)); [lia|].
  destruct (Hc (read_ts (v_vm s) + 1)) as [?|[e He]]; [lia|by left|right].
  unfold slot_state. rewrite He. simpl. f_equal. by apply Hb.
Qed.

Lemma reserve_commit_total now start vm :
  0 <= write_ts vm -> write_ts vm + 1 < MAX_TIMESTAMP ->
  slot_state vm start = Some WPending ->
  reserve_commit_timestamp now start vm =
    (insert_slot (write_ts vm + 1) now WPending (set_write_ts (write_ts vm + 1) vm),
     Ok (write_ts vm + 1)).
Proof.
  intros Hr Hmax Hst. pose proof MAX_lt_U64.
  unfold reserve_commit_timestamp, st_bind, st_get. rewrite Hst.
  destruct (reserve_timestamp_total vm) as [[_ ->]|[? _]]; [lia|done|lia].
Qed.

(** Commit in order, visible at once.  A committer that finds its start
    slot pending and the allocator not exhausted obtains the next timestamp;
    after publication both its slots are settled, and if nobody else is in
    flight or pending the read frontier is exactly its commit timestamp, so
    the next reader sees the commit. *)
Theorem commit_ordered_publishes s now start :
  reachable s ->
  slot_state (v_vm s) start = Some WPending ->
  write_ts (v_vm s) + 1 < MAX_TIMESTAMP ->
  exists vm', commit_ordered now start (v_vm s) = (vm', Ok (write_ts (v_vm s) + 1)) /\
    slot_state vm' start <> Some WPending /\
    slot_state vm' (write_ts (v_vm s) + 1) <> Some WPending /\
    ((forall ts, unsettled s ts -> ts = start) -> read_ts vm' = write_ts (v_vm s) + 1).
Proof.
  intros Hre%vinv_reachable Hst Hmax. destruct s as [vm fl tr ld rd rs]; simpl in *.
  assert (Hr : 0 <= read_ts vm <= write_ts vm) by apply Hre. pose proof MAX_lt_U64.
  pose proof (reserve_commit_total now start vm ltac:(lia) Hmax Hst) as Hrc.
  set (c := write_ts vm + 1) in *.
  set (vm1 := insert_slot c now WPending (set_write_ts c vm)) in *.
  pose proof (vinv_reserve_commit _ _ _ _ _ _ _ _ _ _ Hrc Hre) as Hinv1.
  set (vm2 := publish_reserved_commit now start c vm1).
  assert (Hco : commit_ordered now start vm = (vm2, Ok c)).
  { unfold commit_ordered, st_bind. by rewrite Hrc. }
  destruct (steps_effect _ _ Hre (commit_ordered_steps now start vm _ c fl tr ld rd rs Hco))
    as (Hinv2 & _ & _ & Hu).
  assert (Hp2 : forall x, slot_state vm2 x = Some WPending -> x <> start /\ x <> c).
  { intros x. apply publish_reserved_settles; simpl; [lia| |lia].
    apply (vbase_slots_below _ (proj1 Hinv1)). }
  assert (Hwc : write_ts vm2 = c).
  { destruct (vstep_effect _ _ Hinv1 (step_publish vm1 fl tr ld rd (<[c := start]> rs) start c now
      (lookup_insert_eq _ _ _))) as (_ & Hle & _). simpl in Hle. fold vm2 in Hle.
    unfold vm2, publish_reserved_commit. destruct (advance_frame
      (publish_commit_slot now c (settle_slot start WCommitted vm1))) as (-> & _).
    unfold publish_commit_slot. destruct (settle_slot_frame start WCommitted vm1) as (Ew & _).
    by destruct (write_states _ !! c) as [[? []]|]. }
  exists vm2. split; [done|]. split; [intros Hx%Hp2; naive_solver|].
  split; [intros Hx%Hp2; naive_solver|]. intros Honly. rewrite <- Hwc.
  apply (settled_frontier _ Hinv2). intros ts Hle Hun.
  destruct Hun as [Hfl|Hsl]; simpl in *; [|].
  - destruct Hre as [[_ _ Hf _ _ _ _ _] _]. pose proof (Hf ts Hfl) as (Hrg & Hn & _).
    simpl in *. assert (ts = start) as -> by (apply Honly; by left).
    unfold slot_state in Hst. by rewrite Hn in Hst.
  - destruct (Hp2 ts Hsl) as [Hns Hnc]. apply Hns, Honly, Hu; [by right|]. simpl. lia.
Qed.

(** Abandoning a reservation undercounts the writers.  When a committer
    reserves its commit timestamp and then aborts that slot, the slots that
    are pending are exactly those pending before, the committer's own start
    slot among them, but the pending-writer counter is one lower: the settle
    path decrements it for a slot whose reservation never incremented it. *)
Theorem abort_reserved_undercounts s now start vm1 c :
  reachable s ->
  reserve_commit_timestamp now start (v_vm s) = (vm1, Ok c) ->
  let vm2 := abort_write_timestamp c vm1 in
  write_pending vm2 = wrap_i32 (write_pending (v_vm s) - 1) /\
  slot_state vm2 start = Some WPending /\
  (forall ts, slot_state vm2 ts = Some WPending <-> slot_state (v_vm s) ts = Some WPending).
Proof.
  intros Hre%vinv_reachable Hrc. cbv zeta. destruct s as [vm fl tr ld rd rs]; simpl in *.
  pose proof (vinv_reserve_commit _ _ _ _ _ _ _ _ _ _ Hrc Hre) as [Hb1 _].
  unfold reserve_commit_timestamp, st_bind, st_get, st_modify, st_ret, st_err in Hrc.
  destruct (slot_state vm start) as [[]|] eqn:Hst; try discriminate.
  destruct (reserve_timestamp vm) as [vm0 [t|]] eqn:Hres; [|discriminate].
  injection Hrc as <- <-. apply reserve_timestamp_ok in Hres as (Et & -> & _).
  set (vm1 := insert_slot t now WPending (set_write_ts t vm)) in *.
  assert (Ht : write_states vm1 !! t = Some (now, WPending)) by apply lookup_insert_eq.
  pose proof (vbase_settle _ _ _ _ _ _ t WAborted eq_refl Hb1) as Hb2.
  assert (Hno : write_states vm !! t = None).
  { destruct Hre as [[_ Hs _ _ _ _ _ _] _]. apply eq_None_not_Some. intros [e He%Hs].
    simpl in He. lia. }
  destruct (advance_mono (settle_slot t WAborted vm1)) as [_ Hadv].
  { destruct Hb2 as [? _ _ _ _ _ _ _]; simpl in *. pose proof MAX_lt_U64. lia. }
  { apply (vbase_slots_below _ Hb2). }
  assert (Hiff : forall ts, slot_state (abort_write_timestamp t vm1) ts = Some WPending <->
                       slot_state vm ts = Some WPending).
  { intros ts. unfold abort_write_timestamp, finish_write_timestamp.
    rewrite Hadv, slot_state_settle. destruct (decide (ts = t)) as [->|Hne].
    - unfold slot_state. rewrite Ht, Hno. simpl. rewrite decide_True by done.
      split; discriminate.
    - rewrite decide_False by (by intros [? _]). unfold slot_state; simpl.
      by rewrite lookup_insert_ne. }
  split; [|split; [by apply Hiff|done]].
  unfold abort_write_timestamp, finish_write_timestamp.
  destruct (advance_frame (settle_slot t WAborted vm1)) as (_ & _ & -> & _).
  by rewrite (settle_slot_pending _ _ _ _ Ht).
Qed.

(** ** Concrete runs *)

(** One writer (timestamp 2) registered on a fresh manager. *)
Definition ex_writer : vstate :=
  mkVs (acquire_insert_timestamp 0 new).1 ∅ ∅ ∅ ∅ ∅.

Lemma ex_writer_reachable : reachable ex_writer.
Proof.
  eexists. split; [apply (initial_new default_config)|].
  apply (acquire_insert_steps 0 _ _ 2); [|done|vm_compute; reflexivity].
  apply vinv_initial. constructor.
Qed.

Lemma frontier_exact_witness : read_ts (v_vm ex_writer) < 2 <= write_ts (v_vm ex_writer).
Proof.
  apply (proj1 (frontier_exact ex_writer ex_writer_reachable)). right. reflexivity.
Defined.

Lemma timestamps_monotone_witness :
  read_ts (v_vm ex_writer) <= read_ts (v_vm ex_writer) /\ write_ts (v_vm ex_writer) < 3.
Proof.
  destruct (timestamps_monotone ex_writer ex_writer (set_write_ts 3 (v_vm ex_writer)) 3
    ex_writer_reachable (rtc_refl _ _) eq_refl) as (H1 & _ & H2 & _).
  split; [exact H1|apply H2].
Defined.

Lemma pins_exact_witness : get_safe_gc_timestamp (v_vm ex_writer) <= 2.
Proof.
  apply (proj1 (proj2 (pins_exact ex_writer ex_writer_reachable))).
  right. right. split; reflexivity.
Defined.

Lemma commit_ordered_publishes_witness :
  exists vm', commit_ordered 7 2 (v_vm ex_writer) = (vm', Ok 3) /\ read_ts vm' = 3.
Proof.
  destruct (commit_ordered_publishes ex_writer 7 2 ex_writer_reachable eq_refl eq_refl)
    as (vm' & H1 & _ & _ & H2).
  exists vm'. split; [exact H1|]. apply H2. intros ts [Hin|Hp]; [set_solver|].
  destruct (decide (ts = 2)) as [|Hne]; [done|].
  exfalso. revert Hp. unfold slot_state.
  assert (write_states (v_vm ex_writer) = {[2 := (0, WPending)]}) as -> by reflexivity.
  by rewrite lookup_singleton_ne.
Defined.

Lemma abort_reserved_undercounts_witness :
  let vm2 := abort_write_timestamp 3 (reserve_commit_timestamp 0 2 (v_vm ex_writer)).1 in
  write_pending (v_vm ex_writer) = 1 /\ write_pending vm2 = 0 /\
  slot_state vm2 2 = Some WPending.
Proof.
  cbv zeta. destruct (abort_reserved_undercounts ex_writer 0 2
    (reserve_commit_timestamp 0 2 (v_vm ex_writer)).1 3 ex_writer_reachable eq_refl)
    as (H1 & H2 & _).
  split; [reflexivity|]. split; [rewrite H1; reflexivity|exact H2].
Defined.

End VmSteps.
