(* ===== verification/Watermarks.v ===== *)
(** * Watermarks, leases and row visibility

    [linkrs-transaction/src/mvcc_watermarks.rs] (the garbage-collection
    frontiers), [snapshot_lease.rs] (long-read leases) and
    [linkrs-storage/src/mvcc_visibility.rs] (the interval predicate, the
    pending-aware gate and the guard that binds it to a snapshot).  The two
    main results join them with the interleavings of [VersionSteps]: what
    garbage collection may reclaim is invisible to every current and future
    reader, and a reader's verdicts do not change while writers come and go. *)

From stdpp Require Import base gmap gmultiset sets list relations.
From Stdlib Require Import ZArith Lia.
From S2P Require Import Prelude Types SnapshotTracker VersionManager VersionSteps.

(** ** Watermarks *)

Definition NO_ACTIVE_SNAPSHOT : Timestamp := U64_MAX.

(** [CommitLsn(u64)] with [CommitLsn::ZERO]. *)
Definition CommitLsn_ZERO : Z := 0.

Record MvccWatermarks := mkWatermarks {
  oldest_active_snapshot : Timestamp;
  last_published_commit : Timestamp;
  checkpoint_snapshot : option Timestamp;
  wal_reclaim_lsn : Z;
}.

Module Watermarks.

Definition capture (vm : VersionManager) (checkpoint_snapshot : option Timestamp)
    (wal_reclaim_lsn : option Z) : MvccWatermarks :=
  mkWatermarks (Tracker.cleanup_threshold (snapshot_tracker vm)) (Vm.read_timestamp vm)
    checkpoint_snapshot (default CommitLsn_ZERO wal_reclaim_lsn).

Definition from_parts (oldest last : Timestamp) (cp : option Timestamp) (lsn : Z)
  : MvccWatermarks := mkWatermarks oldest last cp lsn.

Definition safe_gc_timestamp (w : MvccWatermarks) : Timestamp :=
  if decide (oldest_active_snapshot w = NO_ACTIVE_SNAPSHOT)
  then last_published_commit w else oldest_active_snapshot w.

Definition safe_gc_timestamp_with_margin (margin : Timestamp) (w : MvccWatermarks)
  : Timestamp := saturating_sub_u64 (safe_gc_timestamp w) margin.

Definition has_active_snapshot (w : MvccWatermarks) : bool :=
  bool_decide (oldest_active_snapshot w <> NO_ACTIVE_SNAPSHOT).

Definition has_checkpoint_snapshot (w : MvccWatermarks) : bool :=
  bool_decide (is_Some (checkpoint_snapshot w)).

Definition can_reclaim_wal (w : MvccWatermarks) : bool :=
  bool_decide (is_Some (checkpoint_snapshot w)) &&
  bool_decide (wal_reclaim_lsn w <> CommitLsn_ZERO).

End Watermarks.

(** ** Long-read leases *)

Record LongReadLease := mkLease {
  holder : TransactionId;
  floor_ts : Timestamp;
  deadline : Z;
}.

Record LeaseBackpressureView := mkBackpressure { live_leases : Z; pinned_secs : Z }.

Record LeaseAdmissionThresholds := mkThresholds { max_live_leases : Z; max_pin_secs : Z }.

Module Lease.

Definition is_live (l : LongReadLease) (now : Z) : bool := bool_decide (now < deadline l).

Definition default_thresholds : LeaseAdmissionThresholds := mkThresholds 64 300.

Definition check_long_read_admission (b : LeaseBackpressureView) (t : LeaseAdmissionThresholds)
  : result unit TransactionError :=
  if decide (live_leases b >= max_live_leases t) then Err TooManyTransactions
  else if decide (pinned_secs b >= max_pin_secs t) then Err TooManyTransactions
  else Ok tt.

(** Durations in milliseconds. *)
Definition clamp_lease_ttl (requested storage_max : Z) : Z :=
  let ttl := Z.min requested storage_max in
  if decide (ttl = 0) then 1 else ttl.

Definition snapshot_expired (h : TransactionId) (floor : Timestamp) : TransactionError :=
  SnapshotExpired h floor.

(** A granted lease protects its holder for at least one clock tick and for no
    longer than storage honours, whatever term was asked for. *)
Lemma clamp_lease_ttl_bounds requested storage_max :
  0 <= requested -> 1 <= storage_max ->
  1 <= clamp_lease_ttl requested storage_max <= storage_max /\
  (clamp_lease_ttl requested storage_max <= requested \/ requested = 0).
Proof. intros. unfold clamp_lease_ttl. case_decide; lia. Qed.

End Lease.

(** ** The interval predicate *)

Module Visibility.

Definition is_visible (snapshot create_ts : Timestamp) (delete_ts : option Timestamp) : bool :=
  if decide (create_ts > snapshot) then false
  else match delete_ts with
       | Some del => bool_decide (snapshot < del)
       | None => true
       end.

Definition row_live (snapshot create_ts : Timestamp) (delete_ts : option Timestamp) : bool :=
  is_visible snapshot create_ts delete_ts.

Definition is_column_visible (snapshot create_ts : Timestamp) : bool :=
  bool_decide (create_ts <= snapshot).

Definition is_edge_visible (snapshot create_ts delete_ts : Timestamp) : bool :=
  bool_decide (create_ts <= snapshot) && bool_decide (snapshot < delete_ts).

Definition is_version_visible (snapshot start_ts end_ts : Timestamp) : bool :=
  bool_decide (start_ts <= snapshot) && bool_decide (snapshot < end_ts).

Definition is_gc_eligible (end_ts safe : Timestamp) : bool := bool_decide (end_ts <= safe).

(** What garbage collection may reclaim no snapshot at or above the cutoff sees. *)
Lemma gc_eligible_invisible snapshot start_ts end_ts safe :
  safe <= snapshot -> is_gc_eligible end_ts safe = true ->
  is_version_visible snapshot start_ts end_ts = false.
Proof.
  unfold is_gc_eligible, is_version_visible. intros Hs He%bool_decide_eq_true_1.
  apply andb_false_iff. right. apply bool_decide_eq_false. lia.
Qed.

End Visibility.

(** ** The pending-aware gate *)

Record PendingGate := mkGate { manager : VersionManager; own_write : option Timestamp }.

Module Gate.

Definition new (m : VersionManager) (own : option Timestamp) : PendingGate := mkGate m own.

Definition is_foreign_pending (g : PendingGate) (snapshot stamp : Timestamp) : bool :=
  if decide (stamp > snapshot) then false
  else if decide (stamp <= Vm.read_timestamp (manager g)) then false
  else if decide (Some stamp = own_write g) then false
  else match Vm.timestamp_slot (manager g) stamp with
       | SlotPending | SlotAborted => true
       | _ => false
       end.

Definition is_create_visible (g : PendingGate) (snapshot create_ts : Timestamp) : bool :=
  if decide (create_ts > snapshot) then false
  else if decide (create_ts <= Vm.read_timestamp (manager g)) then true
  else if decide (Some create_ts = own_write g) then true
  else match Vm.timestamp_slot (manager g) create_ts with
       | SlotCommitted | SlotVanished => true
       | _ => false
       end.

Definition effective_delete (g : PendingGate) (snapshot : Timestamp)
    (delete_ts : option Timestamp) : option Timestamp :=
  match delete_ts with
  | None => None
  | Some d =>
      if decide (snapshot < d) then None
      else if decide (d <= Vm.read_timestamp (manager g)) then Some d
      else if decide (Some d = own_write g) then Some d
      else match Vm.timestamp_slot (manager g) d with
           | SlotCommitted | SlotVanished => Some d
           | SlotPending | SlotAborted => None
           end
  end.

Definition is_row_visible (g : PendingGate) (snapshot create_ts : Timestamp)
    (delete_ts : option Timestamp) : bool :=
  if is_create_visible g snapshot create_ts
  then bool_decide (effective_delete g snapshot delete_ts = None) else false.

Definition is_edge_visible (g : PendingGate) (snapshot create_ts delete_ts : Timestamp) : bool :=
  let delete := if decide (delete_ts = U64_MAX) then None else Some delete_ts in
  is_row_visible g snapshot create_ts delete.

End Gate.

Record VisibilityGuard := mkGuard { guard_snapshot : Timestamp; guard_gate : PendingGate }.

Module Guard.

Definition new (snapshot : Timestamp) (g : PendingGate) : VisibilityGuard := mkGuard snapshot g.

Definition snapshot (g : VisibilityGuard) : Timestamp := guard_snapshot g.

Definition is_row_visible (g : VisibilityGuard) (create_ts : Timestamp)
    (delete_ts : option Timestamp) : bool :=
  Gate.is_row_visible (guard_gate g) (guard_snapshot g) create_ts delete_ts.

End Guard.

(** ** Properties *)

Module VisibilityFacts.
Import Vm VmSteps.

Lemma create_visible_foreign g snapshot stamp :
  stamp <= snapshot ->
  Gate.is_create_visible g snapshot stamp = negb (Gate.is_foreign_pending g snapshot stamp).
Proof.
  intros. unfold Gate.is_create_visible, Gate.is_foreign_pending.
  repeat case_decide; try lia; try done. by destruct (timestamp_slot _ _).
Qed.

Lemma effective_delete_foreign g snapshot d :
  d <= snapshot ->
  Gate.effective_delete g snapshot (Some d) =
  if Gate.is_foreign_pending g snapshot d then None else Some d.
Proof.
  intros. unfold Gate.effective_delete, Gate.is_foreign_pending.
  repeat case_decide; try lia; try done. by destruct (timestamp_slot _ _).
Qed.

(** The gate is the interval predicate applied to the stamps that are not
    foreign and unsettled. *)
Lemma row_visible_effective g snapshot c d :
  Gate.is_row_visible g snapshot c d =
  negb (Gate.is_foreign_pending g snapshot c) &&
  Visibility.is_visible snapshot c
    (match d with
     | Some t => if Gate.is_foreign_pending g snapshot t then None else Some t
     | None => None
     end).
Proof.
  unfold Gate.is_row_visible, Visibility.is_visible.
  destruct (decide (c > snapshot)) as [Hc|Hc].
  { unfold Gate.is_create_visible. rewrite decide_True by done. by rewrite andb_false_r. }
  rewrite create_visible_foreign by lia.
  destruct (Gate.is_foreign_pending g snapshot c); simpl; [done|].
  destruct d as [t|]; [|done].
  destruct (decide (t <= snapshot)) as [Ht|Ht].
  - rewrite effective_delete_foreign by done.
    destruct (Gate.is_foreign_pending g snapshot t); [done|].
    rewrite bool_decide_eq_false_2 by done. symmetry. apply bool_decide_eq_false. lia.
  - assert (Gate.is_foreign_pending g snapshot t = false) as ->.
    { unfold Gate.is_foreign_pending. by rewrite decide_True by lia. }
    unfold Gate.effective_delete. rewrite decide_True by lia.
    by rewrite !bool_decide_eq_true_2 by (done || lia).
Qed.

(** At or below the frontier nothing is foreign and unsettled. *)
Lemma foreign_below_frontier g snapshot stamp :
  snapshot <= read_ts (manager g) -> Gate.is_foreign_pending g snapshot stamp = false.
Proof.
  intros. unfold Gate.is_foreign_pending, read_timestamp. by repeat case_decide; try lia.
Qed.

Lemma row_visible_below_frontier g snapshot c d :
  snapshot <= read_ts (manager g) ->
  Gate.is_row_visible g snapshot c d = Visibility.is_visible snapshot c d.
Proof.
  intros Hle. rewrite row_visible_effective, foreign_below_frontier by done.
  destruct d as [t|]; [by rewrite foreign_below_frontier|done].
Qed.

(** A reservation whose start slot was settled first pins nothing. *)
Definition no_orphan_reservation (s : vstate) : Prop :=
  forall c start, v_reserved s !! c = Some start ->
    slot_state (v_vm s) c = Some WPending -> slot_state (v_vm s) start = Some WPending.

(** The captured cutoff, less a margin of at least one, is at or below the
    frontier and every pinned snapshot. *)
Lemma safe_gc_bounds s margin cp lsn :
  vinv s -> v_flight s = ∅ -> no_orphan_reservation s -> 1 <= margin ->
  let safe := Watermarks.safe_gc_timestamp_with_margin margin
                (Watermarks.capture (v_vm s) cp lsn) in
  safe <= read_ts (v_vm s) /\
  forall ts, ts ∈ v_readers s \/ pinned (v_vm s) (v_tracked s) (v_reserved s) ts -> safe <= ts.
Proof.
  intros Hinv Hfl Horph Hm. pose proof Hinv as [[Hr Hs Hf _ Hc Hrs Hrd (held & Href & Hmul)] Hb].
  assert (Hheld : forall ts, ts ∈ held <->
            ts ∈ v_readers s \/ pinned (v_vm s) (v_tracked s) (v_reserved s) ts).
  { intros ts. rewrite !elem_of_multiplicity, Hmul. unfold pins. case_decide.
    - split; [by right|lia].
    - split; [left; lia|]. intros [?|?]; [lia|done]. }
  cbv zeta. unfold Watermarks.safe_gc_timestamp_with_margin, Watermarks.safe_gc_timestamp,
    Watermarks.capture, NO_ACTIVE_SNAPSHOT, saturating_sub_u64, Tracker.cleanup_threshold,
    read_timestamp; simpl.
  destruct (Tracker.refines_min _ _ Href) as [[-> ->]|[Hin Hmin]].
  { rewrite decide_True by done. split; [lia|]. intros ts Hts%Hheld. multiset_solver. }
  set (mn := Tracker.min_active_snapshot (snapshot_tracker (v_vm s))) in *.
  assert (Hbound : forall ts, ts ∈ held -> 0 <= ts <= write_ts (v_vm s)).
  { intros ts [Hx|[Hx|[Hx _]]]%Hheld.
    - specialize (Hrd ts (or_introl Hx)). lia.
    - destruct (Hf ts) as (? & _); [set_solver +Hx|lia].
    - pose proof (unsettled_above s ts Hinv (or_intror Hx)). lia. }
  assert (Hmn : 0 <= mn <= write_ts (v_vm s)) by auto.
  pose proof MAX_lt_U64. rewrite decide_False by lia.
  split; [|intros ts Hts%Hheld%Hmin; lia].
  assert (mn <= read_ts (v_vm s) + 1); [|lia].
  destruct (decide (read_ts (v_vm s) = write_ts (v_vm s))); [lia|].
  assert (Hun : unsettled s (read_ts (v_vm s) + 1)).
  { destruct (Hc (read_ts (v_vm s) + 1)) as [?|[e He]]; [lia|by left|right].
    unfold slot_state. rewrite He. simpl. f_equal. by apply Hb. }
  apply Hmin, Hheld. right. destruct Hun as [Hun|Hun]; [left; set_solver +Hun Hfl|].
  right. split; [done|]. destruct (v_reserved s !! _) as [start|] eqn:E; [exfalso|done].
  pose proof (Horph _ _ E Hun) as Hst. apply Hrs in E.
  pose proof (unsettled_above s start Hinv (or_intror Hst)). lia.
Qed.


(** No dirty reads.  In every reachable state, under a gate that does not
    own the stamp, a row created by a pending transaction is invisible at any
    snapshot, and a deletion by a pending transaction hides nothing: the row's
    visibility is that of the undeleted row. *)
Theorem gate_hides_pending s own snapshot stamp c d :
  reachable s -> slot_state (v_vm s) stamp = Some WPending -> own <> Some stamp ->
  let g := Gate.new (v_vm s) own in
  Gate.is_row_visible g snapshot stamp d = false /\
  Gate.is_row_visible g snapshot c (Some stamp) = Gate.is_row_visible g snapshot c None.
Proof.
  intros Hre%vinv_reachable Hp Hown. cbv zeta.
  pose proof (unsettled_above s stamp Hre (or_intror Hp)) as Hab.
  assert (Hslot : timestamp_slot (v_vm s) stamp = SlotPending).
  { unfold timestamp_slot. by rewrite Hp. }
  assert (Hfp : stamp <= snapshot ->
    Gate.is_foreign_pending (Gate.new (v_vm s) own) snapshot stamp = true).
  { intros Hle. unfold Gate.is_foreign_pending, Gate.new, read_timestamp; simpl.
    rewrite Hslot. repeat case_decide; try lia; congruence. }
  rewrite !row_visible_effective.
  destruct (decide (stamp <= snapshot)) as [Hle|Hle].
  - by rewrite Hfp.
  - split.
    + unfold Visibility.is_visible. rewrite decide_True by lia. apply andb_false_r.
    + f_equal. unfold Visibility.is_visible. case_decide; [done|].
      destruct (Gate.is_foreign_pending _ _ _); [done|]. apply bool_decide_eq_true. lia.
Qed.

(** Own writes are visible.  A transaction reading at or past its own
    write timestamp sees the rows it created and does not see the rows it
    deleted, whatever the state of the version manager. *)
Theorem gate_own_writes vm own snapshot c :
  own <= snapshot ->
  let g := Gate.new vm (Some own) in
  Gate.is_row_visible g snapshot own None = true /\
  Gate.is_row_visible g snapshot c (Some own) = false.
Proof.
  intros Hle. cbv zeta.
  assert (Hf : Gate.is_foreign_pending (Gate.new vm (Some own)) snapshot own = false).
  { unfold Gate.is_foreign_pending; simpl. by repeat case_decide; try lia. }
  rewrite !row_visible_effective, Hf. unfold Visibility.is_visible. split.
  - by rewrite decide_False by lia.
  - apply andb_false_iff. right. case_decide; [done|]. apply bool_decide_eq_false. lia.
Qed.

(** Repeatable reads at a published snapshot.  A snapshot at or below the
    read frontier gets, for every row, the verdict of the plain interval
    predicate, and the same verdict in every later state of any interleaving
    with writers, committers and the reaper, through any gate. *)
Theorem reader_repeatable s s' own own' snapshot c d :
  reachable s -> rtc vstep s s' -> snapshot <= read_timestamp (v_vm s) ->
  Gate.is_row_visible (Gate.new (v_vm s) own) snapshot c d
    = Visibility.row_live snapshot c d /\
  Gate.is_row_visible (Gate.new (v_vm s') own') snapshot c d
    = Gate.is_row_visible (Gate.new (v_vm s) own) snapshot c d.
Proof.
  intros Hre%vinv_reachable Hsteps Hle. unfold read_timestamp in Hle.
  destruct (steps_effect _ _ Hre Hsteps) as (_ & Hmono & _).
  rewrite !row_visible_below_frontier by (simpl; lia). done.
Qed.

(** ** Concrete runs *)

(** A writer whose timestamp 2 is allocated and not yet pinned, while others
    allocate 3, commit at 4 and start at 5. *)
Definition ex_race : vstate :=
  let vm1 := (reserve_timestamp new).1 in
  let vm2 := (acquire_insert_timestamp 0 vm1).1 in
  let vm3 := (commit_ordered 0 3 vm2).1 in
  let vm4 := (acquire_insert_timestamp 0 vm3).1 in
  mkVs vm4 {[2]} ∅ ∅ ∅ {[4 := 3]}.

Lemma ex_race_reachable : reachable ex_race.
Proof.
  eexists. split; [apply (initial_new default_config)|].
  assert (Hinit : vinv (mkVs new ∅ ∅ ∅ ∅ ∅)) by (apply vinv_initial; constructor).
  assert (Hres : reserve_timestamp new = ((reserve_timestamp new).1, Ok 2)) by reflexivity.
  pose proof (step_reserve new ∅ ∅ ∅ ∅ ∅ _ _ Hres) as Hs1.
  replace ({[2]} ∪ ∅) with ({[2]} : gset Z) in Hs1 by set_solver.
  pose proof (vinv_step _ _ Hs1 Hinit) as Hv1.
  eapply rtc_l; [exact Hs1|].
  set (vm1 := (reserve_timestamp new).1) in *.
  assert (Hs2 : rtc vstep (mkVs vm1 {[2]} ∅ ∅ ∅ ∅)
                  (mkVs (acquire_insert_timestamp 0 vm1).1 {[2]} ∅ ∅ ∅ ∅)).
  { by apply (acquire_insert_steps 0 _ _ 3). }
  destruct (steps_effect _ _ Hv1 Hs2) as [Hv2 _].
  eapply (transitivity (R := rtc vstep)); [exact Hs2|]. set (vm2 := (acquire_insert_timestamp 0 vm1).1) in *.
  assert (Hs3 : rtc vstep (mkVs vm2 {[2]} ∅ ∅ ∅ ∅)
                  (mkVs (commit_ordered 0 3 vm2).1 {[2]} ∅ ∅ ∅ {[4 := 3]})).
  { rewrite <- insert_empty. by apply (commit_ordered_steps 0). }
  destruct (steps_effect _ _ Hv2 Hs3) as [Hv3 _].
  eapply (transitivity (R := rtc vstep)); [exact Hs3|].
  apply (acquire_insert_steps 0 (commit_ordered 0 3 vm2).1 _ 5); [exact Hv3|..]; vm_compute; reflexivity.
Qed.

(** The window before a pin.  Without the condition on unpinned
    timestamps [gc_safe] fails: with timestamp 2 allocated and not yet pinned,
    the frontier is still 1 while the oldest pinned snapshot is 5, so the
    cutoff (4, margin included) lies above the frontier: a version that ended
    at the committed timestamp 3 is reclaimable, and the next reader, whose
    snapshot is 1, sees it.  The cutoff is the oldest snapshot even when the
    published frontier is older. *)
Theorem gc_window_unpinned :
  reachable ex_race /\
  Visibility.is_gc_eligible 3
    (Watermarks.safe_gc_timestamp_with_margin 1
       (Watermarks.capture (v_vm ex_race) None None)) = true /\
  Visibility.is_version_visible (read_timestamp (v_vm ex_race)) 1 3 = true.
Proof. split; [apply ex_race_reachable|]. split; reflexivity. Qed.


Lemma gate_hides_pending_witness :
  Gate.is_row_visible (Gate.new (v_vm ex_writer) None) 10 2 None = false.
Proof.
  apply (gate_hides_pending ex_writer None 10 2 0 None ex_writer_reachable);
    [reflexivity|discriminate].
Defined.

Lemma gate_own_writes_witness :
  Gate.is_row_visible (Gate.new (v_vm ex_writer) (Some 2)) 2 2 None = true.
Proof. apply (gate_own_writes (v_vm ex_writer) 2 2 0). lia. Defined.

Lemma reader_repeatable_witness :
  Gate.is_row_visible (Gate.new (v_vm ex_writer) None) 1 1 (Some 2) = true.
Proof.
  rewrite (proj1 (reader_repeatable ex_writer ex_writer None None 1 1 (Some 2)
    ex_writer_reachable (rtc_refl _ _) ltac:(vm_compute; discriminate))).
  reflexivity.
Defined.

End VisibilityFacts.
