(* ===== verification/WriteSet.v ===== *)
(** * Write sets

    [linkrs-transaction/src/types/writeset.rs] and [conflict.rs]: the entities
    and resources a transaction wrote (or, as a read set, read), the conflict
    predicates over them, the read ranges used against phantoms, and the
    resource identifiers of rw-dependency tracking. *)

From stdpp Require Import base gmap sets list strings.
From Stdlib Require Import ZArith Lia SpecFloat.
From S2P Require Import Prelude Types.

(** [ReadRange]: bounds compare identifier bytes; both are inclusive. *)
Record ReadRange := mkRange {
  rr_label : string;
  rr_column : option string;
  rr_start : option VertexId;
  rr_end : option VertexId;
}.

#[export] Instance ReadRange_eq_dec : EqDecision ReadRange.
Proof. solve_decision. Defined.

Record WriteSet := mkWs {
  vertices : gset VertexId;
  edges : gset EdgeIdentifier;
  edge_endpoints : gset VertexId;
  deleted_vertices : gset VertexId;
  schema_resources : gset string;
  index_resources : gset string;
  read_ranges : list ReadRange;
}.

#[export] Instance WriteSet_eq_dec : EqDecision WriteSet.
Proof. solve_decision. Defined.

(** [ResourceId]. *)
Inductive ResourceId :=
| RVertex (v : VertexId) | REdge (e : EdgeIdentifier) | RSchema (s : string) | RIndex (s : string).

#[export] Instance ResourceId_eq_dec : EqDecision ResourceId.
Proof. solve_decision. Defined.

#[export] Instance ResourceId_countable : Countable ResourceId.
Proof.
  apply (inj_countable'
    (fun r => match r with
              | RVertex v => inl (inl v) | REdge e => inl (inr e)
              | RSchema s => inr (inl s) | RIndex s => inr (inr s)
              end)
    (fun t => match t with
              | inl (inl v) => RVertex v | inl (inr e) => REdge e
              | inr (inl s) => RSchema s | inr (inr s) => RIndex s
              end)).
  by intros [].
Defined.

(** [SsiState]. *)
Record SsiState := mkSsi {
  read_resources : gset ResourceId;
  write_resources : gset ResourceId;
}.

Module Range.

Definition new (label : string) : ReadRange := mkRange label None None None.

Definition with_column (c : string) (r : ReadRange) : ReadRange :=
  mkRange (rr_label r) (Some c) (rr_start r) (rr_end r).

Definition with_start (s : VertexId) (r : ReadRange) : ReadRange :=
  mkRange (rr_label r) (rr_column r) (Some s) (rr_end r).

Definition with_end (e : VertexId) (r : ReadRange) : ReadRange :=
  mkRange (rr_label r) (rr_column r) (rr_start r) (Some e).

Definition contains (r : ReadRange) (vid : VertexId) : bool :=
  match rr_start r with
  | Some s => match bytes_cmp (as_bytes vid) (as_bytes s) with Lt => false | _ => true end
  | None => true
  end &&
  match rr_end r with
  | Some e => match bytes_cmp (as_bytes vid) (as_bytes e) with Gt => false | _ => true end
  | None => true
  end.

End Range.

Module Ws.

Definition new : WriteSet := mkWs ∅ ∅ ∅ ∅ ∅ ∅ [].

Definition record_vertex (vid : VertexId) (w : WriteSet) : WriteSet :=
  mkWs ({[vid]} ∪ vertices w) (edges w) (edge_endpoints w) (deleted_vertices w)
    (schema_resources w) (index_resources w) (read_ranges w).

Definition record_vertex_delete (vid : VertexId) (w : WriteSet) : WriteSet :=
  mkWs ({[vid]} ∪ vertices w) (edges w) (edge_endpoints w) ({[vid]} ∪ deleted_vertices w)
    (schema_resources w) (index_resources w) (read_ranges w).

Definition record_edge (e : EdgeIdentifier) (w : WriteSet) : WriteSet :=
  mkWs (vertices w) ({[e]} ∪ edges w)
    ({[dst_vid e]} ∪ ({[src_vid e]} ∪ edge_endpoints w)) (deleted_vertices w)
    (schema_resources w) (index_resources w) (read_ranges w).

Definition record_schema_resource (r : string) (w : WriteSet) : WriteSet :=
  mkWs (vertices w) (edges w) (edge_endpoints w) (deleted_vertices w)
    ({[r]} ∪ schema_resources w) (index_resources w) (read_ranges w).

Definition record_index_resource (r : string) (w : WriteSet) : WriteSet :=
  mkWs (vertices w) (edges w) (edge_endpoints w) (deleted_vertices w)
    (schema_resources w) ({[r]} ∪ index_resources w) (read_ranges w).

Definition record_read_range (r : ReadRange) (w : WriteSet) : WriteSet :=
  mkWs (vertices w) (edges w) (edge_endpoints w) (deleted_vertices w)
    (schema_resources w) (index_resources w) (read_ranges w ++ [r]).

Definition covers_vertex (w : WriteSet) (vid : VertexId) : bool := bool_decide (vid ∈ vertices w).

Definition covers_edge (w : WriteSet) (e : EdgeIdentifier) : bool := bool_decide (e ∈ edges w).

Definition has_read_range_conflict_with (w committed : WriteSet) : bool :=
  existsb (fun range =>
    existsb (Range.contains range) (elements (vertices committed)) ||
    existsb (fun e => Range.contains range (src_vid e) || Range.contains range (dst_vid e))
      (elements (edges committed))) (read_ranges w).

(** [HashSet::is_disjoint], as a boolean. *)
Definition is_disjoint {A} `{Countable A} (X Y : gset A) : bool := bool_decide (X ## Y).

Definition has_read_conflict_with (w committed : WriteSet) : bool :=
  if existsb (fun v => bool_decide (v ∈ vertices w)) (elements (vertices committed)) then true
  else if existsb (fun e => bool_decide (e ∈ edges w)) (elements (edges committed)) then true
  else if negb (is_disjoint (schema_resources w) (schema_resources committed)) ||
          negb (is_disjoint (index_resources w) (index_resources committed)) then true
  else has_read_range_conflict_with w committed.

Definition is_empty (w : WriteSet) : bool :=
  bool_decide (vertices w = ∅) && bool_decide (edges w = ∅) &&
  bool_decide (schema_resources w = ∅) && bool_decide (index_resources w = ∅) &&
  bool_decide (read_ranges w = []).

Definition is_empty_for_certification (w : WriteSet) : bool := is_empty w.

Definition size (w : WriteSet) : Z :=
  Z.of_nat (base.size (vertices w)) + Z.of_nat (base.size (edges w)).

Definition ssi_resources (w : WriteSet) : list ResourceId :=
  (RVertex <$> elements (vertices w)) ++ (REdge <$> elements (edges w)) ++
  (RSchema <$> elements (schema_resources w)) ++ (RIndex <$> elements (index_resources w)).

Definition has_conflict_with (w o : WriteSet) : bool :=
  if negb (is_disjoint (vertices w) (vertices o)) then true
  else if negb (is_disjoint (edges w) (edges o)) then true
  else if negb (is_disjoint (deleted_vertices w) (edge_endpoints o)) ||
          negb (is_disjoint (deleted_vertices o) (edge_endpoints w)) then true
  else if negb (is_disjoint (schema_resources w) (schema_resources o)) ||
          negb (is_disjoint (index_resources w) (index_resources o)) then true
  else if (negb (bool_decide (schema_resources w = ∅)) &&
             (negb (bool_decide (vertices o = ∅)) || negb (bool_decide (edges o = ∅)))) ||
          (negb (bool_decide (schema_resources o = ∅)) &&
             (negb (bool_decide (vertices w = ∅)) || negb (bool_decide (edges w = ∅)))) then true
  else false.

(** What a write set built by the recording methods satisfies: endpoints are
    those of the edges, deletions are writes. *)
Definition wf (w : WriteSet) : Prop :=
  (forall v, v ∈ edge_endpoints w <-> exists e, e ∈ edges w /\ (v = src_vid e \/ v = dst_vid e)) /\
  deleted_vertices w ⊆ vertices w.

(** The conflict predicate in logical form. *)
Definition conflicts (w o : WriteSet) : Prop :=
  (exists v, v ∈ vertices w /\ v ∈ vertices o) \/
  (exists e, e ∈ edges w /\ e ∈ edges o) \/
  (exists v, v ∈ deleted_vertices w /\ v ∈ edge_endpoints o) \/
  (exists v, v ∈ deleted_vertices o /\ v ∈ edge_endpoints w) \/
  (exists r, r ∈ schema_resources w /\ r ∈ schema_resources o) \/
  (exists r, r ∈ index_resources w /\ r ∈ index_resources o) \/
  (schema_resources w <> ∅ /\ (vertices o <> ∅ \/ edges o <> ∅)) \/
  (schema_resources o <> ∅ /\ (vertices w <> ∅ \/ edges w <> ∅)).

End Ws.

(** ** Conflict analysis ([conflict.rs]) *)

Record ConflictReport := mkReport {
  report_has_conflict : bool;
  report_vertex_conflict : bool;
  report_edge_conflict : bool;
  report_intensity : spec_float;
}.

Module Analyzer.

Definition have_write_conflict (a b : WriteSet) : bool := Ws.has_conflict_with a b.

Definition conflict_intensity (a b : WriteSet) : spec_float :=
  if negb (have_write_conflict a b) then f64_of_Z 0
  else
    let vertex_overlap := Z.of_nat (size (vertices a ∩ vertices b)) in
    let edge_overlap := Z.of_nat (size (edges a ∩ edges b)) in
    let max_size := Z.max (Ws.size a) (Ws.size b) in
    if decide (max_size = 0) then f64_of_Z 0
    else f64_div (f64_of_Z (vertex_overlap + edge_overlap)) (f64_of_Z max_size).

Definition conflicts_on_vertex (a b : WriteSet) : bool :=
  negb (Ws.is_disjoint (vertices a) (vertices b)).

Definition conflicts_on_edge (a b : WriteSet) : bool := negb (Ws.is_disjoint (edges a) (edges b)).

Definition has_local_write (w : WriteSet) (vid : VertexId) : bool := Ws.covers_vertex w vid.

Definition has_local_edge_write (w : WriteSet) (e : EdgeIdentifier) : bool := Ws.covers_edge w e.

Definition analyze_conflict (a b : WriteSet) : ConflictReport :=
  mkReport (have_write_conflict a b) (conflicts_on_vertex a b) (conflicts_on_edge a b)
    (conflict_intensity a b).

End Analyzer.

Module Ssi.

Definition new : SsiState := mkSsi ∅ ∅.

Definition record_read (r : ResourceId) (s : SsiState) : SsiState :=
  mkSsi ({[r]} ∪ read_resources s) (write_resources s).

Definition record_write (r : ResourceId) (s : SsiState) : SsiState :=
  mkSsi (read_resources s) ({[r]} ∪ write_resources s).

Definition is_empty (s : SsiState) : bool :=
  bool_decide (read_resources s = ∅) && bool_decide (write_resources s = ∅).

End Ssi.

(** ** Lemmas and properties *)

Module WsFacts.
Import Ws.

Lemma is_disjoint_false {A} `{Countable A} (X Y : gset A) :
  is_disjoint X Y = false <-> exists x, x ∈ X /\ x ∈ Y.
Proof.
  unfold is_disjoint. rewrite bool_decide_eq_false. split.
  - intros Hn. destruct (decide (X ∩ Y = ∅)) as [He|He].
    + exfalso. apply Hn. set_solver.
    + apply set_choose_L in He as [x Hx]. exists x. set_solver.
  - intros (x & H1 & H2) Hd. set_solver.
Qed.

Lemma is_disjoint_true {A} `{Countable A} (X Y : gset A) :
  is_disjoint X Y = true <-> X ## Y.
Proof. apply bool_decide_eq_true. Qed.

Lemma negb_is_disjoint {A} `{Countable A} (X Y : gset A) :
  negb (is_disjoint X Y) = true <-> exists x, x ∈ X /\ x ∈ Y.
Proof. by rewrite negb_true_iff, is_disjoint_false. Qed.

Lemma has_conflict_spec w o : has_conflict_with w o = true <-> conflicts w o.
Proof.
  unfold has_conflict_with, conflicts.
  rewrite <- !is_disjoint_false.
  destruct (is_disjoint (vertices w) (vertices o)); simpl; [|tauto].
  destruct (is_disjoint (edges w) (edges o)); simpl; [|tauto].
  destruct (is_disjoint (deleted_vertices w) (edge_endpoints o)); simpl; [|tauto].
  destruct (is_disjoint (deleted_vertices o) (edge_endpoints w)); simpl; [|tauto].
  destruct (is_disjoint (schema_resources w) (schema_resources o)); simpl; [|tauto].
  destruct (is_disjoint (index_resources w) (index_resources o)); simpl; [|tauto].
  repeat case_bool_decide; simpl; intuition congruence.
Qed.

Lemma conflicts_sym w o : conflicts w o -> conflicts o w.
Proof. unfold conflicts. intuition; destruct_and?; naive_solver. Qed.

Lemma has_conflict_sym w o : has_conflict_with w o = has_conflict_with o w.
Proof.
  apply eq_bool_prop_intro. rewrite !Is_true_true, !has_conflict_spec.
  split; apply conflicts_sym.
Qed.

(** ** Recorded write sets *)

(** One call of a recording method. *)
Inductive recording :=
| RecVertex (v : VertexId) | RecDelete (v : VertexId) | RecEdge (e : EdgeIdentifier)
| RecSchema (r : string) | RecIndex (r : string) | RecRange (r : ReadRange).

Definition record_one (w : WriteSet) (r : recording) : WriteSet :=
  match r with
  | RecVertex v => record_vertex v w
  | RecDelete v => record_vertex_delete v w
  | RecEdge e => record_edge e w
  | RecSchema s => record_schema_resource s w
  | RecIndex s => record_index_resource s w
  | RecRange g => record_read_range g w
  end.

(** The write set of a transaction that made these calls. *)
Definition recorded (l : list recording) : WriteSet := fold_left record_one l new.

Definition writes_vertex (l : list recording) (v : VertexId) : Prop :=
  RecVertex v ∈ l \/ RecDelete v ∈ l.

Definition touches_data (l : list recording) : Prop :=
  exists r, r ∈ l /\ match r with RecVertex _ | RecDelete _ | RecEdge _ => True | _ => False end.

Definition changes_schema (l : list recording) : Prop := exists s, RecSchema s ∈ l.

Record recorded_spec (l : list recording) (w : WriteSet) : Prop := {
  rs_vertices : forall v, v ∈ vertices w <-> writes_vertex l v;
  rs_edges : forall e, e ∈ edges w <-> RecEdge e ∈ l;
  rs_endpoints : forall v, v ∈ edge_endpoints w <->
    exists e, RecEdge e ∈ l /\ (v = src_vid e \/ v = dst_vid e);
  rs_deleted : forall v, v ∈ deleted_vertices w <-> RecDelete v ∈ l;
  rs_schema : forall r, r ∈ schema_resources w <-> RecSchema r ∈ l;
  rs_index : forall r, r ∈ index_resources w <-> RecIndex r ∈ l;
  rs_ranges : forall r, r ∈ read_ranges w <-> RecRange r ∈ l;
}.

Lemma recorded_ok l : recorded_spec l (recorded l).
Proof.
  unfold recorded. induction l as [|r l IH] using rev_ind.
  { simpl. split; intros; unfold writes_vertex; set_solver. }
  rewrite fold_left_app. simpl.
  destruct IH as [H1 H2 H3 H4 H5 H6 H7]. unfold writes_vertex in *.
  destruct r; split; intros x; simpl; unfold writes_vertex;
    rewrite ?elem_of_union, ?elem_of_singleton, ?H1, ?H2, ?H3, ?H4, ?H5, ?H6, ?H7;
    setoid_rewrite elem_of_app; setoid_rewrite list_elem_of_singleton; naive_solver.
Qed.

Lemma nonempty_iff {A} `{Countable A} (X : gset A) : X <> ∅ <-> exists x, x ∈ X.
Proof.
  split; [intros Hx%set_choose_L; done|]. intros [x Hx] ->. set_solver.
Qed.

Lemma touches_data_spec l :
  touches_data l <-> vertices (recorded l) <> ∅ \/ edges (recorded l) <> ∅.
Proof.
  pose proof (recorded_ok l) as [H1 H2 _ _ _ _ _]. rewrite !nonempty_iff.
  setoid_rewrite H1. setoid_rewrite H2. unfold touches_data, writes_vertex. split.
  - intros ([] & Hin & Hr); try done; eauto.
  - intros [(v & [Hv|Hv])|(e & He)]; eexists; (split; [eassumption|done]).
Qed.

(** Write-write conflict detection is exact.  For the write sets two
    transactions accumulate through the recording methods, the predicate holds
    if and only if both wrote (or deleted) a common vertex, both wrote a common
    edge, one deleted a vertex that is an endpoint of an edge the other wrote,
    both changed a common schema or index resource, or one changed the schema
    while the other wrote data.  In particular edges that merely share
    endpoints do not conflict, and the relation is symmetric. *)
Theorem write_conflict_exact l1 l2 :
  (has_conflict_with (recorded l1) (recorded l2) = true <->
    (exists v, writes_vertex l1 v /\ writes_vertex l2 v) \/
    (exists e, RecEdge e ∈ l1 /\ RecEdge e ∈ l2) \/
    (exists v e, RecDelete v ∈ l1 /\ RecEdge e ∈ l2 /\ (v = src_vid e \/ v = dst_vid e)) \/
    (exists v e, RecDelete v ∈ l2 /\ RecEdge e ∈ l1 /\ (v = src_vid e \/ v = dst_vid e)) \/
    (exists r, RecSchema r ∈ l1 /\ RecSchema r ∈ l2) \/
    (exists r, RecIndex r ∈ l1 /\ RecIndex r ∈ l2) \/
    (changes_schema l1 /\ touches_data l2) \/ (changes_schema l2 /\ touches_data l1)) /\
  has_conflict_with (recorded l1) (recorded l2) = has_conflict_with (recorded l2) (recorded l1).
Proof.
  split; [|apply has_conflict_sym].
  rewrite has_conflict_spec. unfold conflicts.
  rewrite <- !touches_data_spec, !nonempty_iff. unfold changes_schema.
  destruct (recorded_ok l1) as [A1 A2 A3 A4 A5 A6 _], (recorded_ok l2) as [B1 B2 B3 B4 B5 B6 _].
  setoid_rewrite A1. setoid_rewrite A2. setoid_rewrite A3. setoid_rewrite A4.
  setoid_rewrite A5. setoid_rewrite A6. setoid_rewrite B1. setoid_rewrite B2.
  setoid_rewrite B3. setoid_rewrite B4. setoid_rewrite B5. setoid_rewrite B6.
  repeat (apply Morphisms_Prop.or_iff_morphism; [naive_solver|]). naive_solver.
Qed.

(** Range reads see every write in their bounds.  For a read set and a
    committed write set built by the recording methods, the phantom predicate
    holds if and only if some written vertex, or some endpoint of a written
    edge, lies in the byte-order bounds of a recorded range. *)
Theorem range_conflict_exact l1 l2 :
  has_read_range_conflict_with (recorded l1) (recorded l2) = true <->
  exists r v, RecRange r ∈ l1 /\ Range.contains r v = true /\
    (writes_vertex l2 v \/ exists e, RecEdge e ∈ l2 /\ (v = src_vid e \/ v = dst_vid e)).
Proof.
  destruct (recorded_ok l1) as [_ _ _ _ _ _ A7], (recorded_ok l2) as [B1 B2 _ _ _ _ _].
  unfold has_read_range_conflict_with. rewrite existsb_exists. split.
  - intros (r & Hr%list_elem_of_In%A7 & Hx). apply orb_true_iff in Hx as [Hx|Hx];
      apply existsb_exists in Hx as (y & Hy%list_elem_of_In & Hc);
      apply elem_of_elements in Hy.
    + exists r, y. rewrite B1 in Hy. auto.
    + rewrite B2 in Hy. apply orb_true_iff in Hc as [Hc|Hc]; exists r; eexists; eauto 8.
  - intros (r & v & Hr & Hc & Hv). exists r. rewrite <- list_elem_of_In, A7. split; [done|].
    apply orb_true_iff. rewrite !existsb_exists.
    destruct Hv as [Hv|(e & He & Hve)].
    + left. exists v. rewrite <- list_elem_of_In, elem_of_elements, B1. auto.
    + right. exists e. rewrite <- list_elem_of_In, elem_of_elements, B2. split; [done|].
      apply orb_true_iff. destruct Hve as [<-|<-]; auto.
Qed.

(** Ranges over integer identifiers are numeric.  For identifiers built by
    [VertexId::try_from_int64], the bytewise bounds check of a range from [a]
    to [b] accepts [v] exactly when [a <= v <= b]. *)
Theorem range_contains_numeric label a b v ia ib iv :
  a < 2 ^ 63 -> b < 2 ^ 63 -> v < 2 ^ 63 ->
  try_from_int64 a = Ok ia -> try_from_int64 b = Ok ib -> try_from_int64 v = Ok iv ->
  Range.contains (Range.with_end ib (Range.with_start ia (Range.new label))) iv = true
  <-> a <= v <= b.
Proof.
  intros Ha Hb Hv Ea Eb Ev. unfold Range.contains; simpl.
  rewrite (int_id_order v a iv ia), (int_id_order v b iv ib) by done.
  destruct (Z.compare_spec v a), (Z.compare_spec v b); simpl; split; (lia || done || intros; lia).
Qed.

Lemma range_contains_numeric_witness :
  exists ia ib iv,
    try_from_int64 5 = Ok ia /\ try_from_int64 300 = Ok ib /\ try_from_int64 256 = Ok iv /\
    Range.contains (Range.with_end ib (Range.with_start ia (Range.new "Person"))) iv = true.
Proof.
  eexists _, _, _. split; [reflexivity|]. split; [reflexivity|]. split; [reflexivity|].
  apply (range_contains_numeric "Person" 5 300 256); (reflexivity || lia).
Defined.

End WsFacts.
