(* ===== verification/WalTypes.v ===== *)
(** * Write-ahead log types

    [linkrs-core/src/wal/types.rs] and [wal/sync.rs]: operation tags, the file
    header and the record header with their byte layouts, the compression
    flag, the outbox intents and the transaction markers.  [crc32fast] is not
    part of the repository: the checksum of a byte sequence is a parameter. *)

From stdpp Require Import base gmap list strings.
From Stdlib Require Import ZArith Lia.
From S2P Require Import Prelude Types.

(** [Lsn(pub u64)] and [CommitLsn(u64)]. *)
Abbreviation Lsn := Z (only parsing).
Abbreviation CommitLsn := Z (only parsing).

Definition WAL_MAGIC : Z := 0x47524150.
Definition WAL_VERSION : Z := 3.
Definition WAL_FILE_HEADER_SIZE : nat := 64.
Definition WAL_HEADER_SIZE : nat := 40.
Definition WAL_BLOCK_SIZE : Z := 32 * 1024.
Definition WAL_MAX_RECORD_SIZE : Z := WAL_BLOCK_SIZE - Z.of_nat WAL_HEADER_SIZE.
Definition MAX_PAYLOAD_LENGTH : Z := 256 * 1024 * 1024.

Definition block_padding_needed (current_offset : Z) : Z :=
  let remainder := current_offset mod WAL_BLOCK_SIZE in
  if decide (remainder = 0) then 0 else WAL_BLOCK_SIZE - remainder.

Definition is_block_aligned (offset : Z) : bool := bool_decide (offset mod WAL_BLOCK_SIZE = 0).

(** [usize::div_ceil]. *)
Definition div_ceil (a b : Z) : Z :=
  let d := a / b in if decide (a mod b > 0) then d + 1 else d.

Definition align_to_block (offset : Z) : Z := div_ceil offset WAL_BLOCK_SIZE * WAL_BLOCK_SIZE.

Definition blocks_needed (sz : Z) : Z := div_ceil sz WAL_BLOCK_SIZE.

(** ** Errors *)

(** [WalError]; messages are dropped. *)
Inductive WalError :=
| IoError | InvalidOpType (v : Z) | InvalidHeader | InvalidFileHeader
| ChecksumMismatch (expected actual : Z)
| SerializationError | DeserializationError | FileNotFound | Corrupted | WClosed
| UnsupportedVersion (v : Z) | RecoveryAborted | InvalidOperation | Poisoned
| GroupCommitTimeout.

#[export] Instance WalError_eq_dec : EqDecision WalError.
Proof. solve_decision. Defined.

(** ** Operation tags *)

Inductive WalOpType :=
| OpInsertVertex | OpInsertEdge | OpCreateVertexType | OpCreateEdgeType | OpAddVertexProp
| OpAddEdgeProp | OpUpdateVertexProp | OpUpdateEdgeProp | OpDeleteVertex | OpDeleteEdge
| OpDeleteVertexType | OpDeleteEdgeType | OpDeleteVertexProp | OpDeleteEdgeProp
| OpRenameVertexProp | OpRenameEdgeProp | OpRenameTag | OpRenameEdgeType | OpCompact
| OpCreateSpace | OpDropSpace | OpClearSpace | OpOutboxIntent | OpTransactionCommit
| OpTransactionAbort | OpCreateTagIndex | OpDropTagIndex | OpCreateEdgeIndex | OpDropEdgeIndex
| OpUpdateSequence | OpCreateMacro | OpDropMacro | OpCreateTypeAlias | OpDropTypeAlias
| OpDeleteVertexProps.

#[export] Instance WalOpType_eq_dec : EqDecision WalOpType.
Proof. solve_decision. Defined.

(** [op as u8]: the discriminants; 22 is unused. *)
Definition op_as_u8 (o : WalOpType) : Z :=
  match o with
  | OpInsertVertex => 0 | OpInsertEdge => 1 | OpCreateVertexType => 2 | OpCreateEdgeType => 3
  | OpAddVertexProp => 4 | OpAddEdgeProp => 5 | OpUpdateVertexProp => 6 | OpUpdateEdgeProp => 7
  | OpDeleteVertex => 8 | OpDeleteEdge => 9 | OpDeleteVertexType => 10 | OpDeleteEdgeType => 11
  | OpDeleteVertexProp => 12 | OpDeleteEdgeProp => 13 | OpRenameVertexProp => 14
  | OpRenameEdgeProp => 15 | OpRenameTag => 16 | OpRenameEdgeType => 17 | OpCompact => 18
  | OpCreateSpace => 19 | OpDropSpace => 20 | OpClearSpace => 21 | OpOutboxIntent => 23
  | OpTransactionCommit => 24 | OpTransactionAbort => 25 | OpCreateTagIndex => 26
  | OpDropTagIndex => 27 | OpCreateEdgeIndex => 28 | OpDropEdgeIndex => 29
  | OpUpdateSequence => 30 | OpCreateMacro => 31 | OpDropMacro => 32 | OpCreateTypeAlias => 33
  | OpDropTypeAlias => 34 | OpDeleteVertexProps => 35
  end.

(** [WalOpType::try_from]. *)
Definition op_try_from (v : Z) : result WalOpType WalError :=
  match v with
  | 0 => Ok OpInsertVertex | 1 => Ok OpInsertEdge | 2 => Ok OpCreateVertexType
  | 3 => Ok OpCreateEdgeType | 4 => Ok OpAddVertexProp | 5 => Ok OpAddEdgeProp
  | 6 => Ok OpUpdateVertexProp | 7 => Ok OpUpdateEdgeProp | 8 => Ok OpDeleteVertex
  | 9 => Ok OpDeleteEdge | 10 => Ok OpDeleteVertexType | 11 => Ok OpDeleteEdgeType
  | 12 => Ok OpDeleteVertexProp | 13 => Ok OpDeleteEdgeProp | 14 => Ok OpRenameVertexProp
  | 15 => Ok OpRenameEdgeProp | 16 => Ok OpRenameTag | 17 => Ok OpRenameEdgeType
  | 18 => Ok OpCompact | 19 => Ok OpCreateSpace | 20 => Ok OpDropSpace | 21 => Ok OpClearSpace
  | 23 => Ok OpOutboxIntent | 24 => Ok OpTransactionCommit | 25 => Ok OpTransactionAbort
  | 26 => Ok OpCreateTagIndex | 27 => Ok OpDropTagIndex | 28 => Ok OpCreateEdgeIndex
  | 29 => Ok OpDropEdgeIndex | 30 => Ok OpUpdateSequence | 31 => Ok OpCreateMacro
  | 32 => Ok OpDropMacro | 33 => Ok OpCreateTypeAlias | 34 => Ok OpDropTypeAlias
  | 35 => Ok OpDeleteVertexProps
  | _ => Err (InvalidOpType v)
  end.

Lemma op_try_from_as_u8 o : op_try_from (op_as_u8 o) = Ok o.
Proof. by destruct o. Qed.

Lemma op_as_u8_range o : 0 <= op_as_u8 o < 36.
Proof. destruct o; simpl; lia. Qed.

#[export] Hint Resolve op_as_u8_range : linkrs.
#[export] Hint Rewrite op_try_from_as_u8 : linkrs.

(** ** Bytes *)

(** [uN::to_le_bytes] for a width of [n] bytes. *)
Definition le_bytes (n : nat) (z : Z) : list Z := rev (be_bytes n z).

Arguments le_bytes : simpl never.

Definition of_le_bytes (l : list Z) : Z := from_be_bytes (rev l).

(** [&bytes[off..off + n]]. *)
Definition slice (off n : nat) (l : list Z) : list Z := take n (drop off l).

Definition read_le (off n : nat) (l : list Z) : Z := of_le_bytes (slice off n l).

(** [bytes[off]], for an offset inside the buffer. *)
Definition byte_at (off : nat) (l : list Z) : Z := nth off l 0.

Definition bool_as_u8 (b : bool) : Z := if b then 1 else 0.

Lemma length_le_bytes n z : length (le_bytes n z) = n.
Proof. unfold le_bytes. by rewrite length_rev, length_be_bytes. Qed.

Lemma of_le_bytes_le n z : 0 <= z < 256 ^ Z.of_nat n -> of_le_bytes (le_bytes n z) = z.
Proof. intros. unfold of_le_bytes, le_bytes. rewrite rev_involutive. by apply from_be_bytes_be. Qed.

Lemma slice_skip off n a b : (length a <= off)%nat ->
  slice off n (a ++ b) = slice (off - length a) n b.
Proof. intros. unfold slice. rewrite drop_app, (drop_ge a) by lia. done. Qed.

Lemma slice_head n a b : length a = n -> slice 0 n (a ++ b) = a.
Proof. intros <-. unfold slice. by rewrite drop_0, take_app_length. Qed.

Lemma read_le_skip off n m z b : (m <= off)%nat ->
  read_le off n (le_bytes m z ++ b) = read_le (off - m) n b.
Proof. intros. unfold read_le. rewrite slice_skip; rewrite length_le_bytes; done. Qed.

Lemma read_le_head n z b : 0 <= z < 256 ^ Z.of_nat n -> read_le 0 n (le_bytes n z ++ b) = z.
Proof.
  intros. unfold read_le. rewrite slice_head by apply length_le_bytes. by apply of_le_bytes_le.
Qed.

Lemma read_le_cons off n x b : read_le (S off) n (x :: b) = read_le off n b.
Proof. done. Qed.

Lemma byte_at_skip off m z b : (m <= off)%nat ->
  byte_at off (le_bytes m z ++ b) = byte_at (off - m) b.
Proof. intros. unfold byte_at. rewrite app_nth2; rewrite length_le_bytes; done. Qed.

Lemma read_le_app off n a b : (off + n <= length a)%nat -> read_le off n (a ++ b) = read_le off n a.
Proof.
  intros. unfold read_le, slice. rewrite drop_app_le by lia.
  rewrite take_app_le; [done|]. rewrite length_drop. lia.
Qed.

Lemma byte_at_app off a b : (off < length a)%nat -> byte_at off (a ++ b) = byte_at off a.
Proof. intros. unfold byte_at. by apply app_nth1. Qed.

(** ** File header *)

Record WalFileHeader := mkFileHeader {
  fh_magic : Z;
  fh_version : Z;
  fh_checkpoint_seq : Z;
  fh_start_lsn : Z;
  fh_salt1 : Z;
  fh_salt2 : Z;
  fh_created_at : Z;
  fh_thread_id : Z;
  fh_reserved : list Z;
}.

Module FileHeader.

(** The salts and the clock are inputs. *)
Definition new (salt1 salt2 created_at thread_id checkpoint_seq : Z) (start_lsn : Lsn)
  : WalFileHeader :=
  mkFileHeader WAL_MAGIC WAL_VERSION checkpoint_seq start_lsn salt1 salt2 created_at thread_id
    (replicate 20 0).

Definition as_bytes (h : WalFileHeader) : list Z :=
  le_bytes 4 (fh_magic h) ++ le_bytes 4 (fh_version h) ++ le_bytes 8 (fh_checkpoint_seq h) ++
  le_bytes 8 (fh_start_lsn h) ++ le_bytes 4 (fh_salt1 h) ++ le_bytes 4 (fh_salt2 h) ++
  le_bytes 8 (fh_created_at h) ++ le_bytes 4 (fh_thread_id h) ++ fh_reserved h.

Definition from_bytes (bytes : list Z) : option WalFileHeader :=
  if decide (length bytes < WAL_FILE_HEADER_SIZE)%nat then None
  else Some (mkFileHeader (read_le 0 4 bytes) (read_le 4 4 bytes) (read_le 8 8 bytes)
    (read_le 16 8 bytes) (read_le 24 4 bytes) (read_le 28 4 bytes) (read_le 32 8 bytes)
    (read_le 40 4 bytes) (slice 44 20 bytes)).

Definition is_valid (h : WalFileHeader) : bool :=
  bool_decide (fh_magic h = WAL_MAGIC) && bool_decide (fh_version h = WAL_VERSION).

Definition checksum_enabled (h : WalFileHeader) : option bool :=
  match nth 0 (fh_reserved h) 0 with
  | 0 => Some false
  | 1 => Some true
  | _ => None
  end.

Definition with_checksum_enabled (enabled : bool) (h : WalFileHeader) : WalFileHeader :=
  mkFileHeader (fh_magic h) (fh_version h) (fh_checkpoint_seq h) (fh_start_lsn h) (fh_salt1 h)
    (fh_salt2 h) (fh_created_at h) (fh_thread_id h)
    (<[0%nat := bool_as_u8 enabled]> (fh_reserved h)).

(** The fields fit their widths. *)
Record wf (h : WalFileHeader) : Prop := {
  wf_magic : 0 <= fh_magic h < 2 ^ 32;
  wf_version : 0 <= fh_version h < 2 ^ 32;
  wf_seq : 0 <= fh_checkpoint_seq h < 2 ^ 64;
  wf_start : 0 <= fh_start_lsn h < 2 ^ 64;
  wf_salt1 : 0 <= fh_salt1 h < 2 ^ 32;
  wf_salt2 : 0 <= fh_salt2 h < 2 ^ 32;
  wf_created : 0 <= fh_created_at h < 2 ^ 64;
  wf_thread : 0 <= fh_thread_id h < 2 ^ 32;
  wf_reserved : length (fh_reserved h) = 20%nat;
}.

End FileHeader.

(** ** Record header *)

Inductive RecordType := RFull | RFirst | RMiddle | RLast.

#[export] Instance RecordType_eq_dec : EqDecision RecordType.
Proof. solve_decision. Defined.

Definition record_type_as_u8 (r : RecordType) : Z :=
  match r with RFull => 0 | RFirst => 1 | RMiddle => 2 | RLast => 3 end.

(** [RecordType::from_u8]: unknown tags read as [Full]. *)
Definition record_type_from_u8 (v : Z) : RecordType :=
  match v with 0 => RFull | 1 => RFirst | 2 => RMiddle | 3 => RLast | _ => RFull end.

Inductive WalCompression := CompNone | CompZstd.

#[export] Instance WalCompression_eq_dec : EqDecision WalCompression.
Proof. solve_decision. Defined.

Definition flag_byte (c : WalCompression) : Z := match c with CompNone => 0 | CompZstd => 2 end.

Definition from_flag_byte (b : Z) : WalCompression :=
  match Z.land b 15 with 2 => CompZstd | _ => CompNone end.

Definition COMPRESSION_MASK : Z := 15.

Record WalHeader := mkHeader {
  h_length : Z;
  h_op_type : Z;
  h_is_update : bool;
  h_record_type : RecordType;
  h_flags : Z;
  h_timestamp : Timestamp;
  h_lsn : Lsn;
  h_prev_lsn : Lsn;
  h_checksum : Z;
}.

Module Header.

Definition is_update_op (o : WalOpType) : bool :=
  match o with
  | OpUpdateVertexProp | OpUpdateEdgeProp | OpDeleteVertex | OpDeleteEdge | OpDeleteVertexType
  | OpDeleteEdgeType | OpDeleteVertexProp | OpDeleteEdgeProp | OpDeleteVertexProps
  | OpRenameVertexProp | OpRenameEdgeProp | OpCompact => true
  | _ => false
  end.

Definition new (op : WalOpType) (timestamp : Timestamp) (length : Z) : WalHeader :=
  mkHeader length (op_as_u8 op) (is_update_op op) RFull 0 timestamp 0 0 0.

Definition is_length_valid (h : WalHeader) (remaining : Z) : bool :=
  bool_decide (h_length h <= MAX_PAYLOAD_LENGTH) && bool_decide (h_length h <= remaining).

Definition with_lsn (lsn prev_lsn : Lsn) (h : WalHeader) : WalHeader :=
  mkHeader (h_length h) (h_op_type h) (h_is_update h) (h_record_type h) (h_flags h)
    (h_timestamp h) lsn prev_lsn (h_checksum h).

Definition with_record_type (r : RecordType) (h : WalHeader) : WalHeader :=
  mkHeader (h_length h) (h_op_type h) (h_is_update h) r (h_flags h)
    (h_timestamp h) (h_lsn h) (h_prev_lsn h) (h_checksum h).

(** [(flags & !MASK) | flag_byte] on 16 bits. *)
Definition with_compression (c : WalCompression) (h : WalHeader) : WalHeader :=
  mkHeader (h_length h) (h_op_type h) (h_is_update h) (h_record_type h)
    (Z.lor (Z.land (h_flags h) (65535 - COMPRESSION_MASK)) (flag_byte c))
    (h_timestamp h) (h_lsn h) (h_prev_lsn h) (h_checksum h).

Definition compression (h : WalHeader) : WalCompression :=
  from_flag_byte (Z.land (h_flags h) COMPRESSION_MASK).

Definition is_compressed (h : WalHeader) : bool := bool_decide (compression h <> CompNone).

Definition is_fragmented (h : WalHeader) : bool := bool_decide (h_record_type h <> RFull).

(** The bytes the hasher is fed with. *)
Definition checksum_input (h : WalHeader) (payload : list Z) : list Z :=
  le_bytes 4 (h_length h) ++
  [h_op_type h; bool_as_u8 (h_is_update h); record_type_as_u8 (h_record_type h)] ++
  le_bytes 2 (h_flags h) ++ le_bytes 8 (h_timestamp h) ++ le_bytes 8 (h_lsn h) ++
  le_bytes 8 (h_prev_lsn h) ++ payload.

Section checksum.
Context (crc32 : list Z -> Z).

Definition with_checksum (payload : list Z) (h : WalHeader) : WalHeader :=
  mkHeader (h_length h) (h_op_type h) (h_is_update h) (h_record_type h) (h_flags h)
    (h_timestamp h) (h_lsn h) (h_prev_lsn h) (crc32 (checksum_input h payload)).

Definition verify_checksum (h : WalHeader) (payload : list Z) : bool :=
  bool_decide (crc32 (checksum_input h payload) = h_checksum h).

End checksum.

Definition as_bytes (h : WalHeader) : list Z :=
  le_bytes 4 (h_length h) ++
  h_op_type h :: bool_as_u8 (h_is_update h) :: record_type_as_u8 (h_record_type h) :: 0 ::
  le_bytes 2 (h_flags h) ++ le_bytes 8 (h_timestamp h) ++ le_bytes 8 (h_lsn h) ++
  le_bytes 8 (h_prev_lsn h) ++ le_bytes 4 (h_checksum h) ++ [0; 0].

Definition from_bytes (bytes : list Z) : option WalHeader :=
  if decide (length bytes < WAL_HEADER_SIZE)%nat then None
  else
    match
      match byte_at 6 bytes with
      | 0 => Some RFull | 1 => Some RFirst | 2 => Some RMiddle | 3 => Some RLast
      | _ => None
      end
    with
    | None => None
    | Some rt =>
        Some (mkHeader (read_le 0 4 bytes) (byte_at 4 bytes) (negb (bool_decide (byte_at 5 bytes = 0)))
          rt (read_le 8 2 bytes) (read_le 10 8 bytes) (read_le 18 8 bytes) (read_le 26 8 bytes)
          (read_le 34 4 bytes))
    end.

(** The fields fit their widths. *)
Record wf (h : WalHeader) : Prop := {
  wf_length : 0 <= h_length h < 2 ^ 32;
  wf_op : 0 <= h_op_type h < 256;
  wf_flags : 0 <= h_flags h < 2 ^ 16;
  wf_timestamp : 0 <= h_timestamp h < 2 ^ 64;
  wf_lsn : 0 <= h_lsn h < 2 ^ 64;
  wf_prev : 0 <= h_prev_lsn h < 2 ^ 64;
  wf_checksum : 0 <= h_checksum h < 2 ^ 32;
}.

Lemma length_as_bytes h : length (as_bytes h) = 40%nat.
Proof.
  unfold as_bytes. repeat (rewrite length_app || rewrite length_le_bytes || cbn [length]). done.
Qed.

End Header.

(** Reading a field of a concatenation of fixed-width fields. *)
Ltac read_fields :=
  repeat first
    [ rewrite read_le_skip by lia
    | rewrite byte_at_skip by lia
    | rewrite slice_skip by (rewrite length_le_bytes; lia); rewrite length_le_bytes
    | rewrite read_le_head by (change (256 ^ Z.of_nat 2) with (2 ^ 16);
        change (256 ^ Z.of_nat 4) with (2 ^ 32); change (256 ^ Z.of_nat 8) with (2 ^ 64); lia)
    | rewrite read_le_cons
    | progress cbn [Nat.sub] ].

Lemma header_roundtrip h tail :
  Header.wf h -> Header.from_bytes (Header.as_bytes h ++ tail) = Some h.
Proof.
  intros [H1 H2 H3 H4 H5 H6 H7]. unfold Header.from_bytes.
  rewrite decide_False by (rewrite length_app, Header.length_as_bytes; unfold WAL_HEADER_SIZE; lia).
  rewrite !read_le_app, !byte_at_app by (rewrite Header.length_as_bytes; lia).
  unfold Header.as_bytes. read_fields. destruct h as [? ? [] [] ? ? ? ? ?]; done.
Qed.

Lemma file_header_roundtrip h tail :
  FileHeader.wf h -> FileHeader.from_bytes (FileHeader.as_bytes h ++ tail) = Some h.
Proof.
  intros [H1 H2 H3 H4 H5 H6 H7 H8 H9]. unfold FileHeader.from_bytes.
  rewrite decide_False.
  2:{ unfold FileHeader.as_bytes, WAL_FILE_HEADER_SIZE.
      rewrite !length_app, !length_le_bytes, H9. lia. }
  unfold FileHeader.as_bytes. rewrite <- !app_assoc. read_fields.
  rewrite slice_head by done. by destruct h.
Qed.

(** ** Outbox intents and transaction markers ([wal/sync.rs]) *)

Definition WAL_SYNC_WIRE_VERSION : Z := 1.

Inductive EntityRef :=
| ERVertex (v : VertexId)
| EREdge (src dst : VertexId) (edge_type ranking : Z).

#[export] Instance EntityRef_eq_dec : EqDecision EntityRef.
Proof. solve_decision. Defined.

Inductive IndexOperation := Upsert | IdxDelete.

#[export] Instance IndexOperation_eq_dec : EqDecision IndexOperation.
Proof. solve_decision. Defined.

Record IndexMutation := mkIndexMutation {
  im_wire_version : Z;
  im_target : string;
  im_index_id : Z;
  im_index_generation : Z;
  im_entity_ref : EntityRef;
  im_operation : IndexOperation;
  document_or_vector : list Z;
  idempotency_key : string;
  ordering_key : string;
}.

#[export] Instance IndexMutation_eq_dec : EqDecision IndexMutation.
Proof. solve_decision. Defined.

Record OutboxIntent := mkIntent {
  oi_wire_version : Z;
  oi_transaction_id : TransactionId;
  intent_sequence : Z;
  oi_mutation : IndexMutation;
}.

#[export] Instance OutboxIntent_eq_dec : EqDecision OutboxIntent.
Proof. solve_decision. Defined.

Record TransactionCommit := mkCommit {
  tc_wire_version : Z;
  tc_transaction_id : TransactionId;
  intent_count : Z;
  tc_batch_checksum : Z;
  first_sequence : Z;
  entry_count : Z;
}.

Record TransactionAbort := mkAbort {
  ta_wire_version : Z;
  ta_transaction_id : TransactionId;
}.

(** [validate_wire_version] and the [validate] methods; the message becomes
    [WalError::InvalidOperation] at every call. *)
Definition validate_wire_version (v : Z) : result unit WalError :=
  if decide (v = WAL_SYNC_WIRE_VERSION) then Ok tt else Err InvalidOperation.

Definition validate_mutation (m : IndexMutation) : result unit WalError :=
  validate_wire_version (im_wire_version m).

Definition validate_intent (i : OutboxIntent) : result unit WalError :=
  match validate_wire_version (oi_wire_version i) with
  | Err e => Err e
  | Ok _ => validate_mutation (oi_mutation i)
  end.

Definition validate_commit (c : TransactionCommit) : result unit WalError :=
  validate_wire_version (tc_wire_version c).

Definition validate_abort (a : TransactionAbort) : result unit WalError :=
  validate_wire_version (ta_wire_version a).

(** [TransactionWalEntry] ([linkrs-transaction/src/wal/commit.rs]). *)
Record TransactionWalEntry := mkWalEntry {
  we_op_type : WalOpType;
  we_timestamp : Timestamp;
  we_payload : list Z;
  we_transaction_id : option TransactionId;
  we_mutation_sequence : option Z;
}.

#[export] Instance TransactionWalEntry_eq_dec : EqDecision TransactionWalEntry.
Proof. solve_decision. Defined.

Module WalEntry.

Definition new (op : WalOpType) (ts : Timestamp) (payload : list Z) : TransactionWalEntry :=
  mkWalEntry op ts payload None None.

Definition with_transaction (tx : TransactionId) (seq : Z) (e : TransactionWalEntry)
  : TransactionWalEntry :=
  mkWalEntry (we_op_type e) (we_timestamp e) (we_payload e) (Some tx) (Some seq).

End WalEntry.
