(* ===== verification/OrderedCodec.v ===== *)
(** * The ordered key codec

    [linkrs-core/src/value/ordered_codec.rs]: encoding of values, and of
    vertex and edge references, as byte strings whose lexicographic order is
    the order of the values.  A buffer the source appends to is the list of the
    bytes appended; a decoder returns the value with the number of bytes it
    consumed.  Integers are encoded at their width: [as] casts, [^], [!] and
    [to_be_bytes] are written out. *)

From stdpp Require Import base list strings.
From Stdlib Require Import ZArith Lia SpecFloat.
From S2P Require Import Prelude Types Values WalTypes.

(** The kinds of [StorageError] the codec and its callers build. *)
Inductive StorageError :=
| SEDeserialize | SESerialize | SEInvalidInput | SEDb | SENotFound | SEConflict.

#[export] Instance StorageError_eq_dec : EqDecision StorageError.
Proof. solve_decision. Defined.

Module Codec.

(** ** Tags *)

Definition TAG_EMPTY : Z := 0.
Definition TAG_NULL : Z := 1.
Definition TAG_BOOL : Z := 2.
Definition TAG_SMALL_INT : Z := 3.
Definition TAG_INT : Z := 4.
Definition TAG_BIG_INT : Z := 5.
Definition TAG_FLOAT : Z := 6.
Definition TAG_DOUBLE : Z := 7.
Definition TAG_DECIMAL : Z := 8.
Definition TAG_DATE : Z := 9.
Definition TAG_TIME : Z := 10.
Definition TAG_DATE_TIME : Z := 11.
Definition TAG_STRING : Z := 12.
Definition TAG_FIXED_STRING : Z := 13.
Definition TAG_BLOB : Z := 14.
Definition TAG_VERTEX_ID : Z := 15.
Definition TAG_EDGE_REF : Z := 16.
Definition TAG_UUID : Z := 26.
Definition TAG_NULL_LAST : Z := 255.
Definition NULL_KIND_EMPTY : Z := 255.

Definition supports_ordered_key (t : DataType) : bool :=
  match t with
  | TyBool | TySmallInt | TyInt | TyBigInt | TyFloat | TyDouble | TyDecimal128 | TyString
  | TyFixedString _ | TyBlob | TyDate | TyTime | TyDateTime | TyUuid => true
  | _ => false
  end.

(** ** Words *)

(** [n as uW]. *)
Definition as_unsigned (w n : Z) : Z := n mod 2 ^ w.

(** [x as iW]. *)
Definition as_signed (w x : Z) : Z := (x + 2 ^ (w - 1)) mod 2 ^ w - 2 ^ (w - 1).

(** [x ^ (1 << (W - 1))]. *)
Definition flip_sign (w x : Z) : Z := Z.lxor x (2 ^ (w - 1)).

(** [!x] on [uW]. *)
Definition not_word (w x : Z) : Z := Z.lnot x mod 2 ^ w.

(** [uN::from_be_bytes] of the [n] bytes at [off]. *)
Definition read_be (off n : nat) (l : list Z) : Z := from_be_bytes (slice off n l).

(** ** Escaped byte strings *)

Definition encode_escaped_bytes (data : list Z) : list Z :=
  flat_map (fun b => if decide (b = 0) then [0; 1] else [b]) data ++ [0; 0].

(** From the current position: the data and the bytes consumed. *)
Fixpoint decode_escaped (l : list Z) : result (list Z * nat) StorageError :=
  match l with
  | [] => Err SEDeserialize
  | b :: r =>
      if decide (b <> 0) then
        match decode_escaped r with
        | Ok (data, n) => Ok (b :: data, S n)
        | Err e => Err e
        end
      else
        match r with
        | [] => Err SEDeserialize
        | esc :: r' =>
            if decide (esc = 0) then Ok ([], 2%nat)
            else if decide (esc = 1) then
              match decode_escaped r' with
              | Ok (data, n) => Ok (0 :: data, S (S n))
              | Err e => Err e
              end
            else Err SEDeserialize
        end
  end.

(** [decode_escaped_bytes]: the data and the position after it. *)
Definition decode_escaped_bytes (bytes : list Z) (position : nat)
  : result (list Z * nat) StorageError :=
  match decode_escaped (drop position bytes) with
  | Ok (data, n) => Ok (data, (position + n)%nat)
  | Err e => Err e
  end.

(** [String::from_utf8] succeeds: well-formed UTF-8. *)
Definition in_range (lo hi b : Z) : bool := bool_decide (lo <= b <= hi).

Definition cont_byte (b : Z) : bool := in_range 128 191 b.

Fixpoint utf8_valid (l : list Z) : bool :=
  match l with
  | [] => true
  | b :: r =>
      if in_range 0 127 b then utf8_valid r
      else if in_range 194 223 b then
        match r with c :: r' => cont_byte c && utf8_valid r' | _ => false end
      else if in_range 224 239 b then
        match r with
        | c :: d :: r' =>
            in_range (if decide (b = 224) then 160 else 128) (if decide (b = 237) then 159 else 191) c
            && cont_byte d && utf8_valid r'
        | _ => false
        end
      else if in_range 240 244 b then
        match r with
        | c :: d :: e :: r' =>
            in_range (if decide (b = 240) then 144 else 128) (if decide (b = 244) then 143 else 191) c
            && cont_byte d && cont_byte e && utf8_valid r'
        | _ => false
        end
      else false
  end.

(** ** Null kinds *)

Definition encode_null_type (n : NullType) : Z :=
  match n with
  | NNull => 0 | NNaN => 1 | NBadData => 2 | NBadType => 3 | NErrOverflow => 4
  | NUnknownProp => 5 | NDivByZero => 6 | NOutOfRange => 7
  end.

Definition decode_null_type (code : Z) : result NullType StorageError :=
  match code with
  | 0 => Ok NNull | 1 => Ok NNaN | 2 => Ok NBadData | 3 => Ok NBadType | 4 => Ok NErrOverflow
  | 5 => Ok NUnknownProp | 6 => Ok NDivByZero | 7 => Ok NOutOfRange
  | _ => Err SEDeserialize
  end.

(** ** Floating point *)

(** [encode_f32_ordered] and [encode_f64_ordered], on bit patterns. *)
Definition encode_ordered (f : Float.format) (bits : Z) : Z :=
  let w := Float.width f in
  if Float.is_nan (Float.of_bits f bits) then 0
  else if Float.eqb (Float.of_bits f bits) (S754_zero false) then 2 ^ (w - 1) + 1
  else
    let ordered := if Z.testbit bits (w - 1) then not_word w bits else flip_sign w bits in
    ordered + 1.

(** The pattern of [NAN]: quiet, with no payload. *)
Definition NAN (f : Float.format) : Z :=
  (2 ^ Float.expo f - 1) * 2 ^ Float.frac f + 2 ^ (Float.frac f - 1).

Definition decode_ordered (f : Float.format) (bits : Z) : Z :=
  let w := Float.width f in
  if decide (bits = 0) then NAN f
  else
    let ordered := bits - 1 in
    if decide (Z.land ordered (2 ^ (w - 1)) <> 0) then flip_sign w ordered
    else not_word w ordered.

Definition encode_f32_ordered : Z -> Z := encode_ordered Float.f32.
Definition encode_f64_ordered : Z -> Z := encode_ordered Float.f64.
Definition decode_f32_ordered : Z -> Z := decode_ordered Float.f32.
Definition decode_f64_ordered : Z -> Z := decode_ordered Float.f64.

(** ** Clock times *)

(** [total_micros]; the fields are [u32], so no sum reaches [2^64]. *)
Definition total_micros (t : TimeValue) : Z :=
  t_hour t * 3600000000 + t_minute t * 60000000 + t_sec t * 1000000 + t_microsec t.

Definition time_of_micros (total : Z) : TimeValue :=
  let total_secs := total / 1000000 in
  mkTime (as_unsigned 32 (total_secs / 3600)) ((total_secs mod 3600) / 60) (total_secs mod 60)
    (total mod 1000000).

(** ** Vertex identifiers *)

Definition write_vertex_id (v : VertexId) : list Z :=
  let bytes := as_bytes v in
  bytes ++ replicate (32 - length bytes) 0 ++
    [Z.of_nat (length bytes) mod 256; kind_as_u8 (vid_kind_of v)].

Definition read_vertex_id (bytes : list Z) : result (VertexId * nat) StorageError :=
  if decide (length bytes < 34)%nat then Err SEDeserialize
  else
    let len := Z.to_nat (byte_at 32 bytes) in
    if decide (32 < len)%nat then Err SEDeserialize
    else if decide (Exists (fun b => b <> 0) (slice len (32 - len) bytes)) then Err SEDeserialize
    else
      match kind_from_u8 (byte_at 33 bytes) with
      | None => Err SEDeserialize
      | Some kind =>
          match from_typed_bytes kind (take len bytes) with
          | Ok vid => Ok (vid, 34%nat)
          | Err _ => Err SEDeserialize
          end
      end.

(** ** Entity references *)

Definition encode_entity (e : EntityRef) : list Z :=
  match e with
  | ERVertex vid => TAG_VERTEX_ID :: write_vertex_id vid
  | EREdge src dst edge_type ranking =>
      TAG_EDGE_REF :: write_vertex_id src ++ write_vertex_id dst ++
        be_bytes 4 edge_type ++ be_bytes 8 (as_unsigned 64 ranking)
  end.

Definition decode_entity_bytes (bytes : list Z) : result (EntityRef * nat) StorageError :=
  match bytes with
  | [] => Err SEDeserialize
  | tag :: rest =>
      if decide (tag = TAG_VERTEX_ID) then
        match read_vertex_id rest with
        | Ok (vid, consumed) => Ok (ERVertex vid, (1 + consumed)%nat)
        | Err e => Err e
        end
      else if decide (tag = TAG_EDGE_REF) then
        match read_vertex_id (drop 1 bytes) with
        | Err e => Err e
        | Ok (src, c1) =>
            let pos := (1 + c1)%nat in
            match read_vertex_id (drop pos bytes) with
            | Err e => Err e
            | Ok (dst, c2) =>
                let pos := (pos + c2)%nat in
                if decide (length bytes < pos + 12)%nat then Err SEDeserialize
                else Ok (EREdge src dst (read_be pos 4 bytes)
                           (as_signed 64 (read_be (pos + 4) 8 bytes)), (pos + 12)%nat)
            end
        end
      else Err SEDeserialize
  end.

(** ** Prefix bounds *)

(** The loop of [prefix_upper_bound], from the last byte: the carry out of a
    suffix and the suffix incremented. *)
Fixpoint increment (l : list Z) : bool * list Z :=
  match l with
  | [] => (true, [])
  | b :: r =>
      match increment r with
      | (true, r') => if decide (b = 255) then (true, 0 :: r') else (false, b + 1 :: r')
      | (false, r') => (false, b :: r')
      end
  end.

Definition prefix_upper_bound (prefix : list Z) : list Z := (increment prefix).2.

(** ** Decimal numbers *)

Definition is_digit (c : Z) : bool := in_range 48 57 c.

(** The bytes before and after the first byte that satisfies [p]. *)
Fixpoint split_at_first (p : Z -> bool) (l : list Z) : option (list Z * list Z) :=
  match l with
  | [] => None
  | c :: r =>
      if p c then Some ([], r)
      else match split_at_first p r with Some (a, b) => Some (c :: a, b) | None => None end
  end.

Definition digits_value (l : list Z) : Z := fold_left (fun acc c => acc * 10 + (c - 48)) l 0.

Definition is_i32 (z : Z) : Prop := -2147483648 <= z <= 2147483647.

#[export] Instance is_i32_dec z : Decision (is_i32 z).
Proof. unfold is_i32. apply _. Defined.

(** [str::parse::<i32>]. *)
Definition parse_i32 (text : list Z) : option Z :=
  let '(neg, ds) :=
    match text with
    | 45 :: r => (true, r)
    | 43 :: r => (false, r)
    | _ => (false, text)
    end in
  if decide (ds = []) then None
  else if forallb is_digit ds then
    let n := if (neg : bool) then - digits_value ds else digits_value ds in
    if decide (is_i32 n) then Some n else None
  else None.

Definition checked_i32 (z : Z) : option Z := if decide (is_i32 z) then Some z else None.

Fixpoint drop_zeros (l : list Z) : list Z :=
  match l with
  | [] => []
  | c :: r => if decide (c = 48) then drop_zeros r else l
  end.

(** [to_string] of an integer; the number of digits of [n] is at most its
    binary length. *)
Fixpoint show_digits (fuel : nat) (n : Z) : list Z :=
  match fuel with
  | O => []
  | S fuel' => if decide (n < 10) then [48 + n] else show_digits fuel' (n / 10) ++ [48 + n mod 10]
  end.

Definition show_int (n : Z) : list Z :=
  if decide (n < 0) then 45 :: show_digits (S (Z.to_nat (Z.log2 (- n)))) (- n)
  else show_digits (S (Z.to_nat (Z.log2 n))) n.

(** The text of a decimal taken apart: sign, digits of the mantissa, digits of
    its whole part, exponent. *)
Definition split_decimal (text : list Z) : option (bool * list Z * list Z * Z) :=
  let negative := match text with 45 :: _ => true | _ => false end in
  let unsigned := match text with 45 :: r => r | 43 :: r => r | _ => text end in
  let '(mantissa, exponent_part) :=
    match split_at_first (fun c => bool_decide (c = 101) || bool_decide (c = 69)) unsigned with
    | Some (m, x) => (m, x)
    | None => (unsigned, [48])
    end in
  match parse_i32 exponent_part with
  | None => None
  | Some exponent10 =>
      let '(whole, fractional) :=
        match split_at_first (fun c => bool_decide (c = 46)) mantissa with
        | Some (w, f) => (w, f)
        | None => (mantissa, [])
        end in
      Some (negative, whole, fractional, exponent10)
  end.

(** The normal form of the digits: sign, exponent of the first digit, digits
    with no zero at either end. *)
Definition normal_digits (negative : bool) (whole fractional : list Z) (exponent10 : Z)
  : option (bool * Z * list Z) :=
  let digits := whole ++ fractional in
  if decide (digits = []) then None
  else if negb (forallb is_digit digits) then None
  else if forallb (fun c => bool_decide (c = 48)) digits then Some (false, -2147483648, [48])
  else
    let leading_zero_count := (length digits - length (drop_zeros digits))%nat in
    match checked_i32 (Z.of_nat (length whole)) with
    | None => None
    | Some whole_len =>
        match checked_i32 (Z.of_nat leading_zero_count) with
        | None => None
        | Some lz =>
            match checked_i32 (whole_len + exponent10) with
            | None => None
            | Some x =>
                match checked_i32 (x - lz) with
                | None => None
                | Some digit_exponent =>
                    Some (negative, digit_exponent, rev (drop_zeros (rev (drop_zeros digits))))
                end
            end
        end
    end.

Definition encode_normal (negative : bool) (digit_exponent : Z) (digits : list Z) : list Z :=
  let biased := flip_sign 32 (as_unsigned 32 digit_exponent) in
  TAG_DECIMAL :: (if negative then 0 else 1) ::
    be_bytes 4 (if negative then not_word 32 biased else biased) ++
    (if negative then map (not_word 8) digits ++ [255] else digits ++ [0]).

(** [encode_decimal], on the text of the decimal. *)
Definition encode_decimal_text (text : list Z) : result (list Z) StorageError :=
  match split_decimal text with
  | None => Err SESerialize
  | Some (negative, whole, fractional, exponent10) =>
      match normal_digits negative whole fractional exponent10 with
      | None => Err SESerialize
      | Some (negative, digit_exponent, digits) => Ok (encode_normal negative digit_exponent digits)
      end
  end.

(** The loop of [decode_decimal] over the digits: the digits and the rest from
    the terminator on, [None] at a byte that is no digit. *)
Fixpoint decode_digits (negative : bool) (l : list Z) : option (list Z * list Z) :=
  match l with
  | [] => Some ([], [])
  | b :: r =>
      if decide (b = if negative then 255 else 0) then Some ([], l)
      else
        let digit := if negative then not_word 8 b else b in
        if is_digit digit then
          match decode_digits negative r with
          | Some (ds, rest) => Some (digit :: ds, rest)
          | None => None
          end
        else None
  end.

(** The text [decode_decimal] hands to the parser, and the bytes consumed. *)
Definition decode_decimal_text (bytes : list Z) : result (list Z * nat) StorageError :=
  if decide (length bytes < 7)%nat then Err SEDeserialize
  else
    let sign := byte_at 1 bytes in
    if decide (1 < sign) then Err SEDeserialize
    else
      let raw := read_be 2 4 bytes in
      let wire_exponent := if decide (sign = 0) then not_word 32 raw else raw in
      let exponent := as_signed 32 (flip_sign 32 wire_exponent) in
      match decode_digits (bool_decide (sign = 0)) (drop 6 bytes) with
      | None => Err SEDeserialize
      | Some (digits, rest) =>
          if decide (digits = [] \/ rest = []) then Err SEDeserialize
          else
            let position := (6 + length digits + 1)%nat in
            if forallb (fun c => bool_decide (c = 48)) digits then Ok ([48], position)
            else
              match checked_i32 (Z.of_nat (length digits)) with
              | None => Err SEDeserialize
              | Some digit_count =>
                  match checked_i32 (exponent - digit_count) with
                  | None => Err SEDeserialize
                  | Some exponent10 =>
                      Ok ((if decide (sign = 0) then [45] else []) ++ digits ++
                          (if decide (exponent10 <> 0) then 101 :: show_int exponent10 else []),
                          position)
                  end
              end
      end.

(** ** Values *)

Section values.
Context {Dec : Type} `{Decimal Dec}.

Definition encode_decimal (d : Dec) : result (list Z) StorageError :=
  encode_decimal_text (dec_to_string d).

Definition decode_decimal (bytes : list Z) : result (Value Dec * nat) StorageError :=
  match decode_decimal_text bytes with
  | Err e => Err e
  | Ok (text, consumed) =>
      match dec_parse text with
      | Some d => Ok (VDecimal128 d, consumed)
      | None => Err SEDeserialize
      end
  end.

Definition encode_value (null_last : bool) (v : Value Dec) : result (list Z) StorageError :=
  match v with
  | VEmpty => Ok (if null_last then [TAG_NULL_LAST; NULL_KIND_EMPTY] else [TAG_EMPTY])
  | VNull n => Ok [if null_last then TAG_NULL_LAST else TAG_NULL; encode_null_type n]
  | VBool b => Ok [TAG_BOOL; if b then 1 else 0]
  | VSmallInt n => Ok (TAG_SMALL_INT :: be_bytes 2 (flip_sign 16 (as_unsigned 16 n)))
  | VInt n => Ok (TAG_INT :: be_bytes 4 (flip_sign 32 (as_unsigned 32 n)))
  | VBigInt n => Ok (TAG_BIG_INT :: be_bytes 8 (flip_sign 64 (as_unsigned 64 n)))
  | VFloat b => Ok (TAG_FLOAT :: be_bytes 4 (encode_f32_ordered b))
  | VDouble b => Ok (TAG_DOUBLE :: be_bytes 8 (encode_f64_ordered b))
  | VDecimal128 d => encode_decimal d
  | VString s => Ok (TAG_STRING :: encode_escaped_bytes s)
  | VFixedString s => Ok (TAG_FIXED_STRING :: encode_escaped_bytes s)
  | VBlob b => Ok (TAG_BLOB :: encode_escaped_bytes b)
  | VDate d =>
      Ok (TAG_DATE :: be_bytes 4 (flip_sign 32 (as_unsigned 32 (d_year d))) ++
            [as_unsigned 8 (d_month d); as_unsigned 8 (d_day d)])
  | VTime t => Ok (TAG_TIME :: be_bytes 8 (total_micros t))
  | VDateTime dt =>
      Ok (TAG_DATE_TIME :: be_bytes 4 (flip_sign 32 (as_unsigned 32 (dt_year dt))) ++
            [as_unsigned 8 (dt_month dt); as_unsigned 8 (dt_day dt)] ++
            be_bytes 8 (total_micros (dt_time dt)))
  | VUuid u => Ok (TAG_UUID :: u)
  | VVertexId _ | VComposite _ _ => Err SEInvalidInput
  end.

Definition encode : Value Dec -> result (list Z) StorageError := encode_value false.

Definition encode_null_last : Value Dec -> result (list Z) StorageError := encode_value true.

Fixpoint encode_values (values : list (Value Dec)) (null_last : bool)
  : result (list Z) StorageError :=
  match values with
  | [] => Ok []
  | v :: vs =>
      match encode_value null_last v with
      | Err e => Err e
      | Ok x => match encode_values vs null_last with Err e => Err e | Ok y => Ok (x ++ y) end
      end
  end.

Definition encode_composite (values : list (Value Dec)) (entity : option EntityRef)
    (null_last : bool) : result (list Z) StorageError :=
  match encode_values values null_last with
  | Err e => Err e
  | Ok x => Ok (x ++ match entity with Some e => encode_entity e | None => [] end)
  end.

(** The first [n] bytes are there. *)
Definition need {A} (n : nat) (bytes : list Z) (r : result A StorageError) : result A StorageError :=
  if decide (length bytes < n)%nat then Err SEDeserialize else r.

Definition decode_text (bytes : list Z) (mk : list Z -> Value Dec)
  : result (Value Dec * nat) StorageError :=
  match decode_escaped_bytes bytes 1 with
  | Err e => Err e
  | Ok (data, fin) => if utf8_valid data then Ok (mk data, fin) else Err SEDeserialize
  end.

(** ["(edge)"]. *)
Definition edge_placeholder : list Z := [40; 101; 100; 103; 101; 41].

Definition decode_value_inner (bytes : list Z) : result (Value Dec * nat) StorageError :=
  match bytes with
  | [] => Err SEDeserialize
  | tag :: _ =>
      if decide (tag = TAG_EMPTY) then Ok (VEmpty, 1%nat)
      else if decide (tag = TAG_NULL \/ tag = TAG_NULL_LAST) then
        need 2 bytes
          (if decide (tag = TAG_NULL_LAST /\ byte_at 1 bytes = NULL_KIND_EMPTY)
           then Ok (VEmpty, 2%nat)
           else match decode_null_type (byte_at 1 bytes) with
                | Ok n => Ok (VNull n, 2%nat)
                | Err e => Err e
                end)
      else if decide (tag = TAG_BOOL) then
        need 2 bytes (Ok (VBool (bool_decide (byte_at 1 bytes <> 0)), 2%nat))
      else if decide (tag = TAG_SMALL_INT) then
        need 3 bytes (Ok (VSmallInt (as_signed 16 (flip_sign 16 (read_be 1 2 bytes))), 3%nat))
      else if decide (tag = TAG_INT) then
        need 5 bytes (Ok (VInt (as_signed 32 (flip_sign 32 (read_be 1 4 bytes))), 5%nat))
      else if decide (tag = TAG_BIG_INT) then
        need 9 bytes (Ok (VBigInt (as_signed 64 (flip_sign 64 (read_be 1 8 bytes))), 9%nat))
      else if decide (tag = TAG_FLOAT) then
        need 5 bytes (Ok (VFloat (decode_f32_ordered (read_be 1 4 bytes)), 5%nat))
      else if decide (tag = TAG_DOUBLE) then
        need 9 bytes (Ok (VDouble (decode_f64_ordered (read_be 1 8 bytes)), 9%nat))
      else if decide (tag = TAG_DECIMAL) then decode_decimal bytes
      else if decide (tag = TAG_STRING) then decode_text bytes VString
      else if decide (tag = TAG_BLOB) then
        match decode_escaped_bytes bytes 1 with
        | Ok (data, fin) => Ok (VBlob data, fin)
        | Err e => Err e
        end
      else if decide (tag = TAG_FIXED_STRING) then decode_text bytes VFixedString
      else if decide (tag = TAG_DATE) then
        need 7 bytes
          (Ok (VDate (mkDate (as_signed 32 (flip_sign 32 (read_be 1 4 bytes)))
                        (byte_at 5 bytes) (byte_at 6 bytes)), 7%nat))
      else if decide (tag = TAG_TIME) then
        need 9 bytes (Ok (VTime (time_of_micros (read_be 1 8 bytes)), 9%nat))
      else if decide (tag = TAG_DATE_TIME) then
        need 15 bytes
          (let t := time_of_micros (read_be 7 8 bytes) in
           Ok (VDateTime (mkDateTime (as_signed 32 (flip_sign 32 (read_be 1 4 bytes)))
                            (byte_at 5 bytes) (byte_at 6 bytes)
                            (t_hour t) (t_minute t) (t_sec t) (t_microsec t)), 15%nat))
      else if decide (tag = TAG_UUID) then
        need 17 bytes (Ok (VUuid (slice 1 16 bytes), 17%nat))
      else if decide (tag = TAG_VERTEX_ID) then
        match decode_entity_bytes bytes with
        | Ok (ERVertex vid, consumed) => Ok (VVertexId vid, consumed)
        | Ok (EREdge _ _ _ _, _) => Err SEDeserialize
        | Err e => Err e
        end
      else if decide (tag = TAG_EDGE_REF) then
        match decode_entity_bytes bytes with
        | Ok (_, consumed) => Ok (VString edge_placeholder, consumed)
        | Err e => Err e
        end
      else Err SEDeserialize
  end.

Definition decode (bytes : list Z) : result (Value Dec) StorageError :=
  match decode_value_inner bytes with
  | Err e => Err e
  | Ok (v, consumed) => if decide (consumed <> length bytes) then Err SEDeserialize else Ok v
  end.

Definition prefix_bounds (v : Value Dec) : result (list Z * list Z) StorageError :=
  match v with
  | VNull _ | VEmpty | VBool _ | VSmallInt _ | VInt _ | VBigInt _ | VFloat _ | VDouble _
  | VDate _ | VTime _ | VDateTime _ | VUuid _ =>
      match encode v with
      | Ok lower => Ok (lower, prefix_upper_bound lower)
      | Err e => Err e
      end
  | VString _ | VFixedString _ | VBlob _ =>
      match encode v with
      | Err e => Err e
      | Ok lower =>
          let tag := byte_at 0 lower in
          match decode_escaped_bytes lower 1 with
          | Err e => Err e
          | Ok (_, terminator_end) =>
              let data := slice 1 (terminator_end - 2 - 1) lower in
              let upper := if decide (data = []) then prefix_upper_bound [tag]
                           else tag :: prefix_upper_bound data in
              Ok (lower, upper)
          end
      end
  | VDecimal128 _ | VVertexId _ | VComposite _ _ => Err SEDb
  end.

End values.

End Codec.
