(* ===== verification/OrderedFacts.v ===== *)
(** * Facts about the ordered codec

    Words, big-endian fields, separation of byte strings, escaped byte strings,
    floating-point keys, clock times. *)

From stdpp Require Import base list strings.
From Stdlib Require Import ZArith Lia SpecFloat.
From S2P Require Import Prelude Types Values WalTypes OrderedCodec.

Module CodecFacts.
Import Codec.

(** ** Words *)

Section words.
Context (w : Z).
Hypothesis Hw : 1 <= w.

Local Abbreviation half := (2 ^ (w - 1)).

Lemma word_half : 2 ^ w = 2 * half /\ 0 < half.
Proof.
  split; [|apply Z.pow_pos_nonneg; lia].
  replace w with (1 + (w - 1)) at 1 by lia. by rewrite Z.pow_add_r by lia.
Qed.

Lemma land_half_low y : 0 <= y < half -> Z.land y half = 0.
Proof.
  intros Hy. apply Z.bits_inj'. intros i Hi.
  rewrite Z.land_spec, Z.pow2_bits_eqb, Z.bits_0 by lia.
  destruct (Z.eqb_spec (w - 1) i) as [<-|]; [|by rewrite andb_false_r].
  rewrite <- (Z.mod_small y half) by lia. by rewrite Z.mod_pow2_bits_high by lia.
Qed.

Lemma flip_low y : 0 <= y < half -> flip_sign w y = y + half.
Proof.
  intros Hy. unfold flip_sign. symmetry. apply Z.add_nocarry_lxor. by apply land_half_low.
Qed.

Lemma flip_high x : half <= x < 2 ^ w -> flip_sign w x = x - half.
Proof.
  intros Hx. pose proof word_half as [H2 _].
  assert (E : x = flip_sign w (x - half)) by (rewrite flip_low; lia).
  rewrite E at 1. unfold flip_sign. by rewrite Z.lxor_assoc, Z.lxor_nilpotent, Z.lxor_0_r.
Qed.

Lemma land_half_high x : half <= x < 2 ^ w -> Z.land x half = half.
Proof.
  intros Hx. pose proof word_half as [H2 _]. apply Z.bits_inj'. intros i Hi.
  rewrite Z.land_spec, Z.pow2_bits_eqb by lia.
  destruct (Z.eqb_spec (w - 1) i) as [<-|]; [|by rewrite andb_false_r].
  rewrite andb_true_r, Z.testbit_odd, Z.shiftr_div_pow2 by lia.
  replace x with (x - half + 1 * half) by lia. rewrite Z.div_add by lia.
  by rewrite Z.div_small by lia.
Qed.

Lemma signed_bias n :
  - half <= n < half -> flip_sign w (as_unsigned w n) = n + half.
Proof.
  intros Hn. pose proof word_half as [H2 H0]. unfold as_unsigned.
  destruct (decide (0 <= n)).
  - rewrite Z.mod_small by lia. apply flip_low. lia.
  - replace (n mod 2 ^ w) with (n + 2 ^ w).
    + rewrite flip_high; lia.
    + symmetry. rewrite <- (Z.mod_add n 1) by lia. rewrite Z.mod_small; lia.
Qed.

Lemma signed_unbias x :
  0 <= x < 2 ^ w -> as_signed w (flip_sign w x) = x - half.
Proof.
  intros Hx. pose proof word_half as [H2 H0]. unfold as_signed.
  destruct (decide (x < half)).
  - rewrite flip_low by lia. replace (x + half + half) with (x + 1 * 2 ^ w) by lia.
    rewrite Z.mod_add, Z.mod_small by lia. lia.
  - rewrite flip_high by lia. rewrite Z.mod_small by lia. lia.
Qed.

Lemma signed_unsigned n : - half <= n < half -> as_signed w (as_unsigned w n) = n.
Proof.
  intros Hn. pose proof word_half as [H2 H0]. unfold as_signed, as_unsigned.
  rewrite Z.add_mod_idemp_l by lia. rewrite Z.mod_small; lia.
Qed.

Lemma not_word_sub x : 0 <= x < 2 ^ w -> not_word w x = 2 ^ w - 1 - x.
Proof.
  intros Hx. unfold not_word, Z.lnot. rewrite <- (Z.mod_add _ 1) by lia.
  rewrite Z.mod_small; lia.
Qed.

End words.

(** ** Big-endian fields *)

Lemma read_be_skip off n a b :
  (length a <= off)%nat -> read_be off n (a ++ b) = read_be (off - length a) n b.
Proof. intros. unfold read_be. by rewrite slice_skip. Qed.

Lemma read_be_head n z b : 0 <= z < 256 ^ Z.of_nat n -> read_be 0 n (be_bytes n z ++ b) = z.
Proof.
  intros. unfold read_be. rewrite slice_head by apply length_be_bytes. by apply from_be_bytes_be.
Qed.

Lemma read_be_cons off n x l : read_be (S off) n (x :: l) = read_be off n l.
Proof. done. Qed.

Lemma byte_at_past off a b :
  (length a <= off)%nat -> byte_at off (a ++ b) = byte_at (off - length a) b.
Proof. intros. unfold byte_at. by rewrite app_nth2. Qed.

(** ** Separation: the first difference of two encodings decides *)

Definition then_bytes (c : comparison) (r s : list Z) : comparison :=
  match c with Eq => bytes_cmp r s | _ => c end.

(** Whatever follows [x] and [y], the comparison is settled inside them unless
    they are equal. *)
Definition separated (x y : list Z) : Prop :=
  forall r s, bytes_cmp (x ++ r) (y ++ s) = then_bytes (bytes_cmp x y) r s.

Lemma separated_length x y : length x = length y -> separated x y.
Proof. intros Hl r s. rewrite bytes_cmp_app by done. unfold then_bytes. by destruct bytes_cmp. Qed.

Lemma separated_app p q x y :
  length p = length q -> separated x y -> separated (p ++ x) (q ++ y).
Proof.
  intros Hl Hs r s. rewrite <- !app_assoc, !(bytes_cmp_app p _ q) by done. rewrite Hs.
  unfold then_bytes. by destruct (bytes_cmp p q).
Qed.

Lemma separated_cons b c x y : separated x y -> separated (b :: x) (c :: y).
Proof. intros. by apply (separated_app [b] [c]). Qed.

Lemma separated_diff b c x y : b <> c -> separated (b :: x) (c :: y).
Proof.
  intros Hbc r s. simpl. unfold then_bytes. destruct (Z.compare_spec b c); done.
Qed.

Lemma bytes_cmp_refl x : bytes_cmp x x = Eq.
Proof. induction x as [|b x IH]; simpl; [done|]. by rewrite Z.compare_refl. Qed.

Lemma bytes_cmp_eq x y : bytes_cmp x y = Eq -> x = y.
Proof.
  revert y; induction x as [|b x IH]; intros [|c y]; simpl; try done.
  destruct (Z.compare_spec b c) as [->| |]; try done. intros H. by rewrite (IH y H).
Qed.

Lemma bytes_cmp_eq_iff x y : bytes_cmp x y = Eq <-> x = y.
Proof. split; [apply bytes_cmp_eq|intros ->; apply bytes_cmp_refl]. Qed.

Lemma bytes_cmp_antisym x y : bytes_cmp y x = CompOpp (bytes_cmp x y).
Proof.
  revert y; induction x as [|b x IH]; intros [|c y]; simpl; try done.
  rewrite (Z.compare_antisym b c). destruct (Z.compare b c); simpl; auto.
Qed.

Lemma compare_shift a b c : Z.compare (a + c) (b + c) = Z.compare a b.
Proof. rewrite !(Z.add_comm _ c). apply Z.add_compare_mono_l. Qed.

Lemma bytes_cmp_cons t a b : bytes_cmp (t :: a) (t :: b) = bytes_cmp a b.
Proof. simpl. by rewrite Z.compare_refl. Qed.

(** ** Escaped byte strings *)

Definition is_byte (b : Z) : Prop := 0 <= b < 256.

#[export] Instance is_byte_dec b : Decision (is_byte b).
Proof. unfold is_byte. apply _. Defined.

Lemma escaped_nil : encode_escaped_bytes [] = [0; 0].
Proof. done. Qed.

Lemma escaped_cons b l :
  encode_escaped_bytes (b :: l) =
    (if decide (b = 0) then [0; 1] else [b]) ++ encode_escaped_bytes l.
Proof. unfold encode_escaped_bytes. simpl. by rewrite app_assoc. Qed.

(** Escaping keeps the order and ends where it says it ends. *)
Lemma escaped_cmp a b r s :
  Forall is_byte a -> Forall is_byte b ->
  bytes_cmp (encode_escaped_bytes a ++ r) (encode_escaped_bytes b ++ s) =
    then_bytes (bytes_cmp a b) r s.
Proof.
  revert b; induction a as [|x a IH]; intros [|y b] Ha Hb;
    rewrite ?escaped_nil, ?escaped_cons; decompose_Forall_hyps.
  - done.
  - unfold is_byte in *. case_decide; simpl; [done|].
    destruct y; done || lia.
  - unfold is_byte in *. case_decide; simpl; [done|]. destruct x; done || lia.
  - unfold is_byte in *. specialize (IH b ltac:(done) ltac:(done)).
    repeat case_decide; simplify_eq/=; rewrite ?IH; unfold then_bytes; try done;
      try (destruct x; done || lia); try (destruct y; done || lia).
    by destruct (Z.compare x y).
Qed.

Lemma escaped_order a b :
  Forall is_byte a -> Forall is_byte b ->
  bytes_cmp (encode_escaped_bytes a) (encode_escaped_bytes b) = bytes_cmp a b.
Proof.
  intros Ha Hb. pose proof (escaped_cmp a b [] [] Ha Hb) as H. rewrite !app_nil_r in H.
  rewrite H. unfold then_bytes. by destruct (bytes_cmp a b).
Qed.

Lemma escaped_separated a b :
  Forall is_byte a -> Forall is_byte b ->
  separated (encode_escaped_bytes a) (encode_escaped_bytes b).
Proof. intros Ha Hb r s. rewrite escaped_cmp, escaped_order by done. done. Qed.

Lemma decode_escaped_encode a r :
  decode_escaped (encode_escaped_bytes a ++ r) = Ok (a, length (encode_escaped_bytes a)).
Proof.
  induction a as [|b a IH]; [done|]. rewrite escaped_cons, <- app_assoc.
  case_decide; subst; simpl; [|rewrite decide_True by done]; rewrite IH; done.
Qed.

(** ** Floating-point keys *)

Section floats.
Context (f : Float.format).
Hypothesis Hfrac : 0 < Float.frac f.
Hypothesis Hexpo : 1 < Float.expo f.

Local Abbreviation w := (Float.width f).
Local Abbreviation half := (2 ^ (Float.width f - 1)).

Lemma width_pos : 1 <= w.
Proof. unfold Float.width. lia. Qed.

Lemma eqb_zero x : Float.eqb x (S754_zero false) = Float.is_zero x.
Proof. destruct x as [[]|[]| |[]]; done. Qed.

Lemma sign_bit bits : 0 <= bits < 2 ^ w -> Z.testbit bits (w - 1) = Float.negative f bits.
Proof.
  intros Hb. pose proof (word_half w width_pos) as [H2 H0].
  unfold Float.negative. rewrite Z.testbit_odd, Z.shiftr_div_pow2 by (pose proof width_pos; lia).
  case_bool_decide.
  - replace bits with (bits - half + 1 * half) by lia. rewrite Z.div_add by lia.
    by rewrite Z.div_small by lia.
  - by rewrite Z.div_small by lia.
Qed.

(** The key of a pattern, from its rank. *)
Lemma encode_ordered_rank bits :
  0 <= bits < 2 ^ w ->
  encode_ordered f bits =
    if Float.nan_bits f bits then 0
    else half + Float.key f bits + (if decide (0 <= Float.key f bits) then 1 else 0).
Proof.
  intros Hb. unfold encode_ordered. rewrite eqb_zero, Float.is_nan_bits, Float.is_zero_bits by done.
  pose proof (word_half w width_pos) as [H2 H0].
  pose proof (Float.bits_split f Hfrac Hexpo bits Hb) as Hs.
  pose proof (Float.mag_range f Hfrac Hexpo bits) as Hm.
  destruct (Float.nan_bits f bits); [done|]. rewrite sign_bit by done. unfold Float.key.
  case_bool_decide as Hz.
  - rewrite Hz. destruct (Float.negative f bits); case_decide; lia.
  - destruct (Float.negative f bits).
    + rewrite not_word_sub by (done || apply width_pos). rewrite decide_False by lia. lia.
    + rewrite flip_low by (apply width_pos || lia). rewrite decide_True by lia. lia.
Qed.

Lemma rank_facts bits :
  0 <= bits < 2 ^ w ->
  - Float.inf_mag f - 1 <= Float.rank_of f bits <= Float.inf_mag f /\
  0 < Float.inf_mag f < half - 1 /\
  encode_ordered f bits =
    (if decide (Float.rank_of f bits = - Float.inf_mag f - 1) then 0
     else half + Float.rank_of f bits + (if decide (0 <= Float.rank_of f bits) then 1 else 0)).
Proof.
  intros Hb. rewrite encode_ordered_rank by done.
  pose proof (Float.mag_range f Hfrac Hexpo bits) as Hm.
  assert (Hi : 0 < Float.inf_mag f < half - 1).
  { rewrite Float.half_split by done. unfold Float.inf_mag.
    pose proof (Float.pow_pos f Hfrac Hexpo) as [? ?].
    assert (2 ^ 1 <= 2 ^ Float.frac f) by (apply Z.pow_le_mono_r; lia). nia. }
  unfold Float.rank_of, Float.nan_bits, Float.key. case_bool_decide.
  - rewrite decide_True by done. lia.
  - destruct (Float.negative f bits); rewrite (decide_False (P := _ = _)) by lia; lia.
Qed.

(** The order of keys is the order of values. *)
Lemma encode_ordered_cmp a b :
  0 <= a < 2 ^ w -> 0 <= b < 2 ^ w ->
  Z.compare (encode_ordered f a) (encode_ordered f b) =
    Float.total_cmp (Float.of_bits f a) (Float.of_bits f b).
Proof.
  intros Ha Hb. rewrite Float.total_cmp_rank by done.
  destruct (rank_facts a Ha) as (? & ? & ->), (rank_facts b Hb) as (? & ? & ->).
  destruct (Z.compare_spec (Float.rank_of f a) (Float.rank_of f b)) as [->|?|?].
  - by apply Z.compare_eq_iff.
  - apply Z.compare_lt_iff. repeat case_decide; lia.
  - apply Z.compare_gt_iff. repeat case_decide; lia.
Qed.

Lemma encode_ordered_range bits :
  0 <= bits < 2 ^ w -> 0 <= encode_ordered f bits < 2 ^ w.
Proof.
  intros Hb. pose proof (word_half w width_pos) as [H2 H0].
  destruct (rank_facts bits Hb) as (? & ? & ->). repeat case_decide; lia.
Qed.

(** What a pattern comes back as: one NaN, one zero. *)
Definition canonical (bits : Z) : Z :=
  if Float.nan_bits f bits then NAN f else if decide (Float.mag f bits = 0) then 0 else bits.

Lemma decode_ordered_high x : half < x <= 2 ^ w -> decode_ordered f x = x - 1 - half.
Proof.
  intros Hx. pose proof (word_half w width_pos) as [H2 H0]. unfold decode_ordered.
  rewrite decide_False by lia. rewrite land_half_high by (apply width_pos || lia).
  rewrite decide_True by lia. rewrite flip_high by (apply width_pos || lia). lia.
Qed.

Lemma decode_ordered_low x : 0 < x <= half -> decode_ordered f x = 2 ^ w - x.
Proof.
  intros Hx. pose proof (word_half w width_pos) as [H2 H0]. unfold decode_ordered.
  rewrite decide_False by lia. rewrite land_half_low by (apply width_pos || lia).
  rewrite decide_False by lia. rewrite not_word_sub by (apply width_pos || lia). lia.
Qed.

Lemma decode_encode_ordered bits :
  0 <= bits < 2 ^ w -> decode_ordered f (encode_ordered f bits) = canonical bits.
Proof.
  intros Hb. rewrite encode_ordered_rank by done. unfold canonical.
  pose proof (word_half w width_pos) as [H2 H0].
  pose proof (Float.bits_split f Hfrac Hexpo bits Hb) as Hs.
  pose proof (Float.mag_range f Hfrac Hexpo bits) as Hm.
  pose proof (Float.inf_mag_half f Hfrac Hexpo) as Hi.
  destruct (Float.nan_bits f bits) eqn:Hn; [done|].
  unfold Float.nan_bits in Hn. apply bool_decide_eq_false in Hn. unfold Float.key.
  destruct (Float.negative f bits), (decide (Float.mag f bits = 0)) as [Hz|Hz];
    case_decide; try lia; first [rewrite decode_ordered_high by lia | rewrite decode_ordered_low by lia];
    lia.
Qed.

End floats.


(** ** Clock times *)

Definition valid_time (t : TimeValue) : Prop :=
  0 <= t_hour t < 2 ^ 32 /\ 0 <= t_minute t < 60 /\ 0 <= t_sec t < 60 /\
  0 <= t_microsec t < 1000000.

Lemma total_micros_range t : valid_time t -> 0 <= total_micros t < 256 ^ Z.of_nat 8.
Proof. unfold valid_time, total_micros. change (256 ^ Z.of_nat 8) with (2 ^ 64). lia. Qed.

Lemma time_of_total_micros t : valid_time t -> time_of_micros (total_micros t) = t.
Proof.
  destruct t as [h m s u]. unfold valid_time, total_micros, time_of_micros. simpl. intros Hv.
  assert (E : (h * 3600000000 + m * 60000000 + s * 1000000 + u) / 1000000 = h * 3600 + m * 60 + s)
    by (symmetry; apply (Z.div_unique_pos _ _ _ u); lia).
  rewrite E. unfold as_unsigned. f_equal.
  - rewrite (Z.mod_small (_ / _)); Z.to_euclidean_division_equations; lia.
  - Z.to_euclidean_division_equations; lia.
  - Z.to_euclidean_division_equations; lia.
  - symmetry. apply (Z.mod_unique_pos _ _ (h * 3600 + m * 60 + s)); lia.
Qed.

Lemma total_micros_cmp a b :
  valid_time a -> valid_time b ->
  Z.compare (total_micros a) (total_micros b) = Val.cmp_time a b.
Proof.
  destruct a as [h m s u], b as [h' m' s' u']. unfold valid_time, total_micros, Val.cmp_time. simpl.
  intros Ha Hb. unfold Val.then_cmp.
  destruct (Z.compare_spec h h') as [->|?|?];
    [destruct (Z.compare_spec m m') as [->|?|?];
      [destruct (Z.compare_spec s s') as [->|?|?];
        [destruct (Z.compare_spec u u') as [->|?|?]| |]| |]| |];
    first [apply Z.compare_refl | apply Z.compare_lt_iff; lia | apply Z.compare_gt_iff; lia].
Qed.

(** ** Prefix ranges *)

Local Arguments Z.compare : simpl never.

Lemma increment_length l : length (increment l).2 = length l.
Proof.
  induction l as [|b l IH]; [done|]. simpl. destruct (increment l) as [[] l']; simpl in *;
    [case_decide|]; simpl; lia.
Qed.

Lemma increment_carry l : (increment l).1 = true <-> Forall (fun b => b = 255) l.
Proof.
  induction l as [|b l IH]; [split; [by constructor|done]|]. simpl.
  rewrite Forall_cons. destruct (increment l) as [[] l'] eqn:E; simpl in *.
  - case_decide; simpl; naive_solver.
  - naive_solver.
Qed.

Lemma increment_ff l : Forall (fun b => b = 255) l -> increment l = (true, replicate (length l) 0).
Proof. induction 1 as [|b l -> Hl IH]; [done|]. simpl. by rewrite IH. Qed.

Lemma zeros_least k n :
  Forall is_byte k -> (n <= length k)%nat -> bytes_cmp k (replicate n 0) <> Lt.
Proof.
  revert k; induction n as [|n IH]; intros [|c k] Hk Hl; simpl in *; try done; [lia|].
  decompose_Forall_hyps. unfold is_byte in *. destruct (Z.compare_spec c 0); [|lia|done].
  apply IH; [done|lia].
Qed.

Lemma ff_greatest p k :
  Forall (fun b => b = 255) p -> Forall is_byte k -> (length p <= length k)%nat ->
  bytes_cmp p k <> Gt <-> p `prefix_of` k.
Proof.
  intros Hp. revert k; induction Hp as [|b p -> Hp IH]; intros k Hk Hl.
  - split; [intros _; apply prefix_nil|by destruct k].
  - destruct k as [|c k]; [simpl in Hl; lia|]. simpl in Hl. decompose_Forall_hyps.
    unfold is_byte in *. destruct (Z.compare_spec 255 c) as [<-|?|?]; [|lia|].
    + rewrite IH by (done || lia). split; [apply prefix_cons|apply prefix_cons_inv_2].
    + split; [done|]. intros Hpre%prefix_cons_inv_1. lia.
Qed.

(** The keys in the range of a prefix are those that start with it. *)
Lemma prefix_range p k :
  Forall is_byte p -> Forall is_byte k -> (length p <= length k)%nat ->
  ~ Forall (fun b => b = 255) p ->
  (bytes_cmp p k <> Gt /\ bytes_cmp k (prefix_upper_bound p) = Lt) <-> p `prefix_of` k.
Proof.
  unfold prefix_upper_bound. revert k; induction p as [|b p IH]; intros k Hp Hk Hl Hff.
  { by destruct Hff. }
  destruct k as [|c k]; [simpl in Hl; lia|]. simpl in Hl. decompose_Forall_hyps.
  assert (Hcons : b :: p `prefix_of` c :: k <-> b = c /\ p `prefix_of` k).
  { split; [|intros [-> ?]; by apply prefix_cons].
    intros Hpre. split; [by eapply prefix_cons_inv_1|by eapply prefix_cons_inv_2]. }
  rewrite Hcons. clear Hcons. pose proof (increment_carry p) as Hc.
  destruct (increment p) as [carry p'] eqn:E. simpl in IH, Hc. destruct carry.
  - assert (Hall : Forall (fun x => x = 255) p) by by apply Hc.
    rewrite increment_ff in E by done. injection E as <-.
    rewrite decide_False by (intros ->; by apply Hff; constructor). simpl.
    rewrite <- (ff_greatest p k) by (done || lia).
    pose proof (zeros_least k (length p) ltac:(done) ltac:(lia)) as Hz.
    destruct (Z.compare_spec b c) as [->|?|?]; [|split; [|lia]|split; [naive_solver|lia]].
    + replace (Z.compare c (c + 1)) with Lt by (symmetry; apply Z.compare_lt_iff; lia). naive_solver.
    + destruct (Z.compare_spec c (b + 1)); [naive_solver|lia|naive_solver].
  - assert (Hnot : ~ Forall (fun x => x = 255) p) by (intros Hx%Hc; done). simpl.
    specialize (IH k ltac:(done) ltac:(done) ltac:(lia) Hnot).
    destruct (Z.compare_spec b c) as [->|?|?].
    + rewrite Z.compare_refl. naive_solver.
    + replace (Z.compare c b) with Gt by (symmetry; apply Z.compare_gt_iff; lia). split; [naive_solver|lia].
    + split; [naive_solver|lia].
Qed.

(** The range of a prefix of [0xFF] bytes is empty. *)
Lemma prefix_range_ff p k :
  Forall (fun b => b = 255) p -> Forall is_byte k -> (length p <= length k)%nat ->
  bytes_cmp k (prefix_upper_bound p) <> Lt.
Proof.
  intros Hp Hk Hl. unfold prefix_upper_bound. rewrite increment_ff by done. by apply zeros_least.
Qed.

(** With a last byte that does not roll over, keys of any length. *)
Lemma prefix_upper_last q b :
  b <> 255 -> prefix_upper_bound (q ++ [b]) = q ++ [b + 1].
Proof.
  intros Hb. unfold prefix_upper_bound. assert (E : increment (q ++ [b]) = (false, q ++ [b + 1])).
  { induction q as [|c q IH]; simpl; [by rewrite decide_False|]. by rewrite IH. }
  by rewrite E.
Qed.

Lemma prefix_range_last q b k :
  b <> 255 ->
  (bytes_cmp (q ++ [b]) k <> Gt /\ bytes_cmp k (prefix_upper_bound (q ++ [b])) = Lt) <->
  q ++ [b] `prefix_of` k.
Proof.
  intros Hb. rewrite prefix_upper_last by done. revert k; induction q as [|c q IH]; intros k.
  - destruct k as [|d k]; simpl.
    + split; [naive_solver|]. intros [? ?]. done.
    + assert (Hpre : [b] `prefix_of` d :: k <-> b = d).
      { split; [apply prefix_cons_inv_1|]. intros ->. apply prefix_cons, prefix_nil. }
      rewrite Hpre. destruct (Z.compare_spec b d) as [->|?|?].
      * replace (Z.compare d (d + 1)) with Lt by (symmetry; apply Z.compare_lt_iff; lia).
        by destruct k.
      * destruct (Z.compare_spec d (b + 1)); [destruct k| |]; split; naive_solver lia.
      * split; [naive_solver|lia].
  - destruct k as [|d k]; simpl.
    + split; [naive_solver|]. intros [? ?]. done.
    + destruct (Z.compare_spec c d) as [->|?|?].
      * rewrite Z.compare_refl, IH. split; [apply prefix_cons|apply prefix_cons_inv_2].
      * replace (Z.compare d c) with Gt by (symmetry; apply Z.compare_gt_iff; lia).
        split; [naive_solver|]. intros Hpre%prefix_cons_inv_1. lia.
      * split; [naive_solver|]. intros Hpre%prefix_cons_inv_1. lia.
Qed.

(** The escaped data without its terminator. *)
Definition escape (data : list Z) : list Z :=
  flat_map (fun b => if decide (b = 0) then [0; 1] else [b]) data.

Lemma escape_cons b l :
  escape (b :: l) = (if decide (b = 0) then [0; 1] else [b]) ++ escape l.
Proof. done. Qed.

Lemma escape_app a b : escape (a ++ b) = escape a ++ escape b.
Proof. apply flat_map_app. Qed.

Lemma escape_last l b :
  b <> 255 -> exists q c, escape (l ++ [b]) = q ++ [c] /\ c <> 255.
Proof.
  intros Hb. rewrite escape_app. simpl. case_decide.
  - exists (escape l ++ [0]), 1. by rewrite <- app_assoc.
  - by exists (escape l), b.
Qed.

Lemma escape_prefix p v r :
  Forall is_byte v -> escape p `prefix_of` encode_escaped_bytes v ++ r <-> p `prefix_of` v.
Proof.
  intros Hv. split.
  - revert v Hv; induction p as [|b p IH]; intros v Hv Hpre; [apply prefix_nil|].
    rewrite escape_cons in Hpre. destruct v as [|c v].
    + exfalso. rewrite escaped_nil in Hpre. case_decide; simpl in Hpre.
      * apply prefix_cons_inv_2, prefix_cons_inv_1 in Hpre. lia.
      * apply prefix_cons_inv_1 in Hpre. lia.
    + decompose_Forall_hyps. rewrite escaped_cons, <- app_assoc in Hpre.
      repeat case_decide; subst; simpl in Hpre;
        try (apply prefix_cons_inv_1 in Hpre as ?; lia).
      * apply prefix_cons, IH; [done|]. by do 2 apply prefix_cons_inv_2 in Hpre.
      * apply prefix_cons_inv_1 in Hpre as Hbc. subst. apply prefix_cons, IH; [done|].
        by apply prefix_cons_inv_2 in Hpre.
  - intros [w ->]. unfold encode_escaped_bytes. fold (escape (p ++ w)). rewrite escape_app, <- !app_assoc.
    apply prefix_app_r. done.
Qed.


(** ** Vertex identifiers *)

(** An identifier as its constructors build it. *)
Definition valid_vid (v : VertexId) : Prop :=
  from_typed_bytes (vid_kind_of v) (as_bytes v) = Ok v /\ Forall is_byte (as_bytes v).

#[export] Instance valid_vid_dec v : Decision (valid_vid v).
Proof.
  unfold valid_vid. apply and_dec; [|apply _].
  destruct (from_typed_bytes (vid_kind_of v) (as_bytes v)) as [w|]; [|by right].
  destruct (decide (w = v)) as [->|]; [by left|right; congruence].
Defined.

Lemma valid_vid_length v : valid_vid v -> (length (as_bytes v) <= 32)%nat.
Proof.
  intros [E _]. unfold from_typed_bytes, VERTEX_ID_MAX_SIZE in E.
  by case_decide; [|lia].
Qed.

Lemma kind_from_as_u8 k : kind_from_u8 (kind_as_u8 k) = Some k.
Proof. by destruct k. Qed.

Lemma length_write_vertex_id v : valid_vid v -> length (write_vertex_id v) = 34%nat.
Proof.
  intros Hv%valid_vid_length. unfold write_vertex_id. rewrite !length_app, length_replicate. simpl. lia.
Qed.

Lemma read_write_vertex_id v r :
  valid_vid v -> read_vertex_id (write_vertex_id v ++ r) = Ok (v, 34%nat).
Proof.
  intros Hv. pose proof (valid_vid_length v Hv) as Hl. pose proof (length_write_vertex_id v Hv) as Hw.
  unfold read_vertex_id. rewrite decide_False by (rewrite length_app; lia).
  unfold write_vertex_id. rewrite <- !app_assoc. destruct Hv as [Hv _].
  set (bs := as_bytes v) in *. set (z := replicate (32 - length bs) 0).
  assert (Hz : (length bs + length z = 32)%nat) by (unfold z; rewrite length_replicate; lia).
  assert (H32 : byte_at 32 (bs ++ z ++ [Z.of_nat (length bs) mod 256; kind_as_u8 (vid_kind_of v)] ++ r)
                = Z.of_nat (length bs)).
  { rewrite !byte_at_past by lia. replace (32 - length bs - length z)%nat with 0%nat by lia.
    unfold byte_at. simpl. rewrite Z.mod_small; lia. }
  assert (H33 : byte_at 33 (bs ++ z ++ [Z.of_nat (length bs) mod 256; kind_as_u8 (vid_kind_of v)] ++ r)
                = kind_as_u8 (vid_kind_of v)).
  { rewrite !byte_at_past by lia. by replace (33 - length bs - length z)%nat with 1%nat by lia. }
  rewrite H32, H33, Nat2Z.id, kind_from_as_u8. rewrite decide_False by lia.
  rewrite decide_False; [by rewrite take_app_length, Hv|].
  unfold slice. rewrite drop_app_length, take_app_length' by (unfold z; rewrite length_replicate; lia).
  intros Hex. apply Exists_exists in Hex as (b & Hb & Hne). by apply elem_of_replicate in Hb as [-> _].
Qed.

Lemma padding_below n b k l s t :
  (length b <= n)%nat -> Forall is_byte b -> k < l ->
  bytes_cmp (replicate n 0 ++ k :: s) (b ++ replicate (n - length b) 0 ++ l :: t) = Lt.
Proof.
  intros Hn Hb Hkl. revert n Hn; induction Hb as [|c b Hc Hb IH]; intros n Hn; simpl in *.
  - rewrite Nat.sub_0_r, bytes_cmp_app, bytes_cmp_refl by done. simpl.
    by replace (Z.compare k l) with Lt by (symmetry; by apply Z.compare_lt_iff).
  - destruct n as [|n]; [lia|]. simpl. unfold is_byte in Hc.
    destruct (Z.compare_spec 0 c); [apply IH; lia|done|lia].
Qed.

(** Padded identifiers compare like their bytes, and then by what follows. *)
Lemma padded_bytes_cmp n m a b s t :
  (length a <= n)%nat -> (length b <= n)%nat -> Forall is_byte a -> Forall is_byte b ->
  bytes_cmp (a ++ replicate (n - length a) 0 ++ (m + Z.of_nat (length a)) :: s)
            (b ++ replicate (n - length b) 0 ++ (m + Z.of_nat (length b)) :: t) =
    then_bytes (bytes_cmp a b) s t.
Proof.
  revert n m b; induction a as [|x a IH]; intros n m [|y b] Ha Hb Fa Fb.
  - simpl. rewrite !bytes_cmp_app, bytes_cmp_refl by done. simpl. by rewrite Z.compare_refl.
  - simpl app at 1. rewrite Nat.sub_0_r. apply padding_below; [done|done|simpl; lia].
  - simpl (length []). rewrite Nat.sub_0_r, app_nil_l, bytes_cmp_antisym.
    rewrite padding_below by (done || (simpl; lia)). done.
  - simpl in Ha, Hb. destruct n as [|n]; [lia|]. decompose_Forall_hyps.
    destruct (Z.compare x y); [|done..].
    rewrite <- (IH n (m + 1) b) by (done || lia).
    f_equal; f_equal; f_equal; f_equal; lia.
Qed.

Lemma vertex_id_order a b :
  valid_vid a -> valid_vid b ->
  bytes_cmp (write_vertex_id a) (write_vertex_id b) =
    then_bytes (bytes_cmp (as_bytes a) (as_bytes b))
      [kind_as_u8 (vid_kind_of a)] [kind_as_u8 (vid_kind_of b)].
Proof.
  intros Ha Hb. pose proof (valid_vid_length a Ha) as La. pose proof (valid_vid_length b Hb) as Lb.
  destruct Ha as [_ Fa], Hb as [_ Fb]. unfold write_vertex_id. rewrite !Z.mod_small by lia.
  by apply (padded_bytes_cmp 32 0).
Qed.

(** ** Entity references *)

Definition valid_entity (e : EntityRef) : Prop :=
  match e with
  | ERVertex v => valid_vid v
  | EREdge s d t r => valid_vid s /\ valid_vid d /\ 0 <= t < 2 ^ 32 /\ - 2 ^ 63 <= r < 2 ^ 63
  end.

Lemma decode_encode_entity e r :
  valid_entity e -> decode_entity_bytes (encode_entity e ++ r) = Ok (e, length (encode_entity e)).
Proof.
  destruct e as [v|s d t k]; intros Hv; simpl in Hv.
  - simpl. rewrite read_write_vertex_id, length_write_vertex_id by done. done.
  - destruct Hv as (Hs & Hd & Ht & Hk). pose proof (length_write_vertex_id s Hs) as Ls.
    pose proof (length_write_vertex_id d Hd) as Ld. unfold encode_entity, decode_entity_bytes.
    set (x := write_vertex_id s) in *. set (y := write_vertex_id d) in *.
    set (z := be_bytes 4 t ++ be_bytes 8 (as_unsigned 64 k)).
    assert (Hlen : length (TAG_EDGE_REF :: x ++ y ++ z) = 81%nat).
    { simpl. unfold z. rewrite !length_app, !length_be_bytes, Ls, Ld. done. }
    cbn [app]. rewrite decide_False, decide_True by done.
    rewrite skipn_cons, drop_0, <- !app_assoc. unfold x at 1. rewrite read_write_vertex_id by done.
    cbn [Nat.add]. rewrite skipn_cons, drop_app_length' by done.
    unfold y at 1. rewrite read_write_vertex_id by done.
    rewrite decide_False by (cbn [length] in *; rewrite !length_app in *; lia).
    cbn [Nat.add]. rewrite !read_be_cons, !(read_be_skip _ _ x), Ls by lia.
    rewrite !(read_be_skip _ _ y), Ld by lia. cbn [Nat.sub]. unfold z at 1 2. rewrite <- !app_assoc.
    rewrite read_be_head by (change (256 ^ Z.of_nat 4) with (2 ^ 32); lia).
    rewrite read_be_skip by (rewrite length_be_bytes; lia). rewrite length_be_bytes. cbn [Nat.sub].
    rewrite read_be_head by (apply Z.mod_pos_bound; lia). rewrite signed_unsigned by lia.
    by rewrite Hlen.
Qed.


End CodecFacts.
