(* ===== verification/OrderedDecimal.v ===== *)
(** * Encoded decimals

    The encoding of a decimal is made from its text: the digits are brought to
    a normal form (no zero at either end, the exponent of the first digit), and
    sign, exponent and digits are written so that byte order is number order.
    Here: two encodings are separated, and their order is the order of the
    numbers the texts stand for. *)

From stdpp Require Import base list strings.
From Stdlib Require Import ZArith Lia.
From S2P Require Import Prelude Types Values WalTypes OrderedCodec OrderedFacts.

Module DecimalFacts.
Import Codec CodecFacts.

Abbreviation digit c := (48 <= c <= 57) (only parsing).

Lemma is_digit_spec c : is_digit c = true <-> digit c.
Proof. unfold is_digit, in_range. by rewrite bool_decide_eq_true. Qed.

Lemma digits_forall l : forallb is_digit l = true <-> Forall (fun c => digit c) l.
Proof.
  rewrite forallb_forall, List.Forall_forall. split; intros H c Hc; apply is_digit_spec; auto.
Qed.

(** ** Terminated digits *)

Local Arguments Z.compare : simpl never.

Lemma terminated_cmp t a b r s :
  Forall (fun c => c <> t) a -> Forall (fun c => c <> t) b ->
  bytes_cmp ((a ++ [t]) ++ r) ((b ++ [t]) ++ s) = then_bytes (bytes_cmp (a ++ [t]) (b ++ [t])) r s.
Proof.
  revert b; induction a as [|x a IH]; intros [|y b] Ha Hb; decompose_Forall_hyps.
  - by rewrite Z.compare_refl.
  - unfold then_bytes. by destruct (Z.compare_spec t y).
  - unfold then_bytes. by destruct (Z.compare_spec x t).
  - destruct (Z.compare x y); [|done..]. by apply IH.
Qed.

Lemma terminated_low a b :
  Forall (fun c => digit c) a -> Forall (fun c => digit c) b ->
  bytes_cmp (a ++ [0]) (b ++ [0]) = bytes_cmp a b.
Proof.
  revert b; induction a as [|x a IH]; intros [|y b] Ha Hb; decompose_Forall_hyps; try done.
  - destruct (Z.compare_spec 0 y); done || lia.
  - destruct (Z.compare_spec x 0); done || lia.
  - by rewrite IH.
Qed.

Lemma not_digit c : digit c -> not_word 8 c = 255 - c.
Proof. intros. rewrite not_word_sub by lia. done. Qed.

Lemma terminated_high a b :
  Forall (fun c => digit c) a -> Forall (fun c => digit c) b ->
  bytes_cmp (map (not_word 8) a ++ [255]) (map (not_word 8) b ++ [255]) = bytes_cmp b a.
Proof.
  revert b; induction a as [|x a IH]; intros [|y b] Ha Hb; decompose_Forall_hyps;
    rewrite ?not_digit by done; try done.
  - destruct (Z.compare_spec 255 (255 - y)); done || lia.
  - destruct (Z.compare_spec (255 - x) 255); done || lia.
  - rewrite IH by done. rewrite (Z.compare_antisym x y).
    destruct (Z.compare_spec x y), (Z.compare_spec (255 - x) (255 - y)); done || lia.
Qed.

(** ** Normal forms *)

Lemma drop_zeros_split l : exists n, l = replicate n 48 ++ drop_zeros l.
Proof.
  induction l as [|c l [n IH]]; [by exists 0%nat|]. simpl. case_decide as Hc.
  - subst. exists (S n). simpl. by rewrite <- IH.
  - by exists 0%nat.
Qed.

Lemma drop_zeros_head l c r : drop_zeros l = c :: r -> c <> 48.
Proof. induction l as [|x l IH]; simpl; [done|]. case_decide; [done|]. congruence. Qed.

Lemma drop_zeros_nil l : drop_zeros l = [] -> Forall (fun c => c = 48) l.
Proof. induction l as [|x l IH]; simpl; [done|]. case_decide; [auto|done]. Qed.

(** Digits with no zero at either end. *)
Definition trimmed (ds : list Z) : Prop :=
  Forall (fun c => digit c) ds /\ (forall c r, ds = c :: r -> c <> 48) /\
  (forall r c, ds = r ++ [c] -> c <> 48).

(** The number a normal form stands for, in units of [10^k]. *)
Definition scaled (k exponent : Z) (ds : list Z) : Z :=
  digits_value ds * 10 ^ (exponent - Z.of_nat (length ds) - k).

Lemma digits_value_app a b :
  digits_value (a ++ b) = digits_value a * 10 ^ Z.of_nat (length b) + digits_value b.
Proof.
  unfold digits_value. rewrite fold_left_app. generalize (fold_left (fun acc c => acc * 10 + (c - 48)) a 0).
  induction b as [|c b IH] using rev_ind; intros n; simpl; [lia|].
  rewrite !fold_left_app, IH, length_app. simpl.
  rewrite Nat.add_1_r, Nat2Z.inj_succ, Z.pow_succ_r by lia. lia.
Qed.

Lemma digits_value_cons c l :
  digits_value (c :: l) = (c - 48) * 10 ^ Z.of_nat (length l) + digits_value l.
Proof. apply (digits_value_app [c] l). Qed.

Lemma digits_value_range l :
  Forall (fun c => digit c) l -> 0 <= digits_value l < 10 ^ Z.of_nat (length l).
Proof.
  induction 1 as [|c l Hc Hl IH]; [done|]. rewrite digits_value_cons. simpl length.
  rewrite Nat2Z.inj_succ, Z.pow_succ_r by lia. nia.
Qed.

Lemma digits_value_zeros n : digits_value (replicate n 48) = 0.
Proof. induction n; [done|]. simpl replicate. rewrite digits_value_cons. lia. Qed.

(** Digit strings of one length compare like their numbers. *)
Lemma digits_cmp a b :
  length a = length b -> Forall (fun c => digit c) a -> Forall (fun c => digit c) b ->
  bytes_cmp a b = Z.compare (digits_value a) (digits_value b).
Proof.
  revert b; induction a as [|x a IH]; intros [|y b] Hl Ha Hb; try done.
  injection Hl as Hl. decompose_Forall_hyps. rewrite !digits_value_cons, Hl.
  pose proof (digits_value_range a ltac:(done)) as Ra. pose proof (digits_value_range b ltac:(done)) as Rb.
  rewrite Hl in Ra. symmetry.
  destruct (Z.compare_spec x y) as [->|?|?].
  - rewrite IH by done. apply Z.add_compare_mono_l.
  - apply Z.compare_lt_iff. nia.
  - apply Z.compare_gt_iff. nia.
Qed.

(** ** The order of normal forms *)

Lemma zeros_below n b :
  length b = n -> Forall (fun c => digit c) b -> (forall r c, b = r ++ [c] -> c <> 48) -> b <> [] ->
  bytes_cmp (replicate n 48) b = Lt.
Proof.
  intros <- Hb Hl Hne. induction Hb as [|y b Hy Hb IH]; [done|]. simpl.
  destruct (Z.compare_spec 48 y) as [<-|?|?]; [|done|lia].
  destruct b as [|z b]; [by destruct (Hl [] 48)|].
  apply IH; [|done]. intros r c E. apply (Hl (48 :: r) c). by rewrite E.
Qed.

(** Zeros added at the end do not change the order. *)
Lemma padded_cmp a b m n :
  (length a + m = length b + n)%nat ->
  Forall (fun c => digit c) a -> Forall (fun c => digit c) b ->
  (forall r c, a = r ++ [c] -> c <> 48) -> (forall r c, b = r ++ [c] -> c <> 48) ->
  bytes_cmp (a ++ replicate m 48) (b ++ replicate n 48) = bytes_cmp a b.
Proof.
  revert b; induction a as [|x a IH]; intros [|y b] Hl Ha Hb Ta Tb.
  - simpl in Hl. subst. apply bytes_cmp_refl.
  - simpl in Hl. replace m with (length (y :: b) + n)%nat by (simpl; lia).
    rewrite app_nil_l, replicate_add, bytes_cmp_app by by rewrite length_replicate.
    by rewrite zeros_below.
  - simpl in Hl. replace n with (length (x :: a) + m)%nat by (simpl; lia).
    rewrite app_nil_l, replicate_add, bytes_cmp_app by by rewrite length_replicate.
    rewrite bytes_cmp_antisym, zeros_below by done. done.
  - decompose_Forall_hyps. destruct (Z.compare x y); [|done..].
    apply IH; [lia|done|done| |].
    + intros r c ->. by apply (Ta (x :: r)).
    + intros r c ->. by apply (Tb (y :: r)).
Qed.

Lemma scaled_range k e ds :
  trimmed ds -> ds <> [] -> k <= e - Z.of_nat (length ds) ->
  10 ^ (e - 1 - k) <= scaled k e ds < 10 ^ (e - k).
Proof.
  intros (Hd & Hh & _) Hne Hk. unfold scaled.
  pose proof (digits_value_range _ Hd) as Hr.
  assert (Hlow : 10 ^ (Z.of_nat (length ds) - 1) <= digits_value ds).
  { destruct ds as [|c ds]; [done|]. specialize (Hh c ds eq_refl). rewrite digits_value_cons.
    decompose_Forall_hyps. pose proof (digits_value_range ds ltac:(done)).
    replace (Z.of_nat (S (length ds)) - 1) with (Z.of_nat (length ds)) by lia. nia. }
  assert (0 < 10 ^ (e - Z.of_nat (length ds) - k)) by (apply Z.pow_pos_nonneg; lia).
  assert (1 <= Z.of_nat (length ds)) by (destruct ds; simpl; [done|lia]).
  replace (e - 1 - k) with (Z.of_nat (length ds) - 1 + (e - Z.of_nat (length ds) - k)) by lia.
  replace (10 ^ (e - k)) with (10 ^ (Z.of_nat (length ds) + (e - Z.of_nat (length ds) - k)))
    by (f_equal; lia).
  rewrite !Z.pow_add_r by lia. nia.
Qed.

(** Padding to [n] digits. *)
Lemma scaled_pad k e ds n :
  (length ds <= n)%nat -> k <= e - Z.of_nat n ->
  scaled k e ds =
    digits_value (ds ++ replicate (n - length ds) 48) * 10 ^ (e - Z.of_nat n - k).
Proof.
  intros Hn Hk. unfold scaled. rewrite digits_value_app, digits_value_zeros, length_replicate, Z.add_0_r.
  rewrite <- Z.mul_assoc, <- Z.pow_add_r by lia. do 2 f_equal. lia.
Qed.

Lemma scaled_cmp k e a g b :
  trimmed a -> trimmed b -> a <> [] -> b <> [] ->
  k <= e - Z.of_nat (length a) -> k <= g - Z.of_nat (length b) ->
  Z.compare (scaled k e a) (scaled k g b) =
    match Z.compare e g with Eq => bytes_cmp a b | c => c end.
Proof.
  intros Ta Tb Na Nb Ka Kb.
  pose proof (scaled_range k e a Ta Na Ka) as Ra. pose proof (scaled_range k g b Tb Nb Kb) as Rb.
  destruct (Z.compare_spec e g) as [<-|?|?].
  - destruct Ta as (Da & _ & La), Tb as (Db & _ & Lb). set (n := Nat.max (length a) (length b)).
    rewrite (scaled_pad k e a n), (scaled_pad k e b n) by lia.
    rewrite <- (padded_cmp a b (n - length a) (n - length b)) by (done || lia).
    rewrite digits_cmp.
    + assert (0 < 10 ^ (e - Z.of_nat n - k)) by (apply Z.pow_pos_nonneg; lia).
      symmetry. by apply Zmult_compare_compat_r, Z.lt_gt.
    + rewrite !length_app, !length_replicate. lia.
    + apply Forall_app. split; [done|]. apply Forall_replicate. lia.
    + apply Forall_app. split; [done|]. apply Forall_replicate. lia.
  - apply Z.compare_lt_iff. assert (10 ^ (e - k) <= 10 ^ (g - 1 - k)) by (apply Z.pow_le_mono_r; lia). lia.
  - apply Z.compare_gt_iff. assert (10 ^ (g - k) <= 10 ^ (e - 1 - k)) by (apply Z.pow_le_mono_r; lia). lia.
Qed.


(** The normal forms the codec writes: zero, or trimmed digits. *)
Definition normal (neg : bool) (e : Z) (ds : list Z) : Prop :=
  (neg = false /\ e = -2147483648 /\ ds = [48]) \/ (trimmed ds /\ ds <> [] /\ is_i32 e).

Lemma normal_forall neg e ds : normal neg e ds -> Forall (fun c => digit c) ds /\ is_i32 e.
Proof.
  intros [(_ & -> & ->)|((Hd & _) & _ & He)]; [|done].
  split; [repeat constructor; lia|unfold is_i32; lia].
Qed.

(** The signed number in units of [10^k]. *)
Definition signed_scaled (k : Z) (neg : bool) (e : Z) (ds : list Z) : Z :=
  if neg then - scaled k e ds else scaled k e ds.

(** [k] is fine enough for the number. *)
Definition fine (k e : Z) (ds : list Z) : Prop := ds = [48] \/ k <= e - Z.of_nat (length ds).

Lemma scaled_zero k e : scaled k e [48] = 0.
Proof. done. Qed.

Lemma scaled_pos k e ds :
  trimmed ds -> ds <> [] -> fine k e ds -> 0 < scaled k e ds /\ k <= e - Z.of_nat (length ds).
Proof.
  intros Ht Hn Hk. assert (k <= e - Z.of_nat (length ds)) as Hk'.
  { destruct Hk as [->|]; [|done]. destruct Ht as (_ & Hh & _). by specialize (Hh 48 [] eq_refl). }
  split; [|done]. pose proof (scaled_range k e ds Ht Hn Hk') as Hr.
  assert (1 <= Z.of_nat (length ds)) by (destruct ds; simpl; [done|lia]).
  assert (0 < 10 ^ (e - 1 - k)) by (apply Z.pow_pos_nonneg; lia). lia.
Qed.

Lemma biased_exponent e : is_i32 e -> flip_sign 32 (as_unsigned 32 e) = e + 2147483648.
Proof. unfold is_i32. intros. rewrite signed_bias; [done|lia|]. change (2 ^ (32 - 1)) with 2147483648. lia. Qed.

#[local] Opaque be_bytes.

(** Two positive normal forms compare by exponent, then digits; two negative
    ones the other way round. *)
Lemma encode_normal_positive e a g b :
  normal false e a -> normal false g b ->
  bytes_cmp (encode_normal false e a) (encode_normal false g b) =
    match Z.compare e g with Eq => bytes_cmp a b | c => c end.
Proof.
  intros [Ha He]%normal_forall [Hb Hg]%normal_forall. unfold encode_normal, is_i32 in *.
  rewrite !bytes_cmp_cons, !biased_exponent by done.
  rewrite bytes_cmp_app by by rewrite !length_be_bytes.
  rewrite bytes_cmp_be by (change (256 ^ Z.of_nat 4) with 4294967296; lia).
  rewrite compare_shift, terminated_low by done. done.
Qed.

Lemma encode_normal_negative e a g b :
  normal true e a -> normal true g b ->
  bytes_cmp (encode_normal true e a) (encode_normal true g b) =
    match Z.compare g e with Eq => bytes_cmp b a | c => c end.
Proof.
  intros [Ha He]%normal_forall [Hb Hg]%normal_forall. unfold encode_normal, is_i32 in *.
  rewrite !bytes_cmp_cons, !biased_exponent by done.
  rewrite !not_word_sub by (change (2 ^ 32) with 4294967296; lia).
  change (2 ^ 32 - 1) with 4294967295.
  rewrite bytes_cmp_app by by rewrite !length_be_bytes.
  rewrite bytes_cmp_be by (change (256 ^ Z.of_nat 4) with 4294967296; lia).
  rewrite terminated_high by done.
  destruct (Z.compare_spec g e) as [->|?|?].
  - by rewrite Z.compare_refl.
  - by replace (Z.compare _ _) with Lt by (symmetry; apply Z.compare_lt_iff; lia).
  - by replace (Z.compare _ _) with Gt by (symmetry; apply Z.compare_gt_iff; lia).
Qed.

(** Byte order is number order. *)
Lemma encode_normal_order k n e a m g b :
  normal n e a -> normal m g b -> fine k e a -> fine k g b ->
  bytes_cmp (encode_normal n e a) (encode_normal m g b) =
    Z.compare (signed_scaled k n e a) (signed_scaled k m g b).
Proof.
  intros Ha Hb Ka Kb. unfold signed_scaled. symmetry.
  destruct n, m.
  - rewrite encode_normal_negative by done. rewrite Z.compare_opp.
    destruct Ha as [(? & _)|(Ta & Na & _)], Hb as [(? & _)|(Tb & Nb & _)]; try done.
    destruct (scaled_pos k e a Ta Na Ka), (scaled_pos k g b Tb Nb Kb). by apply scaled_cmp.
  - apply Z.compare_lt_iff.
    destruct Ha as [(? & _)|(Ta & Na & _)]; [done|]. destruct (scaled_pos k e a Ta Na Ka).
    destruct Hb as [(_ & _ & ->)|(Tb & Nb & _)]; [rewrite scaled_zero; lia|].
    destruct (scaled_pos k g b Tb Nb Kb). lia.
  - apply Z.compare_gt_iff.
    destruct Hb as [(? & _)|(Tb & Nb & _)]; [done|]. destruct (scaled_pos k g b Tb Nb Kb).
    destruct Ha as [(_ & _ & ->)|(Ta & Na & _)]; [rewrite scaled_zero; lia|].
    destruct (scaled_pos k e a Ta Na Ka). lia.
  - rewrite encode_normal_positive by done.
    destruct Ha as [(_ & -> & ->)|(Ta & Na & He)], Hb as [(_ & -> & ->)|(Tb & Nb & Hg)].
    + done.
    + destruct (scaled_pos k g b Tb Nb Kb). rewrite scaled_zero.
      replace (Z.compare 0 _) with Lt by (symmetry; by apply Z.compare_lt_iff).
      destruct Tb as (Db & Hh & _). destruct b as [|c b]; [done|]. specialize (Hh c b eq_refl).
      decompose_Forall_hyps. unfold is_i32 in Hg.
      destruct (Z.compare_spec (-2147483648) g); [|done|lia].
      destruct (Z.compare_spec 48 c); done || lia.
    + destruct (scaled_pos k e a Ta Na Ka). rewrite scaled_zero.
      replace (Z.compare _ 0) with Gt by (symmetry; by apply Z.compare_gt_iff).
      destruct Ta as (Da & Hh & _). destruct a as [|c a]; [done|]. specialize (Hh c a eq_refl).
      decompose_Forall_hyps. unfold is_i32 in He.
      destruct (Z.compare_spec e (-2147483648)); [|lia|done].
      destruct (Z.compare_spec c 48); done || lia.
    + destruct (scaled_pos k e a Ta Na Ka), (scaled_pos k g b Tb Nb Kb). by apply scaled_cmp.
Qed.

Lemma encode_normal_separated n e a m g b :
  normal n e a -> normal m g b -> separated (encode_normal n e a) (encode_normal m g b).
Proof.
  intros [Ha _]%normal_forall [Hb _]%normal_forall. unfold encode_normal. apply separated_cons.
  destruct n, m; [|by apply separated_diff..|];
    apply separated_cons, separated_app; rewrite ?length_be_bytes; try done;
    intros r s; apply terminated_cmp.
  - apply Forall_fmap. eapply Forall_impl; [done|]. simpl. intros c Hc. rewrite not_digit by done. lia.
  - apply Forall_fmap. eapply Forall_impl; [done|]. simpl. intros c Hc. rewrite not_digit by done. lia.
  - eapply Forall_impl; [done|]. simpl. lia.
  - eapply Forall_impl; [done|]. simpl. lia.
Qed.


(** ** Numbers and texts *)

(** The number of a text: a coefficient and a power of ten. *)
Definition text_number (text : list Z) : option (Z * Z) :=
  match split_decimal text with
  | Some (negative, whole, fractional, exponent10) =>
      let ds := whole ++ fractional in
      if decide (ds = []) then None
      else if forallb is_digit ds then
        Some ((if (negative : bool) then - digits_value ds else digits_value ds),
              exponent10 - Z.of_nat (length fractional))
      else None
  | None => None
  end.

(** Numbers compared in units of a power of ten below both. *)
Definition number_cmp (a b : Z * Z) : comparison :=
  let k := Z.min a.2 b.2 in
  Z.compare (a.1 * 10 ^ (a.2 - k)) (b.1 * 10 ^ (b.2 - k)).

Lemma zeros_value l : Forall (fun c => c = 48) l -> digits_value l = 0.
Proof. induction 1 as [|c l -> Hl IH]; [done|]. rewrite digits_value_cons. lia. Qed.

(** Removing the zeros at both ends. *)
Lemma trim_spec ds :
  Forall (fun c => digit c) ds -> drop_zeros ds <> [] ->
  exists lz t core,
    ds = replicate lz 48 ++ core ++ replicate t 48 /\
    rev (drop_zeros (rev (drop_zeros ds))) = core /\ trimmed core /\ core <> [] /\
    (length ds - length (drop_zeros ds) = lz)%nat.
Proof.
  intros Hd Hne. destruct (drop_zeros_split ds) as [lz E1].
  destruct (drop_zeros_split (rev (drop_zeros ds))) as [t E2].
  set (core := rev (drop_zeros (rev (drop_zeros ds)))).
  assert (E3 : drop_zeros ds = core ++ replicate t 48).
  { apply (f_equal (@rev Z)) in E2. rewrite rev_involutive, rev_app_distr in E2.
    rewrite E2 at 1. unfold core. f_equal.
    rewrite rev_alt. apply reverse_replicate. }
  assert (Hcore : core <> []).
  { intros E. unfold core in E. apply (f_equal (@rev Z)) in E. rewrite rev_involutive in E. simpl in E.
    apply drop_zeros_nil in E. apply Hne. destruct (drop_zeros ds) as [|c r] eqn:Ed; [done|].
    apply drop_zeros_head in Ed. apply Forall_rev in E. rewrite rev_involutive in E.
    by decompose_Forall_hyps. }
  exists lz, t, core. split_and!; [rewrite <- E3; exact E1|done| |done|].
  - assert (Hall : Forall (fun c => digit c) (drop_zeros ds)).
    { rewrite E1 in Hd. by apply Forall_app in Hd as [_ ?]. }
    split_and!.
    + rewrite E3 in Hall. by apply Forall_app in Hall as [? _].
    + intros c r Ec. apply (drop_zeros_head ds c (r ++ replicate t 48)). by rewrite E3, Ec.
    + intros r c Ec. unfold core in Ec. apply (f_equal (@rev Z)) in Ec.
      rewrite rev_involutive, rev_app_distr in Ec. simpl in Ec.
      by apply drop_zeros_head in Ec.
  - rewrite E1 at 1. rewrite length_app, length_replicate. lia.
Qed.


Lemma checked_i32_spec z x : checked_i32 z = Some x -> x = z /\ is_i32 z.
Proof. unfold checked_i32. intros. by case_decide; simplify_eq. Qed.

(** Normalizing keeps the number. *)
Lemma normal_digits_spec neg whole frac x n e ds :
  normal_digits neg whole frac x = Some (n, e, ds) ->
  normal n e ds /\ (whole ++ frac) <> [] /\ forallb is_digit (whole ++ frac) = true /\
  (ds = [48] \/ exists t, 0 <= t /\
     e - Z.of_nat (length ds) = x - Z.of_nat (length frac) + t /\
     digits_value (whole ++ frac) = digits_value ds * 10 ^ t) /\
  forall k, k <= x - Z.of_nat (length frac) ->
    fine k e ds /\
    signed_scaled k n e ds =
      (if neg then - digits_value (whole ++ frac) else digits_value (whole ++ frac)) *
        10 ^ (x - Z.of_nat (length frac) - k).
Proof.
  unfold normal_digits. intros E. case_decide as Hne; [done|].
  destruct (forallb is_digit (whole ++ frac)) eqn:Hd; [|done]. simpl in E.
  destruct (forallb (fun c => bool_decide (c = 48)) (whole ++ frac)) eqn:Hz.
  - simplify_eq. assert (Hv : digits_value (whole ++ frac) = 0).
    { apply zeros_value, List.Forall_forall. intros c Hc. rewrite forallb_forall in Hz.
      specialize (Hz c Hc). by apply bool_decide_eq_true in Hz. }
    split_and!; try done; [by left|by left|]. intros k Hk. rewrite Hv.
    split; [by left|]. unfold signed_scaled. rewrite scaled_zero. by destruct neg.
  - apply digits_forall in Hd as Hd'.
    assert (Hnz : drop_zeros (whole ++ frac) <> []).
    { intros E0%drop_zeros_nil. rewrite List.Forall_forall in E0.
      assert (forallb (fun c => bool_decide (c = 48)) (whole ++ frac) = true); [|congruence].
      apply forallb_forall. intros c Hc. apply bool_decide_eq_true. auto. }
    destruct (trim_spec _ Hd' Hnz) as (lz & t & core & Esplit & Ecore & Ht & Hcn & Elz).
    rewrite Ecore, Elz in E. clear Ecore Elz Hz Hnz.
    repeat (case_match; [|done]). simplify_eq.
    repeat match goal with H : checked_i32 _ = Some _ |- _ => apply checked_i32_spec in H as [-> ?] end.
    assert (Hlen : (length whole + length frac = lz + length ds + t)%nat).
    { apply (f_equal length) in Esplit. rewrite !length_app, !length_replicate in Esplit. lia. }
    assert (Hval : digits_value (whole ++ frac) = digits_value ds * 10 ^ Z.of_nat t).
    { rewrite Esplit, digits_value_app, digits_value_zeros, digits_value_app, digits_value_zeros.
      rewrite length_replicate. lia. }
    split_and!; [by right|done|done|right; exists (Z.of_nat t); split_and!; [lia|lia|done]|].
    intros k Hk. split; [right; lia|]. unfold signed_scaled, scaled. rewrite Hval.
    replace (Z.of_nat (length whole) + x - Z.of_nat lz - Z.of_nat (length ds) - k)
      with (Z.of_nat t + (x - Z.of_nat (length frac) - k)) by lia.
    rewrite Z.pow_add_r by lia. destruct n; lia.
Qed.

(** What an encoded text is. *)
Lemma encode_text_spec text x :
  encode_decimal_text text = Ok x ->
  exists n e ds c p, x = encode_normal n e ds /\ normal n e ds /\ text_number text = Some (c, p) /\
    (ds = [48] \/ exists t, 0 <= t /\ e - Z.of_nat (length ds) = p + t /\
       Z.abs c = digits_value ds * 10 ^ t) /\
    forall k, k <= p -> fine k e ds /\ signed_scaled k n e ds = c * 10 ^ (p - k).
Proof.
  unfold encode_decimal_text, text_number. intros E.
  destruct (split_decimal text) as [[[[neg whole] frac] ex]|]; [|done].
  destruct (normal_digits neg whole frac ex) as [[[n e] ds]|] eqn:En; [|done]. simplify_eq.
  destruct (normal_digits_spec _ _ _ _ _ _ _ En) as (Hn & Hne & Hd & Ht & Hk).
  rewrite decide_False, Hd by done. eexists n, e, ds, _, _. split_and!; try done.
  destruct Ht as [->|(t & Ht & He & Hv)]; [by left|right]. exists t. split_and!; [done|done|].
  rewrite <- Hv. pose proof (digits_value_range _ (proj1 (digits_forall _) Hd)). destruct neg; lia.
Qed.

(** The byte order of two encoded decimals is the order of their numbers. *)
Lemma encode_text_order s t x y a b :
  encode_decimal_text s = Ok x -> encode_decimal_text t = Ok y ->
  text_number s = Some a -> text_number t = Some b ->
  bytes_cmp x y = number_cmp a b.
Proof.
  intros Hx Hy Hs Ht.
  destruct (encode_text_spec s x Hx) as (n & e & ds & c & p & -> & Hn & Es & _ & Hk).
  destruct (encode_text_spec t y Hy) as (m & g & us & d & q & -> & Hm & Et & _ & Hl).
  rewrite Es in Hs. rewrite Et in Ht. simplify_eq. unfold number_cmp. simpl.
  destruct (Hk (Z.min p q) ltac:(lia)) as [Fk <-], (Hl (Z.min p q) ltac:(lia)) as [Fl <-].
  by apply encode_normal_order.
Qed.

Lemma encode_text_separated s t x y :
  encode_decimal_text s = Ok x -> encode_decimal_text t = Ok y -> separated x y.
Proof.
  intros Hx Hy.
  destruct (encode_text_spec s x Hx) as (n & e & ds & c & p & -> & Hn & _).
  destruct (encode_text_spec t y Hy) as (m & g & us & d & q & -> & Hm & _).
  by apply encode_normal_separated.
Qed.


(** ** Decoding *)

Lemma show_digits_spec fuel n :
  0 <= n < 10 ^ Z.of_nat fuel -> (0 < fuel)%nat ->
  Forall (fun c => digit c) (show_digits fuel n) /\ digits_value (show_digits fuel n) = n /\
  show_digits fuel n <> [].
Proof.
  revert n; induction fuel as [|fuel IH]; intros n Hn Hf; [lia|]. simpl.
  case_decide.
  - split_and!; [repeat constructor; lia|unfold digits_value; simpl; lia|done].
  - rewrite Nat2Z.inj_succ, Z.pow_succ_r in Hn by lia.
    assert (Hq : 0 <= n / 10 < 10 ^ Z.of_nat fuel)
      by (split; [apply Z.div_pos|apply Z.div_lt_upper_bound]; lia).
    assert (Hfuel : (0 < fuel)%nat) by (destruct fuel; [simpl in Hn; lia|lia]).
    destruct (IH (n / 10) Hq Hfuel) as (Hd & Hv & _). pose proof (Z.mod_pos_bound n 10).
    pose proof (Z.div_mod n 10). split_and!.
    + apply Forall_app. split; [done|]. repeat constructor; lia.
    + rewrite digits_value_app, Hv. unfold digits_value. simpl. lia.
    + by destruct (show_digits fuel (n / 10)).
Qed.

Lemma enough_digits n : 0 <= n -> n < 10 ^ Z.of_nat (S (Z.to_nat (Z.log2 n))).
Proof.
  intros Hn. destruct (decide (n = 0)) as [->|]; [done|].
  rewrite Nat2Z.inj_succ, Z2Nat.id by apply Z.log2_nonneg.
  pose proof (Z.log2_spec n ltac:(lia)) as [_ H].
  assert (2 ^ Z.succ (Z.log2 n) <= 10 ^ Z.succ (Z.log2 n)) by (apply Z.pow_le_mono_l; lia). lia.
Qed.

Lemma digit_cases c :
  digit c ->
  c = 48 \/ c = 49 \/ c = 50 \/ c = 51 \/ c = 52 \/
  c = 53 \/ c = 54 \/ c = 55 \/ c = 56 \/ c = 57.
Proof. lia. Qed.

(** The head of a text of digits is no sign. *)
Lemma digit_head (A : Type) (l : list Z) (f g h : list Z -> A) :
  Forall (fun c => digit c) l ->
  match l with 45 :: r => f r | 43 :: r => g r | _ => h l end = h l.
Proof.
  intros Hl. destruct l as [|c l]; [done|]. decompose_Forall_hyps.
  by destruct (digit_cases c ltac:(done)) as [->|[->|[->|[->|[->|[->|[->|[->|[->| ->]]]]]]]]].
Qed.

Lemma parse_show n : is_i32 n -> parse_i32 (show_int n) = Some n.
Proof.
  intros Hn. unfold show_int. case_decide.
  - destruct (show_digits_spec (S (Z.to_nat (Z.log2 (- n)))) (- n)) as (Hd & Hv & Hne);
      [split; [lia|apply enough_digits; lia]|lia|].
    unfold parse_i32. rewrite decide_False by done.
    replace (forallb is_digit _) with true by (symmetry; by apply digits_forall).
    rewrite Hv, Z.opp_involutive, decide_True by done. done.
  - destruct (show_digits_spec (S (Z.to_nat (Z.log2 n))) n) as (Hd & Hv & Hne);
      [split; [lia|apply enough_digits; lia]|lia|].
    unfold parse_i32. rewrite (digit_head _ _ (fun r => (true, r)) (fun r => (false, r)) (fun r => (false, r))) by done.
    rewrite decide_False by done.
    replace (forallb is_digit _) with true by (symmetry; by apply digits_forall).
    rewrite Hv, decide_True by done. done.
Qed.

Lemma split_at_first_none p l :
  Forall (fun c => p c = false) l -> split_at_first p l = None.
Proof. induction 1 as [|c l Hc Hl IH]; [done|]. simpl. by rewrite Hc, IH. Qed.

Lemma split_at_first_app p a c b :
  Forall (fun c => p c = false) a -> p c = true -> split_at_first p (a ++ c :: b) = Some (a, b).
Proof.
  induction 1 as [|x a Hx Ha IH]; intros Hc; simpl; [by rewrite Hc|]. by rewrite Hx, IH.
Qed.

(** The text of digits with an exponent, as the decoder writes it. *)
Definition digits_text (neg : bool) (ds : list Z) (x : Z) : list Z :=
  (if neg then [45] else []) ++ ds ++ (if decide (x <> 0) then 101 :: show_int x else []).

Lemma digits_text_number neg ds x :
  Forall (fun c => digit c) ds -> ds <> [] -> is_i32 x ->
  text_number (digits_text neg ds x) =
    Some ((if neg then - digits_value ds else digits_value ds), x).
Proof.
  intros Hd Hne Hx.
  assert (Hsplit : split_decimal (digits_text neg ds x) = Some (neg, ds, [], x)).
  { assert (He : Forall (fun c => bool_decide (c = 101) || bool_decide (c = 69) = false) ds).
    { eapply Forall_impl; [exact Hd|]. simpl. intros c Hc.
      rewrite !bool_decide_false by lia. done. }
    assert (Hp : Forall (fun c => bool_decide (c = 46) = false) ds).
    { eapply Forall_impl; [exact Hd|]. simpl. intros c Hc. rewrite bool_decide_false by lia. done. }
    assert (Hbody : forall u, u = ds ++ (if decide (x <> 0) then 101 :: show_int x else []) ->
      (let '(mantissa, exponent_part) :=
         match split_at_first (fun c => bool_decide (c = 101) || bool_decide (c = 69)) u with
         | Some (m, y) => (m, y) | None => (u, [48]) end in
       match parse_i32 exponent_part with
       | None => None
       | Some exponent10 =>
           let '(whole, fractional) :=
             match split_at_first (fun c => bool_decide (c = 46)) mantissa with
             | Some (w, f) => (w, f) | None => (mantissa, []) end in
           Some (neg, whole, fractional, exponent10)
       end) = Some (neg, ds, [], x)).
    { intros u ->. case_decide as Hz.
      - rewrite split_at_first_app, parse_show, split_at_first_none by done. done.
      - rewrite app_nil_r, split_at_first_none by done. change (parse_i32 [48]) with (Some 0).
        rewrite split_at_first_none by done. by replace x with 0 by lia. }
    unfold split_decimal, digits_text. destruct neg; simpl app; [by apply Hbody|].
    destruct ds as [|c ds]; [done|]. decompose_Forall_hyps.
    destruct (digit_cases c ltac:(done)) as [->|[->|[->|[->|[->|[->|[->|[->|[->| ->]]]]]]]]];
      by apply Hbody. }
  unfold text_number. rewrite Hsplit, app_nil_r. rewrite decide_False by done.
  replace (forallb is_digit ds) with true by (symmetry; by apply digits_forall).
  simpl. by rewrite Z.sub_0_r.
Qed.


Lemma decode_digits_positive ds r :
  Forall (fun c => digit c) ds -> decode_digits false (ds ++ 0 :: r) = Some (ds, 0 :: r).
Proof.
  induction 1 as [|c ds Hc Hd IH]; [done|]. simpl. rewrite decide_False by lia.
  replace (is_digit c) with true by (symmetry; by apply is_digit_spec). by rewrite IH.
Qed.

Lemma decode_digits_negative ds r :
  Forall (fun c => digit c) ds ->
  decode_digits true (map (not_word 8) ds ++ 255 :: r) = Some (ds, 255 :: r).
Proof.
  induction 1 as [|c ds Hc Hd IH]; [done|]. simpl. rewrite not_digit by done.
  rewrite decide_False by lia.
  replace (not_word 8 (255 - c)) with c by (rewrite not_word_sub; lia).
  replace (is_digit c) with true by (symmetry; by apply is_digit_spec). by rewrite IH.
Qed.

Lemma length_encode_normal n e ds : length (encode_normal n e ds) = (7 + length ds)%nat.
Proof.
  unfold encode_normal. simpl. rewrite length_app, length_be_bytes.
  destruct n; rewrite length_app, ?length_map; simpl; lia.
Qed.

Lemma zeros_only ds e n :
  normal n e ds -> forallb (fun c => bool_decide (c = 48)) ds = bool_decide (ds = [48]).
Proof.
  intros [(_ & _ & ->)|((_ & Hh & _) & Hne & _)]; [done|].
  destruct ds as [|c ds]; [done|]. specialize (Hh c ds eq_refl). simpl.
  rewrite (bool_decide_false (c = 48)) by done. simpl. symmetry. apply bool_decide_false. congruence.
Qed.

(** The exponent the decoder prints, in range. *)
Definition printable (e : Z) (ds : list Z) : Prop :=
  is_i32 (Z.of_nat (length ds)) /\ (ds = [48] \/ is_i32 (e - Z.of_nat (length ds))).

(** The exponent word and back. *)
Definition exponent_word (n : bool) (e : Z) : Z :=
  let biased := flip_sign 32 (as_unsigned 32 e) in if n then not_word 32 biased else biased.

Lemma exponent_word_range n e : is_i32 e -> 0 <= exponent_word n e < 256 ^ Z.of_nat 4.
Proof.
  intros He. unfold exponent_word. rewrite biased_exponent by done. unfold is_i32 in He.
  change (256 ^ Z.of_nat 4) with 4294967296.
  destruct n; [rewrite not_word_sub by lia|]; lia.
Qed.

Lemma exponent_word_back n e :
  is_i32 e ->
  as_signed 32 (flip_sign 32 (if (n : bool) then not_word 32 (exponent_word n e)
                              else exponent_word n e)) = e.
Proof.
  intros He. unfold exponent_word. rewrite biased_exponent by done. unfold is_i32 in He.
  replace (if n then _ else _) with (e + 2147483648).
  - rewrite signed_unbias by lia. lia.
  - destruct n; [|done]. rewrite !not_word_sub; rewrite ?not_word_sub; lia.
Qed.

Lemma decode_digits_body n ds r :
  Forall (fun c => digit c) ds ->
  decode_digits n ((if n then map (not_word 8) ds ++ [255] else ds ++ [0]) ++ r) =
    Some (ds, (if n then 255 else 0) :: r).
Proof.
  intros. destruct n; rewrite <- app_assoc; simpl;
    [by apply decode_digits_negative | by apply decode_digits_positive].
Qed.

Lemma decode_encode_normal n e ds r :
  normal n e ds -> printable e ds ->
  decode_decimal_text (encode_normal n e ds ++ r) =
    Ok (if decide (ds = [48]) then [48] else digits_text n ds (e - Z.of_nat (length ds)),
        length (encode_normal n e ds)).
Proof.
  intros Hn [Hl Hp]. destruct (normal_forall _ _ _ Hn) as [Hd He].
  assert (Hne : ds <> []) by (destruct Hn as [(_ & _ & ->)|(_ & ? & _)]; done).
  assert (Hlen : (1 <= length ds)%nat) by (destruct ds; simpl; [done|lia]).
  unfold decode_decimal_text. rewrite decide_False by (rewrite length_app, length_encode_normal; lia).
  rewrite length_encode_normal. unfold encode_normal. fold (exponent_word n e).
  change (byte_at 1 ((TAG_DECIMAL :: ?b :: ?l) ++ r)) with b.
  rewrite decide_False by (destruct n; lia).
  simpl app. rewrite !read_be_cons, !skipn_cons, <- !app_assoc, read_be_head
    by (by apply exponent_word_range).
  rewrite drop_app_length' by (symmetry; apply length_be_bytes).
  replace (bool_decide ((if n then 0 else 1) = 0)) with n by by destruct n.
  rewrite decode_digits_body by done.
  replace (if decide ((if n then 0 else 1) = 0) then not_word 32 (exponent_word n e) else exponent_word n e)
    with (if n then not_word 32 (exponent_word n e) else exponent_word n e) by by destruct n.
  rewrite exponent_word_back by done. rewrite decide_False by naive_solver.
  rewrite (zeros_only _ _ _ Hn). unfold checked_i32. rewrite (decide_True (P := is_i32 _)) by done.
  case_bool_decide as Hz; [rewrite decide_True by done; f_equal; f_equal; lia|].
  rewrite (decide_False (P := ds = _)) by done. destruct Hp as [?|Hp]; [done|].
  rewrite decide_True by done. unfold digits_text. do 2 f_equal; [|lia]. by destruct n.
Qed.

(** ** The decimal library *)

(** What the codec relies on: the texts of numbers are ordered as the numbers,
    stay within the format, and a text whose number is that of a decimal is
    read back as an equal decimal. *)
Class DecimalLaws (Dec : Type) `{Decimal Dec} := {
  dec_cmp_number : forall d1 d2 a b,
    text_number (dec_to_string d1) = Some a -> text_number (dec_to_string d2) = Some b ->
    dec_cmp d1 d2 = number_cmp a b;
  dec_text_length : forall d, (length (dec_to_string d) <= 43)%nat;
  dec_range : forall d c p,
    text_number (dec_to_string d) = Some (c, p) -> Z.abs c < 10 ^ 34 /\ -10000 <= p <= 10000;
  dec_parse_number : forall d t a b,
    text_number (dec_to_string d) = Some a -> text_number t = Some b -> number_cmp b a = Eq ->
    exists d' c, dec_parse t = Some d' /\ text_number (dec_to_string d') = Some c /\
      number_cmp c a = Eq;
}.

Section library.
Context {Dec : Type} `{DecimalLaws Dec}.

Lemma decimal_order (d1 d2 : Dec) x y :
  encode_decimal d1 = Ok x -> encode_decimal d2 = Ok y -> dec_cmp d1 d2 = bytes_cmp x y.
Proof.
  intros Hx Hy.
  destruct (encode_text_spec _ _ Hx) as (_ & _ & _ & c & p & _ & _ & Ec & _).
  destruct (encode_text_spec _ _ Hy) as (_ & _ & _ & c' & p' & _ & _ & Ec' & _).
  rewrite (encode_text_order _ _ _ _ _ _ Hx Hy Ec Ec'). by apply dec_cmp_number.
Qed.

Lemma in_range_printable n e ds c p :
  normal n e ds -> Z.abs c < 10 ^ 34 -> -10000 <= p <= 10000 ->
  (ds = [48] \/ exists t, 0 <= t /\ e - Z.of_nat (length ds) = p + t /\
     Z.abs c = digits_value ds * 10 ^ t) ->
  printable e ds.
Proof.
  intros Hn Hc Hp [->|(t & Ht & He & Hv)].
  { split; [unfold is_i32; simpl; lia|by left]. }
  destruct Hn as [(_ & _ & ->)|(Tt & Hne & Hi)].
  { split; [unfold is_i32; simpl; lia|by left]. }
  pose proof (scaled_range 0 (Z.of_nat (length ds)) ds Tt Hne ltac:(lia)) as Hr.
  unfold scaled in Hr. replace (Z.of_nat (length ds) - Z.of_nat (length ds) - 0) with 0 in Hr by lia.
  assert (Hl1 : 1 <= Z.of_nat (length ds)) by (destruct ds; simpl; [done|lia]).
  assert (H1 : 10 ^ (Z.of_nat (length ds) - 1) * 10 ^ t < 10 ^ 34).
  { assert (0 < 10 ^ t) by (apply Z.pow_pos_nonneg; lia).
    replace (Z.of_nat (length ds) - 1 - 0) with (Z.of_nat (length ds) - 1) in Hr by lia. nia. }
  rewrite <- Z.pow_add_r in H1 by lia. apply Z.pow_lt_mono_r_iff in H1; [|lia..].
  unfold printable, is_i32. split; [lia|right; lia].
Qed.

(** Equal numbers, from a common unit. *)
Lemma number_cmp_eq c p d q k :
  k <= p -> k <= q -> c * 10 ^ (p - k) = d * 10 ^ (q - k) -> number_cmp (c, p) (d, q) = Eq.
Proof.
  intros Hp Hq E. unfold number_cmp. simpl. apply Z.compare_eq_iff.
  set (m := Z.min p q). assert (0 < 10 ^ (m - k)) by (apply Z.pow_pos_nonneg; lia).
  apply (Z.mul_reg_r _ _ (10 ^ (m - k))); [lia|].
  rewrite <- !Z.mul_assoc, <- !Z.pow_add_r by lia.
  by replace (p - m + (m - k)) with (p - k) by lia; replace (q - m + (m - k)) with (q - k) by lia.
Qed.

Lemma decode_encode_decimal (d : Dec) x r :
  encode_decimal d = Ok x ->
  exists d', decode_decimal (x ++ r) = Ok (VDecimal128 d', length x) /\ dec_cmp d' d = Eq.
Proof.
  intros Hx. destruct (encode_text_spec _ _ Hx) as (n & e & ds & c & p & -> & Hn & Ec & Ht & Hk).
  destruct (dec_range d c p Ec) as [Hc Hp].
  pose proof (in_range_printable n e ds c p Hn Hc Hp Ht) as Hpr.
  unfold decode_decimal. rewrite decode_encode_normal by done.
  set (t := if decide (ds = [48]) then [48] else digits_text n ds (e - Z.of_nat (length ds))).
  assert (Hnum : exists b, text_number t = Some b /\ number_cmp b (c, p) = Eq).
  { unfold t. case_decide as Hz.
    - exists (0, 0). split; [done|]. apply (number_cmp_eq _ _ _ _ (Z.min p 0)); [lia..|].
      destruct (Hk (Z.min p 0) ltac:(lia)) as [_ <-]. rewrite Hz.
      unfold signed_scaled. rewrite scaled_zero. by destruct n.
    - destruct Hn as [(_ & _ & ?)|(Tt & Hne & _)]; [done|]. destruct Hpr as [_ [?|Hpr]]; [done|].
      rewrite digits_text_number by (done || apply Tt). eexists. split; [done|].
      destruct Ht as [?|(t' & Ht' & He & _)]; [done|].
      apply (number_cmp_eq _ _ _ _ p); [lia|lia|].
      destruct (Hk p ltac:(lia)) as [_ <-]. unfold signed_scaled, scaled. destruct n; lia. }
  destruct Hnum as (b & Hb & Hcmp).
  destruct (dec_parse_number d t (c, p) b Ec Hb Hcmp) as (d' & c' & -> & Ec' & Heq).
  exists d'. split; [done|]. by rewrite (dec_cmp_number _ _ _ _ Ec' Ec).
Qed.

(** A text of bounded length whose number has a bounded exponent is encoded. *)
Lemma split_at_first_length p l a b :
  split_at_first p l = Some (a, b) -> (length a + length b < length l)%nat.
Proof.
  revert a b; induction l as [|c l IH]; intros a b E; simpl in E; [done|].
  destruct (p c); simplify_eq/=; [lia|].
  destruct (split_at_first p l) as [[u v]|]; simplify_eq/=. specialize (IH u b eq_refl). lia.
Qed.

Lemma split_decimal_length text n w f x :
  split_decimal text = Some (n, w, f, x) -> (length w + length f <= length text)%nat.
Proof.
  unfold split_decimal. intros E.
  set (u := match text with 45 :: r => r | 43 :: r => r | _ => text end) in E.
  assert (Hu : (length u <= length text)%nat).
  { unfold u. repeat case_match; simpl; lia. }
  set (m := match split_at_first _ u with Some (m, y) => (m, y) | None => (u, [48]) end) in E.
  assert (Hm : (length m.1 <= length u)%nat).
  { unfold m. destruct (split_at_first _ u) as [[a b]|] eqn:Es; simpl; [|lia].
    apply split_at_first_length in Es. lia. }
  destruct m as [mant ex]. simpl in Hm. destruct (parse_i32 ex); [|done].
  destruct (split_at_first _ mant) as [[a b]|] eqn:Es; simplify_eq; simpl; [|lia].
  apply split_at_first_length in Es. lia.
Qed.

Lemma drop_zeros_length l : (length (drop_zeros l) <= length l)%nat.
Proof. induction l as [|c l IH]; simpl; [lia|]. case_decide; simpl; lia. Qed.

Lemma decimal_encodes (d : Dec) c p :
  text_number (dec_to_string d) = Some (c, p) -> is_ok (encode_decimal d) = true.
Proof.
  intros Hn. destruct (dec_range d c p Hn) as [_ Hp]. pose proof (dec_text_length d) as Hl.
  unfold encode_decimal, encode_decimal_text. unfold text_number in Hn.
  destruct (split_decimal (dec_to_string d)) as [[[[neg w] f] x]|] eqn:Es; [|done].
  apply split_decimal_length in Es. case_decide as Hne; [done|].
  destruct (forallb is_digit (w ++ f)) eqn:Hd; [|done]. simplify_eq.
  unfold normal_digits. rewrite decide_False, Hd by done. simpl.
  destruct (forallb (fun c => bool_decide (c = 48)) (w ++ f)); [done|].
  pose proof (drop_zeros_length (w ++ f)) as Hz. rewrite length_app in Hz |- *.
  unfold checked_i32, is_i32. repeat (rewrite decide_True by lia). done.
Qed.


End library.


End DecimalFacts.
