(* ===== verification/OrderedValues.v ===== *)
(** * Encoded values

    The values the codec accepts; decoding what was encoded; the order, the
    separation and the prefix ranges of encodings, of single values and of
    composite keys. *)

From stdpp Require Import base list strings.
From Stdlib Require Import ZArith Lia SpecFloat.
From S2P Require Import Prelude Types Values WalTypes OrderedCodec OrderedFacts OrderedDecimal.

Module CodecSpec.
Import Codec CodecFacts DecimalFacts.

(** ** Values *)

Section values.
Context {Dec : Type} `{DecimalLaws Dec}.

(** Values at their width, text in UTF-8, times on the clock, months and days
    that fit a byte. *)
Definition valid_value (v : Value Dec) : Prop :=
  match v with
  | VSmallInt n => - 2 ^ 15 <= n < 2 ^ 15
  | VInt n => - 2 ^ 31 <= n < 2 ^ 31
  | VBigInt n => - 2 ^ 63 <= n < 2 ^ 63
  | VFloat b => 0 <= b < 2 ^ 32
  | VDouble b => 0 <= b < 2 ^ 64
  | VString s | VFixedString s => Forall is_byte s /\ utf8_valid s = true
  | VBlob b => Forall is_byte b
  | VDate d => - 2 ^ 31 <= d_year d < 2 ^ 31 /\ is_byte (d_month d) /\ is_byte (d_day d)
  | VTime t => valid_time t
  | VDateTime dt =>
      - 2 ^ 31 <= dt_year dt < 2 ^ 31 /\ is_byte (dt_month dt) /\ is_byte (dt_day dt) /\
      valid_time (dt_time dt)
  | VUuid u => length u = 16%nat /\ Forall is_byte u
  | VComposite k t => Val.composite_type k t = true
  | _ => True
  end.

Definition is_decimal (v : Value Dec) : bool := match v with VDecimal128 _ => true | _ => false end.

Definition canonical_value (v : Value Dec) : Value Dec :=
  match v with
  | VFloat b => VFloat (canonical Float.f32 b)
  | VDouble b => VDouble (canonical Float.f64 b)
  | _ => v
  end.

(** [v'] is [v] read back: an equal decimal, the one NaN and the one zero of
    each float type, otherwise the same value. *)
Definition reads_back (v v' : Value Dec) : Prop :=
  match v, v' with
  | VDecimal128 d, VDecimal128 d' => dec_cmp d' d = Eq
  | VDecimal128 _, _ => False
  | _, _ => v' = canonical_value v
  end.

Lemma signed_field w n z r :
  1 <= w -> 2 ^ w = 256 ^ Z.of_nat n -> - 2 ^ (w - 1) <= z < 2 ^ (w - 1) ->
  as_signed w (flip_sign w (read_be 0 n (be_bytes n (flip_sign w (as_unsigned w z)) ++ r))) = z.
Proof.
  intros Hw Hn Hz. pose proof (word_half w Hw) as [W2 W0].
  rewrite signed_bias, read_be_head by lia. rewrite signed_unbias by lia. lia.
Qed.

#[local] Opaque be_bytes.
Local Arguments read_be : simpl never.
Local Arguments byte_at : simpl never.
Local Arguments slice : simpl never.
#[local] Opaque time_of_micros.
Local Arguments encode_escaped_bytes : simpl never.

Lemma decode_text_encode tag (s r : list Z) (mk : list Z -> Value Dec) :
  utf8_valid s = true ->
  decode_text (tag :: encode_escaped_bytes s ++ r) mk =
    Ok (mk s, S (length (encode_escaped_bytes s))).
Proof.
  intros Hu. unfold decode_text, decode_escaped_bytes. rewrite skipn_cons, drop_0.
  by rewrite decode_escaped_encode, Hu.
Qed.

Lemma byte_at_cons off b l : byte_at (S off) (b :: l) = byte_at off l.
Proof. done. Qed.

Lemma byte_at_0 b l : byte_at 0 (b :: l) = b.
Proof. done. Qed.

Lemma byte_field b : is_byte b -> as_unsigned 8 b = b.
Proof. intros. unfold as_unsigned. by apply Z.mod_small. Qed.

(** Reading the fields of a fixed layout one after the other. *)
Ltac next_fields :=
  repeat first
    [ rewrite read_be_cons | rewrite byte_at_cons | rewrite byte_at_0
    | rewrite read_be_head by (first [assumption | lia])
    | rewrite read_be_skip by (rewrite length_be_bytes; lia); rewrite length_be_bytes; cbn [Nat.sub]
    | rewrite byte_at_past by (rewrite length_be_bytes; lia); rewrite length_be_bytes; cbn [Nat.sub]
    | progress cbn [app] ].

Ltac read_fields :=
  unfold need; rewrite decide_False by (simpl; rewrite ?length_app; simpl;
    rewrite ?length_app, ?length_be_bytes; simpl; rewrite ?length_be_bytes; lia);
  rewrite <- ?app_assoc; next_fields.

Lemma decode_encode_exact nl v x r :
  valid_value v -> is_decimal v = false -> encode_value nl v = Ok x ->
  decode_value_inner (x ++ r) = Ok (canonical_value v, length x).
Proof.
  intros Hv Hd He. destruct v; simplify_eq/=;
    rewrite ?length_app, ?length_be_bytes; simpl.
  - by destruct nl.
  - by destruct nl, n.
  - by destruct b.
  - read_fields. by rewrite signed_field.
  - read_fields. by rewrite signed_field.
  - read_fields. by rewrite signed_field.
  - pose proof (encode_ordered_range Float.f32 ltac:(done) ltac:(done) bits Hv).
    read_fields. unfold decode_f32_ordered, encode_f32_ordered.
    by rewrite decode_encode_ordered.
  - pose proof (encode_ordered_range Float.f64 ltac:(done) ltac:(done) bits Hv).
    read_fields. unfold decode_f64_ordered, encode_f64_ordered.
    by rewrite decode_encode_ordered.
  - apply decode_text_encode. by destruct Hv.
  - apply decode_text_encode. by destruct Hv.
  - unfold decode_escaped_bytes. by rewrite skipn_cons, drop_0, decode_escaped_encode.
  - destruct Hv as (Hy & Hm & Hd'). destruct d as [y m d]; simpl in *.
    read_fields. by rewrite signed_field, !byte_field.
  - pose proof (total_micros_range _ Hv). read_fields. by rewrite time_of_total_micros.
  - destruct Hv as (Hy & Hm & Hd' & Ht). pose proof (total_micros_range _ Ht).
    read_fields. rewrite signed_field by done. next_fields.
    rewrite time_of_total_micros, !byte_field by done. rewrite length_be_bytes. by destruct dt.
  - destruct Hv as [Hl _]. unfold need. rewrite decide_False.
    + unfold slice. rewrite skipn_cons, drop_0, <- Hl, take_app_length. done.
    + simpl. rewrite length_app. lia.
Qed.

(** Decoding consumes exactly the encoding and gives the value back. *)
Lemma decode_encode_value nl v x r :
  valid_value v -> encode_value nl v = Ok x ->
  exists v', decode_value_inner (x ++ r) = Ok (v', length x) /\ reads_back v v'.
Proof.
  intros Hv Hx. destruct (is_decimal v) eqn:Hd.
  - destruct v; try done. cbn [encode_value] in Hx.
    destruct (decode_encode_decimal d x r Hx) as (d' & Hdec & Heq). exists (VDecimal128 d').
    split; [|done]. rewrite <- Hdec.
    destruct (encode_text_spec _ _ Hx) as (n & e & ds & c & p & -> & _). done.
  - exists (canonical_value v). split; [by eapply decode_encode_exact|]. by destruct v.
Qed.

(** *** Order *)

(** Every encoding starts with the priority of its type, nulls aside. *)
Lemma encode_tag v x :
  encode v = Ok x -> exists body, x = Val.type_priority v :: body.
Proof.
  destruct v; simpl; intros; simplify_eq/=; try by eexists.
  unfold encode, encode_value, encode_decimal, encode_decimal_text in *.
  repeat case_match; simplify_eq. by eexists.
Qed.

(** The order of two values does not depend on a conversion between number
    types, nor on the two kinds of bad data, which [Ord] does not distinguish. *)
Definition exact_pair (a b : Value Dec) : bool :=
  match Val.as_number a, Val.as_number b with
  | Some _, Some _ => bool_decide (Val.type_priority a = Val.type_priority b)
  | _, _ =>
      match a, b with
      | VNull NBadData, VNull NBadType | VNull NBadType, VNull NBadData => false
      | _, _ => true
      end
  end.

Lemma priority_decides a b x y :
  encode a = Ok x -> encode b = Ok y -> exact_pair a b = true ->
  Val.type_priority a <> Val.type_priority b ->
  Val.value_cmp a b = Some (bytes_cmp x y).
Proof.
  intros Hx Hy He Hp. destruct (encode_tag _ _ Hx) as [u ->], (encode_tag _ _ Hy) as [v ->].
  assert (E : Val.value_cmp a b = Some (Val.cmp_by_type_priority a b)).
  { clear Hy. unfold exact_pair in He.
    destruct a; try done; destruct b; try done; simpl in *; try (by apply bool_decide_eq_true in He). }
  rewrite E. unfold Val.cmp_by_type_priority. simpl. by destruct (Z.compare_spec (Val.type_priority a) (Val.type_priority b)).
Qed.

Lemma signed_order w n a b :
  1 <= w -> 2 ^ w = 256 ^ Z.of_nat n ->
  - 2 ^ (w - 1) <= a < 2 ^ (w - 1) -> - 2 ^ (w - 1) <= b < 2 ^ (w - 1) ->
  bytes_cmp (be_bytes n (flip_sign w (as_unsigned w a))) (be_bytes n (flip_sign w (as_unsigned w b)))
  = Z.compare a b.
Proof.
  intros Hw Hn Ha Hb. pose proof (word_half w Hw) as [W2 W0].
  rewrite !signed_bias, bytes_cmp_be by lia. apply compare_shift.
Qed.

Lemma bytes_cmp_app_len p q x y :
  length p = length q ->
  bytes_cmp (p ++ x) (q ++ y) = Val.then_cmp (bytes_cmp p q) (bytes_cmp x y).
Proof. intros. rewrite bytes_cmp_app by done. unfold Val.then_cmp. by destruct (bytes_cmp p q). Qed.

Lemma null_order m n :
  exact_pair (VNull m) (VNull n) = true ->
  Val.cmp_null m n = bytes_cmp [TAG_NULL; encode_null_type m] [TAG_NULL; encode_null_type n].
Proof. by destruct m, n. Qed.

Lemma float_order f n a b :
  0 < Float.frac f -> 1 < Float.expo f -> 2 ^ Float.width f = 256 ^ Z.of_nat n ->
  0 <= a < 2 ^ Float.width f -> 0 <= b < 2 ^ Float.width f ->
  bytes_cmp (be_bytes n (encode_ordered f a)) (be_bytes n (encode_ordered f b)) =
    Float.total_cmp (Float.of_bits f a) (Float.of_bits f b).
Proof.
  intros Hf He Hn Ha Hb.
  rewrite bytes_cmp_be by (rewrite <- Hn; by apply encode_ordered_range).
  by apply encode_ordered_cmp.
Qed.

Lemma date_order y m d y' m' d' :
  bytes_cmp (be_bytes 4 (flip_sign 32 (as_unsigned 32 y)) ++ [m; d])
    (be_bytes 4 (flip_sign 32 (as_unsigned 32 y')) ++ [m'; d']) =
  Val.then_cmp (bytes_cmp (be_bytes 4 (flip_sign 32 (as_unsigned 32 y)))
                  (be_bytes 4 (flip_sign 32 (as_unsigned 32 y'))))
    (Val.then_cmp (Z.compare m m') (Z.compare d d')).
Proof.
  rewrite bytes_cmp_app_len by by rewrite !length_be_bytes. f_equal. simpl.
  unfold Val.then_cmp. by destruct (Z.compare m m'), (Z.compare d d').
Qed.

Lemma bytes_cmp_app_two p q m d m' d' x y :
  length p = length q ->
  bytes_cmp (p ++ m :: d :: x) (q ++ m' :: d' :: y) =
    Val.then_cmp (bytes_cmp (p ++ [m; d]) (q ++ [m'; d'])) (bytes_cmp x y).
Proof.
  intros Hl. rewrite <- bytes_cmp_app_len by (rewrite !length_app, Hl; done).
  by rewrite <- !app_assoc.
Qed.

Lemma same_type_order a b x y :
  valid_value a -> valid_value b ->
  encode a = Ok x -> encode b = Ok y -> exact_pair a b = true ->
  Val.type_priority a = Val.type_priority b ->
  Val.value_cmp a b = Some (bytes_cmp x y).
Proof.
  intros Ha Hb Hx Hy He Hp. unfold encode in *.
  destruct a; try done; destruct b; try done; cbn [encode_value] in Hx, Hy;
    try (cbn [Val.value_cmp Val.as_number]; f_equal; by apply decimal_order);
    injection Hx as <-; injection Hy as <-; cbn [Val.value_cmp Val.as_number]; f_equal.
  - by apply null_order.
  - by destruct b0, b.
  - rewrite bytes_cmp_cons. by rewrite signed_order.
  - rewrite bytes_cmp_cons. by rewrite signed_order.
  - rewrite bytes_cmp_cons. by rewrite signed_order.
  - rewrite bytes_cmp_cons. symmetry. by apply float_order.
  - rewrite bytes_cmp_cons. symmetry. by apply float_order.
  - destruct Ha, Hb. rewrite bytes_cmp_cons. by rewrite escaped_order.
  - destruct Ha, Hb. rewrite bytes_cmp_cons. by rewrite escaped_order.
  - rewrite bytes_cmp_cons. by rewrite escaped_order.
  - destruct Ha as (? & ? & ?), Hb as (? & ? & ?).
    by rewrite bytes_cmp_cons, date_order, signed_order, !byte_field.
  - rewrite bytes_cmp_cons, bytes_cmp_be by (by apply total_micros_range).
    by rewrite total_micros_cmp.
  - destruct Ha as (? & ? & ? & ?), Hb as (? & ? & ? & ?).
    rewrite bytes_cmp_cons, bytes_cmp_app_two by by rewrite !length_be_bytes.
    rewrite date_order, signed_order, !byte_field by done.
    rewrite bytes_cmp_be, total_micros_cmp by (done || by apply total_micros_range).
    unfold Val.cmp_datetime, Val.cmp_time, Val.then_cmp. simpl. by repeat case_match.
Qed.

(** *** Separation *)

Lemma encode_length nl v x :
  encode_value nl v = Ok x -> valid_value v ->
  match v with
  | VString s => x = TAG_STRING :: encode_escaped_bytes s
  | VFixedString s => x = TAG_FIXED_STRING :: encode_escaped_bytes s
  | VBlob s => x = TAG_BLOB :: encode_escaped_bytes s
  | VDecimal128 _ => True
  | _ => length x =
      match v with
      | VEmpty => if nl then 2 else 1 | VNull _ | VBool _ => 2 | VSmallInt _ => 3
      | VInt _ | VFloat _ => 5 | VBigInt _ | VDouble _ | VTime _ => 9 | VDate _ => 7
      | VDateTime _ => 15 | _ => 17
      end%nat
  end.
Proof.
  intros Hx Hv. destruct v; simplify_eq/=; try done;
    rewrite ?length_app, ?length_be_bytes; simpl; rewrite ?length_be_bytes; try done.
  - by destruct nl.
  - by destruct Hv as [-> _].
Qed.

Lemma encode_separated_exact nl a b x y :
  valid_value a -> valid_value b -> is_decimal a = false -> is_decimal b = false ->
  encode_value nl a = Ok x -> encode_value nl b = Ok y -> separated x y.
Proof.
  intros Ha Hb Da Db Hx Hy.
  pose proof (encode_length _ _ _ Hx Ha) as Lx. pose proof (encode_length _ _ _ Hy Hb) as Ly.
  destruct a; try done; destruct b; try done;
    try (apply separated_length; rewrite Lx, Ly; done);
    try (rewrite Lx, Ly; first [apply separated_diff; done | apply separated_cons; apply escaped_separated; naive_solver]);
    clear Lx Ly; cbn [encode_value] in Hx, Hy; injection Hx as <-; injection Hy as <-;
    try (apply separated_diff; by destruct nl).
  all: destruct nl; first [by apply separated_length | by apply separated_diff].
Qed.

(** The first byte of an encoding, by type. *)
Lemma encode_value_tag nl v x :
  encode_value nl v = Ok x -> exists tag body, x = tag :: body /\ (is_decimal v = true <-> tag = TAG_DECIMAL).
Proof.
  destruct (is_decimal v) eqn:Hd.
  - destruct v; try done. cbn [encode_value]. intros Hx.
    destruct (encode_text_spec _ _ Hx) as (n & e & ds & c & p & -> & _). by eexists _, _.
  - intros Hx. destruct v; simplify_eq/=; try (by eexists _, _); destruct nl; by eexists _, _.
Qed.

(** No encoding runs into another: what follows two different encodings does
    not change their order. *)
Lemma encode_separated nl a b x y :
  valid_value a -> valid_value b ->
  encode_value nl a = Ok x -> encode_value nl b = Ok y -> separated x y.
Proof.
  intros Ha Hb Hx Hy. destruct (is_decimal a) eqn:Da, (is_decimal b) eqn:Db.
  - destruct a; try done; destruct b; try done. exact (encode_text_separated _ _ _ _ Hx Hy).
  - destruct (encode_value_tag _ _ _ Hx) as (t & u & -> & Ht), (encode_value_tag _ _ _ Hy) as (t' & u' & -> & Ht').
    apply separated_diff. intros ->. rewrite Da in Ht. rewrite Db in Ht'. naive_solver.
  - destruct (encode_value_tag _ _ _ Hx) as (t & u & -> & Ht), (encode_value_tag _ _ _ Hy) as (t' & u' & -> & Ht').
    apply separated_diff. intros ->. rewrite Da in Ht. rewrite Db in Ht'. naive_solver.
  - by apply (encode_separated_exact nl a b).
Qed.

(** Order within and across types. *)
Lemma encode_order a b x y :
  valid_value a -> valid_value b -> exact_pair a b = true ->
  encode a = Ok x -> encode b = Ok y ->
  Val.value_cmp a b = Some (bytes_cmp x y).
Proof.
  intros Ha Hb He Hx Hy. destruct (decide (Val.type_priority a = Val.type_priority b)).
  - by apply same_type_order.
  - by apply priority_decides.
Qed.

(** *** Types *)

Definition is_null_value (v : Value Dec) : bool :=
  match v with VNull _ | VEmpty => true | _ => false end.

(** A decimal is a number, not a NaN or an infinity. *)
Definition numeric_decimal (v : Value Dec) : bool :=
  match v with
  | VDecimal128 d => match text_number (dec_to_string d) with Some _ => true | None => false end
  | _ => true
  end.

(** [C40] The values the codec accepts are those of the types
    [supports_ordered_key] lists, and nulls: for a value of its declared type
    that is not a decimal NaN or infinity, encoding succeeds exactly then. *)
Theorem encode_supported (v : Value Dec) :
  valid_value v -> numeric_decimal v = true ->
  is_ok (encode v) = supports_ordered_key (Val.get_type v) || is_null_value v.
Proof.
  intros Hv Hn. destruct v; try done; simpl in *.
  - destruct (text_number (dec_to_string d)) as [[c p]|] eqn:E; [|done].
    exact (decimal_encodes d c p E).
  - by destruct k, t.
Qed.

(** A decimal whose text is no number is refused although its type is listed. *)
Lemma encode_nan_decimal (d : Dec) :
  text_number (dec_to_string d) = None ->
  is_ok (encode (VDecimal128 d)) = false /\ supports_ordered_key TyDecimal128 = true.
Proof.
  intros E. split; [|done]. unfold encode. simpl.
  destruct (encode_decimal d) as [x|] eqn:Ex; [|done].
  destruct (encode_text_spec _ _ Ex) as (n & e & ds & c & p & _ & _ & Ec & _). congruence.
Qed.

(** [C23] A valid value that was encoded, with nulls first or last, is decoded to
    itself and the whole encoding is consumed: an equal decimal, the single NaN
    and the single zero of a float type, and otherwise the same value. *)
Theorem encode_roundtrip (nl : bool) (v : Value Dec) x :
  valid_value v -> encode_value nl v = Ok x ->
  exists v', decode x = Ok v' /\ reads_back v v'.
Proof.
  intros Hv Hx. destruct (decode_encode_value nl v x [] Hv Hx) as (v' & Hd & Hr).
  exists v'. split; [|done]. unfold decode. rewrite app_nil_r in Hd. rewrite Hd.
  rewrite decide_False; [done|]. intros E. by apply E.
Qed.

(** [C7] The codec preserves order: the lexicographic order of the encodings of
    two valid values is their order as values, within a type and across types,
    unless the order itself converts between number types or ignores the kind
    of two bad nulls. *)
Theorem encode_order_preserving (a b : Value Dec) x y :
  valid_value a -> valid_value b -> exact_pair a b = true ->
  encode a = Ok x -> encode b = Ok y ->
  Val.value_cmp a b = Some (bytes_cmp x y).
Proof. apply encode_order. Qed.


(** *** Prefix ranges *)

(** The data of a text or blob value. *)
Definition text_data (v : Value Dec) : option (list Z) :=
  match v with VString s | VFixedString s | VBlob s => Some s | _ => None end.

Lemma prefix_bounds_text tag data :
  prefix_upper_bound [tag] = [tag + 1] ->
  match decode_escaped_bytes (tag :: encode_escaped_bytes data) 1 with
  | Err e => Err e
  | Ok (_, terminator_end) =>
      let d := slice 1 (terminator_end - 2 - 1) (tag :: encode_escaped_bytes data) in
      Ok (tag :: encode_escaped_bytes data,
          if decide (d = []) then prefix_upper_bound [tag] else tag :: prefix_upper_bound d)
  end =
  Ok (tag :: encode_escaped_bytes data,
      if decide (data = []) then [tag + 1] else tag :: prefix_upper_bound (escape data)).
Proof.
  intros Ht. unfold decode_escaped_bytes. rewrite skipn_cons, drop_0.
  pose proof (decode_escaped_encode data []) as Hd. rewrite app_nil_r in Hd. rewrite Hd.
  assert (E : slice 1 (1 + length (encode_escaped_bytes data) - 2 - 1) (tag :: encode_escaped_bytes data)
              = escape data).
  { unfold slice, encode_escaped_bytes. fold (escape data). rewrite skipn_cons, drop_0, length_app. simpl.
    replace (length (escape data) + 2 - 1 - 1)%nat with (length (escape data)) by lia.
    by rewrite take_app_length. }
  rewrite E, Ht. simpl. repeat case_decide; try done.
  - exfalso. destruct data as [|b l]; [done|]. rewrite escape_cons in *. by case_decide.
  - by subst.
Qed.

Lemma bytes_cmp_prefix_le p s k : bytes_cmp (p ++ s) k <> Gt -> bytes_cmp p k <> Gt.
Proof.
  revert k; induction p as [|b p IH]; intros [|c k]; simpl; try done.
  destruct (Z.compare b c); [apply IH|done..].
Qed.

(** Text: the keys between the bounds are those of the values whose data
    starts with the prefix. *)
Lemma text_range tag p v r :
  Forall is_byte p -> Forall is_byte v -> last p <> Some 255 ->
  (bytes_cmp (tag :: encode_escaped_bytes p) (tag :: encode_escaped_bytes v ++ r) <> Gt /\
   bytes_cmp (tag :: encode_escaped_bytes v ++ r)
     (if decide (p = []) then [tag + 1] else tag :: prefix_upper_bound (escape p)) = Lt) <->
  p `prefix_of` v.
Proof.
  intros Hp Hv Hl. rewrite bytes_cmp_cons. case_decide as Hne.
  - subst. assert (Hhi : bytes_cmp (tag :: encode_escaped_bytes v ++ r) [tag + 1] = Lt).
    { simpl. by replace (Z.compare tag (tag + 1)) with Lt by (symmetry; apply Z.compare_lt_iff; lia). }
    rewrite Hhi. split; [intros _; apply prefix_nil|]. intros _. split; [|done].
    pose proof (escaped_cmp [] v [] r ltac:(constructor) Hv) as E. rewrite app_nil_r in E.
    rewrite E. by destruct v, r.
  - destruct (exists_last Hne) as (l & b & ->). rewrite last_snoc in Hl.
    rewrite bytes_cmp_cons. rewrite <- (escape_prefix (l ++ [b]) v r Hv).
    destruct (escape_last l b ltac:(naive_solver)) as (q & c & Hq & Hc). split.
    + intros [Hlo Hhi]. unfold encode_escaped_bytes in Hlo. fold (escape (l ++ [b])) in Hlo.
      apply bytes_cmp_prefix_le in Hlo. rewrite Hq in *. by apply prefix_range_last.
    + intros Hpre. split.
      * rewrite escape_prefix in Hpre by done. destruct Hpre as [w ->].
        pose proof (escaped_cmp (l ++ [b]) ((l ++ [b]) ++ w) [] r Hp Hv) as E.
        rewrite app_nil_r in E. rewrite E. clear. unfold then_bytes.
        assert (Hc : bytes_cmp (l ++ [b]) ((l ++ [b]) ++ w) = match w with [] => Eq | _ => Lt end).
        { induction (l ++ [b]) as [|x y IH]; simpl; [by destruct w|]. by rewrite Z.compare_refl. }
        rewrite Hc. by destruct w, r.
      * rewrite Hq in *. by apply prefix_range_last.
Qed.


(** [p] is a prefix of [v]: of its data for text, the same value otherwise. *)
Definition value_prefix (p v : Value Dec) : Prop :=
  match text_data p, text_data v with
  | Some a, Some b => a `prefix_of` b
  | _, _ => Val.value_cmp p v = Some Eq
  end.

(** The prefix ends with a byte that can be incremented. *)
Definition incrementable (p : Value Dec) : Prop :=
  match text_data p with Some a => last a <> Some 255 | None => True end.

Lemma encode_bytes v x :
  valid_value v -> encode v = Ok x -> text_data v = None -> is_decimal v = false -> Forall is_byte x.
Proof.
  unfold encode, is_byte, valid_value. intros Hv Hx Ht Hd.
  destruct v; simplify_eq/=; repeat first
    [ apply Forall_app; split | apply be_bytes_byte | apply Z.mod_pos_bound; lia
    | constructor | done | lia ].
  - by destruct n.
  - by destruct n.
  - by destruct b.
  - by destruct b.
  - apply Hv.
Qed.

Lemma fixed_range p v lo x r :
  valid_value p -> valid_value v -> exact_pair p v = true ->
  Val.type_priority p = Val.type_priority v -> text_data p = None -> is_decimal p = false ->
  encode p = Ok lo -> encode v = Ok x -> Forall is_byte r ->
  (bytes_cmp lo (x ++ r) <> Gt /\ bytes_cmp (x ++ r) (prefix_upper_bound lo) = Lt) <->
  Val.value_cmp p v = Some Eq.
Proof.
  intros Hp Hv He Ht Hx Hd Elo Ex Hr.
  assert (Htv : text_data v = None) by (destruct p; try done; by destruct v).
  assert (Hdv : is_decimal v = false) by (destruct p; try done; by destruct v).
  assert (Hlen : length lo = length x).
  { pose proof (encode_length _ _ _ Elo Hp). pose proof (encode_length _ _ _ Ex Hv).
    destruct p; try done; destruct v; try done; congruence. }
  rewrite prefix_range; [|by apply (encode_bytes p)|apply Forall_app; split; [by apply (encode_bytes v)|done]
    |rewrite length_app; lia|].
  - rewrite (encode_order p v lo x) by done. split.
    + intros [s E]. f_equal. apply bytes_cmp_eq_iff. by apply app_inj_1 in E as [-> _].
    + intros [= Eq%bytes_cmp_eq_iff]. subst. apply prefix_app_r. done.
  - destruct (encode_tag _ _ Elo) as [body ->]. intros Hff. decompose_Forall_hyps.
    by destruct p.
Qed.

(** [C39] Prefix scans are exact: for a text or blob prefix whose last byte can
    be incremented, the keys of values of that type that lie in the range of
    [prefix_bounds], whatever follows them, are those of the values whose data
    starts with the prefix; for a value of a fixed-length type, those of the
    equal values. *)
Theorem prefix_bounds_exact (p v : Value Dec) lo hi x r :
  valid_value p -> valid_value v -> exact_pair p v = true -> incrementable p ->
  Val.type_priority p = Val.type_priority v ->
  prefix_bounds p = Ok (lo, hi) -> encode v = Ok x -> Forall is_byte r ->
  (bytes_cmp lo (x ++ r) <> Gt /\ bytes_cmp (x ++ r) hi = Lt) <-> value_prefix p v.
Proof.
  intros Hp Hv He Hi Ht Hb Hx Hr. unfold value_prefix.
  destruct (text_data p) as [a|] eqn:Ha.
  - unfold incrementable in Hi. rewrite Ha in Hi.
    destruct p; try done; destruct v; try done; unfold encode in Hx; cbn [encode_value] in Hx;
      injection Hx as <-; injection Ha as ->; unfold prefix_bounds, encode in Hb;
      cbn [encode_value byte_at nth] in Hb;
      rewrite prefix_bounds_text in Hb by done; injection Hb as <- <-; simpl text_data;
      apply text_range; first [apply Hp | apply Hv | done].
  - assert (Hd : is_decimal p = false) by by destruct p.
    assert (Hlo : encode p = Ok lo /\ hi = prefix_upper_bound lo).
    { destruct p; try done; unfold prefix_bounds in Hb; destruct (encode _) eqn:E; by simplify_eq. }
    destruct Hlo as [Elo ->]. by apply fixed_range.
Qed.


(** *** Composite keys *)

(** Fields compared in order. *)
Fixpoint values_cmp (us vs : list (Value Dec)) : option comparison :=
  match us, vs with
  | [], [] => Some Eq
  | u :: us', v :: vs' =>
      match Val.value_cmp u v with Some Eq => values_cmp us' vs' | c => c end
  | _, _ => None
  end.

Definition entity_bytes (e : option EntityRef) : list Z :=
  match e with Some e => encode_entity e | None => [] end.

Lemma encode_values_order us vs x y r s :
  Forall valid_value us -> Forall valid_value vs ->
  Forall2 (fun u v => exact_pair u v = true) us vs ->
  encode_values us false = Ok x -> encode_values vs false = Ok y ->
  exists c, values_cmp us vs = Some c /\ bytes_cmp (x ++ r) (y ++ s) = then_bytes c r s.
Proof.
  intros Hu Hv He. revert x y Hu Hv.
  induction He as [|u v us vs Huv He IH]; intros x y Hu Hv Hx Hy; simplify_eq/=.
  { by exists Eq. }
  decompose_Forall_hyps.
  destruct (encode_value false u) as [xu|] eqn:Eu; [|done].
  destruct (encode_value false v) as [xv|] eqn:Ev; [|done].
  destruct (encode_values us false) as [xs|]; [|done].
  destruct (encode_values vs false) as [ys|]; [|done]. simplify_eq.
  destruct (IH xs ys ltac:(done) ltac:(done) eq_refl eq_refl) as (c & Hc & Hrest).
  rewrite (encode_order u v xu xv) by done. rewrite <- !app_assoc.
  rewrite (encode_separated false u v xu xv) by done. unfold then_bytes at 1.
  destruct (bytes_cmp xu xv); [|by eexists..]. by exists c.
Qed.

(** Composite keys sort by their fields in order, and keys with equal
    fields by the entity that ends them: no field runs into the next. *)
Theorem composite_order (us vs : list (Value Dec)) e f x y :
  Forall valid_value us -> Forall valid_value vs ->
  Forall2 (fun u v => exact_pair u v = true) us vs ->
  encode_composite us e false = Ok x -> encode_composite vs f false = Ok y ->
  exists c, values_cmp us vs = Some c /\
    bytes_cmp x y = match c with Eq => bytes_cmp (entity_bytes e) (entity_bytes f) | _ => c end.
Proof.
  unfold encode_composite. intros Hu Hv He Hx Hy.
  destruct (encode_values us false) as [xs|] eqn:Eu; [|done].
  destruct (encode_values vs false) as [ys|] eqn:Ev; [|done]. simplify_eq.
  by apply encode_values_order.
Qed.

(** Decoding a composite key field by field. *)
Fixpoint decode_fields (n : nat) (bytes : list Z) : result (list (Value Dec) * list Z) StorageError :=
  match n with
  | O => Ok ([], bytes)
  | S n' =>
      match decode_value_inner bytes with
      | Err e => Err e
      | Ok (v, consumed) =>
          match decode_fields n' (drop consumed bytes) with
          | Ok (vs, rest) => Ok (v :: vs, rest)
          | Err e => Err e
          end
      end
  end.

Lemma decode_composite nl us x r :
  Forall valid_value us -> encode_values us nl = Ok x ->
  exists vs, decode_fields (length us) (x ++ r) = Ok (vs, r) /\ Forall2 reads_back us vs.
Proof.
  intros Hu. revert x. induction Hu as [|u us Hv Hu IH]; intros x Hx; simplify_eq/=.
  { by exists []. }
  destruct (encode_value nl u) as [xu|] eqn:Eu; [|done].
  destruct (encode_values us nl) as [xs|]; [|done]. simplify_eq. rewrite <- app_assoc.
  destruct (decode_encode_value nl u xu (xs ++ r) Hv Eu) as (v & -> & Hr).
  rewrite drop_app_length. destruct (IH xs eq_refl) as (vs & -> & Hrs).
  exists (v :: vs). split; [done|]. by constructor.
Qed.

(** With [null_last], nulls and empty values follow every other value, and the
    order of the others does not change. *)
Lemma null_last_order (a b : Value Dec) x y :
  encode_null_last a = Ok x -> encode_null_last b = Ok y ->
  is_null_value a = false ->
  encode a = Ok x /\ (is_null_value b = true -> bytes_cmp x y = Lt).
Proof.
  unfold encode_null_last, encode. intros Hx Hy Ha. split; [by destruct a|]. intros Hb.
  assert (Hy' : exists body, y = 255 :: body) by (destruct b; simplify_eq/=; by eexists).
  destruct Hy' as [body ->]. assert (Hx' : encode a = Ok x) by by destruct a.
  destruct (encode_tag a x Hx') as [u ->]. simpl.
  assert (Hp : Val.type_priority a < 255) by (destruct a; simpl; try lia; by destruct k).
  by replace (Z.compare (Val.type_priority a) 255) with Lt by (symmetry; by apply Z.compare_lt_iff).
Qed.


End values.


End CodecSpec.
