(* ===== verification/OrderedExample.v ===== *)
(** * Keys on concrete values

    A decimal library of whole numbers below [10^30] that satisfies
    [DecimalLaws], the theorems of [OrderedValues] at concrete values, and
    values whose order, equality or encoding is not what the comments say. *)

From stdpp Require Import base list strings.
From Stdlib Require Import ZArith Lia SpecFloat.
From S2P Require Import Prelude Types Values WalTypes OrderedCodec OrderedFacts OrderedDecimal.
From S2P Require Import OrderedValues.

Module CodecExample.
Import Codec CodecFacts DecimalFacts CodecSpec.

(** ** Whole decimals *)

Definition in_format (z : Z) : bool := bool_decide (Z.abs z < 10 ^ 30).

(** ["NaN"]. *)
Definition nan_text : list Z := [78; 97; 78].

Definition whole_value (c p : Z) : Z := if decide (0 <= p) then c * 10 ^ p else c / 10 ^ (- p).

#[export] Instance whole : Decimal Z := {
  dec_to_string z := if in_format z then show_int z else nan_text;
  dec_parse t :=
    match text_number t with Some (c, p) => Some (whole_value c p) | None => None end;
  dec_cmp := Z.compare;
  dec_eqb := Z.eqb;
}.

Lemma length_show_digits fuel n k :
  0 <= n < 10 ^ Z.of_nat (S k) -> (length (show_digits fuel n) <= S k)%nat.
Proof.
  revert n k; induction fuel as [|fuel IH]; intros n k Hn; simpl; [lia|]. case_decide; [simpl; lia|].
  rewrite Nat2Z.inj_succ, Z.pow_succ_r in Hn by lia. rewrite length_app. simpl.
  destruct k as [|k]; [simpl in Hn; lia|].
  assert (0 <= n / 10 < 10 ^ Z.of_nat (S k))
    by (split; [apply Z.div_pos|apply Z.div_lt_upper_bound]; lia).
  specialize (IH (n / 10) k ltac:(done)). lia.
Qed.

(** The text of a whole number is its number with exponent 0. *)
Lemma show_int_number z : is_i32 0 -> text_number (show_int z) = Some (z, 0).
Proof.
  intros H0. unfold show_int. case_decide.
  - destruct (show_digits_spec (S (Z.to_nat (Z.log2 (- z)))) (- z)) as (Hd & Hv & Hne);
      [split; [lia|apply enough_digits; lia]|lia|].
    pose proof (digits_text_number true _ 0 Hd Hne H0) as E. unfold digits_text in E.
    rewrite decide_False, app_nil_r in E by lia. cbn [app] in E. rewrite E, Hv. do 2 f_equal. lia.
  - destruct (show_digits_spec (S (Z.to_nat (Z.log2 z))) z) as (Hd & Hv & Hne);
      [split; [lia|apply enough_digits; lia]|lia|].
    pose proof (digits_text_number false _ 0 Hd Hne H0) as E. unfold digits_text in E.
    rewrite decide_False, app_nil_r in E by lia. cbn [app] in E. by rewrite E, Hv.
Qed.

Lemma whole_number z a :
  text_number (dec_to_string z) = Some a -> a = (z, 0) /\ Z.abs z < 10 ^ 30.
Proof.
  simpl. unfold in_format. case_bool_decide; [|done].
  rewrite show_int_number by (unfold is_i32; lia). naive_solver.
Qed.

Lemma whole_equal c p z : number_cmp (c, p) (z, 0) = Eq -> whole_value c p = z.
Proof.
  unfold number_cmp, whole_value. simpl. intros E%Z.compare_eq_iff. case_decide.
  - rewrite Z.min_r, !Z.sub_0_r, Z.mul_1_r in E by lia. done.
  - rewrite Z.min_l, Z.sub_diag, Z.mul_1_r in E by lia. rewrite E. simpl.
    apply Z.div_mul. assert (0 < 10 ^ (- p)) by (apply Z.pow_pos_nonneg; lia). lia.
Qed.

#[export] Instance whole_laws : DecimalLaws Z.
Proof.
  split.
  - intros d1 d2 a b [-> _]%whole_number [-> _]%whole_number. unfold number_cmp. simpl.
    by rewrite !Z.mul_1_r.
  - intros d. simpl. unfold in_format. case_bool_decide as H; [|simpl; lia].
    unfold show_int. case_decide.
    + simpl. pose proof (length_show_digits (S (Z.to_nat (Z.log2 (- d)))) (- d) 29 ltac:(simpl Z.of_nat; lia)).
      simpl in *. lia.
    + pose proof (length_show_digits (S (Z.to_nat (Z.log2 d))) d 29 ltac:(simpl Z.of_nat; lia)). lia.
  - intros d c p [[= -> ->] H]%whole_number.
    assert (10 ^ 30 < 10 ^ 34) by (apply Z.pow_lt_mono_r; lia). lia.
  - intros d t a b Hd Ht Hc. destruct (whole_number _ _ Hd) as [-> Hr]. destruct b as [c p].
    exists d, (d, 0). simpl dec_parse. rewrite Ht, (whole_equal c p d Hc).
    split_and!; [done|done|]. unfold number_cmp. simpl. apply Z.compare_refl.
Qed.

(** ** The theorems at concrete values *)

Abbreviation value := (Value Z) (only parsing).

Lemma encode_supported_witness :
  is_ok (encode (VDecimal128 (-1250) : value)) = true /\
  is_ok (encode (VComposite CList (TyList TyInt) : value)) = false.
Proof. split; [apply (encode_supported (VDecimal128 (-1250)))|apply (encode_supported (VComposite CList (TyList TyInt)))]; done. Defined.

(** [-1.5] as a double. *)
Definition minus_one_half : Z := 13832806255468478464.

Lemma encode_roundtrip_witness :
  exists x v', encode (VDouble minus_one_half : value) = Ok x /\ decode x = Ok v' /\
    reads_back (VDouble minus_one_half) v'.
Proof.
  eexists. destruct (encode_roundtrip false (VDouble minus_one_half : value) _ ltac:(done) eq_refl)
    as (v' & Hd & Hr). exists v'. split; [done|]. split; [exact Hd|exact Hr].
Defined.

Lemma encode_order_witness :
  exists x y, encode (VDecimal128 (-20) : value) = Ok x /\ encode (VDecimal128 3 : value) = Ok y /\
    Val.value_cmp (VDecimal128 (-20) : value) (VDecimal128 3) = Some (bytes_cmp x y).
Proof.
  eexists _, _. split; [vm_compute; reflexivity|]. split; [vm_compute; reflexivity|].
  by apply (encode_order_preserving (VDecimal128 (-20) : value) (VDecimal128 3)).
Defined.

(** [1.0] and [2.0] of the two float types, and text. *)
Definition f32_one : Z := 1065353216.
Definition text_ab : list Z := [97; 98].
Definition text_abc : list Z := [97; 98; 99].
Definition text_b : list Z := [98].

Lemma prefix_bounds_exact_witness :
  exists lo hi x y, prefix_bounds (VString text_ab : value) = Ok (lo, hi) /\
    encode (VString text_abc : value) = Ok x /\ encode (VString text_b : value) = Ok y /\
    (bytes_cmp lo (x ++ [15]) <> Gt /\ bytes_cmp (x ++ [15]) hi = Lt) /\
    ~ (bytes_cmp lo (y ++ [15]) <> Gt /\ bytes_cmp (y ++ [15]) hi = Lt).
Proof.
  eexists _, _, _, _. split; [reflexivity|]. split; [reflexivity|]. split; [reflexivity|].
  assert (Hab : Forall is_byte text_ab) by (repeat constructor; done).
  assert (Habc : Forall is_byte text_abc) by (repeat constructor; done).
  assert (Hb : Forall is_byte text_b) by (repeat constructor; done).
  assert (Hr : Forall is_byte [15]) by (repeat constructor; done).
  split.
  - apply (prefix_bounds_exact (VString text_ab : value) (VString text_abc)); try done.
    by exists [99].
  - intros Hin. apply (prefix_bounds_exact (VString text_ab : value) (VString text_b)) in Hin;
      try done. by destruct Hin.
Defined.

Definition vertex_5 : EntityRef := ERVertex (from_u64 5).

Lemma composite_order_witness :
  exists x y, encode_composite [VString text_ab; VInt 7 : value] (Some vertex_5) false = Ok x /\
    encode_composite [VString text_ab; VInt (-7) : value] (Some vertex_5) false = Ok y /\
    bytes_cmp x y = Gt.
Proof.
  eexists _, _. split; [reflexivity|]. split; [reflexivity|].
  assert (Hab : Forall is_byte text_ab) by (repeat constructor; done).
  edestruct (composite_order [VString text_ab; VInt 7 : value] [VString text_ab; VInt (-7)]
    (Some vertex_5) (Some vertex_5)) as (c & Hc & Hb);
    [repeat constructor; done|repeat constructor; done|repeat constructor; done
    |reflexivity|reflexivity|]. rewrite Hb.
  vm_compute in Hc. by injection Hc as <-.
Defined.

(** ** Orders that disagree *)

(** [16777216.0] as a float. *)
Definition f32_2_24 : Z := 1266679808.

(** Equality and order compare an integer with a float in the float type, so
    they are not transitive. *)
Lemma value_eq_not_transitive :
  Val.value_eq (VInt 16777217 : value) (VFloat f32_2_24) = Some true /\
  Val.value_eq (VFloat f32_2_24 : value) (VInt 16777216) = Some true /\
  Val.value_eq (VInt 16777217 : value) (VInt 16777216) = Some false /\
  Val.value_cmp (VInt 16777217 : value) (VFloat f32_2_24) = Some Eq /\
  Val.value_cmp (VFloat f32_2_24 : value) (VInt 16777216) = Some Eq /\
  Val.value_cmp (VInt 16777217 : value) (VInt 16777216) = Some Gt.
Proof. by vm_compute. Qed.

(** [Ord] and [Eq] disagree: vertex identifiers, the two bad nulls, and a NaN
    next to an integer compare as equal but are not equal. *)
Lemma cmp_eq_disagree :
  Val.value_cmp (VVertexId (from_u64 1) : value) (VVertexId (from_u64 2)) = Some Eq /\
  Val.value_eq (VVertexId (from_u64 1) : value) (VVertexId (from_u64 2)) = Some false /\
  Val.value_cmp (VNull NBadData : value) (VNull NBadType) = Some Eq /\
  Val.value_eq (VNull NBadData : value) (VNull NBadType) = Some false /\
  Val.value_cmp (VInt 1 : value) (VFloat (NAN Float.f32)) = Some Eq /\
  Val.value_eq (VInt 1 : value) (VFloat (NAN Float.f32)) = Some false.
Proof. by vm_compute. Qed.

(** A blob prefix of [0xFF] bytes has an empty range, although blobs start
    with it. *)
Lemma ff_prefix_empty :
  exists lo hi x, prefix_bounds (VBlob [255] : value) = Ok (lo, hi) /\
    encode (VBlob [255; 1] : value) = Ok x /\ bytes_cmp lo x = Lt /\ bytes_cmp x hi = Gt.
Proof. by eexists _, _, _. Qed.

(** The ranking of an edge is written without flipping its sign bit: a
    negative ranking sorts after zero. *)
Lemma edge_ranking_order :
  bytes_cmp (encode_entity (EREdge (from_u64 1) (from_u64 2) 1 (-1)))
            (encode_entity (EREdge (from_u64 1) (from_u64 2) 1 0)) = Gt.
Proof. by vm_compute. Qed.

(** An edge reference is decoded as a placeholder text. *)
Lemma edge_decodes_to_text :
  decode (encode_entity (EREdge (from_u64 1) (from_u64 2) 1 0)) =
    Ok (VString edge_placeholder : value).
Proof. by vm_compute. Qed.


End CodecExample.
