(* ===== verification/IndexKeys.v ===== *)
(** * Secondary index keys

    [linkrs-storage/src/index/key_codec/]: building and parsing of the forward
    and reverse keys of vertex and edge indexes, over the ordered codec;
    [compute_vertex_index_scan_range] and [compute_edge_index_scan_range]
    (vertex_index_manager.rs, edge_index_manager.rs): the byte range an index
    predicate is turned into.  The name of an index
    and of an edge type is its UTF-8 bytes. *)

From stdpp Require Import base list strings.
From Stdlib Require Import ZArith Lia SpecFloat.
From S2P Require Import Prelude Types Values WalTypes OrderedCodec.

Module IndexKey.
Import Codec.

Definition KEY_TYPE_VERTEX_REVERSE : Z := 1.
Definition KEY_TYPE_EDGE_REVERSE : Z := 2.
Definition KEY_TYPE_VERTEX_FORWARD : Z := 3.
Definition KEY_TYPE_EDGE_FORWARD : Z := 4.

Section keys.
Context {Dec : Type} `{Decimal Dec}.

Definition normalize_int_value (v : Value Dec) : Value Dec :=
  match v with
  | VBigInt n =>
      if decide (-32768 <= n <= 32767) then VSmallInt n
      else if decide (-2147483648 <= n <= 2147483647) then VInt n
      else v
  | VInt n => if decide (-32768 <= n <= 32767) then VSmallInt n else v
  | _ => v
  end.

(** ** Building *)

Definition build_vertex_index_prefix (space_id : Z) (index_name : list Z) : list Z :=
  le_bytes 8 space_id ++ [KEY_TYPE_VERTEX_FORWARD] ++
    le_bytes 4 (Z.of_nat (length index_name)) ++ index_name.

Definition build_vertex_index_key (space_id : Z) (index_name : list Z)
    (prop_value vertex_id : Value Dec) : result (list Z) StorageError :=
  match encode (normalize_int_value prop_value) with
  | Err e => Err e
  | Ok encoded_value =>
      match encode vertex_id with
      | Err e => Err e
      | Ok encoded_entity =>
          Ok (le_bytes 8 space_id ++ [KEY_TYPE_VERTEX_FORWARD] ++
                le_bytes 4 (Z.of_nat (length index_name)) ++ index_name ++
                encoded_value ++ encoded_entity)
      end
  end.

Definition build_vertex_index_value_prefix (space_id : Z) (index_name : list Z)
    (prop_value : Value Dec) : result (list Z) StorageError :=
  match encode (normalize_int_value prop_value) with
  | Err e => Err e
  | Ok encoded_value => Ok (build_vertex_index_prefix space_id index_name ++ encoded_value)
  end.

Definition build_vertex_reverse_key_v2 (space_id : Z) (vertex_id : Value Dec)
    (index_name : list Z) : result (list Z) StorageError :=
  match encode vertex_id with
  | Err e => Err e
  | Ok encoded_entity =>
      Ok (le_bytes 8 space_id ++ [KEY_TYPE_VERTEX_REVERSE] ++ encoded_entity ++
            le_bytes 4 (Z.of_nat (length index_name)) ++ index_name)
  end.

Definition build_vertex_reverse_key_with_value (space_id : Z) (vertex_id : Value Dec)
    (index_name : list Z) (prop_value : Value Dec) : result (list Z) StorageError :=
  match encode vertex_id with
  | Err e => Err e
  | Ok encoded_entity =>
      match encode (normalize_int_value prop_value) with
      | Err e => Err e
      | Ok encoded_value =>
          Ok (le_bytes 8 space_id ++ [KEY_TYPE_VERTEX_REVERSE] ++ encoded_entity ++
                le_bytes 4 (Z.of_nat (length index_name)) ++ index_name ++ encoded_value)
      end
  end.

Definition build_edge_index_prefix (space_id : Z) (index_name : list Z) : list Z :=
  le_bytes 8 space_id ++ [KEY_TYPE_EDGE_FORWARD] ++
    le_bytes 4 (Z.of_nat (length index_name)) ++ index_name.

(** The four fields that name an edge: source, destination, type, ranking. *)
Definition encode_edge_identity (edge_src edge_dst : Value Dec) (edge_type : list Z) (ranking : Z)
  : result (list Z) StorageError :=
  match encode edge_src with
  | Err e => Err e
  | Ok encoded_src =>
      match encode edge_dst with
      | Err e => Err e
      | Ok encoded_dst =>
          match encode (VString edge_type : Value Dec) with
          | Err e => Err e
          | Ok encoded_type =>
              match encode (VBigInt ranking : Value Dec) with
              | Err e => Err e
              | Ok encoded_rank =>
                  Ok (encoded_src ++ encoded_dst ++ encoded_type ++ encoded_rank)
              end
          end
      end
  end.

Definition build_edge_index_key (space_id : Z) (index_name : list Z)
    (prop_value edge_src edge_dst : Value Dec) (edge_type : list Z) (ranking : Z)
  : result (list Z) StorageError :=
  match encode (normalize_int_value prop_value) with
  | Err e => Err e
  | Ok encoded_value =>
      match encode_edge_identity edge_src edge_dst edge_type ranking with
      | Err e => Err e
      | Ok edge_id =>
          Ok (le_bytes 8 space_id ++ [KEY_TYPE_EDGE_FORWARD] ++
                le_bytes 4 (Z.of_nat (length index_name)) ++ index_name ++
                encoded_value ++ edge_id)
      end
  end.

Definition build_edge_index_value_prefix (space_id : Z) (index_name : list Z)
    (prop_value : Value Dec) : result (list Z) StorageError :=
  match encode (normalize_int_value prop_value) with
  | Err e => Err e
  | Ok encoded_value => Ok (build_edge_index_prefix space_id index_name ++ encoded_value)
  end.

Definition build_edge_reverse_key (space_id : Z) (edge_src edge_dst : Value Dec)
    (edge_type : list Z) (ranking : Z) (index_name : list Z) : result (list Z) StorageError :=
  match encode_edge_identity edge_src edge_dst edge_type ranking with
  | Err e => Err e
  | Ok edge_id =>
      Ok (le_bytes 8 space_id ++ [KEY_TYPE_EDGE_REVERSE] ++ edge_id ++
            le_bytes 4 (Z.of_nat (length index_name)) ++ index_name)
  end.

Definition build_edge_reverse_key_with_value (space_id : Z) (edge_src edge_dst : Value Dec)
    (edge_type : list Z) (ranking : Z) (index_name : list Z) (prop_value : Value Dec)
  : result (list Z) StorageError :=
  match encode_edge_identity edge_src edge_dst edge_type ranking with
  | Err e => Err e
  | Ok edge_id =>
      match encode (normalize_int_value prop_value) with
      | Err e => Err e
      | Ok encoded_value =>
          Ok (le_bytes 8 space_id ++ [KEY_TYPE_EDGE_REVERSE] ++ edge_id ++
                le_bytes 4 (Z.of_nat (length index_name)) ++ index_name ++ encoded_value)
      end
  end.

Definition build_range_end (prefix : list Z) : list Z := prefix_upper_bound prefix.

(** ** Scan ranges *)

Inductive IndexPredicate :=
| Equal (v : Value Dec)
| Range (lower upper : option (Value Dec)) (include_lower include_upper : bool)
| Prefix (v : Value Dec)
| All.

Definition compute_vertex_index_scan_range (space_id : Z) (index_name : list Z)
    (predicate : IndexPredicate) : result (list Z * list Z) StorageError :=
  let index_prefix := build_vertex_index_prefix space_id index_name in
  match predicate with
  | Equal value =>
      match build_vertex_index_value_prefix space_id index_name value with
      | Err e => Err e
      | Ok prefix => Ok (prefix, build_range_end prefix)
      end
  | Range lower upper include_lower include_upper =>
      match
        match lower with
        | Some value =>
            match build_vertex_index_value_prefix space_id index_name value with
            | Err e => Err e
            | Ok prefix => Ok (if include_lower then prefix else build_range_end prefix)
            end
        | None => Ok index_prefix
        end
      with
      | Err e => Err e
      | Ok start =>
          match
            match upper with
            | Some value =>
                match build_vertex_index_value_prefix space_id index_name value with
                | Err e => Err e
                | Ok prefix => Ok (if include_upper then build_range_end prefix else prefix)
                end
            | None => Ok (build_range_end index_prefix)
            end
          with
          | Err e => Err e
          | Ok fin => Ok (start, fin)
          end
      end
  | Prefix value =>
      match prefix_bounds value with
      | Err e => Err e
      | Ok (value_lower, value_upper) =>
          Ok (index_prefix ++ value_lower, index_prefix ++ value_upper)
      end
  | All => Ok (index_prefix, build_range_end index_prefix)
  end.

Definition compute_edge_index_scan_range (space_id : Z) (index_name : list Z)
    (predicate : IndexPredicate) : result (list Z * list Z) StorageError :=
  let index_prefix := build_edge_index_prefix space_id index_name in
  match predicate with
  | Equal value =>
      match build_edge_index_value_prefix space_id index_name value with
      | Err e => Err e
      | Ok prefix => Ok (prefix, build_range_end prefix)
      end
  | Range lower upper include_lower include_upper =>
      match
        match lower with
        | Some value =>
            match build_edge_index_value_prefix space_id index_name value with
            | Err e => Err e
            | Ok prefix => Ok (if include_lower then prefix else build_range_end prefix)
            end
        | None => Ok index_prefix
        end
      with
      | Err e => Err e
      | Ok start =>
          match
            match upper with
            | Some value =>
                match build_edge_index_value_prefix space_id index_name value with
                | Err e => Err e
                | Ok prefix => Ok (if include_upper then build_range_end prefix else prefix)
                end
            | None => Ok (build_range_end index_prefix)
            end
          with
          | Err e => Err e
          | Ok fin => Ok (start, fin)
          end
      end
  | Prefix value =>
      match prefix_bounds value with
      | Err e => Err e
      | Ok (value_lower, value_upper) =>
          Ok (index_prefix ++ value_lower, index_prefix ++ value_upper)
      end
  | All => Ok (index_prefix, build_range_end index_prefix)
  end.

(** ** Parsing *)

(** A parser that slices past the end of the key panics. *)
Inductive KeyError := KStorage (e : StorageError) | KPanic.

(** [codec().decode_value_inner(&key_bytes[pos..])]. *)
Definition decode_at (key_bytes : list Z) (pos : nat) : result (Value Dec * nat) KeyError :=
  if decide (length key_bytes < pos)%nat then Err KPanic
  else map_err KStorage (decode_value_inner (drop pos key_bytes)).

(** [u32::from_le_bytes(key_bytes[pos..pos + 4]) as usize]. *)
Definition name_len_at (key_bytes : list Z) (pos : nat) : nat := Z.to_nat (read_le pos 4 key_bytes).

Definition parse_vertex_id_from_key (key_bytes : list Z) : result (Value Dec) KeyError :=
  let pos := 9%nat in
  if decide (length key_bytes < pos + 4)%nat then Err (KStorage SEDb)
  else
    let pos := (pos + 4 + name_len_at key_bytes pos)%nat in
    match decode_at key_bytes pos with
    | Err e => Err e
    | Ok (_, consumed) =>
        match decode_at key_bytes (pos + consumed) with
        | Err e => Err e
        | Ok (vertex_id, _) => Ok vertex_id
        end
    end.

(** The ranking and the edge type out of their decoded values. *)
Definition rank_of_value (v : Value Dec) : option Z :=
  match v with VBigInt n | VInt n => Some n | _ => None end.

Definition type_of_value (v : Value Dec) : option (list Z) :=
  match v with VString s => Some s | _ => None end.

Definition parse_edge_identity_from_key (key_bytes : list Z)
  : result (Value Dec * Value Dec * list Z * Z) KeyError :=
  let pos := 9%nat in
  if decide (length key_bytes < pos + 4)%nat then Err (KStorage SEDb)
  else
    let pos := (pos + 4 + name_len_at key_bytes pos)%nat in
    match decode_at key_bytes pos with
    | Err e => Err e
    | Ok (_, consumed) =>
        let pos := (pos + consumed)%nat in
        match decode_at key_bytes pos with
        | Err e => Err e
        | Ok (src_val, consumed2) =>
            let pos := (pos + consumed2)%nat in
            match decode_at key_bytes pos with
            | Err e => Err e
            | Ok (dst_val, consumed3) =>
                let pos := (pos + consumed3)%nat in
                match decode_at key_bytes pos with
                | Err e => Err e
                | Ok (type_val, consumed4) =>
                    match type_of_value type_val with
                    | None => Err (KStorage SEDb)
                    | Some edge_type =>
                        match decode_at key_bytes (pos + consumed4) with
                        | Err e => Err e
                        | Ok (rank_val, _) =>
                            match rank_of_value rank_val with
                            | None => Err (KStorage SEDb)
                            | Some ranking => Ok (src_val, dst_val, edge_type, ranking)
                            end
                        end
                    end
                end
            end
        end
    end.

(** The name after a length at [pos], and the position after it. *)
Definition parse_name (key_bytes : list Z) (pos : nat) : result (list Z * nat) KeyError :=
  if decide (length key_bytes < pos + 4)%nat then Err (KStorage SEDb)
  else
    let index_name_len := name_len_at key_bytes pos in
    let pos := (pos + 4)%nat in
    if decide (length key_bytes < pos + index_name_len)%nat then Err (KStorage SEDb)
    else Ok (slice pos index_name_len key_bytes, (pos + index_name_len)%nat).

Definition parse_vertex_reverse_key_v2 (key_bytes : list Z)
  : result (list Z * list Z) KeyError :=
  if decide (length key_bytes < 9)%nat then Err (KStorage SEDb)
  else
    match decode_at key_bytes 9 with
    | Err e => Err e
    | Ok (vertex_id, consumed) =>
        match map_err KStorage (encode vertex_id) with
        | Err e => Err e
        | Ok vertex_id_bytes =>
            match parse_name key_bytes (9 + consumed) with
            | Err e => Err e
            | Ok (index_name, _) =>
                if utf8_valid index_name then Ok (vertex_id_bytes, index_name)
                else Err (KStorage SEDb)
            end
        end
    end.

(** [n] values decoded from [pos] on: the position after them. *)
Fixpoint skip_values (n : nat) (key_bytes : list Z) (pos : nat) : result nat KeyError :=
  match n with
  | O => Ok pos
  | S n' =>
      match decode_at key_bytes pos with
      | Err e => Err e
      | Ok (_, consumed) => skip_values n' key_bytes (pos + consumed)
      end
  end.

(** [n] values decoded from [pos] on and encoded again. *)
Fixpoint reencode_values (n : nat) (key_bytes : list Z) (pos : nat)
  : result (list (list Z) * nat) KeyError :=
  match n with
  | O => Ok ([], pos)
  | S n' =>
      match decode_at key_bytes pos with
      | Err e => Err e
      | Ok (v, consumed) =>
          match map_err KStorage (encode v) with
          | Err e => Err e
          | Ok bytes =>
              match reencode_values n' key_bytes (pos + consumed) with
              | Err e => Err e
              | Ok (rest, pos') => Ok (bytes :: rest, pos')
              end
          end
      end
  end.

Definition parse_edge_reverse_key (key_bytes : list Z)
  : result (list (list Z) * list Z) KeyError :=
  if decide (length key_bytes < 9)%nat then Err (KStorage SEDb)
  else
    match reencode_values 4 key_bytes 9 with
    | Err e => Err e
    | Ok (parts, pos) =>
        match parse_name key_bytes pos with
        | Err e => Err e
        | Ok (index_name, _) =>
            if utf8_valid index_name then Ok (parts, index_name) else Err (KStorage SEDb)
        end
    end.

Definition extract_value_from_reverse_key (key_bytes : list Z) : result (list Z) KeyError :=
  if decide (length key_bytes < 9)%nat then Err (KStorage SEDb)
  else
    match decode_at key_bytes 9 with
    | Err e => Err e
    | Ok (_, consumed) =>
        match parse_name key_bytes (9 + consumed) with
        | Err e => Err e
        | Ok (_, pos) => Ok (drop pos key_bytes)
        end
    end.

Definition extract_value_from_reverse_suffix (suffix : list Z) : result (list Z) KeyError :=
  if decide (suffix = []) then Err (KStorage SEDb)
  else
    match decode_at suffix 0 with
    | Err e => Err e
    | Ok (_, consumed) =>
        match parse_name suffix consumed with
        | Err e => Err e
        | Ok (_, pos) => Ok (drop pos suffix)
        end
    end.

Definition extract_value_from_edge_reverse_suffix (suffix : list Z) : result (list Z) KeyError :=
  if decide (suffix = []) then Err (KStorage SEDb)
  else
    match skip_values 4 suffix 0 with
    | Err e => Err e
    | Ok pos =>
        match parse_name suffix pos with
        | Err e => Err e
        | Ok (_, pos) => Ok (drop pos suffix)
        end
    end.

Definition extract_value_from_edge_reverse_key (key_bytes : list Z) : result (list Z) KeyError :=
  if decide (length key_bytes < 9)%nat then Err (KStorage SEDb)
  else
    match skip_values 4 key_bytes 9 with
    | Err e => Err e
    | Ok pos =>
        match parse_name key_bytes pos with
        | Err e => Err e
        | Ok (_, pos) => Ok (drop pos key_bytes)
        end
    end.

End keys.
End IndexKey.
