(* ===== verification/IndexKeyFacts.v ===== *)
(** * Scan ranges of index keys

    The keys in the range of a predicate are those of the entries that match
    it, and no key of another index or space. *)

From stdpp Require Import base list strings.
From Stdlib Require Import ZArith Lia SpecFloat.
From S2P Require Import Prelude Types Values WalTypes OrderedCodec OrderedFacts OrderedDecimal.
From S2P Require Import OrderedValues IndexKeys.

Module IndexKeyFacts.
Import Codec CodecFacts DecimalFacts CodecSpec IndexKey.

Local Arguments Z.compare : simpl never.

(** ** Ranges over separated keys *)

(** Neither of two separated strings is a proper prefix of the other. *)
Lemma separated_prefix x y s : separated x y -> x ++ s = y -> x = y.
Proof.
  intros Hs E. specialize (Hs s []). rewrite app_nil_r, E, bytes_cmp_refl in Hs.
  unfold then_bytes in Hs. destruct (bytes_cmp x y) eqn:Ec; [by apply bytes_cmp_eq|done..].
Qed.

Lemma separated_sym x y : separated x y -> separated y x.
Proof.
  intros Hs r s. rewrite bytes_cmp_antisym, Hs, (bytes_cmp_antisym x y). unfold then_bytes.
  destruct (bytes_cmp x y); simpl; [|done..]. symmetry. apply bytes_cmp_antisym.
Qed.

Lemma separated_tail b x y : separated (b :: x) (b :: y) -> separated x y.
Proof. intros Hs r s. specialize (Hs r s). simpl in Hs. by rewrite !Z.compare_refl in Hs. Qed.

Lemma nonzero_above l n : Forall is_byte l -> Exists (fun b => b <> 0) l -> bytes_cmp l (replicate n 0) <> Lt.
Proof.
  intros Hl He. revert n. induction He as [b l Hb|b l He IH]; intros n; decompose_Forall_hyps;
    unfold is_byte in *; destruct n as [|n]; simpl; try done;
    destruct (Z.compare_spec b 0); try done; try lia. by apply IH.
Qed.

Lemma ff_above p y :
  Forall (fun b => b = 255) p -> Forall is_byte y -> separated p y ->
  bytes_cmp y p <> Gt.
Proof.
  intros Hp. revert y; induction Hp as [|b p -> Hp IH]; intros y Hy Hs.
  - destruct y as [|c y]; [done|]. by pose proof (separated_prefix [] (c :: y) (c :: y) Hs eq_refl).
  - destruct y as [|c y]; [done|]. decompose_Forall_hyps. unfold is_byte in *.
    destruct (Z.compare_spec c 255) as [->|?|?]; [|done|lia].
    apply IH; [done|]. by apply separated_tail in Hs.
Qed.

(** Below the end of the range of [x] are the keys up to [x]: [y] with
    something after it that is not only zeros. *)
Lemma below_range_end x y r :
  Forall is_byte x -> Forall is_byte y -> Forall is_byte r -> Exists (fun b => b <> 0) r ->
  ~ Forall (fun b => b = 255) x -> separated x y ->
  bytes_cmp (y ++ r) (prefix_upper_bound x) = Lt <-> bytes_cmp y x <> Gt.
Proof.
  intros Hx Hy Hr He. unfold prefix_upper_bound. revert y Hy.
  induction x as [|b x IH]; intros y Hy Hff Hs; [by destruct Hff|].
  destruct y as [|c y].
  { by pose proof (separated_prefix [] (b :: x) (b :: x) (separated_sym _ _ Hs) eq_refl). }
  decompose_Forall_hyps. pose proof (increment_carry x) as Hc.
  destruct (increment x) as [carry x'] eqn:E. simpl in IH, Hc. destruct carry.
  - assert (Hall : Forall (fun d => d = 255) x) by by apply Hc.
    rewrite increment_ff in E by done. injection E as <-.
    rewrite decide_False by (intros ->; by apply Hff; constructor). simpl.
    assert (Hz : bytes_cmp (y ++ r) (replicate (length x) 0) <> Lt).
    { apply nonzero_above; [by apply Forall_app|]. by apply Exists_app; right. }
    destruct (Z.compare_spec c b) as [->|?|?].
    + replace (Z.compare b (b + 1)) with Lt by (symmetry; apply Z.compare_lt_iff; lia).
      split; [|done]. intros _. apply ff_above; [done..|]. by apply separated_tail in Hs.
    + by replace (Z.compare c (b + 1)) with Lt by (symmetry; apply Z.compare_lt_iff; lia).
    + destruct (Z.compare_spec c (b + 1)); [|lia|done]. naive_solver.
  - assert (Hnot : ~ Forall (fun d => d = 255) x) by (intros Hd%Hc; done). simpl.
    destruct (Z.compare_spec c b) as [->|?|?]; [|done|naive_solver].
    apply IH; try done. by apply separated_tail in Hs.
Qed.

Lemma above_start x y r :
  separated x y -> bytes_cmp x (y ++ r) <> Gt <-> bytes_cmp x y <> Gt.
Proof.
  intros Hs. pose proof (Hs [] r) as E. rewrite app_nil_r in E. rewrite E. unfold then_bytes.
  destruct (bytes_cmp x y); [|done..]. by destruct r.
Qed.

Lemma below_start x y r :
  separated x y -> bytes_cmp (y ++ r) x = Lt <-> bytes_cmp y x = Lt.
Proof.
  intros Hs. pose proof (separated_sym _ _ Hs r []) as E. rewrite app_nil_r in E. rewrite E.
  unfold then_bytes. destruct (bytes_cmp y x); [|done..]. by destruct r.
Qed.

(** ** Headers *)

Definition header (key_type space_id : Z) (name : list Z) : list Z :=
  le_bytes 8 space_id ++ [key_type] ++ le_bytes 4 (Z.of_nat (length name)) ++ name.

(** A name whose length fits its field. *)
Definition valid_name (name : list Z) : Prop :=
  Forall is_byte name /\ Z.of_nat (length name) < 2 ^ 32.

Lemma separated_neq p q x y : separated p q -> p <> q -> separated (p ++ x) (q ++ y).
Proof.
  intros Hs Hne r s. rewrite <- !app_assoc, !Hs. unfold then_bytes.
  destruct (bytes_cmp p q) eqn:E; [by apply bytes_cmp_eq in E|done..].
Qed.

Lemma le_bytes_inj n a b :
  0 <= a < 256 ^ Z.of_nat n -> 0 <= b < 256 ^ Z.of_nat n -> le_bytes n a = le_bytes n b -> a = b.
Proof. intros Ha Hb E. rewrite <- (of_le_bytes_le n a), <- (of_le_bytes_le n b), E by done. done. Qed.

Lemma header_separated kt s n s' n' :
  valid_name n -> valid_name n' -> separated (header kt s n) (header kt s' n').
Proof.
  intros [_ Hn] [_ Hn']. unfold header. apply separated_app; [by rewrite !length_le_bytes|].
  apply separated_cons.
  destruct (decide (length n = length n')) as [E|Hne].
  - apply separated_length. rewrite !length_app, !length_le_bytes. lia.
  - apply separated_neq; [apply separated_length; by rewrite !length_le_bytes|].
    intros E%le_bytes_inj; change (256 ^ Z.of_nat 4) with (2 ^ 32) in *; lia.
Qed.

Lemma header_inj kt s n s' n' :
  is_u64 s -> is_u64 s' -> valid_name n -> valid_name n' ->
  header kt s n = header kt s' n' -> s = s' /\ n = n'.
Proof.
  intros Hs Hs' [_ Hn] [_ Hn'] E. unfold header, is_u64, U64_MAX in *.
  apply app_inj_1 in E as [E1 E]; [|by rewrite !length_le_bytes].
  apply app_inj_1 in E as [_ E]; [|done].
  apply app_inj_1 in E as [E2 E]; [|by rewrite !length_le_bytes].
  split; [|done]. apply (le_bytes_inj 8); [..|done]; change (256 ^ Z.of_nat 8) with (2 ^ 64); lia.
Qed.

Lemma header_bytes kt s n : is_byte kt -> valid_name n -> Forall is_byte (header kt s n).
Proof.
  intros Hk [Hn _]. unfold header, le_bytes. apply Forall_app. split; [apply Forall_rev, be_bytes_byte|].
  constructor; [done|]. apply Forall_app. split; [apply Forall_rev, be_bytes_byte|done].
Qed.

(** ** Encodings are bytes *)

Lemma escaped_bytes l : Forall is_byte l -> Forall is_byte (encode_escaped_bytes l).
Proof.
  induction 1 as [|b l Hb Hl IH]; [rewrite escaped_nil; repeat constructor; done|].
  rewrite escaped_cons. apply Forall_app. split; [|done].
  case_decide; rewrite ?Forall_cons, ?Forall_nil; unfold is_byte in *; lia.
Qed.

Section facts.
Context {Dec : Type} `{DecimalLaws Dec}.

Lemma encode_is_bytes (v : Value Dec) x : valid_value v -> encode v = Ok x -> Forall is_byte x.
Proof.
  intros Hv Hx. destruct (text_data v) as [s|] eqn:Ht.
  - assert (Hs : Forall is_byte s) by (destruct v; simplify_eq/=; naive_solver).
    assert (exists t, is_byte t /\ x = t :: encode_escaped_bytes s) as (t & Hb & ->)
      by (destruct v; simplify_eq/=; eexists; (split; [|reflexivity]; done)).
    constructor; [done|]. by apply escaped_bytes.
  - destruct (is_decimal v) eqn:Hd; [|by apply (encode_bytes v)].
    destruct v; try done. destruct (encode_text_spec _ _ Hx) as (n & e & ds & c & p & -> & Hn & _).
    apply normal_forall in Hn as [Hn _]. unfold encode_normal.
    constructor; [done|]. constructor; [by destruct n|]. apply Forall_app. split; [apply be_bytes_byte|].
    destruct n; apply Forall_app; (split; [|by repeat constructor]).
    + apply Forall_fmap. eapply Forall_impl; [exact Hn|]. simpl. intros ch Hch.
      rewrite not_digit by done. unfold is_byte. lia.
    + eapply Forall_impl; [exact Hn|]. unfold is_byte. simpl. lia.
Qed.

(** An identifier that is not empty starts with a tag other than zero. *)
Lemma encode_nonzero (v : Value Dec) x :
  encode v = Ok x -> v <> VEmpty -> Exists (fun b => b <> 0) x.
Proof.
  intros Hx Hv. destruct (encode_tag v x Hx) as [body ->]. apply Exists_cons_hd.
  by destruct v.
Qed.

Lemma encode_not_ff (v : Value Dec) x : encode v = Ok x -> ~ Forall (fun b => b = 255) x.
Proof.
  intros Hx Hff. destruct (encode_tag v x Hx) as [body ->]. decompose_Forall_hyps.
  by destruct v.
Qed.

(** ** Normalized integers *)

Lemma normalize_valid (v : Value Dec) : valid_value v -> valid_value (normalize_int_value v).
Proof. intros Hv. destruct v; try done; simpl in *; repeat case_decide; simpl; lia. Qed.

Lemma normalize_number (v : Value Dec) :
  Val.as_number (normalize_int_value v) = Val.as_number v.
Proof. destruct v; try done; simpl; by repeat case_decide. Qed.

(** Normalizing changes no comparison. *)
Lemma normalize_cmp (v w : Value Dec) :
  Val.value_cmp (normalize_int_value v) (normalize_int_value w) = Val.value_cmp v w.
Proof.
  unfold Val.value_cmp at 1 2. rewrite !normalize_number. unfold Val.value_cmp.
  destruct v; try done; destruct w; try done; simpl; repeat case_decide; try done;
    destruct k; done.
Qed.

(** ** Predicates *)

(** The entry of value [w] matches the predicate. *)
Definition matches (p : IndexPredicate) (w : Value Dec) : Prop :=
  match p with
  | Equal v => Val.value_cmp v w = Some Eq
  | Range lower upper il iu =>
      match lower with
      | Some v => Val.value_cmp v w = Some Lt \/ (il = true /\ Val.value_cmp v w = Some Eq)
      | None => True
      end /\
      match upper with
      | Some v => Val.value_cmp w v = Some Lt \/ (iu = true /\ Val.value_cmp w v = Some Eq)
      | None => True
      end
  | Prefix v => value_prefix v (normalize_int_value w)
  | All => True
  end.

(** A bound and a stored value whose stored types agree, so that the order of
    the stored keys is the order of the values. *)
Definition comparable (v w : Value Dec) : Prop :=
  valid_value v /\ exact_pair (normalize_int_value v) (normalize_int_value w) = true /\
  exact_pair (normalize_int_value w) (normalize_int_value v) = true.

Definition both_integers (v w : Value Dec) : bool :=
  match v, w with
  | (VSmallInt _ | VInt _ | VBigInt _), (VSmallInt _ | VInt _ | VBigInt _) => true
  | _, _ => false
  end.

(** What the exactness of a scan asks of the predicate and the stored value. *)
Definition scannable (p : IndexPredicate) (w : Value Dec) : Prop :=
  match p with
  | Equal v => comparable v w \/ (valid_value v /\ both_integers v w = true)
  | Range lower upper _ _ =>
      (forall v, lower = Some v -> comparable v w) /\ (forall v, upper = Some v -> comparable v w)
  | Prefix v =>
      valid_value v /\ exact_pair v (normalize_int_value w) = true /\ incrementable v /\
      Val.type_priority v = Val.type_priority (normalize_int_value w)
  | All => True
  end.

Lemma stored_order v w x y :
  valid_value w -> comparable v w ->
  encode (normalize_int_value v) = Ok x -> encode (normalize_int_value w) = Ok y ->
  Val.value_cmp v w = Some (bytes_cmp x y) /\ Val.value_cmp w v = Some (bytes_cmp y x).
Proof.
  intros Hw (Hv & He & He') Hx Hy. rewrite <- (normalize_cmp v w), <- (normalize_cmp w v).
  split; by apply encode_order; try apply normalize_valid.
Qed.

(** Equal integers have one key, whatever their widths. *)
Lemma stored_equal v w x y :
  valid_value w -> comparable v w \/ (valid_value v /\ both_integers v w = true) ->
  encode (normalize_int_value v) = Ok x -> encode (normalize_int_value w) = Ok y ->
  x = y <-> Val.value_cmp v w = Some Eq.
Proof.
  intros Hw [Hc|[Hv Hi]] Hx Hy.
  - destruct (stored_order v w x y Hw Hc Hx Hy) as [-> _]. rewrite <- bytes_cmp_eq_iff. split; congruence.
  - destruct (decide (Val.type_priority (normalize_int_value v) = Val.type_priority (normalize_int_value w))) as [E|E].
    + assert (Hc : comparable v w).
      { split; [done|]. unfold exact_pair. rewrite !normalize_number.
        destruct v; try done; destruct w; try done; simpl Val.as_number; rewrite !bool_decide_eq_true;
          (split; [done|by symmetry]). }
      destruct (stored_order v w x y Hw Hc Hx Hy) as [-> _]. rewrite <- bytes_cmp_eq_iff. split; congruence.
    + split.
      * intros ->. destruct (encode_tag _ _ Hx) as [u E1], (encode_tag _ _ Hy) as [u' E2]. congruence.
      * intros Heq. exfalso. apply E. unfold Val.value_cmp in Heq.
        destruct v; try done; destruct w; try done; simpl in Heq;
          injection Heq as Heq%Z.compare_eq_iff; subst; simpl in *; repeat case_decide; try done; try lia.
Qed.

(** ** One index *)

Definition in_range (lo hi k : list Z) : Prop := bytes_cmp lo k <> Gt /\ bytes_cmp k hi = Lt.

(** The range of a predicate, from the header of the index. *)
Definition scan_range (h : list Z) (p : IndexPredicate) : result (list Z * list Z) StorageError :=
  let value_prefix v :=
    match encode (normalize_int_value v) with Err e => Err e | Ok x => Ok (h ++ x) end in
  match p with
  | Equal v => match value_prefix v with Err e => Err e | Ok x => Ok (x, prefix_upper_bound x) end
  | Range lower upper il iu =>
      match match lower with
            | Some v => match value_prefix v with
                        | Err e => Err e | Ok x => Ok (if il then x else prefix_upper_bound x) end
            | None => Ok h end with
      | Err e => Err e
      | Ok s =>
          match match upper with
                | Some v => match value_prefix v with
                            | Err e => Err e | Ok x => Ok (if iu then prefix_upper_bound x else x) end
                | None => Ok (prefix_upper_bound h) end with
          | Err e => Err e
          | Ok f => Ok (s, f)
          end
      end
  | Prefix v => match prefix_bounds v with Err e => Err e | Ok (a, b) => Ok (h ++ a, h ++ b) end
  | All => Ok (h, prefix_upper_bound h)
  end.

Lemma vertex_scan_range s n p :
  compute_vertex_index_scan_range s n p = scan_range (header KEY_TYPE_VERTEX_FORWARD s n) p.
Proof.
  destruct p as [v|lower upper il iu|v|]; [| |done|done];
    unfold compute_vertex_index_scan_range, scan_range, build_vertex_index_value_prefix,
      build_range_end; [by destruct encode|].
  destruct lower, upper; by repeat destruct (encode _).
Qed.

Lemma edge_scan_range s n p :
  compute_edge_index_scan_range s n p = scan_range (header KEY_TYPE_EDGE_FORWARD s n) p.
Proof.
  destruct p as [v|lower upper il iu|v|]; [| |done|done];
    unfold compute_edge_index_scan_range, scan_range, build_edge_index_value_prefix,
      build_range_end; [by destruct encode|].
  destruct lower, upper; by repeat destruct (encode _).
Qed.


(** The range relative to the header; [None] is the end of the index. *)
Definition value_range (p : IndexPredicate) : result (list Z * option (list Z)) StorageError :=
  match p with
  | Equal v =>
      match encode (normalize_int_value v) with
      | Err e => Err e | Ok x => Ok (x, Some (prefix_upper_bound x)) end
  | Range lower upper il iu =>
      match match lower with
            | Some v => match encode (normalize_int_value v) with
                        | Err e => Err e | Ok x => Ok (if il then x else prefix_upper_bound x) end
            | None => Ok [] end with
      | Err e => Err e
      | Ok a =>
          match upper with
          | Some v => match encode (normalize_int_value v) with
                      | Err e => Err e
                      | Ok x => Ok (a, Some (if iu then prefix_upper_bound x else x)) end
          | None => Ok (a, None)
          end
      end
  | Prefix v => match prefix_bounds v with Err e => Err e | Ok (a, b) => Ok (a, Some b) end
  | All => Ok ([], None)
  end.

Lemma prefix_upper_app h x :
  ~ Forall (fun b => b = 255) x -> prefix_upper_bound (h ++ x) = h ++ prefix_upper_bound x.
Proof.
  intros Hx. unfold prefix_upper_bound. pose proof (increment_carry x) as Hc.
  destruct (increment x) as [[] x'] eqn:E; [by destruct Hx; apply Hc|].
  assert (Ha : increment (h ++ x) = (false, h ++ x')).
  { induction h as [|b h IH]; simpl; [done|]. by rewrite IH. }
  by rewrite Ha.
Qed.

Lemma scan_range_value h p :
  scan_range h p =
    match value_range p with
    | Err e => Err e
    | Ok (a, b) => Ok (h ++ a, match b with Some b => h ++ b | None => prefix_upper_bound h end)
    end.
Proof.
  assert (Hp : forall v x, encode (normalize_int_value v) = Ok x ->
      prefix_upper_bound (h ++ x) = h ++ prefix_upper_bound x).
  { intros v x Hx. by apply prefix_upper_app, (encode_not_ff _ _ Hx). }
  destruct p as [v|lower upper il iu|v|]; simpl.
  - destruct (encode _) eqn:E; [|done]. by rewrite (Hp _ _ E).
  - assert (Hl : match lower with
        | Some v => match match encode (normalize_int_value v) with Ok x => Ok (h ++ x) | Err e => Err e end with
                    | Ok x => Ok (if il then x else prefix_upper_bound x) | Err e => Err e end
        | None => Ok h end =
        match match lower with
        | Some v => match encode (normalize_int_value v) with
                    | Ok x => Ok (if il then x else prefix_upper_bound x) | Err e => Err e end
        | None => Ok [] end with Ok a => Ok (h ++ a) | Err e => Err e end).
    { destruct lower as [v|]; [|by rewrite app_nil_r]. destruct (encode _) as [x|] eqn:E; [|done].
      rewrite (Hp _ _ E). by destruct il. }
    rewrite Hl. clear Hl.
    match goal with |- context [match ?m with Ok a => Ok (h ++ a) | Err e => Err e end] => destruct m end; [|done].
    destruct upper as [v'|]; [|done]. destruct (encode _) as [x|] eqn:E; [|done].
    rewrite (Hp _ _ E). by destruct iu.
  - by destruct (prefix_bounds v) as [[]|].
  - by rewrite app_nil_r.
Qed.

(** *** The key of one entry *)

Section entry.
Context (w : Value Dec) (y r : list Z).
Hypothesis Hw : valid_value w.
Hypothesis Hy : encode (normalize_int_value w) = Ok y.
Hypothesis Hr : Forall is_byte r.
Hypothesis Hnz : Exists (fun c => c <> 0) r.

Lemma bound_separated v x :
  valid_value v -> encode (normalize_int_value v) = Ok x -> separated x y.
Proof.
  intros Hv Hx.
  apply (encode_separated false (normalize_int_value v) (normalize_int_value w));
    by try apply normalize_valid.
Qed.

Lemma bound_end v x :
  valid_value v -> encode (normalize_int_value v) = Ok x ->
  bytes_cmp (y ++ r) (prefix_upper_bound x) = Lt <-> bytes_cmp y x <> Gt.
Proof.
  intros Hv Hx. apply below_range_end; try done.
  - by apply (encode_is_bytes (normalize_int_value v)); [apply normalize_valid|].
  - by apply (encode_is_bytes (normalize_int_value w)); [apply normalize_valid|].
  - by apply (encode_not_ff (normalize_int_value v)).
  - by apply (bound_separated v).
Qed.

Lemma lower_exact v x (il : bool) :
  comparable v w -> encode (normalize_int_value v) = Ok x ->
  bytes_cmp (if il then x else prefix_upper_bound x) (y ++ r) <> Gt <->
  Val.value_cmp v w = Some Lt \/ (il = true /\ Val.value_cmp v w = Some Eq).
Proof.
  intros Hc Hx. destruct (stored_order v w x y Hw Hc Hx Hy) as [-> _].
  destruct Hc as [Hv _]. destruct il.
  - rewrite (above_start x y r (bound_separated v x Hv Hx)).
    destruct (bytes_cmp x y); intuition congruence.
  - pose proof (bound_end v x Hv Hx) as He. rewrite (bytes_cmp_antisym x y) in He.
    rewrite (bytes_cmp_antisym (y ++ r)).
    destruct (bytes_cmp (y ++ r) (prefix_upper_bound x)), (bytes_cmp x y); simpl in *;
      intuition congruence.
Qed.

Lemma upper_exact v x (iu : bool) :
  comparable v w -> encode (normalize_int_value v) = Ok x ->
  bytes_cmp (y ++ r) (if iu then prefix_upper_bound x else x) = Lt <->
  Val.value_cmp w v = Some Lt \/ (iu = true /\ Val.value_cmp w v = Some Eq).
Proof.
  intros Hc Hx. destruct (stored_order v w x y Hw Hc Hx Hy) as [_ ->].
  destruct Hc as [Hv _]. destruct iu.
  - rewrite (bound_end v x Hv Hx).
    destruct (bytes_cmp y x); intuition congruence.
  - rewrite (below_start x y r (bound_separated v x Hv Hx)).
    destruct (bytes_cmp y x); intuition congruence.
Qed.

(** The range relative to the header holds the values that match. *)
Lemma value_range_exact p a b :
  scannable p w -> value_range p = Ok (a, b) ->
  (bytes_cmp a (y ++ r) <> Gt /\
   match b with Some b => bytes_cmp (y ++ r) b = Lt | None => True end) <-> matches p w.
Proof.
  intros Hs Hp. destruct p as [v|lower upper il iu|v|]; simpl in Hp, Hs.
  - destruct (encode (normalize_int_value v)) as [x|] eqn:Hx; simplify_eq.
    assert (Hv : valid_value v) by (destruct Hs as [Hc|[? _]]; [apply Hc|done]).
    rewrite (above_start a y r (bound_separated v a Hv Hx)), (bound_end v a Hv Hx). simpl.
    rewrite <- (stored_equal v w a y Hw Hs Hx Hy), <- bytes_cmp_eq_iff, (bytes_cmp_antisym a y).
    destruct (bytes_cmp a y); simpl; split; try done; by intros [? ?].
  - destruct Hs as [Hl Hu]. simpl.
    assert (Ha : bytes_cmp a (y ++ r) <> Gt <->
      match lower with
      | Some v => Val.value_cmp v w = Some Lt \/ (il = true /\ Val.value_cmp v w = Some Eq)
      | None => True end).
    { destruct lower as [v|]; [|assert (a = []) as -> by (repeat case_match; by simplify_eq); by destruct (y ++ r)].
      destruct (encode (normalize_int_value v)) as [x|] eqn:Hx; [|done].
      assert (a = if il then x else prefix_upper_bound x) as -> by (repeat case_match; by simplify_eq).
      apply lower_exact; auto. }
    rewrite Ha. destruct upper as [v|].
    + destruct (encode (normalize_int_value v)) as [x|] eqn:Hx; [|by repeat case_match].
      assert (b = Some (if iu then prefix_upper_bound x else x)) as -> by (repeat case_match; by simplify_eq).
      by rewrite upper_exact by auto.
    + assert (b = None) as -> by (repeat case_match; by simplify_eq). done.
  - destruct (prefix_bounds v) as [[lo hi]|] eqn:Hb; simplify_eq. destruct Hs as (Hv & He & Hi & Ht).
    apply prefix_bounds_exact; try done. by apply normalize_valid.
  - simplify_eq. simpl. split; [done|]. intros _. split; [|done]. by destruct (y ++ r).
Qed.

(** The range of a predicate holds exactly the matching entries of its index. *)
Lemma scan_range_exact h h' p lo hi :
  separated h h' -> Forall is_byte h -> Forall is_byte h' -> ~ Forall (fun b => b = 255) h ->
  scannable p w -> scan_range h p = Ok (lo, hi) ->
  in_range lo hi (h' ++ y ++ r) <-> h = h' /\ matches p w.
Proof.
  intros Hs Bh Bh' Hff Hsc Hr0. rewrite scan_range_value in Hr0.
  destruct (value_range p) as [[a b]|] eqn:Hv; [|done]. simplify_eq. unfold in_range.
  pose proof (encode_is_bytes _ _ (normalize_valid w Hw) Hy) as By.
  assert (Hend : bytes_cmp (h' ++ y ++ r) (prefix_upper_bound h) = Lt <-> bytes_cmp h' h <> Gt).
  { apply below_range_end; try done; [by apply Forall_app|by apply Exists_app; right]. }
  destruct (decide (h = h')) as [<-|Hne].
  - rewrite <- (value_range_exact p a b Hsc Hv), bytes_cmp_app, bytes_cmp_refl by done.
    destruct b as [b|]; [rewrite bytes_cmp_app, bytes_cmp_refl by done; naive_solver|].
    rewrite Hend, bytes_cmp_refl. naive_solver.
  - split; [|by intros [? _]]. intros [Hlo Hhi]. exfalso.
    assert (Hc : bytes_cmp h h' = Lt).
    { rewrite Hs in Hlo. unfold then_bytes in Hlo. destruct (bytes_cmp h h') eqn:E; try done.
      by apply bytes_cmp_eq in E. }
    pose proof (bytes_cmp_antisym h h') as Hc'. rewrite Hc in Hc'. simpl in Hc'.
    destruct b as [b|].
    + rewrite (separated_sym _ _ Hs) in Hhi. unfold then_bytes in Hhi. by rewrite Hc' in Hhi.
    + apply Hend in Hhi. by rewrite Hc' in Hhi.
Qed.

End entry.

(** ** Keys *)

Lemma header_not_ff kt s n : kt <> 255 -> ~ Forall (fun b => b = 255) (header kt s n).
Proof.
  intros Hk Hff. unfold header in Hff. apply Forall_app in Hff as [_ Hff]. by decompose_Forall_hyps.
Qed.

Lemma header_eq kt s n s' n' :
  is_u64 s -> is_u64 s' -> valid_name n -> valid_name n' ->
  header kt s n = header kt s' n' <-> s = s' /\ n = n'.
Proof. intros. split; [by apply header_inj|]. by intros [-> ->]. Qed.

Lemma header_app kt s n z :
  le_bytes 8 s ++ [kt] ++ le_bytes 4 (Z.of_nat (length n)) ++ n ++ z = header kt s n ++ z.
Proof. unfold header. by rewrite <- !app_assoc. Qed.

(** [C19] A vertex index scan is exact.  For valid names and values, a non-empty
    identifier and a [scannable] predicate, the key of an entry lies in the byte
    range of the predicate exactly when the entry belongs to that index of that
    space and its value matches the predicate.  Scannable: a range bound and the
    value are of one stored type, an equality is within a type or between integers
    of any width, and a prefix is given in the stored type of the value and, for
    text and blobs, does not end with the byte 0xFF. *)
Theorem vertex_scan_exact s n s' n' p (w vid : Value Dec) lo hi k :
  is_u64 s -> is_u64 s' -> valid_name n -> valid_name n' ->
  valid_value w -> valid_value vid -> vid <> VEmpty -> scannable p w ->
  compute_vertex_index_scan_range s n p = Ok (lo, hi) ->
  build_vertex_index_key s' n' w vid = Ok k ->
  in_range lo hi k <-> (s = s' /\ n = n') /\ matches p w.
Proof.
  intros Hs Hs' Hn Hn' Hw Hv Hve Hsc Hr Hk. rewrite vertex_scan_range in Hr.
  unfold build_vertex_index_key in Hk.
  destruct (encode (normalize_int_value w)) as [y|] eqn:Hy; [|done].
  destruct (encode vid) as [r|] eqn:Hvid; [|done]. simplify_eq.
  rewrite <- (header_eq KEY_TYPE_VERTEX_FORWARD s n s' n') by done.
  rewrite <- (scan_range_exact w y r Hw Hy (encode_is_bytes _ _ Hv Hvid) (encode_nonzero _ _ Hvid Hve)
    _ (header KEY_TYPE_VERTEX_FORWARD s' n') p lo hi); try done.
  - by apply header_separated.
  - by apply header_bytes.
  - by apply header_bytes.
  - by apply header_not_ff.
Qed.

Lemma edge_identity_bytes (src dst : Value Dec) t rank x :
  valid_value src -> valid_value dst -> Forall is_byte t -> utf8_valid t = true ->
  - 2 ^ 63 <= rank < 2 ^ 63 ->
  encode_edge_identity src dst t rank = Ok x ->
  Forall is_byte x /\ Exists (fun b => b <> 0) x.
Proof.
  intros Hs Hd Ht Hu Hk Hx. unfold encode_edge_identity in Hx.
  destruct (encode src) as [xs|] eqn:Es; [|done]. destruct (encode dst) as [xd|] eqn:Ed; [|done].
  destruct (encode (VString t)) as [xt|] eqn:Et; [|done].
  destruct (encode (VBigInt rank)) as [xr|] eqn:Er; [|done]. simplify_eq. split.
  - apply Forall_app. split; [by apply (encode_is_bytes src)|].
    apply Forall_app. split; [by apply (encode_is_bytes dst)|].
    apply Forall_app. split; [by apply (encode_is_bytes (VString t))|].
    by apply (encode_is_bytes (VBigInt rank)).
  - apply Exists_app; right. apply Exists_app; right. apply Exists_app; left.
    by apply (encode_nonzero (VString t)).
Qed.

(** An edge index scan is exact in the same sense. *)
Theorem edge_scan_exact s n s' n' p (w src dst : Value Dec) t rank lo hi k :
  is_u64 s -> is_u64 s' -> valid_name n -> valid_name n' ->
  valid_value w -> valid_value src -> valid_value dst -> Forall is_byte t -> utf8_valid t = true ->
  - 2 ^ 63 <= rank < 2 ^ 63 -> scannable p w ->
  compute_edge_index_scan_range s n p = Ok (lo, hi) ->
  build_edge_index_key s' n' w src dst t rank = Ok k ->
  in_range lo hi k <-> (s = s' /\ n = n') /\ matches p w.
Proof.
  intros Hs Hs' Hn Hn' Hw Hsrc Hdst Ht Hu Hk Hsc Hr Hkey. rewrite edge_scan_range in Hr.
  unfold build_edge_index_key in Hkey.
  destruct (encode (normalize_int_value w)) as [y|] eqn:Hy; [|done].
  destruct (encode_edge_identity src dst t rank) as [r|] eqn:Hid; [|done]. simplify_eq.
  destruct (edge_identity_bytes src dst t rank r) as [Br Nr]; try done.
  rewrite <- (header_eq KEY_TYPE_EDGE_FORWARD s n s' n') by done.
  rewrite <- (scan_range_exact w y r Hw Hy Br Nr _ (header KEY_TYPE_EDGE_FORWARD s' n') p lo hi); try done.
  - by apply header_separated.
  - by apply header_bytes.
  - by apply header_bytes.
  - by apply header_not_ff.
Qed.

(** ** Parsing what was built *)

Lemma decode_at_value (v : Value Dec) x pre r :
  valid_value v -> encode v = Ok x ->
  exists v', decode_at (pre ++ x ++ r) (length pre) = Ok (v', length x) /\ reads_back v v'.
Proof.
  intros Hv Hx. destruct (decode_encode_value false v x r Hv Hx) as (v' & Hd & Hr).
  exists v'. split; [|done]. unfold decode_at. rewrite decide_False by (rewrite length_app; lia).
  by rewrite drop_app_length, Hd.
Qed.

Lemma name_len_header kt s n r :
  valid_name n -> name_len_at (header kt s n ++ r) 9 = length n.
Proof.
  intros [_ Hn]. unfold name_len_at, header. rewrite <- !app_assoc, read_le_skip by lia. cbn [Nat.sub app].
  rewrite read_le_cons, read_le_head by (change (256 ^ Z.of_nat 4) with (2 ^ 32); lia). lia.
Qed.

Lemma length_header kt s n : length (header kt s n) = (13 + length n)%nat.
Proof. unfold header. rewrite !length_app, !length_le_bytes. simpl. lia. Qed.

(** The identifier at the end of a vertex key. *)
Lemma parse_vertex_key s n (w vid : Value Dec) k :
  valid_name n -> valid_value w -> valid_value vid ->
  build_vertex_index_key s n w vid = Ok k ->
  exists vid', parse_vertex_id_from_key k = Ok vid' /\ reads_back vid vid'.
Proof.
  intros Hn Hw Hv Hk. unfold build_vertex_index_key in Hk.
  destruct (encode (normalize_int_value w)) as [y|] eqn:Hy; [|done].
  destruct (encode vid) as [r|] eqn:Hvid; [|done].
  assert (k = header KEY_TYPE_VERTEX_FORWARD s n ++ y ++ r) as ->
    by (injection Hk as <-; by rewrite <- header_app).
  set (h := header KEY_TYPE_VERTEX_FORWARD s n).
  assert (Hlen : length h = (13 + length n)%nat) by apply length_header.
  unfold parse_vertex_id_from_key. rewrite decide_False by (rewrite length_app; lia).
  pose proof (name_len_header KEY_TYPE_VERTEX_FORWARD s n (y ++ r) Hn) as Hnl. fold h in Hnl.
  rewrite Hnl. change (9 + 4 + length n)%nat with (13 + length n)%nat. rewrite <- Hlen.
  destruct (decode_at_value _ y h r (normalize_valid w Hw) Hy) as (w' & -> & _).
  destruct (decode_at_value vid r (h ++ y) [] Hv Hvid) as (v' & Hd & Hr).
  rewrite app_nil_r, <- app_assoc, length_app in Hd. rewrite Hd. by exists v'.
Qed.


(** The edge at the end of an edge key. *)
Lemma parse_edge_key s n (w src dst : Value Dec) t rank k :
  valid_name n -> valid_value w -> valid_value src -> valid_value dst ->
  Forall is_byte t -> utf8_valid t = true -> - 2 ^ 63 <= rank < 2 ^ 63 ->
  build_edge_index_key s n w src dst t rank = Ok k ->
  exists src' dst', parse_edge_identity_from_key k = Ok (src', dst', t, rank) /\
    reads_back src src' /\ reads_back dst dst'.
Proof.
  intros Hn Hw Hs Hd Ht Hu Hr Hk. unfold build_edge_index_key, encode_edge_identity in Hk.
  destruct (encode (normalize_int_value w)) as [y|] eqn:Hy; [|done].
  destruct (encode src) as [xs|] eqn:Es; [|done]. destruct (encode dst) as [xd|] eqn:Ed; [|done].
  destruct (encode (VString t)) as [xt|] eqn:Et; [|done].
  destruct (encode (VBigInt rank)) as [xr|] eqn:Er; [|done].
  set (h := header KEY_TYPE_EDGE_FORWARD s n).
  assert (k = h ++ y ++ xs ++ xd ++ xt ++ xr) as ->.
  { unfold h. rewrite <- header_app. congruence. }
  assert (Hlen : length h = (13 + length n)%nat) by apply length_header.
  unfold parse_edge_identity_from_key. rewrite decide_False by (rewrite length_app; lia).
  pose proof (name_len_header KEY_TYPE_EDGE_FORWARD s n (y ++ xs ++ xd ++ xt ++ xr) Hn) as Hnl.
  fold h in Hnl. rewrite Hnl. change (9 + 4 + length n)%nat with (13 + length n)%nat. rewrite <- Hlen.
  destruct (decode_at_value _ y h (xs ++ xd ++ xt ++ xr) (normalize_valid w Hw) Hy) as (w' & -> & _).
  destruct (decode_at_value src xs (h ++ y) (xd ++ xt ++ xr) Hs Es) as (s1 & D1 & R1).
  destruct (decode_at_value dst xd (h ++ y ++ xs) (xt ++ xr) Hd Ed) as (d1 & D2 & R2).
  destruct (decode_at_value (VString t) xt (h ++ y ++ xs ++ xd) xr) as (t1 & D3 & R3); [done..|].
  destruct (decode_at_value (VBigInt rank) xr (h ++ y ++ xs ++ xd ++ xt) []) as (r1 & D4 & R4); [done..|].
  rewrite app_nil_r in D4.
  repeat match goal with
  | D : decode_at _ _ = _ |- _ =>
      progress (repeat rewrite <- app_assoc in D; repeat rewrite length_app in D;
        repeat rewrite Nat.add_assoc in D)
  end.
  rewrite D1, D2, D3. cbn [reads_back canonical_value] in R3, R4. subst.
  cbn [type_of_value]. rewrite D4. by exists s1, d1.
Qed.

(** The value at the end of a reverse key, from the key without its first nine
    bytes. *)
Lemma extract_reverse_suffix s (vid w : Value Dec) n k x :
  valid_name n -> valid_value vid -> encode (normalize_int_value w) = Ok x ->
  build_vertex_reverse_key_with_value s vid n w = Ok k ->
  extract_value_from_reverse_suffix (drop 9 k) = Ok x.
Proof.
  intros [_ Hn] Hv Hx Hk. unfold build_vertex_reverse_key_with_value in Hk. rewrite Hx in Hk.
  destruct (encode vid) as [e|] eqn:He; [|done].
  set (l := le_bytes 4 (Z.of_nat (length n))). assert (Hl : length l = 4%nat) by apply length_le_bytes.
  assert (k = (le_bytes 8 s ++ [KEY_TYPE_VERTEX_REVERSE]) ++ e ++ l ++ n ++ x) as ->
    by (injection Hk as <-; by rewrite <- app_assoc).
  rewrite drop_app_length' by (rewrite length_app, length_le_bytes; done).
  destruct (encode_tag vid e He) as [body Eb].
  unfold extract_value_from_reverse_suffix. rewrite decide_False by by rewrite Eb.
  destruct (decode_at_value vid e [] (l ++ n ++ x) Hv He) as (v' & Hd & _).
  rewrite app_nil_l in Hd. change (length (@nil Z)) with 0%nat in Hd. rewrite Hd.
  unfold parse_name. rewrite !length_app, Hl, decide_False by lia.
  assert (Hnl : name_len_at (e ++ l ++ n ++ x) (length e) = length n).
  { unfold name_len_at, read_le. rewrite slice_skip, Nat.sub_diag by lia.
    fold (read_le 0 4 (l ++ n ++ x)). unfold l.
    rewrite read_le_head by (change (256 ^ Z.of_nat 4) with (2 ^ 32); lia). lia. }
  rewrite Hnl, decide_False by lia.
  assert (Hall : (length e + 4 + length n)%nat = length (e ++ l ++ n)) by (rewrite !length_app; lia).
  rewrite Hall. replace (e ++ l ++ n ++ x) with ((e ++ l ++ n) ++ x) by by rewrite <- !app_assoc.
  by rewrite drop_app_length.
Qed.


End facts.


End IndexKeyFacts.
