(* ===== verification/IndexManifest.v ===== *)
(** * Index manifests

    [linkrs-storage/src/index/manifest.rs]: the routing table of an index
    generation (shards as half-open key ranges), routing of a key and of a scan,
    the states of a generation build, and the catalog that publishes manifests
    and fences their reclamation with reader handles.

    A manifest behind an [Arc] is a manifest with the number of its reader
    handles; the strong count the source reads is that number plus the
    catalog's own reference.  File names and checksums are not modelled, except
    that a shard has a checkpoint file or not. *)

From stdpp Require Import base list strings.
From Stdlib Require Import ZArith Lia.
From S2P Require Import Prelude Types Values WalTypes OrderedCodec OrderedFacts.

Module Manifest.
Import Codec CodecFacts.

(** ** Shards *)

Record IndexShard := mkShard {
  shard_id : Z;
  lower : option (list Z);
  upper : option (list Z);
  has_checkpoint_file : bool;
}.

(** Byte strings in order: [a < b] and [a <= b]. *)
Definition bytes_lt (a b : list Z) : bool := match bytes_cmp a b with Lt => true | _ => false end.
Definition bytes_le (a b : list Z) : bool := match bytes_cmp a b with Gt => false | _ => true end.

(** [Option::is_none_or]. *)
Definition is_none_or {A} (o : option A) (f : A -> bool) : bool :=
  match o with None => true | Some a => f a end.

Definition contains (s : IndexShard) (key : list Z) : bool :=
  is_none_or (lower s) (fun l => bytes_le l key) && is_none_or (upper s) (fun u => bytes_lt key u).

Definition intersects (s : IndexShard) (qlower qupper : option (list Z)) : bool :=
  match upper s, qlower with Some u, Some l => bytes_lt l u | _, _ => true end &&
  match qupper, lower s with Some u, Some l => bytes_lt l u | _, _ => true end.

(** [IndexShard::validate]. *)
Definition shard_validate (s : IndexShard) : bool :=
  match lower s, upper s with Some l, Some u => bytes_lt l u | _, _ => true end &&
  has_checkpoint_file s.

(** ** Manifests *)

Record IndexManifest := mkManifest {
  space_id : Z;
  index_id : Z;
  generation : Z;
  shards : list IndexShard;
}.

(** The checks on two neighbours: different identifiers, touching ranges. *)
Definition contiguous (a b : IndexShard) : bool :=
  bool_decide (shard_id a <> shard_id b) && bool_decide (upper a = lower b).

Fixpoint windows_ok (l : list IndexShard) : bool :=
  match l with
  | a :: (b :: _) as r => contiguous a b && windows_ok r
  | _ => true
  end.

Definition is_none {A} (o : option A) : bool := match o with None => true | _ => false end.

Definition validate (m : IndexManifest) : bool :=
  match head (shards m), last (shards m) with
  | Some f, Some l =>
      is_none (lower f) && is_none (upper l) && forallb shard_validate (shards m) &&
      windows_ok (shards m)
  | _, _ => false
  end.

(** [IndexManifest::new]. *)
Definition new (space index gen : Z) (ss : list IndexShard) : result IndexManifest StorageError :=
  let m := mkManifest space index gen ss in
  if validate m then Ok m else Err SEDb.

(** [slice::partition_point]: the number of leading elements that satisfy the
    predicate, which is what it returns on a partitioned slice. *)
Fixpoint partition_point {A} (p : A -> bool) (l : list A) : nat :=
  match l with
  | [] => 0
  | a :: r => if p a then S (partition_point p r) else 0
  end.

Definition starts_at_or_before (key : list Z) (s : IndexShard) : bool :=
  is_none_or (lower s) (fun l => bytes_le l key).

Definition route_key (m : IndexManifest) (key : list Z) : option IndexShard :=
  match partition_point (starts_at_or_before key) (shards m) with
  | O => None
  | S i =>
      match shards m !! i with
      | Some s => if contains s key then Some s else None
      | None => None
      end
  end.

Inductive PartitionSelector :=
| SelAll
| SelShards (ids : list Z)
| SelKeyRange (lower upper : option (list Z)).

Definition selected (sel : PartitionSelector) (s : IndexShard) : bool :=
  match sel with
  | SelAll => true
  | SelShards ids => bool_decide (shard_id s ∈ ids)
  | SelKeyRange l u => intersects s l u
  end.

Definition select_shards (m : IndexManifest) (sel : PartitionSelector) : list IndexShard :=
  List.filter (selected sel) (shards m).

Definition bytes_max (a b : list Z) : list Z := if bytes_le a b then b else a.
Definition bytes_min (a b : list Z) : list Z := if bytes_le a b then a else b.

(** The part of a query that falls into a shard. *)
Definition shard_range (s : IndexShard) (qlower qupper : list Z) : option (Z * list Z * list Z) :=
  let lo := match lower s with None => qlower | Some v => bytes_max v qlower end in
  let hi := match upper s with None => qupper | Some v => bytes_min v qupper end in
  if bytes_lt lo hi then Some (shard_id s, lo, hi) else None.

Definition scan_ranges_with_shard (m : IndexManifest) (sel : PartitionSelector)
    (qlower qupper : list Z) : list (Z * list Z * list Z) :=
  omap (fun s => shard_range s qlower qupper)
    (List.filter (fun s => intersects s (Some qlower) (Some qupper)) (select_shards m sel)).

(** ** Generation builds *)

Inductive GenerationState := Building | CatchingUp | Publishing | ActiveGen.

#[export] Instance GenerationState_eq_dec : EqDecision GenerationState.
Proof. solve_decision. Defined.

Record GenerationBuildState := mkBuild {
  bs_generation : Z;
  bs_snapshot_timestamp : Z;
  bs_start_lsn : Z;
  bs_barrier_lsn : option Z;
  bs_state : GenerationState;
}.

Definition build_new (gen snapshot start_lsn : Z) : GenerationBuildState :=
  mkBuild gen snapshot start_lsn None Building.

Definition require_state (b : GenerationBuildState) (expected : GenerationState)
  : result unit StorageError :=
  if decide (bs_state b = expected) then Ok tt else Err SEInvalidInput.

Definition transition_to_catching_up (b : GenerationBuildState)
  : result GenerationBuildState StorageError :=
  match require_state b Building with
  | Err e => Err e
  | Ok _ => Ok (mkBuild (bs_generation b) (bs_snapshot_timestamp b) (bs_start_lsn b)
                  (bs_barrier_lsn b) CatchingUp)
  end.

Definition transition_to_publishing (b : GenerationBuildState) (barrier_lsn : Z)
  : result GenerationBuildState StorageError :=
  match require_state b CatchingUp with
  | Err e => Err e
  | Ok _ =>
      if decide (barrier_lsn < bs_start_lsn b) then Err SEInvalidInput
      else Ok (mkBuild (bs_generation b) (bs_snapshot_timestamp b) (bs_start_lsn b)
                 (Some barrier_lsn) Publishing)
  end.

Definition transition_to_active (b : GenerationBuildState)
  : result GenerationBuildState StorageError :=
  match require_state b Publishing with
  | Err e => Err e
  | Ok _ => Ok (mkBuild (bs_generation b) (bs_snapshot_timestamp b) (bs_start_lsn b)
                  (bs_barrier_lsn b) ActiveGen)
  end.

Definition is_active (b : GenerationBuildState) : bool := bool_decide (bs_state b = ActiveGen).

(** ** The catalog *)

(** A manifest with the number of its reader handles. *)
Record Counted := mkCounted { c_manifest : IndexManifest; c_readers : nat }.

Record ManifestCatalog := mkCatalog {
  active : Counted;
  retired : list Counted;
  published : Z;
  reclaimed_files : Z;
}.

Definition gen_of (c : Counted) : Z := generation (c_manifest c).

Definition pin (c : Counted) : Counted := mkCounted (c_manifest c) (S (c_readers c)).
Definition unpin (c : Counted) : Counted := mkCounted (c_manifest c) (pred (c_readers c)).

Definition catalog_new (m : IndexManifest) : result ManifestCatalog StorageError :=
  if validate m then Ok (mkCatalog (mkCounted m 0) [] 0 0) else Err SEDb.

(** [acquire]: a handle on the active manifest. *)
Definition acquire (c : ManifestCatalog) : ManifestCatalog * IndexManifest :=
  (mkCatalog (pin (active c)) (retired c) (published c) (reclaimed_files c), c_manifest (active c)).

(** The first entry of a generation changed. *)
Fixpoint update_first (gen : Z) (f : Counted -> Counted) (l : list Counted) : list Counted :=
  match l with
  | [] => []
  | e :: r => if decide (gen_of e = gen) then f e :: r else e :: update_first gen f r
  end.

Definition acquire_generation (c : ManifestCatalog) (gen : Z)
  : ManifestCatalog * option IndexManifest :=
  if decide (gen_of (active c) = gen) then
    (mkCatalog (pin (active c)) (retired c) (published c) (reclaimed_files c),
     Some (c_manifest (active c)))
  else
    match List.find (fun e => bool_decide (gen_of e = gen)) (retired c) with
    | Some e =>
        (mkCatalog (active c) (update_first gen pin (retired c)) (published c) (reclaimed_files c),
         Some (c_manifest e))
    | None => (c, None)
    end.

(** A handle on generation [gen] is dropped. *)
Definition release (c : ManifestCatalog) (gen : Z) : ManifestCatalog :=
  if decide (gen_of (active c) = gen) then
    mkCatalog (unpin (active c)) (retired c) (published c) (reclaimed_files c)
  else mkCatalog (active c) (update_first gen unpin (retired c)) (published c) (reclaimed_files c).

Definition publish (c : ManifestCatalog) (m : IndexManifest)
  : result (ManifestCatalog * IndexManifest) StorageError :=
  if negb (validate m) then Err SEDb
  else if decide (index_id m <> index_id (c_manifest (active c))) then Err SEInvalidInput
  else if decide (generation m <= gen_of (active c)) then Err SEInvalidInput
  else Ok (mkCatalog (mkCounted m 1) (retired c ++ [active c]) (wrap_u64 (published c + 1))
             (reclaimed_files c), m).

Definition unread (e : Counted) : bool := bool_decide (c_readers e = 0%nat).

Definition take_reclaimable_manifests (c : ManifestCatalog)
  : ManifestCatalog * list IndexManifest :=
  let gone := map c_manifest (List.filter unread (retired c)) in
  let total := fold_left (fun n m => n + Z.of_nat (length (shards m))) gone 0 in
  (mkCatalog (active c) (List.filter (fun e => negb (unread e)) (retired c)) (published c)
     (wrap_u64 (reclaimed_files c + total)), gone).

(** [take_reclaimable_files]: the shards whose checkpoint files may be deleted,
    for the file names. *)
Definition take_reclaimable_files (c : ManifestCatalog) : ManifestCatalog * list IndexShard :=
  let '(c', gone) := take_reclaimable_manifests c in (c', concat (map shards gone)).

Record ManifestCatalogStats := mkCatalogStats {
  ms_active_generation : Z;
  ms_active_readers : Z;
  ms_retired_generations : Z;
  ms_published_manifests : Z;
  ms_reclaimed_files : Z;
}.

(** [stats], less the age of the oldest retired manifest. *)
Definition stats (c : ManifestCatalog) : ManifestCatalogStats :=
  mkCatalogStats (gen_of (active c)) (Z.of_nat (c_readers (active c)))
    (Z.of_nat (length (retired c))) (published c) (reclaimed_files c).

Definition retired_reclaimable (c : ManifestCatalog) (matches : IndexManifest -> bool)
  : list IndexManifest :=
  map c_manifest (List.filter (fun e => unread e && matches (c_manifest e)) (retired c)).

Definition remove_retired (c : ManifestCatalog) (gen : Z) : ManifestCatalog * bool :=
  let kept := List.filter (fun e => negb (bool_decide (gen_of e = gen))) (retired c) in
  (mkCatalog (active c) kept (published c) (reclaimed_files c),
   negb (bool_decide (length kept = length (retired c)))).

End Manifest.
