(* ===== verification/IndexManifestFacts.v ===== *)
(** * Facts about index manifests

    Routing is total and unique, a scan is cut into one range per shard without
    loss or overlap, and a manifest a reader has pinned is not reclaimed. *)

From stdpp Require Import base list strings relations.
From Stdlib Require Import ZArith Lia.
From S2P Require Import Prelude Types Values WalTypes OrderedCodec OrderedFacts IndexManifest.

Module ManifestFacts.
Import Codec CodecFacts Manifest.

(** ** The order of keys *)

Lemma bytes_lt_iff a b : bytes_lt a b = true <-> bytes_cmp a b = Lt.
Proof. unfold bytes_lt. by destruct (bytes_cmp a b). Qed.

Lemma bytes_le_iff a b : bytes_le a b = true <-> bytes_cmp a b <> Gt.
Proof. unfold bytes_le. by destruct (bytes_cmp a b). Qed.

Lemma bytes_lt_le_trans a b c :
  bytes_cmp a b = Lt -> bytes_cmp b c <> Gt -> bytes_cmp a c = Lt.
Proof.
  revert b c; induction a as [|x a IH]; intros [|y b] [|z c]; simpl; try done.
  destruct (Z.compare_spec x y), (Z.compare_spec y z), (Z.compare_spec x z);
    subst; try done; try lia. apply IH.
Qed.

Lemma bytes_le_lt_trans a b c :
  bytes_cmp a b <> Gt -> bytes_cmp b c = Lt -> bytes_cmp a c = Lt.
Proof.
  revert b c; induction a as [|x a IH]; intros [|y b] [|z c]; simpl; try done.
  destruct (Z.compare_spec x y), (Z.compare_spec y z), (Z.compare_spec x z);
    subst; try done; try lia. apply IH.
Qed.

Lemma bytes_le_trans a b c :
  bytes_cmp a b <> Gt -> bytes_cmp b c <> Gt -> bytes_cmp a c <> Gt.
Proof.
  intros H1 H2. destruct (bytes_cmp a b) eqn:E; [|by rewrite (bytes_lt_le_trans a b c)|done].
  apply bytes_cmp_eq in E. by subst.
Qed.

Lemma not_le_lt a b : bytes_le a b = false <-> bytes_lt b a = true.
Proof.
  unfold bytes_le, bytes_lt. rewrite (bytes_cmp_antisym a b). by destruct (bytes_cmp a b).
Qed.

Lemma bytes_lt_irrefl a b : bytes_lt a b = true -> bytes_le b a = false.
Proof. apply not_le_lt. Qed.

(** ** Well-formed tables *)

(** Only the first shard is unbounded below. *)
Definition inner_bounded (l : list IndexShard) : Prop :=
  Forall (fun s => lower s <> None) (tail l).

(** The part of [validate] that every tail of the table keeps. *)
Definition table_ok (l : list IndexShard) : Prop :=
  windows_ok l = true /\ Forall (fun s => shard_validate s = true) l /\ inner_bounded l /\
  (forall s, last l = Some s -> upper s = None).

Lemma validate_table m :
  validate m = true -> inner_bounded (shards m) ->
  table_ok (shards m) /\ exists s r, shards m = s :: r /\ lower s = None.
Proof.
  unfold validate. intros Hv Hi. destruct (shards m) as [|s r] eqn:E; [done|].
  change (head (s :: r)) with (Some s) in Hv.
  destruct (last (s :: r)) as [l|] eqn:El; [|done].
  rewrite !andb_true_iff in Hv. destruct Hv as [[[Hf Hl] Hs] Hw].
  split; [|exists s, r; split; [done|]; by destruct (lower s)].
  split_and!; try done.
  - apply List.Forall_forall. by apply forallb_forall.
  - intros t Ht. rewrite El in Ht. injection Ht as <-. by destruct (upper l).
Qed.

Lemma table_ok_tail s t r : table_ok (s :: t :: r) -> table_ok (t :: r).
Proof.
  intros (Hw & Hs & Hi & Hl). cbn [windows_ok] in Hw. apply andb_true_iff in Hw as [_ Hw].
  apply Forall_cons in Hs as [_ Hs]. unfold inner_bounded in Hi. apply Forall_cons in Hi as [_ Hi].
  split_and!; [done|done|exact Hi|exact Hl].
Qed.

(** Neighbours touch. *)
Lemma table_ok_head s t r :
  table_ok (s :: t :: r) ->
  exists b, upper s = Some b /\ lower t = Some b /\ forall l, lower s = Some l -> bytes_cmp l b = Lt.
Proof.
  intros (Hw & Hs & Hi & _). cbn [windows_ok] in Hw. apply andb_true_iff in Hw as [Hc _].
  unfold contiguous in Hc. rewrite andb_true_iff, !bool_decide_eq_true in Hc. destruct Hc as [_ Hu].
  unfold inner_bounded in Hi. simpl in Hi. decompose_Forall_hyps.
  destruct (lower t) as [b|]; [|done]. exists b. split_and!; [done|done|].
  intros l Hl. unfold shard_validate in *. rewrite Hl, Hu in *.
  match goal with H : _ && _ = true |- _ => apply andb_true_iff in H as [H _]; by apply bytes_lt_iff end.
Qed.

(** A key past the start of a shard is past the starts of those before it: the
    slice is partitioned, as [partition_point] asks. *)
Lemma starts_mono key s r t :
  table_ok (s :: r) -> t ∈ s :: r -> starts_at_or_before key t = true ->
  starts_at_or_before key s = true.
Proof.
  revert s; induction r as [|u r IH]; intros s Hok Ht Hk.
  - apply list_elem_of_singleton in Ht as ->. done.
  - apply elem_of_cons in Ht as [->|Ht]; [done|].
    pose proof (IH u (table_ok_tail _ _ _ Hok) Ht Hk) as Hu.
    destruct (table_ok_head _ _ _ Hok) as (b & _ & Hl & Hlt).
    unfold starts_at_or_before in *. rewrite Hl in Hu. destruct (lower s) as [l|]; [|done]. simpl in *.
    rewrite bytes_le_iff in *. intros E.
    pose proof (bytes_lt_le_trans l b key (Hlt l eq_refl) Hu). congruence.
Qed.

Lemma contains_spec s key :
  contains s key = starts_at_or_before key s && is_none_or (upper s) (fun u => bytes_lt key u).
Proof. done. Qed.

(** Exactly one shard of a table holds a key past its start, and it is the one
    before the partition point. *)
Lemma route_table key s r :
  table_ok (s :: r) -> starts_at_or_before key s = true ->
  exists i t, partition_point (starts_at_or_before key) (s :: r) = S i /\
    (s :: r) !! i = Some t /\ contains t key = true /\
    forall j u, (s :: r) !! j = Some u -> contains u key = true -> j = i.
Proof.
  revert s; induction r as [|t r IH]; intros s Hok Hs.
  - exists 0%nat, s. simpl. rewrite Hs. split_and!; [done|done| |].
    + rewrite contains_spec, Hs. destruct Hok as (_ & _ & _ & Hl). by rewrite (Hl s eq_refl).
    + intros [|j] u Hu _; done.
  - destruct (table_ok_head _ _ _ Hok) as (b & Hub & Hlb & _).
    pose proof (table_ok_tail _ _ _ Hok) as Hok'.
    destruct (starts_at_or_before key t) eqn:Ht.
    + destruct (IH t Hok' Ht) as (i & u & Hp & Hi & Hc & Hu). exists (S i), u.
      cbn [partition_point] in *. rewrite Hs, Hp. split_and!; try done.
      intros [|j] v Hv Hcv; [|f_equal; by apply (Hu j v)]. simpl in Hv. simplify_eq. exfalso.
      rewrite contains_spec, Hub in Hcv. simpl in Hcv. apply andb_true_iff in Hcv as [_ Hcv].
      unfold starts_at_or_before in Ht. rewrite Hlb in Ht. simpl in Ht.
      apply bytes_lt_irrefl in Hcv. congruence.
    + exists 0%nat, s. cbn [partition_point]. rewrite Hs, Ht. split_and!; [done|done| |].
      * rewrite contains_spec, Hs, Hub. simpl. unfold starts_at_or_before in Ht. rewrite Hlb in Ht.
        simpl in Ht. by apply not_le_lt.
      * intros [|j] v Hv Hcv; [done|]. exfalso. simpl in Hv.
        rewrite contains_spec in Hcv. apply andb_true_iff in Hcv as [Hcv _].
        assert (starts_at_or_before key t = true); [|congruence].
        apply (starts_mono key t r v); [done| |done]. by eapply list_elem_of_lookup_2.
Qed.

Lemma route_key_spec m key :
  validate m = true -> inner_bounded (shards m) ->
  exists i s, shards m !! i = Some s /\ contains s key = true /\ route_key m key = Some s /\
    forall j t, shards m !! j = Some t -> contains t key = true -> j = i.
Proof.
  intros Hv Hi. destruct (validate_table m Hv Hi) as [Hok (s & r & E & Hl)].
  unfold route_key. rewrite E in *.
  assert (Hs : starts_at_or_before key s = true) by (unfold starts_at_or_before; by rewrite Hl).
  destruct (route_table key s r Hok Hs) as (i & t & Hp & Ht & Hc & Hu).
  exists i, t. rewrite Hp, Ht, Hc. done.
Qed.

(** Routing is total and unique: a valid routing table in which only the
    first shard is unbounded below sends every key to the one shard whose range
    holds it. *)
Theorem route_key_total m key :
  validate m = true -> inner_bounded (shards m) ->
  exists i s, shards m !! i = Some s /\ contains s key = true /\ route_key m key = Some s /\
    forall j t, shards m !! j = Some t -> contains t key = true -> j = i.
Proof. apply route_key_spec. Qed.

(** ** Scans *)

Definition key_in (lo hi key : list Z) : Prop := bytes_le lo key = true /\ bytes_lt key hi = true.

Lemma bytes_max_le a b key : bytes_le (bytes_max a b) key = bytes_le a key && bytes_le b key.
Proof.
  unfold bytes_max. destruct (bytes_le a b) eqn:E.
  - destruct (bytes_le b key) eqn:Eb; [|by rewrite andb_false_r]. rewrite andb_true_r.
    apply bytes_le_iff in E, Eb. symmetry. apply bytes_le_iff. by apply (bytes_le_trans a b).
  - destruct (bytes_le a key) eqn:Ea; [|done]. simpl. symmetry. apply bytes_le_iff.
    apply not_le_lt, bytes_lt_iff in E. apply bytes_le_iff in Ea.
    by rewrite (bytes_lt_le_trans b a key).
Qed.

Lemma bytes_min_lt a b key : bytes_lt key (bytes_min a b) = bytes_lt key a && bytes_lt key b.
Proof.
  unfold bytes_min. destruct (bytes_le a b) eqn:E.
  - destruct (bytes_lt key a) eqn:Ea; [|done]. simpl. symmetry. apply bytes_lt_iff.
    apply bytes_lt_iff in Ea. apply bytes_le_iff in E. by apply (bytes_lt_le_trans key a).
  - destruct (bytes_lt key b) eqn:Eb; [|by rewrite andb_false_r]. rewrite andb_true_r.
    apply bytes_lt_iff in Eb. apply not_le_lt, bytes_lt_iff in E. symmetry. apply bytes_lt_iff.
    apply (bytes_lt_le_trans key b a); [done|by rewrite E].
Qed.

Lemma key_in_nonempty lo hi key : key_in lo hi key -> bytes_lt lo hi = true.
Proof.
  intros [H1 H2]. apply bytes_le_iff in H1. apply bytes_lt_iff in H2. apply bytes_lt_iff.
  by apply (bytes_le_lt_trans lo key).
Qed.

(** The keys of a shard's part of a query are the query's keys the shard
    holds. *)
Lemma shard_range_keys s ql qu key :
  (exists id lo hi, shard_range s ql qu = Some (id, lo, hi) /\ id = shard_id s /\ key_in lo hi key) <->
  key_in ql qu key /\ contains s key = true.
Proof.
  unfold shard_range.
  set (lo := match lower s with None => ql | Some v => bytes_max v ql end).
  set (hi := match upper s with None => qu | Some v => bytes_min v qu end).
  assert (Hk : key_in lo hi key <-> key_in ql qu key /\ contains s key = true).
  { unfold key_in, contains, lo, hi. rewrite andb_true_iff.
    destruct (lower s), (upper s); simpl;
      rewrite ?bytes_max_le, ?bytes_min_lt, ?andb_true_iff; tauto. }
  rewrite <- Hk. split.
  - intros (id & l & h & E & -> & Hin). destruct (bytes_lt lo hi); [|done]. by simplify_eq.
  - intros Hin. rewrite (key_in_nonempty _ _ _ Hin). by eexists _, _, _.
Qed.

Lemma intersects_holds s ql qu key :
  key_in ql qu key -> contains s key = true -> intersects s (Some ql) (Some qu) = true.
Proof.
  intros [H1 H2] Hc. rewrite contains_spec in Hc. apply andb_true_iff in Hc as [Hl Hu].
  apply bytes_le_iff in H1. apply bytes_lt_iff in H2. unfold intersects, starts_at_or_before in *.
  apply andb_true_iff. split.
  - destruct (upper s) as [u|]; [|done]. simpl in Hu. apply bytes_lt_iff in Hu. apply bytes_lt_iff.
    by apply (bytes_le_lt_trans ql key).
  - destruct (lower s) as [l|]; [|done]. simpl in Hl. apply bytes_le_iff in Hl. apply bytes_lt_iff.
    by apply (bytes_le_lt_trans l key).
Qed.

Definition range_holds (key : list Z) (r : Z * list Z * list Z) : bool :=
  bytes_le r.1.2 key && bytes_lt key r.2.

Lemma range_holds_iff key id lo hi : range_holds key (id, lo, hi) = true <-> key_in lo hi key.
Proof. unfold range_holds, key_in. simpl. by rewrite andb_true_iff. Qed.

Lemma elem_of_scan_ranges m sel ql qu r :
  r ∈ scan_ranges_with_shard m sel ql qu <->
  exists s, s ∈ shards m /\ selected sel s = true /\ intersects s (Some ql) (Some qu) = true /\
    shard_range s ql qu = Some r.
Proof.
  unfold scan_ranges_with_shard, select_shards. rewrite list_elem_of_omap.
  setoid_rewrite list_elem_of_In. setoid_rewrite filter_In. setoid_rewrite filter_In.
  split; [intros (s & [[? ?] ?] & ?)|intros (s & ? & ? & ? & ?)]; exists s; tauto.
Qed.

(** The ranges that hold a key are no more than the shards that do. *)
Lemma scan_ranges_count m sel ql qu key :
  (length (List.filter (range_holds key) (scan_ranges_with_shard m sel ql qu)) <=
   length (List.filter (fun s => contains s key) (shards m)))%nat.
Proof.
  unfold scan_ranges_with_shard, select_shards, omap. induction (shards m) as [|s l IH]; [done|].
  simpl. assert (Hin : forall id lo hi, shard_range s ql qu = Some (id, lo, hi) ->
    range_holds key (id, lo, hi) = true -> contains s key = true).
  { intros id lo hi E Hr%range_holds_iff. apply (shard_range_keys s ql qu key).
    exists id, lo, hi. split_and!; try done. unfold shard_range in E.
    by destruct (bytes_lt _ _); simplify_eq. }
  destruct (selected sel s); simpl; [|destruct (contains s key); simpl; lia].
  destruct (intersects s _ _); simpl; [|destruct (contains s key); simpl; lia].
  destruct (shard_range s ql qu) as [[[id lo] hi]|]; simpl; [|destruct (contains s key); simpl; lia].
  specialize (Hin id lo hi eq_refl). destruct (range_holds key (id, lo, hi)); simpl.
  - rewrite Hin by done. simpl. lia.
  - destruct (contains s key); simpl; lia.
Qed.

Lemma count_unique {A} (p : A -> bool) l i :
  (forall j a, l !! j = Some a -> p a = true -> j = i) -> (length (List.filter p l) <= 1)%nat.
Proof.
  revert i; induction l as [|a l IH]; intros i Hu; simpl; [lia|]. destruct (p a) eqn:Ha.
  - pose proof (Hu 0%nat a eq_refl Ha). subst i. simpl.
    assert (List.filter p l = []) as ->; [|simpl; lia].
    destruct (List.filter p l) as [|b r] eqn:E; [done|]. exfalso.
    assert (Hb : In b (List.filter p l)) by (rewrite E; by left). apply filter_In in Hb as [Hb Hpb].
    apply list_elem_of_In, list_elem_of_lookup in Hb as [j Hj]. by specialize (Hu (S j) b Hj Hpb).
  - apply (IH (pred i)). intros j b Hj Hb. specialize (Hu (S j) b Hj Hb). lia.
Qed.

(** [C26] In a validated manifest whose shards but the first all have a lower
    bound (which [validate] does not enforce), a scan is cut into shard ranges
    without loss and without overlap: a key is in some range exactly when it is in
    the query and its shard is selected, the range is that of the shard the key is
    routed to, and at most one range holds it. *)
Theorem scan_ranges_partition m sel ql qu key :
  validate m = true -> inner_bounded (shards m) ->
  (forall id lo hi, (id, lo, hi) ∈ scan_ranges_with_shard m sel ql qu -> key_in lo hi key ->
     key_in ql qu key /\
     exists s, route_key m key = Some s /\ shard_id s = id /\ selected sel s = true) /\
  (forall s, route_key m key = Some s -> selected sel s = true -> key_in ql qu key ->
     exists lo hi, (shard_id s, lo, hi) ∈ scan_ranges_with_shard m sel ql qu /\ key_in lo hi key) /\
  (length (List.filter (range_holds key) (scan_ranges_with_shard m sel ql qu)) <= 1)%nat.
Proof.
  intros Hv Hi. destruct (route_key_spec m key Hv Hi) as (i & t & Ht & Hc & Hr & Hu). split_and!.
  - intros id lo hi Hin Hk. apply elem_of_scan_ranges in Hin as (s & Hs & Hsel & _ & Hsr).
    assert (Hid : id = shard_id s).
    { unfold shard_range in Hsr. by destruct (bytes_lt _ _); simplify_eq. }
    destruct (proj1 (shard_range_keys s ql qu key)) as [Hq Hcs]; [by exists id, lo, hi|].
    split; [done|]. exists s. split_and!; [|done|done].
    apply list_elem_of_lookup in Hs as [j Hj]. pose proof (Hu j s Hj Hcs). subst j. congruence.
  - intros s Hrs Hsel Hk. rewrite Hr in Hrs. simplify_eq.
    destruct (proj2 (shard_range_keys s ql qu key) (conj Hk Hc)) as (id & lo & hi & E & -> & Hin).
    exists lo, hi. split; [|done]. apply elem_of_scan_ranges. exists s.
    split_and!; [by eapply list_elem_of_lookup_2|done|by eapply intersects_holds|done].
  - etransitivity; [apply scan_ranges_count|]. by apply (count_unique _ _ i).
Qed.

(** ** Generation builds *)

Inductive build_step : GenerationBuildState -> GenerationBuildState -> Prop :=
| bs_catch_up b b' : transition_to_catching_up b = Ok b' -> build_step b b'
| bs_publish b lsn b' : transition_to_publishing b lsn = Ok b' -> build_step b b'
| bs_activate b b' : transition_to_active b = Ok b' -> build_step b b'.

(** A build that is published has a barrier not before its snapshot, and one
    that is not has none. *)
Lemma build_barrier g ts lsn b :
  rtc build_step (build_new g ts lsn) b ->
  bs_start_lsn b = lsn /\
  match bs_state b with
  | Building | CatchingUp => bs_barrier_lsn b = None
  | Publishing | ActiveGen => exists x, bs_barrier_lsn b = Some x /\ lsn <= x
  end.
Proof.
  intros Hsteps. assert (Hinit : bs_start_lsn (build_new g ts lsn) = lsn /\
    match bs_state (build_new g ts lsn) with
    | Building | CatchingUp => bs_barrier_lsn (build_new g ts lsn) = None
    | Publishing | ActiveGen => exists x, bs_barrier_lsn (build_new g ts lsn) = Some x /\ lsn <= x
    end) by done.
  revert Hinit. induction Hsteps as [b|b b' b'' Hstep _ IH]; [done|]. intros [Hs Hb]. apply IH.
  destruct Hstep as [b b' E|b x b' E|b b' E];
    unfold transition_to_catching_up, transition_to_publishing, transition_to_active, require_state in E;
    repeat case_decide; simplify_eq/=.
  - rewrite H in Hb. done.
  - split; [done|]. exists x. split; [done|lia].
  - rewrite H in Hb. done.
Qed.

(** ** The catalog *)

Definition entries (c : ManifestCatalog) : list Counted := retired c ++ [active c].

(** The catalog with the generations of the live reader handles. *)
Inductive cat_step : ManifestCatalog * list Z -> ManifestCatalog * list Z -> Prop :=
| cs_acquire c hs : cat_step (c, hs) ((acquire c).1, gen_of (active c) :: hs)
| cs_acquire_generation c hs g c' m :
    acquire_generation c g = (c', Some m) -> cat_step (c, hs) (c', g :: hs)
| cs_release c hs1 g hs2 : cat_step (c, hs1 ++ g :: hs2) (release c g, hs1 ++ hs2)
| cs_publish c hs m c' m' : publish c m = Ok (c', m') -> cat_step (c, hs) (c', generation m :: hs)
| cs_reclaim c hs : cat_step (c, hs) ((take_reclaimable_manifests c).1, hs).

Definition cat_reachable (s : ManifestCatalog * list Z) : Prop :=
  exists m c, catalog_new m = Ok c /\ rtc cat_step (c, []) s.

Definition count (g : Z) (hs : list Z) : nat := count_occ Z.eq_dec hs g.

Record cat_inv (s : ManifestCatalog * list Z) : Prop := {
  ci_nodup : NoDup (map gen_of (entries s.1));
  ci_below : Forall (fun e => gen_of e < gen_of (active s.1)) (retired s.1);
  ci_readers : forall e, e ∈ entries s.1 -> c_readers e = count (gen_of e) s.2;
  ci_present : forall g, g ∈ s.2 -> g ∈ map gen_of (entries s.1);
}.

Lemma update_first_gens g f l :
  (forall e, gen_of (f e) = gen_of e) -> map gen_of (update_first g f l) = map gen_of l.
Proof.
  intros Hf. induction l as [|e l IH]; simpl; [done|]. case_decide; simpl; [by rewrite Hf|by rewrite IH].
Qed.

Lemma elem_of_update_first g f l e' :
  NoDup (map gen_of l) ->
  e' ∈ update_first g f l ->
  (gen_of e' <> g /\ e' ∈ l) \/ (exists e, e ∈ l /\ gen_of e = g /\ e' = f e).
Proof.
  induction l as [|e l IH]; simpl; intros Hn Hin; [by apply not_elem_of_nil in Hin|].
  apply NoDup_cons in Hn as [Hne Hn]. case_decide as Hg.
  - apply elem_of_cons in Hin as [->|Hin]; [right; exists e; set_solver|].
    left. split; [|set_solver]. intros E. apply Hne. rewrite Hg, <- E.
    by apply (list_elem_of_fmap_2 gen_of).
  - apply elem_of_cons in Hin as [->|Hin]; [left; set_solver|].
    destruct (IH Hn Hin) as [[? ?]|(x & ? & ? & ?)]; [left; set_solver|].
    right. exists x. set_solver.
Qed.

Lemma count_cons g h hs : count g (h :: hs) = ((if decide (h = g) then 1 else 0) + count g hs)%nat.
Proof. unfold count. simpl. by destruct (Z.eq_dec h g), (decide (h = g)). Qed.

Lemma count_app g hs1 hs2 : count g (hs1 ++ hs2) = (count g hs1 + count g hs2)%nat.
Proof. apply count_occ_app. Qed.

Lemma count_zero g hs : count g hs = 0%nat <-> g ∉ hs.
Proof. unfold count. rewrite <- (count_occ_not_In Z.eq_dec hs g). by rewrite list_elem_of_In. Qed.

Lemma cat_inv_init m c : catalog_new m = Ok c -> cat_inv (c, []).
Proof.
  unfold catalog_new. intros E. destruct (validate m); simplify_eq. split; simpl.
  - apply NoDup_singleton.
  - done.
  - intros e He. apply list_elem_of_singleton in He as ->. done.
  - intros g Hg. by apply not_elem_of_nil in Hg.
Qed.

(** The entry of one generation changed. *)
Definition touch (g : Z) (f : Counted -> Counted) (c : ManifestCatalog) : ManifestCatalog :=
  if decide (gen_of (active c) = g) then
    mkCatalog (f (active c)) (retired c) (published c) (reclaimed_files c)
  else mkCatalog (active c) (update_first g f (retired c)) (published c) (reclaimed_files c).

Lemma touch_gens g f c :
  (forall e, gen_of (f e) = gen_of e) ->
  map gen_of (entries (touch g f c)) = map gen_of (entries c) /\
  map gen_of (retired (touch g f c)) = map gen_of (retired c) /\
  gen_of (active (touch g f c)) = gen_of (active c).
Proof.
  intros Hf. unfold touch, entries. case_decide; simpl; rewrite !map_app; simpl;
    rewrite ?Hf, ?update_first_gens by done; done.
Qed.

Lemma elem_of_touch g f c e' :
  NoDup (map gen_of (entries c)) -> e' ∈ entries (touch g f c) ->
  (gen_of e' <> g /\ e' ∈ entries c) \/ (exists e, e ∈ entries c /\ gen_of e = g /\ e' = f e).
Proof.
  unfold touch, entries. intros Hn. rewrite map_app in Hn.
  apply NoDup_app in Hn as (Hn & Hd & _).
  case_decide as Hg; simpl; rewrite !elem_of_app, !list_elem_of_singleton.
  - intros [Hr| ->].
    + left. split; [|by left]. intros E. apply (Hd (gen_of e')).
      * by apply (list_elem_of_fmap_2 gen_of).
      * simpl. rewrite E, <- Hg. set_solver.
    + right. exists (active c). set_solver.
  - intros [Hr| ->].
    + destruct (elem_of_update_first _ _ _ _ Hn Hr) as [[? ?]|(x & ? & ? & ?)];
        [left; set_solver|right; exists x; set_solver].
    + left. set_solver.
Qed.

Lemma cat_inv_touch g f c hs hs' :
  cat_inv (c, hs) -> (forall e, gen_of (f e) = gen_of e) ->
  (forall e, e ∈ entries c -> gen_of e = g -> c_readers (f e) = count g hs') ->
  (forall h, h <> g -> count h hs' = count h hs) ->
  (forall h, h ∈ hs' -> h ∈ hs \/ (h = g /\ g ∈ map gen_of (entries c))) ->
  cat_inv (touch g f c, hs').
Proof.
  intros [Hn Hb Hr Hp] Hf Hg Ho Hh. destruct (touch_gens g f c Hf) as (E1 & E2 & E3).
  simpl in *. split; simpl.
  - by rewrite E1.
  - apply List.Forall_forall. intros e He%list_elem_of_In. rewrite E3.
    apply (list_elem_of_fmap_2 gen_of) in He. fold (map gen_of (retired (touch g f c))) in He.
    change (gen_of <$> retired (touch g f c)) with (map gen_of (retired (touch g f c))) in He.
    rewrite E2 in He. apply (list_elem_of_fmap_1 gen_of) in He as (x & -> & Hx).
    rewrite List.Forall_forall in Hb. apply Hb. by apply list_elem_of_In.
  - intros e' He'. destruct (elem_of_touch _ _ _ _ Hn He') as [[Hne He]|(e & He & Hge & ->)].
    + rewrite (Hr e' He), Ho; done.
    + rewrite Hf, Hge. by apply Hg.
  - intros h Hin. rewrite E1. destruct (Hh h Hin) as [?|[-> ?]]; [by apply Hp|done].
Qed.

Lemma acquire_generation_touch c g c' m :
  acquire_generation c g = (c', Some m) ->
  c' = touch g pin c /\ g ∈ map gen_of (entries c) /\ generation m = g.
Proof.
  unfold acquire_generation, touch, entries. intros E. case_decide as Hg.
  - simplify_eq. split_and!; [done| |done]. rewrite map_app. set_solver.
  - destruct (List.find _ (retired c)) as [e|] eqn:Ef; [|done]. simplify_eq.
    apply find_some in Ef as [He Hge]. apply bool_decide_eq_true in Hge.
    split_and!; [done| |done]. rewrite map_app, elem_of_app. left.
    rewrite <- Hge. apply (list_elem_of_fmap_2 gen_of). by apply list_elem_of_In.
Qed.

Lemma acquire_generation_present c g :
  g ∈ map gen_of (entries c) -> exists c' m, acquire_generation c g = (c', Some m) /\ generation m = g.
Proof.
  unfold acquire_generation, entries. rewrite map_app, elem_of_app. intros Hin. case_decide as Hg.
  - by eexists _, _.
  - destruct Hin as [Hin|Hin]; [|set_solver].
    apply (list_elem_of_fmap_1 gen_of) in Hin as (e & -> & He).
    destruct (List.find _ (retired c)) as [x|] eqn:Ef.
    + apply find_some in Ef as [_ Hx]. apply bool_decide_eq_true in Hx. by eexists _, _.
    + apply list_elem_of_In in He. apply (find_none _ _ Ef) in He. by rewrite bool_decide_true in He.
Qed.

Lemma cat_inv_publish c hs m c' m' :
  cat_inv (c, hs) -> publish c m = Ok (c', m') -> cat_inv (c', generation m :: hs).
Proof.
  intros [Hn Hb Hr Hp] E. unfold publish in E. destruct (negb (validate m)); [done|].
  repeat case_decide; try done. injection E as <- <-. simpl in *.
  assert (Hnew : forall e, e ∈ entries c -> gen_of e < generation m).
  { unfold entries. intros e [He|He]%elem_of_app.
    - rewrite List.Forall_forall in Hb. apply list_elem_of_In in He. specialize (Hb e He). simpl in Hb. lia.
    - apply list_elem_of_singleton in He as ->. lia. }
  assert (Hfresh : generation m ∉ map gen_of (entries c)).
  { intros (e & He & Hin)%(list_elem_of_fmap_1 gen_of). specialize (Hnew e Hin). lia. }
  assert (Ec : entries (mkCatalog (mkCounted m 1) (retired c ++ [active c]) (wrap_u64 (published c + 1))
    (reclaimed_files c)) = entries c ++ [mkCounted m 1]) by done.
  split; cbn [fst snd]; rewrite ?Ec, ?map_app.
  - apply NoDup_app. split_and!; [done| |apply NoDup_singleton].
    intros g Hg Hg'. simpl in Hg'. apply list_elem_of_singleton in Hg' as ->. done.
  - apply List.Forall_forall. intros e He. apply Hnew, list_elem_of_In. done.
  - intros e [He|He]%elem_of_app.
    + rewrite count_cons, decide_False by (specialize (Hnew e He); lia). by apply Hr.
    + apply list_elem_of_singleton in He as ->. unfold gen_of. cbn [c_readers c_manifest].
      rewrite count_cons, decide_True by done.
      rewrite (proj2 (count_zero (generation m) hs)); [done|]. intros Hg. by apply Hfresh, Hp.
  - intros g [->|Hg]%elem_of_cons; apply elem_of_app; [right|left; by apply Hp].
    by apply list_elem_of_singleton.
Qed.

Lemma cat_inv_reclaim c hs : cat_inv (c, hs) -> cat_inv ((take_reclaimable_manifests c).1, hs).
Proof.
  intros [Hn Hb Hr Hp]. simpl in *.
  assert (Hsub : forall e, e ∈ List.filter (fun e => negb (unread e)) (retired c) -> e ∈ retired c).
  { intros e He. apply list_elem_of_In in He. apply filter_In in He as [He _]. by apply list_elem_of_In. }
  unfold entries in *. rewrite map_app in *.
  split; cbn [fst snd]; unfold entries, take_reclaimable_manifests; cbn [fst active retired];
    rewrite ?map_app.
  - apply NoDup_app in Hn as (Hn & Hd & Ha). apply NoDup_app. split_and!; [|intros g Hg; apply Hd|done].
    + clear -Hn. induction (retired c) as [|e l IH]; simpl in *; [done|].
      apply NoDup_cons in Hn as [He Hn]. destruct (negb (unread e)); simpl; [|by apply IH].
      apply NoDup_cons. split; [|by apply IH]. intros (x & Hx & Hin)%(list_elem_of_fmap_1 gen_of).
      apply list_elem_of_In, filter_In in Hin as [Hin _]. apply He. rewrite Hx.
      apply (list_elem_of_fmap_2 gen_of). by apply list_elem_of_In.
    + apply (list_elem_of_fmap_1 gen_of) in Hg as (x & -> & Hx).
      apply (list_elem_of_fmap_2 gen_of). by apply Hsub.
  - rewrite !List.Forall_forall in *. intros e He. apply Hb. apply list_elem_of_In, Hsub.
    by apply list_elem_of_In.
  - intros e He. apply Hr. rewrite elem_of_app in *. destruct He as [He|He]; [left; by apply Hsub|by right].
  - intros g Hg. specialize (Hp g Hg). rewrite elem_of_app in *. destruct Hp as [Hp|Hp]; [left|by right].
    apply (list_elem_of_fmap_1 gen_of) in Hp as (e & -> & He).
    apply (list_elem_of_fmap_2 gen_of), list_elem_of_In, filter_In.
    split; [by apply list_elem_of_In|]. unfold unread. rewrite Hr by (apply elem_of_app; by left).
    rewrite bool_decide_false; [done|]. intros E. by apply count_zero in E.
Qed.

Lemma cat_inv_step s s' : cat_inv s -> cat_step s s' -> cat_inv s'.
Proof.
  intros Hinv Hstep. destruct Hstep as [c hs|c hs g c' m E|c hs1 g hs2|c hs m c' m' E|c hs].
  - replace ((acquire c).1) with (touch (gen_of (active c)) pin c).
    2: { unfold touch. by rewrite decide_True. }
    apply (cat_inv_touch _ _ _ hs); try done.
    + intros e He Hge. rewrite count_cons, decide_True by done. simpl.
      rewrite (ci_readers _ Hinv e He), Hge. done.
    + intros h Hh. by rewrite count_cons, decide_False by done.
    + intros h [->|?]%elem_of_cons; [right|by left]. split; [done|].
      unfold entries. rewrite map_app. set_solver.
  - apply acquire_generation_touch in E as (-> & Hg & _). apply (cat_inv_touch _ _ _ hs); try done.
    + intros e He Hge. rewrite count_cons, decide_True by done. simpl.
      rewrite (ci_readers _ Hinv e He), Hge. done.
    + intros h Hh. by rewrite count_cons, decide_False by done.
    + intros h [->|?]%elem_of_cons; [by right|by left].
  - change (release c g) with (touch g unpin c).
    apply (cat_inv_touch _ _ _ (hs1 ++ g :: hs2)); try done.
    + intros e He Hge. simpl. rewrite (ci_readers _ Hinv e He), Hge. simpl.
      rewrite !count_app, count_cons, decide_True by done. lia.
    + intros h Hh. rewrite !count_app, count_cons, decide_False by done. lia.
    + intros h Hh. left. set_solver.
  - by apply (cat_inv_publish c hs m c' m').
  - by apply cat_inv_reclaim.
Qed.

Lemma cat_reachable_inv s : cat_reachable s -> cat_inv s.
Proof.
  intros (m & c & Hc & Hsteps). apply cat_inv_init in Hc.
  remember (c, []) as s0 eqn:Es. clear Es.
  induction Hsteps as [|s1 s2 s3 H _ IH]; [done|]. apply IH. by apply (cat_inv_step s1).
Qed.

(** A pinned manifest is kept: in every state the catalog can reach with
    live handles [hs], a generation with a handle can still be acquired, and
    reclamation hands out neither it nor the active generation. *)
Theorem pinned_generation_kept c hs g :
  cat_reachable (c, hs) -> g ∈ hs ->
  (exists c' m, acquire_generation c g = (c', Some m) /\ generation m = g) /\
  (forall m, m ∈ (take_reclaimable_manifests c).2 ->
     generation m <> g /\ generation m < gen_of (active c)).
Proof.
  intros Hre Hg. pose proof (cat_reachable_inv _ Hre) as [Hn Hb Hr Hp]. simpl in *.
  split; [apply acquire_generation_present, Hp, Hg|].
  intros m (e & -> & He)%(list_elem_of_fmap_1 c_manifest).
  apply list_elem_of_In, filter_In in He as [He Hu]. apply bool_decide_eq_true in Hu.
  rewrite List.Forall_forall in Hb. split; [|by apply Hb]. intros <-.
  apply list_elem_of_In in He.
  rewrite (Hr e) in Hu by (apply elem_of_app; by left). by apply count_zero in Hu.
Qed.


End ManifestFacts.
