(* ===== verification/ByteMap.v ===== *)
(** * Ordered maps over byte strings

    [BTreeMap<Vec<u8>, V>] of the standard library: an association list in
    increasing order of its keys, which is what iteration yields.  Two such lists
    with the same lookups are equal. *)

From stdpp Require Import base list sets strings.
From Stdlib Require Import ZArith Lia Sorting.Sorted.
From S2P Require Import Prelude Types Values WalTypes OrderedCodec OrderedFacts IndexManifest.
From S2P Require Import IndexManifestFacts.

Module BMap.
Import Codec CodecFacts Manifest ManifestFacts.

Abbreviation key := (list Z) (only parsing).

Section map.
Context {A : Type}.
Implicit Types (m : list (key * A)) (k : key).

Fixpoint get k m : option A :=
  match m with
  | [] => None
  | (j, v) :: r => match bytes_cmp k j with Lt => None | Eq => Some v | Gt => get k r end
  end.

Fixpoint insert k (v : A) m : list (key * A) :=
  match m with
  | [] => [(k, v)]
  | (j, w) :: r =>
      match bytes_cmp k j with
      | Lt => (k, v) :: (j, w) :: r
      | Eq => (k, v) :: r
      | Gt => (j, w) :: insert k v r
      end
  end.

(** [entry(k).or_insert(v)]. *)
Definition or_insert k (v : A) m : list (key * A) :=
  match get k m with Some _ => m | None => insert k v m end.

(** [for (k, v) in l { m.insert(k, v) }]. *)
Definition extend m (l : list (key * A)) : list (key * A) :=
  fold_left (fun m kv => insert kv.1 kv.2 m) l m.

Definition in_bounds (lo hi : key) (kv : key * A) : bool := bytes_le lo kv.1 && bytes_lt kv.1 hi.

(** [range((Included(lo), Excluded(hi)))]: [None] is the panic of a range whose
    start is after its end, on a map that is not empty. *)
Definition range (lo hi : key) m : option (list (key * A)) :=
  match m with
  | [] => Some []
  | _ => if bytes_lt hi lo then None else Some (List.filter (in_bounds lo hi) m)
  end.

Definition sorted m : Prop := StronglySorted (fun a b => bytes_cmp a.1 b.1 = Lt) m.

(** ** Laws *)

Lemma cmp_lt_trans a b c : bytes_cmp a b = Lt -> bytes_cmp b c = Lt -> bytes_cmp a c = Lt.
Proof. intros H1 H2. apply (bytes_lt_le_trans a b c); [done|by rewrite H2]. Qed.

Lemma cmp_gt a b : bytes_cmp a b = Gt <-> bytes_cmp b a = Lt.
Proof. rewrite (bytes_cmp_antisym a b). by destruct (bytes_cmp a b). Qed.

Lemma get_below k m : Forall (fun b => bytes_cmp k b.1 = Lt) m -> get k m = None.
Proof. destruct m as [|[j v] m]; [done|]. intros [H _]%Forall_cons. simpl in *. by rewrite H. Qed.

Lemma sorted_cons k v m :
  sorted ((k, v) :: m) <-> sorted m /\ Forall (fun b => bytes_cmp k b.1 = Lt) m.
Proof.
  split.
  - intros H. by apply StronglySorted_inv in H.
  - intros [H1 H2]. by constructor.
Qed.

(** Lookup is membership in a sorted list. *)
Lemma get_elem k v m : sorted m -> get k m = Some v <-> (k, v) ∈ m.
Proof.
  induction m as [|[j w] m IH]; [set_solver|]. rewrite sorted_cons. intros [Hs Hl].
  rewrite elem_of_cons. simpl. destruct (bytes_cmp k j) eqn:E.
  - apply bytes_cmp_eq in E as ->. split; [intros [= ->]; by left|].
    intros [[= ->]|Hin]; [done|]. rewrite List.Forall_forall in Hl.
    apply list_elem_of_In in Hin. apply Hl in Hin. simpl in Hin. by rewrite bytes_cmp_refl in Hin.
  - split; [done|]. intros [[= -> ->]|Hin]; [by rewrite bytes_cmp_refl in E|].
    rewrite List.Forall_forall in Hl. apply list_elem_of_In in Hin. apply Hl in Hin. simpl in Hin.
    apply cmp_gt in Hin. congruence.
  - rewrite (IH Hs). split; [by right|]. intros [[= -> ->]|Hin]; [|done].
    by rewrite bytes_cmp_refl in E.
Qed.

Lemma get_insert j k v m : sorted m -> get j (insert k v m) = if decide (k = j) then Some v else get j m.
Proof.
  induction m as [|[i w] m IH]; rewrite ?sorted_cons.
  - intros _. simpl. destruct (bytes_cmp j k) eqn:E; case_decide as D; subst; try done.
    + by apply bytes_cmp_eq in E.
    + by rewrite bytes_cmp_refl in E.
    + by rewrite bytes_cmp_refl in E.
  - intros [Hs Hl]. simpl. destruct (bytes_cmp k i) eqn:E; simpl.
    + apply bytes_cmp_eq in E as ->. destruct (bytes_cmp j i) eqn:E; case_decide as D; subst; try done;
        try (by rewrite bytes_cmp_refl in E). by apply bytes_cmp_eq in E.
    + destruct (bytes_cmp j k) eqn:E2; case_decide as D; subst; try done;
        try (by rewrite bytes_cmp_refl in E2); [by apply bytes_cmp_eq in E2|].
      by rewrite (cmp_lt_trans j k i).
    + destruct (bytes_cmp j i) eqn:E2; [| |by apply IH]; case_decide as D; subst; try done; congruence.
Qed.

Lemma insert_forall (P : key * A -> Prop) k v m : P (k, v) -> Forall P m -> Forall P (insert k v m).
Proof.
  intros Hk. induction 1 as [|[j w] m Hj Hm IH]; simpl; [by constructor|].
  destruct (bytes_cmp k j); by repeat constructor.
Qed.

Lemma sorted_insert k v m : sorted m -> sorted (insert k v m).
Proof.
  induction m as [|[j w] m IH]; [by repeat constructor|]. rewrite sorted_cons. intros [Hs Hl]. simpl.
  destruct (bytes_cmp k j) eqn:E; apply sorted_cons.
  - apply bytes_cmp_eq in E as ->. done.
  - split; [by apply sorted_cons|]. constructor; [done|]. eapply Forall_impl; [exact Hl|].
    intros b Hb. simpl in *. by apply (cmp_lt_trans k j).
  - split; [by apply IH|]. apply insert_forall; [|done]. by apply cmp_gt.
Qed.

Lemma sorted_or_insert k v m : sorted m -> sorted (or_insert k v m).
Proof. unfold or_insert. destruct (get k m); [done|apply sorted_insert]. Qed.

Lemma get_or_insert j k v m :
  sorted m -> get j (or_insert k v m) = match get j m with
    | Some w => Some w | None => if decide (k = j) then Some v else None end.
Proof.
  intros Hs. unfold or_insert. destruct (get k m) eqn:E.
  - destruct (get j m) eqn:Ej; [done|]. case_decide; [|done]. congruence.
  - rewrite get_insert by done. case_decide; [|by destruct (get j m)]. subst. by rewrite E.
Qed.

Lemma sorted_extend m l : sorted m -> sorted (extend m l).
Proof. unfold extend. revert m; induction l as [|[k v] l IH]; intros m Hs; [done|]. by apply IH, sorted_insert. Qed.

(** Extending a map by a map: the second wins. *)
Lemma get_extend j m l :
  sorted m -> sorted l -> get j (extend m l) = match get j l with Some v => Some v | None => get j m end.
Proof.
  unfold extend. revert m; induction l as [|[k v] l IH]; intros m Hm; [done|]. rewrite sorted_cons.
  intros [Hs Hl]. change (fold_left _ ((k, v) :: l) m) with (extend (insert k v m) l).
  unfold extend. rewrite IH, get_insert by (done || by apply sorted_insert). simpl.
  destruct (bytes_cmp j k) eqn:E.
  - apply bytes_cmp_eq in E as ->. rewrite get_below by done. by rewrite decide_True.
  - rewrite decide_False; [|intros ->; by rewrite bytes_cmp_refl in E].
    rewrite get_below; [done|]. eapply Forall_impl; [exact Hl|]. intros b Hb. by apply (cmp_lt_trans j k).
  - rewrite decide_False; [done|intros ->; by rewrite bytes_cmp_refl in E].
Qed.

Lemma get_ext m1 m2 : sorted m1 -> sorted m2 -> (forall k, get k m1 = get k m2) -> m1 = m2.
Proof.
  revert m2; induction m1 as [|[k v] m1 IH]; intros [|[j w] m2] H1 H2 He.
  - done.
  - specialize (He j). simpl in He. by rewrite bytes_cmp_refl in He.
  - specialize (He k). simpl in He. by rewrite bytes_cmp_refl in He.
  - rewrite sorted_cons in H1, H2. destruct H1 as [S1 L1], H2 as [S2 L2].
    assert (k = j) as ->.
    { destruct (bytes_cmp k j) eqn:E; [by apply bytes_cmp_eq| |].
      - specialize (He k). simpl in He. by rewrite bytes_cmp_refl, E in He.
      - apply cmp_gt in E. specialize (He j). simpl in He. by rewrite bytes_cmp_refl, E in He. }
    assert (v = w) as ->.
    { specialize (He j). simpl in He. rewrite bytes_cmp_refl in He. congruence. }
    f_equal. apply IH; [done|done|]. intros x. specialize (He x). simpl in He.
    destruct (bytes_cmp x j) eqn:E; [| |done].
    + apply bytes_cmp_eq in E as ->. by rewrite !get_below.
    + rewrite !get_below; [done| |]; (eapply Forall_impl; [eassumption|]); intros b Hb;
        by apply (cmp_lt_trans x j).
Qed.

Lemma sorted_filter (f : key * A -> bool) m : sorted m -> sorted (List.filter f m).
Proof.
  induction m as [|[k v] m IH]; [done|]. rewrite sorted_cons. intros [Hs Hl]. simpl.
  destruct (f (k, v)); [|by apply IH]. apply sorted_cons. split; [by apply IH|].
  apply List.Forall_forall. intros b Hb. apply filter_In in Hb as [Hb _].
  rewrite List.Forall_forall in Hl. by apply Hl.
Qed.

Lemma get_filter (f : key * A -> bool) k m :
  sorted m -> get k (List.filter f m) =
    match get k m with Some v => if f (k, v) then Some v else None | None => None end.
Proof.
  intros Hs. pose proof (sorted_filter f m Hs) as Hf.
  destruct (get k m) as [v|] eqn:E.
  - apply get_elem in E; [|done]. destruct (f (k, v)) eqn:Ef.
    + apply get_elem; [done|]. apply list_elem_of_In, filter_In. split; [by apply list_elem_of_In|done].
    + destruct (get k (List.filter f m)) as [w|] eqn:Ew; [|done]. apply get_elem in Ew; [|done].
      apply list_elem_of_In, filter_In in Ew as [Hin Hw]. apply list_elem_of_In, get_elem in Hin; [|done].
      apply get_elem in E; [|done]. congruence.
  - destruct (get k (List.filter f m)) as [w|] eqn:Ew; [|done]. apply get_elem in Ew; [|done].
    apply list_elem_of_In, filter_In in Ew as [Hin _]. apply list_elem_of_In, get_elem in Hin; [|done].
    congruence.
Qed.

Lemma sorted_app_iff l1 l2 :
  sorted (l1 ++ l2) <-> sorted l1 /\ sorted l2 /\
    forall a b, a ∈ l1 -> b ∈ l2 -> bytes_cmp a.1 b.1 = Lt.
Proof.
  induction l1 as [|[k v] l1 IH]; simpl.
  - split; [|by intros (_ & ? & _)]. intros H. split_and!; [constructor|done|set_solver].
  - rewrite !sorted_cons, IH, Forall_app, !List.Forall_forall. setoid_rewrite <- list_elem_of_In.
    setoid_rewrite elem_of_cons. naive_solver.
Qed.

Lemma sorted_nil : sorted [].
Proof. constructor. Qed.

Lemma sorted_singleton kv : sorted [kv].
Proof. by repeat constructor. Qed.

End map.
End BMap.
