(* ===== verification/BufferPool.v ===== *)
(** * The buffer pool

    [linkrs-storage/src/cache/buffer_pool.rs]: a sharded cache of weighted
    items with pins, dirty flags, time limits, a CLOCK eviction and a loader and
    a writer of the client.

    A hash map of the source is an association list that stands for any
    iteration order; the hash that picks a shard is a parameter.  An item the
    source shares through an [Arc] is the entry of the pool.  The calls of the
    writer are recorded in the order in which they are made; the memory
    accounting hooks are not modelled.  Time is an argument, in nanoseconds. *)

From stdpp Require Import base list strings relations.
From Stdlib Require Import ZArith Lia.
From S2P Require Import Prelude.

Module Pool.

(** ** Items *)

Record CachedItem (T : Type) := mkCached {
  item : T;
  pin_count : Z;
  dirty : bool;
  clock_flag : bool;
  last_access : Z;
  created_at : Z;
  size : Z;
}.
Arguments mkCached {T}.
Arguments item {T}. Arguments pin_count {T}. Arguments dirty {T}. Arguments clock_flag {T}.
Arguments last_access {T}. Arguments created_at {T}. Arguments size {T}.

(** A hash map of the source. *)
Abbreviation shard K T := (list (K * CachedItem T)) (only parsing).

Section pool.
Context {K : Type} {dK : EqDecision K} {T : Type}.
Implicit Types (k : K) (c : CachedItem T).

(** [CachedItem::new]. *)
Definition cached_new (now : Z) (t : T) (sz : Z) : CachedItem T :=
  mkCached t 0 false true now now sz.

Definition pin_item (now : Z) (c : CachedItem T) : CachedItem T :=
  mkCached (item c) (wrap_u64 (pin_count c + 1)) (dirty c) (clock_flag c) now (created_at c) (size c).

Definition unpin_item (c : CachedItem T) : CachedItem T :=
  mkCached (item c) (wrap_u64 (pin_count c - 1)) (dirty c) (clock_flag c) (last_access c)
    (created_at c) (size c).

Definition is_pinned (c : CachedItem T) : bool := bool_decide (0 < pin_count c).

Definition is_expired (c : CachedItem T) (now ttl tti : Z) : bool :=
  (negb (bool_decide (ttl = 0)) && bool_decide (ttl <= saturating_sub_u64 now (created_at c))) ||
  (negb (bool_decide (tti = 0)) && bool_decide (tti <= saturating_sub_u64 now (last_access c))).

Definition set_clock (b : bool) (c : CachedItem T) : CachedItem T :=
  mkCached (item c) (pin_count c) (dirty c) b (last_access c) (created_at c) (size c).

Definition touch (now : Z) (c : CachedItem T) : CachedItem T :=
  mkCached (item c) (pin_count c) (dirty c) (clock_flag c) now (created_at c) (size c).

(** ** Hash maps *)

Fixpoint find_key (k : K) (m : shard K T) : option (CachedItem T) :=
  match m with
  | [] => None
  | (k', c) :: r => if decide (k' = k) then Some c else find_key k r
  end.

Definition remove_key (k : K) (m : shard K T) : shard K T :=
  List.filter (fun kc => negb (bool_decide (kc.1 = k))) m.

(** Replaced in place, or added. *)
Fixpoint insert_key (k : K) (c : CachedItem T) (m : shard K T) : shard K T :=
  match m with
  | [] => [(k, c)]
  | (k', c') :: r => if decide (k' = k) then (k, c) :: r else (k', c') :: insert_key k c r
  end.

(** ** The pool *)

Record BufferPool := mkPool {
  capacity : Z;
  shards : list (shard K T);
  loader : option (K -> option (T * Z));
  writer : option (K -> T -> bool);
  usage : Z;
  ttl_nanos : Z;
  tti_nanos : Z;
  written : list (K * T);
}.

(** [DefaultHasher] and the mask, for a pool of a given number of shards. *)
Variable shard_for : nat -> K -> nat.

Definition with_shards (f : list (shard K T) -> list (shard K T)) (p : BufferPool) : BufferPool :=
  mkPool (capacity p) (f (shards p)) (loader p) (writer p) (usage p) (ttl_nanos p) (tti_nanos p)
    (written p).

Definition with_usage (f : Z -> Z) (p : BufferPool) : BufferPool :=
  mkPool (capacity p) (shards p) (loader p) (writer p) (f (usage p)) (ttl_nanos p) (tti_nanos p)
    (written p).

Definition with_capacity (n : Z) (p : BufferPool) : BufferPool :=
  mkPool n (shards p) (loader p) (writer p) (usage p) (ttl_nanos p) (tti_nanos p) (written p).

Definition with_written (w : list (K * T)) (p : BufferPool) : BufferPool :=
  mkPool (capacity p) (shards p) (loader p) (writer p) (usage p) (ttl_nanos p) (tti_nanos p)
    (written p ++ w).

(** [BufferPool::new], for the number of shards the machine gives. *)
Definition new (num_shards : nat) (capacity_bytes : Z) : BufferPool :=
  mkPool capacity_bytes (replicate num_shards []) None None 0 0 0 [].

Definition set_ttl (ttl : option Z) (p : BufferPool) : BufferPool :=
  mkPool (capacity p) (shards p) (loader p) (writer p) (usage p)
    (wrap_u64 (from_option id 0 ttl)) (tti_nanos p) (written p).

Definition set_tti (tti : option Z) (p : BufferPool) : BufferPool :=
  mkPool (capacity p) (shards p) (loader p) (writer p) (usage p) (ttl_nanos p)
    (wrap_u64 (from_option id 0 tti)) (written p).

Definition set_loader (l : K -> option (T * Z)) (p : BufferPool) : BufferPool :=
  mkPool (capacity p) (shards p) (Some l) (writer p) (usage p) (ttl_nanos p) (tti_nanos p) (written p).

Definition set_writer (w : K -> T -> bool) (p : BufferPool) : BufferPool :=
  mkPool (capacity p) (shards p) (loader p) (Some w) (usage p) (ttl_nanos p) (tti_nanos p) (written p).

Definition owner (p : BufferPool) (k : K) : nat := shard_for (length (shards p)) k.

Definition shard_of (p : BufferPool) (k : K) : shard K T := default [] (shards p !! owner p k).

Definition update_shard (k : K) (f : shard K T -> shard K T) (p : BufferPool) : BufferPool :=
  with_shards (alter f (owner p k)) p.

Definition current_usage (p : BufferPool) : Z := usage p.

(** ** Lookup *)

Definition get (now : Z) (p : BufferPool) (k : K) : BufferPool * option (CachedItem T) :=
  match find_key k (shard_of p k) with
  | None => (p, None)
  | Some c =>
      if is_expired c now (ttl_nanos p) (tti_nanos p) then
        (with_usage (fun u => wrap_u64 (u - size c)) (update_shard k (remove_key k) p), None)
      else if decide (tti_nanos p <> 0) then
        (update_shard k (insert_key k (touch now c)) p, Some (touch now c))
      else (p, Some c)
  end.

(** The pin and unpin of an item the pool holds. *)
Definition modify_item (f : CachedItem T -> CachedItem T) (k : K) (p : BufferPool) : BufferPool :=
  match find_key k (shard_of p k) with
  | Some c => update_shard k (insert_key k (f c)) p
  | None => p
  end.

Definition shard_bytes (m : shard K T) : Z := foldr (fun kc n => size kc.2 + n) 0 m.

Definition total (ss : list (shard K T)) : Z := foldr (fun m n => shard_bytes m + n) 0 ss.

(** [prune_expired], with the number of items removed. *)
Definition prune_expired (now : Z) (p : BufferPool) : BufferPool * nat :=
  if bool_decide (ttl_nanos p = 0) && bool_decide (tti_nanos p = 0) then (p, 0%nat)
  else
    let keep kc := negb (is_expired (snd kc) now (ttl_nanos p) (tti_nanos p)) in
    let kept := map (List.filter keep) (shards p) in
    let gone := map (List.filter (fun kc => negb (keep kc))) (shards p) in
    (with_usage (fun u => wrap_u64 (u - total gone)) (with_shards (fun _ => kept) p),
     length (concat gone)).

(** ** Eviction *)

(** One pass over the keys of a shard; the first pass gives flagged items a
    second chance. *)
Fixpoint evict_pass (first : bool) (target : Z) (keys : list K) (m : shard K T) (evicted : Z)
    (wb : list (K * CachedItem T)) : shard K T * Z * list (K * CachedItem T) :=
  match keys with
  | [] => (m, evicted, wb)
  | id :: r =>
      if decide (target <= evicted) then (m, evicted, wb)
      else
        match find_key id m with
        | None => evict_pass first target r m evicted wb
        | Some c =>
            if is_pinned c then evict_pass first target r m evicted wb
            else if first && clock_flag c then
              evict_pass first target r (insert_key id (set_clock false c) m) evicted wb
            else evict_pass first target r (remove_key id m) (evicted + size c) (wb ++ [(id, c)])
        end
  end.

Definition evict_locked (m : shard K T) (target : Z) : shard K T * Z * list (K * CachedItem T) :=
  if bool_decide (m = []) || bool_decide (target = 0) then (m, 0, [])
  else
    let '(m1, e1, wb1) := evict_pass true target (map fst m) m 0 [] in
    if decide (target <= e1) then (m1, e1, wb1)
    else evict_pass false target (map fst m1) m1 e1 wb1.

Fixpoint evict_shards (target : Z) (ss : list (shard K T)) (evicted : Z)
  : list (shard K T) * Z * list (K * CachedItem T) :=
  match ss with
  | [] => ([], evicted, [])
  | m :: r =>
      if decide (target <= evicted) then (m :: r, evicted, [])
      else
        let '(m', e, wb) := evict_locked m (target - evicted) in
        let '(r', evicted', wb') := evict_shards target r (evicted + e) in
        (m' :: r', evicted', wb ++ wb')
  end.

(** The dirty items go to the writer, if there is one; its errors are logged. *)
Definition flush_writebacks (wb : list (K * CachedItem T)) (p : BufferPool) : BufferPool :=
  match writer p with
  | None => p
  | Some _ => with_written (map (fun kc => (kc.1, item kc.2)) (List.filter (fun kc => dirty kc.2) wb)) p
  end.

(** [evict_all_collect]: the shards, the usage they give back, the victims. *)
Definition evict_all_collect (target : Z) (p : BufferPool)
  : BufferPool * Z * list (K * CachedItem T) :=
  let '(ss, e, wb) := evict_shards target (shards p) 0 in
  (with_usage (fun u => wrap_u64 (u - e)) (with_shards (fun _ => ss) p), e, wb).

Definition evict (target : Z) (p : BufferPool) : BufferPool * Z :=
  if decide (target = 0) then (p, 0)
  else
    let '(p', e, wb) := evict_all_collect target p in
    (flush_writebacks wb p', e).

Definition set_capacity (n : Z) (p : BufferPool) : BufferPool :=
  let p := with_capacity n p in
  if decide (n < usage p) then (evict (usage p - n) p).1 else p.

(** ** Insertion *)

(** Room in the shard that owns the key, or in any shard when it has nothing
    to give. *)
Definition make_room (k : K) (p : BufferPool) : BufferPool * list (K * CachedItem T) :=
  if decide (capacity p < usage p) then
    let '(m', e, wb) := evict_locked (shard_of p k) (usage p - capacity p + 1) in
    let p1 := with_usage (fun u => wrap_u64 (u - e)) (update_shard k (fun _ => m') p) in
    if decide (e = 0) then
      if decide (capacity p1 < usage p1) then
        let '(p2, _, wb2) := evict_all_collect (usage p1 - capacity p1 + 1) p1 in
        (p2, wb ++ wb2)
      else (p1, wb)
    else (p1, wb)
  else (p, []).

Definition insert (now : Z) (k : K) (t : T) (sz : Z) (p : BufferPool) : BufferPool :=
  let p0 := with_usage (fun u => wrap_u64 (u + sz)) p in
  let '(p1, wb) := make_room k p0 in
  let p2 := update_shard k (insert_key k (cached_new now t sz)) p1 in
  match find_key k (shard_of p1 k) with
  | None => flush_writebacks wb p2
  | Some previous =>
      flush_writebacks (if dirty previous then wb ++ [(k, previous)] else wb)
        (with_usage (fun u => wrap_u64 (u - size previous)) p2)
  end.

Definition get_or_load (now : Z) (p : BufferPool) (k : K) : BufferPool * option (CachedItem T) :=
  match get now p k with
  | (p1, Some c) => (p1, Some c)
  | (p1, None) =>
      match loader p1 with
      | None => (p1, None)
      | Some load =>
          match load k with
          | None => (p1, None)
          | Some (t, sz) => get now (insert now k t sz p1) k
          end
      end
  end.

(** ** Removal *)

Definition remove (k : K) (p : BufferPool) : BufferPool * bool :=
  match find_key k (shard_of p k) with
  | None => (p, false)
  | Some c =>
      let p' := with_usage (fun u => wrap_u64 (u - size c)) (update_shard k (remove_key k) p) in
      (match writer p with
       | Some _ => if dirty c then with_written [(k, item c)] p' else p'
       | None => p'
       end, true)
  end.

Definition clear (p : BufferPool) : BufferPool :=
  with_usage (fun u => wrap_u64 (u - total (shards p))) (with_shards (map (fun _ => [])) p).

Definition len (p : BufferPool) : nat := length (concat (shards p)).

End pool.
Arguments BufferPool : clear implicits.

End Pool.
