(* ===== verification/BufferPoolFacts.v ===== *)
(** * Facts about the buffer pool

    The usage counter is the weight of what the pool holds, whatever the
    operations; an eviction frees what it was asked for unless only pinned items
    are left, keeps the pinned ones and writes the dirty ones back. *)

From stdpp Require Import base list strings relations.
From Stdlib Require Import ZArith Lia.
From S2P Require Import Prelude BufferPool.

Module PoolFacts.
Import Pool.

Section facts.
Context {K : Type} {dK : EqDecision K} {T : Type}.
Implicit Types (k : K) (c : CachedItem T) (m : shard K T) (ss : list (shard K T)).

(** ** Hash maps *)

Definition keys m : list K := map fst m.

Lemma find_key_None k m : find_key k m = None <-> k ∉ keys m.
Proof.
  induction m as [|[k' c] m IH]; simpl; [set_solver|]. rewrite not_elem_of_cons.
  case_decide; subst; [by split; [done|intros [? _]]|]. rewrite IH. naive_solver.
Qed.

Lemma elem_of_keys_find k m : k ∈ keys m <-> is_Some (find_key k m).
Proof.
  destruct (find_key k m) eqn:E.
  - split; [by eauto|]. intros _. destruct (decide (k ∈ keys m)) as [|Hn]; [done|].
    apply find_key_None in Hn. congruence.
  - apply find_key_None in E. split; [done|]. by intros [? ?].
Qed.

Lemma find_remove k k' m : find_key k (remove_key k' m) = if decide (k' = k) then None else find_key k m.
Proof.
  induction m as [|[j c] m IH]; simpl; [by case_decide|].
  destruct (decide (j = k')) as [->|Hj]; [rewrite bool_decide_true by done|rewrite bool_decide_false by done];
    simpl; rewrite IH; repeat case_decide; congruence.
Qed.

Lemma keys_remove k m : keys (remove_key k m) = List.filter (fun j => negb (bool_decide (j = k))) (keys m).
Proof. induction m as [|[j c] m IH]; simpl; [done|]. case_bool_decide; simpl; by rewrite IH. Qed.

Lemma NoDup_filter_bool {A} (f : A -> bool) (l : list A) : NoDup l -> NoDup (List.filter f l).
Proof.
  induction 1 as [|a l Ha _ IH]; simpl; [constructor|]. destruct (f a); [|done]. constructor; [|done].
  intros Hin. apply list_elem_of_In, filter_In in Hin as [Hin _]. by apply Ha, list_elem_of_In.
Qed.

Lemma NoDup_remove_key k m : NoDup (keys m) -> NoDup (keys (remove_key k m)).
Proof. rewrite keys_remove. apply NoDup_filter_bool. Qed.

Lemma remove_key_absent k m : k ∉ keys m -> remove_key k m = m.
Proof.
  induction m as [|[j c] m IH]; simpl; [done|]. rewrite not_elem_of_cons. intros [Hj Hn].
  rewrite bool_decide_false by done. simpl. by rewrite IH.
Qed.

Lemma bytes_remove k c m :
  NoDup (keys m) -> find_key k m = Some c -> shard_bytes (remove_key k m) = shard_bytes m - size c.
Proof.
  induction m as [|[j d] m IH]; simpl; [done|]. intros [Hj Hn]%NoDup_cons Hf. case_decide; simplify_eq.
  - rewrite bool_decide_true by done. simpl. fold (remove_key k m). rewrite remove_key_absent by done. lia.
  - rewrite bool_decide_false by done. simpl. fold (remove_key k m). rewrite (IH Hn Hf). lia.
Qed.

Lemma find_insert_key k k' c m :
  find_key k (insert_key k' c m) = if decide (k' = k) then Some c else find_key k m.
Proof.
  induction m as [|[j d] m IH]; simpl; [done|]. destruct (decide (j = k')) as [->|]; simpl.
  - by repeat case_decide.
  - rewrite IH. repeat case_decide; congruence.
Qed.

Lemma keys_insert k c m : keys (insert_key k c m) = if decide (k ∈ keys m) then keys m else keys m ++ [k].
Proof.
  induction m as [|[j d] m IH]; cbn [insert_key].
  { case_decide as Hk; [by apply not_elem_of_nil in Hk|done]. }
  destruct (decide (j = k)) as [->|Hj]; unfold keys in *; cbn [map fst] in *.
  - rewrite decide_True; [done|]. set_solver.
  - rewrite IH. repeat case_decide; try done; set_solver.
Qed.

Lemma NoDup_insert_key k c m : NoDup (keys m) -> NoDup (keys (insert_key k c m)).
Proof.
  intros Hn. rewrite keys_insert. case_decide as Hk; [done|]. apply NoDup_app. split_and!; [done| |].
  - intros x Hx Hk'. apply list_elem_of_singleton in Hk' as ->. done.
  - apply NoDup_singleton.
Qed.

Lemma elem_of_keys_insert j k c m : j ∈ keys (insert_key k c m) <-> j = k \/ j ∈ keys m.
Proof. rewrite keys_insert. case_decide; set_solver. Qed.

Lemma bytes_insert k c m :
  shard_bytes (insert_key k c m) = shard_bytes m + size c - from_option size 0 (find_key k m).
Proof.
  induction m as [|[j d] m IH]; simpl; [lia|]. case_decide; simpl; [lia|]. rewrite IH. lia.
Qed.

(** ** One pass of an eviction *)

(** Equal but for the clock flag. *)
Definition same_item c d : Prop := set_clock true c = set_clock true d.

Lemma same_item_refl c : same_item c c.
Proof. done. Qed.

Lemma same_item_trans c d e : same_item c d -> same_item d e -> same_item c e.
Proof. unfold same_item. congruence. Qed.

Lemma same_item_fields c d :
  same_item c d -> item c = item d /\ dirty c = dirty d /\ is_pinned c = is_pinned d /\ size c = size d.
Proof. destruct c, d. unfold same_item, is_pinned, set_clock. simpl. intros E. by injection E as -> -> -> -> -> ->. Qed.

Definition clock_only (b : bool) c : same_item (set_clock b c) c.
Proof. done. Qed.

(** What happens to the items of a shard: they stay, but for the clock flag,
    or are victims, and victims are not pinned. *)
Record evolves m m' (victims : list (K * CachedItem T)) : Prop := {
  ev_nodup : NoDup (keys m) -> NoDup (keys m');
  ev_back : forall k d, find_key k m' = Some d -> exists c, find_key k m = Some c /\ same_item d c;
  ev_fate : forall k c, find_key k m = Some c ->
    (exists d, find_key k m' = Some d /\ same_item d c) \/
    (is_pinned c = false /\ exists d, (k, d) ∈ victims /\ same_item d c);
  ev_bytes : NoDup (keys m) ->
    shard_bytes m' = shard_bytes m - shard_bytes victims;
  ev_from : forall k d, (k, d) ∈ victims -> exists c, find_key k m = Some c /\ same_item d c;
}.

Lemma evolves_refl m : evolves m m [].
Proof.
  split; simpl.
  - done.
  - intros k d Hd. by exists d.
  - intros k c Hc. left. by exists c.
  - intros _. lia.
  - intros k d Hd. by apply not_elem_of_nil in Hd.
Qed.

Lemma victims_app (l1 l2 : list (K * CachedItem T)) :
  shard_bytes (l1 ++ l2) =
  shard_bytes l1 + shard_bytes l2.
Proof. induction l1; simpl; lia. Qed.

Lemma evolves_trans m1 m2 m3 v1 v2 :
  NoDup (keys m1) -> evolves m1 m2 v1 -> evolves m2 m3 v2 -> evolves m1 m3 (v1 ++ v2).
Proof.
  intros Hn [N1 B1 F1 S1 V1] [N2 B2 F2 S2 V2]. split.
  - auto.
  - intros k d Hd. destruct (B2 k d Hd) as (c & Hc & E). destruct (B1 k c Hc) as (b & Hb & E').
    exists b. split; [done|]. by eapply same_item_trans.
  - intros k c Hc. destruct (F1 k c Hc) as [(d & Hd & E)|(Hp & d & Hd & E)].
    + destruct (F2 k d Hd) as [(e & He & E')|(Hp & e & He & E')].
      * left. exists e. split; [done|]. by eapply same_item_trans.
      * right. split; [by rewrite <- (proj1 (proj2 (proj2 (same_item_fields _ _ E))))|].
        exists e. split; [set_solver|]. by eapply same_item_trans.
    + right. split; [done|]. exists d. split; [set_solver|done].
  - intros _. rewrite victims_app, S2, S1 by auto. lia.
  - intros k d [Hd|Hd]%elem_of_app; [by apply V1|]. destruct (V2 k d Hd) as (c & Hc & E).
    destruct (B1 k c Hc) as (b & Hb & E'). exists b. split; [done|]. by eapply same_item_trans.
Qed.

Lemma evolves_flag k c m :
  find_key k m = Some c -> evolves m (insert_key k (set_clock false c) m) [].
Proof.
  intros Hf. split.
  - apply NoDup_insert_key.
  - intros j d. rewrite find_insert_key. case_decide; [|by intros Hd; exists d].
    intros [= <-]. subst. by exists c.
  - intros j d Hj. left. rewrite find_insert_key. case_decide; [|by exists d].
    subst. exists (set_clock false c). split; [done|]. by simplify_eq.
  - intros _. rewrite bytes_insert, Hf. simpl. lia.
  - set_solver.
Qed.

Lemma evolves_remove k c m :
  find_key k m = Some c -> is_pinned c = false -> evolves m (remove_key k m) [(k, c)].
Proof.
  intros Hf Hp. split.
  - apply NoDup_remove_key.
  - intros j d. rewrite find_remove. case_decide; [done|]. intros Hd. by exists d.
  - intros j d Hj. rewrite find_remove. case_decide; [|by left; exists d].
    subst. simplify_eq. right. split; [done|]. exists c. split; [set_solver|done].
  - intros Hn. rewrite (bytes_remove k c) by done. simpl. lia.
  - intros j d Hj. apply list_elem_of_singleton in Hj. simplify_eq. by exists c.
Qed.

Lemma evict_pass_spec first target ks m e wb :
  NoDup (keys m) ->
  exists m' v, evict_pass first target ks m e wb =
      (m', e + shard_bytes v, wb ++ v) /\ evolves m m' v /\
    (first = false -> target <= e + shard_bytes v \/
       forall k c, k ∈ ks -> find_key k m' = Some c -> is_pinned c = true).
Proof.
  revert m e wb; induction ks as [|k ks IH]; intros m e wb Hn; simpl.
  { exists m, []. split_and!; [|apply evolves_refl|right; set_solver]. simpl. rewrite app_nil_r. by rewrite Z.add_0_r. }
  case_decide as Ht.
  { exists m, []. simpl. rewrite app_nil_r, Z.add_0_r. split_and!; [done|apply evolves_refl|by left]. }
  destruct (find_key k m) as [c|] eqn:Hf.
  2: { destruct (IH m e wb Hn) as (m' & v & E & Hev & Hd). exists m', v. split_and!; [done|done|].
       intros Hfi. destruct (Hd Hfi) as [?|Hp]; [by left|right].
       intros j d [->|Hj]%elem_of_cons Hjd; [|by eapply Hp].
       destruct (ev_back _ _ _ Hev _ _ Hjd) as (x & Hx & _). congruence. }
  destruct (is_pinned c) eqn:Hp.
  { destruct (IH m e wb Hn) as (m' & v & E & Hev & Hd). exists m', v. split_and!; [done|done|].
    intros Hfi. destruct (Hd Hfi) as [?|Hq]; [by left|right].
    intros j d [->|Hj]%elem_of_cons Hjd; [|by eapply Hq].
    destruct (ev_back _ _ _ Hev _ _ Hjd) as (x & Hx & Es). simplify_eq.
    by rewrite (proj1 (proj2 (proj2 (same_item_fields _ _ Es)))). }
  destruct (first && clock_flag c) eqn:Hc.
  { pose proof (evolves_flag k c m Hf) as Hflag.
    destruct (IH (insert_key k (set_clock false c) m) e wb) as (m' & v & E & Hev & Hd);
      [by apply NoDup_insert_key|]. exists m', v. split_and!; [done| |by destruct first].
    by apply (evolves_trans _ _ _ [] v Hn Hflag). }
  pose proof (evolves_remove k c m Hf Hp) as Hrem.
  destruct (IH (remove_key k m) (e + size c) (wb ++ [(k, c)])) as (m' & v & E & Hev & Hd);
    [by apply NoDup_remove_key|]. exists m', ((k, c) :: v). simpl in *.
  rewrite E, <- app_assoc, Z.add_assoc. split_and!; [done|by apply (evolves_trans _ _ _ [(k, c)] v Hn Hrem)|].
  intros Hfi. destruct (Hd Hfi) as [?|Hq]; [by left|right].
  intros j d [->|Hj]%elem_of_cons Hjd; [|by eapply Hq].
  destruct (ev_back _ _ _ Hev _ _ Hjd) as (x & Hx & _). rewrite find_remove, decide_True in Hx by done. done.
Qed.

Lemma evict_locked_spec m target :
  NoDup (keys m) -> target <> 0 ->
  exists m' v, evict_locked m target = (m', shard_bytes v, v) /\ evolves m m' v /\
    (target <= shard_bytes v \/ forall k c, find_key k m' = Some c -> is_pinned c = true).
Proof.
  intros Hn Ht. unfold evict_locked. rewrite (bool_decide_false (target = 0)), orb_false_r by done.
  case_bool_decide as Hm.
  { subst. exists [], []. split_and!; [done|apply evolves_refl|by right]. }
  destruct (evict_pass_spec true target (map fst m) m 0 [] Hn) as (m1 & v1 & E1 & Hev1 & _).
  rewrite E1, Z.add_0_l. simpl. case_decide as He.
  { exists m1, v1. split_and!; [done|done|by left]. }
  pose proof (ev_nodup _ _ _ Hev1 Hn) as Hn1.
  destruct (evict_pass_spec false target (map fst m1) m1 (shard_bytes v1) v1 Hn1)
    as (m2 & v2 & E2 & Hev2 & Hd). rewrite E2.
  exists m2, (v1 ++ v2). rewrite victims_app. split_and!; [done|by eapply evolves_trans|].
  destruct (Hd eq_refl) as [?|Hp]; [left; lia|right]. intros k c Hc. apply (Hp k c); [|done].
  destruct (ev_back _ _ _ Hev2 _ _ Hc) as (d & Hf & _). apply elem_of_keys_find. by exists d.
Qed.

Lemma total_cons m ss : total (m :: ss) = shard_bytes m + total ss.
Proof. done. Qed.

(** Eviction over the shards: each evolves on its own. *)
Lemma evict_shards_spec target ss e :
  Forall (fun m => NoDup (keys m)) ss ->
  exists ss' vs, evict_shards target ss e = (ss', e + shard_bytes (concat vs), concat vs) /\
    Forall3 evolves ss ss' vs /\
    (target <= e + shard_bytes (concat vs) \/
     forall m k c, m ∈ ss' -> find_key k m = Some c -> is_pinned c = true).
Proof.
  revert e; induction ss as [|m ss IH]; intros e Hn; simpl.
  { exists [], []. simpl. rewrite Z.add_0_r. split_and!; [done|constructor|right; set_solver]. }
  apply Forall_cons in Hn as [Hm Hn]. case_decide as Ht.
  { exists (m :: ss), (replicate (S (length ss)) []).
    assert (E0 : concat (replicate (S (length ss)) ([] : list (K * CachedItem T))) = []).
    { induction (S (length ss)); [done|]. by simpl. }
    rewrite E0. simpl. rewrite Z.add_0_r. split_and!; [done| |by left].
    change (Forall3 evolves (m :: ss) (m :: ss) (replicate (length (m :: ss)) [])).
    clear. induction (m :: ss); simpl; constructor; [apply evolves_refl|done]. }
  destruct (evict_locked_spec m (target - e) Hm ltac:(lia)) as (m' & v & E & Hev & Hd). rewrite E.
  destruct (IH (e + shard_bytes v) Hn) as (ss' & vs & E' & Hevs & Hd'). rewrite E'.
  exists (m' :: ss'), (v :: vs). simpl. rewrite victims_app, Z.add_assoc.
  split_and!; [done|by constructor|].
  destruct Hd' as [?|Hd']; [by left|]. destruct Hd as [?|Hd].
  - destruct ss as [|m2 ss].
    + left. inversion Hevs; subst. simpl. lia.
    + left. simpl in E'. rewrite decide_True in E' by lia. injection E' as _ E2 _. lia.
  - right. intros x k c [->|Hx]%elem_of_cons Hc; [by eapply Hd|by eapply Hd'].
Qed.

Lemma evolves_total ss ss' vs :
  Forall (fun m => NoDup (keys m)) ss -> Forall3 evolves ss ss' vs ->
  total ss' = total ss - shard_bytes (concat vs) /\ Forall (fun m => NoDup (keys m)) ss'.
Proof.
  intros Hn Hev. induction Hev as [|m m' v ss ss' vs Hm _ IH]; [done|]. cbn [concat].
  apply Forall_cons in Hn as [H1 H2]. destruct (IH H2) as [E Hn']. split.
  - rewrite !total_cons, victims_app, E, (ev_bytes _ _ _ Hm H1). lia.
  - constructor; [by apply (ev_nodup _ _ _ Hm)|done].
Qed.


(** ** The pool *)

Context (shard_for : nat -> K -> nat).
Context (shard_for_lt : forall n k, (0 < n)%nat -> (shard_for n k < n)%nat).
Implicit Types (p : BufferPool K T).

Abbreviation owner := (owner shard_for).
Abbreviation shard_of := (shard_of shard_for).
Abbreviation update_shard := (update_shard shard_for).

(** Keys are unique and in the shard that owns them; the usage is the weight of
    the items and of [d] bytes reserved. *)
Record pool_ok (d : Z) p : Prop := {
  po_shards : shards p <> [];
  po_nodup : Forall (fun m => NoDup (keys m)) (shards p);
  po_owner : forall i m k, shards p !! i = Some m -> k ∈ keys m -> owner p k = i;
  po_usage : usage p = wrap_u64 (total (shards p) + d);
  po_ttl : 0 <= ttl_nanos p;
  po_tti : 0 <= tti_nanos p;
}.

Lemma shard_of_lookup d p k : pool_ok d p -> shards p !! owner p k = Some (shard_of p k).
Proof.
  intros Hok. unfold Pool.shard_of.
  destruct (shards p !! owner p k) as [m|] eqn:E; [done|].
  apply lookup_ge_None in E. pose proof (shard_for_lt (length (shards p)) k) as Hlt.
  destruct (shards p) eqn:Es; [by destruct (po_shards _ _ Hok)|].
  unfold Pool.owner in E. rewrite Es in E. simpl in *. lia.
Qed.

Lemma shard_of_nodup d p k : pool_ok d p -> NoDup (keys (shard_of p k)).
Proof.
  intros Hok. pose proof (po_nodup _ _ Hok) as H. rewrite Forall_lookup in H.
  eapply H, shard_of_lookup. done.
Qed.

Lemma total_alter f i ss m :
  ss !! i = Some m -> total (alter f i ss) = total ss + shard_bytes (f m) - shard_bytes m.
Proof.
  revert i; induction ss as [|x ss IH]; intros [|i] Hi; [done|done| |].
  - injection Hi as ->. change (alter f 0%nat (m :: ss)) with (f m :: ss). rewrite !total_cons. lia.
  - change (alter f (S i) (x :: ss)) with (x :: alter f i ss). rewrite !total_cons, (IH i Hi). lia.
Qed.

Lemma lookup_alter_shard (f : shard K T -> shard K T) i j ss :
  alter f i ss !! j = if decide (i = j) then option_map f (ss !! i) else ss !! j.
Proof. rewrite list_lookup_alter. case_decide; [|done]. by destruct (ss !! i). Qed.

Lemma owner_update j k f p : owner (update_shard k f p) j = owner p j.
Proof. unfold Pool.owner. simpl. by rewrite length_alter. Qed.

Lemma shard_of_update d p k f : pool_ok d p -> shard_of (update_shard k f p) k = f (shard_of p k).
Proof.
  intros Hok. pose proof (shard_of_lookup d p k Hok) as Hl.
  unfold Pool.shard_of at 1. rewrite owner_update.
  change (shards (update_shard k f p)) with (alter f (owner p k) (shards p)).
  by rewrite (lookup_alter_shard f (owner p k) (owner p k) (shards p)), decide_True, Hl.
Qed.

(** Lookups after an insertion in the shard of [k]. *)
Lemma find_update_insert d p j k c :
  pool_ok d p ->
  find_key j (shard_of (update_shard k (insert_key k c) p) j) =
    if decide (k = j) then Some c else find_key j (shard_of p j).
Proof.
  intros Hok. unfold Pool.shard_of at 1. rewrite owner_update.
  change (shards (update_shard k (insert_key k c) p)) with
    (alter (insert_key k c) (owner p k) (shards p)).
  rewrite lookup_alter_shard. case_decide as Ho.
  - rewrite (shard_of_lookup d p k Hok). simpl. rewrite find_insert_key. case_decide; [done|].
    unfold Pool.shard_of. by rewrite Ho.
  - case_decide; [congruence|done].
Qed.

(** The shard of a key changed, with the usage by the same amount. *)
Lemma pool_ok_update d d' p k f :
  pool_ok d p ->
  (NoDup (keys (shard_of p k)) -> NoDup (keys (f (shard_of p k)))) ->
  (forall j, j ∈ keys (f (shard_of p k)) -> j = k \/ j ∈ keys (shard_of p k)) ->
  shard_bytes (f (shard_of p k)) + d' = shard_bytes (shard_of p k) + d ->
  pool_ok d' (update_shard k f p).
Proof.
  intros Hok Hnd Hk Hb. pose proof (shard_of_lookup d p k Hok) as Hl.
  destruct Hok as [Hs Hn Ho Hu Ht1 Ht2].
  split; try done; change (shards (update_shard k f p)) with (alter f (owner p k) (shards p)).
  - destruct (shards p); [done|]. by destruct (owner p k).
  - rewrite Forall_lookup in *. intros i m. rewrite lookup_alter_shard. case_decide; [|by apply Hn].
    subst. rewrite Hl. simpl. intros [= <-]. by apply Hnd, (Hn _ _ Hl).
  - intros i m j. rewrite owner_update, lookup_alter_shard.
    case_decide; [|by apply Ho]. subst. rewrite Hl. simpl. intros [= <-] Hj.
    destruct (Hk j Hj) as [->|Hj']; [done|]. by apply (Ho _ _ _ Hl).
  - simpl. rewrite Hu, (total_alter _ _ _ _ Hl). f_equal. lia.
Qed.

Lemma pool_ok_usage d d' p :
  pool_ok d p -> pool_ok (d + d') (with_usage (fun u => wrap_u64 (u + d')) p).
Proof.
  intros [Hs Hn Ho Hu Ht1 Ht2]. split; try done; simpl.
  by rewrite Hu, wrap_u64_add_l, Z.add_assoc.
Qed.

Lemma pool_ok_usage_sub d d' p :
  pool_ok d p -> pool_ok (d - d') (with_usage (fun u => wrap_u64 (u - d')) p).
Proof. apply (pool_ok_usage d (- d')). Qed.


(** Every shard keeps some of its keys. *)
Definition shrinks m m' : Prop :=
  (NoDup (keys m) -> NoDup (keys m')) /\ forall k, k ∈ keys m' -> k ∈ keys m.

Lemma pool_ok_shrink d d' p ss' :
  pool_ok d p -> Forall2 shrinks (shards p) ss' ->
  total ss' + d' = total (shards p) + d -> pool_ok d' (with_shards (fun _ => ss') p).
Proof.
  intros [Hs Hn Ho Hu Ht1 Ht2] H2 Hd. split; try done; simpl.
  - intros ->. by inversion H2.
  - clear -Hn H2. induction H2 as [|m m' ss ss' [Hm _] _ IH]; [done|].
    apply Forall_cons in Hn as [? ?]. constructor; auto.
  - intros i m' k Hi Hk. unfold Pool.owner. simpl. rewrite <- (Forall2_length _ _ _ H2).
    destruct (Forall2_lookup_r _ _ _ _ _ H2 Hi) as (m & Hm & _ & Hsub).
    apply (Ho i m k Hm). by apply Hsub.
  - rewrite Hu. f_equal. lia.
Qed.

Lemma evolves_shrinks m m' v : evolves m m' v -> shrinks m m'.
Proof.
  intros Hev. split; [apply (ev_nodup _ _ _ Hev)|]. intros k. rewrite !elem_of_keys_find.
  intros [c Hc]. destruct (ev_back _ _ _ Hev _ _ Hc) as (x & Hx & _). by exists x.
Qed.

Lemma evict_all_collect_spec d p target :
  pool_ok d p ->
  exists ss' vs, evict_all_collect target p =
      (with_usage (fun u => wrap_u64 (u - shard_bytes (concat vs))) (with_shards (fun _ => ss') p),
       shard_bytes (concat vs), concat vs) /\
    Forall3 evolves (shards p) ss' vs /\
    (target <= shard_bytes (concat vs) \/
     forall m k c, m ∈ ss' -> find_key k m = Some c -> is_pinned c = true) /\
    pool_ok d (evict_all_collect target p).1.1.
Proof.
  intros Hok. pose proof (po_nodup _ _ Hok) as Hn.
  destruct (evict_shards_spec target (shards p) 0 Hn) as (ss' & vs & E & Hev & Hd).
  unfold evict_all_collect. rewrite E, Z.add_0_l in *. exists ss', vs. split_and!; try done. simpl.
  destruct (evolves_total _ _ _ Hn Hev) as [Ht _].
  assert (H2 : Forall2 shrinks (shards p) ss').
  { clear -Hev. induction Hev; constructor; [by eapply evolves_shrinks|done]. }
  pose proof (pool_ok_shrink d (d + shard_bytes (concat vs)) p ss' Hok H2 ltac:(lia)) as Hok'.
  apply (pool_ok_usage_sub _ (shard_bytes (concat vs))) in Hok'.
  by rewrite Z.add_simpl_r in Hok'.
Qed.

Lemma pool_ok_flush d p wb : pool_ok d p -> pool_ok d (flush_writebacks wb p).
Proof. intros [Hs Hn Ho Hu Ht1 Ht2]. unfold flush_writebacks. destruct (writer p); by split. Qed.

Lemma evict_ok d p target : pool_ok d p -> pool_ok d (evict target p).1.
Proof.
  intros Hok. unfold evict. case_decide; [done|].
  destruct (evict_all_collect_spec d p target Hok) as (ss' & vs & E & _ & _ & Hok').
  rewrite E in *. by apply pool_ok_flush.
Qed.

Lemma pool_ok_capacity d p n : pool_ok d p -> pool_ok d (with_capacity n p).
Proof. intros [Hs Hn Ho Hu Ht1 Ht2]. by split. Qed.

Lemma set_capacity_ok d p n : pool_ok d p -> pool_ok d (set_capacity n p).
Proof.
  intros Hok. unfold set_capacity. case_decide; [apply evict_ok|]; by apply pool_ok_capacity.
Qed.

Lemma remove_ok_aux d p k c :
  pool_ok d p -> find_key k (shard_of p k) = Some c ->
  pool_ok d (with_usage (fun u => wrap_u64 (u - size c)) (update_shard k (remove_key k) p)).
Proof.
  intros Hok Hf. pose proof (shard_of_nodup d p k Hok) as Hn.
  replace d with (d + size c - size c) at 1 by lia. apply pool_ok_usage_sub.
  apply (pool_ok_update d); [done|apply NoDup_remove_key| |rewrite (bytes_remove k c) by done; lia].
  intros j. rewrite keys_remove. rewrite list_elem_of_In, filter_In, <- list_elem_of_In. tauto.
Qed.

Lemma insert_key_ok d d' p k c :
  pool_ok d p -> size c + d' = from_option size 0 (find_key k (shard_of p k)) + d ->
  pool_ok d' (update_shard k (insert_key k c) p).
Proof.
  intros Hok Hd. apply (pool_ok_update d); [done|apply NoDup_insert_key| |].
  - intros j. by rewrite elem_of_keys_insert.
  - rewrite bytes_insert. lia.
Qed.

Lemma get_ok d p now k : pool_ok d p -> pool_ok d (get shard_for now p k).1.
Proof.
  intros Hok. unfold get. destruct (find_key k (shard_of p k)) as [c|] eqn:Hf; [|done].
  destruct (is_expired _ _ _ _); [by apply remove_ok_aux|]. case_decide; [|done].
  apply (insert_key_ok d); [done|]. by rewrite Hf.
Qed.

Lemma modify_item_ok d p f k :
  pool_ok d p -> (forall c, size (f c) = size c) -> pool_ok d (modify_item shard_for f k p).
Proof.
  intros Hok Hs. unfold modify_item. destruct (find_key k (shard_of p k)) as [c|] eqn:Hf; [|done].
  apply (insert_key_ok d); [done|]. by rewrite Hf, Hs.
Qed.


Lemma make_room_spec d p k :
  pool_ok d p -> capacity p < usage p ->
  exists m' v, evolves (shard_of p k) m' v /\
    let p1 := with_usage (fun u => wrap_u64 (u - shard_bytes v)) (update_shard k (fun _ => m') p) in
    pool_ok d p1 /\
    ((make_room shard_for k p = (p1, v)) \/
     (exists ss' vs, make_room shard_for k p =
        (with_usage (fun u => wrap_u64 (u - shard_bytes (concat vs))) (with_shards (fun _ => ss') p1),
         v ++ concat vs) /\ Forall3 evolves (shards p1) ss' vs /\
        pool_ok d (make_room shard_for k p).1)).
Proof.
  intros Hok Hu. pose proof (shard_of_nodup d p k Hok) as Hn. unfold make_room.
  rewrite (decide_True (P := capacity p < usage p)) by done.
  destruct (evict_locked_spec (shard_of p k) (usage p - capacity p + 1) Hn ltac:(lia))
    as (m' & v & E & Hev & _). rewrite E. exists m', v. split; [done|]. cbn zeta.
  set (p1 := with_usage _ _). assert (Hok1 : pool_ok d p1).
  { replace d with (d + shard_bytes v - shard_bytes v) by lia. apply pool_ok_usage_sub.
    destruct (evolves_shrinks _ _ _ Hev) as [Hnd Hsub].
    apply (pool_ok_update d); [done|done| |rewrite (ev_bytes _ _ _ Hev Hn); lia].
    intros j Hj. right. by apply Hsub. }
  split; [done|]. case_decide as He; [|by left]. case_decide as Hc; [|by left].
  destruct (evict_all_collect_spec d p1 (usage p1 - capacity p1 + 1) Hok1)
    as (ss' & vs & E' & Hevs & _ & Hok2). rewrite E' in *. right. by exists ss', vs.
Qed.

Lemma make_room_ok d p k : pool_ok d p -> pool_ok d (make_room shard_for k p).1.
Proof.
  intros Hok. destruct (decide (capacity p < usage p)) as [Hu|Hu].
  - destruct (make_room_spec d p k Hok Hu) as (m' & v & _ & Hok1 & [->|(ss' & vs & _ & _ & H)]); done.
  - unfold make_room. by rewrite decide_False by done.
Qed.

Lemma insert_ok p now k t sz : pool_ok 0 p -> pool_ok 0 (insert shard_for now k t sz p).
Proof.
  intros Hok. unfold insert.
  pose proof (make_room_ok _ _ k (pool_ok_usage 0 sz p Hok)) as Hok1.
  destruct (make_room shard_for k _) as [p1 wb]. simpl in Hok1.
  destruct (find_key k (shard_of p1 k)) as [c|] eqn:Hf; apply pool_ok_flush.
  - replace 0 with (size c - size c) by lia. apply pool_ok_usage_sub.
    apply (insert_key_ok sz); [done|]. rewrite Hf. simpl. lia.
  - apply (insert_key_ok sz); [done|]. rewrite Hf. simpl. lia.
Qed.

Lemma get_or_load_ok p now k : pool_ok 0 p -> pool_ok 0 (get_or_load shard_for now p k).1.
Proof.
  intros Hok. unfold get_or_load. pose proof (get_ok 0 p now k Hok) as Hok1.
  destruct (get shard_for now p k) as [p1 [c|]]; [done|]. simpl in Hok1.
  destruct (loader p1) as [load|]; [|done]. destruct (load k) as [[t sz]|]; [|done].
  by apply get_ok, insert_ok.
Qed.

Lemma pool_remove_ok p k : pool_ok 0 p -> pool_ok 0 (remove shard_for k p).1.
Proof.
  intros Hok. unfold remove. destruct (find_key k (shard_of p k)) as [c|] eqn:Hf; [|done]. simpl.
  pose proof (remove_ok_aux 0 p k c Hok Hf) as [Hs Hn Ho Hu Ht1 Ht2].
  destruct (writer p), (dirty c); by split.
Qed.

Lemma clear_ok p : pool_ok 0 p -> pool_ok 0 (clear p).
Proof.
  intros Hok. unfold clear. pose proof (pool_ok_shrink 0 (total (shards p)) p (map (fun _ => []) (shards p)) Hok) as H.
  assert (Hz : total (map (fun _ : shard K T => [] : shard K T) (shards p)) = 0).
  { induction (shards p); [done|]. cbn [map]. rewrite total_cons. simpl. lia. }
  assert (H2 : Forall2 shrinks (shards p) (map (fun _ : shard K T => []) (shards p))).
  { clear. induction (shards p); cbn [map]; constructor; [|done]. split; [constructor|set_solver]. }
  specialize (H H2 ltac:(lia)). apply (pool_ok_usage_sub _ (total (shards p))) in H.
  by rewrite Z.sub_diag in H.
Qed.

Lemma shard_bytes_split (f : K * CachedItem T -> bool) m :
  shard_bytes m = shard_bytes (List.filter f m) + shard_bytes (List.filter (fun kc => negb (f kc)) m).
Proof. induction m as [|kc m IH]; simpl; [done|]. destruct (f kc); simpl; lia. Qed.

Lemma shrinks_filter f m : shrinks m (List.filter f m).
Proof.
  assert (Hsub : forall k, k ∈ keys (List.filter f m) -> k ∈ keys m).
  { intros k (kc & -> & Hin)%(list_elem_of_fmap_1 fst).
    apply list_elem_of_In, filter_In in Hin as [Hin _].
    apply (list_elem_of_fmap_2 fst). by apply list_elem_of_In. }
  split; [|done]. clear Hsub. induction m as [|[k c] m IH]; simpl; [done|].
  intros [Hk Hn]%NoDup_cons. destruct (f (k, c)); simpl; [|by apply IH].
  constructor; [|by apply IH]. intros (kc & E & Hin)%(list_elem_of_fmap_1 fst).
  apply list_elem_of_In, filter_In in Hin as [Hin _]. apply Hk. rewrite E.
  apply (list_elem_of_fmap_2 fst). by apply list_elem_of_In.
Qed.

Lemma prune_ok p now : pool_ok 0 p -> pool_ok 0 (prune_expired now p).1.
Proof.
  intros Hok. unfold prune_expired. destruct (_ && _); [done|]. cbn [fst].
  set (keep := fun kc : K * CachedItem T => negb (is_expired kc.2 now (ttl_nanos p) (tti_nanos p))).
  set (kept := map (List.filter keep) (shards p)).
  set (gone := map (List.filter (fun kc => negb (keep kc))) (shards p)).
  assert (Ht : total (shards p) = total kept + total gone).
  { subst kept gone. induction (shards p) as [|m ss IH]; [done|]. cbn [map]. rewrite !total_cons.
    rewrite (shard_bytes_split keep m). lia. }
  assert (H2 : Forall2 shrinks (shards p) kept).
  { subst kept. clear. induction (shards p); cbn [map]; constructor; [apply shrinks_filter|done]. }
  pose proof (pool_ok_shrink 0 (total gone) p kept Hok H2 ltac:(lia)) as H.
  apply (pool_ok_usage_sub _ (total gone)) in H. by rewrite Z.sub_diag in H.
Qed.


(** ** Reachable pools *)

Inductive pool_step : BufferPool K T -> BufferPool K T -> Prop :=
| ps_get p now k : pool_step p (get shard_for now p k).1
| ps_get_or_load p now k : pool_step p (get_or_load shard_for now p k).1
| ps_insert p now k t sz : 0 <= sz -> pool_step p (insert shard_for now k t sz p)
| ps_evict p n : pool_step p (evict n p).1
| ps_set_capacity p n : pool_step p (set_capacity n p)
| ps_remove p k : pool_step p (remove shard_for k p).1
| ps_clear p : pool_step p (clear p)
| ps_prune p now : pool_step p (prune_expired now p).1
| ps_pin p now k : pool_step p (modify_item shard_for (pin_item now) k p)
| ps_unpin p k : pool_step p (modify_item shard_for unpin_item k p)
| ps_mark_dirty p k b : pool_step p (modify_item shard_for (fun c =>
    mkCached (item c) (pin_count c) b (clock_flag c) (last_access c) (created_at c) (size c)) k p)
| ps_set_ttl p o : pool_step p (set_ttl o p)
| ps_set_tti p o : pool_step p (set_tti o p)
| ps_set_loader p l : pool_step p (set_loader l p)
| ps_set_writer p w : pool_step p (set_writer w p).

Lemma pool_ok_new n cap : (0 < n)%nat -> pool_ok 0 (new n cap).
Proof.
  intros Hn. assert (Hl : forall i m, replicate n [] !! i = Some m -> m = ([] : shard K T)).
  { intros i m Hi. by apply lookup_replicate in Hi as [-> _]. }
  split; simpl; try done.
  - destruct n; [lia|done].
  - apply Forall_lookup. intros i m ->%Hl. constructor.
  - intros i m k ->%Hl. set_solver.
  - assert (Hz : total (replicate n ([] : shard K T)) = 0); [|by rewrite Hz].
    clear. induction n; [done|]. cbn [replicate]. rewrite total_cons, IHn. done.
Qed.

Lemma pool_step_ok p p' : pool_ok 0 p -> pool_step p p' -> pool_ok 0 p'.
Proof.
  intros Hok Hstep. destruct Hstep;
    try (destruct Hok; split; try done; simpl; apply wrap_u64_range).
  - by apply get_ok.
  - by apply get_or_load_ok.
  - by apply insert_ok.
  - by apply evict_ok.
  - by apply set_capacity_ok.
  - by apply pool_remove_ok.
  - by apply clear_ok.
  - by apply prune_ok.
  - by apply modify_item_ok.
  - by apply modify_item_ok.
  - by apply modify_item_ok.
Qed.

Lemma pool_reach_ok n cap p : (0 < n)%nat -> rtc pool_step (new n cap) p -> pool_ok 0 p.
Proof.
  intros Hn Hsteps. pose proof (pool_ok_new n cap Hn) as Hok. revert Hok.
  induction Hsteps as [|x y z H _ IH]; [done|]. intros Hok. by apply IH, (pool_step_ok x).
Qed.

(** ** What an eviction does to an item *)

Lemma Forall3_lookup_evolves ss ss' vs i m :
  Forall3 evolves ss ss' vs -> ss !! i = Some m ->
  exists m' v, ss' !! i = Some m' /\ evolves m m' v /\ forall x, x ∈ v -> x ∈ concat vs.
Proof.
  intros H. revert i; induction H as [|m0 m0' v0 ss ss' vs Hev _ IH]; intros i Hi; [done|].
  destruct i as [|i]; simpl in *.
  - simplify_eq. exists m0', v0. set_solver.
  - destruct (IH i Hi) as (m' & v & ? & ? & Hx). exists m', v. set_solver.
Qed.

(** An item of the pool is still there, but for its clock flag, or is gone; then
    it was not pinned and, if dirty, it is among the items written back. *)
Definition kept_or_written p p' : Prop := forall k c,
  find_key k (shard_of p k) = Some c ->
  (exists d, find_key k (shard_of p' k) = Some d /\ same_item d c) \/
  (is_pinned c = false /\ (dirty c = true -> is_Some (writer p) -> (k, item c) ∈ written p')).

Lemma written_victims p p' wb k c d :
  writer p' = writer p -> (k, d) ∈ wb -> same_item d c ->
  dirty c = true -> is_Some (writer p) -> (k, item c) ∈ written (flush_writebacks wb p').
Proof.
  intros Ew Hin Es Hd [w Hw]. unfold flush_writebacks. rewrite Ew, Hw. simpl.
  apply elem_of_app. right. destruct (same_item_fields _ _ Es) as (Ei & Ed & _).
  rewrite <- Ei. apply (list_elem_of_fmap_2 (fun kc => (kc.1, item kc.2)) _ (k, d)).
  apply list_elem_of_In, filter_In. split; [by apply list_elem_of_In|]. simpl. congruence.
Qed.

Lemma evict_fate d p target : pool_ok d p -> kept_or_written p (evict target p).1.
Proof.
  intros Hok k c Hf. unfold evict. case_decide as Ht; [by left; exists c|].
  destruct (evict_all_collect_spec d p target Hok) as (ss' & vs & E & Hev & _ & _). rewrite E. cbn [fst].
  set (p' := with_usage _ _).
  pose proof (shard_of_lookup d p k Hok) as Hl.
  destruct (Forall3_lookup_evolves _ _ _ _ _ Hev Hl) as (m' & v & Hm' & He & Hv).
  destruct (ev_fate _ _ _ He k c Hf) as [(x & Hx & Es)|(Hp & x & Hx & Es)].
  - left. exists x. split; [|done]. assert (Hsh : shard_of (flush_writebacks (concat vs) p') k = m'); [|by rewrite Hsh].
    assert (Hlen : length ss' = length (shards p)).
    { clear -Hev. induction Hev; simpl; congruence. }
    assert (Hs : shards (flush_writebacks (concat vs) p') = ss') by (unfold flush_writebacks; by destruct (writer p')).
    unfold Pool.shard_of, Pool.owner. rewrite Hs, Hlen. unfold Pool.owner in Hm'. by rewrite Hm'.
  - right. split; [done|]. intros Hd Hw. apply (written_victims p p' (concat vs) k c x); try done. by apply Hv.
Qed.

(** The usage counter is exact: in every pool the operations reach, it is
    the sum of the sizes of the cached items (as a 64-bit word), each key is
    cached once, in the shard its hash picks. *)
Theorem pool_usage_exact n cap p :
  (0 < n)%nat -> rtc pool_step (new n cap) p ->
  current_usage p = wrap_u64 (total (shards p)) /\
  (forall i m k, shards p !! i = Some m -> k ∈ keys m -> owner p k = i) /\
  (forall i m, shards p !! i = Some m -> NoDup (keys m)).
Proof.
  intros Hn Hsteps. pose proof (pool_reach_ok n cap p Hn Hsteps) as Hok. split_and!.
  - unfold current_usage. rewrite (po_usage _ _ Hok). by rewrite Z.add_0_r.
  - apply (po_owner _ _ Hok).
  - intros i m Hi. pose proof (po_nodup _ _ Hok) as H. rewrite Forall_lookup in H. by apply (H i).
Qed.

(** An eviction keeps its promises: it frees the bytes it was asked for, or
    everything that is left is pinned; the weight of the pool drops by what it
    reports; an item that goes was not pinned, and was handed to the writer if
    it was dirty. *)
Theorem evict_enough n cap p target p' e :
  (0 < n)%nat -> rtc pool_step (new n cap) p -> target <> 0 -> evict target p = (p', e) ->
  (target <= e \/ forall m k c, m ∈ shards p' -> find_key k m = Some c -> is_pinned c = true) /\
  total (shards p') = total (shards p) - e /\ kept_or_written p p'.
Proof.
  intros Hn Hsteps Ht E. pose proof (pool_reach_ok n cap p Hn Hsteps) as Hok.
  pose proof (evict_fate 0 p target Hok) as Hfate. rewrite E in Hfate.
  unfold evict in E. rewrite decide_False in E by done.
  destruct (evict_all_collect_spec 0 p target Hok) as (ss' & vs & E' & Hev & Hd & _).
  rewrite E' in E. injection E as <- <-.
  assert (Hs : forall q, shards (flush_writebacks (concat vs) q) = shards q)
    by (intros q; unfold flush_writebacks; by destruct (writer q)).
  rewrite Hs. simpl. split_and!; [done| |done].
  apply (evolves_total _ _ _ (po_nodup _ _ Hok) Hev).
Qed.

Lemma insert_find p now k t sz :
  pool_ok 0 p -> find_key k (shard_of (insert shard_for now k t sz p) k) = Some (cached_new now t sz).
Proof.
  intros Hok. pose proof (make_room_ok _ _ k (pool_ok_usage 0 sz p Hok)) as Hok1. unfold insert.
  destruct (make_room shard_for k _) as [p1 wb]. simpl in Hok1.
  pose proof (find_update_insert _ p1 k k (cached_new now t sz) Hok1) as Hf. rewrite decide_True in Hf by done.
  unfold flush_writebacks. destruct (find_key k (shard_of p1 k)), (writer _); exact Hf.
Qed.

(** What is inserted is found: whatever had to be evicted, an item is in
    the pool right after its insertion. *)
Theorem insert_get n cap p now k t sz :
  (0 < n)%nat -> rtc pool_step (new n cap) p ->
  exists c, (get shard_for now (insert shard_for now k t sz p) k).2 = Some c /\
    item c = t /\ size c = sz /\ is_pinned c = false.
Proof.
  intros Hn Hsteps. pose proof (pool_reach_ok n cap p Hn Hsteps) as Hok.
  pose proof (insert_ok p now k t sz Hok) as Hok2.
  pose proof (insert_find p now k t sz Hok) as Hf.
  unfold get. rewrite Hf. set (q := insert shard_for now k t sz p) in *.
  assert (Hx : is_expired (cached_new now t sz) now (ttl_nanos q) (tti_nanos q) = false).
  { unfold is_expired, saturating_sub_u64. simpl. pose proof (po_ttl _ _ Hok2). pose proof (po_tti _ _ Hok2).
    rewrite Z.sub_diag, Z.max_id. repeat case_bool_decide; simpl; try done; lia. }
  rewrite Hx. case_decide; simpl; eexists; done.
Qed.


(** ** Where the items of a pool come from *)

(** What the shards of a pool after an eviction hold, they held before. *)
Lemma update_back d p k m' v j x :
  pool_ok d p -> evolves (shard_of p k) m' v ->
  find_key j (shard_of (update_shard k (fun _ => m') p) j) = Some x ->
  exists c, find_key j (shard_of p j) = Some c /\ item c = item x.
Proof.
  intros Hok Hev. unfold Pool.shard_of at 1. rewrite owner_update.
  change (shards (update_shard k (fun _ => m') p)) with (alter (fun _ => m') (owner p k) (shards p)).
  rewrite lookup_alter_shard. case_decide as Ho; [|by exists x].
  rewrite (shard_of_lookup d p k Hok). simpl. intros Hx.
  destruct (ev_back _ _ _ Hev j x Hx) as (c & Hc & Hs). exists c.
  split; [unfold Pool.shard_of; by rewrite <- Ho|]. by destruct (same_item_fields _ _ Hs).
Qed.

Lemma evolved_shards_back d p ss' vs f j x :
  pool_ok d p -> Forall3 evolves (shards p) ss' vs ->
  find_key j (shard_of (with_usage f (with_shards (fun _ => ss') p)) j) = Some x ->
  exists c, find_key j (shard_of p j) = Some c /\ item c = item x.
Proof.
  intros Hok Hev. pose proof (shard_of_lookup d p j Hok) as Hl.
  destruct (Forall3_lookup_evolves _ _ _ _ _ Hev Hl) as (m' & v & Hm' & He & _).
  assert (Hlen : length ss' = length (shards p)) by (clear -Hev; induction Hev; simpl; congruence).
  unfold Pool.shard_of at 1, Pool.owner. simpl. rewrite Hlen.
  unfold Pool.owner in Hm'. rewrite Hm'. simpl. intros Hx.
  destruct (ev_back _ _ _ He j x Hx) as (c & Hc & Hs). exists c.
  split; [done|]. by destruct (same_item_fields _ _ Hs).
Qed.

Lemma make_room_back d p k j x :
  pool_ok d p -> find_key j (shard_of (make_room shard_for k p).1 j) = Some x ->
  exists c, find_key j (shard_of p j) = Some c /\ item c = item x.
Proof.
  intros Hok. destruct (decide (capacity p < usage p)) as [Hu|Hu].
  - destruct (make_room_spec d p k Hok Hu) as (m' & v & Hev & Hok1 & [->|(ss' & vs & -> & Hevs & _)]).
    + by apply (update_back d p k m' v).
    + cbn [fst]. intros Hx. destruct (evolved_shards_back d _ ss' vs _ j x Hok1 Hevs Hx) as (c & Hc & Hi).
      destruct (update_back d p k m' v j c Hok Hev Hc) as (c' & Hc' & Hi'). exists c'. split; [done|congruence].
  - unfold make_room. rewrite decide_False by done. by exists x.
Qed.

(** The fields that insertions leave alone. *)
Definition same_setup p p' : Prop :=
  loader p' = loader p /\ writer p' = writer p /\ capacity p' = capacity p /\
  ttl_nanos p' = ttl_nanos p /\ tti_nanos p' = tti_nanos p.

Lemma flush_same_setup wb p : same_setup p (flush_writebacks wb p).
Proof. unfold flush_writebacks. by destruct (writer p) eqn:E. Qed.

Lemma make_room_same_setup k p : same_setup p (make_room shard_for k p).1.
Proof.
  unfold make_room. case_decide; [|done]. destruct (evict_locked _ _) as [[m' e] wb].
  case_decide; [|done]. case_decide; [|done]. unfold evict_all_collect.
  by destruct (evict_shards _ _ _) as [[ss e'] wb2].
Qed.

(** An insertion: the new item is there, the others are items of before. *)
Lemma insert_back p now k t sz j x :
  pool_ok 0 p -> find_key j (shard_of (insert shard_for now k t sz p) j) = Some x ->
  (j = k /\ x = cached_new now t sz) \/
  (j <> k /\ exists c, find_key j (shard_of p j) = Some c /\ item c = item x).
Proof.
  intros Hok. pose proof (make_room_ok _ _ k (pool_ok_usage 0 sz p Hok)) as Hok1.
  pose proof (fun y => make_room_back _ _ k j y (pool_ok_usage 0 sz p Hok)) as Hback.
  unfold insert. destruct (make_room shard_for k _) as [p1 wb]. simpl in Hok1, Hback.
  pose proof (find_update_insert _ p1 j k (cached_new now t sz) Hok1) as Hf. intros Hx.
  assert (Hx' : find_key j (shard_of (update_shard k (insert_key k (cached_new now t sz)) p1) j) = Some x).
  { revert Hx. unfold flush_writebacks. by destruct (find_key k (shard_of p1 k)), (writer _). }
  rewrite Hf in Hx'. case_decide as Hj; [left; by simplify_eq|right]. split; [congruence|by apply Hback].
Qed.

Lemma insert_same_setup p now k t sz : same_setup p (insert shard_for now k t sz p).
Proof.
  unfold insert. pose proof (make_room_same_setup k (with_usage (fun u => wrap_u64 (u + sz)) p)) as Hm.
  destruct (make_room shard_for k _) as [p1 wb]. simpl in Hm.
  destruct (find_key k (shard_of p1 k));
    match goal with |- same_setup _ (flush_writebacks ?w ?q) => pose proof (flush_same_setup w q) as Hf end;
    unfold same_setup in *; simpl in *; naive_solver congruence.
Qed.


End facts.
End PoolFacts.
