(* ===== verification/IndexChunk.v ===== *)
(** * Index records and the chunked index

    [linkrs-storage/src/index/types.rs] (records and their visibility),
    [index/chunk/data.rs] (chunks) and [index/chunk/chunked_index.rs] (the
    segmented index over a buffer pool).

    The layout size of a record and the estimated size of a value are
    parameters, as are the hash and the number of shards of the pool. *)

From stdpp Require Import base list strings.
From Stdlib Require Import ZArith Lia.
From S2P Require Import Prelude Types Values WalTypes OrderedCodec OrderedFacts IndexManifest.
From S2P Require Import ByteMap BufferPool.

Module Chunked.
Import Codec Manifest.

(** ** Records *)

Record IndexRecord (Dec : Type) := mkRecord {
  created_ts : Z;
  deleted_ts : option Z;
  included_columns : option (list (list Z * Value Dec));
  entity_ref : option EntityRef;
}.
Arguments mkRecord {Dec}.
Arguments created_ts {Dec}. Arguments deleted_ts {Dec}.
Arguments included_columns {Dec}. Arguments entity_ref {Dec}.

Section records.
Context {Dec : Type}.
Implicit Types (r : IndexRecord Dec).

(** [IndexRecord::new]. *)
Definition record_new (ts : Z) : IndexRecord Dec := mkRecord ts None None None.

Definition new_with_columns (ts : Z) (cols : list (list Z * Value Dec)) : IndexRecord Dec :=
  mkRecord ts None (Some cols) None.

Definition with_entity_ref r (e : EntityRef) : IndexRecord Dec :=
  mkRecord (created_ts r) (deleted_ts r) (included_columns r) (Some e).

Definition is_visible_at r (read_ts : Z) : bool :=
  bool_decide (created_ts r <= read_ts) && is_none_or (deleted_ts r) (fun d => bool_decide (read_ts < d)).

Definition mark_deleted r (ts : Z) : IndexRecord Dec :=
  mkRecord (created_ts r) (Some ts) (included_columns r) (entity_ref r).

Definition is_deleted r : bool := negb (is_none (deleted_ts r)).

Abbreviation entry := (list Z * IndexRecord Dec)%type (only parsing).

(** ** Chunks *)

Record Chunk := mkChunk {
  ch_id : Z;
  min_key : list Z;
  max_key : list Z;
  entries : list entry;
  estimated_size : Z;
  live_count : nat;
}.

Definition CHUNK_TARGET_SIZE : Z := 65536.

(** [size_of::<IndexRecord>()] and [Value::estimated_size]. *)
Variable record_bytes : nat.
Variable value_size : Value Dec -> nat.

Definition columns_size (cols : list (list Z * Value Dec)) : Z :=
  foldr (fun nv n => Z.of_nat (length nv.1 + value_size nv.2) + n) 0 cols.

Definition estimate_entry_size (e : entry) : Z :=
  Z.of_nat (length e.1 + record_bytes) + from_option columns_size 0 (included_columns e.2).

Definition estimate_entries_size (l : list entry) : Z :=
  foldr (fun e n => estimate_entry_size e + n) 0 l.

(** [Chunk::new]. *)
Definition chunk_new (id : Z) (l : list entry) : Chunk :=
  mkChunk id (from_option fst [] (head l)) (from_option fst [] (last l)) l (estimate_entries_size l)
    (length (List.filter (fun e => negb (is_deleted e.2)) l)).

Definition below (bound : list Z) (e : entry) : bool := bytes_lt e.1 bound.

(** The end of a range: everything when the upper bound is empty. *)
Definition range_end (upper : list Z) (l : list entry) : nat :=
  match upper with [] => length l | _ => partition_point (below upper) l end.

(** [Chunk::range]. *)
Definition chunk_range (c : Chunk) (lower upper : list Z) : list entry :=
  let start := partition_point (below lower) (entries c) in
  let stop := range_end upper (entries c) in
  if decide (stop <= start)%nat then [] else take (stop - start) (drop start (entries c)).

(** [visible_range_iter]: [None] is the panic of a slice whose start is after
    its end. *)
Definition visible_range_iter (c : Chunk) (lower upper : list Z) (read_ts : Z) : option (list entry) :=
  let start := partition_point (below lower) (entries c) in
  let stop := range_end upper (entries c) in
  if decide (stop < start)%nat then None
  else Some (List.filter (fun e => is_visible_at e.2 read_ts)
               (take (stop - start) (drop start (entries c)))).

(** The inner loop of [build_chunks]: what still fits, and the rest. *)
Fixpoint fill_chunk (target current : Z) (l : list entry) : list entry * list entry :=
  match l with
  | [] => ([], [])
  | e :: r =>
      if decide (target < current + estimate_entry_size e) then ([], e :: r)
      else let '(a, b) := fill_chunk target (current + estimate_entry_size e) r in (e :: a, b)
  end.

(** The outer loop; every round takes an entry. *)
Fixpoint build_from (fuel : nat) (target id : Z) (l : list entry) : list Chunk :=
  match fuel, l with
  | S fuel, e :: r =>
      let '(a, b) := fill_chunk target (estimate_entry_size e) r in
      chunk_new id (e :: a) :: build_from fuel target (id + 1) b
  | _, _ => []
  end.

Definition build_chunks (l : list entry) (target : Z) : list Chunk :=
  build_from (length l) target 0 l.

(** ** The chunked index *)

Record ChunkedIndex := mkIndex {
  prefix : list Z;
  chunks : list (Z * list Z * list Z);
  pool : Pool.BufferPool Z Chunk;
}.

Variable num_shards : nat.
Variable shard_for : nat -> Z -> nat.

Definition chunk_desc (c : Chunk) : Z * list Z * list Z := (ch_id c, min_key c, max_key c).

Definition empty (prefix : list Z) (capacity : Z) : ChunkedIndex :=
  mkIndex prefix [] (Pool.new num_shards capacity).

Definition from_btree (now : Z) (prefix : list Z) (m : list entry) (capacity : Z) : ChunkedIndex :=
  let built := build_chunks m CHUNK_TARGET_SIZE in
  mkIndex prefix (map chunk_desc built)
    (fold_left (fun p c => Pool.insert shard_for now (ch_id c) c (estimated_size c) p) built
       (Pool.new num_shards capacity)).

Definition chunks_for_range (idx : ChunkedIndex) (lower upper : list Z) : list Z :=
  match upper with
  | [] => map (fun d => d.1.1)
            (drop (partition_point (fun d => bytes_lt d.2 lower) (chunks idx)) (chunks idx))
  | _ => map (fun d => d.1.1)
           (List.filter (fun d => bytes_le lower d.2 && bytes_lt d.1.2 upper) (chunks idx))
  end.

Definition with_pool (p : Pool.BufferPool Z Chunk) (idx : ChunkedIndex) : ChunkedIndex :=
  mkIndex (prefix idx) (chunks idx) p.

(** The chunks with the given identifiers that the pool has or loads, pinned
    for the time they are read. *)
Fixpoint read_chunks (now : Z) (ids : list Z) (p : Pool.BufferPool Z Chunk)
  : Pool.BufferPool Z Chunk * list Chunk :=
  match ids with
  | [] => (p, [])
  | id :: r =>
      match Pool.get_or_load shard_for now p id with
      | (p1, Some c) =>
          let p2 := Pool.modify_item shard_for Pool.unpin_item id
                      (Pool.modify_item shard_for (Pool.pin_item now) id p1) in
          let '(p3, cs) := read_chunks now r p2 in (p3, Pool.item c :: cs)
      | (p1, None) => read_chunks now r p1
      end
  end.

Definition range (now : Z) (idx : ChunkedIndex) (lower upper : list Z) : ChunkedIndex * list entry :=
  let '(p, cs) := read_chunks now (chunks_for_range idx lower upper) (pool idx) in
  (with_pool p idx, concat (map (fun c => chunk_range c lower upper) cs)).

(** The visible entries; chunks without a live entry are skipped, before the
    pin. *)
Fixpoint visible_chunks (now : Z) (ids : list Z) (lower upper : list Z) (read_ts : Z)
    (p : Pool.BufferPool Z Chunk) : option (Pool.BufferPool Z Chunk * list entry) :=
  match ids with
  | [] => Some (p, [])
  | id :: r =>
      match Pool.get_or_load shard_for now p id with
      | (p1, Some c) =>
          if decide (live_count (Pool.item c) = 0%nat) then visible_chunks now r lower upper read_ts p1
          else
            let p2 := Pool.modify_item shard_for Pool.unpin_item id
                        (Pool.modify_item shard_for (Pool.pin_item now) id p1) in
            match visible_range_iter (Pool.item c) lower upper read_ts with
            | None => None
            | Some l =>
                match visible_chunks now r lower upper read_ts p2 with
                | None => None
                | Some (p3, l') => Some (p3, l ++ l')
                end
            end
      | (p1, None) => visible_chunks now r lower upper read_ts p1
      end
  end.

Definition visible_range (now : Z) (idx : ChunkedIndex) (lower upper : list Z) (read_ts : Z)
  : option (ChunkedIndex * list entry) :=
  match visible_chunks now (chunks_for_range idx lower upper) lower upper read_ts (pool idx) with
  | None => None
  | Some (p, l) => Some (with_pool p idx, l)
  end.

Definition snapshot (now : Z) (idx : ChunkedIndex) : ChunkedIndex * list entry :=
  let '(p, cs) := read_chunks now (map (fun d => d.1.1) (chunks idx)) (pool idx) in
  (with_pool p idx, BMap.extend [] (concat (map entries cs))).

Definition chunk_count (idx : ChunkedIndex) : nat := length (chunks idx).

End records.
Arguments Chunk : clear implicits.
Arguments ChunkedIndex : clear implicits.

End Chunked.
