(* ===== verification/IndexChunkFacts.v ===== *)
(** * Facts about the chunked index

    A chunked index whose chunks are in the pool answers ranges and snapshots as
    the ordered map it was built from; an index that fits the pool's capacity has
    all its chunks there. *)

From stdpp Require Import base list sets strings relations.
From Stdlib Require Import ZArith Lia Sorting.Sorted.
From S2P Require Import Prelude Types Values WalTypes OrderedCodec OrderedFacts IndexManifest.
From S2P Require Import IndexManifestFacts ByteMap BufferPool BufferPoolFacts IndexChunk.

Module ChunkFacts.
Import Codec CodecFacts Manifest ManifestFacts PoolFacts Chunked.

Section facts.
Context {Dec : Type} (record_bytes : nat) (value_size : Value Dec -> nat).
Abbreviation entry := (list Z * IndexRecord Dec)%type (only parsing).
Implicit Types (l m : list entry).

Abbreviation estimate_entry_size := (estimate_entry_size record_bytes value_size).
Abbreviation chunk_new := (chunk_new record_bytes value_size).
Abbreviation fill_chunk := (fill_chunk record_bytes value_size).
Abbreviation build_from := (build_from record_bytes value_size).
Abbreviation build_chunks := (build_chunks record_bytes value_size).

(** ** Ranges of a sorted slice *)

(** The half-open range, unbounded above when [upper] is empty. *)
Definition within (lower upper : list Z) (e : entry) : bool :=
  bytes_le lower e.1 && (bool_decide (upper = []) || bytes_lt e.1 upper).

Definition downward (p : entry -> bool) l : Prop := forall x y,
  x ∈ l -> y ∈ l -> bytes_cmp x.1 y.1 = Lt -> p y = true -> p x = true.

Lemma downward_tail p x l : downward p (x :: l) -> downward p l.
Proof. intros H y z Hy Hz. apply H; by right. Qed.

Lemma filter_none {A} (p : A -> bool) (l : list A) : (forall x, x ∈ l -> p x = false) -> List.filter p l = [].
Proof.
  induction l as [|x l IH]; intros H; simpl; [done|]. rewrite (H x) by set_solver.
  apply IH. set_solver.
Qed.

Lemma filter_ext_elem {A} (p q : A -> bool) (l : list A) :
  (forall x, x ∈ l -> p x = q x) -> List.filter p l = List.filter q l.
Proof. intros H. apply filter_ext_in. intros x Hx. apply H. by apply list_elem_of_In. Qed.

(** Between two partition points of a sorted slice lie the entries that satisfy
    the second predicate and not the first. *)
Lemma slice_filter (p q : entry -> bool) l :
  BMap.sorted l -> downward p l -> downward q l ->
  take (partition_point q l - partition_point p l) (drop (partition_point p l) l) =
  List.filter (fun e => negb (p e) && q e) l.
Proof.
  induction l as [|[k v] l IH]; intros Hs Hp Hq; [done|].
  apply BMap.sorted_cons in Hs as [Hs Hl]. rewrite List.Forall_forall in Hl.
  pose proof (downward_tail _ _ _ Hp) as Hp'. pose proof (downward_tail _ _ _ Hq) as Hq'.
  assert (Hup : forall f : entry -> bool, downward f ((k, v) :: l) -> f (k, v) = false ->
    forall x, x ∈ l -> f x = false).
  { intros f Hf Hk x Hx. destruct (f x) eqn:E; [|done]. rewrite <- Hk. symmetry.
    apply (Hf (k, v) x); [by left|by right| |done]. apply (Hl x). by apply list_elem_of_In. }
  specialize (IH Hs Hp' Hq'). cbn [partition_point List.filter].
  destruct (p (k, v)) eqn:Ep, (q (k, v)) eqn:Eq; cbn [negb andb].
  - apply IH.
  - rewrite Nat.sub_0_l. simpl. symmetry. apply filter_none. intros x Hx.
    by rewrite (Hup q Hq Eq x Hx), andb_false_r.
  - assert (H0 : partition_point p l = 0%nat).
    { destruct l as [|y l']; [done|]. simpl. by rewrite (Hup p Hp Ep y) by (by left). }
    rewrite H0, Nat.sub_0_r, drop_0 in IH. rewrite Nat.sub_0_r, drop_0. cbn [take]. by rewrite IH.
  - simpl. symmetry. apply filter_none. intros x Hx. by rewrite (Hup q Hq Eq x Hx), andb_false_r.
Qed.

Lemma downward_below b l : downward (below b) l.
Proof.
  intros x y _ _ Hxy. unfold below. rewrite !bytes_lt_iff. intros Hy.
  by apply (BMap.cmp_lt_trans x.1 y.1).
Qed.

Lemma within_below lower upper e :
  within lower upper e = negb (below lower e) && match upper with [] => true | _ => below upper e end.
Proof.
  unfold within, below. f_equal.
  - destruct (bytes_le lower e.1) eqn:E; destruct (bytes_lt e.1 lower) eqn:E2; try done.
    + apply bytes_lt_irrefl in E2. congruence.
    + apply not_le_lt in E. congruence.
  - by destruct upper.
Qed.

Lemma range_end_point upper l :
  range_end upper l = partition_point (match upper with [] => fun _ => true | _ => below upper end) l.
Proof. destruct upper; [|done]. simpl. by induction l as [|x l IH]; simpl; [|rewrite <- IH]. Qed.

Lemma slice_within lower upper l :
  BMap.sorted l ->
  take (range_end upper l - partition_point (below lower) l) (drop (partition_point (below lower) l) l) =
  List.filter (within lower upper) l.
Proof.
  intros Hs. rewrite range_end_point. rewrite slice_filter; [|done|apply downward_below|].
  - apply filter_ext_elem. intros e _. rewrite within_below. by destruct upper.
  - destruct upper; [by intros x y|apply downward_below].
Qed.

Lemma chunk_range_spec (c : Chunk Dec) lower upper :
  BMap.sorted (entries c) -> chunk_range c lower upper = List.filter (within lower upper) (entries c).
Proof.
  intros Hs. unfold chunk_range. rewrite <- (slice_within lower upper) by done.
  case_decide as Hd; [|done]. replace (range_end upper (entries c) - _)%nat with 0%nat by lia. done.
Qed.

(** ** Building chunks *)

Lemma fill_chunk_app target cur l : (fill_chunk target cur l).1 ++ (fill_chunk target cur l).2 = l.
Proof.
  revert cur; induction l as [|e l IH]; intros cur; simpl; [done|]. case_decide; [done|].
  specialize (IH (cur + estimate_entry_size e)).
  destruct (fill_chunk target (cur + estimate_entry_size e) l) as [a b]. simpl in *. by rewrite IH.
Qed.

Lemma estimate_nonneg e : 0 <= estimate_entry_size e.
Proof.
  unfold Chunked.estimate_entry_size. destruct (included_columns e.2) as [cols|]; simpl; [|lia].
  assert (0 <= columns_size value_size cols); [|lia].
  unfold columns_size. induction cols; simpl; lia.
Qed.

(** A chunk is within the target, or holds one entry. *)
Lemma fill_chunk_size target cur l :
  cur <= target \/ (fill_chunk target cur l).1 = [] ->
  cur + estimate_entries_size record_bytes value_size (fill_chunk target cur l).1 <= Z.max target cur.
Proof.
  revert cur; induction l as [|e l IH]; intros cur Hc; simpl; [lia|]. case_decide as Hd; simpl; [lia|].
  specialize (IH (cur + estimate_entry_size e)).
  destruct (fill_chunk target (cur + estimate_entry_size e) l) as [a b]. simpl in *.
  pose proof (estimate_nonneg e). assert (cur + estimate_entry_size e <= target) by lia.
  specialize (IH (or_introl H0)). lia.
Qed.

Lemma fill_chunk_over target cur l : target < cur -> (fill_chunk target cur l).1 = [].
Proof.
  destruct l as [|e l]; simpl; [done|]. intros. pose proof (estimate_nonneg e).
  by rewrite decide_True by lia.
Qed.

Definition well_built (c : Chunk Dec) : Prop := entries c <> [] /\ c = chunk_new (ch_id c) (entries c).

Lemma build_from_spec fuel target id l :
  (length l <= fuel)%nat ->
  concat (map entries (build_from fuel target id l)) = l /\
  Forall well_built (build_from fuel target id l) /\
  Forall (fun c => id <= ch_id c) (build_from fuel target id l) /\
  NoDup (map ch_id (build_from fuel target id l)).
Proof.
  revert id l; induction fuel as [|fuel IH]; intros id [|e l] Hf; simpl in *; try lia.
  - split_and!; [done|constructor..].
  - split_and!; [done|constructor..].
  - pose proof (fill_chunk_app target (estimate_entry_size e) l) as Ha.
    destruct (fill_chunk target (estimate_entry_size e) l) as [a b]. simpl in *.
    assert (Hb : (length b <= fuel)%nat).
    { rewrite <- Ha, length_app in Hf. lia. }
    destruct (IH (id + 1) b Hb) as (E & Hw & Hid & Hn). split_and!.
    + by rewrite E, Ha.
    + constructor; [by split|done].
    + constructor; [simpl; lia|]. eapply Forall_impl; [exact Hid|]. intros c Hc. simpl in *. lia.
    + constructor; [|done]. intros (c & Hc & Hin)%(list_elem_of_fmap_1 ch_id).
      rewrite List.Forall_forall in Hid. apply list_elem_of_In, Hid in Hin. simpl in *. lia.
Qed.

(** ** Chunks in the pool *)

Context (num_shards : nat) (shard_for : nat -> Z -> nat).
Context (num_shards_pos : (0 < num_shards)%nat).
Context (shard_for_lt : forall n k, (0 < n)%nat -> (shard_for n k < n)%nat).
Implicit Types (p : Pool.BufferPool Z (Chunk Dec)) (cs : list (Chunk Dec)) (idx : ChunkedIndex Dec).

Abbreviation shard_of := (Pool.shard_of shard_for).

Record resident p cs : Prop := {
  re_ok : pool_ok shard_for 0 p;
  re_ttl : Pool.ttl_nanos p = 0;
  re_tti : Pool.tti_nanos p = 0;
  re_has : forall c, c ∈ cs -> exists x,
    Pool.find_key (ch_id c) (shard_of p (ch_id c)) = Some x /\ Pool.item x = c;
}.

Lemma modify_resident f k p cs :
  resident p cs -> (forall x, Pool.item (f x) = Pool.item x) ->
  (forall x : Pool.CachedItem (Chunk Dec), Pool.size (f x) = Pool.size x) ->
  resident (Pool.modify_item shard_for f k p) cs.
Proof.
  intros [Hok H1 H2 Hh] Hi Hsz. split.
  - by apply modify_item_ok.
  - unfold Pool.modify_item. by destruct (Pool.find_key _ _).
  - unfold Pool.modify_item. by destruct (Pool.find_key _ _).
  - intros c Hc. destruct (Hh c Hc) as (x & Hx & Hix). unfold Pool.modify_item.
    destruct (Pool.find_key k (shard_of p k)) as [y|] eqn:Ey; [|by exists x].
    rewrite (find_update_insert shard_for shard_for_lt 0 p) by done. case_decide as Hk; [|by exists x].
    exists (f y). split; [done|]. rewrite Hi. subst k. rewrite Hx in Ey. by injection Ey as <-.
Qed.

Lemma get_resident now p cs c :
  resident p cs -> c ∈ cs ->
  exists x, Pool.get_or_load shard_for now p (ch_id c) = (p, Some x) /\ Pool.item x = c.
Proof.
  intros [Hok H1 H2 Hh] Hc. destruct (Hh c Hc) as (x & Hx & Hi). exists x. split; [|done].
  unfold Pool.get_or_load, Pool.get. rewrite Hx. unfold Pool.is_expired. rewrite H1, H2.
  rewrite !bool_decide_true by done. by rewrite decide_False by auto.
Qed.

Lemma read_chunks_spec now p cs cs' :
  resident p cs -> cs' ⊆ cs ->
  exists p', read_chunks shard_for now (map ch_id cs') p = (p', cs') /\ resident p' cs.
Proof.
  revert p; induction cs' as [|c cs' IH]; intros p Hr Hsub; simpl; [by exists p|].
  destruct (get_resident now p cs c Hr) as (x & Hg & Hi); [set_solver|]. rewrite Hg.
  set (p2 := Pool.modify_item _ _ _ _).
  assert (Hr2 : resident p2 cs) by (apply modify_resident; [by apply modify_resident|done..]).
  destruct (IH p2 Hr2) as (p' & E & Hr'); [set_solver|]. rewrite E. exists p'. by rewrite Hi.
Qed.

(** ** The index and the map it stands for *)

Definition represents idx m : Prop := exists cs,
  chunks idx = map chunk_desc cs /\ concat (map entries cs) = m /\
  Forall well_built cs /\ resident (pool idx) cs.

Lemma sorted_chunk cs c : BMap.sorted (concat (map entries cs)) -> c ∈ cs -> BMap.sorted (entries c).
Proof.
  induction cs as [|x cs IH]; simpl; [set_solver|]. rewrite BMap.sorted_app_iff.
  intros (H1 & H2 & _) [->|Hc]%elem_of_cons; [done|by apply IH].
Qed.

(** The entries of a chunk lie between its smallest and its largest key. *)
Lemma well_built_bounds c e :
  well_built c -> BMap.sorted (entries c) -> e ∈ entries c ->
  bytes_cmp (min_key c) e.1 <> Gt /\ bytes_cmp e.1 (max_key c) <> Gt.
Proof.
  intros [Hne Hc] Hs He. rewrite Hc. simpl. split.
  - destruct (entries c) as [|[k v] l]; [done|]. simpl. apply BMap.sorted_cons in Hs as [_ Hl].
    apply elem_of_cons in He as [->|He]; [by rewrite bytes_cmp_refl|].
    rewrite List.Forall_forall in Hl. apply list_elem_of_In, Hl in He. by rewrite He.
  - destruct (last (entries c)) as [x|] eqn:El; [|by apply last_None in El].
    apply last_Some in El as (l' & El). rewrite El in Hs, He. simpl.
    apply BMap.sorted_app_iff in Hs as (_ & _ & Hlt). apply elem_of_app in He as [He|He].
    + rewrite (Hlt e x); [done|done|by left].
    + apply list_elem_of_singleton in He as ->. by rewrite bytes_cmp_refl.
Qed.

Definition overlaps (lower upper : list Z) (c : Chunk Dec) : bool :=
  bytes_le lower (max_key c) && bytes_lt (min_key c) upper.

(** A chunk that does not overlap a range holds none of its entries. *)
Lemma overlaps_none lower upper c :
  well_built c -> BMap.sorted (entries c) -> upper <> [] ->
  overlaps lower upper c = false -> List.filter (within lower upper) (entries c) = [].
Proof.
  intros Hw Hs Hu Ho. apply filter_none. intros e He.
  destruct (well_built_bounds c e Hw Hs He) as [H1 H2]. unfold within.
  rewrite (bool_decide_false (upper = [])) by done. simpl.
  destruct (bytes_le lower e.1) eqn:E1; [|done]. destruct (bytes_lt e.1 upper) eqn:E2; [|done].
  exfalso. apply bytes_le_iff in E1. apply bytes_lt_iff in E2. unfold overlaps in Ho.
  assert (bytes_le lower (max_key c) = true) as Ha by (apply bytes_le_iff; by apply (bytes_le_trans _ e.1)).
  assert (bytes_lt (min_key c) upper = true) as Hb by (apply bytes_lt_iff; by apply (bytes_le_lt_trans _ e.1)).
  by rewrite Ha, Hb in Ho.
Qed.

Lemma before_none lower upper c :
  well_built c -> BMap.sorted (entries c) ->
  bytes_lt (max_key c) lower = true -> List.filter (within lower upper) (entries c) = [].
Proof.
  intros Hw Hs Ho. apply filter_none. intros e He. destruct (well_built_bounds c e Hw Hs He) as [_ H2].
  unfold within. destruct (bytes_le lower e.1) eqn:E1; [|done]. exfalso.
  apply bytes_le_iff in E1. apply bytes_lt_iff in Ho.
  pose proof (bytes_le_trans _ _ _ E1 H2) as H. apply BMap.cmp_gt in Ho. by apply H.
Qed.

Definition selected_chunks (lower upper : list Z) cs : list (Chunk Dec) :=
  match upper with
  | [] => drop (partition_point (fun c => bytes_lt (max_key c) lower) cs) cs
  | _ => List.filter (overlaps lower upper) cs
  end.

Lemma chunks_for_range_ids idx cs lower upper :
  chunks idx = map chunk_desc cs ->
  chunks_for_range idx lower upper = map ch_id (selected_chunks lower upper cs).
Proof.
  intros E. unfold chunks_for_range, selected_chunks. rewrite E. destruct upper as [|b u].
  - clear E. induction cs as [|c cs IH]; simpl; [done|]. destruct (bytes_lt (max_key c) lower); [done|].
    simpl. f_equal. clear IH. induction cs as [|d cs IH]; simpl; [done|]. by f_equal.
  - clear E. induction cs as [|c cs IH]; simpl; [done|]. unfold overlaps at 1.
    destruct (bytes_le lower (max_key c) && bytes_lt (min_key c) (b :: u)); simpl; by rewrite IH.
Qed.

Lemma selected_entries lower upper cs :
  Forall well_built cs -> BMap.sorted (concat (map entries cs)) ->
  concat (map (fun c => chunk_range c lower upper) (selected_chunks lower upper cs)) =
  List.filter (within lower upper) (concat (map entries cs)).
Proof.
  intros Hw Hs. assert (Hall : forall c, c ∈ cs -> well_built c /\ BMap.sorted (entries c)).
  { intros c Hc. split; [|by eapply sorted_chunk]. rewrite List.Forall_forall in Hw. by apply Hw, list_elem_of_In. }
  clear Hw Hs. unfold selected_chunks. destruct upper as [|b u].
  - set (f := fun c : Chunk Dec => bytes_lt (max_key c) lower).
    assert (Hmap : forall cs', cs' ⊆ cs -> concat (map (fun c => chunk_range c lower []) cs') =
      List.filter (within lower []) (concat (map entries cs'))).
    { induction cs' as [|c cs' IH]; intros Hsub; simpl; [done|]. rewrite List.filter_app, IH by set_solver.
      f_equal. apply chunk_range_spec. apply Hall. set_solver. }
    rewrite Hmap by (intros x Hx; rewrite <- (take_drop (partition_point f cs) cs), elem_of_app; by right).
    clear Hmap. induction cs as [|c cs IH]; simpl; [done|]. destruct (f c) eqn:Ef; simpl; [|done].
    rewrite List.filter_app, (before_none lower [] c) by (try done; apply Hall; set_solver).
    apply IH. intros d Hd. apply Hall. set_solver.
  - induction cs as [|c cs IH]; simpl; [done|]. destruct (Hall c) as [Hw Hs]; [set_solver|].
    rewrite List.filter_app, <- IH by (intros d Hd; apply Hall; set_solver).
    destruct (overlaps lower (b :: u) c) eqn:Eo; simpl.
    + by rewrite chunk_range_spec.
    + by rewrite overlaps_none.
Qed.


Abbreviation range := (range shard_for).
Abbreviation snapshot := (snapshot shard_for).

Lemma selected_subset lower upper cs : selected_chunks lower upper cs ⊆ cs.
Proof.
  unfold selected_chunks. destruct upper as [|b u]; intros c Hc.
  - rewrite <- (take_drop (partition_point (fun c => bytes_lt (max_key c) lower) cs) cs), elem_of_app.
    by right.
  - apply list_elem_of_In, filter_In in Hc as [Hc _]. by apply list_elem_of_In.
Qed.

(** A sorted list is the map it fills. *)
Lemma extend_sorted (m : list entry) : BMap.sorted m -> BMap.extend [] m = m.
Proof.
  intros Hs. apply BMap.get_ext; [by apply BMap.sorted_extend, BMap.sorted_nil|done|].
  intros k. rewrite BMap.get_extend by (done || apply BMap.sorted_nil). by destruct (BMap.get k m).
Qed.

Lemma range_represents now idx m lower upper :
  represents idx m -> BMap.sorted m ->
  (range now idx lower upper).2 = List.filter (within lower upper) m /\
  represents (range now idx lower upper).1 m.
Proof.
  intros (cs & Ec & Em & Hw & Hr) Hs. unfold Chunked.range.
  rewrite (chunks_for_range_ids idx cs) by done.
  pose proof (selected_subset lower upper cs) as Hsub.
  destruct (read_chunks_spec now (pool idx) cs _ Hr Hsub) as (p' & E & Hr'). rewrite E. simpl.
  rewrite <- Em in *. split; [by apply selected_entries|]. by exists cs.
Qed.

Lemma snapshot_represents now idx m :
  represents idx m -> BMap.sorted m ->
  (snapshot now idx).2 = m /\ represents (snapshot now idx).1 m.
Proof.
  intros (cs & Ec & Em & Hw & Hr) Hs. unfold Chunked.snapshot. rewrite Ec, map_map.
  change (map (fun x => (chunk_desc x).1.1) cs) with (map ch_id cs).
  destruct (read_chunks_spec now (pool idx) cs cs Hr ltac:(done)) as (p' & E & Hr'). rewrite E. simpl.
  rewrite Em. split; [by apply extend_sorted|by exists cs].
Qed.

Lemma entries_size_nonneg l : 0 <= estimate_entries_size record_bytes value_size l.
Proof. induction l as [|e l IH]; simpl; [lia|]. pose proof (estimate_nonneg e). lia. Qed.

(** An insertion that fits evicts nothing. *)
Lemma insert_fits now p cs c :
  resident p cs -> ch_id c ∉ map ch_id cs -> 0 <= estimated_size c -> 0 <= Pool.total (Pool.shards p) ->
  Pool.total (Pool.shards p) + estimated_size c <= Pool.capacity p -> Pool.capacity p <= U64_MAX ->
  let p' := Pool.insert shard_for now (ch_id c) c (estimated_size c) p in
  resident p' (cs ++ [c]) /\ Pool.capacity p' = Pool.capacity p /\
  (forall j, is_Some (Pool.find_key j (shard_of p' j)) ->
     j = ch_id c \/ is_Some (Pool.find_key j (shard_of p j))) /\
  Pool.total (Pool.shards p') = Pool.total (Pool.shards p) + estimated_size c -
    from_option Pool.size 0 (Pool.find_key (ch_id c) (shard_of p (ch_id c))).
Proof.
  intros [Hok H1 H2 Hh] Hid Hsz Ht Hfit Hcap. cbn zeta.
  pose proof (insert_ok shard_for shard_for_lt p now (ch_id c) c (estimated_size c) Hok) as Hok'.
  revert Hok'. unfold Pool.insert. set (p0 := Pool.with_usage _ p).
  assert (Hu : Pool.usage p0 = Pool.total (Pool.shards p) + estimated_size c).
  { simpl. rewrite (po_usage _ _ _ Hok), Z.add_0_r, wrap_u64_add_l, wrap_u64_small; [done|].
    unfold is_u64. lia. }
  assert (Hm : Pool.make_room shard_for (ch_id c) p0 = (p0, [])).
  { unfold Pool.make_room. rewrite decide_False; [done|]. rewrite Hu. simpl. lia. }
  rewrite Hm. set (k := ch_id c). set (x := Pool.cached_new now c (estimated_size c)).
  assert (Hok0 : pool_ok shard_for (estimated_size c) p0).
  { apply (pool_ok_usage shard_for 0 (estimated_size c) p Hok). }
  assert (Hfind : forall j, Pool.find_key j (shard_of (Pool.update_shard shard_for k (Pool.insert_key k x) p0) j) =
    if decide (k = j) then Some x else Pool.find_key j (shard_of p j)).
  { intros j. by apply (find_update_insert shard_for shard_for_lt (estimated_size c) p0). }
  assert (Hhas : forall d, d ∈ cs ++ [c] -> exists y,
    Pool.find_key (ch_id d) (shard_of (Pool.update_shard shard_for k (Pool.insert_key k x) p0) (ch_id d)) = Some y /\
    Pool.item y = d).
  { intros d [Hd|Hd]%elem_of_app; rewrite Hfind.
    - rewrite decide_False; [by apply Hh|]. intros E. apply Hid. fold k. rewrite E.
      by apply (list_elem_of_fmap_2 ch_id).
    - apply list_elem_of_singleton in Hd as ->. rewrite decide_True by done. by exists x. }
  assert (Honly : forall j,
    is_Some (Pool.find_key j (shard_of (Pool.update_shard shard_for k (Pool.insert_key k x) p0) j)) ->
    j = k \/ is_Some (Pool.find_key j (shard_of p j))).
  { intros j. rewrite Hfind. case_decide; [by left|by right]. }
  pose proof (shard_of_lookup shard_for shard_for_lt _ _ k Hok) as Hl.
  pose proof (total_alter (Pool.insert_key k x) _ _ _ Hl) as Hta.
  rewrite bytes_insert in Hta. change (Pool.size x) with (estimated_size c) in Hta.
  change (shard_of p0 k) with (shard_of p k).
  destruct (Pool.find_key k (shard_of p k)) as [y|]; [destruct (Pool.dirty y)|]; intros Hok';
    unfold Pool.flush_writebacks in *;
    cbn [Pool.writer Pool.with_usage Pool.update_shard Pool.with_shards p0] in *; destruct (Pool.writer p);
    (split; [split; done|split; [done|split; [exact Honly|]]]);
    match goal with |- Pool.total (Pool.shards ?q) = _ => change (Pool.shards q) with
      (alter (Pool.insert_key k x) (Pool.owner shard_for p k) (Pool.shards p)) end;
    rewrite Hta; cbn [from_option]; lia.
Qed.


Definition chunks_size cs : Z := foldr (fun c n => estimated_size c + n) 0 cs.

Lemma insert_all_fits now cs p cs0 :
  resident p cs0 -> NoDup (map ch_id (cs0 ++ cs)) -> Forall (fun c => 0 <= estimated_size c) cs ->
  (forall j, is_Some (Pool.find_key j (shard_of p j)) -> j ∈ map ch_id cs0) ->
  0 <= Pool.total (Pool.shards p) ->
  Pool.total (Pool.shards p) + chunks_size cs <= Pool.capacity p -> Pool.capacity p <= U64_MAX ->
  resident (fold_left (fun p c => Pool.insert shard_for now (ch_id c) c (estimated_size c) p) cs p)
    (cs0 ++ cs).
Proof.
  revert p cs0; induction cs as [|c cs IH]; intros p cs0 Hr Hn Hsz Honly Ht Hfit Hcap.
  { by rewrite app_nil_r. }
  apply Forall_cons in Hsz as [Hc Hsz]. simpl in Hfit.
  assert (Hcs : 0 <= chunks_size cs).
  { clear -Hsz. induction Hsz; simpl; lia. }
  rewrite map_app in Hn. apply NoDup_app in Hn as (Hn0 & Hd & Hn1). simpl in Hd, Hn1.
  apply NoDup_cons in Hn1 as [Hnc Hn1].
  assert (Hid : ch_id c ∉ map ch_id cs0) by (intros H; apply (Hd _ H); by left).
  assert (Hnone : Pool.find_key (ch_id c) (shard_of p (ch_id c)) = None).
  { destruct (Pool.find_key _ _) eqn:E; [|done]. destruct Hid. apply Honly. by rewrite E. }
  destruct (insert_fits now p cs0 c Hr Hid Hc Ht ltac:(lia) Hcap) as (Hr' & Hcap' & Honly' & Ht').
  rewrite Hnone in Ht'. simpl in Ht'. simpl.
  replace (cs0 ++ c :: cs) with ((cs0 ++ [c]) ++ cs) by (by rewrite <- app_assoc).
  apply IH; [done| |done| |lia|rewrite Hcap'; lia|by rewrite Hcap'].
  - rewrite !map_app, <- app_assoc. simpl. apply NoDup_app. split_and!; [done|done|by constructor].
  - intros j Hj. rewrite map_app, elem_of_app. destruct (Honly' j Hj) as [->|Hj'].
    + right. by left.
    + left. by apply Honly.
Qed.

Lemma chunks_size_concat cs :
  Forall well_built cs -> chunks_size cs = estimate_entries_size record_bytes value_size (concat (map entries cs)).
Proof.
  induction 1 as [|c cs [_ Hc] _ IH]; simpl; [done|]. rewrite IH, Hc. simpl. clear.
  induction (entries c) as [|e l IH]; simpl; lia.
Qed.

Abbreviation from_btree := (from_btree record_bytes value_size num_shards shard_for).

Lemma from_btree_resident now prefix m capacity :
  estimate_entries_size record_bytes value_size m <= capacity <= U64_MAX ->
  let cs := build_from (length m) CHUNK_TARGET_SIZE 0 m in
  chunks (from_btree now prefix m capacity) = map chunk_desc cs /\
  resident (pool (from_btree now prefix m capacity)) cs.
Proof.
  intros Hfit. unfold Chunked.from_btree, Chunked.build_chunks.
  destruct (build_from_spec (length m) CHUNK_TARGET_SIZE 0 m ltac:(lia)) as (Ec & Hw & _ & Hn).
  cbn zeta. set (cs := build_from _ _ _ _) in *. split; [done|]. simpl.
  apply (insert_all_fits now cs (Pool.new num_shards capacity) []); simpl.
  - split; [by apply pool_ok_new|done|done|set_solver].
  - done.
  - eapply Forall_impl; [exact Hw|]. intros c [_ ->]. simpl. apply entries_size_nonneg.
  - intros j [x Hx]. exfalso. unfold Pool.shard_of, Pool.owner in Hx. simpl in Hx.
    destruct (replicate num_shards [] !! _) as [sh|] eqn:E; [|done].
    apply lookup_replicate in E as [-> _]. done.
  - clear. induction num_shards; simpl in *; lia.
  - replace (Pool.total (replicate num_shards [])) with 0.
    + rewrite chunks_size_concat by done. rewrite Ec. lia.
    + clear. induction num_shards; simpl in *; lia.
  - lia.
Qed.

Lemma from_btree_represents now prefix m capacity :
  estimate_entries_size record_bytes value_size m <= capacity <= U64_MAX ->
  represents (from_btree now prefix m capacity) m.
Proof.
  intros Hfit. destruct (from_btree_resident now prefix m capacity Hfit) as [Ec Hr].
  destruct (build_from_spec (length m) CHUNK_TARGET_SIZE 0 m ltac:(lia)) as (Em & Hw & _ & _).
  by eexists.
Qed.

(** [C29] The chunked index is the ordered map it was built from: if the entries
    fit the pool's capacity, then after any number of reads a range yields the
    map's entries between its bounds (all from the lower bound on when the upper
    one is empty), in order, and a snapshot yields the map. *)
Theorem chunked_index_equiv now prefix m capacity :
  BMap.sorted m -> estimate_entries_size record_bytes value_size m <= capacity <= U64_MAX ->
  forall reads now' lower upper,
  let idx := fold_left (fun idx q => (range q.1.1 idx q.1.2 q.2).1) reads (from_btree now prefix m capacity) in
  (range now' idx lower upper).2 = List.filter (within lower upper) m /\
  (snapshot now' idx).2 = m.
Proof.
  intros Hs Hfit reads now' lower upper. cbn zeta.
  pose proof (from_btree_represents now prefix m capacity Hfit) as Hrep. revert Hrep.
  generalize (from_btree now prefix m capacity) as idx.
  induction reads as [|q reads IH]; intros idx Hrep; simpl.
  - split; [by apply range_represents|by apply snapshot_represents].
  - apply IH. by apply range_represents.
Qed.

(** Chunks are bounded: building chunks loses nothing and keeps the order,
    and a chunk that is larger than the target holds a single entry. *)
Theorem build_chunks_bounded m target :
  concat (map entries (build_chunks m target)) = m /\
  forall c, c ∈ build_chunks m target ->
    entries c <> [] /\ (estimated_size c <= target \/ length (entries c) = 1%nat).
Proof.
  unfold Chunked.build_chunks.
  split; [apply (build_from_spec (length m) target 0 m); lia|].
  generalize (length m) as fuel, 0 as id. intros fuel. revert m.
  induction fuel as [|fuel IH]; intros [|e l] id c Hc; simpl in Hc; try set_solver.
  pose proof (fill_chunk_size target (estimate_entry_size e) l) as Hsz.
  pose proof (fill_chunk_over target (estimate_entry_size e) l) as Hov.
  destruct (fill_chunk target (estimate_entry_size e) l) as [a b]. simpl in *.
  apply elem_of_cons in Hc as [->|Hc]; [|by eapply IH]. simpl. split; [done|].
  destruct a as [|x a]; [by right|left].
  destruct (decide (estimate_entry_size e <= target)) as [Hle|Hgt].
  - specialize (Hsz (or_introl Hle)). lia.
  - by specialize (Hov ltac:(lia)).
Qed.


End facts.
End ChunkFacts.
