(* ===== verification/IndexShardRuntime.v ===== *)
(** * Shards of a native index

    [linkrs-storage/src/index/shard_runtime/shard.rs] and
    [shard_runtime/bloom.rs]: the base index and the delta of a shard, forward and
    reverse, the log of its writes, its checkpoint and its recovery.

    The base is any [MapStore]; the chunked index is one.  The two hash functions
    and the layout size of a record are parameters.  The checkpoint directory is
    the pair of maps it holds and the log file the list of its entries
    ([chunk/serialize.rs] and [index/wal.rs] write and read them). *)

From stdpp Require Import base gmap sets list strings.
From Stdlib Require Import ZArith Lia SpecFloat.
From S2P Require Import Prelude Types Values WalTypes OrderedCodec OrderedFacts IndexManifest.
From S2P Require Import ByteMap IndexChunk.

(** ** The interface of a base index *)

(** What a shard asks of its base: build from an ordered map, read a range and a
    snapshot, the visible entries of a range (with the panic of a reversed
    one). *)
Class MapStore (I R : Type) := {
  store_build : Z -> list (list Z * R) -> I;
  store_range : Z -> I -> list Z -> list Z -> I * list (list Z * R);
  store_visible : Z -> I -> list Z -> list Z -> Z -> option (I * list (list Z * R));
  store_snapshot : Z -> I -> I * list (list Z * R);
}.

(** The entries of a range whose empty upper bound means no bound. *)
Definition store_within {R} (lower upper : list Z) (e : list Z * R) : bool :=
  Manifest.bytes_le lower e.1 && (bool_decide (upper = []) || Manifest.bytes_lt e.1 upper).

(** What it promises: a built index stands for its map if the map fits, and
    reads do not change what it stands for. *)
Class MapStoreLaws (I R : Type) `{MapStore I R} := {
  store_rep : I -> list (list Z * R) -> Prop;
  store_fits : list (list Z * R) -> Prop;
  store_build_rep : forall now m, BMap.sorted m -> store_fits m -> store_rep (store_build now m) m;
  store_range_rep : forall now i m lower upper, BMap.sorted m -> store_rep i m ->
    (store_range now i lower upper).2 = List.filter (store_within lower upper) m /\
    store_rep (store_range now i lower upper).1 m;
  store_snapshot_rep : forall now i m, BMap.sorted m -> store_rep i m ->
    (store_snapshot now i).2 = m /\ store_rep (store_snapshot now i).1 m;
}.

Module Shard.
Import Codec Manifest Chunked.

(** ** The range bloom filter *)

Record RangeBloom := mkBloom { bits : gset Z; queries : Z; hits : Z }.

Definition BLOOM_BITS : Z := 65536.
Definition SATURATION_QUERIES : Z := 1024.
Definition bloom_seeds : list Z := [4660; 22136; 39612].

Definition bloom_new : RangeBloom := mkBloom ∅ 0 0.

Section bloom.
(** [DefaultHasher] over a seed and a key. *)
Variable hash : Z -> list Z -> Z.

Definition hash_index (key : list Z) (seed : Z) : Z := hash seed key mod BLOOM_BITS.

Definition bloom_insert (key : list Z) (b : RangeBloom) : RangeBloom :=
  mkBloom (bits b ∪ list_to_set (map (hash_index key) bloom_seeds)) (queries b) (hits b).

Definition might_contain (key : list Z) (b : RangeBloom) : RangeBloom * bool :=
  let q := saturating_add_u64 (queries b) 1 in
  if forallb (fun s => bool_decide (hash_index key s ∈ bits b)) bloom_seeds then
    (mkBloom (bits b) q (saturating_add_u64 (hits b) 1), true)
  else (mkBloom (bits b) q (hits b), false).

Definition hit_rate (b : RangeBloom) : spec_float :=
  if decide (queries b = 0) then S754_zero false
  else f64_div (f64_of_Z (hits b)) (f64_of_Z (queries b)).

(** [0.99] as a double. *)
Definition SATURATION_RATE : spec_float := f64_div (f64_of_Z 99) (f64_of_Z 100).

Definition is_saturated (b : RangeBloom) : bool :=
  bool_decide (SATURATION_QUERIES <= queries b) && SFleb SATURATION_RATE (hit_rate b).
End bloom.

(** ** The shard *)

Inductive WalEntry (Dec : Type) :=
| WInsert (is_forward : bool) (key : list Z) (record : IndexRecord Dec)
| WMarkDeleted (is_forward : bool) (key : list Z) (deleted_ts : Z).
Arguments WInsert {Dec}. Arguments WMarkDeleted {Dec}.

Section shard.
Context {Dec I : Type} `{MapStore I (IndexRecord Dec)}.
Abbreviation entry := (list Z * IndexRecord Dec)%type (only parsing).
Implicit Types (m : list entry).

Variable hash : Z -> list Z -> Z.
Variable record_bytes : nat.

Record ShardRuntime := mkShardRt {
  base_forward : I;
  base_reverse : I;
  delta_forward : list entry;
  delta_reverse : list entry;
  sr_dirty : bool;
  forward_prefix : list Z;
  reverse_prefix : list Z;
  wal_entries : list (WalEntry Dec);
  wal_size_bytes : Z;
  forward_bloom : RangeBloom;
  reverse_bloom : RangeBloom;
}.

(** The checkpoint directory of a shard: chunk files and log. *)
Record ShardFiles := mkFiles {
  file_forward : option (list entry);
  file_reverse : option (list entry);
  file_wal : list (WalEntry Dec);
}.

Definition WAL_CHECKPOINT_THRESHOLD : Z := 1024 * 1024.

(** [empty_with_capacity]: the base of an empty map. *)
Definition empty_with_capacity (now : Z) : ShardRuntime :=
  mkShardRt (store_build now []) (store_build now []) [] [] false [] [] [] 0 bloom_new bloom_new.

(** [strip_forward_prefix] and [strip_reverse_prefix], for the prefix of the
    direction. *)
Definition strip_prefix (pre key : list Z) : list Z :=
  if bool_decide (0 < length pre)%nat && bool_decide (length pre <= length key)%nat
  then drop (length pre) key else key.

Definition strip_forward_prefix (sr : ShardRuntime) (key : list Z) : list Z :=
  strip_prefix (forward_prefix sr) key.

Definition strip_reverse_prefix (sr : ShardRuntime) (key : list Z) : list Z :=
  strip_prefix (reverse_prefix sr) key.

(** ** Reads *)

Definition strip_bounds (plen : nat) (lower upper : list Z) : list Z * list Z :=
  let ls := if bool_decide (0 < plen)%nat && bool_decide (plen <= length lower)%nat
            then drop plen lower else lower in
  let us := if bool_decide (0 < plen)%nat && bool_decide (plen < length upper)%nat then drop plen upper
            else if bool_decide (0 < plen)%nat && bool_decide (length upper = plen) then []
            else upper in
  (ls, us).

(** The prefix put back. *)
Definition full_key (pre : list Z) (e : entry) : entry := (pre ++ e.1, e.2).

(** [chunked_range_with_delta]: the base range overlaid with the delta range, as
    a map on full keys; [None] is the panic of the delta range. *)
Definition chunked_range_with_delta (now : Z) (base : I) (delta : list entry)
    (lower_suffix upper_suffix pre : list Z) : option (I * list entry) :=
  let '(base', l) := store_range now base lower_suffix upper_suffix in
  match BMap.range lower_suffix upper_suffix delta with
  | None => None
  | Some d => Some (base', BMap.extend (BMap.extend [] (map (full_key pre) l)) (map (full_key pre) d))
  end.

Definition forward_range (now : Z) (sr : ShardRuntime) (lower upper : list Z) : option (I * list entry) :=
  let pre := forward_prefix sr in
  let '(ls, us) := strip_bounds (length pre) lower upper in
  chunked_range_with_delta now (base_forward sr) (delta_forward sr) ls us pre.

Definition reverse_range (now : Z) (sr : ShardRuntime) (lower upper : list Z) : option (I * list entry) :=
  let pre := reverse_prefix sr in
  let '(ls, us) := strip_bounds (length pre) lower upper in
  chunked_range_with_delta now (base_reverse sr) (delta_reverse sr) ls us pre.

Definition reverse_range_suffix_visible (now : Z) (sr : ShardRuntime) (lower upper : list Z)
    (read_ts : Z) : option (I * list entry) :=
  let '(ls, us) := strip_bounds (length (reverse_prefix sr)) lower upper in
  match store_visible now (base_reverse sr) ls us read_ts with
  | None => None
  | Some (base', l) =>
      match BMap.range ls us (delta_reverse sr) with
      | None => None
      | Some d => Some (base', BMap.extend (BMap.extend [] l)
                                 (List.filter (fun e => is_visible_at e.2 read_ts) d))
      end
  end.

(** The pre-check on a direction: the filter with its counters, the base, and
    the answer. *)
Definition may_have_range (now : Z) (bloom : RangeBloom) (base : I) (delta : list entry) (pre : list Z)
    (lower upper : list Z) : option (RangeBloom * I * bool) :=
  let '(ls, us) := strip_bounds (length pre) lower upper in
  if is_saturated bloom then Some (bloom, base, true)
  else
    let '(bloom', present) := might_contain hash ls bloom in
    if present then Some (bloom', base, true)
    else
      let '(base', l) := store_range now base ls us in
      if negb (bool_decide (length l = 0%nat)) then Some (bloom', base', true)
      else
        match BMap.range ls us delta with
        | None => None
        | Some d => Some (bloom', base', negb (bool_decide (length d = 0%nat)))
        end.

Definition with_forward (b : RangeBloom) (i : I) (sr : ShardRuntime) : ShardRuntime :=
  mkShardRt i (base_reverse sr) (delta_forward sr) (delta_reverse sr) (sr_dirty sr) (forward_prefix sr)
    (reverse_prefix sr) (wal_entries sr) (wal_size_bytes sr) b (reverse_bloom sr).

Definition forward_may_have_range (now : Z) (sr : ShardRuntime) (lower upper : list Z)
  : option (ShardRuntime * bool) :=
  match may_have_range now (forward_bloom sr) (base_forward sr) (delta_forward sr) (forward_prefix sr)
          lower upper with
  | None => None
  | Some (b, i, r) => Some (with_forward b i sr, r)
  end.

Definition with_reverse (b : RangeBloom) (i : I) (sr : ShardRuntime) : ShardRuntime :=
  mkShardRt (base_forward sr) i (delta_forward sr) (delta_reverse sr) (sr_dirty sr) (forward_prefix sr)
    (reverse_prefix sr) (wal_entries sr) (wal_size_bytes sr) (forward_bloom sr) b.

Definition reverse_may_have_range (now : Z) (sr : ShardRuntime) (lower upper : list Z)
  : option (ShardRuntime * bool) :=
  match may_have_range now (reverse_bloom sr) (base_reverse sr) (delta_reverse sr) (reverse_prefix sr)
          lower upper with
  | None => None
  | Some (b, i, r) => Some (with_reverse b i sr, r)
  end.

(** [snapshot_forward] and [snapshot_reverse] of a direction. *)
Definition snapshot_side (now : Z) (base : I) (delta : list entry) : list entry :=
  BMap.extend (store_snapshot now base).2 delta.

(** [snapshot]: both directions, on full keys. *)
Definition sr_snapshot (now : Z) (sr : ShardRuntime) : list entry * list entry :=
  (BMap.extend [] (map (full_key (forward_prefix sr))
                     (snapshot_side now (base_forward sr) (delta_forward sr))),
   BMap.extend [] (map (full_key (reverse_prefix sr))
                     (snapshot_side now (base_reverse sr) (delta_reverse sr)))).

Definition iter_reverse (now : Z) (sr : ShardRuntime) : list entry :=
  map (full_key (reverse_prefix sr)) (snapshot_side now (base_reverse sr) (delta_reverse sr)).

(** ** Writes *)

Definition wal_entry_for (is_forward : bool) (key : list Z) (r : IndexRecord Dec) : WalEntry Dec :=
  match deleted_ts r with
  | Some d => WMarkDeleted is_forward key d
  | None => WInsert is_forward key r
  end.

Definition wal_record_size (key : list Z) : Z := Z.of_nat (length key + record_bytes).

(** One direction of [replace]: the delta and the filter. *)
Definition merge_side (pre : list Z) (l : list entry) (delta : list entry) (bloom : RangeBloom)
  : list entry * RangeBloom :=
  fold_left (fun '(d, b) e =>
      let suffix := strip_prefix pre e.1 in
      (BMap.insert suffix e.2 d, bloom_insert hash suffix b)) l (delta, bloom).

Definition replace (forward reverse : list entry) (sr : ShardRuntime) : ShardRuntime :=
  let '(fwd, fb) := merge_side (forward_prefix sr) forward (delta_forward sr) (forward_bloom sr) in
  let '(rev, rb) := merge_side (reverse_prefix sr) reverse (delta_reverse sr) (reverse_bloom sr) in
  let size := foldr (fun e n => wal_record_size e.1 + n) 0 (forward ++ reverse) in
  mkShardRt (base_forward sr) (base_reverse sr) fwd rev true (forward_prefix sr) (reverse_prefix sr)
    (wal_entries sr ++ map (fun e => wal_entry_for true e.1 e.2) forward ++
                       map (fun e => wal_entry_for false e.1 e.2) reverse)
    (wrap_u64 (wal_size_bytes sr + size)) fb rb.

Definition bloom_all (l : list entry) (b : RangeBloom) : RangeBloom :=
  fold_left (fun b e => bloom_insert hash e.1 b) l b.

Definition merge_delta_into_base (now : Z) (sr : ShardRuntime) : ShardRuntime :=
  match delta_forward sr, delta_reverse sr with
  | [], [] => sr
  | df, dr =>
      mkShardRt (store_build now (BMap.extend (store_snapshot now (base_forward sr)).2 df))
        (store_build now (BMap.extend (store_snapshot now (base_reverse sr)).2 dr)) [] [] (sr_dirty sr)
        (forward_prefix sr) (reverse_prefix sr) (wal_entries sr) (wal_size_bytes sr)
        (bloom_all df (forward_bloom sr)) (bloom_all dr (reverse_bloom sr))
  end.

(** ** Persistence *)

Definition set_wal (w : list (WalEntry Dec)) (n : Z) (d : bool) (sr : ShardRuntime) : ShardRuntime :=
  mkShardRt (base_forward sr) (base_reverse sr) (delta_forward sr) (delta_reverse sr) d
    (forward_prefix sr) (reverse_prefix sr) w n (forward_bloom sr) (reverse_bloom sr).

(** [flush_wal], when the append succeeds. *)
Definition flush_wal (sr : ShardRuntime) (f : ShardFiles) : ShardRuntime * ShardFiles :=
  (set_wal [] (wal_size_bytes sr) (sr_dirty sr) sr,
   mkFiles (file_forward f) (file_reverse f) (file_wal f ++ wal_entries sr)).

(** [full_flush]: the delta folded into the base, the base written. *)
Definition full_flush (now : Z) (sr : ShardRuntime) (f : ShardFiles) : ShardRuntime * ShardFiles :=
  let sr := merge_delta_into_base now sr in
  (set_wal (wal_entries sr) (wal_size_bytes sr) false sr,
   mkFiles (Some (store_snapshot now (base_forward sr)).2)
     (Some (store_snapshot now (base_reverse sr)).2) (file_wal f)).

Definition checkpoint (now : Z) (sr : ShardRuntime) (f : ShardFiles) : ShardRuntime * ShardFiles :=
  let '(sr, f) := full_flush now sr f in
  (set_wal [] 0 (sr_dirty sr) sr, mkFiles (file_forward f) (file_reverse f) []).

Definition flush (now : Z) (sr : ShardRuntime) (f : ShardFiles) : ShardRuntime * ShardFiles :=
  if sr_dirty sr then
    if decide (wal_size_bytes sr < WAL_CHECKPOINT_THRESHOLD) then
      let '(sr, f) := flush_wal sr f in (set_wal (wal_entries sr) (wal_size_bytes sr) false sr, f)
    else checkpoint now sr f
  else (sr, f).

(** One log entry replayed on the two maps. *)
Definition replay_entry (fpre rpre : list Z) (maps : list entry * list entry) (e : WalEntry Dec)
  : list entry * list entry :=
  let '(fwd, rev) := maps in
  match e with
  | WInsert true key r => (BMap.insert (strip_prefix fpre key) r fwd, rev)
  | WInsert false key r => (fwd, BMap.insert (strip_prefix rpre key) r rev)
  | WMarkDeleted is_forward key ts =>
      let mark k m :=
        match BMap.get k m with
        | Some r => BMap.insert k (mark_deleted r ts) m
        | None => BMap.insert k (mark_deleted (record_new 0) ts) m
        end in
      if is_forward then (mark (strip_prefix fpre key) fwd, rev)
      else (fwd, mark (strip_prefix rpre key) rev)
  end.

Definition replay_wal (now : Z) (entries : list (WalEntry Dec)) (sr : ShardRuntime) : ShardRuntime :=
  match entries with
  | [] => sr
  | _ =>
      let '(fwd, rev) := fold_left (replay_entry (forward_prefix sr) (reverse_prefix sr)) entries
          ((store_snapshot now (base_forward sr)).2, (store_snapshot now (base_reverse sr)).2) in
      mkShardRt (store_build now fwd) (store_build now rev) (delta_forward sr) (delta_reverse sr)
        (sr_dirty sr) (forward_prefix sr) (reverse_prefix sr) (wal_entries sr) (wal_size_bytes sr)
        (forward_bloom sr) (reverse_bloom sr)
  end.

(** [load_with_pool_capacity]: the checkpoint, without prefixes, and the log. *)
Definition load_shard (now : Z) (f : ShardFiles) : ShardRuntime :=
  replay_wal now (file_wal f)
    (mkShardRt (store_build now (default [] (file_forward f)))
       (store_build now (default [] (file_reverse f))) [] [] false [] [] [] 0 bloom_new bloom_new).

End shard.
Arguments ShardRuntime : clear implicits.
Arguments ShardFiles : clear implicits.

End Shard.
