(* ===== verification/IndexShardFacts.v ===== *)
(** * Facts about index shards

    Proved against the interface of the base index: a range of a shard is the
    range of the map it stands for, the pre-check never hides an entry, folding
    the delta into the base changes nothing, and a shard reopened after a flush
    has the same live entries and the same deletions. *)

From stdpp Require Import base gmap sets list strings relations.
From Stdlib Require Import ZArith Lia.
From S2P Require Import Prelude Types Values WalTypes OrderedCodec OrderedFacts IndexManifest.
From S2P Require Import IndexManifestFacts ByteMap BufferPool BufferPoolFacts IndexChunk.
From S2P Require Import IndexChunkFacts IndexShardRuntime.

Module ShardFacts.
Import Codec CodecFacts Manifest ManifestFacts Chunked Shard.

(** ** The bloom filter *)

Lemma bloom_no_false_negative hash key b : (might_contain hash key (bloom_insert hash key b)).2 = true.
Proof.
  unfold might_contain, bloom_insert. simpl. rewrite !bool_decide_true by set_solver. done.
Qed.

(** ** Ordered maps under a prefix *)

Section prefixed.
Context {A : Type}.
Implicit Types (m : list (list Z * A)).

Definition prefixed (pre : list Z) (e : list Z * A) : list Z * A := (pre ++ e.1, e.2).

Lemma cmp_prefix pre a b : bytes_cmp (pre ++ a) (pre ++ b) = bytes_cmp a b.
Proof. rewrite bytes_cmp_app by done. by rewrite bytes_cmp_refl. Qed.

Lemma insert_prefixed pre k v m :
  BMap.insert (pre ++ k) v (map (prefixed pre) m) = map (prefixed pre) (BMap.insert k v m).
Proof.
  induction m as [|[j w] m IH]; simpl; [done|]. rewrite cmp_prefix.
  destruct (bytes_cmp k j); [done|done|]. simpl. by rewrite IH.
Qed.

Lemma extend_prefixed pre m l :
  BMap.extend (map (prefixed pre) m) (map (prefixed pre) l) = map (prefixed pre) (BMap.extend m l).
Proof.
  unfold BMap.extend. revert m; induction l as [|[k v] l IH]; intros m; simpl; [done|].
  by rewrite insert_prefixed, IH.
Qed.

Lemma extend_nil m : BMap.sorted m -> BMap.extend [] m = m.
Proof.
  intros Hs. apply BMap.get_ext; [by apply BMap.sorted_extend, BMap.sorted_nil|done|].
  intros k. rewrite BMap.get_extend by (done || apply BMap.sorted_nil). by destruct (BMap.get k m).
Qed.

(** Selecting by key commutes with overlaying. *)
Lemma extend_filter (f : list Z -> bool) m l :
  BMap.sorted m -> BMap.sorted l ->
  BMap.extend (List.filter (fun e => f e.1) m) (List.filter (fun e => f e.1) l) =
  List.filter (fun e => f e.1) (BMap.extend m l).
Proof.
  intros Hm Hl. apply BMap.get_ext.
  - by apply BMap.sorted_extend, BMap.sorted_filter.
  - by apply BMap.sorted_filter, BMap.sorted_extend.
  - intros k. rewrite BMap.get_extend by by apply BMap.sorted_filter.
    rewrite !BMap.get_filter by (done || by apply BMap.sorted_extend). rewrite BMap.get_extend by done. simpl.
    destruct (BMap.get k l), (BMap.get k m), (f k); done.
Qed.

Lemma filter_prefixed pre (f : list Z -> bool) m :
  List.filter (fun e => f e.1) (map (prefixed pre) m) =
  map (prefixed pre) (List.filter (fun e => f (pre ++ e.1)) m).
Proof.
  induction m as [|[k v] m IH]; simpl; [done|]. destruct (f (pre ++ k)); simpl; by rewrite IH.
Qed.

Lemma sorted_prefixed pre m : BMap.sorted m -> BMap.sorted (map (prefixed pre) m).
Proof.
  induction m as [|[k v] m IH]; [done|]. rewrite BMap.sorted_cons. intros [Hs Hl]. simpl.
  apply BMap.sorted_cons. split; [by apply IH|]. apply List.Forall_forall. intros x Hx.
  apply in_map_iff in Hx as (e & <- & He). simpl. rewrite cmp_prefix.
  rewrite List.Forall_forall in Hl. by apply Hl.
Qed.

End prefixed.

(** ** Shards over any base *)

Section shard.
Context {Dec I : Type} `{MapStoreLaws I (IndexRecord Dec)}.
Abbreviation entry := (list Z * IndexRecord Dec)%type (only parsing).
Implicit Types (m : list entry) (sr : ShardRuntime Dec I) (f : ShardFiles Dec).
Context (hash : Z -> list Z -> Z) (record_bytes : nat).

(** A base and a delta that stand for the map [m] of suffixes. *)
Definition side (base : I) (delta m : list entry) : Prop :=
  exists b, store_rep base b /\ BMap.sorted b /\ BMap.sorted delta /\ m = BMap.extend b delta.

Lemma side_sorted base delta m : side base delta m -> BMap.sorted m.
Proof. intros (b & _ & Hb & _ & ->). by apply BMap.sorted_extend. Qed.

(** Bounds that a scan of the index gives: both under the prefix, or the upper
    one just past it, which needs the delta to be empty. *)
Definition bounds_for (pre : list Z) (delta : list entry) (lower upper : list Z) : Prop :=
  exists l, lower = pre ++ l /\
    ((exists u, upper = pre ++ u /\ u <> [] /\ bytes_le l u = true) \/
     (pre <> [] /\ length upper = length pre /\ bytes_cmp pre upper = Lt /\ delta = [])).

Lemma strip_bounds_under pre l u :
  u <> [] -> strip_bounds (length pre) (pre ++ l) (pre ++ u) = (l, u).
Proof.
  intros Hu. unfold strip_bounds. destruct pre as [|b pre]; [done|].
  rewrite !length_app. rewrite (bool_decide_true (0 < length (b :: pre))%nat) by (simpl; lia).
  assert (0 < length u)%nat by (destruct u; simpl; [done|lia]).
  rewrite !bool_decide_true by lia. simpl.
  by rewrite !drop_app_length.
Qed.

Lemma strip_bounds_past pre l upper :
  pre <> [] -> length upper = length pre -> strip_bounds (length pre) (pre ++ l) upper = (l, []).
Proof.
  intros Hp Hl. unfold strip_bounds. assert (0 < length pre)%nat by (destruct pre; simpl; [done|lia]).
  rewrite (bool_decide_true (0 < length pre)%nat), length_app by done. rewrite bool_decide_true by lia.
  rewrite bool_decide_false by lia. rewrite bool_decide_true by done. simpl. by rewrite drop_app_length.
Qed.

Lemma in_bounds_within pre l u (e : entry) :
  u <> [] -> BMap.in_bounds (pre ++ l) (pre ++ u) (prefixed pre e) = store_within l u e.
Proof.
  intros Hu. unfold BMap.in_bounds, store_within, bytes_le, bytes_lt. simpl. rewrite !cmp_prefix.
  by rewrite (bool_decide_false (u = [])).
Qed.

Lemma in_bounds_past pre l upper (e : entry) :
  length upper = length pre -> bytes_cmp pre upper = Lt ->
  BMap.in_bounds (pre ++ l) upper (prefixed pre e) = store_within l [] e.
Proof.
  intros Hl Hc. unfold BMap.in_bounds, store_within, bytes_le, bytes_lt. simpl. rewrite cmp_prefix.
  replace (bytes_cmp (pre ++ e.1) upper) with Lt; [done|]. symmetry.
  rewrite <- (app_nil_r upper), bytes_cmp_app by done. by rewrite Hc.
Qed.

Lemma delta_range l u (d : list entry) :
  u <> [] -> bytes_le l u = true -> BMap.range l u d = Some (List.filter (store_within l u) d).
Proof.
  intros Hu Hle. unfold BMap.range. destruct d as [|e d]; [done|].
  destruct (bytes_lt u l) eqn:E; [apply bytes_lt_irrefl in E; congruence|].
  f_equal. apply List.filter_ext. intros x. unfold BMap.in_bounds, store_within.
  by rewrite (bool_decide_false (u = [])).
Qed.

Lemma range_with_delta_spec now base delta m pre lower upper :
  side base delta m -> bounds_for pre delta lower upper ->
  exists base', 
    (let '(ls, us) := strip_bounds (length pre) lower upper in
     chunked_range_with_delta now base delta ls us pre) =
      Some (base', List.filter (BMap.in_bounds lower upper) (map (prefixed pre) m)) /\
    side base' delta m.
Proof.
  intros (b & Hrep & Hb & Hd & ->) (l & -> & Hcase).
  assert (Hgoal : forall u, (forall e : entry, BMap.in_bounds (pre ++ l) upper (prefixed pre e) = store_within l u e) ->
    BMap.range l u delta = Some (List.filter (store_within l u) delta) ->
    exists base', chunked_range_with_delta now base delta l u pre =
      Some (base', List.filter (BMap.in_bounds (pre ++ l) upper) (map (prefixed pre) (BMap.extend b delta))) /\
      side base' delta (BMap.extend b delta)).
  { intros u Hin Hrange. unfold chunked_range_with_delta.
    destruct (store_range_rep now base b l u Hb Hrep) as [El Hrep'].
    destruct (store_range now base l u) as [base' lb]. simpl in *. subst lb. rewrite Hrange.
    exists base'. split; [|by exists b]. do 2 f_equal.
    change (full_key pre) with (@prefixed (IndexRecord Dec) pre).
    rewrite (extend_nil (map (prefixed pre) _)) by by apply sorted_prefixed, BMap.sorted_filter.
    rewrite extend_prefixed.
    change (store_within l u) with (fun e : entry => (fun k => bytes_le l k && (bool_decide (u = []) || bytes_lt k u)) e.1).
    rewrite extend_filter by done.
    change (BMap.in_bounds (pre ++ l) upper) with (fun e : entry => (fun k => bytes_le (pre ++ l) k && bytes_lt k upper) e.1).
    rewrite filter_prefixed. f_equal. apply List.filter_ext. intros e. symmetry. apply (Hin e). }
  destruct Hcase as [(u & -> & Hu & Hle)|(Hp & Hlen & Hc & ->)].
  - rewrite strip_bounds_under by done. apply Hgoal; [intros e; by apply in_bounds_within|].
    by apply delta_range.
  - rewrite strip_bounds_past by done. apply Hgoal; [intros e; by apply in_bounds_past|done].
Qed.

(** A range of a shard is the range of its map: for a base and a delta that
    stand for the map [m] of suffixes, a forward range between bounds that a scan
    of the index gives does not panic and yields the entries of [m], under the
    shard's prefix, that lie in it, in order. *)
Theorem shard_range_exact now sr m lower upper :
  side (base_forward sr) (delta_forward sr) m ->
  bounds_for (forward_prefix sr) (delta_forward sr) lower upper ->
  exists base', forward_range now sr lower upper =
      Some (base', List.filter (BMap.in_bounds lower upper) (map (prefixed (forward_prefix sr)) m)) /\
    side base' (delta_forward sr) m.
Proof. intros Hs Hb. unfold forward_range. by apply range_with_delta_spec. Qed.

(** The pre-check does not hide an entry. *)
Lemma may_have_range_sound now bloom base delta m pre lower upper :
  side base delta m -> bounds_for pre delta lower upper ->
  exists bloom' base' r, may_have_range hash now bloom base delta pre lower upper = Some (bloom', base', r) /\
    side base' delta m /\
    (r = false -> List.filter (BMap.in_bounds lower upper) (map (prefixed pre) m) = []).
Proof.
  intros Hs Hb. pose proof (range_with_delta_spec now base delta m pre lower upper Hs Hb) as Hspec.
  unfold may_have_range. destruct (strip_bounds (length pre) lower upper) as [l u].
  destruct Hspec as (base1 & E & Hs1). unfold chunked_range_with_delta in E.
  destruct (is_saturated bloom); [by eexists _, _, _|].
  destruct (might_contain hash l bloom) as [bloom' [|]]; [by eexists _, _, _|].
  destruct (store_range now base l u) as [base' lb].
  destruct (BMap.range l u delta) as [d|]; [|done]. injection E as <- E.
  case_bool_decide as Hl; simpl; [|by eexists _, _, _].
  eexists _, _, _. split_and!; [done|done|]. rewrite <- E. destruct lb; [|done].
  case_bool_decide as Hd; [|done]. intros _. by destruct d.
Qed.

(** Folding the delta into the base. *)
Lemma side_merge now base delta m :
  side base delta m -> store_fits m ->
  side (store_build now (BMap.extend (store_snapshot now base).2 delta)) [] m.
Proof.
  intros Hs Hf. pose proof (side_sorted _ _ _ Hs) as Hm. destruct Hs as (b & Hr & Hb & Hd & ->).
  destruct (store_snapshot_rep now base b Hb Hr) as [-> _]. exists (BMap.extend b delta).
  split_and!; [by apply store_build_rep|done|apply BMap.sorted_nil|done].
Qed.

Lemma side_empty now : store_fits [] -> side (store_build now []) [] [].
Proof.
  intros Hf. exists []. split_and!; [|apply BMap.sorted_nil..|done].
  by apply store_build_rep; [apply BMap.sorted_nil|].
Qed.

(** ** Writes *)

Lemma merge_side_delta pre (l delta : list entry) bloom :
  (merge_side hash pre l delta bloom).1 =
  BMap.extend delta (map (fun e => (strip_prefix pre e.1, e.2)) l).
Proof.
  unfold merge_side, BMap.extend. revert delta bloom; induction l as [|e l IH]; intros delta bloom; simpl;
    [done|]. apply IH.
Qed.

Lemma extend_extend (m d l : list entry) :
  BMap.sorted m -> BMap.sorted d -> BMap.sorted l ->
  BMap.extend m (BMap.extend d l) = BMap.extend (BMap.extend m d) l.
Proof.
  intros Hm Hd Hl. apply BMap.get_ext; [by apply BMap.sorted_extend|by repeat apply BMap.sorted_extend|].
  intros k. rewrite !BMap.get_extend by (done || by apply BMap.sorted_extend). by destruct (BMap.get k l).
Qed.

Lemma side_write base delta m (l : list entry) :
  side base delta m -> BMap.sorted l -> side base (BMap.extend delta l) (BMap.extend m l).
Proof.
  intros (b & Hr & Hb & Hd & ->) Hl. exists b. split_and!; [done|done|by apply BMap.sorted_extend|].
  by rewrite extend_extend.
Qed.

(** ** Recovery *)

(** Records that agree on the deletion and, if live, on everything. *)
Definition agree (r r' : IndexRecord Dec) : Prop :=
  deleted_ts r = deleted_ts r' /\ (deleted_ts r = None -> r = r').

(** Maps with the same keys and records that agree. *)
Definition agree_maps m m' : Prop := forall k,
  match BMap.get k m, BMap.get k m' with
  | Some r, Some r' => agree r r'
  | None, None => True
  | _, _ => False
  end.

Lemma agree_maps_refl m : agree_maps m m.
Proof. intros k. by destruct (BMap.get k m). Qed.

Lemma agree_insert k r r' m m' :
  BMap.sorted m -> BMap.sorted m' -> agree r r' -> agree_maps m m' ->
  agree_maps (BMap.insert k r m) (BMap.insert k r' m').
Proof. intros H1 H2 Hr Hm j. rewrite !BMap.get_insert by done. by case_decide; [|apply Hm]. Qed.

(** The writes of a direction, logged and replayed. *)
Lemma replay_side (fw : bool) (l A B m : list entry) :
  BMap.sorted A -> BMap.sorted B -> BMap.sorted m -> agree_maps (if fw then A else B) m ->
  let '(A', B') := fold_left (replay_entry [] []) (map (fun e => wal_entry_for fw e.1 e.2) l) (A, B) in
  BMap.sorted A' /\ BMap.sorted B' /\ agree_maps (if fw then A' else B') (BMap.extend m l) /\
  (if fw then B' = B else A' = A).
Proof.
  revert A B m; induction l as [|[k r] l IH]; intros A B m HA HB Hm Hag; cbn [map fold_left];
    [by destruct fw|].
  assert (Hone : forall M, BMap.sorted M -> agree_maps M m -> exists M',
    (forall X, replay_entry [] [] (if fw then (M, X) else (X, M)) (wal_entry_for fw k r) =
       if fw then (M', X) else (X, M')) /\ BMap.sorted M' /\ agree_maps M' (BMap.insert k r m)).
  { intros M HM HagM. unfold wal_entry_for. destruct (deleted_ts r) as [d|] eqn:Ed.
    - destruct (BMap.get k M) as [r0|] eqn:Eg.
      + exists (BMap.insert k (mark_deleted r0 d) M). split_and!; [|by apply BMap.sorted_insert|].
        * intros X. destruct fw; simpl; change (strip_prefix [] k) with k; by rewrite Eg.
        * apply agree_insert; try done; by split.
      + exists (BMap.insert k (mark_deleted (record_new 0) d) M). split_and!; [|by apply BMap.sorted_insert|].
        * intros X. destruct fw; simpl; change (strip_prefix [] k) with k; by rewrite Eg.
        * apply agree_insert; try done; by split.
    - exists (BMap.insert k r M). split_and!; [by destruct fw|by apply BMap.sorted_insert|].
      by apply agree_insert. }
  destruct fw.
  - destruct (Hone A HA Hag) as (A1 & E & HA1 & Hag1). specialize (E B). cbv iota in E.
    cbn [fst snd]. rewrite E. apply IH; try done.
    by apply BMap.sorted_insert.
  - destruct (Hone B HB Hag) as (B1 & E & HB1 & Hag1). specialize (E A). cbv iota in E.
    cbn [fst snd]. rewrite E. apply IH; try done.
    by apply BMap.sorted_insert.
Qed.

(** What a reopened shard replays. *)
Definition replayed f (w : list (WalEntry Dec)) : list entry * list entry :=
  fold_left (replay_entry [] []) (file_wal f ++ w)
    (default [] (file_forward f), default [] (file_reverse f)).

(** A shard without prefixes and its files: the log on top of the checkpoint
    gives the shard's maps. *)
Record durable sr f mf mr : Prop := {
  du_fpre : forward_prefix sr = [];
  du_rpre : reverse_prefix sr = [];
  du_fwd : side (base_forward sr) (delta_forward sr) mf;
  du_rev : side (base_reverse sr) (delta_reverse sr) mr;
  du_sorted : BMap.sorted (replayed f (wal_entries sr)).1 /\ BMap.sorted (replayed f (wal_entries sr)).2;
  du_agree : agree_maps (replayed f (wal_entries sr)).1 mf /\ agree_maps (replayed f (wal_entries sr)).2 mr;
  du_files : BMap.sorted (default [] (file_forward f)) /\ BMap.sorted (default [] (file_reverse f));
  du_clean : sr_dirty sr = false -> wal_entries sr = [];
}.


Lemma strip_nil (l : list entry) : map (fun e => (strip_prefix [] e.1, e.2)) l = l.
Proof. induction l as [|[k r] l IH]; simpl; [done|]. by rewrite IH. Qed.

Lemma durable_replace sr f mf mr fwd rev :
  durable sr f mf mr -> BMap.sorted fwd -> BMap.sorted rev ->
  durable (replace hash record_bytes fwd rev sr) f (BMap.extend mf fwd) (BMap.extend mr rev).
Proof.
  intros [Hfp Hrp Hf Hr [Sf Sr] [Af Ar] Hfi Hcl] Hfwd Hrev.
  pose proof (merge_side_delta [] fwd (delta_forward sr) (forward_bloom sr)) as Ef.
  pose proof (merge_side_delta [] rev (delta_reverse sr) (reverse_bloom sr)) as Er.
  rewrite strip_nil in Ef, Er. unfold replace. rewrite Hfp, Hrp.
  destruct (merge_side hash [] fwd _ _) as [df fb], (merge_side hash [] rev _ _) as [dr rb].
  simpl in Ef, Er. subst df dr.
  assert (Hrep : forall w, replayed f (wal_entries sr ++ w) =
    fold_left (replay_entry [] []) w (replayed f (wal_entries sr))).
  { intros w. unfold replayed. by rewrite app_assoc, fold_left_app. }
  pose proof (replay_side true fwd (replayed f (wal_entries sr)).1 (replayed f (wal_entries sr)).2 mf
    Sf Sr (side_sorted _ _ _ Hf) Af) as H1.
  rewrite <- surjective_pairing in H1.
  destruct (fold_left (replay_entry [] []) (map (fun e => wal_entry_for true e.1 e.2) fwd)
    (replayed f (wal_entries sr))) as [A1 B1] eqn:E1.
  destruct H1 as (SA1 & SB1 & AA1 & EB1). cbv iota in EB1, AA1.
  pose proof (replay_side false rev A1 B1 mr SA1 SB1 (side_sorted _ _ _ Hr)) as H2.
  cbv iota in H2. rewrite EB1 in H2 at 1. specialize (H2 Ar). rewrite EB1 in *.
  destruct (fold_left (replay_entry [] []) (map (fun e => wal_entry_for false e.1 e.2) rev)
    (A1, (replayed f (wal_entries sr)).2)) as [A2 B2] eqn:E2.
  destruct H2 as (SA2 & SB2 & AB2 & ->).
  assert (Eall : replayed f (wal_entries sr ++ map (fun e => wal_entry_for true e.1 e.2) fwd ++
                             map (fun e => wal_entry_for false e.1 e.2) rev) = (A1, B2)).
  { by rewrite Hrep, fold_left_app, E1. }
  split; try done; cbn [wal_entries forward_prefix reverse_prefix base_forward base_reverse delta_forward
    delta_reverse]; rewrite ?Eall; try done; by apply side_write.
Qed.

Lemma durable_flush now sr f mf mr :
  durable sr f mf mr -> store_fits mf -> store_fits mr ->
  durable (flush hash now sr f).1 (flush hash now sr f).2 mf mr /\
  wal_entries (flush hash now sr f).1 = [].
Proof.
  intros Hd Hff Hfr. unfold flush. destruct (sr_dirty sr) eqn:Edirty; [|split; [done|by apply Hd]].
  destruct Hd as [Hfp Hrp Hf Hr Hs Ha Hfi Hcl]. case_decide.
  - simpl. split; [|done]. split; try done; simpl; unfold replayed in *; simpl; rewrite app_nil_r; done.
  - unfold checkpoint, full_flush. cbn [fst snd].
    set (sr' := merge_delta_into_base hash now sr).
    assert (Hm : side (base_forward sr') (delta_forward sr') mf /\ side (base_reverse sr') (delta_reverse sr') mr /\
      delta_forward sr' = [] /\ delta_reverse sr' = [] /\ forward_prefix sr' = [] /\ reverse_prefix sr' = []).
    { subst sr'. unfold merge_delta_into_base. pose proof (side_merge now _ _ _ Hf Hff) as Mf.
      pose proof (side_merge now _ _ _ Hr Hfr) as Mr.
      destruct (delta_forward sr) eqn:Ef, (delta_reverse sr) eqn:Er; simpl; try done.
      by rewrite Ef, Er. }
    destruct Hm as (Mf & Mr & Df & Dr & Pf & Pr).
    assert (Snap : forall i m, side i [] m -> (store_snapshot now i).2 = m).
    { intros i m (b & Hrep & Hb & _ & ->). by apply store_snapshot_rep. }
    rewrite Df in Mf. rewrite Dr in Mr. rewrite (Snap _ _ Mf), (Snap _ _ Mr).
    split; [|done]. split; simpl; rewrite ?Df, ?Dr; try done; unfold replayed; simpl.
    + split; [by eapply side_sorted|by eapply side_sorted].
    + split; apply agree_maps_refl.
    + split; [by eapply side_sorted|by eapply side_sorted].
Qed.

(** A shard reopened from its files stands for the maps that they replay to. *)
Lemma load_side now f :
  BMap.sorted (default [] (file_forward f)) -> BMap.sorted (default [] (file_reverse f)) ->
  store_fits (default [] (file_forward f)) -> store_fits (default [] (file_reverse f)) ->
  BMap.sorted (replayed f []).1 -> BMap.sorted (replayed f []).2 ->
  store_fits (replayed f []).1 -> store_fits (replayed f []).2 ->
  durable (load_shard now f) f (replayed f []).1 (replayed f []).2.
Proof.
  intros S1 S2 F1 F2 S3 S4 F3 F4. unfold load_shard, replay_wal.
  assert (B1 := store_build_rep now _ S1 F1). assert (B2 := store_build_rep now _ S2 F2).
  destruct (file_wal f) as [|e w] eqn:Ew.
  - assert (Er : replayed f [] = (default [] (file_forward f), default [] (file_reverse f)))
      by (unfold replayed; by rewrite Ew).
    rewrite Er in *. split; simpl; rewrite ?Er; try done.
    + eexists. split_and!; [exact B1|done|apply BMap.sorted_nil|done].
    + eexists. split_and!; [exact B2|done|apply BMap.sorted_nil|done].
    + split; apply agree_maps_refl.
  - simpl base_forward. simpl base_reverse. simpl forward_prefix. simpl reverse_prefix.
    rewrite (proj1 (store_snapshot_rep now _ _ S1 B1)), (proj1 (store_snapshot_rep now _ _ S2 B2)).
    assert (Er : replayed f [] = fold_left (replay_entry [] []) (e :: w)
      (default [] (file_forward f), default [] (file_reverse f)))
      by (unfold replayed; by rewrite Ew, app_nil_r).
    rewrite <- Er. destruct (replayed f []) as [A B] eqn:EAB. simpl in *.
    split; simpl; rewrite ?EAB; try done.
    + exists A. split_and!; [by apply store_build_rep|done|apply BMap.sorted_nil|done].
    + exists B. split_and!; [by apply store_build_rep|done|apply BMap.sorted_nil|done].
    + split; apply agree_maps_refl.
Qed.

(** A map that the base can hold. *)
Definition all_fit f : Prop :=
  store_fits (default [] (file_forward f)) /\ store_fits (default [] (file_reverse f)) /\
  store_fits (replayed f []).1 /\ store_fits (replayed f []).2.

(** The files after a crash: an append to the log has got through for the first
    [k] of the staged entries, none of them torn. *)
Definition crash_files (k : nat) (sr : ShardRuntime Dec I) f : ShardFiles Dec :=
  mkFiles (file_forward f) (file_reverse f) (file_wal f ++ take k (wal_entries sr)).

(** Runs of a shard: writes, flushes, reads of the filter, and a crash, also one
    between the entries of a log append, that reopens the shard from its files.
    A tail torn inside an entry is not among the crashes: it is read (as a cut),
    but never removed, and a log with an append behind it is refused. *)
Inductive shard_step : ShardRuntime Dec I * ShardFiles Dec -> ShardRuntime Dec I * ShardFiles Dec -> Prop :=
| ss_replace sr f fwd rev :
    BMap.sorted fwd -> BMap.sorted rev -> shard_step (sr, f) (replace hash record_bytes fwd rev sr, f)
| ss_flush now sr f :
    (forall m, side (base_forward sr) (delta_forward sr) m -> store_fits m) ->
    (forall m, side (base_reverse sr) (delta_reverse sr) m -> store_fits m) ->
    shard_step (sr, f) (flush hash now sr f)
| ss_check now sr f lower upper sr' r :
    bounds_for (forward_prefix sr) (delta_forward sr) lower upper ->
    forward_may_have_range hash now sr lower upper = Some (sr', r) -> shard_step (sr, f) (sr', f)
| ss_crash now sr f k :
    all_fit (crash_files k sr f) ->
    shard_step (sr, f) (load_shard now (crash_files k sr f), crash_files k sr f).

Definition shard_reachable sr f : Prop :=
  exists now, rtc shard_step (empty_with_capacity now, mkFiles None None []) (sr, f).


Lemma replay_sorted w (A B : list entry) :
  BMap.sorted A -> BMap.sorted B ->
  BMap.sorted (fold_left (replay_entry [] []) w (A, B)).1 /\
  BMap.sorted (fold_left (replay_entry [] []) w (A, B)).2.
Proof.
  revert A B; induction w as [|e w IH]; intros A B HA HB; cbn [fold_left]; [done|].
  destruct e as [[|] k r|[|] k d]; cbn [replay_entry].
  - apply IH; [by apply BMap.sorted_insert|done].
  - apply IH; [done|by apply BMap.sorted_insert].
  - apply IH; [|done]. by destruct (BMap.get _ A); apply BMap.sorted_insert.
  - apply IH; [done|]. by destruct (BMap.get _ B); apply BMap.sorted_insert.
Qed.

Definition shard_inv (s : ShardRuntime Dec I * ShardFiles Dec) : Prop :=
  exists mf mr, durable s.1 s.2 mf mr.

Lemma durable_load now f :
  BMap.sorted (default [] (file_forward f)) -> BMap.sorted (default [] (file_reverse f)) -> all_fit f ->
  durable (load_shard now f) f (replayed f []).1 (replayed f []).2.
Proof.
  intros S1 S2 (F1 & F2 & F3 & F4).
  destruct (replay_sorted (file_wal f ++ []) _ _ S1 S2) as [S3 S4]. by apply load_side.
Qed.

Lemma shard_inv_step s s' : shard_inv s -> shard_step s s' -> shard_inv s'.
Proof.
  intros (mf & mr & Hd) Hstep.
  destruct Hstep as [sr f fwd rev Sf Sr|now sr f Ff Fr|now sr f lower upper sr' r Hb E|now sr f k Hfit];
    simpl in Hd.
  - eexists _, _. by apply durable_replace.
  - exists mf, mr. apply (durable_flush now sr f mf mr Hd); [apply Ff, Hd|apply Fr, Hd].
  - exists mf, mr. simpl. unfold forward_may_have_range in E.
    destruct (may_have_range_sound now (forward_bloom sr) (base_forward sr) (delta_forward sr) mf
      (forward_prefix sr) lower upper (du_fwd _ _ _ _ Hd) Hb) as (bl & i & x & E' & Hs & _).
    rewrite E' in E. injection E as <- <-. destruct Hd as [Hfp Hrp Hf Hr Hso Ha Hfi Hcl]. by split.
  - destruct (du_files _ _ _ _ Hd) as [S1 S2]. eexists _, _. by apply durable_load.
Qed.

Lemma shard_reachable_inv sr f : store_fits [] -> shard_reachable sr f -> shard_inv (sr, f).
Proof.
  intros Hfit (now & Hsteps).
  assert (Hinit : shard_inv (empty_with_capacity now, mkFiles None None [])).
  { exists [], []. split; simpl; try done; try (by apply side_empty); split; apply BMap.sorted_nil. }
  remember (empty_with_capacity now, mkFiles None None []) as s0 eqn:E0. clear E0.
  remember (sr, f) as s1 eqn:E1. revert E1. induction Hsteps as [s|s s' s'' Hs _ IH]; intros ->; [done|].
  apply IH; [by eapply shard_inv_step|done].
Qed.

(** [C18] A flushed shard recovers.  Take a shard without key prefixes after any
    run of writes, flushes, reads and crashes between operations or between the
    entries of a log append (no entry torn), with maps that fit the store at
    each flush and reopening.  A flush followed by a reopening from the files
    gives a shard whose two maps have the same keys as before, the same live
    records, and the same deletions. *)
Theorem shard_recovery now now' sr f sr1 f1 :
  store_fits [] -> shard_reachable sr f ->
  (forall m, side (base_forward sr) (delta_forward sr) m -> store_fits m) ->
  (forall m, side (base_reverse sr) (delta_reverse sr) m -> store_fits m) ->
  flush hash now sr f = (sr1, f1) -> all_fit f1 ->
  exists mf mr mf' mr',
    side (base_forward sr) (delta_forward sr) mf /\ side (base_reverse sr) (delta_reverse sr) mr /\
    side (base_forward (load_shard now' f1)) (delta_forward (load_shard now' f1)) mf' /\
    side (base_reverse (load_shard now' f1)) (delta_reverse (load_shard now' f1)) mr' /\
    agree_maps mf' mf /\ agree_maps mr' mr.
Proof.
  intros Hnil Hre Ff Fr Efl Hfit. destruct (shard_reachable_inv sr f Hnil Hre) as (mf & mr & Hd).
  simpl in Hd. destruct (durable_flush now sr f mf mr Hd) as [Hd1 Hw]; [apply Ff, Hd|apply Fr, Hd|].
  rewrite Efl in Hd1, Hw. simpl in Hd1, Hw.
  destruct (du_files _ _ _ _ Hd1) as [S1 S2]. pose proof (durable_load now' f1 S1 S2 Hfit) as Hl.
  exists mf, mr, (replayed f1 []).1, (replayed f1 []).2.
  pose proof (du_agree _ _ _ _ Hd1) as Ha. rewrite Hw in Ha.
  split_and!; [apply Hd|apply Hd|apply Hl|apply Hl|apply Ha|apply Ha].
Qed.


End shard.
(** ** The chunked index as a base *)

Section chunked.
Context {Dec : Type} (record_bytes : nat) (value_size : Value Dec -> nat).
Context (num_shards : nat) (shard_for : nat -> Z -> nat) (capacity : Z).

#[local] Instance chunked_store : MapStore (ChunkedIndex Dec) (IndexRecord Dec) := {
  store_build now m := from_btree record_bytes value_size num_shards shard_for now [] m capacity;
  store_range := Chunked.range shard_for;
  store_visible := visible_range shard_for;
  store_snapshot := snapshot shard_for;
}.

Context (num_shards_pos : (0 < num_shards)%nat).
Context (shard_for_lt : forall n k, (0 < n)%nat -> (shard_for n k < n)%nat).
Context (capacity_u64 : capacity <= U64_MAX).

(** The chunked index keeps the promises of a base for maps that fit its
    pool. *)
#[local] Instance chunked_store_laws : MapStoreLaws (ChunkedIndex Dec) (IndexRecord Dec).
Proof.
  refine {|
    store_rep := ChunkFacts.represents record_bytes value_size shard_for;
    store_fits m := estimate_entries_size record_bytes value_size m <= capacity;
  |}.
  - intros now m _ Hf. by apply ChunkFacts.from_btree_represents.
  - intros now i m lower upper Hs Hr. by apply (ChunkFacts.range_represents _ _ num_shards).
  - intros now i m Hs Hr. by apply (ChunkFacts.snapshot_represents _ _ num_shards).
Defined.

End chunked.


End ShardFacts.
