(* ===== verification/IndexChain.v ===== *)
(** * Generation chains of a native index

    [linkrs-storage/src/index/shard_runtime/generation.rs] and [runtime.rs]
    (generations and the chain from a generation to its ancestors),
    [index/cursor.rs] (the iterator over a chain), and from
    [index/index_data_manager/] the publication of a delta as a new generation,
    the compaction of a chain and the retirement of old generations.

    A generation is known by its number.  A parent is a weak reference: it is
    followed while the parent is installed in the runtime or held by a reader.
    The caches and filters that reads of a shard update are not threaded through
    a chain: the facts about shards show that reads do not change what a shard
    stands for.  A publication runs as one step, so that the check that no other
    one has come between is always passed; counters of memory and statistics are
    left out. *)

From stdpp Require Import base gmap sets list strings.
From Stdlib Require Import ZArith Lia.
From S2P Require Import Prelude Types Values WalTypes OrderedCodec OrderedFacts IndexManifest.
From S2P Require Import ByteMap IndexChunk IndexShardRuntime.

Module Chain.
Import Codec Manifest Chunked Shard.

Section chain.
Context {Dec I : Type} `{MapStore I (IndexRecord Dec)}.
Abbreviation entry := (list Z * IndexRecord Dec)%type (only parsing).

Variable hash : Z -> list Z -> Z.
Variable record_bytes : nat.
Variable now : Z.

(** ** Generations *)

Record GenerationRuntime := mkGen {
  g_generation : Z;
  g_shards : gmap Z (ShardRuntime Dec I);
  g_parent : option Z;
  g_max_ts : Z;
}.

Definition gen_shard (g : GenerationRuntime) (id : Z) : option (ShardRuntime Dec I) := g_shards g !! id.

(** The forward and reverse maps of the shards. *)
Abbreviation IndexMaps := (list entry * list entry)%type (only parsing).

Definition empty_with_pool_capacity (m : IndexManifest) : GenerationRuntime :=
  mkGen (generation m)
    (fold_left (fun sh s => <[shard_id s := empty_with_capacity now]> sh) (shards m) ∅) None 0.

(** [key[prefix_len..]] for every key. *)
Definition strip_keys (pre : list Z) (l : list entry) : list entry :=
  match pre with
  | [] => l
  | _ => BMap.extend [] (map (fun e => (drop (length pre) e.1, e.2)) l)
  end.

Definition prefixed_shard (fpre rpre : list Z) (maps : IndexMaps) : ShardRuntime Dec I :=
  let fwd := strip_keys fpre maps.1 in
  let rev := strip_keys rpre maps.2 in
  mkShardRt (store_build now fwd) (store_build now rev) [] [] true fpre rpre [] 0
    (bloom_all hash fwd bloom_new) (bloom_all hash rev bloom_new).

Definition empty_with_maps (m : IndexManifest) (fpre rpre : list Z) (maps : gmap Z IndexMaps)
    (parent : option Z) (max_ts : Z) : GenerationRuntime :=
  mkGen (generation m)
    (fold_left (fun sh s =>
        <[shard_id s := prefixed_shard fpre rpre (default ([], []) (maps !! shard_id s))]> sh)
       (shards m) ∅) parent max_ts.

Definition generation_from_maps (m : IndexManifest) (maps : gmap Z IndexMaps) (parent : option Z)
    (max_ts : Z) (fpre rpre : list Z) : GenerationRuntime :=
  if negb (bool_decide (fpre = [])) || negb (bool_decide (rpre = [])) then
    empty_with_maps m fpre rpre maps parent max_ts
  else
    let g := empty_with_pool_capacity m in
    mkGen (g_generation g)
      (map_imap (fun id sr =>
          Some (match maps !! id with
                | Some (f, r) => replace hash record_bytes f r sr
                | None => sr
                end)) (g_shards g)) parent max_ts.

(** ** The runtime of an index *)

Record IndexRuntime := mkRuntime {
  generations : gmap Z GenerationRuntime;
  held : gmap Z GenerationRuntime;
}.

Definition install_generation (g : GenerationRuntime) (rt : IndexRuntime) : IndexRuntime :=
  mkRuntime (<[g_generation g := g]> (generations rt)) (held rt).

Definition remove_generation (gen : Z) (rt : IndexRuntime) : IndexRuntime * bool :=
  (mkRuntime (delete gen (generations rt)) (held rt),
   bool_decide (is_Some (generations rt !! gen))).

(** [Weak::upgrade] of a reference to a generation. *)
Definition upgrade (rt : IndexRuntime) (gen : Z) : option GenerationRuntime :=
  match generations rt !! gen with Some g => Some g | None => held rt !! gen end.

(** [chain_from], along the parents. *)
Fixpoint chain_from (fuel : nat) (rt : IndexRuntime) (g : GenerationRuntime) : list GenerationRuntime :=
  match fuel with
  | O => []
  | S fuel =>
      g :: match g_parent g with
           | None => []
           | Some p => match upgrade rt p with Some g' => chain_from fuel rt g' | None => [] end
           end
  end.

Definition chain_fuel (rt : IndexRuntime) : nat := S (size (generations rt) + size (held rt)).

(** The largest installed generation that is not past [max_generation]. *)
Definition newest_until (rt : IndexRuntime) (max_generation : Z) : option Z :=
  foldr (fun g acc => if decide (g <= max_generation) then Some (from_option (Z.max g) g acc) else acc)
    None (map_to_list (generations rt)).*1.

Definition generation_chain_until (rt : IndexRuntime) (max_generation : Z)
  : result (list GenerationRuntime) StorageError :=
  match newest_until rt max_generation with
  | None => Err SENotFound
  | Some newest =>
      match generations rt !! newest with
      | None => Err SENotFound
      | Some g => Ok (chain_from (chain_fuel rt) rt g)
      end
  end.

(** ** The iterator over a chain *)

Record ChainForwardIterator := mkIter {
  it_rest : list GenerationRuntime;
  it_shard : Z;
  it_read_ts : Z;
  it_start : list Z;
  it_end : list Z;
  it_pos : nat;
  it_current : list entry;
  it_seen : gset (list Z);
  it_tombstoned : gset (list Z);
}.

(** The chain is newest first; [it_rest] are the generations not loaded yet. *)
Definition iter_new (chain : list GenerationRuntime) (shard read_ts : Z) (start stop : list Z)
  : ChainForwardIterator :=
  mkIter chain shard read_ts start stop 0 [] ∅ ∅.

(** [load_next_gen]: the generations left, the entries and the position.  A
    shard that the pre-check rules out leaves the entries as they were.  [None]
    is a panic. *)
Fixpoint load_next_gen (id : Z) (start stop : list Z) (rest : list GenerationRuntime)
    (current : list entry) (pos : nat) : option (list GenerationRuntime * list entry * nat) :=
  match rest with
  | [] => Some ([], [], pos)
  | g :: r =>
      match gen_shard g id with
      | None => load_next_gen id start stop r current pos
      | Some sr =>
          match forward_may_have_range hash now sr start stop with
          | None => None
          | Some (sr', may) =>
              match (if may then option_map snd (forward_range now sr' start stop) else Some current) with
              | None => None
              | Some current' =>
                  if bool_decide (length current' = 0%nat) then load_next_gen id start stop r current' pos
                  else Some (r, current', 0%nat)
              end
          end
      end
  end.

(** The entries of the loaded generation from the position on, up to the first
    one to yield: the position after it, the sets, and the entry. *)
Fixpoint scan_entries (read_ts : Z) (l : list entry) (pos : nat) (seen tomb : gset (list Z))
  : nat * gset (list Z) * gset (list Z) * option entry :=
  match l with
  | [] => (pos, seen, tomb, None)
  | (key, r) :: l' =>
      if decide (read_ts < created_ts r) then scan_entries read_ts l' (S pos) seen tomb
      else if match deleted_ts r with Some d => bool_decide (d <= read_ts) | None => false end then
        scan_entries read_ts l' (S pos) seen ({[key]} ∪ tomb)
      else if decide (key ∈ tomb) then scan_entries read_ts l' (S pos) seen tomb
      else if decide (key ∈ seen) then scan_entries read_ts l' (S pos) seen tomb
      else (S pos, {[key]} ∪ seen, tomb, Some (key, r))
  end.

(** [next]: one round for the loaded generation and one for each generation that
    is loaded.  The outer [None] is a panic, or the lack of fuel. *)
Fixpoint iter_next_fuel (fuel : nat) (it : ChainForwardIterator)
  : option (ChainForwardIterator * option entry) :=
  match fuel with
  | O => None
  | S fuel =>
      let '(pos, seen, tomb, found) :=
        scan_entries (it_read_ts it) (drop (it_pos it) (it_current it)) (it_pos it) (it_seen it)
          (it_tombstoned it) in
      match found with
      | Some e =>
          Some (mkIter (it_rest it) (it_shard it) (it_read_ts it) (it_start it) (it_end it) pos
                  (it_current it) seen tomb, Some e)
      | None =>
          match load_next_gen (it_shard it) (it_start it) (it_end it) (it_rest it) (it_current it) pos with
          | None => None
          | Some (rest, current, pos') =>
              let it' := mkIter rest (it_shard it) (it_read_ts it) (it_start it) (it_end it) pos'
                           current seen tomb in
              if bool_decide (length current = 0%nat) then Some (it', None) else iter_next_fuel fuel it'
          end
      end
  end.

Definition iter_next (it : ChainForwardIterator) : option (ChainForwardIterator * option entry) :=
  iter_next_fuel (S (length (it_rest it))) it.

(** The entries that the iterator yields until it is exhausted. *)
Fixpoint drain (fuel : nat) (it : ChainForwardIterator) : option (list entry) :=
  match fuel with
  | O => None
  | S fuel =>
      match iter_next it with
      | None => None
      | Some (_, None) => Some []
      | Some (it', Some e) => option_map (cons e) (drain fuel it')
      end
  end.

(** ** Publishing a delta *)

(** A generation is installed before its manifest is published: a refused
    publication leaves it installed.  The calls are not interleaved, so the
    second look at the active generation finds it unchanged. *)

(** The next manifest: the same ranges, for the next generation. *)
Definition next_manifest (m : IndexManifest) : result IndexManifest StorageError :=
  Manifest.new (space_id m) (index_id m) (saturating_add_u64 (generation m) 1)
    (map (fun s => mkShard (shard_id s) (lower s) (upper s) true) (shards m)).

(** The parent reference to the active generation, if it is installed. *)
Definition active_parent (rt : IndexRuntime) (m : IndexManifest) : option Z :=
  match generations rt !! generation m with Some _ => Some (generation m) | None => None end.

Definition publish_delta_generation (fpre rpre : list Z) (delta : gmap Z IndexMaps) (write_ts : Z)
    (rt : IndexRuntime) (cat : ManifestCatalog)
  : IndexRuntime * ManifestCatalog * result unit StorageError :=
  let current := c_manifest (active cat) in
  match next_manifest current with
  | Err e => (rt, cat, Err e)
  | Ok next =>
      let g := empty_with_maps next fpre rpre delta (active_parent rt current) write_ts in
      let rt' := install_generation g rt in
      match Manifest.publish cat next with
      | Err e => (rt', cat, Err e)
      | Ok (cat', _) => (rt', release cat' (generation next), Ok tt)
      end
  end.

(** ** Compaction *)

(** The entries of one generation that are visible and not there yet. *)
Definition merge_visible (safe_ts : Z) (m : list entry) (l : list entry) : list entry :=
  fold_left (fun m e => if is_visible_at e.2 safe_ts then BMap.or_insert e.1 e.2 m else m) l m.

Definition compact_shard (safe_ts : Z) (chain : list GenerationRuntime) (id : Z) : IndexMaps :=
  fold_left (fun '(f, r) g =>
      match gen_shard g id with
      | None => (f, r)
      | Some sr => let '(sf, sr') := sr_snapshot now sr in (merge_visible safe_ts f sf, merge_visible safe_ts r sr')
      end) chain ([], []).

Definition compact_maps (safe_ts : Z) (chain : list GenerationRuntime) (m : IndexManifest) : gmap Z IndexMaps :=
  fold_left (fun maps s => <[shard_id s := compact_shard safe_ts chain (shard_id s)]> maps) (shards m) ∅.

(** Whether the active generation has a tombstone in its base. *)
Definition has_tombstones (rt : IndexRuntime) (m : IndexManifest) : bool :=
  existsb (fun s =>
    match generations rt !! generation m with
    | None => false
    | Some g =>
        match gen_shard g (shard_id s) with
        | None => false
        | Some sr =>
            existsb (fun e => is_deleted e.2) (store_snapshot now (base_forward sr)).2 ||
            existsb (fun e => is_deleted e.2) (store_snapshot now (base_reverse sr)).2
        end
    end) (shards m).

(** [compact_native_index_impl] after the pending writes were published; the
    files are flushed and reclaimed elsewhere. *)
Definition compact_native_index (fpre rpre : list Z) (safe_ts : Z) (force : bool)
    (rt : IndexRuntime) (cat : ManifestCatalog)
  : IndexRuntime * ManifestCatalog * result bool StorageError :=
  let current := c_manifest (active cat) in
  if negb force && negb (has_tombstones rt current) then (rt, cat, Ok false)
  else
    match generation_chain_until rt (generation current) with
    | Err e => (rt, cat, Err e)
    | Ok chain =>
        match next_manifest current with
        | Err e => (rt, cat, Err e)
        | Ok next =>
            let g := generation_from_maps next (compact_maps safe_ts chain current)
                       (active_parent rt current) safe_ts fpre rpre in
            let rt1 := install_generation g rt in
            match Manifest.publish cat next with
            | Err e => (rt1, cat, Err e)
            | Ok (cat', _) =>
                let rt2 := match generations rt !! generation current with
                           | Some old => if decide (g_max_ts old < safe_ts)
                                         then (remove_generation (generation current) rt1).1 else rt1
                           | None => rt1
                           end in
                (rt2, release cat' (generation next), Ok true)
            end
        end
    end.

(** ** Retirement *)

(** [retire_generations] for one index: the generations before the active one
    that end before [safe_ts]. *)
Definition retire_generations (safe_ts : Z) (rt : IndexRuntime) (cat : ManifestCatalog) : IndexRuntime :=
  if decide (safe_ts = 0) then rt
  else
    let active_gen := gen_of (active cat) in
    mkRuntime (filter (fun gg => ~ (g_generation gg.2 < active_gen /\ g_max_ts gg.2 < safe_ts))
                 (generations rt)) (held rt).

End chain.
Arguments GenerationRuntime : clear implicits.
Arguments IndexRuntime : clear implicits.
Arguments ChainForwardIterator : clear implicits.

End Chain.
