(* ===== verification/IndexChainFacts.v ===== *)
(** * Facts about generation chains

    A scan of a chain yields each key once, with the newest record that had been
    written at the read timestamp, unless that record is a deletion. *)

From stdpp Require Import base gmap sets list strings relations.
From Stdlib Require Import ZArith Lia.
From S2P Require Import Prelude Types Values WalTypes OrderedCodec OrderedFacts IndexManifest.
From S2P Require Import IndexManifestFacts ByteMap BufferPool BufferPoolFacts IndexChunk.
From S2P Require Import IndexChunkFacts IndexShardRuntime IndexShardFacts IndexChain.

Module ChainFacts.
Import Codec CodecFacts Manifest ManifestFacts Chunked Shard ShardFacts Chain.

Section chain.
Context {Dec I : Type} `{MapStoreLaws I (IndexRecord Dec)}.
Abbreviation entry := (list Z * IndexRecord Dec)%type (only parsing).
Context (hash : Z -> list Z -> Z) (record_bytes : nat) (now : Z).
Implicit Types (E l m : list entry) (k : list Z) (r : IndexRecord Dec).

(** ** What a reader at a timestamp should see *)

Definition deleted_at (ts : Z) r : bool :=
  match deleted_ts r with Some d => bool_decide (d <= ts) | None => false end.

(** The newest record of a key that had been written, in maps newest first. *)
Fixpoint chain_get (ts : Z) k (ms : list (list entry)) : option (IndexRecord Dec) :=
  match ms with
  | [] => None
  | m :: ms' =>
      match BMap.get k m with
      | Some r => if decide (created_ts r <= ts) then (if deleted_at ts r then None else Some r)
                  else chain_get ts k ms'
      | None => chain_get ts k ms'
      end
  end.

(** ** Processing a sequence of entries *)

Definition state : Type := list entry * gset (list Z) * gset (list Z).

(** One entry, as the loop of the iterator treats it. *)
Definition proc_one (ts : Z) (s : state) (e : entry) : state :=
  let '(out, seen, tomb) := s in
  if decide (ts < created_ts e.2) then s
  else if deleted_at ts e.2 then (out, seen, {[e.1]} ∪ tomb)
  else if decide (e.1 ∈ tomb) then s
  else if decide (e.1 ∈ seen) then s
  else (out ++ [e], {[e.1]} ∪ seen, tomb).

Definition proc (ts : Z) E : state := fold_left (proc_one ts) E ([], ∅, ∅).

(** The first entry of a key that had been written, and what it yields. *)
Definition first_version (ts : Z) k E : option entry :=
  List.find (fun e => bool_decide (e.1 = k) && bool_decide (created_ts e.2 <= ts)) E.

Definition yielded (ts : Z) k E : option (IndexRecord Dec) :=
  match first_version ts k E with
  | Some e => if deleted_at ts e.2 then None else Some e.2
  | None => None
  end.

Lemma first_version_snoc ts k E e :
  first_version ts k (E ++ [e]) =
    match first_version ts k E with
    | Some x => Some x
    | None => if bool_decide (e.1 = k) && bool_decide (created_ts e.2 <= ts) then Some e else None
    end.
Proof. unfold first_version. rewrite find_app. simpl. destruct (List.find _ E); [done|]. by destruct (_ && _). Qed.

Record proc_ok (ts : Z) E (s : state) : Prop := {
  pk_nodup : NoDup (map fst s.1.1);
  pk_out : forall k r, (k, r) ∈ s.1.1 <-> yielded ts k E = Some r;
  pk_seen : forall k, k ∈ s.1.2 <-> is_Some (yielded ts k E);
  pk_tomb : forall k, k ∈ s.2 -> is_Some (first_version ts k E);
  pk_all : forall k, is_Some (first_version ts k E) -> k ∈ s.1.2 \/ k ∈ s.2;
  pk_del : forall k r, (k, r) ∈ E -> created_ts r <= ts -> deleted_at ts r = true -> k ∈ s.2;
}.

Lemma proc_ok_skip ts E e s :
  proc_ok ts E s -> (forall k, first_version ts k (E ++ [e]) = first_version ts k E) ->
  (created_ts e.2 <= ts -> deleted_at ts e.2 = false) -> proc_ok ts (E ++ [e]) s.
Proof.
  intros [Hn Ho Hs Ht Ha Hde] Hf Hlive.
  assert (Hy : forall k, yielded ts k (E ++ [e]) = yielded ts k E) by (intros k; unfold yielded; by rewrite Hf).
  split; [done|..]; intros k; [intros r|..]; rewrite ?Hy, ?Hf; auto.
  intros r [Hin|Hin]%elem_of_app Hc Hd; [by eapply Hde|]. apply list_elem_of_singleton in Hin. subst e.
  specialize (Hlive Hc). simpl in Hlive. congruence.
Qed.

Lemma proc_ok_step ts E e s : proc_ok ts E s -> proc_ok ts (E ++ [e]) (proc_one ts s e).
Proof.
  destruct s as [[out seen] tomb]. intros Hok. destruct e as [k r]. unfold proc_one. cbn [fst snd].
  pose proof (fun j => first_version_snoc ts j E (k, r)) as Hf. cbn [fst snd] in Hf.
  assert (Hknown : is_Some (first_version ts k E) -> forall j,
    first_version ts j (E ++ [(k, r)]) = first_version ts j E).
  { intros [x Hx] j. rewrite Hf. destruct (first_version ts j E) eqn:Ej; [done|].
    rewrite bool_decide_false; [done|]. intros ->. congruence. }
  destruct (decide (ts < created_ts r)) as [Hc|Hc].
  { apply proc_ok_skip; [done| |simpl; lia]. intros j. rewrite Hf.
    rewrite (bool_decide_false (_ <= _)) by lia. rewrite andb_false_r. by destruct (first_version ts j E). }
  destruct (deleted_at ts r) eqn:Hd.
  { destruct Hok as [Hn Ho Hs Ht Ha Hde]. cbn [fst snd] in *.
    assert (Hy : forall j, yielded ts j (E ++ [(k, r)]) = yielded ts j E).
    { intros j. unfold yielded. rewrite Hf. destruct (first_version ts j E) eqn:Ej; [done|].
      destruct (bool_decide (k = j)); [|done]. rewrite bool_decide_true by lia. simpl. by rewrite Hd. }
    split; cbn [fst snd]; [done|..]; intros j; [intros r'|..]; rewrite ?Hy; auto.
    - intros [->%elem_of_singleton|Hj]%elem_of_union; rewrite Hf.
      + destruct (first_version ts k E); [by eauto|]. rewrite !bool_decide_true by (done || lia). by eauto.
      + destruct (Ht j Hj) as [x Hx]. rewrite Hx. by eauto.
    - rewrite Hf. destruct (first_version ts j E) eqn:Ej.
      + intros _. destruct (Ha j); [by rewrite Ej|by left|right; set_solver].
      + destruct (decide (k = j)) as [->|Hkj]; [intros _; right; set_solver|].
        rewrite (bool_decide_false (k = j)) by done. by intros [].
    - intros r' [Hin|Hin]%elem_of_app Hc' Hd'; [specialize (Hde _ _ Hin Hc' Hd'); set_solver|].
      apply list_elem_of_singleton in Hin. set_solver. }
  destruct (decide (k ∈ tomb)) as [Hkt|Hkt].
  { apply proc_ok_skip; [done| |done]. apply Hknown. by apply (pk_tomb _ _ _ Hok k). }
  destruct (decide (k ∈ seen)) as [Hks|Hks].
  { apply proc_ok_skip; [done| |done]. apply Hknown. apply (pk_seen _ _ _ Hok k) in Hks as [x Hx].
    unfold yielded in Hx. by destruct (first_version ts k E); [eauto|]. }
  destruct Hok as [Hn Ho Hs Ht Ha Hde]. cbn [fst snd] in *.
  assert (Hnone : first_version ts k E = None).
  { destruct (first_version ts k E) eqn:Ek; [|done]. destruct (Ha k); [by rewrite Ek|done|done]. }
  assert (Hfj : forall j, first_version ts j (E ++ [(k, r)]) =
    if decide (k = j) then Some (k, r) else first_version ts j E).
  { intros j. rewrite Hf. destruct (decide (k = j)) as [<-|Hkj].
    { rewrite Hnone. by rewrite !bool_decide_true by (done || lia). }
    rewrite (bool_decide_false (k = j)) by done. by destruct (first_version ts j E). }
  assert (Hy : forall j, yielded ts j (E ++ [(k, r)]) = if decide (k = j) then Some r else yielded ts j E).
  { intros j. unfold yielded. rewrite Hfj. destruct (decide (k = j)); [|done]. simpl. by rewrite Hd. }
  assert (Hyk : yielded ts k E = None) by (unfold yielded; by rewrite Hnone).
  split; cbn [fst snd].
  - rewrite map_app. apply NoDup_app. split_and!; [done| |apply NoDup_singleton].
    intros j Hj Hj'. apply list_elem_of_singleton in Hj'. simpl in Hj'. subst j.
    apply (list_elem_of_fmap_1 fst) in Hj as ([k' r'] & E' & Hin). simpl in E'. subst k'.
    apply Ho in Hin. congruence.
  - intros j r'. rewrite Hy, elem_of_app, list_elem_of_singleton, Ho. destruct (decide (k = j)) as [<-|Hkj].
    + rewrite Hyk. split; [by intros [|[= ->]]|]. intros [= ->]. by right.
    + split; [by intros [|[= -> ->]]|by left].
  - intros j. rewrite Hy, elem_of_union, elem_of_singleton, Hs. destruct (decide (k = j)) as [<-|Hkj].
    + split; [by eauto|by left].
    + split; [by intros [->|]|by right].
  - intros j Hj. rewrite Hfj. destruct (decide (k = j)); [by eauto|]. by apply Ht.
  - intros j. rewrite Hfj. destruct (decide (k = j)) as [<-|Hkj]; [set_solver|]. intros Hj. destruct (Ha j Hj); set_solver.
  - intros j r' [Hin|Hin]%elem_of_app Hc' Hd'; [by eapply Hde|].
    apply list_elem_of_singleton in Hin. simplify_eq. congruence.
Qed.

Lemma proc_spec ts E : proc_ok ts E (proc ts E).
Proof.
  induction E as [|e E IH] using rev_ind.
  - split; simpl.
    + constructor.
    + intros k r. split; [set_solver|done].
    + intros k. split; [set_solver|by intros []].
    + set_solver.
    + by intros k [].
    + set_solver.
  - unfold proc. rewrite fold_left_app. simpl. by apply proc_ok_step.
Qed.

(** Entries that have been processed yield nothing more. *)
Lemma proc_repeat ts E l : (forall e, e ∈ l -> e ∈ E) -> proc ts (E ++ l) = proc ts E.
Proof.
  intros Hsub. unfold proc. rewrite fold_left_app. fold (proc ts E).
  assert (Hone : forall e, e ∈ E -> proc_one ts (proc ts E) e = proc ts E).
  { intros [k r] Hin. pose proof (proc_spec ts E) as Hok. unfold proc_one.
    destruct (proc ts E) as [[out seen] tomb] eqn:Ep. cbn [fst snd].
    case_decide as Hc; [done|].
    assert (Hfv : is_Some (first_version ts k E)).
    { unfold first_version. destruct (List.find _ E) eqn:Ef; [by eauto|].
      apply list_elem_of_In in Hin. apply (find_none _ _ Ef) in Hin. simpl in Hin.
      rewrite !bool_decide_true in Hin by (done || lia). done. }
    destruct (deleted_at ts r) eqn:Hd.
    - pose proof (pk_del _ _ _ Hok k r Hin ltac:(lia) Hd) as Hk. cbn [snd] in Hk.
      replace ({[k]} ∪ tomb) with tomb by set_solver. done.
    - destruct (pk_all _ _ _ Hok k Hfv) as [Hk|Hk]; cbn [fst snd] in Hk; by repeat case_decide. }
  clear -Hsub Hone. induction l as [|e l IH]; simpl; [done|].
  rewrite Hone by (apply Hsub; by left). apply IH. intros x Hx. apply Hsub. by right.
Qed.

(** ** The iterator *)

(** The map of a generation for a shard, when its reads are in bounds. *)
Definition gen_map (id : Z) (start stop : list Z) (g : GenerationRuntime Dec I) (M : list entry) : Prop :=
  match gen_shard g id with
  | None => M = []
  | Some sr => exists m, side (base_forward sr) (delta_forward sr) m /\
      bounds_for (forward_prefix sr) (delta_forward sr) start stop /\
      M = map (prefixed (forward_prefix sr)) m
  end.

Abbreviation in_range start stop := (List.filter (BMap.in_bounds start stop)).

Lemma load_next_spec id start stop rest Ms current pos :
  Forall2 (gen_map id start stop) rest Ms ->
  exists rest' Ms1 Ms2 current' pos', load_next_gen hash now id start stop rest current pos =
      Some (rest', current', pos') /\
    Ms = Ms1 ++ Ms2 /\ Forall2 (gen_map id start stop) rest' Ms2 /\
    (length rest' <= length rest)%nat /\
    ((current' = [] /\ rest' = [] /\ concat (map (in_range start stop) Ms) = []) \/
     (current' <> [] /\ pos' = 0%nat /\ (length rest' < length rest)%nat /\
      (concat (map (in_range start stop) Ms1) = current' \/
       (concat (map (in_range start stop) Ms1) = [] /\ current' = current)))).
Proof.
  intros H2. revert current pos. induction H2 as [|g M rest Ms Hg Hrest IH]; intros current pos; simpl.
  { exists [], [], [], [], pos. split_and!; try done. by left. }
  assert (Hskip : forall cur, cur = [] \/ cur = current -> in_range start stop M = [] ->
    exists rest' Ms1 Ms2 current' pos', load_next_gen hash now id start stop rest cur pos =
      Some (rest', current', pos') /\
    M :: Ms = Ms1 ++ Ms2 /\ Forall2 (gen_map id start stop) rest' Ms2 /\
    (length rest' <= S (length rest))%nat /\
    ((current' = [] /\ rest' = [] /\ concat (map (in_range start stop) (M :: Ms)) = []) \/
     (current' <> [] /\ pos' = 0%nat /\ (length rest' < S (length rest))%nat /\
      (concat (map (in_range start stop) Ms1) = current' \/
       (concat (map (in_range start stop) Ms1) = [] /\ current' = current))))).
  { intros cur Hcur HM. destruct (IH cur pos) as (rest' & Ms1 & Ms2 & cur' & pos' & E & -> & H2' & Hle & Hc).
    exists rest', (M :: Ms1), Ms2, cur', pos'. rewrite E. simpl. rewrite HM. simpl.
    split_and!; try done; [lia|].
    destruct Hc as [(? & ? & ?)|(Hne & ? & ? & Hc)]; [by left|right]. split_and!; try done; [lia|].
    destruct Hc as [?|[? ->]]; [by left|]. destruct Hcur as [->| ->]; [done|by right]. }
  unfold gen_map in Hg. destruct (gen_shard g id) as [sr|]; [|subst M; apply Hskip; [by right|done]].
  destruct Hg as (m & Hs & Hb & ->). unfold forward_may_have_range.
  destruct (may_have_range_sound hash now (forward_bloom sr) (base_forward sr) (delta_forward sr) m
    (forward_prefix sr) start stop Hs Hb) as (bl & i & may & E & Hs' & Hsound). rewrite E.
  destruct may.
  - destruct (range_with_delta_spec now i (delta_forward sr) m (forward_prefix sr) start stop Hs' Hb)
      as (i' & E' & _). unfold forward_range. cbn [forward_prefix base_forward delta_forward with_forward].
    rewrite E'. cbn [option_map snd]. case_bool_decide as Hlen.
    + apply nil_length_inv in Hlen. pose proof (Hskip [] (or_introl eq_refl) Hlen) as Hx.
      cbn [map concat] in Hx. rewrite Hlen in *. exact Hx.
    + exists rest, [map (prefixed (forward_prefix sr)) m], Ms,
        (in_range start stop (map (prefixed (forward_prefix sr)) m)), 0%nat.
      split_and!; try done; [lia|]. right. simpl. rewrite app_nil_r.
      split_and!; try done; [|lia|by left]. intros E0. by rewrite E0 in Hlen.
  - specialize (Hsound eq_refl). case_bool_decide as Hlen.
    + destruct current; [|done]. apply Hskip; [by left|done].
    + exists rest, [map (prefixed (forward_prefix sr)) m], Ms, current, 0%nat.
      split_and!; try done; [lia|]. right. simpl. rewrite Hsound.
      split_and!; try done; [by intros ->|lia|by right].
Qed.

Lemma scan_spec ts l pos out seen tomb :
  let '(pos', seen', tomb', o) := scan_entries ts l pos seen tomb in
  match o with
  | None => fold_left (proc_one ts) l (out, seen, tomb) = (out, seen', tomb')
  | Some e => exists l1 l2, l = l1 ++ e :: l2 /\ pos' = (pos + length l1 + 1)%nat /\
      fold_left (proc_one ts) (l1 ++ [e]) (out, seen, tomb) = (out ++ [e], seen', tomb')
  end.
Proof.
  revert pos seen tomb; induction l as [|[k r] l IH]; intros pos seen tomb; cbn [scan_entries]; [done|].
  assert (Hgo : forall seen1 tomb1, proc_one ts (out, seen, tomb) (k, r) = (out, seen1, tomb1) ->
    let '(pos', seen', tomb', o) := scan_entries ts l (S pos) seen1 tomb1 in
    match o with
    | None => fold_left (proc_one ts) ((k, r) :: l) (out, seen, tomb) = (out, seen', tomb')
    | Some e => exists l1 l2, (k, r) :: l = l1 ++ e :: l2 /\ pos' = (pos + length l1 + 1)%nat /\
        fold_left (proc_one ts) (l1 ++ [e]) (out, seen, tomb) = (out ++ [e], seen', tomb')
    end).
  { intros seen1 tomb1 E1. specialize (IH (S pos) seen1 tomb1).
    destruct (scan_entries ts l (S pos) seen1 tomb1) as [[[pos' seen'] tomb'] [e|]].
    - destruct IH as (l1 & l2 & -> & -> & Ef). exists ((k, r) :: l1), l2.
      cbn [app length fold_left]. rewrite E1. split_and!; [done|lia|done].
    - cbn [fold_left]. by rewrite E1. }
  unfold proc_one in Hgo. cbn [fst snd] in Hgo. fold (deleted_at ts r).
  destruct (decide (ts < created_ts r)); [by apply Hgo|].
  destruct (deleted_at ts r) eqn:Hd; [by apply Hgo|].
  destruct (decide (k ∈ tomb)); [by apply Hgo|]. destruct (decide (k ∈ seen)); [by apply Hgo|].
  exists [], l. simpl. split_and!; [done|lia|].
  rewrite decide_False by done. rewrite Hd. by rewrite !decide_False by done.
Qed.

Record iter_inv (it : ChainForwardIterator Dec I) E (Ms : list (list entry)) (out : list entry) : Prop := {
  ii_state : proc (it_read_ts it) E = (out, it_seen it, it_tombstoned it);
  ii_scanned : forall e, e ∈ take (it_pos it) (it_current it) -> e ∈ E;
  ii_rest : Forall2 (gen_map (it_shard it) (it_start it) (it_end it)) (it_rest it) Ms;
}.

(** Everything the iterator will have yielded. *)
Definition eventually (it : ChainForwardIterator Dec I) E (Ms : list (list entry)) : list entry :=
  (proc (it_read_ts it) (E ++ drop (it_pos it) (it_current it) ++
                         concat (map (in_range (it_start it) (it_end it)) Ms))).1.1.

Lemma proc_app ts E l : proc ts (E ++ l) = fold_left (proc_one ts) l (proc ts E).
Proof. unfold proc. by rewrite fold_left_app. Qed.

Lemma next_spec fuel it E Ms out :
  iter_inv it E Ms out -> (length (it_rest it) < fuel)%nat ->
  exists it' o, iter_next_fuel hash now fuel it = Some (it', o) /\
    match o with
    | None => eventually it E Ms = out
    | Some e => exists E' Ms', iter_inv it' E' Ms' (out ++ [e]) /\ eventually it' E' Ms' = eventually it E Ms
    end.
Proof.
  revert it E Ms out; induction fuel as [|fuel IH]; intros it E Ms out [Hst Hsc Hre] Hf; [lia|].
  cbn [iter_next_fuel].
  set (l := drop (it_pos it) (it_current it)) in *. set (ts := it_read_ts it) in *.
  pose proof (scan_spec ts l (it_pos it) out (it_seen it) (it_tombstoned it)) as Hscan.
  destruct (scan_entries ts l (it_pos it) (it_seen it) (it_tombstoned it)) as [[[pos seen] tomb] [e|]].
  - destruct Hscan as (l1 & l2 & El & -> & Ef). eexists _, (Some e). split; [done|].
    exists (E ++ l1 ++ [e]), Ms.
    assert (Ecur : it_current it = take (it_pos it) (it_current it) ++ l1 ++ [e] ++ l2).
    { rewrite <- (take_drop (it_pos it) (it_current it)) at 1. f_equal. fold l. by rewrite El. }
    assert (Hp : (it_pos it <= length (it_current it))%nat).
    { destruct (decide (it_pos it <= length (it_current it))%nat); [done|]. exfalso.
      assert (l = []) as Hl by (apply drop_ge; lia). rewrite Hl in El. by destruct l1. }
    assert (Etake : take (it_pos it + length l1 + 1) (it_current it) =
      take (it_pos it) (it_current it) ++ l1 ++ [e]).
    { rewrite Ecur at 1. rewrite (app_assoc l1), (app_assoc (take _ _)). rewrite take_app_le.
      - apply take_ge. rewrite !length_app, length_take. simpl. lia.
      - rewrite !length_app, length_take. simpl. lia. }
    assert (Edrop : drop (it_pos it + length l1 + 1) (it_current it) = l2).
    { apply (app_inv_head (take (it_pos it + length l1 + 1) (it_current it))).
      rewrite take_drop, Etake, <- !app_assoc. exact Ecur. }
    split.
    + split; cbn [it_read_ts it_seen it_tombstoned it_pos it_current it_rest it_shard it_start it_end];
        [|intros x|done].
      * rewrite proc_app, Hst. exact Ef.
      * rewrite Etake. intros [Hx|Hx]%elem_of_app; apply elem_of_app; [left; by apply Hsc|by right].
    + unfold eventually. cbn [it_read_ts it_pos it_current it_start it_end]. rewrite Edrop. fold l. rewrite El.
      by rewrite <- !app_assoc.
  - destruct (load_next_spec (it_shard it) (it_start it) (it_end it) (it_rest it) Ms (it_current it) pos Hre)
      as (rest' & Ms1 & Ms2 & cur' & pos' & El & -> & H2 & Hle & Hcase). rewrite El.
    assert (Hst1 : proc ts (E ++ l) = (out, seen, tomb)) by (by rewrite proc_app, Hst).
    assert (Hall : forall e, e ∈ it_current it -> e ∈ E ++ l).
    { intros e He. rewrite <- (take_drop (it_pos it) (it_current it)) in He. rewrite elem_of_app in *.
      destruct He as [He|He]; [left; by apply Hsc|by right]. }
    destruct Hcase as [(-> & -> & Hnil)|(Hne & -> & Hlt & Hcase)].
    + simpl. eexists _, None. split; [done|]. unfold eventually. fold ts l. rewrite Hnil, app_nil_r, Hst1. done.
    + rewrite bool_decide_false by (by destruct cur').
      set (it' := mkIter _ _ _ _ _ _ _ _ _).
      assert (Hinv : iter_inv it' (E ++ l) Ms2 out).
      { split; simpl; [done| |done]. intros e He. by apply not_elem_of_nil in He. }
      destruct (IH it' (E ++ l) Ms2 out Hinv) as (it2 & o & En & Ho); [simpl; lia|].
      exists it2, o. split; [done|].
      assert (Heq : eventually it' (E ++ l) Ms2 = eventually it E (Ms1 ++ Ms2)).
      { unfold eventually. cbn [it_read_ts it_pos it_current it_start it_end it']. fold ts l.
        rewrite drop_0, map_app, concat_app. destruct Hcase as [->|[-> ->]]; [by rewrite <- !app_assoc|].
        simpl. rewrite !app_assoc, (proc_app ts (_ ++ it_current it)), proc_repeat by done.
        by rewrite <- (proc_app ts (E ++ l)). }
      destruct o; [|congruence]. destruct Ho as (E' & Ms' & Hi & He). exists E', Ms'. split; [done|congruence].
Qed.


Lemma proc_prefix ts l s : exists x, (fold_left (proc_one ts) l s).1.1 = s.1.1 ++ x.
Proof.
  revert s; induction l as [|e l IH]; intros s; simpl; [exists []; by rewrite app_nil_r|].
  destruct (IH (proc_one ts s e)) as (x & ->). destruct s as [[out seen] tomb]. unfold proc_one.
  repeat case_decide; try (by exists x); destruct (deleted_at ts e.2); try (by exists x).
  simpl. exists (e :: x). by rewrite <- app_assoc.
Qed.

Lemma eventually_prefix it E Ms out : iter_inv it E Ms out -> exists x, eventually it E Ms = out ++ x.
Proof.
  intros [Hst _ _]. unfold eventually. rewrite proc_app, Hst.
  apply (proc_prefix (it_read_ts it) _ (out, it_seen it, it_tombstoned it)).
Qed.

Lemma drain_spec fuel it E Ms out :
  iter_inv it E Ms out -> (length (eventually it E Ms) < length out + fuel)%nat ->
  exists rest, drain hash now fuel it = Some rest /\ eventually it E Ms = out ++ rest.
Proof.
  revert it E Ms out; induction fuel as [|fuel IH]; intros it E Ms out Hinv Hf.
  { destruct (eventually_prefix it E Ms out Hinv) as (x & Hx). rewrite Hx, length_app in Hf. lia. }
  cbn [drain]. unfold iter_next.
  destruct (next_spec (S (length (it_rest it))) it E Ms out Hinv ltac:(lia)) as (it' & o & En & Ho).
  rewrite En. destruct o as [e|].
  - destruct Ho as (E' & Ms' & Hinv' & He).
    destruct (IH it' E' Ms' (out ++ [e]) Hinv') as (rest & Ed & Er).
    { rewrite He, length_app. simpl. lia. }
    rewrite Ed. exists (e :: rest). split; [done|]. by rewrite <- He, Er, <- app_assoc.
  - exists []. by rewrite app_nil_r.
Qed.

(** The first version in a sorted map is the map's record. *)
Lemma first_version_map ts k start stop m l :
  BMap.sorted m ->
  first_version ts k (in_range start stop m ++ l) =
    match BMap.get k m with
    | Some r => if BMap.in_bounds start stop (k, r) && bool_decide (created_ts r <= ts)
                then Some (k, r) else first_version ts k l
    | None => first_version ts k l
    end.
Proof.
  intros Hs. unfold first_version. rewrite find_app.
  assert (Hfind : List.find (fun e => bool_decide (e.1 = k) && bool_decide (created_ts e.2 <= ts))
      (in_range start stop m) =
    match BMap.get k m with
    | Some r => if BMap.in_bounds start stop (k, r) && bool_decide (created_ts r <= ts) then Some (k, r) else None
    | None => None
    end).
  { destruct (List.find _ (in_range start stop m)) as [[j r]|] eqn:Ef.
    - apply find_some in Ef as [Hin Hc]. apply filter_In in Hin as [Hin Hb].
      rewrite andb_true_iff, !bool_decide_eq_true in Hc. simpl in Hc. destruct Hc as [-> Hc].
      apply list_elem_of_In, (BMap.get_elem _ _ _ Hs) in Hin. rewrite Hin, Hb.
      by rewrite bool_decide_true by done.
    - destruct (BMap.get k m) as [r|] eqn:Eg; [|done].
      destruct (BMap.in_bounds start stop (k, r)) eqn:Hb; [|done]. case_bool_decide as Hc; [|done]. exfalso.
      assert (Hin : In (k, r) (in_range start stop m)).
      { apply filter_In. split; [|done]. by apply list_elem_of_In, (BMap.get_elem _ _ _ Hs). }
      apply (find_none _ _ Ef) in Hin. simpl in Hin. by rewrite !bool_decide_true in Hin. }
  rewrite Hfind. destruct (BMap.get k m) as [r|]; [|done]. by destruct (_ && _).
Qed.

Lemma yielded_chain ts k start stop Ms :
  Forall BMap.sorted Ms ->
  yielded ts k (concat (map (in_range start stop) Ms)) =
    if bytes_le start k && bytes_lt k stop then chain_get ts k Ms else None.
Proof.
  unfold yielded. induction 1 as [|m Ms Hs _ IH]; [simpl; by destruct (_ && _)|].
  cbn [map concat chain_get]. rewrite first_version_map by done.
  destruct (BMap.get k m) as [r|]; [|exact IH]. unfold BMap.in_bounds. cbn [fst].
  destruct (bytes_le start k && bytes_lt k stop) eqn:Hb; [|exact IH]. cbn [andb].
  case_bool_decide as Hc; [|by rewrite decide_False]. rewrite decide_True by done. done.
Qed.

Lemma gen_map_sorted id start stop g M : gen_map id start stop g M -> BMap.sorted M.
Proof.
  unfold gen_map. destruct (gen_shard g id) as [sr|]; [|intros ->; apply BMap.sorted_nil].
  intros (m & Hs & _ & ->). apply sorted_prefixed. by eapply side_sorted.
Qed.

(** The entries a chain holds for a range bound what a scan can yield. *)
Lemma proc_length ts l s : (length (fold_left (proc_one ts) l s).1.1 <= length s.1.1 + length l)%nat.
Proof.
  revert s; induction l as [|e l IH]; intros s; simpl; [lia|]. etransitivity; [apply IH|].
  destruct s as [[out seen] tomb]. unfold proc_one.
  repeat case_decide; destruct (deleted_at ts e.2); simpl; rewrite ?length_app; simpl; lia.
Qed.

(** [C6] A scan of a generation chain is exact and terminates: for generations
    whose shards stand for the maps [Ms] (newest first), the iterator neither
    panics nor runs on, and what it yields until it is exhausted has no key
    twice and is, for each key of the range, the newest record written at the
    read timestamp, unless that is a deletion. *)
Theorem chain_scan_exact id read_ts start stop chain Ms fuel :
  Forall2 (gen_map id start stop) chain Ms ->
  (length (concat (map (in_range start stop) Ms)) < fuel)%nat ->
  exists out, drain hash now fuel (iter_new chain id read_ts start stop) = Some out /\
    NoDup (map fst out) /\
    forall k r, (k, r) ∈ out <->
      bytes_le start k = true /\ bytes_lt k stop = true /\ chain_get read_ts k Ms = Some r.
Proof.
  intros H2 Hf. assert (Hinv : iter_inv (iter_new chain id read_ts start stop) [] Ms []).
  { split; simpl; [done|set_solver|done]. }
  assert (Hsorted : Forall BMap.sorted Ms).
  { clear -H2. induction H2; constructor; [by eapply gen_map_sorted|done]. }
  assert (Hev : eventually (iter_new chain id read_ts start stop) [] Ms =
    (proc read_ts (concat (map (in_range start stop) Ms))).1.1) by done.
  destruct (drain_spec fuel _ _ _ _ Hinv) as (out & Ed & Eo).
  { rewrite Hev. pose proof (proc_length read_ts (concat (map (in_range start stop) Ms)) ([], ∅, ∅)) as Hl.
    fold (proc read_ts (concat (map (in_range start stop) Ms))) in Hl. simpl in *. lia. }
  exists out. split; [done|]. rewrite Hev in Eo. simpl in Eo. subst out.
  pose proof (proc_spec read_ts (concat (map (in_range start stop) Ms))) as [Hn Ho _ _ _ _].
  split; [done|]. intros k r. rewrite Ho, yielded_chain by done.
  destruct (bytes_le start k), (bytes_lt k stop); simpl; naive_solver.
Qed.


End chain.
End ChainFacts.
