(* ===== verification/IndexGenerations.v ===== *)
(** * Facts about publishing and compacting generations

    A published delta is the newest link of the chain and overlays the maps
    before it; a compaction keeps every entry that is visible at its
    timestamp. *)

From stdpp Require Import base gmap sets list strings relations.
From Stdlib Require Import ZArith Lia.
From S2P Require Import Prelude Types Values WalTypes OrderedCodec OrderedFacts IndexManifest.
From S2P Require Import IndexManifestFacts ByteMap BufferPool BufferPoolFacts IndexChunk.
From S2P Require Import IndexChunkFacts IndexShardRuntime IndexShardFacts IndexChain.
From S2P Require Import IndexChainFacts.

Module GenFacts.
Import Codec CodecFacts Manifest ManifestFacts Chunked Shard ShardFacts Chain ChainFacts.

Section gens.
Context {Dec I : Type} `{MapStoreLaws I (IndexRecord Dec)}.
Abbreviation entry := (list Z * IndexRecord Dec)%type (only parsing).
Context (hash : Z -> list Z -> Z) (record_bytes : nat) (now : Z).
Implicit Types (rt : IndexRuntime Dec I) (g : GenerationRuntime Dec I) (m l : list entry).

(** ** Chains *)

(** Generations are under their number, and parents are older. *)
Record runtime_ok rt : Prop := {
  ro_number : forall n g, upgrade rt n = Some g -> g_generation g = n;
  ro_parent : forall n g p, upgrade rt n = Some g -> g_parent g = Some p -> p < n;
}.

Lemma chain_numbers rt n fuel g :
  runtime_ok rt -> upgrade rt n = Some g ->
  NoDup (map g_generation (chain_from fuel rt g)) /\
  (forall x, x ∈ map g_generation (chain_from fuel rt g) -> x <= n /\ is_Some (upgrade rt x)).
Proof.
  intros Hok. revert n g; induction fuel as [|fuel IH]; intros n g Hg; simpl; [split; [constructor|set_solver]|].
  pose proof (ro_number _ Hok n g Hg) as En.
  destruct (g_parent g) as [p|] eqn:Ep.
  2: { split; [apply NoDup_singleton|]. intros x Hx. apply list_elem_of_singleton in Hx as ->.
       rewrite En. split; [lia|by eauto]. }
  pose proof (ro_parent _ Hok n g p Hg Ep) as Hlt.
  destruct (upgrade rt p) as [g'|] eqn:Eg'.
  2: { split; [apply NoDup_singleton|]. intros x Hx. apply list_elem_of_singleton in Hx as ->.
       rewrite En. split; [lia|by eauto]. }
  destruct (IH p g' Eg') as [Hn Hx]. split.
  - constructor; [|done]. intros Hin. apply Hx in Hin as [Hle _]. lia.
  - intros x [->|Hin]%elem_of_cons; [rewrite En; split; [lia|by eauto]|].
    destruct (Hx x Hin). split; [lia|done].
Qed.

Lemma chain_length rt n fuel g :
  runtime_ok rt -> upgrade rt n = Some g -> (length (chain_from fuel rt g) < chain_fuel rt)%nat.
Proof.
  intros Hok Hg. destruct (chain_numbers rt n fuel g Hok Hg) as [Hn Hx].
  rewrite <- (length_map g_generation). unfold chain_fuel.
  assert (Hsub : (list_to_set (map g_generation (chain_from fuel rt g)) : gset Z) ⊆
    dom (generations rt) ∪ dom (held rt)).
  { intros x. rewrite elem_of_list_to_set, elem_of_union, !elem_of_dom. intros Hin.
    destruct (Hx x Hin) as [_ [y Hy]]. unfold upgrade in Hy.
    destruct (generations rt !! x) eqn:E; [left; by eauto|right; by eauto]. }
  apply subseteq_size in Hsub. rewrite size_list_to_set in Hsub by done.
  pose proof (size_union_alt (dom (generations rt)) (dom (held rt))) as Hu.
  assert (size (dom (generations rt) ∪ dom (held rt)) <= size (dom (generations rt)) + size (dom (held rt)))%nat.
  { rewrite Hu. assert (size (dom (held rt) ∖ dom (generations rt)) <= size (dom (held rt)))%nat; [|lia].
    apply subseteq_size. set_solver. }
  rewrite !size_dom in *. lia.
Qed.

(** More fuel than the length of the chain changes nothing. *)
Lemma chain_stable rt fuel fuel' g :
  (length (chain_from fuel rt g) < fuel)%nat -> (fuel <= fuel')%nat ->
  chain_from fuel' rt g = chain_from fuel rt g.
Proof.
  revert fuel' g; induction fuel as [|fuel IH]; intros [|fuel'] g Hl Hle; simpl in *; try lia.
  f_equal. destruct (g_parent g) as [p|]; [|done]. destruct (upgrade rt p) as [g'|]; [|done].
  apply IH; lia.
Qed.

(** A chain does not see generations above its head. *)
Lemma chain_install rt n fuel g gn :
  runtime_ok rt -> upgrade rt n = Some g -> n < g_generation gn ->
  chain_from fuel (install_generation gn rt) g = chain_from fuel rt g.
Proof.
  intros Hok. revert n g; induction fuel as [|fuel IH]; intros n g Hg Hlt; simpl; [done|].
  f_equal. destruct (g_parent g) as [p|] eqn:Ep; [|done].
  pose proof (ro_parent _ Hok n g p Hg Ep) as Hp.
  assert (Eu : upgrade (install_generation gn rt) p = upgrade rt p).
  { unfold upgrade, install_generation. simpl. by rewrite lookup_insert_ne by lia. }
  rewrite Eu. destruct (upgrade rt p) as [g'|] eqn:Eg'; [|done]. apply (IH p); [done|lia].
Qed.

Lemma newest_list mx (l : list Z) :
  match foldr (fun (x : Z) acc => if decide (x <= mx) then Some (from_option (Z.max x) x acc) else acc) None l with
  | None => forall n, n ∈ l -> mx < n
  | Some n => n ∈ l /\ n <= mx /\ forall x, x ∈ l -> x <= mx -> x <= n
  end.
Proof.
  induction l as [|x l IH]; simpl; [set_solver|].
  destruct (foldr _ None l) as [n|]; case_decide as Hx; simpl.
  - destruct IH as (Hn & Hle & Hmax). destruct (Z.max_spec x n) as [[? ->]|[? ->]]; split_and!.
    + set_solver.
    + done.
    + intros y [->|Hy]%elem_of_cons; [lia|]. by apply Hmax.
    + set_solver.
    + done.
    + intros y [->|Hy]%elem_of_cons Hy2; [lia|]. specialize (Hmax y Hy Hy2). lia.
  - destruct IH as (Hn & Hle & Hmax). split_and!; [set_solver|done|].
    intros y [->|Hy]%elem_of_cons Hy2; [lia|]. by apply Hmax.
  - split_and!; [set_solver|done|]. intros y [->|Hy]%elem_of_cons Hy2; [lia|]. specialize (IH y Hy). lia.
  - intros y [->|Hy]%elem_of_cons; [lia|]. by apply IH.
Qed.

Lemma newest_until_spec rt mx :
  match newest_until rt mx with
  | None => forall n, is_Some (generations rt !! n) -> mx < n
  | Some n => is_Some (generations rt !! n) /\ n <= mx /\
      forall x, is_Some (generations rt !! x) -> x <= mx -> x <= n
  end.
Proof.
  unfold newest_until. pose proof (newest_list mx (map_to_list (generations rt)).*1) as Hl.
  destruct (foldr _ None _) as [n|].
  - destruct Hl as (Hn & Hle & Hmax). apply elem_of_keys in Hn. split_and!; [done|done|].
    intros x Hx. apply Hmax. by apply elem_of_keys.
  - intros n Hn. apply Hl. by apply elem_of_keys.
Qed.

(** With the active generation installed and newest, the chain starts there. *)
Lemma chain_until_active rt n g :
  generations rt !! n = Some g -> (forall x, is_Some (generations rt !! x) -> x <= n) ->
  generation_chain_until rt n = Ok (chain_from (chain_fuel rt) rt g).
Proof.
  intros Hg Hmax. unfold generation_chain_until. pose proof (newest_until_spec rt n) as Hs.
  destruct (newest_until rt n) as [x|].
  - destruct Hs as (Hx & Hle & Hm). assert (x = n) as ->; [|by rewrite Hg].
    specialize (Hm n ltac:(by eauto) ltac:(lia)). lia.
  - specialize (Hs n ltac:(by eauto)). lia.
Qed.

(** ** Publishing a delta *)

Lemma shards_lookup {S : Type} (f : IndexShard -> S) ss id :
  (forall s t, s ∈ ss -> t ∈ ss -> shard_id s = shard_id t -> f s = f t) ->
  forall s, s ∈ ss -> shard_id s = id ->
  fold_left (fun (sh : gmap Z S) s => <[shard_id s := f s]> sh) ss ∅ !! id = Some (f s).
Proof.
  intros Hf s Hs Hid. assert (Hgen : forall acc : gmap Z S,
    (acc !! id = Some (f s) \/ s ∈ ss) ->
    fold_left (fun (sh : gmap Z S) s => <[shard_id s := f s]> sh) ss acc !! id = Some (f s)).
  { assert (Hall : forall t, t ∈ ss -> shard_id t = id -> f t = f s).
    { intros t Ht E. apply Hf; [done|done|congruence]. }
    clear Hf Hs. induction ss as [|t ss IH]; intros acc Hor; simpl; [by destruct Hor; [|set_solver]|].
    apply IH; [intros u Hu; apply Hall; by right|].
    destruct (decide (shard_id t = id)) as [E|E].
    - left. rewrite E, lookup_insert_eq. f_equal. apply Hall; [by left|done].
    - destruct Hor as [Ha|Ha]; [left; by rewrite lookup_insert_ne|].
      apply elem_of_cons in Ha as [->|Ha]; [done|by right]. }
  apply Hgen. by right.
Qed.

(** Keys under a prefix, stripped of it. *)
Lemma strip_keys_prefixed pre m : BMap.sorted m -> strip_keys pre (map (prefixed pre) m) = m.
Proof.
  intros Hs. assert (E : map (fun e : entry => (drop (length pre) e.1, e.2)) (map (prefixed pre) m) = m).
  { clear Hs. induction m as [|[k r] m IH]; simpl; [done|]. by rewrite drop_app_length, IH. }
  unfold strip_keys. destruct pre as [|b pre].
  - clear. induction m as [|[k r] m IH]; simpl; [done|]. by f_equal.
  - rewrite E. by apply extend_nil.
Qed.

Lemma prefixed_shard_side fpre rpre mf mr :
  BMap.sorted mf -> store_fits mf -> BMap.sorted mr -> store_fits mr ->
  let sr := prefixed_shard hash now fpre rpre (map (prefixed fpre) mf, map (prefixed rpre) mr) in
  side (base_forward sr) (delta_forward sr) mf /\ side (base_reverse sr) (delta_reverse sr) mr /\
  forward_prefix sr = fpre /\ reverse_prefix sr = rpre /\ delta_forward sr = [].
Proof.
  intros Hs Hf Hs' Hf'. simpl. rewrite !strip_keys_prefixed by done. split_and!; [| |done|done|done].
  - exists mf. split_and!; [by apply store_build_rep|done|apply BMap.sorted_nil|done].
  - exists mr. split_and!; [by apply store_build_rep|done|apply BMap.sorted_nil|done].
Qed.

(** The shards of a generation that is built for the next manifest. *)
Lemma delta_shard_lookup cur next fpre rpre delta parent ts s :
  next_manifest cur = Ok next -> s ∈ shards cur ->
  g_shards (empty_with_maps hash now next fpre rpre delta parent ts) !! shard_id s =
    Some (prefixed_shard hash now fpre rpre (default ([], []) (delta !! shard_id s))).
Proof.
  intros En Hs. unfold next_manifest, Manifest.new in En. destruct (validate _); [|done].
  injection En as <-. unfold empty_with_maps. cbn [g_shards shards].
  apply (shards_lookup (fun s => prefixed_shard hash now fpre rpre (default ([], []) (delta !! shard_id s)))
    _ (shard_id s) ltac:(intros ? ? _ _ E; simpl; by rewrite E)
    (mkShard (shard_id s) (lower s) (upper s) true)); [|done].
  by apply (list_elem_of_fmap_2 (fun s => mkShard (shard_id s) (lower s) (upper s) true)).
Qed.

(** [C24] A published delta overlays the chain.  When the active generation is
    installed and newest and generations are numbered upwards from their
    parents, publishing a delta that succeeds makes a generation the head of the
    chain, whose tail is the chain as it was.  In every shard of the manifest the
    new generation holds exactly the delta's two maps, or empty ones where the
    delta has none, provided they carry the index's prefixes, are sorted and fit
    the store; and a scan with bounds made for the prefix sees the forward map
    as that generation's. *)
Theorem publish_delta_overlays fpre rpre delta write_ts rt cat rt' cat' g0 :
  runtime_ok rt -> generations rt !! gen_of (active cat) = Some g0 ->
  (forall x, is_Some (generations rt !! x) -> x <= gen_of (active cat)) ->
  publish_delta_generation hash now fpre rpre delta write_ts rt cat = (rt', cat', Ok tt) ->
  exists g chain, generation_chain_until rt (gen_of (active cat)) = Ok chain /\
    generation_chain_until rt' (gen_of (active cat')) = Ok (g :: chain) /\
    forall s mf mr, s ∈ shards (c_manifest (active cat)) ->
      default ([], []) (delta !! shard_id s) = (map (prefixed fpre) mf, map (prefixed rpre) mr) ->
      BMap.sorted mf -> store_fits mf -> BMap.sorted mr -> store_fits mr ->
      (exists sr, gen_shard g (shard_id s) = Some sr /\
         side (base_forward sr) (delta_forward sr) mf /\
         side (base_reverse sr) (delta_reverse sr) mr /\
         forward_prefix sr = fpre /\ reverse_prefix sr = rpre) /\
      (forall start stop, bounds_for fpre ([] : list entry) start stop ->
         gen_map (shard_id s) start stop g (map (prefixed fpre) mf)).
Proof.
  intros Hok Hg0 Hmax Hpub. unfold publish_delta_generation in Hpub.
  destruct (next_manifest (c_manifest (active cat))) as [next|] eqn:En; [|done].
  unfold Manifest.publish in Hpub. destruct (negb (validate next)); [done|]. case_decide; [done|].
  case_decide as Hgen; [done|]. injection Hpub as <- <-.
  set (gn := empty_with_maps _ _ _ _ _ _ _ _) in *.
  assert (Hnum : g_generation gn = generation next) by done.
  assert (Hact : gen_of (active (release (mkCatalog (mkCounted next 1) (retired cat ++ [active cat])
    (wrap_u64 (published cat + 1)) (reclaimed_files cat)) (generation next))) = generation next).
  { unfold release. simpl. by rewrite decide_True. }
  assert (Hnone : generations rt !! generation next = None).
  { destruct (generations rt !! generation next) eqn:E; [|done].
    specialize (Hmax (generation next) ltac:(by rewrite E)). lia. }
  exists gn, (chain_from (chain_fuel rt) rt g0). split; [by apply chain_until_active|].
  assert (Hup : upgrade rt (gen_of (active cat)) = Some g0) by (unfold upgrade; by rewrite Hg0).
  split.
  - rewrite Hact. rewrite (chain_until_active _ (generation next) gn).
    + unfold chain_fuel at 1. cbn [chain_from]. change (g_parent gn) with (active_parent rt (c_manifest (active cat))).
      unfold active_parent. fold (gen_of (active cat)). rewrite Hg0. do 2 f_equal.
      assert (Eu : upgrade (install_generation gn rt) (gen_of (active cat)) = Some g0).
      { unfold upgrade, install_generation. simpl. rewrite lookup_insert_ne by lia. by rewrite Hg0. }
      rewrite Eu. rewrite (chain_install rt (gen_of (active cat))) by (done || lia).
      apply chain_stable; [by eapply chain_length|]. unfold chain_fuel. simpl.
      rewrite map_size_insert_None by done. lia.
    + simpl. by rewrite lookup_insert_eq.
    + intros x [y Hy]. simpl in Hy. destruct (decide (x = generation next)) as [->|Hne]; [lia|].
      rewrite lookup_insert_ne in Hy by done. specialize (Hmax x ltac:(by eauto)). lia.
  - intros s mf mr Hs Hd Hsf Hff Hsr Hfr.
    destruct (prefixed_shard_side fpre rpre mf mr Hsf Hff Hsr Hfr) as (Sf & Sr & Pf & Pr & Hdel).
    unfold gen_map, gen_shard, gn.
    rewrite (delta_shard_lookup _ next fpre rpre delta _ _ s En Hs), Hd.
    split; [by eexists|]. intros start stop Hb. exists mf. rewrite Pf, Hdel. rewrite Hdel in Sf. done.
Qed.

(** ** Compaction *)

(** The map of a generation for a shard. *)
Definition gen_full (id : Z) g (M : list entry) : Prop :=
  match gen_shard g id with
  | None => M = []
  | Some sr => exists m, side (base_forward sr) (delta_forward sr) m /\
      M = map (prefixed (forward_prefix sr)) m
  end.

(** The first record of a key that is visible, in maps newest first. *)
Fixpoint first_visible (ts : Z) (k : list Z) (Ms : list (list entry)) : option (IndexRecord Dec) :=
  match Ms with
  | [] => None
  | M :: Ms' =>
      match BMap.get k M with
      | Some r => if is_visible_at r ts then Some r else first_visible ts k Ms'
      | None => first_visible ts k Ms'
      end
  end.

Lemma is_visible_split (r : IndexRecord Dec) ts :
  is_visible_at r ts = bool_decide (created_ts r <= ts) && negb (deleted_at ts r).
Proof.
  unfold is_visible_at, deleted_at. f_equal. destruct (deleted_ts r) as [d|]; [|done]. simpl.
  repeat case_bool_decide; simpl; try done; lia.
Qed.

Lemma chain_get_visible ts k Ms r : chain_get ts k Ms = Some r -> first_visible ts k Ms = Some r.
Proof.
  induction Ms as [|M Ms IH]; simpl; [done|]. destruct (BMap.get k M) as [r'|]; [|done].
  rewrite is_visible_split. case_decide as Hc.
  - rewrite bool_decide_true by done. by destruct (deleted_at ts r').
  - by rewrite bool_decide_false by done.
Qed.

Lemma merge_visible_sorted ts m l : BMap.sorted m -> BMap.sorted (merge_visible ts m l).
Proof.
  unfold merge_visible. revert m; induction l as [|e l IH]; intros m Hs; simpl; [done|]. apply IH.
  destruct (is_visible_at e.2 ts); [by apply BMap.sorted_or_insert|done].
Qed.

Lemma get_merge_visible ts k m l :
  BMap.sorted m -> BMap.sorted l ->
  BMap.get k (merge_visible ts m l) =
    match BMap.get k m with
    | Some r => Some r
    | None => match BMap.get k l with Some r => if is_visible_at r ts then Some r else None | None => None end
    end.
Proof.
  unfold merge_visible. revert m; induction l as [|[j r] l IH]; intros m Hm Hl.
  { simpl. by destruct (BMap.get k m). }
  apply BMap.sorted_cons in Hl as [Hl Hlt]. cbn [fold_left fst snd]. rewrite IH; [|by destruct (is_visible_at r ts); [apply BMap.sorted_or_insert|]|done].
  assert (Hj : BMap.get k ((j, r) :: l) = if decide (j = k) then Some r else BMap.get k l).
  { simpl. destruct (bytes_cmp k j) eqn:E.
    - apply bytes_cmp_eq in E as ->. by rewrite decide_True.
    - rewrite decide_False by (intros ->; by rewrite bytes_cmp_refl in E). symmetry. apply BMap.get_below.
      eapply Forall_impl; [exact Hlt|]. intros b Hb. by apply (BMap.cmp_lt_trans k j).
    - by rewrite decide_False by (intros ->; by rewrite bytes_cmp_refl in E). }
  assert (Hjl : BMap.get j l = None) by by apply BMap.get_below.
  rewrite Hj. destruct (is_visible_at r ts) eqn:Ev.
  - rewrite BMap.get_or_insert by done. destruct (BMap.get k m); [done|].
    destruct (decide (j = k)) as [<-|]; [by rewrite Ev|done].
  - destruct (BMap.get k m); [done|]. destruct (decide (j = k)) as [<-|]; [by rewrite Hjl, Ev|done].
Qed.

Lemma snapshot_side_map sr m :
  side (base_forward sr) (delta_forward sr) m ->
  (sr_snapshot now sr).1 = map (prefixed (forward_prefix sr)) m.
Proof.
  intros Hs. pose proof (side_sorted _ _ _ Hs) as Hm. destruct Hs as (b & Hr & Hb & Hd & ->).
  simpl. unfold snapshot_side. rewrite (proj1 (store_snapshot_rep now _ b Hb Hr)).
  apply extend_nil. by apply sorted_prefixed.
Qed.

Lemma get_compact ts k chain id Ms :
  Forall2 (gen_full id) chain Ms ->
  BMap.get k (compact_shard now ts chain id).1 = first_visible ts k Ms.
Proof.
  intros H2. unfold compact_shard.
  assert (Hgen : forall f rv, BMap.sorted f ->
    BMap.get k (fold_left (fun '(f, r) g => match gen_shard g id with
      | None => (f, r)
      | Some sr => let '(sf, sr') := sr_snapshot now sr in (merge_visible ts f sf, merge_visible ts r sr')
      end) chain (f, rv)).1 =
    match BMap.get k f with Some r => Some r | None => first_visible ts k Ms end).
  { induction H2 as [|g M chain Ms Hg _ IH]; intros f rv Hf; cbn [fold_left first_visible].
    { simpl. by destruct (BMap.get k f). }
    unfold gen_full in Hg. destruct (gen_shard g id) as [sr|]; [|subst M; by apply IH].
    destruct Hg as (m & Hs & ->). pose proof (snapshot_side_map sr m Hs) as Esnap.
    destruct (sr_snapshot now sr) as [sf sr']. simpl in Esnap. subst sf.
    assert (Hsm : BMap.sorted (map (prefixed (forward_prefix sr)) m))
      by (apply sorted_prefixed; by eapply side_sorted).
    rewrite IH by by apply merge_visible_sorted. rewrite get_merge_visible by done.
    destruct (BMap.get k f); [done|]. destruct (BMap.get k (map _ m)) as [r|]; [|done].
    by destruct (is_visible_at r ts). }
  rewrite Hgen by apply BMap.sorted_nil. done.
Qed.

(** A compaction keeps what is visible: the map it builds for a shard has
    every entry that a reader at the compaction's timestamp sees in the chain,
    with the same record; for a key without deletions in the chain it has
    nothing else. *)
Theorem compaction_keeps_visible ts k chain id Ms :
  Forall2 (gen_full id) chain Ms ->
  (forall r, chain_get ts k Ms = Some r -> BMap.get k (compact_shard now ts chain id).1 = Some r) /\
  ((forall M r, M ∈ Ms -> BMap.get k M = Some r -> deleted_ts r = None) ->
   BMap.get k (compact_shard now ts chain id).1 = chain_get ts k Ms).
Proof.
  intros H2. rewrite (get_compact ts k chain id Ms H2). split; [apply chain_get_visible|].
  clear H2. induction Ms as [|M Ms IH]; intros Hlive; simpl; [done|].
  assert (Hl' : forall M' r, M' ∈ Ms -> BMap.get k M' = Some r -> deleted_ts r = None).
  { intros M' r HM. apply Hlive. by right. }
  specialize (IH Hl'). destruct (BMap.get k M) as [r|] eqn:E; [|done].
  rewrite is_visible_split. unfold deleted_at. rewrite (Hlive M r ltac:(by left) E), andb_true_r.
  case_decide; [by rewrite bool_decide_true|by rewrite bool_decide_false].
Qed.


End gens.
End GenFacts.
