(* ===== verification/IndexCursor.v ===== *)
(** * Index cursors

    [VertexIndexCursor] of [linkrs-storage/src/index/vertex_index_manager.rs] and
    [EdgeIndexCursor] of [index/edge_index_manager.rs]: batches of rows over one
    chain iterator for each shard range, with the offset, the limit, the
    projection and the filters of a scan plan.

    The two cursors run the same loop; they differ in how the entity of an entry
    is found and which of its vertices the partition tests, which are parameters
    here and given for both.  A [Value] that stands for a whole vertex does not
    come out of a key, so that arm of the conversion is left out. *)

From stdpp Require Import base gmap sets list strings.
From Stdlib Require Import ZArith Lia.
From S2P Require Import Prelude Types Values WalTypes OrderedCodec OrderedFacts IndexKeys.
From S2P Require Import IndexManifest ByteMap IndexChunk IndexShardRuntime IndexChain.

Module Cursor.
Import Codec Manifest Chunked Shard Chain.

(** [VertexId::try_from_string]. *)
Definition try_from_string (s : list Z) : option VertexId :=
  if decide (VERTEX_ID_MAX_SIZE < length s)%nat then None
  else Some (mkVertexId (pad_payload s) (Z.of_nat (length s))
               (kind_as_u8 (if decide (length s = 0%nat) then KEmpty else KText))).

(** [str::parse::<i64>] and [str::parse::<u32>]: an optional sign (only [+] for
    the unsigned type), digits, and the range of the type. *)
Definition parse_integer (signed : bool) (lo hi : Z) (text : list Z) : option Z :=
  let '(neg, ds) :=
    match text with
    | 45 :: r => if signed then (true, r) else (false, text)
    | 43 :: r => (false, r)
    | _ => (false, text)
    end in
  if decide (ds = []) then None
  else if forallb is_digit ds then
    let n := if (neg : bool) then - digits_value ds else digits_value ds in
    if decide (lo <= n <= hi) then Some n else None
  else None.

Definition parse_i64 : list Z -> option Z := parse_integer true (- 2 ^ 63) (2 ^ 63 - 1).
Definition parse_u32 : list Z -> option Z := parse_integer false 0 (2 ^ 32 - 1).

Definition ok_vid {E} (r : result VertexId E) : option VertexId :=
  match r with Ok v => Some v | Err _ => None end.

Section conversions.
Context {Dec : Type} {decimal : Decimal Dec}.

Definition value_to_vertex_id (v : Value Dec) : option VertexId :=
  match v with
  | VBigInt id | VInt id => ok_vid (try_from_int64 id)
  | VString s =>
      match parse_i64 s with
      | Some id => ok_vid (try_from_int64 id)
      | None => try_from_string s
      end
  | _ => None
  end.

(** The values are those decoded from keys, among which there is no vertex. *)
Definition vertex_id_to_entity_ref (v : Value Dec) : option EntityRef :=
  option_map ERVertex (value_to_vertex_id v).

(** [try_vertex_id_to_i64]. *)
Definition try_vertex_id_to_i64 (v : VertexId) : option Z :=
  let bytes := as_bytes v in
  if decide (length bytes = 8%nat) then Some (as_signed 64 (from_be_bytes bytes)) else None.

(** The entity of a key, for the entries that do not carry it. *)
Inductive EntityResult := Found (e : EntityRef) | Malformed | Stale | KeyPanic.

Definition vertex_entity (key : list Z) : EntityResult :=
  match IndexKey.parse_vertex_id_from_key (Dec := Dec) key with
  | Err IndexKey.KPanic => KeyPanic
  | Err _ => Malformed
  | Ok v => match vertex_id_to_entity_ref v with Some e => Found e | None => Stale end
  end.

(** [parse_edge_entity_ref]. *)
Definition edge_entity (key : list Z) : EntityResult :=
  match IndexKey.parse_edge_identity_from_key (Dec := Dec) key with
  | Err IndexKey.KPanic => KeyPanic
  | Err _ => Malformed
  | Ok (src, dst, edge_type, ranking) =>
      match value_to_vertex_id src, value_to_vertex_id dst with
      | Some s, Some d => Found (EREdge s d (default 0 (parse_u32 edge_type)) ranking)
      | _, _ => Malformed
      end
  end.

(** The vertex that a partition tests. *)
Definition vertex_of_vertex (e : EntityRef) : option VertexId :=
  match e with ERVertex v => Some v | _ => None end.

Definition source_of_edge (e : EntityRef) : option VertexId :=
  match e with EREdge s _ _ _ => Some s | _ => None end.

End conversions.

Section cursor.
Context {Dec I : Type} `{MapStore I (IndexRecord Dec)}.
Abbreviation entry := (list Z * IndexRecord Dec)%type (only parsing).

Variable hash : Z -> list Z -> Z.
Variable now : Z.
(** The entity of a key, and the vertex of an entity that a partition tests. *)
Variable entity_of_key : list Z -> EntityResult.
Variable partition_vertex : EntityRef -> option VertexId.

Inductive IndexRow :=
| RowId (e : EntityRef)
| Covering (e : EntityRef) (columns : list (list Z * Value Dec)).

Record IndexCursor := mkCursor {
  vc_done : nat;
  vc_iterators : list (ChainForwardIterator Dec I);
  vc_exhausted : bool;
  vc_offset : nat;
  vc_limit : option nat;
  vc_emitted : nat;
  vc_projection : option (list (list Z));
  vc_malformed : Z;
  vc_stale : Z;
  vc_checker : option (EntityRef -> bool);
  vc_partition : option (Z * Z);
}.

(** [new]: [vc_iterators] are the iterators from [current_range] on, and
    [vc_done] is [current_range]. *)
Definition cursor_new (iterators : list (ChainForwardIterator Dec I)) (offset : nat) (limit : option nat)
    (projection : option (list (list Z))) (checker : option (EntityRef -> bool))
    (partition : option (Z * Z)) : IndexCursor :=
  mkCursor 0 iterators false offset limit 0 projection 0 0 checker partition.

(** [project_vertex_row] and [project_edge_row]. *)
Definition project_row (e : EntityRef) (included : option (list (list Z * Value Dec)))
    (projection : option (list (list Z))) : IndexRow :=
  match projection with
  | None => RowId e
  | Some names =>
      let columns := default [] included in
      let has name := existsb (fun c => bool_decide (c.1 = name)) columns in
      if negb (bool_decide (length names = 0%nat)) && negb (forallb has names) then RowId e
      else Covering e (omap (fun name => List.find (fun c => bool_decide (c.1 = name)) columns) names)
  end.

(** What the loop makes of an entry, up to the offset. *)
Inductive Outcome := OMalformed | OStale | OOutside | OPanic | ORow (r : IndexRow).

Definition classify (projection : option (list (list Z))) (checker : option (EntityRef -> bool))
    (partition : option (Z * Z)) (e : entry) : Outcome :=
  match (match entity_ref e.2 with Some er => Found er | None => entity_of_key e.1 end) with
  | Malformed => OMalformed
  | Stale => OStale
  | KeyPanic => OPanic
  | Found er =>
      if match checker with Some f => negb (f er) | None => false end then OStale
      else
        let row := ORow (project_row er (included_columns e.2) projection) in
        match partition with
        | None => row
        | Some (lo, hi) =>
            match partition_vertex er with
            | None => OOutside
            | Some v =>
                match try_vertex_id_to_i64 v with
                | None => row
                | Some n => if bool_decide (n < lo) || bool_decide (hi <= n) then OOutside else row
                end
            end
        end
  end.

Definition set_iterators (done : nat) (its : list (ChainForwardIterator Dec I)) (c : IndexCursor) : IndexCursor :=
  mkCursor done its (vc_exhausted c) (vc_offset c) (vc_limit c) (vc_emitted c) (vc_projection c)
    (vc_malformed c) (vc_stale c) (vc_checker c) (vc_partition c).

Definition count_malformed (c : IndexCursor) : IndexCursor :=
  mkCursor (vc_done c) (vc_iterators c) (vc_exhausted c) (vc_offset c) (vc_limit c) (vc_emitted c)
    (vc_projection c) (vc_malformed c + 1) (vc_stale c) (vc_checker c) (vc_partition c).

Definition count_stale (c : IndexCursor) : IndexCursor :=
  mkCursor (vc_done c) (vc_iterators c) (vc_exhausted c) (vc_offset c) (vc_limit c) (vc_emitted c)
    (vc_projection c) (vc_malformed c) (vc_stale c + 1) (vc_checker c) (vc_partition c).

Definition skip_offset (c : IndexCursor) : IndexCursor :=
  mkCursor (vc_done c) (vc_iterators c) (vc_exhausted c) (pred (vc_offset c)) (vc_limit c) (vc_emitted c)
    (vc_projection c) (vc_malformed c) (vc_stale c) (vc_checker c) (vc_partition c).

Definition emit (c : IndexCursor) : IndexCursor :=
  mkCursor (vc_done c) (vc_iterators c) (vc_exhausted c) (vc_offset c) (vc_limit c) (S (vc_emitted c))
    (vc_projection c) (vc_malformed c) (vc_stale c) (vc_checker c) (vc_partition c).

Definition set_exhausted (b : bool) (c : IndexCursor) : IndexCursor :=
  mkCursor (vc_done c) (vc_iterators c) b (vc_offset c) (vc_limit c) (vc_emitted c)
    (vc_projection c) (vc_malformed c) (vc_stale c) (vc_checker c) (vc_partition c).

(** The loop of [next_batch]; [room] is what the batch still takes.  [None] is a
    panic, or the lack of fuel: a round takes an entry or closes a range. *)
Fixpoint batch_loop (fuel room : nat) (c : IndexCursor) : option (IndexCursor * list IndexRow) :=
  match fuel with
  | O => None
  | S fuel =>
      match vc_iterators c, room with
      | [], _ | _, O => Some (c, [])
      | it :: rest, S room' =>
          match iter_next hash now it with
          | None => None
          | Some (_, None) => batch_loop fuel room (set_iterators (S (vc_done c)) rest c)
          | Some (it', Some e) =>
              let c := set_iterators (vc_done c) (it' :: rest) c in
              match classify (vc_projection c) (vc_checker c) (vc_partition c) e with
              | OPanic => None
              | OMalformed => batch_loop fuel room (count_malformed c)
              | OStale => batch_loop fuel room (count_stale c)
              | OOutside => batch_loop fuel room c
              | ORow row =>
                  if decide (0 < vc_offset c)%nat then batch_loop fuel room (skip_offset c)
                  else
                    let c := emit c in
                    if match vc_limit c with Some n => bool_decide (n <= vc_emitted c)%nat | None => false end
                    then Some (if bool_decide (length rest = 0%nat) then set_exhausted true c else c, [row])
                    else
                      match batch_loop fuel room' c with
                      | None => None
                      | Some (c', rows) => Some (c', row :: rows)
                      end
              end
          end
      end
  end.

Definition next_batch (fuel batch_size : nat) (c : IndexCursor) : option (IndexCursor * list IndexRow) :=
  if vc_exhausted c || bool_decide (vc_done c + length (vc_iterators c) = 0)%nat then
    Some (set_exhausted true c, [])
  else
    match batch_loop fuel (Nat.max batch_size 1) c with
    | None => None
    | Some (c', rows) =>
        Some (set_exhausted (vc_exhausted c' || bool_decide (length (vc_iterators c') = 0%nat)) c', rows)
    end.

(** [stale_skipped]; no entry is counted as invisible. *)
Definition stale_skipped (c : IndexCursor) : Z := vc_malformed c + vc_stale c.

End cursor.
Arguments IndexRow : clear implicits.
Arguments IndexCursor : clear implicits.

End Cursor.
