(* ===== verification/IndexCursorFacts.v ===== *)
(** * Facts about index cursors

    Batches cut the stream of rows without loss: the rows that pass the filters,
    after the offset, in the order of the ranges. *)

From stdpp Require Import base gmap sets list strings.
From Stdlib Require Import ZArith Lia.
From S2P Require Import Prelude Types Values WalTypes OrderedCodec OrderedFacts IndexKeys.
From S2P Require Import IndexManifest ByteMap IndexChunk IndexShardRuntime IndexChain IndexCursor.

Module CursorFacts.
Import Codec Manifest Chunked Shard Chain Cursor.

Section cursor.
Context {Dec I : Type} `{MapStore I (IndexRecord Dec)}.
Abbreviation entry := (list Z * IndexRecord Dec)%type (only parsing).
Context (hash : Z -> list Z -> Z) (now : Z).
Context (entity_of_key : list Z -> EntityResult) (partition_vertex : EntityRef -> option VertexId).
Implicit Types (c : IndexCursor Dec I) (it : ChainForwardIterator Dec I) (l : list entry).

(** What an iterator yields until it is exhausted. *)
Definition yields it l : Prop := exists fuel, drain hash now fuel it = Some l.

Lemma yields_next it l :
  yields it l ->
  match l with
  | [] => exists it', iter_next hash now it = Some (it', None)
  | e :: l' => exists it', iter_next hash now it = Some (it', Some e) /\ yields it' l'
  end.
Proof.
  intros [[|fuel] Hd]; [done|]. cbn [drain] in Hd.
  destruct (iter_next hash now it) as [[it' [e|]]|]; [| |done].
  - destruct (drain hash now fuel it') as [l'|] eqn:E; [|done]. simpl in Hd. injection Hd as <-.
    exists it'. split; [done|]. by exists fuel.
  - injection Hd as <-. by exists it'.
Qed.

(** The rows of a stream that pass the filters. *)
Definition rows_of c l : list (IndexRow Dec) :=
  omap (fun e => match classify entity_of_key partition_vertex (vc_projection c) (vc_checker c)
                         (vc_partition c) e with ORow r => Some r | _ => None end) l.

Definition no_panic c l : Prop := Forall (fun e => 
  classify entity_of_key partition_vertex (vc_projection c) (vc_checker c) (vc_partition c) e <> OPanic) l.

(** A cursor whose iterators have the streams [ls] to yield. *)
Definition streams c (ls : list (list entry)) : Prop :=
  Forall2 yields (vc_iterators c) ls /\ no_panic c (concat ls).

Definition pending c (ls : list (list entry)) : list (IndexRow Dec) :=
  drop (vc_offset c) (rows_of c (concat ls)).

(** The part of a cursor that a batch does not change. *)
Definition same_plan c c' : Prop :=
  vc_limit c' = vc_limit c /\ vc_projection c' = vc_projection c /\ vc_checker c' = vc_checker c /\
  vc_partition c' = vc_partition c /\ vc_exhausted c' = vc_exhausted c.

Lemma same_plan_trans a b c : same_plan a b -> same_plan b c -> same_plan a c.
Proof. unfold same_plan. naive_solver congruence. Qed.

Abbreviation batch_loop := (batch_loop hash now entity_of_key partition_vertex).
Abbreviation next_batch := (next_batch hash now entity_of_key partition_vertex).

Definition work (ls : list (list entry)) : nat := length (concat ls) + length ls.

(** The result of a batch: the next rows, and the rest still to come. *)
Definition batch_result room c ls (o : option (IndexCursor Dec I * list (IndexRow Dec))) : Prop :=
  exists c' ls', o = Some (c', take room (pending c ls)) /\ streams c' ls' /\
    pending c' ls' = drop room (pending c ls) /\ same_plan c c' /\ (work ls' <= work ls)%nat /\
    (vc_done c' + length (vc_iterators c') = vc_done c + length (vc_iterators c))%nat /\
    (vc_iterators c' = [] -> pending c' ls' = []) /\
    ((length (pending c ls) < room)%nat -> vc_iterators c' = []).

Lemma batch_step room c c1 ls ls1 o :
  batch_result room c1 ls1 o -> pending c1 ls1 = pending c ls -> same_plan c c1 -> (work ls1 <= work ls)%nat ->
  (vc_done c1 + length (vc_iterators c1) = vc_done c + length (vc_iterators c))%nat ->
  batch_result room c ls o.
Proof.
  intros (c' & ls' & E & Hs & Hp & Hsame & Hw & Hd & He & Hl) Hpe Hpl Hwe Hde. exists c', ls'.
  rewrite Hpe in *. split_and!; try done; [by eapply same_plan_trans|lia|lia].
Qed.

Lemma batch_loop_spec fuel room c ls :
  streams c ls -> vc_limit c = None -> (work ls < fuel)%nat -> batch_result room c ls (batch_loop fuel room c).
Proof.
  revert room c ls; induction fuel as [|fuel IH]; intros room c ls [H2 Hnp] Hlim Hf; [lia|].
  cbn [Cursor.batch_loop]. destruct (vc_iterators c) as [|it its] eqn:Eit.
  { apply Forall2_nil_inv_l in H2 as ->. exists c, []. unfold pending, rows_of. simpl.
    rewrite drop_nil, take_nil, drop_nil. split_and!; try done.
    split; [rewrite Eit; constructor|done]. }
  apply Forall2_cons_inv_l in H2 as (l & ls' & Hy & H2 & ->).
  destruct room as [|room'].
  { exists c, (l :: ls'). split_and!; try done; [split; [rewrite Eit; by constructor|done]|by rewrite Eit|lia]. }
  apply yields_next in Hy. destruct l as [|e l].
  { destruct Hy as (it' & ->). eapply batch_step; [apply (IH (S room') _ ls')|..]; try done.
    - unfold work in *. simpl in *. lia.
    - unfold work. simpl. lia.
    - simpl. rewrite Eit. simpl. lia. }
  destruct Hy as (it' & -> & Hy). set (c1 := set_iterators (vc_done c) (it' :: its) c).
  assert (Hnp1 : no_panic c (concat (l :: ls'))) by (by apply Forall_cons in Hnp as [_ ?]).
  assert (Hst : Forall2 yields (it' :: its) (l :: ls')) by by constructor.
  assert (Hcl : classify entity_of_key partition_vertex (vc_projection c) (vc_checker c) (vc_partition c) e <> OPanic)
    by (by apply Forall_cons in Hnp as [? _]).
  assert (Hw : (work (l :: ls') < fuel)%nat) by (unfold work in *; simpl in *; lia).
  assert (Hw' : (work (l :: ls') <= work ((e :: l) :: ls'))%nat) by (unfold work; simpl; lia).
  assert (Hd : (vc_done c + length (it' :: its) = vc_done c + length (vc_iterators c))%nat) by (by rewrite Eit).
  cbn [vc_projection vc_checker vc_partition c1 set_iterators].
  destruct (classify _ _ _ _ _ e) as [| | | |row] eqn:Ec; [| | |done|].
  1-3: (eapply batch_step; [apply (IH (S room') _ (l :: ls'))|..]; try done;
    unfold pending, rows_of; simpl; by rewrite Ec).
  cbn [vc_offset c1 set_iterators]. case_decide as Ho.
  { eapply batch_step; [apply (IH (S room') _ (l :: ls'))|..]; try done.
    unfold pending, rows_of. simpl. rewrite Ec. simpl.
    destruct (vc_offset c); [lia|]. done. }
  cbn [vc_limit emit c1 set_iterators]. rewrite Hlim.
  destruct (IH room' (emit c1) (l :: ls')) as (c' & ls2 & E & Hs & Hp & Hsame & Hw2 & Hd2 & He & Hl); try done.
  fold c1. rewrite E. exists c', ls2.
  assert (Hpend : pending c ((e :: l) :: ls') = row :: pending (emit c1) (l :: ls')).
  { unfold pending, rows_of. simpl. rewrite Ec. by replace (vc_offset c) with 0%nat by lia. }
  rewrite Hpend. cbn [take drop length].
  split_and!; [done|done|done|exact Hsame|lia|simpl in *; rewrite Eit; simpl; lia|done|].
  intros Hlt. apply Hl. lia.
Qed.

(** Batches lose nothing: a cursor without a limit whose iterators yield
    the streams [ls] does not panic; a batch is the next rows that pass the
    filters, after the offset and in the order of the ranges, up to the batch
    size (one if it is zero); the rows after them are still to come.  A cursor
    that reports that it is exhausted has none left, and it reports it once a
    batch is not filled. *)
Theorem cursor_batch_exact fuel batch_size c ls :
  streams c ls -> vc_limit c = None -> vc_exhausted c = false -> (work ls < fuel)%nat ->
  exists c' ls', next_batch fuel batch_size c =
      Some (c', take (Nat.max batch_size 1) (pending c ls)) /\
    streams c' ls' /\ pending c' ls' = drop (Nat.max batch_size 1) (pending c ls) /\
    (vc_exhausted c' = true -> pending c' ls' = []) /\
    ((length (pending c ls) < Nat.max batch_size 1)%nat -> vc_exhausted c' = true).
Proof.
  intros Hst Hlim Hex Hf. unfold Cursor.next_batch. rewrite Hex. cbn [orb].
  case_bool_decide as Hz.
  - destruct Hst as [H2 Hnp]. destruct (vc_iterators c) eqn:Eit; [|simpl in Hz; lia].
    apply Forall2_nil_inv_l in H2 as ->. exists (set_exhausted true c), [].
    unfold pending, rows_of. simpl. rewrite drop_nil, take_nil, drop_nil.
    split_and!; try done. split; [simpl; rewrite Eit; constructor|done].
  - destruct (batch_loop_spec fuel (Nat.max batch_size 1) c ls Hst Hlim Hf)
      as (c' & ls' & E & Hs & Hp & Hsame & Hw & Hd & He & Hl). rewrite E.
    destruct Hsame as (_ & _ & _ & _ & Hex'). rewrite Hex', Hex. cbn [orb].
    exists (set_exhausted (bool_decide (length (vc_iterators c') = 0%nat)) c'), ls'.
    split_and!; [done|done|done| |].
    + intros Hb. simpl in Hb. apply bool_decide_eq_true in Hb. apply (He (nil_length_inv _ Hb)).
    + intros Hlt. simpl. by rewrite (Hl Hlt).
Qed.

End cursor.
End CursorFacts.
