(* ===== verification/IndexFiles.v ===== *)
(** * The files of an index shard

    [linkrs-storage/src/index/entity_ref_codec.rs], [index/wal.rs] and
    [index/chunk/serialize.rs]: the bytes of the log of a shard, of a chunk file
    and of the list of chunks, and the checkpoint directory of a chunked index.

    A reader takes bytes from the front of what is left of a file; [read_exact]
    fails at the end of the file.  A writer returns the bytes it wrote also when
    it fails half way: the buffered writer of the log flushes what it has when
    it is dropped.  [crc32fast], the layout size of a record and
    [Value::estimated_size] are parameters. *)

From stdpp Require Import base gmap sets list strings.
From Stdlib Require Import ZArith Lia.
From S2P Require Import Prelude Types Values WalTypes OrderedCodec IndexManifest ByteMap BufferPool.
From S2P Require Import IndexChunk IndexShardRuntime.

Declare Scope reader_scope.

Module IxFiles.
Import Codec Chunked Shard.

(** ** Readers and writers *)

(** The kinds of [io::Error] that matter. *)
Inductive IoError := UnexpectedEof | InvalidData.

Definition reader (A : Type) : Type := list Z -> result (A * list Z) IoError.

Definition r_ret {A} (a : A) : reader A := fun l => Ok (a, l).

Definition r_fail {A} (e : IoError) : reader A := fun _ => Err e.

Definition r_bind {A B} (p : reader A) (f : A -> reader B) : reader B := fun l =>
  match p l with
  | Err e => Err e
  | Ok (a, r) => f a r
  end.

Notation "'read!' x ':=' p 'in' q" := (r_bind p (fun x => q))
  (at level 10, x pattern, p at level 100, q at level 200) : reader_scope.
#[local] Open Scope reader_scope.

Definition read_exact (n : nat) : reader (list Z) := fun l =>
  if decide (length l < n)%nat then Err UnexpectedEof else Ok (take n l, drop n l).

(** [uN::from_le_bytes] of the next [n] bytes. *)
Definition read_uint (n : nat) : reader Z := read! l := read_exact n in r_ret (of_le_bytes l).

(** A length of [n] bytes and that many bytes. *)
Definition read_sized (n : nat) : reader (list Z) :=
  read! len := read_uint n in read_exact (Z.to_nat len).

Definition write_sized (n : nat) (l : list Z) : list Z := le_bytes n (Z.of_nat (length l)) ++ l.
Arguments write_sized : simpl never.
Arguments read_uint : simpl never.

(** ** Entity references *)

Definition write_vertex_id (v : VertexId) : list Z :=
  let bytes := as_bytes v in
  let len := Nat.min (length bytes) 255 in
  [kind_as_u8 (vid_kind_of v)] ++ [Z.of_nat len] ++ take len bytes.

Definition read_vertex_id : reader VertexId :=
  read! k := read_uint 1 in
  match kind_from_u8 k with
  | None => r_fail InvalidData
  | Some kind =>
      read! bytes := read_sized 1 in
      match from_typed_bytes kind bytes with
      | Ok v => r_ret v
      | Err _ => r_fail InvalidData
      end
  end.

Definition write_entity_ref (e : option EntityRef) : list Z :=
  match e with
  | None => [0]
  | Some (ERVertex v) => [1] ++ write_vertex_id v
  | Some (EREdge src dst edge_type ranking) =>
      [2] ++ write_vertex_id src ++ write_vertex_id dst ++ le_bytes 4 edge_type ++
        le_bytes 8 (as_unsigned 64 ranking)
  end.

Definition read_entity_ref : reader (option EntityRef) :=
  read! tag := read_uint 1 in
  match tag with
  | 0 => r_ret None
  | 1 => read! v := read_vertex_id in r_ret (Some (ERVertex v))
  | 2 =>
      read! src := read_vertex_id in
      read! dst := read_vertex_id in
      read! edge_type := read_uint 4 in
      read! ranking := read_uint 8 in
      r_ret (Some (EREdge src dst edge_type (as_signed 64 ranking)))
  | _ => r_fail InvalidData
  end.

Section files.
Context {Dec : Type} `{Decimal Dec}.
Abbreviation entry := (list Z * IndexRecord Dec)%type (only parsing).

(** ** Records *)

(** What was written, and the error that stopped it. *)
Abbreviation writing := (list Z * option IoError)%type.

(** The one after the other, unless the first fails. *)
Definition w_then (a b : writing) : writing :=
  match a.2 with
  | Some _ => a
  | None => (a.1 ++ b.1, b.2)
  end.

Fixpoint write_columns (cols : list (list Z * Value Dec)) : writing :=
  match cols with
  | [] => ([], None)
  | (name, value) :: r =>
      match encode value with
      | Err _ => (write_sized 4 name, Some InvalidData)
      | Ok x => w_then (write_sized 4 name ++ write_sized 4 x, None) (write_columns r)
      end
  end.

(** The part of a record after its key. *)
Definition write_record (r : IndexRecord Dec) : writing :=
  let cols := default [] (included_columns r) in
  let fixed := le_bytes 8 (created_ts r) ++
    match deleted_ts r with Some d => [1] ++ le_bytes 8 d | None => [0] end ++
    le_bytes 4 (Z.of_nat (length cols)) in
  w_then (fixed, None) (w_then (write_columns cols) (write_entity_ref (entity_ref r), None)).

Fixpoint read_columns (n : nat) : reader (list (list Z * Value Dec)) :=
  match n with
  | O => r_ret []
  | S n =>
      read! name := read_sized 4 in
      if utf8_valid name then
        read! x := read_sized 4 in
        match decode x with
        | Err _ => r_fail InvalidData
        | Ok value => read! r := read_columns n in r_ret ((name, value) :: r)
        end
      else r_fail InvalidData
  end.

Definition read_record : reader (IndexRecord Dec) :=
  read! created := read_uint 8 in
  read! has_deleted := read_uint 1 in
  read! deleted := (if decide (has_deleted = 1) then read! d := read_uint 8 in r_ret (Some d)
                    else r_ret None) in
  read! num_included := read_uint 4 in
  read! cols := read_columns (Z.to_nat num_included) in
  read! e := read_entity_ref in
  r_ret (mkRecord created deleted (Some cols) e).

(** ** The log *)

Definition WAL_MAGIC : list Z := [73; 78; 68; 87].

Definition serialize_into (e : WalEntry Dec) : writing :=
  match e with
  | WInsert is_forward key r =>
      w_then ([1] ++ [bool_as_u8 is_forward] ++ write_sized 4 key, None) (write_record r)
  | WMarkDeleted is_forward key ts =>
      ([2] ++ [bool_as_u8 is_forward] ++ write_sized 4 key ++ le_bytes 8 ts, None)
  end.

(** After the tag. *)
Definition read_entry_body (tag : Z) : reader (WalEntry Dec) :=
  read! dir := read_uint 1 in
  let is_forward := negb (bool_decide (dir = 0)) in
  read! key := read_sized 4 in
  match tag with
  | 1 => read! r := read_record in r_ret (WInsert is_forward key r)
  | 2 => read! ts := read_uint 8 in r_ret (WMarkDeleted is_forward key ts)
  | _ => r_fail InvalidData
  end.

(** [deserialize_from]: nothing at the end of the file. *)
Definition deserialize_from (l : list Z) : result (option (WalEntry Dec * list Z)) IoError :=
  match read_uint 1 l with
  | Err _ => Ok None
  | Ok (tag, r) =>
      match read_entry_body tag r with
      | Err e => Err e
      | Ok x => Ok (Some x)
      end
  end.

Fixpoint serialize_all (es : list (WalEntry Dec)) : writing :=
  match es with
  | [] => ([], None)
  | e :: r => w_then (serialize_into e) (serialize_all r)
  end.

(** [append_wal_entries] on a file that may not exist, when the file system
    does not fail. *)
Definition append_wal_entries (file : option (list Z)) (es : list (WalEntry Dec))
  : option (list Z) * option IoError :=
  match es with
  | [] => (file, None)
  | _ =>
      let '(out, err) := serialize_all es in
      (Some (match file with None => WAL_MAGIC ++ out | Some f => f ++ out end), err)
  end.

(** The loop of [read_wal_entries]; an entry takes a byte at least. *)
Fixpoint read_loop (fuel : nat) (l : list Z) : result (list (WalEntry Dec)) IoError :=
  match fuel with
  | O => Ok []
  | S fuel =>
      match deserialize_from l with
      | Ok (Some (e, r)) =>
          match read_loop fuel r with
          | Ok es => Ok (e :: es)
          | Err err => Err err
          end
      | Ok None => Ok []
      | Err UnexpectedEof => Ok []
      | Err err => Err err
      end
  end.

Definition read_wal_entries (file : option (list Z)) : result (list (WalEntry Dec)) IoError :=
  match file with
  | None => Ok []
  | Some f =>
      match read_exact 4 f with
      | Err e => Err e
      | Ok (magic, r) =>
          if decide (magic = WAL_MAGIC) then read_loop (S (length r)) r else Err InvalidData
      end
  end.

Definition truncate_wal (file : option (list Z)) : option (list Z) := None.

(** ** Chunk files *)

Definition CHUNK_MAGIC : list Z := [67; 72; 78; 75].
Definition CHUNK_VERSION : Z := 2.
Definition CHIX_MAGIC : list Z := [67; 72; 73; 88].
Definition CHIX_VERSION : Z := 1.

Variable crc32 : list Z -> Z.
Variable record_bytes : nat.
Variable value_size : Value Dec -> nat.

Fixpoint write_entries (es : list entry) : writing :=
  match es with
  | [] => ([], None)
  | (key, r) :: es => w_then (write_sized 4 key, None) (w_then (write_record r) (write_entries es))
  end.

Definition serialize_chunk_raw (c : Chunk Dec) : writing :=
  w_then (CHUNK_MAGIC ++ le_bytes 4 CHUNK_VERSION ++ le_bytes 4 (ch_id c) ++
          le_bytes 4 (Z.of_nat (length (entries c))), None) (write_entries (entries c)).

Definition serialize_chunk (c : Chunk Dec) : writing :=
  let raw := serialize_chunk_raw c in
  w_then raw (le_bytes 4 (crc32 raw.1), None).

Fixpoint read_entries (n : nat) : reader (list entry) :=
  match n with
  | O => r_ret []
  | S n =>
      read! key := read_sized 4 in
      read! r := read_record in
      read! es := read_entries n in
      r_ret ((key, r) :: es)
  end.

Definition check (b : bool) : reader unit := if b then r_ret tt else r_fail InvalidData.

Definition read_chunk_body : reader (Z * list entry) :=
  read! magic := read_exact 4 in
  read! _ := check (bool_decide (magic = CHUNK_MAGIC)) in
  read! version := read_uint 4 in
  read! _ := check (bool_decide (version = CHUNK_VERSION)) in
  read! id := read_uint 4 in
  read! count := read_uint 4 in
  read! es := read_entries (Z.to_nat count) in
  r_ret (id, es).

(** [deserialize_chunk]: the checksum covers every byte read before it. *)
Definition deserialize_chunk : reader (Chunk Dec) := fun l =>
  match read_chunk_body l with
  | Err e => Err e
  | Ok ((id, es), r) =>
      let computed := crc32 (take (length l - length r) l) in
      (read! stored := read_uint 4 in
       read! _ := check (bool_decide (stored = computed)) in
       r_ret (chunk_new record_bytes value_size id es)) r
  end.

(** ** The list of chunks *)

Fixpoint write_descs (descs : list (Z * list Z * list Z)) (offsets : list (Z * Z * Z)) : list Z :=
  match descs with
  | [] => []
  | (id, lo, hi) :: r =>
      let '(offset, size) := match offsets with (_, o, s) :: _ => (o, s) | [] => (0, 0) end in
      le_bytes 4 id ++ write_sized 2 lo ++ write_sized 2 hi ++ le_bytes 8 offset ++ le_bytes 4 size ++
        write_descs r (tail offsets)
  end.

Definition serialize_chunk_index (descs : list (Z * list Z * list Z)) (offsets : list (Z * Z * Z))
  : list Z :=
  CHIX_MAGIC ++ le_bytes 4 CHIX_VERSION ++ le_bytes 4 (Z.of_nat (length descs)) ++
    write_descs descs offsets.

Fixpoint read_descs (n : nat) : reader (list (Z * list Z * list Z)) :=
  match n with
  | O => r_ret []
  | S n =>
      read! id := read_uint 4 in
      read! lo := read_sized 2 in
      read! hi := read_sized 2 in
      read! _ := read_exact 8 in
      read! _ := read_exact 4 in
      read! r := read_descs n in
      r_ret ((id, lo, hi) :: r)
  end.

Definition deserialize_chunk_index : reader (list (Z * list Z * list Z)) :=
  read! magic := read_exact 4 in
  read! _ := check (bool_decide (magic = CHIX_MAGIC)) in
  read! version := read_uint 4 in
  read! _ := check (bool_decide (version = CHIX_VERSION)) in
  read! count := read_uint 4 in
  read_descs (Z.to_nat count).

(** ** The checkpoint directory *)

Record ChunkDir := mkDir {
  dir_chunks : gmap Z (list Z);
  dir_index : option (list Z);
  dir_prefix : option (list Z);
}.

(** One file written. *)
Inductive DirWrite := WriteChunk (id : Z) (b : list Z) | WriteIndex (b : list Z) | WritePrefix (b : list Z).

Definition apply_write (d : ChunkDir) (w : DirWrite) : ChunkDir :=
  match w with
  | WriteChunk id b => mkDir (<[id := b]> (dir_chunks d)) (dir_index d) (dir_prefix d)
  | WriteIndex b => mkDir (dir_chunks d) (Some b) (dir_prefix d)
  | WritePrefix b => mkDir (dir_chunks d) (dir_index d) (Some b)
  end.

Variable num_shards : nat.
Variable shard_for : nat -> Z -> nat.

(** The loop over the descriptors: the chunks that are in the pool are written;
    the pool, the writes, the places, and the error that stops it. *)
Fixpoint write_chunks (now : Z) (descs : list (Z * list Z * list Z)) (offset : Z)
    (p : Pool.BufferPool Z (Chunk Dec))
  : Pool.BufferPool Z (Chunk Dec) * list DirWrite * list (Z * Z * Z) * option IoError :=
  match descs with
  | [] => (p, [], [], None)
  | (id, _, _) :: r =>
      match Pool.get shard_for now p id with
      | (p1, None) => write_chunks now r offset p1
      | (p1, Some cached) =>
          match serialize_chunk (Pool.item cached) with
          | (_, Some e) => (p1, [], [], Some e)
          | (b, None) =>
              let size := Z.of_nat (length b) mod 2 ^ 32 in
              let '(p2, ws, offs, err) := write_chunks now r (offset + size) p1 in
              (p2, WriteChunk id b :: ws, (id, offset, size) :: offs, err)
          end
      end
  end.

(** [write_chunked_index_checkpoint]: the index with its pool, and the files in
    the order in which they are written. *)
Definition write_chunked_index_checkpoint (now : Z) (idx : ChunkedIndex Dec)
  : ChunkedIndex Dec * list DirWrite * option IoError :=
  let '(p, ws, offs, err) := write_chunks now (chunks idx) 0 (pool idx) in
  (with_pool p idx,
   match err with
   | Some _ => ws
   | None => ws ++ [WriteIndex (serialize_chunk_index (chunks idx) offs); WritePrefix (prefix idx)]
   end, err).

(** The loader of a directory. *)
Definition make_chunk_loader (d : ChunkDir) (id : Z) : option (Chunk Dec * Z) :=
  match dir_chunks d !! id with
  | None => None
  | Some b =>
      match deserialize_chunk b with
      | Ok (c, _) => Some (c, estimated_size c)
      | Err _ => None
      end
  end.

(** [read_chunked_index_checkpoint_lazy]: the directory stays as it is while the
    index reads chunks from it. *)
Definition read_chunked_index_checkpoint_lazy (d : ChunkDir) (pool_capacity : Z)
  : result (option (ChunkedIndex Dec)) IoError :=
  match dir_index d, dir_prefix d with
  | Some b, Some pre =>
      match deserialize_chunk_index b with
      | Err e => Err e
      | Ok (descs, _) =>
          Ok (Some (mkIndex pre descs
                (Pool.set_loader (make_chunk_loader d) (Pool.new num_shards pool_capacity))))
      end
  | _, _ => Ok None
  end.

End files.
End IxFiles.
