(* ===== verification/IndexFilesFacts.v ===== *)
(** * Facts about the files of an index shard

    What a reader makes of the bytes a writer produced, and of a part of them:
    records, log entries and chunk files read back as themselves, and a file that
    ends early is told from one that is malformed.  A checkpoint that was written
    completely reloads lazily, whatever the capacity of the pool. *)

From stdpp Require Import base gmap sets list strings.
From Stdlib Require Import ZArith Lia.
From S2P Require Import Prelude Types Values WalTypes OrderedCodec OrderedFacts OrderedDecimal.
From S2P Require Import OrderedValues IndexManifest ByteMap BufferPool BufferPoolFacts IndexChunk.
From S2P Require Import IndexChunkFacts IndexShardRuntime IndexFiles.

Module IxFilesFacts.
Import Codec CodecFacts DecimalFacts CodecSpec Chunked ChunkFacts Shard IxFiles.

(** ** Readers on written bytes *)

(** [p] reads [v] from the bytes [x], whatever follows them, and reports the end
    of the file on less than these. *)
Record reads {A} (p : reader A) (x : list Z) (v : A) : Prop := {
  reads_all : forall r, p (x ++ r) = Ok (v, r);
  reads_cut : forall n, (n < length x)%nat -> p (take n x) = Err UnexpectedEof;
}.

Lemma reads_ret {A} (v : A) : reads (r_ret v) [] v.
Proof. split; [done|]. simpl. lia. Qed.

Lemma reads_bind {A B} (p : reader A) (f : A -> reader B) x y v w :
  reads p x v -> reads (f v) y w -> reads (r_bind p f) (x ++ y) w.
Proof.
  intros [Ha Hc] [Ha' Hc']. unfold r_bind. split.
  - intros r. by rewrite <- app_assoc, Ha.
  - intros n Hn. rewrite length_app in Hn. destruct (decide (n < length x)%nat).
    + by rewrite take_app_le, Hc by lia.
    + rewrite take_app_ge by lia. rewrite Ha. apply Hc'. lia.
Qed.

(** A last step that reads nothing. *)
Lemma reads_map {A B} (p : reader A) (f : A -> reader B) x v w :
  reads p x v -> reads (f v) [] w -> reads (r_bind p f) x w.
Proof. intros Hp Hf. rewrite <- (app_nil_r x). by eapply reads_bind. Qed.

Lemma reads_exact x : reads (read_exact (length x)) x x.
Proof.
  unfold read_exact. split.
  - intros r. rewrite decide_False by (rewrite length_app; lia).
    by rewrite take_app_length, drop_app_length.
  - intros n Hn. rewrite decide_True; [done|]. rewrite length_take. lia.
Qed.

Lemma reads_uint n z : 0 <= z < 256 ^ Z.of_nat n -> reads (read_uint n) (le_bytes n z) z.
Proof.
  intros Hz. unfold read_uint. pose proof (reads_exact (le_bytes n z)) as Hr.
  rewrite length_le_bytes in Hr. eapply reads_map; [exact Hr|]. rewrite of_le_bytes_le by done.
  apply reads_ret.
Qed.

Lemma reads_byte z : 0 <= z < 256 -> reads (read_uint 1) [z] z.
Proof.
  intros Hz. replace [z] with (le_bytes 1 z); [by apply reads_uint|].
  unfold le_bytes. simpl. by rewrite Z.mod_small.
Qed.

Definition fits (n : nat) (l : list Z) : Prop := Z.of_nat (length l) < 256 ^ Z.of_nat n.

Lemma reads_sized n l : fits n l -> reads (read_sized n) (write_sized n l) l.
Proof.
  intros Hl. unfold read_sized, write_sized. eapply reads_bind; [apply reads_uint; unfold fits in Hl; lia|].
  rewrite Nat2Z.id. apply reads_exact.
Qed.

Lemma reads_check {A} (b : bool) (p : reader A) x v :
  b = true -> reads p x v -> reads (r_bind (check b) (fun _ => p)) x v.
Proof. intros ->. done. Qed.

Lemma reads_eq {A} (p : reader A) x y v : x = y -> reads p x v -> reads p y v.
Proof. by intros ->. Qed.

(** ** Entity references *)

Lemma reads_vertex_id v : valid_vid v -> reads read_vertex_id (IxFiles.write_vertex_id v) v.
Proof.
  intros Hv. pose proof (valid_vid_length v Hv) as Hl. unfold IxFiles.write_vertex_id.
  rewrite Nat.min_l by lia. rewrite (take_ge (as_bytes v)) by done. unfold read_vertex_id.
  eapply reads_bind; [apply reads_byte; by destruct (vid_kind_of v)|].
  rewrite kind_from_as_u8. cbn beta iota.
  apply (reads_eq _ (write_sized 1 (as_bytes v))).
  { unfold write_sized, le_bytes. simpl. by rewrite Z.mod_small by lia. }
  eapply reads_map; [apply reads_sized; unfold fits; change (256 ^ Z.of_nat 1) with 256; lia|].
  destruct Hv as [-> _]. apply reads_ret.
Qed.

Lemma reads_entity_ref e :
  (forall x, e = Some x -> valid_entity x) -> reads read_entity_ref (write_entity_ref e) e.
Proof.
  intros Hv. unfold read_entity_ref. destruct e as [[v|s d t k]|]; cbn [write_entity_ref].
  - apply (reads_bind _ _ [1] _ 1); [by apply reads_byte|].
    eapply reads_map; [apply reads_vertex_id, (Hv _ eq_refl)|apply reads_ret].
  - destruct (Hv _ eq_refl) as (Hs & Hd & Ht & Hk).
    apply (reads_bind _ _ [2] _ 2); [by apply reads_byte|].
    eapply reads_bind; [by apply reads_vertex_id|]. eapply reads_bind; [by apply reads_vertex_id|].
    eapply reads_bind; [apply reads_uint; change (256 ^ Z.of_nat 4) with (2 ^ 32); lia|].
    eapply reads_map; [apply reads_uint; apply Z.mod_pos_bound; lia|].
    rewrite signed_unsigned by done. apply reads_ret.
  - apply (reads_map _ _ [0] 0); [by apply reads_byte|apply reads_ret].
Qed.

Section records.
Context {Dec : Type} `{DecimalLaws Dec}.
Abbreviation entry := (list Z * IndexRecord Dec)%type (only parsing).
Implicit Types (r : IndexRecord Dec) (e : WalEntry Dec) (cols : list (list Z * Value Dec)).

(** ** Records *)

Lemma w_then_ok (a b : list Z * option IoError) x :
  w_then a b = (x, None) -> exists y z, a = (y, None) /\ b = (z, None) /\ x = y ++ z.
Proof.
  destruct a as [y [err|]], b as [z err']; unfold w_then; simpl; [done|]. intros [= <- ->]. eauto.
Qed.

(** A column the files can hold: a name and a value that has an encoding. *)
Definition valid_column (c : list Z * Value Dec) : Prop :=
  utf8_valid c.1 = true /\ fits 4 c.1 /\ valid_value c.2 /\
  exists x, encode c.2 = Ok x /\ fits 4 x.

Definition column_back (c c' : list Z * Value Dec) : Prop := c'.1 = c.1 /\ reads_back c.2 c'.2.

Definition valid_record r : Prop :=
  is_u64 (created_ts r) /\ (forall d, deleted_ts r = Some d -> is_u64 d) /\
  Forall valid_column (default [] (included_columns r)) /\
  Z.of_nat (length (default [] (included_columns r))) < 2 ^ 32 /\
  (forall x, entity_ref r = Some x -> valid_entity x).

(** [r'] is [r] read back: no columns and an empty list of columns are the same
    in a file. *)
Definition record_back r r' : Prop :=
  created_ts r' = created_ts r /\ deleted_ts r' = deleted_ts r /\ entity_ref r' = entity_ref r /\
  exists cols, included_columns r' = Some cols /\
    Forall2 column_back (default [] (included_columns r)) cols.

Lemma decode_back v x : valid_value v -> encode v = Ok x -> exists v', decode x = Ok v' /\ reads_back v v'.
Proof.
  intros Hv Hx. destruct (decode_encode_value false v x [] Hv Hx) as (v' & Hd & Hr).
  exists v'. split; [|done]. unfold decode. rewrite app_nil_r in Hd. rewrite Hd.
  by rewrite decide_False by lia.
Qed.

Lemma reads_columns cols :
  Forall valid_column cols ->
  exists x cols', write_columns cols = (x, None) /\ Forall2 column_back cols cols' /\
    reads (read_columns (length cols)) x cols'.
Proof.
  induction 1 as [|[name v] cols (Hu & Hn & Hv & x & Hx & Hf) _ IH]; simpl.
  { exists [], []. split_and!; [done|by constructor|apply reads_ret]. }
  destruct IH as (y & cols' & -> & H2 & Hr). simpl in *. rewrite Hx.
  destruct (decode_back v x Hv Hx) as (v' & Hd & Hb). 
  exists (write_sized 4 name ++ write_sized 4 x ++ y), ((name, v') :: cols').
  split_and!; [by rewrite app_assoc|by constructor|].
  eapply reads_bind; [by apply reads_sized|]. rewrite Hu.
  eapply reads_bind; [by apply reads_sized|]. rewrite Hd.
  eapply reads_map; [done|apply reads_ret].
Qed.

Lemma reads_record r :
  valid_record r ->
  exists x r', write_record r = (x, None) /\ record_back r r' /\ reads read_record x r'.
Proof.
  intros (Hc & Hd & Hcols & Hn & He). destruct (reads_columns _ Hcols) as (x & cols & Hx & H2 & Hr).
  unfold write_record. rewrite Hx. unfold w_then. cbn [fst snd].
  eexists _, (mkRecord (created_ts r) (deleted_ts r) (Some cols) (entity_ref r)). split; [reflexivity|]. split.
  { split_and!; try done. by exists cols. }
  rewrite <- !app_assoc. unfold read_record.
  assert (H8 : forall z, is_u64 z -> 0 <= z < 256 ^ Z.of_nat 8).
  { intros z. unfold is_u64, U64_MAX. change (256 ^ Z.of_nat 8) with (2 ^ 64). lia. }
  eapply reads_bind; [by apply reads_uint, H8|].
  assert (Hdel : exists b, reads (read_uint 1) [b] b /\ exists y, [b] ++ y =
      match deleted_ts r with Some d => [1] ++ le_bytes 8 d | None => [0] end /\
      reads (if decide (b = 1) then r_bind (read_uint 8) (fun d => r_ret (Some d)) else r_ret None) y
        (deleted_ts r)).
  { destruct (deleted_ts r) as [d|].
    - exists 1. split; [by apply reads_byte|]. exists (le_bytes 8 d). split; [done|]. rewrite decide_True by done.
      eapply reads_map; [by apply reads_uint, H8, Hd|apply reads_ret].
    - exists 0. split; [by apply reads_byte|]. exists []. split; [done|]. apply reads_ret. }
  destruct Hdel as (b & Hb & y & <- & Hy). rewrite <- !app_assoc.
  eapply reads_bind; [exact Hb|]. eapply reads_bind; [exact Hy|].
  eapply reads_bind; [apply reads_uint; change (256 ^ Z.of_nat 4) with (2 ^ 32); lia|].
  rewrite Nat2Z.id. eapply reads_bind; [exact Hr|].
  eapply reads_map; [by apply reads_entity_ref|apply reads_ret].
Qed.


(** ** The log *)

Definition valid_wal_entry e : Prop :=
  match e with
  | WInsert _ key r => fits 4 key /\ valid_record r
  | WMarkDeleted _ key ts => fits 4 key /\ is_u64 ts
  end.

Definition entry_back e e' : Prop :=
  match e, e' with
  | WInsert f k r, WInsert f' k' r' => f' = f /\ k' = k /\ record_back r r'
  | WMarkDeleted _ _ _, WMarkDeleted _ _ _ => e' = e
  | _, _ => False
  end.

Lemma reads_direction (b : bool) : reads (read_uint 1) [bool_as_u8 b] (bool_as_u8 b).
Proof. apply reads_byte. by destruct b. Qed.

Lemma entry_bytes e :
  valid_wal_entry e ->
  exists tag x e', serialize_into e = (tag :: x, None) /\ 0 <= tag < 256 /\ entry_back e e' /\
    reads (read_entry_body tag) x e'.
Proof.
  destruct e as [f key r|f key ts]; intros [Hk Hv].
  - destruct (reads_record r Hv) as (x & r' & Hx & Hb & Hr).
    exists 1, ([bool_as_u8 f] ++ write_sized 4 key ++ x), (WInsert f key r').
    split_and!; [|done|done|done|].
    { unfold serialize_into. rewrite Hx. unfold w_then. cbn [fst snd]. by rewrite <- !app_assoc. }
    unfold read_entry_body. eapply reads_bind; [apply reads_direction|].
    eapply reads_bind; [by apply reads_sized|]. eapply reads_map; [exact Hr|].
    destruct f; apply reads_ret.
  - exists 2, ([bool_as_u8 f] ++ write_sized 4 key ++ le_bytes 8 ts), (WMarkDeleted f key ts).
    split_and!; [done|done|done|done|].
    unfold read_entry_body. eapply reads_bind; [apply reads_direction|].
    eapply reads_bind; [by apply reads_sized|].
    eapply reads_map; [apply reads_uint|destruct f; apply reads_ret].
    unfold is_u64, U64_MAX in Hv. change (256 ^ Z.of_nat 8) with (2 ^ 64). lia.
Qed.

(** An entry is read back, and a part of it is the end of the log. *)
Lemma deserialize_entry e :
  valid_wal_entry e ->
  exists x e', serialize_into e = (x, None) /\ x <> [] /\ entry_back e e' /\
    (forall rest, deserialize_from (x ++ rest) = Ok (Some (e', rest))) /\
    (forall n, (n < length x)%nat ->
       deserialize_from (take n x) = Ok None \/
       deserialize_from (take n x) = (Err UnexpectedEof : result (option (WalEntry Dec * list Z)) IoError)).
Proof.
  intros Hv. destruct (entry_bytes e Hv) as (tag & x & e' & Hs & Ht & Hb & [Ha Hc]).
  exists (tag :: x), e'. split_and!; [done|done|done| |].
  - intros rest. unfold deserialize_from. change ((tag :: x) ++ rest) with ([tag] ++ (x ++ rest)).
    by rewrite (reads_all _ _ _ (reads_byte tag Ht)), Ha.
  - intros [|n] Hn; [by left|right]. unfold deserialize_from.
    change (take (S n) (tag :: x)) with ([tag] ++ take n x).
    rewrite (reads_all _ _ _ (reads_byte tag Ht)). rewrite Hc; [done|]. simpl in Hn. lia.
Qed.

(** The bytes of a list of entries. *)
Definition log_bytes (es : list (WalEntry Dec)) : list Z := concat (map (fun e => (serialize_into e).1) es).

Lemma serialize_all_ok es : Forall valid_wal_entry es -> serialize_all es = (log_bytes es, None).
Proof.
  induction 1 as [|e es Hv _ IH]; [done|]. destruct (deserialize_entry e Hv) as (x & e' & Hx & _).
  simpl. rewrite IH. unfold log_bytes. simpl. by rewrite Hx.
Qed.

Lemma read_loop_cut es : Forall valid_wal_entry es -> forall fuel n,
  (Nat.min n (length (log_bytes es)) < fuel)%nat ->
  exists k es', read_loop fuel (take n (log_bytes es)) = Ok es' /\ (k <= length es)%nat /\
    Forall2 entry_back (take k es) es' /\ (length (log_bytes (take k es)) <= n)%nat /\
    (k = length es \/ (n < length (log_bytes (take (S k) es)))%nat).
Proof.
  induction 1 as [|e es Hv _ IH]; intros [|fuel] n Hf; [lia| |lia|].
  { exists 0%nat, []. unfold log_bytes. simpl. rewrite take_nil.
    split_and!; [done|lia|constructor|simpl; lia|by left]. }
  destruct (deserialize_entry e Hv) as (x & e' & Hx & Hne & Hb & Ha & Hc).
  assert (Hl : forall es, log_bytes (e :: es) = x ++ log_bytes es) by (intros l; unfold log_bytes; simpl; by rewrite Hx).
  rewrite Hl in *. destruct x as [|b x']; [done|]. set (x := b :: x') in *.
  destruct (decide (n < length x)%nat) as [Hn|Hn].
  - exists 0%nat, []. rewrite take_app_le by lia.
    split_and!; [|lia|constructor|unfold log_bytes; simpl; lia|].
    + simpl. by destruct (Hc n Hn) as [-> | ->].
    + right. cbn [take]. rewrite Hl, length_app. lia.
  - rewrite take_app_ge by lia. destruct (IH fuel (n - length x)%nat) as (k & es' & E & Hk & H2 & Hle & Hmax).
    { rewrite length_app in Hf. unfold x in *. cbn [length] in *. lia. }
    exists (S k), (e' :: es'). cbn [read_loop]. rewrite Ha, E. cbn [take length].
    split_and!; [done|lia|by constructor| |].
    + rewrite Hl, length_app. lia.
    + destruct Hmax as [-> |Hmax]; [by left|right]. change (take (S (S k)) (e :: es)) with (e :: take (S k) es).
      rewrite Hl, length_app. lia.
Qed.

(** The log after any appends. *)
Lemma append_batches (batches : list (list (WalEntry Dec))) :
  Forall (Forall valid_wal_entry) batches ->
  fold_left (fun f b => (append_wal_entries f b).1) batches None =
    match concat batches with [] => None | es => Some (WAL_MAGIC ++ log_bytes es) end.
Proof.
  intros Hv. assert (Hgen : forall pre, fold_left (fun f b => (append_wal_entries f b).1) batches
      (match pre with [] => None | _ => Some (WAL_MAGIC ++ log_bytes pre) end) =
    match pre ++ concat batches with [] => None | es => Some (WAL_MAGIC ++ log_bytes es) end).
  { induction Hv as [|b batches Hb _ IH]; intros pre; cbn [fold_left concat]; [rewrite app_nil_r; by destruct pre|].
    rewrite (app_assoc pre b), <- (IH (pre ++ b)). f_equal.
    unfold append_wal_entries. rewrite (serialize_all_ok b Hb).
    assert (Hcat : log_bytes (pre ++ b) = log_bytes pre ++ log_bytes b) by (unfold log_bytes; by rewrite map_app, concat_app).
    destruct b as [|e b]; [by rewrite app_nil_r|]. destruct pre as [|e' pre]; [done|].
    cbn [fst app]. f_equal. rewrite <- app_assoc. f_equal. by rewrite <- Hcat. }
  exact (Hgen []).
Qed.

(** [C30] A torn log loses its torn entry only: the log of any appended batches, cut
    at any byte after its header, is read as the entries whose bytes are
    complete, all of them and nothing else, in order. *)
Theorem index_log_cut (batches : list (list (WalEntry Dec))) n :
  Forall (Forall valid_wal_entry) batches -> concat batches <> [] -> (4 <= n)%nat ->
  exists file k es', fold_left (fun f b => (append_wal_entries f b).1) batches None = Some file /\
    read_wal_entries (Some (take n file)) = Ok es' /\ (k <= length (concat batches))%nat /\
    Forall2 entry_back (take k (concat batches)) es' /\
    (4 + length (log_bytes (take k (concat batches))) <= n)%nat /\
    (k = length (concat batches) \/ (n < 4 + length (log_bytes (take (S k) (concat batches))))%nat).
Proof.
  intros Hv Hne Hn. rewrite append_batches by done.
  assert (Hall : Forall valid_wal_entry (concat batches)).
  { clear Hne. induction Hv as [|b bs Hb _ IH]; simpl; [constructor|]. by apply Forall_app. }
  set (es := concat batches) in *.
  destruct (read_loop_cut es Hall (S (length (take (n - 4) (log_bytes es)))) (n - 4)%nat)
    as (k & es' & E & Hk & H2 & Hle & Hmax); [rewrite length_take; lia|].
  exists (WAL_MAGIC ++ log_bytes es), k, es'. split_and!; [by destruct es| |done|done|lia|lia].
  unfold read_wal_entries. rewrite take_app_ge by done. change (length WAL_MAGIC) with 4%nat.
  pose proof (reads_all _ _ _ (reads_exact WAL_MAGIC) (take (n - 4) (log_bytes es))) as Hm.
  change (length WAL_MAGIC) with 4%nat in Hm. rewrite Hm. rewrite decide_True by done. exact E.
Qed.

(** ** Chunk files *)

Section chunks.
Context (crc32 : list Z -> Z) (record_bytes : nat) (value_size : Value Dec -> nat).
Context (crc32_u32 : forall l, 0 <= crc32 l < 2 ^ 32).
Implicit Types (c : Chunk Dec) (es : list entry).

Definition valid_entry (x : entry) : Prop := fits 4 x.1 /\ valid_record x.2.

(** An entry of a chunk read back. *)
Definition entry_reread (x x' : entry) : Prop := x'.1 = x.1 /\ record_back x.2 x'.2.

Lemma reads_entries es :
  Forall valid_entry es ->
  exists x es', write_entries es = (x, None) /\ Forall2 entry_reread es es' /\
    reads (read_entries (length es)) x es'.
Proof.
  induction 1 as [|[key r] es [Hk Hv] _ IH]; simpl.
  { exists [], []. split_and!; [done|by constructor|apply reads_ret]. }
  destruct IH as (y & es' & -> & H2 & Hr). simpl in *.
  destruct (reads_record r Hv) as (x & r' & -> & Hb & Hx).
  exists (write_sized 4 key ++ x ++ y), ((key, r') :: es').
  split_and!; [done|by constructor|].
  eapply reads_bind; [by apply reads_sized|]. eapply reads_bind; [exact Hx|].
  eapply reads_map; [exact Hr|apply reads_ret].
Qed.

Definition valid_chunk c : Prop :=
  0 <= ch_id c < 2 ^ 32 /\ Z.of_nat (length (entries c)) < 2 ^ 32 /\ Forall valid_entry (entries c).

Abbreviation serialize_chunk := (serialize_chunk crc32).
Abbreviation deserialize_chunk := (deserialize_chunk crc32 record_bytes value_size).
Abbreviation chunk_new := (chunk_new record_bytes value_size).

(** A chunk file is read back: the chunk of the entries read back. *)
Lemma chunk_file_back c :
  valid_chunk c ->
  exists b es', serialize_chunk c = (b, None) /\ Forall2 entry_reread (entries c) es' /\
    forall rest, deserialize_chunk (b ++ rest) = Ok (chunk_new (ch_id c) es', rest).
Proof.
  intros (Hid & Hn & Hes). destruct (reads_entries _ Hes) as (x & es' & Hx & H2 & Hr).
  set (hd := CHUNK_MAGIC ++ le_bytes 4 CHUNK_VERSION ++ le_bytes 4 (ch_id c) ++
             le_bytes 4 (Z.of_nat (length (entries c)))).
  assert (Hraw : serialize_chunk_raw c = (hd ++ x, None)) by (unfold serialize_chunk_raw; by rewrite Hx).
  assert (Hbody : reads read_chunk_body (hd ++ x) (ch_id c, es')).
  { unfold hd, read_chunk_body. rewrite <- !app_assoc.
    eapply reads_bind; [apply (reads_exact CHUNK_MAGIC)|]. apply reads_check; [done|].
    eapply reads_bind; [by apply reads_uint|]. apply reads_check; [done|].
    eapply reads_bind; [by apply reads_uint|].
    eapply reads_bind; [apply reads_uint; change (256 ^ Z.of_nat 4) with (2 ^ 32); lia|].
    rewrite Nat2Z.id. eapply reads_map; [exact Hr|apply reads_ret]. }
  unfold IxFiles.serialize_chunk. rewrite Hraw. cbn [fst].
  exists ((hd ++ x) ++ le_bytes 4 (crc32 (hd ++ x))), es'. split_and!; [done|done|].
  intros rest. unfold IxFiles.deserialize_chunk. rewrite <- app_assoc, (reads_all _ _ _ Hbody).
  rewrite (length_app (hd ++ x)). rewrite Nat.add_sub. rewrite take_app_length. unfold r_bind.
  rewrite (reads_all _ _ _ (reads_uint 4 _ (crc32_u32 (hd ++ x)))).
  by rewrite bool_decide_true by done.
Qed.

(** ** The list of chunks *)

Definition valid_desc (d : Z * list Z * list Z) : Prop :=
  0 <= d.1.1 < 2 ^ 32 /\ fits 2 d.1.2 /\ fits 2 d.2.

Lemma reads_skip {A} n x (p : reader A) y v :
  length x = n -> reads p y v -> reads (r_bind (read_exact n) (fun _ => p)) (x ++ y) v.
Proof. intros <- Hp. eapply reads_bind; [apply reads_exact|exact Hp]. Qed.

Lemma reads_descs descs offs :
  Forall valid_desc descs -> reads (read_descs (length descs)) (write_descs descs offs) descs.
Proof.
  intros Hv. revert offs. induction Hv as [|[[id lo] hi] descs (Hid & Hlo & Hhi) _ IH]; intros offs;
    cbn [length read_descs write_descs].
  { apply reads_ret. }
  cbn [fst snd] in *. destruct (match offs with [] => (0, 0) | (_, o, s) :: _ => (o, s) end) as [o s].
  eapply reads_bind; [by apply reads_uint|]. eapply reads_bind; [by apply reads_sized|].
  eapply reads_bind; [by apply reads_sized|]. apply reads_skip; [apply length_le_bytes|].
  apply reads_skip; [apply length_le_bytes|]. eapply reads_map; [apply IH|apply reads_ret].
Qed.

Lemma chunk_index_back descs offs rest :
  Forall valid_desc descs -> Z.of_nat (length descs) < 2 ^ 32 ->
  deserialize_chunk_index (serialize_chunk_index descs offs ++ rest) = Ok (descs, rest).
Proof.
  intros Hv Hn. apply reads_all. unfold serialize_chunk_index, deserialize_chunk_index.
  eapply reads_bind; [apply (reads_exact CHIX_MAGIC)|]. apply reads_check; [done|].
  eapply reads_bind; [by apply reads_uint|]. apply reads_check; [done|].
  eapply reads_bind; [apply reads_uint; change (256 ^ Z.of_nat 4) with (2 ^ 32); lia|].
  rewrite Nat2Z.id. by apply reads_descs.
Qed.

End chunks.


End records.
End IxFilesFacts.
