(* ===== verification/IndexReload.v ===== *)
(** * A checkpoint of an index shard reloads

    The lazily loaded pool of a reopened index: what is cached and what the
    loader returns are the chunks of the files.  A checkpoint that was written
    completely, over whatever files were in the directory, answers every range and
    snapshot after it is reopened as the map it was written from, at any capacity
    of the pool. *)

From stdpp Require Import base gmap sets list strings.
From Stdlib Require Import ZArith Lia.
From S2P Require Import Prelude Types Values WalTypes OrderedCodec OrderedFacts OrderedDecimal.
From S2P Require Import OrderedValues IndexManifest ByteMap BufferPool BufferPoolFacts IndexChunk.
From S2P Require Import IndexChunkFacts IndexShardRuntime IndexFiles IndexFilesFacts.

Module IxReload.
Import Codec CodecFacts DecimalFacts CodecSpec PoolFacts Chunked ChunkFacts Shard IxFiles IxFilesFacts.

(** ** A pool over a loader *)

Section backed.
Context {Dec : Type} (shard_for : nat -> Z -> nat).
Context (shard_for_lt : forall n k, (0 < n)%nat -> (shard_for n k < n)%nat).
Abbreviation entry := (list Z * IndexRecord Dec)%type (only parsing).
Implicit Types (p : Pool.BufferPool Z (Chunk Dec)) (cs : list (Chunk Dec)) (idx : ChunkedIndex Dec).
Abbreviation shard_of := (Pool.shard_of shard_for).

(** The loader has the chunks, and what is cached of them is what it loads. *)
Record backed p cs : Prop := {
  ba_ok : pool_ok shard_for 0 p;
  ba_ttl : Pool.ttl_nanos p = 0;
  ba_tti : Pool.tti_nanos p = 0;
  ba_load : exists load, Pool.loader p = Some load /\
    forall c, c ∈ cs -> exists sz, load (ch_id c) = Some (c, sz);
  ba_item : forall c x, c ∈ cs ->
    Pool.find_key (ch_id c) (shard_of p (ch_id c)) = Some x -> Pool.item x = c;
}.

Lemma backed_modify f k p cs :
  backed p cs -> (forall x, Pool.item (f x) = Pool.item x) ->
  (forall x : Pool.CachedItem (Chunk Dec), Pool.size (f x) = Pool.size x) ->
  backed (Pool.modify_item shard_for f k p) cs.
Proof.
  intros [Hok H1 H2 Hl Hi] Hf Hsz. split.
  - by apply modify_item_ok.
  - unfold Pool.modify_item. by destruct (Pool.find_key _ _).
  - unfold Pool.modify_item. by destruct (Pool.find_key _ _).
  - unfold Pool.modify_item. by destruct (Pool.find_key _ _).
  - intros c x Hc. unfold Pool.modify_item.
    destruct (Pool.find_key k (shard_of p k)) as [y|] eqn:Ey; [|by apply Hi].
    rewrite (find_update_insert shard_for shard_for_lt 0 p) by done. case_decide as Hk; [|by apply Hi].
    intros [= <-]. subst k. rewrite Hf. by apply Hi.
Qed.

Lemma same_id cs c d : NoDup (map ch_id cs) -> c ∈ cs -> d ∈ cs -> ch_id c = ch_id d -> c = d.
Proof.
  induction cs as [|e cs IH]; simpl; [set_solver|]. intros [He Hn]%NoDup_cons Hc Hd E.
  apply elem_of_cons in Hc as [->|Hc], Hd as [->|Hd]; [done| | |by apply IH].
  - destruct He. rewrite E. by apply (list_elem_of_fmap_2 ch_id).
  - destruct He. rewrite <- E. by apply (list_elem_of_fmap_2 ch_id).
Qed.

(** A chunk is served from the cache or from the loader, whatever the
    insertion has to evict. *)
Lemma backed_get now p cs c :
  NoDup (map ch_id cs) -> backed p cs -> c ∈ cs ->
  exists p' x, Pool.get_or_load shard_for now p (ch_id c) = (p', Some x) /\ Pool.item x = c /\ backed p' cs.
Proof.
  intros Hn Hb Hc. pose proof Hb as [Hok H1 H2 (load & El & Hload) Hi].
  unfold Pool.get_or_load, Pool.get at 1.
  destruct (Pool.find_key (ch_id c) (shard_of p (ch_id c))) as [x|] eqn:Ex.
  { unfold Pool.is_expired. rewrite H1, H2, !bool_decide_true by done.
    rewrite decide_False by auto. exists p, x. split_and!; [done|by apply Hi|done]. }
  rewrite El. destruct (Hload c Hc) as (sz & ->).
  set (q := Pool.insert shard_for now (ch_id c) c sz p).
  destruct (insert_same_setup shard_for p now (ch_id c) c sz) as (El' & _ & _ & H1' & H2'). fold q in El', H1', H2'.
  assert (Hq : backed q cs).
  { split; [by apply insert_ok|congruence|congruence|exists load; split; [congruence|done]|].
    intros d x Hd Hx. destruct (insert_back shard_for shard_for_lt p now _ c sz _ x Hok Hx) as [[E ->]|(_ & y & Hy & <-)].
    - by apply (same_id cs).
    - by apply Hi. }
  pose proof (insert_find shard_for shard_for_lt p now (ch_id c) c sz Hok) as Hfound. fold q in Hfound.
  unfold Pool.get. rewrite Hfound.
  unfold Pool.is_expired. rewrite H1', H2', H1, H2, !bool_decide_true by done.
  rewrite decide_False by auto. by eexists q, _.
Qed.

Lemma read_chunks_backed now p cs cs' :
  NoDup (map ch_id cs) -> backed p cs -> cs' ⊆ cs ->
  exists p', read_chunks shard_for now (map ch_id cs') p = (p', cs') /\ backed p' cs.
Proof.
  intros Hn. revert p; induction cs' as [|c cs' IH]; intros p Hr Hsub; simpl; [by exists p|].
  destruct (backed_get now p cs c Hn Hr) as (p1 & x & Hg & Hi & Hb1); [set_solver|]. rewrite Hg.
  set (p2 := Pool.modify_item _ _ _ _).
  assert (Hr2 : backed p2 cs) by (apply backed_modify; [by apply backed_modify|done..]).
  destruct (IH p2 Hr2) as (p' & E & Hr'); [set_solver|]. rewrite E. exists p'. by rewrite Hi.
Qed.

Context (record_bytes : nat) (value_size : Value Dec -> nat).

(** An index whose chunks are on disk. *)
Definition stands_for idx (m : list entry) : Prop := exists cs,
  chunks idx = map chunk_desc cs /\ concat (map entries cs) = m /\ NoDup (map ch_id cs) /\
  Forall (well_built record_bytes value_size) cs /\ backed (pool idx) cs.

Lemma range_stands now idx m lower upper :
  stands_for idx m -> BMap.sorted m ->
  (range shard_for now idx lower upper).2 = List.filter (within lower upper) m /\
  stands_for (range shard_for now idx lower upper).1 m.
Proof.
  intros (cs & Ec & Em & Hn & Hw & Hr) Hs. unfold Chunked.range.
  rewrite (chunks_for_range_ids idx cs) by done.
  destruct (read_chunks_backed now (pool idx) cs (selected_chunks lower upper cs) Hn Hr) as (p' & E & Hr').
  { apply selected_subset. }
  rewrite E. simpl. rewrite <- Em in *. split; [by apply (selected_entries record_bytes value_size 1 shard_for ltac:(lia) shard_for_lt)|]. by exists cs.
Qed.

Lemma snapshot_stands now idx m :
  stands_for idx m -> BMap.sorted m -> (snapshot shard_for now idx).2 = m.
Proof.
  intros (cs & Ec & Em & Hn & Hw & Hr) Hs. unfold Chunked.snapshot. rewrite Ec, map_map.
  change (map (fun x => (chunk_desc x).1.1) cs) with (map ch_id cs).
  destruct (read_chunks_backed now (pool idx) cs cs Hn Hr ltac:(done)) as (p' & E & Hr'). rewrite E. simpl.
  rewrite Em. by apply extend_sorted.
Qed.

End backed.

(** ** Writing a checkpoint *)

Section checkpoint.
Context {Dec : Type} `{DecimalLaws Dec}.
Context (crc32 : list Z -> Z) (record_bytes : nat) (value_size : Value Dec -> nat).
Context (crc32_u32 : forall l, 0 <= crc32 l < 2 ^ 32).
Context (num_shards : nat) (shard_for : nat -> Z -> nat).
Context (num_shards_pos : (0 < num_shards)%nat).
Context (shard_for_lt : forall n k, (0 < n)%nat -> (shard_for n k < n)%nat).
Abbreviation entry := (list Z * IndexRecord Dec)%type (only parsing).
Implicit Types (c : Chunk Dec) (cs : list (Chunk Dec)) (d : ChunkDir) (m : list entry).

Abbreviation chunk_new := (chunk_new record_bytes value_size).
Abbreviation well_built := (well_built record_bytes value_size).
Abbreviation serialize_chunk := (serialize_chunk crc32).

Definition chunk_writes cs : list DirWrite :=
  map (fun c => WriteChunk (ch_id c) (serialize_chunk c).1) cs.

(** Every chunk in the pool is written, and the pool stays as it is. *)
Lemma write_chunks_resident now p cs0 cs offset :
  resident shard_for p cs0 -> cs ⊆ cs0 -> Forall valid_chunk cs ->
  exists offs, write_chunks crc32 shard_for now (map chunk_desc cs) offset p = (p, chunk_writes cs, offs, None).
Proof.
  intros [_ H1 H2 Hh] Hsub Hv. revert offset Hsub.
  induction Hv as [|c cs Hc _ IH]; intros offset Hsub; simpl; [by exists []|].
  destruct (Hh c) as (x & Hx & Hi); [set_solver|]. unfold Pool.get. rewrite Hx.
  unfold Pool.is_expired. rewrite H1, H2, !bool_decide_true by done. cbn [negb andb orb].
  rewrite decide_False by auto. rewrite Hi.
  destruct (chunk_file_back crc32 record_bytes value_size crc32_u32 c Hc) as (b & es' & Hb & _).
  rewrite Hb. destruct (IH (offset + Z.of_nat (length b) mod 2 ^ 32)) as (offs & ->); [set_solver|].
  by eexists.
Qed.

(** The directory after these writes. *)
Lemma dir_after_chunks d cs c :
  NoDup (map ch_id cs) -> c ∈ cs ->
  dir_chunks (fold_left apply_write (chunk_writes cs) d) !! ch_id c = Some (serialize_chunk c).1.
Proof.
  assert (Hkeep : forall cs d i, i ∉ map ch_id cs ->
    dir_chunks (fold_left apply_write (chunk_writes cs) d) !! i = dir_chunks d !! i).
  { clear. induction cs as [|c cs IH]; intros d i Hi; simpl; [done|].
    rewrite IH by set_solver. simpl. apply lookup_insert_ne. set_solver. }
  revert d; induction cs as [|c' cs IH]; intros d; simpl; [set_solver|].
  intros [Hid Hn]%NoDup_cons [->|Hc]%elem_of_cons; [|by apply IH].
  rewrite Hkeep by done. apply lookup_insert_eq.
Qed.

Lemma dir_after_app d ws b p :
  let d' := fold_left apply_write (ws ++ [WriteIndex b; WritePrefix p]) d in
  dir_chunks d' = dir_chunks (fold_left apply_write ws d) /\ dir_index d' = Some b /\ dir_prefix d' = Some p.
Proof. cbn zeta. by rewrite fold_left_app. Qed.

(** ** The chunks read back *)

Definition reread_chunk c c' : Prop :=
  exists es', Forall2 entry_reread (entries c) es' /\ c' = chunk_new (ch_id c) es'.

Lemma reread_keys (es es' : list entry) : Forall2 entry_reread es es' -> map fst es' = map fst es.
Proof. induction 1 as [|x x' es es' [Hk _] _ IH]; simpl; [done|]. by rewrite IH, Hk. Qed.

Lemma reread_desc c c' : well_built c -> reread_chunk c c' -> chunk_desc c' = chunk_desc c /\ well_built c'.
Proof.
  intros [Hne Hc] (es' & H2 & ->). rewrite Hc. unfold chunk_desc. simpl.
  pose proof (reread_keys _ _ H2) as Hk. split.
  - assert (Hh : forall l l' : list entry, map fst l' = map fst l ->
      from_option fst [] (head l') = from_option fst [] (head l) /\
      from_option fst [] (last l') = from_option fst [] (last l)).
    { clear. intros l l' E. split.
      - by destruct l, l'; simplify_eq/=.
      - pose proof (f_equal last E) as El. rewrite !fmap_last in El.
        by destruct (last l), (last l'); simplify_eq/=. }
    destruct (Hh _ _ Hk) as [-> ->]. done.
  - split; [|done]. simpl. intros ->. by inversion H2; destruct (entries c).
Qed.

Lemma reread_all cs :
  Forall valid_chunk cs ->
  exists cs', Forall2 reread_chunk cs cs' /\
    forall c', c' ∈ cs' -> exists c, c ∈ cs /\ ch_id c' = ch_id c /\
      exists rest, deserialize_chunk crc32 record_bytes value_size (serialize_chunk c).1 = Ok (c', rest).
Proof.
  induction 1 as [|c cs Hc _ IH]; [exists []; split; [constructor|set_solver]|].
  destruct IH as (cs' & H2 & Hd).
  destruct (chunk_file_back crc32 record_bytes value_size crc32_u32 c Hc) as (b & es' & Hb & He & Hr).
  exists (chunk_new (ch_id c) es' :: cs'). split; [constructor; [by exists es'|done]|].
  intros c' [->|Hc']%elem_of_cons.
  - exists c. split_and!; [set_solver|done|]. exists []. specialize (Hr []). rewrite app_nil_r in Hr. by rewrite Hb.
  - destruct (Hd c' Hc') as (c0 & ? & ? & ?). exists c0. set_solver.
Qed.

Abbreviation build_from := (build_from record_bytes value_size).

Lemma build_from_ids fuel target id m :
  Forall (fun c => ch_id c < id + Z.of_nat (length m)) (build_from fuel target id m) /\
  (length (build_from fuel target id m) <= length m)%nat.
Proof.
  revert id m; induction fuel as [|fuel IH]; intros id [|e m]; simpl; try (split; [constructor|lia]).
  pose proof (fill_chunk_app record_bytes value_size target (estimate_entry_size record_bytes value_size e) m) as Ha.
  destruct (fill_chunk _ _ target _ m) as [a b]. simpl in Ha. subst m. rewrite length_app.
  destruct (IH (id + 1) b) as [Hi Hl]. split; [|simpl; lia]. constructor; [simpl; lia|].
  eapply Forall_impl; [exact Hi|]. intros c. simpl. lia.
Qed.

(** What the files can hold of a map: its entries, with keys the list of chunks
    can hold too. *)
Definition storable m : Prop :=
  Forall valid_entry m /\ Forall (fun e => fits 2 e.1) m /\ Z.of_nat (length m) < 2 ^ 32.

Lemma concat_elem cs c e : c ∈ cs -> e ∈ entries c -> e ∈ concat (map entries cs).
Proof.
  intros Hc He. rewrite list_elem_of_In. apply in_concat. exists (entries c).
  split; [by apply in_map, list_elem_of_In|by apply list_elem_of_In].
Qed.

Lemma concat_length cs c : c ∈ cs -> (length (entries c) <= length (concat (map entries cs)))%nat.
Proof.
  induction cs as [|c' cs IH]; simpl; [set_solver|]. rewrite length_app.
  intros [->|Hc]%elem_of_cons; [lia|]. apply IH in Hc. lia.
Qed.

Lemma well_built_keys c e0 : well_built c -> e0 ∈ entries c ->
  (exists e, e ∈ entries c /\ min_key c = e.1) /\ (exists e, e ∈ entries c /\ max_key c = e.1).
Proof.
  intros [Hne ->] _. simpl. destruct (last (entries c)) as [x|] eqn:El; [|by apply last_None in El].
  split; [|exists x; split; [by apply last_Some_elem_of|done]].
  destruct (entries c) as [|e l]; [done|]. exists e. set_solver.
Qed.

Lemma built_storable m :
  storable m ->
  let cs := build_from (length m) CHUNK_TARGET_SIZE 0 m in
  Forall valid_chunk cs /\ Forall valid_desc (map chunk_desc cs) /\ Z.of_nat (length (map chunk_desc cs)) < 2 ^ 32.
Proof.
  intros (Hv & Hk & Hn). destruct (build_from_spec record_bytes value_size (length m) CHUNK_TARGET_SIZE 0 m ltac:(lia))
    as (Ec & Hw & Hlo & _). destruct (build_from_ids (length m) CHUNK_TARGET_SIZE 0 m) as [Hhi Hlen].
  cbn zeta. set (cs := build_from _ _ _ _) in *.
  rewrite Forall_forall in Hv, Hk. rewrite List.Forall_forall in Hw, Hlo, Hhi.
  assert (Hin : forall c e, c ∈ cs -> e ∈ entries c -> e ∈ m) by (intros c e Hc He; rewrite <- Ec; by eapply concat_elem).
  assert (Hid : forall c, c ∈ cs -> 0 <= ch_id c < 2 ^ 32).
  { intros c Hc%list_elem_of_In. specialize (Hlo c Hc). specialize (Hhi c Hc). simpl in *. lia. }
  split_and!.
  - apply Forall_forall. intros c Hc. split_and!; [by apply Hid..| |].
    + pose proof (concat_length cs c Hc) as H'. rewrite Ec in H'. lia.
    + apply Forall_forall. intros e He. apply Hv. by eapply Hin.
  - apply Forall_map, Forall_forall. intros c Hc. pose proof (Hw c (proj1 (list_elem_of_In _ _) Hc)) as Hwc.
    destruct (entries c) as [|e0 l] eqn:Ee; [by destruct Hwc|].
    destruct (well_built_keys c e0 Hwc) as [(e1 & H1 & E1) (e2 & H2 & E2)]; [rewrite Ee; set_solver|].
    split_and!; simpl; [by apply Hid..| |]; [rewrite E1|rewrite E2]; apply Hk; by eapply Hin.
  - rewrite length_map. lia.
Qed.


Abbreviation make_chunk_loader := (make_chunk_loader crc32 record_bytes value_size).
Abbreviation read_lazy := (read_chunked_index_checkpoint_lazy crc32 record_bytes value_size num_shards).
Abbreviation write_checkpoint := (write_chunked_index_checkpoint crc32 shard_for).
Abbreviation from_btree := (from_btree record_bytes value_size num_shards shard_for).

Lemma fresh_backed d capacity cs :
  (forall c, c ∈ cs -> exists sz, make_chunk_loader d (ch_id c) = Some (c, sz)) ->
  backed shard_for (Pool.set_loader (make_chunk_loader d) (Pool.new num_shards capacity)) cs.
Proof.
  intros Hl. pose proof (pool_ok_new (T := Chunk Dec) shard_for shard_for_lt num_shards capacity num_shards_pos) as [? ? ? ? ? ?].
  split; [by split|done|done|by exists (make_chunk_loader d)|].
  intros c x _ Hx. exfalso. revert Hx. unfold Pool.shard_of, Pool.owner. simpl.
  destruct (replicate num_shards [] !! _) as [sh|] eqn:E; [|done].
  by apply lookup_replicate in E as [-> _].
Qed.

Lemma reread_entries cs cs' :
  Forall2 reread_chunk cs cs' -> Forall2 entry_reread (concat (map entries cs)) (concat (map entries cs')).
Proof.
  induction 1 as [|c c' cs cs' (es' & He & ->) _ IH]; simpl; [constructor|]. by apply Forall2_app.
Qed.

Lemma reread_descs cs cs' :
  Forall2 reread_chunk cs cs' -> Forall well_built cs ->
  map chunk_desc cs' = map chunk_desc cs /\ map ch_id cs' = map ch_id cs /\ Forall well_built cs'.
Proof.
  induction 1 as [|c c' cs cs' Hc _ IH]; intros Hw; simpl; [split_and!; [done|done|constructor]|].
  apply Forall_cons in Hw as [Hwc Hw]. destruct (IH Hw) as (-> & -> & Hw').
  destruct (reread_desc c c' Hwc Hc) as [-> Hwc']. destruct Hc as (es' & _ & ->). by split_and!; [..|constructor].
Qed.

Lemma reread_sorted m m' : Forall2 entry_reread m m' -> BMap.sorted m -> BMap.sorted m'.
Proof.
  intros H2. induction H2 as [|[k r] [k' r'] m m' [Hk _] H2 IH]; [done|]. simpl in Hk. subst k'.
  rewrite !BMap.sorted_cons. intros [Hs Hl]. split; [by apply IH|].
  pose proof (reread_keys _ _ H2) as Ek. apply (Forall_map fst (fun b => bytes_cmp k b = Lt)).
  apply (Forall_map fst (fun b => bytes_cmp k b = Lt)) in Hl. by rewrite Ek.
Qed.

(** The index of a directory that holds the files of [cs]. *)
Lemma reload_stands prefix cs d capacity b :
  Forall valid_chunk cs -> Forall well_built cs -> NoDup (map ch_id cs) ->
  (forall c, c ∈ cs -> dir_chunks d !! ch_id c = Some (serialize_chunk c).1) ->
  dir_index d = Some b -> deserialize_chunk_index b = Ok (map chunk_desc cs, []) -> dir_prefix d = Some prefix ->
  exists m' idx', Forall2 entry_reread (concat (map entries cs)) m' /\
    read_lazy d capacity = Ok (Some idx') /\ Chunked.prefix idx' = prefix /\
    stands_for shard_for record_bytes value_size idx' m'.
Proof.
  intros Hv Hw Hn Hf Hi Hb Hp. destruct (reread_all cs Hv) as (cs' & H2 & Hd).
  destruct (reread_descs cs cs' H2 Hw) as (Edesc & Eid & Hw').
  unfold read_chunked_index_checkpoint_lazy. rewrite Hi, Hp, Hb.
  eexists (concat (map entries cs')), _. split_and!; [by apply reread_entries|done|done|].
  exists cs'. simpl. split_and!; [done|done|by rewrite Eid|done|].
  apply fresh_backed. intros c' Hc'. destruct (Hd c' Hc') as (c & Hc & -> & rest & Hr).
  unfold IxFiles.make_chunk_loader. rewrite Hf by done. rewrite Hr. by eexists.
Qed.

(** [C31] A complete checkpoint reloads: a chunked index that fits its pool, with fewer
    than 2^32 entries, keys shorter than 65536 bytes and columns the codec encodes,
    written over any directory, is opened again at any capacity of the pool; then,
    after any number of reads, a range yields the entries of the map between its bounds
    and a snapshot the whole map, each record as the files return it. *)
Theorem checkpoint_reload now prefix m capacity d capacity' :
  BMap.sorted m -> storable m ->
  estimate_entries_size record_bytes value_size m <= capacity <= U64_MAX ->
  exists ws idx m' idx', write_checkpoint now (from_btree now prefix m capacity) = (idx, ws, None) /\
    read_lazy (fold_left apply_write ws d) capacity' = Ok (Some idx') /\
    Chunked.prefix idx' = prefix /\ Forall2 entry_reread m m' /\
    forall reads now' lower upper,
    let i := fold_left (fun i q => (range shard_for q.1.1 i q.1.2 q.2).1) reads idx' in
    (range shard_for now' i lower upper).2 = List.filter (within lower upper) m' /\
    (snapshot shard_for now' i).2 = m'.
Proof.
  intros Hs Hst Hfit. destruct (built_storable m Hst) as (Hv & Hdesc & Hlen).
  destruct (build_from_spec record_bytes value_size (length m) CHUNK_TARGET_SIZE 0 m ltac:(lia)) as (Ec & Hw & _ & Hn).
  destruct (from_btree_resident record_bytes value_size num_shards shard_for num_shards_pos shard_for_lt
    now prefix m capacity Hfit) as (Ech & Hr). set (cs := build_from _ _ _ _) in *.
  destruct (write_chunks_resident now _ cs cs 0 Hr ltac:(done) Hv) as (offs & Ew).
  unfold write_chunked_index_checkpoint. rewrite Ech, Ew.
  destruct (dir_after_app d (chunk_writes cs) (serialize_chunk_index (map chunk_desc cs) offs) prefix) as (E1 & E2 & E3).
  change (Chunked.prefix (from_btree now prefix m capacity)) with prefix. set (d' := fold_left _ _ d) in *.
  pose proof (chunk_index_back (map chunk_desc cs) offs [] Hdesc Hlen) as Hb. rewrite app_nil_r in Hb.
  destruct (reload_stands prefix cs d' capacity' (serialize_chunk_index (map chunk_desc cs) offs) Hv Hw Hn) as (m' & idx' & H2 & Er & Ep & Hst'); [|done..|].
  { intros c Hc. rewrite E1. by apply dir_after_chunks. }
  rewrite Ec in H2. eexists _, _, m', idx'. split_and!; [reflexivity|done|done|done|].
  pose proof (reread_sorted m m' H2 Hs) as Hs'. clear -Hst' Hs' shard_for_lt.
  intros reads now'. revert idx' Hst'. induction reads as [|q reads IH]; intros idx' Hst' lower upper; simpl.
  - split; [by eapply range_stands|by eapply snapshot_stands].
  - apply IH. by eapply range_stands.
Qed.


End checkpoint.


End IxReload.
