(* ===== verification/IndexExamples.v ===== *)
(** * Indexes on concrete data

    The hypotheses of the index theorems met by concrete keys, manifests, pools, shards,
    chains, cursors and files, and runs that show where the code loses entries. *)

From stdpp Require Import base list strings relations gmap sets.
From Stdlib Require Import ZArith Lia SpecFloat.
From S2P Require Import Prelude Types Values WalTypes OrderedCodec OrderedFacts OrderedDecimal OrderedValues OrderedExample IndexKeys.
From S2P Require Import IndexKeyFacts IndexManifest IndexManifestFacts ByteMap BufferPool BufferPoolFacts IndexChunk IndexChunkFacts IndexShardRuntime IndexShardFacts.
From S2P Require Import IndexChain IndexChainFacts IndexGenerations IndexCursor IndexCursorFacts IndexFiles IndexFilesFacts IndexReload.

(** * Index keys on concrete entries

    The scan of a vertex index at concrete values, and ranges that miss entries
    or panic. *)

Module IndexKeyExample.
Import Codec CodecFacts DecimalFacts CodecSpec CodecExample IndexKey IndexKeyFacts.

(** ["idx"]. *)
Definition idx : list Z := [105; 100; 120].

Lemma idx_valid : valid_name idx.
Proof. split; [repeat constructor; done|done]. Qed.

(** Equality between an integer bound and a stored integer of another width. *)
Lemma vertex_scan_exact_witness :
  exists lo hi k k',
    compute_vertex_index_scan_range 1 idx (Equal (VBigInt 25 : value)) = Ok (lo, hi) /\
    build_vertex_index_key 1 idx (VInt 25 : value) (VBigInt 7) = Ok k /\
    build_vertex_index_key 2 idx (VInt 25 : value) (VBigInt 7) = Ok k' /\
    in_range lo hi k /\ ~ in_range lo hi k'.
Proof.
  eexists _, _, _, _. split; [reflexivity|]. split; [reflexivity|]. split; [reflexivity|].
  assert (Hs : scannable (Equal (VBigInt 25 : value)) (VInt 25)) by (right; done).
  split.
  - apply (vertex_scan_exact 1 idx 1 idx (Equal (VBigInt 25 : value)) (VInt 25) (VBigInt 7));
      first [exact idx_valid | done].
  - intros Hin.
    apply (vertex_scan_exact 1 idx 2 idx (Equal (VBigInt 25 : value)) (VInt 25) (VBigInt 7)) in Hin;
      first [exact idx_valid | done | by destruct Hin as [[? _] _]].
Defined.

(** Integers are stored under the tag of the smallest type that holds them,
    and tags sort first: the range of [x < 0] misses [-40000]. *)
Lemma range_misses_wider_integer :
  exists lo hi k,
    compute_vertex_index_scan_range 1 idx (Range None (Some (VInt 0 : value)) false false) = Ok (lo, hi) /\
    build_vertex_index_key 1 idx (VInt (-40000) : value) (VBigInt 7) = Ok k /\
    Val.value_cmp (VInt (-40000) : value) (VInt 0) = Some Lt /\
    bytes_cmp lo k = Lt /\ bytes_cmp k hi = Gt.
Proof. by eexists _, _, _. Qed.

(** The other way round, [x > 0] holds [-40000]. *)
Lemma range_holds_wrong_integer :
  exists lo hi k,
    compute_vertex_index_scan_range 1 idx (Range (Some (VInt 0 : value)) None false false) = Ok (lo, hi) /\
    build_vertex_index_key 1 idx (VInt (-40000) : value) (VBigInt 7) = Ok k /\
    Val.value_cmp (VInt 0 : value) (VInt (-40000)) = Some Gt /\
    bytes_cmp lo k = Lt /\ bytes_cmp k hi = Lt.
Proof. by eexists _, _, _. Qed.

(** A prefix predicate is not normalized: the prefix of an integer never meets
    the key of the same integer. *)
Lemma prefix_misses_integer :
  exists lo hi k,
    compute_vertex_index_scan_range 1 idx (Prefix (VInt 5 : value)) = Ok (lo, hi) /\
    build_vertex_index_key 1 idx (VInt 5 : value) (VBigInt 7) = Ok k /\
    bytes_cmp lo k = Gt.
Proof. by eexists _, _, _. Qed.

(** The forward parsers do not check the name length against the key and slice
    past its end. *)
Lemma forward_parser_panics :
  parse_vertex_id_from_key (replicate 9 0 ++ [100; 0; 0; 0]) = (Err KPanic : result value KeyError).
Proof. done. Qed.

(** The parser of suffixes, given a full reverse key, reads the space as an
    identifier and returns bytes that are not the encoded value. *)
Lemma suffix_parser_on_full_key :
  exists k x bad, build_vertex_reverse_key_with_value 1 (VBigInt 7 : value) idx (VInt 25) = Ok k /\
    encode (normalize_int_value (VInt 25 : value)) = Ok x /\
    extract_value_from_reverse_suffix (Dec := Z) (drop 9 k) = Ok x /\
    extract_value_from_reverse_suffix (Dec := Z) k = Ok bad /\ bad <> x.
Proof. by eexists _, _, _. Qed.

End IndexKeyExample.

(** * Index manifests at work

    A table of two shards, a catalog with a reader on a retired generation, and
    what the validation and the removal of retired manifests let through. *)

Module ManifestExample.
Import Codec CodecFacts Manifest ManifestFacts.
Local Open Scope Z_scope.

Definition halves (g : Z) : IndexManifest :=
  mkManifest 1 7 g [mkShard 0 None (Some [128]) true; mkShard 1 (Some [128]) None true].

Lemma halves_inner g : inner_bounded (shards (halves g)).
Proof. by repeat constructor. Qed.

Lemma route_key_total_witness :
  exists i s, shards (halves 3) !! i = Some s /\ contains s [200; 1] = true /\
    route_key (halves 3) [200; 1] = Some s /\
    forall j t, shards (halves 3) !! j = Some t -> contains t [200; 1] = true -> j = i.
Proof. apply (route_key_total (halves 3) [200; 1]); [reflexivity|apply halves_inner]. Defined.

Lemma scan_ranges_partition_witness :
  exists lo hi, (1, lo, hi) ∈ scan_ranges_with_shard (halves 3) SelAll [5] [201] /\
    key_in lo hi [200; 1].
Proof.
  destruct (scan_ranges_partition (halves 3) SelAll [5] [201] [200; 1]) as (_ & H & _);
    [reflexivity|apply halves_inner|].
  apply (H (mkShard 1 (Some [128]) None true)); by repeat split.
Defined.

(** A scan across both halves is cut at the boundary. *)
Example query_cut :
  scan_ranges_with_shard (halves 3) SelAll [5] [201] = [(0, [5], [128]); (1, [128], [201])].
Proof. reflexivity. Qed.

(** A reader pins generation 1, generation 2 is published, its handle dropped
    and generation 3 published: generation 2 is reclaimed, generation 1 not. *)
Definition pinned_catalog : ManifestCatalog :=
  mkCatalog (mkCounted (halves 3) 1) [mkCounted (halves 1) 1; mkCounted (halves 2) 0] 2 0.

Lemma pinned_catalog_reachable : cat_reachable (pinned_catalog, [3; 1]).
Proof.
  exists (halves 1), (mkCatalog (mkCounted (halves 1) 0) [] 0 0). split; [done|].
  eapply rtc_l; [apply cs_acquire|].
  eapply rtc_l; [eapply (cs_publish _ _ (halves 2)); reflexivity|].
  eapply rtc_l; [apply (cs_release _ [] (generation (halves 2)) _)|].
  eapply rtc_l; [eapply (cs_publish _ _ (halves 3)); reflexivity|].
  apply rtc_refl.
Qed.

Lemma pinned_generation_kept_witness :
  (exists c' m, acquire_generation pinned_catalog 1 = (c', Some m) /\ generation m = 1) /\
  (forall m, m ∈ (take_reclaimable_manifests pinned_catalog).2 ->
     generation m <> 1 /\ generation m < 3).
Proof.
  apply (pinned_generation_kept pinned_catalog [3; 1] 1); [apply pinned_catalog_reachable|].
  set_solver.
Defined.

Example reclaims_unread : (take_reclaimable_manifests pinned_catalog).2 = [halves 2].
Proof. reflexivity. Qed.

(** [remove_retired] looks at the generation only: the entry a reader pins is
    dropped, and its generation can no longer be acquired. *)
Lemma remove_retired_drops_pinned :
  let c := (remove_retired pinned_catalog 1).1 in
  (remove_retired pinned_catalog 1).2 = true /\ (acquire_generation c 1).2 = None.
Proof. by split. Qed.

(** Generation 2 has no reader when the candidates are taken; a reader that
    acquires it before the removal keeps a handle on a manifest whose files are
    deleted and which the catalog has forgotten. *)
Lemma reclaim_races_with_acquire :
  let peek := retired_reclaimable pinned_catalog (fun m => bool_decide (generation m < 3)) in
  let '(c, h) := acquire_generation pinned_catalog 2 in
  peek = [halves 2] /\ h = Some (halves 2) /\ (acquire_generation (remove_retired c 2).1 2).2 = None.
Proof. by repeat split. Qed.

(** Validation lets an inner shard be unbounded: both shards hold every key,
    and the scan reads them both. *)
Definition overlapping : IndexManifest :=
  mkManifest 1 7 1 [mkShard 0 None None true; mkShard 1 None None true].

Lemma validate_accepts_overlap :
  validate overlapping = true /\
  scan_ranges_with_shard overlapping SelAll [1] [2] = [(0, [1], [2]); (1, [1], [2])].
Proof. by split. Qed.

(** Identifiers are compared with the neighbour's only. *)
Lemma validate_accepts_duplicate_ids :
  validate (mkManifest 1 7 1
    [mkShard 0 None (Some [1]) true; mkShard 1 (Some [1]) (Some [2]) true;
     mkShard 0 (Some [2]) None true]) = true.
Proof. done. Qed.

End ManifestExample.

(** * The buffer pool at work

    A pool of four shards under a simple hash, and the limits of the eviction and
    of the time limits. *)

Module PoolExample.
Import Pool PoolFacts.

Definition by_mod (n : nat) (k : Z) : nat := Z.to_nat (k mod Z.of_nat n).

Lemma by_mod_lt n k : (0 < n)%nat -> (by_mod n k < n)%nat.
Proof. unfold by_mod. intros Hn. pose proof (Z.mod_pos_bound k (Z.of_nat n)). lia. Qed.

Definition put (k sz : Z) (p : BufferPool Z Z) : BufferPool Z Z := insert by_mod 0 k (100 + k) sz p.

Definition pool0 : BufferPool Z Z := set_writer (fun _ _ => true) (new 4 100).

Lemma pool0_reach : rtc (pool_step by_mod) (new 4 100) pool0.
Proof. eapply rtc_l; [apply ps_set_writer|apply rtc_refl]. Qed.

Definition dirtied (k : Z) (p : BufferPool Z Z) : BufferPool Z Z :=
  modify_item by_mod (fun c =>
    mkCached (item c) (pin_count c) true (clock_flag c) (last_access c) (created_at c) (size c)) k p.

(** Three items: 1 pinned, 2 dirty, 5 plain, in the shards of 1 and 2. *)
Definition pool3 : BufferPool Z Z :=
  modify_item by_mod (pin_item 0) 1 (dirtied 2 (put 5 20 (put 2 30 (put 1 40 pool0)))).

Lemma pool3_reach : rtc (pool_step by_mod) (new 4 100) pool3.
Proof.
  unfold pool3, dirtied, put.
  eapply rtc_r; [|apply ps_pin]. eapply rtc_r; [|apply ps_mark_dirty].
  do 3 (eapply rtc_r; [|apply ps_insert; lia]). apply pool0_reach.
Qed.

Lemma pool_usage_exact_witness :
  current_usage pool3 = wrap_u64 (total (shards pool3)) /\ total (shards pool3) = 90.
Proof.
  split; [|reflexivity].
  apply (pool_usage_exact by_mod by_mod_lt 4 100 pool3); [lia|apply pool3_reach].
Defined.

Lemma evict_enough_witness :
  let '(p', e) := evict 60 pool3 in
  (60 <= e \/ forall m k c, m ∈ shards p' -> find_key k m = Some c -> is_pinned c = true) /\
  total (shards p') = total (shards pool3) - e /\ kept_or_written by_mod pool3 p'.
Proof.
  destruct (evict 60 pool3) as [p' e] eqn:E.
  apply (evict_enough by_mod by_mod_lt 4 100 pool3 60 p' e); [lia|apply pool3_reach|lia|exact E].
Defined.

(** Only the pinned item is left, 50 of the 60 bytes are freed and the dirty
    item is written. *)
Example evict_all_but_pinned :
  (evict 60 pool3).2 = 50 /\ written (evict 60 pool3).1 = [(2, 102)] /\
  map (map fst) (shards (evict 60 pool3).1) = [[]; [1]; []; []].
Proof. by vm_compute. Qed.

Lemma insert_get_witness :
  exists c, (get by_mod 7 (insert by_mod 7 9 109 500 pool3) 9).2 = Some c /\
    item c = 109 /\ size c = 500 /\ is_pinned c = false.
Proof. apply (insert_get by_mod by_mod_lt 4 100 pool3 7 9 109 500); [lia|apply pool3_reach]. Defined.

(** The owning shard had something to give, so the other shards are not looked
    at: with entries of at most 60 bytes the pool of capacity 100 holds 180. *)
Lemma overshoot_grows :
  let p := put 6 60 (put 5 60 (put 4 60 (put 2 1 (put 1 1 pool0)))) in
  usage p = 180 /\ capacity p = 100 /\ Forall (Forall (fun kc => size kc.2 <= 60)) (shards p).
Proof. vm_compute. repeat split; repeat constructor; by intros ?. Qed.

(** A dirty item that expires is dropped by the lookup without a write-back,
    and by the sweep too. *)
Lemma expiry_drops_dirty :
  let p := set_ttl (Some 10) (dirtied 2 (put 2 30 pool0)) in
  (get by_mod 10 p 2).2 = None /\ written (get by_mod 10 p 2).1 = [] /\
  usage (get by_mod 10 p 2).1 = 0 /\ written (prune_expired 10 p).1 = [].
Proof. by vm_compute. Qed.

End PoolExample.

(** * Native indexes at work

    The hypotheses of the facts about chunks, shards and chains met by concrete
    indexes, and the corners in which entries are lost or come back. *)

Module IndexExample.
Import Codec Manifest ManifestFacts Chunked Shard ShardFacts Chain ChainFacts GenFacts.

Abbreviation entry := (list Z * IndexRecord Z)%type (only parsing).

Definition live (ts : Z) : IndexRecord Z := record_new ts.
Definition gone (ts : Z) : IndexRecord Z := mark_deleted (record_new ts) ts.

Definition toy_hash (seed : Z) (key : list Z) : Z := foldr Z.add seed key.

Ltac sort_check := repeat (first [apply BMap.sorted_nil | apply BMap.sorted_cons; split]);
  repeat (apply List.Forall_cons; [reflexivity|]); try apply List.Forall_nil.

(** ** The chunked index *)

Definition three : list entry := [([1], live 5); ([2], live 6); ([3; 7], gone 9)].

Lemma three_sorted : BMap.sorted three.
Proof. unfold three. sort_check. Qed.

Abbreviation build cap := (from_btree 30 (fun _ : Value Z => 8%nat) 4 PoolExample.by_mod 0 [] three cap).

Lemma chunked_index_equiv_witness :
  (Chunked.range PoolExample.by_mod 1 (build 1000) [2] []).2 = [([2], live 6); ([3; 7], gone 9)] /\
  (snapshot PoolExample.by_mod 1 (build 1000)).2 = three.
Proof.
  destruct (ChunkFacts.chunked_index_equiv 30 (fun _ : Value Z => 8%nat) 4 PoolExample.by_mod ltac:(lia)
    PoolExample.by_mod_lt 0 [] three 1000 three_sorted ltac:(vm_compute; split; discriminate) [] 1 [2] [])
    as [H1 H2].
  split; [|exact H2]. exact H1.
Defined.

(** Entries whose chunks do not fit the pool are lost: nothing was written that a
    loader could read back. *)
Definition wide : list entry := [([1], live 5); ([2], live 6)].

Lemma chunks_lost_over_capacity :
  let idx := from_btree (Z.to_nat 40000) (fun _ : Value Z => 8%nat) 4 PoolExample.by_mod 0 [] wide 60000 in
  chunk_count idx = 2%nat /\ (snapshot PoolExample.by_mod 1 idx).2 = [([2], live 6)].
Proof. vm_compute. by split. Qed.

(** A chunk in which every entry has been deleted is skipped, also for a reader
    that came before the deletion. *)
Lemma visible_range_misses_old_reader :
  let r := mkRecord 5 (Some 20) None None : IndexRecord Z in
  let idx := from_btree 30 (fun _ : Value Z => 8%nat) 4 PoolExample.by_mod 0 [] [([1], r)] 1000 in
  is_visible_at r 10 = true /\
  option_map snd (visible_range PoolExample.by_mod 1 idx [] [9] 10) = Some [].
Proof. by vm_compute. Qed.

(** ** A base that is a list *)

#[local] Instance list_store : MapStore (list entry) (IndexRecord Z) := {
  store_build _ m := m;
  store_range _ i lower upper := (i, List.filter (store_within lower upper) i);
  store_visible _ i lower upper ts :=
    Some (i, List.filter (fun e => is_visible_at e.2 ts) (List.filter (store_within lower upper) i));
  store_snapshot _ i := (i, i);
}.

#[local] Instance list_store_laws : MapStoreLaws (list entry) (IndexRecord Z).
Proof.
  refine {| store_rep i m := i = m; store_fits _ := True |}; [done| |done].
  intros now i m lower upper _ ->. done.
Defined.

Lemma list_side base delta :
  BMap.sorted base -> BMap.sorted delta -> side base delta (BMap.extend base delta).
Proof. intros Hb Hd. by exists base. Qed.

(** ** Shards *)

Definition shard0 : ShardRuntime Z (list entry) := empty_with_capacity 0.
Definition files0 : ShardFiles Z := mkFiles None None [].

Definition written : ShardRuntime Z (list entry) :=
  replace toy_hash 32 [([1; 1], live 5); ([1; 2], live 6)] [([8], live 5)] shard0.

Lemma shard_range_exact_witness :
  exists base', forward_range 0 written [1; 2] [1; 9] =
      Some (base', List.filter (BMap.in_bounds [1; 2] [1; 9])
        (map (prefixed []) [([1; 1], live 5); ([1; 2], live 6)])) /\
    side base' (delta_forward written) [([1; 1], live 5); ([1; 2], live 6)].
Proof.
  apply (shard_range_exact 0 written [([1; 1], live 5); ([1; 2], live 6)] [1; 2] [1; 9]).
  - apply (list_side [] [([1; 1], live 5); ([1; 2], live 6)]); sort_check.
  - exists [1; 2]. split; [reflexivity|]. left. exists [1; 9]. by repeat split.
Defined.

Lemma written_reach : shard_reachable toy_hash 32 written files0.
Proof.
  exists 0. eapply rtc_l; [|apply rtc_refl].
  apply (ss_replace toy_hash 32 shard0 files0 [([1; 1], live 5); ([1; 2], live 6)] [([8], live 5)]); sort_check.
Qed.

Lemma shard_recovery_witness :
  exists mf mr mf' mr',
    side (base_forward written) (delta_forward written) mf /\
    side (base_reverse written) (delta_reverse written) mr /\
    side (base_forward (load_shard 9 (flush toy_hash 3 written files0).2))
      (delta_forward (load_shard 9 (flush toy_hash 3 written files0).2)) mf' /\
    side (base_reverse (load_shard 9 (flush toy_hash 3 written files0).2))
      (delta_reverse (load_shard 9 (flush toy_hash 3 written files0).2)) mr' /\
    agree_maps mf' mf /\ agree_maps mr' mr.
Proof.
  apply (shard_recovery toy_hash 32 3 9 written files0 (flush toy_hash 3 written files0).1); try done.
  apply written_reach.
Defined.

(** A logged deletion of a key that the files do not have comes back as a record
    created at 0: a reader from before the deletion sees an entry that was never
    there for it. *)
Lemma replayed_deletion_visible_early :
  let sr := replace toy_hash 32 [([1], gone 10)] [] shard0 in
  let sr' := load_shard 9 (flush toy_hash 3 sr files0).2 in
  is_visible_at (gone 10) 5 = false /\
  option_map snd (forward_range 0 sr [1] [2]) = Some [([1], gone 10)] /\
  option_map (map (fun e => is_visible_at e.2 5)) (option_map snd (forward_range 0 sr' [1] [2])) = Some [true].
Proof. by vm_compute. Qed.

(** The checkpoint of a shard with a prefix holds suffixes, and the reopened
    shard has no prefix: a scan finds nothing. *)
Lemma checkpoint_forgets_prefix :
  let sr := prefixed_shard toy_hash 0 [7; 7] [7; 8] ([([7; 7; 1], live 5)], []) : ShardRuntime Z (list entry) in
  option_map snd (forward_range 0 sr [7; 7; 1] [7; 7; 2]) = Some [([7; 7; 1], live 5)] /\
  option_map snd (forward_range 0 (load_shard 9 (checkpoint toy_hash 3 sr files0).2) [7; 7; 1] [7; 7; 2]) = Some [].
Proof. by vm_compute. Qed.

(** ** Chains *)

Definition whole_manifest (g : Z) : IndexManifest := mkManifest 1 7 g [mkShard 0 None None true].

Definition catalog1 : ManifestCatalog := mkCatalog (mkCounted (whole_manifest 1) 0) [] 0 0.

(** The base generation as a rebuild publishes it. *)
Definition base_gen : GenerationRuntime Z (list entry) :=
  generation_from_maps toy_hash 32 0 (whole_manifest 1)
    {[ 0 := ([([1], live 5); ([2], live 6)], []) ]} None 0 [] [].

Definition runtime1 : IndexRuntime Z (list entry) := mkRuntime {[ 1 := base_gen ]} ∅.

Definition delta2 : gmap Z (list entry * list entry) := {[ 0 := ([([1], gone 10); ([3], live 11)], []) ]}.

Definition published2 : IndexRuntime Z (list entry) * ManifestCatalog * result unit StorageError :=
  publish_delta_generation toy_hash 0 [] [] delta2 11 runtime1 catalog1.

Definition runtime2 : IndexRuntime Z (list entry) :=
  published2.1.1.
Definition catalog2 : ManifestCatalog :=
  published2.1.2.

Lemma runtime1_ok : runtime_ok runtime1.
Proof.
  split; intros n g; unfold upgrade, runtime1; simpl; rewrite lookup_empty.
  - destruct (decide (n = 1)) as [->|]; [rewrite lookup_singleton_eq; by intros [= <-]|].
    by rewrite lookup_singleton_ne by done.
  - intros p. destruct (decide (n = 1)) as [->|]; [rewrite lookup_singleton_eq; by intros [= <-]|].
    by rewrite lookup_singleton_ne by done.
Qed.

Lemma publish_delta_overlays_witness :
  exists g chain, generation_chain_until runtime1 1 = Ok chain /\
    generation_chain_until runtime2 2 = Ok (g :: chain) /\
    gen_map 0 [0] [9] g [([1], gone 10); ([3], live 11)].
Proof.
  destruct (publish_delta_overlays toy_hash 0 [] [] delta2 11 runtime1 catalog1 runtime2 catalog2 base_gen
    runtime1_ok ltac:(reflexivity)) as (g & chain & H1 & H2 & H3).
  - intros x [y Hy]. unfold runtime1 in Hy. simpl in Hy.
    destruct (decide (x = 1)) as [->|]; [reflexivity|]. by rewrite lookup_singleton_ne in Hy by done.
  - reflexivity.
  - exists g, chain. split; [exact H1|]. split; [exact H2|].
    apply (proj2 (H3 (mkShard 0 None None true) [([1], gone 10); ([3], live 11)] []
      ltac:(by left) ltac:(reflexivity) ltac:(sort_check) I ltac:(sort_check) I)).
    exists [0]. split; [reflexivity|]. left. exists [9]. by repeat split.
Defined.

Definition chain2 : list (GenerationRuntime Z (list entry)) :=
  match generation_chain_until runtime2 2 with Ok c => c | Err _ => [] end.

Definition maps2 : list (list entry) :=
  [[([1], gone 10); ([3], live 11)]; [([1], live 5); ([2], live 6)]].

Lemma chain2_maps : Forall2 (gen_map 0 [0] [9]) chain2 maps2.
Proof.
  repeat constructor.
  - exists [([1], gone 10); ([3], live 11)]. split_and!; [| |reflexivity].
    + apply (list_side [([1], gone 10); ([3], live 11)] []); sort_check.
    + exists [0]. split; [reflexivity|]. left. exists [9]. by repeat split.
  - exists [([1], live 5); ([2], live 6)]. split_and!; [| |reflexivity].
    + apply (list_side [] [([1], live 5); ([2], live 6)]); sort_check.
    + exists [0]. split; [reflexivity|]. left. exists [9]. by repeat split.
Qed.

Lemma chain_scan_exact_witness :
  exists out, drain toy_hash 0 10 (iter_new chain2 0 12 [0] [9]) = Some out /\
    NoDup (map fst out) /\
    forall k r, (k, r) ∈ out <->
      bytes_le [0] k = true /\ bytes_lt k [9] = true /\ chain_get 12 k maps2 = Some r.
Proof.
  apply (chain_scan_exact toy_hash 0 0 12 [0] [9] chain2 maps2 10); [apply chain2_maps|].
  vm_compute. lia.
Defined.

(** At 12 the deletion hides key 1; at 7 it is still there. *)
Example drain_two_times :
  drain toy_hash 0 10 (iter_new chain2 0 12 [0] [9]) = Some [([3], live 11); ([2], live 6)] /\
  drain toy_hash 0 10 (iter_new chain2 0 7 [0] [9]) = Some [([1], live 5); ([2], live 6)].
Proof. by vm_compute. Qed.

Lemma chain2_full : Forall2 (gen_full 0) chain2 maps2.
Proof.
  repeat constructor.
  - exists [([1], gone 10); ([3], live 11)]. split; [|reflexivity].
    apply (list_side [([1], gone 10); ([3], live 11)] []); sort_check.
  - exists [([1], live 5); ([2], live 6)]. split; [|reflexivity].
    apply (list_side [] [([1], live 5); ([2], live 6)]); sort_check.
Qed.

Lemma compaction_keeps_visible_witness :
  BMap.get [2] (compact_shard 0 12 chain2 0).1 = Some (live 6).
Proof.
  destruct (compaction_keeps_visible 0 12 [2] chain2 0 maps2 chain2_full) as [Hv _].
  apply Hv. reflexivity.
Defined.

(** The deletion of key 1 is visible in the newest generation, so a reader at 12
    does not see the key; the compaction at 12 skips the deletion, finds the
    record of the generation below and brings the key back. *)
Lemma compaction_resurrects :
  chain_get 12 [1] maps2 = None /\
  (compact_shard 0 12 chain2 0).1 = [([1], live 5); ([2], live 6); ([3], live 11)].
Proof. by vm_compute. Qed.

(** And the reader after the compaction finds it. *)
Lemma compacted_reader_sees_deleted :
  match compact_native_index toy_hash 32 0 [] [] 12 true runtime2 catalog2 with
  | (rt, cat, Ok _) =>
      match generation_chain_until rt (gen_of (active cat)) with
      | Ok chain => drain toy_hash 0 10 (iter_new chain 0 12 [0] [9])
      | Err _ => None
      end
  | (_, _, Err _) => None
  end = Some [([1], live 5); ([2], live 6); ([3], live 11)].
Proof. by vm_compute. Qed.

(** The base generation was published with the timestamp 0: the first retirement
    removes it although the delta above it holds only the changes, and its
    entries are gone for every reader. *)
Lemma retirement_loses_entries :
  match generation_chain_until (retire_generations 1 runtime2 catalog2) (gen_of (active catalog2)) with
  | Ok chain => drain toy_hash 0 10 (iter_new chain 0 12 [0] [9])
  | Err _ => None
  end = Some [([3], live 11)].
Proof. by vm_compute. Qed.

End IndexExample.

(** * Index cursors at work

    A cursor over two shard ranges, and what becomes of its limit. *)

Module CursorExample.
Import Codec Manifest Chunked Shard Chain IndexExample Cursor CursorFacts.

#[local] Existing Instance list_store.

Definition vertex (n : Z) : EntityRef := ERVertex (from_u64 n).
Definition row_entry (n : Z) : list Z * IndexRecord Z := ([n], with_entity_ref (live 5) (vertex n)).

(** A generation with two shards of two entries. *)
Definition gen1 : GenerationRuntime Z (list (list Z * IndexRecord Z)) :=
  mkGen 1 {[ 0 := prefixed_shard toy_hash 0 [] [] ([row_entry 1; row_entry 2], []);
             1 := prefixed_shard toy_hash 0 [] [] ([row_entry 5; row_entry 6], []) ]} None 0.

Definition its : list (ChainForwardIterator Z (list (list Z * IndexRecord Z))) :=
  [iter_new [gen1] 0 9 [0] [4]; iter_new [gen1] 1 9 [4] [9]].

Definition cursor (offset : nat) (limit : option nat) : IndexCursor Z (list (list Z * IndexRecord Z)) :=
  cursor_new its offset limit None None None.

Definition fetch (n : nat) (c : IndexCursor Z (list (list Z * IndexRecord Z))) :
    option (IndexCursor Z (list (list Z * IndexRecord Z)) * list (IndexRow Z)) :=
  next_batch toy_hash 0 (vertex_entity (Dec := Z) (decimal := CodecExample.whole)) vertex_of_vertex 20 n c.

Definition streams2 : list (list (list Z * IndexRecord Z)) :=
  [[row_entry 1; row_entry 2]; [row_entry 5; row_entry 6]].

Lemma cursor_streams offset :
  streams toy_hash 0 (vertex_entity (Dec := Z) (decimal := CodecExample.whole)) vertex_of_vertex
    (cursor offset None) streams2.
Proof.
  split.
  - repeat constructor; exists 5%nat; by vm_compute.
  - repeat constructor; by vm_compute.
Qed.

Lemma cursor_batch_exact_witness :
  exists c' ls', fetch 2 (cursor 1 None) = Some (c', [RowId (vertex 2); RowId (vertex 5)]) /\
    pending (vertex_entity (Dec := Z) (decimal := CodecExample.whole)) vertex_of_vertex c' ls' =
      [RowId (vertex 6)].
Proof.
  destruct (cursor_batch_exact toy_hash 0 (vertex_entity (Dec := Z) (decimal := CodecExample.whole))
    vertex_of_vertex 20 2 (cursor 1 None) streams2 (cursor_streams 1) eq_refl eq_refl
    ltac:(vm_compute; lia)) as (c' & ls' & E & _ & Hp & _).
  exists c', ls'. split; [exact E|exact Hp].
Defined.

(** The limit ends a batch, not the cursor, while ranges are left: with a limit
    of one row every further batch yields one more. *)
Lemma limit_exceeded :
  match fetch 10 (cursor 0 (Some 1%nat)) with
  | Some (c, rows) =>
      rows = [RowId (vertex 1)] /\ vc_exhausted c = false /\
      match fetch 10 c with
      | Some (c', rows') => rows' = [RowId (vertex 2)] /\ vc_exhausted c' = false
      | None => False
      end
  | None => False
  end.
Proof. by vm_compute. Qed.

(** A limit of zero yields a row. *)
Lemma limit_zero_yields :
  option_map snd (fetch 10 (cursor 0 (Some 0%nat))) = Some [RowId (vertex 1)].
Proof. by vm_compute. Qed.

(** An edge entry that does not carry its entity gets the type number 0 out of a
    key with the type name "KNOWS". *)
Lemma edge_type_name_lost :
  match IndexKey.build_edge_index_key (Dec := Z) (H := CodecExample.whole) 1 [105] (VBool true)
          (VBigInt 3) (VBigInt 4) [75; 78; 79; 87; 83] 9 with
  | Ok key =>
      match edge_entity (Dec := Z) (decimal := CodecExample.whole) key with
      | Found (EREdge _ _ t r) => t = 0 /\ r = 9
      | _ => False
      end
  | Err _ => False
  end.
Proof. by vm_compute. Qed.

End CursorExample.

(** * The files of an index shard at work

    The hypotheses of the facts about the log and the checkpoint of a shard met
    by concrete files, and what the formats lose: a torn log is repaired by no one,
    a long key is cut, and a checkpoint that stops half way destroys the last
    one. *)

Module IxFilesExample.
Import Codec CodecFacts DecimalFacts CodecSpec CodecExample.
Import Chunked ChunkFacts Shard IxFiles IxFilesFacts IxReload.

Abbreviation entry := (list Z * IndexRecord Z)%type (only parsing).
Implicit Types (es : list (WalEntry Z)).

Definition live (ts : Z) : IndexRecord Z := record_new ts.

(** A vertex with an included column. *)
Definition covered : IndexRecord Z :=
  mkRecord 7 (Some 9) (Some [([110], VInt 5)]) (Some (ERVertex (from_u64 4))).

Definition first_batch : list (WalEntry Z) := [WInsert true [1; 2] covered; WMarkDeleted false [3] 8].
Definition second_batch : list (WalEntry Z) := [WInsert true [4] (live 6)].

Definition log_of (batches : list (list (WalEntry Z))) : option (list Z) :=
  fold_left (fun f b => (append_wal_entries f b).1) batches None.

Lemma covered_valid : valid_record covered.
Proof.
  split_and!; [done|intros d [= <-]; done| |done|].
  2: { intros x [= <-]. change (valid_vid (from_u64 4)). apply (bool_decide_unpack _). by vm_compute. }
  apply Forall_singleton. split_and!; [done|done|done|]. by eexists.
Qed.

Lemma live_valid ts : is_u64 ts -> valid_record (live ts).
Proof. intros Hts. split_and!; [done|done|constructor|done|done]. Qed.

Lemma batches_valid : Forall (Forall valid_wal_entry) [first_batch; second_batch].
Proof.
  pose proof covered_valid. pose proof (live_valid 6 ltac:(done)).
  by repeat (apply Forall_cons; split || apply Forall_nil).
Qed.

(** The log of two flushes, cut inside the last entry. *)
Lemma index_log_cut_witness :
  exists file k es', log_of [first_batch; second_batch] = Some file /\
    read_wal_entries (Some (take 80 file)) = Ok es' /\ (k <= 3)%nat /\
    Forall2 entry_back (take k (first_batch ++ second_batch)) es' /\
    (4 + length (log_bytes (take k (first_batch ++ second_batch))) <= 80)%nat /\
    (k = 3%nat \/ (80 < 4 + length (log_bytes (take (S k) (first_batch ++ second_batch))))%nat).
Proof. apply (index_log_cut [first_batch; second_batch] 80 batches_valid); [done|lia]. Defined.

(** ** What the log loses *)

(** A log that ends inside its header is refused, not empty: the shard does not
    open. *)
Lemma torn_header_refused :
  read_wal_entries (Some (take 2 WAL_MAGIC)) = (Err UnexpectedEof : result (list (WalEntry Z)) IoError).
Proof. reflexivity. Qed.

(** The reader forgives a torn tail, the writer appends behind it: after the next
    flush the log is refused as a whole, or a record is read that nobody
    wrote. *)
Lemma append_after_torn_tail :
  exists file, log_of [second_batch] = Some file /\
    (read_wal_entries (Some (take 10 file)) : result (list (WalEntry Z)) IoError) = Ok [] /\
    read_wal_entries (append_wal_entries (Some (take 10 file)) second_batch).1 =
      (Err InvalidData : result (list (WalEntry Z)) IoError) /\
    read_wal_entries (append_wal_entries (Some (take 17 file)) second_batch).1 =
      Ok [WInsert true [4] (mkRecord 72339069014638598 (Some 25836912640) (Some []) None)].
Proof. eexists. split; [reflexivity|]. by vm_compute. Qed.

(** A value the codec refuses is found out in the middle of an entry, whose first
    half is flushed behind the entries before it: what is flushed afterwards,
    without an error, is not read. *)
Definition refused : WalEntry Z :=
  WInsert true [5] (mkRecord 7 None (Some [([110], VComposite CList (TyList TyInt))]) None).

Lemma refused_value_tears_log :
  let '(file, err) := append_wal_entries None (second_batch ++ [refused]) in
  let '(file', err') := append_wal_entries file [WMarkDeleted true [4] 9; WMarkDeleted false [4] 9] in
  err = Some InvalidData /\ err' = None /\
  read_wal_entries file' = Ok [WInsert true [4] (mkRecord 6 None (Some []) None) : WalEntry Z].
Proof. by vm_compute. Qed.

(** ** Checkpoints *)

Abbreviation vsize := (fun _ : Value Z => 8%nat) (only parsing).
Definition crc (l : list Z) : Z := foldr Z.add 0 l mod 2 ^ 32.

Lemma crc_u32 l : 0 <= crc l < 2 ^ 32.
Proof. apply Z.mod_pos_bound. lia. Qed.

Definition empty_dir : ChunkDir := mkDir ∅ None None.

(** With records of this size an entry takes a chunk of its own. *)
Abbreviation build m cap := (from_btree (Z.to_nat 40000) vsize 4 PoolExample.by_mod 0 [] m cap).
Abbreviation checkpoint_writes m := (write_chunked_index_checkpoint crc PoolExample.by_mod 0 (build m 100000)).1.2.
Abbreviation reopen d cap := (read_chunked_index_checkpoint_lazy crc (Z.to_nat 40000) vsize 4 d cap).

Definition one : list entry := [([1], live 5)].
Definition two : list entry := [([0], live 6); ([1], live 5)].

Lemma two_sorted : BMap.sorted two.
Proof.
  apply BMap.sorted_cons. split; [|by repeat constructor].
  apply BMap.sorted_cons. split; [apply BMap.sorted_nil|constructor].
Qed.

Lemma two_storable : storable two.
Proof.
  split_and!; [|by repeat constructor|done].
  apply List.Forall_forall. intros e [<-|[<-|[]]]; (split; [done|by apply live_valid]).
Qed.

(** Two chunks, reopened over a pool that holds none of them. *)
Lemma checkpoint_reload_witness :
  exists ws idx m' idx',
    write_chunked_index_checkpoint crc PoolExample.by_mod 0 (build two 100000) = (idx, ws, None) /\
    reopen (fold_left apply_write ws empty_dir) 10 = Ok (Some idx') /\
    Chunked.prefix idx' = [] /\ Forall2 entry_reread two m' /\
    forall reads now' lower upper,
    let i := fold_left (fun i q => (range PoolExample.by_mod q.1.1 i q.1.2 q.2).1) reads idx' in
    (range PoolExample.by_mod now' i lower upper).2 = List.filter (within lower upper) m' /\
    (snapshot PoolExample.by_mod now' i).2 = m'.
Proof.
  apply (checkpoint_reload crc (Z.to_nat 40000) vsize crc_u32 4 PoolExample.by_mod ltac:(lia) PoolExample.by_mod_lt
    0 [] two 100000 empty_dir 10 two_sorted two_storable).
  by vm_compute.
Defined.

(** A checkpoint writes its chunks over those of the last one, and the list of
    chunks afterwards: when it stops in between, the old list names the new
    chunks, and an entry that both maps have is in neither. *)
Lemma crash_in_checkpoint_loses_entry :
  let old := fold_left apply_write (checkpoint_writes one) empty_dir in
  let crashed := fold_left apply_write (take 1 (checkpoint_writes two)) old in
  match reopen crashed 100000 with
  | Ok (Some idx) =>
      Some (map fst (snapshot PoolExample.by_mod 1 idx).2, (range PoolExample.by_mod 1 idx [1] [2]).2)
  | _ => None
  end = Some ([[0]], []).
Proof. vm_compute. reflexivity. Qed.

(** A key of [65536] bytes has length [0] in the list of chunks, and its bytes
    are read as what follows. *)
Lemma long_key_cut :
  let key := replicate (Z.to_nat 65536) 7 in
  match deserialize_chunk_index (serialize_chunk_index [(3, key, key)] [(3, 0, 9)]) with
  | Ok (descs, _) => Some (map (fun d => (d.1.1, length d.1.2, length d.2)) descs)
  | Err _ => None
  end = Some [(3, 0%nat, Z.to_nat 1799)].
Proof. vm_compute. reflexivity. Qed.

End IxFilesExample.
