(* ===== verification/IndexPending.v ===== *)
(** * Pending deltas of a native index

    [linkrs-storage/src/index/index_data_manager/pending_delta.rs]: writes are
    accumulated per index and published as one generation when there are enough
    of them, or when a read needs them. *)

From stdpp Require Import base gmap sets list strings.
From Stdlib Require Import ZArith Lia.
From S2P Require Import Prelude Types Values WalTypes OrderedCodec OrderedFacts IndexManifest IndexManifestFacts ByteMap BufferPool.
From S2P Require Import IndexChunk IndexShardRuntime IndexShardFacts IndexChain IndexChainFacts IndexExamples.

Module Pending.
Import Codec CodecFacts Manifest ManifestFacts Chunked Shard ShardFacts Chain ChainFacts.

Section pending.
Context {Dec I : Type} `{MapStore I (IndexRecord Dec)}.
Abbreviation entry := (list Z * IndexRecord Dec)%type (only parsing).
Abbreviation IndexMaps := (list entry * list entry)%type (only parsing).
Implicit Types (m l : list entry).

Variable hash : Z -> list Z -> Z.
Variable now : Z.

Record PendingDelta := mkPending {
  per_shard : gmap Z IndexMaps;
  pd_entries : Z;
  pd_write_ts : Z;
}.

(** The default of a pending delta. *)
Definition pending_new : PendingDelta := mkPending ∅ 0 0.

(** The closure [merge_record]: one record, and the tombstone counter. *)
Definition merge_record (s : list entry * Z) (e : entry) : list entry * Z :=
  let '(m, count) := s in
  (BMap.insert e.1 e.2 m,
   match BMap.get e.1 m with
   | Some old =>
       match is_deleted old, is_deleted e.2 with
       | false, true => wrap_u64 (count + 1)
       | true, false => saturating_sub_u64 count 1
       | _, _ => count
       end
   | None => if is_deleted e.2 then wrap_u64 (count + 1) else count
   end).

Definition merge_records m (count : Z) l : list entry * Z := fold_left merge_record l (m, count).

(** One shard of a delta merged into the pending one. *)
Definition merge_shard (s : PendingDelta * Z) (d : Z * IndexMaps) : PendingDelta * Z :=
  let '(p, count) := s in
  let '(pf, pr) := default ([], []) (per_shard p !! d.1) in
  let '(pf', count1) := merge_records pf count d.2.1 in
  let '(pr', count2) := merge_records pr count1 d.2.2 in
  (mkPending (<[d.1 := (pf', pr')]> (per_shard p))
     (pd_entries p + Z.of_nat (length d.2.1 + length d.2.2)) (pd_write_ts p), count2).

(** The index as the writes see it: pending delta, tombstone counter, runtime
    and catalog. *)
Record IndexState := mkState {
  ix_pending : option PendingDelta;
  ix_tombstones : Z;
  ix_runtime : IndexRuntime Dec I;
  ix_catalog : ManifestCatalog;
}.

Definition delta_tombstones (delta : gmap Z IndexMaps) : Z :=
  foldr (fun d n => Z.of_nat (length (List.filter (fun e => is_deleted e.2) (d.2.1 ++ d.2.2))) + n) 0
    (map_to_list delta).

(** [publish_delta_generation] on the state; the pending entry is gone before. *)
Definition publish_now (fpre rpre : list Z) (delta : gmap Z IndexMaps) (write_ts : Z) (st : IndexState)
  : IndexState * result unit StorageError :=
  let '(rt, cat, r) := publish_delta_generation hash now fpre rpre delta write_ts (ix_runtime st) (ix_catalog st) in
  (mkState (ix_pending st) (ix_tombstones st) rt cat, r).

Definition accumulate_delta (delta_publish_threshold : Z) (fpre rpre : list Z) (delta : gmap Z IndexMaps)
    (write_ts : Z) (st : IndexState) : IndexState * result unit StorageError :=
  let threshold := Z.max delta_publish_threshold 1 in
  if decide (threshold <= 1) then
    publish_now fpre rpre delta write_ts
      (mkState (ix_pending st) (wrap_u64 (ix_tombstones st + delta_tombstones delta)) (ix_runtime st)
         (ix_catalog st))
  else
    let '(p, count) := fold_left merge_shard (map_to_list delta)
                         (default pending_new (ix_pending st), ix_tombstones st) in
    let p := mkPending (per_shard p) (pd_entries p) (Z.max (pd_write_ts p) write_ts) in
    if decide (threshold <= pd_entries p) then
      publish_now fpre rpre (per_shard p) (pd_write_ts p)
        (mkState None count (ix_runtime st) (ix_catalog st))
    else (mkState (Some p) count (ix_runtime st) (ix_catalog st), Ok tt).

Definition publish_pending_delta (fpre rpre : list Z) (st : IndexState)
  : IndexState * result unit StorageError :=
  match ix_pending st with
  | None => (st, Ok tt)
  | Some p =>
      let st := mkState None (ix_tombstones st) (ix_runtime st) (ix_catalog st) in
      if decide (per_shard p = ∅) then (st, Ok tt)
      else publish_now fpre rpre (per_shard p) (pd_write_ts p) st
  end.

(** ** Facts *)

Definition tombstones m : Z := Z.of_nat (length (List.filter (fun e => is_deleted e.2) m)).

Definition is_tomb (o : option (IndexRecord Dec)) : Z :=
  match o with Some r => if is_deleted r then 1 else 0 | None => 0 end.

Lemma tombstones_insert k r m :
  BMap.sorted m ->
  tombstones (BMap.insert k r m) = tombstones m + is_tomb (Some r) - is_tomb (BMap.get k m).
Proof.
  unfold tombstones, is_tomb. induction m as [|[j w] m IH]; intros Hs; simpl.
  { destruct (is_deleted r); simpl; lia. }
  apply BMap.sorted_cons in Hs as [Hs Hl]. specialize (IH Hs).
  destruct (bytes_cmp k j) eqn:E; simpl.
  - destruct (is_deleted r), (is_deleted w); simpl; lia.
  - destruct (is_deleted r), (is_deleted w); simpl; lia.
  - destruct (is_deleted w); simpl; rewrite ?Nat2Z.inj_succ; lia.
Qed.

Lemma merge_records_map m count l : (merge_records m count l).1 = BMap.extend m l.
Proof.
  unfold merge_records, BMap.extend. revert m count; induction l as [|e l IH]; intros m count; simpl; [done|].
  apply IH.
Qed.

(** The counter moves with the tombstones of the map, as long as it holds at
    least those and does not overflow. *)
Lemma merge_records_count m count l :
  BMap.sorted m -> tombstones m <= count -> count + Z.of_nat (length l) <= U64_MAX ->
  (merge_records m count l).2 = count + tombstones (BMap.extend m l) - tombstones m.
Proof.
  unfold merge_records, BMap.extend. revert m count; induction l as [|[k r] l IH]; intros m count Hs Hle Hmax;
    cbn [fold_left length] in *; [simpl; lia|].
  pose proof (tombstones_insert k r m Hs) as Ht.
  assert (Hpos : 0 <= tombstones m) by (unfold tombstones; lia).
  assert (Hone : is_tomb (BMap.get k m) <= tombstones m).
  { assert (0 <= tombstones (BMap.insert k (record_new 0) m)) by (unfold tombstones; lia).
    pose proof (tombstones_insert k (record_new 0) m Hs) as H0'. simpl in H0'. lia. }
  set (count1 := (merge_record (m, count) (k, r)).2).
  assert (Hc : count1 = count + is_tomb (Some r) - is_tomb (BMap.get k m)).
  { unfold count1, merge_record, is_tomb in *. cbn [fst snd]. rewrite Nat2Z.inj_succ in Hmax.
    destruct (BMap.get k m) as [old|]; [destruct (is_deleted old)|]; destruct (is_deleted r); simpl in *;
      unfold saturating_sub_u64; rewrite ?wrap_u64_small by (unfold is_u64; lia); lia. }
  change (merge_record (m, count) (k, r)) with (BMap.insert k r m, count1).
  rewrite IH; [simpl; lia|by apply BMap.sorted_insert|lia|].
  rewrite Nat2Z.inj_succ in Hmax. unfold is_tomb in Hc.
  destruct (BMap.get k m) as [old|]; [destruct (is_deleted old)|]; destruct (is_deleted r); lia.
Qed.

End pending.
Arguments PendingDelta : clear implicits.
Arguments IndexState : clear implicits.

(** ** Snapshots between two pending writes *)

Module Example.
Import IndexExample.

#[local] Existing Instance list_store.

Definition state0 : IndexState Z (list (list Z * IndexRecord Z)) := mkState None 0 runtime1 catalog1.

(** The key [3] is written at 20 and deleted at 30 while both are pending: one
    record is kept, the deletion, and a reader at 25 does not see the key; with
    a publication after each write it does. *)
Definition write_then_delete (threshold : Z) : IndexState Z (list (list Z * IndexRecord Z)) :=
  let st := (accumulate_delta toy_hash 0 threshold [] [] {[ 0 := ([([3], live 20)], []) ]} 20 state0).1 in
  let st := (accumulate_delta toy_hash 0 threshold [] [] {[ 0 := ([([3], gone 30)], []) ]} 30 st).1 in
  (publish_pending_delta toy_hash 0 [] [] st).1.

Definition read_at (ts : Z) (st : IndexState Z (list (list Z * IndexRecord Z)))
  : option (list (list Z * IndexRecord Z)) :=
  match generation_chain_until (ix_runtime st) (gen_of (active (ix_catalog st))) with
  | Ok chain => drain toy_hash 0 10 (iter_new chain 0 ts [3] [4])
  | Err _ => None
  end.

Lemma pending_delta_loses_version :
  read_at 25 (write_then_delete 1) = Some [([3], live 20)] /\
  read_at 25 (write_then_delete 512) = Some [].
Proof. by vm_compute. Qed.

End Example.
End Pending.
