(* ===== verification/CsrShared.v ===== *)
(** * Primitives of the edge stores

    [linkrs-storage/src/edge/slot.rs] (slots and their two halves) and
    [edge/csr_shared.rs] (growth, endpoint keys, the state machine of a slot, the
    segmented row table, the overflow table with its presence bits, the set of
    edge identifiers).

    Vertices inside a store are dense [u32] numbers, here naturals.  The
    capacity the allocator grants for a request is a parameter. *)

From stdpp Require Import base gmap list strings.
From Stdlib Require Import ZArith Lia.
From S2P Require Import Prelude Types Values Watermarks OrderedCodec OrderedFacts.

Module CsrShared.
Import Codec CodecFacts.

(** ** Slots *)

(** [Timestamp::MAX]: not deleted. *)
Definition TS_MAX : Z := U64_MAX.
Definition INVALID_EDGE_ID : Z := U64_MAX.

(** The hot half: topology. *)
Record HotNbr := mkHot { h_endpoint : Z; h_rank : Z; h_edge_id : Z }.

(** The cold half: the deletion stamp. *)
Record ColdStamps := mkCold { c_delete_ts : Z }.

Record Nbr := mkNbr { endpoint : Z; nbr_rank : Z; edge_id : Z; delete_ts : Z }.

#[export] Instance HotNbr_eq_dec : EqDecision HotNbr.
Proof. solve_decision. Defined.
#[export] Instance ColdStamps_eq_dec : EqDecision ColdStamps.
Proof. solve_decision. Defined.
#[export] Instance Nbr_eq_dec : EqDecision Nbr.
Proof. solve_decision. Defined.

Definition hot_dead_gap : HotNbr := mkHot 0 0 INVALID_EDGE_ID.
Definition cold_dead_gap : ColdStamps := mkCold 0.
Definition is_live (c : ColdStamps) : bool := bool_decide (c_delete_ts c = TS_MAX).

(** [Nbr::with_create_ts]; the creation stamp is kept elsewhere. *)
Definition with_create_ts (ep rk id create_ts : Z) : Nbr := mkNbr ep rk id TS_MAX.
Definition dead_gap : Nbr := mkNbr 0 0 INVALID_EDGE_ID 0.
Definition is_alive_at (n : Nbr) (ts : Z) : bool := bool_decide (ts < delete_ts n).
Definition hot (n : Nbr) : HotNbr := mkHot (endpoint n) (nbr_rank n) (edge_id n).
Definition cold (n : Nbr) : ColdStamps := mkCold (delete_ts n).
Definition from_parts (h : HotNbr) (c : ColdStamps) : Nbr :=
  mkNbr (h_endpoint h) (h_rank h) (h_edge_id h) (c_delete_ts c).

(** ** Endpoint keys *)

(** [VertexId::edge_endpoint_key]. *)
Definition edge_endpoint_key (ep rk : Z) : VertexId :=
  mkVertexId (pad_payload (be_bytes 8 ep ++ be_bytes 8 (as_unsigned 64 rk))) 16
    (kind_as_u8 KEdgeEndpoint).

Definition try_decode_edge_endpoint (v : VertexId) : option (VertexId * Z) :=
  if decide (vid_kind_of v <> KEdgeEndpoint \/ vid_len v <> 16) then None
  else
    let bytes := as_bytes v in
    match try_from_int64 (as_signed 64 (from_be_bytes (take 8 bytes))) with
    | Err _ => None
    | Ok e => Some (e, as_signed 64 (from_be_bytes (take 8 (drop 8 bytes))))
    end.

(** [as_internal_u32], with [as_int64] and [as_u64] under it. *)
Definition as_internal_u32 (v : VertexId) : option Z :=
  let bits := from_be_bytes (take 8 (vid_data v)) in
  match vid_kind_of v with
  | KInt => let i := as_signed 64 bits in if decide (0 <= i < 2 ^ 32) then Some i else None
  | KUint => if decide (bits < 2 ^ 32) then Some bits else None
  | _ => None
  end.

Definition decode_endpoint_pair (dst : VertexId) : option (Z * Z) :=
  match try_decode_edge_endpoint dst with
  | None => None
  | Some (v, rk) => match as_internal_u32 v with None => None | Some ep => Some (ep, rk) end
  end.

(** ** The state machine of a slot *)

Inductive CsrError := InvalidInput | EdgeAlreadyExists | WriteWriteConflict.

Inductive DeleteSlotOutcome := Stamped | AlreadyStamped.

Definition decide_slot_delete (n : Nbr) (ts : Z) : result DeleteSlotOutcome CsrError :=
  if decide (delete_ts n <> TS_MAX) then
    if decide (delete_ts n <> ts) then Err WriteWriteConflict else Ok AlreadyStamped
  else Ok Stamped.

Definition can_revert_delete (n : Nbr) (ts : Z) : bool :=
  bool_decide (delete_ts n <> TS_MAX) && bool_decide (delete_ts n <= ts).

Definition is_gap_edge (id : Z) : bool := bool_decide (id = INVALID_EDGE_ID).

Definition is_reclaimable_cold (c : ColdStamps) (cutoff : Z) : bool :=
  bool_decide (c_delete_ts c <> TS_MAX) && Visibility.is_gc_eligible (c_delete_ts c) cutoff.

(** ** Growth *)

Definition DEFAULT_VERTEX_CAPACITY : nat := 1024.

(** [ceil(1.25 * min)]; the product of an index by [1.25] is exact in [f64]. *)
Definition grown_vertex_capacity (min_capacity : nat) : nat :=
  Nat.max ((5 * min_capacity + 3) / 4) min_capacity.

(** [Vec::resize] to a length that is not shorter. *)
Definition resize {A} (n : nat) (x : A) (l : list A) : list A := l ++ replicate (n - length l) x.

(** ** Row tables *)

Definition SEGMENT_SHIFT : nat := 10.
Definition SEGMENT_SIZE : nat := 1024.
Definition SEGMENT_MASK : nat := 1023.

(** Row address as segment and offset. *)
Definition locate (vid : nat) : nat * nat :=
  (Nat.shiftr vid SEGMENT_SHIFT, Nat.land vid SEGMENT_MASK).

Section tables.
Context {T : Type}.

(** The segments; one that no row has touched is not allocated. *)
Abbreviation segments := (list (option (list (option T)))) (only parsing).

Definition seg_ensure_capacity (n : nat) (t : segments) : segments :=
  resize ((n + SEGMENT_SIZE - 1) / SEGMENT_SIZE) None t.

Definition seg_get (t : segments) (vid : nat) : option T :=
  let '(seg, off) := locate vid in
  match t !! seg with
  | Some (Some s) => match s !! off with Some x => x | None => None end
  | _ => None
  end.

(** What is done through [slot_mut]: the slot is there after it. *)
Definition seg_slot_mut (f : option T -> option T) (vid : nat) (t : segments) : segments :=
  let '(seg, off) := locate vid in
  let t := resize (S seg) None t in
  let s := match t !! seg with Some (Some s) => s | _ => replicate SEGMENT_SIZE None end in
  <[seg := Some (alter f off s)]> t.

(** What is done through [get_mut]: nothing for a row that is not there. *)
Definition seg_get_mut (f : T -> T) (vid : nat) (t : segments) : segments :=
  let '(seg, off) := locate vid in
  match t !! seg with
  | Some (Some s) => <[seg := Some (alter (option_map f) off s)]> t
  | _ => t
  end.

Definition seg_take (vid : nat) (t : segments) : segments * option T :=
  let '(seg, off) := locate vid in
  match t !! seg with
  | Some (Some s) =>
      (<[seg := Some (alter (fun _ => None) off s)]> t, match s !! off with Some x => x | None => None end)
  | _ => (t, None)
  end.

Definition seg_clear (t : segments) : segments :=
  map (option_map (map (fun _ => None))) t.

(** ** Presence bits *)

Definition word_bit (w : Z) (bit : nat) : bool :=
  negb (bool_decide (Z.land w (Z.shiftl 1 (Z.of_nat bit)) = 0)).

Definition has_row (present : list Z) (vid : nat) : bool :=
  match present !! (vid / 64)%nat with
  | Some w => word_bit w (vid mod 64)
  | None => false
  end.

Definition set_present (vid : nat) (value : bool) (present : list Z) : list Z :=
  let mask := Z.shiftl 1 (Z.of_nat (vid mod 64)) in
  alter (fun w => if value then Z.lor w mask else Z.ldiff w mask) (vid / 64)%nat
    (resize (S (vid / 64)) 0 present).

End tables.

(** [EdgeIdBitSet]. *)
Definition bitset_insert (id : nat) (words : list Z) : list Z := set_present id true words.
Definition bitset_contains (words : list Z) (id : nat) : bool := has_row words id.

(** [OverflowChunkSpec]: what the table needs of a chunk. *)
Class OverflowChunkSpec (C Slot : Type) := {
  spec_with_capacity : nat -> C;
  spec_len : C -> nat;
  spec_capacity : C -> nat;
  spec_push : C -> Slot -> C;
}.

Record OverflowTable (C : Type) := mkTable {
  table : list (option (list (option (list C))));
  live_entries : nat;
  present : list Z;
}.
Arguments mkTable {C}. Arguments table {C}. Arguments live_entries {C}. Arguments present {C}.

Section overflow.
Context {C Slot : Type} `{OverflowChunkSpec C Slot}.
Implicit Types (t : OverflowTable C).

Definition ot_new : OverflowTable C := mkTable [] 0 [].

Definition ot_ensure_capacity (n : nat) t : OverflowTable C :=
  mkTable (seg_ensure_capacity n (table t)) (live_entries t) (resize ((n + 63) / 64) 0 (present t)).

Definition ot_get t (vid : nat) : option (list C) :=
  if has_row (present t) vid then seg_get (table t) vid else None.

Definition single_chunk t (vid : nat) : option C :=
  match ot_get t vid with Some [c] => Some c | _ => None end.

(** What is done through [get_mut]. *)
Definition ot_get_mut (f : list C -> list C) (vid : nat) t : OverflowTable C :=
  if has_row (present t) vid then mkTable (seg_get_mut f vid (table t)) (live_entries t) (present t)
  else t.

(** The tail chunk is full, or there is none. *)
Definition needs_chunk (chunks : list C) : bool :=
  match last chunks with
  | None => true
  | Some c => bool_decide (Nat.max (spec_capacity c) 1 <= spec_len c)%nat
  end.

(** A record pushed to a row: the chunks, and the capacity of a new one. *)
Definition push_chunks (slot : Slot) (chunk_edges : nat) (chunks : list C) : list C * option nat :=
  let '(chunks, added) :=
    if needs_chunk chunks then
      let c := spec_with_capacity chunk_edges in (chunks ++ [c], Some (spec_capacity c))
    else (chunks, None) in
  (alter (fun c => spec_push c slot) (pred (length chunks)) chunks, added).

Definition push_to_row (vid : nat) (slot : Slot) (chunk_edges : nat) t
  : OverflowTable C * (nat * option nat) :=
  let row := seg_get (table t) vid in
  let '(chunks, added) := push_chunks slot chunk_edges (default [] row) in
  (mkTable (seg_slot_mut (fun _ => Some chunks) vid (table t))
     (match row with None => S (live_entries t) | Some _ => live_entries t end)
     (set_present vid true (present t)),
   (length chunks, added)).

Definition ot_insert (vid : nat) (chunks : list C) t : OverflowTable C :=
  let row := seg_get (table t) vid in
  let live := match row, chunks with
              | None, _ :: _ => S (live_entries t)
              | Some _, [] => pred (live_entries t)
              | _, _ => live_entries t
              end in
  match chunks with
  | [] => mkTable (seg_slot_mut (fun _ => None) vid (table t)) live (set_present vid false (present t))
  | _ => mkTable (seg_slot_mut (fun _ => Some chunks) vid (table t)) live (set_present vid true (present t))
  end.

Definition ot_clear t : OverflowTable C := mkTable (seg_clear (table t)) 0 [].

Definition ot_remove (vid : nat) t : OverflowTable C * option (list C) :=
  if has_row (present t) vid then
    match seg_take vid (table t) with
    | (tb, Some chunks) => (mkTable tb (pred (live_entries t)) (set_present vid false (present t)), Some chunks)
    | (tb, None) => (mkTable tb (live_entries t) (present t), None)
    end
  else (t, None).

End overflow.

End CsrShared.

(** * Facts about the primitives of the edge stores

    Endpoint keys round-trip; the segmented table with its presence bits is a
    finite map from rows to chunks. *)

Module CsrSharedFacts.
Import Codec CodecFacts CsrShared.

(** ** Slots *)

Lemma parts_id n : from_parts (hot n) (cold n) = n.
Proof. by destruct n. Qed.

Lemma hot_parts h c : hot (from_parts h c) = h.
Proof. by destruct h. Qed.

Lemma cold_parts h c : cold (from_parts h c) = c.
Proof. by destruct c. Qed.

(** A key is read back as the pair it packs. *)
Lemma endpoint_key_roundtrip ep rk :
  0 <= ep < 2 ^ 32 -> - 2 ^ 63 <= rk < 2 ^ 63 ->
  decode_endpoint_pair (edge_endpoint_key ep rk) = Some (ep, rk).
Proof.
  intros He Hr. set (b1 := be_bytes 8 ep). set (b2 := be_bytes 8 (as_unsigned 64 rk)).
  assert (L1 : length b1 = 8%nat) by apply length_be_bytes.
  assert (L2 : length b2 = 8%nat) by apply length_be_bytes.
  assert (Hb : as_bytes (edge_endpoint_key ep rk) = b1 ++ b2).
  { change (take 16 ((b1 ++ b2) ++ replicate (32 - length (b1 ++ b2)) 0) = b1 ++ b2).
    rewrite take_app_le by (rewrite length_app; lia). apply take_ge. rewrite length_app. lia. }
  assert (E1 : from_be_bytes b1 = ep).
  { apply from_be_bytes_be. change (256 ^ Z.of_nat 8) with (2 ^ 64). lia. }
  assert (E2 : from_be_bytes b2 = as_unsigned 64 rk).
  { apply from_be_bytes_be. change (256 ^ Z.of_nat 8) with (2 ^ 64). apply Z.mod_pos_bound. lia. }
  unfold decode_endpoint_pair, try_decode_edge_endpoint. rewrite Hb.
  rewrite decide_False by (simpl; naive_solver).
  rewrite take_app_le, (take_ge b1), E1 by lia. rewrite drop_app_ge, L1 by lia.
  rewrite drop_0, (take_ge b2), E2 by lia.
  assert (Hs : as_signed 64 ep = ep) by (unfold as_signed; rewrite Z.mod_small; lia).
  rewrite Hs, signed_unsigned by done.
  assert (Ht : take 8 (pad_payload b1) = b1).
  { unfold pad_payload. rewrite take_app_le by lia. apply take_ge. lia. }
  assert (Hv : try_from_int64 ep = Ok (mkVertexId (pad_payload b1) 8 1)).
  { unfold try_from_int64, from_typed_bytes. rewrite decide_False by lia. fold b1. rewrite L1.
    by rewrite decide_False, decide_True by (unfold VERTEX_ID_MAX_SIZE; lia). }
  rewrite Hv. unfold as_internal_u32. cbn [vid_data]. rewrite Ht, E1.
  change (vid_kind_of _) with KInt. cbn iota beta zeta. rewrite Hs. by rewrite decide_True by lia.
Qed.

(** ** Lists *)

Lemma lookup_resize {A} n (x : A) l i :
  (length l <= n)%nat -> resize n x l !! i = if decide (i < n)%nat then Some (default x (l !! i)) else None.
Proof.
  intros Hn. unfold resize. destruct (decide (i < length l)%nat) as [Hi|Hi].
  - rewrite lookup_app_l by done. rewrite decide_True by lia.
    destruct (lookup_lt_is_Some_2 l i Hi) as [y ->]. done.
  - rewrite lookup_app_r by lia. rewrite (lookup_ge_None_2 l i) by lia. case_decide.
    + by rewrite lookup_replicate_2 by lia.
    + apply lookup_ge_None_2. rewrite length_replicate. lia.
Qed.

Lemma resize_short {A} n (x : A) l : (n <= length l)%nat -> resize n x l = l.
Proof. intros Hn. unfold resize. replace (n - length l)%nat with 0%nat by lia. apply app_nil_r. Qed.

(** A lookup that cannot tell what is past the end from the filler. *)
Lemma lookup_resize_default {A} n (x : A) l i : default x (resize n x l !! i) = default x (l !! i).
Proof.
  destruct (decide (length l <= n)%nat) as [Hn|Hn].
  - rewrite lookup_resize by done. case_decide; [done|]. by rewrite (lookup_ge_None_2 l) by lia.
  - by rewrite resize_short by lia.
Qed.

Lemma length_resize {A} n (x : A) l : length (resize n x l) = Nat.max n (length l).
Proof. unfold resize. rewrite length_app, length_replicate. lia. Qed.

(** ** Segments *)

Lemma locate_div vid : locate vid = (vid / 1024, vid mod 1024)%nat.
Proof.
  unfold locate, SEGMENT_SHIFT, SEGMENT_MASK. f_equal.
  - by rewrite Nat.shiftr_div_pow2.
  - change 1023%nat with (Nat.ones 10). by rewrite Nat.land_ones.
Qed.

Lemma div_mod_inj n v w : (v / n)%nat = (w / n)%nat -> (v mod n)%nat = (w mod n)%nat -> v = w.
Proof. intros Hd Hm. rewrite (Nat.div_mod_eq v n), (Nat.div_mod_eq w n). by rewrite Hd, Hm. Qed.

Lemma locate_ne v w : v <> w -> (v / 1024)%nat = (w / 1024)%nat -> (v mod 1024)%nat <> (w mod 1024)%nat.
Proof. intros Hne Hd Hm. by apply Hne, (div_mod_inj 1024). Qed.

Section tables.
Context {T : Type}.
Implicit Types (t : list (option (list (option T)))) (v w : nat).

Definition seg_wf t : Prop := Forall (fun o => forall s, o = Some s -> length s = SEGMENT_SIZE) t.

Lemma seg_wf_lookup t i s : seg_wf t -> t !! i = Some (Some s) -> length s = SEGMENT_SIZE.
Proof. intros Hw Hi. unfold seg_wf in Hw. rewrite Forall_lookup in Hw. by apply (Hw i (Some s)). Qed.

Lemma seg_get_div t v : seg_get t v =
  match t !! (v / 1024)%nat with
  | Some (Some s) => default None (s !! (v mod 1024)%nat)
  | _ => None
  end.
Proof.
  unfold seg_get. rewrite locate_div. destruct (t !! _) as [[s|]|]; [|done|done].
  by destruct (s !! _).
Qed.

Lemma seg_slot_mut_wf f v t : seg_wf t -> seg_wf (seg_slot_mut f v t).
Proof.
  intros Hw. unfold seg_slot_mut. rewrite locate_div.
  assert (Hw' : seg_wf (resize (S (v / 1024)) None t)).
  { apply Forall_app. split; [done|]. apply Forall_replicate. done. }
  set (s0 := match _ with Some (Some s) => s | _ => _ end).
  assert (Hs0 : length s0 = SEGMENT_SIZE).
  { unfold s0. destruct (resize (S (v / 1024)) None t !! (v / 1024)%nat) as [[s|]|] eqn:E;
      try apply length_replicate. by apply (seg_wf_lookup _ _ _ Hw' E). }
  apply Forall_insert; [done|]. clearbody s0. intros s [= <-]. by rewrite length_alter.
Qed.

Lemma seg_get_slot_mut f v w t :
  seg_wf t -> seg_get (seg_slot_mut f v t) w = if decide (v = w) then f (seg_get t v) else seg_get t w.
Proof.
  intros Hw. rewrite !seg_get_div. unfold seg_slot_mut. rewrite locate_div.
  set (i := (v / 1024)%nat). set (t' := resize (S i) None t).
  assert (Hl : (i < length t')%nat) by (unfold t'; rewrite length_resize; lia).
  assert (Hsame : forall j, match t' !! j with Some (Some s) => Some s | _ => None end =
    match t !! j with Some (Some s) => Some s | _ => None end).
  { intros j. pose proof (lookup_resize_default (S i) None t j) as E. fold t' in E.
    destruct (t' !! j) as [[?|]|], (t !! j) as [[?|]|]; simpl in E; congruence. }
  set (s := match t' !! i with Some (Some s) => s | _ => replicate SEGMENT_SIZE None end).
  assert (Hslen : length s = 1024%nat).
  { unfold s. specialize (Hsame i). destruct (t' !! i) as [[x|]|]; try apply length_replicate.
    destruct (t !! i) as [[y|]|] eqn:E; simplify_eq. by apply (seg_wf_lookup t i). }
  assert (Hs : forall off, default None (s !! off) =
    match t !! i with Some (Some s) => default None (s !! off) | _ => None end).
  { intros off. unfold s. specialize (Hsame i). destruct (t' !! i) as [[x|]|], (t !! i) as [[y|]|]; simplify_eq; try done.
    all: destruct (decide (off < SEGMENT_SIZE)%nat) as [Ho|Ho];
      [by rewrite lookup_replicate_2|by rewrite (lookup_ge_None_2 (replicate _ _)) by (rewrite length_replicate; lia)]. }
  destruct (decide (w / 1024 = i)%nat) as [Ei|Ei].
  - rewrite Ei, list_lookup_insert_eq by done. case_decide as Hvw.
    + subst w. rewrite list_lookup_alter_eq. rewrite <- Hs.
      destruct (lookup_lt_is_Some_2 s (v mod 1024)) as [x ->]; [rewrite Hslen; by apply Nat.mod_upper_bound|done].
    + rewrite list_lookup_alter_ne by by apply locate_ne. apply Hs.
  - rewrite list_lookup_insert_ne by done. rewrite decide_False by (intros ->; done).
    specialize (Hsame (w / 1024)%nat). by destruct (t' !! _) as [[?|]|], (t !! _) as [[?|]|]; simplify_eq.
Qed.

(** A mutation in place is one through the slot when the row is there. *)
Lemma seg_get_mut_slot (f : T -> T) v t x :
  seg_get t v = Some x -> seg_get_mut f v t = seg_slot_mut (option_map f) v t.
Proof.
  rewrite seg_get_div. unfold seg_get_mut, seg_slot_mut. rewrite locate_div.
  destruct (t !! (v / 1024)%nat) as [[s|]|] eqn:E; [|done|done]. intros _.
  apply lookup_lt_Some in E as Hl. by rewrite resize_short, E by lia.
Qed.

Lemma seg_take_get v t : (seg_take v t).2 = seg_get t v.
Proof. unfold seg_take, seg_get. rewrite locate_div. by destruct (t !! _) as [[s|]|]. Qed.

Lemma seg_take_slot v t x : seg_get t v = Some x -> (seg_take v t).1 = seg_slot_mut (fun _ => None) v t.
Proof.
  rewrite seg_get_div. unfold seg_take, seg_slot_mut. rewrite locate_div.
  destruct (t !! (v / 1024)%nat) as [[s|]|] eqn:E; [|done|done]. intros _.
  apply lookup_lt_Some in E as Hl. by rewrite resize_short, E by lia.
Qed.

Lemma seg_clear_wf t : seg_wf t -> seg_wf (seg_clear t).
Proof.
  intros Hw. apply Forall_map. eapply Forall_impl; [exact Hw|]. intros [s|] Hs x; simpl; [|done].
  intros [= <-]. rewrite length_map. by apply Hs.
Qed.

Lemma seg_get_clear t v : seg_get (seg_clear t) v = None.
Proof.
  rewrite seg_get_div. unfold seg_clear. rewrite list_lookup_fmap.
  destruct (t !! _) as [[s|]|]; simpl; [|done|done]. rewrite list_lookup_fmap. by destruct (s !! _).
Qed.

Lemma seg_get_ensure n t v : seg_get (seg_ensure_capacity n t) v = seg_get t v.
Proof.
  rewrite !seg_get_div. unfold seg_ensure_capacity. set (m := ((n + SEGMENT_SIZE - 1) / SEGMENT_SIZE)%nat).
  pose proof (lookup_resize_default m None t (v / 1024)) as E.
  destruct (resize m None t !! _) as [[?|]|], (t !! _) as [[?|]|]; simpl in E; congruence.
Qed.

Lemma seg_ensure_wf n t : seg_wf t -> seg_wf (seg_ensure_capacity n t).
Proof. intros Hw. apply Forall_app. split; [done|]. apply Forall_replicate. done. Qed.

End tables.

(** ** Presence bits *)

Lemma word_bit_testbit w bit : word_bit w bit = Z.testbit w (Z.of_nat bit).
Proof.
  unfold word_bit. set (b := Z.of_nat bit). destruct (Z.testbit w b) eqn:E.
  - rewrite bool_decide_false; [done|]. intros H0.
    assert (Ht : Z.testbit (Z.land w (Z.shiftl 1 b)) b = false) by (rewrite H0; apply Z.bits_0).
    rewrite Z.land_spec, E, Z.shiftl_spec, Z.sub_diag in Ht by lia. done.
  - rewrite bool_decide_true; [done|]. apply Z.bits_inj'. intros n Hn.
    rewrite Z.land_spec, Z.bits_0, Z.shiftl_spec by lia. destruct (decide (n = b)) as [->|Hne].
    + by rewrite E.
    + replace (Z.testbit 1 (n - b)) with false; [by rewrite andb_false_r|]. symmetry.
      destruct (decide (n - b < 0)); [by apply Z.testbit_neg_r|]. change 1 with (2 ^ 0).
      apply Z.pow2_bits_false. lia.
Qed.

Lemma testbit_mask b n : 0 <= b -> 0 <= n -> Z.testbit (Z.shiftl 1 b) n = bool_decide (n = b).
Proof.
  intros Hb Hn. rewrite Z.shiftl_spec by lia. case_bool_decide as E.
  - subst. by rewrite Z.sub_diag.
  - destruct (decide (n - b < 0)); [by apply Z.testbit_neg_r|]. change 1 with (2 ^ 0).
    apply Z.pow2_bits_false. lia.
Qed.

Lemma has_row_default p v : has_row p v = Z.testbit (default 0 (p !! (v / 64)%nat)) (Z.of_nat (v mod 64)).
Proof.
  unfold has_row. destruct (p !! _); simpl; [apply word_bit_testbit|by rewrite Z.bits_0].
Qed.

Lemma has_row_set v b p w : has_row (set_present v b p) w = if decide (v = w) then b else has_row p w.
Proof.
  rewrite !has_row_default. unfold set_present. set (i := (v / 64)%nat). set (p' := resize (S i) 0 p).
  assert (Hd : forall j, default 0 (p' !! j) = default 0 (p !! j)) by (intros j; apply lookup_resize_default).
  destruct (decide (w / 64 = i)%nat) as [Ei|Ei].
  - rewrite Ei, list_lookup_alter_eq.
    destruct (lookup_lt_is_Some_2 p' i) as [x Hx]; [unfold p'; rewrite length_resize; lia|].
    specialize (Hd i). rewrite Hx in *. simpl in *. subst x. set (x := default 0 (p !! i)).
    assert (Hbit : forall c : bool, Z.testbit (if c then Z.lor x (Z.shiftl 1 (Z.of_nat (v mod 64)))
        else Z.ldiff x (Z.shiftl 1 (Z.of_nat (v mod 64)))) (Z.of_nat (w mod 64)) =
      if decide (v mod 64 = w mod 64)%nat then c else Z.testbit x (Z.of_nat (w mod 64))).
    { intros [|]; [rewrite Z.lor_spec|rewrite Z.ldiff_spec]; rewrite testbit_mask by lia; case_decide as Hm.
      1, 3: rewrite bool_decide_true by lia; simpl; auto using orb_true_r, andb_false_r.
      all: rewrite bool_decide_false by lia; simpl; auto using orb_false_r, andb_true_r. }
    rewrite Hbit. destruct (decide (v = w)) as [->|Hne]; [by rewrite decide_True|].
    rewrite decide_False; [done|]. intros Hm. by apply Hne, (div_mod_inj 64).
  - rewrite list_lookup_alter_ne by done. rewrite Hd. rewrite decide_False; [done|]. intros ->. done.
Qed.

(** The set of edge identifiers holds what was inserted. *)
Lemma bitset_insert_contains words a b :
  bitset_contains (bitset_insert a words) b = (bool_decide (a = b) || bitset_contains words b)%bool.
Proof. unfold bitset_contains, bitset_insert. rewrite has_row_set. by case_decide; case_bool_decide. Qed.

(** ** The overflow table is a map *)

Section overflow.
Context {C Slot : Type} `{OverflowChunkSpec C Slot}.
Implicit Types (t : OverflowTable C) (v w : nat).

Record ot_wf t : Prop := {
  ow_seg : seg_wf (table t);
  ow_bits : forall v, has_row (present t) v = true <-> is_Some (seg_get (table t) v);
}.

Lemma ot_get_table t v : ot_wf t -> ot_get t v = seg_get (table t) v.
Proof.
  intros [_ Hb]. unfold ot_get. destruct (has_row (present t) v) eqn:E; [done|].
  destruct (seg_get (table t) v) eqn:Es; [|done]. assert (has_row (present t) v = true) by (apply Hb; eauto).
  congruence.
Qed.

(** A row given a value, or none. *)
Lemma ot_put_wf t v (x : option (list C)) n :
  ot_wf t ->
  let t' := mkTable (seg_slot_mut (fun _ => x) v (table t)) n
              (set_present v (match x with Some _ => true | None => false end) (present t)) in
  ot_wf t' /\ forall w, ot_get t' w = if decide (v = w) then x else ot_get t w.
Proof.
  intros Hw. pose proof Hw as [Hs Hb]. set (t' := mkTable _ _ _).
  assert (Hw' : ot_wf t').
  { split; [by apply seg_slot_mut_wf|]. intros w. simpl. rewrite has_row_set, seg_get_slot_mut by done.
    case_decide; [|apply Hb]. by destruct x. }
  split; [done|]. intros w. rewrite !ot_get_table by done. simpl. by rewrite seg_get_slot_mut.
Qed.

Lemma ot_new_wf : ot_wf (ot_new (C := C)).
Proof. split; [constructor|]. intros v. split; [done|]. by intros [? E]. Qed.

Lemma ot_get_new v : ot_get (ot_new (C := C)) v = None.
Proof. done. Qed.

Lemma ot_ensure_wf n t : ot_wf t -> ot_wf (ot_ensure_capacity n t).
Proof.
  intros [Hs Hb]. split; [by apply seg_ensure_wf|]. intros v. simpl. rewrite seg_get_ensure, <- Hb.
  by rewrite !has_row_default, lookup_resize_default.
Qed.

Lemma ot_get_ensure n t v : ot_wf t -> ot_get (ot_ensure_capacity n t) v = ot_get t v.
Proof. intros Hw. rewrite !ot_get_table by (done || by apply ot_ensure_wf). apply seg_get_ensure. Qed.

Lemma push_to_row_spec t v x n :
  ot_wf t ->
  let chunks := (push_chunks x n (default [] (ot_get t v))) in
  let r := push_to_row v x n t in
  ot_wf r.1 /\ r.2 = (length chunks.1, chunks.2) /\
  forall w, ot_get r.1 w = if decide (v = w) then Some chunks.1 else ot_get t w.
Proof.
  intros Hw. cbn zeta. unfold push_to_row. rewrite (ot_get_table t v) by done.
  destruct (push_chunks x n (default [] (seg_get (table t) v))) as [chunks added]. cbn [fst snd].
  pose proof (ot_put_wf t v (Some chunks)) as Hp. by destruct (seg_get (table t) v) eqn:E;
    (edestruct Hp as [Hw' Hg]; [exact Hw|]; split_and!; [exact Hw'|done|exact Hg]).
Qed.

Lemma ot_insert_spec t v chunks :
  ot_wf t -> ot_wf (ot_insert v chunks t) /\
  forall w, ot_get (ot_insert v chunks t) w =
    if decide (v = w) then match chunks with [] => None | _ => Some chunks end else ot_get t w.
Proof.
  intros Hw. unfold ot_insert. destruct chunks as [|c chunks].
  - by apply (ot_put_wf t v None).
  - by apply (ot_put_wf t v (Some (c :: chunks))).
Qed.

Lemma ot_clear_spec t : ot_wf t -> ot_wf (ot_clear t) /\ forall v, ot_get (ot_clear t) v = None.
Proof.
  intros [Hs Hb]. assert (Hw : ot_wf (ot_clear t)).
  { split; [by apply seg_clear_wf|]. intros v. simpl. rewrite seg_get_clear. split; [done|by intros [? ?]]. }
  split; [done|]. intros v. rewrite ot_get_table by done. apply seg_get_clear.
Qed.

Lemma ot_remove_spec t v :
  ot_wf t -> let r := ot_remove v t in
  ot_wf r.1 /\ r.2 = ot_get t v /\ forall w, ot_get r.1 w = if decide (v = w) then None else ot_get t w.
Proof.
  intros Hw. cbn zeta. unfold ot_remove. rewrite (ot_get_table t v Hw).
  destruct (has_row (present t) v) eqn:Hr.
  - apply (ow_bits _ Hw) in Hr as [x Hx]. pose proof (seg_take_get v (table t)) as E2.
    pose proof (seg_take_slot v (table t) x Hx) as E1. rewrite Hx in E2 |- *.
    destruct (seg_take v (table t)) as [tb o]. simpl in E1, E2. subst.
    destruct (ot_put_wf t v None (pred (live_entries t)) Hw) as [Hw' Hg]. split_and!; [exact Hw'|done|exact Hg].
  - assert (Hn : seg_get (table t) v = None).
    { destruct (seg_get (table t) v) eqn:E; [|done].
      assert (has_row (present t) v = true) by (apply (ow_bits _ Hw); eauto). congruence. }
    split_and!; [done|done|]. intros w. case_decide; [subst; by rewrite ot_get_table|done].
Qed.

Lemma ot_get_mut_spec t v f :
  ot_wf t -> ot_wf (ot_get_mut f v t) /\
  forall w, ot_get (ot_get_mut f v t) w = if decide (v = w) then option_map f (ot_get t w) else ot_get t w.
Proof.
  intros Hw. unfold ot_get_mut. destruct (has_row (present t) v) eqn:Hr.
  - pose proof Hr as Hr'. apply (ow_bits _ Hw) in Hr' as [x Hx]. rewrite (seg_get_mut_slot f v (table t) x Hx).
    assert (Hw' : ot_wf (mkTable (seg_slot_mut (option_map f) v (table t)) (live_entries t) (present t))).
    { split; [by apply seg_slot_mut_wf, Hw|]. intros w. simpl. rewrite (ow_bits _ Hw), seg_get_slot_mut by apply Hw.
      case_decide; [subst; by rewrite Hx|done]. }
    split; [done|]. intros w. rewrite !ot_get_table by done. simpl. rewrite seg_get_slot_mut by apply Hw.
    by case_decide; [subst|].
  - split; [done|]. intros w. case_decide; [subst|done]. unfold ot_get. by rewrite Hr.
Qed.

End overflow.
End CsrSharedFacts.
