(* ===== verification/MutableCsr.v ===== *)
(** * The mutable edge store: state and writes

    [linkrs-storage/src/edge/mutable_csr.rs] with [core.rs], [overflow.rs],
    [live_set.rs], [row.rs], [write.rs] and [compaction.rs] under it: rows of
    slots in one primary array, overflow chunks behind them, and an index of the
    live keys of wide rows.

    Slots, rows and counts are naturals: the casts to [u32] are exact for a store
    of less than [2^32] slots.  The counters of the instrumentation are left out.
    A callback that reports what was deleted or dropped is a list in the
    result. *)

From stdpp Require Import base gmap list sorting strings.
From Stdlib Require Import ZArith Lia SpecFloat.
From S2P Require Import Prelude Types Watermarks IndexManifest CsrShared.

Module Csr.
Import CsrShared.

Abbreviation key := (Z * Z)%type (only parsing).

(** ** Allocation *)

(** The capacity of a vector made for [n] elements, and of an empty one after
    [reserve n]: at least [n]. *)
Class Allocator := {
  granted : nat -> nat;
  grown : nat -> nat;
  granted_ge : forall n, (n <= granted n)%nat;
  grown_ge : forall n, (n <= grown n)%nat;
}.

(** ** Overflow chunks *)

Record OverflowChunk := mkChunk {
  ch_hot : list HotNbr;
  ch_cold : list ColdStamps;
  ch_cap : nat;
}.

Section csr.
Context `{Allocator}.

Definition ch_with_capacity (cap : nat) : OverflowChunk := mkChunk [] [] (granted cap).
Definition ch_len (c : OverflowChunk) : nat := length (ch_hot c).

(** [slot_at] of a chunk. *)
Definition ch_slot_at (c : OverflowChunk) (i : nat) : option Nbr :=
  match ch_hot c !! i, ch_cold c !! i with
  | Some h, Some cd => Some (from_parts h cd)
  | _, _ => None
  end.

Definition ch_push (c : OverflowChunk) (n : Nbr) : OverflowChunk :=
  mkChunk (ch_hot c ++ [hot n]) (ch_cold c ++ [cold n])
    (if decide (ch_len c < ch_cap c)%nat then ch_cap c else grown (S (ch_len c))).

(** [cold_at_mut] used to stamp a slot. *)
Definition ch_stamp (i : nat) (ts : Z) (c : OverflowChunk) : OverflowChunk :=
  mkChunk (ch_hot c) (<[i := mkCold ts]> (ch_cold c)) (ch_cap c).

(** [Vec::swap_remove]. *)
Definition swap_remove {A} (i : nat) (l : list A) : list A :=
  match last l with
  | Some x => take (pred (length l)) (<[i := x]> l)
  | None => l
  end.

Definition ch_remove (i : nat) (c : OverflowChunk) : OverflowChunk :=
  mkChunk (swap_remove i (ch_hot c)) (swap_remove i (ch_cold c)) (ch_cap c).

Definition consolidated_with_reserve (slots : list Nbr) (spare : nat) : OverflowChunk :=
  mkChunk (map hot slots) (map cold slots) (grown (length slots + spare)).

Definition ch_consolidated (slots : list Nbr) : OverflowChunk := consolidated_with_reserve slots 0.

#[export] Instance chunk_spec : OverflowChunkSpec OverflowChunk Nbr := {
  spec_with_capacity := ch_with_capacity;
  spec_len := ch_len;
  spec_capacity := ch_cap;
  spec_push := ch_push;
}.

(** The slots of a chunk: the two halves, zipped. *)
Definition ch_slots (c : OverflowChunk) : list Nbr := zip_with from_parts (ch_hot c) (ch_cold c).

Definition OVERFLOW_REPACK_CHUNKS_PER_VERTEX : nat := 8.

(** ** Live keys *)

Inductive EdgePosition := PosPrimary (slot : nat) | PosOverflow (chunk slot : nat).

Definition LIVE_SET_WIDTH_BOUND : nat := 8.

Inductive LiveKeySet :=
| LHash (m : gmap key EdgePosition)
| LSorted (l : list (key * EdgePosition)).

(** The derived order of a pair. *)
Definition key_lt (a b : key) : bool :=
  bool_decide (a.1 < b.1) || (bool_decide (a.1 = b.1) && bool_decide (a.2 < b.2)).
Definition key_le (a b : key) : bool := negb (key_lt b a).

Definition entry_le (a b : key * EdgePosition) : Prop := key_le a.1 b.1 = true.
#[export] Instance entry_le_dec : RelDecision entry_le.
Proof. intros a b. unfold entry_le. apply _. Defined.

(** [LiveKeySet::from_positions]; the order of equal keys is not specified. *)
Definition from_positions (ps : list (key * EdgePosition)) : LiveKeySet :=
  LSorted (merge_sort entry_le ps).

Definition lks_position (s : LiveKeySet) (k : key) : option EdgePosition :=
  match s with
  | LHash m => m !! k
  | LSorted l =>
      match l !! Manifest.partition_point (fun e => key_lt e.1 k) l with
      | Some e => if decide (e.1 = k) then Some e.2 else None
      | None => None
      end
  end.

Definition lks_contains (s : LiveKeySet) (k : key) : bool :=
  match s with
  | LHash m => bool_decide (is_Some (m !! k))
  | LSorted l =>
      match l !! Manifest.partition_point (fun e => key_lt e.1 k) l with
      | Some e => bool_decide (e.1 = k)
      | None => false
      end
  end.

Definition lks_len (s : LiveKeySet) : nat :=
  match s with LHash m => size m | LSorted l => length l end.

Definition lks_is_empty (s : LiveKeySet) : bool := bool_decide (lks_len s = 0%nat).

(** The map of a set, filled in the order of the vector. *)
Definition lks_hash (s : LiveKeySet) : gmap key EdgePosition :=
  match s with
  | LHash m => m
  | LSorted l => fold_left (fun m e => <[e.1 := e.2]> m) l ∅
  end.

Definition lks_insert (k : key) (p : EdgePosition) (s : LiveKeySet) : LiveKeySet :=
  LHash (<[k := p]> (lks_hash s)).

Definition lks_remove (k : key) (s : LiveKeySet) : LiveKeySet := LHash (delete k (lks_hash s)).

Record LiveSetStorage := mkLives {
  ls_table : list (option (list (option LiveKeySet)));
  live_rows : nat;
}.

Definition ls_new : LiveSetStorage := mkLives [] 0.
Definition ls_ensure_capacity (n : nat) (s : LiveSetStorage) : LiveSetStorage :=
  mkLives (seg_ensure_capacity n (ls_table s)) (live_rows s).
Definition ls_get (s : LiveSetStorage) (vid : nat) : option LiveKeySet := seg_get (ls_table s) vid.

Definition ls_insert (vid : nat) (x : LiveKeySet) (s : LiveSetStorage) : LiveSetStorage :=
  mkLives (seg_slot_mut (fun _ => Some x) vid (ls_table s))
    (match seg_get (ls_table s) vid with None => S (live_rows s) | Some _ => live_rows s end).

Definition ls_remove (vid : nat) (s : LiveSetStorage) : LiveSetStorage :=
  match seg_take vid (ls_table s) with
  | (t, Some _) => mkLives t (pred (live_rows s))
  | (t, None) => mkLives t (live_rows s)
  end.

Definition ls_insert_key (vid : nat) (k : key) (p : EdgePosition) (s : LiveSetStorage) : LiveSetStorage :=
  match seg_get (ls_table s) vid with
  | Some x => mkLives (seg_slot_mut (fun _ => Some (lks_insert k p x)) vid (ls_table s)) (live_rows s)
  | None => mkLives (seg_slot_mut (fun _ => Some (from_positions [(k, p)])) vid (ls_table s)) (S (live_rows s))
  end.

Definition ls_remove_key (vid : nat) (k : key) (s : LiveSetStorage) : LiveSetStorage :=
  match seg_get (ls_table s) vid with
  | None => s
  | Some x =>
      let x := lks_remove k x in
      let t := seg_get_mut (fun _ => x) vid (ls_table s) in
      if lks_is_empty x then mkLives (seg_take vid t).1 (pred (live_rows s)) else mkLives t (live_rows s)
  end.

Definition ls_clear (s : LiveSetStorage) : LiveSetStorage := mkLives (seg_clear (ls_table s)) 0.

(** ** The store *)

Record MutableCsr := mkCsr {
  hot_list : list HotNbr;
  cold_list : list ColdStamps;
  adj_offsets : list nat;
  degrees : list nat;
  primary_capacities : list nat;
  overflow_chunks : OverflowTable OverflowChunk;
  overflow_chunk_edges : nat;
  live_sets : LiveSetStorage;
  tombstone_reuse_cutoff : Z;
  reuse_hint : list Z;
  live_counts : list nat;
  tombstone_counts : list nat;
  primary_sorted : list bool;
  edge_count : Z;
  total_edge_capacity : nat;
}.
Implicit Types (c : MutableCsr) (idx vid : nat).

Definition set_lists (h : list HotNbr) (cl : list ColdStamps) c : MutableCsr :=
  mkCsr h cl (adj_offsets c) (degrees c) (primary_capacities c) (overflow_chunks c)
    (overflow_chunk_edges c) (live_sets c) (tombstone_reuse_cutoff c) (reuse_hint c) (live_counts c)
    (tombstone_counts c) (primary_sorted c) (edge_count c) (total_edge_capacity c).

Definition set_rows (o d p : list nat) c : MutableCsr :=
  mkCsr (hot_list c) (cold_list c) o d p (overflow_chunks c)
    (overflow_chunk_edges c) (live_sets c) (tombstone_reuse_cutoff c) (reuse_hint c) (live_counts c)
    (tombstone_counts c) (primary_sorted c) (edge_count c) (total_edge_capacity c).

Definition set_overflow (t : OverflowTable OverflowChunk) c : MutableCsr :=
  mkCsr (hot_list c) (cold_list c) (adj_offsets c) (degrees c) (primary_capacities c) t
    (overflow_chunk_edges c) (live_sets c) (tombstone_reuse_cutoff c) (reuse_hint c) (live_counts c)
    (tombstone_counts c) (primary_sorted c) (edge_count c) (total_edge_capacity c).

Definition set_live_sets (s : LiveSetStorage) c : MutableCsr :=
  mkCsr (hot_list c) (cold_list c) (adj_offsets c) (degrees c) (primary_capacities c) (overflow_chunks c)
    (overflow_chunk_edges c) s (tombstone_reuse_cutoff c) (reuse_hint c) (live_counts c)
    (tombstone_counts c) (primary_sorted c) (edge_count c) (total_edge_capacity c).

Definition set_cutoff (ts : Z) c : MutableCsr :=
  mkCsr (hot_list c) (cold_list c) (adj_offsets c) (degrees c) (primary_capacities c) (overflow_chunks c)
    (overflow_chunk_edges c) (live_sets c) ts (reuse_hint c) (live_counts c)
    (tombstone_counts c) (primary_sorted c) (edge_count c) (total_edge_capacity c).

Definition set_hints (l : list Z) c : MutableCsr :=
  mkCsr (hot_list c) (cold_list c) (adj_offsets c) (degrees c) (primary_capacities c) (overflow_chunks c)
    (overflow_chunk_edges c) (live_sets c) (tombstone_reuse_cutoff c) l (live_counts c)
    (tombstone_counts c) (primary_sorted c) (edge_count c) (total_edge_capacity c).

Definition set_counts (lc tc : list nat) c : MutableCsr :=
  mkCsr (hot_list c) (cold_list c) (adj_offsets c) (degrees c) (primary_capacities c) (overflow_chunks c)
    (overflow_chunk_edges c) (live_sets c) (tombstone_reuse_cutoff c) (reuse_hint c) lc tc
    (primary_sorted c) (edge_count c) (total_edge_capacity c).

Definition set_sorted (l : list bool) c : MutableCsr :=
  mkCsr (hot_list c) (cold_list c) (adj_offsets c) (degrees c) (primary_capacities c) (overflow_chunks c)
    (overflow_chunk_edges c) (live_sets c) (tombstone_reuse_cutoff c) (reuse_hint c) (live_counts c)
    (tombstone_counts c) l (edge_count c) (total_edge_capacity c).

Definition set_edge_count (n : Z) c : MutableCsr :=
  mkCsr (hot_list c) (cold_list c) (adj_offsets c) (degrees c) (primary_capacities c) (overflow_chunks c)
    (overflow_chunk_edges c) (live_sets c) (tombstone_reuse_cutoff c) (reuse_hint c) (live_counts c)
    (tombstone_counts c) (primary_sorted c) n (total_edge_capacity c).

Definition set_total_capacity (n : nat) c : MutableCsr :=
  mkCsr (hot_list c) (cold_list c) (adj_offsets c) (degrees c) (primary_capacities c) (overflow_chunks c)
    (overflow_chunk_edges c) (live_sets c) (tombstone_reuse_cutoff c) (reuse_hint c) (live_counts c)
    (tombstone_counts c) (primary_sorted c) (edge_count c) n.

(** An indexed read of a row array; the callers check the index. *)
Definition at0 (l : list nat) (i : nat) : nat := default 0%nat (l !! i).

Definition offset_of c idx : nat := at0 (adj_offsets c) idx.
Definition degree_of c idx : nat := at0 (degrees c) idx.
Definition capacity_of c idx : nat := at0 (primary_capacities c) idx.

Definition add_edges (k : Z) c : MutableCsr := set_edge_count (edge_count c + k) c.

(** ** Lifecycle ([core.rs]) *)

Definition DEFAULT_EDGE_CAPACITY : nat := 4096.
Definition DEFAULT_VERTEX_DEGREE : nat := 4.
Definition DEFAULT_OVERFLOW_CHUNK_EDGES : nat := 4096.
Definition REUSE_HINT_UNKNOWN : Z := 4294967295.

Definition with_overflow_chunk_edges (vertex_capacity chunk_edges : nat) : MutableCsr :=
  let n := Nat.max vertex_capacity 1 in
  mkCsr [] [] (replicate n 0%nat) (replicate n 0%nat) (replicate n 0%nat) ot_new (Nat.max chunk_edges 1)
    ls_new TS_MAX (replicate n REUSE_HINT_UNKNOWN) (replicate n 0%nat) (replicate n 0%nat)
    (replicate n true) 0 0.

Definition csr_with_capacity (vertex_capacity : nat) : MutableCsr :=
  with_overflow_chunk_edges vertex_capacity DEFAULT_OVERFLOW_CHUNK_EDGES.

Definition csr_new : MutableCsr := csr_with_capacity DEFAULT_VERTEX_CAPACITY.

Definition set_tombstone_reuse_cutoff (cutoff : Z) c : MutableCsr :=
  set_cutoff (Z.min (tombstone_reuse_cutoff c) cutoff) c.
Definition refresh_tombstone_reuse_cutoff (fresh : Z) c : MutableCsr := set_cutoff fresh c.
Definition clear_tombstone_reuse_cutoff c : MutableCsr := set_cutoff TS_MAX c.

Definition vertex_capacity c : nat := length (adj_offsets c).

Definition csr_resize (n : nat) c : MutableCsr :=
  if decide (n <= vertex_capacity c)%nat then c
  else
    let c1 := set_rows (resize n (length (hot_list c)) (adj_offsets c)) (resize n 0%nat (degrees c))
                (resize n 0%nat (primary_capacities c)) c in
    set_live_sets (ls_ensure_capacity n (live_sets c))
      (set_overflow (ot_ensure_capacity n (overflow_chunks c))
        (set_sorted (resize n true (primary_sorted c))
          (set_counts (resize n 0%nat (live_counts c)) (resize n 0%nat (tombstone_counts c))
            (set_hints (resize n REUSE_HINT_UNKNOWN (reuse_hint c)) c1)))).

Definition ensure_vertex_capacity (n : nat) c : MutableCsr :=
  if decide (vertex_capacity c < n)%nat then csr_resize (grown_vertex_capacity n) c else c.

Definition add_capacity (n : nat) c : MutableCsr := set_total_capacity (total_edge_capacity c + n) c.
Definition sub_capacity (n : nat) c : MutableCsr := set_total_capacity (total_edge_capacity c - n) c.

(** The tail of both halves grown with gap slots. *)
Definition grow_lists (n : nat) c : MutableCsr :=
  set_lists (hot_list c ++ replicate n hot_dead_gap) (cold_list c ++ replicate n cold_dead_gap) c.

Definition allocate_primary_block idx c : MutableCsr :=
  let block_offset := length (hot_list c) in
  let c1 := grow_lists DEFAULT_VERTEX_DEGREE c in
  add_capacity DEFAULT_VERTEX_DEGREE
    (set_rows (<[idx := block_offset]> (adj_offsets c1)) (degrees c1)
       (<[idx := DEFAULT_VERTEX_DEGREE]> (primary_capacities c1)) c1).

Definition csr_clear c : MutableCsr :=
  set_edge_count 0
    (set_total_capacity (foldr Nat.add 0%nat (primary_capacities c))
      (set_sorted (replicate (length (primary_sorted c)) true)
        (set_counts (replicate (length (live_counts c)) 0%nat) (replicate (length (tombstone_counts c)) 0%nat)
          (set_hints (replicate (length (reuse_hint c)) REUSE_HINT_UNKNOWN)
            (set_live_sets (ls_clear (live_sets c))
              (set_overflow (ot_clear (overflow_chunks c))
                (set_rows (adj_offsets c) (replicate (length (degrees c)) 0%nat) (primary_capacities c) c))))))).

Definition note_primary_tombstone idx (slot : nat) c : MutableCsr :=
  set_hints (alter (fun hint => Z.min (Z.of_nat slot) hint) idx (reuse_hint c)) c.

Definition invalidate_reuse_hint idx c : MutableCsr :=
  set_hints (<[idx := REUSE_HINT_UNKNOWN]> (reuse_hint c)) c.

Definition reset_reuse_hints c : MutableCsr :=
  set_hints (replicate (length (reuse_hint c)) REUSE_HINT_UNKNOWN) c.

Definition mark_primary_unsorted idx c : MutableCsr := set_sorted (<[idx := false]> (primary_sorted c)) c.
Definition mark_primary_sorted idx c : MutableCsr := set_sorted (<[idx := true]> (primary_sorted c)) c.
Definition reset_primary_sorted c : MutableCsr :=
  set_sorted (replicate (length (primary_sorted c)) false) c.

(** ** Slots and rows *)

Definition slot_at c (i : nat) : option Nbr :=
  match hot_list c !! i, cold_list c !! i with
  | Some h, Some cd => Some (from_parts h cd)
  | _, _ => None
  end.

Definition set_slot (i : nat) (n : Nbr) c : MutableCsr :=
  set_lists (<[i := hot n]> (hot_list c)) (<[i := cold n]> (cold_list c)) c.

(** A write to [cold_list] alone. *)
Definition set_cold (i : nat) (ts : Z) c : MutableCsr :=
  set_lists (hot_list c) (<[i := mkCold ts]> (cold_list c)) c.

Definition set_degree idx (d : nat) c : MutableCsr :=
  set_rows (adj_offsets c) (<[idx := d]> (degrees c)) (primary_capacities c) c.

(** [primary_window], clamped to the lists. *)
Definition primary_window c idx : nat * nat :=
  if decide (vertex_capacity c <= idx)%nat then (0%nat, 0%nat)
  else
    let start := offset_of c idx in
    let stop := Nat.min (Nat.min (start + degree_of c idx) (length (hot_list c))) (length (cold_list c)) in
    (Nat.min start stop, stop).

Definition slice {A} (start stop : nat) (l : list A) : list A := take (stop - start) (drop start l).

Definition primary_hot c idx : list HotNbr :=
  let '(start, stop) := primary_window c idx in slice start stop (hot_list c).

(** [primary_pair], zipped. *)
Definition primary c idx : list Nbr :=
  let '(start, stop) := primary_window c idx in
  zip_with from_parts (slice start stop (hot_list c)) (slice start stop (cold_list c)).

(** The overflow chunks of a row, as the readers walk them. *)
Definition chunks_of c vid : list OverflowChunk := default [] (ot_get (overflow_chunks c) vid).
Definition overflow c vid : list Nbr := concat (map ch_slots (chunks_of c vid)).

(** All slots of a row in the order of a walk. *)
Definition row c vid : list Nbr := primary c vid ++ overflow c vid.

Definition nbr_key (n : Nbr) : key := (endpoint n, nbr_rank n).
Definition nbr_live (n : Nbr) : bool := bool_decide (delete_ts n = TS_MAX).
Definition has_key (k : key) (n : Nbr) : bool := bool_decide (nbr_key n = k).

(** ** The live-key index ([live_set.rs]) *)

Definition row_live_count c vid : nat :=
  if decide (vertex_capacity c <= vid)%nat then 0%nat else at0 (live_counts c) vid.

Definition live_key_count c vid : nat :=
  match ls_get (live_sets c) vid with
  | Some s => lks_len s
  | None => row_live_count c vid
  end.

(** The scan for a live entry of the key, and the width from the counter. *)
Definition row_live_scan c vid (k : key) : bool * nat :=
  if decide (vertex_capacity c <= vid)%nat then (false, 0%nat)
  else
    (existsb (fun n => nbr_live n && has_key k n) (primary c vid) ||
       existsb (fun n => nbr_live n && has_key k n) (overflow c vid),
     at0 (live_counts c) vid).

(** The live slots of a list with their positions. *)
Fixpoint positioned (pos : nat -> EdgePosition) (i : nat) (l : list Nbr) : list (key * EdgePosition) :=
  match l with
  | [] => []
  | n :: r =>
      if nbr_live n then (nbr_key n, pos i) :: positioned pos (S i) r else positioned pos (S i) r
  end.

Fixpoint positioned_chunks (j : nat) (cs : list OverflowChunk) : list (key * EdgePosition) :=
  match cs with
  | [] => []
  | ch :: r => positioned (PosOverflow j) 0 (ch_slots ch) ++ positioned_chunks (S j) r
  end.

Definition count_live (l : list Nbr) : nat := length (List.filter nbr_live l).

Definition rebuild_live_set_for_vertex vid c : MutableCsr :=
  if decide (vertex_capacity c <= vid)%nat then set_live_sets (ls_remove vid (live_sets c)) c
  else
    let ps := positioned PosPrimary 0 (primary c vid) ++ positioned_chunks 0 (chunks_of c vid) in
    let live := count_live (row c vid) in
    let c1 := set_counts (<[vid := live]> (live_counts c))
                (<[vid := (length (row c vid) - live)%nat]> (tombstone_counts c)) c in
    set_live_sets
      (if decide (length ps <= LIVE_SET_WIDTH_BOUND)%nat then ls_remove vid (live_sets c1)
       else ls_insert vid (from_positions ps) (live_sets c1)) c1.

Definition rebuild_live_sets c : MutableCsr :=
  fold_left (fun c vid => rebuild_live_set_for_vertex vid c) (seq 0 (vertex_capacity c))
    (set_live_sets (ls_ensure_capacity (vertex_capacity c) (ls_clear (live_sets c))) c).

(** The physical width of a row. *)
Definition row_width c vid : nat :=
  if decide (vid < vertex_capacity c)%nat then
    (degree_of c vid + foldr (fun ch n => ch_len ch + n)%nat 0%nat (chunks_of c vid))%nat
  else 0%nat.

Definition track_live_insert vid (k : key) (p : EdgePosition) c : MutableCsr :=
  match ls_get (live_sets c) vid with
  | Some _ => set_live_sets (ls_insert_key vid k p (live_sets c)) c
  | None =>
      if decide (LIVE_SET_WIDTH_BOUND < row_width c vid)%nat then rebuild_live_set_for_vertex vid c else c
  end.

Definition track_live_remove vid (k : key) c : MutableCsr :=
  match ls_get (live_sets c) vid with
  | None => c
  | Some _ => set_live_sets (ls_remove_key vid k (live_sets c)) c
  end.

(** ** Sizing ([row.rs]) *)

Definition MIN_ROW_CAPACITY : nat := 4.
Definition OVERFLOW_CHUNK_MIN : nat := 8.
Definition OVERFLOW_CHUNK_MAX : nat := 4096.
Definition HIGH_DEGREE_LIVE_THRESHOLD : Z := 16384.
Definition HIGH_DEGREE_CHUNK_EDGES : Z := 16384.
Definition HIGH_DEGREE_SPARE_DIVISOR : nat := 4.

Definition f32_of_nat (n : nat) : spec_float := binary_normalize 24 128 (Z.of_nat n) 0 false.

(** [PACKED_CSR_DENSITY = 0.8] and [1e-6] as [f32]. *)
Definition PACKED_CSR_DENSITY : spec_float := S754_finite false 13421773 (-24).
Definition F32_1E6 : spec_float := S754_finite false 8796093 (-43).
Definition F32_ONE : spec_float := S754_finite false 8388608 (-23).

(** [x.ceil() as usize]. *)
Definition ceil_usize (x : spec_float) : Z :=
  match x with
  | S754_finite false m e =>
      if decide (0 <= e) then Z.min (Z.pos m * 2 ^ e) U64_MAX else - ((- Z.pos m) / 2 ^ (- e))
  | S754_infinity false => U64_MAX
  | _ => 0
  end.

Definition f32_div_ceil (n : nat) (density : spec_float) : nat :=
  Z.to_nat (ceil_usize (SFdiv 24 128 (f32_of_nat n) density)).

Definition sized_row_capacity (live : nat) : nat :=
  if decide (live = 0%nat) then 0%nat
  else Nat.max (f32_div_ceil live PACKED_CSR_DENSITY) (Nat.min MIN_ROW_CAPACITY (Nat.max live 1)).

(** [compact_row_capacity]. *)
Definition compact_row_capacity (kept : nat) (reserve_ratio : spec_float) : nat :=
  if decide (kept = 0%nat) then 0%nat
  else if SFltb reserve_ratio F32_ONE then
    let density := SFsub 24 128 F32_ONE reserve_ratio in
    if SFltb (SFabs (SFsub 24 128 density PACKED_CSR_DENSITY)) F32_1E6 then sized_row_capacity kept
    else Nat.max (f32_div_ceil kept density) 1
  else Nat.max kept 1.

Definition graded_overflow_chunk_edges (live : nat) : nat :=
  Nat.max OVERFLOW_CHUNK_MIN (Nat.min (2 ^ Nat.log2_up live) OVERFLOW_CHUNK_MAX).

Definition effective_chunk_edges c (live : nat) : nat :=
  if decide (HIGH_DEGREE_LIVE_THRESHOLD <= Z.of_nat live) then
    Nat.max (Nat.max (graded_overflow_chunk_edges live) (Z.to_nat HIGH_DEGREE_CHUNK_EDGES)) 1
  else Nat.max (Nat.min (graded_overflow_chunk_edges live) (overflow_chunk_edges c)) 1.

(** The single block of a merged row, with spare room for a wide one. *)
Definition consolidate_row (slots : list Nbr) : OverflowChunk :=
  if decide (HIGH_DEGREE_LIVE_THRESHOLD <= Z.of_nat (length slots)) then
    consolidated_with_reserve slots
      (Nat.max (length slots / HIGH_DEGREE_SPARE_DIVISOR) (Z.to_nat (HIGH_DEGREE_CHUNK_EDGES / 2)))
  else ch_consolidated slots.

Definition chunks_capacity (cs : list OverflowChunk) : nat := foldr (fun ch n => ch_cap ch + n)%nat 0%nat cs.

Definition nbr_reclaimable (cutoff : Z) (n : Nbr) : bool := is_reclaimable_cold (cold n) cutoff.

(** [compact_overflow_for_vertex]. *)
Definition compact_overflow_for_vertex vid (cutoff : Z) c : MutableCsr * list (Z * Z) :=
  match ot_remove vid (overflow_chunks c) with
  | (_, None) => (c, [])
  | (t, Some chunks) =>
      let c1 := sub_capacity (chunks_capacity chunks) (set_overflow t c) in
      let slots := concat (map ch_slots chunks) in
      let drops n := bool_decide (cutoff <> TS_MAX) && nbr_reclaimable cutoff n in
      let kept := List.filter (fun n => negb (drops n)) slots in
      let removed := map (fun n => (edge_id n, delete_ts n)) (List.filter drops slots) in
      match kept with
      | [] => (rebuild_live_set_for_vertex vid c1, removed)
      | _ =>
          let single := consolidate_row kept in
          let c2 := add_capacity (ch_cap single) c1 in
          (rebuild_live_set_for_vertex vid (set_overflow (ot_insert vid [single] (overflow_chunks c2)) c2), removed)
      end
  end.

(** ** Insertion ([write.rs]) *)

Definition append_overflow vid (n : Nbr) (live_hint : nat) c : MutableCsr :=
  let chunk_edges := effective_chunk_edges c live_hint in
  let '(t, (chunk_count, added)) := push_to_row vid n chunk_edges (overflow_chunks c) in
  let c1 := set_overflow t c in
  let c2 := match added with Some cap => add_capacity cap c1 | None => c1 end in
  let c3 :=
    if nbr_live n then
      let p := match ot_get (overflow_chunks c2) vid with
               | Some cs => PosOverflow (length cs - 1) (from_option (fun ch => ch_len ch - 1)%nat 0%nat (last cs))
               | None => PosOverflow (chunk_count - 1) 0
               end in
      track_live_insert vid (nbr_key n) p c2
    else c2 in
  if decide (OVERFLOW_REPACK_CHUNKS_PER_VERTEX < chunk_count)%nat then
    (compact_overflow_for_vertex vid TS_MAX c3).1
  else c3.

Definition bump_live idx c : MutableCsr := set_counts (alter S idx (live_counts c)) (tombstone_counts c) c.
Definition drop_live idx c : MutableCsr := set_counts (alter pred idx (live_counts c)) (tombstone_counts c) c.
Definition bump_tomb idx c : MutableCsr := set_counts (live_counts c) (alter S idx (tombstone_counts c)) c.
Definition drop_tomb idx c : MutableCsr := set_counts (live_counts c) (alter pred idx (tombstone_counts c)) c.

(** The row addressable, with a primary block. *)
Definition prepare_row src c : MutableCsr :=
  let c := if decide (vertex_capacity c <= src)%nat then ensure_vertex_capacity (S src) c else c in
  if decide (capacity_of c src = 0%nat) then allocate_primary_block src c else c.

(** The duplicate check: nothing if the key is live, else the live width. *)
Definition probe_insert c src (k : key) : option nat :=
  match ls_get (live_sets c) src with
  | Some s => if lks_contains s k then None else Some (lks_len s)
  | None => let '(present, live) := row_live_scan c src k in if present then None else Some live
  end.

Definition TOMBSTONE_REUSE_SCAN_BOUND : nat := 64.

Definition reclaimable_slot c idx (slot : nat) : bool :=
  match cold_list c !! (offset_of c idx + slot)%nat with
  | Some cd => is_reclaimable_cold cd (tombstone_reuse_cutoff c)
  | None => false
  end.

(** A reclaimable slot of a full row: the hint, then a bounded scan. *)
Definition find_reusable src c : MutableCsr * option nat :=
  if decide (tombstone_reuse_cutoff c = TS_MAX) then (c, None)
  else
    let degree := degree_of c src in
    let scan c := find (fun i => reclaimable_slot c src i) (seq 0 (Nat.min degree TOMBSTONE_REUSE_SCAN_BOUND)) in
    match reuse_hint c !! src with
    | Some hint =>
        if decide (hint = REUSE_HINT_UNKNOWN) then (c, scan c)
        else if bool_decide (Z.to_nat hint < degree)%nat && reclaimable_slot c src (Z.to_nat hint)
        then (c, Some (Z.to_nat hint))
        else let c := invalidate_reuse_hint src c in (c, scan c)
    | None => (c, scan c)
    end.

Definition fill_gap src (k : key) (n : Nbr) c : MutableCsr :=
  let degree := degree_of c src in
  let c1 := mark_primary_unsorted src (set_slot (offset_of c src + degree) n c) in
  let c2 := bump_live src (set_degree src (S degree) c1) in
  add_edges 1 (track_live_insert src k (PosPrimary degree) c2).

Definition reuse_slot src (slot : nat) (k : key) (n : Nbr) c : MutableCsr :=
  let c1 := invalidate_reuse_hint src (mark_primary_unsorted src (set_slot (offset_of c src + slot) n c)) in
  add_edges 1 (track_live_insert src k (PosPrimary slot) (drop_tomb src (bump_live src c1))).

Definition insert_edge src (dst : VertexId) (id ts : Z) c : MutableCsr * result unit CsrError :=
  match decode_endpoint_pair dst with
  | None => (c, Err InvalidInput)
  | Some k =>
      let c := prepare_row src c in
      match probe_insert c src k with
      | None => (c, Err EdgeAlreadyExists)
      | Some live =>
          let n := with_create_ts k.1 k.2 id ts in
          if decide (degree_of c src < capacity_of c src)%nat then (fill_gap src k n c, Ok tt)
          else
            match find_reusable src c with
            | (c, Some slot) => (reuse_slot src slot k n c, Ok tt)
            | (c, None) => (add_edges 1 (bump_live src (append_overflow src n (S live) c)), Ok tt)
            end
      end
  end.

(** ** Deletion *)

(** The stamping of a live slot at a position, with the ledgers that a deletion by
    identifier, key or offset keeps. *)
Definition stamp_primary src (slot : nat) (ts : Z) c : MutableCsr :=
  let c1 := set_cold ((primary_window c src).1 + slot) ts c in
  note_primary_tombstone src slot (bump_tomb src (drop_live src (add_edges (-1) c1))).

Definition stamp_chunk (j i : nat) (ts : Z) : list OverflowChunk -> list OverflowChunk :=
  alter (ch_stamp i ts) j.

Definition stamp_overflow src (j i : nat) (ts : Z) c : MutableCsr :=
  let c1 := set_overflow (ot_get_mut (stamp_chunk j i ts) src (overflow_chunks c)) c in
  bump_tomb src (drop_live src (add_edges (-1) c1)).

(** The first slot of a list with the identifier. *)
Definition find_id (id : Z) (l : list Nbr) : option (nat * Nbr) := list_find (fun n => edge_id n = id) l.

(** [scan_overflow_for_edge_id], with the slot. *)
Fixpoint scan_chunks (id : Z) (j : nat) (cs : list OverflowChunk) : option (nat * nat * Nbr) :=
  match cs with
  | [] => None
  | ch :: r =>
      match find_id id (ch_slots ch) with
      | Some (i, n) => Some (j, i, n)
      | None => scan_chunks id (S j) r
      end
  end.

Definition delete_edge src (id ts : Z) c : MutableCsr * result bool CsrError :=
  if decide (vertex_capacity c <= src)%nat then (c, Ok false)
  else
    match find_id id (primary c src) with
    | Some (i, n) =>
        match decide_slot_delete n ts with
        | Err e => (c, Err e)
        | Ok AlreadyStamped => (c, Ok false)
        | Ok Stamped => (track_live_remove src (nbr_key n) (stamp_primary src i ts c), Ok true)
        end
    | None =>
        match scan_chunks id 0 (chunks_of c src) with
        | Some (j, i, n) =>
            match decide_slot_delete n ts with
            | Err e => (c, Err e)
            | Ok AlreadyStamped => (c, Ok false)
            | Ok Stamped => (track_live_remove src (nbr_key n) (stamp_overflow src j i ts c), Ok true)
            end
        | None => (c, Ok false)
        end
    end.

(** The positions of the live slots of a key: those [delete_edge_by_dst] stamps. *)
Fixpoint match_positions (k : key) (pos : nat -> EdgePosition) (i : nat) (l : list Nbr)
  : list (Z * EdgePosition) :=
  match l with
  | [] => []
  | n :: r =>
      if nbr_live n && has_key k n then (edge_id n, pos i) :: match_positions k pos (S i) r
      else match_positions k pos (S i) r
  end.

Fixpoint match_chunks (k : key) (j : nat) (cs : list OverflowChunk) : list (Z * EdgePosition) :=
  match cs with
  | [] => []
  | ch :: r => match_positions k (PosOverflow j) 0 (ch_slots ch) ++ match_chunks k (S j) r
  end.

(** Live slots of the key stamped in a list of slots. *)
Definition stamp_matches (k : key) (ts : Z) (n : Nbr) : Nbr :=
  if nbr_live n && has_key k n then mkNbr (endpoint n) (nbr_rank n) (edge_id n) ts else n.

Definition stamp_cold_matches (k : key) (ts : Z) (h : HotNbr) (cd : ColdStamps) : ColdStamps :=
  cold (stamp_matches k ts (from_parts h cd)).

Definition ch_stamp_matches (k : key) (ts : Z) (ch : OverflowChunk) : OverflowChunk :=
  mkChunk (ch_hot ch) (zip_with (stamp_cold_matches k ts) (ch_hot ch) (ch_cold ch)) (ch_cap ch).

(** The stamps of the window of a row, rewritten. *)
Definition splice {A} (start : nat) (new l : list A) : list A :=
  take start l ++ new ++ drop (start + length new) l.

Definition repeat_fn {A} (n : nat) (f : A -> A) (x : A) : A := Nat.iter n f x.

(** [delete_edge_by_dst_reporting_positioned]: the store and what was stamped. *)
Definition delete_edge_by_dst src (dst : VertexId) (ts : Z) c : MutableCsr * list (Z * EdgePosition) :=
  match decode_endpoint_pair dst with
  | None => (c, [])
  | Some k =>
      if decide (vertex_capacity c <= src)%nat then (c, [])
      else
        let '(start, stop) := primary_window c src in
        let prim := match_positions k PosPrimary 0 (primary c src) in
        let over := match_chunks k 0 (chunks_of c src) in
        let deleted := prim ++ over in
        let stamps := zip_with (stamp_cold_matches k ts) (slice start stop (hot_list c)) (slice start stop (cold_list c)) in
        let c1 := set_lists (hot_list c) (splice start stamps (cold_list c)) c in
        let c2 := set_overflow (ot_get_mut (map (ch_stamp_matches k ts)) src (overflow_chunks c1)) c1 in
        let c3 := add_edges (- Z.of_nat (length deleted)) c2 in
        let c4 := repeat_fn (length deleted) (fun c => bump_tomb src (drop_live src c)) c3 in
        let c5 := match prim with
                  | (_, PosPrimary slot) :: _ => note_primary_tombstone src slot c4
                  | _ => c4
                  end in
        (match deleted with [] => c5 | _ => track_live_remove src k c5 end, deleted)
  end.

(** The slot of an offset into the primary block of a row. *)
Definition slot_of_offset c src (offset : Z) : option (nat * Nbr) :=
  if decide (offset < 0 \/ (vertex_capacity c <= src)%nat \/ capacity_of c src = 0%nat \/
             (degree_of c src <= Z.to_nat offset)%nat) then None
  else
    let i := (offset_of c src + Z.to_nat offset)%nat in
    match slot_at c i with Some n => Some (i, n) | None => None end.

Definition delete_edge_by_offset src (offset ts : Z) c : MutableCsr * result bool CsrError :=
  match slot_of_offset c src offset with
  | None => (c, Ok false)
  | Some (i, n) =>
      match decide_slot_delete n ts with
      | Err e => (c, Err e)
      | Ok AlreadyStamped => (c, Ok false)
      | Ok Stamped =>
          (track_live_remove src (nbr_key n)
             (note_primary_tombstone src (Z.to_nat offset)
               (bump_tomb src (drop_live src (add_edges (-1) (set_cold i ts c))))), Ok true)
      end
  end.

Definition revert_delete_by_offset src (offset ts : Z) c : MutableCsr * bool :=
  match slot_of_offset c src offset with
  | None => (c, false)
  | Some (i, n) =>
      if can_revert_delete n ts then
        (track_live_insert src (nbr_key n) (PosPrimary (Z.to_nat offset))
           (invalidate_reuse_hint src
             (drop_tomb src (bump_live src (add_edges 1 (set_cold i TS_MAX c))))), true)
      else (c, false)
  end.

(** [rollback_insert]: the slot is erased. *)
Definition erase_primary src (slot : nat) (n : Nbr) c : MutableCsr :=
  let start := (primary_window c src).1 in
  let degree := degree_of c src in
  let tail := (start + (degree - 1))%nat in
  let shift {A} (gap : A) (l : list A) :=
    <[tail := gap]> (take (start + slot) l ++ slice (start + slot + 1) (start + degree) l ++
                     drop (start + degree - 1) l) in
  let c1 := set_degree src (degree - 1)
              (set_lists (shift hot_dead_gap (hot_list c)) (shift cold_dead_gap (cold_list c)) c) in
  let c2 := invalidate_reuse_hint src c1 in
  if nbr_live n then
    let c3 := drop_live src c2 in
    add_edges (-1)
      (match ls_get (live_sets c3) src with Some _ => rebuild_live_set_for_vertex src c3 | None => c3 end)
  else drop_tomb src c2.

(** The chunks of a row without a slot; an emptied chunk goes. *)
Definition detach_slot (j i : nat) (cs : list OverflowChunk) : list OverflowChunk * option nat :=
  let cs := alter (ch_remove i) j cs in
  match cs !! j with
  | Some ch => if decide (ch_len ch = 0%nat) then (delete j cs, Some (ch_cap ch)) else (cs, None)
  | None => (cs, None)
  end.

Definition erase_overflow src (j i : nat) (n : Nbr) c : MutableCsr :=
  let '(cs, freed) := detach_slot j i (chunks_of c src) in
  let c1 := set_overflow (ot_get_mut (fun _ => cs) src (overflow_chunks c)) c in
  let c2 := match freed with Some cap => sub_capacity cap c1 | None => c1 end in
  let uncount c := if nbr_live n then drop_live src (add_edges (-1) c) else drop_tomb src c in
  match cs with
  | [] => rebuild_live_set_for_vertex src
            (let c3 := uncount c2 in set_overflow (ot_remove src (overflow_chunks c3)).1 c3)
  | _ =>
      if nbr_live n then
        uncount (match ls_get (live_sets c2) src with
                 | Some _ => rebuild_live_set_for_vertex src c2
                 | None => c2
                 end)
      else uncount c2
  end.

Definition rollback_insert src (id : Z) c : MutableCsr * bool :=
  if decide (vertex_capacity c <= src)%nat then (c, false)
  else
    match find_id id (primary c src) with
    | Some (i, n) => (erase_primary src i n c, true)
    | None =>
        match scan_chunks id 0 (chunks_of c src) with
        | Some (j, i, n) => (erase_overflow src j i n c, true)
        | None => (c, false)
        end
    end.

(** A slot made live again; the counters of the row are not kept here. *)
Definition revive_primary src (slot : nat) (n : Nbr) c : MutableCsr :=
  let c1 := set_cold ((primary_window c src).1 + slot) TS_MAX c in
  track_live_insert src (nbr_key n) (PosPrimary slot) (invalidate_reuse_hint src (add_edges 1 c1)).

Definition revive_overflow src (j i : nat) (n : Nbr) c : MutableCsr :=
  let c1 := set_overflow (ot_get_mut (stamp_chunk j i TS_MAX) src (overflow_chunks c)) c in
  track_live_insert src (nbr_key n) (PosOverflow j i) (add_edges 1 c1).

Definition revert_delete_by_edge_id src (id ts : Z) c : MutableCsr * bool :=
  if decide (vertex_capacity c <= src)%nat then (c, false)
  else
    match list_find (fun n => edge_id n = id /\ can_revert_delete n ts = true) (primary c src) with
    | Some (i, n) => (revive_primary src i n c, true)
    | None =>
        match scan_chunks id 0 (chunks_of c src) with
        | Some (j, i, n) => if can_revert_delete n ts then (revive_overflow src j i n c, true) else (c, false)
        | None => (c, false)
        end
    end.

(** The slot at a position, inside the degree of the row. *)
Definition slot_in_row c src (p : EdgePosition) : option Nbr :=
  match p with
  | PosPrimary slot =>
      if decide (vertex_capacity c <= src \/ degree_of c src <= slot)%nat then None
      else slot_at c (offset_of c src + slot)
  | PosOverflow j i =>
      match ot_get (overflow_chunks c) src with
      | None => None
      | Some cs => match cs !! j with Some ch => ch_slot_at ch i | None => None end
      end
  end.

(** [delete_edge_at_position]: unlike the other deletions it leaves the counters
    of the row alone. *)
Definition delete_edge_at_position src (p : EdgePosition) (expected ts : Z) c
  : MutableCsr * result bool CsrError :=
  match slot_in_row c src p with
  | None => (c, Ok false)
  | Some n =>
      if decide (edge_id n <> expected) then (c, Ok false)
      else
        match decide_slot_delete n ts with
        | Err e => (c, Err e)
        | Ok AlreadyStamped => (c, Ok false)
        | Ok Stamped =>
            let c1 :=
              match p with
              | PosPrimary slot =>
                  note_primary_tombstone src slot (add_edges (-1) (set_cold (offset_of c src + slot) ts c))
              | PosOverflow j i =>
                  add_edges (-1)
                    (set_overflow (ot_get_mut (stamp_chunk j i ts) src (overflow_chunks c)) c)
              end in
            (track_live_remove src (nbr_key n) c1, Ok true)
        end
  end.

Definition revert_delete_at_position src (p : EdgePosition) (expected ts : Z) c : MutableCsr * bool :=
  match slot_in_row c src p with
  | None => (c, false)
  | Some n =>
      if decide (edge_id n <> expected \/ can_revert_delete n ts = false) then (c, false)
      else
        match p with
        | PosPrimary slot =>
            let c1 := set_cold (offset_of c src + slot) TS_MAX c in
            (track_live_insert src (nbr_key n) p (invalidate_reuse_hint src (add_edges 1 c1)), true)
        | PosOverflow j i => (revive_overflow src j i n c, true)
        end
  end.


End csr.
End Csr.

(** * The mutable edge store: reads

    [linkrs-storage/src/edge/mutable_csr/read.rs] with the iterators of [iter.rs],
    the probes of [compaction.rs] and the figures of [stats.rs].

    A read that hands entries to a visitor is the list of the entries it offers, in
    order; a visitor that stops the walk sees a prefix of it. *)

Module CsrRead.
Import CsrShared Csr.

Section read.
Context `{Allocator}.
Implicit Types (c : MutableCsr) (vid : nat) (k : key).

Definition not_gap (n : Nbr) : bool := negb (is_gap_edge (edge_id n)).

(** The overflow slots of a row: a merged row is read from its only chunk. *)
Definition overflow_slots c vid : list Nbr :=
  match single_chunk (overflow_chunks c) vid with
  | Some ch => omap (ch_slot_at ch) (seq 0 (ch_len ch))
  | None => concat (map (fun ch => omap (ch_slot_at ch) (seq 0 (ch_len ch))) (chunks_of c vid))
  end.

(** [visit_physical] and [fill_physical_into]. *)
Definition visit_physical c vid : list Nbr :=
  if decide (vertex_capacity c <= vid)%nat then []
  else List.filter not_gap (primary c vid) ++ overflow_slots c vid.

Definition physical_edges_of c vid : list Nbr := visit_physical c vid.

(** The buffer and the boundaries of its rows. *)
Definition fill_physical_into_batched c (vids : list nat) : list Nbr * list nat :=
  let '(out, starts) :=
    fold_left (fun '(out, starts) vid => (out ++ visit_physical c vid, starts ++ [length out])) vids ([], []) in
  (out, starts ++ [length out]).

Definition hot_not_gap (h : HotNbr) : bool := negb (is_gap_edge (h_edge_id h)).

Definition visit_hot c vid : list HotNbr :=
  if decide (vertex_capacity c <= vid)%nat then []
  else
    List.filter hot_not_gap (primary_hot c vid) ++
    match single_chunk (overflow_chunks c) vid with
    | Some ch => List.filter hot_not_gap (ch_hot ch)
    | None => concat (map (fun ch => List.filter hot_not_gap (ch_hot ch)) (chunks_of c vid))
    end.

Definition visit_hot_batched c (vids : list nat) : list (nat * HotNbr) :=
  concat (map (fun vid => map (pair vid) (visit_hot c vid)) vids).

Fixpoint with_positions (pos : nat -> EdgePosition) (i : nat) (l : list Nbr) : list (EdgePosition * Nbr) :=
  match l with
  | [] => []
  | n :: r => (pos i, n) :: with_positions pos (S i) r
  end.

Fixpoint chunk_positions (j : nat) (cs : list OverflowChunk) : list (EdgePosition * Nbr) :=
  match cs with
  | [] => []
  | ch :: r => with_positions (PosOverflow j) 0 (ch_slots ch) ++ chunk_positions (S j) r
  end.

Definition visit_physical_with_position c vid : list (EdgePosition * Nbr) :=
  if decide (vertex_capacity c <= vid)%nat then []
  else
    List.filter (fun e => not_gap e.2) (with_positions PosPrimary 0 (primary c vid)) ++
    chunk_positions 0 (chunks_of c vid).

Definition locate_edge c vid (id : Z) : option (EdgePosition * Nbr) :=
  find (fun e => bool_decide (edge_id e.2 = id)) (visit_physical_with_position c vid).

Definition primary_contains c vid (id : Z) : bool :=
  if decide (vertex_capacity c <= vid)%nat then false
  else existsb (fun h => bool_decide (h_edge_id h = id)) (primary_hot c vid).

Definition has_physical_entries c vid : bool :=
  if decide (vertex_capacity c <= vid)%nat then false
  else bool_decide (0 < degree_of c vid)%nat || existsb (fun ch => bool_decide (0 < ch_len ch)%nat) (chunks_of c vid).

Definition edges_of c vid (ts : Z) : list Nbr :=
  if decide (vertex_capacity c <= vid)%nat then []
  else
    List.filter (fun n => is_alive_at n ts) (primary c vid) ++
    concat (map (fun ch => List.filter (fun n => is_alive_at n ts) (omap (ch_slot_at ch) (seq 0 (ch_len ch))))
              (chunks_of c vid)).

Definition nbr_at_offset c vid (offset : Z) : option Nbr := option_map snd (slot_of_offset c vid offset).

(** ** Point lookups *)

Definition slot_at_position c vid (p : EdgePosition) : option Nbr :=
  match p with
  | PosPrimary slot =>
      match adj_offsets c !! vid with Some base => slot_at c (base + slot) | None => None end
  | PosOverflow j i =>
      match ot_get (overflow_chunks c) vid with
      | None => None
      | Some cs => match cs !! j with Some ch => ch_slot_at ch i | None => None end
      end
  end.

Definition scan_row_for_key (accept : Nbr -> bool) c vid k : option Nbr :=
  let hit n := has_key k n && accept n in
  match find hit (primary c vid) with
  | Some n => Some n
  | None => find hit (overflow_slots c vid)
  end.

Definition live_edge (n : Nbr) : bool := not_gap n && nbr_live n.

Definition get_edge_physical_via_scan c vid k : option Nbr := scan_row_for_key live_edge c vid k.

(** A row whose counter says it is narrow: it is read without the index. *)
Definition counted_narrow c vid : bool :=
  match live_counts c !! vid with
  | Some n => bool_decide (n <= LIVE_SET_WIDTH_BOUND)%nat
  | None => false
  end.

Definition get_edge_physical c vid (dst : VertexId) : option Nbr :=
  match decode_endpoint_pair dst with
  | None => None
  | Some k =>
      if decide (vertex_capacity c <= vid)%nat then None
      else if counted_narrow c vid then get_edge_physical_via_scan c vid k
      else
        match ls_get (live_sets c) vid with
        | None => get_edge_physical_via_scan c vid k
        | Some s =>
            match lks_position s k with
            | None => None
            | Some p =>
                match slot_at_position c vid p with
                | Some n => if has_key k n && live_edge n then Some n else get_edge_physical_via_scan c vid k
                | None => get_edge_physical_via_scan c vid k
                end
            end
        end
  end.

Definition get_edge_via_scan c vid k (ts : Z) : option Nbr := scan_row_for_key (fun n => is_alive_at n ts) c vid k.

Definition get_edge c vid (dst : VertexId) (ts : Z) : option Nbr :=
  match decode_endpoint_pair dst with
  | None => None
  | Some k =>
      if decide (vertex_capacity c <= vid)%nat then None
      else if counted_narrow c vid then get_edge_via_scan c vid k ts
      else
        match ls_get (live_sets c) vid with
        | None => get_edge_via_scan c vid k ts
        | Some s =>
            match lks_position s k with
            | None => if decide (ts = TS_MAX) then None else get_edge_via_scan c vid k ts
            | Some p =>
                match slot_at_position c vid p with
                | Some n => if has_key k n && nbr_live n then Some n else get_edge_via_scan c vid k ts
                | None => get_edge_via_scan c vid k ts
                end
            end
        end
  end.

(** ** Ranges *)

Definition in_range (lower upper : option key) (k : key) : bool :=
  negb (from_option (key_lt k) false lower) && negb (from_option (fun hi => key_lt hi k) false upper).

Definition live_in_range (lower upper : option key) (n : Nbr) : bool :=
  nbr_live n && in_range lower upper (nbr_key n).

(** The window of an ordered block: the bisection of both bounds, and the slice
    between them, which stops the thread when they are crossed. *)
Definition bisect (lower upper : option key) (l : list Nbr) : option (list Nbr) :=
  let lo := match lower with
            | Some k => Manifest.partition_point (fun n => key_lt (nbr_key n) k) l
            | None => 0%nat
            end in
  let hi := match upper with
            | Some k => Manifest.partition_point (fun n => key_le (nbr_key n) k) l
            | None => length l
            end in
  if decide (hi < lo)%nat then None else Some (slice lo hi l).

Definition visit_threshold c vid (lower upper : option key) : option (list Nbr) :=
  if decide (vertex_capacity c <= vid)%nat then Some []
  else
    let prim := primary c vid in
    let window :=
      if default false (primary_sorted c !! vid) && bool_decide (1 < length prim)%nat then
        option_map (List.filter nbr_live) (bisect lower upper prim)
      else Some (List.filter (live_in_range lower upper) prim) in
    option_map (fun w => w ++ List.filter (live_in_range lower upper) (overflow_slots c vid)) window.

(** The order of a primary block: endpoint, rank, identifier. *)
Definition hot_le (a b : HotNbr) : bool :=
  key_lt (h_endpoint a, h_rank a) (h_endpoint b, h_rank b) ||
  (bool_decide ((h_endpoint a, h_rank a) = (h_endpoint b, h_rank b)) && bool_decide (h_edge_id a <= h_edge_id b)).

(** Every two neighbours in order ([windows(2).all]). *)
Fixpoint ordered {A} (le : A -> A -> bool) (l : list A) : bool :=
  match l with
  | x :: (y :: _) as r => le x y && ordered le r
  | _ => true
  end.

Definition is_primary_sorted c vid : bool :=
  if decide (vertex_capacity c <= vid)%nat then true else ordered hot_le (primary_hot c vid).

Definition is_row_sorted c vid : bool :=
  if decide (vertex_capacity c <= vid)%nat then true
  else ordered key_le (map nbr_key (List.filter nbr_live (visit_physical c vid))).

(** ** Iterators *)

(** [VertexEdgesIter], drained. *)
Definition iter_edges_of c vid (ts : Z) : list Nbr := List.filter (fun n => is_alive_at n ts) (row c vid).

(** [MutableCsrIterator], drained. *)
Definition csr_iter c (keep : Nbr -> bool) : list (nat * Nbr) :=
  concat (map (fun vid => map (pair vid) (List.filter keep (row c vid))) (seq 0 (vertex_capacity c))).
Definition iter c (ts : Z) : list (nat * Nbr) := csr_iter c (fun n => is_alive_at n ts).
Definition iter_all c : list (nat * Nbr) := csr_iter c (fun _ => true).

(** ** Probes *)

Definition count_if {A} (f : A -> bool) (l : list A) : nat := length (List.filter f l).

Definition reclaimable_count c vid (cutoff : Z) : nat :=
  if decide (cutoff = TS_MAX \/ (vertex_capacity c <= vid)%nat) then 0%nat
  else (count_if (nbr_reclaimable cutoff) (primary c vid) + count_if (nbr_reclaimable cutoff) (overflow c vid))%nat.

Definition vertex_needs_compact c vid (cutoff : Z) : bool := bool_decide (0 < reclaimable_count c vid cutoff)%nat.

Definition vertex_reclaim_probe c vid (cutoff : Z) : nat * nat :=
  if decide (vertex_capacity c <= vid)%nat then (0%nat, 0%nat)
  else
    let dead n := negb (nbr_live n) in
    let eligible n := dead n && (bool_decide (cutoff <> TS_MAX) && nbr_reclaimable cutoff n) in
    (count_if dead (row c vid), count_if eligible (row c vid)).

Definition vertex_census c vid : nat * nat * nat :=
  if decide (vertex_capacity c <= vid)%nat then (0%nat, 0%nat, 0%nat)
  else
    (count_if nbr_live (row c vid), count_if (fun n => negb (nbr_live n)) (row c vid),
     (capacity_of c vid + chunks_capacity (chunks_of c vid))%nat).

Definition row_gap c vid : nat :=
  if decide (vertex_capacity c <= vid)%nat then 0%nat
  else (capacity_of c vid - count_if nbr_live (primary c vid))%nat.

Definition row_density c vid : spec_float :=
  if decide (vertex_capacity c <= vid)%nat then F32_ONE
  else if decide (capacity_of c vid = 0%nat) then F32_ONE
  else SFdiv 24 128 (f32_of_nat (count_if nbr_live (primary c vid))) (f32_of_nat (capacity_of c vid)).

(** [get_fragmentation_stats]: capacity, live, dead and wasted. *)
Definition get_fragmentation_stats c : nat * nat * nat * nat :=
  let live := Z.to_nat (edge_count c) in
  let rows := seq 0 (vertex_capacity c) in
  let physical :=
    (foldr (fun v n => degree_of c v + n) 0 rows +
     foldr (fun v n => foldr (fun ch m => ch_len ch + m) 0 (chunks_of c v) + n) 0 rows)%nat in
  (total_edge_capacity c, live, (physical - live)%nat, (total_edge_capacity c - live)%nat).

End read.
End CsrRead.

(** * The mutable edge store: batches, ordering and compaction

    [reserve_for_batch] and [batch_put_edges] of [write.rs], the row maintenance of
    [row.rs] and the compactions of [compaction.rs] under
    [linkrs-storage/src/edge/mutable_csr/]. *)

Module CsrRows.
Import CsrShared Csr CsrRead.

Section rows.
Context `{Allocator}.
Implicit Types (c : MutableCsr) (vid : nat).

(** ** Batches *)

(** Counts of neighbours for one row added up. *)
Definition push_count (acc : list (nat * nat)) (e : nat * nat) : list (nat * nat) :=
  match last acc with
  | Some (src, n) =>
      if decide (src = e.1) then take (pred (length acc)) acc ++ [(src, (n + e.2)%nat)] else acc ++ [e]
  | None => acc ++ [e]
  end.

Definition src_le (a b : nat * nat) : Prop := (a.1 <= b.1)%nat.
#[export] Instance src_le_dec : RelDecision src_le.
Proof. intros a b. unfold src_le. apply _. Defined.

Definition aggregate (counts : list (nat * nat)) : list (nat * nat) :=
  let ordered_counts :=
    if ordered (fun a b => bool_decide (src_le a b)) counts then counts else merge_sort src_le counts in
  fold_left push_count ordered_counts [].

(** The capacity a row should have for what comes in. *)
Definition wanted_capacity c (e : nat * nat) : nat := sized_row_capacity (live_key_count c e.1 + e.2).

(** A row of a narrow batch: grown in place at the tail, or moved there. *)
Definition grow_row c (e : nat * nat) : MutableCsr :=
  let '(src, _) := e in
  let want := wanted_capacity c e in
  let have := capacity_of c src in
  if decide (want <= have)%nat then c
  else
    let old_base := offset_of c src in
    let new_base := length (hot_list c) in
    if decide (old_base + have = new_base)%nat then
      add_capacity (want - have)
        (let c1 := grow_lists (want - have) c in
         set_rows (adj_offsets c1) (degrees c1) (<[src := want]> (primary_capacities c1)) c1)
    else
      let degree := degree_of c src in
      let moved {A} (gap : A) (l : list A) :=
        let l1 := l ++ replicate want gap in
        let l2 := splice new_base (slice old_base (old_base + degree) l) l1 in
        splice old_base (replicate have gap) l2 in
      add_capacity want
        (let c1 := set_lists (moved hot_dead_gap (hot_list c)) (moved cold_dead_gap (cold_list c)) c in
         set_rows (<[src := new_base]> (adj_offsets c1)) (degrees c1) (<[src := want]> (primary_capacities c1)) c1).

(** The capacities of all rows for a batch, and what they add. *)
Definition new_capacities c (agg : list (nat * nat)) : list nat * nat :=
  fold_left (fun '(caps, extra) e =>
    let want := wanted_capacity c e in
    let have := at0 caps e.1 in
    if decide (have < want)%nat then (<[e.1 := want]> caps, (extra + (want - have))%nat) else (caps, extra))
    agg (primary_capacities c, 0%nat).

(** One row copied to the end of the new lists. *)
Definition copy_row c (caps : list nat) (acc : list HotNbr * list ColdStamps * list nat) vid :=
  let '(hots, colds, offsets) := acc in
  let base := offset_of c vid in
  let cap := capacity_of c vid in
  let pad := (at0 caps vid - cap)%nat in
  (hots ++ slice base (base + cap) (hot_list c) ++ replicate pad hot_dead_gap,
   colds ++ slice base (base + cap) (cold_list c) ++ replicate pad cold_dead_gap,
   offsets ++ [length hots]).

Definition rebuild_rows c (caps : list nat) (extra : nat) : MutableCsr :=
  let '(hots, colds, offsets) := fold_left (copy_row c caps) (seq 0 (vertex_capacity c)) ([], [], []) in
  reset_reuse_hints (add_capacity extra (set_rows offsets (degrees c) caps (set_lists hots colds c))).

Definition reserve_for_batch (counts : list (nat * nat)) c : MutableCsr :=
  match counts with
  | [] => c
  | _ =>
      let agg := aggregate counts in
      let c := fold_left (fun c e => prepare_row e.1 c) agg c in
      let '(caps, extra) := new_capacities c agg in
      if decide (extra = 0%nat) then c
      else if decide (length agg * 8 < Nat.max (vertex_capacity c) 1)%nat then fold_left grow_row agg c
      else rebuild_rows c caps extra
  end.

Record BatchEdge := mkBatchEdge { b_endpoint : Z; b_rank : Z; b_id : Z; b_create_ts : Z }.
Definition b_key (e : BatchEdge) : key := (b_endpoint e, b_rank e).

Definition key_order (a b : key) : Prop := key_le a b = true.
#[export] Instance key_order_dec : RelDecision key_order.
Proof. intros a b. unfold key_order. apply _. Defined.

(** No key of an ordered list is its neighbour's. *)
Definition adjacent_distinct (l : list key) : bool := ordered (fun a b => bool_decide (a <> b)) l.

Fixpoint fresh_keys (seen : gset key) (l : list key) : bool :=
  match l with
  | [] => true
  | k :: r => if decide (k ∈ seen) then false else fresh_keys ({[k]} ∪ seen) r
  end.

Definition check_row c (g : nat * list BatchEdge) : bool :=
  let keys := map b_key g.2 in
  let sorted_keys := if ordered key_le keys then keys else merge_sort key_order keys in
  let seen := list_to_set (map nbr_key (List.filter nbr_live (visit_physical c g.1))) in
  adjacent_distinct sorted_keys && fresh_keys seen keys.

(** One edge of a batch; the width of the row so far is kept beside the store. *)
Definition put_batch_edge src (st : MutableCsr * nat) (e : BatchEdge) : MutableCsr * nat :=
  let '(c, live) := st in
  let n := with_create_ts (b_endpoint e) (b_rank e) (b_id e) (b_create_ts e) in
  let live := S live in
  let degree := degree_of c src in
  let c :=
    if decide (degree < capacity_of c src)%nat then
      set_degree src (S degree) (mark_primary_unsorted src (set_slot (offset_of c src + degree) n c))
    else append_overflow src n live c in
  (add_edges 1 c, live).

Definition put_batch_row c (g : nat * list BatchEdge) : MutableCsr :=
  let '(src, batch) := g in
  rebuild_live_set_for_vertex src (fold_left (put_batch_edge src) batch (c, live_key_count c src)).1.

Definition batch_put_edges (groups : list (nat * list BatchEdge)) (check_duplicates : bool) c
  : MutableCsr * result nat CsrError :=
  if check_duplicates && negb (forallb (check_row c) groups) then (c, Err EdgeAlreadyExists)
  else
    let c := reserve_for_batch (map (fun g => (g.1, length g.2)) groups) c in
    (fold_left put_batch_row groups c, Ok (foldr (fun g n => length g.2 + n) 0 groups)%nat).

(** ** Ordering *)

Definition nbr_hot_le (a b : Nbr) : Prop := hot_le (hot a) (hot b) = true.
#[export] Instance nbr_hot_le_dec : RelDecision nbr_hot_le.
Proof. intros a b. unfold nbr_hot_le. apply _. Defined.

(** [sort_by] of the slots of a row: a stable sort. *)
Definition sort_slots (l : list Nbr) : list Nbr := merge_sort nbr_hot_le l.

Definition sort_row vid c : MutableCsr * bool :=
  if decide (vertex_capacity c <= vid \/ capacity_of c vid = 0)%nat then (mark_primary_sorted vid c, false)
  else
    let degree := degree_of c vid in
    if decide (degree <= 1)%nat then (mark_primary_sorted vid c, false)
    else
      let base := offset_of c vid in
      if decide (length (hot_list c) < base + degree \/ length (cold_list c) < base + degree)%nat then (c, false)
      else if ordered hot_le (slice base (base + degree) (hot_list c)) then (mark_primary_sorted vid c, false)
      else
        let slots := sort_slots (zip_with from_parts (slice base (base + degree) (hot_list c))
                                   (slice base (base + degree) (cold_list c))) in
        let c1 := set_lists (splice base (map hot slots) (hot_list c)) (splice base (map cold slots) (cold_list c)) c in
        (rebuild_live_set_for_vertex vid (mark_primary_sorted vid (invalidate_reuse_hint vid c1)), true).

Definition sort_all_rows c : MutableCsr * nat :=
  fold_left (fun '(c, n) vid => let '(c, moved) := sort_row vid c in (c, if moved then S n else n))
    (seq 0 (vertex_capacity c)) (c, 0%nat).

(** ** Rebalancing *)

(** Slots written from the front of a row. *)
Fixpoint place (base : nat) (l : list Nbr) c : MutableCsr :=
  match l with
  | [] => c
  | n :: r => place (S base) r (if decide (base < length (hot_list c))%nat then set_slot base n c else c)
  end.

Definition rebalance_row vid c : MutableCsr * bool :=
  if decide (vertex_capacity c <= vid \/ capacity_of c vid = 0)%nat then (c, false)
  else
    match ot_get (overflow_chunks c) vid with
    | None | Some [] => (c, false)
    | Some chunks =>
        let offset := offset_of c vid in
        let prim := omap (fun i => slot_at c (offset + i)) (seq 0 (degree_of c vid)) in
        let over := concat (map (fun ch => omap (ch_slot_at ch) (seq 0 (ch_len ch))) chunks) in
        let pinned n := negb (nbr_live n) in
        let all := List.filter nbr_live prim ++ List.filter nbr_live over ++
                   (List.filter pinned prim ++ List.filter pinned over) in
        let slots := Nat.min (capacity_of c vid) (length all) in
        let c1 := mark_primary_unsorted vid (invalidate_reuse_hint vid
                    (set_degree vid slots (place offset (take slots all) c))) in
        let old_cap := chunks_capacity chunks in
        let c2 :=
          match drop slots all with
          | [] => sub_capacity old_cap (set_overflow (ot_remove vid (overflow_chunks c1)).1 c1)
          | rest =>
              let single := consolidate_row rest in
              let c2 := add_capacity (ch_cap single) (sub_capacity old_cap c1) in
              set_overflow (ot_get_mut (fun _ => [single]) vid (overflow_chunks c2)) c2
          end in
        let c3 := rebuild_live_set_for_vertex vid c2 in
        (c3, match ot_get (overflow_chunks c3) vid with None | Some [] => true | _ => false end)
    end.

(** ** Compaction *)

Definition report (n : Nbr) : Z * Z := (edge_id n, delete_ts n).

(** What a compaction of one vertex does to the primary block: the store, the slots
    kept and the reports, walked slot by slot. *)
Definition tighten_slot (offset : nat) (cutoff : Z) (st : MutableCsr * nat * list (Z * Z)) (i : nat) :=
  let '(c, keep, removed) := st in
  match slot_at c (offset + i) with
  | Some n =>
      if nbr_reclaimable cutoff n then (c, keep, removed ++ [report n])
      else (if decide (keep = i) then c else set_slot (offset + keep) n c, S keep, removed)
  | None => (c, S keep, removed)
  end.

Definition kill_slots (start stop : nat) c : MutableCsr :=
  fold_left (fun c i => set_slot i dead_gap c) (seq start (stop - start)) c.

Definition compact_vertex_with_reporting vid (cutoff : Z) c : MutableCsr * list (Z * Z) :=
  if decide (cutoff = TS_MAX) then (c, [])
  else if decide (vertex_capacity c <= vid)%nat then (c, [])
  else if decide ((vertex_reclaim_probe c vid cutoff).2 = 0%nat) then (c, [])
  else
    let degree := degree_of c vid in
    let offset := offset_of c vid in
    let '(c1, keep, removed) := fold_left (tighten_slot offset cutoff) (seq 0 degree) (c, 0%nat, []) in
    let c2 := invalidate_reuse_hint vid (kill_slots (offset + keep) (offset + degree) (set_degree vid keep c1)) in
    match ot_remove vid (overflow_chunks c2) with
    | (t, Some chunks) =>
        let c3 := sub_capacity (chunks_capacity chunks) (set_overflow t c2) in
        let slots := concat (map ch_slots chunks) in
        let kept := List.filter (fun n => negb (nbr_reclaimable cutoff n)) slots in
        let removed := removed ++ map report (List.filter (nbr_reclaimable cutoff) slots) in
        match kept with
        | [] => (rebuild_live_set_for_vertex vid c3, removed)
        | _ =>
            let single := ch_consolidated kept in
            let c4 := add_capacity (ch_cap single) c3 in
            (rebuild_live_set_for_vertex vid (set_overflow (ot_insert vid [single] (overflow_chunks c4)) c4), removed)
        end
    | (_, None) =>
        (match removed with [] => c2 | _ => rebuild_live_set_for_vertex vid c2 end, removed)
    end.

(** The slots of a row that a full compaction drops, and those it keeps. *)
Definition drops (cutoff : Z) (n : Nbr) : bool := bool_decide (cutoff < TS_MAX) && nbr_reclaimable cutoff n.
Definition kept_of c (cutoff : Z) vid : list Nbr := List.filter (fun n => negb (drops cutoff n)) (row c vid).
Definition dropped_of c (cutoff : Z) vid : list Nbr := List.filter (drops cutoff) (row c vid).

(** One row appended to the new lists; [cap - deg] must not be negative. *)
Definition pack_row (acc : list Nbr * list nat) (e : list Nbr * nat) : option (list Nbr * list nat) :=
  let '(slots, offsets) := acc in
  let '(kept, cap) := e in
  if decide (cap < length kept)%nat then None
  else Some (slots ++ kept ++ replicate (cap - length kept) dead_gap, offsets ++ [length slots]).

Fixpoint pack_rows (acc : list Nbr * list nat) (l : list (list Nbr * nat)) : option (list Nbr * list nat) :=
  match l with
  | [] => Some acc
  | e :: r => match pack_row acc e with Some acc => pack_rows acc r | None => None end
  end.

(** [compact_with_ts_reporting]: nothing when the capacity of a row is computed
    below what it must hold (the subtraction overflows), else the store and what
    was dropped. *)
Definition compact_with_ts_reporting (cutoff : Z) (reserve_ratio : spec_float) c
  : option (MutableCsr * list (Z * Z)) :=
  let rows := seq 0 (vertex_capacity c) in
  let kept := map (kept_of c cutoff) rows in
  let caps := map (fun l => compact_row_capacity (length l) reserve_ratio) kept in
  let removed := map report (concat (map (dropped_of c cutoff) rows)) in
  match pack_rows ([], []) (zip kept caps) with
  | None => None
  | Some (slots, offsets) =>
      let c1 := set_rows offsets (map length kept) caps (set_lists (map hot slots) (map cold slots) c) in
      let c2 := set_overflow ot_new (set_total_capacity (foldr Nat.add 0%nat caps) c1) in
      let c3 := rebuild_live_sets (set_live_sets (ls_clear (live_sets c2)) c2) in
      Some (reset_primary_sorted (reset_reuse_hints c3), removed)
  end.

End rows.
End CsrRows.
