(* ===== verification/CsrView.v ===== *)
(** * Rows of the edge store as views

    The live-key index as a map, the view of a row and the layout of the store, and each
    primitive write as the function on the view of its row. *)

From stdpp Require Import base gmap list sorting strings.
From Stdlib Require Import ZArith Lia.
From S2P Require Import Prelude Types Watermarks IndexManifest CsrShared MutableCsr.

(** * The live-key index is a map from keys to positions

    Both forms of [LiveKeySet] are the map they stand for, when the sorted form is
    in order and without repeated keys. *)

Module CsrIndex.
Import CsrShared CsrSharedFacts Csr.

(** ** The order of keys *)

Lemma key_lt_spec (a b : Z * Z) : key_lt a b = true <-> a.1 < b.1 \/ (a.1 = b.1 /\ a.2 < b.2).
Proof.
  unfold key_lt. rewrite orb_true_iff, andb_true_iff, !bool_decide_eq_true. done.
Qed.

Lemma key_le_spec (a b : Z * Z) : key_le a b = true <-> a.1 < b.1 \/ (a.1 = b.1 /\ a.2 <= b.2).
Proof.
  unfold key_le. rewrite negb_true_iff, <- not_true_iff_false, key_lt_spec. lia.
Qed.

Lemma key_le_refl a : key_le a a = true.
Proof. rewrite key_le_spec. lia. Qed.

Lemma key_le_trans a b d : key_le a b = true -> key_le b d = true -> key_le a d = true.
Proof. rewrite !key_le_spec. lia. Qed.

Lemma key_le_total a b : key_le a b = true \/ key_le b a = true.
Proof. rewrite !key_le_spec. lia. Qed.

Lemma key_le_antisym a b : key_le a b = true -> key_le b a = true -> a = b.
Proof. destruct a, b. rewrite !key_le_spec. simpl. intros ??. f_equal; lia. Qed.

Lemma key_lt_le_trans a b d : key_lt a b = true -> key_le b d = true -> key_lt a d = true.
Proof. rewrite !key_lt_spec, key_le_spec. lia. Qed.

Lemma key_lt_false_le a b : key_lt a b = false <-> key_le b a = true.
Proof. unfold key_le. by rewrite negb_true_iff. Qed.

#[export] Instance entry_le_trans : Transitive entry_le.
Proof. intros a b d. apply key_le_trans. Qed.

#[export] Instance entry_le_total : Total entry_le.
Proof. intros a b. apply key_le_total. Qed.

(** ** Partition points *)

Section cut.
Context {A : Type} (R : relation A).

(** A predicate that, once false along [R], stays false. *)
Definition cut (p : A -> bool) : Prop := forall x y, R x y -> p y = true -> p x = true.

Lemma partition_point_cut p l :
  StronglySorted R l -> cut p -> forall i x, l !! i = Some x -> p x = bool_decide (i < Manifest.partition_point p l)%nat.
Proof.
  intros Hs Hc. induction Hs as [|a l Hs IH Ha]; intros i x Hi; [done|].
  simpl. destruct (p a) eqn:Ea.
  - destruct i as [|i]; simpl in Hi.
    + simplify_eq. rewrite Ea. symmetry. apply bool_decide_eq_true. lia.
    + rewrite (IH i x Hi). apply bool_decide_ext. lia.
  - rewrite bool_decide_false by lia. destruct i as [|i]; simpl in Hi; [by simplify_eq|].
    destruct (p x) eqn:Ex; [|done]. rewrite Forall_forall in Ha.
    rewrite (Hc a x) in Ea; [done| |done]. apply Ha. by eapply list_elem_of_lookup_2.
Qed.

Lemma partition_point_le (p : A -> bool) l : (Manifest.partition_point p l <= length l)%nat.
Proof. induction l as [|a l IH]; simpl; [done|]. destruct (p a); lia. Qed.

(** Between two partition points of a sorted list lie the elements that satisfy
    the second predicate and not the first. *)
Lemma partition_slice p q l :
  StronglySorted R l -> cut p -> cut q ->
  slice (Manifest.partition_point p l) (Manifest.partition_point q l) l =
  List.filter (fun x => negb (p x) && q x) l.
Proof.
  intros Hs Hp Hq. unfold slice. induction Hs as [|a l Hs IH Ha]; [done|]. rewrite Forall_forall in Ha.
  assert (Hup : forall f, cut f -> f a = false -> forall x, x ∈ l -> f x = false).
  { intros f Hf Hk x Hx. destruct (f x) eqn:E; [|done]. rewrite <- Hk. symmetry. by apply (Hf a x), E; apply Ha. }
  assert (Hnone : forall f : A -> bool, (forall x, x ∈ l -> f x = false) -> List.filter f l = []).
  { clear. intros f. induction l as [|x l IH]; intros Hf; simpl; [done|]. rewrite (Hf x) by set_solver. apply IH. set_solver. }
  cbn [Manifest.partition_point List.filter]. destruct (p a) eqn:Ep, (q a) eqn:Eq; cbn [negb andb].
  - apply IH.
  - rewrite Nat.sub_0_l. simpl. symmetry. apply Hnone. intros x Hx. by rewrite (Hup q Hq Eq x Hx), andb_false_r.
  - assert (H0 : Manifest.partition_point p l = 0%nat).
    { destruct l as [|y l']; [done|]. simpl. by rewrite (Hup p Hp Ep y) by (by left). }
    rewrite H0, Nat.sub_0_r, drop_0 in IH. rewrite Nat.sub_0_r, drop_0. cbn [take]. by rewrite IH.
  - simpl. symmetry. apply Hnone. intros x Hx. by rewrite (Hup q Hq Eq x Hx), andb_false_r.
Qed.

End cut.

(** ** The index as a map *)

Definition lks_wf (s : LiveKeySet) : Prop :=
  match s with
  | LHash _ => True
  | LSorted l => StronglySorted entry_le l /\ NoDup l.*1
  end.

Lemma fold_insert_map (l : list (Z * Z * EdgePosition)) (m : gmap (Z * Z) EdgePosition) :
  NoDup l.*1 -> fold_left (fun m e => <[e.1 := e.2]> m) l m = list_to_map l ∪ m.
Proof.
  revert m. induction l as [|[k p] l IH]; intros m Hn; simpl; [by rewrite (left_id_L ∅ (∪))|].
  apply NoDup_cons in Hn as [Hk Hn]. rewrite IH by done. apply not_elem_of_list_to_map in Hk.
  rewrite <- insert_union_r by done. by rewrite insert_union_l.
Qed.

Lemma lks_hash_sorted l k p : NoDup l.*1 -> lks_hash (LSorted l) !! k = Some p <-> (k, p) ∈ l.
Proof.
  intros Hn. unfold lks_hash. rewrite fold_insert_map, (right_id_L ∅ (∪)) by done.
  symmetry. by apply elem_of_list_to_map.
Qed.

(** The lookup by bisection. *)
Lemma sorted_bisect l k :
  StronglySorted entry_le l -> NoDup l.*1 ->
  match l !! Manifest.partition_point (fun e => key_lt e.1 k) l with
  | Some e => if decide (e.1 = k) then Some e.2 else None
  | None => None
  end = lks_hash (LSorted l) !! k.
Proof.
  intros Hs Hn. set (i := Manifest.partition_point _ l).
  assert (Hcut : cut entry_le (fun e : Z * Z * EdgePosition => key_lt e.1 k)).
  { intros x y Hxy Hy. unfold entry_le in Hxy. rewrite key_lt_spec in *. rewrite key_le_spec in Hxy. lia. }
  pose proof (partition_point_cut entry_le _ l Hs Hcut) as Hpp. fold i in Hpp.
  destruct (lks_hash (LSorted l) !! k) as [p|] eqn:E.
  - apply lks_hash_sorted in E; [|done]. apply list_elem_of_lookup in E as [j Hj].
    pose proof (Hpp j _ Hj) as Hjp. simpl in Hjp.
    assert (Hkk : key_lt k k = false) by (apply key_lt_false_le, key_le_refl). rewrite Hkk in Hjp.
    symmetry in Hjp. apply bool_decide_eq_false in Hjp.
    destruct (lookup_lt_is_Some_2 l i) as [[k' p'] Hi]; [apply lookup_lt_Some in Hj; lia|].
    rewrite Hi. assert (Hij : i = j); [|subst j; rewrite Hi in Hj; simplify_eq; by rewrite decide_True].
    destruct (decide (i = j)) as [|Hne]; [done|exfalso].
    assert (Hle : key_le k' k = true).
    { apply (StronglySorted_app_1_elem_of entry_le (take j l) (drop j l)) with (x1 := (k', p')) (x2 := (k, p)).
      - by rewrite take_drop.
      - apply list_elem_of_lookup. exists i. rewrite lookup_take_lt by lia. done.
      - apply list_elem_of_lookup. exists 0%nat. rewrite lookup_drop, Nat.add_0_r. done. }
    pose proof (Hpp i _ Hi) as Hip. simpl in Hip. rewrite bool_decide_false in Hip by lia.
    apply key_lt_false_le in Hip. pose proof (key_le_antisym _ _ Hle Hip) as ->.
    apply Hne. eapply (NoDup_lookup l.*1); [done| |]; rewrite list_lookup_fmap; [by rewrite Hi|by rewrite Hj].
  - destruct (l !! i) as [[k' p']|] eqn:Hi; [|done]. simpl. case_decide as Ek; [subst|done].
    apply list_elem_of_lookup_2 in Hi. apply lks_hash_sorted in Hi; [|done]. congruence.
Qed.

Lemma lks_position_map s k : lks_wf s -> lks_position s k = lks_hash s !! k.
Proof. destruct s as [m|l]; [done|]. intros [Hs Hn]. by apply sorted_bisect. Qed.

Lemma lks_contains_map s k : lks_wf s -> lks_contains s k = bool_decide (is_Some (lks_hash s !! k)).
Proof.
  destruct s as [m|l]; [done|]. intros [Hs Hn]. cbn [lks_contains]. rewrite <- (sorted_bisect l k Hs Hn).
  destruct (l !! _) as [[k' p]|]; cbn [fst snd]; [|by rewrite bool_decide_false by by intros [? ?]].
  case_decide as E; [by rewrite !bool_decide_true by eauto|].
  rewrite !bool_decide_false; [done| |done]. by intros [? ?].
Qed.

Lemma from_positions_wf ps : NoDup ps.*1 -> lks_wf (from_positions ps).
Proof.
  intros Hn. split; [apply (StronglySorted_merge_sort entry_le)|].
  eapply (NoDup_Permutation_proper (_ <$> _)); [|exact Hn]. apply fmap_Permutation, merge_sort_Permutation.
Qed.

Lemma from_positions_map ps k p :
  NoDup ps.*1 -> lks_hash (from_positions ps) !! k = Some p <-> (k, p) ∈ ps.
Proof.
  intros Hn. unfold from_positions. rewrite lks_hash_sorted by apply (from_positions_wf _ Hn).
  by rewrite merge_sort_Permutation.
Qed.

End CsrIndex.

(** * Rows of the edge store as views

    The slots of the store are one array cut into blocks; the overflow chunks and
    the index of live keys are segmented tables.  [view c v] is what all of this
    amounts to for one row.  Under [geom] (the blocks are disjoint and inside the
    array) every write to the store is a function on the view of one row and leaves
    the others alone ([upd]). *)

Module CsrView.
Import CsrShared CsrSharedFacts Csr CsrIndex.

Record View := mkView {
  v_block : list Nbr;
  v_deg : nat;
  v_over : option (list OverflowChunk);
  v_set : option LiveKeySet;
  v_sorted : bool;
}.

Definition with_block (b : list Nbr) (W : View) : View := mkView b (v_deg W) (v_over W) (v_set W) (v_sorted W).
Definition with_deg (d : nat) (W : View) : View := mkView (v_block W) d (v_over W) (v_set W) (v_sorted W).
Definition with_over o (W : View) : View := mkView (v_block W) (v_deg W) o (v_set W) (v_sorted W).
Definition with_set s (W : View) : View := mkView (v_block W) (v_deg W) (v_over W) s (v_sorted W).
Definition with_sorted b (W : View) : View := mkView (v_block W) (v_deg W) (v_over W) (v_set W) b.

Definition slots (c : MutableCsr) : list Nbr := zip_with from_parts (hot_list c) (cold_list c).
Definition block (c : MutableCsr) (v : nat) : list Nbr := take (capacity_of c v) (drop (offset_of c v) (slots c)).

Definition view (c : MutableCsr) (v : nat) : View :=
  mkView (block c v) (degree_of c v) (ot_get (overflow_chunks c) v) (ls_get (live_sets c) v)
    (default true (primary_sorted c !! v)).

(** ** What a row shows *)

Definition vprim (W : View) : list Nbr := take (v_deg W) (v_block W).
Definition vchunks (W : View) : list OverflowChunk := default [] (v_over W).
Definition vrow (W : View) : list Nbr := vprim W ++ concat (map ch_slots (vchunks W)).
Definition vwidth (W : View) : nat := (v_deg W + foldr (fun ch n => ch_len ch + n) 0 (vchunks W))%nat.

Definition vpositions (W : View) : list (Z * Z * EdgePosition) :=
  positioned PosPrimary 0 (vprim W) ++ positioned_chunks 0 (vchunks W).

Definition vrebuild (W : View) : View :=
  with_set (if decide (length (vpositions W) <= LIVE_SET_WIDTH_BOUND)%nat then None
            else Some (from_positions (vpositions W))) W.

Definition vtrack_insert (k : Z * Z) (p : EdgePosition) (W : View) : View :=
  match v_set W with
  | Some s => with_set (Some (lks_insert k p s)) W
  | None => if decide (LIVE_SET_WIDTH_BOUND < vwidth W)%nat then vrebuild W else W
  end.

Definition vtrack_remove (k : Z * Z) (W : View) : View :=
  match v_set W with
  | None => W
  | Some s => with_set (if lks_is_empty (lks_remove k s) then None else Some (lks_remove k s)) W
  end.

(** ** The layout *)

Record geom (c : MutableCsr) : Prop := {
  g_cold : length (cold_list c) = length (hot_list c);
  g_degrees : length (degrees c) = vertex_capacity c;
  g_capacities : length (primary_capacities c) = vertex_capacity c;
  g_sorted : length (primary_sorted c) = vertex_capacity c;
  g_hints : length (reuse_hint c) = vertex_capacity c;
  g_lives : length (live_counts c) = vertex_capacity c;
  g_tombs : length (tombstone_counts c) = vertex_capacity c;
  g_row v : (degree_of c v <= capacity_of c v)%nat /\ (offset_of c v + capacity_of c v <= length (hot_list c))%nat;
  g_disjoint v w : v <> w -> capacity_of c v = 0%nat \/ capacity_of c w = 0%nat \/
    (offset_of c v + capacity_of c v <= offset_of c w)%nat \/ (offset_of c w + capacity_of c w <= offset_of c v)%nat;
  g_over : ot_wf (overflow_chunks c);
  g_over_dom v : (vertex_capacity c <= v)%nat -> ot_get (overflow_chunks c) v = None;
  g_set : seg_wf (ls_table (live_sets c));
  g_set_dom v : (vertex_capacity c <= v)%nat -> ls_get (live_sets c) v = None;
}.

(** The store changes in the view of one row and in the count of edges. *)
Record upd (v : nat) (W : View) (d : Z) (c c' : MutableCsr) : Prop := {
  u_geom : geom c';
  u_capacity : (vertex_capacity c <= vertex_capacity c')%nat;
  u_view w : view c' w = if decide (w = v) then W else view c w;
  u_edges : edge_count c' = edge_count c + d;
  u_cutoff : tombstone_reuse_cutoff c' = tombstone_reuse_cutoff c;
}.

Lemma upd_at v W d c c' : upd v W d c c' -> view c' v = W.
Proof. intros U. rewrite (u_view _ _ _ _ _ U). by rewrite decide_True. Qed.

Lemma upd_ne v W d c c' w : upd v W d c c' -> w <> v -> view c' w = view c w.
Proof. intros U Hw. rewrite (u_view _ _ _ _ _ U). by rewrite decide_False. Qed.

Lemma upd_refl v c : geom c -> upd v (view c v) 0 c c.
Proof. intros G. split; try done; [|lia]. intros w. case_decide; by subst. Qed.

Lemma upd_trans v W W' d d' c c1 c2 : upd v W d c c1 -> upd v W' d' c1 c2 -> upd v W' (d + d') c c2.
Proof.
  intros [G C V E K] [G' C' V' E' K']. split; [done|lia| |lia|congruence]. intros w. rewrite V'. case_decide; [done|].
  rewrite V. by rewrite decide_False.
Qed.

(** A write after another, both as functions on the view. *)
Lemma upd_chain v W d c c1 (F : View -> View) d' (f : MutableCsr -> MutableCsr) :
  upd v W d c c1 -> upd v (F (view c1 v)) d' c1 (f c1) -> upd v (F W) (d + d') c (f c1).
Proof. intros U U'. rewrite (upd_at _ _ _ _ _ U) in U'. by eapply upd_trans. Qed.

(** ** Lists *)

Lemma slice_length {A} a b (l : list A) : (b <= length l)%nat -> length (slice a b l) = (b - a)%nat.
Proof. intros Hb. unfold slice. rewrite length_take, length_drop. lia. Qed.

Lemma slice_cap {A} a n (l : list A) : slice a (a + n) l = take n (drop a l).
Proof. unfold slice. f_equal. lia. Qed.

Lemma splice_length {A} a (new l : list A) : (a + length new <= length l)%nat -> length (splice a new l) = length l.
Proof. intros Ha. unfold splice. rewrite !length_app, length_take, length_drop. lia. Qed.

Lemma splice_window {A} a n (new l : list A) :
  length new = n -> (a + n <= length l)%nat -> take n (drop a (splice a new l)) = new.
Proof.
  intros <- Ha. unfold splice. rewrite drop_app_length' by (rewrite length_take; lia). by rewrite take_app_length.
Qed.

Lemma splice_before {A} a b n (new l : list A) :
  (b + n <= a)%nat -> (a + length new <= length l)%nat -> take n (drop b (splice a new l)) = take n (drop b l).
Proof.
  intros Hb Ha. unfold splice. rewrite drop_app_le by (rewrite length_take; lia).
  rewrite take_app_le by (rewrite length_drop, length_take; lia). rewrite skipn_firstn_comm. rewrite take_take. f_equal. lia.
Qed.

Lemma splice_after {A} a b n (new l : list A) :
  (a + length new <= b)%nat -> (a + length new <= length l)%nat -> take n (drop b (splice a new l)) = take n (drop b l).
Proof.
  intros Hb Ha. unfold splice. rewrite drop_app_ge by (rewrite length_take; lia). rewrite length_take.
  rewrite drop_app_ge by lia. rewrite drop_drop. do 2 f_equal. lia.
Qed.

(** A window rewritten where it stands. *)
Lemma splice_at {A} a n i x (l : list A) :
  (i < n)%nat -> (a + n <= length l)%nat -> <[(a + i)%nat := x]> l = splice a (<[i := x]> (take n (drop a l))) l.
Proof.
  intros Hi Ha. unfold splice. rewrite length_insert, length_take, length_drop, Nat.min_l by lia.
  rewrite <- (take_drop a l) at 1. rewrite insert_app_r_alt by (rewrite length_take; lia).
  f_equal. rewrite length_take. replace (a + i - a `min` length l)%nat with i by lia.
  rewrite <- (take_drop n (drop a l)) at 1. rewrite drop_drop.
  rewrite insert_app_l by (rewrite length_take, length_drop; lia). done.
Qed.

Lemma splice_id {A} a n (l : list A) : (a + n <= length l)%nat -> splice a (take n (drop a l)) l = l.
Proof.
  intros Ha. unfold splice. rewrite length_take, length_drop, Nat.min_l by lia.
  rewrite <- drop_drop. by rewrite take_drop, take_drop.
Qed.

Lemma zip_splice a (h h' : list HotNbr) (k k' : list ColdStamps) :
  length h = length k -> length h' = length k' ->
  zip_with from_parts (splice a h' h) (splice a k' k) =
  splice a (zip_with from_parts h' k') (zip_with from_parts h k).
Proof.
  intros Hl Hl'. unfold splice. rewrite length_zip_with, <- Hl', Nat.min_id.
  rewrite !zip_with_app by (rewrite ?length_take; lia). by rewrite zip_with_take, zip_with_drop.
Qed.

Lemma zip_map_parts (b : list Nbr) : zip_with from_parts (map hot b) (map cold b) = b.
Proof. induction b as [|n b IH]; simpl; [done|]. by rewrite IH, parts_id. Qed.

Lemma map_hot_zip h k : length h = length k -> map hot (zip_with from_parts h k) = h.
Proof.
  revert k. induction h as [|x h IH]; intros [|y k] Hl; simpl in *; try done. rewrite IH by lia. by rewrite hot_parts.
Qed.

Lemma map_cold_zip h k : length h = length k -> map cold (zip_with from_parts h k) = k.
Proof.
  revert k. induction h as [|x h IH]; intros [|y k] Hl; simpl in *; try done. rewrite IH by lia. by rewrite cold_parts.
Qed.

End CsrView.

(** * Writes to the edge store as updates of views

    Each primitive write of the store, as the function on the view of its row. *)

Module CsrUpd.
Import CsrShared CsrSharedFacts Csr CsrIndex CsrView.

(** The layout of a store whose changed parts are given one by one. *)
Ltac geom_same G := destruct G; split; simpl in *; rewrite ?length_insert, ?length_alter; assumption || eauto.

Section upd.
Context `{Allocator}.
Implicit Types (c : MutableCsr) (v w : nat).

(** ** The ledgers beside the views *)

Definition same_rows c c' : Prop :=
  hot_list c' = hot_list c /\ cold_list c' = cold_list c /\ adj_offsets c' = adj_offsets c /\
  degrees c' = degrees c /\ primary_capacities c' = primary_capacities c /\
  overflow_chunks c' = overflow_chunks c /\ live_sets c' = live_sets c /\ primary_sorted c' = primary_sorted c /\
  tombstone_reuse_cutoff c' = tombstone_reuse_cutoff c.

Lemma view_same c c' w : same_rows c c' -> view c' w = view c w.
Proof.
  intros (E1 & E2 & E3 & E4 & E5 & E6 & E7 & E8 & _). unfold view, block, slots, degree_of, capacity_of, offset_of.
  by rewrite E1, E2, E3, E4, E5, E6, E7, E8.
Qed.

Lemma upd_ledger v c c' :
  geom c -> same_rows c c' -> length (reuse_hint c') = length (reuse_hint c) ->
  length (live_counts c') = length (live_counts c) -> length (tombstone_counts c') = length (tombstone_counts c) ->
  edge_count c' = edge_count c -> upd v (view c v) 0 c c'.
Proof.
  intros G S Hh Hl Ht He. pose proof (view_same c c') as V. specialize (fun w => V w S).
  destruct S as (E1 & E2 & E3 & E4 & E5 & E6 & E7 & E8 & E9).
  split; [|unfold vertex_capacity; rewrite E3; lia| |lia|done].
  - destruct G. unfold degree_of, capacity_of, offset_of, vertex_capacity in *.
    split; unfold degree_of, capacity_of, offset_of, vertex_capacity;
      rewrite ?E1, ?E2, ?E3, ?E4, ?E5, ?E6, ?E7, ?E8, ?Hh, ?Hl, ?Ht; assumption.
  - intros w. rewrite V. case_decide; by subst.
Qed.

Lemma upd_hints v f c :
  geom c -> length (f (reuse_hint c)) = length (reuse_hint c) -> upd v (view c v) 0 c (set_hints (f (reuse_hint c)) c).
Proof. intros G Hl. by apply upd_ledger. Qed.

Lemma upd_counts v lc tc c :
  geom c -> length lc = length (live_counts c) -> length tc = length (tombstone_counts c) ->
  upd v (view c v) 0 c (set_counts lc tc c).
Proof. intros G Hl Ht. by apply upd_ledger. Qed.

Lemma upd_capacity v n c : geom c -> upd v (view c v) 0 c (set_total_capacity n c).
Proof. intros G. by apply upd_ledger. Qed.

Lemma upd_edges v d c : geom c -> upd v (view c v) d c (add_edges d c).
Proof. intros G. split; [geom_same G|done| |done|done]. intros w. case_decide; by subst. Qed.

(** ** Blocks *)

Lemma slots_length c : geom c -> length (slots c) = length (hot_list c).
Proof. intros G. unfold slots. rewrite length_zip_with, (g_cold _ G). lia. Qed.

Lemma block_length c v : geom c -> length (block c v) = capacity_of c v.
Proof.
  intros G. unfold block. rewrite length_take, length_drop, slots_length by done.
  destruct (g_row _ G v). lia.
Qed.

Lemma map_hot_block c v : geom c -> map hot (block c v) = take (capacity_of c v) (drop (offset_of c v) (hot_list c)).
Proof.
  intros G. unfold block, slots. change (map hot) with (fmap (M := list) hot). rewrite fmap_take, fmap_drop. do 2 f_equal.
  apply map_hot_zip. by rewrite (g_cold _ G).
Qed.

Lemma map_cold_block c v : geom c -> map cold (block c v) = take (capacity_of c v) (drop (offset_of c v) (cold_list c)).
Proof.
  intros G. unfold block, slots. change (map cold) with (fmap (M := list) cold). rewrite fmap_take, fmap_drop. do 2 f_equal.
  apply map_cold_zip. by rewrite (g_cold _ G).
Qed.

(** The block of a row rewritten. *)
Definition put_block v (b : list Nbr) c : MutableCsr :=
  set_lists (splice (offset_of c v) (map hot b) (hot_list c)) (splice (offset_of c v) (map cold b) (cold_list c)) c.

Lemma upd_put_block v b c :
  geom c -> length b = capacity_of c v -> upd v (with_block b (view c v)) 0 c (put_block v b c).
Proof.
  intros G Hb. destruct (g_row _ G v) as [_ Hv].
  assert (Hs : slots (put_block v b c) = splice (offset_of c v) b (slots c)).
  { unfold slots, put_block. cbn [set_lists hot_list cold_list].
    rewrite zip_splice by (rewrite ?length_map, ?(g_cold _ G); done). by rewrite zip_map_parts. }
  split; [| done | | simpl; lia | done].
  - pose proof (g_cold _ G) as Gc. assert (Hh : length (hot_list (put_block v b c)) = length (hot_list c)).
    { apply splice_length. rewrite length_map. lia. }
    destruct G. split; rewrite ?Hh; try assumption.
    simpl. rewrite splice_length by (rewrite length_map; lia). done.
  - intros w. unfold view. rewrite (decide_ext (w = v) (v = w)) by done. case_decide as E.
    + subst w. unfold with_block. simpl. f_equal. unfold block. rewrite Hs. apply splice_window; [done|].
      rewrite slots_length by done. done.
    + f_equal. unfold block. rewrite Hs. change (capacity_of (put_block v b c)) with (capacity_of c).
      change (offset_of (put_block v b c)) with (offset_of c).
      destruct (g_disjoint _ G v w E) as [E0|[E0|[E0|E0]]].
      * destruct b; [|simpl in Hb; lia]. unfold splice. simpl. by rewrite Nat.add_0_r, take_drop.
      * by rewrite E0, !take_0.
      * apply splice_after; [lia|]. rewrite slots_length by done. lia.
      * apply splice_before; [lia|]. rewrite slots_length by done. lia.
Qed.

Lemma set_slot_block v i n c :
  geom c -> (i < capacity_of c v)%nat -> set_slot (offset_of c v + i) n c = put_block v (<[i := n]> (block c v)) c.
Proof.
  intros G Hi. destruct (g_row _ G v) as [_ Hv]. pose proof (g_cold _ G) as Gc. unfold set_slot, put_block.
  change (map hot) with (fmap (M := list) hot). change (map cold) with (fmap (M := list) cold).
  rewrite !list_fmap_insert. change (fmap (M := list) hot) with (map hot). change (fmap (M := list) cold) with (map cold).
  rewrite map_hot_block, map_cold_block by done.
  by rewrite !(splice_at (offset_of c v) (capacity_of c v) i) by lia.
Qed.

Lemma upd_set_slot v i n c :
  geom c -> (i < capacity_of c v)%nat ->
  upd v (with_block (<[i := n]> (block c v)) (view c v)) 0 c (set_slot (offset_of c v + i) n c).
Proof.
  intros G Hi. rewrite set_slot_block by done. apply upd_put_block; [done|]. by rewrite length_insert, block_length.
Qed.

(** A slot with another deletion stamp. *)
Definition restamp (ts : Z) (n : Nbr) : Nbr := mkNbr (endpoint n) (nbr_rank n) (edge_id n) ts.

Lemma set_cold_slot i ts c n :
  geom c -> slots c !! i = Some n -> set_cold i ts c = set_slot i (restamp ts n) c.
Proof.
  intros G Hi. unfold slots in Hi. apply lookup_zip_with_Some in Hi as (h & k & -> & Hh & Hk).
  unfold set_cold, set_slot. f_equal. symmetry. apply list_insert_id. rewrite Hh. by destruct h.
Qed.

Lemma block_lookup c v i n : block c v !! i = Some n -> slots c !! (offset_of c v + i)%nat = Some n.
Proof. unfold block. intros Hi. apply lookup_take_Some in Hi as [Hi _]. by rewrite lookup_drop in Hi. Qed.

Lemma upd_set_cold v i ts c n :
  geom c -> block c v !! i = Some n ->
  upd v (with_block (<[i := restamp ts n]> (block c v)) (view c v)) 0 c (set_cold (offset_of c v + i) ts c).
Proof.
  intros G Hi. rewrite (set_cold_slot _ _ _ n) by (done || by apply block_lookup).
  apply upd_set_slot; [done|]. apply lookup_lt_Some in Hi. by rewrite block_length in Hi.
Qed.

Lemma at0_insert l i x j :
  at0 (<[i := x]> l) j = if decide (j = i /\ (i < length l)%nat) then x else at0 l j.
Proof.
  unfold at0. destruct (decide (j = i)) as [->|Hne].
  - destruct (decide (i < length l)%nat) as [Hi|Hi].
    + rewrite list_lookup_insert_eq by done. by rewrite decide_True.
    + rewrite list_insert_ge by lia. rewrite decide_False by lia. done.
  - rewrite list_lookup_insert_ne by done. rewrite decide_False by tauto. done.
Qed.

Lemma upd_set_degree v d c :
  geom c -> (v < vertex_capacity c)%nat -> (d <= capacity_of c v)%nat ->
  upd v (with_deg d (view c v)) 0 c (set_degree v d c).
Proof.
  intros G Hv Hd.
  assert (Hdeg : forall w, degree_of (set_degree v d c) w = if decide (w = v) then d else degree_of c w).
  { intros w. unfold degree_of. simpl. rewrite at0_insert, (g_degrees _ G).
    destruct (decide (w = v)); [by rewrite decide_True by done|by rewrite decide_False by tauto]. }
  split; [|done| |simpl; lia|done].
  - pose proof G as G0. destruct G. split; simpl; try assumption.
    + by rewrite length_insert.
    + intros w. rewrite Hdeg. change (capacity_of (set_degree v d c)) with (capacity_of c).
      change (offset_of (set_degree v d c)) with (offset_of c). destruct (g_row0 w). case_decide; [subst|]; lia.
  - intros w. unfold view. rewrite Hdeg. by case_decide; [subst|].
Qed.

Lemma upd_mark v b c :
  geom c -> (v < vertex_capacity c)%nat ->
  upd v (with_sorted b (view c v)) 0 c (set_sorted (<[v := b]> (primary_sorted c)) c).
Proof.
  intros G Hv. split; [geom_same G|done| |simpl; lia|done]. intros w. unfold view. simpl. case_decide as E.
  - subst w. by rewrite list_lookup_insert_eq by by rewrite (g_sorted _ G).
  - by rewrite list_lookup_insert_ne.
Qed.

(** ** Tables *)

Lemma upd_over v (o : option (list OverflowChunk)) t c :
  geom c -> (v < vertex_capacity c)%nat -> ot_wf t ->
  (forall w, ot_get t w = if decide (v = w) then o else ot_get (overflow_chunks c) w) ->
  upd v (with_over o (view c v)) 0 c (set_overflow t c).
Proof.
  intros G Hv Hw Hg. split; [|done| |simpl; lia|done].
  - destruct G. split; simpl; try assumption. intros w Hc. rewrite Hg, decide_False; [by apply g_over_dom0|].
    intros <-. unfold vertex_capacity in *. simpl in *. lia.
  - intros w. unfold view. simpl. rewrite Hg. rewrite (decide_ext (w = v) (v = w)) by done. by case_decide; [subst|].
Qed.

Lemma upd_live v (o : option LiveKeySet) s c :
  geom c -> (v < vertex_capacity c)%nat -> seg_wf (ls_table s) ->
  (forall w, ls_get s w = if decide (v = w) then o else ls_get (live_sets c) w) ->
  upd v (with_set o (view c v)) 0 c (set_live_sets s c).
Proof.
  intros G Hv Hw Hg. split; [|done| |simpl; lia|done].
  - destruct G. split; simpl; try assumption. intros w Hc. rewrite Hg, decide_False; [by apply g_set_dom0|].
    intros <-. unfold vertex_capacity in *. simpl in *. lia.
  - intros w. unfold view. simpl. rewrite Hg. rewrite (decide_ext (w = v) (v = w)) by done. by case_decide; [subst|].
Qed.

(** ** The index of live keys *)

Lemma seg_take_spec {T} v (t : list (option (list (option T)))) :
  seg_wf t -> seg_wf (seg_take v t).1 /\
  forall w, seg_get (seg_take v t).1 w = if decide (v = w) then None else seg_get t w.
Proof.
  intros Hw. destruct (t !! (v / 1024)%nat) as [[s|]|] eqn:E.
  1: assert (Hs : (seg_take v t).1 = seg_slot_mut (fun _ => None) v t).
  1: { unfold seg_take, seg_slot_mut. rewrite locate_div, E. apply lookup_lt_Some in E as Hl.
       by rewrite resize_short, E by lia. }
  1: rewrite Hs; split; [by apply seg_slot_mut_wf|intros w; by rewrite seg_get_slot_mut].
  all: assert (Hs : (seg_take v t).1 = t) by (unfold seg_take; by rewrite locate_div, E).
  all: rewrite Hs; split; [done|]; intros w; case_decide; [subst|done]; by rewrite seg_get_div, E.
Qed.

Definition ls_ok s : Prop := seg_wf (ls_table s).

Lemma ls_insert_spec v x s :
  ls_ok s -> ls_ok (ls_insert v x s) /\
  forall w, ls_get (ls_insert v x s) w = if decide (v = w) then Some x else ls_get s w.
Proof.
  intros Hw. split; [by apply seg_slot_mut_wf|]. intros w. unfold ls_get. simpl. by rewrite seg_get_slot_mut.
Qed.

Lemma ls_remove_spec v s :
  ls_ok s -> ls_ok (ls_remove v s) /\
  forall w, ls_get (ls_remove v s) w = if decide (v = w) then None else ls_get s w.
Proof.
  intros Hw. destruct (seg_take_spec v _ Hw) as [Hw' Hg]. unfold ls_ok, ls_remove.
  destruct (seg_take v (ls_table s)) as [t [x|]]; by split.
Qed.

Lemma ls_insert_key_spec v k p s x :
  ls_ok s -> ls_get s v = Some x -> ls_ok (ls_insert_key v k p s) /\
  forall w, ls_get (ls_insert_key v k p s) w = if decide (v = w) then Some (lks_insert k p x) else ls_get s w.
Proof.
  intros Hw Hx. unfold ls_insert_key. unfold ls_get in Hx. rewrite Hx. split; [by apply seg_slot_mut_wf|].
  intros w. unfold ls_get. simpl. by rewrite seg_get_slot_mut.
Qed.

Lemma ls_remove_key_spec v k s x :
  ls_ok s -> ls_get s v = Some x -> ls_ok (ls_remove_key v k s) /\
  forall w, ls_get (ls_remove_key v k s) w =
    if decide (v = w) then if lks_is_empty (lks_remove k x) then None else Some (lks_remove k x) else ls_get s w.
Proof.
  intros Hw Hx. unfold ls_remove_key. unfold ls_get in Hx. rewrite Hx.
  assert (Hm : seg_wf (seg_get_mut (fun _ => lks_remove k x) v (ls_table s)) /\
    forall w, seg_get (seg_get_mut (fun _ => lks_remove k x) v (ls_table s)) w =
      if decide (v = w) then Some (lks_remove k x) else seg_get (ls_table s) w).
  { rewrite (seg_get_mut_slot _ _ _ _ Hx). split; [by apply seg_slot_mut_wf|]. intros w.
    rewrite seg_get_slot_mut by done. by rewrite Hx. }
  destruct Hm as [Hm Hg]. destruct (lks_is_empty (lks_remove k x)); [|by split].
  destruct (seg_take_spec v _ Hm) as [Ht Hgt]. split; [done|]. intros w. unfold ls_get. simpl. rewrite Hgt.
  case_decide; [done|]. by rewrite Hg, decide_False.
Qed.

(** ** Rows read from the store *)

Lemma block_nil c v : geom c -> (vertex_capacity c <= v)%nat -> block c v = [] /\ degree_of c v = 0%nat.
Proof.
  intros G Hv. assert (Hc : capacity_of c v = 0%nat).
  { unfold capacity_of, at0. rewrite lookup_ge_None_2; [done|]. by rewrite (g_capacities _ G). }
  destruct (g_row _ G v). split; [|lia]. apply length_zero_iff_nil. by rewrite block_length.
Qed.

Lemma primary_window_geom c v :
  geom c -> (v < vertex_capacity c)%nat -> primary_window c v = (offset_of c v, (offset_of c v + degree_of c v)%nat).
Proof.
  intros G Hv. unfold primary_window. rewrite decide_False by lia. destruct (g_row _ G v). pose proof (g_cold _ G).
  rewrite Nat.min_l by lia. rewrite Nat.min_l by lia. rewrite Nat.min_l by lia. done.
Qed.

Lemma primary_view c v : geom c -> primary c v = vprim (view c v).
Proof.
  intros G. destruct (decide (vertex_capacity c <= v)%nat) as [Hv|Hv].
  - unfold primary, primary_window. rewrite decide_True by done. unfold vprim. simpl.
    destruct (block_nil c v G Hv) as [-> ->]. done.
  - unfold primary. rewrite primary_window_geom by (done || lia). rewrite !slice_cap.
    unfold vprim, view, block, slots. simpl. destruct (g_row _ G v).
    rewrite take_take, Nat.min_l by lia. by rewrite zip_with_drop, zip_with_take.
Qed.

Lemma row_view c v : geom c -> row c v = vrow (view c v).
Proof. intros G. unfold row, vrow. by rewrite primary_view. Qed.

Lemma row_width_view c v : (v < vertex_capacity c)%nat -> row_width c v = vwidth (view c v).
Proof. intros Hv. unfold row_width, vwidth. by rewrite decide_True. Qed.

Lemma upd_rebuild v c :
  geom c -> (v < vertex_capacity c)%nat -> upd v (vrebuild (view c v)) 0 c (rebuild_live_set_for_vertex v c).
Proof.
  intros G Hv. unfold rebuild_live_set_for_vertex. rewrite decide_False by lia. rewrite primary_view by done.
  unfold vrebuild.
  change (positioned PosPrimary 0 (vprim (view c v)) ++ positioned_chunks 0 (chunks_of c v)) with (vpositions (view c v)).
  generalize (vpositions (view c v)). intros ps.
  set (lc := <[v := _]> (live_counts c)). set (tc := <[v := _]> (tombstone_counts c)).
  assert (U : upd v (view c v) 0 c (set_counts lc tc c)) by (apply upd_counts; unfold lc, tc; rewrite ?length_insert; done).
  change 0 with (0 + 0). eapply upd_trans; [exact U|]. change (view c v) with (view (set_counts lc tc c) v).
  pose proof (ls_remove_spec v _ (g_set _ G)) as [Rw Rg].
  pose proof (fun x => ls_insert_spec v x _ (g_set _ G)) as I.
  case_decide; (apply upd_live; [apply U|done| |]); first [exact Rw|exact Rg|apply I].
Qed.

Lemma upd_track_insert v k p c :
  geom c -> (v < vertex_capacity c)%nat -> upd v (vtrack_insert k p (view c v)) 0 c (track_live_insert v k p c).
Proof.
  intros G Hv. unfold track_live_insert, vtrack_insert. cbn [view v_set].
  destruct (ls_get (live_sets c) v) as [s|] eqn:E.
  - destruct (ls_insert_key_spec v k p _ s (g_set _ G) E). by apply upd_live.
  - rewrite <- row_width_view by done. case_decide; [by apply upd_rebuild|by apply upd_refl].
Qed.

Lemma upd_track_remove v k c :
  geom c -> (v < vertex_capacity c)%nat -> upd v (vtrack_remove k (view c v)) 0 c (track_live_remove v k c).
Proof.
  intros G Hv. unfold track_live_remove, vtrack_remove. cbn [view v_set].
  destruct (ls_get (live_sets c) v) as [s|] eqn:E; [|by apply upd_refl].
  destruct (ls_remove_key_spec v k _ s (g_set _ G) E). by apply upd_live.
Qed.


(** ** Growth *)

Lemma slots_grow n c : geom c -> slots (grow_lists n c) = slots c ++ replicate n dead_gap.
Proof.
  intros G. unfold slots, grow_lists. cbn [set_lists hot_list cold_list].
  rewrite zip_with_app by by rewrite (g_cold _ G). f_equal. by rewrite zip_with_replicate.
Qed.

Lemma take_drop_app {A} n a (l k : list A) : (a + n <= length l)%nat -> take n (drop a (l ++ k)) = take n (drop a l).
Proof. intros Ha. rewrite drop_app_le by lia. rewrite take_app_le; [done|]. rewrite length_drop. lia. Qed.

Lemma capacity_out c v : geom c -> (vertex_capacity c <= v)%nat -> capacity_of c v = 0%nat.
Proof. intros G Hv. rewrite <- (block_length c v G). by rewrite (proj1 (block_nil c v G Hv)). Qed.

Lemma upd_resize v n c : geom c -> upd v (view c v) 0 c (csr_resize n c).
Proof.
  intros G. unfold csr_resize. case_decide as Hn; [by apply upd_refl|].
  set (c1 := set_live_sets _ _).
  assert (Hcap : forall w, capacity_of c1 w = capacity_of c w).
  { intros w. unfold capacity_of, at0, c1. simpl. apply lookup_resize_default. }
  assert (Hdeg : forall w, degree_of c1 w = degree_of c w).
  { intros w. unfold degree_of, at0, c1. simpl. apply lookup_resize_default. }
  assert (Hoff : forall w, (w < vertex_capacity c)%nat -> offset_of c1 w = offset_of c w).
  { intros w Hw. unfold offset_of, at0, c1. simpl. unfold vertex_capacity in *. rewrite lookup_resize by lia.
    rewrite decide_True by lia. destruct (lookup_lt_is_Some_2 (adj_offsets c) w Hw) as [x ->]. done. }
  assert (Hle : forall w, (offset_of c1 w <= length (hot_list c))%nat).
  { intros w. destruct (decide (w < vertex_capacity c)%nat) as [Hw|Hw].
    - rewrite Hoff by done. destruct (g_row _ G w). lia.
    - unfold offset_of, at0, c1. simpl. unfold vertex_capacity in *. rewrite lookup_resize by lia.
      case_decide; simpl; [|lia]. rewrite lookup_ge_None_2 by lia. done. }
  assert (Hvc : vertex_capacity c1 = n).
  { unfold vertex_capacity, c1. simpl. rewrite length_resize. unfold vertex_capacity in Hn. lia. }
  assert (Hov : forall w, ot_get (overflow_chunks c1) w = ot_get (overflow_chunks c) w).
  { intros w. unfold c1. simpl. apply ot_get_ensure, (g_over _ G). }
  assert (Hls : forall w, ls_get (live_sets c1) w = ls_get (live_sets c) w).
  { intros w. unfold c1, ls_get. simpl. apply seg_get_ensure. }
  split; [|lia| |unfold c1; simpl; lia|done].
  - pose proof G as G0. destruct G. split; try (rewrite Hvc; unfold c1; simpl; rewrite length_resize; lia).
    + exact g_cold0.
    + intros w. rewrite Hcap, Hdeg. destruct (g_row0 w). split; [done|]. specialize (Hle w).
      destruct (decide (w < vertex_capacity c)%nat); [by rewrite Hoff|]. rewrite capacity_out by (done || lia). simpl. lia.
    + intros x y Hxy. rewrite !Hcap. destruct (decide (x < vertex_capacity c)%nat); [|rewrite (capacity_out c x) by (done || lia); lia].
      destruct (decide (y < vertex_capacity c)%nat); [|rewrite (capacity_out c y) by (done || lia); lia].
      rewrite !Hoff by done. by apply g_disjoint0.
    + apply ot_ensure_wf, g_over0.
    + intros w Hw. rewrite Hov. apply g_over_dom0. lia.
    + apply seg_ensure_wf, g_set0.
    + intros w Hw. rewrite Hls. apply g_set_dom0. lia.
  - intros w. assert (E : view c1 w = view c w); [|rewrite E; case_decide as Ew; [by rewrite Ew|done]].
    unfold view. rewrite Hdeg, Hov, Hls. f_equal.
    + unfold block. rewrite Hcap. destruct (decide (w < vertex_capacity c)%nat); [by rewrite Hoff|].
      rewrite capacity_out by (done || lia). by rewrite !take_0.
    + unfold c1. simpl. apply lookup_resize_default.
Qed.

Lemma upd_ensure v n c : geom c -> upd v (view c v) 0 c (ensure_vertex_capacity n c).
Proof. intros G. unfold ensure_vertex_capacity. case_decide; [by apply upd_resize|by apply upd_refl]. Qed.

Lemma ensure_enough n c : (n <= vertex_capacity (ensure_vertex_capacity n c))%nat.
Proof.
  unfold ensure_vertex_capacity. case_decide; [|lia]. unfold csr_resize, grown_vertex_capacity. case_decide; [lia|].
  unfold vertex_capacity. simpl. rewrite length_resize. lia.
Qed.

(** A block for a row at the tail of the lists; an old block stays behind unused. *)
Lemma upd_tail_block v n b c :
  geom c -> (v < vertex_capacity c)%nat -> length b = n -> (degree_of c v <= n)%nat ->
  upd v (with_block b (view c v)) 0 c
    (set_rows (<[v := length (hot_list c)]> (adj_offsets c)) (degrees c) (<[v := n]> (primary_capacities c))
      (set_lists (hot_list c ++ map hot b) (cold_list c ++ map cold b) c)).
Proof.
  intros G Hv Hb Hd. set (c1 := set_rows _ _ _ _).
  assert (Hcap : forall w, capacity_of c1 w = if decide (w = v) then n else capacity_of c w).
  { intros w. unfold capacity_of, c1. simpl. rewrite at0_insert, (g_capacities _ G).
    destruct (decide (w = v)); [by rewrite decide_True by done|by rewrite decide_False by tauto]. }
  assert (Hoff : forall w, offset_of c1 w = if decide (w = v) then length (hot_list c) else offset_of c w).
  { intros w. unfold offset_of, c1. simpl. rewrite at0_insert.
    destruct (decide (w = v)); [by rewrite decide_True by done|by rewrite decide_False by tauto]. }
  assert (Hlen : length (hot_list c1) = (length (hot_list c) + n)%nat).
  { unfold c1. simpl. by rewrite length_app, length_map, Hb. }
  assert (Hs : slots c1 = slots c ++ b).
  { unfold slots, c1. cbn [set_rows set_lists hot_list cold_list]. rewrite zip_with_app by by rewrite (g_cold _ G).
    by rewrite zip_map_parts. }
  split; [|unfold c1, vertex_capacity; simpl; rewrite length_insert; lia| |unfold c1; simpl; lia|done].
  - pose proof G as G0. destruct G.
    split; unfold c1, vertex_capacity; simpl; rewrite ?length_insert; try assumption.
    + rewrite !length_app, !length_map. lia.
    + fold c1. intros w. rewrite Hcap, Hoff, length_app, length_map. destruct (g_row0 w).
      change (degree_of c1) with (degree_of c). case_decide; [subst|]; lia.
    + fold c1. intros x y Hxy. rewrite !Hcap, !Hoff. destruct (g_row0 x), (g_row0 y). specialize (g_disjoint0 x y Hxy).
      repeat case_decide; subst; try lia; congruence.
  - intros w. unfold view. fold c1. case_decide as E.
    + subst w. unfold with_block. simpl. f_equal. unfold block. rewrite Hcap, Hoff, Hs, !decide_True by done.
      rewrite <- (slots_length c G), drop_app_length. rewrite take_ge; [done|lia].
    + f_equal. unfold block. rewrite Hcap, Hoff, Hs, !decide_False by done. destruct (g_row _ G w).
      apply take_drop_app. by rewrite slots_length.
Qed.

Lemma upd_allocate v c :
  geom c -> (v < vertex_capacity c)%nat -> capacity_of c v = 0%nat ->
  upd v (with_block (replicate DEFAULT_VERTEX_DEGREE dead_gap) (view c v)) 0 c (allocate_primary_block v c).
Proof.
  intros G Hv H0. unfold allocate_primary_block, add_capacity.
  assert (U : upd v (with_block (replicate DEFAULT_VERTEX_DEGREE dead_gap) (view c v)) 0 c
    (set_rows (<[v := length (hot_list c)]> (adj_offsets c)) (degrees c)
       (<[v := DEFAULT_VERTEX_DEGREE]> (primary_capacities c)) (grow_lists DEFAULT_VERTEX_DEGREE c))).
  { apply (upd_tail_block v DEFAULT_VERTEX_DEGREE (replicate DEFAULT_VERTEX_DEGREE dead_gap)); try done.
    destruct (g_row _ G v). lia. }
  apply (upd_chain _ _ _ _ _ id 0 (set_total_capacity _) U). apply upd_capacity, U.
Qed.

Definition vprepare (W : View) : View :=
  match v_block W with [] => with_block (replicate DEFAULT_VERTEX_DEGREE dead_gap) W | _ => W end.

Lemma upd_prepare v c :
  geom c -> upd v (vprepare (view c v)) 0 c (prepare_row v c) /\ (v < vertex_capacity (prepare_row v c))%nat.
Proof.
  intros G. unfold prepare_row. set (c1 := if decide (vertex_capacity c <= v)%nat then _ else c).
  assert (U : upd v (view c v) 0 c c1) by (unfold c1; case_decide; [by apply upd_ensure|by apply upd_refl]).
  assert (Hv : (v < vertex_capacity c1)%nat).
  { unfold c1. case_decide; [|lia]. pose proof (ensure_enough (S v) c). lia. }
  pose proof (u_geom _ _ _ _ _ U) as G1. pose proof (upd_at _ _ _ _ _ U) as E.
  pose proof (block_length c1 v G1) as Hb. unfold vprepare. case_decide as H0.
  - rewrite H0 in Hb. apply length_zero_iff_nil in Hb. rewrite <- E. cbn [view v_block]. rewrite Hb.
    split; [|unfold allocate_primary_block, vertex_capacity; simpl; by rewrite length_insert].
    change 0 with (0 + 0). eapply upd_trans; [exact U|by apply upd_allocate].
  - split; [|done]. rewrite <- E. cbn [view v_block]. destruct (block c1 v) eqn:Eb; [simpl in Hb; congruence|].
    by rewrite E.
Qed.


End upd.
End CsrUpd.
