(* ===== verification/CsrInv.v ===== *)
(** * The invariant of the edge store, and insertion

    The invariant of a row, the places an edge goes to, the invariant of the store and
    what an insertion does to it. *)

From stdpp Require Import base gmap list sorting strings.
From Stdlib Require Import ZArith Lia.
From S2P Require Import Prelude Types Watermarks IndexManifest CsrShared MutableCsr CsrView.

(** * The invariant of a row

    Live keys are distinct, the index of live keys (where the row has one) holds
    exactly them, and the cached order of the primary block is true. *)

Module CsrRowInv.
Import CsrShared CsrSharedFacts Csr CsrIndex CsrView.

Definition live_keys (l : list Nbr) : list (Z * Z) := map nbr_key (List.filter nbr_live l).

Definition ch_ok (ch : OverflowChunk) : Prop := length (ch_cold ch) = length (ch_hot ch).

Definition key_sorted (l : list Nbr) : Prop := StronglySorted (fun a b => key_le (nbr_key a) (nbr_key b) = true) l.

Record vcore (W : View) : Prop := {
  vc_deg : (v_deg W <= length (v_block W))%nat;
  vc_chunks : Forall ch_ok (vchunks W);
  vc_nodup : NoDup (live_keys (vrow W));
  vc_sorted : v_sorted W = true -> key_sorted (vprim W);
}.

(** A primary position that may be stale, but never shows an entry outside the row. *)
Definition prim_ok (W : View) (i : nat) : Prop :=
  (i < length (v_block W))%nat /\
  ((v_deg W <= i)%nat -> forall n, v_block W !! i = Some n -> nbr_live n = false).

Record index_ok (W : View) (s : LiveKeySet) : Prop := {
  ix_wf : lks_wf s;
  ix_keys k : is_Some (lks_hash s !! k) <-> k ∈ live_keys (vrow W);
  ix_prim k i : lks_hash s !! k = Some (PosPrimary i) -> prim_ok W i;
}.

Record vinv (W : View) : Prop := {
  vi_core : vcore W;
  vi_index s : v_set W = Some s -> index_ok W s;
}.

Definition nlive (W : View) : nat := count_live (vrow W).

(** ** Live keys of a list *)

Lemma live_keys_app l1 l2 : live_keys (l1 ++ l2) = live_keys l1 ++ live_keys l2.
Proof. unfold live_keys. by rewrite List.filter_app, map_app. Qed.

Lemma live_keys_cons n l : live_keys (n :: l) = if nbr_live n then nbr_key n :: live_keys l else live_keys l.
Proof. unfold live_keys. simpl. by destruct (nbr_live n). Qed.

Lemma filter_perm {A} (f : A -> bool) l1 l2 : l1 ≡ₚ l2 -> List.filter f l1 ≡ₚ List.filter f l2.
Proof.
  induction 1; simpl; repeat case_match; try done; [by constructor|by constructor|by etrans].
Qed.

#[export] Instance live_keys_perm : Proper ((≡ₚ) ==> (≡ₚ)) live_keys.
Proof. intros l1 l2 H. unfold live_keys. by apply Permutation_map, filter_perm. Qed.

#[export] Instance count_live_perm : Proper ((≡ₚ) ==> (=)) count_live.
Proof. intros l1 l2 H. unfold count_live. by apply Permutation_length, filter_perm. Qed.

Lemma count_live_keys l : count_live l = length (live_keys l).
Proof. unfold count_live, live_keys. by rewrite length_map. Qed.

Lemma elem_of_live_keys k l : k ∈ live_keys l <-> exists n, n ∈ l /\ nbr_live n = true /\ nbr_key n = k.
Proof.
  unfold live_keys. rewrite list_elem_of_In, in_map_iff. setoid_rewrite List.filter_In.
  setoid_rewrite <- list_elem_of_In. naive_solver.
Qed.

Lemma live_keys_dead l : (forall n, n ∈ l -> nbr_live n = false) -> live_keys l = [].
Proof.
  intros Hl. induction l as [|n l IH]; [done|]. rewrite live_keys_cons, (Hl n) by set_solver. apply IH. set_solver.
Qed.

(** At most one live entry of a row has a given key. *)
Lemma live_unique l n m :
  NoDup (live_keys l) -> n ∈ l -> m ∈ l -> nbr_live n = true -> nbr_live m = true -> nbr_key n = nbr_key m -> n = m.
Proof.
  intros Hd Hn Hm Ln Lm Hk. apply list_elem_of_lookup in Hn as [i Hi]. apply list_elem_of_lookup in Hm as [j Hj].
  destruct (decide (i = j)) as [->|Hne]; [congruence|]. exfalso. revert i j n m Hi Hj Ln Lm Hk Hne Hd.
  induction l as [|x l IH]; intros [|i] [|j] n m Hi Hj Ln Lm Hk Hne Hd; simpl in *; simplify_eq; try done.
  - rewrite live_keys_cons, Ln in Hd. apply NoDup_cons in Hd as [Hd _]. apply Hd. apply elem_of_live_keys.
    exists m. split; [by eapply list_elem_of_lookup_2|split; [done|unfold nbr_key; congruence]].
  - rewrite live_keys_cons, Lm in Hd. apply NoDup_cons in Hd as [Hd _]. apply Hd. apply elem_of_live_keys.
    exists n. split; [by eapply list_elem_of_lookup_2|split; [done|unfold nbr_key; congruence]].
  - eapply (IH i j); try done; [unfold nbr_key; congruence|lia|]. rewrite live_keys_cons in Hd. destruct (nbr_live x); [by apply NoDup_cons in Hd as [_ ?]|done].
Qed.

(** ** Positions *)

Lemma positioned_keys pos i l : (positioned pos i l).*1 = live_keys l.
Proof.
  revert i. induction l as [|n l IH]; intros i; [done|]. rewrite live_keys_cons. cbn [positioned].
  destruct (nbr_live n); [rewrite fmap_cons|]; by rewrite IH.
Qed.

Lemma positioned_chunks_keys j cs : (positioned_chunks j cs).*1 = live_keys (concat (map ch_slots cs)).
Proof.
  revert j. induction cs as [|ch cs IH]; intros j; [done|]. simpl. by rewrite fmap_app, positioned_keys, IH, live_keys_app.
Qed.

Lemma vpositions_keys W : (vpositions W).*1 = live_keys (vrow W).
Proof. unfold vpositions, vrow. by rewrite fmap_app, positioned_keys, positioned_chunks_keys, live_keys_app. Qed.

Lemma positioned_prim i0 l k i : (k, PosPrimary i) ∈ positioned PosPrimary i0 l -> (i0 <= i < i0 + length l)%nat.
Proof.
  revert i0. induction l as [|n l IH]; intros i0 Hi; [by apply elem_of_nil in Hi|]. cbn [positioned length] in *.
  destruct (nbr_live n); [apply elem_of_cons in Hi as [Hi|Hi]; [simplify_eq; lia|]|]; apply IH in Hi; lia.
Qed.

Lemma positioned_over j i0 l k i : (k, PosPrimary i) ∉ positioned (PosOverflow j) i0 l.
Proof.
  revert i0. induction l as [|n l IH]; intros i0; [apply not_elem_of_nil|]. cbn [positioned].
  destruct (nbr_live n); [|apply IH]. apply not_elem_of_cons. split; [done|apply IH].
Qed.

Lemma positioned_chunks_over j cs k i : (k, PosPrimary i) ∉ positioned_chunks j cs.
Proof.
  revert j. induction cs as [|ch cs IH]; intros j; [apply not_elem_of_nil|]. simpl.
  apply not_elem_of_app. split; [apply positioned_over|apply IH].
Qed.

(** ** The index after a change *)

Lemma vinv_rebuild W : vcore W -> vinv (vrebuild W).
Proof.
  intros C. split; [by destruct C; split|]. intros s. unfold vrebuild. cbn [with_set v_set]. case_decide; [done|].
  intros [= <-]. assert (Hn : NoDup (vpositions W).*1) by (rewrite vpositions_keys; apply C).
  split; [by apply from_positions_wf| |].
  - intros k. change (vrow (with_set _ W)) with (vrow W). rewrite <- vpositions_keys. split.
    + intros [p Hp]. apply from_positions_map in Hp; [|done]. apply list_elem_of_fmap. by exists (k, p).
    + intros Hk. apply list_elem_of_fmap in Hk as ([k' p] & -> & Hp). exists p. by apply from_positions_map.
  - intros k i Hi. apply from_positions_map in Hi; [|done]. unfold vpositions in Hi.
    apply elem_of_app in Hi as [Hi|Hi]; [|by apply positioned_chunks_over in Hi].
    apply positioned_prim in Hi. unfold vprim in Hi. rewrite length_take in Hi. split; simpl; lia.
Qed.

Definition prim_pos_ok (W : View) (p : EdgePosition) : Prop :=
  match p with PosPrimary i => prim_ok W i | PosOverflow _ _ => True end.

Lemma vinv_track_insert W k p :
  vcore W ->
  (forall s, v_set W = Some s -> lks_wf s /\
     (forall k', k' ∈ live_keys (vrow W) <-> k' = k \/ is_Some (lks_hash s !! k')) /\
     (forall k' i, lks_hash s !! k' = Some (PosPrimary i) -> prim_ok W i)) ->
  prim_pos_ok W p -> vinv (vtrack_insert k p W).
Proof.
  intros C Hs Hp. unfold vtrack_insert. destruct (v_set W) as [s|] eqn:E.
  - destruct (Hs s eq_refl) as (Hw & Hk & Hi). split; [by destruct C; split|]. intros s' [= <-].
    split; [done| |].
    + intros k'. change (vrow (with_set _ W)) with (vrow W). rewrite Hk. simpl.
      destruct (decide (k' = k)) as [->|Hne]; [rewrite lookup_insert_eq; naive_solver|].
      rewrite lookup_insert_ne by done. naive_solver.
    + intros k' i Hl. simpl in Hl. change (prim_ok W i). destruct (decide (k' = k)) as [->|Hne].
      * rewrite lookup_insert_eq in Hl. by simplify_eq.
      * rewrite lookup_insert_ne in Hl by done. eauto.
  - case_decide; [by apply vinv_rebuild|]. split; [done|]. congruence.
Qed.

Lemma vinv_track_remove W k :
  vcore W ->
  (forall s, v_set W = Some s -> lks_wf s /\
     (forall k', k' ∈ live_keys (vrow W) <-> k' <> k /\ is_Some (lks_hash s !! k')) /\
     (forall k' i, lks_hash s !! k' = Some (PosPrimary i) -> prim_ok W i)) ->
  vinv (vtrack_remove k W).
Proof.
  intros C Hs. unfold vtrack_remove. destruct (v_set W) as [s|] eqn:E; [|split; [done|congruence]].
  destruct (Hs s eq_refl) as (Hw & Hk & Hi). split; [by destruct C; split|]. cbn [with_set v_set].
  intros s' E'. destruct (lks_is_empty _); simplify_eq. split; [done| |].
  - intros k'. change (vrow (with_set _ W)) with (vrow W). rewrite Hk. simpl.
    destruct (decide (k' = k)) as [->|Hne]; [rewrite lookup_delete_eq; split; [by intros [? ?]|naive_solver]|].
    rewrite lookup_delete_ne by done. naive_solver.
  - intros k' i Hl. simpl in Hl. apply lookup_delete_Some in Hl as [_ Hl]. eapply Hi, Hl.
Qed.

(** ** Chunks *)

Section chunks.
Context `{Allocator}.

Lemma ch_slots_length ch : ch_ok ch -> length (ch_slots ch) = ch_len ch.
Proof. intros Ho. unfold ch_slots, ch_len. rewrite length_zip_with, Ho. lia. Qed.

Lemma ch_slot_at_slots ch i : ch_slot_at ch i = ch_slots ch !! i.
Proof.
  unfold ch_slot_at, ch_slots. rewrite lookup_zip_with. by destruct (ch_hot ch !! i), (ch_cold ch !! i).
Qed.

Lemma ch_push_ok ch n : ch_ok ch -> ch_ok (ch_push ch n).
Proof. unfold ch_ok. simpl. rewrite !length_app. simpl. lia. Qed.

Lemma ch_push_slots ch n : ch_ok ch -> ch_slots (ch_push ch n) = ch_slots ch ++ [n].
Proof. intros Ho. unfold ch_slots. simpl. rewrite zip_with_app by done. simpl. by rewrite parts_id. Qed.

Lemma consolidate_ok l : ch_ok (consolidate_row l) /\ ch_slots (consolidate_row l) = l.
Proof.
  unfold consolidate_row, ch_ok, ch_slots. case_decide; simpl; rewrite !length_map; split; try done; apply zip_map_parts.
Qed.

Lemma concat_alter_last (f : OverflowChunk -> OverflowChunk) cs ch n :
  ch_slots (f ch) = ch_slots ch ++ [n] ->
  concat (map ch_slots (alter f (pred (length (cs ++ [ch]))) (cs ++ [ch]))) =
  concat (map ch_slots (cs ++ [ch])) ++ [n].
Proof.
  intros Hf. rewrite length_app. simpl. replace (pred (length cs + 1)) with (length cs + 0)%nat by lia.
  rewrite alter_app_r. simpl. rewrite !map_app, !concat_app. simpl. by rewrite !app_nil_r, Hf, app_assoc.
Qed.

Lemma push_chunks_slots n e cs :
  Forall ch_ok cs ->
  Forall ch_ok (push_chunks n e cs).1 /\
  concat (map ch_slots (push_chunks n e cs).1) = concat (map ch_slots cs) ++ [n] /\
  (push_chunks n e cs).1 <> [].
Proof.
  intros Hc. unfold push_chunks.
  assert (Hgo : forall l, l <> [] -> Forall ch_ok l ->
    let r := alter (fun c => spec_push c n) (pred (length l)) l in
    Forall ch_ok r /\ concat (map ch_slots r) = concat (map ch_slots l) ++ [n] /\ r <> []).
  { intros l Hl Ho. destruct (exists_last Hl) as (l' & ch & ->). cbn zeta. split_and!.
    - apply Forall_alter; [done|]. intros x Hx Hox. by apply ch_push_ok.
    - apply (concat_alter_last (fun c => spec_push c n)). apply ch_push_slots.
      apply Forall_app in Ho as [_ Ho]. by apply Forall_cons in Ho as [Ho _].
    - intros E. apply (f_equal length) in E. rewrite length_alter, length_app in E. simpl in E. lia. }
  destruct (needs_chunk cs) eqn:En.
  - cbn [fst snd]. destruct (Hgo (cs ++ [spec_with_capacity e])) as (H1 & H2 & H3).
    + by destruct cs.
    + apply Forall_app. split; [done|]. by repeat constructor.
    + split_and!; [done| |done]. rewrite H2. rewrite map_app, concat_app. simpl. by rewrite app_nil_r.
  - cbn [fst snd]. apply Hgo; [|done]. intros ->. done.
Qed.

End chunks.
End CsrRowInv.

(** * Insertion into a row

    The three places an edge goes to (a gap of the primary block, a reclaimable
    slot, the overflow chunks) as functions on views, each of which keeps the
    invariant of the row and adds the edge. *)

Module CsrPush.
Import CsrShared CsrSharedFacts Csr CsrIndex CsrView CsrUpd CsrRowInv.

(** One entry of a list exchanged for another, up to order. *)
Definition swap1 (x y : Nbr) (l l' : list Nbr) : Prop := exists rest, l ≡ₚ x :: rest /\ l' ≡ₚ y :: rest.

Lemma swap1_insert i x y l : l !! i = Some x -> swap1 x y l (<[i := y]> l).
Proof.
  intros Hi. exists (take i l ++ drop (S i) l). split.
  - rewrite <- (take_drop_middle l i x Hi) at 1. symmetry. apply Permutation_middle.
  - rewrite insert_take_drop by by eapply lookup_lt_Some. symmetry. apply Permutation_middle.
Qed.

Lemma swap1_app_l x y l l' k : swap1 x y l l' -> swap1 x y (l ++ k) (l' ++ k).
Proof. intros (r & H1 & H2). exists (r ++ k). by rewrite H1, H2. Qed.

Lemma swap1_app_r x y l l' k : swap1 x y l l' -> swap1 x y (k ++ l) (k ++ l').
Proof.
  intros (r & H1 & H2). exists (k ++ r). rewrite H1, H2. split; symmetry; apply Permutation_middle.
Qed.

Lemma swap1_born x y l l' :
  swap1 x y l l' -> nbr_live x = false -> nbr_live y = true -> live_keys l' ≡ₚ nbr_key y :: live_keys l.
Proof. intros (r & H1 & H2) Hx Hy. rewrite H1, H2, !live_keys_cons. by rewrite Hx, Hy. Qed.

Lemma swap1_dies x y l l' :
  swap1 x y l l' -> nbr_live x = true -> nbr_live y = false -> live_keys l ≡ₚ nbr_key x :: live_keys l'.
Proof. intros (r & H1 & H2) Hx Hy. rewrite H1, H2, !live_keys_cons. by rewrite Hx, Hy. Qed.

Lemma live_keys_filter (f : Nbr -> bool) l :
  (forall n, nbr_live n = true -> f n = true) -> live_keys (List.filter f l) = live_keys l.
Proof.
  intros Hf. induction l as [|n l IH]; [done|]. simpl. destruct (f n) eqn:E.
  - by rewrite !live_keys_cons, IH.
  - rewrite live_keys_cons, IH. destruct (nbr_live n) eqn:L; [rewrite Hf in E; done|done].
Qed.

Lemma reclaimable_dead cutoff n : nbr_reclaimable cutoff n = true -> nbr_live n = false.
Proof.
  unfold nbr_reclaimable, is_reclaimable_cold, nbr_live. rewrite andb_true_iff, bool_decide_eq_true. intros [Hd _].
  by apply bool_decide_eq_false.
Qed.

Lemma key_sorted_map l : key_sorted l <-> StronglySorted (fun a b => key_le a b = true) (map nbr_key l).
Proof.
  unfold key_sorted. induction l as [|n l IH]; simpl; [by split; constructor|]. rewrite !StronglySorted_cons, IH.
  by rewrite Forall_fmap.
Qed.

Section push.
Context `{Allocator}.
Implicit Types (c : MutableCsr) (v : nat) (W : View) (n : Nbr).

(** ** A fresh entry *)

(** What an insertion makes of a row: the entry is added, at most one reclaimable
    tombstone goes. *)
Definition vfill n W : View :=
  vtrack_insert (nbr_key n) (PosPrimary (v_deg W))
    (with_deg (S (v_deg W)) (with_sorted false (with_block (<[v_deg W := n]> (v_block W)) W))).

Definition vreuse i n W : View :=
  vtrack_insert (nbr_key n) (PosPrimary i) (with_sorted false (with_block (<[i := n]> (v_block W)) W)).

Definition vpush n e W : View := with_over (Some (push_chunks n e (vchunks W)).1) W.

Definition drops_at (cutoff : Z) n : bool := bool_decide (cutoff <> TS_MAX) && nbr_reclaimable cutoff n.

Definition vrepack (cutoff : Z) W : View :=
  match v_over W with
  | None => W
  | Some cs =>
      vrebuild (with_over (match List.filter (fun n => negb (drops_at cutoff n)) (concat (map ch_slots cs)) with
                           | [] => None
                           | kept => Some [consolidate_row kept]
                           end) W)
  end.

Definition vappend n e W : View :=
  let W1 := vpush n e W in
  let cs := vchunks W1 in
  let p := PosOverflow (length cs - 1) (from_option (fun ch => ch_len ch - 1)%nat 0%nat (last cs)) in
  let W2 := if nbr_live n then vtrack_insert (nbr_key n) p W1 else W1 in
  if decide (OVERFLOW_REPACK_CHUNKS_PER_VERTEX < length cs)%nat then vrepack TS_MAX W2 else W2.

Lemma vrow_set W s : vrow (with_set s W) = vrow W.
Proof. done. Qed.

Lemma vrow_rebuild W : vrow (vrebuild W) = vrow W.
Proof. done. Qed.

Lemma vrow_track_insert k p W : vrow (vtrack_insert k p W) = vrow W.
Proof. unfold vtrack_insert. destruct (v_set W); [done|]. by case_decide. Qed.

Lemma vrow_track_remove k W : vrow (vtrack_remove k W) = vrow W.
Proof. unfold vtrack_remove. by destruct (v_set W). Qed.

(** *** A gap *)

Lemma take_S_insert {A} d (x : A) l : (d < length l)%nat -> take (S d) (<[d := x]> l) = take d l ++ [x].
Proof.
  intros Hd. rewrite (take_S_r _ d x) by (by apply list_lookup_insert_eq). by rewrite take_insert_ge by lia.
Qed.

Lemma vfill_row n W : (v_deg W < length (v_block W))%nat -> vrow (vfill n W) ≡ₚ n :: vrow W.
Proof.
  intros Hd. unfold vfill. rewrite vrow_track_insert. unfold vrow, vprim. simpl.
  rewrite take_S_insert by done. rewrite <- app_assoc. simpl. symmetry. apply Permutation_middle.
Qed.

Lemma NoDup_live_cons k l : NoDup (live_keys l) -> k ∉ live_keys l -> NoDup (k :: live_keys l).
Proof. intros Hd Hk. by apply NoDup_cons. Qed.

Lemma vfill_inv n W :
  vinv W -> (v_deg W < length (v_block W))%nat -> nbr_live n = true -> nbr_key n ∉ live_keys (vrow W) ->
  vinv (vfill n W).
Proof.
  intros [C I] Hd Hl Hk. pose proof (vfill_row n W Hd) as Hr. unfold vfill in *. rewrite vrow_track_insert in Hr.
  set (W1 := with_deg _ _) in *.
  assert (Hp : forall i, prim_ok W i -> prim_ok W1 i).
  { intros i [Hi Hdead]. unfold prim_ok, W1. simpl. rewrite length_insert. split; [done|]. intros Hge m Hm.
    rewrite list_lookup_insert_ne in Hm by lia. apply Hdead; [lia|done]. }
  apply vinv_track_insert.
  - destruct C. split; simpl.
    + rewrite length_insert. lia.
    + done.
    + rewrite Hr, live_keys_cons, Hl. by apply NoDup_live_cons.
    + done.
  - intros s Hs. destruct (I s Hs) as [Iw Ik Ip]. split_and!; [done| |by eauto].
    intros k'. rewrite Hr, live_keys_cons, Hl, elem_of_cons, Ik. done.
  - unfold prim_pos_ok, prim_ok, W1. simpl. rewrite length_insert. split; [done|lia].
Qed.

(** *** A reclaimable slot *)

Lemma vprim_insert i n W : (i < v_deg W)%nat -> vprim (with_block (<[i := n]> (v_block W)) W) = <[i := n]> (vprim W).
Proof. intros Hi. unfold vprim. simpl. by rewrite take_insert_lt. Qed.

Lemma vprim_lookup W i n : vprim W !! i = Some n -> v_block W !! i = Some n /\ (i < v_deg W)%nat.
Proof. unfold vprim. intros Hi. by apply lookup_take_Some in Hi. Qed.

Lemma vreuse_row i n old W : vprim W !! i = Some old -> swap1 old n (vrow W) (vrow (vreuse i n W)).
Proof.
  intros Hi. unfold vreuse. rewrite vrow_track_insert. unfold vrow. apply swap1_app_l.
  change (vprim (with_sorted false ?V)) with (vprim V). rewrite vprim_insert by by eapply vprim_lookup.
  by apply swap1_insert.
Qed.

Lemma prim_ok_insert i n W W' j :
  (i < v_deg W)%nat -> v_block W' = <[i := n]> (v_block W) -> v_deg W' = v_deg W -> prim_ok W j -> prim_ok W' j.
Proof.
  intros Hi Eb Ed [Hj Hdead]. unfold prim_ok. rewrite Eb, Ed, length_insert. split; [done|]. intros Hge m Hm.
  rewrite list_lookup_insert_ne in Hm by lia. by apply Hdead.
Qed.

Lemma vreuse_inv i n old W :
  vinv W -> vprim W !! i = Some old -> nbr_live old = false -> nbr_live n = true ->
  nbr_key n ∉ live_keys (vrow W) -> vinv (vreuse i n W).
Proof.
  intros [C I] Hi Ho Hl Hk. pose proof (swap1_born _ _ _ _ (vreuse_row i n old W Hi) Ho Hl) as Hr.
  apply vprim_lookup in Hi as [Hb Hi]. pose proof (lookup_lt_Some _ _ _ Hb) as Hlt.
  unfold vreuse in *. rewrite vrow_track_insert in Hr. set (W1 := with_sorted _ _) in *.
  apply vinv_track_insert.
  - destruct C. split; simpl.
    + by rewrite length_insert.
    + done.
    + rewrite Hr. by apply NoDup_live_cons.
    + done.
  - intros s Hs. destruct (I s Hs) as [Iw Ik Ip]. split_and!; [done| |].
    + intros k'. rewrite Hr, elem_of_cons, Ik. done.
    + intros k' j Hj. by eapply (prim_ok_insert i n W); eauto.
  - unfold prim_pos_ok, prim_ok, W1. simpl. rewrite length_insert. split; [done|lia].
Qed.

(** *** Overflow *)

Lemma vpush_row n e W : Forall ch_ok (vchunks W) -> vrow (vpush n e W) = vrow W ++ [n].
Proof.
  intros Hc. unfold vrow. change (vprim (vpush n e W)) with (vprim W).
  change (vchunks (vpush n e W)) with (push_chunks n e (vchunks W)).1.
  destruct (push_chunks_slots n e (vchunks W) Hc) as (_ & -> & _). by rewrite app_assoc.
Qed.

Lemma vtrack_insert_over k p W : v_over (vtrack_insert k p W) = v_over W.
Proof. unfold vtrack_insert. destruct (v_set W); [done|]. by case_decide. Qed.

Lemma vtrack_insert_prim k p W : vprim (vtrack_insert k p W) = vprim W.
Proof. unfold vtrack_insert. destruct (v_set W); [done|]. by case_decide. Qed.

(** The overflow slots a repack keeps. *)
Definition over_slots W : list Nbr := concat (map ch_slots (vchunks W)).

Lemma vrepack_row cutoff W :
  vrow (vrepack cutoff W) = vprim W ++ List.filter (fun n => negb (drops_at cutoff n)) (over_slots W).
Proof.
  unfold vrepack, vrow, over_slots, vchunks. destruct (v_over W) as [cs|] eqn:E; [|by rewrite E].
  simpl. f_equal. destruct (List.filter _ _) as [|x l] eqn:Ef; [done|]. simpl.
  rewrite app_nil_r. apply consolidate_ok.
Qed.

Lemma drops_live cutoff n : nbr_live n = true -> negb (drops_at cutoff n) = true.
Proof.
  intros Hl. unfold drops_at. destruct (nbr_reclaimable cutoff n) eqn:E; [|by rewrite andb_false_r].
  by rewrite (reclaimable_dead _ _ E) in Hl.
Qed.

Lemma vrepack_live cutoff W : live_keys (vrow (vrepack cutoff W)) = live_keys (vrow W).
Proof.
  rewrite vrepack_row. unfold vrow. rewrite !live_keys_app. f_equal. apply live_keys_filter, drops_live.
Qed.

Lemma vrepack_inv cutoff W : vinv W -> vinv (vrepack cutoff W).
Proof.
  intros [C I]. pose proof (vrepack_live cutoff W) as Hl. unfold vrepack in *.
  destruct (v_over W) as [cs|] eqn:E; [|by split]. apply vinv_rebuild. destruct C. split; [done| | |done].
  - simpl. case_match; [by constructor|]. repeat constructor. apply consolidate_ok.
  - rewrite vrow_rebuild in Hl. by rewrite Hl.
Qed.

Lemma drops_max n : drops_at TS_MAX n = false.
Proof. unfold drops_at. by rewrite bool_decide_false by (by intros []). Qed.

Lemma vrepack_max W : vrow (vrepack TS_MAX W) = vrow W.
Proof.
  rewrite vrepack_row. unfold vrow. f_equal. unfold over_slots.
  induction (concat (map ch_slots (vchunks W))) as [|n l IH]; [done|]. cbn [List.filter].
  rewrite drops_max. cbn [negb]. by rewrite IH.
Qed.

Lemma vappend_row n e W : Forall ch_ok (vchunks W) -> vrow (vappend n e W) = vrow W ++ [n].
Proof.
  intros Hc. rewrite <- (vpush_row n e) by done. unfold vappend. cbn zeta.
  set (W2 := if nbr_live n then _ else _).
  assert (E : vrow W2 = vrow (vpush n e W)) by (unfold W2; destruct (nbr_live n); [apply vrow_track_insert|done]).
  case_decide; [by rewrite vrepack_max|done].
Qed.

Lemma vappend_inv n e W :
  vinv W -> nbr_live n = true -> nbr_key n ∉ live_keys (vrow W) -> vinv (vappend n e W).
Proof.
  intros [C I] Hl Hk. assert (Hr : vrow (vpush n e W) = vrow W ++ [n]) by apply vpush_row, C.
  unfold vappend. cbn zeta. rewrite Hl. set (p := PosOverflow _ _).
  assert (V : vinv (vtrack_insert (nbr_key n) p (vpush n e W))); [|case_decide; [by apply vrepack_inv|done]].
  assert (Hlk : live_keys (vrow W ++ [n]) ≡ₚ nbr_key n :: live_keys (vrow W)).
  { rewrite live_keys_app, live_keys_cons, Hl. symmetry. apply Permutation_cons_append. }
  apply vinv_track_insert; [| |done].
  - destruct C. split; [done| | |done].
    + by apply (push_chunks_slots n e (vchunks W)).
    + rewrite Hr, Hlk. by apply NoDup_live_cons.
  - intros s Hs. destruct (I s Hs) as [Iw Ik Ip]. split_and!; [done| |exact Ip].
    intros k'. rewrite Hr, Hlk, elem_of_cons, Ik. done.
Qed.

End push.
End CsrPush.

(** * Insertion of one edge

    [insert_edge] is refused exactly when its key is live, and otherwise adds the
    edge to its row by one of the three ways of [CsrPush]. *)

Module CsrInsert.
Import CsrShared CsrSharedFacts Csr CsrIndex CsrView CsrUpd CsrRowInv CsrPush.

Section insert.
Context `{Allocator}.
Implicit Types (c : MutableCsr) (v : nat) (W : View) (n : Nbr).

(** ** Chains of writes *)

(** A write the views do not show. *)
Lemma upd_quiet v W d c c1 c2 :
  upd v W d c c1 -> (geom c1 -> upd v (view c1 v) 0 c1 c2) -> upd v W d c c2.
Proof.
  intros U U'. specialize (U' (u_geom _ _ _ _ _ U)). rewrite (upd_at _ _ _ _ _ U) in U'.
  replace d with (d + 0) by lia. by eapply upd_trans.
Qed.

Lemma upd_step (F : View -> View) v W d d' c c1 c2 :
  upd v W d c c1 -> (geom c1 -> upd v (F (view c1 v)) d' c1 c2) -> upd v (F W) (d + d') c c2.
Proof.
  intros U U'. specialize (U' (u_geom _ _ _ _ _ U)). rewrite (upd_at _ _ _ _ _ U) in U'. by eapply upd_trans.
Qed.

Lemma upd_step0 (F : View -> View) v W d c c1 c2 :
  upd v W d c c1 -> (geom c1 -> upd v (F (view c1 v)) 0 c1 c2) -> upd v (F W) d c c2.
Proof. intros U U'. replace d with (d + 0) by lia. by eapply upd_step. Qed.

Lemma upd_lt v W d c c' : upd v W d c c' -> (v < vertex_capacity c)%nat -> (v < vertex_capacity c')%nat.
Proof. intros U Hv. pose proof (u_capacity _ _ _ _ _ U). lia. Qed.

Lemma upd_bump_live v w c : geom c -> upd v (view c v) 0 c (bump_live w c).
Proof. intros G. apply upd_counts; by rewrite ?length_alter. Qed.
Lemma upd_drop_live v w c : geom c -> upd v (view c v) 0 c (drop_live w c).
Proof. intros G. apply upd_counts; by rewrite ?length_alter. Qed.
Lemma upd_bump_tomb v w c : geom c -> upd v (view c v) 0 c (bump_tomb w c).
Proof. intros G. apply upd_counts; by rewrite ?length_alter. Qed.
Lemma upd_drop_tomb v w c : geom c -> upd v (view c v) 0 c (drop_tomb w c).
Proof. intros G. apply upd_counts; by rewrite ?length_alter. Qed.
Lemma upd_invalidate v w c : geom c -> upd v (view c v) 0 c (invalidate_reuse_hint w c).
Proof. intros G. apply (upd_hints v (<[w := REUSE_HINT_UNKNOWN]>)); by rewrite ?length_insert. Qed.
Lemma upd_note v w i c : geom c -> upd v (view c v) 0 c (note_primary_tombstone w i c).
Proof. intros G. apply (upd_hints v (alter _ w)); by rewrite ?length_alter. Qed.
Lemma upd_add_capacity v (k : nat) c : geom c -> upd v (view c v) 0 c (add_capacity k c).
Proof. apply upd_capacity. Qed.
Lemma upd_sub_capacity v (k : nat) c : geom c -> upd v (view c v) 0 c (sub_capacity k c).
Proof. apply upd_capacity. Qed.

(** ** Overflow *)

Lemma upd_push v n e c :
  geom c -> (v < vertex_capacity c)%nat ->
  upd v (vpush n e (view c v)) 0 c (set_overflow (push_to_row v n e (overflow_chunks c)).1 c).
Proof.
  intros G Hv. destruct (push_to_row_spec (overflow_chunks c) v n e (g_over _ G)) as (Hw & _ & Hg).
  by apply upd_over.
Qed.

Lemma upd_compact_overflow v cutoff c :
  geom c -> (v < vertex_capacity c)%nat ->
  upd v (vrepack cutoff (view c v)) 0 c (compact_overflow_for_vertex v cutoff c).1.
Proof.
  intros G Hv. unfold compact_overflow_for_vertex, vrepack. cbn [view v_over].
  pose proof (ot_remove_spec (overflow_chunks c) v (g_over _ G)) as (Hw & Eo & Hg).
  destruct (ot_remove v (overflow_chunks c)) as [t [cs|]]; cbn [fst snd] in *; rewrite <- Eo; [|by apply upd_refl].
  cbn zeta. change (fun n : Nbr => negb (bool_decide (cutoff <> TS_MAX) && nbr_reclaimable cutoff n))
    with (fun n : Nbr => negb (drops_at cutoff n)).
  set (c1 := sub_capacity _ _).
  assert (U1 : upd v (with_over None (view c v)) 0 c c1).
  { eapply upd_quiet; [by apply (upd_over v None t)|]. apply upd_sub_capacity. }
  destruct (List.filter _ _) as [|x l] eqn:Ek.
  - cbn [fst]. eapply (upd_step0 vrebuild); [exact U1|]. intros G1. apply upd_rebuild; [done|].
    by eapply upd_lt.
  - cbn [fst]. set (single := consolidate_row _).
    assert (U2 : upd v (with_over None (view c v)) 0 c (add_capacity (ch_cap single) c1)).
    { eapply upd_quiet; [exact U1|]. apply upd_add_capacity. }
    eapply (upd_step0 vrebuild).
    + apply (upd_step0 (with_over (Some [single])) v _ _ _ _ _ U2). intros G2.
      destruct (ot_insert_spec (overflow_chunks (add_capacity (ch_cap single) c1)) v [single] (g_over _ G2)).
      apply upd_over; [done|by eapply upd_lt|done|done].
    + intros G3. apply upd_rebuild; [done|]. unfold vertex_capacity. simpl. exact Hv.
Qed.

Lemma upd_append v n e c :
  geom c -> (v < vertex_capacity c)%nat ->
  upd v (vappend n (effective_chunk_edges c e) (view c v)) 0 c (append_overflow v n e c).
Proof.
  intros G Hv. unfold append_overflow, vappend. set (k := effective_chunk_edges c e).
  pose proof (upd_push v n k c G Hv) as U1.
  pose proof (push_to_row_spec (overflow_chunks c) v n k (g_over _ G)) as (_ & E2 & Hg).
  change (default [] (ot_get (overflow_chunks c) v)) with (vchunks (view c v)) in *.
  destruct (push_to_row v n k (overflow_chunks c)) as [t [count added]]. cbn [fst snd] in *.
  injection E2 as -> Ea. set (cs := (push_chunks n k (vchunks (view c v))).1) in *.
  change (vchunks (vpush n k (view c v))) with cs.
  set (c2 := match added with Some cap => add_capacity cap (set_overflow t c) | None => set_overflow t c end).
  assert (U2 : upd v (vpush n k (view c v)) 0 c c2).
  { unfold c2. destruct added; [|exact U1]. eapply upd_quiet; [exact U1|]. apply upd_add_capacity. }
  assert (Hget : ot_get (overflow_chunks c2) v = Some cs).
  { pose proof (upd_at _ _ _ _ _ U2) as E. by apply (f_equal v_over) in E. }
  rewrite Hget. set (p := PosOverflow _ _).
  set (c3 := if nbr_live n then track_live_insert v (nbr_key n) p c2 else c2).
  set (W3 := if nbr_live n then vtrack_insert (nbr_key n) p (vpush n k (view c v)) else vpush n k (view c v)).
  assert (U3 : upd v W3 0 c c3).
  { unfold W3, c3. destruct (nbr_live n); [|exact U2]. eapply (upd_step0 (vtrack_insert _ _)); [exact U2|].
    intros G2. apply upd_track_insert; [done|by eapply upd_lt]. }
  case_decide; [|exact U3]. eapply (upd_step0 (vrepack TS_MAX)); [exact U3|]. intros G3.
  apply upd_compact_overflow; [done|by eapply upd_lt].
Qed.

(** ** The three places *)

Lemma upd_fill_gap v k n c :
  geom c -> (v < vertex_capacity c)%nat -> (degree_of c v < capacity_of c v)%nat -> nbr_key n = k ->
  upd v (vfill n (view c v)) 1 c (fill_gap v k n c).
Proof.
  intros G Hv Hd <-. unfold fill_gap, vfill. change (v_deg (view c v)) with (degree_of c v).
  change 1 with (0 + 1). eapply (upd_step id); [|apply upd_edges].
  eapply (upd_step0 (vtrack_insert _ _)).
  - eapply upd_quiet; [|apply upd_bump_live]. eapply (upd_step0 (with_deg _)).
    + eapply (upd_step0 (with_sorted false)).
      * by apply (upd_set_slot v (degree_of c v) n c).
      * intros G1. by apply upd_mark.
    + intros G2. apply upd_set_degree; [done|exact Hv|exact Hd].
  - intros G3. apply upd_track_insert; [done|exact Hv].
Qed.

Lemma upd_reuse_slot v i k n c :
  geom c -> (v < vertex_capacity c)%nat -> (i < capacity_of c v)%nat -> nbr_key n = k ->
  upd v (vreuse i n (view c v)) 1 c (reuse_slot v i k n c).
Proof.
  intros G Hv Hi <-. unfold reuse_slot, vreuse. change 1 with (0 + 1). eapply (upd_step id); [|apply upd_edges].
  eapply (upd_step0 (vtrack_insert _ _)).
  - eapply upd_quiet; [|apply upd_drop_tomb]. eapply upd_quiet; [|apply upd_bump_live].
    eapply upd_quiet; [|apply upd_invalidate]. eapply (upd_step0 (with_sorted false)).
    + by apply (upd_set_slot v i n c).
    + intros G1. by apply upd_mark.
  - intros G3. apply upd_track_insert; [done|exact Hv].
Qed.

(** The hint or the scan gives a dead slot of the row that the cutoff has passed. *)
Lemma find_reusable_spec v c c' o :
  geom c -> (v < vertex_capacity c)%nat -> find_reusable v c = (c', o) ->
  upd v (view c v) 0 c c' /\
  forall i, o = Some i -> exists old, vprim (view c v) !! i = Some old /\
    nbr_reclaimable (tombstone_reuse_cutoff c) old = true /\ tombstone_reuse_cutoff c <> TS_MAX.
Proof.
  intros G Hv. unfold find_reusable. case_decide as Hcut; [intros [= <- <-]; split; [by apply upd_refl|done]|].
  assert (Hslot : forall i, (i < degree_of c v)%nat -> reclaimable_slot c v i = true ->
    exists old, vprim (view c v) !! i = Some old /\ nbr_reclaimable (tombstone_reuse_cutoff c) old = true /\ tombstone_reuse_cutoff c <> TS_MAX).
  { intros i Hi. unfold reclaimable_slot. destruct (cold_list c !! _) as [cd|] eqn:Ec; [|done]. intros Hr.
    destruct (lookup_lt_is_Some_2 (hot_list c) (offset_of c v + i)) as [h Hh].
    { rewrite <- (g_cold _ G). by eapply lookup_lt_Some. }
    exists (from_parts h cd). unfold vprim, nbr_reclaimable. rewrite cold_parts. split; [|done].
    simpl. unfold block. destruct (g_row _ G v). rewrite take_take, Nat.min_l by lia.
    rewrite lookup_take_lt, lookup_drop by done. unfold slots. apply lookup_zip_with_Some. by exists h, cd. }
  assert (Hscan : forall c1 i, (forall j, reclaimable_slot c1 v j = reclaimable_slot c v j) ->
    find (fun i => reclaimable_slot c1 v i) (seq 0 (Nat.min (degree_of c v) TOMBSTONE_REUSE_SCAN_BOUND)) = Some i ->
    (i < degree_of c v)%nat /\ reclaimable_slot c v i = true).
  { intros c1 i Heq Hf. apply find_some in Hf as [Hi Hr]. apply in_seq in Hi. rewrite Heq in Hr. split; [lia|done]. }
  destruct (reuse_hint c !! v) as [hint|]; [|intros [= <- <-]; split; [by apply upd_refl|]].
  2: intros i Hi; by destruct (Hscan c i (fun _ => eq_refl) Hi); apply Hslot.
  case_decide; [intros [= <- <-]; split; [by apply upd_refl|]|].
  1: intros i Hi; by destruct (Hscan c i (fun _ => eq_refl) Hi); apply Hslot.
  destruct (bool_decide _ && _) eqn:Eb.
  - intros [= <- <-]. split; [by apply upd_refl|]. intros i [= <-]. apply andb_true_iff in Eb as [E1 E2].
    apply bool_decide_eq_true in E1. by apply Hslot.
  - intros [= <- <-]. split; [by apply upd_invalidate|]. intros i Hi.
    by destruct (Hscan (invalidate_reuse_hint v c) i (fun _ => eq_refl) Hi); apply Hslot.
Qed.

End insert.
End CsrInsert.

(** * The invariant of the edge store

    Every row keeps its invariant, and the count of edges is the number of live
    entries of all rows. *)

Module CsrInv.
Import CsrShared CsrSharedFacts Csr CsrIndex CsrView CsrUpd CsrRowInv CsrPush CsrInsert.

(** The live entries of the rows below [n]. *)
Fixpoint total_below (f : nat -> nat) (n : nat) : nat :=
  match n with
  | O => 0%nat
  | S m => (total_below f m + f m)%nat
  end.

Lemma total_ext f g n : (forall v, (v < n)%nat -> f v = g v) -> total_below f n = total_below g n.
Proof. induction n as [|n IH]; intros E; simpl; [done|]. rewrite IH by (intros; apply E; lia). rewrite E by lia. done. Qed.

Lemma total_extend f n m : (n <= m)%nat -> (forall v, (n <= v)%nat -> f v = 0%nat) -> total_below f m = total_below f n.
Proof.
  intros Hn Hz. induction m as [|m IH]; [by replace n with 0%nat by lia|].
  destruct (decide (n = S m)) as [->|]; [done|]. simpl. rewrite IH, Hz by lia. lia.
Qed.

Lemma total_zero (f : nat -> nat) m : (forall v, f v = 0%nat) -> total_below f m = 0%nat.
Proof. intros Hf. induction m as [|m IH]; simpl; [done|]. by rewrite IH, Hf. Qed.

Lemma total_update f g v n :
  (v < n)%nat -> (forall w, w <> v -> g w = f w) ->
  Z.of_nat (total_below g n) = Z.of_nat (total_below f n) + (Z.of_nat (g v) - Z.of_nat (f v)).
Proof.
  intros Hv Hg. induction n as [|n IH]; [lia|]. simpl. destruct (decide (v = n)) as [->|Hne].
  - rewrite (total_ext g f n) by (intros w Hw; apply Hg; lia). lia.
  - rewrite (Hg n) by done. specialize (IH ltac:(lia)). lia.
Qed.

Definition csr_total (c : MutableCsr) : nat := total_below (fun v => nlive (view c v)) (vertex_capacity c).

Record csr_inv (c : MutableCsr) : Prop := {
  ci_geom : geom c;
  ci_rows v : vinv (view c v);
  ci_count : edge_count c = Z.of_nat (csr_total c);
}.

Section inv.
Context `{Allocator}.
Implicit Types (c : MutableCsr) (v : nat) (W : View) (n : Nbr).

Lemma nlive_out c v : geom c -> (vertex_capacity c <= v)%nat -> nlive (view c v) = 0%nat.
Proof.
  intros G Hv. unfold nlive, vrow, vprim, vchunks. simpl. destruct (block_nil c v G Hv) as [-> ->].
  by rewrite (g_over_dom _ G v Hv).
Qed.

(** A write to one row keeps the invariant when the row keeps its own and the count
    moves with its live entries. *)
Lemma csr_inv_upd v W d c c' :
  csr_inv c -> upd v W d c c' -> (v < vertex_capacity c')%nat -> vinv W ->
  d = Z.of_nat (nlive W) - Z.of_nat (nlive (view c v)) -> csr_inv c'.
Proof.
  intros [G R E] U Hv HW Hd. split; [apply U| |].
  - intros w. rewrite (u_view _ _ _ _ _ U). case_decide; [done|apply R].
  - rewrite (u_edges _ _ _ _ _ U), E, Hd. unfold csr_total.
    rewrite <- (total_extend (fun v => nlive (view c v)) (vertex_capacity c) (vertex_capacity c')).
    + rewrite (total_update (fun v => nlive (view c v)) (fun v => nlive (view c' v)) v); [|done|].
      * by rewrite (upd_at _ _ _ _ _ U).
      * intros w Hw. by rewrite (upd_ne _ _ _ _ _ _ U Hw).
    + apply U.
    + intros w Hw. by apply nlive_out.
Qed.

(** A write that no view shows. *)
Lemma csr_inv_quiet v c c' : csr_inv c -> upd v (view c v) 0 c c' -> csr_inv c'.
Proof.
  intros I U. pose proof I as [G R E]. destruct (decide (v < vertex_capacity c')%nat) as [Hv|Hv].
  - eapply csr_inv_upd; [done|exact U|done|apply R|lia].
  - assert (V : forall w, view c' w = view c w) by (intros w; rewrite (u_view _ _ _ _ _ U); case_decide; by subst).
    split; [apply U|intros w; rewrite V; apply R|]. rewrite (u_edges _ _ _ _ _ U), E. unfold csr_total.
    rewrite (total_ext (fun v => nlive (view c' v)) (fun v => nlive (view c v))) by (intros; by rewrite V).
    rewrite <- (total_extend (fun v => nlive (view c v)) (vertex_capacity c) (vertex_capacity c')); [lia|apply U|].
    intros w Hw. by apply nlive_out.
Qed.

(** ** A new store *)

Lemma at0_replicate (m i : nat) : at0 (replicate m 0%nat) i = 0%nat.
Proof. unfold at0. destruct (replicate m 0%nat !! i) eqn:E; [|done]. by apply lookup_replicate in E as [-> _]. Qed.

Lemma csr_new_inv vc ce : csr_inv (with_overflow_chunk_edges vc ce).
Proof.
  assert (Hview : forall v, exists b, view (with_overflow_chunk_edges vc ce) v = mkView [] 0 None None b).
  { intros v. eexists. unfold view. f_equal; [|by apply at0_replicate].
    unfold block, capacity_of. simpl. by rewrite at0_replicate, take_0. }
  split.
  - split; unfold vertex_capacity; simpl; rewrite ?length_replicate; try done.
    + intros v. unfold degree_of, capacity_of, offset_of. simpl. rewrite !at0_replicate. lia.
    + intros v w _. left. unfold capacity_of. simpl. apply at0_replicate.
    + apply ot_new_wf.
    + constructor.
  - intros v. destruct (Hview v) as [b ->]. split; [|done]. split; simpl; try done; constructor.
  - unfold csr_total. rewrite (total_ext _ (fun _ => 0%nat)).
    + simpl. induction (vertex_capacity _) as [|n IH]; simpl; [done|lia].
    + intros v _. by destruct (Hview v) as [b ->].
Qed.

(** ** Insertion *)

Lemma vprepare_inv W : vinv W -> vinv (vprepare W) /\ vrow (vprepare W) = vrow W.
Proof.
  intros I. unfold vprepare. destruct (v_block W) as [|x b] eqn:Eb; [|done]. pose proof I as [C J].
  assert (Hd : v_deg W = 0%nat) by (destruct C; rewrite Eb in *; simpl in *; lia).
  assert (Hp : vprim (with_block (replicate DEFAULT_VERTEX_DEGREE dead_gap) W) = vprim W).
  { unfold vprim. simpl. by rewrite Hd. }
  assert (Hr : vrow (with_block (replicate DEFAULT_VERTEX_DEGREE dead_gap) W) = vrow W) by (unfold vrow; by rewrite Hp).
  split; [|done]. destruct C. split.
  - split; [simpl; rewrite Hd; lia|done|by rewrite Hr|rewrite Hp; done].
  - intros s Hs. destruct (J s Hs) as [Jw Jk Jp]. split; [done|by rewrite Hr|].
    intros k i Hi. destruct (Jp k i Hi) as [Hlt _]. rewrite Eb in Hlt. simpl in Hlt. lia.
Qed.

Lemma existsb_live k l : existsb (fun n => nbr_live n && has_key k n) l = true <-> k ∈ live_keys l.
Proof.
  rewrite existsb_exists, elem_of_live_keys. setoid_rewrite andb_true_iff. unfold has_key.
  setoid_rewrite bool_decide_eq_true. by setoid_rewrite <- list_elem_of_In.
Qed.

(** The duplicate check is exact: with the index, or by the scan. *)
Lemma probe_insert_spec c v k :
  geom c -> (v < vertex_capacity c)%nat -> vinv (view c v) ->
  (probe_insert c v k = None) <-> k ∈ live_keys (vrow (view c v)).
Proof.
  intros G Hv [C I]. unfold probe_insert. destruct (ls_get (live_sets c) v) as [s|] eqn:Es.
  - destruct (I s Es) as [Iw Ik _]. rewrite lks_contains_map by done. rewrite <- Ik.
    case_bool_decide; naive_solver.
  - unfold row_live_scan. rewrite decide_False by lia. rewrite primary_view by done.
    change (overflow c v) with (concat (map ch_slots (vchunks (view c v)))).
    rewrite <- existsb_live. unfold vrow. rewrite existsb_app. by destruct (existsb _ _ || existsb _ _).
Qed.

(** What an insertion leaves of a row: the edge is there, and at most one tombstone
    that the cutoff has passed is not. *)
Definition inserted (cutoff : Z) (n : Nbr) (old new : list Nbr) : Prop :=
  new ≡ₚ n :: old \/
  exists dead, nbr_reclaimable cutoff dead = true /\ cutoff <> TS_MAX /\ swap1 dead n old new.

Lemma count_live_cons n l : count_live (n :: l) = ((if nbr_live n then 1 else 0) + count_live l)%nat.
Proof. unfold count_live. simpl. by destruct (nbr_live n). Qed.

Lemma inserted_count cutoff n old new :
  inserted cutoff n old new -> nbr_live n = true -> count_live new = S (count_live old).
Proof.
  intros [->|(dead & Hr & _ & r & H1 & H2)] Hl.
  - by rewrite count_live_cons, Hl.
  - rewrite H1, H2, !count_live_cons, Hl. by rewrite (reclaimable_dead _ _ Hr).
Qed.

(** The two outcomes of an insertion of the entry [n] with key [k]. *)
Definition insert_outcome v (k : Z * Z) n c (r : result unit CsrError) c' : Prop :=
  exists W d, upd v W d c c' /\ vinv W /\ (v < vertex_capacity c')%nat /\
    ((r = Err EdgeAlreadyExists /\ k ∈ live_keys (vrow (view c v)) /\ vrow W = vrow (view c v) /\ d = 0) \/
     (r = Ok tt /\ (k ∉ live_keys (vrow (view c v))) /\
      inserted (tombstone_reuse_cutoff c) n (vrow (view c v)) (vrow W) /\ d = 1)).

Lemma insert_outcome_from v k n c W d r c0 c' :
  upd v W d c c0 -> vrow W = vrow (view c v) -> d = 0 -> insert_outcome v k n c0 r c' -> insert_outcome v k n c r c'.
Proof.
  intros U Er -> (W1 & d1 & U1 & V & Hv & Ho). exists W1, d1. split_and!; [|done|done|].
  - replace d1 with (0 + d1) by lia. by eapply upd_trans.
  - by rewrite (upd_at _ _ _ _ _ U), (u_cutoff _ _ _ _ _ U), Er in Ho.
Qed.

(** The insertion into a row that is there and does not hold the key. *)
Lemma insert_place v k n live c :
  geom c -> (v < vertex_capacity c)%nat -> vinv (view c v) -> nbr_key n = k -> nbr_live n = true ->
  (k ∉ live_keys (vrow (view c v))) ->
  let c' := if decide (degree_of c v < capacity_of c v)%nat then fill_gap v k n c
            else match find_reusable v c with
                 | (c, Some slot) => reuse_slot v slot k n c
                 | (c, None) => add_edges 1 (bump_live v (append_overflow v n (S live) c))
                 end in
  insert_outcome v k n c (Ok tt) c'.
Proof.
  intros G Hv V Hkey Hl Hn. cbn zeta.
  assert (Hdone : forall W c1, upd v W 1 c c1 -> vinv W ->
    inserted (tombstone_reuse_cutoff c) n (vrow (view c v)) (vrow W) -> insert_outcome v k n c (Ok tt) c1).
  { intros W c1 U HW Hi. exists W, 1. split_and!; [done|done|by eapply upd_lt|by right]. }
  case_decide as Hd.
  - eapply Hdone; [by apply upd_fill_gap| |].
    + apply vfill_inv; simpl; rewrite ?block_length, ?Hkey by done; done.
    + left. apply vfill_row. simpl. by rewrite block_length.
  - destruct (find_reusable v c) as [c1 o] eqn:Ef. apply find_reusable_spec in Ef as [U1 Hs]; [|done|done].
    pose proof (u_geom _ _ _ _ _ U1) as G1. pose proof (upd_at _ _ _ _ _ U1) as E1. destruct o as [i|].
    + destruct (Hs i eq_refl) as (old & Hi & Hr & Hm). apply (Hdone (vreuse i n (view c v))).
      * change 1 with (0 + 1). eapply upd_trans; [exact U1|]. rewrite <- E1. apply upd_reuse_slot; [done|by eapply upd_lt| |done].
        rewrite <- block_length by done. apply vprim_lookup in Hi as [Hi _]. rewrite <- E1 in Hi. by eapply lookup_lt_Some.
      * eapply vreuse_inv; try done; [by eapply reclaimable_dead|by rewrite Hkey].
      * right. exists old. split_and!; [done|done|]. by apply vreuse_row.
    + apply (Hdone (vappend n (effective_chunk_edges c1 (S live)) (view c1 v))).
      * change 1 with (0 + 0 + 1). eapply (upd_step id); [|apply upd_edges]. eapply upd_quiet; [|apply upd_bump_live].
        eapply upd_trans; [exact U1|]. apply (upd_append v n (S live)); [done|by eapply upd_lt].
      * rewrite E1. apply vappend_inv; try done. by rewrite Hkey.
      * left. rewrite E1, vappend_row by apply V. symmetry. apply Permutation_cons_append.
Qed.

Lemma insert_edge_cases c v dst k eid ts :
  csr_inv c -> decode_endpoint_pair dst = Some k ->
  let '(c', r) := insert_edge v dst eid ts c in insert_outcome v k (with_create_ts k.1 k.2 eid ts) c r c'.
Proof.
  intros [G R E] Hk. unfold insert_edge. rewrite Hk.
  destruct (upd_prepare v c G) as [U0 Hv]. destruct (vprepare_inv _ (R v)) as [V0 Er].
  set (c0 := prepare_row v c) in *. pose proof (u_geom _ _ _ _ _ U0) as G0.
  rewrite <- (upd_at _ _ _ _ _ U0) in V0. pose proof (probe_insert_spec c0 v k G0 Hv V0) as Hp.
  destruct (probe_insert c0 v k) as [live|].
  - assert (Hn : k ∉ live_keys (vrow (view c0 v))) by (intros Hin; by apply Hp in Hin).
    pose proof (insert_place v k (with_create_ts k.1 k.2 eid ts) live c0 G0 Hv V0) as Hi. cbn zeta in Hi.
    specialize (Hi ltac:(by destruct k) ltac:(by apply bool_decide_eq_true) Hn).
    case_decide; [by eapply insert_outcome_from|].
    destruct (find_reusable v c0) as [c1 [i|]]; by eapply insert_outcome_from.
  - eapply insert_outcome_from; [exact U0|done|done|]. exists (view c0 v), 0. split_and!; [by apply upd_refl|done|done|].
    left. split_and!; try done. by apply Hp.
Qed.

End inv.
End CsrInv.
