(* ===== verification/CsrDelete.v ===== *)
(** * Deletion, its reversal and rollback

    A deletion stamps one live entry of the row and takes its key from the index; a
    reversal does the opposite; a rollback takes the entry itself away. *)

From stdpp Require Import base gmap list sorting strings.
From Stdlib Require Import ZArith Lia.
From S2P Require Import Prelude Types Watermarks IndexManifest CsrShared MutableCsr CsrView CsrInv.

Module CsrDelete.
Import CsrShared CsrSharedFacts Csr CsrIndex CsrView CsrUpd CsrRowInv CsrPush CsrInsert CsrInv.

Section delete.
Context `{Allocator}.
Implicit Types (c : MutableCsr) (v : nat) (W : View) (n : Nbr).

(** ** One entry with another stamp *)

Record restamped n (ts : Z) W W' : Prop := {
  rs_deg : v_deg W' = v_deg W;
  rs_len : length (v_block W') = length (v_block W);
  rs_chunks : Forall ch_ok (vchunks W');
  rs_sorted : v_sorted W' = v_sorted W;
  rs_keys : map nbr_key (vprim W') = map nbr_key (vprim W);
  rs_set : v_set W' = v_set W;
  rs_prim i : prim_ok W i -> prim_ok W' i;
  rs_row : swap1 n (restamp ts n) (vrow W) (vrow W');
}.

Definition vstamp_prim i ts n W : View := with_block (<[i := restamp ts n]> (v_block W)) W.
Definition vstamp_over j i ts W : View := with_over (option_map (stamp_chunk j i ts) (v_over W)) W.

Lemma restamped_prim i ts n W : vinv W -> vprim W !! i = Some n -> restamped n ts W (vstamp_prim i ts n W).
Proof.
  intros [C _] Hi. pose proof (vprim_lookup _ _ _ Hi) as [Hb Hd]. split; try done.
  - simpl. by rewrite length_insert.
  - apply C.
  - unfold vstamp_prim. rewrite vprim_insert by done. change (map nbr_key) with (fmap (M := list) nbr_key).
    rewrite list_fmap_insert. apply list_insert_id. rewrite list_lookup_fmap, Hi. done.
  - intros j. by apply (prim_ok_insert i (restamp ts n) W).
  - unfold vrow. apply swap1_app_l. unfold vstamp_prim. rewrite vprim_insert by done. by apply swap1_insert.
Qed.

Lemma ch_stamp_slots i ts ch n :
  ch_ok ch -> ch_slots ch !! i = Some n -> ch_slots (ch_stamp i ts ch) = <[i := restamp ts n]> (ch_slots ch).
Proof.
  unfold ch_slots, ch_stamp. simpl. intros Ho Hi. apply lookup_zip_with_Some in Hi as (h & k & -> & Hh & Hk).
  apply list_eq. intros j. rewrite lookup_zip_with. destruct (decide (i = j)) as [<-|Hne].
  - rewrite !list_lookup_insert_eq.
    + rewrite Hh. by destruct h.
    + apply lookup_lt_Some in Hh, Hk. rewrite length_zip_with. lia.
    + by eapply lookup_lt_Some.
  - rewrite !list_lookup_insert_ne by done. by rewrite lookup_zip_with.
Qed.

Lemma restamped_over j i ts ch n W :
  vinv W -> vchunks W !! j = Some ch -> ch_slots ch !! i = Some n -> restamped n ts W (vstamp_over j i ts W).
Proof.
  intros [C _] Hj Hi. assert (Ho : ch_ok ch) by by eapply (proj1 (Forall_lookup _ _) (vc_chunks _ C)).
  assert (Ec : vchunks (vstamp_over j i ts W) = <[j := ch_stamp i ts ch]> (vchunks W)).
  { unfold vchunks, vstamp_over in *. destruct (v_over W) as [cs|]; [|done]. simpl in *. unfold stamp_chunk.
    apply list_eq. intros m. destruct (decide (j = m)) as [<-|Hne].
    - rewrite list_lookup_alter_eq, Hj. rewrite list_lookup_insert_eq by by eapply lookup_lt_Some. done.
    - by rewrite list_lookup_alter_ne, list_lookup_insert_ne. }
  split; try done.
  - rewrite Ec. apply Forall_insert; [apply C|]. unfold ch_ok, ch_stamp. simpl. by rewrite length_insert.
  - unfold vrow. change (vprim (vstamp_over j i ts W)) with (vprim W). apply swap1_app_r. rewrite Ec.
    rewrite <- (take_drop_middle (vchunks W) j ch Hj) at 1. rewrite insert_take_drop by by eapply lookup_lt_Some.
    rewrite !map_app, !concat_app. apply swap1_app_r. simpl. apply swap1_app_l.
    rewrite (ch_stamp_slots _ _ _ n) by done. by apply swap1_insert.
Qed.

Lemma restamped_core n ts W W' :
  vcore W -> restamped n ts W W' -> NoDup (live_keys (vrow W')) -> vcore W'.
Proof.
  intros [Cd Cc Cn Cs] [Rd Rl Rc Rs Rk _ _ _] Hn. split; [lia|done|done|].
  rewrite Rs, key_sorted_map, Rk, <- key_sorted_map. done.
Qed.

Lemma restamp_dead ts n : ts <> TS_MAX -> nbr_live (restamp ts n) = false.
Proof. intros Hts. by apply bool_decide_eq_false. Qed.

(** The entry dies: its key leaves the index. *)
Lemma restamped_dies n ts W W' :
  vinv W -> restamped n ts W W' -> nbr_live n = true -> ts <> TS_MAX ->
  vinv (vtrack_remove (nbr_key n) W') /\ nlive W = S (nlive W').
Proof.
  intros [C I] R Hl Hts. pose proof (swap1_dies _ _ _ _ (rs_row _ _ _ _ R) Hl (restamp_dead ts n Hts)) as Hk.
  assert (Hn : NoDup (nbr_key n :: live_keys (vrow W'))) by (rewrite <- Hk; apply C).
  apply NoDup_cons in Hn as [Hnk Hn]. split.
  - apply vinv_track_remove; [by eapply restamped_core|]. intros s Hs. rewrite (rs_set _ _ _ _ R) in Hs.
    destruct (I s Hs) as [Iw Ik Ip]. split_and!; [done| |].
    + intros k'. rewrite Ik, Hk, elem_of_cons. split; [|naive_solver]. intros Hin. split; [|by right].
      by intros ->.
    + intros k' i Hi. by eapply (rs_prim _ _ _ _ R), Ip.
  - unfold nlive. rewrite !count_live_keys, Hk. done.
Qed.

(** The entry lives again: its key comes back. *)
Lemma restamped_revives n W W' p :
  vinv W -> restamped n TS_MAX W W' -> nbr_live n = false -> (nbr_key n ∉ live_keys (vrow W)) -> prim_pos_ok W' p ->
  vinv (vtrack_insert (nbr_key n) p W') /\ nlive W' = S (nlive W).
Proof.
  intros [C I] R Hl Hk Hp.
  assert (Hb : live_keys (vrow W') ≡ₚ nbr_key n :: live_keys (vrow W)).
  { apply (swap1_born _ _ _ _ (rs_row _ _ _ _ R) Hl). by apply bool_decide_eq_true. }
  split.
  - apply vinv_track_insert; [|intros s Hs|done].
    + eapply restamped_core; [done|done|]. rewrite Hb. apply NoDup_live_cons; [apply C|done].
    + rewrite (rs_set _ _ _ _ R) in Hs. destruct (I s Hs) as [Iw Ik Ip]. split_and!; [done| |].
      * intros k'. by rewrite Hb, elem_of_cons, Ik.
      * intros k' i Hi. by eapply (rs_prim _ _ _ _ R), Ip.
  - unfold nlive. rewrite !count_live_keys, Hb. done.
Qed.

(** ** The writes *)

Lemma upd_stamp_prim v i ts n c :
  geom c -> vprim (view c v) !! i = Some n ->
  upd v (vstamp_prim i ts n (view c v)) 0 c (set_cold (offset_of c v + i) ts c).
Proof. intros G Hi. apply vprim_lookup in Hi as [Hi _]. by apply upd_set_cold. Qed.

Lemma upd_get_mut v f c :
  geom c -> (v < vertex_capacity c)%nat ->
  upd v (with_over (option_map f (v_over (view c v))) (view c v)) 0 c (set_overflow (ot_get_mut f v (overflow_chunks c)) c).
Proof.
  intros G Hv. destruct (ot_get_mut_spec (overflow_chunks c) v f (g_over _ G)) as [Hw Hg].
  apply upd_over; [done|done|done|]. intros w. rewrite Hg. case_decide; [by subst|done].
Qed.

Lemma upd_stamp_over v j i ts c :
  geom c -> (v < vertex_capacity c)%nat ->
  upd v (vstamp_over j i ts (view c v)) 0 c (set_overflow (ot_get_mut (stamp_chunk j i ts) v (overflow_chunks c)) c).
Proof. apply upd_get_mut. Qed.

(** ** The entry of an identifier *)

Definition first_id (eid : Z) (l : list Nbr) : option Nbr := find (fun n => bool_decide (edge_id n = eid)) l.

Lemma find_id_first eid l : option_map snd (find_id eid l) = first_id eid l.
Proof.
  unfold find_id, first_id. induction l as [|n l IH]; simpl; [done|]. case_decide as E.
  - by rewrite bool_decide_true.
  - rewrite bool_decide_false by done. rewrite <- IH. by destruct (list_find _ l) as [[? ?]|].
Qed.

Lemma first_id_app eid l k :
  first_id eid (l ++ k) = match first_id eid l with Some n => Some n | None => first_id eid k end.
Proof. unfold first_id. induction l as [|n l IH]; simpl; [done|]. by destruct (bool_decide _). Qed.

Lemma scan_chunks_first eid j cs :
  match scan_chunks eid j cs with
  | Some (j', i, n) => first_id eid (concat (map ch_slots cs)) = Some n /\ (j <= j')%nat /\
      exists ch, cs !! (j' - j)%nat = Some ch /\ ch_slots ch !! i = Some n
  | None => first_id eid (concat (map ch_slots cs)) = None
  end.
Proof.
  revert j. induction cs as [|ch cs IH]; intros j; [done|]. simpl. rewrite first_id_app, <- find_id_first.
  destruct (find_id eid (ch_slots ch)) as [[i n]|] eqn:Ef; simpl.
  - apply list_find_Some in Ef as (Hi & _ & _). split_and!; [done|done|]. exists ch. by rewrite Nat.sub_diag.
  - specialize (IH (S j)). destruct (scan_chunks eid (S j) cs) as [[[j' i] n]|]; [|done].
    destruct IH as (Hf & Hj & ch' & Hc & Hi). split_and!; [done|lia|]. exists ch'. split; [|done].
    by replace (j' - j)%nat with (S (j' - S j)) by lia.
Qed.

(** ** Deletion *)

(** One live entry of the row stamped. *)
Definition stamped_in v n ts c c' : Prop :=
  exists W, upd v W (-1) c c' /\ vinv W /\ nlive (view c v) = S (nlive W) /\
    swap1 n (restamp ts n) (vrow (view c v)) (vrow W).

Lemma stamped_inv v n ts c c' : csr_inv c -> (v < vertex_capacity c)%nat -> stamped_in v n ts c c' -> csr_inv c'.
Proof.
  intros I Hv (W & U & V & Hn & _). eapply csr_inv_upd; [done|exact U|by eapply upd_lt|done|lia].
Qed.

Lemma dies_primary v i ts n c c1 :
  csr_inv c -> (v < vertex_capacity c)%nat -> vprim (view c v) !! i = Some n -> nbr_live n = true -> ts <> TS_MAX ->
  upd v (vstamp_prim i ts n (view c v)) (-1) c c1 -> stamped_in v n ts c (track_live_remove v (nbr_key n) c1).
Proof.
  intros [G R _] Hv Hi Hl Hts U. pose proof (restamped_prim i ts n _ (R v) Hi) as Rs.
  destruct (restamped_dies _ _ _ _ (R v) Rs Hl Hts) as [V Hn]. eexists. split_and!; [|exact V| |].
  - eapply (upd_step0 (vtrack_remove (nbr_key n))); [exact U|]. intros G1. apply upd_track_remove; [done|by eapply upd_lt].
  - unfold nlive in *. by rewrite vrow_track_remove.
  - rewrite vrow_track_remove. apply Rs.
Qed.

Lemma dies_overflow v j i ts ch n c c1 :
  csr_inv c -> (v < vertex_capacity c)%nat -> vchunks (view c v) !! j = Some ch -> ch_slots ch !! i = Some n ->
  nbr_live n = true -> ts <> TS_MAX ->
  upd v (vstamp_over j i ts (view c v)) (-1) c c1 -> stamped_in v n ts c (track_live_remove v (nbr_key n) c1).
Proof.
  intros [G R _] Hv Hj Hi Hl Hts U. pose proof (restamped_over j i ts ch n _ (R v) Hj Hi) as Rs.
  destruct (restamped_dies _ _ _ _ (R v) Rs Hl Hts) as [V Hn]. eexists. split_and!; [|exact V| |].
  - eapply (upd_step0 (vtrack_remove (nbr_key n))); [exact U|]. intros G1. apply upd_track_remove; [done|by eapply upd_lt].
  - unfold nlive in *. by rewrite vrow_track_remove.
  - rewrite vrow_track_remove. apply Rs.
Qed.

Lemma window_start c v : geom c -> (v < vertex_capacity c)%nat -> (primary_window c v).1 = offset_of c v.
Proof. intros G Hv. by rewrite primary_window_geom. Qed.

Lemma decide_stamped n ts : decide_slot_delete n ts = Ok Stamped -> nbr_live n = true.
Proof.
  unfold decide_slot_delete, nbr_live. case_decide as E; [case_decide; done|]. intros _.
  apply bool_decide_eq_true. by destruct (decide (delete_ts n = TS_MAX)).
Qed.

(** A deletion that found the entry [n] acts as its state says. *)
Definition delete_outcome v (o : option Nbr) ts c (r : result bool CsrError) c' : Prop :=
  match o with
  | None => r = Ok false /\ c' = c
  | Some n =>
      match decide_slot_delete n ts with
      | Err e => r = Err e /\ c' = c
      | Ok AlreadyStamped => r = Ok false /\ c' = c
      | Ok Stamped => r = Ok true /\ (v < vertex_capacity c)%nat /\ stamped_in v n ts c c'
      end
  end.

(** What a deletion by identifier answers, and does. *)
Lemma delete_edge_cases c v eid ts :
  csr_inv c -> ts <> TS_MAX ->
  let '(c', r) := delete_edge v eid ts c in
  delete_outcome v (first_id eid (row c v)) ts c r c'.
Proof.
  intros I Hts. pose proof I as [G R _]. unfold delete_edge, delete_outcome. rewrite row_view by done. case_decide as Hv.
  { unfold vrow, vprim, vchunks. simpl. destruct (block_nil c v G Hv) as [-> ->].
    by rewrite (g_over_dom _ G v Hv). }
  apply not_le in Hv. unfold vrow. rewrite first_id_app, <- find_id_first, primary_view by done.
  destruct (find_id eid (vprim (view c v))) as [[i n]|] eqn:Ef; simpl.
  - apply list_find_Some in Ef as (Hi & _ & _). destruct (decide_slot_delete n ts) as [[|]|e] eqn:Ed; try done.
    split_and!; [done|done|]. apply (dies_primary v i); try done; [by eapply decide_stamped|].
    unfold stamp_primary. rewrite window_start by done. change (-1) with (0 + (-1)).
    do 3 (eapply upd_quiet; [|first [apply upd_note|apply upd_bump_tomb|apply upd_drop_live]]).
    eapply (upd_step (fun W => W)); [by apply upd_stamp_prim|]. apply upd_edges.
  - pose proof (scan_chunks_first eid 0 (chunks_of c v)) as Hs. change (vchunks (view c v)) with (chunks_of c v).
    destruct (scan_chunks eid 0 (chunks_of c v)) as [[[j i] n]|]; [|by rewrite Hs].
    destruct Hs as (-> & _ & ch & Hj & Hi). rewrite Nat.sub_0_r in Hj.
    destruct (decide_slot_delete n ts) as [[|]|e] eqn:Ed; try done.
    split_and!; [done|done|]. apply (dies_overflow v j i ts ch); try done; [by eapply decide_stamped|].
    unfold stamp_overflow. change (-1) with (0 + (-1)).
    do 2 (eapply upd_quiet; [|first [apply upd_bump_tomb|apply upd_drop_live]]).
    eapply (upd_step (fun W => W)); [by apply upd_stamp_over|]. apply upd_edges.
Qed.

(** ** By offset and by position *)

Lemma slot_at_slots c i : slot_at c i = slots c !! i.
Proof. unfold slot_at, slots. rewrite lookup_zip_with. by destruct (hot_list c !! i), (cold_list c !! i). Qed.

Lemma slots_prim c v i n :
  geom c -> (i < degree_of c v)%nat -> slots c !! (offset_of c v + i)%nat = Some n -> vprim (view c v) !! i = Some n.
Proof.
  intros G Hi Hs. destruct (g_row _ G v). unfold vprim, view, block. simpl.
  rewrite lookup_take_lt by done. rewrite lookup_take_lt by lia. by rewrite lookup_drop.
Qed.

Lemma slot_of_offset_spec c v offset i n :
  geom c -> slot_of_offset c v offset = Some (i, n) ->
  (v < vertex_capacity c)%nat /\ i = (offset_of c v + Z.to_nat offset)%nat /\ vprim (view c v) !! Z.to_nat offset = Some n.
Proof.
  intros G. unfold slot_of_offset. case_decide as Hg; [done|]. rewrite slot_at_slots.
  destruct (slots c !! _) as [m|] eqn:Es; [|done]. intros [= <- <-]. split_and!; [lia|done|]. apply slots_prim; [done|lia|done].
Qed.

Lemma slot_in_row_spec c v p n :
  geom c -> slot_in_row c v p = Some n ->
  (v < vertex_capacity c)%nat /\
  match p with
  | PosPrimary i => vprim (view c v) !! i = Some n
  | PosOverflow j i => exists ch, vchunks (view c v) !! j = Some ch /\ ch_slots ch !! i = Some n
  end.
Proof.
  intros G. destruct p as [i|j i]; simpl.
  - case_decide as Hg; [done|]. rewrite slot_at_slots. intros Hs. split; [lia|]. apply slots_prim; [done|lia|done].
  - destruct (ot_get (overflow_chunks c) v) as [cs|] eqn:E; [|done]. destruct (cs !! j) as [ch|] eqn:Ej; [|done].
    rewrite ch_slot_at_slots. intros Hi. split.
    + destruct (decide (v < vertex_capacity c)%nat); [done|]. rewrite (g_over_dom _ G v) in E by lia. done.
    + exists ch. unfold vchunks. simpl. by rewrite E.
Qed.

Lemma delete_by_offset_cases c v offset ts :
  csr_inv c -> ts <> TS_MAX ->
  let '(c', r) := delete_edge_by_offset v offset ts c in
  delete_outcome v (option_map snd (slot_of_offset c v offset)) ts c r c'.
Proof.
  intros I Hts. pose proof I as [G R _]. unfold delete_edge_by_offset, delete_outcome.
  destruct (slot_of_offset c v offset) as [[i n]|] eqn:Es; [|done]. simpl.
  apply slot_of_offset_spec in Es as (Hv & -> & Hi); [|done].
  destruct (decide_slot_delete n ts) as [[|]|e] eqn:Ed; try done. split_and!; [done|done|].
  apply (dies_primary v (Z.to_nat offset)); try done; [by eapply decide_stamped|]. change (-1) with (0 + (-1)).
  do 3 (eapply upd_quiet; [|first [apply upd_note|apply upd_bump_tomb|apply upd_drop_live]]).
  eapply (upd_step (fun W => W)); [by apply upd_stamp_prim|]. apply upd_edges.
Qed.

Lemma delete_at_position_cases c v p expected ts :
  csr_inv c -> ts <> TS_MAX ->
  let '(c', r) := delete_edge_at_position v p expected ts c in
  delete_outcome v (match slot_in_row c v p with
                    | Some n => if decide (edge_id n <> expected) then None else Some n
                    | None => None
                    end) ts c r c'.
Proof.
  intros I Hts. pose proof I as [G R _]. unfold delete_edge_at_position, delete_outcome.
  destruct (slot_in_row c v p) as [n|] eqn:Es; [|done]. case_decide; [done|].
  apply slot_in_row_spec in Es as [Hv Hs]; [|done].
  destruct (decide_slot_delete n ts) as [[|]|e] eqn:Ed; try done. apply decide_stamped in Ed. split_and!; [done|done|].
  destruct p as [i|j i]; [apply (dies_primary v i); try done|destruct Hs as (ch & Hj & Hi); apply (dies_overflow v j i ts ch); try done].
  all: change (-1) with (0 + (-1)).
  - eapply upd_quiet; [|apply upd_note]. eapply (upd_step (fun W => W)); [by apply upd_stamp_prim|]. apply upd_edges.
  - eapply (upd_step (fun W => W)); [by apply upd_stamp_over|]. apply upd_edges.
Qed.

(** ** Reversal *)

Definition revived_in v n c c' : Prop :=
  exists W, upd v W 1 c c' /\ vinv W /\ nlive W = S (nlive (view c v)) /\
    swap1 n (restamp TS_MAX n) (vrow (view c v)) (vrow W).

Lemma revived_inv v n c c' : csr_inv c -> (v < vertex_capacity c)%nat -> revived_in v n c c' -> csr_inv c'.
Proof.
  intros I Hv (W & U & V & Hn & _). eapply csr_inv_upd; [done|exact U|by eapply upd_lt|done|lia].
Qed.

Lemma can_revert_dead n ts : can_revert_delete n ts = true -> nbr_live n = false.
Proof.
  unfold can_revert_delete, nbr_live. rewrite andb_true_iff, bool_decide_eq_true. intros [Hd _].
  by apply bool_decide_eq_false.
Qed.

Lemma revives v n W c c1 p :
  csr_inv c -> (v < vertex_capacity c)%nat -> restamped n TS_MAX (view c v) W -> nbr_live n = false ->
  (nbr_key n ∉ live_keys (row c v)) -> prim_pos_ok W p ->
  upd v W 1 c c1 -> revived_in v n c (track_live_insert v (nbr_key n) p c1).
Proof.
  intros [G R _] Hv Rs Hl Hk Hp U. rewrite row_view in Hk by done.
  destruct (restamped_revives _ _ _ p (R v) Rs Hl Hk Hp) as [V Hn]. eexists. split_and!; [|exact V| |].
  - eapply (upd_step0 (vtrack_insert (nbr_key n) p)); [exact U|]. intros G1. apply upd_track_insert; [done|by eapply upd_lt].
  - unfold nlive in *. by rewrite vrow_track_insert.
  - rewrite vrow_track_insert. apply Rs.
Qed.

Lemma stamp_prim_pos i ts n W : vinv W -> vprim W !! i = Some n -> prim_pos_ok (vstamp_prim i ts n W) (PosPrimary i).
Proof.
  intros V Hi. apply vprim_lookup in Hi as [Hb Hd]. split; simpl; [|lia]. rewrite length_insert. by eapply lookup_lt_Some.
Qed.

(** A reversal of the entry at a primary position, whatever the ledgers do. *)
Lemma revives_primary v i n c c1 :
  csr_inv c -> (v < vertex_capacity c)%nat -> vprim (view c v) !! i = Some n -> nbr_live n = false ->
  (nbr_key n ∉ live_keys (row c v)) -> upd v (vstamp_prim i TS_MAX n (view c v)) 1 c c1 ->
  revived_in v n c (track_live_insert v (nbr_key n) (PosPrimary i) c1).
Proof.
  intros I Hv Hi Hl Hk U. eapply revives; try done; [by apply restamped_prim; [apply I|]|by apply stamp_prim_pos; [apply I|]].
Qed.

Lemma revives_overflow v j i ch n c c1 :
  csr_inv c -> (v < vertex_capacity c)%nat -> vchunks (view c v) !! j = Some ch -> ch_slots ch !! i = Some n ->
  nbr_live n = false -> (nbr_key n ∉ live_keys (row c v)) -> upd v (vstamp_over j i TS_MAX (view c v)) 1 c c1 ->
  revived_in v n c (track_live_insert v (nbr_key n) (PosOverflow j i) c1).
Proof.
  intros I Hv Hj Hi Hl Hk U. eapply revives; try done. eapply restamped_over; [apply I|done|done].
Qed.

Lemma revive_overflow_upd v j i c :
  geom c -> (v < vertex_capacity c)%nat ->
  upd v (vstamp_over j i TS_MAX (view c v)) 1 c
    (add_edges 1 (set_overflow (ot_get_mut (stamp_chunk j i TS_MAX) v (overflow_chunks c)) c)).
Proof.
  intros G Hv. change 1 with (0 + 1). eapply (upd_step (fun W => W)); [by apply upd_stamp_over|]. apply upd_edges.
Qed.

(** No entry that can be revived has a key that is live. *)
Definition revert_free v ts c : Prop :=
  forall n, n ∈ row c v -> can_revert_delete n ts = true -> nbr_key n ∉ live_keys (row c v).

Definition revert_outcome v ts c (b : bool) c' : Prop :=
  (b = false /\ c' = c) \/
  (b = true /\ (v < vertex_capacity c)%nat /\ exists n, n ∈ row c v /\ can_revert_delete n ts = true /\ revived_in v n c c').

Lemma prim_in_row c v i n : geom c -> vprim (view c v) !! i = Some n -> n ∈ row c v.
Proof. intros G Hi. rewrite row_view by done. apply elem_of_app. left. by eapply list_elem_of_lookup_2. Qed.

Lemma over_in_row c v j i ch n :
  geom c -> vchunks (view c v) !! j = Some ch -> ch_slots ch !! i = Some n -> n ∈ row c v.
Proof.
  intros G Hj Hi. rewrite row_view by done. apply elem_of_app. right.
  apply list_elem_of_In, in_concat. exists (ch_slots ch). split.
  - apply in_map, list_elem_of_In. by eapply list_elem_of_lookup_2.
  - apply list_elem_of_In. by eapply list_elem_of_lookup_2.
Qed.

Lemma revert_by_offset_cases c v offset ts :
  csr_inv c -> revert_free v ts c ->
  let '(c', b) := revert_delete_by_offset v offset ts c in
  revert_outcome v ts c b c'.
Proof.
  intros I Hfree. pose proof I as [G R _]. unfold revert_delete_by_offset.
  destruct (slot_of_offset c v offset) as [[i n]|] eqn:Es; [|by left].
  apply slot_of_offset_spec in Es as (Hv & -> & Hi); [|done].
  destruct (can_revert_delete n ts) eqn:Er; [|by left]. right. split_and!; [done|done|].
  pose proof (prim_in_row _ _ _ _ G Hi) as Hn.
  pose proof (can_revert_dead _ _ Er) as Hl. exists n. split_and!; [done|done|].
  apply revives_primary; try done; [by apply Hfree|].
  do 3 (eapply upd_quiet; [|first [apply upd_invalidate|apply upd_drop_tomb|apply upd_bump_live]]).
  change 1 with (0 + 1). eapply (upd_step (fun W => W)); [by apply upd_stamp_prim|]. apply upd_edges.
Qed.

Lemma revert_at_position_cases c v p expected ts :
  csr_inv c -> revert_free v ts c ->
  let '(c', b) := revert_delete_at_position v p expected ts c in
  revert_outcome v ts c b c'.
Proof.
  intros I Hfree. pose proof I as [G R _]. unfold revert_delete_at_position.
  destruct (slot_in_row c v p) as [n|] eqn:Es; [|by left]. apply slot_in_row_spec in Es as [Hv Hs]; [|done].
  case_decide as Hc; [by left|]. assert (Er : can_revert_delete n ts = true) by (destruct (can_revert_delete n ts); tauto).
  pose proof (can_revert_dead _ _ Er) as Hl.
  assert (Hn : n ∈ row c v).
  { destruct p as [i|j i]; [by eapply prim_in_row|]. destruct Hs as (ch & Hj & Hi). by eapply over_in_row. }
  destruct p as [i|j i]; right; (split_and!; [done|done|]); exists n; (split_and!; [done|done|]).
  - apply revives_primary; try done; [by apply Hfree|]. eapply upd_quiet; [|apply upd_invalidate].
    change 1 with (0 + 1). eapply (upd_step (fun W => W)); [by apply upd_stamp_prim|]. apply upd_edges.
  - destruct Hs as (ch & Hj & Hi). unfold revive_overflow. eapply revives_overflow; try done; [by apply Hfree|].
    by apply revive_overflow_upd.
Qed.


Lemma revert_by_id_cases c v eid ts :
  csr_inv c -> revert_free v ts c ->
  let '(c', b) := revert_delete_by_edge_id v eid ts c in revert_outcome v ts c b c'.
Proof.
  intros I Hfree. pose proof I as [G R _]. unfold revert_delete_by_edge_id. case_decide as Hv; [by left|]. apply not_le in Hv.
  rewrite primary_view by done. destruct (list_find _ (vprim (view c v))) as [[i n]|] eqn:Ef.
  - apply list_find_Some in Ef as (Hi & [_ Er] & _). pose proof (prim_in_row _ _ _ _ G Hi) as Hn.
    right. split_and!; [done|done|]. exists n. split_and!; [done|done|]. unfold revive_primary. rewrite window_start by done.
    apply revives_primary; try done; [by eapply can_revert_dead|by apply Hfree|]. eapply upd_quiet; [|apply upd_invalidate].
    change 1 with (0 + 1). eapply (upd_step (fun W => W)); [by apply upd_stamp_prim|]. apply upd_edges.
  - pose proof (scan_chunks_first eid 0 (chunks_of c v)) as Hs.
    destruct (scan_chunks eid 0 (chunks_of c v)) as [[[j i] n]|]; [|by left].
    destruct Hs as (_ & _ & ch & Hj & Hi). rewrite Nat.sub_0_r in Hj.
    destruct (can_revert_delete n ts) eqn:Er; [|by left]. pose proof (over_in_row _ _ _ _ _ _ G Hj Hi) as Hn.
    right. split_and!; [done|done|]. exists n. split_and!; [done|done|]. unfold revive_overflow.
    eapply revives_overflow; try done; [by eapply can_revert_dead|by apply Hfree|by apply revive_overflow_upd].
Qed.


End delete.
End CsrDelete.

(** * Rollback of an insertion and deletion by endpoint

    [rollback_insert] takes one entry out of the row; [delete_edge_by_dst] stamps
    every live entry of a key. *)

Module CsrErase.
Import CsrShared CsrSharedFacts Csr CsrIndex CsrView CsrUpd CsrRowInv CsrPush CsrInsert CsrInv CsrDelete.

Section erase.
Context `{Allocator}.
Implicit Types (c : MutableCsr) (v : nat) (W : View) (n : Nbr).

(** ** The primary block without a slot *)

Definition close_gap {A} (i deg : nat) (gap : A) (b : list A) : list A :=
  take i b ++ slice (S i) deg b ++ gap :: drop deg b.

Lemma close_gap_map {A B} (f : A -> B) i deg gap b : map f (close_gap i deg gap b) = close_gap i deg (f gap) (map f b).
Proof. unfold close_gap, slice. rewrite !map_app. simpl. by rewrite !skipn_map, !firstn_map. Qed.

Lemma close_gap_length {A} i deg (gap : A) b : (i < deg <= length b)%nat -> length (close_gap i deg gap b) = length b.
Proof.
  intros Hi. unfold close_gap. rewrite !length_app, slice_length, length_take by lia. simpl. rewrite length_drop. lia.
Qed.

(** The shift of the tail over a slot is a change of the block. *)
Lemma shift_splice {A} off cap i deg (gap : A) l :
  (i < deg <= cap)%nat -> (off + cap <= length l)%nat ->
  <[(off + (deg - 1))%nat := gap]>
    (take (off + i) l ++ slice (off + i + 1) (off + deg) l ++ drop (off + deg - 1) l) =
  splice off (close_gap i deg gap (take cap (drop off l))) l.
Proof.
  intros Hi Hl. unfold splice. rewrite close_gap_length by (rewrite length_take, length_drop; lia).
  rewrite length_take, length_drop, Nat.min_l by lia.
  set (A0 := take off l). set (B := take cap (drop off l)). set (C := drop (off + cap) l).
  assert (E : l = A0 ++ B ++ C).
  { unfold A0, B, C. rewrite <- drop_drop, take_drop, take_drop. done. }
  assert (LA : length A0 = off) by (unfold A0; rewrite length_take; lia).
  assert (LB : length B = cap) by (unfold B; rewrite length_take, length_drop; lia).
  clearbody A0 B C. subst l. unfold close_gap, slice.
  rewrite take_app_ge by lia. rewrite LA. replace (off + i - off)%nat with i by lia. rewrite take_app_le by lia.
  rewrite !(drop_app_ge A0) by lia. rewrite LA. replace (off + i + 1 - off)%nat with (S i) by lia.
  replace (off + deg - 1 - off)%nat with (deg - 1)%nat by lia.
  replace (off + deg - (off + i + 1))%nat with (deg - S i)%nat by lia.
  rewrite !(drop_app_le B) by lia. rewrite (take_app_le (drop (S i) B)) by (rewrite length_drop; lia).
  destruct (lookup_lt_is_Some_2 B (deg - 1)) as [x Hx]; [lia|].
  rewrite (drop_S B x (deg - 1) Hx). replace (S (deg - 1)) with deg by lia.
  rewrite !app_assoc. rewrite <- !(app_assoc _ (x :: _)), <- !(app_assoc _ (gap :: _)).
  rewrite insert_app_r_alt by (rewrite !length_app, !length_take, !length_drop; lia).
  rewrite !length_app, !length_take, !length_drop.
  replace (off + (deg - 1) - _)%nat with 0%nat by lia. by rewrite <- !app_assoc.
Qed.

Definition verase i W : View :=
  with_deg (v_deg W - 1) (with_block (close_gap i (v_deg W) dead_gap (v_block W)) W).

Lemma verase_prim i W :
  (i < v_deg W <= length (v_block W))%nat -> vprim (verase i W) = take i (vprim W) ++ drop (S i) (vprim W).
Proof.
  intros Hi. unfold vprim, verase. simpl. unfold close_gap. rewrite app_assoc, take_app_le.
  - rewrite take_ge.
    + f_equal; [rewrite take_take; f_equal; lia|]. unfold slice. by rewrite skipn_firstn_comm.
    + rewrite length_app, slice_length, length_take by lia. lia.
  - rewrite length_app, slice_length, length_take by lia. lia.
Qed.

Lemma verase_row i n W :
  vcore W -> vprim W !! i = Some n -> vrow W ≡ₚ n :: vrow (verase i W).
Proof.
  intros C Hi. pose proof (vprim_lookup _ _ _ Hi) as [_ Hd]. destruct C. unfold vrow. rewrite verase_prim by lia.
  change (vchunks (verase i W)) with (vchunks W). rewrite <- (take_drop_middle (vprim W) i n Hi) at 1.
  rewrite <- !app_assoc. simpl. symmetry. apply Permutation_middle.
Qed.

Lemma sorted_delete l i n : l !! i = Some n -> key_sorted l -> key_sorted (take i l ++ drop (S i) l).
Proof.
  intros Hi Hs. unfold key_sorted in *. rewrite <- (take_drop_middle l i n Hi) in Hs.
  apply StronglySorted_app in Hs as (H1 & H2 & H3). apply StronglySorted_cons in H3 as [_ H3].
  apply StronglySorted_app. split_and!; [|done|done]. intros x y Hx Hy. apply H1; [done|by right].
Qed.

Lemma verase_core i n W : vcore W -> vprim W !! i = Some n -> vcore (verase i W).
Proof.
  intros C Hi. pose proof (verase_row i n W C Hi) as Hr. pose proof (vprim_lookup _ _ _ Hi) as [_ Hd].
  pose proof C as [Cd Cc Cn Cs]. split; [|done| |].
  - simpl. rewrite close_gap_length by lia. lia.
  - rewrite Hr, live_keys_cons in Cn. destruct (nbr_live n); [by apply NoDup_cons in Cn as [_ ?]|done].
  - intros Hs. rewrite verase_prim by lia. by apply (sorted_delete _ _ n), Cs.
Qed.

Lemma verase_prim_ok i W j : (i < v_deg W <= length (v_block W))%nat -> prim_ok W j -> prim_ok (verase i W) j.
Proof.
  intros Hi [Hj Hdead]. unfold prim_ok, verase. simpl. rewrite close_gap_length by lia. split; [done|].
  intros Hge m. unfold close_gap. rewrite app_assoc, lookup_app_r.
  2: rewrite length_app, slice_length, length_take by lia; lia.
  rewrite length_app, slice_length, length_take by lia.
  replace (j - _)%nat with (j - (v_deg W - 1))%nat by lia. destruct (j - (v_deg W - 1))%nat as [|d] eqn:Ed; simpl.
  - intros [= <-]. done.
  - rewrite lookup_drop. replace (v_deg W + d)%nat with j by lia. apply Hdead. lia.
Qed.

(** An entry that the index need not know gone from the row. *)
Lemma dead_gone_inv n W W' :
  vinv W -> vcore W' -> v_set W' = v_set W -> vrow W ≡ₚ n :: vrow W' -> nbr_live n = false ->
  (forall j, prim_ok W j -> prim_ok W' j) -> vinv W'.
Proof.
  intros [C I] C' Es Hr Hl Hp. split; [done|]. intros s Hs. rewrite Es in Hs. destruct (I s Hs) as [Iw Ik Ip].
  split; [done| |by eauto]. intros k. by rewrite Ik, Hr, live_keys_cons, Hl.
Qed.

Lemma no_index_inv W : vcore W -> v_set W = None -> vinv W.
Proof. intros C E. split; [done|]. rewrite E. done. Qed.

(** What a rollback leaves: the row without the entry. *)
Definition erased_in v n c c' : Prop :=
  exists W, upd v W (if nbr_live n then -1 else 0) c c' /\ vinv W /\ vrow (view c v) ≡ₚ n :: vrow W.

Lemma erased_inv v n c c' : csr_inv c -> (v < vertex_capacity c)%nat -> erased_in v n c c' -> csr_inv c'.
Proof.
  intros I Hv (W & U & V & Hr). eapply csr_inv_upd; [done|exact U|by eapply upd_lt|done|].
  unfold nlive. rewrite Hr, count_live_cons. destruct (nbr_live n); lia.
Qed.

(** The index rebuilt where there is one. *)
Definition vrefresh W : View := match v_set W with Some _ => vrebuild W | None => W end.

Lemma vrefresh_inv W : vcore W -> vinv (vrefresh W).
Proof. intros C. unfold vrefresh. destruct (v_set W) eqn:E; [by apply vinv_rebuild|by apply no_index_inv]. Qed.

Lemma vrefresh_row W : vrow (vrefresh W) = vrow W.
Proof. unfold vrefresh. by destruct (v_set W). Qed.

Lemma upd_refresh v c :
  geom c -> (v < vertex_capacity c)%nat ->
  upd v (vrefresh (view c v)) 0 c
    (match ls_get (live_sets c) v with Some _ => rebuild_live_set_for_vertex v c | None => c end).
Proof.
  intros G Hv. unfold vrefresh. change (v_set (view c v)) with (ls_get (live_sets c) v).
  destruct (ls_get (live_sets c) v); [by apply upd_rebuild|by apply upd_refl].
Qed.

Lemma upd_close_gap v i c :
  geom c -> (v < vertex_capacity c)%nat -> (i < degree_of c v)%nat ->
  let shift {A} (gap : A) (l : list A) :=
    <[(offset_of c v + (degree_of c v - 1))%nat := gap]>
      (take (offset_of c v + i) l ++ slice (offset_of c v + i + 1) (offset_of c v + degree_of c v) l ++
       drop (offset_of c v + degree_of c v - 1) l) in
  upd v (verase i (view c v)) 0 c
    (set_degree v (degree_of c v - 1) (set_lists (shift hot_dead_gap (hot_list c)) (shift cold_dead_gap (cold_list c)) c)).
Proof.
  intros G Hv Hi. cbn zeta. destruct (g_row _ G v) as [Hd Ho]. pose proof (g_cold _ G) as Gc.
  rewrite !(shift_splice (offset_of c v) (capacity_of c v)) by lia. rewrite <- map_hot_block, <- map_cold_block by done.
  change hot_dead_gap with (hot dead_gap). change cold_dead_gap with (cold dead_gap). rewrite <- !close_gap_map.
  apply (upd_step0 (with_deg (degree_of c v - 1)) v (with_block (close_gap i (degree_of c v) dead_gap (block c v)) (view c v)) _ _
    (put_block v (close_gap i (degree_of c v) dead_gap (block c v)) c)).
  - apply upd_put_block; [done|]. rewrite close_gap_length, block_length by (rewrite ?block_length; done || lia). done.
  - intros G1. apply upd_set_degree; [done|done|]. etrans; [|exact Hd]. lia.
Qed.

Lemma erase_primary_spec v i n c :
  csr_inv c -> (v < vertex_capacity c)%nat -> vprim (view c v) !! i = Some n -> erased_in v n c (erase_primary v i n c).
Proof.
  intros [G R _] Hv Hi. pose proof (R v) as V. pose proof (verase_row i n _ (vi_core _ V) Hi) as Hr.
  pose proof (verase_core i n _ (vi_core _ V) Hi) as C'. pose proof (vprim_lookup _ _ _ Hi) as [Hb Hd].
  pose proof (upd_close_gap v i c G Hv Hd) as U. cbn zeta in U. unfold erase_primary, erased_in. rewrite window_start by done.
  set (c1 := set_degree _ _ _) in *.
  assert (U2 : upd v (verase i (view c v)) 0 c (invalidate_reuse_hint v c1)) by (eapply upd_quiet; [exact U|apply upd_invalidate]).
  destruct (nbr_live n) eqn:Hl.
  - exists (vrefresh (verase i (view c v))). split_and!; [|by apply vrefresh_inv|by rewrite vrefresh_row].
    change (-1) with (0 + (-1)). eapply (upd_step (fun W => W)); [|apply upd_edges]. eapply (upd_step0 vrefresh).
    + eapply upd_quiet; [exact U2|apply upd_drop_live].
    + intros G3. apply upd_refresh; [done|]. exact Hv.
  - exists (verase i (view c v)). split_and!; [eapply upd_quiet; [exact U2|apply upd_drop_tomb]| |done].
    eapply dead_gone_inv; try done. intros j. apply verase_prim_ok. destruct V as [[] _]. simpl in *. lia.
Qed.

(** ** Chunks without a slot *)

Lemma swap_remove_perm {A} i (x : A) l : l !! i = Some x -> l ≡ₚ x :: swap_remove i l.
Proof.
  intros Hi. unfold swap_remove. destruct l as [|a l0] using rev_ind; [done|]. clear IHl0. rewrite last_snoc.
  rewrite length_app. simpl. replace (pred (length l0 + 1)) with (length l0) by lia.
  destruct (decide (i = length l0)) as [->|Hne].
  - rewrite lookup_app_r, Nat.sub_diag in Hi by lia. simplify_eq/=. rewrite insert_app_r_alt by lia.
    rewrite take_app_length. rewrite Permutation_app_comm. done.
  - assert (Hlt : (i < length l0)%nat) by (apply lookup_lt_Some in Hi; rewrite length_app in Hi; simpl in Hi; lia).
    rewrite lookup_app_l in Hi by done. rewrite insert_app_l by done. rewrite take_app_length' by by rewrite length_insert.
    rewrite <- (take_drop_middle l0 i x Hi) at 1. rewrite insert_take_drop by done.
    rewrite <- app_assoc. simpl. rewrite <- Permutation_middle. constructor.
    rewrite (Permutation_app_comm (drop (S i) l0)). simpl. done.
Qed.

Lemma swap_remove_zip i (h : list HotNbr) (k : list ColdStamps) :
  length k = length h -> (i < length h)%nat ->
  zip_with from_parts (swap_remove i h) (swap_remove i k) = swap_remove i (zip_with from_parts h k).
Proof.
  intros Hl Hi. unfold swap_remove.
  destruct h as [|x h] using rev_ind; [simpl in Hi; lia|]. destruct k as [|y k] using rev_ind; [rewrite length_app in Hl; simpl in Hl; lia|].
  clear IHh IHk. rewrite !length_app in Hl. simpl in Hl. assert (Hhk : length h = length k) by lia.
  rewrite zip_with_app by done. simpl. rewrite !last_snoc, !length_app, length_zip_with. simpl.
  rewrite <- Hhk, Nat.min_id, <- zip_with_take. f_equal.
  change [from_parts x y] with (zip_with from_parts [x] [y]). rewrite <- zip_with_app by done.
  rewrite length_app in Hi. simpl in Hi. apply list_eq. intros j. rewrite lookup_zip_with. destruct (decide (i = j)) as [<-|Hne].
  - rewrite !list_lookup_insert_eq by (rewrite ?length_zip_with, ?length_app; simpl; lia). done.
  - rewrite !list_lookup_insert_ne by done. by rewrite lookup_zip_with.
Qed.

Lemma ch_remove_spec i ch n :
  ch_ok ch -> ch_slots ch !! i = Some n -> ch_ok (ch_remove i ch) /\ ch_slots ch ≡ₚ n :: ch_slots (ch_remove i ch).
Proof.
  intros Ho Hi. pose proof (lookup_lt_Some _ _ _ Hi) as Hlt. rewrite ch_slots_length in Hlt by done. unfold ch_len in Hlt.
  unfold ch_ok in *. assert (E : ch_slots (ch_remove i ch) = swap_remove i (ch_slots ch)) by by apply swap_remove_zip.
  split; [|rewrite E; by apply swap_remove_perm]. simpl. unfold swap_remove.
  destruct (ch_hot ch) as [|h hs] eqn:Eh; [simpl in Hlt; lia|]. destruct (ch_cold ch) as [|k ks] eqn:Ek; [done|].
  destruct (last (h :: hs)) as [x|] eqn:E1; [|by apply last_None in E1].
  destruct (last (k :: ks)) as [y|] eqn:E2; [|by apply last_None in E2].
  rewrite !length_take, !length_insert. simpl in *. lia.
Qed.

Lemma detach_slot_spec j i ch n cs :
  Forall ch_ok cs -> cs !! j = Some ch -> ch_slots ch !! i = Some n ->
  Forall ch_ok (detach_slot j i cs).1 /\
  concat (map ch_slots cs) ≡ₚ n :: concat (map ch_slots (detach_slot j i cs).1).
Proof.
  intros Hc Hj Hi. assert (Ho : ch_ok ch) by by eapply (proj1 (Forall_lookup _ _) Hc).
  destruct (ch_remove_spec i ch n Ho Hi) as [Hr Hp]. unfold detach_slot.
  assert (Ea : alter (ch_remove i) j cs = take j cs ++ ch_remove i ch :: drop (S j) cs).
  { rewrite <- insert_take_drop by by eapply lookup_lt_Some. apply list_eq. intros m. destruct (decide (j = m)) as [<-|Hne].
    - rewrite list_lookup_alter_eq, Hj, list_lookup_insert_eq by by eapply lookup_lt_Some. done.
    - by rewrite list_lookup_alter_ne, list_lookup_insert_ne. }
  rewrite Ea. pose proof (lookup_lt_Some _ _ _ Hj) as Hlt.
  assert (Ht : length (take j cs) = j) by (rewrite length_take; lia).
  rewrite lookup_app_r, Ht, Nat.sub_diag by lia. cbn [lookup list_lookup].
  assert (Hf : Forall ch_ok (take j cs ++ ch_remove i ch :: drop (S j) cs)).
  { apply Forall_app. split; [by apply Forall_take|]. constructor; [done|by apply Forall_drop]. }
  assert (Hcc : concat (map ch_slots cs) ≡ₚ n :: concat (map ch_slots (take j cs ++ ch_remove i ch :: drop (S j) cs))).
  { rewrite <- (take_drop_middle cs j ch Hj) at 1. rewrite !map_app, !concat_app. simpl. rewrite Hp. simpl.
    symmetry. apply Permutation_middle. }
  case_decide as He; [|done]. cbn [fst]. rewrite <- ch_slots_length in He by done. apply length_zero_iff_nil in He.
  assert (Ed : delete j (take j cs ++ ch_remove i ch :: drop (S j) cs) = take j cs ++ drop (S j) cs).
  { rewrite <- Ht at 1. by rewrite delete_middle. }
  rewrite Ed. apply Forall_app in Hf as [H1 H2]. apply Forall_cons in H2 as [_ H2]. split; [by apply Forall_app|].
  rewrite Hcc, !map_app, !concat_app. simpl. by rewrite He.
Qed.

Lemma over_core o n W :
  vcore W -> Forall ch_ok (default [] o) -> concat (map ch_slots (vchunks W)) ≡ₚ n :: concat (map ch_slots (default [] o)) ->
  vcore (with_over o W) /\ vrow W ≡ₚ n :: vrow (with_over o W).
Proof.
  intros [Cd Cc Cn Cs] Ho Hp. assert (Hr : vrow W ≡ₚ n :: vrow (with_over o W)).
  { unfold vrow. rewrite Hp. symmetry. apply Permutation_middle. }
  split; [|done]. split; [done|done| |done]. rewrite Hr, live_keys_cons in Cn.
  destruct (nbr_live n); [by apply NoDup_cons in Cn as [_ ?]|done].
Qed.

Lemma upd_uncount v W n d c c1 :
  upd v W d c c1 -> upd v W (d + if nbr_live n then -1 else 0) c
    (if nbr_live n then drop_live v (add_edges (-1) c1) else drop_tomb v c1).
Proof.
  intros U. destruct (nbr_live n).
  - eapply upd_quiet; [|apply upd_drop_live]. eapply (upd_step (fun W => W)); [exact U|apply upd_edges].
  - rewrite Z.add_0_r. eapply upd_quiet; [exact U|apply upd_drop_tomb].
Qed.

Lemma erase_overflow_spec v j i ch n c :
  csr_inv c -> (v < vertex_capacity c)%nat -> vchunks (view c v) !! j = Some ch -> ch_slots ch !! i = Some n ->
  erased_in v n c (erase_overflow v j i n c).
Proof.
  intros [G R _] Hv Hj Hi. pose proof (R v) as V. pose proof (vi_core _ V) as C.
  destruct (detach_slot_spec j i ch n _ (vc_chunks _ C) Hj Hi) as [Hc Hp]. unfold erase_overflow, erased_in.
  change (chunks_of c v) with (vchunks (view c v)). destruct (detach_slot j i (vchunks (view c v))) as [cs freed].
  cbn [fst] in *. set (c1 := set_overflow (ot_get_mut (fun _ => cs) v (overflow_chunks c)) c).
  assert (U1 : upd v (with_over (Some cs) (view c v)) 0 c c1).
  { pose proof (upd_get_mut v (fun _ => cs) c G Hv) as U. unfold vchunks in Hj. by destruct (v_over (view c v)). }
  set (c2 := match freed with Some cap => sub_capacity cap c1 | None => c1 end).
  assert (U2 : upd v (with_over (Some cs) (view c v)) 0 c c2).
  { unfold c2. destruct freed; [|done]. eapply upd_quiet; [exact U1|apply upd_sub_capacity]. }
  destruct (over_core (Some cs) n (view c v) C Hc Hp) as [C' Hr]. destruct cs as [|ch' cs].
  - exists (vrebuild (with_over None (view c v))). split_and!; [|by apply vinv_rebuild; destruct C'; split|done].
    set (W0 := view c v) in *. eapply (upd_step0 vrebuild).
    + apply (upd_step0 (with_over None) v (with_over (Some []) W0) _ _ _ _ (upd_uncount v _ n 0 _ _ U2)). intros G3.
      match goal with |- upd _ _ _ ?c3 _ => pose proof (ot_remove_spec (overflow_chunks c3) v (g_over _ G3)) as (Hw & _ & Hg) end.
      apply upd_over; [done| |done|done]. eapply upd_lt; [exact (upd_uncount v _ n 0 _ _ U2)|done].
    + intros G4. apply upd_rebuild; [done|]. unfold vertex_capacity in *. by destruct (nbr_live n), freed.
  - set (cs' := ch' :: cs) in *. destruct (nbr_live n) eqn:Hl.
    + exists (vrefresh (with_over (Some cs') (view c v))). split_and!; [|by apply vrefresh_inv|by rewrite vrefresh_row].
      change (-1) with (0 + (-1)). eapply upd_quiet; [|apply upd_drop_live].
      eapply (upd_step (fun W => W)); [|apply upd_edges]. eapply (upd_step0 vrefresh); [exact U2|]. intros G3.
      apply upd_refresh; [done|by eapply upd_lt].
    + exists (with_over (Some cs') (view c v)). split_and!; [eapply upd_quiet; [exact U2|apply upd_drop_tomb]| |done].
      by eapply dead_gone_inv.
Qed.

Lemma rollback_insert_cases c v eid :
  csr_inv c ->
  let '(c', b) := rollback_insert v eid c in
  match first_id eid (row c v) with
  | None => b = false /\ c' = c
  | Some n => b = true /\ (v < vertex_capacity c)%nat /\ erased_in v n c c'
  end.
Proof.
  intros I. pose proof I as [G R _]. unfold rollback_insert. rewrite row_view by done. case_decide as Hv.
  { unfold vrow, vprim, vchunks. simpl. destruct (block_nil c v G Hv) as [-> ->]. by rewrite (g_over_dom _ G v Hv). }
  apply not_le in Hv. unfold vrow. rewrite first_id_app, <- find_id_first, primary_view by done.
  destruct (find_id eid (vprim (view c v))) as [[i n]|] eqn:Ef; simpl.
  - apply list_find_Some in Ef as (Hi & _ & _). split_and!; [done|done|]. by apply erase_primary_spec.
  - pose proof (scan_chunks_first eid 0 (chunks_of c v)) as Hs. change (vchunks (view c v)) with (chunks_of c v).
    destruct (scan_chunks eid 0 (chunks_of c v)) as [[[j i] n]|]; [|by rewrite Hs].
    destruct Hs as (-> & _ & ch & Hj & Hi). rewrite Nat.sub_0_r in Hj. split_and!; [done|done|].
    by eapply erase_overflow_spec.
Qed.


(** ** Every live entry of a key stamped *)

Definition matches (k : Z * Z) n : bool := nbr_live n && has_key k n.

Definition vstamp_key k ts W : View :=
  with_over (option_map (map (ch_stamp_matches k ts)) (v_over W))
    (with_block (map (stamp_matches k ts) (vprim W) ++ drop (v_deg W) (v_block W)) W).

Lemma stamp_matches_hot k ts n : hot (stamp_matches k ts n) = hot n.
Proof. unfold stamp_matches. by destruct (nbr_live n && has_key k n). Qed.

Lemma stamp_matches_key k ts n : nbr_key (stamp_matches k ts n) = nbr_key n.
Proof. unfold stamp_matches. by destruct (nbr_live n && has_key k n). Qed.

Lemma zip_stamp k ts h cd :
  zip_with (stamp_cold_matches k ts) h cd = map cold (map (stamp_matches k ts) (zip_with from_parts h cd)).
Proof. revert cd. induction h as [|x h IH]; intros [|y cd]; simpl; [done..|]. by rewrite IH. Qed.

Lemma ch_stamp_matches_slots k ts ch :
  ch_ok ch -> ch_ok (ch_stamp_matches k ts ch) /\ ch_slots (ch_stamp_matches k ts ch) = map (stamp_matches k ts) (ch_slots ch).
Proof.
  intros Ho. unfold ch_ok in *. split; [simpl; rewrite length_zip_with; lia|]. unfold ch_slots. simpl. rewrite zip_stamp.
  rewrite <- (map_hot_zip (ch_hot ch) (ch_cold ch)) at 1 by done.
  rewrite <- (zip_map_parts (map (stamp_matches k ts) _)). f_equal; [|by rewrite zip_map_parts].
  rewrite map_map. apply map_ext. intros n. by rewrite stamp_matches_hot.
Qed.

Lemma chunks_stamp k ts cs :
  Forall ch_ok cs -> Forall ch_ok (map (ch_stamp_matches k ts) cs) /\
  concat (map ch_slots (map (ch_stamp_matches k ts) cs)) = map (stamp_matches k ts) (concat (map ch_slots cs)).
Proof.
  induction 1 as [|ch cs Ho _ [IH1 IH2]]; [done|]. destruct (ch_stamp_matches_slots k ts ch Ho) as [H1 H2].
  split; [by constructor|]. simpl. by rewrite map_app, H2, IH2.
Qed.

Lemma vstamp_key_prim k ts W : vcore W -> vprim (vstamp_key k ts W) = map (stamp_matches k ts) (vprim W).
Proof.
  intros C. unfold vprim at 1, vstamp_key. simpl. apply take_app_length'. rewrite length_map. unfold vprim.
  rewrite length_take. pose proof (vc_deg _ C). lia.
Qed.

Lemma vstamp_key_row k ts W : vcore W -> vrow (vstamp_key k ts W) = map (stamp_matches k ts) (vrow W).
Proof.
  intros C. unfold vrow. rewrite vstamp_key_prim, map_app by done. f_equal. unfold vchunks, vstamp_key. simpl.
  pose proof (vc_chunks _ C) as Hc. unfold vchunks in Hc. destruct (v_over W) as [cs|]; [|done]. by apply chunks_stamp.
Qed.

Lemma stamp_matches_live k ts n : ts <> TS_MAX -> nbr_live (stamp_matches k ts n) = nbr_live n && negb (has_key k n).
Proof.
  intros Hts. unfold stamp_matches. destruct (nbr_live n && has_key k n) eqn:E; unfold nbr_live at 1; simpl.
  - apply andb_true_iff in E as [-> ->]. by apply bool_decide_eq_false.
  - fold (nbr_live n). destruct (nbr_live n); [simpl in *; by rewrite E|done].
Qed.

Lemma live_keys_stamp k ts l :
  ts <> TS_MAX -> live_keys (map (stamp_matches k ts) l) = List.filter (fun k' => negb (bool_decide (k' = k))) (live_keys l).
Proof.
  intros Hts. induction l as [|n l IH]; [done|]. simpl. rewrite !live_keys_cons, IH, stamp_matches_live, stamp_matches_key by done.
  destruct (nbr_live n); [|done]. simpl. unfold has_key. by destruct (bool_decide _).
Qed.

Lemma count_stamp k ts l :
  ts <> TS_MAX -> count_live l = (count_live (map (stamp_matches k ts) l) + length (List.filter (matches k) l))%nat.
Proof.
  intros Hts. induction l as [|n l IH]; [done|]. cbn [map]. rewrite !count_live_cons, stamp_matches_live, IH by done.
  cbn [List.filter]. unfold matches at 2. destruct (nbr_live n); simpl; [|lia]. destruct (has_key k n); simpl; lia.
Qed.

Lemma vstamp_key_inv k ts W :
  vinv W -> ts <> TS_MAX ->
  vinv (vtrack_remove k (vstamp_key k ts W)) /\ (List.filter (matches k) (vrow W) = [] -> vinv (vstamp_key k ts W)).
Proof.
  intros [C I] Hts. pose proof (vstamp_key_row k ts W C) as Hr. pose proof C as [Cd Cc Cn Cs].
  assert (C' : vcore (vstamp_key k ts W)).
  { split.
    - simpl. rewrite length_app, length_map, length_drop. unfold vprim. rewrite length_take. lia.
    - unfold vchunks, vstamp_key. simpl. unfold vchunks in Cc. destruct (v_over W); [|done]. by apply chunks_stamp.
    - rewrite Hr, live_keys_stamp by done. apply NoDup_ListNoDup, List.NoDup_filter, NoDup_ListNoDup. done.
    - intros Hs. rewrite vstamp_key_prim, key_sorted_map, map_map by done.
      erewrite map_ext by (intros; apply stamp_matches_key). apply key_sorted_map, Cs, Hs. }
  assert (Hk : forall k', k' ∈ live_keys (vrow (vstamp_key k ts W)) <-> k' <> k /\ k' ∈ live_keys (vrow W)).
  { intros k'. rewrite Hr, live_keys_stamp by done. rewrite list_elem_of_In, filter_In, <- list_elem_of_In.
    rewrite negb_true_iff, bool_decide_eq_false. tauto. }
  assert (Hp : forall i, prim_ok W i -> prim_ok (vstamp_key k ts W) i).
  { intros i [Hi Hd]. unfold prim_ok, vstamp_key. simpl. unfold vprim.
    rewrite length_app, length_map, length_drop, length_take. split; [lia|]. intros Hge n Hn. apply (Hd Hge).
    rewrite lookup_app_r in Hn by (rewrite length_map, length_take; lia).
    rewrite length_map, length_take, lookup_drop in Hn. rewrite <- Hn. f_equal. lia. }
  split.
  - apply vinv_track_remove; [done|]. intros s Hs. destruct (I s Hs) as [Iw Ik Ip]. split_and!; [done| |by eauto].
    intros k'. by rewrite Hk, Ik.
  - intros Hnone. split; [done|]. intros s Hs. destruct (I s Hs) as [Iw Ik Ip]. split; [done| |by eauto].
    intros k'. rewrite Hk, Ik. split; [|tauto]. intros Hin. split; [|done]. intros ->.
    apply existsb_live, existsb_exists in Hin as (n & Hn & Hm). assert (Hc : In n (List.filter (matches k) (vrow W))) by by apply filter_In.
    by rewrite Hnone in Hc.
Qed.

Lemma match_positions_ids k pos i l : map fst (match_positions k pos i l) = map edge_id (List.filter (matches k) l).
Proof.
  revert i. induction l as [|n l IH]; intros i; [done|]. cbn [match_positions List.filter]. unfold matches at 1.
  destruct (nbr_live n && has_key k n); simpl; by rewrite IH.
Qed.

Lemma match_chunks_ids k j cs :
  map fst (match_chunks k j cs) = map edge_id (List.filter (matches k) (concat (map ch_slots cs))).
Proof.
  revert j. induction cs as [|ch cs IH]; intros j; [done|]. simpl.
  by rewrite map_app, match_positions_ids, IH, List.filter_app, map_app.
Qed.

Lemma splice_short {A} (a n : nat) (x l : list A) :
  (length x <= n)%nat -> (a + n <= length l)%nat -> splice a (x ++ drop (length x) (take n (drop a l))) l = splice a x l.
Proof.
  intros Hx Hl. unfold splice. rewrite length_app, length_drop, length_take, length_drop, Nat.min_l by lia.
  rewrite <- app_assoc. do 2 f_equal. rewrite skipn_firstn_comm.
  assert (E : drop (length x) (drop a l) = drop (a + length x) l) by (rewrite drop_drop; f_equal; lia).
  assert (E2 : drop (a + (length x + (n - length x))) l = drop (n - length x) (drop (a + length x) l)) by (rewrite drop_drop; f_equal; lia).
  rewrite E, E2. apply take_drop.
Qed.

Lemma upd_stamp_window v k ts c :
  geom c -> vcore (view c v) ->
  upd v (with_block (map (stamp_matches k ts) (vprim (view c v)) ++ drop (degree_of c v) (block c v)) (view c v)) 0 c
    (set_lists (hot_list c)
       (splice (offset_of c v) (map cold (map (stamp_matches k ts) (vprim (view c v)))) (cold_list c)) c).
Proof.
  intros G C. destruct (g_row _ G v) as [Hd Ho]. pose proof (g_cold _ G) as Gc. pose proof (block_length c v G) as Hb.
  set (b := map (stamp_matches k ts) (vprim (view c v)) ++ drop (degree_of c v) (block c v)).
  assert (Hl : length (vprim (view c v)) = degree_of c v) by (unfold vprim; simpl; rewrite length_take; lia).
  assert (E : set_lists (hot_list c) (splice (offset_of c v) (map cold (map (stamp_matches k ts) (vprim (view c v)))) (cold_list c)) c
    = put_block v b c).
  { unfold put_block. f_equal.
    - assert (Eh : map hot b = map hot (block c v)).
      { unfold b. rewrite map_app, map_map. erewrite map_ext by (intros; apply stamp_matches_hot).
        rewrite <- map_app. f_equal. apply take_drop. }
      rewrite Eh, map_hot_block by done. symmetry. apply splice_id. done.
    - unfold b. rewrite map_app, <- skipn_map, map_cold_block by done.
      rewrite <- (splice_short _ (capacity_of c v)) by (rewrite ?length_map, ?Hl; lia). by rewrite !length_map, Hl. }
  rewrite E. apply upd_put_block; [done|]. unfold b. rewrite length_app, length_map, length_drop. lia.
Qed.


Lemma upd_repeat v m (f : MutableCsr -> MutableCsr) c :
  (forall c, geom c -> upd v (view c v) 0 c (f c)) -> geom c -> upd v (view c v) 0 c (repeat_fn m f c).
Proof.
  intros Hf G. unfold repeat_fn. induction m as [|m IH]; simpl; [by apply upd_refl|]. eapply upd_quiet; [exact IH|apply Hf].
Qed.

(** The key gone from the row. *)
Definition key_stamped_in v k ts c c' (d : Z) : Prop :=
  exists W, upd v W d c c' /\ vinv W /\ vrow W = map (stamp_matches k ts) (vrow (view c v)).

Lemma key_stamped_inv v k ts c c' :
  csr_inv c -> (v < vertex_capacity c)%nat -> ts <> TS_MAX ->
  key_stamped_in v k ts c c' (- Z.of_nat (length (List.filter (matches k) (vrow (view c v))))) -> csr_inv c'.
Proof.
  intros I Hv Hts (W & U & V & Hr). eapply csr_inv_upd; [done|exact U|by eapply upd_lt|done|].
  unfold nlive. rewrite Hr. rewrite (count_stamp k ts (vrow (view c v))) by done. lia.
Qed.

Lemma delete_by_dst_cases c v dst k ts :
  csr_inv c -> ts <> TS_MAX -> decode_endpoint_pair dst = Some k ->
  let '(c', deleted) := delete_edge_by_dst v dst ts c in
  map fst deleted = map edge_id (List.filter (matches k) (row c v)) /\
  ((vertex_capacity c <= v)%nat /\ c' = c \/
   (v < vertex_capacity c)%nat /\ key_stamped_in v k ts c c' (- Z.of_nat (length deleted))).
Proof.
  intros I Hts Hk. pose proof I as [G R _]. pose proof (R v) as V. unfold delete_edge_by_dst. rewrite Hk.
  rewrite row_view by done. case_decide as Hv.
  { split; [|by left]. unfold vrow, vprim, vchunks. simpl. destruct (block_nil c v G Hv) as [-> ->].
    by rewrite (g_over_dom _ G v Hv). }
  apply not_le in Hv. rewrite (primary_window_geom c v G Hv). set (prim := match_positions _ _ _ _).
  set (over := match_chunks _ _ _). rewrite zip_stamp.
  assert (Ep : zip_with from_parts (slice (offset_of c v) (offset_of c v + degree_of c v) (hot_list c))
      (slice (offset_of c v) (offset_of c v + degree_of c v) (cold_list c)) = vprim (view c v)).
  { rewrite <- primary_view by done. unfold primary. by rewrite primary_window_geom. }
  rewrite Ep. set (c1 := set_lists _ _ c). pose proof (upd_stamp_window v k ts c G (vi_core _ V)) as U1. fold c1 in U1.
  assert (Hids : map fst (prim ++ over) = map edge_id (List.filter (matches k) (vrow (view c v)))).
  { unfold prim, over, vrow. by rewrite map_app, match_positions_ids, match_chunks_ids, List.filter_app, map_app, primary_view. }
  split; [done|]. right. split; [done|]. set (del := prim ++ over) in *.
  set (c2 := set_overflow _ c1). set (c4 := repeat_fn _ _ _).
  assert (U4 : upd v (vstamp_key k ts (view c v)) (- Z.of_nat (length del)) c c4).
  { unfold c4. eapply upd_quiet.
    - replace (- Z.of_nat (length del)) with (0 + - Z.of_nat (length del)) by lia.
      eapply (upd_step (fun W => W)); [|apply upd_edges].
      apply (upd_step0 (fun W => with_over (option_map (map (ch_stamp_matches k ts)) (v_over W)) W) _ _ _ _ _ _ U1).
      intros G1. apply upd_get_mut; [done|exact Hv].
    - intros G3. apply upd_repeat; [|done]. intros c' G'. eapply upd_quiet; [by apply upd_drop_live|apply upd_bump_tomb]. }
  set (c5 := match prim with | (_, PosPrimary slot) :: _ => _ | _ => _ end).
  assert (U5 : upd v (vstamp_key k ts (view c v)) (- Z.of_nat (length del)) c c5).
  { unfold c5. destruct prim as [|[? [s|? ?]] ?]; try exact U4. eapply upd_quiet; [exact U4|apply upd_note]. }
  destruct (vstamp_key_inv k ts _ V Hts) as [V1 V2]. destruct del as [|d0 del'] eqn:Ed.
  - exists (vstamp_key k ts (view c v)). split_and!; [exact U5| |by apply vstamp_key_row, V].
    apply V2. simpl in Hids. symmetry in Hids. by apply map_eq_nil in Hids.
  - exists (vtrack_remove k (vstamp_key k ts (view c v))). split_and!; [|exact V1|].
    + eapply (upd_step0 (vtrack_remove k)); [exact U5|]. intros G5. apply upd_track_remove; [done|by eapply upd_lt].
    + rewrite vrow_track_remove. apply vstamp_key_row, V.
Qed.


End erase.
End CsrErase.
