(* ===== verification/CsrMaintain.v ===== *)
(** * Maintenance of rows

    Clearing, ordering and rebalancing keep the invariant of the store and, up to
    order, the entries of every row. *)

From stdpp Require Import base gmap list sorting strings.
From Stdlib Require Import ZArith Lia SpecFloat.
From S2P Require Import Prelude Types Watermarks IndexManifest CsrShared MutableCsr CsrView CsrInv CsrDelete.

Module CsrMaintain.
Import CsrShared CsrSharedFacts Csr CsrRead CsrRows CsrIndex CsrView CsrUpd CsrRowInv CsrPush CsrInsert CsrInv CsrDelete CsrErase.

Section maintain.
Context `{Allocator}.
Implicit Types (c : MutableCsr) (v : nat) (W : View) (n : Nbr).

(** ** Clearing and the cutoff *)

Lemma set_cutoff_inv ts c : csr_inv c -> csr_inv (set_cutoff ts c).
Proof. intros [G R E]. split; [geom_same G|exact R|exact E]. Qed.

Lemma csr_clear_view c v : geom c -> view (csr_clear c) v = mkView (block c v) 0 None None true.
Proof.
  intros G. unfold view. f_equal.
  - unfold degree_of. simpl. apply at0_replicate.
  - unfold ls_get. simpl. apply seg_get_clear.
  - simpl. destruct (replicate _ true !! v) eqn:E; [|done]. by apply lookup_replicate in E as [-> _].
Qed.

Lemma csr_clear_inv c : csr_inv c -> csr_inv (csr_clear c).
Proof.
  intros [G R E]. assert (V : forall v, view (csr_clear c) v = mkView (block c v) 0 None None true) by (intros; by apply csr_clear_view).
  split.
  - destruct G. split; unfold vertex_capacity in *; simpl; rewrite ?length_replicate; try done.
    + intros v. destruct (g_row0 v). unfold degree_of. simpl. rewrite at0_replicate.
      change (capacity_of (csr_clear c)) with (capacity_of c). change (offset_of (csr_clear c)) with (offset_of c). lia.
    + by apply ot_clear_spec.
    + by apply seg_clear_wf.
    + intros v _. unfold ls_get. simpl. apply seg_get_clear.
  - intros v. rewrite V. split; [|done]. split; simpl; [lia|constructor|constructor|constructor].
  - simpl. unfold csr_total. rewrite total_zero; [done|]. intros v. by rewrite V.
Qed.

(** ** A permuted row *)

(** A write that permutes a row (and rebuilds its index) keeps the invariant. *)
Lemma csr_inv_perm v W c c' :
  csr_inv c -> upd v W 0 c c' -> vinv W -> vrow W ≡ₚ vrow (view c v) -> csr_inv c' /\ row c' v ≡ₚ row c v.
Proof.
  intros I U V Hr. pose proof I as [G R _]. split.
  - destruct (decide (v < vertex_capacity c')%nat) as [Hv|Hv].
    + eapply csr_inv_upd; [done|exact U|done|done|]. unfold nlive. rewrite Hr. lia.
    + assert (Hw : forall w, nlive (view c' w) = nlive (view c w)).
      { intros w. rewrite (u_view _ _ _ _ _ U). case_decide; [subst|done]. unfold nlive. by rewrite Hr. }
      split; [apply U|intros w; rewrite (u_view _ _ _ _ _ U); case_decide; [done|apply R]|].
      rewrite (u_edges _ _ _ _ _ U), (ci_count _ I). unfold csr_total.
      rewrite (total_ext (fun v => nlive (view c' v)) (fun v => nlive (view c v))) by (intros; apply Hw).
      rewrite <- (total_extend (fun v => nlive (view c v)) (vertex_capacity c) (vertex_capacity c')); [lia|apply U|].
      intros w Hle. by apply nlive_out.
  - rewrite !row_view by (done || apply U). by rewrite (upd_at _ _ _ _ _ U).
Qed.

(** The primary window of a row rewritten. *)
Lemma upd_window v p c :
  geom c -> length p = degree_of c v ->
  upd v (with_block (p ++ drop (degree_of c v) (block c v)) (view c v)) 0 c
    (set_lists (splice (offset_of c v) (map hot p) (hot_list c)) (splice (offset_of c v) (map cold p) (cold_list c)) c).
Proof.
  intros G Hp. destruct (g_row _ G v) as [Hd Ho]. pose proof (g_cold _ G) as Gc. pose proof (block_length c v G) as Hb.
  rewrite <- (splice_short (offset_of c v) (capacity_of c v) (map hot p)) by (rewrite ?length_map; lia).
  rewrite <- (splice_short (offset_of c v) (capacity_of c v) (map cold p)) by (rewrite ?length_map; lia).
  rewrite <- map_hot_block, <- map_cold_block, !length_map, Hp, !skipn_map, <- !map_app by done.
  apply upd_put_block; [done|]. rewrite length_app, length_drop. lia.
Qed.

(** ** Ordering *)

Lemma hot_le_spec a b :
  hot_le a b = true <-> h_endpoint a < h_endpoint b \/ (h_endpoint a = h_endpoint b /\
    (h_rank a < h_rank b \/ (h_rank a = h_rank b /\ h_edge_id a <= h_edge_id b))).
Proof.
  unfold hot_le. rewrite orb_true_iff, andb_true_iff, key_lt_spec, !bool_decide_eq_true. simpl. split.
  - intros [?|[E ?]]; [lia|]. simplify_eq. lia.
  - intros Hx. destruct (decide (h_endpoint a = h_endpoint b /\ h_rank a = h_rank b)) as [[E1 E2]|]; [right; split; [congruence|lia]|left; lia].
Qed.

#[local] Instance nbr_hot_le_trans : Transitive nbr_hot_le.
Proof. intros a b d. unfold nbr_hot_le. rewrite !hot_le_spec. lia. Qed.
#[local] Instance nbr_hot_le_total : Total nbr_hot_le.
Proof. intros a b. unfold nbr_hot_le. rewrite !hot_le_spec. lia. Qed.

Lemma hot_sorted_key l : StronglySorted nbr_hot_le l -> key_sorted l.
Proof.
  intros Hs. induction Hs as [|n l _ IH Hn]; [constructor|]. constructor; [done|]. eapply Forall_impl; [exact Hn|].
  intros m Hm. unfold nbr_hot_le in Hm. rewrite hot_le_spec in Hm. apply key_le_spec. simpl in *. lia.
Qed.

Lemma ordered_sorted l : ordered hot_le (map hot l) = true -> StronglySorted nbr_hot_le l.
Proof.
  intros Ho. apply (Sorted_StronglySorted nbr_hot_le). induction l as [|a l IH]; [constructor|].
  destruct l as [|b l]; [by repeat constructor|]. cbn [map ordered] in Ho. apply andb_true_iff in Ho as [Hab Ho].
  constructor; [by apply IH|]. by constructor.
Qed.

Lemma slice_primary c v :
  geom c -> zip_with from_parts (slice (offset_of c v) (offset_of c v + degree_of c v) (hot_list c))
    (slice (offset_of c v) (offset_of c v + degree_of c v) (cold_list c)) = vprim (view c v) /\
  slice (offset_of c v) (offset_of c v + degree_of c v) (hot_list c) = map hot (vprim (view c v)).
Proof.
  intros G. destruct (g_row _ G v) as [Hd Ho]. pose proof (g_cold _ G) as Gc.
  assert (E : zip_with from_parts (slice (offset_of c v) (offset_of c v + degree_of c v) (hot_list c))
    (slice (offset_of c v) (offset_of c v + degree_of c v) (cold_list c)) = vprim (view c v)).
  { rewrite !slice_cap. unfold vprim, view, block, slots. simpl. rewrite take_take, Nat.min_l by lia.
    by rewrite zip_with_drop, zip_with_take. }
  split; [done|]. rewrite <- E. symmetry. apply map_hot_zip. rewrite !slice_length by lia. done.
Qed.

Lemma vinv_mark W : vinv W -> key_sorted (vprim W) -> vinv (with_sorted true W).
Proof.
  intros [C I] Hs. destruct C. split; [by split|]. intros s Es. destruct (I s Es). by split.
Qed.

Lemma mark_sorted_inv v c :
  csr_inv c -> key_sorted (vprim (view c v)) ->
  csr_inv (mark_primary_sorted v c) /\ row (mark_primary_sorted v c) v = row c v.
Proof.
  intros I Hs. pose proof I as [G R E]. destruct (decide (v < vertex_capacity c)%nat) as [Hv|Hv].
  - pose proof (upd_mark v true c G Hv) as U. split.
    + eapply csr_inv_upd; [done|exact U|done|by apply vinv_mark|]. change (nlive (with_sorted true (view c v))) with (nlive (view c v)). lia.
    + done.
  - unfold mark_primary_sorted. rewrite list_insert_ge by (rewrite (g_sorted _ G); lia). by destruct c.
Qed.

(** The primary block of a row rewritten in key order. *)
Lemma sorted_window v p c :
  csr_inv c -> (v < vertex_capacity c)%nat -> p ≡ₚ vprim (view c v) -> key_sorted p ->
  let c1 := set_lists (splice (offset_of c v) (map hot p) (hot_list c)) (splice (offset_of c v) (map cold p) (cold_list c)) c in
  let c' := rebuild_live_set_for_vertex v (mark_primary_sorted v (invalidate_reuse_hint v c1)) in
  csr_inv c' /\ row c' v ≡ₚ row c v /\ key_sorted (primary c' v) /\ forall w, w <> v -> row c' w = row c w.
Proof.
  intros I Hv Hp Hs. pose proof I as [G R E]. pose proof (block_length c v G) as Hb. destruct (g_row _ G v) as [Hd Ho].
  assert (Hlen : length p = degree_of c v) by (rewrite Hp; unfold vprim; simpl; rewrite length_take; lia).
  cbn zeta. set (c1 := set_lists _ _ c). pose proof (upd_window v p c G Hlen) as U1. fold c1 in U1.
  set (W1 := with_block _ _) in U1.
  assert (Hprim : vprim W1 = p) by (unfold vprim; simpl; by apply take_app_length').
  assert (Hr : vrow W1 ≡ₚ vrow (view c v)) by (unfold vrow; rewrite Hprim, Hp; done).
  assert (C1 : vcore (with_sorted true W1)).
  { destruct (R v) as [[Cd Cc Cn Cs] _]. split; [|done| |].
    - simpl. rewrite length_app, length_drop. simpl in Cd. lia.
    - change (vrow (with_sorted true W1)) with (vrow W1). by rewrite Hr.
    - intros _. change (vprim (with_sorted true W1)) with (vprim W1). by rewrite Hprim. }
  assert (U2 : upd v (vrebuild (with_sorted true W1)) 0 c
    (rebuild_live_set_for_vertex v (mark_primary_sorted v (invalidate_reuse_hint v c1)))).
  { eapply (upd_step0 vrebuild); [eapply (upd_step0 (with_sorted true)); [eapply upd_quiet; [exact U1|apply upd_invalidate]|]|].
    - intros G2. by apply upd_mark.
    - intros G3. by apply upd_rebuild. }
  destruct (csr_inv_perm v _ _ _ I U2 (vinv_rebuild _ C1) Hr) as [I' Hrow]. split_and!; [done|done| |].
  - rewrite primary_view by apply U2. rewrite (upd_at _ _ _ _ _ U2). change (key_sorted (vprim W1)). by rewrite Hprim.
  - intros w Hw. rewrite !row_view by (done || apply U2). by rewrite (upd_ne _ _ _ _ _ _ U2 Hw).
Qed.

(** Sorting a row keeps its entries and leaves its primary block in order. *)
Lemma sort_row_spec v c :
  csr_inv c -> csr_inv (sort_row v c).1 /\ row (sort_row v c).1 v ≡ₚ row c v /\ key_sorted (primary (sort_row v c).1 v) /\
  forall w, w <> v -> row (sort_row v c).1 w = row c w.
Proof.
  intros I. pose proof I as [G R E]. unfold sort_row.
  assert (Hmark : key_sorted (vprim (view c v)) -> let c' := mark_primary_sorted v c in
    csr_inv c' /\ row c' v ≡ₚ row c v /\ key_sorted (primary c' v) /\ forall w, w <> v -> row c' w = row c w).
  { intros Hs. destruct (mark_sorted_inv v c I Hs) as [I' Er]. cbn zeta. split_and!; [done|by rewrite Er| |done].
    change (primary (mark_primary_sorted v c) v) with (primary c v). by rewrite primary_view. }
  case_decide as H0.
  { apply Hmark. unfold vprim. cbn [view v_deg v_block]. assert (Hb : block c v = []).
    { destruct H0 as [H0|H0]; [by apply block_nil|]. apply length_zero_iff_nil. by rewrite block_length. }
    rewrite Hb, take_nil. constructor. }
  case_decide as H1.
  { apply Hmark. unfold vprim. cbn [view v_deg v_block].
    assert (Hl : (length (take (degree_of c v) (block c v)) <= 1)%nat) by (rewrite length_take; lia).
    destruct (take _ _) as [|x [|y l]]; [constructor|by repeat constructor|simpl in Hl; lia]. }
  destruct (g_row _ G v) as [Hd Ho]. pose proof (g_cold _ G) as Gc. rewrite decide_False by lia.
  destruct (slice_primary c v G) as [Ep Eh]. rewrite Ep, Eh. destruct (ordered hot_le _) eqn:Eo.
  { apply Hmark. by apply hot_sorted_key, ordered_sorted. }
  apply sorted_window; [done|lia|apply merge_sort_Permutation|apply hot_sorted_key, (StronglySorted_merge_sort nbr_hot_le)].
Qed.

Lemma sort_all_rows_inv c :
  csr_inv c -> csr_inv (sort_all_rows c).1 /\ forall v, row (sort_all_rows c).1 v ≡ₚ row c v.
Proof.
  unfold sort_all_rows. generalize (seq 0 (vertex_capacity c)). intros l. generalize 0%nat.
  induction l as [|v l IH] in c |- *; intros k I; [by split|]. cbn [fold_left].
  destruct (sort_row_spec v c I) as (I1 & H1 & _ & H2). destruct (sort_row v c) as [c1 moved]. cbn [fst] in *.
  destruct (IH c1 (if moved then S k else k) I1) as [I2 H3]. split; [done|]. intros w. rewrite H3.
  destruct (decide (w = v)) as [->|Hw]; [done|by rewrite H2].
Qed.

(** ** Rebalancing *)

Lemma upd_place v i l c :
  geom c -> (i + length l <= capacity_of c v)%nat ->
  upd v (with_block (take i (block c v) ++ l ++ drop (i + length l) (block c v)) (view c v)) 0 c (place (offset_of c v + i) l c).
Proof.
  revert i c. induction l as [|n l IH]; intros i c G Hl; simpl in *.
  - rewrite Nat.add_0_r, take_drop. unfold with_block. by apply upd_refl.
  - destruct (g_row _ G v) as [_ Ho]. rewrite decide_True by lia.
    pose proof (upd_set_slot v i n c G ltac:(lia)) as U. pose proof (block_length c v G) as Hb.
    replace (S (offset_of c v + i)) with (offset_of (set_slot (offset_of c v + i) n c) v + S i)%nat.
    2: { change (offset_of (set_slot _ _ c) v) with (offset_of c v). lia. }
    pose proof (IH (S i) (set_slot (offset_of c v + i) n c) (u_geom _ _ _ _ _ U)) as U2.
    change (capacity_of (set_slot _ _ c) v) with (capacity_of c v) in U2. specialize (U2 ltac:(lia)).
    pose proof (upd_at _ _ _ _ _ U) as Ev. assert (Eb : block (set_slot (offset_of c v + i) n c) v = <[i:=n]> (block c v)).
    { by apply (f_equal v_block) in Ev. }
    rewrite Eb, Ev in U2. change 0 with (0 + 0). eapply upd_trans; [exact U|].
    rewrite take_S_insert, drop_insert_lt in U2 by lia. rewrite <- app_assoc in U2. simpl in U2.
    by replace (i + S (length l))%nat with (S (i + length l)) by lia.
Qed.

Lemma omap_seq_slots c v :
  geom c -> omap (fun i => slot_at c (offset_of c v + i)) (seq 0 (degree_of c v)) = vprim (view c v).
Proof.
  intros G. pose proof (block_length c v G) as Hb. destruct (g_row _ G v) as [Hd _].
  assert (Hgen : forall m i, (i + m <= degree_of c v)%nat ->
    omap (fun i => slot_at c (offset_of c v + i)) (seq i m) = take m (drop i (vprim (view c v)))).
  { induction m as [|m IH]; intros i Hi; [by rewrite take_0|]. cbn [seq omap list_omap].
    destruct (lookup_lt_is_Some_2 (vprim (view c v)) i) as [n Hn]; [unfold vprim; simpl; rewrite length_take; lia|].
    pose proof (vprim_lookup _ _ _ Hn) as [Hbn _]. cbn [view v_block] in Hbn.
    rewrite slot_at_slots, (block_lookup _ _ _ _ Hbn), IH by lia. by rewrite (drop_S _ _ _ Hn). }
  rewrite Hgen by lia. rewrite drop_0. apply take_ge. unfold vprim. simpl. rewrite length_take. lia.
Qed.

Lemma omap_ch_slots ch : ch_ok ch -> omap (ch_slot_at ch) (seq 0 (ch_len ch)) = ch_slots ch.
Proof.
  intros Ho. rewrite <- (ch_slots_length ch Ho).
  assert (Hgen : forall m i, (i + m <= length (ch_slots ch))%nat ->
    omap (ch_slot_at ch) (seq i m) = take m (drop i (ch_slots ch))).
  { induction m as [|m IH]; intros i Hi; [by rewrite take_0|]. cbn [seq omap list_omap].
    destruct (lookup_lt_is_Some_2 (ch_slots ch) i) as [n Hn]; [lia|].
    rewrite ch_slot_at_slots, Hn, IH by lia. by rewrite (drop_S _ _ _ Hn). }
  rewrite Hgen by lia. by rewrite drop_0, take_ge.
Qed.

Lemma map_omap_ch_slots cs :
  Forall ch_ok cs -> map (fun ch => omap (ch_slot_at ch) (seq 0 (ch_len ch))) cs = map ch_slots cs.
Proof. induction 1 as [|ch cs Ho _ IH]; simpl; [done|]. by rewrite omap_ch_slots, IH. Qed.

Lemma filter_split {A} (f : A -> bool) l : List.filter f l ++ List.filter (fun x => negb (f x)) l ≡ₚ l.
Proof.
  induction l as [|x l IH]; [done|]. simpl. destruct (f x); simpl; [by rewrite IH|].
  rewrite <- Permutation_middle. by rewrite IH.
Qed.

(** The entries of a row with the live ones in front. *)
Lemma live_first_perm prim over :
  List.filter nbr_live prim ++ List.filter nbr_live over ++
  (List.filter (fun n => negb (nbr_live n)) prim ++ List.filter (fun n => negb (nbr_live n)) over) ≡ₚ prim ++ over.
Proof.
  rewrite <- (filter_split nbr_live prim) at 3. rewrite <- (filter_split nbr_live over) at 3. solve_Permutation.
Qed.

Lemma upd_block_capacity v W d c c' : upd v W d c c' -> capacity_of c' v = length (v_block W).
Proof. intros U. rewrite <- (upd_at _ _ _ _ _ U). simpl. symmetry. apply block_length, U. Qed.

(** Slots written from the front of a row, and its degree set to them. *)
Lemma upd_front v l c :
  geom c -> (v < vertex_capacity c)%nat -> (length l <= capacity_of c v)%nat ->
  upd v (with_deg (length l) (with_block (l ++ drop (length l) (block c v)) (view c v))) 0 c
    (set_degree v (length l) (place (offset_of c v) l c)).
Proof.
  intros G Hv Hl. pose proof (upd_place v 0 l c G ltac:(lia)) as U. rewrite Nat.add_0_r, take_0 in U. simpl in U.
  eapply (upd_step0 (with_deg (length l))); [exact U|]. intros G1. apply upd_set_degree; [done|by eapply upd_lt|].
  rewrite (upd_block_capacity _ _ _ _ _ U). simpl. rewrite length_app, length_drop. lia.
Qed.

Lemma rebalance_upd v c :
  csr_inv c -> exists W, upd v W 0 c (rebalance_row v c).1 /\ vinv W /\ vrow W ≡ₚ vrow (view c v).
Proof.
  intros I. pose proof I as [G R _]. pose proof (vi_core _ (R v)) as C. unfold rebalance_row.
  assert (Hid : exists W, upd v W 0 c c /\ vinv W /\ vrow W ≡ₚ vrow (view c v)) by (exists (view c v); split_and!; [by apply upd_refl|apply R|done]).
  case_decide as H0; [done|]. destruct (ot_get (overflow_chunks c) v) as [[|ch0 chunks0]|] eqn:Hov; [done| |done].
  set (chunks := ch0 :: chunks0) in *. clear Hid. assert (Hv : (v < vertex_capacity c)%nat) by lia.
  assert (Hc : vchunks (view c v) = chunks) by (unfold vchunks; simpl; by rewrite Hov).
  assert (Hok : Forall ch_ok chunks) by (rewrite <- Hc; apply C). rewrite omap_seq_slots, map_omap_ch_slots by done.
  set (all := List.filter nbr_live (vprim (view c v)) ++ _). set (k := Nat.min (capacity_of c v) (length all)).
  assert (Hall : all ≡ₚ vrow (view c v)) by (unfold vrow; rewrite Hc; apply live_first_perm).
  clearbody all. pose proof (block_length c v G) as Hb. assert (Hk : length (take k all) = k) by (rewrite length_take; lia).
  set (W1 := with_sorted false (with_deg k (with_block (take k all ++ drop k (block c v)) (view c v)))).
  set (c1 := mark_primary_unsorted v _). assert (U1 : upd v W1 0 c c1).
  { pose proof (upd_front v (take k all) c G Hv ltac:(lia)) as U. rewrite Hk in U. unfold c1, W1.
    eapply (upd_step0 (with_sorted false)); [eapply upd_quiet; [exact U|apply upd_invalidate]|].
    intros G2. apply upd_mark; [done|]. eapply upd_lt; [|exact Hv]. eapply upd_quiet; [exact U|apply upd_invalidate]. }
  set (o := match drop k all with [] => None | rest => Some [consolidate_row rest] end).
  assert (Ho : Forall ch_ok (default [] o) /\ concat (map ch_slots (default [] o)) = drop k all).
  { unfold o. destruct (drop k all) as [|x l]; [done|]. simpl. destruct (consolidate_ok (x :: l)) as [H1 ->].
    split; [by repeat constructor|]. by rewrite app_nil_r. }
  set (c2 := match drop k all with [] => _ | _ => _ end). assert (U2 : upd v (with_over o W1) 0 c c2).
  { unfold c2, o. destruct (drop k all) as [|x l].
    - eapply upd_quiet; [|apply upd_sub_capacity]. eapply (upd_step0 (with_over None)); [exact U1|]. intros G1.
      destruct (ot_remove_spec (overflow_chunks c1) v (g_over _ G1)) as (Hw & _ & Hg). apply upd_over; [done|by eapply upd_lt|done|done].
    - set (single := consolidate_row (x :: l)). pose proof (upd_quiet _ _ _ _ _ _ U1 (upd_sub_capacity v (chunks_capacity chunks) c1)) as U3.
      pose proof (upd_quiet _ _ _ _ _ _ U3 (upd_add_capacity v (ch_cap single) _)) as U4.
      change (Some [single]) with (option_map (fun _ : list OverflowChunk => [single]) (Some chunks)). rewrite <- Hov.
      apply (upd_step0 (fun W => with_over (option_map (fun _ => [single]) (v_over W)) W) _ W1 _ _ _ _ U4).
      intros G4. apply upd_get_mut; [done|by eapply upd_lt]. }
  exists (vrebuild (with_over o W1)). cbn [fst]. destruct Ho as [Ho1 Ho2].
  assert (Hr : vrow (with_over o W1) = all).
  { unfold vrow, vprim. simpl. rewrite take_app_length' by done. unfold vchunks. simpl. rewrite Ho2. apply take_drop. }
  split_and!; [|apply vinv_rebuild; split|by rewrite vrow_rebuild, Hr].
  - eapply (upd_step0 vrebuild); [exact U2|]. intros G2. apply upd_rebuild; [done|by eapply upd_lt].
  - simpl. rewrite length_app, length_drop. lia.
  - exact Ho1.
  - rewrite Hr, Hall. apply C.
  - done.
Qed.

Lemma rebalance_row_spec v c :
  csr_inv c -> csr_inv (rebalance_row v c).1 /\ row (rebalance_row v c).1 v ≡ₚ row c v /\
  forall w, w <> v -> row (rebalance_row v c).1 w = row c w.
Proof.
  intros I. destruct (rebalance_upd v c I) as (W & U & V & Hr). destruct (csr_inv_perm v _ _ _ I U V Hr) as [I' Hrow].
  split_and!; [done|done|]. intros w Hw. rewrite !row_view by (apply U || apply I). by rewrite (upd_ne _ _ _ _ _ _ U Hw).
Qed.


End maintain.
End CsrMaintain.

(** * Compaction

    Compaction of one row, or of the whole store, keeps the entries that the cutoff
    does not reclaim, in their order, and reports the others. *)

Module CsrCompact.
Import CsrShared CsrSharedFacts Csr CsrRead CsrRows CsrIndex CsrView CsrUpd CsrRowInv CsrPush CsrInsert CsrInv CsrDelete CsrErase CsrMaintain.

Section compact.
Context `{Allocator}.
Implicit Types (c : MutableCsr) (v : nat) (W : View) (n : Nbr).

Definition kept (cutoff : Z) (l : list Nbr) : list Nbr := List.filter (fun n => negb (nbr_reclaimable cutoff n)) l.
Definition reclaimed (cutoff : Z) (l : list Nbr) : list Nbr := List.filter (nbr_reclaimable cutoff) l.

Lemma kept_app cutoff l k : kept cutoff (l ++ k) = kept cutoff l ++ kept cutoff k.
Proof. apply List.filter_app. Qed.

Lemma kept_live cutoff l : live_keys (kept cutoff l) = live_keys l.
Proof.
  apply live_keys_filter. intros n Hl. destruct (nbr_reclaimable cutoff n) eqn:E; [|done].
  by rewrite (reclaimable_dead _ _ E) in Hl.
Qed.

Lemma StronglySorted_filter {A} (R : relation A) (f : A -> bool) l : StronglySorted R l -> StronglySorted R (List.filter f l).
Proof.
  induction 1 as [|x l _ IH Hx]; simpl; [constructor|]. destruct (f x); [|done]. constructor; [done|].
  apply List.Forall_forall. intros y Hy. apply filter_In in Hy as [Hy _]. by apply (proj1 (List.Forall_forall _ _) Hx).
Qed.

Lemma kept_length cutoff l : (length (kept cutoff l) <= length l)%nat.
Proof. unfold kept. induction l as [|n l IH]; simpl; [done|]. destruct (negb _); simpl; lia. Qed.

(** ** One row: the primary block *)

(** What the walk has done after [m] slots of the block [b0]. *)
Record tightened v cutoff c (b0 : list Nbr) (m : nat) (st : MutableCsr * nat * list (Z * Z)) (b : list Nbr) : Prop := {
  tg_upd : upd v (with_block b (view c v)) 0 c st.1.1;
  tg_off : offset_of st.1.1 v = offset_of c v;
  tg_len : length b = length b0;
  tg_keep : st.1.2 = length (kept cutoff (take m b0));
  tg_front : take st.1.2 b = kept cutoff (take m b0);
  tg_rest i : (m <= i)%nat -> b !! i = b0 !! i;
  tg_removed : st.2 = map report (reclaimed cutoff (take m b0));
}.

Lemma tighten_spec v cutoff c m :
  geom c -> (m <= capacity_of c v)%nat ->
  exists b, tightened v cutoff c (block c v) m (fold_left (tighten_slot (offset_of c v) cutoff) (seq 0 m) (c, 0%nat, [])) b.
Proof.
  intros G. pose proof (block_length c v G) as Hb. induction m as [|m IH]; intros Hm.
  - exists (block c v). split; try done. by apply upd_refl.
  - destruct (IH ltac:(lia)) as (b & T). rewrite seq_S, fold_left_app. simpl Nat.add. cbn [fold_left].
    destruct (fold_left _ _ _) as [[c1 keep] removed]. destruct T as [U Eo El Ek Ef Er Em]. cbn [fst snd] in *.
    destruct (lookup_lt_is_Some_2 (block c v) m) as [n Hn]; [lia|].
    assert (Hkm : (keep <= m)%nat) by (pose proof (kept_length cutoff (take m (block c v))); rewrite length_take in *; lia).
    assert (Hblk : block c1 v = b) by (pose proof (upd_at _ _ _ _ _ U) as E; by apply (f_equal v_block) in E).
    assert (Hs : slot_at c1 (offset_of c v + m) = Some n).
    { rewrite slot_at_slots, <- Eo. apply block_lookup. rewrite Hblk. by rewrite Er. }
    assert (Ekept : kept cutoff (take (S m) (block c v)) =
      kept cutoff (take m (block c v)) ++ if nbr_reclaimable cutoff n then [] else [n]).
    { rewrite (take_S_r _ _ _ Hn), kept_app. unfold kept at 2. simpl. by destruct (nbr_reclaimable cutoff n). }
    assert (Erec : reclaimed cutoff (take (S m) (block c v)) =
      reclaimed cutoff (take m (block c v)) ++ if nbr_reclaimable cutoff n then [n] else []).
    { rewrite (take_S_r _ _ _ Hn). unfold reclaimed. rewrite List.filter_app. simpl. by destruct (nbr_reclaimable cutoff n). }
    unfold tighten_slot. rewrite Hs. destruct (nbr_reclaimable cutoff n).
    + rewrite app_nil_r in Ekept. exists b. split; cbn [fst snd]; rewrite ?Ekept, ?Erec; try done.
      * intros i Hi. apply Er. lia.
      * by rewrite map_app, Em.
    + rewrite app_nil_r in Erec. exists (<[keep := n]> b). split; cbn [fst snd]; rewrite ?Ekept, ?Erec; try done.
      * case_decide as Ekm; [rewrite list_insert_id; [done|by rewrite Ekm, Er]|]. rewrite <- Eo, <- Hblk.
        assert (Hc1 : capacity_of c1 v = length b) by (rewrite <- Hblk; symmetry; apply block_length, U).
        pose proof (upd_set_slot v keep n c1 (u_geom _ _ _ _ _ U) ltac:(lia)) as U2.
        rewrite (upd_at _ _ _ _ _ U) in U2. by apply (upd_trans _ _ _ _ _ _ _ _ U U2).
      * by case_decide.
      * by rewrite length_insert.
      * rewrite length_app. simpl. lia.
      * rewrite take_S_insert by lia. by rewrite Ef.
      * intros i Hi. rewrite list_lookup_insert_ne by lia. apply Er. lia.
Qed.

Lemma kill_place c o m :
  (o + m <= length (hot_list c))%nat ->
  fold_left (fun c i => set_slot i dead_gap c) (seq o m) c = place o (replicate m dead_gap) c.
Proof.
  revert o c. induction m as [|m IH]; intros o c Ho; [done|]. cbn [seq fold_left replicate place].
  rewrite decide_True by lia. apply IH. simpl. rewrite length_insert. lia.
Qed.

Definition vtighten cutoff W : View :=
  let k := kept cutoff (vprim W) in
  with_deg (length k) (with_block (k ++ replicate (v_deg W - length k) dead_gap ++ drop (v_deg W) (v_block W)) W).

Lemma upd_tighten v cutoff c :
  geom c -> (v < vertex_capacity c)%nat ->
  let '(c1, keep, removed) := fold_left (tighten_slot (offset_of c v) cutoff) (seq 0 (degree_of c v)) (c, 0%nat, []) in
  upd v (vtighten cutoff (view c v)) 0 c
    (kill_slots (offset_of c v + keep) (offset_of c v + degree_of c v) (set_degree v keep c1)) /\
  removed = map report (reclaimed cutoff (vprim (view c v))).
Proof.
  intros G Hv. destruct (g_row _ G v) as [Hd Ho]. destruct (tighten_spec v cutoff c (degree_of c v) G Hd) as (b & T).
  destruct (fold_left _ _ _) as [[c1 keep] removed]. destruct T as [U Eo El Ek Ef Er Em]. cbn [fst snd] in *.
  split; [|done]. pose proof (block_length c v G) as Hb. change (vprim (view c v)) with (take (degree_of c v) (block c v)) in *.
  set (k := kept cutoff (take (degree_of c v) (block c v))) in *. pose proof (upd_block_capacity _ _ _ _ _ U) as Hc1. simpl in Hc1.
  assert (Hkd : (keep <= degree_of c v)%nat).
  { pose proof (kept_length cutoff (take (degree_of c v) (block c v))). fold k in H0. rewrite length_take in H0. lia. }
  assert (U2 : upd v (with_deg keep (with_block b (view c v))) 0 c (set_degree v keep c1)).
  { eapply (upd_step0 (with_deg keep)); [exact U|]. intros G1. apply upd_set_degree; [done|by eapply upd_lt|lia]. }
  set (c2 := set_degree v keep c1) in *. pose proof (u_geom _ _ _ _ _ U2) as G2.
  assert (Eo2 : offset_of c2 v = offset_of c v) by exact Eo.
  assert (Hc2 : capacity_of c2 v = length b) by exact Hc1.
  unfold kill_slots. rewrite kill_place by (destruct (g_row _ G2 v); rewrite <- Eo2; lia).
  replace (offset_of c v + degree_of c v - (offset_of c v + keep))%nat with (degree_of c v - keep)%nat by lia.
  pose proof (upd_place v keep (replicate (degree_of c v - keep) dead_gap) c2 G2) as U3.
  rewrite length_replicate in U3. specialize (U3 ltac:(lia)). rewrite Eo2, (upd_at _ _ _ _ _ U2) in U3.
  assert (Hblk : block c2 v = b) by (pose proof (upd_at _ _ _ _ _ U2) as E; by apply (f_equal v_block) in E).
  rewrite Hblk, Ef in U3. replace (keep + (degree_of c v - keep))%nat with (degree_of c v) in U3 by lia.
  assert (Edrop : drop (degree_of c v) b = drop (degree_of c v) (block c v)).
  { apply list_eq. intros i. rewrite !lookup_drop. apply Er. lia. }
  rewrite Edrop in U3. unfold vtighten. change (vprim (view c v)) with (take (degree_of c v) (block c v)). fold k.
  cbn [view v_deg v_block]. rewrite <- Ek. change 0 with (0 + 0). eapply upd_trans; [exact U2|exact U3].
Qed.

Lemma vtighten_prim cutoff W : vprim (vtighten cutoff W) = kept cutoff (vprim W).
Proof. unfold vprim at 1, vtighten. simpl. by apply take_app_length. Qed.

Lemma vtighten_core cutoff o W :
  vcore W -> Forall ch_ok (default [] o) -> concat (map ch_slots (default [] o)) = kept cutoff (over_slots W) ->
  vcore (with_over o (vtighten cutoff W)) /\ vrow (with_over o (vtighten cutoff W)) = kept cutoff (vrow W).
Proof.
  intros [Cd Cc Cn Cs] Ho Ec.
  assert (Hp : vprim (with_over o (vtighten cutoff W)) = kept cutoff (vprim W)) by apply vtighten_prim.
  assert (Hr : vrow (with_over o (vtighten cutoff W)) = kept cutoff (vrow W)).
  { unfold vrow. rewrite Hp, kept_app. f_equal. exact Ec. }
  split; [|done]. split; [|exact Ho| |].
  - simpl. rewrite length_app. lia.
  - rewrite Hr, kept_live. done.
  - intros Hs. rewrite Hp. by apply StronglySorted_filter, Cs.
Qed.

Lemma consolidated_ok l : ch_ok (ch_consolidated l) /\ ch_slots (ch_consolidated l) = l.
Proof. unfold ch_ok, ch_slots. simpl. rewrite !length_map. split; [done|]. apply zip_map_parts. Qed.

Lemma probe_none v cutoff c :
  geom c -> (v < vertex_capacity c)%nat -> cutoff <> TS_MAX ->
  (vertex_reclaim_probe c v cutoff).2 = length (reclaimed cutoff (vrow (view c v))).
Proof.
  intros G Hv Hc. unfold vertex_reclaim_probe. rewrite decide_False by lia. simpl. rewrite row_view by done. unfold count_if, reclaimed.
  f_equal. apply filter_ext. intros n. rewrite bool_decide_true by done. simpl.
  destruct (nbr_reclaimable cutoff n) eqn:E; [by rewrite (reclaimable_dead _ _ E)|by rewrite andb_false_r].
Qed.

(** The overflow chunks of a row replaced by one with what the cutoff keeps. *)
Lemma compact_chunks_upd v cutoff W c c2 t chunks :
  upd v W 0 c c2 -> (v < vertex_capacity c2)%nat -> ot_remove v (overflow_chunks c2) = (t, Some chunks) ->
  let c3 := sub_capacity (chunks_capacity chunks) (set_overflow t c2) in
  let c' := match kept cutoff (concat (map ch_slots chunks)) with
            | [] => rebuild_live_set_for_vertex v c3
            | k => let single := ch_consolidated k in
                   let c4 := add_capacity (ch_cap single) c3 in
                   rebuild_live_set_for_vertex v (set_overflow (ot_insert v [single] (overflow_chunks c4)) c4)
            end in
  exists o, upd v (vrebuild (with_over o W)) 0 c c' /\ Forall ch_ok (default [] o) /\
    concat (map ch_slots (default [] o)) = kept cutoff (concat (map ch_slots chunks)).
Proof.
  intros U2 Hv2 Er. cbn zeta. pose proof (u_geom _ _ _ _ _ U2) as G2.
  pose proof (ot_remove_spec (overflow_chunks c2) v (g_over _ G2)) as (Hw & _ & Hg). rewrite Er in Hw, Hg. cbn [fst] in *.
  assert (U3 : upd v (with_over None W) 0 c (sub_capacity (chunks_capacity chunks) (set_overflow t c2))).
  { eapply upd_quiet; [|apply upd_sub_capacity]. eapply (upd_step0 (with_over None)); [exact U2|]. intros _. by apply upd_over. }
  set (c3 := sub_capacity _ _) in *. assert (Hv3 : (v < vertex_capacity c3)%nat) by exact Hv2.
  destruct (kept cutoff (concat (map ch_slots chunks))) as [|x l].
  - exists None. split_and!; [|constructor|done]. eapply (upd_step0 vrebuild); [exact U3|]. intros G3. by apply upd_rebuild.
  - set (single := ch_consolidated (x :: l)). destruct (consolidated_ok (x :: l)) as [Ok1 Ok2].
    exists (Some [single]). split_and!; [|by constructor|change (ch_slots single ++ [] = x :: l); by rewrite app_nil_r].
    pose proof (upd_quiet _ _ _ _ _ _ U3 (upd_add_capacity v (ch_cap single) c3)) as U4. eapply (upd_step0 vrebuild).
    + apply (upd_step0 (with_over (Some [single])) _ _ _ _ _ _ U4). intros G4.
      destruct (ot_insert_spec (overflow_chunks (add_capacity (ch_cap single) c3)) v [single] (g_over _ G4)). by apply upd_over.
    + intros G5. by apply upd_rebuild.
Qed.

Lemma kept_all cutoff l : reclaimed cutoff l = [] -> kept cutoff l = l.
Proof.
  unfold kept, reclaimed. induction l as [|n l IH]; [done|]. simpl. destruct (nbr_reclaimable cutoff n); [done|].
  simpl. intros E. by rewrite IH.
Qed.

Lemma vrow_out c v : geom c -> (vertex_capacity c <= v)%nat -> vrow (view c v) = [].
Proof.
  intros G Hv. unfold vrow, vprim, vchunks. simpl. destruct (block_nil c v G Hv) as [-> ->]. by rewrite (g_over_dom _ G v Hv).
Qed.

(** The compaction of one vertex: the row without what the cutoff reclaims. *)
Definition compacted v cutoff c (r : MutableCsr * list (Z * Z)) : Prop :=
  exists W, upd v W 0 c r.1 /\ vinv W /\ vrow W = kept cutoff (vrow (view c v)) /\
    r.2 = map report (reclaimed cutoff (vrow (view c v))).

Lemma compacted_same v cutoff c : csr_inv c -> reclaimed cutoff (vrow (view c v)) = [] -> compacted v cutoff c (c, []).
Proof.
  intros [G R _] E. exists (view c v). rewrite E. split_and!; [by apply upd_refl|apply R|by rewrite kept_all|done].
Qed.

Lemma compact_vertex_upd v cutoff c :
  csr_inv c -> cutoff <> TS_MAX -> compacted v cutoff c (compact_vertex_with_reporting v cutoff c).
Proof.
  intros I Hc. pose proof I as [G R _]. pose proof (vi_core _ (R v)) as C. unfold compact_vertex_with_reporting.
  rewrite decide_False by done. case_decide as Hv; [apply compacted_same; [done|by rewrite vrow_out]|].
  apply not_le in Hv. rewrite probe_none by done.
  case_decide as Hp; [apply compacted_same; [done|by apply length_zero_iff_nil]|].
  pose proof (upd_tighten v cutoff c G Hv) as U. destruct (fold_left _ _ _) as [[c1 keep] removed]. destruct U as [U Er].
  set (c2 := invalidate_reuse_hint v _).
  assert (U2 : upd v (vtighten cutoff (view c v)) 0 c c2) by (eapply upd_quiet; [exact U|apply upd_invalidate]).
  clearbody c2. pose proof (u_geom _ _ _ _ _ U2) as G2. pose proof (upd_lt _ _ _ _ _ U2 Hv) as Hv2.
  pose proof (ot_remove_spec (overflow_chunks c2) v (g_over _ G2)) as (_ & Eo & _).
  assert (Eov : ot_get (overflow_chunks c2) v = v_over (view c v)).
  { pose proof (upd_at _ _ _ _ _ U2) as E. by apply (f_equal v_over) in E. }
  rewrite Eov in Eo. unfold compacted.
  assert (Erow : map report (reclaimed cutoff (vrow (view c v))) =
    map report (reclaimed cutoff (vprim (view c v))) ++ map report (reclaimed cutoff (over_slots (view c v)))).
  { unfold vrow, reclaimed. by rewrite List.filter_app, map_app. }
  rewrite Erow, <- Er.
  destruct (ot_remove v (overflow_chunks c2)) as [t [chunks|]] eqn:Et; cbn [snd] in Eo.
  - assert (Hch : over_slots (view c v) = concat (map ch_slots chunks)) by (unfold over_slots, vchunks; by rewrite <- Eo).
    destruct (compact_chunks_upd v cutoff _ c c2 t chunks U2 Hv2 Et) as (o & U4 & Ho & Eoc). rewrite <- Hch in *.
    destruct (vtighten_core cutoff o (view c v) C Ho Eoc) as [C' Hr'].
    exists (vrebuild (with_over o (vtighten cutoff (view c v)))). fold (kept cutoff (over_slots (view c v))).
    destruct (kept cutoff (over_slots (view c v))); cbn [fst snd];
      (split_and!; [exact U4|by apply vinv_rebuild|exact Hr'|done]).
  - assert (Hch : over_slots (view c v) = []) by (unfold over_slots, vchunks; by rewrite <- Eo).
    destruct (vtighten_core cutoff None (view c v) C) as [C' Hr']; [constructor|by rewrite Hch|].
    assert (Ew : with_over None (vtighten cutoff (view c v)) = vtighten cutoff (view c v)).
    { clear -Eo. destruct (view c v). simpl in Eo. by subst. }
    rewrite Ew in *. destruct removed as [|r0 removed'] eqn:Ere.
    { exfalso. apply Hp. rewrite <- (length_map report), Erow, <- Er, Hch. done. }
    exists (vrebuild (vtighten cutoff (view c v))). split_and!; [|by apply vinv_rebuild|exact Hr'|by rewrite Hch, app_nil_r].
    eapply (upd_step0 vrebuild); [exact U2|]. intros _. by apply upd_rebuild.
Qed.

Lemma compact_vertex_inv v cutoff c : csr_inv c -> csr_inv (compact_vertex_with_reporting v cutoff c).1.
Proof.
  intros I. destruct (decide (cutoff = TS_MAX)) as [->|Hc].
  { unfold compact_vertex_with_reporting. by rewrite decide_True. }
  destruct (compact_vertex_upd v cutoff c I Hc) as (W & U & V & Hr & _).
  destruct (decide (v < vertex_capacity c)%nat) as [Hv|Hv].
  - eapply csr_inv_upd; [done|exact U|by eapply upd_lt|done|]. unfold nlive. rewrite Hr, !count_live_keys, kept_live. lia.
  - unfold compact_vertex_with_reporting. rewrite decide_False by done. by rewrite decide_True by lia.
Qed.

End compact.
End CsrCompact.

(** * Rows laid out anew

    The rebuilds of the store write the blocks of all rows one after the other.  A
    full compaction keeps, in every row, exactly what the cutoff does not reclaim. *)

Module CsrLayout.
Import CsrShared CsrSharedFacts Csr CsrRead CsrRows CsrIndex CsrView CsrUpd CsrRowInv CsrPush CsrInsert CsrInv CsrDelete CsrErase CsrMaintain CsrCompact.

(** ** Blocks one after the other *)

Fixpoint starts {A} (k : nat) (bs : list (list A)) : list nat :=
  match bs with
  | [] => []
  | b :: r => k :: starts (k + length b) r
  end.

Lemma starts_length {A} k (bs : list (list A)) : length (starts k bs) = length bs.
Proof. revert k. induction bs as [|b bs IH]; intros k; simpl; [done|]. by rewrite IH. Qed.

Lemma starts_lookup {A} k (bs : list (list A)) i b :
  bs !! i = Some b -> starts k bs !! i = Some (k + length (concat (take i bs)))%nat.
Proof.
  revert k i. induction bs as [|b0 bs IH]; intros k [|i] Hi; simpl in *; simplify_eq; [by rewrite Nat.add_0_r|].
  rewrite IH by done. f_equal. rewrite length_app. lia.
Qed.

Lemma starts_app {A} k (bs bs' : list (list A)) : starts k (bs ++ bs') = starts k bs ++ starts (k + length (concat bs)) bs'.
Proof.
  revert k. induction bs as [|b bs IH]; intros k; simpl; [by rewrite Nat.add_0_r|]. rewrite IH, length_app.
  by rewrite Nat.add_assoc.
Qed.

Lemma concat_split {A} (bs : list (list A)) i b :
  bs !! i = Some b -> concat bs = concat (take i bs) ++ b ++ concat (drop (S i) bs).
Proof. intros Hi. rewrite <- (take_drop_middle bs i b Hi) at 1. by rewrite concat_app. Qed.

Lemma concat_before {A} (bs : list (list A)) i j b :
  (i < j)%nat -> bs !! i = Some b -> (length (concat (take i bs)) + length b <= length (concat (take j bs)))%nat.
Proof.
  intros Hij Hi. assert (Hi' : take j bs !! i = Some b) by (by rewrite lookup_take_lt).
  rewrite (concat_split _ _ _ Hi'), take_take, !length_app. rewrite Nat.min_l by lia. lia.
Qed.

Section layout.
Context `{Allocator}.
Implicit Types (c : MutableCsr) (v : nat) (W : View) (n : Nbr).

(** The lists and the row arrays of the store are those of the blocks [bs]. *)
Record laid c (bs : list (list Nbr)) : Prop := {
  l_hot : hot_list c = map hot (concat bs);
  l_cold : cold_list c = map cold (concat bs);
  l_offsets : adj_offsets c = starts 0 bs;
  l_caps : primary_capacities c = map length bs;
}.

Lemma laid_capacity c bs v : laid c bs -> capacity_of c v = length (default [] (bs !! v)).
Proof.
  intros L. unfold capacity_of, at0. rewrite (l_caps _ _ L). change (map length bs) with (fmap (M := list) length bs).
  rewrite list_lookup_fmap. by destruct (bs !! v).
Qed.

Lemma laid_slots c bs : laid c bs -> slots c = concat bs.
Proof. intros L. unfold slots. rewrite (l_hot _ _ L), (l_cold _ _ L). apply zip_map_parts. Qed.

Lemma laid_offset c bs v b : laid c bs -> bs !! v = Some b -> offset_of c v = length (concat (take v bs)).
Proof. intros L Hv. unfold offset_of, at0. rewrite (l_offsets _ _ L), (starts_lookup _ _ _ _ Hv). done. Qed.

Lemma laid_block c bs v : laid c bs -> block c v = default [] (bs !! v).
Proof.
  intros L. unfold block. rewrite (laid_capacity _ _ _ L), (laid_slots _ _ L). destruct (bs !! v) as [b|] eqn:E; [|by rewrite take_0].
  rewrite (laid_offset _ _ _ _ L E), (concat_split _ _ _ E) at 1. simpl. by rewrite drop_app_length, take_app_length.
Qed.

Lemma laid_geom c bs :
  laid c bs -> length (degrees c) = length bs -> length (primary_sorted c) = length bs -> length (reuse_hint c) = length bs ->
  length (live_counts c) = length bs -> length (tombstone_counts c) = length bs ->
  (forall v, (degree_of c v <= length (default [] (bs !! v)))%nat) ->
  ot_wf (overflow_chunks c) -> (forall v, (length bs <= v)%nat -> ot_get (overflow_chunks c) v = None) ->
  seg_wf (ls_table (live_sets c)) -> (forall v, (length bs <= v)%nat -> ls_get (live_sets c) v = None) -> geom c.
Proof.
  intros L Hd Hs Hh Hl Ht Hdeg Hw Hwd Hsw Hsd.
  assert (Hvc : vertex_capacity c = length bs) by (unfold vertex_capacity; by rewrite (l_offsets _ _ L), starts_length).
  split; try (rewrite Hvc; assumption).
  - by rewrite (l_hot _ _ L), (l_cold _ _ L), !length_map.
  - by rewrite Hvc, (l_caps _ _ L), length_map.
  - intros v. rewrite (laid_capacity _ _ _ L). split; [apply Hdeg|]. rewrite (l_hot _ _ L), length_map.
    destruct (bs !! v) as [b|] eqn:E; simpl.
    + rewrite (laid_offset _ _ _ _ L E), (concat_split _ _ _ E) at 1. rewrite !length_app. lia.
    + unfold offset_of, at0. rewrite (l_offsets _ _ L), lookup_ge_None_2; [simpl; lia|]. rewrite starts_length. by apply lookup_ge_None_1.
  - intros v w Hvw. rewrite !(laid_capacity _ _ _ L).
    destruct (bs !! v) as [b|] eqn:E; [|by left]. destruct (bs !! w) as [b'|] eqn:E'; [|by right; left]. right. right. simpl.
    rewrite (laid_offset _ _ _ _ L E), (laid_offset _ _ _ _ L E').
    destruct (decide (v < w)%nat); [left; by apply (concat_before bs v w b)|right; apply (concat_before bs w v b'); [lia|done]].
  - done.
  - done.
Qed.

(** ** The index of every row rebuilt *)

Lemma rebuild_fold l c :
  geom c -> (forall v, v ∈ l -> (v < vertex_capacity c)%nat) ->
  let c' := fold_left (fun c vid => rebuild_live_set_for_vertex vid c) l c in
  geom c' /\ vertex_capacity c' = vertex_capacity c /\ edge_count c' = edge_count c /\
  forall w, view c' w = if decide (w ∈ l) then vrebuild (view c w) else view c w.
Proof.
  revert c. induction l as [|v l IH]; intros c G Hl; [by cbn; split_and!|]. cbn [fold_left] in *.
  pose proof (upd_rebuild v c G ltac:(set_solver)) as U. set (c1 := rebuild_live_set_for_vertex v c) in *.
  assert (Hvc : vertex_capacity c1 = vertex_capacity c) by (unfold c1, rebuild_live_set_for_vertex; by case_decide).
  destruct (IH c1 (u_geom _ _ _ _ _ U)) as (G' & Hc' & He' & Hv').
  { intros w Hw. rewrite Hvc. apply Hl. set_solver. }
  cbn zeta. split_and!; [done|congruence|rewrite He', (u_edges _ _ _ _ _ U); lia|]. intros w. rewrite Hv', (u_view _ _ _ _ _ U).
  destruct (decide (w = v)) as [->|Hne].
  - rewrite (decide_True (P := v ∈ v :: l)) by set_solver. by case_decide.
  - rewrite (decide_ext (w ∈ v :: l) (w ∈ l)) by set_solver. done.
Qed.

(** ** Full compaction *)

Definition padded (e : list Nbr * nat) : list Nbr := e.1 ++ replicate (e.2 - length e.1) dead_gap.

Lemma pack_rows_spec l s o :
  (forall e, e ∈ l -> (length e.1 <= e.2)%nat) ->
  pack_rows (s, o) l = Some (s ++ concat (map padded l), o ++ starts (length s) (map padded l)).
Proof.
  revert s o. induction l as [|[k cap] l IH]; intros s o Hl; simpl; [by rewrite !app_nil_r|].
  rewrite decide_False by (pose proof (Hl (k, cap)) as Hk; simpl in Hk; specialize (Hk ltac:(set_solver)); lia).
  rewrite IH by set_solver. unfold padded at 3 5. simpl. rewrite <- !app_assoc. simpl.
  rewrite (length_app s), (length_app k). done.
Qed.

Lemma drops_reclaimable cutoff l :
  cutoff < TS_MAX -> List.filter (fun n => negb (drops cutoff n)) l = kept cutoff l /\ List.filter (drops cutoff) l = reclaimed cutoff l.
Proof.
  intros Hc. unfold kept, reclaimed, drops. rewrite bool_decide_true by done. done.
Qed.

Lemma drops_none cutoff l :
  ~ cutoff < TS_MAX -> List.filter (fun n => negb (drops cutoff n)) l = l /\ List.filter (drops cutoff) l = [].
Proof.
  intros Hc. unfold drops. rewrite bool_decide_false by done. simpl. split; [induction l; simpl; congruence|by induction l].
Qed.

Lemma kept_of_live c cutoff v : live_keys (kept_of c cutoff v) = live_keys (row c v).
Proof.
  unfold kept_of. destruct (decide (cutoff < TS_MAX)) as [Hc|Hc].
  - rewrite (proj1 (drops_reclaimable cutoff _ Hc)). apply kept_live.
  - by rewrite (proj1 (drops_none cutoff _ Hc)).
Qed.

(** The blocks of the store after a full compaction. *)
Definition packed_blocks c cutoff ratio : list (list Nbr) :=
  map (fun v => padded (kept_of c cutoff v, compact_row_capacity (length (kept_of c cutoff v)) ratio)) (seq 0 (vertex_capacity c)).

Definition rows_fit c cutoff ratio : Prop :=
  forall v, (v < vertex_capacity c)%nat ->
    (length (kept_of c cutoff v) <= compact_row_capacity (length (kept_of c cutoff v)) ratio)%nat.

Lemma compact_packs c cutoff ratio :
  rows_fit c cutoff ratio ->
  let rows := seq 0 (vertex_capacity c) in
  let kept := map (kept_of c cutoff) rows in
  let caps := map (fun l => compact_row_capacity (length l) ratio) kept in
  pack_rows ([], []) (zip kept caps) = Some (concat (packed_blocks c cutoff ratio), starts 0 (packed_blocks c cutoff ratio)) /\
  caps = map length (packed_blocks c cutoff ratio).
Proof.
  intros Hfit. cbn zeta.
  assert (Ez : zip (map (kept_of c cutoff) (seq 0 (vertex_capacity c)))
      (map (fun l => compact_row_capacity (length l) ratio) (map (kept_of c cutoff) (seq 0 (vertex_capacity c)))) =
    map (fun v => (kept_of c cutoff v, compact_row_capacity (length (kept_of c cutoff v)) ratio)) (seq 0 (vertex_capacity c))).
  { induction (seq 0 (vertex_capacity c)) as [|v l IH]; simpl; [done|]. by rewrite IH. }
  split.
  - rewrite Ez, pack_rows_spec; [by rewrite map_map|]. intros e He. apply list_elem_of_In, in_map_iff in He as (v & <- & Hv).
    apply in_seq in Hv. apply Hfit. lia.
  - unfold packed_blocks. rewrite !map_map. apply map_ext_in. intros v Hv. apply in_seq in Hv. unfold padded. simpl.
    rewrite length_app, length_replicate. specialize (Hfit v ltac:(lia)). lia.
Qed.

Lemma packed_lookup c cutoff ratio v :
  default [] (packed_blocks c cutoff ratio !! v) =
  if decide (v < vertex_capacity c)%nat then padded (kept_of c cutoff v, compact_row_capacity (length (kept_of c cutoff v)) ratio) else [].
Proof.
  unfold packed_blocks. change (map ?f ?l) with (f <$> l). rewrite list_lookup_fmap. case_decide as Hv.
  - by rewrite lookup_seq_lt.
  - by rewrite lookup_seq_ge by lia.
Qed.

(** The store after a full compaction, before the index is rebuilt. *)
Definition packed c cutoff ratio : MutableCsr :=
  let bs := packed_blocks c cutoff ratio in
  let caps := map length bs in
  let c1 := set_rows (starts 0 bs) (map length (map (kept_of c cutoff) (seq 0 (vertex_capacity c)))) caps
              (set_lists (map hot (concat bs)) (map cold (concat bs)) c) in
  let c2 := set_overflow ot_new (set_total_capacity (foldr Nat.add 0%nat caps) c1) in
  set_live_sets (ls_ensure_capacity (vertex_capacity c2) (ls_clear (ls_clear (live_sets c2)))) c2.

Lemma packed_length c cutoff ratio : length (packed_blocks c cutoff ratio) = vertex_capacity c.
Proof. unfold packed_blocks. by rewrite length_map, length_seq. Qed.

Lemma packed_degree c cutoff ratio v :
  geom c -> degree_of (packed c cutoff ratio) v = length (kept_of c cutoff v).
Proof.
  intros G. unfold degree_of, at0. cbn [packed set_live_sets set_overflow set_total_capacity set_rows degrees].
  rewrite map_map. change (map ?f ?l) with (f <$> l). rewrite list_lookup_fmap.
  destruct (decide (v < vertex_capacity c)%nat) as [Hv|Hv].
  - by rewrite lookup_seq_lt.
  - rewrite lookup_seq_ge by lia. simpl. unfold kept_of. rewrite row_view, vrow_out by (done || lia). done.
Qed.

Lemma packed_geom c cutoff ratio :
  geom c -> geom (packed c cutoff ratio) /\ vertex_capacity (packed c cutoff ratio) = vertex_capacity c /\
  forall v, ls_get (live_sets (packed c cutoff ratio)) v = None.
Proof.
  intros G. assert (Hvc : vertex_capacity (packed c cutoff ratio) = vertex_capacity c).
  { unfold vertex_capacity at 1. simpl. by rewrite starts_length, packed_length. }
  assert (Hls : forall v, ls_get (live_sets (packed c cutoff ratio)) v = None).
  { intros v. unfold ls_get. simpl. rewrite seg_get_ensure. apply seg_get_clear. }
  split_and!; [|done|done]. apply (laid_geom _ (packed_blocks c cutoff ratio)); rewrite ?packed_length; try apply G; try done.
  - simpl. by rewrite !length_map, length_seq.
  - intros v. rewrite packed_degree, packed_lookup by done. case_decide as Hv.
    + unfold padded. simpl. rewrite length_app. lia.
    + unfold kept_of. rewrite row_view, vrow_out by (done || lia). done.
  - apply ot_new_wf.
  - simpl. apply seg_ensure_wf, seg_clear_wf, seg_clear_wf, (g_set _ G).
Qed.

Lemma packed_view c cutoff ratio v :
  geom c -> view (packed c cutoff ratio) v =
    mkView (default [] (packed_blocks c cutoff ratio !! v)) (length (kept_of c cutoff v)) None None
      (default true (primary_sorted c !! v)).
Proof.
  intros G. unfold view. rewrite packed_degree by done. f_equal.
  - by apply laid_block.
  - by apply packed_geom.
Qed.

Lemma packed_row c cutoff ratio v : geom c -> vprim (view (packed c cutoff ratio) v) = kept_of c cutoff v /\
  vrow (view (packed c cutoff ratio) v) = kept_of c cutoff v.
Proof.
  intros G. rewrite packed_view by done. unfold vrow, vprim, vchunks. simpl. rewrite app_nil_r, packed_lookup.
  assert (E : take (length (kept_of c cutoff v))
    (if decide (v < vertex_capacity c)%nat then padded (kept_of c cutoff v, compact_row_capacity (length (kept_of c cutoff v)) ratio) else []) =
    kept_of c cutoff v); [|done].
  case_decide as Hv; [unfold padded; simpl; by rewrite take_app_length|]. unfold kept_of.
  rewrite row_view, vrow_out by (done || lia). done.
Qed.

Lemma packed_core c cutoff ratio v : csr_inv c -> vcore (with_sorted false (view (packed c cutoff ratio) v)).
Proof.
  intros [G R _]. destruct (packed_row c cutoff ratio v G) as [_ Hr]. split; [| | |done].
  - pose proof (proj1 (g_row _ (proj1 (packed_geom c cutoff ratio G)) v)) as Hd.
    simpl. rewrite block_length by by apply packed_geom. done.
  - rewrite packed_view by done. constructor.
  - change (vrow (with_sorted false ?V)) with (vrow V). rewrite Hr, kept_of_live, row_view by done. apply R.
Qed.

(** The store after a full compaction. *)
Definition compacted_store c cutoff ratio : MutableCsr :=
  let p := packed c cutoff ratio in
  reset_primary_sorted (reset_reuse_hints
    (fold_left (fun c vid => rebuild_live_set_for_vertex vid c) (seq 0 (vertex_capacity p)) p)).

Lemma compact_result c cutoff ratio :
  rows_fit c cutoff ratio ->
  compact_with_ts_reporting cutoff ratio c =
    Some (compacted_store c cutoff ratio, map report (concat (map (dropped_of c cutoff) (seq 0 (vertex_capacity c))))).
Proof.
  intros Hfit. destruct (compact_packs c cutoff ratio Hfit) as [Ep Ec]. cbn zeta in Ep, Ec.
  unfold compact_with_ts_reporting. rewrite Ep, Ec. reflexivity.
Qed.

Lemma compacted_store_geom c cutoff ratio :
  geom c -> let c' := compacted_store c cutoff ratio in
  geom c' /\ vertex_capacity c' = vertex_capacity c /\ edge_count c' = edge_count c /\
  forall v, (v < vertex_capacity c)%nat -> view c' v = vrebuild (with_sorted false (view (packed c cutoff ratio) v)).
Proof.
  intros G. destruct (packed_geom c cutoff ratio G) as (G1 & Hvc & Hls). unfold compacted_store. cbn zeta.
  destruct (rebuild_fold (seq 0 (vertex_capacity (packed c cutoff ratio))) _ G1) as (G2 & Hc2 & He2 & Hv2).
  { intros v Hv. apply elem_of_seq in Hv. lia. }
  cbn zeta in *. change (edge_count (packed c cutoff ratio)) with (edge_count c) in He2.
  generalize dependent (packed c cutoff ratio). intros p G1 Hvc Hls. set (c2 := fold_left _ _ _). clearbody c2. intros G2 Hc2 He2 Hv2.
  split_and!.
  - destruct G2. split; simpl; rewrite ?length_replicate; assumption.
  - unfold vertex_capacity in *. simpl. congruence.
  - simpl. done.
  - intros v Hv. specialize (Hv2 v). rewrite decide_True in Hv2 by (apply elem_of_seq; lia). rewrite <- Hvc, <- Hc2 in Hv.
    transitivity (with_sorted false (view c2 v)); [|by rewrite Hv2]. unfold view, with_sorted. f_equal. simpl.
    by rewrite lookup_replicate_2 by (by rewrite (g_sorted _ G2)).
Qed.

(** The whole store compacted: every row keeps what it must, in order, and the rest
    is reported. *)
Lemma compact_full_spec c cutoff ratio :
  csr_inv c -> rows_fit c cutoff ratio ->
  exists c', compact_with_ts_reporting cutoff ratio c =
      Some (c', map report (concat (map (dropped_of c cutoff) (seq 0 (vertex_capacity c))))) /\
    csr_inv c' /\ (forall v, row c' v = kept_of c cutoff v) /\ (forall v, primary c' v = kept_of c cutoff v).
Proof.
  intros I Hfit. pose proof I as [G R E]. exists (compacted_store c cutoff ratio). split; [by apply compact_result|].
  destruct (compacted_store_geom c cutoff ratio G) as (G3 & Hvc & He & Hin). set (c3 := compacted_store c cutoff ratio) in *.
  clearbody c3. assert (Hrow : forall v, vprim (view c3 v) = kept_of c cutoff v /\ vrow (view c3 v) = kept_of c cutoff v).
  { intros v. destruct (decide (v < vertex_capacity c)%nat) as [Hv|Hv]; [rewrite Hin by done; by apply packed_row|].
    assert (Hk : kept_of c cutoff v = []) by (unfold kept_of; rewrite row_view, vrow_out by (done || lia); done).
    rewrite Hk, vrow_out by (done || lia). split; [|done]. unfold vprim. simpl. by destruct (block_nil c3 v G3 ltac:(lia)) as [-> ->]. }
  split_and!; [split; [done| |]|intros v; rewrite row_view by done; apply Hrow|intros v; rewrite primary_view by done; apply Hrow].
  - intros v. destruct (decide (v < vertex_capacity c)%nat) as [Hv|Hv].
    + rewrite Hin by done. by apply vinv_rebuild, packed_core.
    + assert (Ho : ot_get (overflow_chunks c3) v = None) by (apply (g_over_dom _ G3); lia).
      split; [|intros s; simpl; by rewrite (g_set_dom _ G3) by lia]. destruct (Hrow v) as [Hp Hr]. split.
      * simpl. destruct (block_nil c3 v G3 ltac:(lia)) as [-> ->]. done.
      * unfold vchunks. simpl. rewrite Ho. constructor.
      * rewrite vrow_out by (done || lia). constructor.
      * intros _. unfold vprim. simpl. destruct (block_nil c3 v G3 ltac:(lia)) as [-> ->]. constructor.
  - rewrite He, E. unfold csr_total. rewrite Hvc. f_equal. apply total_ext. intros v _. unfold nlive.
    rewrite (proj2 (Hrow v)), !count_live_keys, kept_of_live. by rewrite row_view.
Qed.

End layout.
End CsrLayout.
