(* ===== verification/CsrReach.v ===== *)
(** * Batches, reads and the edge store under every operation

    The checked batch, the reads as scans of rows, the operations as steps, and what they
    promise to a caller who sees rows. *)

From stdpp Require Import base gmap list sorting strings.
From Stdlib Require Import ZArith Lia SpecFloat.
From S2P Require Import Prelude Types Watermarks IndexManifest CsrShared MutableCsr CsrView CsrInv CsrDelete CsrMaintain.

(** * Batches of edges

    Reserving room for a batch moves blocks and changes no entry; a checked batch is
    refused as a whole, or adds all of its edges. *)

Module CsrBatch.
Import CsrShared CsrSharedFacts Csr CsrRead CsrRows CsrIndex CsrView CsrUpd CsrRowInv CsrPush CsrInsert CsrInv CsrDelete CsrErase CsrMaintain CsrCompact CsrLayout.

Section batch.
Context `{Allocator}.
Implicit Types (c : MutableCsr) (v : nat) (W : View) (n : Nbr).

(** ** Roomier rows *)

(** The same row in a longer block. *)
Record grown_view W W' : Prop := {
  gv_deg : v_deg W' = v_deg W;
  gv_over : v_over W' = v_over W;
  gv_set : v_set W' = v_set W;
  gv_sorted : v_sorted W' = v_sorted W;
  gv_len : (length (v_block W) <= length (v_block W'))%nat;
  gv_prim : vprim W' = vprim W;
  gv_ok i : prim_ok W i -> prim_ok W' i;
}.

Lemma grown_refl W : grown_view W W.
Proof. by split. Qed.

Lemma grown_trans W1 W2 W3 : grown_view W1 W2 -> grown_view W2 W3 -> grown_view W1 W3.
Proof. intros [? ? ? ? ? ? ?] [? ? ? ? ? ? ?]. split; try congruence; [lia|eauto]. Qed.

Lemma grown_row W W' : grown_view W W' -> vrow W' = vrow W.
Proof. intros Gr. unfold vrow, vchunks. by rewrite (gv_prim _ _ Gr), (gv_over _ _ Gr). Qed.

Lemma grown_inv W W' : vinv W -> grown_view W W' -> vinv W'.
Proof.
  intros [[Cd Cc Cn Cs] I] Gr. pose proof (grown_row _ _ Gr) as Hr. destruct Gr. split; [split|].
  - lia.
  - unfold vchunks in *. by rewrite gv_over0.
  - by rewrite Hr.
  - rewrite gv_sorted0, gv_prim0. done.
  - intros s Hs. rewrite gv_set0 in Hs. destruct (I s Hs) as [Iw Ik Ip]. split; [done| |eauto]. by rewrite Hr.
Qed.

(** Room of gaps behind a block, with the old gaps kept or made anew. *)
Lemma grown_pad m W :
  (v_deg W <= length (v_block W))%nat -> grown_view W (with_block (v_block W ++ replicate m dead_gap) W).
Proof.
  intros Hd. split; try done.
  - simpl. rewrite length_app. lia.
  - unfold vprim. simpl. by rewrite take_app_le.
  - intros i [Hi Hdead]. split; simpl; [rewrite length_app; lia|]. intros Hge n Hn.
    rewrite lookup_app_l in Hn by done. by apply Hdead.
Qed.

Lemma grown_moved m W :
  (v_deg W <= length (v_block W) <= m)%nat -> grown_view W (with_block (vprim W ++ replicate (m - v_deg W) dead_gap) W).
Proof.
  intros Hd. assert (Hl : length (vprim W) = v_deg W) by (unfold vprim; rewrite length_take; lia).
  split; try done.
  - simpl. rewrite length_app, length_replicate. lia.
  - unfold vprim at 1. simpl. by rewrite take_app_length'.
  - intros i [Hi Hdead]. split; simpl; [rewrite length_app, length_replicate; lia|]. intros Hge n Hn.
    rewrite lookup_app_r in Hn by lia. apply lookup_replicate in Hn as [-> _]. done.
Qed.

Record roomier c c' : Prop := {
  rm_geom : geom c';
  rm_capacity : (vertex_capacity c <= vertex_capacity c')%nat;
  rm_views v : grown_view (view c v) (view c' v);
  rm_edges : edge_count c' = edge_count c;
  rm_cutoff : tombstone_reuse_cutoff c' = tombstone_reuse_cutoff c;
}.

Lemma roomier_refl c : geom c -> roomier c c.
Proof. intros G. split; try done. Qed.

Lemma roomier_trans c1 c2 c3 : roomier c1 c2 -> roomier c2 c3 -> roomier c1 c3.
Proof.
  intros [? ? V ? ?] [? ? V' ? ?]. split; [done|lia| |congruence|congruence]. intros v. by eapply grown_trans.
Qed.

Lemma roomier_upd v W c c' : upd v W 0 c c' -> grown_view (view c v) W -> roomier c c'.
Proof.
  intros U Gr. split; [apply U|apply U| |rewrite (u_edges _ _ _ _ _ U); lia|apply U].
  intros w. rewrite (u_view _ _ _ _ _ U). case_decide; [by subst|apply grown_refl].
Qed.

Lemma roomier_rows c c' v : geom c -> roomier c c' -> row c' v = row c v.
Proof. intros G Rm. rewrite !row_view by (done || apply Rm). apply grown_row, Rm. Qed.

Lemma roomier_inv c c' : csr_inv c -> roomier c c' -> csr_inv c'.
Proof.
  intros [G R E] Rm. split; [apply Rm|intros v; eapply grown_inv; [apply R|apply Rm]|].
  rewrite (rm_edges _ _ Rm), E. unfold csr_total. f_equal.
  rewrite <- (total_extend (fun v => nlive (view c v)) (vertex_capacity c) (vertex_capacity c')); [|apply Rm|intros w Hw; by apply nlive_out].
  apply total_ext. intros v _. unfold nlive. f_equal. symmetry. apply grown_row, Rm.
Qed.

Lemma grown_prepare W : (v_deg W <= length (v_block W))%nat -> grown_view W (vprepare W).
Proof.
  intros Hd. unfold vprepare. destruct (v_block W) as [|x b] eqn:Eb; [|apply grown_refl]. simpl in Hd.
  split; try done; simpl.
  - rewrite Eb. simpl. lia.
  - unfold vprim. simpl. assert (E : v_deg W = 0%nat) by lia. by rewrite E.
  - intros i [Hi _]. rewrite Eb in Hi. simpl in Hi. lia.
Qed.

Lemma deg_block c v : geom c -> (v_deg (view c v) <= length (v_block (view c v)))%nat.
Proof. intros G. simpl. rewrite block_length by done. by apply (g_row _ G). Qed.

Lemma roomier_prepare v c : geom c -> roomier c (prepare_row v c) /\ (v < vertex_capacity (prepare_row v c))%nat.
Proof.
  intros G. destruct (upd_prepare v c G) as [U Hv]. split; [|done]. eapply roomier_upd; [exact U|].
  by apply grown_prepare, deg_block.
Qed.

(** ** Growth of one row *)

Lemma tail_grow_upd v m c :
  geom c -> (v < vertex_capacity c)%nat -> (offset_of c v + capacity_of c v)%nat = length (hot_list c) ->
  upd v (with_block (block c v ++ replicate m dead_gap) (view c v)) 0 c
    (set_rows (adj_offsets c) (degrees c) (<[v := (capacity_of c v + m)%nat]> (primary_capacities c)) (grow_lists m c)).
Proof.
  intros G Hv Ht. set (c1 := set_rows _ _ _ _).
  assert (Hcap : forall w, capacity_of c1 w = if decide (w = v) then (capacity_of c v + m)%nat else capacity_of c w).
  { intros w. unfold capacity_of, c1. simpl. rewrite at0_insert, (g_capacities _ G).
    destruct (decide (w = v)); [by rewrite decide_True by done|by rewrite decide_False by tauto]. }
  assert (Hlen : length (hot_list c1) = (length (hot_list c) + m)%nat) by (unfold c1; simpl; by rewrite length_app, length_replicate).
  assert (Hs : slots c1 = slots c ++ replicate m dead_gap) by apply slots_grow, G.
  split; [|done| |unfold c1; simpl; lia|done].
  - pose proof G as G0. destruct G. split; unfold c1, vertex_capacity; simpl; rewrite ?length_insert; try assumption.
    + rewrite !length_app, !length_replicate. lia.
    + fold c1. intros w. rewrite Hcap, length_app, length_replicate. destruct (g_row0 w).
      change (degree_of c1) with (degree_of c). change (offset_of c1) with (offset_of c). case_decide; [subst|]; lia.
    + fold c1. intros x y Hxy. rewrite !Hcap. change (offset_of c1) with (offset_of c).
      destruct (g_row0 x), (g_row0 y). specialize (g_disjoint0 x y Hxy). repeat case_decide; subst; try lia; congruence.
  - intros w. unfold view. fold c1. case_decide as E.
    + subst w. unfold with_block. simpl. f_equal. unfold block. rewrite Hcap, Hs, decide_True by done.
      change (offset_of c1 v) with (offset_of c v). rewrite drop_app_le by (rewrite slots_length by done; lia).
      rewrite !take_ge; [done|rewrite length_drop, slots_length by done; lia|].
      rewrite length_app, length_drop, length_replicate, slots_length by done. lia.
    + f_equal. unfold block. rewrite Hcap, Hs, decide_False by done. destruct (g_row _ G w).
      apply take_drop_app. rewrite slots_length by done. done.
Qed.

Lemma moved_lists {A} (f : Nbr -> A) base have deg want (gap : A) l p :
  gap = f dead_gap -> (deg <= have)%nat -> (deg <= want)%nat -> (base + have <= length l)%nat -> map f p = slice base (base + deg) l ->
  splice base (replicate have gap) (splice (length l) (slice base (base + deg) l) (l ++ replicate want gap)) =
  splice base (map f (replicate have dead_gap)) l ++ map f (p ++ replicate (want - deg) dead_gap).
Proof.
  intros -> Hd Hw Hl Hp. assert (Hs : length (slice base (base + deg) l) = deg) by (rewrite slice_length; lia).
  assert (Hr : forall k, map f (replicate k dead_gap) = replicate k (f dead_gap)) by (intros k; apply fmap_replicate).
  rewrite map_app, Hp, !Hr. unfold splice at 2. rewrite take_app_length, Hs, drop_app_ge by lia.
  replace (length l + deg - length l)%nat with deg by lia. rewrite drop_replicate.
  unfold splice. rewrite length_replicate, take_app_le, drop_app_le by lia. by rewrite <- !app_assoc.
Qed.

Lemma grow_row_roomier c e : geom c -> (e.1 < vertex_capacity c)%nat -> roomier c (grow_row c e).
Proof.
  intros G Hv. destruct e as [v incoming]. unfold grow_row. cbn [fst] in Hv. set (want := wanted_capacity c (v, incoming)).
  case_decide as Hw; [by apply roomier_refl|]. destruct (g_row _ G v) as [Hd Ho]. pose proof (block_length c v G) as Hb.
  pose proof (g_cold _ G) as Gc. case_decide as Ht.
  - pose proof (tail_grow_upd v (want - capacity_of c v) c G Hv Ht) as U.
    replace (capacity_of c v + (want - capacity_of c v))%nat with want in U by lia.
    eapply roomier_upd; [eapply upd_quiet; [exact U|apply upd_add_capacity]|].
    by apply (grown_pad (want - capacity_of c v) (view c v)), deg_block.
  - set (b := vprim (view c v) ++ replicate (want - degree_of c v) dead_gap).
    set (c0 := put_block v (replicate (capacity_of c v) dead_gap) c).
    assert (U0 : upd v (with_block (replicate (capacity_of c v) dead_gap) (view c v)) 0 c c0) by (apply upd_put_block; [done|by rewrite length_replicate]).
    assert (Hlp : length (vprim (view c v)) = degree_of c v) by (unfold vprim; simpl; rewrite length_take; lia).
    assert (Hl0 : length (hot_list c0) = length (hot_list c)).
    { unfold c0, put_block. simpl. apply splice_length. rewrite length_map, length_replicate. lia. }
    pose proof (upd_tail_block v want b c0 (u_geom _ _ _ _ _ U0)) as U1.
    change (degree_of c0 v) with (degree_of c v) in U1. change (vertex_capacity c0) with (vertex_capacity c) in U1.
    specialize (U1 Hv ltac:(unfold b; rewrite length_app, length_replicate; lia) ltac:(lia)).
    rewrite Hl0, (upd_at _ _ _ _ _ U0) in U1.
    destruct (slice_primary c v G) as [_ Eh].
    assert (Ec : slice (offset_of c v) (offset_of c v + degree_of c v) (cold_list c) = map cold (vprim (view c v))).
    { rewrite <- (proj1 (slice_primary c v G)). symmetry. apply map_cold_zip. rewrite !slice_length by lia. done. }
    rewrite (moved_lists hot _ _ _ _ hot_dead_gap _ (vprim (view c v))) by (done || lia).
    rewrite <- Gc, (moved_lists cold _ _ _ _ cold_dead_gap _ (vprim (view c v))), Gc by (done || lia).
    eapply roomier_upd.
    + eapply upd_quiet; [|apply upd_add_capacity]. change 0 with (0 + 0). eapply upd_trans; [exact U0|exact U1].
    + apply (grown_moved want (view c v)). pose proof (deg_block c v G). simpl in *. lia.
Qed.

(** ** All rows laid out with more room *)

Definition room_block c (caps : list nat) v : list Nbr :=
  block c v ++ replicate (at0 caps v - capacity_of c v) dead_gap.

Lemma copy_rows_spec c caps l h k o :
  geom c -> fold_left (copy_row c caps) l (h, k, o) =
    (h ++ map hot (concat (map (room_block c caps) l)), k ++ map cold (concat (map (room_block c caps) l)),
     o ++ starts (length h) (map (room_block c caps) l)).
Proof.
  intros G. revert h k o. induction l as [|v l IH]; intros h k o; simpl; [by rewrite !app_nil_r|].
  assert (Hh : slice (offset_of c v) (offset_of c v + capacity_of c v) (hot_list c) ++ replicate (at0 caps v - capacity_of c v) hot_dead_gap
    = map hot (room_block c caps v)).
  { unfold room_block. rewrite slice_cap, map_app, map_hot_block by done. f_equal. symmetry. apply fmap_replicate. }
  assert (Hk : slice (offset_of c v) (offset_of c v + capacity_of c v) (cold_list c) ++ replicate (at0 caps v - capacity_of c v) cold_dead_gap
    = map cold (room_block c caps v)).
  { unfold room_block. rewrite slice_cap, map_app, map_cold_block by done. f_equal. symmetry. apply fmap_replicate. }
  rewrite Hh, Hk, IH, !map_app, <- !app_assoc, length_app, length_map. done.
Qed.

Lemma room_blocks_lookup c caps v :
  geom c -> length caps = vertex_capacity c ->
  default [] (map (room_block c caps) (seq 0 (vertex_capacity c)) !! v) = room_block c caps v.
Proof.
  intros G Hc. change (map ?f ?l) with (f <$> l). rewrite list_lookup_fmap. destruct (decide (v < vertex_capacity c)%nat) as [Hv|Hv].
  - by rewrite lookup_seq_lt.
  - rewrite lookup_seq_ge by lia. simpl. unfold room_block, at0. destruct (block_nil c v G ltac:(lia)) as [-> _].
    rewrite lookup_ge_None_2 by lia. done.
Qed.

Lemma rebuild_rows_roomier c caps extra :
  geom c -> length caps = vertex_capacity c -> (forall v, (capacity_of c v <= at0 caps v)%nat) -> roomier c (rebuild_rows c caps extra).
Proof.
  intros G Hc Hge. unfold rebuild_rows. rewrite copy_rows_spec by done. simpl app.
  set (bs := map (room_block c caps) (seq 0 (vertex_capacity c))). set (c' := reset_reuse_hints _).
  assert (Hbl : length bs = vertex_capacity c) by (unfold bs; by rewrite length_map, length_seq).
  assert (L : laid c' bs).
  { split; try done. unfold c'. simpl. apply list_eq. intros v. unfold bs. rewrite map_map.
    change (map ?f ?l) with (f <$> l). rewrite list_lookup_fmap. destruct (decide (v < vertex_capacity c)%nat) as [Hv|Hv].
    - rewrite lookup_seq_lt by done. simpl. unfold room_block. rewrite length_app, length_replicate, block_length by done.
      destruct (lookup_lt_is_Some_2 caps v) as [x Hx]; [lia|]. rewrite Hx. f_equal. specialize (Hge v). unfold at0 in *. rewrite Hx in *. simpl in *. lia.
    - rewrite lookup_seq_ge by lia. rewrite lookup_ge_None_2 by lia. done. }
  assert (Hvc : vertex_capacity c' = vertex_capacity c) by (unfold vertex_capacity at 1; by rewrite (l_offsets _ _ L), starts_length).
  assert (Hblk : forall v, block c' v = room_block c caps v) by (intros v; rewrite (laid_block _ _ _ L); by apply room_blocks_lookup).
  split; [|lia| |done|done].
  - apply (laid_geom _ bs L); rewrite ?Hbl; try apply G. 
    + unfold c'. simpl. rewrite length_replicate. apply (g_hints _ G).
    + intros v. rewrite <- (laid_block _ _ v L), Hblk. unfold room_block. rewrite length_app, block_length by done.
      destruct (g_row _ G v). change (degree_of c' v) with (degree_of c v). lia.
  - intros v. assert (E : view c' v = with_block (block c v ++ replicate (at0 caps v - capacity_of c v) dead_gap) (view c v)).
    { unfold view, with_block. simpl. f_equal. apply Hblk. }
    rewrite E. apply (grown_pad _ (view c v)), deg_block, G.
Qed.

Lemma new_capacities_ge c agg :
  length (new_capacities c agg).1 = length (primary_capacities c) /\ forall v, (capacity_of c v <= at0 (new_capacities c agg).1 v)%nat.
Proof.
  unfold new_capacities, capacity_of.
  assert (Hgen : forall l caps extra,
    let r := fold_left (fun '(caps, extra) e => let want := wanted_capacity c e in let have := at0 caps e.1 in
      if decide (have < want)%nat then (<[e.1 := want]> caps, (extra + (want - have))%nat) else (caps, extra)) l (caps, extra) in
    length r.1 = length caps /\ forall v, (at0 caps v <= at0 r.1 v)%nat).
  { induction l as [|e l IH]; intros caps extra; cbn zeta; [done|]. cbn [fold_left]. case_decide as Hw; [|apply IH].
    destruct (IH (<[e.1 := wanted_capacity c e]> caps) (extra + (wanted_capacity c e - at0 caps e.1))%nat) as [H1 H2].
    rewrite length_insert in H1. split; [done|]. intros v. etrans; [|apply H2]. rewrite at0_insert. case_decide as E; [|done].
    destruct E as [-> _]. lia. }
  apply (Hgen agg (primary_capacities c) 0%nat).
Qed.

(** ** Reservation *)

Lemma prepare_fold l c :
  geom c -> let c' := fold_left (fun c e => prepare_row e.1 c) l c in
  roomier c c' /\ forall e : nat * nat, e ∈ l -> (e.1 < vertex_capacity c')%nat.
Proof.
  revert c. induction l as [|e l IH]; intros c G; cbn zeta; [split; [by apply roomier_refl|set_solver]|]. cbn [fold_left].
  destruct (roomier_prepare e.1 c G) as [R1 H1]. destruct (IH _ (rm_geom _ _ R1)) as [R2 H2].
  split; [by eapply roomier_trans|]. intros e' He. apply elem_of_cons in He as [->|He]; [|by apply H2].
  pose proof (rm_capacity _ _ R2). lia.
Qed.

Lemma grow_fold l c :
  geom c -> (forall e, e ∈ l -> (e.1 < vertex_capacity c)%nat) -> roomier c (fold_left grow_row l c).
Proof.
  revert c. induction l as [|e l IH]; intros c G Hl; [by apply roomier_refl|]. cbn [fold_left].
  pose proof (grow_row_roomier c e G ltac:(apply Hl; set_solver)) as R1. eapply roomier_trans; [exact R1|].
  apply IH; [apply R1|]. intros e' He. pose proof (rm_capacity _ _ R1). specialize (Hl e' ltac:(set_solver)). lia.
Qed.

Lemma push_count_keys acc e v : v ∈ (push_count acc e).*1 <-> v ∈ acc.*1 \/ v = e.1.
Proof.
  unfold push_count. destruct acc as [|[src k] acc] using rev_ind; [simpl; set_solver|]. clear IHacc. rewrite last_snoc.
  case_decide as E; rewrite ?fmap_app; [|simpl; set_solver]. rewrite length_app. simpl.
  replace (pred (length acc + 1)) with (length acc) by lia. rewrite take_app_length. simpl. set_solver.
Qed.

Lemma aggregate_keys counts v : v ∈ (aggregate counts).*1 <-> v ∈ counts.*1.
Proof.
  unfold aggregate. set (l := if ordered _ counts then counts else merge_sort src_le counts).
  assert (Hl : v ∈ counts.*1 <-> v ∈ l.*1).
  { unfold l. destruct (ordered _ counts); [done|]. by rewrite merge_sort_Permutation. }
  rewrite Hl. clearbody l. assert (Hgen : forall l acc, v ∈ (fold_left push_count l acc).*1 <-> v ∈ acc.*1 \/ v ∈ l.*1); [|rewrite Hgen; set_solver].
  clear. induction l as [|e l IH]; intros acc; simpl; [set_solver|]. rewrite IH, push_count_keys. set_solver.
Qed.

(** Reserving room changes no entry, and makes every listed row addressable. *)
Lemma reserve_roomier counts c :
  geom c -> roomier c (reserve_for_batch counts c) /\ forall e, e ∈ counts -> (e.1 < vertex_capacity (reserve_for_batch counts c))%nat.
Proof.
  intros G. unfold reserve_for_batch. destruct counts as [|e0 counts0]; [split; [by apply roomier_refl|set_solver]|].
  set (counts := e0 :: counts0). set (agg := aggregate counts). destruct (prepare_fold agg c G) as [R1 H1]. cbn zeta in *.
  set (c1 := fold_left _ agg c) in *. clearbody c1. pose proof (rm_geom _ _ R1) as G1.
  assert (Hin : forall e, e ∈ counts -> (e.1 < vertex_capacity c1)%nat).
  { intros e He. assert (Ha : e.1 ∈ agg.*1) by (apply aggregate_keys, list_elem_of_fmap; eauto).
    apply list_elem_of_fmap in Ha as (e' & -> & He'). by apply H1. }
  assert (Hdone : forall c2, roomier c1 c2 -> roomier c c2 /\ forall e, e ∈ counts -> (e.1 < vertex_capacity c2)%nat).
  { intros c2 R2. split; [by eapply roomier_trans|]. intros e He. specialize (Hin e He). pose proof (rm_capacity _ _ R2). lia. }
  pose proof (new_capacities_ge c1 agg) as [Hc Hge]. destruct (new_capacities c1 agg) as [caps extra]. cbn [fst] in *.
  case_decide; [by apply Hdone, roomier_refl|]. case_decide; [by apply Hdone, grow_fold|].
  apply Hdone, rebuild_rows_roomier; [done| |done]. by rewrite Hc, (g_capacities _ G1).
Qed.


(** ** The edges of a batch *)

Definition batch_nbr (e : BatchEdge) : Nbr := with_create_ts (b_endpoint e) (b_rank e) (b_id e) (b_create_ts e).

Lemma batch_nbr_key e : nbr_key (batch_nbr e) = b_key e.
Proof. done. Qed.

Lemma batch_nbr_live e : nbr_live (batch_nbr e) = true.
Proof. by apply bool_decide_eq_true. Qed.

Lemma vcore_set W s : vcore W -> vcore (with_set s W).
Proof. intros []. by split. Qed.

Lemma vcore_track_insert W k p : vcore W -> vcore (vtrack_insert k p W).
Proof. intros C. unfold vtrack_insert. destruct (v_set W); [by apply vcore_set|]. case_decide; [by apply vcore_set|done]. Qed.

(** A row with one more entry, whatever its index holds. *)
Definition vput n W : View :=
  with_deg (S (v_deg W)) (with_sorted false (with_block (<[v_deg W := n]> (v_block W)) W)).

Lemma vput_core n W :
  vcore W -> (v_deg W < length (v_block W))%nat -> nbr_live n = true -> (nbr_key n ∉ live_keys (vrow W)) ->
  vcore (vput n W) /\ vrow (vput n W) ≡ₚ n :: vrow W.
Proof.
  intros C Hd Hl Hk. pose proof (vfill_row n W Hd) as Hr. unfold vfill in Hr. rewrite vrow_track_insert in Hr. split; [|done].
  destruct C. split; [simpl; rewrite length_insert; lia|done| |done].
  change (NoDup (live_keys (vrow (vput n W)))). unfold vput. rewrite Hr, live_keys_cons, Hl. by apply NoDup_live_cons.
Qed.

Lemma vappend_core n e W :
  vcore W -> nbr_live n = true -> (nbr_key n ∉ live_keys (vrow W)) -> vcore (vappend n e W) /\ vrow (vappend n e W) ≡ₚ n :: vrow W.
Proof.
  intros C Hl Hk. assert (Hr : vrow (vappend n e W) = vrow W ++ [n]) by apply vappend_row, C.
  split; [|rewrite Hr; symmetry; apply Permutation_cons_append].
  assert (V : vinv (vappend n e (with_set None W))).
  { apply vappend_inv; try done. split; [by apply vcore_set|done]. }
  pose proof (vi_core _ V) as C'. unfold vappend in *. cbn zeta in *. rewrite Hl in *.
  change (vchunks (vpush n e (with_set None W))) with (vchunks (vpush n e W)) in C'.
  set (p := PosOverflow _ _) in *.
  assert (Cp : vcore (vpush n e W)).
  { destruct C. split; [done| | |done].
    - by apply (push_chunks_slots n e (vchunks W)).
    - rewrite vpush_row, live_keys_app, live_keys_cons, Hl by done. rewrite <- Permutation_cons_append. by apply NoDup_live_cons. }
  pose proof (vcore_track_insert _ (nbr_key n) p Cp) as Ct. case_decide; [|done].
  pose proof (vrepack_live TS_MAX (vtrack_insert (nbr_key n) p (vpush n e W))) as Hlv. unfold vrepack in *. rewrite vtrack_insert_over in *. simpl in *.
  apply vcore_set. destruct Ct. split; [done| | |done].
  - simpl. case_match; [constructor|]. constructor; [apply consolidate_ok|constructor].
  - rewrite vrow_rebuild in Hlv. by rewrite Hlv.
Qed.

Lemma put_edge_upd v e c live :
  geom c -> (v < vertex_capacity c)%nat -> vcore (view c v) -> (b_key e ∉ live_keys (vrow (view c v))) ->
  exists W, upd v W 1 c (put_batch_edge v (c, live) e).1 /\ vcore W /\ vrow W ≡ₚ batch_nbr e :: vrow (view c v).
Proof.
  intros G Hv C Hk. unfold put_batch_edge. fold (batch_nbr e). cbn [fst]. case_decide as Hd.
  - exists (vput (batch_nbr e) (view c v)). split.
    + change 1 with (0 + 1). eapply (upd_step (fun W => W)); [|apply upd_edges].
      eapply (upd_step0 (with_deg _)).
      * eapply (upd_step0 (with_sorted false)); [by apply (upd_set_slot v (degree_of c v) (batch_nbr e) c)|]. intros G1. by apply upd_mark.
      * intros G2. apply upd_set_degree; [done|exact Hv|exact Hd].
    + apply vput_core; [done|simpl; by rewrite block_length|apply batch_nbr_live|by rewrite batch_nbr_key].
  - exists (vappend (batch_nbr e) (effective_chunk_edges c (S live)) (view c v)). split.
    + change 1 with (0 + 1). eapply (upd_step (fun W => W)); [|apply upd_edges]. by apply upd_append.
    + apply vappend_core; [done|apply batch_nbr_live|by rewrite batch_nbr_key].
Qed.

Lemma put_batch_upd v batch c live :
  geom c -> (v < vertex_capacity c)%nat -> vcore (view c v) ->
  NoDup (map b_key batch ++ live_keys (vrow (view c v))) ->
  exists W, upd v W (Z.of_nat (length batch)) c (fold_left (put_batch_edge v) batch (c, live)).1 /\ vcore W /\
    vrow W ≡ₚ map batch_nbr batch ++ vrow (view c v).
Proof.
  revert c live. induction batch as [|e batch IH]; intros c live G Hv C Hn.
  - exists (view c v). split_and!; [by apply upd_refl|done|done].
  - cbn [map app] in Hn. apply NoDup_cons in Hn as [He Hn]. apply not_elem_of_app in He as [He1 He2].
    destruct (put_edge_upd v e c live G Hv C He2) as (W1 & U1 & C1 & Hr1). cbn [fold_left].
    destruct (put_batch_edge v (c, live) e) as [c1 live1]. cbn [fst] in U1. pose proof (upd_at _ _ _ _ _ U1) as E1.
    destruct (IH c1 live1 (u_geom _ _ _ _ _ U1)) as (W2 & U2 & C2 & Hr2).
    + by eapply upd_lt.
    + by rewrite E1.
    + rewrite E1, Hr1, live_keys_cons, batch_nbr_live, batch_nbr_key, <- Permutation_middle. apply NoDup_cons. split; [|done].
      apply not_elem_of_app. done.
    + exists W2. split_and!; [|done|].
      * replace (Z.of_nat (length (e :: batch))) with (1 + Z.of_nat (length batch)) by (simpl; lia). by eapply upd_trans.
      * rewrite Hr2, E1, Hr1. simpl. symmetry. apply Permutation_middle.
Qed.

Lemma count_live_batch batch l : count_live (map batch_nbr batch ++ l) = (length batch + count_live l)%nat.
Proof. induction batch as [|e batch IH]; [done|]. cbn [map app]. rewrite count_live_cons, batch_nbr_live, IH. done. Qed.

(** One row of a batch. *)
Lemma put_batch_row_spec c v batch :
  csr_inv c -> (v < vertex_capacity c)%nat -> NoDup (map b_key batch ++ live_keys (row c v)) ->
  let c' := put_batch_row c (v, batch) in
  csr_inv c' /\ (vertex_capacity c <= vertex_capacity c')%nat /\ row c' v ≡ₚ map batch_nbr batch ++ row c v /\
  forall w, w <> v -> row c' w = row c w.
Proof.
  intros I Hv Hn. pose proof I as [G R _]. rewrite row_view in Hn by done. cbn zeta. unfold put_batch_row.
  destruct (put_batch_upd v batch c (live_key_count c v) G Hv (vi_core _ (R v)) Hn) as (W & U & C & Hr).
  set (c1 := (fold_left _ _ _).1) in *. clearbody c1.
  assert (U2 : upd v (vrebuild W) (Z.of_nat (length batch)) c (rebuild_live_set_for_vertex v c1)).
  { eapply (upd_step0 vrebuild); [exact U|]. intros G1. apply upd_rebuild; [done|by eapply upd_lt]. }
  split_and!.
  - eapply csr_inv_upd; [done|exact U2|by eapply upd_lt|by apply vinv_rebuild|]. unfold nlive.
    rewrite vrow_rebuild, Hr, count_live_batch. lia.
  - apply U2.
  - rewrite !row_view by (done || apply U2). by rewrite (upd_at _ _ _ _ _ U2).
  - intros w Hw. rewrite !row_view by (done || apply U2). by rewrite (upd_ne _ _ _ _ _ _ U2 Hw).
Qed.

Lemma put_groups_spec groups c :
  csr_inv c -> NoDup groups.*1 -> (forall g, g ∈ groups -> (g.1 < vertex_capacity c)%nat) ->
  (forall g, g ∈ groups -> NoDup (map b_key g.2 ++ live_keys (row c g.1))) ->
  let c' := fold_left put_batch_row groups c in
  csr_inv c' /\ (forall g, g ∈ groups -> row c' g.1 ≡ₚ map batch_nbr g.2 ++ row c g.1) /\
  forall w, w ∉ groups.*1 -> row c' w = row c w.
Proof.
  revert c. induction groups as [|[v batch] groups IH]; intros c I Hnd Hv Hf; cbn zeta; [split_and!; [done|set_solver|done]|].
  rewrite fmap_cons in Hnd. apply NoDup_cons in Hnd as [Hnv Hnd]. cbn [fold_left fst] in *.
  destruct (put_batch_row_spec c v batch I (Hv (v, batch) ltac:(set_solver)) (Hf (v, batch) ltac:(set_solver))) as (I1 & Hc1 & Hr1 & Ho1).
  assert (Hne : forall g, g ∈ groups -> g.1 <> v) by (intros g Hg <-; apply Hnv, list_elem_of_fmap; eauto).
  destruct (IH (put_batch_row c (v, batch)) I1 Hnd) as (I2 & Hr2 & Ho2).
  - intros g Hg. specialize (Hv g ltac:(set_solver)). lia.
  - intros g Hg. rewrite Ho1 by by apply Hne. apply Hf. set_solver.
  - split_and!; [done| |].
    + intros g Hg. apply elem_of_cons in Hg as [->|Hg]; [rewrite Ho2 by done; exact Hr1|].
      rewrite Hr2 by done. by rewrite Ho1 by by apply Hne.
    + intros w Hw. rewrite fmap_cons, not_elem_of_cons in Hw. destruct Hw as [Hw1 Hw2]. rewrite Ho2 by done. by apply Ho1.
Qed.

(** ** The check of a batch *)

Lemma fresh_keys_spec seen l : fresh_keys seen l = true <-> NoDup l /\ forall k, k ∈ l -> k ∉ seen.
Proof.
  revert seen. induction l as [|k l IH]; intros seen; simpl; [split; [by split; [constructor|set_solver]|done]|].
  case_decide as Hk; [split; [done|]; intros [_ Hf]; by destruct (Hf k ltac:(set_solver))|].
  rewrite IH, NoDup_cons. set_solver.
Qed.

Lemma adjacent_distinct_nodup l : NoDup l -> adjacent_distinct l = true.
Proof.
  induction l as [|x [|y l] IH]; intros Hn; [done|done|]. apply NoDup_cons in Hn as [Hx Hn].
  change (bool_decide (x <> y) && adjacent_distinct (y :: l) = true). rewrite IH by done.
  rewrite bool_decide_true by set_solver. done.
Qed.

Lemma overflow_slots_view c v : geom c -> vcore (view c v) -> overflow_slots c v = over_slots (view c v).
Proof.
  intros G C. unfold overflow_slots, single_chunk, over_slots, vchunks. pose proof (vc_chunks _ C) as Hc. unfold vchunks in Hc.
  change (v_over (view c v)) with (ot_get (overflow_chunks c) v) in *. unfold chunks_of.
  destruct (ot_get (overflow_chunks c) v) as [[|ch [|ch' cs]]|]; simpl in *; [done| | |done].
  - apply Forall_cons in Hc as [Ho _]. by rewrite omap_ch_slots, app_nil_r.
  - apply Forall_cons in Hc as [Ho Hc]. apply Forall_cons in Hc as [Ho' Hc]. rewrite !omap_ch_slots by done.
    do 2 f_equal. by rewrite map_omap_ch_slots.
Qed.

(** No live entry of a row has the identifier of a gap. *)
Definition no_live_gap c v : Prop := forall n, n ∈ row c v -> nbr_live n = true -> edge_id n <> INVALID_EDGE_ID.

Lemma visit_physical_live c v : csr_inv c -> no_live_gap c v -> live_keys (visit_physical c v) = live_keys (row c v).
Proof.
  intros [G R _] Hg. unfold visit_physical. rewrite row_view in * by done. case_decide as Hv; [by rewrite vrow_out|].
  rewrite overflow_slots_view by (done || apply R). rewrite primary_view by done. unfold vrow. rewrite !live_keys_app.
  f_equal. assert (Hp : forall n, n ∈ vprim (view c v) -> nbr_live n = true -> not_gap n = true).
  { intros n Hn Hl. unfold not_gap, is_gap_edge. rewrite bool_decide_false; [done|]. apply Hg; [|done].
    rewrite row_view by done. apply elem_of_app. by left. }
  clear -Hp. induction (vprim (view c v)) as [|n l IH]; [done|]. simpl. rewrite (live_keys_cons n l), <- IH by set_solver.
  destruct (not_gap n) eqn:E; [by rewrite live_keys_cons|]. destruct (nbr_live n) eqn:L; [|done]. by rewrite Hp in E by set_solver.
Qed.

Lemma check_row_spec c g :
  csr_inv c -> no_live_gap c g.1 -> check_row c g = true <-> NoDup (map b_key g.2 ++ live_keys (row c g.1)).
Proof.
  intros I Hg. unfold check_row. rewrite andb_true_iff, fresh_keys_spec, NoDup_app.
  change (map nbr_key (List.filter nbr_live (visit_physical c g.1))) with (live_keys (visit_physical c g.1)).
  rewrite visit_physical_live by done. setoid_rewrite elem_of_list_to_set. split.
  - intros [_ [Hn Hd]]. split_and!; [done|done|]. rewrite row_view by apply I. apply (ci_rows _ I).
  - intros (Hn & Hd & _). split; [|done]. apply adjacent_distinct_nodup. destruct (ordered _ _); [done|].
    by rewrite merge_sort_Permutation.
Qed.

(** A checked batch is refused as a whole when a key of it is live or repeated;
    otherwise every edge of it is in its row, and nothing else changes. *)
Lemma batch_put_spec groups c :
  csr_inv c -> NoDup groups.*1 -> (forall v, no_live_gap c v) ->
  let '(c', r) := batch_put_edges groups true c in
  ((exists g, g ∈ groups /\ ~ NoDup (map b_key g.2 ++ live_keys (row c g.1))) /\ r = Err EdgeAlreadyExists /\ c' = c) \/
  ((forall g, g ∈ groups -> NoDup (map b_key g.2 ++ live_keys (row c g.1))) /\
   r = Ok (foldr (fun g m => length g.2 + m) 0 groups)%nat /\ csr_inv c' /\
   (forall g, g ∈ groups -> row c' g.1 ≡ₚ map batch_nbr g.2 ++ row c g.1) /\ (forall w, w ∉ groups.*1 -> row c' w = row c w)).
Proof.
  intros I Hnd Hg. unfold batch_put_edges. destruct (forallb (check_row c) groups) eqn:Ec; cbn [andb negb].
  - right. assert (Hf : forall g, g ∈ groups -> NoDup (map b_key g.2 ++ live_keys (row c g.1))).
    { intros g Hin. apply check_row_spec; [done|done|]. rewrite forallb_forall in Ec. by apply Ec, list_elem_of_In. }
    destruct (reserve_roomier (map (fun g => (g.1, length g.2)) groups) c (ci_geom _ I)) as [R1 H1].
    pose proof (roomier_inv c _ I R1) as I1. set (c1 := reserve_for_batch _ c) in *.
    assert (Hrow : forall v, row c1 v = row c v) by (intros v; apply roomier_rows; [apply I|done]).
    destruct (put_groups_spec groups c1 I1 Hnd) as (I2 & Hr2 & Ho2).
    + intros g Hin. apply (H1 (g.1, length g.2)). apply list_elem_of_In, in_map_iff. exists g. split; [done|by apply list_elem_of_In].
    + intros g Hin. rewrite Hrow. by apply Hf.
    + split_and!; try done; [intros g Hin; by rewrite Hr2, Hrow|intros w Hw; by rewrite Ho2, Hrow].
  - left. split_and!; try done. apply not_true_iff_false in Ec. rewrite forallb_forall in Ec.
    assert (Hex : exists g, g ∈ groups /\ check_row c g = false).
    { clear -Ec. induction groups as [|g l IH]; [by destruct Ec|]. destruct (check_row c g) eqn:E; [|exists g; split; [set_solver|done]].
      destruct IH as (g' & Hg' & E'); [|exists g'; split; [set_solver|done]]. intros Hall. apply Ec. intros x [<-|Hx]; [done|by apply Hall]. }
    destruct Hex as (g & Hin & E). exists g. split; [done|]. intros Hn. apply check_row_spec in Hn; [congruence|done|done].
Qed.


End batch.
End CsrBatch.

(** * Reads of the edge store

    Every read shows the row: the point lookup through the index is the scan of the
    row, the bisected range is the filtered row, and the batched walk is the walks of
    the rows. *)

Module CsrReadFacts.
Import CsrShared CsrSharedFacts Csr CsrRead CsrRows CsrIndex CsrView CsrUpd CsrRowInv CsrPush CsrInsert CsrInv CsrDelete CsrErase CsrMaintain CsrCompact CsrLayout CsrBatch.

Section reads.
Context `{Allocator}.
Implicit Types (c : MutableCsr) (v : nat) (W : View) (n : Nbr).

(** ** Point lookups *)

Lemma scan_row c v k accept : csr_inv c -> scan_row_for_key accept c v k = find (fun n => has_key k n && accept n) (row c v).
Proof.
  intros [G R _]. unfold scan_row_for_key. rewrite row_view, primary_view, overflow_slots_view by (done || apply R).
  unfold vrow. by rewrite find_app.
Qed.

(** The only live entry of a key is what a scan for it finds. *)
Lemma find_live_unique k l n :
  NoDup (live_keys l) -> n ∈ l -> has_key k n = true -> live_edge n = true -> find (fun n => has_key k n && live_edge n) l = Some n.
Proof.
  intros Hd Hn Hk Hl. destruct (find _ l) as [m|] eqn:E.
  - apply find_some in E as [Hm Hp]. apply andb_true_iff in Hp as [Hkm Hlm]. f_equal.
    unfold has_key in *. apply bool_decide_eq_true in Hk, Hkm. unfold live_edge in *. apply andb_true_iff in Hl as [_ Hl], Hlm as [_ Hlm].
    eapply (live_unique l); try done; [by apply list_elem_of_In|congruence].
  - pose proof (find_none _ _ E n (proj1 (list_elem_of_In _ _) Hn)) as Hf. simpl in Hf. by rewrite Hk, Hl in Hf.
Qed.

Lemma find_no_key k l : k ∉ live_keys l -> find (fun n => has_key k n && live_edge n) l = None.
Proof.
  intros Hk. destruct (find _ l) as [m|] eqn:E; [|done]. apply find_some in E as [Hm Hp]. apply andb_true_iff in Hp as [Hkm Hlm].
  exfalso. apply Hk, elem_of_live_keys. exists m. unfold has_key in Hkm. apply bool_decide_eq_true in Hkm.
  unfold live_edge in Hlm. apply andb_true_iff in Hlm as [_ Hl]. split_and!; [by apply list_elem_of_In|done|done].
Qed.

(** A position of the index that shows a live entry shows one of the row. *)
Lemma slot_at_position_row c v s k p n :
  csr_inv c -> (v < vertex_capacity c)%nat -> ls_get (live_sets c) v = Some s -> lks_position s k = Some p ->
  slot_at_position c v p = Some n -> nbr_live n = true -> n ∈ row c v.
Proof.
  intros I Hv Hs Hp Hn Hl. pose proof I as [G R _]. destruct (vi_index _ (R v) s Hs) as [Iw Ik Ip].
  rewrite lks_position_map in Hp by done. destruct p as [i|j i]; simpl in Hn.
  - destruct (Ip k i Hp) as [Hi Hdead]. cbn [view v_block v_deg] in *. rewrite block_length in Hi by done.
    destruct (lookup_lt_is_Some_2 (adj_offsets c) v Hv) as [base Hb]. rewrite Hb in Hn.
    assert (Eb : offset_of c v = base) by (unfold offset_of, at0; by rewrite Hb). rewrite slot_at_slots, <- Eb in Hn.
    assert (Hbn : block c v !! i = Some n) by (unfold block; rewrite lookup_take_lt, lookup_drop by done; done).
    destruct (decide (degree_of c v <= i)%nat) as [Hd|Hd]; [by rewrite (Hdead Hd n Hbn) in Hl|].
    eapply (prim_in_row c v i); [done|]. apply slots_prim; [done|lia|done].
  - destruct (ot_get (overflow_chunks c) v) as [cs|] eqn:E; [|done]. destruct (cs !! j) as [ch|] eqn:Ej; [|done].
    rewrite ch_slot_at_slots in Hn. eapply (over_in_row c v j i ch); try done. unfold vchunks. simpl. by rewrite E.
Qed.

Lemma get_edge_physical_row c v dst :
  csr_inv c -> get_edge_physical c v dst =
    match decode_endpoint_pair dst with
    | None => None
    | Some k => find (fun n => has_key k n && live_edge n) (row c v)
    end.
Proof.
  intros I. pose proof I as [G R _]. unfold get_edge_physical. destruct (decode_endpoint_pair dst) as [k|]; [|done].
  case_decide as Hv; [by rewrite row_view, vrow_out by done|]. apply not_le in Hv.
  unfold get_edge_physical_via_scan. rewrite scan_row by done. destruct (counted_narrow c v); [done|].
  destruct (ls_get (live_sets c) v) as [s|] eqn:Es; [|done]. destruct (vi_index _ (R v) s Es) as [Iw Ik Ip].
  destruct (lks_position s k) as [p|] eqn:Ep.
  - destruct (slot_at_position c v p) as [n|] eqn:En; [|done]. destruct (has_key k n && live_edge n) eqn:Eh; [|done].
    apply andb_true_iff in Eh as [Hk Hl]. symmetry. apply find_live_unique; try done.
    + rewrite row_view by done. apply R.
    + unfold live_edge in Hl. apply andb_true_iff in Hl as [_ Hl]. by eapply slot_at_position_row.
  - symmetry. apply find_no_key. rewrite row_view by done. intros Hin. apply Ik in Hin as [p Hp].
    rewrite lks_position_map in Ep by done. congruence.
Qed.

(** ** Ranges *)

Definition nbr_key_le (a b : Nbr) : Prop := key_le (nbr_key a) (nbr_key b) = true.

Lemma filter_filter {A} (f g : A -> bool) l : List.filter f (List.filter g l) = List.filter (fun x => g x && f x) l.
Proof. induction l as [|x l IH]; simpl; [done|]. destruct (g x); simpl; [|done]. destruct (f x); by rewrite IH. Qed.

Lemma partition_point_true {A} l : Manifest.partition_point (fun _ : A => true) l = length l.
Proof. induction l; simpl; congruence. Qed.

Lemma partition_point_false {A} (l : list A) : Manifest.partition_point (fun _ : A => false) l = 0%nat.
Proof. by destruct l. Qed.

(** The bounds are not crossed. *)
Definition bounds_ok (lower upper : option (Z * Z)) : Prop :=
  match lower, upper with Some lo, Some hi => key_le lo hi = true | _, _ => True end.

Lemma partition_point_between {A} (p q : A -> bool) l :
  (Manifest.partition_point q l < Manifest.partition_point p l)%nat ->
  exists x, x ∈ l /\ p x = true /\ q x = false.
Proof.
  induction l as [|x l IH]; simpl; [lia|]. destruct (p x) eqn:Ep; [|lia].
  destruct (q x) eqn:Eq; [|intros _; exists x; by split; [left|]].
  intros Hlt. destruct IH as (y & Hy & ? & ?); [lia|]. exists y. by split; [right|].
Qed.

(** The bisected window is the filter, unless a key lies strictly between crossed
    bounds. *)
Lemma bisect_cases lower upper l :
  key_sorted l ->
  match bisect lower upper l with
  | Some r => r = List.filter (fun n => in_range lower upper (nbr_key n)) l
  | None => exists lo hi n, lower = Some lo /\ upper = Some hi /\ n ∈ l /\
      key_lt hi (nbr_key n) = true /\ key_lt (nbr_key n) lo = true
  end.
Proof.
  intros Hs. unfold bisect.
  set (p := fun n : Nbr => from_option (key_lt (nbr_key n)) false lower).
  set (q := fun n : Nbr => negb (from_option (fun hi => key_lt hi (nbr_key n)) false upper)).
  assert (Elo : (match lower with Some k => Manifest.partition_point (fun n => key_lt (nbr_key n) k) l | None => 0%nat end) = Manifest.partition_point p l).
  { unfold p. destruct lower; [done|]. symmetry. apply partition_point_false. }
  assert (Ehi : (match upper with Some k => Manifest.partition_point (fun n => key_le (nbr_key n) k) l | None => length l end) = Manifest.partition_point q l).
  { unfold q. destruct upper; [done|]. symmetry. apply partition_point_true. }
  rewrite Elo, Ehi. assert (Hp : cut nbr_key_le p).
  { intros x y Hxy Hy. unfold p, nbr_key_le in *. destruct lower; [|done]. simpl in *. rewrite key_lt_spec in *. rewrite key_le_spec in Hxy. lia. }
  assert (Hq : cut nbr_key_le q).
  { intros x y Hxy Hy. unfold q, nbr_key_le in *. destruct upper; [|done]. simpl in *. rewrite negb_true_iff, key_lt_false_le, key_le_spec in *. lia. }
  case_decide as Hd; [|by rewrite (partition_slice nbr_key_le p q l Hs Hp Hq)].
  apply partition_point_between in Hd as (n & Hn & Hpn & Hqn). unfold p, q in *.
  destruct lower as [lo|]; [|done]. destruct upper as [hi|]; [|done]. simpl in *.
  apply negb_false_iff in Hqn. by exists lo, hi, n.
Qed.

(** The walk over a row: the filter of the row, or a panic of the bisection. *)
Lemma visit_threshold_cases c v lower upper :
  csr_inv c ->
  match visit_threshold c v lower upper with
  | Some l => l = List.filter (live_in_range lower upper) (row c v)
  | None => exists lo hi n, lower = Some lo /\ upper = Some hi /\ primary_sorted c !! v = Some true /\
      n ∈ primary c v /\ key_lt hi (nbr_key n) = true /\ key_lt (nbr_key n) lo = true
  end.
Proof.
  intros I. pose proof I as [G R _]. unfold visit_threshold. rewrite row_view by done.
  case_decide as Hv; [by rewrite vrow_out|]. apply not_le in Hv.
  rewrite primary_view, overflow_slots_view by (done || apply R). unfold vrow. rewrite List.filter_app. fold (over_slots (view c v)).
  destruct (default false (primary_sorted c !! v) && _) eqn:E; [|done]. apply andb_true_iff in E as [E _].
  assert (Hs : key_sorted (vprim (view c v))).
  { apply (vc_sorted _ (vi_core _ (R v))). simpl. by destruct (primary_sorted c !! v). }
  pose proof (bisect_cases lower upper _ Hs) as Hb. destruct (bisect lower upper _) as [r|]; simpl.
  - rewrite Hb, filter_filter. f_equal. apply filter_ext. intros n. unfold live_in_range. apply andb_comm.
  - destruct Hb as (lo & hi & n & -> & -> & Hn & H1 & H2). exists lo, hi, n.
    destruct (primary_sorted c !! v) as [[]|]; try done.
Qed.

(** ** Walks *)

Lemma fill_batched_spec c vids i v :
  vids !! i = Some v ->
  let '(out, starts) := fill_physical_into_batched c vids in
  exists a b, starts !! i = Some a /\ starts !! S i = Some b /\ slice a b out = visit_physical c v.
Proof.
  intros Hi. unfold fill_physical_into_batched. set (walk := visit_physical c).
  assert (Hgen : forall l out starts, fold_left (fun '(out, starts) vid => (out ++ walk vid, starts ++ [length out])) l (out, starts) =
    (out ++ concat (map walk l), starts ++ CsrLayout.starts (length out) (map walk l))).
  { induction l as [|w l IH]; intros out starts; cbn [fold_left map concat CsrLayout.starts]; [by rewrite !app_nil_r|].
    rewrite IH, length_app, <- !app_assoc. done. }
  rewrite Hgen. cbn [app length]. set (bs := map walk vids).
  assert (Hb : bs !! i = Some (walk v)) by (unfold bs; change (map ?f ?l) with (f <$> l); by rewrite list_lookup_fmap, Hi).
  exists (length (concat (take i bs))), (length (concat (take i bs)) + length (walk v))%nat.
  pose proof (lookup_lt_Some _ _ _ Hb) as Hlt. split_and!.
  - rewrite lookup_app_l by (by rewrite starts_length). by rewrite (starts_lookup 0 bs i (walk v)).
  - destruct (decide (S i < length bs)%nat) as [Hs|Hs].
    + destruct (lookup_lt_is_Some_2 bs (S i) Hs) as [b' Hb']. rewrite lookup_app_l by (by rewrite starts_length).
      rewrite (starts_lookup 0 bs (S i) b' Hb'). f_equal. simpl. rewrite (take_S_r _ _ _ Hb), concat_app, length_app.
      simpl. by rewrite app_nil_r.
    + rewrite lookup_app_r, starts_length by (rewrite starts_length; lia).
      replace (S i - length bs)%nat with 0%nat by lia. simpl. f_equal.
      rewrite (concat_split bs i _ Hb), !length_app, (drop_ge bs) by lia. simpl. lia.
  - rewrite slice_cap, (concat_split bs i _ Hb). by rewrite drop_app_length, take_app_length.
Qed.

(** ** Positions *)

Lemma find_filter {A} (f g : A -> bool) l : (forall x, f x = true -> g x = true) -> find f (List.filter g l) = find f l.
Proof.
  intros Hfg. induction l as [|x l IH]; simpl; [done|]. destruct (f x) eqn:E.
  - rewrite (Hfg x E). simpl. by rewrite E.
  - destruct (g x); simpl; [by rewrite E|done].
Qed.

Lemma find_positions eid pos i0 l :
  match find (fun e : EdgePosition * Nbr => bool_decide (edge_id e.2 = eid)) (with_positions pos i0 l) with
  | Some (p, n) => first_id eid l = Some n /\ exists i, p = pos (i0 + i)%nat /\ l !! i = Some n
  | None => first_id eid l = None
  end.
Proof.
  revert i0. induction l as [|m l IH]; intros i0; [done|]. cbn [with_positions find snd]. unfold first_id. cbn [find].
  case_bool_decide as E.
  - split; [done|]. exists 0%nat. by rewrite Nat.add_0_r.
  - specialize (IH (S i0)). destruct (find _ (with_positions pos (S i0) l)) as [[p n]|]; [|done].
    destruct IH as (H1 & i & -> & Hi). split; [done|]. exists (S i). by rewrite <- Nat.add_succ_comm.
Qed.

Lemma find_chunk_positions eid j0 cs :
  match find (fun e : EdgePosition * Nbr => bool_decide (edge_id e.2 = eid)) (chunk_positions j0 cs) with
  | Some (p, n) => first_id eid (concat (map ch_slots cs)) = Some n /\
      exists j i ch, p = PosOverflow (j0 + j) i /\ cs !! j = Some ch /\ ch_slots ch !! i = Some n
  | None => first_id eid (concat (map ch_slots cs)) = None
  end.
Proof.
  revert j0. induction cs as [|ch cs IH]; intros j0; [done|]. cbn [chunk_positions map concat]. rewrite find_app, first_id_app.
  pose proof (find_positions eid (PosOverflow j0) 0 (ch_slots ch)) as Hp.
  destruct (find _ (with_positions (PosOverflow j0) 0 (ch_slots ch))) as [[p n]|].
  - destruct Hp as (-> & i & -> & Hi). split; [done|]. exists 0%nat, i, ch. by rewrite Nat.add_0_r.
  - rewrite Hp. specialize (IH (S j0)). destruct (find _ (chunk_positions (S j0) cs)) as [[p n]|]; [|done].
    destruct IH as (H1 & j & i & ch' & -> & Hj & Hi). split; [done|]. exists (S j), i, ch'. by rewrite <- Nat.add_succ_comm.
Qed.

(** The entry an identifier is located at is the first of the row with it, and its
    position addresses it. *)
Lemma locate_edge_spec c v eid :
  csr_inv c -> eid <> INVALID_EDGE_ID ->
  match locate_edge c v eid with
  | Some (p, n) => first_id eid (row c v) = Some n /\ slot_in_row c v p = Some n /\ edge_id n = eid
  | None => first_id eid (row c v) = None
  end.
Proof.
  intros I He. pose proof I as [G R _]. unfold locate_edge, visit_physical_with_position. rewrite row_view by done.
  case_decide as Hv; [by rewrite vrow_out|]. apply not_le in Hv. rewrite find_app, find_filter.
  2: { intros [p n]. simpl. rewrite bool_decide_eq_true. intros <-. unfold not_gap, is_gap_edge. by rewrite bool_decide_false. }
  rewrite primary_view by done. unfold vrow. rewrite first_id_app. change (chunks_of c v) with (vchunks (view c v)).
  assert (Hid : forall l n, first_id eid l = Some n -> edge_id n = eid).
  { intros l n Hf. apply find_some in Hf as [_ Hf]. by apply bool_decide_eq_true in Hf. }
  pose proof (find_positions eid PosPrimary 0 (vprim (view c v))) as Hp.
  destruct (find _ (with_positions PosPrimary 0 (vprim (view c v)))) as [[p n]|].
  - destruct Hp as (E & i & -> & Hi). rewrite E. split_and!; [done| |by eapply Hid]. simpl.
    pose proof (vprim_lookup _ _ _ Hi) as [Hb Hd]. simpl in Hd. rewrite decide_False by lia.
    rewrite slot_at_slots. by apply block_lookup.
  - rewrite Hp. pose proof (find_chunk_positions eid 0 (vchunks (view c v))) as Hc.
    destruct (find _ (chunk_positions 0 (vchunks (view c v)))) as [[p n]|]; [|done].
    destruct Hc as (E & j & i & ch & -> & Hj & Hi). split_and!; [done| |by eapply Hid]. simpl. unfold vchunks in Hj. simpl in Hj.
    destruct (ot_get (overflow_chunks c) v) as [cs|]; [|done]. simpl in Hj. by rewrite Hj, ch_slot_at_slots.
Qed.

(** Deleting at the located position is deleting by identifier. *)
Lemma located_delete_cases c v eid ts p n :
  csr_inv c -> eid <> INVALID_EDGE_ID -> ts <> TS_MAX -> locate_edge c v eid = Some (p, n) ->
  let '(c', r) := delete_edge_at_position v p eid ts c in delete_outcome v (first_id eid (row c v)) ts c r c'.
Proof.
  intros I He Hts Hl. pose proof (locate_edge_spec c v eid I He) as Hs. rewrite Hl in Hs. destruct Hs as (E1 & E2 & E3).
  pose proof (delete_at_position_cases c v p eid ts I Hts) as Hd. rewrite E2, decide_False in Hd by (intros E; by apply E).
  destruct (delete_edge_at_position v p eid ts c). by rewrite E1.
Qed.


End reads.
End CsrReadFacts.

(** * The edge store under every operation

    The steps of the store, the stores they reach, and what the operations promise to
    a caller who sees rows. *)

Module CsrReach.
Import CsrShared CsrSharedFacts Csr CsrRead CsrRows CsrIndex CsrView CsrUpd CsrRowInv CsrPush CsrInsert CsrInv CsrDelete CsrErase CsrMaintain CsrCompact CsrLayout CsrBatch CsrReadFacts.

Section reach.
Context `{Allocator}.
Implicit Types (c : MutableCsr) (v w : nat).

(** ** Steps *)

(** One call of an operation.  A deletion carries a stamp other than the mark of a
    live slot; a reverted deletion finds its key free; a checked batch has one group
    per row; a full compaction finds room for what it keeps. *)
Inductive csr_step : MutableCsr -> MutableCsr -> Prop :=
| StepResize n c : csr_step c (csr_resize n c)
| StepInsert v dst eid ts c : csr_step c (insert_edge v dst eid ts c).1
| StepDelete v eid ts c : ts <> TS_MAX -> csr_step c (delete_edge v eid ts c).1
| StepDeleteByOffset v off ts c : ts <> TS_MAX -> csr_step c (delete_edge_by_offset v off ts c).1
| StepDeleteAt v p eid ts c : ts <> TS_MAX -> csr_step c (delete_edge_at_position v p eid ts c).1
| StepDeleteByDst v dst ts c : ts <> TS_MAX -> csr_step c (delete_edge_by_dst v dst ts c).1
| StepRevert v eid ts c : revert_free v ts c -> csr_step c (revert_delete_by_edge_id v eid ts c).1
| StepRevertByOffset v off ts c : revert_free v ts c -> csr_step c (revert_delete_by_offset v off ts c).1
| StepRevertAt v p eid ts c : revert_free v ts c -> csr_step c (revert_delete_at_position v p eid ts c).1
| StepRollback v eid c : csr_step c (rollback_insert v eid c).1
| StepReserve counts c : csr_step c (reserve_for_batch counts c)
| StepBatch groups c : NoDup groups.*1 -> (forall v, no_live_gap c v) -> csr_step c (batch_put_edges groups true c).1
| StepSortRow v c : csr_step c (sort_row v c).1
| StepSortAll c : csr_step c (sort_all_rows c).1
| StepRebalance v c : csr_step c (rebalance_row v c).1
| StepCompactRow v cutoff c : csr_step c (compact_vertex_with_reporting v cutoff c).1
| StepCompact cutoff ratio c c' l : rows_fit c cutoff ratio -> compact_with_ts_reporting cutoff ratio c = Some (c', l) -> csr_step c c'
| StepLowerCutoff ts c : csr_step c (set_tombstone_reuse_cutoff ts c)
| StepFreshCutoff ts c : csr_step c (refresh_tombstone_reuse_cutoff ts c)
| StepNoCutoff c : csr_step c (clear_tombstone_reuse_cutoff c)
| StepClear c : csr_step c (csr_clear c).

(** ** Every operation keeps the invariant *)

Lemma insert_outcome_inv v k n c r c' : csr_inv c -> nbr_live n = true -> insert_outcome v k n c r c' -> csr_inv c'.
Proof.
  intros I Hl (W & d & U & V & Hv & Ho). eapply csr_inv_upd; [done|exact U|done|done|].
  destruct Ho as [(_ & _ & Er & ->)|(_ & _ & Hi & ->)]; unfold nlive; [rewrite Er; lia|].
  rewrite (inserted_count _ _ _ _ Hi Hl). lia.
Qed.

Lemma insert_step_inv v dst eid ts c : csr_inv c -> csr_inv (insert_edge v dst eid ts c).1.
Proof.
  intros I. destruct (decode_endpoint_pair dst) as [k|] eqn:Ek.
  - pose proof (insert_edge_cases c v dst k eid ts I Ek) as Hc. destruct (insert_edge v dst eid ts c) as [c' r].
    eapply insert_outcome_inv; [done| |exact Hc]. by apply bool_decide_eq_true.
  - unfold insert_edge. by rewrite Ek.
Qed.

Lemma delete_outcome_inv v o ts c r c' : csr_inv c -> delete_outcome v o ts c r c' -> csr_inv c'.
Proof.
  intros I Ho. destruct o as [n|]; simpl in Ho; [|by destruct Ho as [_ ->]].
  destruct (decide_slot_delete n ts) as [[]|]; [destruct Ho as (_ & Hv & Hs); by eapply stamped_inv|by destruct Ho as [_ ->]|by destruct Ho as [_ ->]].
Qed.

Lemma revert_outcome_inv v ts c b c' : csr_inv c -> revert_outcome v ts c b c' -> csr_inv c'.
Proof. intros I [[_ ->]|(_ & Hv & n & _ & _ & Hr)]; [done|by eapply revived_inv]. Qed.

Lemma delete_by_dst_inv v dst ts c : csr_inv c -> ts <> TS_MAX -> csr_inv (delete_edge_by_dst v dst ts c).1.
Proof.
  intros I Hts. destruct (decode_endpoint_pair dst) as [k|] eqn:Ek.
  - pose proof (delete_by_dst_cases c v dst k ts I Hts Ek) as Hc. destruct (delete_edge_by_dst v dst ts c) as [c' deleted].
    destruct Hc as [Hd [[_ ->]|[Hv Hs]]]; [done|]. eapply key_stamped_inv; [done|done|done|].
    rewrite <- row_view by apply I. apply (f_equal length) in Hd. rewrite !length_map in Hd. by rewrite <- Hd.
  - unfold delete_edge_by_dst. by rewrite Ek.
Qed.

Lemma rollback_inv v eid c : csr_inv c -> csr_inv (rollback_insert v eid c).1.
Proof.
  intros I. pose proof (rollback_insert_cases c v eid I) as Hc. destruct (rollback_insert v eid c) as [c' b].
  destruct (first_id eid (row c v)); [|by destruct Hc as [_ ->]]. destruct Hc as (_ & Hv & He). by eapply erased_inv.
Qed.

(** The invariant after an operation, from the cases of its outcome. *)
Ltac with_cases C keeps := let Hc := fresh in pose proof C as Hc; match goal with |- csr_inv ?x.1 => destruct x end; eapply keeps; [eassumption|exact Hc].

Lemma csr_step_inv c c' : csr_inv c -> csr_step c c' -> csr_inv c'.
Proof.
  intros I Hs. pose proof I as [G _ _]. destruct Hs as
    [n c|v dst eid ts c|v eid ts c Hts|v off ts c Hts|v p eid ts c Hts|v dst ts c Hts|v eid ts c Hf|v off ts c Hf|v p eid ts c Hf
    |v eid c|counts c|groups c Hn Hg|v c|c|v c|v cutoff c|cutoff ratio c c' l Hf Hc|ts c|ts c|c|c].
  - eapply (csr_inv_quiet 0); [exact I|by apply upd_resize].
  - by apply insert_step_inv.
  - with_cases (delete_edge_cases c v eid ts I Hts) delete_outcome_inv.
  - with_cases (delete_by_offset_cases c v off ts I Hts) delete_outcome_inv.
  - with_cases (delete_at_position_cases c v p eid ts I Hts) delete_outcome_inv.
  - by apply delete_by_dst_inv.
  - with_cases (revert_by_id_cases c v eid ts I Hf) revert_outcome_inv.
  - with_cases (revert_by_offset_cases c v off ts I Hf) revert_outcome_inv.
  - with_cases (revert_at_position_cases c v p eid ts I Hf) revert_outcome_inv.
  - by apply rollback_inv.
  - eapply roomier_inv; [done|by apply reserve_roomier].
  - pose proof (batch_put_spec groups c I Hn Hg) as Hb. destruct (batch_put_edges groups true c) as [c' r].
    destruct Hb as [(_ & _ & ->)|(_ & _ & I' & _)]; done.
  - by apply sort_row_spec.
  - by apply sort_all_rows_inv.
  - by apply rebalance_row_spec.
  - by apply compact_vertex_inv.
  - destruct (compact_full_spec c cutoff ratio I Hf) as (c1 & E & I1 & _). rewrite Hc in E. by injection E as -> _.
  - by apply set_cutoff_inv.
  - by apply set_cutoff_inv.
  - by apply set_cutoff_inv.
  - by apply csr_clear_inv.
Qed.

(** [C12] In every store reached from an empty one by the steps of [csr_step], that is by
    resizes, insertions, deletions with a stamp other than the last timestamp, reverts
    of deletions that find no live entry of the key, rollbacks, reservations, checked
    batches (one group per row, no live gap entry in the store), sorts, rebalances,
    compactions with room for every row, cutoff changes and clears: the blocks of the
    rows are disjoint and inside the arrays, the live keys of a row are distinct, the
    index of live keys (where a row has one) holds exactly them, the primary block of a
    row marked sorted is sorted, and the count of edges is the number of live entries of
    all rows.  Unchecked batches are not among the steps. *)
Theorem csr_reach_inv vc chunk_edges c : rtc csr_step (with_overflow_chunk_edges vc chunk_edges) c -> csr_inv c.
Proof.
  intros Hr. remember (with_overflow_chunk_edges vc chunk_edges) as c0 eqn:E.
  assert (I : csr_inv c0) by (subst; apply csr_new_inv). clear E. induction Hr as [|c0 c1 c Hs _ IH]; [done|].
  apply IH. by eapply csr_step_inv.
Qed.

(** ** What a caller sees *)

Lemma upd_others v W d c c' : geom c -> upd v W d c c' -> forall w, w <> v -> row c' w = row c w.
Proof. intros G U w Hw. rewrite !row_view by (done || apply U). by rewrite (upd_ne _ _ _ _ _ _ U Hw). Qed.

Lemma upd_row v W d c c' : upd v W d c c' -> row c' v = vrow W.
Proof. intros U. rewrite row_view by apply U. by rewrite (upd_at _ _ _ _ _ U). Qed.

(** [C13] An insertion fails with [EdgeAlreadyExists] exactly when a live entry of the
    row has the key, and then leaves every row alone.  Otherwise the row gains the new
    live entry, either beside its entries or in place of one tombstone that is below
    the reuse cutoff, no other row changes, and the count grows by one. *)
Theorem insert_edge_exact c v dst k eid ts :
  csr_inv c -> decode_endpoint_pair dst = Some k ->
  let '(c', r) := insert_edge v dst eid ts c in
  csr_inv c' /\ (forall w, w <> v -> row c' w = row c w) /\
  (if bool_decide (k ∈ live_keys (row c v))
   then r = Err EdgeAlreadyExists /\ row c' v = row c v /\ edge_count c' = edge_count c
   else r = Ok tt /\ inserted (tombstone_reuse_cutoff c) (mkNbr k.1 k.2 eid TS_MAX) (row c v) (row c' v) /\
        edge_count c' = edge_count c + 1).
Proof.
  intros I Hk. pose proof I as [G _ _]. pose proof (insert_edge_cases c v dst k eid ts I Hk) as Hc.
  destruct (insert_edge v dst eid ts c) as [c' r].
  split; [eapply insert_outcome_inv; [done| |exact Hc]; by apply bool_decide_eq_true|].
  destruct Hc as (W & d & U & V & Hv & Ho). split; [by eapply upd_others|].
  rewrite (upd_row _ _ _ _ _ U), (row_view c v G), (u_edges _ _ _ _ _ U). destruct Ho as [(-> & Hin & Er & ->)|(-> & Hn & Hi & ->)].
  - rewrite bool_decide_true by done. split_and!; [done|done|lia].
  - rewrite bool_decide_false by done. done.
Qed.

(** [C27] A deletion by identifier acts on the first entry of the row with it.  A live
    entry gets the stamp, and the count falls by one; an entry with this very stamp is
    left alone; an entry with another stamp is a conflict.  Nothing else of the store
    changes in any row. *)
Theorem delete_edge_exact c v eid ts :
  csr_inv c -> ts <> TS_MAX ->
  let '(c', r) := delete_edge v eid ts c in
  csr_inv c' /\ (forall w, w <> v -> row c' w = row c w) /\
  match first_id eid (row c v) with
  | None => r = Ok false /\ c' = c
  | Some n =>
      if decide (delete_ts n = TS_MAX)
      then r = Ok true /\ swap1 n (restamp ts n) (row c v) (row c' v) /\ edge_count c' = edge_count c - 1
      else c' = c /\ r = if decide (delete_ts n = ts) then Ok false else Err WriteWriteConflict
  end.
Proof.
  intros I Hts. pose proof I as [G _ _]. pose proof (delete_edge_cases c v eid ts I Hts) as Hc.
  destruct (delete_edge v eid ts c) as [c' r]. split; [by eapply delete_outcome_inv|].
  destruct (first_id eid (row c v)) as [n|]; simpl in Hc; [|by destruct Hc as [-> ->]].
  unfold decide_slot_delete in Hc. destruct (decide (delete_ts n = TS_MAX)) as [Hl|Hl].
  - rewrite decide_False in Hc by tauto. destruct Hc as (-> & Hv & W & U & _ & _ & Hs). split; [by eapply upd_others|].
    rewrite (upd_row _ _ _ _ _ U), (row_view c v G), (u_edges _ _ _ _ _ U). split_and!; [done|done|lia].
  - rewrite decide_True in Hc by done. destruct (decide (delete_ts n = ts)) as [Ht|Ht].
    + rewrite decide_False in Hc by tauto. by destruct Hc as [-> ->].
    + rewrite decide_True in Hc by done. by destruct Hc as [-> ->].
Qed.

(** [C15] A lookup of an edge answers what a scan of its row does, whether the row has
    an index of live keys, is read narrow, or is walked: the live entry of the key
    that is not a gap, and at most one entry is. *)
Theorem edge_lookup_exact c v dst k n :
  csr_inv c -> decode_endpoint_pair dst = Some k ->
  get_edge_physical c v dst = Some n <-> (n ∈ row c v /\ nbr_key n = k /\ live_edge n = true).
Proof.
  intros I Hk. pose proof I as [G R _]. rewrite get_edge_physical_row, Hk by done. split.
  - intros Hf. apply List.find_some in Hf as [Hin Hb]. apply andb_prop in Hb as [Hb Hl]. apply bool_decide_eq_true in Hb.
    split_and!; [by apply list_elem_of_In|done|done].
  - intros (Hin & Hkey & Hl). destruct (find _ (row c v)) as [m|] eqn:Ef.
    + apply List.find_some in Ef as [Hm Hb]. apply andb_prop in Hb as [Hb Hlm]. apply bool_decide_eq_true in Hb. f_equal.
      unfold live_edge in Hl, Hlm. apply andb_prop in Hl as [_ Hl], Hlm as [_ Hlm].
      apply (live_unique (row c v)); [|by apply list_elem_of_In|done|done|done|congruence].
      rewrite row_view by done. apply (R v).
    + apply List.find_none with (x := n) in Ef; [|by apply list_elem_of_In].
      unfold has_key in Ef. rewrite bool_decide_true, Hl in Ef by done. done.
Qed.

(** [C28] The walk of a row between two bounds visits, in the order of the row, exactly
    the live entries whose keys lie between them, also where the primary block is
    bisected instead of scanned; it panics only on a row whose primary block is marked
    sorted and has a key strictly between crossed bounds, so never when the lower
    bound is not above the upper one or a bound is missing. *)
Theorem threshold_visit_exact c v lower upper :
  csr_inv c ->
  match visit_threshold c v lower upper with
  | Some l => l = List.filter (live_in_range lower upper) (row c v)
  | None => ~ bounds_ok lower upper /\ primary_sorted c !! v = Some true /\
      exists n, n ∈ primary c v /\
        from_option (fun hi => key_lt hi (nbr_key n)) false upper = true /\
        from_option (fun lo => key_lt (nbr_key n) lo) false lower = true
  end.
Proof.
  intros I. pose proof (visit_threshold_cases c v lower upper I) as Hv.
  destruct (visit_threshold c v lower upper); [done|].
  destruct Hv as (lo & hi & n & -> & -> & Hs & Hn & H1 & H2). split; [|split; [done|by exists n]].
  simpl. rewrite key_lt_spec in H1, H2. rewrite key_le_spec. lia.
Qed.

(** [C16] A checked batch is all or nothing.  If two of its edges for a row have one
    key, or one has the key of a live entry of its row, the batch is refused and the
    store is what it was; otherwise every row gains the entries of its group and no
    other row changes. *)
Theorem batch_all_or_nothing groups c :
  csr_inv c -> NoDup groups.*1 -> (forall v, no_live_gap c v) ->
  let '(c', r) := batch_put_edges groups true c in
  csr_inv c' /\
  if forallb (fun g => bool_decide (NoDup (map b_key g.2 ++ live_keys (row c g.1)))) groups
  then r = Ok (foldr (fun g m => length g.2 + m) 0 groups)%nat /\
       (forall g, g ∈ groups -> row c' g.1 ≡ₚ map batch_nbr g.2 ++ row c g.1) /\ (forall w, w ∉ groups.*1 -> row c' w = row c w)
  else r = Err EdgeAlreadyExists /\ c' = c.
Proof.
  intros I Hn Hg. pose proof (batch_put_spec groups c I Hn Hg) as Hb. destruct (batch_put_edges groups true c) as [c' r].
  destruct Hb as [((g & Hin & Hd) & -> & ->)|(Hall & -> & I' & H1 & H2)]; split; try done.
  - replace (forallb _ groups) with false; [done|]. symmetry. apply not_true_is_false. rewrite forallb_forall. intros Hf.
    apply Hd. specialize (Hf g ltac:(by apply list_elem_of_In)). by apply bool_decide_eq_true in Hf.
  - replace (forallb _ groups) with true; [done|]. symmetry. apply forallb_forall. intros g Hin.
    apply bool_decide_eq_true, Hall. by apply list_elem_of_In.
Qed.

(** [C17] A full compaction drops from every row exactly the tombstones that the cutoff
    makes reclaimable (none where there is no cutoff) and reports each of them; it keeps
    the others in their order, all in the primary block, and keeps every live entry. *)
Theorem compaction_exact c cutoff ratio :
  csr_inv c -> rows_fit c cutoff ratio ->
  exists c', compact_with_ts_reporting cutoff ratio c =
      Some (c', map report (concat (map (dropped_of c cutoff) (seq 0 (vertex_capacity c))))) /\ csr_inv c' /\
    forall v, row c' v = kept_of c cutoff v /\ primary c' v = row c' v /\ live_keys (row c' v) = live_keys (row c v).
Proof.
  intros I Hf. destruct (compact_full_spec c cutoff ratio I Hf) as (c' & E & I' & Hr & Hp). exists c'. split_and!; [done|done|].
  intros v. split_and!; [done|by rewrite Hp, Hr|]. rewrite Hr. unfold kept_of, live_keys. f_equal.
  induction (row c v) as [|n l IH]; [done|]. simpl. destruct (drops cutoff n) eqn:Ed; simpl; rewrite IH; [|done].
  apply andb_prop in Ed as [_ Ed]. by rewrite (reclaimable_dead _ _ Ed).
Qed.

End reach.
End CsrReach.
