(* ===== verification/CsrCodec.v ===== *)
(** * The dump of an edge store

    [linkrs-storage/src/edge/mutable_csr/serialization.rs] (integer columns: plain,
    bit-packed or run-length) and [persistence.rs] (the dump of a store and its load),
    with the readers of [persistence.rs] of the crate.

    The column codecs of [u64] and [u32] differ in the width of a value, here a
    parameter in bytes.  Every failure of a reader is the same
    [deserialize_error] of the code; the two kinds only tell a short input from a
    malformed one.  [crc32fast] is a parameter. *)

From stdpp Require Import base gmap list sorting strings.
From Stdlib Require Import ZArith Lia.
From S2P Require Import Prelude Types Values Watermarks WalTypes OrderedCodec OrderedFacts IndexManifest IndexFiles IndexFilesFacts.
From S2P Require Import CsrShared MutableCsr.

Module CsrCodec.
Import Codec IxFiles CsrShared Csr CsrRead.
#[local] Open Scope reader_scope.

(** ** Integer columns *)

Definition MUTABLE_CSR_FORMAT_VERSION : Z := 10.

Inductive TopologyColumnEncoding := EncPlain | EncBitPacked | EncRle.

Definition encoding_as_u8 (e : TopologyColumnEncoding) : Z :=
  match e with EncPlain => 0 | EncBitPacked => 1 | EncRle => 2 end.

Definition encoding_from_u8 (z : Z) : option TopologyColumnEncoding :=
  match z with
  | 0 => Some EncPlain
  | 1 => Some EncBitPacked
  | 2 => Some EncRle
  | _ => None
  end.

Record TopologyEncodingChoice := mkChoice {
  tc_encoding : TopologyColumnEncoding;
  tc_plain_bytes : nat;
  tc_encoded_bytes : nat;
}.

Definition bit_width_for_range (range : Z) : Z := if decide (range = 0) then 1 else Z.log2 range + 1.

(** *** Runs *)

Definition push_run (runs : list (Z * Z)) (value : Z) : list (Z * Z) :=
  match last runs with
  | Some (x, k) =>
      if decide (x = value) then take (pred (length runs)) runs ++ [(x, Z.min (k + 1) (2 ^ 32 - 1))]
      else runs ++ [(value, 1)]
  | None => runs ++ [(value, 1)]
  end.

Definition rle_runs (values : list Z) : list (Z * Z) := fold_left push_run values [].

Definition rle_payload (vw : nat) (runs : list (Z * Z)) : list Z :=
  concat (map (fun r => le_bytes vw r.1 ++ le_bytes 4 r.2) runs).

(** *** Bits *)

(** The low [width] bits of a value, from the lowest. *)
Definition value_bits (width : nat) (z : Z) : list bool := map (fun i => Z.testbit z (Z.of_nat i)) (seq 0 width).

(** The words written, the word being filled, and how many of its bits are. *)
Definition push_bit (st : list Z * Z * nat) (b : bool) : list Z * Z * nat :=
  let '(out, current, filled) := st in
  let current := if b then Z.lor current (Z.shiftl 1 (Z.of_nat filled)) else current in
  if decide (S filled = 64%nat) then (out ++ le_bytes 8 current, 0, 0%nat) else (out, current, S filled).

Definition flush (st : list Z * Z * nat) : list Z :=
  let '(out, current, filled) := st in
  if decide (0 < filled)%nat then out ++ le_bytes 8 current else out.

Definition pack_values (min : Z) (width : nat) (values : list Z) : list Z :=
  flush (fold_left (fun st v => fold_left push_bit (value_bits width (v - min)) st) values ([], 0, 0%nat)).

Definition list_min (x : Z) (l : list Z) : Z := foldr Z.min x l.
Definition list_max (x : Z) (l : list Z) : Z := foldr Z.max x l.

(** [bitpacked_payload]; nothing when the range takes the whole width. *)
Definition bitpacked_payload (vw : nat) (values : list Z) : option (list Z) :=
  match values with
  | [] => Some []
  | x :: r =>
      let min := list_min x r in
      let width := Z.to_nat (Z.max (bit_width_for_range (list_max x r - min)) 1) in
      if decide (8 * vw <= width)%nat then None
      else Some (le_bytes vw min ++ [Z.of_nat width] ++ pack_values min width values)
  end.

(** The bit of the stored words at a position; words that are not there read as
    zero. *)
Definition bit_at (words : list Z) (pos : nat) : bool :=
  Z.testbit (default 0 (words !! (pos / 64)%nat)) (Z.of_nat (pos mod 64)).

Definition read_bits (words : list Z) (width pos : nat) : Z :=
  fold_left (fun acc i => if bit_at words (pos + i) then Z.lor acc (Z.shiftl 1 (Z.of_nat i)) else acc) (seq 0 width) 0.

(** The value of a base and an offset: saturating at 64 bits, cut to 32. *)
Definition add_base (vw : nat) (min adjusted : Z) : Z :=
  if decide (vw = 8%nat) then Z.min (min + adjusted) U64_MAX else (min + adjusted) mod 2 ^ 32.

Fixpoint read_values (words : list Z) (vw width : nat) (min : Z) (count pos : nat) : list Z :=
  match count with
  | O => []
  | S m => add_base vw min (read_bits words width pos) :: read_values words vw width min m (pos + width)
  end.

(** [as_chunks::<8>]: the whole words of the bytes. *)
Fixpoint whole_words (n : nat) (l : list Z) : list Z :=
  match n with
  | O => []
  | S m => of_le_bytes (take 8 l) :: whole_words m (drop 8 l)
  end.

Definition div_ceil (a b : Z) : Z := (a + b - 1) / b.

Definition decode_bitpacked_payload (vw : nat) (payload : list Z) (count : nat) : result (list Z) IoError :=
  if decide (count = 0%nat) then match payload with [] => Ok [] | _ => Err InvalidData end
  else if decide (length payload < vw + 1)%nat then Err UnexpectedEof
  else
    let min := of_le_bytes (take vw payload) in
    let width := Z.to_nat (default 0 (payload !! vw)) in
    if decide (width = 0%nat \/ (8 * vw <= width)%nat) then Err InvalidData
    else
      let rest := drop (vw + 1) payload in
      let words := whole_words (length rest / 8) rest in
      if decide (length rest <> (length words * 8)%nat) then Err InvalidData
      else
        let out := read_values words vw width min count 0 in
        if decide (Z.of_nat (length words) <> div_ceil (Z.of_nat (count * width)) 64) then Err InvalidData
        else Ok out.

(** *** Columns *)

(** [encode_topology_u64_column] ([vw = 8]) and [encode_topology_u32_column]
    ([vw = 4]): the smallest of the three forms. *)
Definition encode_column (vw : nat) (values : list Z) : TopologyEncodingChoice * list Z :=
  let plain := concat (map (le_bytes vw) values) in
  let plain_bytes := (length values * vw)%nat in
  let '(enc, payload, bytes) :=
    match bitpacked_payload vw values with
    | Some packed =>
        if decide (length packed < plain_bytes)%nat then (EncBitPacked, packed, length packed)
        else (EncPlain, plain, plain_bytes)
    | None => (EncPlain, plain, plain_bytes)
    end in
  let '(enc, payload, bytes) :=
    match values with
    | [] => (enc, payload, bytes)
    | _ =>
        let runs := rle_runs values in
        let rle_bytes := (length runs * (vw + 4))%nat in
        if decide (rle_bytes < bytes)%nat then (EncRle, rle_payload vw runs, rle_bytes) else (enc, payload, bytes)
    end in
  (mkChoice enc plain_bytes bytes,
   [encoding_as_u8 enc] ++ le_bytes 4 (Z.of_nat (length values)) ++ payload).

Definition encode_topology_u64_column (values : list Z) : TopologyEncodingChoice * list Z := encode_column 8 values.
Definition encode_topology_u32_column (values : list Z) : TopologyEncodingChoice * list Z := encode_column 4 values.
Definition encode_topology_i64_column (values : list Z) : TopologyEncodingChoice * list Z :=
  encode_topology_u64_column (map (as_unsigned 64) values).

Fixpoint read_uints (n vw : nat) : reader (list Z) :=
  match n with
  | O => r_ret []
  | S m => read! x := read_uint vw in read! l := read_uints m vw in r_ret (x :: l)
  end.

(** The run-length loop; every run adds a value, so as many rounds as values are
    enough. *)
Fixpoint read_runs (fuel vw : nat) (count : Z) (out : list Z) : reader (list Z) :=
  if decide (Z.of_nat (length out) < count) then
    match fuel with
    | O => r_fail InvalidData
    | S f =>
        read! value := read_uint vw in
        read! run := read_uint 4 in
        if decide (run = 0) then r_fail InvalidData
        else if decide (count < Z.of_nat (length out) + run) then r_fail InvalidData
        else read_runs f vw count (out ++ replicate (Z.to_nat run) value)
    end
  else r_ret out.

(** The bit-packed payload at the front of the input. *)
Definition read_bitpacked (vw : nat) (count : Z) : reader (list Z) := fun l =>
  let min_width_len := if decide (count = 0) then 0 else Z.of_nat (vw + 1) in
  if decide (Z.of_nat (length l) < min_width_len) then Err UnexpectedEof
  else
    let width := default 0 (l !! vw) in
    let payload_words := if decide (count = 0) then 0 else div_ceil (count * width) 64 in
    let payload_len := min_width_len + payload_words * 8 in
    if decide (Z.of_nat (length l) < payload_len) then Err UnexpectedEof
    else
      let n := Z.to_nat payload_len in
      match decode_bitpacked_payload vw (take n l) (Z.to_nat count) with
      | Err e => Err e
      | Ok values => Ok (values, drop n l)
      end.

(** Values of [vw] bytes, if there are so many. *)
Definition read_plain (vw : nat) (count : Z) : reader (list Z) := fun l =>
  if decide (Z.of_nat (length l) < count * Z.of_nat vw) then Err UnexpectedEof
  else read_uints (Z.to_nat count) vw l.

Definition decode_column (vw : nat) : reader (list Z) :=
  read! code := read_uint 1 in
  read! count := read_uint 4 in
  match encoding_from_u8 code with
  | None => r_fail InvalidData
  | Some EncPlain => read_plain vw count
  | Some EncBitPacked => read_bitpacked vw count
  | Some EncRle => read_runs (Z.to_nat count) vw count []
  end.

Definition decode_topology_u64_column : reader (list Z) := decode_column 8.
Definition decode_topology_u32_column : reader (list Z) := decode_column 4.
Definition decode_topology_i64_column : reader (list Z) :=
  read! wide := decode_topology_u64_column in r_ret (map (as_signed 64) wide).

(** *** Overflow chunks *)

(** The four columns of some slots. *)
Definition encode_slots (hots : list HotNbr) (colds : list ColdStamps) : list Z :=
  (encode_topology_u32_column (map h_endpoint hots)).2 ++ (encode_topology_i64_column (map h_rank hots)).2 ++
  (encode_topology_u64_column (map h_edge_id hots)).2 ++ (encode_topology_u64_column (map c_delete_ts colds)).2.

Definition encode_overflow_chunk (ch : OverflowChunk) : list Z :=
  le_bytes 4 (Z.of_nat (ch_len ch)) ++
  match ch_hot ch with [] => [] | _ => encode_slots (ch_hot ch) (ch_cold ch) end.

(** Four columns zipped to slots. *)
Definition zip_slots (eps ranks ids dels : list Z) : list Nbr :=
  zip_with (fun '(e, r) '(i, d) => mkNbr e r i d) (zip eps ranks) (zip ids dels).

Definition read_slots (n : Z) : reader (list Nbr) :=
  read! eps := decode_topology_u32_column in
  read! ranks := decode_topology_i64_column in
  read! ids := decode_topology_u64_column in
  read! dels := decode_topology_u64_column in
  if decide (Z.of_nat (length eps) <> n \/ Z.of_nat (length ranks) <> n \/ Z.of_nat (length ids) <> n \/
             Z.of_nat (length dels) <> n)
  then r_fail InvalidData
  else r_ret (zip_slots eps ranks ids dels).

Section dump.
Context `{Allocator} (crc32 : list Z -> Z).
Implicit Types (c : MutableCsr).

Definition decode_overflow_chunk : reader OverflowChunk :=
  read! len := read_uint 4 in
  if decide (len = 0) then r_ret (mkChunk [] [] 0)
  else
    read! slots := read_slots len in
    r_ret (fold_left ch_push slots (ch_with_capacity (Z.to_nat len))).

(** ** Dump *)

Definition nats (l : list nat) : list Z := map Z.of_nat l.

Definition dump_row c (vid : nat) : list Z :=
  let chunks := chunks_of c vid in
  le_bytes 4 (Z.of_nat (length chunks)) ++ concat (map encode_overflow_chunk chunks).

Definition dump_body c : list Z :=
  le_bytes 4 MUTABLE_CSR_FORMAT_VERSION ++ le_bytes 8 (Z.of_nat (length (adj_offsets c))) ++
  le_bytes 8 (edge_count c) ++ le_bytes 8 (Z.of_nat (length (hot_list c))) ++
  le_bytes 8 (Z.of_nat (overflow_chunk_edges c)) ++ le_bytes 8 (tombstone_reuse_cutoff c) ++
  (encode_topology_u32_column (nats (adj_offsets c))).2 ++ (encode_topology_u32_column (nats (degrees c))).2 ++
  (encode_topology_u32_column (nats (primary_capacities c))).2 ++
  encode_slots (hot_list c) (cold_list c) ++
  concat (map (dump_row c) (seq 0 (length (adj_offsets c)))).

Definition csr_dump c : list Z := dump_body c ++ le_bytes 4 (crc32 (dump_body c)).

(** ** Load *)

Fixpoint read_chunks (n : nat) (chunk_edges : Z) : reader (list OverflowChunk) :=
  match n with
  | O => r_ret []
  | S m =>
      read! ch := decode_overflow_chunk in
      if decide (chunk_edges < Z.of_nat (ch_len ch)) then r_fail InvalidData
      else read! r := read_chunks m chunk_edges in r_ret (ch :: r)
  end.

(** Rows of chunks.  A chunk takes four bytes at least, so the loop over more chunks
    than the rest of the input can hold ends in an error; here it does at once. *)
Definition read_row (chunk_edges : Z) : reader (list OverflowChunk) :=
  read! n := read_uint 4 in
  fun l => if decide (Z.of_nat (length l) < 4 * n) then Err UnexpectedEof
           else read_chunks (Z.to_nat n) chunk_edges l.

Fixpoint read_rows (n : nat) (chunk_edges : Z) : reader (list (list OverflowChunk)) :=
  match n with
  | O => r_ret []
  | S m => read! r := read_row chunk_edges in read! rs := read_rows m chunk_edges in r_ret (r :: rs)
  end.

Record Header := mkHeader {
  hd_vertex_capacity : Z;
  hd_edge_count : Z;
  hd_primary_len : Z;
  hd_chunk_edges : Z;
  hd_cutoff : Z;
}.

Definition read_header : reader Header :=
  read! version := read_uint 4 in
  if decide (version <> MUTABLE_CSR_FORMAT_VERSION) then r_fail InvalidData
  else
    read! vc := read_uint 8 in
    read! ec := read_uint 8 in
    read! pl := read_uint 8 in
    read! ce := read_uint 8 in
    if decide (ce = 0) then r_fail InvalidData
    else read! cut := read_uint 8 in r_ret (mkHeader vc ec pl ce cut).

(** What a dump holds. *)
Record Image := mkImage {
  im_header : Header;
  im_offsets : list Z;
  im_degrees : list Z;
  im_capacities : list Z;
  im_slots : list Nbr;
  im_rows : list (list OverflowChunk);
}.

(** A row that lies inside the lists. *)
Definition row_in_range (primary_len off deg cap : Z) : bool :=
  bool_decide (deg <= cap) && bool_decide (off + deg <= primary_len) && bool_decide (off + cap <= primary_len).

Fixpoint rows_in_range (primary_len : Z) (offs degs caps : list Z) : bool :=
  match offs, degs, caps with
  | o :: os, d :: ds, k :: ks => row_in_range primary_len o d k && rows_in_range primary_len os ds ks
  | _, _, _ => true
  end.

Definition live_slots (l : list Nbr) : nat := length (List.filter live_edge l).

Definition row_slots (chunks : list OverflowChunk) : list Nbr := concat (map ch_slots chunks).

Definition read_image : reader Image :=
  read! h := read_header in
  read! offs := decode_topology_u32_column in
  read! degs := decode_topology_u32_column in
  read! caps := decode_topology_u32_column in
  let vc := hd_vertex_capacity h in
  if decide (Z.of_nat (length offs) <> vc \/ Z.of_nat (length degs) <> vc \/ Z.of_nat (length caps) <> vc)
  then r_fail InvalidData
  else
    read! slots := read_slots (hd_primary_len h) in
    if negb (rows_in_range (hd_primary_len h) offs degs caps) then r_fail InvalidData
    else
      read! rows := read_rows (length offs) (hd_chunk_edges h) in
      if decide (Z.of_nat (live_slots slots + foldr (fun r n => live_slots (row_slots r) + n)%nat 0%nat rows) <> hd_edge_count h)
      then r_fail InvalidData
      else r_ret (mkImage h offs degs caps slots rows).

(** The live keys of a row that the index is built from: gaps are skipped. *)
Fixpoint load_positions (pos : nat -> EdgePosition) (i : nat) (l : list Nbr) : list (key * EdgePosition) :=
  match l with
  | [] => []
  | n :: r => if live_edge n then (nbr_key n, pos i) :: load_positions pos (S i) r else load_positions pos (S i) r
  end.

Fixpoint load_chunk_positions (j : nat) (cs : list OverflowChunk) : list (key * EdgePosition) :=
  match cs with
  | [] => []
  | ch :: r => load_positions (PosOverflow j) 0 (ch_slots ch) ++ load_chunk_positions (S j) r
  end.

Definition load_overflow (rows : list (list OverflowChunk)) : OverflowTable OverflowChunk :=
  fold_left (fun t '(vid, chunks) => match chunks with [] => t | _ => ot_insert vid chunks t end)
    (zip (seq 0 (length rows)) rows) ot_new.

Definition load_index c (s : LiveSetStorage) (vid : nat) : LiveSetStorage :=
  let keys := load_positions PosPrimary 0 (primary c vid) ++ load_chunk_positions 0 (chunks_of c vid) in
  if decide (LIVE_SET_WIDTH_BOUND < length keys)%nat then ls_insert vid (from_positions keys) s else s.

(** The store of an image, in place of an old one, before its index and counters. *)
Definition load_base (im : Image) c : MutableCsr :=
  let h := im_header im in
  let vc := length (im_offsets im) in
  let slots := im_slots im in
  let cap := foldr (fun r n => foldr (fun ch m => Nat.max (ch_cap ch) 1 + m) 0 r + n)%nat 0%nat (im_rows im) in
  mkCsr (map hot slots) (map cold slots) (map Z.to_nat (im_offsets im)) (map Z.to_nat (im_degrees im))
    (map Z.to_nat (im_capacities im)) (load_overflow (im_rows im)) (Z.to_nat (hd_chunk_edges h))
    (ls_ensure_capacity vc (ls_clear (live_sets c))) (hd_cutoff h) (replicate vc REUSE_HINT_UNKNOWN)
    (replicate vc 0%nat) (replicate vc 0%nat) (replicate vc false) (hd_edge_count h)
    (length slots + cap)%nat.

Definition load_store (im : Image) c : MutableCsr :=
  let c1 := load_base im c in
  let vids := seq 0 (length (im_offsets im)) in
  let live v := count_live (row c1 v) in
  set_counts (map live vids) (map (fun v => (length (row c1 v) - live v)%nat) vids)
    (set_live_sets (fold_left (load_index c1) vids (live_sets c1)) c1).

(** [load]: the store, and whether it was accepted.  Bytes left over are found
    only after the store has been replaced. *)
Definition csr_load (data : list Z) c : MutableCsr * bool :=
  if decide (length data < 40)%nat then (c, false)
  else
    let body := take (length data - 4) data in
    if decide (of_le_bytes (drop (length data - 4) data) <> crc32 body) then (c, false)
    else
      match read_image body with
      | Err _ => (c, false)
      | Ok (im, []) => (load_store im c, true)
      | Ok (im, _) => (load_store im c, false)
      end.

End dump.
End CsrCodec.

(** * Columns read back as written

    Whatever of the three forms a column is written in, the decoder returns its
    values and leaves the rest of the input. *)

Module CsrCodecFacts.
Import Codec CodecFacts IxFiles IxFilesFacts CsrShared Csr CsrRead CsrCodec.
#[local] Open Scope reader_scope.

(** ** Readers *)

(** [p] reads [v] from the bytes [x], whatever follows them. *)
Definition parses {A} (p : reader A) (x : list Z) (v : A) : Prop := forall r, p (x ++ r) = Ok (v, r).

Lemma parses_ret {A} (v : A) : parses (r_ret v) [] v.
Proof. done. Qed.

Lemma parses_bind {A B} (p : reader A) (f : A -> reader B) x y v w :
  parses p x v -> parses (f v) y w -> parses (r_bind p f) (x ++ y) w.
Proof. intros Hp Hf r. unfold r_bind. by rewrite <- app_assoc, Hp. Qed.

Lemma parses_map {A B} (p : reader A) (f : A -> reader B) x v w : parses p x v -> parses (f v) [] w -> parses (r_bind p f) x w.
Proof. intros Hp Hf. rewrite <- (app_nil_r x). by eapply parses_bind. Qed.

Lemma parses_uint n z : 0 <= z < 256 ^ Z.of_nat n -> parses (read_uint n) (le_bytes n z) z.
Proof. intros Hz r. by apply reads_uint. Qed.

Lemma parses_byte z : 0 <= z < 256 -> parses (read_uint 1) [z] z.
Proof. intros Hz r. by apply reads_byte. Qed.

(** A value of [n] bytes. *)
Definition in_width (n : nat) (z : Z) : Prop := 0 <= z < 256 ^ Z.of_nat n.

(** ** Plain *)

Lemma parses_uints vw l : Forall (in_width vw) l -> parses (read_uints (length l) vw) (concat (map (le_bytes vw) l)) l.
Proof.
  induction 1 as [|x l Hx _ IH]; [apply parses_ret|]. simpl. eapply parses_bind; [by apply parses_uint|].
  eapply parses_map; [exact IH|apply parses_ret].
Qed.

Lemma concat_le_length vw l : length (concat (map (le_bytes vw) l)) = (length l * vw)%nat.
Proof. induction l as [|x l IH]; simpl; [done|]. rewrite length_app, length_le_bytes, IH. done. Qed.

Lemma parses_plain vw l :
  Forall (in_width vw) l -> parses (read_plain vw (Z.of_nat (length l))) (concat (map (le_bytes vw) l)) l.
Proof.
  intros Hl r. unfold read_plain. rewrite decide_False by (rewrite length_app, concat_le_length; lia).
  rewrite Nat2Z.id. by apply parses_uints.
Qed.

(** ** Runs *)

Definition unrle (runs : list (Z * Z)) : list Z := concat (map (fun r => replicate (Z.to_nat r.2) r.1) runs).

Lemma unrle_app a b : unrle (a ++ b) = unrle a ++ unrle b.
Proof. unfold unrle. by rewrite map_app, concat_app. Qed.

Lemma push_run_spec runs v :
  Z.of_nat (length (unrle runs)) < 2 ^ 32 - 1 -> Forall (fun r => 1 <= r.2) runs ->
  unrle (push_run runs v) = unrle runs ++ [v] /\ Forall (fun r => 1 <= r.2) (push_run runs v).
Proof.
  intros Hl Hr. unfold push_run. destruct runs as [|[x k] runs] using rev_ind; [by split; [|by repeat constructor]|].
  clear IHruns. rewrite last_snoc. apply Forall_app in Hr as [Hr Hk]. apply Forall_cons in Hk as [Hk _]. simpl in Hk.
  rewrite unrle_app, length_app in Hl. assert (E1 : unrle [(x, k)] = replicate (Z.to_nat k) x) by (unfold unrle; simpl; by rewrite app_nil_r).
  rewrite E1, length_replicate in Hl. case_decide as E.
  - subst x. rewrite length_app. simpl. replace (pred (length runs + 1)) with (length runs) by lia. rewrite take_app_length.
    rewrite !unrle_app, E1. rewrite Z.min_l by lia. split.
    + rewrite <- app_assoc. f_equal. unfold unrle. simpl. rewrite app_nil_r. replace (Z.to_nat (k + 1)) with (S (Z.to_nat k)) by lia.
      apply replicate_S_end.
    + apply Forall_app. split; [done|]. repeat constructor. simpl. lia.
  - split; [rewrite unrle_app; done|]. apply Forall_app. split; [apply Forall_app; split; [done|by repeat constructor]|by repeat constructor].
Qed.

Lemma rle_runs_spec l :
  Z.of_nat (length l) < 2 ^ 32 - 1 -> unrle (rle_runs l) = l /\ Forall (fun r => 1 <= r.2) (rle_runs l).
Proof.
  unfold rle_runs. assert (Hgen : forall l runs, Z.of_nat (length (unrle runs) + length l) < 2 ^ 32 - 1 -> Forall (fun r => 1 <= r.2) runs ->
    unrle (fold_left push_run l runs) = unrle runs ++ l /\ Forall (fun r => 1 <= r.2) (fold_left push_run l runs)).
  { clear. induction l as [|v l IH]; intros runs Hl Hr; simpl; [by rewrite app_nil_r|]. simpl in Hl.
    destruct (push_run_spec runs v) as [H1 H2]; [lia|done|]. destruct (IH (push_run runs v)) as [H3 H4]; [|done|].
    - rewrite H1, length_app. simpl. lia.
    - split; [|done]. by rewrite H3, H1, <- app_assoc. }
  intros Hl. apply (Hgen l []); [simpl; lia|constructor].
Qed.

Lemma unrle_length_runs runs : Forall (fun r => 1 <= r.2) runs -> (length runs <= length (unrle runs))%nat.
Proof. induction 1 as [|r runs Hr _ IH]; [done|]. unfold unrle in *. simpl. rewrite length_app, length_replicate. lia. Qed.

Lemma parses_runs vw fuel out runs :
  Forall (fun r => 1 <= r.2) runs -> Forall (in_width vw) (unrle runs) -> (length runs <= fuel)%nat ->
  Z.of_nat (length (unrle runs)) < 2 ^ 32 ->
  parses (read_runs fuel vw (Z.of_nat (length out + length (unrle runs))) out) (rle_payload vw runs) (out ++ unrle runs).
Proof.
  intros Hr. revert fuel out. induction Hr as [|[v k] runs Hk Hr IH]; intros fuel out Hw Hf Hl.
  - change (unrle []) with (@nil Z). intros r. simpl. rewrite Nat.add_0_r, app_nil_r. destruct fuel; simpl; by rewrite decide_False by lia.
  - simpl in Hk. destruct fuel as [|fuel]; [simpl in Hf; lia|]. change ((v, k) :: runs) with ([(v, k)] ++ runs) in *.
    assert (E1 : unrle [(v, k)] = replicate (Z.to_nat k) v) by (unfold unrle; simpl; by rewrite app_nil_r).
    rewrite unrle_app, E1 in *. rewrite length_app, length_replicate in *. apply Forall_app in Hw as [Hv Hw].
    assert (Hvw : in_width vw v). { destruct (Z.to_nat k) eqn:Ek; [lia|]. simpl in Hv. by apply Forall_cons in Hv as [? _]. }
    assert (Er : rle_payload vw ([(v, k)] ++ runs) = le_bytes vw v ++ le_bytes 4 k ++ rle_payload vw runs).
    { unfold rle_payload. simpl. by rewrite <- app_assoc. }
    rewrite Er. simpl read_runs. rewrite decide_True by lia.
    eapply parses_bind; [by apply parses_uint|]. eapply parses_bind.
    { apply parses_uint. change (256 ^ Z.of_nat 4) with (2 ^ 32). lia. }
    cbn beta. rewrite decide_False by lia. rewrite decide_False by lia.
    specialize (IH fuel (out ++ replicate (Z.to_nat k) v) Hw ltac:(simpl in Hf; lia) ltac:(lia)).
    rewrite length_app, length_replicate, <- Nat.add_assoc, <- app_assoc in IH. exact IH.
Qed.

(** ** Bits *)

Lemma bits_of_value width z i : (i < width)%nat -> value_bits width z !! i = Some (Z.testbit z (Z.of_nat i)).
Proof. intros Hi. unfold value_bits. change (map ?f ?l) with (f <$> l). by rewrite list_lookup_fmap, lookup_seq_lt. Qed.

Lemma value_bits_length width z : length (value_bits width z) = width.
Proof. unfold value_bits. by rewrite length_map, length_seq. Qed.

(** The words and the unfinished word hold the bits pushed so far. *)
Record holds (B : list bool) (st : list Z * Z * nat) (ws : list Z) : Prop := {
  hl_out : st.1.1 = concat (map (le_bytes 8) ws);
  hl_filled : (st.2 < 64)%nat;
  hl_length : length B = (64 * length ws + st.2)%nat;
  hl_words : Forall (fun w => 0 <= w < 2 ^ 64) ws;
  hl_current : 0 <= st.1.2 < 2 ^ Z.of_nat st.2;
  hl_bits pos : (pos < length B)%nat -> B !! pos = Some (bit_at (ws ++ [st.1.2]) pos);
}.

Lemma testbit_small z n m : 0 <= z < 2 ^ Z.of_nat n -> (n <= m)%nat -> Z.testbit z (Z.of_nat m) = false.
Proof.
  intros Hz Hm. destruct (decide (z = 0)) as [->|Hne]; [apply Z.bits_0|]. apply Z.bits_above_log2; [lia|].
  apply Z.log2_lt_pow2; [lia|]. pose proof (Z.pow_le_mono_r 2 (Z.of_nat n) (Z.of_nat m)). lia.
Qed.

(** Setting a bit. *)
Lemma set_bit_spec z (n i : nat) : Z.testbit (Z.lor z (Z.shiftl 1 (Z.of_nat n))) (Z.of_nat i) = Z.testbit z (Z.of_nat i) || bool_decide (i = n).
Proof.
  rewrite Z.lor_spec, Z.shiftl_1_l. f_equal. case_bool_decide as E; [subst; by rewrite Z.pow2_bits_true by lia|].
  by rewrite Z.pow2_bits_false by lia.
Qed.

Lemma set_bit_lt z n : 0 <= z < 2 ^ Z.of_nat n -> 0 <= Z.lor z (Z.shiftl 1 (Z.of_nat n)) < 2 ^ Z.of_nat (S n).
Proof.
  intros Hz. assert (Hpos : 0 <= Z.lor z (Z.shiftl 1 (Z.of_nat n))).
  { apply Z.lor_nonneg. split; [lia|]. rewrite Z.shiftl_1_l. lia. }
  split; [done|]. destruct (decide (Z.lor z (Z.shiftl 1 (Z.of_nat n)) = 0)) as [->|Hne]; [lia|].
  apply Z.log2_lt_pow2; [lia|]. rewrite Z.log2_lor, Z.shiftl_1_l, Z.log2_pow2 by (rewrite ?Z.shiftl_1_l; lia).
  destruct (decide (z = 0)) as [->|Hz0]; [simpl; lia|]. assert (Z.log2 z < Z.of_nat n) by (apply Z.log2_lt_pow2; lia). lia.
Qed.

(** *** Words *)

Lemma bit_at_pad ws pos : bit_at (ws ++ [0]) pos = bit_at ws pos.
Proof.
  unfold bit_at. destruct (decide (pos / 64 < length ws)%nat) as [Hlt|Hge]; [by rewrite lookup_app_l|].
  rewrite lookup_app_r, (lookup_ge_None_2 ws) by lia. by destruct (pos / 64 - length ws)%nat as [|[]].
Qed.

Lemma bit_at_current ws cur f : (f < 64)%nat -> bit_at (ws ++ [cur]) (64 * length ws + f) = Z.testbit cur (Z.of_nat f).
Proof.
  intros Hf. unfold bit_at. rewrite Nat.mul_comm, Nat.div_add_l, Nat.div_small, Nat.add_0_r by lia.
  rewrite list_lookup_middle by done. rewrite Nat.add_comm, Nat.Div0.mod_add, Nat.mod_small by lia. done.
Qed.

(** Words that differ above the bits written read alike. *)
Lemma bit_at_same ws cur cur' f pos :
  (forall i, (i < f)%nat -> Z.testbit cur' (Z.of_nat i) = Z.testbit cur (Z.of_nat i)) -> (f <= 64)%nat ->
  (pos < 64 * length ws + f)%nat -> bit_at (ws ++ [cur']) pos = bit_at (ws ++ [cur]) pos.
Proof.
  intros Hs Hf Hpos. destruct (decide (pos < 64 * length ws)%nat) as [Hlt|Hge].
  - unfold bit_at. assert (pos / 64 < length ws)%nat by (apply Nat.Div0.div_lt_upper_bound; lia). by rewrite !lookup_app_l.
  - replace pos with (64 * length ws + (pos - 64 * length ws))%nat by lia. rewrite !bit_at_current by lia. apply Hs. lia.
Qed.

Lemma concat_words_snoc ws w : concat (map (le_bytes 8) (ws ++ [w])) = concat (map (le_bytes 8) ws) ++ le_bytes 8 w.
Proof. rewrite map_app, concat_app. cbn [map concat]. by rewrite app_nil_r. Qed.

Lemma push_bit_holds B st ws b : holds B st ws -> exists ws', holds (B ++ [b]) (push_bit st b) ws'.
Proof.
  destruct st as [[out cur] f]. intros [Ho Hf HB Hw Hc Hb]. simpl in *.
  set (cur' := if b then Z.lor cur (Z.shiftl 1 (Z.of_nat f)) else cur).
  assert (Hc' : 0 <= cur' < 2 ^ Z.of_nat (S f)).
  { subst cur'. destruct b; [by apply set_bit_lt|]. rewrite Nat2Z.inj_succ, Z.pow_succ_r by lia. lia. }
  assert (Hbits : forall pos, (pos < length (B ++ [b]))%nat -> (B ++ [b]) !! pos = Some (bit_at (ws ++ [cur']) pos)).
  { intros pos Hpos. rewrite length_app in Hpos. simpl in Hpos. destruct (decide (pos < length B)%nat) as [Hlt|Hge].
    - rewrite lookup_app_l, Hb by done. f_equal. symmetry. apply (bit_at_same _ _ _ f); [|lia|lia].
      intros i Hi. subst cur'. destruct b; [|done]. rewrite set_bit_spec, bool_decide_false by lia. apply orb_false_r.
    - assert (pos = length B) as -> by lia. rewrite list_lookup_middle by done. rewrite HB, bit_at_current by done. f_equal.
      subst cur'. destruct b; [by rewrite set_bit_spec, bool_decide_true, orb_true_r|]. by rewrite (testbit_small cur f f). }
  unfold push_bit. fold cur'. case_decide as E.
  - exists (ws ++ [cur']). split; simpl; [by rewrite Ho, concat_words_snoc|lia| | | |].
    + rewrite !length_app. simpl. lia.
    + apply Forall_app. split; [done|]. repeat constructor; [lia|]. rewrite E in Hc'. apply Hc'.
    + change (2 ^ Z.of_nat 0) with 1. lia.
    + intros pos Hpos. rewrite bit_at_pad. by apply Hbits.
  - exists ws. split; simpl; [done|lia| |done|done|done]. rewrite length_app. simpl. lia.
Qed.

Lemma push_bits_holds bits B st ws : holds B st ws -> exists ws', holds (B ++ bits) (fold_left push_bit bits st) ws'.
Proof.
  revert B st ws. induction bits as [|b bits IH]; intros B st ws Hh; simpl; [exists ws; by rewrite app_nil_r|].
  apply (push_bit_holds _ _ _ b) in Hh as [ws1 Hh]. apply IH in Hh as [ws2 Hh]. exists ws2. by rewrite <- app_assoc in Hh.
Qed.

(** The words of a flushed writer. *)
Lemma flush_words B st ws : holds B st ws -> exists words,
  flush st = concat (map (le_bytes 8) words) /\ Forall (fun w => 0 <= w < 2 ^ 64) words /\
  Z.of_nat (length words) = div_ceil (Z.of_nat (length B)) 64 /\
  (forall pos, (pos < length B)%nat -> B !! pos = Some (bit_at words pos)).
Proof.
  destruct st as [[out cur] f]. intros [Ho Hf HB Hw Hc Hb]. simpl in *. unfold div_ceil. rewrite HB. case_decide as E.
  - exists (ws ++ [cur]). split_and!; [by rewrite Ho, concat_words_snoc| | |rewrite <- HB; exact Hb].
    + apply Forall_app. split; [done|]. repeat constructor; [lia|].
      pose proof (Z.pow_le_mono_r 2 (Z.of_nat f) 64). lia.
    + rewrite length_app. simpl. apply (Z.div_unique _ _ _ (Z.of_nat f - 1)); lia.
  - assert (f = 0%nat) as -> by lia. change (2 ^ Z.of_nat 0) with 1 in Hc. assert (cur = 0) as -> by lia.
    exists ws. split_and!; [done|done| |].
    + apply (Z.div_unique _ _ _ 63); lia.
    + intros pos Hpos. rewrite <- bit_at_pad. apply Hb. lia.
Qed.

Lemma whole_words_concat ws : Forall (fun w => 0 <= w < 2 ^ 64) ws -> whole_words (length ws) (concat (map (le_bytes 8) ws)) = ws.
Proof.
  induction 1 as [|w ws Hw _ IH]; [done|]. cbn [whole_words length map concat].
  rewrite take_app_length', drop_app_length' by (symmetry; apply length_le_bytes). rewrite IH. f_equal. by apply of_le_bytes_le.
Qed.

(** *** Values *)

Lemma read_bits_spec words width pos z :
  0 <= z < 2 ^ Z.of_nat width -> (forall i, (i < width)%nat -> bit_at words (pos + i) = Z.testbit z (Z.of_nat i)) ->
  read_bits words width pos = z.
Proof.
  intros Hz Hb. unfold read_bits.
  assert (Hgen : forall k : nat, (k <= width)%nat -> forall i : nat,
    Z.testbit (fold_left (fun acc i => if bit_at words (pos + i) then Z.lor acc (Z.shiftl 1 (Z.of_nat i)) else acc) (seq 0 k) 0) (Z.of_nat i) =
    bool_decide (i < k)%nat && Z.testbit z (Z.of_nat i)).
  { induction k as [|k IH]; intros Hk i; [by rewrite Z.bits_0|]. rewrite seq_S, fold_left_app. simpl.
    rewrite Hb by lia. destruct (Z.testbit z (Z.of_nat k)) eqn:Ek; [rewrite set_bit_spec|]; rewrite IH by lia;
      destruct (decide (i = k)) as [->|Hne]; rewrite ?Ek; repeat case_bool_decide; try lia;
      by rewrite ?andb_false_r, ?orb_true_r, ?orb_false_r. }
  apply Z.bits_inj'. intros i Hi. rewrite <- (Z2Nat.id i) by done. rewrite Hgen by done.
  case_bool_decide as E; [done|]. symmetry. apply (testbit_small _ width); [done|lia].
Qed.

Lemma add_base_spec vw min v : vw = 4%nat \/ vw = 8%nat -> in_width vw v -> add_base vw min (v - min) = v.
Proof.
  intros [->| ->] Hv; unfold add_base, in_width in *; simpl decide; replace (min + (v - min)) with v by lia.
  - change (256 ^ Z.of_nat 4) with (2 ^ 32) in Hv. rewrite decide_False by lia. by apply Z.mod_small.
  - change (256 ^ Z.of_nat 8) with (2 ^ 64) in Hv. rewrite decide_True by done. unfold U64_MAX. lia.
Qed.

Lemma read_values_spec words vw width min values pos :
  vw = 4%nat \/ vw = 8%nat -> Forall (fun v => in_width vw v /\ 0 <= v - min < 2 ^ Z.of_nat width) values ->
  (forall i, (i < length values * width)%nat ->
     concat (map (fun v => value_bits width (v - min)) values) !! i = Some (bit_at words (pos + i))) ->
  read_values words vw width min (length values) pos = values.
Proof.
  intros Hvw HF. revert pos. induction HF as [|v values [Hv Hr] _ IH]; intros pos Hb; [done|].
  cbn [read_values length map concat] in *. f_equal.
  - rewrite (read_bits_spec _ _ _ (v - min)); [by apply add_base_spec|done|].
    intros i Hi. specialize (Hb i ltac:(simpl; lia)). rewrite lookup_app_l, bits_of_value in Hb by (rewrite ?value_bits_length; lia).
    by injection Hb as <-.
  - apply IH. intros i Hi. specialize (Hb (width + i)%nat ltac:(simpl; lia)).
    rewrite lookup_app_r, value_bits_length in Hb by (rewrite value_bits_length; lia).
    replace (width + i - width)%nat with i in Hb by lia. by rewrite Nat.add_assoc in Hb.
Qed.

Lemma fold_left_concat {A B C} (f : A -> B -> A) (g : C -> list B) l a :
  fold_left (fun st v => fold_left f (g v) st) l a = fold_left f (concat (map g l)) a.
Proof. revert a. induction l as [|x l IH]; intros a; simpl; [done|]. by rewrite fold_left_app, IH. Qed.

Lemma concat_bits_length width min values : length (concat (map (fun v => value_bits width (v - min)) values)) = (length values * width)%nat.
Proof. induction values as [|v l IH]; simpl; [done|]. by rewrite length_app, value_bits_length, IH. Qed.

Lemma pack_values_words min width values : exists words,
  pack_values min width values = concat (map (le_bytes 8) words) /\ Forall (fun w => 0 <= w < 2 ^ 64) words /\
  Z.of_nat (length words) = div_ceil (Z.of_nat (length values * width)) 64 /\
  (forall pos, (pos < length values * width)%nat ->
     concat (map (fun v => value_bits width (v - min)) values) !! pos = Some (bit_at words pos)).
Proof.
  unfold pack_values. rewrite (fold_left_concat push_bit (fun v => value_bits width (v - min))).
  rewrite <- concat_bits_length with (min := min).
  assert (H0 : holds [] ([], 0, 0%nat) []).
  { split; simpl; [done|lia|done|constructor|change (2 ^ Z.of_nat 0) with 1; lia|lia]. }
  apply (push_bits_holds (concat (map (fun v => value_bits width (v - min)) values))) in H0 as [ws H0].
  by apply flush_words in H0.
Qed.

(** ** The bit-packed form *)

Lemma list_min_le x l v : v ∈ x :: l -> list_min x l <= v.
Proof.
  unfold list_min. induction l as [|y l IH]; simpl; intros Hv; [set_solver by lia|].
  apply elem_of_cons in Hv as [->|Hv]; [specialize (IH ltac:(left)); lia|].
  apply elem_of_cons in Hv as [->|Hv]; [lia|]. specialize (IH ltac:(by right)). lia.
Qed.

Lemma list_max_ge x l v : v ∈ x :: l -> v <= list_max x l.
Proof.
  unfold list_max. induction l as [|y l IH]; simpl; intros Hv; [set_solver by lia|].
  apply elem_of_cons in Hv as [->|Hv]; [specialize (IH ltac:(left)); lia|].
  apply elem_of_cons in Hv as [->|Hv]; [lia|]. specialize (IH ltac:(by right)). lia.
Qed.

Lemma list_min_in x l : list_min x l ∈ x :: l.
Proof.
  unfold list_min. induction l as [|y l IH]; simpl; [left|].
  destruct (Z.min_spec y (foldr Z.min x l)) as [[_ ->]|[_ ->]]; set_solver.
Qed.

Lemma range_fits range v : 0 <= v <= range -> 0 <= v < 2 ^ Z.of_nat (Z.to_nat (Z.max (bit_width_for_range range) 1)).
Proof.
  intros Hv. split; [lia|]. unfold bit_width_for_range. case_decide as E; [subst; change (2 ^ _) with 2; lia|].
  pose proof (Z.log2_nonneg range). rewrite Z2Nat.id, Z.max_l by lia. pose proof (Z.log2_spec range ltac:(lia)).
  replace (Z.log2 range + 1) with (Z.succ (Z.log2 range)) by lia. lia.
Qed.

Lemma decode_bitpacked vw min width values words :
  vw = 4%nat \/ vw = 8%nat -> values <> [] -> in_width vw min -> (0 < width < 8 * vw)%nat ->
  Forall (fun v => in_width vw v /\ 0 <= v - min < 2 ^ Z.of_nat width) values -> Forall (fun w => 0 <= w < 2 ^ 64) words ->
  Z.of_nat (length words) = div_ceil (Z.of_nat (length values * width)) 64 ->
  (forall pos, (pos < length values * width)%nat ->
     concat (map (fun v => value_bits width (v - min)) values) !! pos = Some (bit_at words pos)) ->
  decode_bitpacked_payload vw (le_bytes vw min ++ [Z.of_nat width] ++ concat (map (le_bytes 8) words)) (length values) = Ok values.
Proof.
  intros Hvw Hne Hmin Hwd HF Hws Hlen Hbits. pose proof (length_le_bytes vw min) as Lm. unfold decode_bitpacked_payload.
  rewrite decide_False by (by destruct values). rewrite decide_False by (rewrite !length_app, Lm; simpl; lia).
  rewrite take_app_length', lookup_app_r, Lm, Nat.sub_diag by lia. cbn [app lookup list_lookup].
  change (default 0 (Some (Z.of_nat width))) with (Z.of_nat width). rewrite Nat2Z.id.
  rewrite decide_False by lia.
  replace (drop (vw + 1) _) with (concat (map (le_bytes 8) words)).
  2:{ rewrite drop_app_ge, Lm by lia. replace (vw + 1 - vw)%nat with 1%nat by lia. done. }
  rewrite concat_le_length, Nat.div_mul, whole_words_concat by done.
  rewrite decide_False by lia. rewrite decide_False by lia.
  rewrite (of_le_bytes_le vw min) by done. f_equal. by apply read_values_spec.
Qed.

Lemma parses_bitpacked vw values packed :
  vw = 4%nat \/ vw = 8%nat -> Forall (in_width vw) values -> bitpacked_payload vw values = Some packed ->
  parses (read_bitpacked vw (Z.of_nat (length values))) packed values.
Proof.
  intros Hvw HF Hp r. destruct values as [|x l]; [injection Hp as <-; unfold read_bitpacked; simpl; rewrite !decide_False by lia; done|].
  unfold bitpacked_payload in Hp. set (min := list_min x l) in *.
  set (width := Z.to_nat (Z.max (bit_width_for_range (list_max x l - min)) 1)) in *.
  case_decide as Hlt; [done|]. injection Hp as <-. set (values := x :: l) in *.
  destruct (pack_values_words min width values) as (words & Ew & Hws & Hlen & Hbits). rewrite Ew.
  assert (Hd : decode_bitpacked_payload vw (le_bytes vw min ++ [Z.of_nat width] ++ concat (map (le_bytes 8) words)) (length values) = Ok values).
  { apply decode_bitpacked; [done|done| | | |done|done|done].
    - rewrite Forall_forall in HF. apply HF, list_min_in.
    - subst width. lia.
    - rewrite !Forall_forall in *. intros v Hv. split; [by apply HF|]. apply range_fits.
      pose proof (list_min_le x l v Hv). pose proof (list_max_ge x l v Hv). lia. }
  pose proof (length_le_bytes vw min) as Lm. pose proof (concat_le_length 8 words) as Lw.
  set (payload := le_bytes vw min ++ _) in *.
  assert (Lp : length payload = (vw + 1 + 8 * length words)%nat) by (subst payload; rewrite !length_app, Lm, Lw; simpl; lia).
  unfold read_bitpacked. assert (Hn0 : Z.of_nat (length values) <> 0) by (subst values; simpl; lia).
  rewrite !(decide_False (P := Z.of_nat (length values) = 0)) by done.
  replace ((payload ++ r) !! vw) with (Some (Z.of_nat width)).
  2:{ subst payload. rewrite <- app_assoc, lookup_app_r, Lm, Nat.sub_diag by lia. done. }
  change (default 0 (Some (Z.of_nat width))) with (Z.of_nat width). cbv zeta. rewrite <- Nat2Z.inj_mul, <- Hlen.
  rewrite decide_False by (rewrite length_app, Lp; lia). rewrite decide_False by (rewrite length_app, Lp; lia).
  replace (Z.to_nat (Z.of_nat (vw + 1) + Z.of_nat (length words) * 8)) with (length payload) by lia.
  rewrite take_app_length, drop_app_length, Nat2Z.id, Hd. done.
Qed.

(** ** Columns *)

Lemma parses_column vw values :
  vw = 4%nat \/ vw = 8%nat -> Forall (in_width vw) values -> Z.of_nat (length values) < 2 ^ 32 - 1 ->
  parses (decode_column vw) (encode_column vw values).2 values.
Proof.
  intros Hvw HF Hl.
  assert (Hgen : forall e payload, match e with
      | EncPlain => parses (read_plain vw (Z.of_nat (length values))) payload values
      | EncBitPacked => parses (read_bitpacked vw (Z.of_nat (length values))) payload values
      | EncRle => parses (read_runs (Z.to_nat (Z.of_nat (length values))) vw (Z.of_nat (length values)) []) payload values
      end -> parses (decode_column vw) ([encoding_as_u8 e] ++ le_bytes 4 (Z.of_nat (length values)) ++ payload) values).
  { intros e payload He. unfold decode_column. eapply parses_bind; [apply parses_byte; destruct e; simpl; lia|].
    eapply parses_bind; [apply parses_uint; change (256 ^ Z.of_nat 4) with (2 ^ 32); lia|]. by destruct e. }
  assert (Hplain := parses_plain vw values HF).
  assert (Hrle : values <> [] -> parses (read_runs (Z.to_nat (Z.of_nat (length values))) vw (Z.of_nat (length values)) [])
                   (rle_payload vw (rle_runs values)) values).
  { intros _. destruct (rle_runs_spec values Hl) as [E1 E2]. pose proof (unrle_length_runs _ E2) as E3. rewrite E1 in E3.
    pose proof (parses_runs vw (length values) [] (rle_runs values) E2 ltac:(by rewrite E1) E3 ltac:(rewrite E1; lia)) as Hr.
    rewrite E1 in Hr. by rewrite Nat2Z.id. }
  unfold encode_column. destruct (bitpacked_payload vw values) as [packed|] eqn:Eb;
    [apply parses_bitpacked in Eb; [|done|done]; case_decide|];
    (destruct values as [|x l] eqn:Ev; [by apply Hgen|]; rewrite <- Ev in *; case_decide; apply Hgen; auto; apply Hrle; by rewrite Ev).
Qed.

Lemma parses_u32_column values :
  Forall (in_width 4) values -> Z.of_nat (length values) < 2 ^ 32 - 1 ->
  parses decode_topology_u32_column (encode_topology_u32_column values).2 values.
Proof. intros. apply parses_column; auto. Qed.

Lemma parses_u64_column values :
  Forall (in_width 8) values -> Z.of_nat (length values) < 2 ^ 32 - 1 ->
  parses decode_topology_u64_column (encode_topology_u64_column values).2 values.
Proof. intros. apply parses_column; auto. Qed.

(** A signed value of 64 bits. *)
Definition in_i64 (z : Z) : Prop := - 2 ^ 63 <= z < 2 ^ 63.

Lemma parses_i64_column values :
  Forall in_i64 values -> Z.of_nat (length values) < 2 ^ 32 - 1 ->
  parses decode_topology_i64_column (encode_topology_i64_column values).2 values.
Proof.
  intros HF Hl. unfold decode_topology_i64_column, encode_topology_i64_column. eapply parses_map.
  - apply parses_u64_column; [|by rewrite length_map]. rewrite Forall_map. eapply Forall_impl; [exact HF|].
    intros z _. unfold in_width, as_unsigned. apply Z.mod_pos_bound. lia.
  - intros r. unfold r_ret. simpl. do 2 f_equal. rewrite map_map. rewrite <- (map_id values) at 2.
    apply map_ext_in. intros z Hz. apply signed_unsigned; [lia|].
    rewrite Forall_forall in HF. apply HF. by apply list_elem_of_In.
Qed.


End CsrCodecFacts.
