(* ===== verification/CsrLoad.v ===== *)
(** * Dump and load of an edge store

    What is read from the bytes of a dump, and the store that is made of it. *)

From stdpp Require Import base gmap list sorting strings.
From Stdlib Require Import ZArith Lia.
From S2P Require Import Prelude Types Values Watermarks WalTypes OrderedCodec OrderedFacts IndexManifest IndexFiles IndexFilesFacts.
From S2P Require Import CsrShared MutableCsr CsrView CsrInv CsrCodec.

(** * The image of a dump

    What [read_image] finds in the bytes of a store: its columns, its slots and its
    chunks. *)

Module CsrDumpFacts.
Import Codec CodecFacts IxFiles IxFilesFacts CsrShared CsrSharedFacts Csr CsrRead CsrIndex CsrView CsrUpd CsrRowInv CsrCodec CsrCodecFacts.
#[local] Open Scope reader_scope.

(** The fields of a slot are in the range of their types. *)
Record slot_fits (n : Nbr) : Prop := {
  sf_endpoint : in_width 4 (endpoint n);
  sf_rank : in_i64 (nbr_rank n);
  sf_id : in_width 8 (edge_id n);
  sf_delete : in_width 8 (delete_ts n);
}.

Lemma zip_slots_id l : zip_slots (map endpoint l) (map nbr_rank l) (map edge_id l) (map delete_ts l) = l.
Proof. unfold zip_slots. induction l as [|[e r i d] l IH]; simpl; [done|]. by rewrite IH. Qed.

Lemma encode_slots_id l : encode_slots (map hot l) (map cold l) =
  (encode_topology_u32_column (map endpoint l)).2 ++ (encode_topology_i64_column (map nbr_rank l)).2 ++
  (encode_topology_u64_column (map edge_id l)).2 ++ (encode_topology_u64_column (map delete_ts l)).2.
Proof. unfold encode_slots. by rewrite !map_map. Qed.

Lemma parses_slots l :
  Forall slot_fits l -> Z.of_nat (length l) < 2 ^ 32 - 1 ->
  parses (read_slots (Z.of_nat (length l))) (encode_slots (map hot l) (map cold l)) l.
Proof.
  intros HF Hl. rewrite encode_slots_id.
  assert (Hm : forall {A} (f : Nbr -> A) (P : A -> Prop), (forall n, slot_fits n -> P (f n)) -> Forall P (map f l)).
  { intros A f P Hf. rewrite Forall_map. eapply Forall_impl; [exact HF|done]. }
  unfold read_slots. eapply parses_bind; [apply parses_u32_column; [apply Hm; by intros ? []|by rewrite length_map]|].
  eapply parses_bind; [apply parses_i64_column; [apply Hm; by intros ? []|by rewrite length_map]|].
  eapply parses_bind; [apply parses_u64_column; [apply Hm; by intros ? []|by rewrite length_map]|].
  eapply parses_map; [apply parses_u64_column; [apply Hm; by intros ? []|by rewrite length_map]|].
  rewrite !length_map. rewrite decide_False by lia. rewrite zip_slots_id. apply parses_ret.
Qed.

Section dump.
Context `{Allocator}.
Implicit Types (c : MutableCsr).

(** ** Chunks *)

(** A chunk as it is read back: the same slots, in a vector of its own. *)
Definition reloaded (ch : OverflowChunk) : OverflowChunk :=
  match ch_hot ch with [] => mkChunk [] [] 0 | _ => fold_left ch_push (ch_slots ch) (ch_with_capacity (ch_len ch)) end.

Lemma push_all_halves l ch :
  ch_hot (fold_left ch_push l ch) = ch_hot ch ++ map hot l /\ ch_cold (fold_left ch_push l ch) = ch_cold ch ++ map cold l.
Proof.
  revert ch. induction l as [|n l IH]; intros ch; simpl; [by rewrite !app_nil_r|].
  destruct (IH (ch_push ch n)) as [-> ->]. simpl. by rewrite <- !app_assoc.
Qed.

Lemma reloaded_halves ch : ch_ok ch -> ch_hot (reloaded ch) = ch_hot ch /\ ch_cold (reloaded ch) = ch_cold ch.
Proof.
  intros Ho. unfold reloaded. destruct (ch_hot ch) eqn:E.
  - unfold ch_ok in Ho. rewrite E in Ho. by destruct (ch_cold ch).
  - destruct (push_all_halves (ch_slots ch) (ch_with_capacity (ch_len ch))) as [-> ->]. rewrite <- E.
    unfold ch_slots. rewrite map_hot_zip, map_cold_zip by (by rewrite Ho). done.
Qed.

Lemma reloaded_slots ch : ch_ok ch -> ch_slots (reloaded ch) = ch_slots ch.
Proof. intros Ho. unfold ch_slots. by destruct (reloaded_halves ch Ho) as [-> ->]. Qed.

Lemma reloaded_ok ch : ch_ok ch -> ch_ok (reloaded ch).
Proof. intros Ho. unfold ch_ok. destruct (reloaded_halves ch Ho) as [-> ->]. done. Qed.

Lemma reloaded_len ch : ch_ok ch -> ch_len (reloaded ch) = ch_len ch.
Proof. intros Ho. unfold ch_len. by destruct (reloaded_halves ch Ho) as [-> _]. Qed.

Lemma ch_slots_size ch : ch_ok ch -> length (ch_slots ch) = ch_len ch.
Proof. intros Ho. unfold ch_slots, ch_len. rewrite length_zip_with, Ho. lia. Qed.

(** A chunk a load accepts. *)
Record chunk_fits (edges : nat) (ch : OverflowChunk) : Prop := {
  cf_ok : ch_ok ch;
  cf_slots : Forall slot_fits (ch_slots ch);
  cf_len : (ch_len ch <= edges)%nat;
  cf_width : Z.of_nat (ch_len ch) < 2 ^ 32 - 1;
}.

Lemma parses_chunk edges ch : chunk_fits edges ch -> parses decode_overflow_chunk (encode_overflow_chunk ch) (reloaded ch).
Proof.
  intros [Ho Hs He Hw]. unfold decode_overflow_chunk, encode_overflow_chunk.
  eapply parses_bind; [apply parses_uint; change (256 ^ Z.of_nat 4) with (2 ^ 32); lia|].
  unfold reloaded. destruct (ch_hot ch) as [|h hs] eqn:E; [unfold ch_len; by rewrite E|]. rewrite <- E.
  rewrite decide_False by (unfold ch_len; rewrite E; simpl; lia). rewrite <- ch_slots_size by done.
  eapply parses_map; [|rewrite Nat2Z.id; apply parses_ret].
  rewrite <- (map_hot_zip (ch_hot ch) (ch_cold ch)) by done. rewrite <- (map_cold_zip (ch_hot ch) (ch_cold ch)) at 2 by done.
  apply parses_slots; [done|]. rewrite ch_slots_size by done. lia.
Qed.

Lemma encode_chunk_length ch : (4 <= length (encode_overflow_chunk ch))%nat.
Proof. unfold encode_overflow_chunk. rewrite length_app, length_le_bytes. lia. Qed.

Lemma parses_chunks edges cs :
  Forall (chunk_fits edges) cs ->
  parses (read_chunks (length cs) (Z.of_nat edges)) (concat (map encode_overflow_chunk cs)) (map reloaded cs).
Proof.
  induction 1 as [|ch cs Hf _ IH]; [apply parses_ret|]. cbn [read_chunks map concat length]. eapply parses_bind; [by eapply parses_chunk|].
  destruct Hf as [Ho _ He _]. rewrite decide_False by (rewrite reloaded_len by done; lia).
  eapply parses_map; [exact IH|apply parses_ret].
Qed.

Lemma concat_chunks_length cs : (4 * length cs <= length (concat (map encode_overflow_chunk cs)))%nat.
Proof. induction cs as [|ch cs IH]; [done|]. cbn [map concat length]. rewrite length_app. pose proof (encode_chunk_length ch). lia. Qed.

Lemma parses_row edges cs :
  Forall (chunk_fits edges) cs -> Z.of_nat (length cs) < 2 ^ 32 ->
  parses (read_row (Z.of_nat edges)) (le_bytes 4 (Z.of_nat (length cs)) ++ concat (map encode_overflow_chunk cs)) (map reloaded cs).
Proof.
  intros HF Hl. unfold read_row. eapply parses_bind; [apply parses_uint; change (256 ^ Z.of_nat 4) with (2 ^ 32); lia|].
  intros r. cbn beta. pose proof (concat_chunks_length cs). rewrite decide_False by (rewrite length_app; lia).
  rewrite Nat2Z.id. by apply parses_chunks.
Qed.

Lemma parses_rows c vs :
  Forall (fun v => Forall (chunk_fits (overflow_chunk_edges c)) (chunks_of c v) /\ Z.of_nat (length (chunks_of c v)) < 2 ^ 32) vs ->
  parses (read_rows (length vs) (Z.of_nat (overflow_chunk_edges c))) (concat (map (dump_row c) vs))
    (map (fun v => map reloaded (chunks_of c v)) vs).
Proof.
  induction 1 as [|v vs [Hf Hl] _ IH]; [apply parses_ret|]. cbn [read_rows map concat length]. eapply parses_bind; [by apply parses_row|].
  eapply parses_map; [exact IH|apply parses_ret].
Qed.

(** ** Stores *)

(** A store whose fields are in the range of their types, whose chunks have the
    length the configuration allows, and whose live slots are all in a row. *)
Record dumpable c : Prop := {
  du_slots : Forall slot_fits (slots c);
  du_length : Z.of_nat (length (hot_list c)) < 2 ^ 32 - 1;
  du_vertices : Z.of_nat (vertex_capacity c) < 2 ^ 32 - 1;
  du_edges : in_width 8 (edge_count c);
  du_chunk_edges : (0 < overflow_chunk_edges c)%nat;
  du_chunk_width : in_width 8 (Z.of_nat (overflow_chunk_edges c));
  du_cutoff : in_width 8 (tombstone_reuse_cutoff c);
  du_chunks v : Forall (chunk_fits (overflow_chunk_edges c)) (chunks_of c v);
  du_rows v : Z.of_nat (length (chunks_of c v)) < 2 ^ 32;
  du_gaps v n : n ∈ row c v -> nbr_live n = true -> is_gap_edge (edge_id n) = false;
  du_inside i n : slots c !! i = Some n -> nbr_live n = true ->
    exists v, (offset_of c v <= i < offset_of c v + degree_of c v)%nat;
}.

Definition header c : Header :=
  mkHeader (Z.of_nat (vertex_capacity c)) (edge_count c) (Z.of_nat (length (hot_list c)))
    (Z.of_nat (overflow_chunk_edges c)) (tombstone_reuse_cutoff c).

Definition rows c : list (list OverflowChunk) :=
  map (fun v => map reloaded (chunks_of c v)) (seq 0 (vertex_capacity c)).

Definition image c : Image :=
  mkImage (header c) (nats (adj_offsets c)) (nats (degrees c)) (nats (primary_capacities c)) (slots c) (rows c).

Lemma parses_header c : dumpable c ->
  parses read_header
    (le_bytes 4 MUTABLE_CSR_FORMAT_VERSION ++ le_bytes 8 (Z.of_nat (vertex_capacity c)) ++ le_bytes 8 (edge_count c) ++
     le_bytes 8 (Z.of_nat (length (hot_list c))) ++ le_bytes 8 (Z.of_nat (overflow_chunk_edges c)) ++
     le_bytes 8 (tombstone_reuse_cutoff c)) (header c).
Proof.
  intros D. destruct D. unfold read_header. assert (E : 256 ^ Z.of_nat 8 = 2 ^ 64) by done.
  eapply parses_bind; [by apply parses_uint|]. rewrite decide_False by (intros Hn; by apply Hn).
  do 3 (eapply parses_bind; [apply parses_uint; first [done|lia]|]). eapply parses_bind; [by apply parses_uint|].
  rewrite decide_False by lia. eapply parses_map; [by apply parses_uint|apply parses_ret].
Qed.

Lemma at0_lookup l i x : l !! i = Some x -> at0 l i = x.
Proof. unfold at0. by intros ->. Qed.

(** Every row value is below the length of the lists. *)
Lemma row_values_fit c : geom c -> dumpable c ->
  Forall (in_width 4) (nats (adj_offsets c)) /\ Forall (in_width 4) (nats (degrees c)) /\
  Forall (in_width 4) (nats (primary_capacities c)).
Proof.
  intros G D. pose proof (du_length _ D) as Hl. assert (E : 256 ^ Z.of_nat 4 = 2 ^ 32) by done.
  split_and!; unfold nats; rewrite Forall_map; apply Forall_lookup; intros v x Hx; apply at0_lookup in Hx;
    destruct (g_row _ G v) as [Hd Ho]; unfold in_width, offset_of, degree_of, capacity_of in *; rewrite E; lia.
Qed.

Lemma rows_in_range_ok len l1 l2 l3 :
  length l1 = length l2 -> length l2 = length l3 ->
  (forall v, (v < length l1)%nat -> (at0 l2 v <= at0 l3 v)%nat /\ (at0 l1 v + at0 l3 v <= len)%nat) ->
  rows_in_range (Z.of_nat len) (nats l1) (nats l2) (nats l3) = true.
Proof.
  revert l2 l3. induction l1 as [|o l1 IH]; intros [|d l2] [|k l3] H1 H2 Hr; try done. simpl in *.
  pose proof (Hr 0%nat ltac:(lia)) as [Hd Ho]. unfold at0 in Hd, Ho. simpl in Hd, Ho.
  unfold row_in_range. rewrite !bool_decide_true by lia. apply IH; [lia|lia|].
  intros v Hv. apply (Hr (S v)). lia.
Qed.

(** The count a load compares with the one in the header. *)
Definition stored_live c : nat :=
  (live_slots (slots c) + foldr (fun r n => live_slots (row_slots r) + n) 0 (rows c))%nat.

Lemma parses_image c :
  geom c -> dumpable c -> edge_count c = Z.of_nat (stored_live c) -> parses read_image (dump_body c) (image c).
Proof.
  intros G D Hc. destruct (row_values_fit c G D) as (F1 & F2 & F3). pose proof (du_vertices _ D) as Hv.
  assert (Ld : length (nats (degrees c)) = vertex_capacity c) by (unfold nats; rewrite length_map; apply G).
  assert (Lc : length (nats (primary_capacities c)) = vertex_capacity c) by (unfold nats; rewrite length_map; apply G).
  assert (Lo : length (nats (adj_offsets c)) = vertex_capacity c) by (unfold nats; by rewrite length_map).
  unfold dump_body, read_image. fold (vertex_capacity c).
  match goal with |- parses _ ?x _ => replace x with ((le_bytes 4 MUTABLE_CSR_FORMAT_VERSION ++
    le_bytes 8 (Z.of_nat (vertex_capacity c)) ++ le_bytes 8 (edge_count c) ++ le_bytes 8 (Z.of_nat (length (hot_list c))) ++
    le_bytes 8 (Z.of_nat (overflow_chunk_edges c)) ++ le_bytes 8 (tombstone_reuse_cutoff c)) ++
    (encode_topology_u32_column (nats (adj_offsets c))).2 ++ (encode_topology_u32_column (nats (degrees c))).2 ++
    (encode_topology_u32_column (nats (primary_capacities c))).2 ++ encode_slots (hot_list c) (cold_list c) ++
    concat (map (dump_row c) (seq 0 (vertex_capacity c)))) by (by rewrite <- !app_assoc) end.
  eapply parses_bind; [by apply parses_header|].
  eapply parses_bind; [apply parses_u32_column; [done|by rewrite Lo]|].
  eapply parses_bind; [apply parses_u32_column; [done|by rewrite Ld]|].
  eapply parses_bind; [apply parses_u32_column; [done|by rewrite Lc]|].
  cbn [hd_vertex_capacity hd_primary_len hd_chunk_edges hd_edge_count header]. rewrite Lo, Ld, Lc, decide_False by lia.
  eapply parses_bind.
  { pose proof (slots_length c G) as Ls. rewrite <- Ls.
    rewrite <- (map_hot_zip (hot_list c) (cold_list c)) by (by rewrite (g_cold _ G)).
    rewrite <- (map_cold_zip (hot_list c) (cold_list c)) at 2 by (by rewrite (g_cold _ G)).
    apply parses_slots; [apply D|]. fold (slots c). rewrite Ls. apply D. }
  rewrite rows_in_range_ok.
  2,3: unfold vertex_capacity in *; rewrite ?(g_degrees _ G), ?(g_capacities _ G); done.
  2: { intros v _. apply (g_row _ G v). }
  cbn [negb]. eapply parses_map.
  - pose proof (parses_rows c (seq 0 (vertex_capacity c))) as Hr. rewrite length_seq in Hr. apply Hr. apply Forall_forall. intros v _. split; apply D.
  - fold (slots c). fold (rows c). fold (stored_live c). rewrite decide_False by lia. apply parses_ret.
Qed.


End dump.
End CsrDumpFacts.

(** * A dump loaded

    The store made from the image of a dump has the rows, the count and the cutoff
    of the store that was dumped, and its invariant. *)

Module CsrLoadFacts.
Import Codec CodecFacts IxFiles IxFilesFacts CsrShared CsrSharedFacts Csr CsrRead CsrIndex CsrView CsrUpd CsrRowInv CsrInv CsrCodec CsrCodecFacts CsrDumpFacts.

(** ** Counting by windows *)

Lemma total_add f g n : (total_below f n + total_below g n = total_below (fun v => f v + g v) n)%nat.
Proof. induction n as [|n IH]; simpl; lia. Qed.

Lemma total_swap (g : nat -> nat -> nat) m n :
  total_below (fun v => total_below (g v) m) n = total_below (fun i => total_below (fun v => g v i) n) m.
Proof.
  induction n as [|n IH]; simpl; [by rewrite total_zero|]. rewrite IH. apply total_add.
Qed.

(** A sum with one term. *)
Lemma total_single f v n : (v < n)%nat -> (forall w, w <> v -> f w = 0%nat) -> total_below f n = f v.
Proof.
  intros Hv Hf. pose proof (total_update (fun _ => 0%nat) f v n Hv) as Hu. rewrite (total_zero (fun _ => 0%nat)) in Hu by done. specialize (Hu Hf). lia.
Qed.

Section windows.
Context {A : Type} (f : A -> bool) (l : list A).

Definition hit (i : nat) : nat := match l !! i with Some x => if f x then 1 else 0 | None => 0 end.

Definition hit_in (o d i : nat) : nat := if decide (o <= i < o + d)%nat then hit i else 0.

Lemma window_count o d :
  (o + d <= length l)%nat -> length (List.filter f (take d (drop o l))) = total_below (hit_in o d) (length l).
Proof.
  induction d as [|d IH]; intros Hd.
  - rewrite take_0. simpl. rewrite (total_ext _ (fun _ => 0%nat)); [by rewrite total_zero|].
    intros i _. unfold hit_in. rewrite decide_False by lia. done.
  - destruct (lookup_lt_is_Some_2 l (o + d)) as [x Hx]; [lia|].
    rewrite (take_S_r _ _ x) by (by rewrite lookup_drop). rewrite List.filter_app, length_app, IH by lia.
    pose proof (total_update (hit_in o d) (hit_in o (S d)) (o + d) (length l) ltac:(lia)) as Hu.
    assert (Hs : forall w, w <> (o + d)%nat -> hit_in o (S d) w = hit_in o d w).
    { intros w Hw. unfold hit_in. destruct (decide (o <= w < o + d)%nat); [by rewrite decide_True by lia|by rewrite decide_False by lia]. }
    specialize (Hu Hs). unfold hit_in at 4 in Hu. rewrite decide_False in Hu by lia.
    unfold hit_in at 3 in Hu. rewrite decide_True in Hu by lia. unfold hit in Hu. rewrite Hx in Hu.
    simpl. destruct (f x); simpl; lia.
Qed.

(** Disjoint windows that hold every hit hold all of them once. *)
Lemma windows_count (off deg : nat -> nat) n :
  (forall v, (v < n)%nat -> (off v + deg v <= length l)%nat) ->
  (forall v w i, v <> w -> (off v <= i < off v + deg v)%nat -> ~ (off w <= i < off w + deg w)%nat) ->
  (forall i x, l !! i = Some x -> f x = true -> exists v, (v < n)%nat /\ (off v <= i < off v + deg v)%nat) ->
  length (List.filter f l) = total_below (fun v => length (List.filter f (take (deg v) (drop (off v) l)))) n.
Proof.
  intros Hr Hd Hc. rewrite (total_ext _ (fun v => total_below (hit_in (off v) (deg v)) (length l))).
  2: { intros v Hv. apply window_count. by apply Hr. }
  rewrite total_swap. rewrite <- (firstn_all l) at 1. rewrite <- (drop_0 l) at 2. rewrite window_count by lia.
  apply total_ext. intros i Hi. unfold hit_in at 1. rewrite decide_True by lia.
  destruct (lookup_lt_is_Some_2 l i Hi) as [x Hx]. destruct (f x) eqn:Ef.
  - destruct (Hc i x Hx Ef) as (v & Hv & Hin). rewrite (total_single _ v); [|done|].
    + unfold hit_in. by rewrite decide_True.
    + intros w Hw. unfold hit_in. rewrite decide_False; [done|]. apply (Hd v); congruence.
  - assert (Hz : hit i = 0%nat) by (unfold hit; by rewrite Hx, Ef). rewrite Hz. symmetry.
    rewrite (total_ext _ (fun _ => 0%nat)); [by apply total_zero|]. intros v _. unfold hit_in. rewrite Hz. by case_decide.
Qed.

End windows.

Section load.
Context `{Allocator} (crc32 : list Z -> Z).
Implicit Types (c : MutableCsr) (v w : nat).

(** Entries that are live are not gaps. *)
Definition gapless (l : list Nbr) : Prop := forall n, n ∈ l -> nbr_live n = true -> is_gap_edge (edge_id n) = false.

Lemma live_edge_gapless l n : gapless l -> n ∈ l -> live_edge n = nbr_live n.
Proof.
  intros Hg Hn. unfold live_edge, not_gap. destruct (nbr_live n) eqn:E; [|apply andb_false_r]. by rewrite (Hg n Hn E).
Qed.

Lemma live_slots_count l : gapless l -> live_slots l = count_live l.
Proof.
  intros Hg. unfold live_slots, count_live. f_equal. apply List.filter_ext_in. intros n Hn.
  apply (live_edge_gapless l); [done|by apply list_elem_of_In].
Qed.

Lemma live_slots_app l1 l2 : live_slots (l1 ++ l2) = (live_slots l1 + live_slots l2)%nat.
Proof. unfold live_slots. by rewrite List.filter_app, length_app. Qed.

(** ** The count of a dump *)

Lemma window_in c v i : geom c -> (offset_of c v <= i < offset_of c v + degree_of c v)%nat -> (v < vertex_capacity c)%nat.
Proof.
  intros G Hi. destruct (decide (v < vertex_capacity c)%nat) as [Hv|Hv]; [done|].
  destruct (block_nil c v G ltac:(lia)) as [_ Hd]. lia.
Qed.

Lemma windows_disjoint c v w i :
  geom c -> v <> w -> (offset_of c v <= i < offset_of c v + degree_of c v)%nat ->
  ~ (offset_of c w <= i < offset_of c w + degree_of c w)%nat.
Proof.
  intros G Hne Hi Hj. destruct (g_row _ G v) as [Hv _], (g_row _ G w) as [Hw _]. destruct (g_disjoint _ G v w Hne) as [?|[?|[?|?]]]; lia.
Qed.

Lemma vprim_slots c v : geom c -> vprim (view c v) = take (degree_of c v) (drop (offset_of c v) (slots c)).
Proof.
  intros G. unfold vprim. cbn [view v_deg v_block]. unfold block. rewrite take_take. f_equal. destruct (g_row _ G v). lia.
Qed.

Lemma slots_live_count c : geom c -> dumpable c ->
  live_slots (slots c) = total_below (fun v => count_live (vprim (view c v))) (vertex_capacity c).
Proof.
  intros G D. unfold live_slots. rewrite (windows_count live_edge (slots c) (offset_of c) (degree_of c) (vertex_capacity c)).
  - apply total_ext. intros v Hv. rewrite <- vprim_slots by done. apply live_slots_count. intros n Hn. apply (du_gaps _ D v).
    rewrite row_view by done. apply elem_of_app. by left.
  - intros v _. rewrite slots_length by done. destruct (g_row _ G v). lia.
  - intros v w i. by apply windows_disjoint.
  - intros i n Hi Hl. unfold live_edge in Hl. apply andb_prop in Hl as [_ Hl].
    destruct (du_inside _ D i n Hi Hl) as [v Hv]. exists v. split; [by eapply window_in|done].
Qed.

Lemma foldr_rows (g : nat -> nat) n : foldr (fun v m => g v + m)%nat 0%nat (seq 0 n) = total_below g n.
Proof.
  induction n as [|n IH]; [done|]. rewrite seq_S, foldr_app. simpl. rewrite <- IH. generalize (seq 0 n). intros l.
  rewrite Nat.add_0_r. induction l as [|x l IHl]; simpl; lia.
Qed.

Lemma reloaded_overflow c v : dumpable c -> row_slots (map reloaded (chunks_of c v)) = concat (map ch_slots (chunks_of c v)).
Proof.
  intros D. unfold row_slots. rewrite map_map. f_equal. apply map_ext_in. intros ch Hch. apply reloaded_slots.
  pose proof (du_chunks _ D v) as HF. rewrite Forall_forall in HF. apply HF. by apply list_elem_of_In.
Qed.

Lemma stored_live_total c : geom c -> dumpable c -> stored_live c = csr_total c.
Proof.
  intros G D. unfold stored_live, csr_total, rows. rewrite slots_live_count by done.
  change (map ?f ?l) with (f <$> l). rewrite foldr_fmap.
  rewrite (foldr_rows (fun v => live_slots (row_slots (map reloaded (chunks_of c v))))). rewrite total_add.
  apply total_ext. intros v _. rewrite reloaded_overflow by done. unfold nlive, vrow. rewrite live_slots_count.
  - unfold count_live. by rewrite List.filter_app, length_app.
  - intros n Hn. apply (du_gaps _ D v). rewrite row_view by done. apply elem_of_app. by right.
Qed.

(** ** The tables *)

Lemma load_overflow_from k rs (t : OverflowTable OverflowChunk) :
  ot_wf t -> let t' := fold_left (fun t '(vid, chunks) => match chunks with [] => t | _ => ot_insert vid chunks t end)
                         (zip (seq k (length rs)) rs) t in
  ot_wf t' /\ forall w, ot_get t' w =
    match (if decide (k <= w)%nat then rs !! (w - k)%nat else None) with Some (ch :: l) => Some (ch :: l) | _ => ot_get t w end.
Proof.
  revert k t. induction rs as [|r rs IH]; intros k t Wt; cbn zeta; simpl.
  { split; [done|]. intros w. case_decide; [by rewrite lookup_nil|done]. }
  assert (Hr : let t1 := match r with [] => t | _ => ot_insert k r t end in
    ot_wf t1 /\ forall w, ot_get t1 w = match r with [] => ot_get t w | _ => if decide (k = w) then Some r else ot_get t w end).
  { cbn zeta. destruct r as [|ch l]; [done|]. destruct (ot_insert_spec t k (ch :: l) Wt) as [W1 G1]. split; [done|].
    intros w. rewrite G1. by case_decide. }
  destruct Hr as [W1 G1]. destruct (IH (S k) _ W1) as [W2 G2]. split; [exact W2|]. intros w. rewrite G2, G1.
  destruct (decide (k = w)) as [->|Hne].
  - rewrite decide_False, decide_True, Nat.sub_diag by lia. simpl. by destruct r.
  - destruct (decide (k <= w)%nat) as [Hw|Hw].
    + rewrite decide_True by lia. replace (w - k)%nat with (S (w - S k)) by lia. simpl. by destruct r.
    + rewrite decide_False by lia. by destruct r.
Qed.

Lemma load_overflow_spec rs :
  ot_wf (load_overflow rs) /\
  forall w, ot_get (load_overflow rs) w = match rs !! w with Some (ch :: l) => Some (ch :: l) | _ => None end.
Proof.
  destruct (load_overflow_from 0 rs ot_new ot_new_wf) as [W1 G1]. split; [exact W1|]. intros w. etrans; [apply G1|].
  rewrite decide_True, Nat.sub_0_r by lia. rewrite ot_get_new. done.
Qed.

Definition load_keys c v : list (Z * Z * EdgePosition) :=
  load_positions PosPrimary 0 (primary c v) ++ load_chunk_positions 0 (chunks_of c v).

Lemma load_index_fold c l s :
  seg_wf (ls_table s) -> let s' := fold_left (load_index c) l s in
  seg_wf (ls_table s') /\ forall w, ls_get s' w =
    if decide (w ∈ l /\ (LIVE_SET_WIDTH_BOUND < length (load_keys c w))%nat) then Some (from_positions (load_keys c w)) else ls_get s w.
Proof.
  revert s. induction l as [|v l IH]; intros s Ws; cbn zeta; [split; [done|]; intros w; rewrite decide_False; [done|set_solver]|].
  cbn [fold_left]. assert (H1 : seg_wf (ls_table (load_index c s v)) /\ forall w, ls_get (load_index c s v) w =
    if decide (w = v /\ (LIVE_SET_WIDTH_BOUND < length (load_keys c v))%nat) then Some (from_positions (load_keys c v)) else ls_get s w).
  { unfold load_index. fold (load_keys c v). destruct (decide (LIVE_SET_WIDTH_BOUND < length (load_keys c v))%nat) as [Hb|Hb].
    - split; [by apply seg_slot_mut_wf|]. intros w. unfold ls_get, ls_insert. cbn [ls_table].
      rewrite seg_get_slot_mut by done. destruct (decide (v = w)) as [->|Hne]; [by rewrite decide_True|rewrite decide_False; naive_solver].
    - split; [done|]. intros w. rewrite decide_False; [done|naive_solver]. }
  destruct H1 as [W1 G1]. destruct (IH _ W1) as [W2 G2]. split; [exact W2|]. intros w. rewrite G2, G1.
  destruct (decide (w = v)) as [->|Hne]; repeat case_decide; try done; set_solver.
Qed.

Lemma load_positions_gapless pos i l : gapless l -> load_positions pos i l = positioned pos i l.
Proof.
  revert i. induction l as [|n l IH]; intros i Hg; [done|]. simpl. rewrite (live_edge_gapless (n :: l) n Hg) by left.
  rewrite IH; [done|]. intros m Hm. apply Hg. by right.
Qed.

Lemma load_chunks_gapless j cs : gapless (concat (map ch_slots cs)) -> load_chunk_positions j cs = positioned_chunks j cs.
Proof.
  revert j. induction cs as [|ch cs IH]; intros j Hg; [done|]. cbn [load_chunk_positions positioned_chunks].
  rewrite load_positions_gapless, IH; [done| |]; intros n Hn; apply Hg; simpl; apply elem_of_app; auto.
Qed.

(** ** The store *)

Lemma nats_id l : map Z.to_nat (nats l) = l.
Proof. unfold nats. rewrite map_map. rewrite <- (map_id l) at 2. apply map_ext. intros n. apply Nat2Z.id. Qed.

(** The view of a row after a load. *)
Definition vloaded c v : View :=
  vrebuild (with_sorted (bool_decide (vertex_capacity c <= v)%nat)
    (with_over (match chunks_of c v with [] => None | l => Some (map reloaded l) end) (view c v))).

Lemma vloaded_row c v : dumpable c -> vrow (vloaded c v) = vrow (view c v).
Proof.
  intros D. unfold vrow, vchunks, vprim. cbn [vloaded vrebuild with_set with_sorted with_over v_over v_deg v_block view]. f_equal.
  fold (chunks_of c v). rewrite <- reloaded_overflow by done. by destruct (chunks_of c v).
Qed.

Lemma vloaded_inv c v : geom c -> dumpable c -> vinv (view c v) -> vinv (vloaded c v).
Proof.
  intros G D [[C1 C2 C3 C4] _]. apply vinv_rebuild. pose proof (vloaded_row c v D) as Er. split.
  - exact C1.
  - unfold vchunks. cbn [with_sorted with_over v_over]. pose proof (du_chunks _ D v) as HF.
    destruct (chunks_of c v) as [|ch cs]; [constructor|]. change (Forall ch_ok (map reloaded (ch :: cs))). rewrite Forall_map.
    eapply Forall_impl; [exact HF|]. intros x Hx. apply reloaded_ok, Hx.
  - by rewrite <- Er in C3.
  - cbn [with_sorted v_sorted]. intros Hb. apply bool_decide_eq_true in Hb. unfold vprim.
    cbn [with_sorted with_over v_deg v_block view]. destruct (block_nil c v G Hb) as [-> _]. rewrite take_nil. constructor.
Qed.


Lemma image_vertices c : length (im_offsets (image c)) = vertex_capacity c.
Proof. cbn [image im_offsets]. unfold nats. by rewrite length_map. Qed.

(** The chunks of a loaded store. *)
Lemma loaded_chunks c v : geom c ->
  ot_get (load_overflow (rows c)) v = match chunks_of c v with [] => None | l => Some (map reloaded l) end.
Proof.
  intros G. rewrite (proj2 (load_overflow_spec (rows c))). unfold rows. change (map ?f ?l) with (f <$> l) at 1.
  rewrite list_lookup_fmap. destruct (decide (v < vertex_capacity c)%nat) as [Hv|Hv].
  - rewrite lookup_seq_lt by done. simpl. by destruct (chunks_of c v).
  - rewrite lookup_seq_ge by lia. simpl. unfold chunks_of. by rewrite (g_over_dom _ G v) by lia.
Qed.

Section base.
Context (c c0 : MutableCsr) (G : geom c) (D : dumpable c) (W0 : seg_wf (ls_table (live_sets c0))).

Let b := load_base (image c) c0.

Lemma base_fields :
  slots b = slots c /\ hot_list b = hot_list c /\ adj_offsets b = adj_offsets c /\ degrees b = degrees c /\
  primary_capacities b = primary_capacities c /\ overflow_chunks b = load_overflow (rows c) /\
  primary_sorted b = replicate (vertex_capacity c) false /\ edge_count b = edge_count c /\
  (forall v, ls_get (live_sets b) v = None) /\ seg_wf (ls_table (live_sets b)).
Proof.
  unfold b, load_base. rewrite image_vertices. cbn [image im_offsets im_slots im_degrees im_capacities im_rows im_header header hd_edge_count].
  unfold slots at 1. cbn [hot_list cold_list adj_offsets degrees primary_capacities overflow_chunks primary_sorted edge_count live_sets].
  rewrite !nats_id, zip_map_parts. split_and!; try done.
  - unfold slots. apply map_hot_zip. by rewrite (g_cold _ G).
  - intros v. unfold ls_get. simpl. by rewrite seg_get_ensure, seg_get_clear.
  - simpl. by apply seg_ensure_wf, seg_clear_wf.
Qed.

Lemma base_geom : geom b.
Proof.
  destruct base_fields as (E1 & E2 & E3 & E4 & E5 & E6 & E7 & E8 & E9 & E10).
  assert (Ev : vertex_capacity b = vertex_capacity c) by (unfold vertex_capacity; by rewrite E3).
  assert (Ec : length (cold_list b) = length (hot_list b)) by (unfold b, load_base; simpl; by rewrite !length_map).
  split; unfold degree_of, capacity_of, offset_of in *; rewrite ?E2, ?E3, ?E4, ?E5, ?E6, ?E7, ?Ev;
    try (rewrite length_replicate; done); try apply G; try done.
  - by rewrite <- E2.
  - unfold b, load_base. rewrite image_vertices. by apply length_replicate.
  - unfold b, load_base. rewrite image_vertices. by apply length_replicate.
  - unfold b, load_base. rewrite image_vertices. by apply length_replicate.
  - apply load_overflow_spec.
  - intros v Hv. rewrite loaded_chunks by done. unfold chunks_of. by rewrite (g_over_dom _ G v).
Qed.

Lemma base_view v : view b v =
  with_set None (with_sorted (bool_decide (vertex_capacity c <= v)%nat)
    (with_over (match chunks_of c v with [] => None | l => Some (map reloaded l) end) (view c v))).
Proof.
  destruct base_fields as (E1 & E2 & E3 & E4 & E5 & E6 & E7 & E8 & E9 & E10).
  unfold view, with_set, with_sorted, with_over, block, degree_of, capacity_of, offset_of.
  cbn [v_block v_deg v_over v_set v_sorted]. rewrite E1, E3, E4, E5, E6, E7, E9, loaded_chunks by done. f_equal.
  destruct (decide (v < vertex_capacity c)%nat).
  - rewrite lookup_replicate_2 by done. rewrite bool_decide_false by lia. done.
  - rewrite lookup_ge_None_2 by (rewrite length_replicate; lia). by rewrite bool_decide_true by lia.
Qed.

Lemma base_row v : row b v = row c v.
Proof.
  rewrite (row_view b v base_geom), (row_view c v G), <- (vloaded_row c v D), base_view. done.
Qed.

Lemma base_keys v : load_keys b v = vpositions (view b v).
Proof.
  pose proof base_geom as Gb. assert (Hg : gapless (row b v)). { rewrite base_row. intros n Hn. by apply (du_gaps _ D v). }
  unfold load_keys, vpositions. rewrite primary_view by done. rewrite row_view in Hg by done. unfold vrow in Hg.
  rewrite load_positions_gapless, load_chunks_gapless; [done| |]; intros n Hn; apply Hg; apply elem_of_app; auto.
Qed.

Lemma load_store_view v : view (load_store (image c) c0) v = vloaded c v.
Proof.
  destruct base_fields as (E1 & E2 & E3 & E4 & E5 & E6 & E7 & E8 & E9 & E10).
  destruct (load_index_fold b (seq 0 (vertex_capacity c)) (live_sets b) E10) as [_ Hs].
  transitivity (with_set (ls_get (fold_left (load_index b) (seq 0 (vertex_capacity c)) (live_sets b)) v) (view b v)).
  { unfold load_store. fold b. by rewrite image_vertices. }
  rewrite Hs, E9, base_keys, base_view. unfold vloaded, vrebuild.
  change (vpositions (with_set None ?W)) with (vpositions W). set (W := with_sorted _ _).
  destruct (decide (v < vertex_capacity c)%nat) as [Hv|Hv].
  - destruct (decide (LIVE_SET_WIDTH_BOUND < length (vpositions W))%nat) as [Hb|Hb].
    + rewrite decide_True by (split; [apply elem_of_seq; lia|done]). by rewrite decide_False by lia.
    + rewrite decide_False by naive_solver. by rewrite decide_True by lia.
  - rewrite decide_False by (intros [Hi _]; apply elem_of_seq in Hi; lia). rewrite decide_True; [done|].
    assert (Hk : live_keys (vrow W) = []).
    { change (vrow W) with (vrow (vloaded c v)). rewrite vloaded_row by done. unfold vrow, vprim, vchunks. cbn [view v_deg v_block v_over].
      destruct (block_nil c v G ltac:(lia)) as [-> _]. rewrite take_nil. by rewrite (g_over_dom _ G v) by lia. }
    rewrite <- vpositions_keys in Hk. apply (f_equal length) in Hk. rewrite length_fmap in Hk. rewrite Hk. simpl. lia.
Qed.

Lemma load_store_inv : csr_inv c -> csr_inv (load_store (image c) c0).
Proof.
  intros [_ R E]. destruct base_fields as (E1 & E2 & E3 & E4 & E5 & E6 & E7 & E8 & E9 & E10).
  destruct (load_index_fold b (seq 0 (vertex_capacity c)) (live_sets b) E10) as [Ws Hs].
  pose proof base_geom as Gb. pose proof load_store_view as V.
  assert (Ev : vertex_capacity (load_store (image c) c0) = vertex_capacity c) by (unfold vertex_capacity; by rewrite <- E3).
  split.
  - unfold load_store. fold b. rewrite image_vertices. destruct Gb as [B1 B2 B3 B4 B5 B6 B7 B8 B9 B10 B11 B12 B13].
    assert (Evb : vertex_capacity b = vertex_capacity c) by (unfold vertex_capacity; by rewrite E3).
    split; try assumption; try (cbn [set_counts live_counts tombstone_counts]; rewrite length_map, length_seq; by rewrite <- Evb).
    intros v Hv. change (vertex_capacity b <= v)%nat in Hv. rewrite Evb in Hv.
    etrans; [apply Hs|]. rewrite decide_False; [apply E9|]. intros [Hi _]. apply elem_of_seq in Hi. lia.
  - intros v. rewrite V. by apply vloaded_inv.
  - change (edge_count (load_store (image c) c0)) with (edge_count b). rewrite E8, E. f_equal. unfold csr_total. rewrite Ev.
    apply total_ext. intros v _. rewrite V. unfold nlive. by rewrite vloaded_row.
Qed.

End base.

(** ** The round trip *)

Lemma dump_body_length c : (44 <= length (dump_body c))%nat.
Proof. unfold dump_body. rewrite !length_app, !length_le_bytes. lia. Qed.

(** [C14] A dumpable store that is dumped and loaded, in place of any other, is accepted
    and comes back: every row holds the same entries in the same order (the tombstones
    included), the count of edges and the reuse cutoff are the same, the index of live
    keys is rebuilt, and the invariant holds.  Dumpable: the fields of the slots, the
    count and the cutoff are in the range of their types, there are fewer than 2^32 - 1
    slots and vertices and 2^32 chunks in a row, the configured chunk length is positive
    and no chunk is longer, no live entry has the identifier of a gap, and every live
    slot lies in the row of some vertex. *)
Theorem dump_load_roundtrip c c0 :
  (forall l, 0 <= crc32 l < 2 ^ 32) -> csr_inv c -> dumpable c -> csr_inv c0 ->
  exists c', csr_load crc32 (csr_dump crc32 c) c0 = (c', true) /\ csr_inv c' /\ (forall v, row c' v = row c v) /\
    edge_count c' = edge_count c /\ tombstone_reuse_cutoff c' = tombstone_reuse_cutoff c.
Proof.
  intros Hcrc I D I0. pose proof I as [G R E]. pose proof (g_set _ (ci_geom _ I0)) as W0.
  exists (load_store (image c) c0). pose proof (load_store_inv c c0 G D W0 I) as I'. split_and!; [|exact I'| |done|done].
  - unfold csr_load, csr_dump. pose proof (dump_body_length c) as Hl. rewrite length_app, length_le_bytes.
    rewrite decide_False by lia. rewrite Nat.add_sub, take_app_length, drop_app_length.
    rewrite of_le_bytes_le by (apply Hcrc). rewrite decide_False by (intros Hn; by apply Hn).
    pose proof (parses_image c G D ltac:(by rewrite stored_live_total) []) as Hp. rewrite app_nil_r in Hp. by rewrite Hp.
  - intros v. rewrite (row_view _ v (ci_geom _ I')), load_store_view, vloaded_row by done. by rewrite row_view.
Qed.


End load.
End CsrLoadFacts.
