(* ===== verification/CsrExample.v ===== *)
(** * Edge stores that meet the hypotheses, and some that show what the code does *)

From stdpp Require Import base gmap list sorting strings.
From Stdlib Require Import ZArith Lia SpecFloat.
From S2P Require Import Prelude Types Values WalTypes OrderedCodec Watermarks IndexManifest IndexFiles CsrShared MutableCsr.
From S2P Require Import CsrView CsrInv CsrDelete CsrMaintain CsrReach CsrCodec CsrLoad.

Module CsrExample.
Import CsrShared Csr CsrRead CsrRows CsrView CsrUpd CsrRowInv CsrPush CsrInv CsrDelete CsrLayout CsrBatch CsrReadFacts CsrReach.
Import CsrCodec CsrCodecFacts CsrDumpFacts CsrLoadFacts.

(** An allocator that grants what is asked, and grows to four at least. *)
#[export] Instance exact_alloc : Allocator := {
  granted n := n;
  grown n := Nat.max n 4;
  granted_ge n := Nat.le_refl n;
  grown_ge n := Nat.le_max_l n 4;
}.

Definition checksum (l : list Z) : Z := foldr Z.add 0 l mod 2 ^ 32.

Definition dst (e : Z) : VertexId := edge_endpoint_key e 0.

Definition puts (es : list Z) (c : MutableCsr) : MutableCsr := fold_left (fun c e => (insert_edge 0 (dst e) (100 + e) 1 c).1) es c.
Definition del (id ts : Z) (c : MutableCsr) : MutableCsr := (delete_edge 0 id ts c).1.

Definition empty : MutableCsr := with_overflow_chunk_edges 1 4.

(** Four entries in the block of the row and one behind it, the second deleted. *)
Definition five : MutableCsr := del 102 7 (puts [1; 2; 3; 4; 5] empty).

Lemma empty_inv : csr_inv empty.
Proof. apply csr_new_inv. Qed.

Lemma fold_steps {A} (f : MutableCsr -> A -> MutableCsr) l c :
  (forall c x, csr_step c (f c x)) -> rtc csr_step c (fold_left f l c).
Proof. intros Hf. revert c. induction l as [|x l IH]; intros c; [constructor|]. eapply rtc_l; [apply Hf|apply IH]. Qed.

Lemma puts_steps es c : rtc csr_step c (puts es c).
Proof. unfold puts. apply fold_steps. intros c' e. apply StepInsert. Qed.

Lemma del_step id ts c : ts <> TS_MAX -> csr_step c (del id ts c).
Proof. intros Hts. unfold del. by apply StepDelete. Qed.

Lemma five_steps : rtc csr_step empty five.
Proof. unfold five. eapply rtc_r; [apply (puts_steps [1; 2; 3; 4; 5])|]. apply del_step. done. Qed.

Example five_row : row five 0 = [mkNbr 1 0 101 TS_MAX; mkNbr 2 0 102 7; mkNbr 3 0 103 TS_MAX; mkNbr 4 0 104 TS_MAX; mkNbr 5 0 105 TS_MAX]
  /\ edge_count five = 4.
Proof. by vm_compute. Qed.

Lemma csr_reach_inv_witness : csr_inv five.
Proof. apply (csr_reach_inv 1 4 five). apply five_steps. Defined.

Lemma steps_inv c c' : csr_inv c -> rtc csr_step c c' -> csr_inv c'.
Proof. intros I Hr. induction Hr as [|c0 c1 c2 Hs _ IH]; [done|]. apply IH. by eapply csr_step_inv. Qed.

Lemma five_inv : csr_inv five.
Proof. eapply steps_inv; [apply empty_inv|apply five_steps]. Qed.

Lemma three_live : (3, 0) ∈ live_keys (row five 0).
Proof. rewrite (proj1 five_row). apply elem_of_live_keys. exists (mkNbr 3 0 103 TS_MAX). split; [set_solver|done]. Qed.

(** A key that is live is refused; the key of a tombstone is free. *)
Lemma insert_edge_exact_witness :
  (insert_edge 0 (dst 3) 200 9 five).2 = Err EdgeAlreadyExists /\ csr_inv (insert_edge 0 (dst 2) 200 9 five).1.
Proof.
  pose proof (insert_edge_exact five 0 (dst 3) (3, 0) 200 9 five_inv ltac:(by vm_compute)) as H1.
  pose proof (insert_edge_exact five 0 (dst 2) (2, 0) 200 9 five_inv ltac:(by vm_compute)) as H2.
  split.
  - clear H2. destruct (insert_edge 0 (dst 3) 200 9 five) as [c r]. destruct H1 as (_ & _ & H1).
    rewrite (bool_decide_eq_true_2 _ three_live) in H1. exact (proj1 H1).
  - clear H1. destruct (insert_edge 0 (dst 2) 200 9 five) as [c r]. exact (proj1 H2).
Defined.

Lemma nine_stamp : 9 <> TS_MAX.
Proof. done. Qed.

Lemma delete_edge_exact_witness :
  (delete_edge 0 103 9 five).2 = Ok true /\ (delete_edge 0 102 9 five).2 = Err WriteWriteConflict.
Proof.
  pose proof (delete_edge_exact five 0 103 9 five_inv nine_stamp) as H1.
  pose proof (delete_edge_exact five 0 102 9 five_inv nine_stamp) as H2. split.
  - clear H2. destruct (delete_edge 0 103 9 five) as [c r]. destruct H1 as (_ & _ & H1).
    replace (first_id 103 (row five 0)) with (Some (mkNbr 3 0 103 TS_MAX)) in H1 by by vm_compute.
    rewrite decide_True in H1 by done. exact (proj1 H1).
  - clear H1. destruct (delete_edge 0 102 9 five) as [c r]. destruct H2 as (_ & _ & H2).
    replace (first_id 102 (row five 0)) with (Some (mkNbr 2 0 102 7)) in H2 by by vm_compute.
    rewrite decide_False in H2 by done. rewrite decide_False in H2 by done. exact (proj2 H2).
Defined.

Lemma edge_lookup_exact_witness : get_edge_physical five 0 (dst 5) = Some (mkNbr 5 0 105 TS_MAX).
Proof.
  apply (edge_lookup_exact five 0 (dst 5) (5, 0) _ five_inv ltac:(by vm_compute)). split_and!; [|done|done].
  rewrite (proj1 five_row). set_solver.
Defined.

Lemma threshold_visit_exact_witness :
  visit_threshold five 0 (Some (2, 0)) (Some (4, 0)) <> None /\
  match visit_threshold five 0 (Some (2, 0)) (Some (4, 0)) with
  | Some l => l = List.filter (live_in_range (Some (2, 0)) (Some (4, 0))) (row five 0)
  | None => True
  end.
Proof.
  split; [by vm_compute|].
  pose proof (threshold_visit_exact five 0 (Some (2, 0)) (Some (4, 0)) five_inv) as H.
  destruct (visit_threshold five 0 (Some (2, 0)) (Some (4, 0))); [exact H|exact I].
Defined.

Lemma five_chunks v : (0 < v)%nat -> chunks_of five v = [].
Proof.
  intros Hv. pose proof (g_over_dom _ (ci_geom _ five_inv) v) as Hg.
  replace (vertex_capacity five) with 1%nat in Hg by (vm_compute; done). unfold chunks_of. by rewrite Hg by lia.
Qed.

(** Rows past the end are empty. *)
Lemma row_out c v : geom c -> (vertex_capacity c <= v)%nat -> row c v = [].
Proof.
  intros G Hv. rewrite row_view by done. unfold vrow, vprim, vchunks. cbn [view v_deg v_block v_over].
  destruct (block_nil c v G Hv) as [-> _]. rewrite take_nil. by rewrite (g_over_dom _ G v Hv).
Qed.

Lemma five_out v : (0 < v)%nat -> row five v = [].
Proof. intros Hv. apply row_out; [apply five_inv|]. replace (vertex_capacity five) with 1%nat by (vm_compute; done). lia. Qed.

Lemma five_gaps v : no_live_gap five v.
Proof.
  intros n Hn _. destruct (decide (v = 0%nat)) as [->|Hv]; [|rewrite five_out in Hn by lia; by apply elem_of_nil in Hn].
  rewrite (proj1 five_row) in Hn. repeat (apply elem_of_cons in Hn as [->|Hn]; [done|]). by apply elem_of_nil in Hn.
Qed.

Definition group : list (nat * list BatchEdge) := [(0%nat, [mkBatchEdge 2 0 300 9; mkBatchEdge 6 0 301 9])].

Lemma batch_all_or_nothing_witness : (batch_put_edges group true five).2 = Ok 2%nat /\ csr_inv (batch_put_edges group true five).1.
Proof.
  pose proof (batch_all_or_nothing group five five_inv ltac:(by repeat constructor; set_solver) five_gaps) as Hb.
  destruct (batch_put_edges group true five) as [c r]. destruct Hb as [I Hb]. split; [|exact I].
  replace (forallb _ group) with true in Hb by (symmetry; unfold group; cbn [forallb fst snd]; rewrite (proj1 five_row); by vm_compute).
  exact (proj1 Hb).
Defined.

Definition quarter : spec_float := S754_finite false 8388608 (-25).

Lemma five_fit : rows_fit five 8 quarter.
Proof.
  intros v Hv. replace (vertex_capacity five) with 1%nat in Hv by (vm_compute; done). replace v with 0%nat by lia. vm_compute. lia.
Qed.

Lemma compaction_exact_witness : exists c, compact_with_ts_reporting 8 quarter five = Some (c, [(102, 7)]) /\
  row c 0 = [mkNbr 1 0 101 TS_MAX; mkNbr 3 0 103 TS_MAX; mkNbr 4 0 104 TS_MAX; mkNbr 5 0 105 TS_MAX].
Proof.
  destruct (compaction_exact five 8 quarter five_inv five_fit) as (c & E & _ & Hr). exists c. split.
  - rewrite E. do 2 f_equal. 
  - rewrite (proj1 (Hr 0%nat)). unfold kept_of. by rewrite (proj1 five_row).
Defined.

(** ** The dump *)

Lemma five_slots : slots five = [mkNbr 1 0 101 TS_MAX; mkNbr 2 0 102 7; mkNbr 3 0 103 TS_MAX; mkNbr 4 0 104 TS_MAX].
Proof. by vm_compute. Qed.

Lemma five_chunk : chunks_of five 0 = [mkChunk [mkHot 5 0 105] [mkCold TS_MAX] 4].
Proof. by vm_compute. Qed.

Lemma five_window : offset_of five 0 = 0%nat /\ degree_of five 0 = 4%nat.
Proof. split; by vm_compute. Qed.

Ltac fits := repeat constructor; vm_compute; done.

Lemma five_fields : edge_count five = 4 /\ overflow_chunk_edges five = 4%nat /\ tombstone_reuse_cutoff five = TS_MAX /\
  length (hot_list five) = 4%nat /\ vertex_capacity five = 1%nat.
Proof. split_and!; by vm_compute. Qed.

Lemma five_dumpable : dumpable five.
Proof.
  destruct five_fields as (E1 & E2 & E3 & E4 & E5). split.
  - clear. rewrite five_slots. fits.
  - rewrite E4. lia.
  - rewrite E5. lia.
  - rewrite E1. clear. by vm_compute.
  - rewrite E2. lia.
  - rewrite E2. clear. by vm_compute.
  - rewrite E3. clear. by vm_compute.
  - intros v. rewrite E2. clear. destruct (decide (v = 0%nat)) as [->|Hv]; [|rewrite five_chunks by lia; constructor].
    rewrite five_chunk. repeat constructor; vm_compute; done || lia.
  - clear. intros v. destruct (decide (v = 0%nat)) as [->|Hv]; [by rewrite five_chunk|by rewrite five_chunks by lia].
  - clear. intros v n Hn Hl. apply bool_decide_eq_false. by apply (five_gaps v).
  - clear. intros i n Hi _. exists 0%nat. rewrite (proj1 five_window), (proj2 five_window). apply lookup_lt_Some in Hi.
    rewrite five_slots in Hi. simpl in Hi. lia.
Qed.

Lemma checksum_range l : 0 <= checksum l < 2 ^ 32.
Proof. unfold checksum. by apply Z.mod_pos_bound. Qed.

Lemma dump_load_roundtrip_witness : exists c, csr_load checksum (csr_dump checksum five) empty = (c, true) /\ row c 0 = row five 0.
Proof.
  destruct (dump_load_roundtrip checksum five empty checksum_range five_inv five_dumpable empty_inv) as (c & E & _ & Hr & _).
  exists c. split; [exact E|apply Hr].
Defined.


(** ** What the code does *)

(** Chunks of one entry each are repacked into one chunk of nine, and the load of the
    dump refuses a chunk longer than the configured length. *)
Definition wide : MutableCsr := puts (map Z.of_nat (seq 1 13)) (with_overflow_chunk_edges 1 1).

Example long_chunk_not_loaded :
  map ch_len (chunks_of wide 0) = [9%nat] /\ overflow_chunk_edges wide = 1%nat /\
  (csr_load checksum (csr_dump checksum wide) empty).2 = false.
Proof. split_and!; by vm_compute. Qed.

(** The repack recounts the row with the new entry, and the insertion counts it again. *)
Example repack_counts_twice : live_counts wide = [14%nat] /\ edge_count wide = 13.
Proof. split; by vm_compute. Qed.

(** A cleared store keeps its old slots, which the load of its dump counts. *)
Example cleared_not_loaded :
  edge_count (csr_clear five) = 0 /\ (csr_load checksum (csr_dump checksum (csr_clear five)) empty).2 = false.
Proof. split; by vm_compute. Qed.

(** A load that fails on bytes left over has replaced the store. *)
Definition padded : list Z := let b := dump_body five ++ [0] in b ++ WalTypes.le_bytes 4 (checksum b).

Example failed_load_replaces : let r := csr_load checksum padded empty in r.2 = false /\ row empty 0 = [] /\ length (row r.1 0) = 5%nat.
Proof. cbv zeta. split_and!; by vm_compute. Qed.

(** A negative reserve makes a row smaller than what it keeps. *)
Example negative_reserve :
  compact_row_capacity 4 (S754_finite true 8388608 (-23)) = 2%nat /\
  compact_with_ts_reporting 8 (S754_finite true 8388608 (-23)) five = None.
Proof. split; by vm_compute. Qed.

(** A key inserted again after its deletion, and the deletion reverted. *)
Example reverted_duplicate :
  live_keys (row (revert_delete_by_edge_id 0 102 8 (insert_edge 0 (dst 2) 200 9 five).1).1 0) =
  [(1, 0); (2, 0); (3, 0); (4, 0); (5, 0); (2, 0)].
Proof. by vm_compute. Qed.

(** Crossed bounds: nothing on an unsorted row, a panic on a sorted one. *)
Example crossed_bounds :
  visit_threshold five 0 (Some (4, 0)) (Some (2, 0)) = Some [] /\
  visit_threshold (sort_row 0 five).1 0 (Some (4, 0)) (Some (2, 0)) = None.
Proof. split; by vm_compute. Qed.

(** A live edge read at the last timestamp: missing from a narrow row, found in a
    wide one. *)
Definition nine : MutableCsr := puts (map Z.of_nat (seq 1 9)) empty.

Example lookup_at_max :
  get_edge five 0 (dst 3) TS_MAX = None /\ get_edge nine 0 (dst 3) TS_MAX = Some (mkNbr 3 0 103 TS_MAX).
Proof. split; by vm_compute. Qed.

(** Two groups of a checked batch for one row. *)
Example split_group_duplicate :
  let r := batch_put_edges [(0%nat, [mkBatchEdge 6 0 300 9]); (0%nat, [mkBatchEdge 6 0 301 9])] true five in
  r.2 = Ok 2%nat /\ live_keys (row r.1 0) = [(1, 0); (3, 0); (4, 0); (6, 0); (6, 0); (5, 0)].
Proof. cbv zeta. split; by vm_compute. Qed.

(** The counters of a row after a deletion is reverted: still those before it. *)
Example counters_drift :
  let c := (revert_delete_by_edge_id 0 102 8 five).1 in
  edge_count c = 5 /\ live_counts c = [4%nat] /\ tombstone_counts c = [1%nat].
Proof. cbv zeta. split_and!; by vm_compute. Qed.


End CsrExample.
