(* ===== verification/WalScan.v ===== *)
(** * WAL scanning

    [linkrs-transaction/src/wal/parser/scan.rs], [fragment.rs] and the result
    types of [types.rs]: the byte scan of one WAL file into entries.  The
    checksum function and the decompressor are parameters.  The loop runs with
    fuel; every round moves the offset forward, so one round for each byte is
    enough ([parse_total]). *)

From stdpp Require Import base gmap list strings.
From Stdlib Require Import ZArith Lia.
From S2P Require Import Prelude Types WalTypes.

Inductive WalRecoveryMode := AbortOnCorruption | SkipCorruption | WalOnly | ErrorIfMissing.

#[export] Instance WalRecoveryMode_eq_dec : EqDecision WalRecoveryMode.
Proof. solve_decision. Defined.

Record ParsedWalEntry := mkParsed {
  pe_header : WalHeader;
  pe_payload : list Z;
  pe_checksum_valid : bool;
  pe_offset : nat;
  pe_lsn : Lsn;
  pe_prev_lsn : Lsn;
  pe_file_start_lsn : Lsn;
}.

Record RecoveryResult := mkRecovery {
  all_entries : list ParsedWalEntry;
  last_timestamp : Timestamp;
  last_lsn : Lsn;
  corrupted_count : Z;
  skipped_count : Z;
}.

Definition empty_recovery : RecoveryResult := mkRecovery [] 0 0 0 0.

(** ** Fragment reassembly *)

Record FragmentBuffer := mkFrag {
  fragments : list (list Z);
  first_header : option WalHeader;
  expected_next : option RecordType;
}.

Module Fragment.

Definition new : FragmentBuffer := mkFrag [] None None.

Definition reset (b : FragmentBuffer) : FragmentBuffer := new.

(** The buffer and whether the record is complete. *)
Definition add_fragment (h : WalHeader) (payload : list Z) (b : FragmentBuffer)
  : FragmentBuffer * bool :=
  let out_of_order :=
    bool_decide (expected_next b <> Some RMiddle) && bool_decide (expected_next b <> Some RLast) in
  match h_record_type h with
  | RFull => (reset b, true)
  | RFirst => (mkFrag [payload] (Some h) (Some RMiddle), false)
  | RMiddle =>
      if out_of_order then (reset b, false)
      else (mkFrag (fragments b ++ [payload]) (first_header b) (Some RMiddle), false)
  | RLast =>
      if out_of_order then (reset b, false)
      else (mkFrag (fragments b ++ [payload]) (first_header b) (expected_next b), true)
  end.

Definition assemble (b : FragmentBuffer) : option (list Z) :=
  match fragments b with
  | [] => None
  | l => Some (mjoin l)
  end.

End Fragment.

Module Scan.

(** A zero timestamp, length and LSN mark the zero-filled tail. *)
Definition is_zero_padding (h : WalHeader) : bool :=
  bool_decide (h_timestamp h = 0) && bool_decide (h_length h = 0) && bool_decide (h_lsn h = 0).

Definition validate_lsn_chain (h : WalHeader) (expected_prev : Lsn) : result unit WalError :=
  match checked_add_u64 (h_prev_lsn h) (Z.of_nat WAL_HEADER_SIZE) with
  | None => Err Corrupted
  | Some x =>
      match checked_add_u64 x (h_length h) with
      | None => Err Corrupted
      | Some expected_lsn =>
          if decide (h_prev_lsn h <> expected_prev \/ h_lsn h <> expected_lsn) then Err Corrupted
          else Ok tt
      end
  end.

Definition push_entry (e : ParsedWalEntry) (r : RecoveryResult) : RecoveryResult :=
  mkRecovery (all_entries r ++ [e]) (Z.max (last_timestamp r) (h_timestamp (pe_header e)))
    (if decide (pe_lsn e > last_lsn r) then pe_lsn e else last_lsn r)
    (corrupted_count r) (skipped_count r).

Definition count_corrupted (r : RecoveryResult) : RecoveryResult :=
  mkRecovery (all_entries r) (last_timestamp r) (last_lsn r) (corrupted_count r + 1)
    (skipped_count r).

Section scan.
Context (crc32 : list Z -> Z).
Context (zstd_decode : list Z -> option (list Z)).

(** [Some computed] when the stored checksum disagrees. *)
Definition checksum_mismatch (h : WalHeader) (payload : list Z) (verify : bool) : option Z :=
  if verify && bool_decide (h_checksum h <> 0) then
    let computed := crc32 (Header.checksum_input h payload) in
    if decide (computed <> h_checksum h) then Some computed else None
  else None.

Definition verify_entry_checksum (e : ParsedWalEntry) : bool :=
  if decide (h_checksum (pe_header e) = 0) then true
  else bool_decide (crc32 (Header.checksum_input (pe_header e) (pe_payload e)) =
                    h_checksum (pe_header e)).

Definition decompress_payload (payload : list Z) (c : WalCompression) : result (list Z) WalError :=
  match c with
  | CompZstd =>
      match zstd_decode payload with Some p => Ok p | None => Err DeserializationError end
  | CompNone => Ok payload
  end.

Definition decode_record_payload (h : WalHeader) (payload : list Z) : result (list Z) WalError :=
  if Header.is_compressed h then decompress_payload payload (Header.compression h)
  else Ok payload.

Context (buffer : list Z) (file_start_lsn : Lsn) (mode : WalRecoveryMode) (verify : bool).

(** State of the scan between two rounds. *)
Record scan_state := mkScan {
  sc_offset : nat;
  sc_expected_prev : Lsn;
  sc_fragments : FragmentBuffer;
  sc_result : RecoveryResult;
}.

Definition scan_from (start : nat) : scan_state :=
  mkScan start file_start_lsn Fragment.new empty_recovery.

(** A valid record of the file, with its decoded payload: a full record, or a
    fragment that may complete one. *)
Definition accept (h : WalHeader) (payload : list Z) (next : nat) (s : scan_state) : scan_state :=
  match h_record_type h with
  | RFull =>
      mkScan next (h_lsn h) (sc_fragments s)
        (push_entry (mkParsed h payload true (sc_offset s) (h_lsn h) (h_prev_lsn h) file_start_lsn)
           (sc_result s))
  | _ =>
      let '(fb, complete) := Fragment.add_fragment h payload (sc_fragments s) in
      if complete then
        let assembled := default [] (Fragment.assemble fb) in
        let fh := default h (first_header fb) in
        mkScan next (h_lsn h) (Fragment.reset fb)
          (push_entry (mkParsed fh assembled true (sc_offset s) (h_lsn fh) (h_prev_lsn fh)
             file_start_lsn) (sc_result s))
      else mkScan next (h_lsn h) fb (sc_result s)
  end.

(** Skip to [next], counting a corruption, or fail. *)
Definition corrupt (e : WalError) (next : nat) (s : scan_state)
  : result (option scan_state) WalError :=
  if decide (mode = AbortOnCorruption) then Err e
  else Ok (Some (mkScan next (sc_expected_prev s) (sc_fragments s)
                   (count_corrupted (sc_result s)))).

(** One round at an offset with room for a header: [Ok None] stops the loop,
    with the final result alongside. *)
Definition scan_round (s : scan_state) : result (option scan_state) WalError * RecoveryResult :=
  let offset := sc_offset s in
  let r := sc_result s in
  match Header.from_bytes (slice offset WAL_HEADER_SIZE buffer) with
  | None => (corrupt Corrupted (S offset) s, r)
  | Some h =>
      if is_zero_padding h then (Ok None, r)
      else
        match validate_lsn_chain h (sc_expected_prev s) with
        | Err e => (Err e, r)
        | Ok _ =>
            let remaining := Z.of_nat (length buffer - offset - WAL_HEADER_SIZE) in
            if negb (Header.is_length_valid h remaining) then (Ok None, count_corrupted r)
            else
              let payload_start := (offset + WAL_HEADER_SIZE)%nat in
              let payload_end := (payload_start + Z.to_nat (h_length h))%nat in
              match op_try_from (h_op_type h) with
              | Err e => (corrupt e payload_end s, r)
              | Ok _ =>
                  let payload := slice payload_start (Z.to_nat (h_length h)) buffer in
                  match checksum_mismatch h payload verify with
                  | Some computed =>
                      (corrupt (ChecksumMismatch (h_checksum h) computed) payload_end s, r)
                  | None =>
                      match decode_record_payload h payload with
                      | Err e => (corrupt e payload_end s, r)
                      | Ok final => (Ok (Some (accept h final payload_end s)), r)
                      end
                  end
              end
        end
  end.

Fixpoint scan_loop (fuel : nat) (s : scan_state) : option (result RecoveryResult WalError) :=
  if decide (sc_offset s + WAL_HEADER_SIZE <= length buffer)%nat then
    match fuel with
    | O => None
    | S fuel' =>
        match scan_round s with
        | (Err e, _) => Some (Err e)
        | (Ok None, r) => Some (Ok r)
        | (Ok (Some s'), _) => scan_loop fuel' s'
        end
    end
  else Some (Ok (sc_result s)).

Definition parse_wal_file_bytes : option (result RecoveryResult WalError) :=
  scan_loop (length buffer) (scan_from WAL_FILE_HEADER_SIZE).

(** ** Termination *)

Lemma corrupt_progress e next s s' :
  corrupt e next s = Ok (Some s') -> sc_offset s' = next.
Proof. unfold corrupt. case_decide; [done|]. by intros [= <-]. Qed.

Lemma accept_offset h p next s : sc_offset (accept h p next s) = next.
Proof. unfold accept. repeat case_match; done. Qed.

Lemma scan_round_progress s s' r :
  scan_round s = (Ok (Some s'), r) -> (sc_offset s < sc_offset s')%nat.
Proof.
  unfold scan_round, WAL_HEADER_SIZE. intros Hr.
  repeat case_match; simplify_eq; try (apply corrupt_progress in H0 || idtac);
    repeat match goal with
           | Hc : corrupt _ _ _ = Ok (Some _) |- _ => apply corrupt_progress in Hc; rewrite Hc
           end; rewrite ?accept_offset; lia.
Qed.

Lemma scan_loop_total fuel s :
  (length buffer <= fuel + sc_offset s)%nat -> is_Some (scan_loop fuel s).
Proof.
  revert s. induction fuel as [|fuel IH]; intros s Hf; simpl;
    (case_decide as Hd; [|by eexists]); [unfold WAL_HEADER_SIZE in Hd; lia|].
  destruct (scan_round s) as [[[s'|]|e] r] eqn:E; try by eexists.
  apply IH. apply scan_round_progress in E. lia.
Qed.

Lemma parse_total : is_Some parse_wal_file_bytes.
Proof. apply scan_loop_total. lia. Qed.

End scan.
End Scan.
