(* ===== verification/WalParser.v ===== *)
(** * WAL parsers

    [linkrs-transaction/src/wal/parser/discover.rs], [sequential.rs] and
    [parallel.rs]: the sequential parser of a WAL directory and the parser
    that shards the files over threads.  A directory is the list of the files
    its name filter keeps, in name order, with their contents ([None] when a
    file cannot be read).  The order in which the threads deliver their results
    is an input. *)

From stdpp Require Import base gmap list strings sorting.
From Stdlib Require Import ZArith Lia.
From S2P Require Import Prelude Types WalTypes WalScan.

(** Contents of a file, [None] when reading fails. *)
Abbreviation WalFile := (option (list Z)).

(** [None] when the directory does not exist. *)
Abbreviation WalDir := (option (list WalFile)).

Record WalFileData := mkFileData {
  fd_buffer : list Z;
  fd_file_header : WalFileHeader;
}.

Record LocalWalParser := mkParser {
  p_all_entries : list ParsedWalEntry;
  p_last_timestamp : Timestamp;
  p_last_lsn : Lsn;
  p_file_headers : list WalFileHeader;
  p_recovery_mode : WalRecoveryMode;
  p_verify_checksum : bool;
  p_corrupted_count : Z;
  p_skipped_count : Z;
}.

(** Order of [sort_by_key(|e| e.lsn)]; the merge sort is stable. *)
Definition lsn_le (a b : ParsedWalEntry) : Prop := pe_lsn a <= pe_lsn b.

#[export] Instance lsn_le_dec : RelDecision lsn_le.
Proof. intros a b. unfold lsn_le. apply _. Defined.

#[export] Instance lsn_le_total : Total lsn_le.
Proof. intros a b. unfold lsn_le. lia. Qed.

#[export] Instance lsn_le_trans : Transitive lsn_le.
Proof. intros a b c. unfold lsn_le. lia. Qed.

(** [slice::chunks]. *)
Fixpoint slice_chunks {A} (fuel n : nat) (l : list A) : list (list A) :=
  match fuel with
  | O => []
  | S fuel' => match l with [] => [] | _ => take n l :: slice_chunks fuel' n (drop n l) end
  end.

Module Parser.

Definition discover_wal_files (dir : WalDir) (mode : WalRecoveryMode)
  : result (list WalFile) WalError :=
  match dir with
  | None => if decide (mode = ErrorIfMissing) then Err FileNotFound else Ok []
  | Some files =>
      if decide (files = [] /\ mode = ErrorIfMissing) then Err FileNotFound else Ok files
  end.

(** [Ok None] for an empty file. *)
Definition read_wal_file (f : WalFile) : result (option WalFileData) WalError :=
  match f with
  | None => Err IoError
  | Some buffer =>
      if decide (buffer = []) then Ok None
      else if decide (length buffer < WAL_FILE_HEADER_SIZE)%nat then Err InvalidFileHeader
      else match FileHeader.from_bytes (take WAL_FILE_HEADER_SIZE buffer) with
           | None => Err InvalidFileHeader
           | Some h => if negb (FileHeader.is_valid h) then Err InvalidFileHeader
                       else Ok (Some (mkFileData buffer h))
           end
  end.

Definition new : LocalWalParser := mkParser [] 0 0 [] AbortOnCorruption true 0 0.

Definition with_recovery_mode (mode : WalRecoveryMode) : LocalWalParser :=
  mkParser [] 0 0 [] mode true 0 0.

Definition with_verify_checksum (verify : bool) (p : LocalWalParser) : LocalWalParser :=
  mkParser (p_all_entries p) (p_last_timestamp p) (p_last_lsn p) (p_file_headers p)
    (p_recovery_mode p) verify (p_corrupted_count p) (p_skipped_count p).

Section parser.
Context (crc32 : list Z -> Z).
Context (zstd_decode : list Z -> option (list Z)).

(** The byte scan; it returns for every buffer ([Scan.parse_total]). *)
Definition scan_bytes (buffer : list Z) (fsl : Lsn) (mode : WalRecoveryMode) (verify : bool)
  : result RecoveryResult WalError :=
  default (Err Corrupted) (Scan.parse_wal_file_bytes crc32 zstd_decode buffer fsl mode verify).

(** ** Sequential parser *)

Definition push_header (h : WalFileHeader) (p : LocalWalParser) : LocalWalParser :=
  mkParser (p_all_entries p) (p_last_timestamp p) (p_last_lsn p) (p_file_headers p ++ [h])
    (p_recovery_mode p) (p_verify_checksum p) (p_corrupted_count p) (p_skipped_count p).

Definition extend (r : RecoveryResult) (p : LocalWalParser) : LocalWalParser :=
  mkParser (p_all_entries p ++ all_entries r) (Z.max (p_last_timestamp p) (last_timestamp r))
    (if decide (last_lsn r > p_last_lsn p) then last_lsn r else p_last_lsn p)
    (p_file_headers p) (p_recovery_mode p) (p_verify_checksum p)
    (p_corrupted_count p + corrupted_count r) (p_skipped_count p + skipped_count r).

Definition parse_wal_file (f : WalFile) : ST LocalWalParser WalError unit :=
  let! d := st_lift (read_wal_file f) in
  match d with
  | None => st_ret tt
  | Some data =>
      do! st_modify (push_header (fd_file_header data)) in
      let! p := st_get in
      let! r := st_lift (scan_bytes (fd_buffer data) (fh_start_lsn (fd_file_header data))
                  (p_recovery_mode p) (p_verify_checksum p)) in
      st_modify (extend r)
  end.

Definition count_corrupted_file (p : LocalWalParser) : LocalWalParser :=
  mkParser (p_all_entries p) (p_last_timestamp p) (p_last_lsn p) (p_file_headers p)
    (p_recovery_mode p) (p_verify_checksum p) (p_corrupted_count p + 1) (p_skipped_count p).

Fixpoint parse_each (files : list WalFile) : ST LocalWalParser WalError unit :=
  match files with
  | [] => st_ret tt
  | f :: rest => fun p =>
      match parse_wal_file f p with
      | (p', Ok _) => parse_each rest p'
      | (p', Err e) =>
          if decide (p_recovery_mode p' = AbortOnCorruption) then (p', Err RecoveryAborted)
          else parse_each rest (count_corrupted_file p')
      end
  end.

Definition sort_entries (p : LocalWalParser) : LocalWalParser :=
  mkParser (merge_sort lsn_le (p_all_entries p)) (p_last_timestamp p) (p_last_lsn p)
    (p_file_headers p) (p_recovery_mode p) (p_verify_checksum p) (p_corrupted_count p)
    (p_skipped_count p).

(** [open], which is [parse_wal_files] of the directory. *)
Definition parse_wal_files (dir : WalDir) : ST LocalWalParser WalError unit :=
  let! p := st_get in
  let! files := st_lift (discover_wal_files dir (p_recovery_mode p)) in
  do! parse_each files in
  st_modify sort_entries.

Definition close (p : LocalWalParser) : LocalWalParser :=
  mkParser [] 0 0 [] (p_recovery_mode p) (p_verify_checksum p) 0 0.

Definition get_entry_by_lsn (lsn : Lsn) (p : LocalWalParser) : option ParsedWalEntry :=
  find (fun e => bool_decide (pe_lsn e = lsn)) (p_all_entries p).

Definition get_entries_in_lsn_range (start stop : Lsn) (p : LocalWalParser)
  : list ParsedWalEntry :=
  filter (fun e => start <= pe_lsn e /\ pe_lsn e <= stop) (p_all_entries p).

(** The [RecoveryResult] the callers take out of the parser. *)
Definition parser_result (p : LocalWalParser) : RecoveryResult :=
  mkRecovery (p_all_entries p) (p_last_timestamp p) (p_last_lsn p) (p_corrupted_count p)
    (p_skipped_count p).

(** ** Parallel parser *)

Definition parse_file (mode : WalRecoveryMode) (verify : bool) (f : WalFile)
  : result RecoveryResult WalError :=
  match read_wal_file f with
  | Err e => Err e
  | Ok None => Ok empty_recovery
  | Ok (Some d) => scan_bytes (fd_buffer d) (fh_start_lsn (fd_file_header d)) mode verify
  end.

Definition merge_one (merged r : RecoveryResult) : RecoveryResult :=
  mkRecovery (all_entries merged ++ all_entries r)
    (if decide (last_timestamp r > last_timestamp merged) then last_timestamp r
     else last_timestamp merged)
    (if decide (last_lsn r > last_lsn merged) then last_lsn r else last_lsn merged)
    (corrupted_count merged + corrupted_count r) (skipped_count merged + skipped_count r).

Definition merge_results (rs : list RecoveryResult) : RecoveryResult :=
  let merged := foldl merge_one empty_recovery rs in
  mkRecovery (merge_sort lsn_le (all_entries merged)) (last_timestamp merged) (last_lsn merged)
    (corrupted_count merged) (skipped_count merged).

(** All files or the first error. *)
Fixpoint parse_all (mode : WalRecoveryMode) (verify : bool) (files : list WalFile)
  : result (list RecoveryResult) WalError :=
  match files with
  | [] => Ok []
  | f :: rest =>
      match parse_file mode verify f with
      | Err e => Err e
      | Ok r => match parse_all mode verify rest with Err e => Err e | Ok rs => Ok (r :: rs) end
      end
  end.

(** One thread: files that fail are dropped unless the mode aborts. *)
Fixpoint parse_chunk (mode : WalRecoveryMode) (verify : bool) (files : list WalFile)
  : result (list RecoveryResult) WalError :=
  match files with
  | [] => Ok []
  | f :: rest =>
      match parse_file mode verify f with
      | Err e =>
          if decide (mode = AbortOnCorruption) then Err e else parse_chunk mode verify rest
      | Ok r => match parse_chunk mode verify rest with Err e => Err e | Ok rs => Ok (r :: rs) end
      end
  end.

(** Joining the threads in order: the first error wins. *)
Fixpoint join_all (rs : list (result (list RecoveryResult) WalError))
  : result (list (list RecoveryResult)) WalError :=
  match rs with
  | [] => Ok []
  | Err e :: _ => Err e
  | Ok l :: rest => match join_all rest with Err e => Err e | Ok ls => Ok (l :: ls) end
  end.

(** [order] lists the chunks in the order in which their threads take the lock
    on the shared results. *)
Definition parse_parallel (num_threads : nat) (order : list nat) (mode : WalRecoveryMode)
    (verify : bool) (dir : WalDir) : result RecoveryResult WalError :=
  match discover_wal_files dir mode with
  | Err e => Err e
  | Ok files =>
      if decide (length files <= num_threads)%nat then
        match parse_all mode verify files with
        | Err e => Err e
        | Ok rs => Ok (merge_results rs)
        end
      else
        let chunk_size := Z.to_nat (div_ceil (Z.of_nat (length files)) (Z.of_nat num_threads)) in
        let chunks := slice_chunks (length files) chunk_size files in
        match join_all (parse_chunk mode verify <$> chunks) with
        | Err e => Err e
        | Ok ls => Ok (merge_results (order ≫= fun i => nth i ls []))
        end
  end.

End parser.
End Parser.

Module ParserFacts.
Import Parser.

(** ** Merging does not depend on the order of the results *)

Lemma merge_fields rs m :
  foldl merge_one m rs =
    mkRecovery (all_entries m ++ (rs ≫= all_entries))
      (foldr Z.max (last_timestamp m) (last_timestamp <$> rs))
      (foldr Z.max (last_lsn m) (last_lsn <$> rs))
      (corrupted_count m + foldr Z.add 0 (corrupted_count <$> rs))
      (skipped_count m + foldr Z.add 0 (skipped_count <$> rs)).
Proof.
  revert m. induction rs as [|r rs IH]; intros m; simpl.
  - rewrite app_nil_r, !Z.add_0_r. by destruct m.
  - rewrite IH. unfold merge_one. simpl. rewrite <- app_assoc.
    assert (Hmax : forall a b l, foldr Z.max (if decide (b > a) then b else a) l =
      Z.max b (foldr Z.max a l)).
    { intros a b l. induction l as [|x l IHl]; simpl; [case_decide; lia|]. rewrite IHl. lia. }
    rewrite !Hmax, !Z.add_assoc. done.
Qed.

Lemma sort_unique (l l' : list ParsedWalEntry) :
  l ≡ₚ l' -> NoDup (pe_lsn <$> l) -> merge_sort lsn_le l = merge_sort lsn_le l'.
Proof.
  intros Hp Hnd. apply (StronglySorted_unique_strong lsn_le).
  - intros a b Ha Hb H1 H2. rewrite merge_sort_Permutation in Ha, Hb. rewrite <- Hp in Hb.
    apply list_elem_of_lookup in Ha as [i Hi], Hb as [j Hj]. unfold lsn_le in *.
    assert (pe_lsn a = pe_lsn b) as E by lia.
    assert (i = j) as ->; [|congruence].
    apply (NoDup_lookup _ i j (pe_lsn a) Hnd); rewrite list_lookup_fmap; [by rewrite Hi|].
    rewrite Hj. simpl. by rewrite E.
  - apply StronglySorted_merge_sort; apply _.
  - apply StronglySorted_merge_sort; apply _.
  - by rewrite !merge_sort_Permutation.
Qed.

Lemma foldr_perm (f : Z -> Z -> Z) d l l' :
  (forall a b c, f a (f b c) = f b (f a c)) -> l ≡ₚ l' -> foldr f d l = foldr f d l'.
Proof. intros Hf. induction 1; simpl; congruence. Qed.

Lemma merge_results_perm rs rs' :
  rs ≡ₚ rs' -> NoDup (pe_lsn <$> (rs ≫= all_entries)) -> merge_results rs = merge_results rs'.
Proof.
  intros Hp Hnd. unfold merge_results. rewrite !merge_fields. simpl.
  f_equal; [apply sort_unique; [by rewrite Hp|done]|..];
    apply foldr_perm; (lia || (rewrite Hp; done) || (intros; lia)) || (by rewrite Hp).
Qed.

(** ** Sharding *)

Lemma slice_chunks_join {A} fuel n (l : list A) :
  (0 < n)%nat -> (length l <= fuel)%nat -> mjoin (slice_chunks fuel n l) = l.
Proof.
  intros Hn. revert l. induction fuel as [|fuel IH]; intros l Hl; [by destruct l; simpl in *; [|lia]|].
  simpl. destruct l as [|x l]; [done|]. cbn [mjoin list_join].
  rewrite IH; [apply take_drop|]. rewrite length_drop. simpl in *. lia.
Qed.

Section facts.
Context (crc32 : list Z -> Z).
Context (zstd_decode : list Z -> option (list Z)).
Context (verify : bool).

Abbreviation all := (parse_all crc32 zstd_decode AbortOnCorruption verify).

Lemma parse_chunk_abort files :
  parse_chunk crc32 zstd_decode AbortOnCorruption verify files = all files.
Proof.
  induction files as [|f files IH]; simpl; [done|].
  destruct (parse_file _ _ _ _ f); [by rewrite IH|done].
Qed.

Lemma parse_all_app a b :
  all (a ++ b) = match all a with
                 | Err e => Err e
                 | Ok rs => match all b with Err e => Err e | Ok rs' => Ok (rs ++ rs') end
                 end.
Proof.
  induction a as [|f a IH]; simpl; [by destruct (all b)|].
  destruct (parse_file _ _ _ _ f); [|done]. rewrite IH. destruct (all a); [|done].
  by destruct (all b).
Qed.

(** Threads that all succeed deliver the results of the files. *)
Lemma join_all_abort chunks :
  match join_all (parse_chunk crc32 zstd_decode AbortOnCorruption verify <$> chunks) with
  | Ok ls => all (mjoin chunks) = Ok (mjoin ls)
  | Err e => all (mjoin chunks) = Err e
  end.
Proof.
  induction chunks as [|c chunks IH]; [done|]. rewrite fmap_cons. cbn [join_all].
  change (mjoin (c :: chunks)) with (c ++ mjoin chunks).
  rewrite parse_chunk_abort, parse_all_app. destruct (all c) as [rs|]; [|done].
  destruct (join_all _) as [ls|]; by rewrite IH.
Qed.

Lemma pick_seq {A} (ls : list (list A)) :
  (seq 0 (length ls) ≫= fun i => nth i ls []) = mjoin ls.
Proof.
  induction ls as [|l ls IH]; [done|]. change (mjoin (l :: ls)) with (l ++ mjoin ls).
  rewrite <- IH. cbn [length seq]. rewrite <- fmap_S_seq, bind_cons, list_fmap_bind. done.
Qed.

Lemma join_all_length rs ls : join_all rs = Ok ls -> length ls = length rs.
Proof.
  revert ls. induction rs as [|[l|e] rs IH]; intros ls; simpl; [by intros [= <-]| |done].
  destruct (join_all rs) as [ls'|]; [|done]. intros [= <-]. simpl. by rewrite (IH ls').
Qed.

Lemma div_ceil_pos a b : 0 < a -> 0 < b -> 0 < div_ceil a b.
Proof.
  intros Ha Hb. unfold div_ceil. pose proof (Z.div_mod a b ltac:(lia)).
  pose proof (Z.mod_pos_bound a b Hb). pose proof (Z.div_pos a b ltac:(lia) Hb).
  case_decide; nia.
Qed.

(** The chunks a directory is split into. *)
Definition chunks_for (threads : nat) (files : list WalFile) : list (list WalFile) :=
  slice_chunks (length files)
    (Z.to_nat (div_ceil (Z.of_nat (length files)) (Z.of_nat threads))) files.

Lemma parallel_abort threads order files :
  (0 < threads)%nat -> order ≡ₚ seq 0 (length (chunks_for threads files)) ->
  match all files with
  | Ok rs => NoDup (pe_lsn <$> (rs ≫= all_entries)) ->
      parse_parallel crc32 zstd_decode threads order AbortOnCorruption verify (Some files) =
        Ok (merge_results rs)
  | Err e =>
      parse_parallel crc32 zstd_decode threads order AbortOnCorruption verify (Some files) = Err e
  end.
Proof.
  intros Hth Hord. unfold parse_parallel, discover_wal_files.
  rewrite decide_False by (by intros [_ ?]). case_decide as Hle; [by destruct (all files)|].
  assert (Hpos : 0 < div_ceil (Z.of_nat (length files)) (Z.of_nat threads))
    by (apply div_ceil_pos; lia).
  pose proof (slice_chunks_join (length files)
    (Z.to_nat (div_ceil (Z.of_nat (length files)) (Z.of_nat threads))) files
    ltac:(lia) ltac:(lia)) as Hj. fold (chunks_for threads files) in Hj |- *.
  pose proof (join_all_abort (chunks_for threads files)) as Hjoin. rewrite Hj in Hjoin.
  destruct (join_all _) as [ls|] eqn:El; rewrite Hjoin; [|done].
  intros Hnd. apply f_equal. symmetry. apply merge_results_perm; [|done].
  apply join_all_length in El. rewrite length_fmap in El. rewrite Hord, <- El. by rewrite pick_seq.
Qed.

(** ** The sequential parser *)

Lemma max_if a b : Z.max a b = if decide (b > a) then b else a.
Proof. case_decide; lia. Qed.

Lemma parse_each_abort files p :
  p_recovery_mode p = AbortOnCorruption -> p_verify_checksum p = verify ->
  0 <= p_last_timestamp p -> 0 <= p_last_lsn p ->
  match all files with
  | Ok rs => exists p', parse_each crc32 zstd_decode files p = (p', Ok tt) /\
      parser_result p' = foldl merge_one (parser_result p) rs
  | Err _ => exists p', parse_each crc32 zstd_decode files p = (p', Err RecoveryAborted)
  end.
Proof.
  revert p. induction files as [|f files IH]; intros p Hm Hv Ht Hl; simpl; [by exists p|].
  unfold parse_file, parse_wal_file, st_bind, st_lift, st_modify, st_get, st_ret.
  destruct (read_wal_file f) as [[d|]|]; simpl.
  - rewrite Hm, Hv. destruct (scan_bytes _ _ _ _ _ _) as [r|]; simpl.
    + specialize (IH (extend r (push_header (fd_file_header d) p)) Hm Hv).
      simpl in IH. destruct (all files) as [rs|].
      * destruct IH as (p' & Hp & Hr); [lia|case_decide; lia|]. exists p'. split; [done|].
        rewrite Hr. simpl. f_equal. unfold parser_result, merge_one. simpl. by rewrite max_if.
      * apply IH; [lia|case_decide; lia].
    + destruct (all files); by rewrite decide_True by done; eexists.
  - specialize (IH p Hm Hv Ht Hl). destruct (all files) as [rs|]; [|done].
    destruct IH as (p' & Hp & Hr). exists p'. split; [done|]. rewrite Hr. simpl. f_equal.
    unfold merge_one, parser_result, empty_recovery. simpl.
    rewrite app_nil_r, !Z.add_0_r, !decide_False by lia. done.
  - rewrite decide_True by done. by eexists.
Qed.

(** For any number of threads and any order in which they deliver, the
    parallel parser in its default mode returns what the sequential parser
    returns: the same entries in LSN order and the same counters; and it fails
    when the sequential parser fails.  Entries are assumed to have different
    LSNs, as the segments of one log have. *)
Theorem parallel_equals_sequential threads order files p r :
  (0 < threads)%nat ->
  order ≡ₚ seq 0 (length (chunks_for threads files)) ->
  parse_wal_files crc32 zstd_decode (Some files) (with_verify_checksum verify new) = (p, r) ->
  NoDup (pe_lsn <$> p_all_entries p) ->
  match r with
  | Ok _ => parse_parallel crc32 zstd_decode threads order AbortOnCorruption verify (Some files) =
      Ok (parser_result p)
  | Err _ => exists e,
      parse_parallel crc32 zstd_decode threads order AbortOnCorruption verify (Some files) = Err e
  end.
Proof.
  intros Hth Hord Hseq Hnd. pose proof (parallel_abort threads order files Hth Hord) as Hpar.
  pose proof (parse_each_abort files (with_verify_checksum verify new)
    eq_refl eq_refl ltac:(simpl; lia) ltac:(simpl; lia)) as Heach.
  unfold parse_wal_files, st_bind, st_get, st_lift, st_modify, discover_wal_files in Hseq.
  rewrite decide_False in Hseq by (by intros [_ ?]).
  destruct (all files) as [rs|e]; destruct Heach as (p1 & Hp1 & Hres) || destruct Heach as (p1 & Hp1);
    rewrite Hp1 in Hseq; injection Hseq as <- <-; [|eauto].
  rewrite merge_fields in Hres. unfold parser_result in Hres. injection Hres as H1 H2 H3 H4 H5.
  simpl in Hnd. rewrite merge_sort_Permutation, H1 in Hnd.
  rewrite Hpar by done. unfold merge_results, parser_result. rewrite merge_fields. simpl.
  by rewrite H1, H2, H3, H4, H5.
Qed.

End facts.
End ParserFacts.

(** ** Example: three segments over two threads, the second one first *)

Module ParserExample.
Import Parser.

Definition crc (b : list Z) : Z := 0.

Definition unzip (b : list Z) : option (list Z) := Some b.

(** A segment with one record of one byte. *)
Definition segment (start : Lsn) : list Z :=
  FileHeader.as_bytes (FileHeader.new 7 8 9 0 0 start) ++
  Header.as_bytes (Header.with_lsn (start + 41) start (Header.new OpInsertVertex 5 1)) ++ [42].

Definition files : list WalFile := [Some (segment 0); Some []; Some (segment 41)].

Definition parsed : LocalWalParser * result unit WalError :=
  Eval vm_compute in parse_wal_files crc unzip (Some files) (with_verify_checksum true new).

Lemma parallel_equals_sequential_witness :
  length (p_all_entries parsed.1) = 2%nat /\
  parse_parallel crc unzip 2 [1; 0]%nat AbortOnCorruption true (Some files) =
    Ok (parser_result parsed.1).
Proof.
  split; [done|].
  apply (ParserFacts.parallel_equals_sequential crc unzip true 2 [1; 0]%nat files parsed.1 (Ok tt)).
  - lia.
  - apply Permutation_swap.
  - by vm_compute.
  - by apply (bool_decide_unpack _); vm_compute.
Defined.

End ParserExample.
