(* ===== verification/WalWriter.v ===== *)
(** * WAL writer

    [linkrs-transaction/src/wal/writer/local.rs] and [local/record.rs],
    [header.rs], [poison.rs], [durability.rs], with the compressors of
    [writer/compression.rs] and the batch envelope of [wal/commit.rs].  The
    file is its byte sequence; each call's file operations succeed or fail as
    given by a [WalIo].  The writer is in its direct mode: no per-thread buffer
    (the buffered mode is in [WalBuffered]).  Group
    commit is a wait that succeeds or fails. *)

From stdpp Require Import base gmap list strings.
From Stdlib Require Import ZArith Lia.
From S2P Require Import Prelude Types WalTypes.

Inductive SyncPolicy := SyncNever | EveryWrite | SyncBatch (batch_size : Z).

Definition requires_sync (p : SyncPolicy) (write_count : Z) : bool :=
  match p with
  | SyncNever => false
  | EveryWrite => true
  | SyncBatch n => bool_decide (write_count >= n)
  end.

(** The part of [WalConfig] the writer reads. *)
Record WalConfig := mkWalConfig {
  truncate_size : Z;
  max_file_size : Z;
  sync_policy : SyncPolicy;
  cfg_compression : WalCompression;
  checksum_enabled : bool;
}.

Definition default_wal_config : WalConfig :=
  mkWalConfig (4 * 1024 * 1024) (16 * 1024 * 1024) EveryWrite CompNone true.

(** Outcome of the file operations of one call; a failed write leaves a prefix
    of its bytes. *)
Record WalIo := mkWalIo {
  wio_set_len : bool;
  wio_seek : bool;
  wio_write : option nat;
  wio_sync : bool;
  wio_group : result unit WalError;
}.

Definition wio_ok : WalIo := mkWalIo true true None true (Ok tt).

Record LocalWalWriter := mkWriter {
  w_file : option (list Z);
  w_file_size : Z;
  w_file_used : Z;
  w_checkpoint_seq : Z;
  w_current_lsn : Lsn;
  w_last_synced_lsn : Lsn;
  w_file_start_lsn : Lsn;
  w_config : WalConfig;
  w_is_open : bool;
  w_file_header : option WalFileHeader;
  w_write_count : Z;
  w_poisoned : bool;
  w_group_commit : bool;
}.

(** [File::set_len]: cut, or extend with zeros. *)
Definition set_len (n : nat) (f : list Z) : list Z := take n f ++ replicate (n - length f) 0.

(** [seek] and [write_all] at a position. *)
Definition write_at (pos : nat) (data f : list Z) : list Z :=
  take pos f ++ replicate (pos - length f) 0 ++ data ++ drop (pos + length data) f.

Module Writer.

Definition with_config (cfg : WalConfig) : LocalWalWriter :=
  mkWriter None 0 0 0 0 0 0 cfg false None 0 false false.

Definition set_file (f : option (list Z)) (w : LocalWalWriter) : LocalWalWriter :=
  mkWriter f (w_file_size w) (w_file_used w) (w_checkpoint_seq w) (w_current_lsn w)
    (w_last_synced_lsn w) (w_file_start_lsn w) (w_config w) (w_is_open w) (w_file_header w)
    (w_write_count w) (w_poisoned w) (w_group_commit w).

Definition set_file_size (n : Z) (w : LocalWalWriter) : LocalWalWriter :=
  mkWriter (w_file w) n (w_file_used w) (w_checkpoint_seq w) (w_current_lsn w)
    (w_last_synced_lsn w) (w_file_start_lsn w) (w_config w) (w_is_open w) (w_file_header w)
    (w_write_count w) (w_poisoned w) (w_group_commit w).

Definition set_used (n : Z) (w : LocalWalWriter) : LocalWalWriter :=
  mkWriter (w_file w) (w_file_size w) n (w_checkpoint_seq w) (w_current_lsn w)
    (w_last_synced_lsn w) (w_file_start_lsn w) (w_config w) (w_is_open w) (w_file_header w)
    (w_write_count w) (w_poisoned w) (w_group_commit w).

Definition set_lsn (n : Lsn) (w : LocalWalWriter) : LocalWalWriter :=
  mkWriter (w_file w) (w_file_size w) (w_file_used w) (w_checkpoint_seq w) n
    (w_last_synced_lsn w) (w_file_start_lsn w) (w_config w) (w_is_open w) (w_file_header w)
    (w_write_count w) (w_poisoned w) (w_group_commit w).

Definition set_synced (n : Lsn) (w : LocalWalWriter) : LocalWalWriter :=
  mkWriter (w_file w) (w_file_size w) (w_file_used w) (w_checkpoint_seq w) (w_current_lsn w)
    n (w_file_start_lsn w) (w_config w) (w_is_open w) (w_file_header w)
    (w_write_count w) (w_poisoned w) (w_group_commit w).

Definition set_write_count (n : Z) (w : LocalWalWriter) : LocalWalWriter :=
  mkWriter (w_file w) (w_file_size w) (w_file_used w) (w_checkpoint_seq w) (w_current_lsn w)
    (w_last_synced_lsn w) (w_file_start_lsn w) (w_config w) (w_is_open w) (w_file_header w)
    n (w_poisoned w) (w_group_commit w).

Definition set_header (h : WalFileHeader) (w : LocalWalWriter) : LocalWalWriter :=
  mkWriter (w_file w) (w_file_size w) (w_file_used w) (w_checkpoint_seq w) (w_current_lsn w)
    (w_last_synced_lsn w) (fh_start_lsn h) (w_config w) (w_is_open w) (Some h)
    (w_write_count w) (w_poisoned w) (w_group_commit w).

Definition set_seq (n : Z) (w : LocalWalWriter) : LocalWalWriter :=
  mkWriter (w_file w) (w_file_size w) (w_file_used w) n (w_current_lsn w)
    (w_last_synced_lsn w) (w_file_start_lsn w) (w_config w) (w_is_open w) (w_file_header w)
    (w_write_count w) (w_poisoned w) (w_group_commit w).

(** ** Poison *)

Definition poison (w : LocalWalWriter) : LocalWalWriter :=
  mkWriter (w_file w) (w_file_size w) (w_file_used w) (w_checkpoint_seq w) (w_current_lsn w)
    (w_last_synced_lsn w) (w_file_start_lsn w) (w_config w) (w_is_open w) (w_file_header w)
    (w_write_count w) true (w_group_commit w).

Definition check_poisoned : ST LocalWalWriter WalError unit :=
  fun w => (w, if w_poisoned w then Err Poisoned else Ok tt).

Definition require_open : ST LocalWalWriter WalError unit :=
  fun w => (w, if w_is_open w then Ok tt else Err WClosed).

(** ** File writes *)

(** Grow the file in steps of [truncate_size] when the bytes do not fit. *)
Definition ensure_room (io : WalIo) (total : Z) : ST LocalWalWriter WalError unit :=
  fun w =>
    match w_file w with
    | None => (w, Err WClosed)
    | Some f =>
        let expected_size := w_file_used w + total in
        if decide (expected_size > w_file_size w) then
          let step := truncate_size (w_config w) in
          let new_size := (expected_size / step + 1) * step in
          if wio_set_len io
          then (set_file_size new_size (set_file (Some (set_len (Z.to_nat new_size) f)) w), Ok tt)
          else (w, Err IoError)
        else (w, Ok tt)
    end.

(** Seek to [pos] and write; the file keeps what a failed write left. *)
Definition write_bytes (io : WalIo) (pos : Z) (data : list Z) : ST LocalWalWriter WalError unit :=
  fun w =>
    match w_file w with
    | None => (w, Err WClosed)
    | Some f =>
        if negb (wio_seek io) then (w, Err IoError)
        else match wio_write io with
             | None => (set_file (Some (write_at (Z.to_nat pos) data f)) w, Ok tt)
             | Some n => (set_file (Some (write_at (Z.to_nat pos) (take n data) f)) w, Err IoError)
             end
    end.

(** The fsync of [write_entry], which poisons the writer when it fails. *)
Definition sync_after_write (io : WalIo) : ST LocalWalWriter WalError unit :=
  fun w =>
    let count := wrap_u64 (w_write_count w + 1) in
    let w1 := set_write_count count w in
    if requires_sync (sync_policy (w_config w1)) count then
      if wio_sync io
      then (set_write_count 0 (set_synced (w_current_lsn w1) w1), Ok tt)
      else (poison w1, Err IoError)
    else (w1, Ok tt).

(** [serialize_record]: the header, then the payload. *)
Definition serialize_record (h : WalHeader) (payload : list Z) : list Z :=
  Header.as_bytes h ++ payload.

Definition write_entry (io : WalIo) (h : WalHeader) (payload : list Z) (new_lsn : Lsn)
  : ST LocalWalWriter WalError unit :=
  let total := Z.of_nat (WAL_HEADER_SIZE + length payload) in
  do! ensure_room io total in
  let! w := st_get in
  do! write_bytes io (w_file_used w) (serialize_record h payload) in
  do! st_modify (fun w => set_lsn new_lsn (set_used (w_file_used w + total) w)) in
  sync_after_write io.

Section writer.
Context (crc32 : list Z -> Z).
Context (zstd_encode : Z -> list Z -> option (list Z)).

(** [Compressor::compress] of the compressor the configuration selects; the
    level is the one of the configuration, the minimum size 64. *)
Definition compress (level : Z) (c : WalCompression) (data : list Z)
  : result (list Z * WalCompression) WalError :=
  match c with
  | CompNone => Ok (data, CompNone)
  | CompZstd =>
      if decide (Z.of_nat (length data) < 64) then Ok (data, CompNone)
      else match zstd_encode level data with
           | None => Err SerializationError
           | Some z => if decide (length z < length data)%nat then Ok (z, CompZstd)
                       else Ok (data, CompNone)
           end
  end.

Context (level : Z).

Definition build_wal_header (op : WalOpType) (ts : Timestamp) (prev new : Lsn) (rt : RecordType)
    (payload : list Z) (c : WalCompression) (w : LocalWalWriter) : WalHeader :=
  let h := Header.with_compression c (Header.with_record_type rt (Header.with_lsn new prev
    (Header.new op ts (Z.of_nat (length payload) mod 2 ^ 32)))) in
  if checksum_enabled (w_config w) then Header.with_checksum crc32 payload h else h.

Definition append_single_entry (io : WalIo) (op : WalOpType) (ts : Timestamp) (payload : list Z)
    (c : WalCompression) : ST LocalWalWriter WalError unit :=
  let! w := st_get in
  let prev := w_current_lsn w in
  let new := prev + Z.of_nat (WAL_HEADER_SIZE + length payload) in
  write_entry io (build_wal_header op ts prev new RFull payload c w) payload new.

Definition chunk_record_type (total_chunks chunk_index : Z) : RecordType :=
  if decide (total_chunks = 1) then RFull
  else if decide (chunk_index = 0) then RFirst
  else if decide (chunk_index = total_chunks - 1) then RLast
  else RMiddle.

(** The loop over the chunks that remain. *)
Fixpoint append_chunks (io : WalIo) (op : WalOpType) (ts : Timestamp) (c : WalCompression)
    (total index : Z) (chunks : list (list Z)) : ST LocalWalWriter WalError unit :=
  match chunks with
  | [] => st_ret tt
  | d :: rest =>
      let! w := st_get in
      let prev := w_current_lsn w in
      let new := prev + Z.of_nat (WAL_HEADER_SIZE + length d) in
      do! write_entry io (build_wal_header op ts prev new (chunk_record_type total index) d c w)
            d new in
      append_chunks io op ts c total (index + 1) rest
  end.

(** [payload[offset..chunk_end]] for the successive offsets. *)
Fixpoint chunks_of (fuel n : nat) (l : list Z) : list (list Z) :=
  match fuel with
  | O => []
  | S fuel' => match l with [] => [] | _ => take n l :: chunks_of fuel' n (drop n l) end
  end.

Definition append_fragmented_entry (io : WalIo) (op : WalOpType) (ts : Timestamp)
    (payload : list Z) (c : WalCompression) : ST LocalWalWriter WalError unit :=
  append_chunks io op ts c (div_ceil (Z.of_nat (length payload)) WAL_MAX_RECORD_SIZE) 0
    (chunks_of (length payload) (Z.to_nat WAL_MAX_RECORD_SIZE) payload).

Definition append_entry (io : WalIo) (op : WalOpType) (ts : Timestamp) (payload : list Z)
  : ST LocalWalWriter WalError unit :=
  do! check_poisoned in
  do! require_open in
  let! w := st_get in
  let! pc := st_lift (compress level (cfg_compression (w_config w)) payload) in
  if decide (Z.of_nat (length pc.1) > WAL_MAX_RECORD_SIZE)
  then append_fragmented_entry io op ts pc.1 pc.2
  else append_single_entry io op ts pc.1 pc.2.

(** ** Batches *)

(** Headers and payloads of a batch, chained from [lsn]. *)
Fixpoint batch_records (entries : list (WalOpType * Timestamp * list Z)) (lsn : Lsn)
    (w : LocalWalWriter) : result (list (WalHeader * list Z)) WalError :=
  match entries with
  | [] => Ok []
  | (op, ts, payload) :: rest =>
      match compress level (cfg_compression (w_config w)) payload with
      | Err e => Err e
      | Ok (final, c) =>
          let new := lsn + Z.of_nat (WAL_HEADER_SIZE + length final) in
          match batch_records rest new w with
          | Err e => Err e
          | Ok rs => Ok ((build_wal_header op ts lsn new RFull final c w, final) :: rs)
          end
      end
  end.

Definition record_bytes (rs : list (WalHeader * list Z)) : list Z :=
  rs ≫= fun r => serialize_record r.1 r.2.

(** The new LSN; nothing is synced. *)
Definition write_batch_entries (io : WalIo) (entries : list (WalOpType * Timestamp * list Z))
  : ST LocalWalWriter WalError Lsn :=
  let! w := st_get in
  let! rs := st_lift (batch_records entries (w_current_lsn w) w) in
  let total := Z.of_nat (length (record_bytes rs)) in
  do! ensure_room io total in
  let! w1 := st_get in
  do! write_bytes io (w_file_used w1) (record_bytes rs) in
  do! st_modify (fun w => set_lsn (w_current_lsn w + total) (set_used (w_file_used w + total) w)) in
  let! w2 := st_get in
  st_ret (w_current_lsn w2).

Definition append_batch_with_durability (io : WalIo)
    (entries : list (WalOpType * Timestamp * list Z)) (d : DurabilityLevel)
  : ST LocalWalWriter WalError unit :=
  do! check_poisoned in
  do! require_open in
  let! new := write_batch_entries io entries in
  match d with
  | DSync =>
      let! w := st_get in
      do! (if w_group_commit w then st_lift (wio_group io)
           else match w_file w with
                | None => st_err WClosed
                | Some _ => if wio_sync io then st_ret tt else st_err IoError
                end) in
      st_modify (set_synced new)
  | _ => st_ret tt
  end.

(** ** Transaction batches *)

Section batches.
Context (intent_to_vec : OutboxIntent -> option (list Z)).
Context (commit_to_vec : TransactionCommit -> option (list Z)).

(** Bytes a batch checksum covers. *)
Definition checksum_entry (op : WalOpType) (ts : Timestamp) (payload : list Z) : list Z :=
  [op_as_u8 op] ++ le_bytes 8 ts ++ le_bytes 8 (Z.of_nat (length payload)) ++ payload.

Definition batch_checksum (es : list TransactionWalEntry) : Z :=
  crc32 (es ≫= fun e => checksum_entry (we_op_type e) (we_timestamp e) (we_payload e)).

(** [iter().filter_map(mutation_sequence).min().unwrap_or(0)]. *)
Definition first_sequence_of (es : list TransactionWalEntry) : Z :=
  default 0 (list_min (omap we_mutation_sequence es)).

(** Intent records, checked in order. *)
Fixpoint intent_entries (tx : TransactionId) (expected : Z) (ints : list OutboxIntent)
  : result (list TransactionWalEntry) WalError :=
  match ints with
  | [] => Ok []
  | i :: rest =>
      match validate_intent i with
      | Err e => Err e
      | Ok _ =>
          if decide (oi_transaction_id i <> tx) then Err InvalidOperation
          else if decide (intent_sequence i <> expected) then Err InvalidOperation
          else match intent_to_vec i with
               | None => Err SerializationError
               | Some b =>
                   match intent_entries tx (expected + 1) rest with
                   | Err e => Err e
                   | Ok es => Ok (mkWalEntry OpOutboxIntent 0 b (Some tx) None :: es)
                   end
               end
      end
  end.

Definition build_transaction_entries (tx : TransactionId) (entries : list TransactionWalEntry)
    (ints : list OutboxIntent) : ST LocalWalWriter WalError (list TransactionWalEntry) :=
  do! check_poisoned in
  let redo_count := Z.of_nat (length entries) mod 2 ^ 32 in
  let first := first_sequence_of entries in
  let! ies := st_lift (intent_entries tx 0 ints) in
  let all := entries ++ ies in
  do! (if decide (Z.of_nat (length ints) >= 2 ^ 32) then st_err InvalidOperation else st_ret tt) in
  let commit := mkCommit WAL_SYNC_WIRE_VERSION tx (Z.of_nat (length ints)) (batch_checksum all)
    first redo_count in
  match commit_to_vec commit with
  | None => st_err SerializationError
  | Some b => st_ret (all ++ [mkWalEntry OpTransactionCommit 0 b (Some tx) None])
  end.

Definition entry_ref (e : TransactionWalEntry) : WalOpType * Timestamp * list Z :=
  (we_op_type e, we_timestamp e, we_payload e).

Definition append_transaction_batch_with_durability (io : WalIo) (tx : TransactionId)
    (entries : list TransactionWalEntry) (ints : list OutboxIntent) (d : DurabilityLevel)
  : ST LocalWalWriter WalError CommitLsn :=
  let! es := build_transaction_entries tx entries ints in
  do! append_batch_with_durability io (entry_ref <$> es) d in
  let! w := st_get in
  st_ret (w_current_lsn w).

Definition append_transaction_batch (io : WalIo) (tx : TransactionId)
    (entries : list TransactionWalEntry) (ints : list OutboxIntent)
  : ST LocalWalWriter WalError CommitLsn :=
  append_transaction_batch_with_durability io tx entries ints DSync.

Definition append_transaction_batch_no_wait (io : WalIo) (tx : TransactionId)
    (entries : list TransactionWalEntry) (ints : list OutboxIntent)
  : ST LocalWalWriter WalError CommitLsn :=
  let! es := build_transaction_entries tx entries ints in
  do! write_batch_entries io (entry_ref <$> es) in
  let! w := st_get in
  st_ret (w_current_lsn w).

End batches.
End writer.

(** ** File header, open and close *)

Definition persist_file_header (io : WalIo) (h : WalFileHeader) (reset_file_used : bool)
  : ST LocalWalWriter WalError unit :=
  do! write_bytes io 0 (FileHeader.as_bytes h) in
  do! (if wio_sync io then st_ret tt else st_err IoError) in
  do! st_modify (set_header h) in
  if reset_file_used then st_modify (set_used (Z.of_nat WAL_FILE_HEADER_SIZE)) else st_ret tt.

(** Salts, creation time and thread are inputs. *)
Definition write_file_header (io : WalIo) (salt1 salt2 created_at thread_id : Z)
  : ST LocalWalWriter WalError unit :=
  let! w := st_get in
  persist_file_header io
    (FileHeader.with_checksum_enabled (checksum_enabled (w_config w))
       (FileHeader.new salt1 salt2 created_at thread_id (w_checkpoint_seq w) (w_current_lsn w)))
    true.

Definition set_header_seq (n : Z) (h : WalFileHeader) : WalFileHeader :=
  mkFileHeader (fh_magic h) (fh_version h) n (fh_start_lsn h) (fh_salt1 h) (fh_salt2 h)
    (fh_created_at h) (fh_thread_id h) (fh_reserved h).

Definition set_header_start (n : Lsn) (h : WalFileHeader) : WalFileHeader :=
  mkFileHeader (fh_magic h) (fh_version h) (fh_checkpoint_seq h) n (fh_salt1 h) (fh_salt2 h)
    (fh_created_at h) (fh_thread_id h) (fh_reserved h).

Definition refresh_file_header (io : WalIo) : ST LocalWalWriter WalError unit :=
  let! w := st_get in
  match w_file w, w_file_header w with
  | Some _, Some h => persist_file_header io (set_header_seq (w_checkpoint_seq w) h) false
  | _, _ => st_ret tt
  end.

Definition set_checkpoint_seq (io : WalIo) (seq : Z) : ST LocalWalWriter WalError unit :=
  do! st_modify (set_seq seq) in
  let! w := st_get in
  match w_file w with Some _ => refresh_file_header io | None => st_ret tt end.

Definition set_recovery_baseline_lsn (io : WalIo) (lsn : Lsn) : ST LocalWalWriter WalError unit :=
  let! w := st_get in
  if decide (lsn <= w_current_lsn w) then st_ret tt
  else if decide (w_file_used w > Z.of_nat WAL_FILE_HEADER_SIZE) then st_err InvalidOperation
  else
    do! st_modify (fun w => set_synced lsn (set_lsn lsn w)) in
    match w_file_header w with
    | Some h => persist_file_header io (set_header_start lsn h) false
    | None =>
        st_modify (fun w => mkWriter (w_file w) (w_file_size w) (w_file_used w) (w_checkpoint_seq w)
          (w_current_lsn w) (w_last_synced_lsn w) lsn (w_config w) (w_is_open w) (w_file_header w)
          (w_write_count w) (w_poisoned w) (w_group_commit w))
    end.

(** [open]: a fresh, preallocated segment that continues the LSN range of the
    segments present ([parsed_lsn], when they could be parsed). *)
Definition open (io : WalIo) (salt1 salt2 created_at thread_id : Z) (parsed_lsn : option Lsn)
  : ST LocalWalWriter WalError unit :=
  do! check_poisoned in
  let! w0 := st_get in
  if w_is_open w0 then st_ret tt
  else
    do! st_modify (fun w =>
      match parsed_lsn with
      | Some l => if decide (w_current_lsn w = 0) then set_synced l (set_lsn l w) else w
      | None => w
      end) in
    do! (if wio_set_len io then st_ret tt else st_err IoError) in
    do! st_modify (fun w =>
      mkWriter (Some (set_len (Z.to_nat (truncate_size (w_config w))) [])) (truncate_size (w_config w))
        0 (w_checkpoint_seq w) (w_current_lsn w) (w_last_synced_lsn w) (w_file_start_lsn w)
        (w_config w) true (w_file_header w) (w_write_count w) (w_poisoned w) (w_group_commit w)) in
    write_file_header io salt1 salt2 created_at thread_id.

(** [close] forgets the file, poisoning the writer when the last fsync
    fails. *)
Definition close (io : WalIo) (w : LocalWalWriter) : LocalWalWriter :=
  if w_is_open w then
    let w1 := match w_file w with
              | Some _ => if wio_sync io then w else poison w
              | None => w
              end in
    mkWriter None 0 0 (w_checkpoint_seq w1) (w_current_lsn w1) (w_last_synced_lsn w1)
      (w_file_start_lsn w1) (w_config w1) false None (w_write_count w1) (w_poisoned w1) false
  else w.

(** [sync] in direct mode. *)
Definition sync_via_file (io : WalIo) : ST LocalWalWriter WalError unit :=
  do! check_poisoned in
  let! w := st_get in
  let lsn := w_current_lsn w in
  do! (if w_group_commit w then st_lift (wio_group io)
       else match w_file w with
            | Some _ => if wio_sync io then st_ret tt else fun w => (poison w, Err IoError)
            | None => st_ret tt
            end) in
  st_modify (fun w => set_write_count 0 (set_synced lsn w)).

Definition wait_durable_via_file (io : WalIo) (appended : Lsn) : ST LocalWalWriter WalError unit :=
  let! w := st_get in
  if w_group_commit w then st_lift (wio_group io)
  else match w_file w with
       | Some _ =>
           do! check_poisoned in
           do! (if wio_sync io then st_ret tt else st_err IoError) in
           st_modify (set_synced appended)
       | None => st_err WClosed
       end.

End Writer.
