(* ===== verification/GroupCommit.v ===== *)
(** * Group commit

    [wal/writer/group_commit.rs] ([GroupCommitCoordinator]): threads that have
    appended to the log wait until their bytes are on disk, and one of them, the
    leader, calls fsync for all.

    The method [append_and_wait_timeout] is cut at its atomic accesses, its
    mutex and its condition variable, and any number of calls are interleaved
    with the appends ([WalManager::append_transaction_with_durability]) and the
    rotations ([LocalWalWriter::rotate]) of the writer.  [gstep] executes one
    event; the result of an fsync, of a rotation and of a wait are part of the
    event.  The condition variable is the one of [parking_lot]: it does not wake
    spuriously.

    The disk is the list of the writes that no successful fsync of their file
    has covered yet, each with the file and the LSN it ends at. *)

From stdpp Require Import base list gmap relations.
From Stdlib Require Import ZArith Lia.
From S2P Require Import Prelude Types.

(** Program points of [append_and_wait_timeout] for the LSN [n]; [r] is the
    result of the leader's fsync. *)
Inductive gc_pc :=
| PFast (n : Z)
| PLock (n : Z)
| PCheck (n : Z)
| PFlag (n : Z)
| PClaim (n : Z)
| PMax (n : Z)
| PUnlock (n : Z)
| PSync (n : Z)
| PLoad (n : Z) (r : bool)
| PStore (n : Z) (r : bool) (v : Z)
| PClear (n : Z) (r : bool)
| PNotify (n : Z) (r : bool)
| PDeadline (n : Z)
| PWait (n : Z)
| PWoken (n : Z)
| PExpired (n : Z)
| PTimeout (n : Z)
| PTimeoutNotify (n : Z)
| PFollowed (n : Z)
| PLed (n : Z) (r : bool)
| PTimedOut (n : Z).

(** [GroupCommitState]: the file as an identifier, the two sequence numbers,
    the flag and the holder of [commit_mutex]. *)
Record GroupCommitState := mkGc {
  gc_file : nat;
  appended_seq : Z;
  durable_seq : Z;
  sync_in_progress : bool;
  commit_mutex : option nat;
}.

Record gc_sys := mkGcs {
  gcs_state : GroupCommitState;
  gcs_calls : gmap nat gc_pc;
  gcs_wfile : nat;
  gcs_written : Z;
  gcs_unsynced : list (nat * Z);
}.

(** What a step of a call depends on besides the state: the fsync result, and
    whether a deadline has passed. *)
Record gc_choice := mkChoice { sync_ok : bool; expired : bool }.

Inductive gc_event :=
| EAppend (n : Z)
| ERotate (synced cloned : bool)
| ERecord (n : Z)
| ECall (t : nat) (n : Z)
| EStep (t : nat) (c : gc_choice).

Module Group.

(** ** The coordinator *)

Definition with_timeout (file : nat) (start_lsn : Z) : GroupCommitState :=
  mkGc file start_lsn start_lsn false None.

Definition update_file (file : nat) (s : GroupCommitState) : GroupCommitState :=
  mkGc file (appended_seq s) (durable_seq s) (sync_in_progress s) (commit_mutex s).

(** The compare-exchange loop of [record_appended], and the [fetch_max] of the
    leader. *)
Definition record_appended (n : Z) (s : GroupCommitState) : GroupCommitState :=
  mkGc (gc_file s) (Z.max (appended_seq s) n) (durable_seq s) (sync_in_progress s)
    (commit_mutex s).

Definition set_durable (n : Z) (s : GroupCommitState) : GroupCommitState :=
  mkGc (gc_file s) (appended_seq s) n (sync_in_progress s) (commit_mutex s).

Definition set_syncing (b : bool) (s : GroupCommitState) : GroupCommitState :=
  mkGc (gc_file s) (appended_seq s) (durable_seq s) b (commit_mutex s).

Definition set_mutex (o : option nat) (s : GroupCommitState) : GroupCommitState :=
  mkGc (gc_file s) (appended_seq s) (durable_seq s) (sync_in_progress s) o.

(** ** The disk *)

(** [sync_data] on a file. *)
Definition fsync (file : nat) (l : list (nat * Z)) : list (nat * Z) :=
  filter (fun w => w.1 <> file) l.

(** Every byte up to [n] is on disk. *)
Definition covered (n : Z) (l : list (nat * Z)) : bool :=
  forallb (fun w => bool_decide (n < w.2)) l.

Arguments covered : simpl never.
Arguments fsync : simpl never.

(** ** One call *)

(** [notify_all] on [commit_condvar]. *)
Definition wake_call (p : gc_pc) : gc_pc :=
  match p with PWait n => PWoken n | _ => p end.

Definition notify_all (m : gmap nat gc_pc) : gmap nat gc_pc := wake_call <$> m.

(** [commit_mutex.lock()], also at the end of [wait_for]. *)
Definition lock (t : nat) (p : gc_pc) (s : GroupCommitState) : option (GroupCommitState * gc_pc) :=
  match commit_mutex s with
  | None => Some (set_mutex (Some t) s, p)
  | Some _ => None
  end.

Definition unlock (s : GroupCommitState) : GroupCommitState := set_mutex None s.

(** One access of the call at [p]: the new state and program point, or [None]
    when the call is blocked or has returned.  What the access does to the disk
    and to the waiting calls is in [disk_effect] and [notifies]. *)
Definition advance (t : nat) (c : gc_choice) (p : gc_pc) (s : GroupCommitState)
  : option (GroupCommitState * gc_pc) :=
  match p with
  | PFast n =>
      if decide (durable_seq s >= n) then Some (s, PFollowed n) else Some (s, PLock n)
  | PLock n => lock t (PCheck n) s
  | PCheck n =>
      if decide (durable_seq s >= n) then Some (unlock s, PFollowed n) else Some (s, PFlag n)
  | PFlag n => if sync_in_progress s then Some (s, PDeadline n) else Some (s, PClaim n)
  | PClaim n => Some (set_syncing true s, PMax n)
  | PMax n => Some (record_appended n s, PUnlock n)
  | PUnlock n => Some (unlock s, PSync n)
  | PSync n => Some (s, PLoad n (sync_ok c))
  | PLoad n r => Some (s, PStore n r (appended_seq s))
  | PStore n r v => Some (set_durable v s, PClear n r)
  | PClear n r => Some (set_syncing false s, PNotify n r)
  | PNotify n r => Some (s, PLed n r)
  | PDeadline n => if expired c then Some (s, PTimeout n) else Some (unlock s, PWait n)
  | PWait n => if expired c then Some (s, PExpired n) else None
  | PWoken n => lock t (PCheck n) s
  | PExpired n => lock t (PTimeout n) s
  | PTimeout n => Some (set_syncing false s, PTimeoutNotify n)
  | PTimeoutNotify n => Some (unlock s, PTimedOut n)
  | PFollowed _ | PLed _ _ | PTimedOut _ => None
  end.

Definition notifies (p : gc_pc) : bool :=
  match p with PNotify _ _ | PTimeoutNotify _ => true | _ => false end.

(** [sync_file], when it succeeds. *)
Definition disk_effect (c : gc_choice) (p : gc_pc) (s : GroupCommitState) (l : list (nat * Z))
  : list (nat * Z) :=
  match p with PSync _ => if sync_ok c then fsync (gc_file s) l else l | _ => l end.

Definition call_step (t : nat) (c : gc_choice) (s : gc_sys) : option gc_sys :=
  match gcs_calls s !! t with
  | None => None
  | Some p =>
      match advance t c p (gcs_state s) with
      | None => None
      | Some (s1, p1) =>
          let calls := if notifies p then notify_all (gcs_calls s) else gcs_calls s in
          Some (mkGcs s1 (<[t := p1]> calls) (gcs_wfile s) (gcs_written s)
                  (disk_effect c p (gcs_state s) (gcs_unsynced s)))
      end
  end.

(** ** The writer *)

(** The file part of [rotate], under the writer lock: the old segment is synced,
    and the coordinator gets a handle on the new one when it can be cloned. *)
Definition rotate (synced cloned : bool) (s : gc_sys) : gc_sys :=
  if synced then
    let new := S (gcs_wfile s) in
    mkGcs (if cloned then update_file new (gcs_state s) else gcs_state s) (gcs_calls s) new
      (gcs_written s) (fsync (gcs_wfile s) (gcs_unsynced s))
  else s.

(** Appends take the writer lock, so their LSNs increase; what is recorded or
    waited for has been written. *)
Definition gstep (e : gc_event) (s : gc_sys) : option gc_sys :=
  match e with
  | EAppend n =>
      if decide (gcs_written s < n)
      then Some (mkGcs (gcs_state s) (gcs_calls s) (gcs_wfile s) n
                   ((gcs_wfile s, n) :: gcs_unsynced s))
      else None
  | ERotate synced cloned => Some (rotate synced cloned s)
  | ERecord n =>
      if decide (n <= gcs_written s)
      then Some (mkGcs (record_appended n (gcs_state s)) (gcs_calls s) (gcs_wfile s)
                   (gcs_written s) (gcs_unsynced s))
      else None
  | ECall t n =>
      if decide (n <= gcs_written s /\ gcs_calls s !! t = None)
      then Some (mkGcs (gcs_state s) (<[t := PFast n]> (gcs_calls s)) (gcs_wfile s)
                   (gcs_written s) (gcs_unsynced s))
      else None
  | EStep t c => call_step t c s
  end.

(** [enable_group_commit] on a log whose first [start] bytes are on disk. *)
Definition group_init (start : Z) : gc_sys := mkGcs (with_timeout 0 start) ∅ 0 start [].

Fixpoint grun (es : list gc_event) (s : gc_sys) : option gc_sys :=
  match es with
  | [] => Some s
  | e :: rest => match gstep e s with Some s1 => grun rest s1 | None => None end
  end.

(** States reached from [s] by events that [ok] allows where they occur. *)
Inductive greach (ok : gc_sys -> gc_event -> Prop) (start : Z) : gc_sys -> Prop :=
| gr_init : greach ok start (group_init start)
| gr_step s e s' : greach ok start s -> ok s e -> gstep e s = Some s' -> greach ok start s'.

(** ** Lemmas on one step *)

(** The program points at which the call holds [commit_mutex]. *)
Definition holds (p : gc_pc) : bool :=
  match p with
  | PCheck _ | PFlag _ | PClaim _ | PMax _ | PUnlock _ | PDeadline _ | PTimeout _
  | PTimeoutNotify _ => true
  | _ => false
  end.

Definition pc_lsn (p : gc_pc) : Z :=
  match p with
  | PFast n | PLock n | PCheck n | PFlag n | PClaim n | PMax n | PUnlock n | PSync n | PLoad n _
  | PStore n _ _ | PClear n _ | PNotify n _ | PDeadline n | PWait n | PWoken n | PExpired n
  | PTimeout n | PTimeoutNotify n | PFollowed n | PLed n _ | PTimedOut n => n
  end.

Lemma holds_wake p : holds (wake_call p) = holds p.
Proof. by destruct p. Qed.

Lemma pc_lsn_wake p : pc_lsn (wake_call p) = pc_lsn p.
Proof. by destruct p. Qed.

(** A step of [t] moves [t] and wakes others at most. *)
Lemma call_step_cases t c s s' :
  call_step t c s = Some s' ->
  exists p s1 p1, gcs_calls s !! t = Some p /\ advance t c p (gcs_state s) = Some (s1, p1) /\
    gcs_state s' = s1 /\ gcs_wfile s' = gcs_wfile s /\ gcs_written s' = gcs_written s /\
    gcs_unsynced s' = disk_effect c p (gcs_state s) (gcs_unsynced s) /\
    gcs_calls s' !! t = Some p1 /\
    (forall t', t' <> t -> gcs_calls s' !! t' =
      (if notifies p then wake_call else id) <$> gcs_calls s !! t').
Proof.
  unfold call_step. destruct (gcs_calls s !! t) as [p|] eqn:Hp; [|done].
  destruct (advance t c p (gcs_state s)) as [[s1 p1]|] eqn:Ha; [|done]. intros [= <-].
  exists p, s1, p1. simpl. split_and!; try done; [by rewrite lookup_insert_eq|].
  intros t' Ht. rewrite lookup_insert_ne by done. unfold notify_all.
  destruct (notifies p); rewrite ?lookup_fmap, ?option_fmap_id; done.
Qed.

(** A property of program points that waking keeps is kept by a step of [t] when
    the point [t] arrives at has it. *)
Lemma call_step_forall (P : nat -> gc_pc -> Prop) t p1 b (m m' : gmap nat gc_pc) :
  (forall t' p, P t' p -> P t' (wake_call p)) ->
  (forall t' p, t' <> t -> m !! t' = Some p -> P t' p) ->
  m' !! t = Some p1 -> P t p1 ->
  (forall t', t' <> t -> m' !! t' = (if b : bool then wake_call else id) <$> m !! t') ->
  forall t' p, m' !! t' = Some p -> P t' p.
Proof.
  intros Hw Hm Ht H1 Ho t' p Hp. destruct (decide (t' = t)) as [->|Hne].
  - by simplify_eq.
  - rewrite Ho in Hp by done. apply fmap_Some in Hp as (p0 & Hp0 & ->).
    specialize (Hm _ _ Hne Hp0). destruct b; [by apply Hw|done].
Qed.

Lemma covered_spec n l : covered n l = true <-> forall w, w ∈ l -> n < w.2.
Proof.
  unfold covered. rewrite forallb_forall. setoid_rewrite bool_decide_eq_true.
  split; intros H w Hw; apply H; by apply list_elem_of_In.
Qed.

(** Writes come in increasing order, so what is on disk stays there. *)
Lemma covered_append n f m l : covered n l = true -> n < m -> covered n ((f, m) :: l) = true.
Proof. rewrite !covered_spec. intros H Hn w [->|Hw]%elem_of_cons; auto. Qed.

Lemma covered_fsync n f l : covered n l = true -> covered n (fsync f l) = true.
Proof. rewrite !covered_spec. intros H w [_ Hw]%list_elem_of_filter. auto. Qed.

Lemma covered_le n m l : n <= m -> covered m l = true -> covered n l = true.
Proof. rewrite !covered_spec. intros Hn H w Hw. specialize (H w Hw). lia. Qed.

(** An fsync of the one file that has unsynced writes leaves none. *)
Lemma fsync_all f l : Forall (fun w => w.1 = f) l -> fsync f l = [].
Proof.
  intros H. unfold fsync. induction H as [|w l Hw _ IH]; [done|].
  rewrite filter_cons_False; [done|]. by intros [].
Qed.

Lemma advance_lsn t c p s s1 p1 : advance t c p s = Some (s1, p1) -> pc_lsn p1 = pc_lsn p.
Proof. destruct p; simpl; unfold lock; intros; split_cases; done. Qed.

Lemma advance_file t c p s s1 p1 : advance t c p s = Some (s1, p1) -> gc_file s1 = gc_file s.
Proof. destruct p; simpl; unfold lock; intros; split_cases; done. Qed.

Lemma advance_appended t c p s s1 p1 :
  advance t c p s = Some (s1, p1) ->
  appended_seq s <= appended_seq s1 <= Z.max (appended_seq s) (pc_lsn p).
Proof. destruct p; simpl; unfold lock; intros; split_cases; simpl; lia. Qed.

(** ** What every interleaving keeps *)

(** What a leader has loaded was the value of [appended_seq]. *)
Definition loaded (appended : Z) (p : gc_pc) : Prop :=
  match p with PStore _ _ v => v <= appended | _ => True end.

Record gbase (s : gc_sys) : Prop := {
  gb_files : Forall (fun w => w.1 = gcs_wfile s) (gcs_unsynced s);
  gb_lsn : forall t p, gcs_calls s !! t = Some p -> pc_lsn p <= gcs_written s;
  gb_appended : appended_seq (gcs_state s) <= gcs_written s;
  gb_durable : durable_seq (gcs_state s) <= appended_seq (gcs_state s);
  gb_loaded : forall t p, gcs_calls s !! t = Some p -> loaded (appended_seq (gcs_state s)) p;
}.

Lemma loaded_mono a b p : a <= b -> loaded a p -> loaded b p.
Proof. destruct p; simpl; lia. Qed.

Lemma loaded_wake a p : loaded a p -> loaded a (wake_call p).
Proof. by destruct p. Qed.

Lemma advance_loaded t c p s s1 p1 :
  advance t c p s = Some (s1, p1) -> durable_seq s <= appended_seq s -> loaded (appended_seq s) p ->
  durable_seq s1 <= appended_seq s1 /\ loaded (appended_seq s1) p1.
Proof.
  destruct p; simpl; unfold lock; intros; split_cases; simpl; split; try done; lia.
Qed.

Lemma disk_effect_sub c p s l w : w ∈ disk_effect c p s l -> w ∈ l.
Proof.
  destruct p; simpl; try done. case_match; [|done]. by intros [_ ?]%list_elem_of_filter.
Qed.

Lemma gbase_call t c s s' : call_step t c s = Some s' -> gbase s -> gbase s'.
Proof.
  intros (p & s1 & p1 & Hp & Ha & Hs & Hf & Hw & Hu & Ht & Ho)%call_step_cases [HF HL HA HD HV].
  subst s1. pose proof (advance_appended _ _ _ _ _ _ Ha) as Hb.
  destruct (advance_loaded _ _ _ _ _ _ Ha HD (HV _ _ Hp)) as [HD1 HV1].
  split; [| | |done|].
  - rewrite Hu, Hf. rewrite Forall_forall in HF |- *. eauto using disk_effect_sub.
  - rewrite Hw. eapply (call_step_forall (fun _ p => pc_lsn p <= gcs_written s)); eauto.
    + intros t' q. by rewrite pc_lsn_wake.
    + simpl. rewrite (advance_lsn _ _ _ _ _ _ Ha). eauto.
  - specialize (HL _ _ Hp). lia.
  - eapply (call_step_forall (fun _ => loaded _)); eauto using loaded_wake.
    intros t' q _ Hq. eapply loaded_mono; [|eauto]. lia.
Qed.

Lemma gbase_step e s s' : gstep e s = Some s' -> gbase s -> gbase s'.
Proof.
  intros He Hb. pose proof Hb as [HF HL HA HD HV]. destruct e; simpl in He; split_cases; try done.
  - split; simpl; [by constructor| |lia|done|done]. intros t p Hp. specialize (HL t p Hp). lia.
  - unfold rotate. destruct synced; [|done].
    split; simpl; [|done|by destruct cloned|by destruct cloned|by destruct cloned].
    rewrite fsync_all by done. constructor.
  - split; simpl; [done|done|lia|lia|]. intros t p Hp. eapply loaded_mono; [|eauto]. lia.
  - split; simpl; [done| |done|done|];
      intros t' p [[<- <-]|[_ Hp]]%lookup_insert_Some; simpl; eauto; lia.
  - eauto using gbase_call.
Qed.

Lemma gbase_reach ok start s : greach ok start s -> gbase s.
Proof.
  induction 1; [|by eapply gbase_step]. split; simpl; [constructor|done|lia|lia|done].
Qed.

(** ** Leaders *)

(** The call has synced the file, with success. *)
Definition led (p : gc_pc) : bool :=
  match p with
  | PLoad _ r | PStore _ r _ | PClear _ r | PNotify _ r | PLed _ r => r
  | _ => false
  end.

(** Every rotation that happens hands its file to the coordinator. *)
Definition clones (s : gc_sys) (e : gc_event) : Prop :=
  match e with ERotate true cloned => cloned = true | _ => True end.

Lemma led_wake p : led (wake_call p) = led p.
Proof. by destruct p. Qed.

Lemma advance_led t c p s s1 p1 :
  advance t c p s = Some (s1, p1) -> led p1 = true ->
  led p = true \/ exists n, p = PSync n /\ sync_ok c = true.
Proof. destruct p; simpl; unfold lock; intros; split_cases; eauto. Qed.

Record leader_inv (s : gc_sys) : Prop := {
  li_file : gc_file (gcs_state s) = gcs_wfile s;
  li_led : forall t p, gcs_calls s !! t = Some p -> led p = true ->
    covered (pc_lsn p) (gcs_unsynced s) = true;
}.

Lemma covered_disk_effect n c p s l : covered n l = true -> covered n (disk_effect c p s l) = true.
Proof. rewrite !covered_spec. eauto using disk_effect_sub. Qed.

Lemma leader_inv_call t c s s' :
  call_step t c s = Some s' -> gbase s -> leader_inv s -> leader_inv s'.
Proof.
  intros (p & s1 & p1 & Hp & Ha & Hs & Hf & Hw & Hu & Ht & Ho)%call_step_cases [HF _ _ _ _] [HI HC].
  split.
  - subst s1. by rewrite (advance_file _ _ _ _ _ _ Ha), Hf.
  - rewrite Hu.
    eapply (call_step_forall (fun _ q => led q = true -> covered (pc_lsn q) _ = true)); eauto.
    + intros t' q. by rewrite pc_lsn_wake, led_wake.
    + intros t' q _ Hq Hl. eauto using covered_disk_effect.
    + simpl. intros Hl. destruct (advance_led _ _ _ _ _ _ Ha Hl) as [Hl'|(n & -> & Hok)].
      * rewrite (advance_lsn _ _ _ _ _ _ Ha). eauto using covered_disk_effect.
      * simpl. by rewrite Hok, HI, fsync_all.
Qed.

Lemma leader_inv_step e s s' :
  clones s e -> gstep e s = Some s' -> gbase s -> leader_inv s -> leader_inv s'.
Proof.
  intros Hc He Hb Hl. pose proof Hl as [HI HC]. pose proof Hb as [HF HL _ _ _].
  destruct e; simpl in He; split_cases; try done.
  - split; simpl; [done|]. intros t p Hp Hq. apply covered_append; [eauto|].
    specialize (HL t p Hp). lia.
  - unfold rotate. destruct synced; [|done]. simpl in Hc. subst cloned.
    split; simpl; [done|]. eauto using covered_fsync.
  - split; simpl; [done|]. intros t' p [[<- <-]|[_ Hp]]%lookup_insert_Some; [done|eauto].
  - eauto using leader_inv_call.
Qed.

Lemma leader_inv_reach start s : greach clones start s -> leader_inv s.
Proof.
  induction 1; [|by eapply leader_inv_step; eauto using gbase_reach].
  split; simpl; [done|]. intros t p [=].
Qed.

(** [C8] A leader is never wrong: in every interleaving of any number of calls
    with appends, recordings, rotations that hand over their file, failed
    fsyncs and timeouts, from the moment [append_and_wait_timeout] returns
    success to a call that led, every byte up to the LSN it waited for is on
    disk, and stays there. *)
Theorem leader_durable start s t n :
  greach clones start s -> gcs_calls s !! t = Some (PLed n true) ->
  covered n (gcs_unsynced s) = true.
Proof. intros Hr Ht. by apply (li_led s (leader_inv_reach _ _ Hr) t _ Ht). Qed.


(** ** Followers *)

(** The conditions under which a follower may trust [durable_seq]: fsyncs
    succeed, nobody times out, rotations hand over their file, and no append is
    recorded between a leader's fsync and its load of [appended_seq]. *)
Definition quiet (s : gc_sys) (e : gc_event) : Prop :=
  match e with
  | ERotate true cloned => cloned = true
  | ERecord _ => forall t n r, gcs_calls s !! t <> Some (PLoad n r)
  | EStep _ c => sync_ok c = true /\ expired c = false
  | _ => True
  end.

Definition leading (p : gc_pc) : bool :=
  match p with
  | PMax _ | PUnlock _ | PSync _ | PLoad _ _ | PStore _ _ _ | PClear _ _ => true
  | _ => false
  end.

(** What holds at a program point of a quiet run. *)
Definition quiet_pc (s : GroupCommitState) (l : list (nat * Z)) (p : gc_pc) : Prop :=
  (leading p = true -> sync_in_progress s = true) /\
  match p with
  | PClaim _ => sync_in_progress s = false
  | PLoad _ r => r = true /\ covered (appended_seq s) l = true
  | PStore _ r v => r = true /\ covered v l = true
  | PClear _ r | PNotify _ r | PLed _ r => r = true
  | PFollowed n => covered n l = true
  | PExpired _ | PTimeout _ | PTimeoutNotify _ | PTimedOut _ => False
  | _ => True
  end.

Definition one_leader (m : gmap nat gc_pc) : Prop :=
  forall t1 t2 p1 p2, m !! t1 = Some p1 -> m !! t2 = Some p2 ->
    leading p1 = true -> leading p2 = true -> t1 = t2.

Record quiet_inv (s : gc_sys) : Prop := {
  qi_mutex : forall t p, gcs_calls s !! t = Some p -> holds p = true ->
    commit_mutex (gcs_state s) = Some t;
  qi_one : one_leader (gcs_calls s);
  qi_pc : forall t p, gcs_calls s !! t = Some p ->
    quiet_pc (gcs_state s) (gcs_unsynced s) p;
  qi_durable : covered (durable_seq (gcs_state s)) (gcs_unsynced s) = true;
}.

Lemma leading_wake p : leading (wake_call p) = leading p.
Proof. by destruct p. Qed.

Lemma quiet_pc_wake s l p : quiet_pc s l p -> quiet_pc s l (wake_call p).
Proof. by destruct p. Qed.

(** The step of the call itself: its own point, the mutex, and [durable_seq]. *)
Lemma quiet_advance t c p s l s1 p1 :
  advance t c p s = Some (s1, p1) -> expired c = false -> sync_ok c = true ->
  (holds p = true -> commit_mutex s = Some t) ->
  quiet_pc s l p -> covered (durable_seq s) l = true -> fsync (gc_file s) l = [] ->
  quiet_pc s1 (disk_effect c p s l) p1 /\
  covered (durable_seq s1) (disk_effect c p s l) = true /\
  (holds p1 = true -> commit_mutex s1 = Some t) /\
  (leading p1 = true -> leading p = true \/ sync_in_progress s = false).
Proof.
  intros Ha He Hk Hm [Hf Hp] Hd Hs.
  destruct p; simpl in *; unfold lock in *; rewrite ?He, ?Hk, ?Hs in *; split_cases;
    unfold quiet_pc; simpl in *; destruct_and?; split_and?; auto; try done;
    try (by eapply covered_le; [|exact Hd]; lia).
Qed.

(** What a step may change of the shared fields. *)
Lemma advance_shared t c p s s1 p1 l :
  advance t c p s = Some (s1, p1) -> quiet_pc s l p ->
  (commit_mutex s1 = commit_mutex s \/ commit_mutex s = None \/ holds p = true) /\
  (sync_in_progress s1 = sync_in_progress s \/ holds p = true /\ leading p = false \/
     leading p = true) /\
  (sync_in_progress s = true -> leading p = false -> sync_in_progress s1 = true) /\
  (appended_seq s1 = appended_seq s \/ leading p = true).
Proof.
  intros Ha [Hf Hp]. destruct p; simpl in *; unfold lock in *; split_cases; try done; split_and!; auto; try congruence.
Qed.

(** The step as the other calls see it: the mutex they hold, the flag and the
    sequence their points depend on do not change. *)
Lemma quiet_other t t' c p q s l s1 p1 :
  advance t c p s = Some (s1, p1) -> t' <> t ->
  (holds p = true -> commit_mutex s = Some t) -> (holds q = true -> commit_mutex s = Some t') ->
  (leading p = true -> leading q = true -> False) ->
  quiet_pc s l p -> quiet_pc s l q ->
  quiet_pc s1 (disk_effect c p s l) q /\ (holds q = true -> commit_mutex s1 = Some t').
Proof.
  intros Ha Hne Hm Hm' Hno Hp [Hf Hq].
  destruct (advance_shared _ _ _ _ _ _ _ Ha Hp) as (H1 & H2 & H3 & H4).
  assert (holds q = true -> holds p = false) as Hx.
  { intros Hq'. specialize (Hm' Hq'). destruct (holds p); [|done]. specialize (Hm eq_refl). congruence. }
  split.
  - split.
    + intros Hl. apply H3; [auto|]. destruct (leading p); [|done]. by destruct Hno.
    + destruct q; simpl in *; auto using covered_disk_effect.
      * rewrite Hx in H2 by done. destruct H2 as [H2|[[? _]|H2]]; [congruence|congruence|].
        destruct Hp as [Hp _]. specialize (Hp H2). congruence.
      * split; [apply Hq|]. destruct H4 as [->|H4]; [by apply covered_disk_effect, Hq|]. by destruct Hno.
      * split; [apply Hq|]. by apply covered_disk_effect, Hq.
  - intros Hq'. specialize (Hm' Hq'). rewrite (Hx Hq') in H1. destruct H1 as [->|[?|?]]; congruence.
Qed.


Lemma one_leader_kept t p1 b (m m' : gmap nat gc_pc) :
  one_leader m -> m' !! t = Some p1 ->
  (forall t', t' <> t -> m' !! t' = (if b : bool then wake_call else id) <$> m !! t') ->
  (leading p1 = true -> forall t' q, t' <> t -> m !! t' = Some q -> leading q = true -> False) ->
  one_leader m'.
Proof.
  intros H1 Ht Ho Hx t1 t2 q1 q2 Hq1 Hq2 L1 L2.
  assert (forall t', t' <> t -> forall q, m' !! t' = Some q -> leading q = true ->
    exists q0, m !! t' = Some q0 /\ leading q0 = true) as Hy.
  { intros t' Hne q Hq Hl. rewrite Ho in Hq by done. apply fmap_Some in Hq as (q0 & Hq0 & ->).
    exists q0. split; [done|]. destruct b; [by rewrite leading_wake in Hl|done]. }
  destruct (decide (t1 = t)) as [->|N1], (decide (t2 = t)) as [->|N2]; [done| | |].
  - destruct (Hy t2 N2 q2 Hq2 L2) as (? & ? & ?). simplify_eq. by edestruct Hx.
  - destruct (Hy t1 N1 q1 Hq1 L1) as (? & ? & ?). simplify_eq. by edestruct Hx.
  - destruct (Hy t1 N1 q1 Hq1 L1) as (? & ? & ?), (Hy t2 N2 q2 Hq2 L2) as (? & ? & ?). eauto.
Qed.

Lemma quiet_inv_call t c s s' :
  sync_ok c = true -> expired c = false -> call_step t c s = Some s' ->
  gbase s -> leader_inv s -> quiet_inv s -> quiet_inv s'.
Proof.
  intros Hk He (p & s1 & p1 & Hp & Ha & Hs & Hf & Hw & Hu & Ht & Ho)%call_step_cases
    [HF _ _ _ _] [HI _] [HM H1 HP HD]. subst s1.
  assert (fsync (gc_file (gcs_state s)) (gcs_unsynced s) = []) as Hn.
  { rewrite HI. by apply fsync_all. }
  destruct (quiet_advance _ _ _ _ _ _ _ Ha He Hk (HM _ _ Hp) (HP _ _ Hp) HD Hn)
    as (Q1 & Q2 & Q3 & Q4).
  assert (forall t' q, t' <> t -> gcs_calls s !! t' = Some q ->
    quiet_pc (gcs_state s') (gcs_unsynced s') q /\
    (holds q = true -> commit_mutex (gcs_state s') = Some t')) as HO.
  { intros t' q Hne Hq. rewrite Hu. eapply quiet_other; eauto. }
  split.
  - eapply (call_step_forall (fun t' q => holds q = true -> commit_mutex _ = Some t')); eauto.
    + intros t' q. by rewrite holds_wake.
    + intros t' q Hne Hq. apply (HO t' q Hne Hq).
  - eapply one_leader_kept; eauto. intros Hl t' q Hne Hq Hlq.
    destruct (Q4 Hl) as [Hlp|Hno]; [by destruct Hne; eapply H1|].
    destruct (HP _ _ Hq) as [Hy _]. specialize (Hy Hlq). congruence.
  - eapply (call_step_forall (fun _ q => quiet_pc _ _ q)); eauto.
    + intros t' q. apply quiet_pc_wake.
    + intros t' q Hne Hq. apply (HO t' q Hne Hq).
    + simpl. by rewrite Hu.
  - by rewrite Hu.
Qed.

(** Events of the writer leave the shared state as it is, or raise
    [appended_seq] when no leader is about to load it. *)
Lemma quiet_inv_writer s s' :
  quiet_inv s -> gcs_calls s' = gcs_calls s ->
  sync_in_progress (gcs_state s') = sync_in_progress (gcs_state s) ->
  commit_mutex (gcs_state s') = commit_mutex (gcs_state s) ->
  durable_seq (gcs_state s') = durable_seq (gcs_state s) ->
  (forall t p, gcs_calls s !! t = Some p -> quiet_pc (gcs_state s) (gcs_unsynced s) p ->
    quiet_pc (gcs_state s') (gcs_unsynced s') p) ->
  covered (durable_seq (gcs_state s)) (gcs_unsynced s') = true -> quiet_inv s'.
Proof.
  intros [HM H1 HP HD] Hc Hf Hm Hd Hp Hv. split; rewrite ?Hc, ?Hm, ?Hd; eauto.
Qed.

(** More writes than those a point speaks of do not matter. *)
Lemma quiet_pc_append s f m l p :
  loaded (appended_seq s) p -> appended_seq s < m -> pc_lsn p < m ->
  quiet_pc s l p -> quiet_pc s ((f, m) :: l) p.
Proof.
  intros Hv Ha Hm [Hf Hp]. split; [done|].
  destruct p; simpl in *; destruct_and?; split_and?; auto; apply covered_append; auto; lia.
Qed.

Lemma quiet_pc_fsync s f l p : quiet_pc s l p -> quiet_pc s (fsync f l) p.
Proof. intros [Hf Hp]. split; [done|]. destruct p; simpl in *; naive_solver auto using covered_fsync. Qed.

Lemma quiet_clones s e : quiet s e -> clones s e.
Proof. by destruct e. Qed.

Lemma quiet_inv_step e s s' :
  quiet s e -> gstep e s = Some s' -> gbase s -> leader_inv s -> quiet_inv s -> quiet_inv s'.
Proof.
  intros Hq He Hb Hl Hi. pose proof Hi as [HM H1 HP HD]. pose proof Hb as [HF HL HA Hd HV].
  destruct e; simpl in He; split_cases.
  - apply (quiet_inv_writer s); simpl; try done.
    + intros t p Hp. apply quiet_pc_append; [eauto|lia|]. specialize (HL _ _ Hp). lia.
    + apply covered_append; [done|lia].
  - unfold rotate. destruct synced; [|done].
    apply (quiet_inv_writer s); simpl; try done; try (by destruct cloned).
    + intros t p _ Hp. apply quiet_pc_fsync. by destruct cloned.
    + by apply covered_fsync.
  - apply (quiet_inv_writer s); simpl; try done.
    intros t p Hp [Hf Hx]. split; [done|]. destruct p; simpl in *; auto. by destruct (Hq t n0 r).
  - destruct_and!. split; simpl; [| | |done].
    + intros t' p [[<- <-]|[_ Hp]]%lookup_insert_Some; [done|eauto].
    + intros t1 t2 p1 p2 [[<- <-]|[_ Hp1]]%lookup_insert_Some
        [[<- <-]|[_ Hp2]]%lookup_insert_Some; try done; eauto.
    + intros t' p [[<- <-]|[_ Hp]]%lookup_insert_Some; [by split|eauto].
  - destruct Hq. eauto using quiet_inv_call.
Qed.

Lemma quiet_reach_clones start s : greach quiet start s -> greach clones start s.
Proof.
  induction 1; [constructor|]. eapply gr_step; eauto using quiet_clones.
Qed.

Lemma quiet_inv_reach start s : greach quiet start s -> quiet_inv s.
Proof.
  induction 1 as [|s e s' Hr IH Hq He].
  - split; simpl; try done.
  - eapply quiet_inv_step; eauto using gbase_reach, leader_inv_reach, quiet_reach_clones.
Qed.

(** Under the conditions [quiet] names, one fsync does cover the whole
    group: [durable_seq] never passes what is on disk, at most one call leads at
    a time, no call fails, and each call that has returned, whether it led or
    followed, has every byte up to its LSN on disk. *)
Theorem group_durable start s :
  greach quiet start s ->
  covered (durable_seq (gcs_state s)) (gcs_unsynced s) = true /\
  one_leader (gcs_calls s) /\
  forall t p, gcs_calls s !! t = Some p ->
    match p with
    | PFollowed n => covered n (gcs_unsynced s) = true
    | PLed n r => r = true /\ covered n (gcs_unsynced s) = true
    | PTimedOut _ => False
    | _ => True
    end.
Proof.
  intros Hr. destruct (quiet_inv_reach _ _ Hr) as [_ H1 HP HD].
  split; [done|]. split; [done|]. intros t p Hp. pose proof (HP _ _ Hp) as [_ Hx].
  destruct p; simpl in Hx; try done. subst r. split; [done|].
  exact (li_led s (leader_inv_reach _ _ (quiet_reach_clones _ _ Hr)) t _ Hp eq_refl).
Qed.

(** ** Termination *)

(** Steps a call may still take, when [k] pays for the calls it will wake. *)
Definition weight (k : nat) (p : gc_pc) : nat :=
  match p with
  | PFollowed _ | PLed _ _ | PTimedOut _ => 0
  | PNotify _ _ | PTimeoutNotify _ => k + 1
  | PClear _ _ | PTimeout _ => k + 2
  | PStore _ _ _ | PExpired _ => k + 3
  | PLoad _ _ | PWait _ => k + 4
  | PSync _ | PDeadline _ => k + 5
  | PUnlock _ => k + 6
  | PMax _ => k + 7
  | PClaim _ => k + 8
  | PFlag _ => k + 9
  | PCheck _ => k + 10
  | PLock _ | PWoken _ => k + 11
  | PFast _ => k + 12
  end.

Definition total (f : gc_pc -> nat) (m : gmap nat gc_pc) : nat :=
  map_fold (fun _ p a => f p + a)%nat 0%nat m.

(** Waking a call costs seven steps. *)
Definition gmeasure (s : gc_sys) : nat :=
  total (weight (7 * size (gcs_calls s))) (gcs_calls s).

Definition is_step (e : gc_event) : bool := match e with EStep _ _ => true | _ => false end.

Definition is_call (e : gc_event) : bool := match e with ECall _ _ => true | _ => false end.

Definition returned (p : gc_pc) : bool :=
  match p with PFollowed _ | PLed _ _ | PTimedOut _ => true | _ => false end.

Lemma total_insert_fresh f t p m : m !! t = None -> total f (<[t:=p]> m) = (f p + total f m)%nat.
Proof. intros H. unfold total. rewrite map_fold_insert_L; [done|intros; lia|done]. Qed.

Lemma total_insert f t p p1 m :
  m !! t = Some p -> (total f (<[t:=p1]> m) + f p = total f m + f p1)%nat.
Proof.
  intros H. rewrite <-(insert_id m t p H) at 2. rewrite <-!(insert_delete_eq m).
  rewrite !total_insert_fresh by apply lookup_delete_eq. lia.
Qed.

Lemma total_bound f b m : (forall p, f p <= b)%nat -> (total f m <= size m * b)%nat.
Proof.
  intros Hf. induction m as [|t p m Hm IH] using map_ind; [done|].
  rewrite total_insert_fresh, map_size_insert_None by done. specialize (Hf p). lia.
Qed.

Lemma weight_wake k p : (weight k (wake_call p) <= weight k p + 7)%nat.
Proof. destruct p; simpl; lia. Qed.

Lemma total_notify k m : (total (weight k) (notify_all m) <= total (weight k) m + 7 * size m)%nat.
Proof.
  induction m as [|t p m Hm IH] using map_ind; [unfold notify_all; by rewrite fmap_empty|].
  unfold notify_all in *. rewrite fmap_insert, !total_insert_fresh, map_size_insert_None
    by (rewrite ?lookup_fmap, ?Hm; done).
  pose proof (weight_wake k p). lia.
Qed.

Lemma advance_weight t c p s s1 p1 k :
  advance t c p s = Some (s1, p1) ->
  (weight k p1 + 1 + (if notifies p then k else 0) <= weight k p)%nat.
Proof. destruct p; simpl; unfold lock; intros; split_cases; simpl; lia. Qed.

Lemma gmeasure_step t c s s' : call_step t c s = Some s' -> (gmeasure s' < gmeasure s)%nat.
Proof.
  unfold call_step. destruct (gcs_calls s !! t) as [p|] eqn:Hp; [|done].
  destruct (advance t c p (gcs_state s)) as [[s1 p1]|] eqn:Ha; [|done]. intros [= <-].
  unfold gmeasure. cbn [gcs_calls]. set (k := (7 * size (gcs_calls s))%nat).
  pose proof (advance_weight _ _ _ _ _ _ k Ha) as Hw. destruct (notifies p) eqn:Hn.
  - assert (notify_all (gcs_calls s) !! t = Some p) as Hq.
    { unfold notify_all. rewrite lookup_fmap, Hp. simpl. f_equal. by destruct p. }
    assert (size (<[t:=p1]> (notify_all (gcs_calls s))) = size (gcs_calls s)) as ->.
    { rewrite map_size_insert_Some by (rewrite Hq; done). apply map_size_fmap. }
    fold k.
    pose proof (total_insert (weight k) t p p1 _ Hq). pose proof (total_notify k (gcs_calls s)).
    subst k. lia.
  - rewrite map_size_insert_Some by (rewrite Hp; done). fold k.
    pose proof (total_insert (weight k) t p p1 _ Hp). lia.
Qed.

Lemma gmeasure_writer e s s' :
  gstep e s = Some s' -> is_step e = false -> is_call e = false -> gcs_calls s' = gcs_calls s.
Proof.
  destruct e; simpl; intros; split_cases; try done. unfold rotate. by destruct synced.
Qed.

Lemma grun_bound es s s' :
  grun es s = Some s' -> Forall (fun e => is_call e = false) es ->
  (length (filter is_step es) + gmeasure s' <= gmeasure s)%nat.
Proof.
  revert s. induction es as [|e es IH]; simpl; intros s Hr Hf; [simplify_eq; lia|].
  inversion Hf as [|?? He Hes]; subst. destruct (gstep e s) as [s1|] eqn:Hs; [|done].
  specialize (IH s1 Hr Hes). destruct (is_step e) eqn:Hi.
  - rewrite filter_cons_True by (rewrite Hi; done). destruct e; try done.
    simpl in Hs. apply gmeasure_step in Hs. simpl. lia.
  - rewrite filter_cons_False by (rewrite Hi; by intros []).
    assert (gmeasure s1 = gmeasure s) by (unfold gmeasure; by erewrite gmeasure_writer). lia.
Qed.


(** ** Progress *)

Definition holder (m : gmap nat gc_pc) (t : nat) : bool :=
  match m !! t with Some p => holds p | None => false end.

Definition mutex_inv (s : gc_sys) : Prop :=
  forall t, commit_mutex (gcs_state s) = Some t <-> holder (gcs_calls s) t = true.

Lemma advance_mutex t c p s s1 p1 :
  advance t c p s = Some (s1, p1) -> (commit_mutex s = Some t <-> holds p = true) ->
  (commit_mutex s1 = Some t <-> holds p1 = true) /\
  forall t', t' <> t -> (commit_mutex s1 = Some t' <-> commit_mutex s = Some t').
Proof.
  destruct p; simpl; unfold lock; intros; split_cases; simpl; naive_solver congruence.
Qed.

Lemma mutex_inv_call t c s s' : call_step t c s = Some s' -> mutex_inv s -> mutex_inv s'.
Proof.
  intros (p & s1 & p1 & Hp & Ha & Hs & _ & _ & _ & Ht & Ho)%call_step_cases Hi t'. subst s1.
  pose proof (Hi t) as Hit. unfold holder in Hit. rewrite Hp in Hit.
  destruct (advance_mutex _ _ _ _ _ _ Ha Hit) as [H1 H2]. unfold holder.
  destruct (decide (t' = t)) as [->|Hne]; [by rewrite Ht|].
  rewrite H2, (Hi t'), Ho by done. unfold holder.
  destruct (gcs_calls s !! t'), (notifies p); simpl; rewrite ?holds_wake; done.
Qed.

Lemma mutex_inv_step e s s' : gstep e s = Some s' -> mutex_inv s -> mutex_inv s'.
Proof.
  intros He Hi. destruct e; simpl in He; split_cases; try exact Hi.
  - unfold rotate. destruct synced; [|done]. destruct cloned; exact Hi.
  - intros t'. simpl. rewrite (Hi t'). unfold holder. destruct_and!.
    destruct (decide (t' = t)) as [->|Hne].
    + rewrite lookup_insert_eq. simpl. by case_match.
    + by rewrite lookup_insert_ne.
  - eauto using mutex_inv_call.
Qed.

Lemma mutex_inv_reach ok start s : greach ok start s -> mutex_inv s.
Proof. induction 1; [done|eauto using mutex_inv_step]. Qed.

(** A deadline that has passed frees every call but one that waits for the
    mutex, and the call that has the mutex can move. *)
Definition late : gc_choice := mkChoice true true.

Lemma advance_progress t p s :
  returned p = false -> (holds p = true \/ commit_mutex s = None) -> is_Some (advance t late p s).
Proof.
  intros Hr Hm. destruct p; simpl in *; unfold lock; try done; try (by case_match; eauto);
    try eauto; destruct Hm as [?| ->]; by eauto.
Qed.

Lemma call_step_some t c p s :
  gcs_calls s !! t = Some p -> is_Some (advance t c p (gcs_state s)) -> is_Some (call_step t c s).
Proof. intros Hp [[s1 p1] Ha]. unfold call_step. rewrite Hp, Ha. eauto. Qed.

Lemma gprogress s t p :
  mutex_inv s -> gcs_calls s !! t = Some p -> returned p = false ->
  exists t', is_Some (call_step t' late s).
Proof.
  intros Hi Hp Hr. destruct (commit_mutex (gcs_state s)) as [h|] eqn:Hm.
  - exists h. pose proof (proj1 (Hi h) Hm) as Hh. unfold holder in Hh.
    destruct (gcs_calls s !! h) as [q|] eqn:Hq; [|done].
    eapply call_step_some; [exact Hq|]. apply advance_progress; [by destruct q|auto].
  - exists t. eapply call_step_some; [exact Hp|]. apply advance_progress; auto.
Qed.

(** [C33] Every call of [append_and_wait_timeout] returns: whatever the
    schedule and the fsyncs, from a reachable state the calls in flight
    take at most a fixed number of steps together, quadratic in their number,
    and as long as one of them has not returned, one of them can take a
    step (at the latest when its deadline passes). *)
Theorem group_calls_return ok start s :
  greach ok start s ->
  (forall es s', grun es s = Some s' -> Forall (fun e => is_call e = false) es ->
    (length (filter is_step es) <= gmeasure s <=
      size (gcs_calls s) * (7 * size (gcs_calls s) + 12))%nat) /\
  ((forall t c, call_step t c s = None) ->
    forall t p, gcs_calls s !! t = Some p -> returned p = true).
Proof.
  intros Hr. split.
  - intros es s' Hg Hc. pose proof (grun_bound _ _ _ Hg Hc). split; [lia|].
    apply total_bound. intros p. destruct p; simpl; lia.
  - intros Hn t p Hp. destruct (returned p) eqn:E; [done|].
    destruct (gprogress s t p (mutex_inv_reach _ _ _ Hr) Hp E) as [t' [s' Hs]].
    by rewrite Hn in Hs.
Qed.


End Group.

(** ** Concrete schedules *)

Module GroupExample.
Import Group.

Definition now : gc_choice := mkChoice true false.

Definition steps (t k : nat) (c : gc_choice) : list gc_event := repeat (EStep t c) k.

(** Along [es], every event is allowed where it occurs. *)
Fixpoint allowed (ok : gc_sys -> gc_event -> Prop) (es : list gc_event) (s : gc_sys) : Prop :=
  match es with
  | [] => True
  | e :: rest => ok s e /\ match gstep e s with Some s1 => allowed ok rest s1 | None => True end
  end.

Lemma grun_reach ok start es s s' :
  greach ok start s -> allowed ok es s -> grun es s = Some s' -> greach ok start s'.
Proof.
  revert s. induction es as [|e es IH]; simpl; intros s Hr Ha Hg; [by simplify_eq|].
  destruct (gstep e s) as [s1|] eqn:He; [|done]. destruct Ha as [Ho Ha].
  eapply IH; [|exact Ha|exact Hg]. by eapply gr_step.
Qed.

(** The state a schedule ends in. *)
Definition after (es : list gc_event) : gc_sys := default (group_init 0) (grun es (group_init 0)).

Definition events_ok (es : list gc_event) : bool :=
  forallb (fun e => match e with
    | EStep _ c => sync_ok c && negb (expired c)
    | ERotate _ _ => false
    | _ => true end) es.

(** Call 1 waits for 20 and leads; call 2 waits for 10 and is woken. *)
Definition ex_group : list gc_event :=
  [EAppend 10; EAppend 20; ECall 1 20; ECall 2 10] ++ steps 1 7 now ++ steps 2 5 now ++
  steps 1 5 now ++ steps 2 2 now.

Lemma ex_group_reach : greach quiet 0 (after ex_group).
Proof.
  apply (grun_reach quiet 0 ex_group (group_init 0)); [constructor| |by vm_compute].
  vm_compute. repeat split.
Qed.

Lemma group_durable_witness :
  gcs_calls (after ex_group) !! 1%nat = Some (PLed 20 true) /\
  gcs_calls (after ex_group) !! 2%nat = Some (PFollowed 10) /\
  covered (durable_seq (gcs_state (after ex_group))) (gcs_unsynced (after ex_group)) = true.
Proof.
  split; [by vm_compute|]. split; [by vm_compute|].
  apply (group_durable 0 (after ex_group)). exact ex_group_reach.
Defined.

Lemma leader_durable_witness : covered 20 (gcs_unsynced (after ex_group)) = true.
Proof.
  apply (leader_durable 0 (after ex_group) 1); [|by vm_compute].
  apply quiet_reach_clones. exact ex_group_reach.
Defined.

(** From the moment both calls are made, the rest of the schedule. *)
Definition ex_begun : gc_sys := after [EAppend 10; EAppend 20; ECall 1 20; ECall 2 10].

Definition ex_rest : list gc_event :=
  steps 1 7 now ++ steps 2 5 now ++ steps 1 5 now ++ steps 2 2 now.

Lemma ex_begun_reach : greach quiet 0 ex_begun.
Proof.
  apply (grun_reach quiet 0 [EAppend 10; EAppend 20; ECall 1 20; ECall 2 10] (group_init 0));
    [constructor| |by vm_compute].
  vm_compute. repeat split.
Qed.

Lemma group_calls_return_witness :
  length (filter is_step ex_rest) = 19%nat /\ (19 <= gmeasure ex_begun <= 2 * (7 * 2 + 12))%nat.
Proof.
  split; [by vm_compute|].
  destruct (group_calls_return quiet 0 ex_begun ex_begun_reach) as [H _].
  assert (E : grun ex_rest ex_begun = Some (after ex_group)) by by vm_compute.
  assert (F : Forall (fun e => is_call e = false) ex_rest) by by vm_compute; repeat constructor.
  specialize (H ex_rest (after ex_group) E F). vm_compute in H. vm_compute. exact H.
Defined.

(** Call 1 has synced when thread 2 appends and records 20. *)
Definition ex_window : list gc_event :=
  [EAppend 10; ECall 1 10] ++ steps 1 8 now ++ [EAppend 20; ERecord 20] ++ steps 1 4 now ++
  [ECall 2 20] ++ steps 2 1 now.

(** The fsync of call 1 fails. *)
Definition ex_failed : list gc_event :=
  [EAppend 10; ECall 1 10; ECall 2 10] ++ steps 1 7 now ++ steps 2 5 now ++
  steps 1 5 (mkChoice false false) ++ steps 2 2 now.

(** [append_and_wait_timeout] acknowledges bytes that are not on disk, in
    two ways.  The leader publishes the [appended_seq] it loads after its fsync,
    so an append recorded in between counts as durable although no fsync
    followed it.  And the leader publishes it also when its fsync has failed: it
    reports the error, but the calls it wakes return success. *)
Theorem unsynced_acknowledged :
  (events_ok ex_window = true /\
   gcs_calls (after ex_window) !! 2%nat = Some (PFollowed 20) /\
   covered 20 (gcs_unsynced (after ex_window)) = false) /\
  (gcs_calls (after ex_failed) !! 1%nat = Some (PLed 10 false) /\
   gcs_calls (after ex_failed) !! 2%nat = Some (PFollowed 10) /\
   covered 10 (gcs_unsynced (after ex_failed)) = false).
Proof. vm_compute. done. Qed.

(** Call 2 sees the flag; call 1 finishes before call 2 waits. *)
Definition ex_missed : list gc_event :=
  [EAppend 10; ECall 1 10; ECall 2 10] ++ steps 1 8 now ++ steps 2 4 now ++ steps 1 4 now ++
  steps 2 1 now.

(** Lost wake-up: the leader notifies without [commit_mutex], so the
    notification can fall between a follower's load of [sync_in_progress] and
    its wait.  The follower then sleeps although its bytes are durable and nobody
    leads; nothing but its deadline moves it, and it fails with
    [GroupCommitTimeout]. *)
Theorem follower_missed_wakeup :
  gcs_calls (after ex_missed) !! 2%nat = Some (PWait 10) /\
  durable_seq (gcs_state (after ex_missed)) = 10 /\
  covered 10 (gcs_unsynced (after ex_missed)) = true /\
  (forall t c, expired c = false -> call_step t c (after ex_missed) = None) /\
  gcs_calls (after (ex_missed ++ steps 2 4 late)) !! 2%nat = Some (PTimedOut 10).
Proof.
  split_and!; [by vm_compute|by vm_compute|by vm_compute| |by vm_compute].
  intros t c Hc. unfold call_step.
  assert (gcs_calls (after ex_missed) = {[1%nat := PLed 10 true; 2%nat := PWait 10]}) as ->
    by by vm_compute.
  destruct ({[1%nat := PLed 10 true; 2%nat := PWait 10]} !! t) as [p|] eqn:Hp; [|done].
  apply lookup_insert_Some in Hp as [[_ <-]|[_ Hp]]; [done|].
  apply lookup_singleton_Some in Hp as [_ <-]. simpl. by rewrite Hc.
Qed.

(** Call 1 has loaded 10 when call 2 gives up on it; call 3 leads next to it. *)
Definition ex_twice : list gc_event :=
  [EAppend 10; ECall 1 10] ++ steps 1 9 now ++ [EAppend 20; ECall 2 20] ++ steps 2 7 late ++
  [ECall 3 20] ++ steps 3 12 now.

(** A follower that times out clears [sync_in_progress] while the leader still
    works: a second call leads, and the first one then moves [durable_seq]
    back. *)
Theorem durable_seq_regresses :
  gcs_calls (after ex_twice) !! 2%nat = Some (PTimedOut 20) /\
  gcs_calls (after ex_twice) !! 3%nat = Some (PLed 20 true) /\
  durable_seq (gcs_state (after ex_twice)) = 20 /\
  durable_seq (gcs_state (after (ex_twice ++ steps 1 1 now))) = 10.
Proof. vm_compute. done. Qed.

End GroupExample.
