(* ===== verification/WalFacts.v ===== *)
(** * WAL round trip

    What the scanner makes of the bytes the writer produced: complete, cut off
    at any byte, or followed by the zeros of the preallocated file. *)

From stdpp Require Import base gmap list strings.
From Stdlib Require Import ZArith Lia.
From S2P Require Import Prelude Types WalTypes WalScan WalWriter.

Module WalFacts.
Import Scan Writer.

(** A record on disk: header, stored payload and decoded payload. *)
Abbreviation rec := (WalHeader * list Z * list Z)%type.

Definition rec_len (r : rec) : nat := (WAL_HEADER_SIZE + length r.1.2)%nat.

Definition rec_bytes (r : rec) : list Z := serialize_record r.1.1 r.1.2.

Definition recs_bytes (rs : list rec) : list Z := rs ≫= rec_bytes.

Arguments rec_bytes : simpl never.
Arguments recs_bytes : simpl never.

Lemma recs_bytes_cons r rs : recs_bytes (r :: rs) = rec_bytes r ++ recs_bytes rs.
Proof. done. Qed.

Lemma length_rec_bytes r : length (rec_bytes r) = rec_len r.
Proof.
  unfold rec_bytes, rec_len, serialize_record. by rewrite length_app, Header.length_as_bytes.
Qed.

Lemma rec_bytes_app h p d post :
  rec_bytes (h, p, d) ++ post = Header.as_bytes h ++ (p ++ post).
Proof. unfold rec_bytes, serialize_record. cbn [fst snd]. by rewrite <- app_assoc. Qed.

Lemma recs_bytes_app a b : recs_bytes (a ++ b) = recs_bytes a ++ recs_bytes b.
Proof. apply bind_app. Qed.

Section facts.
Context (crc32 : list Z -> Z).
Context (zstd_decode : list Z -> option (list Z)).

(** A record that continues the chain at [prev]. *)
Record rec_ok (prev : Lsn) (r : rec) : Prop := {
  ro_wf : Header.wf r.1.1;
  ro_length : h_length r.1.1 = Z.of_nat (length r.1.2);
  ro_max : h_length r.1.1 <= MAX_PAYLOAD_LENGTH;
  ro_nonneg : 0 <= prev;
  ro_prev : h_prev_lsn r.1.1 = prev;
  ro_lsn : h_lsn r.1.1 = prev + Z.of_nat (rec_len r);
  ro_op : is_ok (op_try_from (h_op_type r.1.1)) = true;
  ro_checksum : h_checksum r.1.1 = 0 \/
    h_checksum r.1.1 = crc32 (Header.checksum_input r.1.1 r.1.2);
  ro_decode : decode_record_payload zstd_decode r.1.1 r.1.2 = Ok r.2;
}.

Fixpoint chained (prev : Lsn) (rs : list rec) : Prop :=
  match rs with
  | [] => True
  | r :: rest => rec_ok prev r /\ chained (h_lsn r.1.1) rest
  end.

Fixpoint end_lsn (prev : Lsn) (rs : list rec) : Lsn :=
  match rs with
  | [] => prev
  | r :: rest => end_lsn (h_lsn r.1.1) rest
  end.

Lemma chained_app prev a b :
  chained prev (a ++ b) <-> chained prev a /\ chained (end_lsn prev a) b.
Proof. revert prev. induction a as [|r a IH]; intros prev; simpl; [tauto|]. rewrite IH. tauto. Qed.

Lemma end_lsn_app prev a b : end_lsn prev (a ++ b) = end_lsn (end_lsn prev a) b.
Proof. revert prev. induction a; intros prev; simpl; auto. Qed.

Lemma end_lsn_bytes prev rs :
  chained prev rs -> end_lsn prev rs = prev + Z.of_nat (length (recs_bytes rs)).
Proof.
  revert prev. induction rs as [|r rs IH]; intros prev; cbn [chained end_lsn]; [unfold recs_bytes; simpl; lia|].
  intros [Hr Hc].
  rewrite (IH _ Hc), recs_bytes_cons, length_app, length_rec_bytes, (ro_lsn _ _ Hr). lia.
Qed.

Section one_file.
Context (buffer : list Z) (fsl : Lsn) (mode : WalRecoveryMode) (verify : bool).

Abbreviation loop := (scan_loop crc32 zstd_decode buffer fsl mode verify).

(** One round over a record of the chain accepts it. *)
Lemma scan_round_record pre post r s :
  buffer = pre ++ rec_bytes r ++ post -> sc_offset s = length pre ->
  rec_ok (sc_expected_prev s) r ->
  exists rr, scan_round crc32 zstd_decode buffer fsl mode verify s =
    (Ok (Some (accept fsl r.1.1 r.2 (sc_offset s + rec_len r) s)), rr).
Proof.
  intros Hbuf Hoff [Hwf Hlen Hmax Hnn Hprev Hlsn Hop Hck Hdec].
  destruct r as [[h p] d]. unfold rec_len in *. cbn [fst snd] in *.
  unfold scan_round. rewrite Hoff.
  assert (Hslice : slice (length pre) WAL_HEADER_SIZE buffer = Header.as_bytes h).
  { subst buffer. rewrite rec_bytes_app, slice_skip, Nat.sub_diag by lia.
    by apply slice_head, Header.length_as_bytes. }
  rewrite Hslice, <- (app_nil_r (Header.as_bytes h)), header_roundtrip by done.
  assert (Hz : is_zero_padding h = false).
  { unfold is_zero_padding. rewrite !andb_false_iff, !bool_decide_eq_false. right.
    rewrite Hlsn. unfold WAL_HEADER_SIZE. lia. }
  rewrite Hz. unfold validate_lsn_chain, checked_add_u64.
  pose proof (Header.wf_lsn _ Hwf) as Hl64. unfold WAL_HEADER_SIZE in *.
  rewrite decide_True by (unfold U64_MAX; lia). rewrite decide_True by (unfold U64_MAX; lia).
  rewrite decide_False by lia.
  assert (Hv : Header.is_length_valid h (Z.of_nat (length buffer - length pre - 40)) = true).
  { unfold Header.is_length_valid. rewrite andb_true_iff, !bool_decide_eq_true. split; [done|].
    subst buffer. rewrite !length_app, length_rec_bytes. unfold rec_len, WAL_HEADER_SIZE. simpl.
    lia. }
  rewrite Hv. simpl. destruct (op_try_from (h_op_type h)) eqn:Eop; [|done].
  assert (Hpay : slice (length pre + 40) (Z.to_nat (h_length h)) buffer = p).
  { subst buffer. rewrite rec_bytes_app, slice_skip by lia.
    rewrite slice_skip by (rewrite Header.length_as_bytes; lia).
    rewrite Header.length_as_bytes.
    replace (length pre + 40 - length pre - 40)%nat with 0%nat by lia.
    apply slice_head. lia. }
  rewrite Hpay. assert (Hm : checksum_mismatch crc32 h p verify = None).
  { unfold checksum_mismatch. destruct (verify && _) eqn:Ev; [|done].
    apply andb_true_iff in Ev as [_ Hne%bool_decide_eq_true].
    destruct Hck as [?|Hck]; [done|]. by rewrite decide_False by (rewrite Hck; auto). }
  rewrite Hm, Hdec. exists (sc_result s). rewrite Hlen, Nat2Z.id. do 4 f_equal. lia.
Qed.

Fixpoint accept_all (rs : list rec) (s : scan_state) : scan_state :=
  match rs with
  | [] => s
  | r :: rest => accept_all rest (accept fsl r.1.1 r.2 (sc_offset s + rec_len r) s)
  end.

Lemma accept_prev h p next s : sc_expected_prev (accept fsl h p next s) = h_lsn h.
Proof. unfold accept. repeat case_match; done. Qed.

Lemma scan_loop_records rs fuel pre tail s :
  buffer = pre ++ recs_bytes rs ++ tail -> sc_offset s = length pre ->
  chained (sc_expected_prev s) rs ->
  loop (length rs + fuel) s = loop fuel (accept_all rs s).
Proof.
  revert pre s. induction rs as [|r rs IH]; intros pre s Hbuf Hoff Hch; [done|].
  destruct Hch as [Hr Hch]. cbn [length Nat.add accept_all].
  assert (Hbuf' : buffer = pre ++ rec_bytes r ++ (recs_bytes rs ++ tail))
    by (rewrite Hbuf, recs_bytes_cons; by rewrite <- app_assoc).
  destruct (scan_round_record _ _ _ _ Hbuf' Hoff Hr) as [rr Hround].
  cbn [scan_loop]. rewrite decide_True.
  2:{ rewrite Hbuf', !length_app, length_rec_bytes, Hoff. unfold rec_len. lia. }
  rewrite Hround. apply IH with (pre := pre ++ rec_bytes r).
  - rewrite Hbuf'. by rewrite <- app_assoc.
  - rewrite accept_offset, length_app, length_rec_bytes. lia.
  - by rewrite accept_prev.
Qed.

Lemma accept_all_offset rs s :
  sc_offset (accept_all rs s) = (sc_offset s + length (recs_bytes rs))%nat.
Proof.
  revert s. induction rs as [|r rs IH]; intros s; cbn [accept_all]; [unfold recs_bytes; simpl; lia|].
  rewrite IH, accept_offset, recs_bytes_cons, length_app, length_rec_bytes. lia.
Qed.

Lemma accept_all_prev rs s :
  sc_expected_prev (accept_all rs s) = end_lsn (sc_expected_prev s) rs.
Proof. revert s. induction rs as [|r rs IH]; intros s; simpl; [done|]. by rewrite IH, accept_prev. Qed.

(** ** What follows the last complete record *)

(** Fewer bytes than a header. *)
Lemma loop_short fuel s :
  (length buffer < sc_offset s + WAL_HEADER_SIZE)%nat -> loop fuel s = Some (Ok (sc_result s)).
Proof. intros Hs. destruct fuel; cbn [scan_loop]; by rewrite decide_False by lia. Qed.

Definition zero_header : WalHeader := mkHeader 0 0 false RFull 0 0 0 0 0.

(** Zeros of the preallocated file. *)
Lemma loop_zeros fuel s pre n :
  buffer = pre ++ replicate n 0 -> sc_offset s = length pre -> (0 < fuel)%nat ->
  loop fuel s = Some (Ok (sc_result s)).
Proof.
  intros Hbuf Hoff Hf. destruct fuel as [|fuel]; [lia|]. cbn [scan_loop].
  case_decide as Hd; [|done]. unfold scan_round. rewrite Hoff.
  assert (Hs : slice (length pre) WAL_HEADER_SIZE buffer = replicate WAL_HEADER_SIZE 0).
  { subst buffer. rewrite length_app, length_replicate, Hoff in Hd.
    rewrite slice_skip, Nat.sub_diag by lia. unfold slice. rewrite drop_0, take_replicate.
    f_equal. lia. }
  rewrite Hs. change (Header.from_bytes (replicate WAL_HEADER_SIZE 0)) with (Some zero_header).
  done.
Qed.

(** A record whose payload is cut off. *)
Lemma loop_torn fuel s pre r n :
  buffer = pre ++ take n (rec_bytes r) -> sc_offset s = length pre -> (0 < fuel)%nat ->
  (n < rec_len r)%nat -> rec_ok (sc_expected_prev s) r ->
  loop fuel s = Some (Ok (sc_result s)) \/
  loop fuel s = Some (Ok (count_corrupted (sc_result s))).
Proof.
  intros Hbuf Hoff Hf Hn [Hwf Hlen Hmax Hnn Hprev Hlsn Hop Hck Hdec].
  destruct (decide (n < WAL_HEADER_SIZE)%nat) as [Hs|Hs].
  { left. apply loop_short. subst buffer. rewrite length_app, length_take, Hoff. lia. }
  right. destruct fuel as [|fuel]; [lia|]. destruct r as [[h p] d].
  unfold rec_len, WAL_HEADER_SIZE in *. cbn [fst snd] in *.
  assert (Htake : take n (rec_bytes (h, p, d)) = Header.as_bytes h ++ take (n - 40) p).
  { unfold rec_bytes, serialize_record. cbn [fst snd]. rewrite take_app, Header.length_as_bytes.
    rewrite take_ge by (rewrite Header.length_as_bytes; lia). done. }
  rewrite Htake in Hbuf.
  cbn [scan_loop]. unfold WAL_HEADER_SIZE. rewrite decide_True.
  2:{ subst buffer. rewrite !length_app, Header.length_as_bytes. lia. }
  unfold scan_round. rewrite Hoff.
  assert (Hslice : slice (length pre) WAL_HEADER_SIZE buffer = Header.as_bytes h).
  { subst buffer. rewrite slice_skip, Nat.sub_diag by lia. apply slice_head, Header.length_as_bytes. }
  rewrite Hslice, <- (app_nil_r (Header.as_bytes h)), header_roundtrip by done.
  assert (Hz : is_zero_padding h = false).
  { unfold is_zero_padding. rewrite !andb_false_iff, !bool_decide_eq_false. right. lia. }
  rewrite Hz. unfold validate_lsn_chain, checked_add_u64.
  pose proof (Header.wf_lsn _ Hwf) as Hl64. unfold WAL_HEADER_SIZE in *.
  rewrite decide_True by (unfold U64_MAX; lia). rewrite decide_True by (unfold U64_MAX; lia).
  rewrite decide_False by lia.
  assert (Hv : Header.is_length_valid h (Z.of_nat (length buffer - length pre - 40)) = false).
  { unfold Header.is_length_valid. rewrite andb_false_iff, !bool_decide_eq_false. right.
    subst buffer. rewrite !length_app, Header.length_as_bytes, length_take. lia. }
  by rewrite Hv.
Qed.

End one_file.
(** ** Whole files *)

(** Entries of full records from an offset on. *)
Fixpoint full_entries (fsl : Lsn) (off : nat) (rs : list rec) : list ParsedWalEntry :=
  match rs with
  | [] => []
  | r :: rest =>
      mkParsed r.1.1 r.2 true off (h_lsn r.1.1) (h_prev_lsn r.1.1) fsl ::
      full_entries fsl (off + rec_len r) rest
  end.

Definition is_full (r : rec) : Prop := h_record_type r.1.1 = RFull.

Lemma accept_all_full fsl rs s :
  Forall is_full rs ->
  all_entries (sc_result (accept_all fsl rs s)) =
    all_entries (sc_result s) ++ full_entries fsl (sc_offset s) rs /\
  corrupted_count (sc_result (accept_all fsl rs s)) = corrupted_count (sc_result s).
Proof.
  revert s. induction rs as [|r rs IH]; intros s Hf; cbn [accept_all full_entries].
  - by rewrite app_nil_r.
  - apply Forall_cons in Hf as [Hr Hf]. destruct (IH (accept fsl r.1.1 r.2 (sc_offset s + rec_len r) s) Hf)
      as [-> ->]. rewrite accept_offset. unfold accept, is_full in *. rewrite Hr. simpl.
    by rewrite <- app_assoc.
Qed.

Lemma full_entries_app fsl off a b :
  full_entries fsl off (a ++ b) =
    full_entries fsl off a ++ full_entries fsl (off + length (recs_bytes a)) b.
Proof.
  revert off. induction a as [|r a IH]; intros off; cbn [app full_entries].
  - unfold recs_bytes. simpl. by rewrite Nat.add_0_r.
  - rewrite IH, recs_bytes_cons, length_app, length_rec_bytes. by rewrite Nat.add_assoc.
Qed.

Abbreviation parse := (parse_wal_file_bytes crc32 zstd_decode).

Lemma length_recs rs : (length rs <= length (recs_bytes rs))%nat.
Proof.
  induction rs as [|r rs IH]; [simpl; lia|].
  rewrite recs_bytes_cons, length_app, length_rec_bytes. unfold rec_len, WAL_HEADER_SIZE.
  cbn [length]. lia.
Qed.

(** The scan reaches the end of the records with fuel to spare. *)
Lemma parse_records hdr rs tail fsl mode verify :
  length hdr = WAL_FILE_HEADER_SIZE -> chained fsl rs ->
  let buffer := hdr ++ recs_bytes rs ++ tail in
  exists fuel, (0 < fuel)%nat /\
    parse buffer fsl mode verify =
    scan_loop crc32 zstd_decode buffer fsl mode verify fuel
      (accept_all fsl rs (scan_from fsl WAL_FILE_HEADER_SIZE)).
Proof.
  intros Hh Hc. cbv zeta. pose proof (length_recs rs) as Hl.
  exists (length (hdr ++ recs_bytes rs ++ tail) - length rs)%nat.
  split; [rewrite !length_app, Hh; unfold WAL_FILE_HEADER_SIZE; lia|].
  unfold parse_wal_file_bytes.
  replace (length (hdr ++ recs_bytes rs ++ tail)) with
    (length rs + (length (hdr ++ recs_bytes rs ++ tail) - length rs))%nat at 1
    by (rewrite !length_app; lia).
  by apply scan_loop_records with (pre := hdr) (tail := tail).
Qed.

Definition scanned (fsl : Lsn) (rs : list rec) : RecoveryResult :=
  sc_result (accept_all fsl rs (scan_from fsl WAL_FILE_HEADER_SIZE)).

(** A file of records followed by zeros. *)
Lemma parse_zero_tail hdr rs n fsl mode verify :
  length hdr = WAL_FILE_HEADER_SIZE -> chained fsl rs ->
  parse (hdr ++ recs_bytes rs ++ replicate n 0) fsl mode verify = Some (Ok (scanned fsl rs)).
Proof.
  intros Hh Hc. destruct (parse_records hdr rs (replicate n 0) fsl mode verify Hh Hc) as (fuel & Hf & ->).
  apply loop_zeros with (pre := hdr ++ recs_bytes rs) (n := n); [by rewrite <- app_assoc| |done].
  rewrite accept_all_offset, length_app, Hh. done.
Qed.

(** A file that ends inside a record. *)
Lemma parse_torn_tail hdr rs r n fsl mode verify :
  length hdr = WAL_FILE_HEADER_SIZE -> chained fsl rs -> rec_ok (end_lsn fsl rs) r ->
  (n < rec_len r)%nat ->
  parse (hdr ++ recs_bytes rs ++ take n (rec_bytes r)) fsl mode verify =
    Some (Ok (scanned fsl rs)) \/
  parse (hdr ++ recs_bytes rs ++ take n (rec_bytes r)) fsl mode verify =
    Some (Ok (count_corrupted (scanned fsl rs))).
Proof.
  intros Hh Hc Hr Hn.
  destruct (parse_records hdr rs (take n (rec_bytes r)) fsl mode verify Hh Hc) as (fuel & Hf & ->).
  apply loop_torn with (pre := hdr ++ recs_bytes rs) (r := r) (n := n);
    [by rewrite <- app_assoc| |done|done|].
  - rewrite accept_all_offset, length_app, Hh. done.
  - by rewrite accept_all_prev.
Qed.

(** Cutting a sequence of records at any byte. *)
Lemma cut_records rs m :
  (m <= length (recs_bytes rs))%nat ->
  exists k, (k <= length rs)%nat /\
    ((m = length (recs_bytes (take k rs)) /\ take m (recs_bytes rs) = recs_bytes (take k rs)) \/
     exists r j, rs !! k = Some r /\ (j < rec_len r)%nat /\
       m = (length (recs_bytes (take k rs)) + j)%nat /\
       take m (recs_bytes rs) = recs_bytes (take k rs) ++ take j (rec_bytes r)).
Proof.
  revert m. induction rs as [|r rs IH]; intros m Hm.
  - exists 0%nat. split; [done|]. left. unfold recs_bytes in *. simpl in *. split; [lia|].
    by rewrite take_nil.
  - rewrite recs_bytes_cons, length_app, length_rec_bytes in Hm.
    destruct (decide (m < rec_len r)%nat) as [Hlt|Hge].
    + exists 0%nat. split; [simpl; lia|]. right. exists r, m. split; [done|]. split; [done|].
      split; [done|]. rewrite recs_bytes_cons, take_app_le by (rewrite length_rec_bytes; lia). done.
    + destruct (IH (m - rec_len r)%nat ltac:(lia)) as (k & Hk & Hcase). exists (S k).
      split; [simpl; lia|]. cbn [firstn]. rewrite !recs_bytes_cons, length_app, length_rec_bytes.
      rewrite take_app, length_rec_bytes, (take_ge (rec_bytes r)) by (rewrite length_rec_bytes; lia).
      destruct Hcase as [[Hm' Ht]|(r' & j & Hr' & Hj & Hm' & Ht)].
      * left. split; [lia|]. by rewrite Ht.
      * right. exists r', j. split; [done|]. split; [done|]. split; [lia|].
        by rewrite Ht, app_assoc.
Qed.

Lemma chained_lookup prev rs k r :
  chained prev rs -> rs !! k = Some r -> rec_ok (end_lsn prev (take k rs)) r.
Proof.
  revert prev k. induction rs as [|x rs IH]; intros prev k; [done|].
  intros [Hx Hc]. destruct k as [|k]; simpl; [by intros [= <-]|]. by apply IH.
Qed.

(** Cutting the file at any byte after its header leaves the records that are
    complete, and at most a corruption marker. *)
Lemma parse_cut hdr rs n fsl mode verify :
  length hdr = WAL_FILE_HEADER_SIZE -> chained fsl rs ->
  (WAL_FILE_HEADER_SIZE <= n <= WAL_FILE_HEADER_SIZE + length (recs_bytes rs))%nat ->
  exists k r, (k <= length rs)%nat /\
    parse (take n (hdr ++ recs_bytes rs)) fsl mode verify = Some (Ok r) /\
    all_entries r = all_entries (scanned fsl (take k rs)) /\
    (WAL_FILE_HEADER_SIZE + length (recs_bytes (take k rs)) <= n)%nat /\
    (forall x, rs !! k = Some x ->
      (n < WAL_FILE_HEADER_SIZE + length (recs_bytes (take (S k) rs)))%nat).
Proof.
  intros Hh Hc Hn. destruct (cut_records rs (n - WAL_FILE_HEADER_SIZE) ltac:(lia)) as (k & Hk & Hcase).
  rewrite take_app, (take_ge hdr), Hh by lia.
  assert (Hck : chained fsl (take k rs)).
  { rewrite <- (take_drop k rs), chained_app in Hc. tauto. }
  assert (Hnext : forall x, rs !! k = Some x -> length (recs_bytes (take (S k) rs)) =
    (length (recs_bytes (take k rs)) + rec_len x)%nat).
  { intros x Hx. rewrite (take_S_r _ _ _ Hx), recs_bytes_app, length_app, recs_bytes_cons, length_app,
      length_rec_bytes. change (recs_bytes []) with (@nil Z). cbn [length]. lia. }
  destruct Hcase as [[Hm Ht]|(x & j & Hx & Hj & Hm & Ht)]; rewrite Ht; exists k.
  - exists (scanned fsl (take k rs)). split; [done|]. split; [|split; [done|split; [lia|]]].
    + pose proof (parse_zero_tail hdr (take k rs) 0 fsl mode verify Hh Hck) as Hp.
      simpl in Hp. by rewrite app_nil_r in Hp.
    + intros x Hx. rewrite (Hnext x Hx). unfold rec_len, WAL_HEADER_SIZE. lia.
  - destruct (parse_torn_tail hdr (take k rs) x j fsl mode verify Hh Hck) as [Hp|Hp];
      [by eapply chained_lookup|done|..]; rewrite Hp; eexists; (split; [done|]); (split; [done|]);
      (split; [done|]); (split; [lia|]); intros y Hy; rewrite (Hnext y Hy); simplify_eq; lia.
Qed.

End facts.
End WalFacts.
