(* ===== verification/WalCommit.v ===== *)
(** * Committed transactions of a WAL

    [linkrs-transaction/src/wal/commit.rs] ([collect_committed_transactions]),
    [wal/dry_replay.rs] ([find_last_consistent_commit]) and the filtering of
    [wal/recovery/filter.rs].  The [postcard] decoders are parameters. *)

From stdpp Require Import base gmap list strings sorting.
From Stdlib Require Import ZArith Lia.
From S2P Require Import Prelude Types WalTypes WalScan WalWriter.

Record CommittedWalTransaction := mkCommitted {
  ct_transaction_id : TransactionId;
  ct_commit_lsn : CommitLsn;
  ct_redo_entries : list ParsedWalEntry;
  ct_intents : list OutboxIntent;
}.

(** Order of intents by sequence. *)
Definition intent_le (a b : OutboxIntent) : Prop := intent_sequence a <= intent_sequence b.

#[export] Instance intent_le_dec : RelDecision intent_le.
Proof. intros a b. unfold intent_le. apply _. Defined.

Module Commit.
Section commit.
Context (crc32 : list Z -> Z).
Context (intent_from_bytes : list Z -> option OutboxIntent).
Context (commit_from_bytes : list Z -> option TransactionCommit).
Context (abort_from_bytes : list Z -> option TransactionAbort).

Definition op_of (e : ParsedWalEntry) : result WalOpType WalError :=
  op_try_from (h_op_type (pe_header e)).

(** The bytes a batch checksum covers, or the first invalid operation. *)
Fixpoint batch_input (es : list ParsedWalEntry) : result (list Z) WalError :=
  match es with
  | [] => Ok []
  | e :: rest =>
      match op_of e with
      | Err x => Err x
      | Ok op =>
          match batch_input rest with
          | Err x => Err x
          | Ok b =>
              Ok (Writer.checksum_entry op (h_timestamp (pe_header e)) (pe_payload e) ++ b)
          end
      end
  end.

Definition parsed_batch_checksum (es : list ParsedWalEntry) : result Z WalError :=
  match batch_input es with Ok b => Ok (crc32 b) | Err x => Err x end.

(** Separate the intents of a batch from its redo entries. *)
Fixpoint split_batch (tx : TransactionId) (batch : list ParsedWalEntry)
  : result (list ParsedWalEntry * list OutboxIntent) WalError :=
  match batch with
  | [] => Ok ([], [])
  | e :: rest =>
      match op_of e with
      | Err x => Err x
      | Ok op =>
          if decide (op = OpOutboxIntent) then
            match intent_from_bytes (pe_payload e) with
            | None => Err SerializationError
            | Some i =>
                match validate_intent i with
                | Err x => Err x
                | Ok _ =>
                    if decide (oi_transaction_id i <> tx) then Err InvalidOperation
                    else match split_batch tx rest with
                         | Err x => Err x
                         | Ok (redo, ints) => Ok (redo, i :: ints)
                         end
                end
            end
          else match split_batch tx rest with
               | Err x => Err x
               | Ok (redo, ints) => Ok (e :: redo, ints)
               end
      end
  end.

Fixpoint contiguous (expected : Z) (ints : list OutboxIntent) : bool :=
  match ints with
  | [] => true
  | i :: rest => bool_decide (intent_sequence i = expected) && contiguous (expected + 1) rest
  end.

(** The transaction a commit record terminates, from the pending entries. *)
Definition close_batch (commit : TransactionCommit) (lsn : Lsn) (pending : list ParsedWalEntry)
  : result CommittedWalTransaction WalError :=
  match validate_commit commit with
  | Err x => Err x
  | Ok _ =>
      let actual := match parsed_batch_checksum pending with Ok c => c | Err _ => 0 end in
      if decide (actual <> tc_batch_checksum commit)
      then Err (ChecksumMismatch (tc_batch_checksum commit) actual)
      else
        match split_batch (tc_transaction_id commit) pending with
        | Err x => Err x
        | Ok (redo, ints0) =>
            let ints := merge_sort intent_le ints0 in
            if decide (Z.of_nat (length ints) <> intent_count commit) then Err InvalidOperation
            else if negb (contiguous 0 ints) then Err InvalidOperation
            else if decide (Z.of_nat (length redo) mod 2 ^ 32 <> entry_count commit)
            then Err InvalidOperation
            else Ok (mkCommitted (tc_transaction_id commit) lsn redo ints)
        end
  end.

Fixpoint collect_loop (entries pending : list ParsedWalEntry)
    (committed : list CommittedWalTransaction)
  : result (list CommittedWalTransaction) WalError :=
  match entries with
  | [] => Ok committed
  | e :: rest =>
      match op_of e with
      | Err x => Err x
      | Ok OpTransactionAbort =>
          match abort_from_bytes (pe_payload e) with
          | None => Err SerializationError
          | Some a =>
              match validate_abort a with
              | Err x => Err x
              | Ok _ => collect_loop rest [] committed
              end
          end
      | Ok OpTransactionCommit =>
          match commit_from_bytes (pe_payload e) with
          | None => Err SerializationError
          | Some c =>
              match close_batch c (pe_lsn e) pending with
              | Err x => Err x
              | Ok t => collect_loop rest [] (committed ++ [t])
              end
          end
      | Ok _ => collect_loop rest (pending ++ [e]) committed
      end
  end.

Definition collect_committed_transactions (entries : list ParsedWalEntry)
  : result (list CommittedWalTransaction) WalError := collect_loop entries [] [].

(** ** Dry replay *)

Record DryReplayResult := mkDry {
  consistent_entries : list ParsedWalEntry;
  last_consistent_lsn : Lsn;
  last_consistent_timestamp : Timestamp;
  is_last_record_checkpoint : bool;
  truncated_tail : Z;
  dry_corrupted_count : Z;
  total_scanned : Z;
  sequence_gaps : Z;
}.

Definition is_envelope (e : ParsedWalEntry) : bool :=
  match op_of e with
  | Ok (OpOutboxIntent | OpTransactionCommit | OpTransactionAbort) => true
  | _ => false
  end.

Definition is_commit (e : ParsedWalEntry) : bool :=
  match op_of e with Ok OpTransactionCommit => true | _ => false end.

Definition last_is_compact (es : list ParsedWalEntry) : bool :=
  match last es with
  | Some e => match op_of e with Ok OpCompact => true | _ => false end
  | None => false
  end.

(** [position]: the index of the first match. *)
Fixpoint position (p : ParsedWalEntry -> bool) (es : list ParsedWalEntry) : option nat :=
  match es with
  | [] => None
  | e :: rest => if p e then Some 0%nat else S <$> position p rest
  end.

(** [rposition]: the index of the last match. *)
Fixpoint rposition (p : ParsedWalEntry -> bool) (es : list ParsedWalEntry) : option nat :=
  match es with
  | [] => None
  | e :: rest =>
      match rposition p rest with
      | Some n => Some (S n)
      | None => if p e then Some 0%nat else None
      end
  end.

Definition scan_for_last_commit_fallback (r : RecoveryResult) : DryReplayResult :=
  let es := all_entries r in
  let total := Z.of_nat (length es) in
  match rposition is_commit es with
  | Some pos =>
      let kept := take (S pos) es in
      let truncated := Z.max (total - Z.of_nat (S pos)) 0 in
      let e := nth pos es (mkParsed (mkHeader 0 0 false RFull 0 0 0 0 0) [] false 0 0 0 0) in
      mkDry kept (pe_lsn e) (h_timestamp (pe_header e)) (last_is_compact kept) truncated
        (corrupted_count r) total (if decide (truncated > 0) then 1 else 0)
  | None =>
      mkDry [] 0 0 false total (corrupted_count r) total (if decide (total > 0) then 1 else 0)
  end.

Definition find_last_consistent_commit (r : RecoveryResult) (throw_on_corruption : bool)
  : DryReplayResult :=
  let es := all_entries r in
  let total := Z.of_nat (length es) in
  let corrupted := corrupted_count r in
  if decide (es = []) then mkDry [] 0 0 false 0 corrupted 0 0
  else if throw_on_corruption && bool_decide (corrupted > 0)
  then mkDry [] 0 0 false 0 corrupted total 0
  else if negb (existsb is_envelope es)
  then mkDry es (last_lsn r) (last_timestamp r) (last_is_compact es) 0 corrupted total 0
  else
    match collect_committed_transactions es with
    | Err _ => scan_for_last_commit_fallback r
    | Ok [] =>
        if negb throw_on_corruption && negb (existsb is_commit es)
        then mkDry [] 0 0 false total corrupted total 1
        else scan_for_last_commit_fallback r
    | Ok committed =>
        let last_commit_lsn := match last committed with Some c => ct_commit_lsn c | None => 0 end in
        let last_ts :=
          match last committed with
          | Some c => match ct_redo_entries c with
                      | e :: _ => h_timestamp (pe_header e)
                      | [] => 0
                      end
          | None => 0
          end in
        let cutoff := match position (fun e => bool_decide (pe_lsn e = last_commit_lsn)) es with
                      | Some pos => S pos
                      | None => length es
                      end in
        let truncated := Z.max (total - Z.of_nat cutoff) 0 in
        let kept := if decide (truncated > 0) then take cutoff es else es in
        mkDry kept last_commit_lsn last_ts (last_is_compact kept) truncated corrupted total
          (if decide (truncated > 0) then 1 else 0)
    end.

(** [apply_dry_replay_filter] of the recovery manager. *)
Definition apply_dry_replay_filter (throw_on_wal_replay_failure : bool) (r : RecoveryResult)
  : RecoveryResult :=
  if throw_on_wal_replay_failure then r
  else
    let dry := find_last_consistent_commit r false in
    mkRecovery (consistent_entries dry) (last_consistent_timestamp dry) (last_consistent_lsn dry)
      (dry_corrupted_count dry) (truncated_tail dry).

End commit.
End Commit.
