(* ===== verification/WalFilter.v ===== *)
(** * Intents for an index rebuild

    [wal/filter.rs]: the intents a rebuilt index has to catch up with, out of the
    committed transactions of the log. *)

From stdpp Require Import base list strings sorting.
From Stdlib Require Import ZArith Lia.
From S2P Require Import Prelude Types WalTypes WalScan WalCommit.

Module IntentFilter.

(** The order of [sort_by]: commit LSN, transaction, sequence. *)
Definition key_le (a b : CommitLsn * OutboxIntent) : Prop :=
  a.1 < b.1 \/ a.1 = b.1 /\
  (oi_transaction_id a.2 < oi_transaction_id b.2 \/
   oi_transaction_id a.2 = oi_transaction_id b.2 /\ intent_sequence a.2 <= intent_sequence b.2).

#[export] Instance key_le_dec : RelDecision key_le.
Proof. intros a b. unfold key_le. apply _. Defined.

(** The loop over the transactions. *)
Definition select (ids : list Z) (from to : CommitLsn) (txns : list CommittedWalTransaction)
  : list (CommitLsn * OutboxIntent) :=
  txns ≫= fun t =>
    if decide (ct_commit_lsn t <= from \/ ct_commit_lsn t > to) then []
    else pair (ct_commit_lsn t) <$> filter (fun i => im_index_id (oi_mutation i) ∈ ids) (ct_intents t).

Definition filter_intents_for_indexes (txns : list CommittedWalTransaction) (ids : list Z)
    (from to : CommitLsn) : list OutboxIntent :=
  (merge_sort key_le (select ids from to txns)).*2.

Definition filter_intents_for_index (txns : list CommittedWalTransaction) (id : Z)
    (from to : CommitLsn) : list OutboxIntent :=
  filter_intents_for_indexes txns [id] from to.

(** ** What is selected *)

#[local] Instance key_le_total : Total key_le.
Proof. intros a b. unfold key_le. lia. Qed.

#[local] Instance key_le_trans : Transitive key_le.
Proof. intros a b c. unfold key_le. lia. Qed.

Lemma elem_of_select ids from to txns lsn i :
  (lsn, i) ∈ select ids from to txns <->
  from < lsn <= to /\ im_index_id (oi_mutation i) ∈ ids /\
  exists t, t ∈ txns /\ ct_commit_lsn t = lsn /\ i ∈ ct_intents t.
Proof.
  unfold select. rewrite list_elem_of_bind. split.
  - intros (t & Hi & Ht). case_decide; [by apply not_elem_of_nil in Hi|].
    apply list_elem_of_fmap in Hi as (j & [= -> ->] & [Hj1 Hj2]%list_elem_of_filter).
    split; [lia|]. split; [done|]. by exists t.
  - intros (Hl & Hid & t & Ht & <- & Hi). exists t. split; [|done].
    rewrite decide_False by lia. apply list_elem_of_fmap. exists i. split; [done|].
    by apply list_elem_of_filter.
Qed.

(** Two adjacent ranges together select what the joint range selects. *)
Lemma select_split ids from mid to txns :
  from <= mid <= to ->
  select ids from mid txns ++ select ids mid to txns ≡ₚ select ids from to txns.
Proof.
  intros Hm. unfold select. induction txns as [|t txns IH]; [done|]. rewrite !bind_cons.
  set (f := pair (ct_commit_lsn t) <$> _).
  destruct (decide (ct_commit_lsn t <= from \/ ct_commit_lsn t > to)).
  - rewrite !decide_True by lia. done.
  - destruct (decide (ct_commit_lsn t <= mid)).
    + rewrite (decide_False (P := _ \/ _)) by lia. rewrite (decide_True (P := _ \/ _)) by lia.
      rewrite app_nil_l, <- app_assoc. by rewrite IH.
    + rewrite (decide_True (P := _ \/ _)) by lia. rewrite (decide_False (P := _ \/ _)) by lia.
      rewrite app_nil_l, (app_assoc _ f), (Permutation_app_comm _ f), <- app_assoc. by rewrite IH.
Qed.

Lemma sorted_app (l1 l2 : list (CommitLsn * OutboxIntent)) :
  StronglySorted key_le l1 -> StronglySorted key_le l2 ->
  (forall a b, a ∈ l1 -> b ∈ l2 -> key_le a b) -> StronglySorted key_le (l1 ++ l2).
Proof.
  induction 1 as [|a l1 Hs IH Hf]; intros H2 Hab; [done|]. simpl. constructor.
  - apply IH; [done|]. intros. apply Hab; [by right|done].
  - apply Forall_app. split; [done|]. apply Forall_forall. intros b Hb. apply Hab; [by left|done].
Qed.

(** The intents of an index come in commit order and are exactly those of the
    commits in the half-open range; when the keys of the intents tell them apart
    (as the commits of one log do), catching up to a position and then on to a
    later one applies the same intents in the same order as catching up at once. *)
Theorem catch_up_composes txns ids from mid to :
  from <= mid <= to ->
  (forall a b, a ∈ select ids from to txns -> b ∈ select ids from to txns ->
    key_le a b -> key_le b a -> a = b) ->
  filter_intents_for_indexes txns ids from mid ++ filter_intents_for_indexes txns ids mid to =
    filter_intents_for_indexes txns ids from to /\
  forall i, i ∈ filter_intents_for_indexes txns ids from to <->
    im_index_id (oi_mutation i) ∈ ids /\
    exists t, t ∈ txns /\ from < ct_commit_lsn t <= to /\ i ∈ ct_intents t.
Proof.
  intros Hm Hinj. unfold filter_intents_for_indexes. split.
  - rewrite <- fmap_app. f_equal. apply (StronglySorted_unique_strong key_le).
    + intros a b Ha Hb. apply Hinj.
      * rewrite <- (select_split ids from mid to) by done. by rewrite !merge_sort_Permutation in Ha.
      * by rewrite merge_sort_Permutation in Hb.
    + apply sorted_app; try (apply StronglySorted_merge_sort; apply _).
      intros [la ia] [lb ib] Ha Hb. rewrite merge_sort_Permutation in Ha, Hb.
      apply elem_of_select in Ha, Hb. left. simpl. lia.
    + apply StronglySorted_merge_sort; apply _.
    + by rewrite !merge_sort_Permutation, select_split.
  - intros i. rewrite list_elem_of_fmap. split.
    + intros ([lsn j] & -> & Hj). rewrite merge_sort_Permutation in Hj.
      apply elem_of_select in Hj as (? & ? & t & ? & <- & ?). eauto.
    + intros (Hid & t & Ht & Hl & Hi). exists (ct_commit_lsn t, i). split; [done|].
      rewrite merge_sort_Permutation. apply elem_of_select. eauto 7.
Qed.

End IntentFilter.
