(* ===== verification/WalRecovery.v ===== *)
(** * Recovery manager

    [linkrs-transaction/src/wal/recovery/manager.rs], [config.rs], [filter.rs]
    and [replay.rs]: parse the directory, keep the consistent prefix, hand the
    redo entries of the committed transactions to an applier.  The applier is
    the [RecoveryApplier] trait: a class with one replay operation for each
    operation tag; its state is threaded. *)

From stdpp Require Import base gmap list strings sorting.
From Stdlib Require Import ZArith Lia.
From S2P Require Import Prelude Types WalTypes WalScan WalParser WalWriter WalCommit.

(** The part of [RecoveryConfig] recovery reads besides the paths. *)
Record RecoveryConfig := mkRecConfig {
  rc_recovery_mode : WalRecoveryMode;
  rc_parallel_recovery : bool;
  rc_verify_checksum : bool;
  rc_start_lsn : option Lsn;
  rc_throw_on_wal_replay_failure : bool;
}.

Definition default_recovery_config : RecoveryConfig :=
  mkRecConfig AbortOnCorruption true true None false.

Record RecoveryStats := mkStats {
  wal_entries_replayed : Z;
  checkpoints_processed : Z;
  errors_encountered : Z;
  rs_last_lsn : Lsn;
  max_timestamp : Timestamp;
  rs_max_transaction_id : Z;
}.

Definition default_stats : RecoveryStats := mkStats 0 0 0 0 0 0.

(** [StorageError], by the constructor function that makes it. *)
Inductive RecError :=
| RDbError (e : WalError)
| RWalError
| RDeserializeError
| RApplyError
| RUnreachable.

#[export] Instance RecError_eq_dec : EqDecision RecError.
Proof. solve_decision. Defined.

(** The [RecoveryApplier] trait, with the redo types as one type: [postcard]
    decodes the payload of an operation, the method of the operation replays
    it. *)
Class RecoveryApplier (S Redo : Type) := {
  deserialize_redo : WalOpType -> list Z -> option Redo;
  replay : WalOpType -> Redo -> Timestamp -> S -> S * result unit RecError;
  replay_compact : Timestamp -> S -> S * result unit RecError;
}.

Module Recovery.

Definition set_replayed (lsn : Lsn) (s : RecoveryStats) : RecoveryStats :=
  mkStats (wal_entries_replayed s + 1) (checkpoints_processed s) (errors_encountered s) lsn
    (max_timestamp s) (rs_max_transaction_id s).

Definition count_error (s : RecoveryStats) : RecoveryStats :=
  mkStats (wal_entries_replayed s) (checkpoints_processed s) (errors_encountered s + 1)
    (rs_last_lsn s) (max_timestamp s) (rs_max_transaction_id s).

Definition see_timestamp (ts : Timestamp) (s : RecoveryStats) : RecoveryStats :=
  mkStats (wal_entries_replayed s) (checkpoints_processed s) (errors_encountered s)
    (rs_last_lsn s) (Z.max (max_timestamp s) ts) (rs_max_transaction_id s).

Definition set_last_lsn (lsn : Lsn) (s : RecoveryStats) : RecoveryStats :=
  mkStats (wal_entries_replayed s) (checkpoints_processed s) (errors_encountered s) lsn
    (max_timestamp s) (rs_max_transaction_id s).

Section recovery.
Context {S Redo : Type} `{RecoveryApplier S Redo}.

(** Statistics of the manager and state of the applier. *)
Abbreviation M := (ST (RecoveryStats * S) RecError).

Definition stats_modify (f : RecoveryStats -> RecoveryStats) : M unit :=
  fun s => ((f s.1, s.2), Ok tt).

Definition apply_call (f : S -> S * result unit RecError) : M unit :=
  fun s => let '(a, r) := f s.2 in ((s.1, a), r).

(** [recovery_arm_ref!]: a payload that does not decode is counted. *)
Definition recovery_arm_ref (op : WalOpType) (e : ParsedWalEntry) (ts : Timestamp) : M unit :=
  match deserialize_redo op (pe_payload e) with
  | Some redo =>
      do! apply_call (replay op redo ts) in
      stats_modify (set_replayed (pe_lsn e))
  | None =>
      do! stats_modify count_error in
      st_err RWalError
  end.

(** The arms written out: [deserialize_redo(payload)?]. *)
Definition recovery_arm (op : WalOpType) (e : ParsedWalEntry) (ts : Timestamp) : M unit :=
  match deserialize_redo op (pe_payload e) with
  | Some redo =>
      do! apply_call (replay op redo ts) in
      stats_modify (set_replayed (pe_lsn e))
  | None => st_err RDeserializeError
  end.

Definition replay_graph_op (e : ParsedWalEntry) (op : WalOpType) (ts : Timestamp) : M unit :=
  match op with
  | OpInsertVertex => recovery_arm op e ts
  | OpInsertEdge => recovery_arm_ref op e ts
  | OpUpdateVertexProp => recovery_arm op e ts
  | OpUpdateEdgeProp => recovery_arm_ref op e ts
  | OpDeleteVertex => recovery_arm op e ts
  | OpDeleteEdge => recovery_arm_ref op e ts
  | OpDeleteVertexProps => recovery_arm_ref op e ts
  | _ => st_err RUnreachable
  end.

Definition replay_schema_op (e : ParsedWalEntry) (op : WalOpType) (ts : Timestamp) : M unit :=
  match op with
  | OpCreateVertexType | OpCreateEdgeType | OpDeleteVertexType | OpDeleteEdgeType
  | OpCreateSpace | OpDropSpace | OpClearSpace
  | OpAddVertexProp | OpAddEdgeProp | OpDeleteVertexProp | OpDeleteEdgeProp
  | OpRenameVertexProp | OpRenameEdgeProp | OpRenameTag | OpRenameEdgeType
  | OpCreateMacro | OpDropMacro | OpCreateTypeAlias | OpDropTypeAlias => recovery_arm_ref op e ts
  | _ => st_err RUnreachable
  end.

(** A compaction does not move [last_lsn]. *)
Definition replay_index_system_op (e : ParsedWalEntry) (op : WalOpType) (ts : Timestamp) : M unit :=
  match op with
  | OpCreateTagIndex | OpDropTagIndex | OpCreateEdgeIndex | OpDropEdgeIndex =>
      recovery_arm_ref op e ts
  | OpCompact =>
      do! apply_call (replay_compact ts) in
      stats_modify (fun s => set_replayed (rs_last_lsn s) s)
  | OpUpdateSequence => recovery_arm_ref op e ts
  | _ => st_err RUnreachable
  end.

Definition replay_op (e : ParsedWalEntry) (op : WalOpType) (ts : Timestamp) : M unit :=
  match op with
  | OpInsertVertex | OpInsertEdge | OpUpdateVertexProp | OpUpdateEdgeProp | OpDeleteVertex
  | OpDeleteEdge | OpDeleteVertexProps => replay_graph_op e op ts
  | OpCreateVertexType | OpCreateEdgeType | OpDeleteVertexType | OpDeleteEdgeType
  | OpCreateSpace | OpDropSpace | OpClearSpace
  | OpAddVertexProp | OpAddEdgeProp | OpDeleteVertexProp | OpDeleteEdgeProp
  | OpRenameVertexProp | OpRenameEdgeProp | OpRenameTag | OpRenameEdgeType
  | OpCreateMacro | OpDropMacro | OpCreateTypeAlias | OpDropTypeAlias => replay_schema_op e op ts
  | OpCreateTagIndex | OpDropTagIndex | OpCreateEdgeIndex | OpDropEdgeIndex | OpCompact
  | OpUpdateSequence => replay_index_system_op e op ts
  | OpOutboxIntent | OpTransactionCommit | OpTransactionAbort => st_ret tt
  end.

Definition skips (start : option Lsn) (e : ParsedWalEntry) : bool :=
  match start with Some l => bool_decide (pe_lsn e <= l) | None => false end.

Fixpoint replay_parsed_entries (start : option Lsn) (es : list ParsedWalEntry) : M unit :=
  match es with
  | [] => st_ret tt
  | e :: rest =>
      if skips start e then replay_parsed_entries start rest
      else match op_try_from (h_op_type (pe_header e)) with
           | Err _ =>
               do! stats_modify count_error in
               st_err RWalError
           | Ok op =>
               let ts := h_timestamp (pe_header e) in
               do! stats_modify (see_timestamp ts) in
               do! replay_op e op ts in
               replay_parsed_entries start rest
           end
  end.

Fixpoint replay_transactions (start : option Lsn) (txs : list CommittedWalTransaction) : M unit :=
  match txs with
  | [] => st_ret tt
  | t :: rest =>
      do! replay_parsed_entries start (ct_redo_entries t) in
      do! stats_modify (set_last_lsn (ct_commit_lsn t)) in
      replay_transactions start rest
  end.

Section codecs.
Context (crc32 : list Z -> Z).
Context (zstd_decode : list Z -> option (list Z)).
Context (intent_from_bytes : list Z -> option OutboxIntent).
Context (commit_from_bytes : list Z -> option TransactionCommit).
Context (abort_from_bytes : list Z -> option TransactionAbort).

Definition replay_wal_entries (start : option Lsn) (r : RecoveryResult) : M unit :=
  if negb (existsb Commit.is_envelope (all_entries r)) then
    do! replay_parsed_entries start (all_entries r) in
    stats_modify (set_last_lsn (last_lsn r))
  else
    match Commit.collect_committed_transactions crc32 intent_from_bytes commit_from_bytes
            abort_from_bytes (all_entries r) with
    | Err _ => st_err RWalError
    | Ok txs => replay_transactions start txs
    end.

(** The transaction an envelope record names. *)
Definition entry_transaction (e : ParsedWalEntry) : option Z :=
  match op_try_from (h_op_type (pe_header e)) with
  | Ok OpOutboxIntent => oi_transaction_id <$> intent_from_bytes (pe_payload e)
  | Ok OpTransactionCommit => tc_transaction_id <$> commit_from_bytes (pe_payload e)
  | Ok OpTransactionAbort => ta_transaction_id <$> abort_from_bytes (pe_payload e)
  | _ => None
  end.

Definition max_transaction_id (r : RecoveryResult) : Z :=
  foldr Z.max 0 (omap entry_transaction (all_entries r)).

(** [parse_wal_files]: the sequential path uses a parser with defaults. *)
Definition parse_wal_files (threads : nat) (order : list nat) (cfg : RecoveryConfig) (dir : WalDir)
  : result RecoveryResult RecError :=
  if rc_parallel_recovery cfg then
    map_err RDbError (Parser.parse_parallel crc32 zstd_decode threads order (rc_recovery_mode cfg)
      (rc_verify_checksum cfg) dir)
  else
    match Parser.parse_wal_files crc32 zstd_decode dir Parser.new with
    | (p, Ok _) => Ok (Parser.parser_result p)
    | (_, Err e) => Err (RDbError e)
    end.

Definition initial_stats (cfg : RecoveryConfig) : RecoveryStats :=
  set_last_lsn (default 0 (rc_start_lsn cfg)) default_stats.

Definition summarise (r : RecoveryResult) (s : RecoveryStats) : RecoveryStats :=
  mkStats (wal_entries_replayed s) (checkpoints_processed s)
    (Z.min U64_MAX (corrupted_count r + skipped_count r)) (rs_last_lsn s) (last_timestamp r)
    (max_transaction_id r).

(** [data_dir] exists or is created. *)
Definition restore_from_checkpoint (data_dir_exists : bool) : M unit :=
  if data_dir_exists then
    stats_modify (fun s => mkStats (wal_entries_replayed s) 1 (errors_encountered s)
      (rs_last_lsn s) (max_timestamp s) (rs_max_transaction_id s))
  else st_ret tt.

Definition recover_with_applier (threads : nat) (order : list nat) (cfg : RecoveryConfig)
    (dir : WalDir) (data_dir_exists : bool) : M RecoveryStats :=
  do! stats_modify (fun _ => initial_stats cfg) in
  let! wal := st_lift (parse_wal_files threads order cfg dir) in
  let filtered := Commit.apply_dry_replay_filter crc32 intent_from_bytes commit_from_bytes
    abort_from_bytes (rc_throw_on_wal_replay_failure cfg) wal in
  do! stats_modify (summarise filtered) in
  do! restore_from_checkpoint data_dir_exists in
  do! replay_wal_entries (rc_start_lsn cfg) filtered in
  let! s := st_get in
  st_ret s.1.

End codecs.
End recovery.
End Recovery.
