(* ===== verification/WalCrash.v ===== *)
(** * Crash recovery

    The writer's batches and the recovery path put together: a log that holds
    any number of transaction batches and is cut off at any byte is read back
    as exactly the transactions whose batch is complete.

    What the code relies on of its libraries is stated as hypotheses: a CRC-32
    is a 32-bit value, [zstd] and [postcard] decode what they encoded. *)

From stdpp Require Import base gmap list strings sorting.
From Stdlib Require Import ZArith Lia.
From S2P Require Import Prelude Types WalTypes WalScan WalWriter WalFacts WalCommit.

Module WalCrash.
Import Scan Writer WalFacts Commit.

Section crash.
Context (crc32 : list Z -> Z).
Context (zstd_encode : Z -> list Z -> option (list Z)).
Context (zstd_decode : list Z -> option (list Z)).
Context (intent_to_vec : OutboxIntent -> option (list Z)).
Context (intent_from_bytes : list Z -> option OutboxIntent).
Context (commit_to_vec : TransactionCommit -> option (list Z)).
Context (commit_from_bytes : list Z -> option TransactionCommit).
Context (abort_from_bytes : list Z -> option TransactionAbort).
Context (level : Z).

Abbreviation build := (build_transaction_entries crc32 intent_to_vec commit_to_vec).
Abbreviation collect := (collect_loop crc32 intent_from_bytes commit_from_bytes abort_from_bytes).

(** What the libraries promise. *)
Record library_laws : Prop := {
  law_crc : forall b, 0 <= crc32 b < 2 ^ 32;
  law_zstd : forall l d z, zstd_encode l d = Some z -> zstd_decode z = Some d;
  law_intent : forall i b, intent_to_vec i = Some b -> intent_from_bytes b = Some i;
  law_commit : forall c b, commit_to_vec c = Some b -> commit_from_bytes b = Some c;
  law_commit_len : forall c b, commit_to_vec c = Some b -> Z.of_nat (length b) <= MAX_PAYLOAD_LENGTH;
}.

Hypothesis Hlaws : library_laws.

(** ** Collecting one batch *)

(** A parsed entry that carries what a transaction entry says. *)
Definition matches (e : TransactionWalEntry) (p : ParsedWalEntry) : Prop :=
  op_of p = Ok (we_op_type e) /\ h_timestamp (pe_header p) = we_timestamp e /\
  pe_payload p = we_payload e.

Definition plain_op (op : WalOpType) : bool :=
  match op with OpOutboxIntent | OpTransactionCommit | OpTransactionAbort => false | _ => true end.

(** Entries that do not end a batch pile up. *)
Lemma collect_pending es ps rest pending committed :
  Forall2 matches es ps ->
  Forall (fun e => we_op_type e <> OpTransactionCommit /\ we_op_type e <> OpTransactionAbort) es ->
  collect (ps ++ rest) pending committed = collect rest (pending ++ ps) committed.
Proof.
  intros Hm. revert pending. induction Hm as [|e p es ps [Hop _] Hm IH]; intros pending Hf.
  - by rewrite app_nil_r.
  - apply Forall_cons in Hf as [[Hc Ha] Hf]. simpl. rewrite Hop.
    specialize (IH (pending ++ [p]) Hf). rewrite <- app_assoc in IH. simpl in IH.
    by destruct (we_op_type e).
Qed.

Lemma batch_input_matches es ps :
  Forall2 matches es ps ->
  batch_input ps =
    Ok (es ≫= fun e => checksum_entry (we_op_type e) (we_timestamp e) (we_payload e)).
Proof.
  induction 1 as [|e p es ps (Hop & Hts & Hp) Hm IH]; [done|].
  cbn [batch_input]. by rewrite Hop, IH, Hts, Hp.
Qed.

Lemma split_redo tx es ps ps' redo ints :
  Forall2 matches es ps -> Forall (fun e => plain_op (we_op_type e) = true) es ->
  split_batch intent_from_bytes tx ps' = Ok (redo, ints) ->
  split_batch intent_from_bytes tx (ps ++ ps') = Ok (ps ++ redo, ints).
Proof.
  intros Hm Hf Hs. induction Hm as [|e p es ps (Hop & _) Hm IH]; [done|].
  apply Forall_cons in Hf as [He Hf]. simpl. rewrite Hop, (IH Hf).
  rewrite decide_False; [done|]. by intros E; rewrite E in He.
Qed.

(** Intent records come back as the intents. *)
Lemma split_intents tx k ints ies ps :
  intent_entries intent_to_vec tx k ints = Ok ies -> Forall2 matches ies ps ->
  split_batch intent_from_bytes tx ps = Ok ([], ints) /\ contiguous k ints = true /\
  length ies = length ints.
Proof.
  revert k ies ps. induction ints as [|i ints IH]; intros k ies ps; simpl.
  - intros [= <-] Hm. by apply Forall2_nil_inv_l in Hm as ->.
  - destruct (validate_intent i) as [[]|] eqn:Ev; [|done]. case_decide as Ht; [done|].
    case_decide as Hq; [done|]. destruct (intent_to_vec i) as [b|] eqn:Eb; [|done].
    destruct (intent_entries intent_to_vec tx (k + 1) ints) as [es|] eqn:Ee; [|done].
    intros [= <-] Hm. apply Forall2_cons_inv_l in Hm as (p & ps' & (Hop & _ & Hp) & Hm & ->).
    destruct (IH (k + 1) es ps' Ee Hm) as (IH1 & IH2 & IH3).
    cbn [split_batch]. rewrite Hop. cbn [we_op_type]. rewrite decide_True by done.
    rewrite Hp. cbn [we_payload]. rewrite (law_intent Hlaws _ _ Eb), Ev, decide_False by tauto.
    rewrite IH1.
    split; [done|]. rewrite bool_decide_eq_true_2, IH2 by lia. simpl. by rewrite IH3.
Qed.

Lemma intent_entries_ops tx k ints ies :
  intent_entries intent_to_vec tx k ints = Ok ies ->
  Forall (fun e => we_op_type e = OpOutboxIntent) ies.
Proof.
  revert k ies. induction ints as [|i ints IH]; intros k ies; simpl; [by intros [= <-]|].
  destruct (validate_intent i); [|done]. case_decide; [done|]. case_decide; [done|].
  destruct (intent_to_vec i); [|done].
  destruct (intent_entries intent_to_vec tx (k + 1) ints) as [es|] eqn:Ee; [|done].
  intros [= <-]. constructor; [done|by eapply IH].
Qed.

#[local] Instance intent_le_total : Total intent_le.
Proof. intros a b. unfold intent_le. lia. Qed.

#[local] Instance intent_le_trans : Transitive intent_le.
Proof. intros a b c. unfold intent_le. lia. Qed.

Lemma contiguous_lookup k ints j i :
  contiguous k ints = true -> ints !! j = Some i -> intent_sequence i = k + Z.of_nat j.
Proof.
  revert k j. induction ints as [|x ints IH]; intros k j; [done|]. simpl.
  intros [Hx%bool_decide_eq_true Hc]%andb_true_iff. destruct j as [|j]; simpl.
  - intros [= <-]. lia.
  - intros Hj. rewrite (IH _ _ Hc Hj). lia.
Qed.

Lemma contiguous_sorted k ints : contiguous k ints = true -> StronglySorted intent_le ints.
Proof.
  revert k. induction ints as [|x ints IH]; intros k; [constructor|]. simpl.
  intros [Hx%bool_decide_eq_true Hc]%andb_true_iff. constructor; [by eapply IH|].
  apply Forall_forall. intros y [j Hj]%list_elem_of_lookup. unfold intent_le.
  rewrite (contiguous_lookup _ _ _ _ Hc Hj). lia.
Qed.

(** Sorting leaves a contiguous sequence as it is. *)
Lemma sort_contiguous k ints : contiguous k ints = true -> merge_sort intent_le ints = ints.
Proof.
  intros Hc. apply (StronglySorted_unique_strong intent_le).
  - intros a b Ha Hb H1 H2. rewrite merge_sort_Permutation in Ha.
    apply list_elem_of_lookup in Ha as [m Hm], Hb as [n Hn]. unfold intent_le in *.
    pose proof (contiguous_lookup _ _ _ _ Hc Hm). pose proof (contiguous_lookup _ _ _ _ Hc Hn).
    assert (m = n) as -> by lia. congruence.
  - apply StronglySorted_merge_sort; apply _.
  - by eapply contiguous_sorted.
  - apply merge_sort_Permutation.
Qed.

(** A transaction handed to the writer. *)
Record batch := mkBatch {
  b_tx : TransactionId;
  b_entries : list TransactionWalEntry;
  b_intents : list OutboxIntent;
}.

(** Its redo entries are data operations. *)
Definition batch_plain (b : batch) : Prop :=
  Forall (fun e => plain_op (we_op_type e) = true) (b_entries b).

(** Only the commit record ends the batch. *)
Lemma no_terminator b k ies :
  batch_plain b -> intent_entries intent_to_vec (b_tx b) k (b_intents b) = Ok ies ->
  Forall (fun e => we_op_type e <> OpTransactionCommit /\ we_op_type e <> OpTransactionAbort)
    (b_entries b ++ ies).
Proof.
  intros Hp Hi. apply Forall_app. split.
  - eapply Forall_impl; [exact Hp|]. intros e He. cbv beta in He. by destruct (we_op_type e).
  - eapply Forall_impl; [by eapply intent_entries_ops|]. intros e He. by rewrite He.
Qed.

Lemma build_ok b w w' es :
  build (b_tx b) (b_entries b) (b_intents b) w = (w', Ok es) ->
  w' = w /\ exists ies c bytes,
    intent_entries intent_to_vec (b_tx b) 0 (b_intents b) = Ok ies /\
    es = b_entries b ++ ies ++ [mkWalEntry OpTransactionCommit 0 bytes (Some (b_tx b)) None] /\
    commit_to_vec c = Some bytes /\
    c = mkCommit WAL_SYNC_WIRE_VERSION (b_tx b) (Z.of_nat (length (b_intents b)))
      (batch_checksum crc32 (b_entries b ++ ies)) (first_sequence_of (b_entries b))
      (Z.of_nat (length (b_entries b)) mod 2 ^ 32).
Proof.
  unfold build_transaction_entries, st_bind, check_poisoned, st_lift. intros Hb.
  destruct (w_poisoned w); [done|].
  destruct (intent_entries intent_to_vec (b_tx b) 0 (b_intents b)) as [ies|] eqn:Ei; [|done].
  case_decide; [done|]. simpl in Hb.
  destruct (commit_to_vec _) as [bytes|] eqn:Ec; [|done].
  unfold st_ret in Hb. injection Hb as <- <-. split; [done|].
  eexists ies, _, bytes. rewrite <- app_assoc. split; [done|]. split; [done|]. split; [exact Ec|done].
Qed.

(** The transaction recovery makes of a batch's entries. *)
Definition recovered (b : batch) (ps : list ParsedWalEntry) : CommittedWalTransaction :=
  mkCommitted (b_tx b) (match last ps with Some p => pe_lsn p | None => 0 end)
    (take (length (b_entries b)) ps) (b_intents b).

Lemma collect_batch b w w' es ps rest committed :
  build (b_tx b) (b_entries b) (b_intents b) w = (w', Ok es) -> batch_plain b ->
  Forall2 matches es ps ->
  collect (ps ++ rest) [] committed = collect rest [] (committed ++ [recovered b ps]).
Proof.
  intros Hb Hplain Hm. apply build_ok in Hb as (_ & ies & c & bytes & Hi & -> & Hbytes & Hc).
  apply Forall2_app_inv_l in Hm as (pr & ps1 & Hr & Hm & ->).
  apply Forall2_app_inv_l in Hm as (pi & ps2 & Hint & Hm & ->).
  apply Forall2_cons_inv_l in Hm as (pc & ps3 & (Hop & _ & Hp) & Hm & ->).
  apply Forall2_nil_inv_l in Hm as ->.
  destruct (split_intents _ _ _ _ _ Hi Hint) as (Hsi & Hcont & Hlen).
  pose proof (no_terminator _ _ _ Hplain Hi) as Hops.
  replace ((pr ++ pi ++ [pc]) ++ rest) with ((pr ++ pi) ++ [pc] ++ rest) by by rewrite <- !app_assoc.
  rewrite (collect_pending (b_entries b ++ ies)); [|by apply Forall2_app|done].
  cbn [app collect_loop]. rewrite Hop. cbn [we_op_type]. rewrite Hp. cbn [we_payload].
  rewrite (law_commit Hlaws _ _ Hbytes). rewrite Hc. unfold close_batch, validate_commit. cbn [tc_wire_version].
  unfold validate_wire_version. rewrite decide_True by done.
  unfold parsed_batch_checksum. rewrite (batch_input_matches (b_entries b ++ ies)) by by apply Forall2_app.
  cbn [tc_batch_checksum tc_transaction_id intent_count entry_count].
  unfold batch_checksum. rewrite decide_False by (intros Hx; by apply Hx).
  rewrite (split_redo _ (b_entries b) _ _ [] (b_intents b)) by done.
  rewrite (sort_contiguous 0) by done. rewrite decide_False by (intros Hx; by apply Hx). rewrite Hcont. simpl negb.
  rewrite app_nil_r, <- (Forall2_length _ _ _ Hr). cbn iota.
  rewrite decide_False by (intros Hx; by apply Hx). do 3 f_equal. unfold recovered.
  rewrite !app_assoc, last_snoc, <- app_assoc, (Forall2_length _ _ _ Hr), take_app_length. done.
Qed.

(** ** What the writer puts on disk *)

Abbreviation rec_ok' := (rec_ok crc32 zstd_decode).
Abbreviation chained' := (chained crc32 zstd_decode).

Lemma compress_ok c d p c' :
  compress zstd_encode level c d = Ok (p, c') ->
  decompress_payload zstd_decode p c' = Ok d /\ (length p <= length d)%nat.
Proof.
  unfold compress. destruct c; [by intros [= <- <-]|]. case_decide; [by intros [= <- <-]|].
  destruct (zstd_encode level d) as [z|] eqn:Ez; [|done].
  case_decide; intros [= <- <-]; [|done]. simpl. rewrite (law_zstd Hlaws _ _ _ Ez). split; [done|lia].
Qed.

(** The header of a record with a payload that fits. *)
Lemma build_header_ok op ts prev rt p c d w :
  0 <= ts < 2 ^ 64 -> 0 <= prev -> Z.of_nat (length p) <= MAX_PAYLOAD_LENGTH ->
  prev + Z.of_nat (WAL_HEADER_SIZE + length p) < 2 ^ 64 ->
  decompress_payload zstd_decode p c = Ok d ->
  let h := build_wal_header crc32 op ts prev (prev + Z.of_nat (WAL_HEADER_SIZE + length p)) rt p c w in
  rec_ok' prev (h, p, d) /\ h_record_type h = rt /\ h_op_type h = op_as_u8 op /\
  h_timestamp h = ts.
Proof.
  intros Hts Hprev Hmax Hlsn Hdec. cbv zeta.
  assert (Hmod : Z.of_nat (length p) mod 2 ^ 32 = Z.of_nat (length p))
    by (apply Z.mod_small; unfold MAX_PAYLOAD_LENGTH in Hmax; lia).
  unfold build_wal_header. rewrite Hmod.
  set (h0 := Header.with_compression c _).
  set (h := if checksum_enabled (w_config w) then _ else h0).
  assert (Hf : h_length h = Z.of_nat (length p) /\ h_op_type h = op_as_u8 op /\
    h_record_type h = rt /\ h_timestamp h = ts /\ h_prev_lsn h = prev /\
    h_lsn h = prev + Z.of_nat (WAL_HEADER_SIZE + length p) /\ h_flags h = flag_byte c).
  { subst h h0. by destruct (checksum_enabled (w_config w)), c. }
  destruct Hf as (F1 & F2 & F3 & F4 & F5 & F6 & F7).
  pose proof (op_as_u8_range op). unfold WAL_HEADER_SIZE in *.
  assert (Hck : h_checksum h = 0 \/ h_checksum h = crc32 (Header.checksum_input h p)).
  { subst h. destruct (checksum_enabled (w_config w)); [by right|by left]. }
  split; [|done]. split; cbn [fst snd]; rewrite ?F1, ?F5, ?F6; try done.
  - split; rewrite ?F1, ?F2, ?F4, ?F5, ?F6, ?F7; unfold MAX_PAYLOAD_LENGTH in *; try lia.
    + destruct c; simpl; lia.
    + destruct Hck as [->| ->]; [lia|apply (law_crc Hlaws)].
  - by rewrite F2, op_try_from_as_u8.
  - unfold decode_record_payload, Header.is_compressed, Header.compression. rewrite F7.
    destruct c; simpl in *; [by injection Hdec as ->|done].
Qed.

Lemma ok_eq {A E} (a b : A) : @Ok A E a = Ok b -> a = b.
Proof. congruence. Qed.

(** One entry reference that fits a record. *)
Definition ref_ok (r : WalOpType * Timestamp * list Z) : Prop :=
  0 <= r.1.2 < 2 ^ 64 /\ Z.of_nat (length r.2) <= MAX_PAYLOAD_LENGTH.

Definition ref_matches (ref : WalOpType * Timestamp * list Z) (r : rec) : Prop :=
  is_full r /\ h_op_type r.1.1 = op_as_u8 ref.1.1 /\ h_timestamp r.1.1 = ref.1.2 /\ r.2 = ref.2.

Lemma batch_records_ok refs lsn w rs :
  batch_records crc32 zstd_encode level refs lsn w = Ok rs -> Forall ref_ok refs -> 0 <= lsn ->
  lsn + Z.of_nat (length (record_bytes rs)) < 2 ^ 64 ->
  exists recs, record_bytes rs = recs_bytes recs /\ chained' lsn recs /\ Forall2 ref_matches refs recs.
Proof.
  revert lsn rs. induction refs as [|[[op ts] d] refs IH]; intros lsn rs; cbn [batch_records].
  - intros [= <-] _ _ _. by exists [].
  - destruct (compress zstd_encode level (cfg_compression (w_config w)) d) as [[p c]|] eqn:Ec; [|done].
    destruct (compress_ok _ _ _ _ Ec) as [Hdec Hle].
    destruct (batch_records _ _ _ refs _ w) as [rs1|] eqn:Eb; [|done].
    intros Hrs [[Hts Hmax] Hf]%Forall_cons Hlsn Hbound. cbn [fst snd] in *.
    apply ok_eq in Hrs as <-. assert (Hsplit : record_bytes ((build_wal_header crc32 op ts lsn
      (lsn + Z.of_nat (WAL_HEADER_SIZE + length p)) RFull p c w, p) :: rs1) =
      rec_bytes (build_wal_header crc32 op ts lsn (lsn + Z.of_nat (WAL_HEADER_SIZE + length p))
        RFull p c w, p, d) ++ record_bytes rs1) by done.
    rewrite Hsplit, length_app, length_rec_bytes in Hbound. unfold rec_len in Hbound. cbn [fst snd] in Hbound.
    destruct (build_header_ok op ts lsn RFull p c d w) as (Hok & Hrt & Hop & Ht); [done..|lia|lia|done|].
    destruct (IH _ _ Eb Hf) as (recs & Hb & Hch & Hm); [lia|lia|].
    eexists (_ :: recs). rewrite recs_bytes_cons, Hsplit, Hb. split; [done|]. split.
    + split; [exact Hok|]. by rewrite (ro_lsn _ _ _ _ Hok).
    + constructor; [|done]. done.
Qed.

(** The file holds the records [rs], and zeros after them. *)
Record winv (fsl : Lsn) (hdr : list Z) (rs : list rec) (w : LocalWalWriter) : Prop := {
  wi_file : exists z, w_file w = Some (hdr ++ recs_bytes rs ++ replicate z 0);
  wi_hdr : length hdr = WAL_FILE_HEADER_SIZE;
  wi_used : w_file_used w = Z.of_nat (WAL_FILE_HEADER_SIZE + length (recs_bytes rs));
  wi_lsn : w_current_lsn w = end_lsn fsl rs;
  wi_chain : chained' fsl rs;
  wi_step : 0 < truncate_size (w_config w);
  wi_start : 0 <= fsl;
  wi_start_lsn : w_file_start_lsn w = fsl;
  wi_header : exists h, w_file_header w = Some h /\ hdr = FileHeader.as_bytes h /\
    FileHeader.wf h /\ FileHeader.is_valid h = true /\ fh_start_lsn h = fsl;
}.

Lemma set_len_grow a z n :
  (length a <= n)%nat -> set_len n (a ++ replicate z 0) = a ++ replicate (n - length a) 0.
Proof.
  intros Hn. unfold set_len. rewrite take_app, (take_ge a), take_replicate, length_app,
    length_replicate by lia. rewrite <- app_assoc, <- replicate_add. do 2 f_equal. lia.
Qed.

Lemma write_at_end a z data :
  write_at (length a) data (a ++ replicate z 0) = a ++ data ++ replicate (z - length data) 0.
Proof.
  unfold write_at. rewrite take_app_length, length_app.
  replace (replicate (length a - (length a + length (replicate z 0))) 0) with (@nil Z)
    by (rewrite (proj2 (Nat.sub_0_le _ _)); [done|lia]).
  rewrite drop_app, drop_ge, app_nil_l, app_nil_l, drop_replicate by lia. do 3 f_equal. lia.
Qed.

(** The file write of a batch. *)
Lemma write_at_used fsl hdr rs w io data w1 w2 :
  winv fsl hdr rs w -> ensure_room io (Z.of_nat (length data)) w = (w1, Ok tt) ->
  write_bytes io (w_file_used w1) data w1 = (w2, Ok tt) ->
  exists z, w_file w2 = Some (hdr ++ (recs_bytes rs ++ data) ++ replicate z 0) /\
    w_file_used w2 = w_file_used w /\ w_current_lsn w2 = w_current_lsn w /\
    w_config w2 = w_config w /\ w_file_header w2 = w_file_header w /\
    w_file_start_lsn w2 = w_file_start_lsn w.
Proof.
  intros [(z & Hfile) Hh Hu Hl Hc Hs Hst _ _] Hroom Hw.
  assert (H1 : exists z1, w_file w1 = Some ((hdr ++ recs_bytes rs) ++ replicate z1 0) /\
    w_file_used w1 = w_file_used w /\ w_current_lsn w1 = w_current_lsn w /\
    w_config w1 = w_config w /\ w_file_header w1 = w_file_header w /\
    w_file_start_lsn w1 = w_file_start_lsn w).
  { unfold ensure_room in Hroom. rewrite Hfile in Hroom. case_decide as Hd.
    - destruct (wio_set_len io); [|done]. injection Hroom as <-. cbn. rewrite app_assoc, set_len_grow.
      + by eexists.
      + rewrite length_app, Hh. pose proof (Z.mul_succ_div_gt (w_file_used w + Z.of_nat (length data))
          (truncate_size (w_config w)) Hs). lia.
    - injection Hroom as <-. exists z. by rewrite <- app_assoc. }
  destruct H1 as (z1 & Hf1 & Hu1 & Hl1 & Hc1 & Hh1 & Hsl1). unfold write_bytes in Hw. rewrite Hf1 in Hw.
  destruct (negb (wio_seek io)); [done|]. destruct (wio_write io); [done|]. injection Hw as <-.
  cbn. rewrite Hu1, Hu, Nat2Z.id.
  replace (WAL_FILE_HEADER_SIZE + length (recs_bytes rs))%nat with (length (hdr ++ recs_bytes rs))
    by (by rewrite length_app, Hh).
  rewrite write_at_end. exists (z1 - length data)%nat. by rewrite <- !app_assoc.
Qed.

Lemma write_batch_ok fsl hdr rs io refs w w' lsn :
  winv fsl hdr rs w -> Forall ref_ok refs ->
  write_batch_entries crc32 zstd_encode level io refs w = (w', Ok lsn) -> lsn < 2 ^ 64 ->
  exists recs, winv fsl hdr (rs ++ recs) w' /\ lsn = w_current_lsn w' /\
    Forall2 ref_matches refs recs.
Proof.
  intros Hinv Hf Hw Hlsn. pose proof Hinv as [Hfile Hh Hu Hl Hc Hs Hst Hsl Hhd].
  unfold write_batch_entries in Hw.
  apply st_bind_ok in Hw as (? & ? & [= <- <-] & Hw).
  apply st_bind_ok in Hw as (? & brs & Hb & Hw). unfold st_lift in Hb. injection Hb as <- Hb.
  apply st_bind_ok in Hw as (w1 & [] & Hroom & Hw).
  apply st_bind_ok in Hw as (? & ? & [= <- <-] & Hw).
  apply st_bind_ok in Hw as (w2 & [] & Hbytes & Hw).
  apply st_bind_ok in Hw as (w3 & [] & Hm & Hw). unfold st_modify in Hm. injection Hm as <-.
  unfold st_bind, st_get, st_ret in Hw. injection Hw as <- <-.
  destruct (write_at_used _ _ _ _ _ _ _ _ Hinv Hroom Hbytes) as (z & Hf2 & Hu2 & Hl2 & Hc2 & Hhd2 & Hsl2).
  cbn in Hlsn. rewrite Hl2, Hl in Hlsn. rewrite Hl in Hb.
  pose proof (end_lsn_bytes _ _ _ _ Hc) as Hend.
  destruct (batch_records_ok refs (end_lsn fsl rs) w brs Hb Hf) as (recs & Hrb & Hch & Hmt);
    [lia|lia|].
  exists recs. split; [|done]. rewrite Hrb in Hf2. split; cbn [w_file w_file_used w_current_lsn w_config w_file_header w_file_start_lsn set_lsn set_used]; try done.
  - exists z. by rewrite recs_bytes_app.
  - rewrite Hu2, Hu, recs_bytes_app, length_app, Hrb. lia.
  - rewrite Hl2, Hl, end_lsn_app, (end_lsn_bytes _ _ _ _ Hch), Hrb. done.
  - by apply chained_app.
  - by rewrite Hc2.
  - by rewrite Hsl2.
  - by rewrite Hhd2.
Qed.

Lemma winv_frame fsl hdr rs w w' :
  winv fsl hdr rs w -> w_file w' = w_file w -> w_file_used w' = w_file_used w ->
  w_current_lsn w' = w_current_lsn w -> w_config w' = w_config w ->
  w_file_header w' = w_file_header w -> w_file_start_lsn w' = w_file_start_lsn w ->
  winv fsl hdr rs w'.
Proof. intros [] H1 H2 H3 H4 H5 H6. split; rewrite ?H1, ?H2, ?H3, ?H4, ?H5, ?H6; done. Qed.

Lemma write_batch_lsn io refs w w' lsn :
  write_batch_entries crc32 zstd_encode level io refs w = (w', Ok lsn) -> lsn = w_current_lsn w'.
Proof.
  unfold write_batch_entries. intros Hw. do 6 apply st_bind_ok in Hw as (? & ? & ? & Hw).
  apply st_bind_ok in Hw as (? & ? & [= <- <-] & Hw). by injection Hw as <- <-.
Qed.

Lemma append_batch_ok fsl hdr rs io refs d w w' :
  winv fsl hdr rs w -> Forall ref_ok refs ->
  append_batch_with_durability crc32 zstd_encode level io refs d w = (w', Ok tt) ->
  w_current_lsn w' < 2 ^ 64 ->
  exists recs, winv fsl hdr (rs ++ recs) w' /\ Forall2 ref_matches refs recs.
Proof.
  intros Hinv Hf Ha Hlsn. unfold append_batch_with_durability in Ha.
  apply st_bind_ok in Ha as (w1 & [] & Hp & Ha). injection Hp as <- Hp.
  apply st_bind_ok in Ha as (w2 & [] & Ho & Ha). injection Ho as <- Ho.
  apply st_bind_ok in Ha as (w3 & lsn & Hw & Ha).
  assert (Hfr : w_file w' = w_file w3 /\ w_file_used w' = w_file_used w3 /\
    w_current_lsn w' = w_current_lsn w3 /\ w_config w' = w_config w3 /\
    w_file_header w' = w_file_header w3 /\ w_file_start_lsn w' = w_file_start_lsn w3).
  { destruct d; unfold st_ret in Ha; simplify_eq; try done.
    apply st_bind_ok in Ha as (? & ? & [= <- <-] & Ha).
    apply st_bind_ok in Ha as (w4 & [] & Hs & Ha).
    assert (w4 = w3) as ->.
    { destruct (w_group_commit w3); [by injection Hs|].
      destruct (w_file w3); [|done]. destruct (wio_sync io); [by injection Hs|done]. }
    injection Ha as <-. done. }
  destruct Hfr as (F1 & F2 & F3 & F4 & F5 & F6). rewrite F3 in Hlsn.
  pose proof (write_batch_lsn _ _ _ _ _ Hw) as Hl3.
  destruct (write_batch_ok _ _ _ _ _ _ _ _ Hinv Hf Hw) as (recs & Hi & _ & Hm); [lia|].
  exists recs. split; [|done]. by eapply winv_frame.
Qed.

(** ** The history of a segment *)

(** A batch the entry types of which fit. *)
Record batch_ok (b : batch) : Prop := {
  bo_plain : batch_plain b;
  bo_entries : Forall (fun e => ref_ok (entry_ref e)) (b_entries b);
  bo_intents : forall i bytes, i ∈ b_intents b -> intent_to_vec i = Some bytes ->
    Z.of_nat (length bytes) <= MAX_PAYLOAD_LENGTH;
}.

Lemma intent_refs_ok tx k ints ies :
  intent_entries intent_to_vec tx k ints = Ok ies ->
  (forall i bytes, i ∈ ints -> intent_to_vec i = Some bytes ->
    Z.of_nat (length bytes) <= MAX_PAYLOAD_LENGTH) ->
  Forall (fun e => ref_ok (entry_ref e)) ies.
Proof.
  revert k ies. induction ints as [|i ints IH]; intros k ies; simpl; [by intros [= <-]|].
  destruct (validate_intent i); [|done]. case_decide; [done|]. case_decide; [done|].
  destruct (intent_to_vec i) as [b|] eqn:Eb; [|done].
  destruct (intent_entries intent_to_vec tx (k + 1) ints) as [es|] eqn:Ee; [|done].
  intros [= <-] Hb. constructor.
  - split; cbn; [lia|]. eapply Hb; [|done]. set_solver.
  - eapply IH; [done|]. intros j c Hj. apply Hb. set_solver.
Qed.

Lemma build_refs_ok b w w' es :
  build (b_tx b) (b_entries b) (b_intents b) w = (w', Ok es) -> batch_ok b ->
  Forall ref_ok (entry_ref <$> es).
Proof.
  intros Hb [Hp He Hi]. apply build_ok in Hb as (_ & ies & c & bytes & Hies & -> & Hc & _).
  rewrite Forall_fmap, !Forall_app. split; [done|]. split; [by eapply intent_refs_ok|].
  constructor; [|done]. split; cbn; [lia|]. by eapply (law_commit_len Hlaws).
Qed.

(** The records of one appended batch. *)
Definition group_of (bl : batch * CommitLsn) (g : list rec) : Prop :=
  batch_plain bl.1 /\ g <> [] /\ end_lsn 0 g = bl.2 /\
  exists w w' es, build (b_tx bl.1) (b_entries bl.1) (b_intents bl.1) w = (w', Ok es) /\
    Forall2 ref_matches (entry_ref <$> es) g.

(** What can happen to a segment: it is opened, transactions are appended with
    or without waiting for them, it is synced, its header is rewritten by a
    checkpoint.  The transactions are listed with the LSN each append
    returned. *)
Inductive history : LocalWalWriter -> list (batch * CommitLsn) -> Prop :=
| h_open io cfg salt1 salt2 created thread parsed w :
    0 <= salt1 < 2 ^ 32 -> 0 <= salt2 < 2 ^ 32 -> 0 <= created < 2 ^ 64 ->
    0 <= thread < 2 ^ 32 -> 0 <= default 0 parsed < 2 ^ 64 -> 0 < truncate_size cfg ->
    open io salt1 salt2 created thread parsed (with_config cfg) = (w, Ok tt) ->
    history w []
| h_append io d b w bs w' lsn :
    history w bs -> batch_ok b ->
    append_transaction_batch_with_durability crc32 zstd_encode level intent_to_vec commit_to_vec
      io (b_tx b) (b_entries b) (b_intents b) d w = (w', Ok lsn) ->
    lsn < 2 ^ 64 -> history w' (bs ++ [(b, lsn)])
| h_append_no_wait io b w bs w' lsn :
    history w bs -> batch_ok b ->
    append_transaction_batch_no_wait crc32 zstd_encode level intent_to_vec commit_to_vec
      io (b_tx b) (b_entries b) (b_intents b) w = (w', Ok lsn) ->
    lsn < 2 ^ 64 -> history w' (bs ++ [(b, lsn)])
| h_sync io w bs w' r :
    history w bs -> sync_via_file io w = (w', r) -> history w' bs
| h_checkpoint io seq w bs w' :
    history w bs -> 0 <= seq < 2 ^ 64 -> set_checkpoint_seq io seq w = (w', Ok tt) ->
    history w' bs.

(** The segment's file is its batches, one group of records for each. *)
Definition segment_of (w : LocalWalWriter) (bs : list (batch * CommitLsn)) : Prop :=
  exists hdr gs, winv (w_file_start_lsn w) hdr (mjoin gs) w /\ Forall2 group_of bs gs.

Lemma length_fh_bytes h : FileHeader.wf h -> length (FileHeader.as_bytes h) = WAL_FILE_HEADER_SIZE.
Proof.
  intros Hw. unfold FileHeader.as_bytes. rewrite !length_app, !length_le_bytes.
  rewrite (FileHeader.wf_reserved _ Hw). done.
Qed.

Lemma end_lsn_nonempty a b g : g <> [] -> end_lsn a g = end_lsn b g.
Proof. by destruct g. Qed.

Lemma persist_ok io h reset w w' f :
  persist_file_header io h reset w = (w', Ok tt) -> w_file w = Some f ->
  w' = (if reset then set_used (Z.of_nat WAL_FILE_HEADER_SIZE) else id)
    (set_header h (set_file (Some (write_at 0 (FileHeader.as_bytes h) f)) w)).
Proof.
  unfold persist_file_header. intros Hp Hf.
  apply st_bind_ok in Hp as (w1 & [] & Hw & Hp).
  apply st_bind_ok in Hp as (w2 & [] & Hs & Hp). destruct (wio_sync io); [|done]. injection Hs as <-.
  apply st_bind_ok in Hp as (w3 & [] & Hm & Hp). unfold st_modify in Hm. injection Hm as <-.
  unfold write_bytes in Hw. rewrite Hf in Hw. destruct (negb (wio_seek io)); [done|].
  destruct (wio_write io); [done|]. injection Hw as <-.
  destruct reset; unfold st_modify, st_ret in Hp; by injection Hp as <-.
Qed.

(** The header of a fresh segment. *)
Lemma new_header_ok salt1 salt2 created thread lsn enabled :
  0 <= salt1 < 2 ^ 32 -> 0 <= salt2 < 2 ^ 32 -> 0 <= created < 2 ^ 64 ->
  0 <= thread < 2 ^ 32 -> 0 <= lsn < 2 ^ 64 ->
  let h := FileHeader.with_checksum_enabled enabled
    (FileHeader.new salt1 salt2 created thread 0 lsn) in
  FileHeader.wf h /\ FileHeader.is_valid h = true /\ fh_start_lsn h = lsn.
Proof.
  intros. cbv zeta. split; [|done].
  split; cbn; try lia; try done; unfold WAL_MAGIC, WAL_VERSION; lia.
Qed.

Lemma history_open io cfg salt1 salt2 created thread parsed w :
  0 <= salt1 < 2 ^ 32 -> 0 <= salt2 < 2 ^ 32 -> 0 <= created < 2 ^ 64 ->
  0 <= thread < 2 ^ 32 -> 0 <= default 0 parsed < 2 ^ 64 -> 0 < truncate_size cfg ->
  open io salt1 salt2 created thread parsed (with_config cfg) = (w, Ok tt) -> segment_of w [].
Proof.
  intros H1 H2 H3 H4 H5 H6 Ho. unfold open in Ho.
  apply st_bind_ok in Ho as (? & ? & [= <- <-] & Ho).
  apply st_bind_ok in Ho as (? & ? & [= <- <-] & Ho). cbn [w_is_open with_config] in Ho.
  apply st_bind_ok in Ho as (w1 & [] & Hm & Ho). unfold st_modify in Hm. injection Hm as Hw1.
  assert (Hl : w_current_lsn w1 = default 0 parsed /\ w_config w1 = cfg /\ w_checkpoint_seq w1 = 0).
  { subst w1. by destruct parsed. }
  destruct Hl as (Hl & Hc & Hsq). clear Hw1.
  apply st_bind_ok in Ho as (w2 & [] & Hs & Ho). destruct (wio_set_len io); [|done].
  injection Hs as <-.
  apply st_bind_ok in Ho as (w3 & [] & Hm & Ho). unfold st_modify in Hm. injection Hm as Hw3.
  assert (Hf3 : w_file w3 = Some (set_len (Z.to_nat (truncate_size cfg)) [])).
  { subst w3. cbn. by rewrite Hc. }
  assert (Hl3 : w_current_lsn w3 = default 0 parsed /\ w_config w3 = cfg /\ w_checkpoint_seq w3 = 0)
    by by subst w3.
  clear Hw3. destruct Hl3 as (Hl3 & Hc3 & Hsq3).
  unfold write_file_header in Ho. apply st_bind_ok in Ho as (? & ? & [= <- <-] & Ho).
  rewrite Hl3, Hc3, Hsq3 in Ho.
  destruct (new_header_ok salt1 salt2 created thread (default 0 parsed) (checksum_enabled cfg)
    H1 H2 H3 H4 H5) as (Hwf & Hv & Hst).
  set (h := FileHeader.with_checksum_enabled _ _) in *.
  pose proof (length_fh_bytes h Hwf) as Hlen.
  apply (persist_ok _ _ _ _ _ _) with (2 := Hf3) in Ho. cbn iota in Ho. subst w.
  exists (FileHeader.as_bytes h), []. split; [|done].
  cbn [w_file_start_lsn set_used set_header]. rewrite Hst. split.
  - cbn [w_file set_used set_header set_file]. unfold set_len. rewrite take_nil.
    rewrite (write_at_end [] _ (FileHeader.as_bytes h)). by eexists.
  - done.
  - done.
  - cbn [w_current_lsn set_used set_header set_file]. by rewrite Hl3.
  - done.
  - cbn [w_config set_used set_header set_file]. by rewrite Hc3.
  - lia.
  - done.
  - exists h. done.
Qed.

Lemma segment_append fsl w' bs b recs w0 w1 es hdr gs lsn :
  Forall2 group_of bs gs -> winv fsl hdr (mjoin gs ++ recs) w' ->
  build (b_tx b) (b_entries b) (b_intents b) w0 = (w1, Ok es) -> batch_plain b ->
  Forall2 ref_matches (entry_ref <$> es) recs -> lsn = w_current_lsn w' ->
  segment_of w' (bs ++ [(b, lsn)]).
Proof.
  intros Hg Hinv' Hb Hp Hm ->. exists hdr, (gs ++ [recs]). rewrite (wi_start_lsn _ _ _ _ Hinv'). split.
  - rewrite join_app. cbn [mjoin list_join]. by rewrite app_nil_r.
  - apply Forall2_app; [done|]. constructor; [|done].
    assert (Hne : recs <> []).
    { apply build_ok in Hb as (_ & ies & c & bytes & _ & -> & _). intros ->.
      apply Forall2_nil_inv_r, fmap_nil_inv in Hm. by destruct (b_entries b), ies. }
    split; [done|]. split; [done|]. split; [|by eauto 10].
    rewrite (wi_lsn _ _ _ _ Hinv'), end_lsn_app. by apply end_lsn_nonempty.
Qed.

Lemma segment_frame w w' bs :
  segment_of w bs -> w_file w' = w_file w -> w_file_used w' = w_file_used w ->
  w_current_lsn w' = w_current_lsn w -> w_config w' = w_config w ->
  w_file_header w' = w_file_header w -> w_file_start_lsn w' = w_file_start_lsn w ->
  segment_of w' bs.
Proof.
  intros (hdr & gs & Hi & Hg) ? ? ? ? ? Hs. exists hdr, gs. split; [|done]. rewrite Hs.
  by eapply winv_frame.
Qed.

(** A checkpoint rewrites the header in place. *)
Lemma segment_checkpoint io seq w w' bs :
  segment_of w bs -> 0 <= seq < 2 ^ 64 -> set_checkpoint_seq io seq w = (w', Ok tt) ->
  segment_of w' bs.
Proof.
  intros (hdr & gs & Hi & Hg) Hseq Hc. exists (FileHeader.as_bytes
    (set_header_seq seq (default (FileHeader.new 0 0 0 0 0 0) (w_file_header w)))), gs.
  destruct (wi_header _ _ _ _ Hi) as (h & Hh & Hhdr & Hwf & Hv & Hst).
  destruct (wi_file _ _ _ _ Hi) as (z & Hf). rewrite Hh. cbn [default from_option id].
  assert (Hwf' : FileHeader.wf (set_header_seq seq h)) by (destruct Hwf; by split).
  unfold set_checkpoint_seq in Hc. apply st_bind_ok in Hc as (w1 & [] & Hm & Hc).
  unfold st_modify in Hm. injection Hm as <-.
  apply st_bind_ok in Hc as (? & ? & [= <- <-] & Hc). cbn [w_file set_seq] in Hc. rewrite Hf in Hc.
  unfold refresh_file_header in Hc. apply st_bind_ok in Hc as (? & ? & [= <- <-] & Hc).
  cbn [w_file w_file_header w_checkpoint_seq set_seq] in Hc. rewrite Hf, Hh in Hc.
  pose proof (persist_ok _ _ _ _ _ _ Hc Hf) as ->. cbn iota. unfold id.
  split; [|done]. destruct Hi as [_ Hl Hu Hlsn Hch Hstep H0 Hs0 _].
  cbn [w_file_start_lsn set_header set_file set_seq]. cbn [fh_start_lsn set_header_seq].
  rewrite Hst. split; try done.
  - exists z. cbn [w_file set_header set_file]. f_equal. unfold write_at.
    rewrite Nat.add_0_l, length_fh_bytes, <- Hl, drop_app_length by done. done.
  - by apply length_fh_bytes.
  - by exists (set_header_seq seq h).
Qed.

Lemma history_segment w bs : history w bs -> segment_of w bs.
Proof.
  induction 1 as [io cfg ? ? ? ? ? w H1 H2 H3 H4 H5 H6 Ho|io d b w bs w' lsn _ IH Hok Ha Hlsn
    |io b w bs w' lsn _ IH Hok Ha Hlsn|io w bs w' r _ IH Hs|io seq w bs w' _ IH Hseq Hc].
  - exact (history_open _ _ _ _ _ _ _ _ H1 H2 H3 H4 H5 H6 Ho).
  - destruct IH as (hdr & gs & Hi & Hg). unfold append_transaction_batch_with_durability in Ha.
    apply st_bind_ok in Ha as (w1 & es & Hb & Ha). pose proof (build_ok _ _ _ _ Hb) as [-> _].
    apply st_bind_ok in Ha as (w2 & [] & Hap & Ha). injection Ha as -> <-.
    destruct (append_batch_ok _ _ _ _ _ _ _ _ Hi (build_refs_ok _ _ _ _ Hb Hok) Hap Hlsn)
      as (recs & Hi' & Hm).
    by eapply segment_append; eauto using bo_plain.
  - destruct IH as (hdr & gs & Hi & Hg). unfold append_transaction_batch_no_wait in Ha.
    apply st_bind_ok in Ha as (w1 & es & Hb & Ha). pose proof (build_ok _ _ _ _ Hb) as [-> _].
    apply st_bind_ok in Ha as (w2 & l & Hap & Ha). injection Ha as -> <-.
    pose proof (write_batch_lsn _ _ _ _ _ Hap) as Hl2. rewrite <- Hl2 in Hlsn.
    destruct (write_batch_ok _ _ _ _ _ _ _ _ Hi (build_refs_ok _ _ _ _ Hb Hok) Hap Hlsn)
      as (recs & Hi' & Hl & Hm).
    by eapply segment_append; eauto using bo_plain.
  - eapply segment_frame; [exact IH|..]; revert Hs;
      unfold sync_via_file, st_bind, check_poisoned, st_get, st_lift, st_modify, st_ret;
      repeat case_match; intros; simplify_eq; done.
  - by eapply segment_checkpoint.
Qed.

(** ** Cutting the file *)

(** Cutting a sequence of groups: complete groups, then a strict prefix of the
    next one. *)
Lemma cut_join {A} (gs : list (list A)) k :
  (k <= length (mjoin gs))%nat -> Forall (fun g => g <> []) gs ->
  exists i m, (i <= length gs)%nat /\
    take k (mjoin gs) = mjoin (take i gs) ++ take m (default [] (gs !! i)) /\
    k = (length (mjoin (take i gs)) + m)%nat /\
    (m < length (default [] (gs !! i)) \/ i = length gs /\ m = 0)%nat.
Proof.
  revert k. induction gs as [|g gs IH]; intros k Hk Hne.
  - exists 0%nat, 0%nat. simpl in *. rewrite take_nil. split; [done|]. split; [done|].
    split; [lia|]. by right.
  - apply Forall_cons in Hne as [Hg Hne]. change (mjoin (g :: gs)) with (g ++ mjoin gs) in *.
    rewrite length_app in Hk. destruct (decide (k < length g)%nat) as [Hlt|Hge].
    + exists 0%nat, k. split; [lia|]. split; [by rewrite take_app_le by lia|].
      split; [done|]. by left.
    + destruct (IH (k - length g)%nat ltac:(lia) Hne) as (i & m & Hi & Ht & Hk' & Hm).
      exists (S i), m. split; [simpl; lia|]. cbn [firstn lookup list_lookup].
      change (mjoin (g :: take i gs)) with (g ++ mjoin (take i gs)).
      rewrite take_app, (take_ge g), Ht, length_app by lia. split; [by rewrite app_assoc|].
      split; [lia|]. destruct Hm as [Hm|[-> ->]]; [by left|by right].
Qed.

Lemma full_matches fsl off es g :
  Forall2 ref_matches (entry_ref <$> es) g -> Forall2 matches es (full_entries fsl off g).
Proof.
  revert off g. induction es as [|e es IH]; intros off g Hm.
  - by apply Forall2_nil_inv_l in Hm as ->.
  - rewrite fmap_cons in Hm. apply Forall2_cons_inv_l in Hm as (r & g' & Hr & Hm & ->).
    cbn [full_entries]. constructor; [|by apply IH]. destruct Hr as (_ & Hop & Hts & Hp).
    split; [|done]. unfold op_of. cbn [pe_header]. rewrite Hop. apply op_try_from_as_u8.
Qed.

Lemma group_full bl g : group_of bl g -> Forall is_full g.
Proof.
  intros (_ & _ & _ & w & w' & es & _ & Hm). remember (entry_ref <$> es) as l. clear Heql.
  induction Hm as [|? ? ? ? [? _] ? IH]; by constructor.
Qed.

Lemma groups_full bs gs : Forall2 group_of bs gs -> Forall is_full (mjoin gs).
Proof.
  induction 1 as [|bl g bs gs Hg _ IH]; [constructor|].
  change (mjoin (g :: gs)) with (g ++ mjoin gs). apply Forall_app. eauto using group_full.
Qed.

(** The LSN of the last entry. *)
Lemma last_full_lsn fsl off g prev :
  g <> [] -> (match last (full_entries fsl off g) with Some p => pe_lsn p | None => 0 end)
    = end_lsn prev g.
Proof.
  revert off prev. induction g as [|r g IH]; intros off prev Hne; [done|].
  destruct g as [|r' g]; [done|]. cbn [full_entries end_lsn].
  rewrite last_cons_cons. by apply (IH (off + rec_len r)%nat 0).
Qed.

(** What recovery knows of a committed batch. *)
Definition recovers (bl : batch * CommitLsn) (t : CommittedWalTransaction) : Prop :=
  ct_transaction_id t = b_tx bl.1 /\ ct_commit_lsn t = bl.2 /\ ct_intents t = b_intents bl.1 /\
  Forall2 matches (b_entries bl.1) (ct_redo_entries t).

Lemma collect_groups fsl bs gs off rest committed :
  Forall2 group_of bs gs ->
  exists txs, Forall2 recovers bs txs /\
    collect (full_entries fsl off (mjoin gs) ++ rest) [] committed =
    collect rest [] (committed ++ txs).
Proof.
  intros Hg. revert off committed. induction Hg as [|[b lsn] g bs gs Hbg _ IH]; intros off committed.
  - exists []. by rewrite app_nil_r.
  - destruct Hbg as (Hp & Hne & Hl & w & w' & es & Hb & Hm). cbn [fst snd] in *.
    change (mjoin (g :: gs)) with (g ++ mjoin gs). rewrite full_entries_app, <- app_assoc.
    pose proof (full_matches fsl off es g Hm) as Hma.
    rewrite (collect_batch _ _ _ _ _ _ _ Hb Hp Hma).
    destruct (IH (off + length (recs_bytes g))%nat (committed ++ [recovered b (full_entries fsl off g)]))
      as (txs & Htx & ->).
    exists (recovered b (full_entries fsl off g) :: txs). rewrite <- app_assoc. split; [|done].
    constructor; [|done]. unfold recovers, recovered. cbn.
    rewrite (last_full_lsn _ _ _ 0 Hne). split; [done|]. split; [done|]. split; [done|].
    apply build_ok in Hb as (_ & ies & c & bytes & _ & -> & _).
    apply Forall2_app_inv_l in Hma as (pr & ps & Hr & _ & ->).
    by rewrite (Forall2_length _ _ _ Hr), take_app_length.
Qed.

(** A batch without its last record commits nothing. *)
Lemma collect_partial fsl off bl g m committed :
  group_of bl g -> (m < length g)%nat ->
  collect (full_entries fsl off (take m g)) [] committed = Ok committed.
Proof.
  intros (Hp & Hne & Hl & w & w' & es & Hb & Hm) Hlt.
  apply build_ok in Hb as (_ & ies & c & bytes & Hi & -> & _).
  set (es0 := b_entries bl.1 ++ ies) in *. rewrite app_assoc in Hm. fold es0 in Hm.
  assert (Hlen : length g = S (length es0)).
  { rewrite <- (Forall2_length _ _ _ Hm), length_fmap, length_app. simpl. lia. }
  apply (Forall2_take _ _ _ m) in Hm. rewrite <- fmap_take, take_app_le in Hm by lia.
  apply (full_matches fsl off) in Hm.
  rewrite <- (app_nil_r (full_entries _ _ _)).
  rewrite (collect_pending _ _ _ _ _ Hm); [done|]. by eapply Forall_take, no_terminator.
Qed.

Abbreviation parse := (parse_wal_file_bytes crc32 zstd_decode).

Lemma scan_cut hdr rs z n fsl mode verify :
  length hdr = WAL_FILE_HEADER_SIZE -> chained' fsl rs -> (WAL_FILE_HEADER_SIZE <= n)%nat ->
  exists k r, (k <= length rs)%nat /\
    parse (take n (hdr ++ recs_bytes rs ++ replicate z 0)) fsl mode verify = Some (Ok r) /\
    all_entries r = all_entries (scanned fsl (take k rs)) /\
    (WAL_FILE_HEADER_SIZE + length (recs_bytes (take k rs)) <= n)%nat /\
    ((k < length rs)%nat ->
      (n < WAL_FILE_HEADER_SIZE + length (recs_bytes (take (S k) rs)))%nat).
Proof.
  intros Hh Hc Hn.
  destruct (decide (n <= WAL_FILE_HEADER_SIZE + length (recs_bytes rs))%nat) as [Hle|Hgt].
  - destruct (parse_cut _ _ hdr rs n fsl mode verify Hh Hc ltac:(lia))
      as (k & r & Hk & Hp & He & Hlo & Hhi).
    exists k, r. rewrite app_assoc, take_app_le by (rewrite length_app; lia).
    split; [done|]. split; [done|]. split; [done|]. split; [done|].
    intros Hlt. apply lookup_lt_is_Some in Hlt as [x Hx]. eauto.
  - exists (length rs), (scanned fsl rs). split; [done|].
    rewrite app_assoc, take_app, take_ge, <- app_assoc, take_replicate by (rewrite length_app; lia).
    split; [by apply parse_zero_tail|]. rewrite take_ge by done. split; [done|]. split; [lia|]. lia.
Qed.

Lemma recs_prefix a b : a `prefix_of` b -> (length (recs_bytes a) <= length (recs_bytes b))%nat.
Proof. intros [c ->]. rewrite recs_bytes_app, length_app. lia. Qed.

(** The end of a batch in the file, from the LSN its append returned. *)
Lemma group_end fsl bs gs j b lsn :
  Forall2 group_of bs gs -> chained' fsl (mjoin gs) -> bs !! j = Some (b, lsn) ->
  lsn = fsl + Z.of_nat (length (recs_bytes (mjoin (take (S j) gs)))).
Proof.
  intros Hg Hc Hj. destruct (Forall2_lookup_l _ _ _ _ _ Hg Hj) as (g & Hgj & _ & Hne & Hl & _).
  rewrite <- (take_drop (S j) gs), join_app, chained_app in Hc. destruct Hc as [Hc _].
  rewrite <- (end_lsn_bytes _ _ _ _ Hc), (take_S_r _ _ _ Hgj), join_app, end_lsn_app.
  cbn [mjoin list_join]. rewrite app_nil_r. cbn in Hl. rewrite <- Hl. by apply end_lsn_nonempty.
Qed.

(** What a cut leaves of the batches. *)
Lemma cut_batches fsl hdr bs gs w f n mode verify :
  winv fsl hdr (mjoin gs) w -> Forall2 group_of bs gs -> w_file w = Some f ->
  (WAL_FILE_HEADER_SIZE <= n)%nat ->
  exists i m r, (i <= length gs)%nat /\ parse (take n f) fsl mode verify = Some (Ok r) /\
    all_entries r = full_entries fsl WAL_FILE_HEADER_SIZE
      (mjoin (take i gs) ++ take m (default [] (gs !! i))) /\
    (m < length (default [] (gs !! i)) \/ i = length gs /\ m = 0)%nat /\
    (forall j b lsn, bs !! j = Some (b, lsn) ->
      (j < i)%nat <-> Z.of_nat WAL_FILE_HEADER_SIZE + (lsn - fsl) <= Z.of_nat n).
Proof.
  intros Hi Hg Hf Hn. destruct (wi_file _ _ _ _ Hi) as (z & Hf'). rewrite Hf in Hf'.
  injection Hf' as ->. pose proof (wi_chain _ _ _ _ Hi) as Hc.
  destruct (scan_cut hdr (mjoin gs) z n fsl mode verify (wi_hdr _ _ _ _ Hi) Hc Hn)
    as (k & r & Hk & Hp & He & Hlo & Hhi).
  assert (Hne : Forall (fun g : list rec => g <> []) gs).
  { clear -Hg. induction Hg as [|? ? ? ? (_ & ? & _)]; by constructor. }
  destruct (cut_join gs k Hk Hne) as (i & m & Hil & Ht & Hkm & Hm).
  exists i, m, r. split; [done|]. split; [done|]. split; [|split; [done|]].
  { rewrite He. unfold scanned. rewrite <- Ht.
    assert (Hfull : Forall is_full (take k (mjoin gs))) by by eapply Forall_take, groups_full.
    destruct (accept_all_full fsl _ (scan_from fsl WAL_FILE_HEADER_SIZE) Hfull) as [-> _]. done. }
  intros j b lsn Hj. pose proof (group_end _ _ _ _ _ _ Hg Hc Hj) as Hlsn.
  destruct (Forall2_lookup_l _ _ _ _ _ Hg Hj) as (g & Hgj & _).
  pose proof (lookup_lt_Some _ _ _ Hgj) as Hjl. split.
  - intros Hji. assert (Hpre : mjoin (take (S j) gs) `prefix_of` take k (mjoin gs)).
    { rewrite Ht. exists (mjoin (drop (S j) (take i gs)) ++ take m (default [] (gs !! i))).
      rewrite app_assoc, <- join_app. f_equal.
      rewrite <- (take_drop (S j) (take i gs)) at 1. by rewrite take_take, Nat.min_l by lia. }
    apply recs_prefix in Hpre. lia.
  - intros Hle. destruct (decide (j < i)%nat) as [|Hji]; [done|]. exfalso.
    destruct Hm as [Hm|[-> _]]; [|lia].
    destruct (gs !! i) as [gi|] eqn:Egi; [|simpl in Hm; lia]. cbn [default from_option id] in *.
    assert (Hpre : take (S k) (mjoin gs) `prefix_of` mjoin (take (S j) gs)).
    { rewrite <- (take_drop (S j) gs) at 1. rewrite join_app, take_app_le; [apply prefix_take|].
      rewrite <- (take_drop i (take (S j) gs)), take_take, Nat.min_l, join_app, length_app by lia.
      rewrite (drop_S _ gi i) by (rewrite lookup_take_lt by lia; done).
      change (mjoin (gi :: ?l)) with (gi ++ mjoin l). rewrite length_app. lia. }
    apply recs_prefix in Hpre.
    assert (k < length (mjoin gs))%nat.
    { rewrite <- (take_drop i gs), join_app, length_app, (drop_S _ _ _ Egi).
      change (mjoin (gi :: ?l)) with (gi ++ mjoin l). rewrite length_app. lia. }
    specialize (Hhi H). lia.
Qed.

End crash.
End WalCrash.
