(* ===== verification/WalReplay.v ===== *)
(** * Recovery after a crash

    The theorems of the write-ahead log: a segment cut off at any byte is
    recovered as the transactions whose batch is complete, and the recovery
    manager replays their redo entries in commit order. *)

From stdpp Require Import base gmap list strings sorting.
From Stdlib Require Import ZArith Lia.
From S2P Require Import Prelude Types WalTypes WalScan WalParser WalWriter WalFacts WalCommit.
From S2P Require Import WalRecovery WalCrash.

Module WalReplay.
Import Scan Writer WalFacts Commit WalCrash.

(** ** What replaying redo entries means *)

Section spec.
Context {S Redo : Type} `{RecoveryApplier S Redo}.

(** One redo entry: decode it and call the applier's method. *)
Definition apply_one (op : WalOpType) (payload : list Z) (ts : Timestamp) (a : S)
  : S * result unit RecError :=
  if decide (op = OpCompact) then replay_compact ts a
  else match deserialize_redo op payload with
       | None => (a, Err RDeserializeError)
       | Some redo => replay op redo ts a
       end.

(** Entries in order, up to the first that fails. *)
Fixpoint apply_redo (es : list TransactionWalEntry) (a : S) : S * result unit RecError :=
  match es with
  | [] => (a, Ok tt)
  | e :: rest =>
      match apply_one (we_op_type e) (we_payload e) (we_timestamp e) a with
      | (a', Ok _) => apply_redo rest a'
      | (a', Err x) => (a', Err x)
      end
  end.

Lemma apply_redo_app es es' a :
  apply_redo (es ++ es') a =
    match apply_redo es a with
    | (a', Ok _) => apply_redo es' a'
    | (a', Err x) => (a', Err x)
    end.
Proof.
  revert a. induction es as [|e es IH]; intros a; simpl; [done|].
  destruct (apply_one _ _ _ a) as [a' [u|x]]; [apply IH|done].
Qed.

(** A replay that leaves the applier as [apply_redo] does, up to the error's
    kind. *)
Definition replays (es : list TransactionWalEntry) (a : S)
    (out : (RecoveryStats * S) * result unit RecError) : Prop :=
  out.1.2 = (apply_redo es a).1 /\ is_ok out.2 = is_ok (apply_redo es a).2.

Lemma replay_op_spec e op ts s a :
  plain_op op = true ->
  let out := Recovery.replay_op e op ts (s, a) in
  out.1.2 = (apply_one op (pe_payload e) ts a).1 /\
  is_ok out.2 = is_ok (apply_one op (pe_payload e) ts a).2.
Proof.
  unfold apply_one. destruct op; intros Hp; try discriminate Hp; simpl;
    unfold Recovery.recovery_arm, Recovery.recovery_arm_ref;
    try (destruct (deserialize_redo _ _); [|done]);
    unfold st_bind, Recovery.apply_call; simpl;
    first [destruct (replay _ _ ts a) as [? []]|destruct (replay_compact ts a) as [? []]]; done.
Qed.

Lemma replay_entries_spec es ps s a :
  Forall2 matches es ps -> Forall (fun e => plain_op (we_op_type e) = true) es ->
  replays es a (Recovery.replay_parsed_entries None ps (s, a)).
Proof.
  intros Hm. revert s a. induction Hm as [|e p es ps (Hop & Hts & Hp) Hm IH]; intros s a Hf; [done|].
  apply Forall_cons in Hf as [He Hf]. cbn [Recovery.replay_parsed_entries Recovery.skips].
  unfold op_of in Hop. rewrite Hop, Hts. unfold replays. cbn [apply_redo].
  unfold st_bind, Recovery.stats_modify. cbn [fst snd].
  destruct (replay_op_spec p (we_op_type e) (we_timestamp e)
    (Recovery.see_timestamp (we_timestamp e) s) a He) as [H1 H2]. rewrite Hp in H1, H2.
  destruct (Recovery.replay_op _ _ _ _) as [[s' a'] r]. cbn [fst snd] in H1, H2. subst a'.
  destruct (apply_one _ _ _ a) as [a' r']. cbn [fst snd] in *.
  destruct r as [[]|], r' as [[]|]; try done. by apply IH.
Qed.

(** Entries above the start are replayed as from the beginning, entries up to it
    are passed over. *)
Lemma replay_above start ps :
  Forall (fun p => Recovery.skips start p = false) ps ->
  Recovery.replay_parsed_entries start ps = Recovery.replay_parsed_entries (S := S) None ps.
Proof.
  induction 1 as [|p ps Hp _ IH]; [done|]. cbn [Recovery.replay_parsed_entries]. by rewrite Hp, IH.
Qed.

Lemma replay_below start ps (sa : RecoveryStats * S) :
  Forall (fun p => Recovery.skips start p = true) ps ->
  Recovery.replay_parsed_entries start ps sa = (sa, Ok tt).
Proof.
  induction 1 as [|p ps Hp _ IH]; [done|]. cbn [Recovery.replay_parsed_entries]. by rewrite Hp.
Qed.

(** The transactions of a log that lie, one behind the other, above [prev]. *)
Fixpoint spans (prev : Lsn) (txs : list CommittedWalTransaction) : Prop :=
  match txs with
  | [] => True
  | t :: rest =>
      prev < ct_commit_lsn t /\
      Forall (fun e => prev < pe_lsn e <= ct_commit_lsn t) (ct_redo_entries t) /\
      spans (ct_commit_lsn t) rest
  end.

Lemma spans_above prev txs : spans prev txs -> Forall (fun t => prev < ct_commit_lsn t) txs.
Proof.
  revert prev. induction txs as [|t txs IH]; intros prev; [constructor|]. intros (Ht & _ & Hs).
  constructor; [done|]. eapply Forall_impl; [by apply IH|]. simpl. lia.
Qed.

(** The transactions recovery replays from [start]. *)
Definition replayed (start : option Lsn) (bl : batch * CommitLsn) : bool :=
  match start with Some l => bool_decide (l < bl.2) | None => true end.

(** The start is no LSN inside a transaction: it is at or before the beginning,
    the LSN of a commit, or at or behind the last one. *)
Definition aligned (start : option Lsn) (prev : Lsn) (bs : list (batch * CommitLsn)) : Prop :=
  match start with
  | Some l => l <= prev \/ l ∈ bs.*2 \/ Forall (fun bl : batch * CommitLsn => bl.2 <= l) bs
  | None => True
  end.

(** An aligned start skips the first transaction or replays it whole. *)
Lemma aligned_cons start prev bl bs t txs :
  aligned start prev (bl :: bs) -> Forall2 recovers (bl :: bs) (t :: txs) -> spans prev (t :: txs) ->
  Forall (fun e => Recovery.skips start e = negb (replayed start bl)) (ct_redo_entries t) /\
  aligned start (ct_commit_lsn t) bs.
Proof.
  intros Ha Hr (Hp & Hf & Hs). apply Forall2_cons_1 in Hr as [(_ & Hl & _) Hr].
  destruct start as [l|]; simpl in *; [|split; [by eapply Forall_impl|done]].
  assert (Hc : l <= prev \/ bl.2 <= l).
  { destruct Ha as [Ha|[Ha|Ha]]; [by left| |right; by apply Forall_cons in Ha as [? _]].
    apply elem_of_cons in Ha as [->|Ha]; [by right|]. right.
    apply list_elem_of_fmap in Ha as (bl' & -> & Hin).
    apply list_elem_of_lookup in Hin as [i Hi].
    destruct (Forall2_lookup_l _ _ _ _ _ Hr Hi) as (t' & Ht' & (_ & Hl' & _)).
    apply spans_above in Hs. rewrite Forall_lookup in Hs. specialize (Hs _ _ Ht'). lia. }
  split.
  - eapply Forall_impl; [exact Hf|]. simpl. intros e [H1 H2].
    destruct Hc; [rewrite !bool_decide_eq_false_2, bool_decide_eq_true_2 by lia|
      rewrite bool_decide_eq_true_2, (bool_decide_eq_false_2 (_ < _)) by lia]; done.
  - destruct Hc as [Hc|Hc]; [left; lia|]. destruct Ha as [Ha|[Ha|Ha]]; [left; lia| |].
    + apply elem_of_cons in Ha as [->|Ha]; [left; lia|by right; left].
    + right; right. by apply Forall_cons in Ha as [_ ?].
Qed.

Lemma replay_transactions_spec start prev bs txs s a :
  Forall2 recovers bs txs -> Forall (fun bl : batch * CommitLsn => batch_plain bl.1) bs ->
  spans prev txs -> aligned start prev bs ->
  replays (List.filter (replayed start) bs ≫= fun bl => b_entries bl.1) a
    (Recovery.replay_transactions start txs (s, a)).
Proof.
  intros Hr. revert prev s a. induction Hr as [|bl t bs txs Hrec Hr IH]; intros prev s a Hf Hsp Hal;
    [done|].
  destruct (aligned_cons _ _ _ _ _ _ Hal (List.Forall2_cons _ _ Hrec Hr) Hsp) as [Hsk Hal'].
  destruct Hsp as (_ & _ & Hsp). apply Forall_cons in Hf as [Hb Hf].
  cbn [Recovery.replay_transactions List.filter]. unfold st_bind, Recovery.stats_modify.
  destruct (replayed start bl); simpl in Hsk.
  - rewrite bind_cons. unfold replays. rewrite apply_redo_app, replay_above by done.
    destruct Hrec as (_ & _ & _ & Hm). destruct (replay_entries_spec _ _ s a Hm Hb) as [H1 H2].
    destruct (Recovery.replay_parsed_entries _ _ _) as [[s' a'] r]. cbn [fst snd] in H1, H2. subst a'.
    destruct (apply_redo (b_entries bl.1) a) as [a' r']. cbn [fst snd] in *.
    destruct r as [[]|], r' as [[]|]; try done. by eapply IH.
  - rewrite replay_below by done. cbn [fst snd]. by eapply IH.
Qed.

End spec.

(** ** Reading the segment back *)

(** Entries by increasing LSN. *)
Lemma full_entries_sorted crc32 zstd_decode fsl off prev rs :
  chained crc32 zstd_decode prev rs ->
  StronglySorted (fun a b => pe_lsn a < pe_lsn b) (full_entries fsl off rs) /\
  Forall (fun e => prev < pe_lsn e) (full_entries fsl off rs).
Proof.
  revert off prev. induction rs as [|r rs IH]; intros off prev; [repeat constructor|].
  intros [Hr Hc]. destruct (IH (off + rec_len r)%nat _ Hc) as [Hs Hf]. cbn [full_entries].
  pose proof (ro_lsn _ _ _ _ Hr) as Hl. unfold rec_len, WAL_HEADER_SIZE in Hl.
  split; [by constructor|]. constructor; [cbn; lia|].
  eapply Forall_impl; [exact Hf|]. cbn. intros e He. lia.
Qed.

Lemma sort_sorted (l : list ParsedWalEntry) :
  StronglySorted (fun a b => pe_lsn a < pe_lsn b) l -> merge_sort lsn_le l = l.
Proof.
  intros Hs. assert (Hle : StronglySorted lsn_le l).
  { induction Hs as [|x l Hs IH Hf]; constructor; [done|].
    eapply Forall_impl; [exact Hf|]. unfold lsn_le. intros; lia. }
  apply (StronglySorted_unique_strong lsn_le).
  - intros a b Ha Hb H1 H2. rewrite merge_sort_Permutation in Ha.
    clear Hle. unfold lsn_le in *. induction Hs as [|x l Hs IH Hf]; [by apply not_elem_of_nil in Ha|].
    rewrite Forall_forall in Hf. apply elem_of_cons in Ha as [->|Ha], Hb as [->|Hb]; eauto.
    + apply Hf in Hb. lia.
    + apply Hf in Ha. lia.
  - apply StronglySorted_merge_sort; apply _.
  - done.
  - apply merge_sort_Permutation.
Qed.

(** Collecting a log with increasing LSNs. *)
Section collecting.
Context (crc32 : list Z -> Z).
Context (intent_from_bytes : list Z -> option OutboxIntent).
Context (commit_from_bytes : list Z -> option TransactionCommit).
Context (abort_from_bytes : list Z -> option TransactionAbort).

Lemma split_batch_redo tx es redo ints :
  split_batch intent_from_bytes tx es = Ok (redo, ints) -> redo `sublist_of` es.
Proof.
  revert redo ints. induction es as [|e es IH]; simpl; intros redo ints Hs; [by injection Hs as <- <-|].
  destruct (op_of e) as [op|]; [|done]. case_decide.
  - destruct (intent_from_bytes _) as [it|]; [|done]. destruct (validate_intent it); [|done].
    case_decide; [done|]. destruct (split_batch _ tx es) as [[redo' ints']|]; [|done].
    injection Hs as <- <-. apply sublist_cons. by eapply IH.
  - destruct (split_batch _ tx es) as [[redo' ints']|]; [|done]. injection Hs as <- <-.
    apply sublist_skip. by eapply IH.
Qed.

Lemma close_batch_redo c lsn pending t :
  close_batch crc32 intent_from_bytes c lsn pending = Ok t ->
  ct_commit_lsn t = lsn /\ ct_redo_entries t `sublist_of` pending.
Proof.
  unfold close_batch. destruct (validate_commit c); [|done]. case_decide; [done|].
  destruct (split_batch _ _ pending) as [[redo ints]|] eqn:Es; [|done]. case_decide; [done|].
  destruct (negb _); [done|]. case_decide; [done|]. intros [= <-]. split; [done|].
  by eapply split_batch_redo.
Qed.

Lemma collect_spans es pending committed prev out :
  StronglySorted (fun a b => pe_lsn a < pe_lsn b) (pending ++ es) ->
  Forall (fun e => prev < pe_lsn e) (pending ++ es) ->
  collect_loop crc32 intent_from_bytes commit_from_bytes abort_from_bytes es pending committed =
    Ok out ->
  exists txs, out = committed ++ txs /\ spans prev txs.
Proof.
  revert pending committed prev.
  induction es as [|e es IH]; intros pending committed prev Hs Hf Hc; cbn [collect_loop] in Hc.
  { injection Hc as <-. exists []. by rewrite app_nil_r. }
  assert (Hs' : StronglySorted (fun a b => pe_lsn a < pe_lsn b) es /\
    Forall (fun x => pe_lsn e < pe_lsn x) es /\ Forall (fun x => pe_lsn x < pe_lsn e) pending).
  { split_and!.
    - apply StronglySorted_app_1_r in Hs. by apply StronglySorted_inv in Hs as [? _].
    - apply StronglySorted_app_1_r in Hs. by apply StronglySorted_inv in Hs as [_ ?].
    - apply Forall_forall. intros x Hx. apply (StronglySorted_app_1_elem_of _ _ _ x e Hs Hx). by left. }
  destruct Hs' as (Hs1 & Hs2 & Hs3). apply Forall_app in Hf as [Hfp Hfe].
  apply Forall_cons in Hfe as [Hpe Hfe].
  assert (Hmore : collect_loop crc32 intent_from_bytes commit_from_bytes abort_from_bytes es
    (pending ++ [e]) committed = Ok out -> exists txs, out = committed ++ txs /\ spans prev txs).
  { apply IH; [by rewrite <- app_assoc|]. rewrite <- app_assoc. apply Forall_app. by repeat constructor. }
  destruct (op_of e) as [op|]; [|done]. destruct op; try by apply Hmore.
  - destruct (commit_from_bytes _) as [c|]; [|done].
    destruct (close_batch _ _ c _ pending) as [t|] eqn:Et; [|done].
    apply close_batch_redo in Et as [Hl Hsub].
    destruct (IH [] (committed ++ [t]) (pe_lsn e) Hs1 Hs2 Hc) as (txs & -> & Hsp).
    exists (t :: txs). rewrite <- app_assoc. split; [done|]. simpl. rewrite Hl. split_and!; [done| |done].
    apply Forall_forall. intros x Hx. assert (Hin : x ∈ pending) by by eapply elem_of_sublist.
    rewrite Forall_forall in Hfp, Hs3. specialize (Hfp x Hin). specialize (Hs3 x Hin). lia.
  - destruct (abort_from_bytes _) as [ab|]; [|done]. destruct (validate_abort ab); [|done].
    by apply (IH [] committed prev Hs1 Hfe).
Qed.

End collecting.

Section replay.
Context (crc32 : list Z -> Z).
Context (zstd_encode : Z -> list Z -> option (list Z)).
Context (zstd_decode : list Z -> option (list Z)).
Context (intent_to_vec : OutboxIntent -> option (list Z)).
Context (intent_from_bytes : list Z -> option OutboxIntent).
Context (commit_to_vec : TransactionCommit -> option (list Z)).
Context (commit_from_bytes : list Z -> option TransactionCommit).
Context (abort_from_bytes : list Z -> option TransactionAbort).
Context (level : Z).

Abbreviation laws := (library_laws crc32 zstd_encode zstd_decode intent_to_vec intent_from_bytes
  commit_to_vec commit_from_bytes).
Abbreviation winv' := (winv crc32 zstd_decode).
Abbreviation groups := (Forall2 (group_of crc32 intent_to_vec commit_to_vec)).
Abbreviation collect_txs :=
  (collect_committed_transactions crc32 intent_from_bytes commit_from_bytes abort_from_bytes).
Abbreviation history' := (history crc32 zstd_encode intent_to_vec commit_to_vec level).

(** The directory with the cut segment. *)
Definition crashed (n : nat) (f : list Z) : WalDir := Some [Some (take n f)].

Lemma read_cut fsl hdr rs w f n :
  winv' fsl hdr rs w -> w_file w = Some f -> (WAL_FILE_HEADER_SIZE <= n)%nat ->
  exists h, Parser.read_wal_file (Some (take n f)) = Ok (Some (mkFileData (take n f) h)) /\
    fh_start_lsn h = fsl.
Proof.
  intros Hi Hf Hn. destruct (wi_file _ _ _ _ _ _ Hi) as (z & Hf'). rewrite Hf in Hf'.
  injection Hf' as ->. pose proof (wi_hdr _ _ _ _ _ _ Hi) as Hh.
  destruct (wi_header _ _ _ _ _ _ Hi) as (h & _ & Hhdr & Hwf & Hv & Hst). exists h.
  split; [|done]. rewrite take_app, (take_ge hdr), Hh by lia.
  set (tail := take _ _). unfold Parser.read_wal_file.
  rewrite decide_False by (intros E; apply (f_equal length) in E; rewrite length_app, Hh in E; done).
  rewrite decide_False by (rewrite length_app, Hh; lia).
  rewrite <- Hh at 1. rewrite take_app_length, Hhdr, <- (app_nil_r (FileHeader.as_bytes h)).
  rewrite file_header_roundtrip by done. by rewrite Hv, app_nil_r.
Qed.

Lemma cut_sorted fsl off i m (gs : list (list rec)) :
  chained crc32 zstd_decode fsl (mjoin gs) ->
  let es := full_entries fsl off (mjoin (take i gs) ++ take m (default [] (gs !! i))) in
  StronglySorted (fun a b => pe_lsn a < pe_lsn b) es /\ Forall (fun e => fsl < pe_lsn e) es.
Proof.
  cbv zeta. intros Hc. rewrite <- (take_drop i gs), join_app in Hc.
  destruct (gs !! i) as [g|] eqn:Eg; cbn [default from_option id] in *.
  - rewrite (drop_S _ _ _ Eg) in Hc. change (mjoin (g :: ?l)) with (g ++ mjoin l) in Hc.
    rewrite <- (take_drop m g), !app_assoc, <- !app_assoc, (app_assoc (mjoin _)) in Hc.
    apply chained_app in Hc as [Hc _]. by eapply full_entries_sorted.
  - rewrite take_nil, app_nil_r. apply chained_app in Hc as [Hc _].
    by eapply full_entries_sorted.
Qed.

(** Every parser configuration reads the same entries. *)
Lemma parse_cut_dir fsl hdr bs gs w f n threads order cfg :
  winv' fsl hdr (mjoin gs) w -> groups bs gs -> w_file w = Some f ->
  (WAL_FILE_HEADER_SIZE <= n)%nat -> (0 < threads)%nat ->
  exists i m r, (i <= length gs)%nat /\
    Recovery.parse_wal_files crc32 zstd_decode threads order cfg (crashed n f) = Ok r /\
    all_entries r = full_entries fsl WAL_FILE_HEADER_SIZE
      (mjoin (take i gs) ++ take m (default [] (gs !! i))) /\
    (m < length (default [] (gs !! i)) \/ i = length gs /\ m = 0)%nat /\
    (forall j b lsn, bs !! j = Some (b, lsn) ->
      (j < i)%nat <-> Z.of_nat WAL_FILE_HEADER_SIZE + (lsn - fsl) <= Z.of_nat n).
Proof.
  intros Hi Hg Hf Hn Hth. destruct (read_cut _ _ _ _ _ _ Hi Hf Hn) as (h & Hread & Hst).
  destruct (cut_batches _ _ _ _ _ _ _ _ _ _ _
    (if rc_parallel_recovery cfg then rc_recovery_mode cfg else AbortOnCorruption)
    (if rc_parallel_recovery cfg then rc_verify_checksum cfg else true) Hi Hg Hf Hn)
    as (i & m & r & Hil & Hp & He & Hm & Hj).
  assert (Hsort : merge_sort lsn_le (all_entries r) = all_entries r).
  { apply sort_sorted. rewrite He. by eapply cut_sorted, wi_chain. }
  exists i, m. unfold Recovery.parse_wal_files, crashed.
  destruct (rc_parallel_recovery cfg).
  - unfold Parser.parse_parallel, Parser.discover_wal_files.
    rewrite decide_False by (by intros [? _]). rewrite decide_True by (simpl; lia).
    cbn [Parser.parse_all]. unfold Parser.parse_file, Parser.scan_bytes. rewrite Hread.
    cbn [fd_buffer fd_file_header]. rewrite Hst, Hp. exists (Parser.merge_results [r]).
    split; [done|]. split; [done|].
    change (all_entries (Parser.merge_results [r])) with (merge_sort lsn_le (all_entries r)).
    by rewrite Hsort.
  - unfold Parser.parse_wal_files, st_bind, st_get, st_lift, st_modify, Parser.discover_wal_files.
    rewrite decide_False by (by intros [? _]). cbn [Parser.parse_each].
    unfold Parser.parse_wal_file, st_bind, st_lift, st_modify, st_get, st_ret. rewrite Hread.
    cbn [fd_buffer fd_file_header]. unfold Parser.scan_bytes. rewrite Hst.
    cbn [p_recovery_mode p_verify_checksum Parser.push_header Parser.new]. rewrite Hp.
    set (p := Parser.sort_entries (Parser.extend r (Parser.push_header h Parser.new))).
    exists (Parser.parser_result p). split; [done|]. split; [done|].
    change (all_entries (Parser.parser_result p)) with (merge_sort lsn_le (all_entries r)).
    by rewrite Hsort.
Qed.

Lemma collect_cut fsl off bs gs i m :
  laws -> groups bs gs ->
  (m < length (default [] (gs !! i)) \/ i = length gs /\ m = 0)%nat ->
  exists txs, Forall2 recovers (take i bs) txs /\
    collect_txs (full_entries fsl off (mjoin (take i gs) ++ take m (default [] (gs !! i)))) = Ok txs.
Proof.
  intros Hlaws Hg Hm. pose proof (Forall2_take _ _ _ i Hg) as Hgi.
  rewrite full_entries_app. unfold collect_committed_transactions.
  destruct (collect_groups _ _ _ _ _ _ _ abort_from_bytes Hlaws fsl (take i bs) (take i gs) off
    (full_entries fsl (off + length (recs_bytes (mjoin (take i gs))))
       (take m (default [] (gs !! i)))) [] Hgi) as (txs & Htx & ->).
  exists txs. split; [done|]. destruct (gs !! i) as [g|] eqn:Eg; cbn [default from_option id] in *.
  - destruct Hm as [Hm|[-> _]]; [|by rewrite lookup_ge_None_2 in Eg].
    destruct (Forall2_lookup_r _ _ _ _ _ Hg Eg) as (bl & _ & Hbl).
    by eapply collect_partial.
  - by rewrite take_nil.
Qed.

(** [C2] Crash atomicity and durability.  A segment that holds any sequence of
    appended transactions (written with or without waiting, compressed or not,
    payloads within the reader's size limit, which the writer does not enforce)
    and is cut off at any byte after its 64-byte file header is parsed, whatever
    the recovery configuration, without an error; and the committed transactions
    found in it are, in order and with their identifiers, LSNs, intents and
    redo entries, exactly the appended transactions whose last byte is before
    the cut. *)
Theorem crash_recovers_prefix w bs f n threads order cfg :
  laws -> history' w bs -> w_file w = Some f -> (WAL_FILE_HEADER_SIZE <= n)%nat ->
  (0 < threads)%nat ->
  exists r k txs,
    Recovery.parse_wal_files crc32 zstd_decode threads order cfg (crashed n f) = Ok r /\
    collect_txs (all_entries r) = Ok txs /\ Forall2 recovers (take k bs) txs /\
    (forall j b lsn, bs !! j = Some (b, lsn) ->
      (j < k)%nat <->
      Z.of_nat WAL_FILE_HEADER_SIZE + (lsn - w_file_start_lsn w) <= Z.of_nat n).
Proof.
  intros Hlaws Hh Hf Hn Hth.
  destruct (history_segment _ _ _ _ _ _ _ abort_from_bytes _ Hlaws _ _ Hh) as (hdr & gs & Hi & Hg).
  destruct (parse_cut_dir _ _ _ _ _ _ _ threads order cfg Hi Hg Hf Hn Hth)
    as (i & m & r & Hil & Hp & He & Hm & Hj).
  destruct (collect_cut (w_file_start_lsn w) WAL_FILE_HEADER_SIZE bs gs i m Hlaws Hg Hm)
    as (txs & Htx & Hc).
  exists r, i, txs. rewrite He. done.
Qed.

(** ** Dry replay keeps the committed prefix *)

Lemma position_last (p : ParsedWalEntry -> bool) l x l' :
  Forall (fun e => p e = false) l -> p x = true -> position p (l ++ x :: l') = Some (length l).
Proof. intros Hf Hx. induction Hf as [|y l Hy _ IH]; simpl; [by rewrite Hx|]. by rewrite Hy, IH. Qed.

(** Entries with a later LSN do not move the cut-off. *)
Lemma cutoff_exact A x B :
  StronglySorted (fun a b => pe_lsn a < pe_lsn b) (A ++ [x] ++ B) ->
  position (fun e => bool_decide (pe_lsn e = pe_lsn x)) ((A ++ [x]) ++ B) = Some (length A).
Proof.
  intros Hs. rewrite <- app_assoc. apply position_last; [|by apply bool_decide_eq_true].
  apply Forall_forall. intros e He. apply bool_decide_eq_false.
  apply list_elem_of_split in He as (l1 & l2 & ->). rewrite <- app_assoc in Hs.
  apply StronglySorted_app_1_r in Hs. cbn [app] in Hs. apply StronglySorted_inv in Hs as [_ Hf].
  rewrite Forall_forall in Hf. specialize (Hf x ltac:(set_solver)). lia.
Qed.

(** A complete batch ends with its commit record. *)
Lemma group_ends fsl off bl g :
  group_of crc32 intent_to_vec commit_to_vec bl g ->
  exists l x, full_entries fsl off g = l ++ [x] /\ is_envelope x = true /\ pe_lsn x = bl.2.
Proof.
  intros (_ & Hne & Hl & w & w' & es & Hb & Hm).
  pose proof (last_full_lsn fsl off g 0 Hne) as Hlast. apply (full_matches fsl off) in Hm.
  apply build_ok in Hb as (_ & ies & c & bytes & _ & -> & _). rewrite app_assoc in Hm.
  apply Forall2_app_inv_l in Hm as (l & ps & _ & Hm & E).
  apply Forall2_cons_inv_l in Hm as (x & ps' & (Hop & _) & Hm & ->).
  apply Forall2_nil_inv_l in Hm as ->. exists l, x. split; [done|].
  rewrite E, last_snoc in Hlast. split; [|by rewrite Hlast].
  unfold is_envelope. by rewrite Hop.
Qed.

Lemma dry_keeps r A x B txs t :
  all_entries r = (A ++ [x]) ++ B -> is_envelope x = true ->
  StronglySorted (fun a b => pe_lsn a < pe_lsn b) (all_entries r) ->
  collect_txs (all_entries r) = Ok (txs ++ [t]) -> ct_commit_lsn t = pe_lsn x ->
  consistent_entries (find_last_consistent_commit crc32 intent_from_bytes commit_from_bytes
    abort_from_bytes r false) = A ++ [x].
Proof.
  intros He Hx Hs Hc Ht. unfold find_last_consistent_commit. rewrite Hc.
  rewrite He in *. rewrite decide_False by (by destruct A). cbn [andb].
  assert (Henv : existsb is_envelope ((A ++ [x]) ++ B) = true).
  { apply existsb_exists. exists x. split; [|done].
    rewrite !in_app_iff. left. right. by left. }
  rewrite Henv. cbn [negb]. destruct (txs ++ [t]) as [|c cs] eqn:E; [by destruct txs|].
  rewrite <- E, last_snoc, Ht. rewrite cutoff_exact by by rewrite app_assoc.
  cbn [consistent_entries]. rewrite length_app.
  assert (Hlen : length (A ++ [x]) = S (length A)) by (rewrite length_app; simpl; lia).
  case_decide as Hd.
  - rewrite <- Hlen. apply take_app_length.
  - destruct B; [by rewrite app_nil_r|]. simpl in Hd. lia.
Qed.

Context {S Redo : Type} `{RecoveryApplier S Redo}.

Abbreviation recover := (Recovery.recover_with_applier crc32 zstd_decode intent_from_bytes
  commit_from_bytes abort_from_bytes).

(** Recovery once the committed transactions are known. *)
Lemma recover_committed prev bs txs threads order cfg dir dd r st a :
  aligned (rc_start_lsn cfg) prev bs ->
  Recovery.parse_wal_files crc32 zstd_decode threads order cfg dir = Ok r ->
  let filtered := apply_dry_replay_filter crc32 intent_from_bytes commit_from_bytes
    abort_from_bytes (rc_throw_on_wal_replay_failure cfg) r in
  existsb is_envelope (all_entries filtered) = true ->
  collect_txs (all_entries filtered) = Ok txs ->
  Forall2 recovers bs txs -> Forall (fun bl : batch * CommitLsn => batch_plain bl.1) bs ->
  spans prev txs ->
  let redo := List.filter (replayed (rc_start_lsn cfg)) bs ≫= fun bl => b_entries bl.1 in
  let out := recover threads order cfg dir dd (st, a) in
  out.1.2 = (apply_redo redo a).1 /\ is_ok out.2 = is_ok (apply_redo redo a).2.
Proof.
  cbv zeta. intros Hstart Hp Henv Hc Hr Hb Hsp.
  unfold Recovery.recover_with_applier, st_bind, st_lift, st_get, st_ret, Recovery.stats_modify.
  rewrite Hp. set (fr := apply_dry_replay_filter _ _ _ _ _ _) in *. cbn [fst snd].
  set (mid := Recovery.restore_from_checkpoint dd _).
  assert (Hmid : exists s, mid = ((s, a), Ok tt)) by (subst mid; destruct dd; by eexists).
  destruct Hmid as (s & ->). unfold Recovery.replay_wal_entries. rewrite Henv, Hc.
  cbn [negb]. destruct (replay_transactions_spec _ prev bs txs s a Hr Hb Hsp Hstart) as [H1 H2].
  destruct (Recovery.replay_transactions _ txs (s, a)) as [[s' a'] [u|e]]; done.
Qed.

Lemma groups_plain bs gs :
  groups bs gs -> Forall (fun bl : batch * CommitLsn => batch_plain bl.1) bs.
Proof. induction 1 as [|? ? ? ? (? & _)]; by constructor. Qed.

Lemma collect_complete fsl off bs gs :
  laws -> groups bs gs ->
  exists txs, Forall2 recovers bs txs /\ collect_txs (full_entries fsl off (mjoin gs)) = Ok txs.
Proof.
  intros Hlaws Hg. destruct (collect_groups _ _ _ _ _ _ _ abort_from_bytes Hlaws fsl bs gs off [] [] Hg)
    as (txs & Htx & Hc). rewrite app_nil_r in Hc. by exists txs.
Qed.

(** The complete batches end with the commit record of the last one. *)
Lemma complete_ends fsl bs gs i :
  groups bs gs -> (i < length gs)%nat ->
  exists A x bl, full_entries fsl WAL_FILE_HEADER_SIZE (mjoin (take (Datatypes.S i) gs)) = A ++ [x] /\
    is_envelope x = true /\ bs !! i = Some bl /\ pe_lsn x = bl.2.
Proof.
  intros Hg Hi. apply lookup_lt_is_Some in Hi as [g Hgi].
  destruct (Forall2_lookup_r _ _ _ _ _ Hg Hgi) as (bl & Hbl & Hgrp).
  destruct (group_ends fsl (WAL_FILE_HEADER_SIZE + length (recs_bytes (mjoin (take i gs)))) bl g Hgrp)
    as (l & x & Hlx & Hx & Hlsn).
  exists (full_entries fsl WAL_FILE_HEADER_SIZE (mjoin (take i gs)) ++ l), x, bl.
  split; [|done]. rewrite (take_S_r _ _ _ Hgi), join_app. cbn [mjoin list_join].
  by rewrite app_nil_r, full_entries_app, Hlx, app_assoc.
Qed.

Lemma envelope_in A x B :
  is_envelope x = true -> existsb is_envelope ((A ++ [x]) ++ B) = true.
Proof.
  intros Hx. apply existsb_exists. exists x. split; [|done]. rewrite !in_app_iff. left. right. by left.
Qed.

(** The part of the log before the cut has the alignment of the whole. *)
Lemma aligned_take start fsl bs i n off :
  aligned start fsl bs ->
  (forall j b lsn, bs !! j = Some (b, lsn) -> (j < i)%nat <-> off + (lsn - fsl) <= n) ->
  aligned start fsl (take i bs).
Proof.
  intros Ha Hj. destruct start as [l|]; [|done]. destruct Ha as [Ha|[Ha|Ha]]; [by left| |].
  - apply list_elem_of_fmap in Ha as ([b lsn] & -> & Hin). apply list_elem_of_lookup in Hin as [j Hb].
    right. destruct (decide (j < i)%nat) as [Hji|Hji].
    + left. apply list_elem_of_fmap. exists (b, lsn). split; [done|].
      apply list_elem_of_lookup. exists j. by rewrite lookup_take_lt.
    + right. apply Forall_lookup. intros j' [b' lsn'] Hb'. apply lookup_take_Some in Hb' as [Hb' Hlt].
      apply (Hj _ _ _ Hb') in Hlt. rewrite (Hj _ _ _ Hb) in Hji. simpl in *. lia.
  - right; right. by apply Forall_take.
Qed.

(** The filtered log has the complete batches. *)
Lemma filter_cut fsl bs gs i m r throw :
  laws -> groups bs gs -> chained crc32 zstd_decode fsl (mjoin gs) ->
  (m < length (default [] (gs !! i)) \/ i = length gs /\ m = 0)%nat ->
  (0 < i <= length gs)%nat ->
  all_entries r = full_entries fsl WAL_FILE_HEADER_SIZE
    (mjoin (take i gs) ++ take m (default [] (gs !! i))) ->
  exists txs,
    let es := all_entries (apply_dry_replay_filter crc32 intent_from_bytes commit_from_bytes
      abort_from_bytes throw r) in
    existsb is_envelope es = true /\ collect_txs es = Ok txs /\ Forall2 recovers (take i bs) txs /\
    spans fsl txs.
Proof.
  intros Hlaws Hg Hc Hm [Hi Hil] He. cbv zeta.
  assert (Hspan : forall es es' txs, es ++ es' = all_entries r -> collect_txs es = Ok txs -> spans fsl txs).
  { intros es es' txs Hes Hcol. rewrite He in Hes.
    destruct (cut_sorted fsl WAL_FILE_HEADER_SIZE i m gs Hc) as [Hs Hf]. rewrite <- Hes in Hs, Hf.
    apply StronglySorted_app_1_l in Hs. apply Forall_app in Hf as [Hf _].
    by destruct (collect_spans _ _ _ _ es [] [] fsl txs Hs Hf Hcol) as (txs' & -> & ?). }
  destruct (collect_cut fsl WAL_FILE_HEADER_SIZE bs gs i m Hlaws Hg Hm) as (txs & Htx & Hcol).
  destruct i as [|i]; [lia|].
  destruct (complete_ends fsl bs gs i Hg ltac:(lia)) as (A & x & bl & HA & Hx & Hbl & Hlsn).
  pose proof He as HE. rewrite full_entries_app, HA in HE.
  destruct throw; cbn [apply_dry_replay_filter].
  - exists txs. split; [rewrite HE; by apply envelope_in|]. rewrite He. split; [done|]. split; [done|].
    apply (Hspan (all_entries r) []); [by rewrite app_nil_r|by rewrite He].
  - rewrite (take_S_r _ _ _ Hbl) in Htx.
    apply Forall2_app_inv_l in Htx as (t0 & t1 & Ht0 & Ht1 & ->).
    apply Forall2_cons_inv_l in Ht1 as (t & t2 & Ht & Ht2 & ->). apply Forall2_nil_inv_l in Ht2 as ->.
    assert (Hk : consistent_entries (find_last_consistent_commit crc32 intent_from_bytes
      commit_from_bytes abort_from_bytes r false) = A ++ [x]).
    { eapply dry_keeps; [exact HE|done|rewrite He; by apply cut_sorted|by rewrite He|].
      destruct Ht as (_ & -> & _). done. }
    destruct (collect_complete fsl WAL_FILE_HEADER_SIZE (take (Datatypes.S i) bs)
      (take (Datatypes.S i) gs) Hlaws) as (txs' & Htx' & Hcol'); [by apply Forall2_take|].
    cbn [all_entries]. exists txs'. rewrite Hk.
    split; [rewrite <- (app_nil_r (A ++ [x])); by apply envelope_in|].
    rewrite <- HA. split; [done|]. split; [done|].
    eapply Hspan; [|exact Hcol']. rewrite HA. by symmetry.
Qed.

(** [C5] Recovery of a crashed segment applies the durable transactions.  The
    segment holds appended transactions and is cut after the first of them or
    later; the recovery manager starts at the beginning of the log or at an LSN
    that is not inside a transaction (that of a commit, or one before the first
    record or behind the last).  It leaves the applier in the state reached by
    applying, in commit order, the redo entries of the transactions that are
    complete before the cut and committed after the start, nothing of one that
    is cut off, and nothing of one committed up to the start; it fails exactly
    when the applier fails on one of these entries. *)
Theorem recovery_replays_committed w bs f n threads order cfg dd st a b0 lsn0 :
  laws -> history' w bs -> w_file w = Some f -> (0 < threads)%nat ->
  aligned (rc_start_lsn cfg) (w_file_start_lsn w) bs -> bs !! 0%nat = Some (b0, lsn0) ->
  Z.of_nat WAL_FILE_HEADER_SIZE + (lsn0 - w_file_start_lsn w) <= Z.of_nat n ->
  (WAL_FILE_HEADER_SIZE <= n)%nat ->
  exists k,
    (forall j b lsn, bs !! j = Some (b, lsn) ->
      (j < k)%nat <->
      Z.of_nat WAL_FILE_HEADER_SIZE + (lsn - w_file_start_lsn w) <= Z.of_nat n) /\
    let durable := List.filter (replayed (rc_start_lsn cfg)) (take k bs) ≫= fun bl => b_entries bl.1 in
    let out := recover threads order cfg (crashed n f) dd (st, a) in
    out.1.2 = (apply_redo durable a).1 /\ is_ok out.2 = is_ok (apply_redo durable a).2.
Proof.
  intros Hlaws Hh Hf Hth Hstart H0 Hfit Hn.
  destruct (history_segment _ _ _ _ _ _ _ abort_from_bytes _ Hlaws _ _ Hh) as (hdr & gs & Hi & Hg).
  destruct (parse_cut_dir _ _ _ _ _ _ _ threads order cfg Hi Hg Hf Hn Hth)
    as (i & m & r & Hil & Hp & He & Hm & Hj).
  pose proof (proj2 (Hj _ _ _ H0) Hfit) as Hpos. exists i. split; [done|]. cbv zeta.
  destruct (filter_cut _ _ _ _ _ r (rc_throw_on_wal_replay_failure cfg) Hlaws Hg
    (wi_chain _ _ _ _ _ _ Hi) Hm (conj Hpos Hil) He) as (txs & Henv & Hcol & Htx & Hsp).
  apply (recover_committed (w_file_start_lsn w) _ txs _ _ _ _ _ r); try done.
  - by eapply aligned_take.
  - by eapply Forall_take, groups_plain.
Qed.

End replay.
End WalReplay.
