(* ===== verification/WalBuffered.v ===== *)
(** * Buffered mode of the WAL writer

    [wal/writer/buffer.rs] ([WalBuffer], [WalFlushCoordinator]) and
    [wal/writer/local/async_buffer.rs], with the buffered halves of
    [local/record.rs], [local/durability.rs] and [local.rs].  Appends are staged
    in a buffer; the background thread or a sync drains the buffer to the file,
    through a file handle and an offset of its own.

    The buffered writer is the writer of [WalWriter] with what the mode adds.  A
    shared buffer is its index in the coordinator, where every buffer is
    registered.  The two file handles are the same open file.  Locks are not
    poisoned.

    The background thread takes the bytes of a buffer and writes them in two
    steps ([flush_take], [flush_put]), since it locks the flush state only for
    the second; [flush_round] is the two run together.  The refinement lets
    appends come between the two, and needs drains and syncs not to:
    [sync_overtakes_flush] shows what happens when one does. *)

From stdpp Require Import base gmap list strings.
From Stdlib Require Import ZArith Lia.
From S2P Require Import Prelude Types WalTypes WalScan WalWriter WalFacts WalCommit WalCrash.

Record WalBuffer := mkWalBuffer {
  wb_buffer : list Z;
  wb_pending_bytes : Z;
  wb_entry_count : Z;
  flush_threshold : Z;
}.

Record FlushStats := mkFlushStats {
  flush_count : Z;
  bytes_flushed : Z;
  entries_flushed : Z;
  threshold_flushes : Z;
}.

(** [fc_thread]: the background thread runs. *)
Record WalFlushCoordinator := mkFlush {
  fc_buffers : list WalBuffer;
  fc_signal : bool;
  fc_thread : bool;
  fc_shutdown : bool;
  fc_stats : FlushStats;
}.

Record BufferedFlushState := mkFlushState { fs_offset : Z; fs_file_size : Z }.

(** [bw_appended] is the [appended_seq] of the group-commit coordinator. *)
Record BufferedWriter := mkBuffered {
  bw_writer : LocalWalWriter;
  bw_buffer : option nat;
  bw_coordinator : option WalFlushCoordinator;
  bw_flush_state : option BufferedFlushState;
  buffered_lsn : Lsn;
  background_started : bool;
  cfg_async_flush : bool;
  cfg_buffer_size : Z;
  bw_appended : Lsn;
}.

Module Buf.

Definition new (threshold : Z) : WalBuffer := mkWalBuffer [] 0 0 threshold.

Definition append (data : list Z) (b : WalBuffer) : WalBuffer :=
  mkWalBuffer (wb_buffer b ++ data) (wrap_u64 (wb_pending_bytes b + Z.of_nat (length data)))
    (wrap_u64 (wb_entry_count b + 1)) (flush_threshold b).

Definition drain (b : WalBuffer) : WalBuffer * list Z :=
  (mkWalBuffer [] 0 0 (flush_threshold b), wb_buffer b).

Definition needs_flush (b : WalBuffer) : bool := bool_decide (wb_pending_bytes b >= flush_threshold b).

End Buf.

Module Coord.

Definition new : WalFlushCoordinator := mkFlush [] false false false (mkFlushStats 0 0 0 0).

Definition set_buffers (l : list WalBuffer) (c : WalFlushCoordinator) : WalFlushCoordinator :=
  mkFlush l (fc_signal c) (fc_thread c) (fc_shutdown c) (fc_stats c).

Definition register_buffer (b : WalBuffer) (c : WalFlushCoordinator) : WalFlushCoordinator :=
  set_buffers (fc_buffers c ++ [b]) c.

Definition signal_flush (c : WalFlushCoordinator) : WalFlushCoordinator :=
  mkFlush (fc_buffers c) true (fc_thread c) (fc_shutdown c) (fc_stats c).

(** The thread sees the flag and is joined. *)
Definition shutdown (c : WalFlushCoordinator) : WalFlushCoordinator :=
  mkFlush (fc_buffers c) (fc_signal c) false true (fc_stats c).

(** A thread that finds the flag set ends at once. *)
Definition start_flush_thread (c : WalFlushCoordinator) : WalFlushCoordinator :=
  mkFlush (fc_buffers c) (fc_signal c) (negb (fc_shutdown c)) (fc_shutdown c) (fc_stats c).

(** The statistics of a round that flushed [total] bytes. *)
Definition count_flush (notified : bool) (total : Z) (c : WalFlushCoordinator)
  : WalFlushCoordinator :=
  let s := fc_stats c in
  if decide (total > 0) then
    mkFlush (fc_buffers c) (fc_signal c) (fc_thread c) (fc_shutdown c)
      (mkFlushStats (wrap_u64 (flush_count s + 1)) (wrap_u64 (bytes_flushed s + total))
         (entries_flushed s)
         (if notified then wrap_u64 (threshold_flushes s + 1) else threshold_flushes s))
  else c.

(** The callback acts on a state of its own; a buffer whose bytes it refuses has
    been drained. *)
Fixpoint flush_each {F} (flush_fn : list Z -> ST F WalError unit) (l : list WalBuffer) (f : F)
  : list WalBuffer * F * result unit WalError :=
  match l with
  | [] => ([], f, Ok tt)
  | x :: rest =>
      let '(x1, r) :=
        if decide (wb_pending_bytes x > 0) then
          let '(x1, data) := Buf.drain x in
          (x1, match data with [] => (f, Ok tt) | _ => flush_fn data f end)
        else (x, (f, Ok tt)) in
      match r with
      | (f1, Err e) => (x1 :: rest, f1, Err e)
      | (f1, Ok _) => let '(l2, f2, r2) := flush_each flush_fn rest f1 in (x1 :: l2, f2, r2)
      end
  end.

Definition flush_sync {F} (flush_fn : list Z -> ST F WalError unit) (c : WalFlushCoordinator) (f : F)
  : WalFlushCoordinator * F * result unit WalError :=
  let '(l, f1, r) := flush_each flush_fn (fc_buffers c) f in (set_buffers l c, f1, r).

End Coord.

Module Buffered.
Import Writer.

(** ** State *)

Definition set_writer (w : LocalWalWriter) (b : BufferedWriter) : BufferedWriter :=
  mkBuffered w (bw_buffer b) (bw_coordinator b) (bw_flush_state b) (buffered_lsn b)
    (background_started b) (cfg_async_flush b) (cfg_buffer_size b) (bw_appended b).

Definition set_mode (i : option nat) (c : option WalFlushCoordinator) (b : BufferedWriter)
  : BufferedWriter :=
  mkBuffered (bw_writer b) i c (bw_flush_state b) (buffered_lsn b)
    (background_started b) (cfg_async_flush b) (cfg_buffer_size b) (bw_appended b).

Definition set_flush (s : option BufferedFlushState) (b : BufferedWriter) : BufferedWriter :=
  mkBuffered (bw_writer b) (bw_buffer b) (bw_coordinator b) s (buffered_lsn b)
    (background_started b) (cfg_async_flush b) (cfg_buffer_size b) (bw_appended b).

Definition set_staged (n : Lsn) (b : BufferedWriter) : BufferedWriter :=
  mkBuffered (bw_writer b) (bw_buffer b) (bw_coordinator b) (bw_flush_state b) n
    (background_started b) (cfg_async_flush b) (cfg_buffer_size b) (bw_appended b).

Definition set_started (f : bool) (b : BufferedWriter) : BufferedWriter :=
  mkBuffered (bw_writer b) (bw_buffer b) (bw_coordinator b) (bw_flush_state b) (buffered_lsn b)
    f (cfg_async_flush b) (cfg_buffer_size b) (bw_appended b).

(** [coordinator.record_appended], when group commit is enabled. *)
Definition record_appended (n : Lsn) (b : BufferedWriter) : BufferedWriter :=
  if w_group_commit (bw_writer b) then
    mkBuffered (bw_writer b) (bw_buffer b) (bw_coordinator b) (bw_flush_state b) (buffered_lsn b)
      (background_started b) (cfg_async_flush b) (cfg_buffer_size b) (Z.max (bw_appended b) n)
  else b.

(** An operation of the writer itself. *)
Definition on_writer {A} (m : ST LocalWalWriter WalError A) : ST BufferedWriter WalError A :=
  fun b => let r := m (bw_writer b) in (set_writer r.1 b, r.2).

Definition with_config (cfg : WalConfig) (async : bool) (size : Z) : BufferedWriter :=
  mkBuffered (Writer.with_config cfg) None None None 0 false async size 0.

(** The buffer the writer stages into. *)
Definition current_buffer (b : BufferedWriter) : option WalBuffer :=
  match bw_coordinator b, bw_buffer b with
  | Some c, Some i => fc_buffers c !! i
  | _, _ => None
  end.

Definition set_current_buffer (x : WalBuffer) (b : BufferedWriter) : BufferedWriter :=
  match bw_coordinator b, bw_buffer b with
  | Some c, Some i => set_mode (Some i) (Some (Coord.set_buffers (<[i := x]> (fc_buffers c)) c)) b
  | _, _ => b
  end.

Definition map_coordinator (f : WalFlushCoordinator -> WalFlushCoordinator) (b : BufferedWriter)
  : BufferedWriter := set_mode (bw_buffer b) (f <$> bw_coordinator b) b.

(** ** Enabling *)

(** The coordinator starts at the current LSN. *)
Definition enable_group_commit (cloned : bool) : ST BufferedWriter WalError unit :=
  fun b =>
    let w := bw_writer b in
    match w_file w with
    | None => (b, Err WClosed)
    | Some _ =>
        if cloned then
          let w1 := mkWriter (w_file w) (w_file_size w) (w_file_used w) (w_checkpoint_seq w)
            (w_current_lsn w) (w_last_synced_lsn w) (w_file_start_lsn w) (w_config w) (w_is_open w)
            (w_file_header w) (w_write_count w) (w_poisoned w) true in
          (mkBuffered w1 (bw_buffer b) (bw_coordinator b) (bw_flush_state b) (buffered_lsn b)
             (background_started b) (cfg_async_flush b) (cfg_buffer_size b) (w_current_lsn w), Ok tt)
        else (b, Err IoError)
    end.

(** [cloned] tells whether [try_clone] succeeds. *)
Definition ensure_flush_state (cloned : bool) (b : BufferedWriter) : BufferedWriter :=
  match bw_flush_state b, bw_buffer b, w_file (bw_writer b) with
  | None, Some _, Some _ =>
      if cloned
      then set_flush (Some (mkFlushState (w_file_used (bw_writer b)) (w_file_size (bw_writer b)))) b
      else b
  | _, _, _ => b
  end.

Definition enable_async_buffer (cloned : bool) (x : WalBuffer) (b : BufferedWriter)
  : BufferedWriter :=
  let c := Coord.register_buffer x (default Coord.new (bw_coordinator b)) in
  ensure_flush_state cloned
    (set_staged (w_current_lsn (bw_writer b))
       (set_mode (Some (length (fc_buffers c) - 1)%nat) (Some c) b)).

Definition enable_async_flush (cloned : bool) (b : BufferedWriter) : BufferedWriter :=
  if cfg_async_flush b then enable_async_buffer cloned (Buf.new (cfg_buffer_size b)) b else b.

Definition is_async_enabled (b : BufferedWriter) : bool :=
  bool_decide (is_Some (bw_buffer b)) && cfg_async_flush b.

Definition request_flush (b : BufferedWriter) : BufferedWriter :=
  map_coordinator Coord.signal_flush b.

(** ** Draining *)

(** The bytes go to the offset of the flush state; the file grows to fit them
    exactly. *)
Definition write_to_flush_state (io : WalIo) (data : list Z) : ST BufferedWriter WalError unit :=
  fun b =>
    match bw_flush_state b, w_file (bw_writer b) with
    | Some s, Some f =>
        let finish := fs_offset s + Z.of_nat (length data) in
        let grow := bool_decide (finish > fs_file_size s) in
        if grow && negb (wio_set_len io) then (b, Err IoError)
        else
          let f1 := if grow then set_len (Z.to_nat finish) f else f in
          let s1 := if grow then mkFlushState (fs_offset s) finish else s in
          let b1 := set_flush (Some s1) (set_writer (set_file (Some f1) (bw_writer b)) b) in
          match write_bytes io (fs_offset s1) data (bw_writer b1) with
          | (w, Ok _) => (set_flush (Some (mkFlushState finish (fs_file_size s1))) (set_writer w b1), Ok tt)
          | (w, Err e) => (set_writer w b1, Err e)
          end
    | _, _ => (b, Err WClosed)
    end.

Definition drain_buffer_to_state (io : WalIo) : ST BufferedWriter WalError bool :=
  fun b =>
    match current_buffer b, bw_flush_state b with
    | Some x, Some _ =>
        if decide (wb_pending_bytes x = 0) then (b, Ok false)
        else
          let '(x1, data) := Buf.drain x in
          let b1 := set_current_buffer x1 b in
          match data with
          | [] => (b1, Ok false)
          | _ =>
              match write_to_flush_state io data b1 with
              | (b2, Err e) => (b2, Err e)
              | (b2, Ok _) => (record_appended (buffered_lsn b2) b2, Ok true)
              end
          end
    | _, _ => (b, Ok false)
    end.

Definition syncback_file_used (b : BufferedWriter) : BufferedWriter :=
  match bw_flush_state b with
  | Some s => set_writer (set_file_size (fs_file_size s) (set_used (fs_offset s) (bw_writer b))) b
  | None => b
  end.

Definition flush_buffered_to_file (io : WalIo) (cloned : bool) : ST BufferedWriter WalError unit :=
  fun b =>
    match bw_buffer b with
    | None => (b, Ok tt)
    | Some _ =>
        let b1 := ensure_flush_state cloned b in
        match bw_flush_state b1 with
        | None => (b1, Ok tt)
        | Some _ =>
            match drain_buffer_to_state io b1 with
            | (b2, Err e) => (b2, Err e)
            | (b2, Ok _) => (request_flush (syncback_file_used b2), Ok tt)
            end
        end
    end.

Definition disable_async_flush (io : WalIo) (cloned : bool) : ST BufferedWriter WalError unit :=
  do! flush_buffered_to_file io cloned in
  st_modify (fun b => set_started false (set_flush None (set_mode None None b))).

(** ** The background thread *)

Definition start_background_flush (cloned : bool) : ST BufferedWriter WalError unit :=
  fun b =>
    if negb (is_async_enabled b) then (b, Err InvalidOperation)
    else if background_started b then (b, Ok tt)
    else
      let b1 := ensure_flush_state cloned (set_started true b) in
      match bw_coordinator b1, bw_flush_state b1 with
      | None, _ => (b1, Err InvalidOperation)
      | _, None => (b1, Err InvalidOperation)
      | Some _, Some _ => (map_coordinator Coord.start_flush_thread b1, Ok tt)
      end.

(** The bytes of a buffer, taken out of it. *)
Definition flush_take (i : nat) (b : BufferedWriter) : BufferedWriter * list Z :=
  match bw_coordinator b with
  | None => (b, [])
  | Some c =>
      match fc_buffers c !! i with
      | None => (b, [])
      | Some x =>
          if decide (wb_pending_bytes x > 0) then
            let '(x1, data) := Buf.drain x in
            (set_mode (bw_buffer b) (Some (Coord.set_buffers (<[i := x1]> (fc_buffers c)) c)) b, data)
          else (b, [])
      end
  end.

(** The flush callback; what it fails to write is gone. *)
Definition flush_put (io : WalIo) (data : list Z) (b : BufferedWriter) : BufferedWriter :=
  match data with
  | [] => b
  | _ =>
      match write_to_flush_state io data b with
      | (b2, Err _) => b2
      | (b2, Ok _) => record_appended (buffered_lsn b2) b2
      end
  end.

(** One buffer of a round. *)
Definition flush_one (io : WalIo) (i : nat) (bt : BufferedWriter * Z) : BufferedWriter * Z :=
  let '(b, total) := bt in
  let '(b1, data) := flush_take i b in
  (flush_put io data b1, total + Z.of_nat (length data)).

(** The thread wakes: the signal is reset. *)
Definition unsignal (c : WalFlushCoordinator) : WalFlushCoordinator :=
  mkFlush (fc_buffers c) false (fc_thread c) (fc_shutdown c) (fc_stats c).

(** The loop body after the wait, over all registered buffers. *)
Definition flush_round (io : WalIo) (notified : bool) (b : BufferedWriter) : BufferedWriter :=
  match bw_coordinator b with
  | Some c =>
      if fc_thread c then
        let r := foldl (fun bt i => flush_one io i bt) (map_coordinator unsignal b, 0)
          (seq 0 (length (fc_buffers c))) in
        map_coordinator (Coord.count_flush notified r.2) r.1
      else b
  | None => b
  end.

(** ** Appending *)

Section append.
Context (crc32 : list Z -> Z).
Context (zstd_encode : Z -> list Z -> option (list Z)).
Context (level : Z).

(** Stage one record behind the last one. *)
Definition stage (x : WalBuffer) (op : WalOpType) (ts : Timestamp) (rt : RecordType)
    (payload : list Z) (c : WalCompression) (b : BufferedWriter) : BufferedWriter :=
  let w := bw_writer b in
  let prev := w_current_lsn w in
  let new := prev + Z.of_nat (WAL_HEADER_SIZE + length payload) in
  let h := build_wal_header crc32 op ts prev new rt payload c w in
  set_staged new (set_writer (set_lsn new w)
    (set_current_buffer (Buf.append (serialize_record h payload) x) b)).

(** Wake the flush thread when the buffer has reached its threshold. *)
Definition wake_if_full (b : BufferedWriter) : BufferedWriter :=
  match current_buffer b with
  | Some x => if Buf.needs_flush x then request_flush b else b
  | None => b
  end.

Fixpoint stage_chunks (op : WalOpType) (ts : Timestamp) (c : WalCompression) (total index : Z)
    (chunks : list (list Z)) (b : BufferedWriter) : BufferedWriter :=
  match chunks with
  | [] => b
  | d :: rest =>
      match current_buffer b with
      | None => b
      | Some x => stage_chunks op ts c total (index + 1) rest
                    (stage x op ts (chunk_record_type total index) d c b)
      end
  end.

Definition append_fragmented_buffered (op : WalOpType) (ts : Timestamp) (payload : list Z)
    (c : WalCompression) : ST BufferedWriter WalError unit :=
  fun b =>
    match current_buffer b with
    | None => (b, Err InvalidOperation)
    | Some _ =>
        (wake_if_full (stage_chunks op ts c
           (div_ceil (Z.of_nat (length payload)) WAL_MAX_RECORD_SIZE) 0
           (chunks_of (length payload) (Z.to_nat WAL_MAX_RECORD_SIZE) payload) b), Ok tt)
    end.

Definition append_entry_buffered (op : WalOpType) (ts : Timestamp) (payload : list Z)
  : ST BufferedWriter WalError unit :=
  do! on_writer check_poisoned in
  do! on_writer require_open in
  let! b := st_get in
  match current_buffer b with
  | None => st_err InvalidOperation
  | Some x =>
      let! pc := st_lift (compress zstd_encode level (cfg_compression (w_config (bw_writer b))) payload) in
      if decide (Z.of_nat (length pc.1) > WAL_MAX_RECORD_SIZE)
      then append_fragmented_buffered op ts pc.1 pc.2
      else st_modify (fun b => wake_if_full (stage x op ts RFull pc.1 pc.2 b))
  end.

Definition append_entry (io : WalIo) (op : WalOpType) (ts : Timestamp) (payload : list Z)
  : ST BufferedWriter WalError unit :=
  let! b := st_get in
  match bw_buffer b with
  | Some _ => append_entry_buffered op ts payload
  | None => on_writer (Writer.append_entry crc32 zstd_encode level io op ts payload)
  end.

Fixpoint append_each (entries : list (WalOpType * Timestamp * list Z))
  : ST BufferedWriter WalError unit :=
  match entries with
  | [] => st_ret tt
  | (op, ts, payload) :: rest => do! append_entry_buffered op ts payload in append_each rest
  end.

(** ** Durability *)

(** [sync_via_file]: the fsync of the flush handle is one of the file. *)
Definition sync_via_file (io : WalIo) : ST BufferedWriter WalError unit :=
  do! on_writer check_poisoned in
  do! st_modify (fun b => record_appended (w_current_lsn (bw_writer b)) b) in
  on_writer (Writer.sync_via_file io).

Definition wait_durable_via_file (io : WalIo) (appended : Lsn) : ST BufferedWriter WalError unit :=
  do! st_modify (record_appended appended) in
  on_writer (Writer.wait_durable_via_file io appended).

Definition drain_if_buffered (io : WalIo) : ST BufferedWriter WalError unit :=
  fun b =>
    match bw_buffer b with
    | Some _ => match drain_buffer_to_state io b with
                | (b1, Err e) => (b1, Err e)
                | (b1, Ok _) => (b1, Ok tt)
                end
    | None => (b, Ok tt)
    end.

Definition sync (io : WalIo) : ST BufferedWriter WalError unit :=
  do! drain_if_buffered io in sync_via_file io.

Definition wait_for_durable (io : WalIo) (appended : Lsn) : ST BufferedWriter WalError unit :=
  do! drain_if_buffered io in wait_durable_via_file io appended.

Definition flush_and_sync (io : WalIo) (cloned : bool) : ST BufferedWriter WalError unit :=
  do! flush_buffered_to_file io cloned in sync_via_file io.

Definition append_batch_with_durability (io : WalIo) (cloned : bool)
    (entries : list (WalOpType * Timestamp * list Z)) (d : DurabilityLevel)
  : ST BufferedWriter WalError unit :=
  do! on_writer check_poisoned in
  do! on_writer require_open in
  let! b := st_get in
  match bw_buffer b with
  | None => on_writer (Writer.append_batch_with_durability crc32 zstd_encode level io entries d)
  | Some _ =>
      do! append_each entries in
      do! st_modify request_flush in
      let! b1 := st_get in
      let new := w_current_lsn (bw_writer b1) in
      match d with
      | DSync =>
          do! flush_buffered_to_file io cloned in
          if w_group_commit (bw_writer b1) then
            do! st_modify (record_appended new) in
            do! st_lift (wio_group io) in
            st_modify (fun b => set_writer (set_synced new (bw_writer b)) b)
          else sync_via_file io
      | _ => st_ret tt
      end
  end.

(** ** Transaction batches *)

Section batches.
Context (intent_to_vec : OutboxIntent -> option (list Z)).
Context (commit_to_vec : TransactionCommit -> option (list Z)).

Definition append_transaction_batch_with_durability (io : WalIo) (cloned : bool)
    (tx : TransactionId) (entries : list TransactionWalEntry) (ints : list OutboxIntent)
    (d : DurabilityLevel) : ST BufferedWriter WalError CommitLsn :=
  let! es := on_writer (build_transaction_entries crc32 intent_to_vec commit_to_vec tx entries ints) in
  do! append_batch_with_durability io cloned (entry_ref <$> es) d in
  let! b := st_get in
  st_ret (w_current_lsn (bw_writer b)).

(** The batch goes to the file, whatever the mode. *)
Definition append_transaction_batch_no_wait (io : WalIo) (tx : TransactionId)
    (entries : list TransactionWalEntry) (ints : list OutboxIntent)
  : ST BufferedWriter WalError CommitLsn :=
  on_writer (Writer.append_transaction_batch_no_wait crc32 zstd_encode level intent_to_vec
    commit_to_vec io tx entries ints).

End batches.
End append.

(** ** Open and close *)

Definition open (io : WalIo) (cloned : bool) (salt1 salt2 created_at thread_id : Z)
    (parsed_lsn : option Lsn) : ST BufferedWriter WalError unit :=
  fun b =>
    if w_is_open (bw_writer b) && negb (w_poisoned (bw_writer b)) then (b, Ok tt)
    else match on_writer (Writer.open io salt1 salt2 created_at thread_id parsed_lsn) b with
         | (b1, Err e) => (b1, Err e)
         | (b1, Ok _) =>
             let b2 := ensure_flush_state cloned b1 in
             (set_staged (w_current_lsn (bw_writer b2)) b2, Ok tt)
         end.

(** [close] drains, stops the thread and syncs; a failure of either poisons the
    writer. *)
Definition close (io : WalIo) (cloned : bool) (b : BufferedWriter) : BufferedWriter :=
  if w_is_open (bw_writer b) then
    let b1 := match flush_buffered_to_file io cloned b with
              | (b1, Ok _) => b1
              | (b1, Err _) => set_writer (poison (bw_writer b1)) b1
              end in
    let b2 := map_coordinator Coord.shutdown b1 in
    set_started false (set_flush None (set_writer (Writer.close io (bw_writer b2)) b2))
  else b.

(** ** Buffered and direct appends *)

(** The background thread runs. *)
Definition background (b : BufferedWriter) : bool :=
  match bw_coordinator b with Some c => fc_thread c | None => false end.

(** The two halves of a round when one buffer is registered. *)
Definition round_take (b : BufferedWriter) : BufferedWriter * list Z :=
  if background b then flush_take 0 (map_coordinator unsignal b) else (b, []).

Definition round_put (io : WalIo) (notified : bool) (data : list Z) (b : BufferedWriter)
  : BufferedWriter :=
  map_coordinator (Coord.count_flush notified (Z.of_nat (length data))) (flush_put io data b).

(** What happens to a buffered writer besides commits: appends, the start of
    the background thread, the two halves of its rounds, drains, syncs. *)
Inductive bop :=
| BAppend (op : WalOpType) (ts : Timestamp) (payload : list Z)
| BStart
| BTake
| BPut (notified : bool)
| BDrain
| BSync.

(** No drain or sync between the halves of a round; whether one is open. *)
Fixpoint quiet (ops : list bop) (busy : bool) : option bool :=
  match ops with
  | [] => Some busy
  | BTake :: rest => quiet rest true
  | BPut _ :: rest => quiet rest false
  | BDrain :: rest | BSync :: rest => if busy then None else quiet rest false
  | BAppend _ _ _ :: rest | BStart :: rest => quiet rest busy
  end.

Section refinement.
Context (crc32 : list Z -> Z).
Context (zstd_encode : Z -> list Z -> option (list Z)).
Context (level : Z).

(** The writer, the bytes the thread holds, and the results of the appends in
    order; file operations succeed.  A thread that holds bytes takes no more. *)
Fixpoint brun (ops : list bop) (bd : BufferedWriter * list Z)
  : BufferedWriter * list Z * list (result unit WalError) :=
  let '(b, d) := bd in
  match ops with
  | [] => (b, d, [])
  | BAppend op ts p :: rest =>
      let r := append_entry crc32 zstd_encode level wio_ok op ts p b in
      let r1 := brun rest (r.1, d) in (r1.1, r.2 :: r1.2)
  | BStart :: rest => brun rest ((start_background_flush true b).1, d)
  | BTake :: rest => brun rest (match d with [] => round_take b | _ => (b, d) end)
  | BPut n :: rest => brun rest (round_put wio_ok n d b, [])
  | BDrain :: rest => brun rest ((drain_buffer_to_state wio_ok b).1, d)
  | BSync :: rest => brun rest ((sync wio_ok b).1, d)
  end.

Fixpoint drun (ops : list bop) (w : LocalWalWriter) : LocalWalWriter * list (result unit WalError) :=
  match ops with
  | [] => (w, [])
  | BAppend op ts p :: rest =>
      let r := Writer.append_entry crc32 zstd_encode level wio_ok op ts p w in
      let r1 := drun rest r.1 in (r1.1, r.2 :: r1.2)
  | _ :: rest => drun rest w
  end.

(** The log of a direct writer, and what a buffered one has in its file. *)
Definition dlog (w : LocalWalWriter) : list Z :=
  take (Z.to_nat (w_file_used w)) (default [] (w_file w)).

Definition flushed (b : BufferedWriter) : list Z :=
  match bw_flush_state b with
  | Some s => take (Z.to_nat (fs_offset s)) (default [] (w_file (bw_writer b)))
  | None => []
  end.

#[local] Arguments serialize_record : simpl never.

(** A direct writer whose log is [log]. *)
Record dstate (log : list Z) (w : LocalWalWriter) : Prop := {
  ds_file : exists z, w_file w = Some (log ++ replicate z 0);
  ds_used : w_file_used w = Z.of_nat (length log);
  ds_step : 0 < truncate_size (w_config w);
  ds_open : w_is_open w = true;
  ds_poison : w_poisoned w = false;
}.

Lemma dstate_log log w : dstate log w -> dlog w = log.
Proof.
  intros [[z Hf] Hu _ _ _]. unfold dlog. rewrite Hf, Hu, Nat2Z.id. simpl. apply take_app_length.
Qed.

Lemma ensure_room_ok n log w :
  dstate log w -> 0 <= n ->
  exists w1, ensure_room wio_ok n w = (w1, Ok tt) /\ dstate log w1 /\
    w_current_lsn w1 = w_current_lsn w /\ w_config w1 = w_config w.
Proof.
  intros D Hn. pose proof D as [[z Hf] Hu Hs Ho Hp]. unfold ensure_room. rewrite Hf.
  case_decide; [|by exists w]. simpl. eexists. split; [reflexivity|]. split; [|done].
  split; simpl; try done. eexists. f_equal. apply WalCrash.set_len_grow. rewrite Hu.
  pose proof (Z.mul_succ_div_gt (Z.of_nat (length log) + n) _ Hs). nia.
Qed.

Lemma write_bytes_ok data log w :
  dstate log w -> exists z,
    write_bytes wio_ok (w_file_used w) data w =
    (set_file (Some (log ++ data ++ replicate z 0)) w, Ok tt).
Proof.
  intros [[z Hf] Hu _ _ _]. unfold write_bytes. rewrite Hf. simpl.
  rewrite Hu, Nat2Z.id, WalCrash.write_at_end. by eexists.
Qed.

Lemma sync_after_write_ok log w :
  dstate log w -> exists w', sync_after_write wio_ok w = (w', Ok tt) /\ dstate log w' /\
    w_current_lsn w' = w_current_lsn w /\ w_config w' = w_config w.
Proof.
  intros [D1 D2 D3 D4 D5]. unfold sync_after_write. simpl.
  case_match; eexists; (split; [reflexivity|]); (split; [|done]); by split.
Qed.

(** A record appended directly. *)
Lemma write_entry_ok h p new log w :
  dstate log w ->
  exists w', write_entry wio_ok h p new w = (w', Ok tt) /\
    dstate (log ++ serialize_record h p) w' /\ w_current_lsn w' = new /\
    w_config w' = w_config w.
Proof.
  intros D. assert (length (serialize_record h p) = (WAL_HEADER_SIZE + length p)%nat) as Hl
    by (unfold serialize_record; by rewrite length_app, Header.length_as_bytes).
  unfold write_entry, st_bind, st_get, st_modify.
  destruct (ensure_room_ok (Z.of_nat (WAL_HEADER_SIZE + length p)) log w D)
    as (w1 & -> & D1 & _ & C1); [lia|].
  destruct (write_bytes_ok (serialize_record h p) log w1 D1) as [z ->].
  set (w2 := set_lsn _ _). destruct D1 as [_ U1 S1 O1 P1].
  destruct (sync_after_write_ok (log ++ serialize_record h p) w2) as (w3 & -> & D3 & L3 & C3).
  - subst w2. split; simpl; try done; [|rewrite length_app, Hl, U1; unfold WAL_HEADER_SIZE; lia].
    eexists. by rewrite <- app_assoc.
  - exists w3. split; [done|]. split; [done|]. by rewrite L3, C3.
Qed.

(** ** The bytes an entry becomes *)

Definition record_at (cfg : WalConfig) (lsn : Lsn) (op : WalOpType) (ts : Timestamp)
    (rt : RecordType) (p : list Z) (c : WalCompression) : list Z :=
  serialize_record (build_wal_header crc32 op ts lsn
    (lsn + Z.of_nat (WAL_HEADER_SIZE + length p)) rt p c (Writer.with_config cfg)) p.

Arguments record_at : simpl never.

Fixpoint chunk_bytes (cfg : WalConfig) (lsn : Lsn) (op : WalOpType) (ts : Timestamp)
    (c : WalCompression) (total index : Z) (chunks : list (list Z)) : list Z :=
  match chunks with
  | [] => []
  | d :: rest =>
      let r := record_at cfg lsn op ts (chunk_record_type total index) d c in
      r ++ chunk_bytes cfg (lsn + Z.of_nat (length r)) op ts c total (index + 1) rest
  end.

Definition entry_bytes (cfg : WalConfig) (lsn : Lsn) (op : WalOpType) (ts : Timestamp)
    (payload : list Z) : result (list Z) WalError :=
  match compress zstd_encode level (cfg_compression cfg) payload with
  | Err e => Err e
  | Ok (p, c) => Ok
      (if decide (Z.of_nat (length p) > WAL_MAX_RECORD_SIZE)
       then chunk_bytes cfg lsn op ts c (div_ceil (Z.of_nat (length p)) WAL_MAX_RECORD_SIZE) 0
              (chunks_of (length p) (Z.to_nat WAL_MAX_RECORD_SIZE) p)
       else record_at cfg lsn op ts RFull p c)
  end.

Lemma record_at_writer w op ts prev rt p c :
  serialize_record (build_wal_header crc32 op ts prev
    (prev + Z.of_nat (WAL_HEADER_SIZE + length p)) rt p c w) p =
  record_at (w_config w) prev op ts rt p c.
Proof. done. Qed.

Lemma length_record_at cfg lsn op ts rt p c :
  Z.of_nat (length (record_at cfg lsn op ts rt p c)) = Z.of_nat (WAL_HEADER_SIZE + length p).
Proof. unfold record_at, serialize_record. by rewrite length_app, Header.length_as_bytes. Qed.

(** ** Direct appends *)

Lemma append_chunks_direct op ts c total chunks index log w :
  dstate log w ->
  exists w', append_chunks crc32 wio_ok op ts c total index chunks w = (w', Ok tt) /\
    let bytes := chunk_bytes (w_config w) (w_current_lsn w) op ts c total index chunks in
    dstate (log ++ bytes) w' /\ w_config w' = w_config w /\
    w_current_lsn w' = w_current_lsn w + Z.of_nat (length bytes).
Proof.
  revert index log w. induction chunks as [|d rest IH]; intros index log w D.
  - exists w. cbn [append_chunks chunk_bytes]. rewrite app_nil_r. simpl. split_and!; try done. lia.
  - cbn [append_chunks chunk_bytes]. unfold st_bind at 1, st_get. unfold st_bind.
    edestruct write_entry_ok as (w1 & -> & D1 & L1 & C1); [exact D|].
    rewrite record_at_writer in D1. destruct (IH (index + 1) _ w1 D1) as (w' & E & D' & C' & L').
    exists w'. split; [exact E|]. cbv zeta in *. rewrite C1, L1 in *.
    rewrite <- app_assoc in D'. rewrite length_app, Nat2Z.inj_add, length_record_at.
    split; [done|]. split; [done|]. rewrite L'. lia.
Qed.

Lemma append_entry_direct op ts payload log w :
  dstate log w ->
  match entry_bytes (w_config w) (w_current_lsn w) op ts payload with
  | Err e => Writer.append_entry crc32 zstd_encode level wio_ok op ts payload w = (w, Err e)
  | Ok bytes => exists w',
      Writer.append_entry crc32 zstd_encode level wio_ok op ts payload w = (w', Ok tt) /\
      dstate (log ++ bytes) w' /\ w_config w' = w_config w /\
      w_current_lsn w' = w_current_lsn w + Z.of_nat (length bytes)
  end.
Proof.
  intros D. pose proof D as [_ _ _ Ho Hp]. unfold entry_bytes, Writer.append_entry, st_bind,
    check_poisoned, require_open, st_get, st_lift. rewrite Hp, Ho.
  destruct (compress _ _ _ payload) as [[p c]|e]; [|done]. simpl. case_decide.
  - destruct (append_chunks_direct op ts c (div_ceil (Z.of_nat (length p)) WAL_MAX_RECORD_SIZE)
      (chunks_of (length p) (Z.to_nat WAL_MAX_RECORD_SIZE) p) 0 log w D) as (w' & E & D').
    exists w'. by split.
  - unfold append_single_entry, st_bind, st_get.
    edestruct write_entry_ok as (w' & E & D' & L' & C'); [exact D|].
    exists w'. split; [exact E|]. rewrite record_at_writer in D'. split; [done|]. split; [done|].
    by rewrite length_record_at.
Qed.


(** ** Buffered appends *)

(** A buffered writer that has flushed [pre] and staged [buf]. *)
Record bstate (pre buf : list Z) (b : BufferedWriter) : Prop := {
  bs_file : exists z, w_file (bw_writer b) = Some (pre ++ replicate z 0);
  bs_state : exists s, bw_flush_state b = Some s /\ fs_offset s = Z.of_nat (length pre);
  bs_mode : bw_buffer b = Some 0%nat;
  bs_buffer : exists c x, bw_coordinator b = Some c /\ fc_buffers c = [x] /\
    wb_buffer x = buf /\ wb_pending_bytes x = Z.of_nat (length buf);
  bs_open : w_is_open (bw_writer b) = true;
  bs_poison : w_poisoned (bw_writer b) = false;
  bs_async : cfg_async_flush b = true;
}.

(** The LSN and the configuration of the writer. *)
Definition same_lsn (b b' : BufferedWriter) : Prop :=
  w_current_lsn (bw_writer b') = w_current_lsn (bw_writer b) /\
  w_config (bw_writer b') = w_config (bw_writer b).

#[local] Instance same_lsn_trans : Transitive same_lsn.
Proof. intros b1 b2 b3 [L1 C1] [L2 C2]. split; congruence. Qed.

Lemma bstate_buffer pre buf b :
  bstate pre buf b -> exists x, current_buffer b = Some x /\ wb_buffer x = buf /\
    wb_pending_bytes x = Z.of_nat (length buf).
Proof.
  intros [_ _ Hm (c & x & Hc & Hx & Hb & Hp) _ _]. exists x. unfold current_buffer.
  by rewrite Hc, Hm, Hx.
Qed.

Lemma stage_ok pre buf b x op ts rt p c :
  bstate pre buf b -> current_buffer b = Some x ->
  let r := record_at (w_config (bw_writer b)) (w_current_lsn (bw_writer b)) op ts rt p c in
  Z.of_nat (length (buf ++ r)) < 2 ^ 64 ->
  let b' := stage crc32 x op ts rt p c b in
  bstate pre (buf ++ r) b' /\ w_config (bw_writer b') = w_config (bw_writer b) /\
  w_current_lsn (bw_writer b') = w_current_lsn (bw_writer b) + Z.of_nat (length r).
Proof.
  intros [Hf Hs Hm (co & x' & Hc & Hx & Hb & Hp) Ho Hq]. unfold current_buffer.
  rewrite Hc, Hm, Hx. intros [= ->]. cbv zeta. intros Hl.
  rewrite length_record_at. unfold stage, set_current_buffer. cbv zeta.
  rewrite Hc, Hm, Hx, record_at_writer. split; [|done]. split; simpl; try done. eexists _, (Buf.append _ x). split; [reflexivity|]. split; [reflexivity|].
  cbn [Buf.append wb_buffer wb_pending_bytes]. rewrite Hb. split; [done|]. rewrite length_app, Nat2Z.inj_add in *.
  rewrite Hp, wrap_u64_small; [done|]. unfold is_u64, U64_MAX. lia.
Qed.

Lemma map_coordinator_bstate pre buf b f :
  (forall c, fc_buffers (f c) = fc_buffers c) -> bstate pre buf b ->
  bstate pre buf (map_coordinator f b).
Proof.
  intros Hf [? ? Hm (c & x & Hc & Hx & Hb) Ho Hq]. split; simpl; try done.
  exists (f c), x. by rewrite Hc, Hf.
Qed.

Lemma wake_if_full_ok pre buf b :
  bstate pre buf b -> bstate pre buf (wake_if_full b) /\ bw_writer (wake_if_full b) = bw_writer b.
Proof.
  intros B. unfold wake_if_full. destruct (current_buffer b); [|done]. case_match; [|done].
  split; [|done]. by apply map_coordinator_bstate.
Qed.

Lemma stage_chunks_ok op ts c total chunks index pre buf b :
  bstate pre buf b ->
  let bytes := chunk_bytes (w_config (bw_writer b)) (w_current_lsn (bw_writer b)) op ts c total
    index chunks in
  Z.of_nat (length (buf ++ bytes)) < 2 ^ 64 ->
  let b' := stage_chunks crc32 op ts c total index chunks b in
  bstate pre (buf ++ bytes) b' /\ w_config (bw_writer b') = w_config (bw_writer b) /\
  w_current_lsn (bw_writer b') = w_current_lsn (bw_writer b) + Z.of_nat (length bytes).
Proof.
  revert index buf b. induction chunks as [|d rest IH]; intros index buf b B; cbv zeta;
    cbn [stage_chunks chunk_bytes]; intros Hl.
  - rewrite app_nil_r. simpl. split_and!; try done. lia.
  - destruct (bstate_buffer _ _ _ B) as (x & Hx & _). rewrite Hx.
    rewrite app_assoc in Hl |- *. rewrite length_app in Hl.
    destruct (stage_ok pre buf b x op ts (chunk_record_type total index) d c B Hx)
      as (B1 & C1 & L1); [lia|]. cbv zeta in *.
    specialize (IH (index + 1) _ _ B1). cbv zeta in IH. rewrite C1, L1 in IH.
    rewrite length_app in IH. specialize (IH Hl) as (B2 & C2 & L2).
    split; [done|]. split; [done|]. rewrite L2, (length_app (record_at _ _ _ _ _ _ _)). lia.
Qed.

Lemma append_entry_staged op ts payload pre buf b :
  bstate pre buf b ->
  match entry_bytes (w_config (bw_writer b)) (w_current_lsn (bw_writer b)) op ts payload with
  | Err e => append_entry crc32 zstd_encode level wio_ok op ts payload b = (b, Err e)
  | Ok bytes => Z.of_nat (length (buf ++ bytes)) < 2 ^ 64 -> exists b',
      append_entry crc32 zstd_encode level wio_ok op ts payload b = (b', Ok tt) /\
      bstate pre (buf ++ bytes) b' /\ w_config (bw_writer b') = w_config (bw_writer b) /\
      w_current_lsn (bw_writer b') = w_current_lsn (bw_writer b) + Z.of_nat (length bytes)
  end.
Proof.
  intros B. destruct (bstate_buffer _ _ _ B) as (x & Hx & _). pose proof B as [_ _ Hm _ Ho Hp].
  assert (set_writer (bw_writer b) b = b) as Hid by by destruct b.
  unfold append_entry, append_entry_buffered, entry_bytes, st_bind, st_get, on_writer,
    check_poisoned, require_open, st_lift. rewrite Hm. cbv zeta. cbn [fst snd].
  rewrite Hp, Hid, Ho. cbn [fst snd]. rewrite Hid, Hx.
  destruct (compress _ _ _ payload) as [[p c]|e]; [|done]. cbn [fst snd]. case_decide; intros Hl.
  - unfold append_fragmented_buffered. rewrite Hx. eexists. split; [reflexivity|].
    destruct (stage_chunks_ok op ts c (div_ceil (Z.of_nat (length p)) WAL_MAX_RECORD_SIZE)
      (chunks_of (length p) (Z.to_nat WAL_MAX_RECORD_SIZE) p) 0 pre buf b B Hl) as (B1 & C1 & L1).
    destruct (wake_if_full_ok _ _ _ B1) as [B2 ->]. done.
  - unfold st_modify. eexists. split; [reflexivity|].
    destruct (stage_ok pre buf b x op ts RFull p c B Hx Hl) as (B1 & C1 & L1).
    destruct (wake_if_full_ok _ _ _ B1) as [B2 ->]. done.
Qed.


(** ** Draining *)

Lemma write_to_flush_state_ok data pre buf b :
  bstate pre buf b ->
  exists b', write_to_flush_state wio_ok data b = (b', Ok tt) /\
    bstate (pre ++ data) buf b' /\ same_lsn b b' /\ bw_coordinator b' = bw_coordinator b /\
    w_group_commit (bw_writer b') = w_group_commit (bw_writer b).
Proof.
  intros [[z Hf] (s & Hs & Ho) Hm Hb Hop Hp]. unfold write_to_flush_state. rewrite Hs, Hf. simpl.
  rewrite andb_false_r. set (g := bool_decide _).
  assert (exists z1, (if g then set_len (Z.to_nat (fs_offset s + Z.of_nat (length data)))
    (pre ++ replicate z 0) else pre ++ replicate z 0) = pre ++ replicate z1 0) as [z1 Hz].
  { destruct g; [|by exists z]. rewrite WalCrash.set_len_grow; [by eexists|]. lia. }
  assert (fs_offset (if g then mkFlushState (fs_offset s) (fs_offset s + Z.of_nat (length data)) else s)
    = Z.of_nat (length pre)) as Hoff by by destruct g.
  unfold write_bytes. simpl. rewrite Hz, Hoff, Nat2Z.id, WalCrash.write_at_end.
  eexists. split; [reflexivity|]. split; [|done]. split; simpl; try done.
  - eexists. by rewrite <- app_assoc.
  - eexists. split; [reflexivity|]. simpl. rewrite length_app. lia.
Qed.

Lemma record_appended_ok n pre buf b :
  bstate pre buf b -> bstate pre buf (record_appended n b) /\ same_lsn b (record_appended n b).
Proof. unfold record_appended. intros [? ? ? ? ? ?]. by case_match. Qed.

Lemma drain_ok pre buf b :
  bstate pre buf b ->
  exists b' r, drain_buffer_to_state wio_ok b = (b', Ok r) /\ bstate (pre ++ buf) [] b' /\
    same_lsn b b'.
Proof.
  intros B. pose proof B as [Hf (s & Hs & Ho) Hm (c & x & Hc & Hx & Hb & Hp) Hop Hq].
  unfold drain_buffer_to_state, current_buffer. rewrite Hc, Hm, Hx, Hs. simpl.
  case_decide as Hz.
  - exists b, false. split; [done|]. rewrite Hp in Hz. destruct buf; [|done].
    rewrite app_nil_r. done.
  - unfold set_current_buffer. rewrite Hc, Hm, Hx, Hb. simpl.
    destruct buf as [|y buf]; [by rewrite Hp in Hz|]. set (b1 := set_mode _ _ b).
    assert (bstate pre [] b1) as B1.
    { subst b1. split; simpl; try done; [by exists s|]. by eexists _, _. }
    destruct (write_to_flush_state_ok (y :: buf) pre [] b1 B1) as (b2 & -> & B2 & S2 & _).
    destruct (record_appended_ok (buffered_lsn b2) _ _ _ B2) as [B3 S3].
    eexists _, true. split; [reflexivity|]. split; [done|]. exact (transitivity (x:=b) S2 S3).
Qed.

Lemma flush_put_ok data pre buf b :
  bstate pre buf b ->
  bstate (pre ++ data) buf (flush_put wio_ok data b) /\ same_lsn b (flush_put wio_ok data b).
Proof.
  intros B. destruct data as [|y data]; [by rewrite app_nil_r|]. unfold flush_put.
  destruct (write_to_flush_state_ok (y :: data) pre buf b B) as (b2 & -> & B2 & S2 & _).
  destruct (record_appended_ok (buffered_lsn b2) _ _ _ B2) as [B3 S3].
  split; [done|]. exact (transitivity (x:=b) S2 S3).
Qed.

(** Taking leaves the buffer empty. *)
Lemma flush_take_ok pre buf b :
  bstate pre buf b ->
  exists b1, flush_take 0 b = (b1, buf) /\ bstate pre [] b1 /\ same_lsn b b1.
Proof.
  intros B. pose proof B as [Hf (s & Hs & Ho) Hm (c & x & Hc & Hx & Hb & Hp) Hop Hq].
  unfold flush_take. rewrite Hc, Hx. simpl (_ !! 0%nat). cbv iota.
  case_decide as Hz.
  - unfold Buf.drain. cbv iota beta. rewrite Hb. eexists. split; [reflexivity|]. split; [|done].
    split; simpl; try done; [by exists s|]. by eexists _, _.
  - assert (buf = []) as -> by (rewrite Hp in Hz; destruct buf; [done|simpl in Hz; lia]).
    by exists b.
Qed.

Lemma round_take_ok pre buf b :
  bstate pre buf b ->
  exists b1 buf1, round_take b = (b1, if background b then buf else []) /\ bstate pre buf1 b1 /\
    same_lsn b b1 /\ (if background b then buf else []) ++ buf1 = buf.
Proof.
  intros B. unfold round_take. destruct (background b); [|by exists b, buf].
  destruct (flush_take_ok pre buf (map_coordinator unsignal b)) as (b1 & E & B1 & S1).
  { by apply map_coordinator_bstate. }
  exists b1, []. rewrite app_nil_r. by split_and!.
Qed.

Lemma round_put_ok n data pre buf b :
  bstate pre buf b ->
  bstate (pre ++ data) buf (round_put wio_ok n data b) /\ same_lsn b (round_put wio_ok n data b).
Proof.
  intros B. destruct (flush_put_ok data _ _ _ B) as [B1 S1]. split; [|exact S1].
  apply map_coordinator_bstate; [|done]. intros c. unfold Coord.count_flush. by case_decide.
Qed.

(** A round is its two halves. *)
Lemma flush_round_halves n pre buf b :
  bstate pre buf b -> background b = true ->
  flush_round wio_ok n b = let '(b1, data) := round_take b in round_put wio_ok n data b1.
Proof.
  intros [_ _ _ (c & x & Hc & Hx & _) _ _]. unfold round_take, flush_round, round_put, background.
  rewrite Hc. intros Ht. rewrite Ht, Hx. cbn [length seq foldl]. unfold flush_one.
  destruct (flush_take 0 (map_coordinator unsignal b)) as [b1 data]. simpl. by rewrite Z.add_0_l.
Qed.

(** Starting the thread. *)
Lemma start_background_ok pre buf b :
  bstate pre buf b ->
  (start_background_flush true b).2 = Ok tt /\
  bstate pre buf (start_background_flush true b).1 /\
  same_lsn b (start_background_flush true b).1.
Proof.
  intros B. pose proof B as [Hf (s & Hs & Ho) Hm (c & x & Hc & Hx & Hb & Hp) Hop Hq Ha].
  unfold start_background_flush, is_async_enabled. rewrite Hm, Ha. simpl.
  destruct (background_started b); [done|]. cbv zeta.
  assert (ensure_flush_state true (set_started true b) = set_started true b) as ->.
  { unfold ensure_flush_state. simpl. by rewrite Hs. }
  simpl. rewrite Hs, Hc. simpl. split; [done|]. split; [|done].
  apply map_coordinator_bstate; [done|]. split; simpl; try done; [by exists s|by exists c, x].
Qed.

Lemma buffered_sync_ok pre buf b :
  bstate pre buf b ->
  exists b', sync wio_ok b = (b', Ok tt) /\ bstate (pre ++ buf) [] b' /\ same_lsn b b' /\
    w_last_synced_lsn (bw_writer b') = w_current_lsn (bw_writer b).
Proof.
  intros B. destruct (drain_ok _ _ _ B) as (b1 & r & E & B1 & [L1 C1]).
  destruct (record_appended_ok (w_current_lsn (bw_writer b1)) _ _ _ B1) as [B2 [L2 C2]].
  pose proof B as [_ _ Hm _ _ _]. pose proof B1 as [_ _ _ _ _ Hp1].
  pose proof B2 as [[z Hf] Hs Hm2 Hb2 Ho Hp].
  assert (set_writer (bw_writer b1) b1 = b1) as Hid by by destruct b1.
  unfold sync, drain_if_buffered, sync_via_file, Writer.sync_via_file, st_bind, st_modify, st_get,
    on_writer, check_poisoned, st_lift. rewrite Hm, E. cbv zeta. cbn [fst snd]. rewrite Hp1, Hid.
  set (b2 := record_appended _ b1) in *. rewrite Hp, Hf. cbn [fst snd].
  simpl (wio_group _). simpl (wio_sync _). cbv iota.
  eexists. destruct (w_group_commit (bw_writer b2)); (split; [reflexivity|]);
    (split; [split; simpl; try done; by eexists|]); (split; [split; simpl; congruence|]);
    simpl; congruence.
Qed.


(** ** Refinement *)

(** The direct writer has written what the buffered one has flushed, what its
    thread holds and what is staged. *)
Definition bsim (bd : BufferedWriter * list Z) (busy : bool) (w : LocalWalWriter) : Prop :=
  exists pre buf, bstate pre buf bd.1 /\ dstate (pre ++ bd.2 ++ buf) w /\
    w_current_lsn (bw_writer bd.1) = w_current_lsn w /\ w_config (bw_writer bd.1) = w_config w /\
    Z.of_nat (length (bd.2 ++ buf)) <= w_current_lsn w /\ (busy = false -> bd.2 = []).

Lemma bsim_flush b b' w pre d buf pre' d' buf' busy :
  dstate (pre ++ d ++ buf) w -> w_current_lsn (bw_writer b) = w_current_lsn w ->
  w_config (bw_writer b) = w_config w -> Z.of_nat (length (d ++ buf)) <= w_current_lsn w ->
  pre' ++ d' ++ buf' = pre ++ d ++ buf -> (length (d' ++ buf') <= length (d ++ buf))%nat ->
  bstate pre' buf' b' -> same_lsn b b' -> (busy = false -> d' = []) -> bsim (b', d') busy w.
Proof.
  intros D L C Hl E Hb B [L' C'] Hd. exists pre', buf'. simpl. rewrite E, L', C'.
  split_and!; try done. lia.
Qed.

Lemma drun_mono ops log w :
  dstate log w ->
  (exists log', dstate log' (drun ops w).1) /\ w_current_lsn w <= w_current_lsn (drun ops w).1.
Proof.
  revert log w. induction ops as [|[op ts p| | |n| |] ops IH]; intros log w D; simpl;
    [by split; [eexists|]| |by eapply IH..].
  pose proof (append_entry_direct op ts p log w D) as H.
  destruct (entry_bytes _ _ op ts p) as [bytes|e]; [|rewrite H; by eapply IH].
  destruct H as (w' & -> & D' & _ & L'). simpl. destruct (IH _ _ D') as [H1 H2].
  split; [done|]. lia.
Qed.

Lemma bsim_append op ts p b d busy w :
  bsim (b, d) busy w ->
  w_current_lsn (Writer.append_entry crc32 zstd_encode level wio_ok op ts p w).1 < 2 ^ 64 ->
  bsim ((append_entry crc32 zstd_encode level wio_ok op ts p b).1, d) busy
    (Writer.append_entry crc32 zstd_encode level wio_ok op ts p w).1 /\
  (append_entry crc32 zstd_encode level wio_ok op ts p b).2 =
    (Writer.append_entry crc32 zstd_encode level wio_ok op ts p w).2.
Proof.
  intros (pre & buf & B & D & L & C & Hl & Hd). simpl in *.
  pose proof (append_entry_direct op ts p _ _ D) as H1.
  pose proof (append_entry_staged op ts p _ _ _ B) as H2. rewrite L, C in H2.
  destruct (entry_bytes _ _ op ts p) as [bytes|e].
  - destruct H1 as (w' & -> & D' & C' & L'). simpl. intros Hb. rewrite length_app in Hl.
    destruct H2 as (b' & -> & B' & C2 & L2); [rewrite length_app; lia|].
    split; [|done]. exists pre, (buf ++ bytes). simpl. rewrite !app_assoc in *. split_and!; try done.
    + by rewrite L2.
    + by rewrite C2.
    + rewrite !length_app in *. lia.
  - rewrite H1, H2. intros _. split; [|done]. by exists pre, buf.
Qed.

(** The steps that do not append keep the simulation. *)
Lemma bsim_start b d busy w :
  bsim (b, d) busy w -> bsim ((start_background_flush true b).1, d) busy w.
Proof.
  intros (pre & buf & B & D & L & C & Hl & Hd). simpl in *.
  destruct (start_background_ok _ _ _ B) as (_ & B' & S').
  by eapply (bsim_flush b _ w pre d buf pre d buf).
Qed.

Lemma bsim_take b d busy w :
  bsim (b, d) busy w -> bsim (match d with [] => round_take b | _ => (b, d) end) true w.
Proof.
  intros (pre & buf & B & D & L & C & Hl & Hd). simpl in *.
  destruct d as [|y d]; [|by exists pre, buf].
  destruct (round_take_ok _ _ _ B) as (b1 & buf1 & -> & B1 & S1 & E).
  eapply (bsim_flush b b1 w pre [] buf pre _ buf1); try done; simpl; by rewrite E.
Qed.

Lemma bsim_put n b d busy w :
  bsim (b, d) busy w -> bsim (round_put wio_ok n d b, []) false w.
Proof.
  intros (pre & buf & B & D & L & C & Hl & Hd). simpl in *.
  destruct (round_put_ok n d _ _ _ B) as [B' S'].
  eapply (bsim_flush b _ w pre d buf (pre ++ d) [] buf); try done; simpl.
  - by rewrite <- app_assoc.
  - rewrite length_app. lia.
Qed.

Lemma bsim_drain b d w :
  bsim (b, d) false w -> bsim ((drain_buffer_to_state wio_ok b).1, d) false w.
Proof.
  intros (pre & buf & B & D & L & C & Hl & Hd). simpl in *. rewrite Hd in * by done.
  destruct (drain_ok _ _ _ B) as (b' & r & -> & B' & S').
  eapply (bsim_flush b _ w pre [] buf (pre ++ buf) [] []); try done; simpl; [|lia].
  by rewrite app_nil_r.
Qed.

Lemma bsim_sync b d w :
  bsim (b, d) false w -> bsim ((sync wio_ok b).1, d) false w.
Proof.
  intros (pre & buf & B & D & L & C & Hl & Hd). simpl in *. rewrite Hd in * by done.
  destruct (buffered_sync_ok _ _ _ B) as (b' & -> & B' & S' & _).
  eapply (bsim_flush b _ w pre [] buf (pre ++ buf) [] []); try done; simpl; [|lia].
  by rewrite app_nil_r.
Qed.

Lemma bsim_run ops b d busy busy' w :
  bsim (b, d) busy w -> quiet ops busy = Some busy' -> w_current_lsn (drun ops w).1 < 2 ^ 64 ->
  bsim (brun ops (b, d)).1 busy' (drun ops w).1 /\ (brun ops (b, d)).2 = (drun ops w).2.
Proof.
  revert b d busy w. induction ops as [|[op ts p| | |n| |] ops IH]; intros b d busy w S Hq Hb.
  - by injection Hq as <-.
  - cbn [brun drun quiet] in *. cbv zeta in *. cbn [fst snd] in *.
    assert (exists log, dstate log (Writer.append_entry crc32 zstd_encode level wio_ok op ts p w).1)
      as [log D].
    { destruct S as (pre & buf & _ & D & _). apply (drun_mono [BAppend op ts p] _ _ D). }
    destruct (drun_mono ops _ _ D) as [_ Hm].
    destruct (bsim_append op ts p b d busy w S) as [S' ->]; [lia|].
    destruct (IH _ _ _ _ S' Hq Hb) as [H1 ->]. done.
  - cbn [brun drun quiet] in *. eapply IH; [by apply bsim_start|done|done].
  - cbn [brun drun quiet] in *. pose proof (bsim_take _ _ _ _ S) as S'.
    destruct (match d with [] => round_take b | _ => (b, d) end) as [b' d']. by eapply IH.
  - cbn [brun drun quiet] in *. eapply IH; [by eapply bsim_put|done|done].
  - cbn [brun drun quiet] in *. destruct busy; [done|]. eapply IH; [by apply bsim_drain|done|done].
  - cbn [brun drun quiet] in *. destruct busy; [done|]. eapply IH; [by apply bsim_sync|done|done].
Qed.

Lemma flushed_bstate pre buf b : bstate pre buf b -> flushed b = pre.
Proof.
  intros [[z Hf] (s & Hs & Ho) _ _ _ _]. unfold flushed. rewrite Hs, Hf, Ho, Nat2Z.id. simpl.
  apply take_app_length.
Qed.

Lemma bsim_enable log w staged size appended :
  dstate log w -> 0 <= w_current_lsn w ->
  bsim (enable_async_flush true (mkBuffered w None None None staged false true size appended), [])
    false w.
Proof.
  intros D Hl. pose proof D as [[z Hf] Hu Hs Ho Hp]. exists log, [].
  unfold enable_async_flush, enable_async_buffer, ensure_flush_state. simpl. rewrite Hf. simpl.
  split_and!; try done; [|by rewrite app_nil_r].
  split; simpl; try done; [by eexists|by eexists|]. by eexists _, _.
Qed.

(** [C9] The buffered mode is the direct mode delayed.  Take an open writer and
    enable the buffer; let appends, starts of the background thread, the two
    halves of its rounds (taking the staged bytes, writing them), drains and
    syncs follow in any order in which no drain or sync falls between the two
    halves of a round, with file operations that succeed.  Then each append
    returns what the direct append would and the LSNs are the same; what is in
    the file is at every moment a prefix of the direct log; and when no round
    is open, a sync, or a full round of a running thread, makes it the whole
    direct log, byte for byte. *)
Theorem buffered_refines_direct log w staged size appended ops busy :
  dstate log w -> 0 <= w_current_lsn w -> w_current_lsn (drun ops w).1 < 2 ^ 64 ->
  quiet ops false = Some busy ->
  let b0 := enable_async_flush true (mkBuffered w None None None staged false true size appended) in
  let '(b, d, rs) := brun ops (b0, []) in
  let w' := (drun ops w).1 in
  rs = (drun ops w).2 /\
  w_current_lsn (bw_writer b) = w_current_lsn w' /\
  flushed b `prefix_of` dlog w' /\
  (busy = false ->
     (sync wio_ok b).2 = Ok tt /\ flushed (sync wio_ok b).1 = dlog w' /\
     forall n, background b = true -> flushed (flush_round wio_ok n b) = dlog w').
Proof.
  intros D Hl Hb Hq. cbv zeta.
  destruct (bsim_run ops _ [] false busy w (bsim_enable log w staged size appended D Hl) Hq Hb)
    as [(pre & buf & B & D' & L & C & _ & Hd) Hr].
  destruct (brun ops _) as [[b d] rs]. simpl in *.
  rewrite (dstate_log _ _ D'), (flushed_bstate _ _ _ B).
  split_and!; [done|done|by exists (d ++ buf)|]. intros E. rewrite (Hd E). simpl.
  destruct (buffered_sync_ok _ _ _ B) as (b' & -> & B' & _). simpl.
  rewrite (flushed_bstate _ _ _ B'). split_and!; [done|done|]. intros n Hbg.
  rewrite (flush_round_halves n _ _ _ B Hbg).
  destruct (round_take_ok _ _ _ B) as (b1 & buf1 & -> & B1 & _ & _). rewrite Hbg.
  destruct (round_put_ok n buf _ _ _ B1) as [B2 _]. by rewrite (flushed_bstate _ _ _ B2).
Qed.

(** A sync between the halves of a round acknowledges bytes that are not in the
    file, and the log gets out of order.  The thread holds [d]; a sync then
    succeeds and reports the LSN of everything appended as durable, with the
    file holding everything but [d]; when the thread writes, [d] comes behind
    what was staged after it. *)
Theorem sync_overtakes_flush log w staged size appended ops n :
  dstate log w -> 0 <= w_current_lsn w -> w_current_lsn (drun ops w).1 < 2 ^ 64 ->
  quiet ops false = Some true ->
  let b0 := enable_async_flush true (mkBuffered w None None None staged false true size appended) in
  let '(b, d, _) := brun ops (b0, []) in
  exists buf, dlog (drun ops w).1 = flushed b ++ d ++ buf /\
    (sync wio_ok b).2 = Ok tt /\
    w_last_synced_lsn (bw_writer (sync wio_ok b).1) = w_current_lsn (drun ops w).1 /\
    flushed (sync wio_ok b).1 = flushed b ++ buf /\
    flushed (round_put wio_ok n d (sync wio_ok b).1) = flushed b ++ buf ++ d.
Proof.
  intros D Hl Hb Hq. cbv zeta.
  destruct (bsim_run ops _ [] false true w (bsim_enable log w staged size appended D Hl) Hq Hb)
    as [(pre & buf & B & D' & L & C & _) _].
  destruct (brun ops _) as [[b d] rs]. simpl in *. exists buf.
  destruct (buffered_sync_ok _ _ _ B) as (b' & -> & B' & _ & Hs). simpl.
  destruct (round_put_ok n d _ _ _ B') as [B2 _].
  rewrite (dstate_log _ _ D'), (flushed_bstate _ _ _ B), (flushed_bstate _ _ _ B'),
    (flushed_bstate _ _ _ B2), <- app_assoc. split_and!; try done. by rewrite Hs.
Qed.


End refinement.
End Buffered.
