(* ===== verification/WalManager.v ===== *)
(** * WAL manager of the storage engine

    [linkrs-storage/src/engine/wal_manager.rs]: the manager owns the writer
    behind a lock, opens it with group commit and the background flush as
    configured, and is where commits and other log records enter the log.  A
    method runs under the writer lock; between methods the background thread may
    take a round ([Buffered.flush_round]). *)

From stdpp Require Import base gmap list strings.
From Stdlib Require Import ZArith Lia.
From S2P Require Import Prelude Types WalTypes WalWriter WalBuffered.

(** [StorageError::wal_error], with its cause where there is one, and
    [serialize_error]. *)
Inductive WalManagerError := NotInitialized | WalFailed (e : WalError) | SerializeFailed.

Record WalManager := mkWalManager {
  local_writer : option BufferedWriter;
  wm_config : WalConfig;
  wm_group_commit : bool;
  wm_async_flush : bool;
  wm_buffer_size : Z;
  sync_count : Z;
  sync_failures : Z;
}.

Module WalMgr.

Definition with_config (cfg : WalConfig) (group async : bool) (size : Z) : WalManager :=
  mkWalManager None cfg group async size 0 0.

(** The defaults of [WalConfig]. *)
Definition new : WalManager := with_config default_wal_config true true (256 * 1024).

Definition set_local_writer (b : BufferedWriter) (m : WalManager) : WalManager :=
  mkWalManager (Some b) (wm_config m) (wm_group_commit m) (wm_async_flush m) (wm_buffer_size m)
    (sync_count m) (sync_failures m).

(** Run an operation of the writer under its lock. *)
Definition with_writer {A} (f : ST BufferedWriter WalError A) : ST WalManager WalManagerError A :=
  fun m =>
    match local_writer m with
    | None => (m, Err NotInitialized)
    | Some b =>
        match f b with
        | (b1, Ok a) => (set_local_writer b1 m, Ok a)
        | (b1, Err e) => (set_local_writer b1 m, Err (WalFailed e))
        end
    end.

(** A failed start of the background thread is ignored. *)
Definition open_writer (io : WalIo) (cloned : bool) (salt1 salt2 created_at thread_id : Z)
    (parsed_lsn : option Lsn) (m : WalManager) : ST BufferedWriter WalError unit :=
  do! Buffered.open io cloned salt1 salt2 created_at thread_id parsed_lsn in
  do! (if wm_group_commit m then Buffered.enable_group_commit cloned else st_ret tt) in
  if wm_async_flush m then
    do! st_modify (Buffered.enable_async_flush cloned) in
    fun b => if Buffered.is_async_enabled b
             then ((Buffered.start_background_flush cloned b).1, Ok tt) else (b, Ok tt)
  else st_ret tt.

(** The writer is kept only when it opened. *)
Definition open (io : WalIo) (cloned : bool) (salt1 salt2 created_at thread_id : Z)
    (parsed_lsn : option Lsn) : ST WalManager WalManagerError unit :=
  fun m =>
    match open_writer io cloned salt1 salt2 created_at thread_id parsed_lsn m
            (Buffered.with_config (wm_config m) (wm_async_flush m) (wm_buffer_size m)) with
    | (b, Ok _) => (set_local_writer b m, Ok tt)
    | (_, Err e) => (m, Err (WalFailed e))
    end.

Definition current_lsn (m : WalManager) : Lsn :=
  match local_writer m with Some b => w_current_lsn (bw_writer b) | None => 0 end.

Definition durable_lsn (m : WalManager) : Lsn :=
  match local_writer m with Some b => w_last_synced_lsn (bw_writer b) | None => 0 end.

Definition is_async_enabled (m : WalManager) : bool :=
  match local_writer m with Some b => Buffered.is_async_enabled b | None => false end.

(** Errors are ignored. *)
Definition shutdown (io : WalIo) (cloned : bool) (m : WalManager) : WalManager :=
  match local_writer m with
  | None => m
  | Some b =>
      let b1 := (Buffered.flush_and_sync io cloned b).1 in
      set_local_writer (Buffered.disable_async_flush io cloned b1).1 m
  end.

Definition count_sync (ok : bool) (m : WalManager) : WalManager :=
  mkWalManager (local_writer m) (wm_config m) (wm_group_commit m) (wm_async_flush m)
    (wm_buffer_size m) (if ok then wrap_u64 (sync_count m + 1) else sync_count m)
    (if ok then sync_failures m else wrap_u64 (sync_failures m + 1)).

Definition sync (io : WalIo) : ST WalManager WalManagerError unit :=
  fun m =>
    match local_writer m with
    | None => (m, Ok tt)
    | Some _ =>
        match with_writer (Buffered.sync io) m with
        | (m1, Ok _) => (count_sync true m1, Ok tt)
        | (m1, Err e) => (count_sync false m1, Err e)
        end
    end.

Definition set_checkpoint_seq (io : WalIo) (seq : Z) : ST WalManager WalManagerError unit :=
  fun m =>
    match local_writer m with
    | None => (m, Ok tt)
    | Some _ => with_writer (Buffered.on_writer (Writer.set_checkpoint_seq io seq)) m
    end.

Definition set_recovery_baseline_lsn (io : WalIo) (lsn : Lsn) : ST WalManager WalManagerError unit :=
  fun m =>
    match local_writer m with
    | None => (m, Ok tt)
    | Some _ => with_writer (Buffered.on_writer (Writer.set_recovery_baseline_lsn io lsn)) m
    end.

Section append.
Context (crc32 : list Z -> Z).
Context (zstd_encode : Z -> list Z -> option (list Z)).
Context (level : Z).
Context (intent_to_vec : OutboxIntent -> option (list Z)).
Context (commit_to_vec : TransactionCommit -> option (list Z)).

Definition append_entry (io : WalIo) (op : WalOpType) (ts : Timestamp) (payload : list Z)
  : ST WalManager WalManagerError unit :=
  with_writer (Buffered.append_entry crc32 zstd_encode level io op ts payload).

(** [redo] is what [to_allocvec] makes of the record. *)
Definition append_redo (io : WalIo) (op : WalOpType) (ts : Timestamp) (redo : option (list Z))
  : ST WalManager WalManagerError unit :=
  fun m =>
    match local_writer m, redo with
    | None, _ => (m, Err NotInitialized)
    | Some _, None => (m, Err SerializeFailed)
    | Some _, Some payload => append_entry io op ts payload m
    end.

(** Append under the lock, record, then wait for durability. *)
Definition append_transaction_with_durability (io : WalIo) (tx : TransactionId)
    (entries : list TransactionWalEntry) (ints : list OutboxIntent) (d : DurabilityLevel)
  : ST WalManager WalManagerError CommitLsn :=
  let! lsn := with_writer (Buffered.append_transaction_batch_no_wait crc32 zstd_encode level
    intent_to_vec commit_to_vec io tx entries ints) in
  do! with_writer (st_modify (Buffered.record_appended lsn)) in
  match d with
  | DSync =>
      do! with_writer (fun b =>
        if w_group_commit (bw_writer b) then st_lift (wio_group io) b
        else Buffered.wait_for_durable io lsn b) in
      st_ret lsn
  | _ => st_ret lsn
  end.

End append.
End WalMgr.
