(* ===== verification/WalFiles.v ===== *)
(** * Segments of the log

    [wal/writer/local/file_ops.rs] with the raw [append] and the segment part of
    [open] and [close] of [local.rs]: names of segments, opening, rotation,
    archiving, reclaiming and truncation.

    The directory is the list of its files in the order [read_dir] gives them,
    less the file the writer has open, whose bytes are in the writer.  File
    operations that can fail take their outcome as an argument. *)

From stdpp Require Import base gmap list strings pretty.
From Stdlib Require Import ZArith Lia.
From S2P Require Import Prelude Types WalTypes WalScan WalWriter WalFacts WalCommit WalCrash WalBuffered.

Inductive ArchiveMode := ArchiveNone | ArchiveMove | ArchiveCopy.

(** [sg_archive]: the archive directory, when one is configured. *)
Record SegmentWriter := mkSeg {
  sg_writer : BufferedWriter;
  sg_thread : Z;
  sg_version : Z;
  sg_path : option string;
  sg_dir : list (string * list Z);
  sg_archive : option (ArchiveMode * list (string * list Z));
  sg_rotations : Z;
  sg_deleted : Z;
  sg_archived : Z;
}.

Module Segments.

(** ** Names *)

Definition hex_digit (n : Z) : Ascii.ascii :=
  Ascii.ascii_of_nat (Z.to_nat (if decide (n < 10) then 48 + n else 55 + n)).

(** [{:08X}]. *)
Fixpoint hex_digits (k : nat) (n : Z) : string :=
  match k with
  | O => EmptyString
  | S k' => hex_digits k' (n / 16) +:+ String (hex_digit (n mod 16)) EmptyString
  end.

Definition wal_prefix (thread : Z) : string := "thread_" +:+ pretty thread +:+ "_wal_".

(** Versions have at most eight hexadecimal digits. *)
Definition get_wal_file_path (thread version : Z) : string :=
  wal_prefix thread +:+ hex_digits 8 version.

Definition unhex (c : Ascii.ascii) : option Z :=
  let n := Z.of_nat (Ascii.nat_of_ascii c) in
  if decide (48 <= n <= 57) then Some (n - 48)
  else if decide (65 <= n <= 70) then Some (n - 55)
  else if decide (97 <= n <= 102) then Some (n - 87)
  else None.

(** [u32::from_str_radix(s, 16)], over the digits that are left. *)
Fixpoint from_hex (acc : Z) (s : string) : option Z :=
  match s with
  | EmptyString => Some acc
  | String c rest =>
      match unhex c with
      | Some d => if decide (acc * 16 + d < 2 ^ 32) then from_hex (acc * 16 + d) rest else None
      | None => None
      end
  end.

Fixpoint strip_prefix (p s : string) : option string :=
  match p, s with
  | EmptyString, _ => Some s
  | String a p', String b s' => if decide (a = b) then strip_prefix p' s' else None
  | _, _ => None
  end.

(** The version [open] reads back from the name it found. *)
Definition version_of (thread : Z) (name : string) : option Z :=
  match strip_prefix (wal_prefix thread) name with
  | Some (String c s) => from_hex 0 (String c s)
  | _ => None
  end.

Definition is_managed_wal_file (thread : Z) (name : string) : bool :=
  bool_decide (is_Some (strip_prefix (wal_prefix thread) name)) ||
  (bool_decide (is_Some (strip_prefix "wal_" name)) && bool_decide (String.length name = 12%nat)).

Definition exists_file (name : string) (s : SegmentWriter) : bool :=
  bool_decide (name ∈ (sg_dir s).*1) || bool_decide (sg_path s = Some name).

(** The loop over [version..65536]. *)
Fixpoint find_available (fuel : nat) (version : Z) (s : SegmentWriter) : option string :=
  match fuel with
  | O => None
  | S fuel' =>
      let path := get_wal_file_path (sg_thread s) version in
      if exists_file path s then find_available fuel' (version + 1) s else Some path
  end.

Definition find_available_path (s : SegmentWriter) : result string WalError :=
  match find_available (Z.to_nat (65536 - sg_version s)) (sg_version s) s with
  | Some path => Ok path
  | None => Err IoError
  end.

(** ** Open, close and rotate *)

Definition set_seg_writer (b : BufferedWriter) (s : SegmentWriter) : SegmentWriter :=
  mkSeg b (sg_thread s) (sg_version s) (sg_path s) (sg_dir s) (sg_archive s) (sg_rotations s)
    (sg_deleted s) (sg_archived s).

Definition set_version (v : Z) (s : SegmentWriter) : SegmentWriter :=
  mkSeg (sg_writer s) (sg_thread s) v (sg_path s) (sg_dir s) (sg_archive s) (sg_rotations s)
    (sg_deleted s) (sg_archived s).

Definition set_dir (d : list (string * list Z)) (s : SegmentWriter) : SegmentWriter :=
  mkSeg (sg_writer s) (sg_thread s) (sg_version s) (sg_path s) d (sg_archive s) (sg_rotations s)
    (sg_deleted s) (sg_archived s).

Definition set_path (p : option string) (s : SegmentWriter) : SegmentWriter :=
  mkSeg (sg_writer s) (sg_thread s) (sg_version s) p (sg_dir s) (sg_archive s) (sg_rotations s)
    (sg_deleted s) (sg_archived s).

Definition remove_file (name : string) (d : list (string * list Z)) : list (string * list Z) :=
  filter (fun f => f.1 <> name) d.

(** The file the writer has open goes back to the directory. *)
Definition leave_file (s : SegmentWriter) : list (string * list Z) :=
  match sg_path s, w_file (bw_writer (sg_writer s)) with
  | Some p, Some f => sg_dir s ++ [(p, f)]
  | _, _ => sg_dir s
  end.

(** The new segment is opened at the first free name, and stays in the directory
    as an empty file when it cannot be extended; the writer does the rest. *)
Definition open (io : WalIo) (cloned : bool) (salt1 salt2 created_at : Z)
    (parsed_lsn : option Lsn) : ST SegmentWriter WalError unit :=
  fun s =>
    let w := bw_writer (sg_writer s) in
    if w_poisoned w then (s, Err Poisoned)
    else if w_is_open w then (s, Ok tt)
    else
      let s1 := set_version ((sg_version s + 1) mod 2 ^ 32) s in
      match find_available_path s1 with
      | Err e => (s1, Err e)
      | Ok path =>
          let s2 := set_version (default (sg_version s1) (version_of (sg_thread s) path)) s1 in
          let r := Buffered.open io cloned salt1 salt2 created_at (sg_thread s) parsed_lsn
                     (sg_writer s2) in
          let s3 := set_seg_writer r.1 s2 in
          match w_file (bw_writer r.1) with
          | Some _ => (set_path (Some path) s3, r.2)
          | None => (set_dir (sg_dir s ++ [(path, [])]) s3, r.2)
          end
      end.

Definition close (io : WalIo) (cloned : bool) (s : SegmentWriter) : SegmentWriter :=
  if w_is_open (bw_writer (sg_writer s)) then
    let flushed := (Buffered.flush_buffered_to_file io cloned (sg_writer s)).1 in
    let s1 := set_dir (leave_file (set_seg_writer flushed s)) s in
    set_path None (set_seg_writer (Buffered.close io cloned (sg_writer s)) s1)
  else s.

(** The new segment takes the next name; a file of that name is truncated.
    [created] tells whether it could be opened. *)
Definition rotate (io : WalIo) (created cloned : bool) (salt1 salt2 created_at : Z)
  : ST SegmentWriter WalError unit :=
  fun s =>
    let w := bw_writer (sg_writer s) in
    if bool_decide (is_Some (w_file w)) && negb (wio_sync io) then (s, Err IoError)
    else
      let s1 := set_version ((sg_version s + 1) mod 2 ^ 32) s in
      let path := get_wal_file_path (sg_thread s) (sg_version s1) in
      if negb created then (s1, Err IoError)
      else if negb (wio_set_len io) then
        (set_dir (remove_file path (sg_dir s1) ++ [(path, [])]) s1, Err IoError)
      else
        let size := truncate_size (w_config w) in
        let w1 := mkWriter (Some (set_len (Z.to_nat size) [])) size 0 (w_checkpoint_seq w)
          (w_current_lsn w) (w_last_synced_lsn w) (w_current_lsn w) (w_config w) (w_is_open w)
          (w_file_header w) (w_write_count w) (w_poisoned w) (w_group_commit w) in
        let s2 := set_path (Some path) (set_dir (remove_file path (leave_file s1)) s1) in
        match Writer.write_file_header io salt1 salt2 created_at (sg_thread s) w1 with
        | (w2, Err e) => (set_seg_writer (Buffered.set_writer w2 (sg_writer s)) s2, Err e)
        | (w2, Ok _) =>
            let b := Buffered.set_writer w2 (sg_writer s) in
            let b1 := match bw_buffer b with
                      | Some _ => Buffered.ensure_flush_state cloned (Buffered.set_flush None b)
                      | None => b
                      end in
            let s3 := set_seg_writer b1 s2 in
            (mkSeg (sg_writer s3) (sg_thread s3) (sg_version s3) (sg_path s3) (sg_dir s3)
               (sg_archive s3) (wrap_u64 (sg_rotations s3 + 1)) (sg_deleted s3) (sg_archived s3),
             Ok tt)
        end.

Definition rotate_if_needed (io : WalIo) (created cloned : bool) (salt1 salt2 created_at : Z)
  : ST SegmentWriter WalError unit :=
  fun s =>
    let w := bw_writer (sg_writer s) in
    if decide (w_file_used w >= max_file_size (w_config w))
    then rotate io created cloned salt1 salt2 created_at s else (s, Ok tt).

Definition on_segment {A} (m : ST LocalWalWriter WalError A) : ST SegmentWriter WalError A :=
  fun s => let r := Buffered.on_writer m (sg_writer s) in (set_seg_writer r.1 s, r.2).

(** The fsync of the raw [append] does not poison the writer. *)
Definition sync_raw (io : WalIo) : ST LocalWalWriter WalError unit :=
  fun w =>
    let count := wrap_u64 (w_write_count w + 1) in
    let w1 := Writer.set_write_count count w in
    if requires_sync (sync_policy (w_config w1)) count then
      if wio_sync io
      then (Writer.set_write_count 0 (Writer.set_synced (w_current_lsn w1) w1), Ok tt)
      else (w1, Err IoError)
    else (w1, Ok tt).

(** Raw bytes; the only append that rotates. *)
Definition append (io : WalIo) (created cloned : bool) (salt1 salt2 created_at : Z) (data : list Z)
  : ST SegmentWriter WalError unit :=
  do! on_segment Writer.check_poisoned in
  do! on_segment Writer.require_open in
  do! rotate_if_needed io created cloned salt1 salt2 created_at in
  let total := Z.of_nat (length data) in
  do! on_segment (Writer.ensure_room io total) in
  let! s := st_get in
  do! on_segment (Writer.write_bytes io (w_file_used (bw_writer (sg_writer s))) data) in
  do! on_segment (st_modify (fun w =>
    Writer.set_lsn (w_current_lsn w + total) (Writer.set_used (w_file_used w + total) w))) in
  on_segment (sync_raw io).

(** ** Archiving and reclaiming *)

(** What [std::fs::copy] leaves: the whole copy, or, when it fails, nothing or
    the first bytes. *)
Inductive CopyOutcome := Copied | CopyCut (left : option nat).

(** The outcomes of the file operations on one file: [create_dir_all], [copy],
    and the removal or rename. *)
Record FileOutcome := mkOutcome {
  fo_dir : bool;
  fo_copy : CopyOutcome;
  fo_remove : bool;
}.

(** Put a file into a directory, in place of one of the same name. *)
Definition put_file (name : string) (content : list Z) (l : list (string * list Z))
  : list (string * list Z) := remove_file name l ++ [(name, content)].

Definition set_archive (a : option (ArchiveMode * list (string * list Z))) (s : SegmentWriter)
  : SegmentWriter :=
  mkSeg (sg_writer s) (sg_thread s) (sg_version s) (sg_path s) (sg_dir s) a (sg_rotations s)
    (sg_deleted s) (sg_archived s).

Definition record_file_deleted (s : SegmentWriter) : SegmentWriter :=
  mkSeg (sg_writer s) (sg_thread s) (sg_version s) (sg_path s) (sg_dir s) (sg_archive s)
    (sg_rotations s) (wrap_u64 (sg_deleted s + 1)) (sg_archived s).

Definition record_file_archived (s : SegmentWriter) : SegmentWriter :=
  mkSeg (sg_writer s) (sg_thread s) (sg_version s) (sg_path s) (sg_dir s) (sg_archive s)
    (sg_rotations s) (sg_deleted s) (wrap_u64 (sg_archived s + 1)).

(** [std::fs::remove_file]. *)
Definition remove_wal_file (fo : FileOutcome) (name : string) : ST SegmentWriter WalError unit :=
  fun s => if fo_remove fo then (set_dir (remove_file name (sg_dir s)) s, Ok tt) else (s, Err IoError).

(** One rename; [now] is the time in seconds. *)
Definition archive_wal_file (fo : FileOutcome) (now : Z) (name : string) (content : list Z)
    (l : list (string * list Z)) : ST SegmentWriter WalError unit :=
  fun s =>
    if fo_dir fo && fo_remove fo then
      (set_archive (Some (ArchiveMove, put_file (name +:+ "_" +:+ pretty now) content l))
         (set_dir (remove_file name (sg_dir s)) s), Ok tt)
    else (s, Err IoError).

(** A copy, then a removal: the second can fail after the first. *)
Definition copy_and_delete (fo : FileOutcome) (name : string) (content : list Z)
    (l : list (string * list Z)) : ST SegmentWriter WalError unit :=
  fun s =>
    if fo_dir fo then
      match fo_copy fo with
      | CopyCut None => (s, Err IoError)
      | CopyCut (Some k) =>
          (set_archive (Some (ArchiveCopy, put_file name (take k content) l)) s, Err IoError)
      | Copied =>
          remove_wal_file fo name (set_archive (Some (ArchiveCopy, put_file name content l)) s)
      end
    else (s, Err IoError).

(** [fine name] gives the outcomes for a file. *)
Definition delete_or_archive_file (fine : string -> FileOutcome) (now : Z) (name : string)
    (content : list Z) : ST SegmentWriter WalError unit :=
  let! s := st_get in
  match sg_archive s with
  | None | Some (ArchiveNone, _) =>
      do! remove_wal_file (fine name) name in st_modify record_file_deleted
  | Some (ArchiveMove, l) =>
      do! archive_wal_file (fine name) now name content l in st_modify record_file_archived
  | Some (ArchiveCopy, l) =>
      do! copy_and_delete (fine name) name content l in st_modify record_file_archived
  end.

(** [read_exact] fails on a file shorter than the header. *)
Definition read_file_header (content : list Z) : result (option WalFileHeader) WalError :=
  if decide (length content < WAL_FILE_HEADER_SIZE)%nat then Err IoError
  else Ok (FileHeader.from_bytes (take WAL_FILE_HEADER_SIZE content)).

(** The guards in front of the deletion of one file. *)
Definition reclaims (thread seq : Z) (current : option string) (name : string) (content : list Z)
  : result bool WalError :=
  if bool_decide (current = Some name) then Ok false
  else if negb (is_managed_wal_file thread name) then Ok false
  else match read_file_header content with
       | Err e => Err e
       | Ok None => Ok false
       | Ok (Some h) => Ok (negb (bool_decide (fh_thread_id h <> thread) ||
                                  bool_decide (fh_checkpoint_seq h >= seq)))
       end.

Fixpoint reclaim_loop (fine : string -> FileOutcome) (now : Z) (files : list (string * list Z)) (count : Z)
  : ST SegmentWriter WalError Z :=
  match files with
  | [] => st_ret count
  | (name, content) :: rest =>
      let! s := st_get in
      let! del := st_lift (reclaims (sg_thread s) (w_checkpoint_seq (bw_writer (sg_writer s)))
                             (sg_path s) name content) in
      if del then
        do! delete_or_archive_file fine now name content in
        reclaim_loop fine now rest (count + 1)
      else reclaim_loop fine now rest count
  end.

Definition reclaim_before_checkpoint (fine : string -> FileOutcome) (now : Z)
  : ST SegmentWriter WalError Z :=
  fun s =>
    if decide (w_checkpoint_seq (bw_writer (sg_writer s)) = 0) then (s, Ok 0)
    else reclaim_loop fine now (sg_dir s) 0 s.

Definition truncate (io : WalIo) (fine : string -> FileOutcome) (now : Z) (lsn : Lsn)
  : ST SegmentWriter WalError Z :=
  fun s =>
    let w := bw_writer (sg_writer s) in
    if decide (lsn > w_last_synced_lsn w) then (s, Err InvalidOperation)
    else
      (if decide (lsn = w_current_lsn w)
       then do! on_segment (Writer.refresh_file_header io) in reclaim_before_checkpoint fine now
       else reclaim_before_checkpoint fine now) s.

(** [WalManager::truncate]: the oldest index barrier bounds the LSN. *)
Definition truncation_barrier_lsn (barriers : option (list Lsn)) : option Lsn :=
  match barriers with Some l => list_min l | None => None end.

Definition manager_truncate (io : WalIo) (fine : string -> FileOutcome) (now : Z)
    (barriers : option (list Lsn)) (lsn : Lsn) : ST SegmentWriter WalError Z :=
  truncate io fine now
    (match truncation_barrier_lsn barriers with Some b => Z.min lsn b | None => lsn end).

(** ** Names and versions *)

Lemma unhex_digit n : 0 <= n < 16 -> unhex (hex_digit n) = Some n.
Proof.
  intros Hn. assert (forallb (fun k => bool_decide (unhex (hex_digit (Z.of_nat k)) = Some (Z.of_nat k)))
    (seq 0 16) = true) as H by by vm_compute.
  rewrite forallb_forall in H. specialize (H (Z.to_nat n)). rewrite Z2Nat.id in H by lia.
  apply (bool_decide_eq_true_1 _), H, in_seq. lia.
Qed.

Lemma from_hex_app acc a b :
  from_hex acc (a +:+ b) = match from_hex acc a with Some x => from_hex x b | None => None end.
Proof.
  revert acc. induction a as [|c a IH]; intros acc; [done|]. simpl.
  destruct (unhex c); [|done]. case_decide; [|done]. apply IH.
Qed.

Lemma from_hex_digits k n :
  0 <= n < 16 ^ Z.of_nat k -> (k <= 8)%nat -> from_hex 0 (hex_digits k n) = Some n.
Proof.
  revert n. induction k as [|k IH]; intros n Hn Hk.
  - simpl in *. f_equal. lia.
  - rewrite Nat2Z.inj_succ, Z.pow_succ_r in Hn by lia. cbn [hex_digits].
    pose proof (Z.div_mod n 16 ltac:(lia)). pose proof (Z.mod_pos_bound n 16 ltac:(lia)).
    assert (0 <= n / 16 < 16 ^ Z.of_nat k) as Hd
      by (split; [apply Z.div_pos; lia|apply Z.div_lt_upper_bound; lia]).
    rewrite from_hex_app, IH by (done || lia). cbn [from_hex]. rewrite unhex_digit by done.
    assert (16 ^ Z.of_nat k <= 16 ^ 7) by (apply Z.pow_le_mono_r; lia).
    rewrite decide_True by lia. f_equal. lia.
Qed.

Lemma strip_prefix_app p s : strip_prefix p (p +:+ s) = Some s.
Proof. induction p as [|c p IH]; [done|]. simpl. by rewrite decide_True. Qed.

(** Segment names: the version of a segment is read back from its name,
    for every 32-bit version, so two versions of a thread never share a file, and
    each name is recognised as one of the thread's own. *)
Theorem segment_name_roundtrip thread v :
  0 <= v < 2 ^ 32 ->
  version_of thread (get_wal_file_path thread v) = Some v /\
  is_managed_wal_file thread (get_wal_file_path thread v) = true.
Proof.
  intros Hv. unfold version_of, get_wal_file_path, is_managed_wal_file.
  rewrite strip_prefix_app. rewrite bool_decide_eq_true_2 by eauto. split; [|done].
  pose proof (from_hex_digits 8 v ltac:(lia) ltac:(lia)) as H.
  destruct (hex_digits 8 v) eqn:E; [|done]. exfalso. revert E. cbn [hex_digits].
  generalize (hex_digits 7 (v / 16)). by intros [].
Qed.

(** ** Free names *)

Lemma find_available_spec fuel v s p :
  find_available fuel v s = Some p ->
  exists k, v <= k < v + Z.of_nat fuel /\ p = get_wal_file_path (sg_thread s) k /\
    exists_file p s = false /\
    forall j, v <= j < k -> exists_file (get_wal_file_path (sg_thread s) j) s = true.
Proof.
  revert v. induction fuel as [|fuel IH]; intros v; simpl; [done|].
  destruct (exists_file (get_wal_file_path (sg_thread s) v) s) eqn:E; intros H.
  - destruct (IH _ H) as (k & Hk & Hp & He & Hj). exists k. split; [lia|]. split; [done|].
    split; [done|]. intros j Hjk. destruct (decide (j = v)) as [->|]; [done|]. apply Hj. lia.
  - simplify_eq. exists v. split; [lia|]. split; [done|]. split; [done|]. lia.
Qed.

(** An open that succeeds leaves an open file. *)
Lemma write_bytes_file io pos data w w' r :
  Writer.write_bytes io pos data w = (w', r) -> is_Some (w_file w) -> is_Some (w_file w').
Proof. unfold Writer.write_bytes. intros H [f Hf]. rewrite Hf in H. split_cases; eauto. Qed.

Lemma write_file_header_file io salt1 salt2 created_at thread w w' r :
  Writer.write_file_header io salt1 salt2 created_at thread w = (w', r) ->
  is_Some (w_file w) -> is_Some (w_file w').
Proof.
  unfold Writer.write_file_header, Writer.persist_file_header, st_bind, st_get, st_modify.
  intros H Hw. destruct (Writer.write_bytes _ _ _ _) as [w1 r1] eqn:E1.
  apply write_bytes_file in E1; [|done]. destruct r1; [|by simplify_eq].
  unfold st_ret, st_err in H. destruct (wio_sync io); simpl in H; by simplify_eq/=.
Qed.

Lemma ensure_flush_state_writer cloned b :
  bw_writer (Buffered.ensure_flush_state cloned b) = bw_writer b.
Proof. unfold Buffered.ensure_flush_state. by repeat case_match. Qed.

Lemma open_ok_file io cloned salt1 salt2 created_at thread parsed b b' :
  Buffered.open io cloned salt1 salt2 created_at thread parsed b = (b', Ok tt) ->
  w_is_open (bw_writer b) = false -> is_Some (w_file (bw_writer b')).
Proof.
  unfold Buffered.open. intros H Ho. rewrite Ho in H. simpl in H.
  destruct (Writer.open _ _ _ _ _ _ _) as [w [[]|]] eqn:Ew; simpl in H; [|done].
  injection H as <-. simpl. rewrite ensure_flush_state_writer. simpl.
  unfold Writer.open, st_bind, st_get, st_modify, Writer.check_poisoned in Ew. simpl in Ew.
  destruct (w_poisoned _); [done|]. rewrite Ho in Ew. destruct (wio_set_len io); [|done].
  eapply write_file_header_file; [exact Ew|]. simpl. eauto.
Qed.

(** [open] never reuses a segment: it takes the first version from the next
    one on whose name is free, and when it succeeds every file of the directory
    is as it was. *)
Theorem open_takes_free_name io cloned salt1 salt2 created_at parsed s s' :
  open io cloned salt1 salt2 created_at parsed s = (s', Ok tt) ->
  w_is_open (bw_writer (sg_writer s)) = false -> 0 <= sg_version s < 2 ^ 32 - 1 ->
  exists v, sg_version s < v < 65536 /\ sg_version s' = v /\
    sg_path s' = Some (get_wal_file_path (sg_thread s) v) /\
    ((get_wal_file_path (sg_thread s) v) ∉ (sg_dir s).*1) /\ sg_dir s' = sg_dir s /\
    forall j, sg_version s < j < v -> exists_file (get_wal_file_path (sg_thread s) j) s = true.
Proof.
  unfold open. intros H Ho Hv. rewrite Ho in H. destruct (w_poisoned _); [done|].
  rewrite Z.mod_small in H by lia. unfold find_available_path in H.
  destruct (find_available _ _ _) as [p|] eqn:Ef; [|done].
  apply find_available_spec in Ef as (k & Hk & -> & He & Hj). cbn [sg_version sg_thread set_version] in *.
  destruct (segment_name_roundtrip (sg_thread s) k) as [Hr _]; [lia|]. rewrite Hr in H.
  assert ((get_wal_file_path (sg_thread s) k) ∉ (sg_dir s).*1) as Hn.
  { unfold exists_file in He. apply orb_false_iff in He as [He _]. by apply bool_decide_eq_false in He. }
  exists k. destruct (Buffered.open _ _ _ _ _ _ _ _) as [b r] eqn:Eb. cbn [fst snd] in H.
  destruct (w_file (bw_writer b)) eqn:Ew.
  - injection H as <- ->. cbn. split_and!; try done; [lia|lia|]. intros j Hjk. apply Hj. lia.
  - injection H as <- ->. exfalso.
    pose proof (open_ok_file _ _ _ _ _ _ _ _ _ Eb Ho) as [f Hf]. congruence.
Qed.


(** ** Reclaiming *)

(** The guards, for a file of the directory. *)
Definition reclaimable (s : SegmentWriter) (f : string * list Z) : Prop :=
  reclaims (sg_thread s) (w_checkpoint_seq (bw_writer (sg_writer s))) (sg_path s) f.1 f.2 = Ok true.

(** The name a file has in the archive. *)
Definition archive_name (mode : ArchiveMode) (now : Z) (name : string) : string :=
  match mode with ArchiveMove => name +:+ "_" +:+ pretty now | _ => name end.

(** What does not change while files are reclaimed. *)
Definition same_segment (s s' : SegmentWriter) : Prop :=
  sg_writer s' = sg_writer s /\ sg_thread s' = sg_thread s /\ sg_path s' = sg_path s /\
  sg_version s' = sg_version s.

(** [l'] is the archive [l] with the files [R] in it; of the others only those
    with the name of a file of [T] may have changed. *)
Definition archived (mode : ArchiveMode) (now : Z) (R T l l' : list (string * list Z)) : Prop :=
  (forall f, f ∈ R -> (archive_name mode now f.1, f.2) ∈ l') /\
  (forall f, f ∈ l -> (forall g, g ∈ R ++ T -> f.1 <> archive_name mode now g.1) -> f ∈ l').

(** The files [R] left the directory, and are in the archive when there is one;
    the archiving of [T] has failed. *)
Definition removed (now : Z) (R T : list (string * list Z)) (s s' : SegmentWriter) : Prop :=
  sg_dir s' = filter (fun f => f.1 ∉ R.*1) (sg_dir s) /\
  match sg_archive s with
  | None => sg_archive s' = None
  | Some (ArchiveNone, l) => sg_archive s' = Some (ArchiveNone, l)
  | Some (mode, l) => exists l', sg_archive s' = Some (mode, l') /\ archived mode now R T l l'
  end.

Lemma string_length_app a b : String.length (a +:+ b) = (String.length a + String.length b)%nat.
Proof. induction a as [|c a IH]; [done|]. exact (f_equal S IH). Qed.

Lemma string_app_inj_r t a b : a +:+ t = b +:+ t -> a = b.
Proof.
  revert b. induction a as [|c a IH]; intros [|d b]; [done| | |].
  - intros H%(f_equal String.length). rewrite !string_length_app in H. simpl in H. lia.
  - intros H%(f_equal String.length). rewrite !string_length_app in H. simpl in H. lia.
  - simpl. intros [= -> H]. f_equal. by apply IH.
Qed.

Lemma archive_name_inj mode now a b : archive_name mode now a = archive_name mode now b -> a = b.
Proof. destruct mode; simpl; [done| |done]. apply string_app_inj_r. Qed.

Lemma archived_put mode now name content l :
  archived mode now [(name, content)] [] l (put_file (archive_name mode now name) content l).
Proof.
  split.
  - intros f ->%list_elem_of_singleton. apply elem_of_app. right. by apply list_elem_of_singleton.
  - intros f Hf Hg. apply elem_of_app. left. apply list_elem_of_filter. split; [|done].
    apply (Hg (name, content)). rewrite app_nil_r. by apply list_elem_of_singleton.
Qed.

Lemma remove_file_filter (f : string * list Z) l :
  remove_file f.1 l = filter (fun g => g.1 ∉ [f].*1) l.
Proof. unfold remove_file. apply list_filter_iff. intros g. simpl. set_solver. Qed.

Lemma filter_not_nil (l : list (string * list Z)) : filter (fun f => f.1 ∉ ([] : list string)) l = l.
Proof.
  induction l as [|f l IH]; [done|]. rewrite filter_cons_True; [by rewrite IH|].
  apply not_elem_of_nil.
Qed.

Lemma removed_nil now s : removed now [] [] s s.
Proof.
  split; [by rewrite filter_not_nil|].
  destruct (sg_archive s) as [[[| |] l]|]; try done; (exists l; split; [done|]; split; set_solver).
Qed.

(** A copy, whole or cut, of a file that stays in the directory. *)
Lemma removed_failed now name content part l s :
  sg_archive s = Some (ArchiveCopy, l) ->
  removed now [] [(name, content)] s
    (set_archive (Some (ArchiveCopy, put_file name part l)) s).
Proof.
  intros E. split; [simpl; by rewrite filter_not_nil|]. rewrite E. eexists. split; [reflexivity|].
  split; [set_solver|]. intros f Hf Hg. apply elem_of_app. left. apply list_elem_of_filter.
  split; [|done]. apply (Hg (name, content)). by apply list_elem_of_singleton.
Qed.

Lemma delete_ok fine now name content s s' :
  delete_or_archive_file fine now name content s = (s', Ok tt) ->
  same_segment s s' /\ removed now [(name, content)] [] s s'.
Proof.
  unfold delete_or_archive_file, st_bind, st_get, st_modify, copy_and_delete, archive_wal_file,
    remove_wal_file. intros H. unfold removed. rewrite <- (remove_file_filter (name, content)).
  destruct (sg_archive s) as [[[| |] l]|] eqn:E; split_cases; simplify_eq/=;
    (split; [done|]); (split; [done|]); try done; (eexists; split; [reflexivity|]);
    first [exact (archived_put ArchiveMove now name content l) |
      exact (archived_put ArchiveCopy now name content l)].
Qed.

Lemma delete_err fine now name content s s' e :
  delete_or_archive_file fine now name content s = (s', Err e) ->
  same_segment s s' /\ exists T, (T = [] \/ T = [(name, content)]) /\ removed now [] T s s'.
Proof.
  unfold delete_or_archive_file, st_bind, st_get, st_modify, copy_and_delete, archive_wal_file,
    remove_wal_file. intros H.
  destruct (sg_archive s) as [[[| |] l]|] eqn:E; split_cases; simplify_eq/=;
    (split; [done|]); first [by exists []; split; [left|apply removed_nil] |
      exists [(name, content)]; split; [by right|by apply removed_failed]].
Qed.

Lemma archived_cons mode now f R T l l1 l2 :
  archived mode now [f] [] l l1 -> archived mode now R T l1 l2 -> f.1 ∉ (R ++ T).*1 ->
  archived mode now (f :: R) T l l2.
Proof.
  intros [P1 Q1] [P2 Q2] Hf. split.
  - intros g [->|Hg]%elem_of_cons; [|by apply P2].
    apply Q2; [apply P1; by apply list_elem_of_singleton|]. simpl. intros h Hh E.
    apply archive_name_inj in E. apply Hf, list_elem_of_fmap. by exists h.
  - intros g Hg Hr. apply Q2; [apply Q1; [done|]|]; intros h Hh; apply Hr.
    + rewrite app_nil_r in Hh. apply list_elem_of_singleton in Hh as ->. by left.
    + by right.
Qed.

Lemma removed_cons now f R T s s1 s' :
  removed now [f] [] s s1 -> removed now R T s1 s' -> f.1 ∉ (R ++ T).*1 ->
  removed now (f :: R) T s s'.
Proof.
  intros [D1 A1] [D2 A2] Hf. split.
  - rewrite D2, D1, list_filter_filter. apply list_filter_iff. intros g. simpl. set_solver.
  - destruct (sg_archive s) as [[[| |] l]|]; try (by rewrite A1 in A2).
    all: destruct A1 as (l1 & A1 & H1); rewrite A1 in A2; destruct A2 as (l2 & A2 & H2);
      exists l2; (split; [done|]); by eapply archived_cons.
Qed.

Lemma same_segment_reclaimable s s' f : same_segment s s' -> reclaimable s' f <-> reclaimable s f.
Proof. intros (Hw & Ht & Hp & _). unfold reclaimable. by rewrite Hw, Ht, Hp. Qed.

(** What the loop over [files] has removed when it ends, whatever stopped it. *)
Lemma reclaim_loop_spec fine now files count s s' r :
  reclaim_loop fine now files count s = (s', r) -> NoDup files.*1 ->
  exists R T, R ++ T `sublist_of` files /\ Forall (reclaimable s) (R ++ T) /\ same_segment s s' /\
    removed now R T s s' /\ (length T <= 1)%nat /\
    (forall n, r = Ok n -> T = [] /\ n = count + Z.of_nat (length R) /\
       forall f, f ∈ files -> reclaimable s f -> f ∈ R).
Proof.
  revert count s. induction files as [|[name content] files IH]; intros count s; cbn [reclaim_loop].
  { unfold st_ret. intros [= <- <-] _. exists [], []. split; [done|]. split; [done|]. split; [done|].
    split; [apply removed_nil|]. split; [simpl; lia|]. intros n [= <-].
    split; [done|]. split; [simpl; lia|]. set_solver. }
  intros H [Hn Hnd]%NoDup_cons. unfold st_bind, st_get, st_lift in H. cbv iota beta in H.
  destruct (reclaims _ _ _ name content) as [[|]|e] eqn:Er.
  - destruct (delete_or_archive_file fine now name content s) as [s1 [[]|e]] eqn:Ed.
    + destruct (delete_ok _ _ _ _ _ _ Ed) as [Hs1 Hr1].
      destruct (IH _ _ H Hnd) as (R & T & HR & HF & Hs & Hr & HT & Hc).
      assert (name ∉ (R ++ T).*1) as HnR.
      { intros Hin. apply Hn. eapply elem_of_sublist; [exact Hin|]. by apply fmap_sublist. }
      exists ((name, content) :: R), T. split; [by apply sublist_skip|].
      split; [constructor; [done|]; eapply Forall_impl; [exact HF|]; intros f;
        apply (same_segment_reclaimable s s1 f Hs1)|].
      split; [unfold same_segment in *; naive_solver congruence|].
      split; [by eapply removed_cons|]. split; [done|]. intros n Hok.
      destruct (Hc n Hok) as (-> & -> & Hall). split; [done|].
      split; [simpl; lia|]. intros f [->|Hf]%elem_of_cons Hfr; [by left|]. right. apply Hall; [done|].
      by apply (same_segment_reclaimable s s1 f Hs1).
    + injection H as <- <-. destruct (delete_err _ _ _ _ _ _ _ Ed) as [Hs1 (T & HT & Hr)].
      exists [], T. destruct HT as [-> | ->]; simpl.
      * split; [apply sublist_nil_l|]. split; [done|]. split; [done|]. split; [done|]. split; [lia|done].
      * split; [apply sublist_skip, sublist_nil_l|]. split; [by constructor|]. split; [done|].
        split; [done|]. split; [lia|done].
  - destruct (IH _ _ H Hnd) as (R & T & HR & HF & Hs & Hr & HT & Hc). exists R, T.
    split; [by apply sublist_cons|]. split; [done|]. split; [done|]. split; [done|]. split; [done|].
    intros n Hok. destruct (Hc n Hok) as (-> & -> & Hall). split; [done|]. split; [done|].
    intros f [->|Hf]%elem_of_cons Hfr; [|by apply Hall]. unfold reclaimable in Hfr. simpl in Hfr. congruence.
  - injection H as <- <-. exists [], []. split; [apply sublist_nil_l|]. split; [done|]. split; [done|].
    split; [apply removed_nil|]. split; [simpl; lia|done].
Qed.

(** A closed segment of this thread from before the last checkpoint. *)
Definition old_segment (s : SegmentWriter) (f : string * list Z) : Prop :=
  sg_path s <> Some f.1 /\ is_managed_wal_file (sg_thread s) f.1 = true /\
  exists h, (WAL_FILE_HEADER_SIZE <= length f.2)%nat /\
    FileHeader.from_bytes (take WAL_FILE_HEADER_SIZE f.2) = Some h /\
    fh_thread_id h = sg_thread s /\
    fh_checkpoint_seq h < w_checkpoint_seq (bw_writer (sg_writer s)).

Lemma reclaimable_old s f : reclaimable s f <-> old_segment s f.
Proof.
  unfold reclaimable, reclaims, read_file_header, old_segment. split.
  - case_bool_decide; [done|]. destruct (is_managed_wal_file _ _); [|done]. simpl.
    case_decide; [done|]. destruct (FileHeader.from_bytes _) as [h|]; [|done].
    intros [= E%negb_true_iff%orb_false_iff]. destruct E as [E1 E2].
    apply bool_decide_eq_false in E1. apply bool_decide_eq_false in E2.
    split; [done|]. split; [done|]. exists h. split; [lia|]. split; [done|].
    split; [by apply dec_stable|lia].
  - intros (Hp & Hm & h & Hl & Hh & Ht & Hq). rewrite bool_decide_eq_false_2, Hm by done. simpl.
    rewrite decide_False, Hh by lia. f_equal. apply negb_true_iff, orb_false_iff.
    split; apply bool_decide_eq_false_2; [tauto|lia].
Qed.

(** [C35] Reclaiming is exact: whatever file operations fail, and wherever, no
    file leaves the directory but closed segments of the thread from before the
    checkpoint, the writer and its open segment are untouched, and what left is
    in the archive when one is configured; at most one segment, the one whose
    archiving failed, stays in the directory with a copy of it, whole or cut, in
    the archive.  When it succeeds, exactly those segments are gone, and their
    number is returned. *)
Theorem reclaim_exact fine now s s' r :
  reclaim_before_checkpoint fine now s = (s', r) -> NoDup (sg_dir s).*1 ->
  exists R T, same_segment s s' /\ removed now R T s s' /\ Forall (old_segment s) (R ++ T) /\
    (length T <= 1)%nat /\ (forall f, f ∈ T -> f ∈ sg_dir s') /\
    (forall f, f ∈ sg_dir s -> ~ old_segment s f -> f ∈ sg_dir s') /\
    (forall n, r = Ok n -> w_checkpoint_seq (bw_writer (sg_writer s)) <> 0 ->
      T = [] /\ n = Z.of_nat (length R) /\
      forall f, f ∈ sg_dir s' <-> f ∈ sg_dir s /\ ~ old_segment s f).
Proof.
  unfold reclaim_before_checkpoint. intros H Hnd. case_decide as Hz.
  { injection H as <- <-. exists [], []. split; [done|]. split; [apply removed_nil|].
    split; [done|]. split; [simpl; lia|]. split; [set_solver|]. split; done. }
  destruct (reclaim_loop_spec _ _ _ _ _ _ _ H Hnd) as (R & T & HRT & HF & Hs & Hr & HT & Hc).
  assert (R `sublist_of` sg_dir s) as HR by (etrans; [apply sublist_inserts_r|exact HRT]; done).
  assert (forall f, f ∈ sg_dir s -> f.1 ∈ R.*1 -> f ∈ R) as Hname.
  { intros f Hf [g [E Hg]]%list_elem_of_fmap. assert (g ∈ sg_dir s) as Hg' by by eapply elem_of_sublist.
    assert (f = g) as ->; [|done]. apply list_elem_of_lookup in Hf as [i Hi], Hg' as [j Hj].
    assert (i = j) as ->; [|congruence].
    eapply (NoDup_lookup (sg_dir s).*1); [done| |]; rewrite list_lookup_fmap.
    - by rewrite Hi.
    - rewrite Hj. simpl. by rewrite E. }
  exists R, T. split; [done|]. split; [done|].
  split; [eapply Forall_impl; [exact HF|]; intros f; apply reclaimable_old|]. split; [done|].
  rewrite Forall_forall in HF. destruct Hr as [Hd _].
  assert (forall f, f ∈ sg_dir s' <-> f ∈ sg_dir s /\ f ∉ R) as Hin.
  { intros f. rewrite Hd, list_elem_of_filter. split; [|naive_solver].
    intros [H1 H2]. split; [done|]. intros H3. apply H1, list_elem_of_fmap. eauto. }
  split; [|split].
  - intros f Hf. apply Hin. split; [eapply elem_of_sublist; [|exact HRT]; set_solver|].
    apply (sublist_NoDup (R ++ T).*1) in Hnd; [|by apply fmap_sublist].
    rewrite fmap_app in Hnd. apply NoDup_app in Hnd as (_ & Hdis & _). intros HfR.
    apply (Hdis f.1); by apply list_elem_of_fmap_2.
  - intros f Hf Hold. apply Hin. split; [done|]. intros HfR.
    apply Hold, reclaimable_old, HF. set_solver.
  - intros n Hok _. destruct (Hc n Hok) as (-> & -> & Hall). split; [done|]. split; [lia|].
    intros f. rewrite Hin, app_nil_r in *.
    split; intros [H1 H2]; (split; [done|]); intros H3; apply H2.
    + by apply Hall, reclaimable_old.
    + by apply reclaimable_old, HF.
Qed.

(** ** Rotation *)

(** A rotation that succeeds continues the log: the LSN does not move, the
    new segment starts with a header that names it, at the file position after
    that header, the old segment stays in the directory with all its bytes, and
    so does every other file that does not have the new segment's name. *)
Theorem rotate_continues created cloned salt1 salt2 created_at s s' p f :
  rotate wio_ok created cloned salt1 salt2 created_at s = (s', Ok tt) ->
  sg_path s = Some p -> w_file (bw_writer (sg_writer s)) = Some f ->
  let w' := bw_writer (sg_writer s') in
  let new := get_wal_file_path (sg_thread s) (sg_version s') in
  sg_path s' = Some new /\
  w_current_lsn w' = w_current_lsn (bw_writer (sg_writer s)) /\
  w_file_start_lsn w' = w_current_lsn w' /\ w_file_used w' = Z.of_nat WAL_FILE_HEADER_SIZE /\
  (p <> new -> (p, f) ∈ sg_dir s') /\
  (forall g, g ∈ sg_dir s -> g.1 <> new -> g ∈ sg_dir s').
Proof.
  unfold rotate. intros H Hp Hf. rewrite Hf in H. rewrite bool_decide_eq_true_2 in H by eauto.
  simpl in H. destruct created; [|done]. simpl in H.
  unfold leave_file in H. simpl in H. rewrite Hp, Hf in H.
  injection H as <-. destruct (bw_buffer (sg_writer s)) eqn:Eb; simpl;
    rewrite ?ensure_flush_state_writer; simpl; split_and!; try done.
  1,3: intros Hne; apply list_elem_of_filter; (split; [done|]); apply elem_of_app; right;
    by apply list_elem_of_singleton.
  all: intros g Hg Hne; apply list_elem_of_filter; (split; [done|]); apply elem_of_app; by left.
Qed.

(** ** Truncation *)

(** The LSN given to [truncate] decides nothing but whether the call is
    refused: any two LSNs below the durable one (and other than the current one)
    reclaim the same segments, those from before the last checkpoint.  In
    particular the barrier of [WalManager::truncate], the oldest position an index
    still needs, keeps no segment. *)
Theorem truncate_ignores_lsn io fine now s lsn1 lsn2 :
  let w := bw_writer (sg_writer s) in
  lsn1 <= w_last_synced_lsn w -> lsn2 <= w_last_synced_lsn w ->
  lsn1 <> w_current_lsn w -> lsn2 <> w_current_lsn w ->
  truncate io fine now lsn1 s = truncate io fine now lsn2 s.
Proof.
  cbv zeta. intros. unfold truncate. cbv zeta. rewrite !decide_False by lia. done.
Qed.


End Segments.
