(* ===== verification/WalExample.v ===== *)
(** * A small log

    Concrete codecs that satisfy the laws the log's theorems ask of the
    libraries, a segment with two transactions, and what recovery makes of it
    after a crash. *)

From stdpp Require Import base gmap list strings sorting pretty.
From Stdlib Require Import ZArith Lia.
From S2P Require Import Prelude Types WalTypes WalScan WalParser WalWriter WalFacts WalCommit WalRecovery WalCrash.
From S2P Require Import WalReplay WalBuffered WalManager WalFiles.

Module WalExample.
Import WalCrash WalReplay.

Definition crc (b : list Z) : Z := foldr (fun x acc => (x + 31 * acc) mod 2 ^ 32) 17 b.

(** A compressor that shortens what ends in two zeros. *)
Definition zip (level : Z) (d : list Z) : option (list Z) :=
  let n := (length d - 2)%nat in
  if decide (drop n d = [0; 0]) then Some (2 :: take n d) else Some (1 :: d).

Definition unzip (b : list Z) : option (list Z) :=
  match b with
  | 1 :: d => Some d
  | 2 :: d => Some (d ++ [0; 0])
  | _ => None
  end.

Definition mutation : IndexMutation :=
  mkIndexMutation 1 "fulltext" 3 1 (ERVertex vid_new) Upsert [1; 2] "k" "o".

(** Only intents with this mutation are encoded. *)
Definition intent_vec (i : OutboxIntent) : option (list Z) :=
  if decide (oi_mutation i = mutation)
  then Some [oi_wire_version i; oi_transaction_id i; intent_sequence i] else None.

Definition intent_of (b : list Z) : option OutboxIntent :=
  match b with [v; t; s] => Some (mkIntent v t s mutation) | _ => None end.

Definition commit_vec (c : TransactionCommit) : option (list Z) :=
  Some [tc_wire_version c; tc_transaction_id c; intent_count c; tc_batch_checksum c;
        first_sequence c; entry_count c].

Definition commit_of (b : list Z) : option TransactionCommit :=
  match b with [v; t; n; k; f; e] => Some (mkCommit v t n k f e) | _ => None end.

Definition abort_of (b : list Z) : option TransactionAbort :=
  match b with [v; t] => Some (mkAbort v t) | _ => None end.

Lemma toy_laws : library_laws crc zip unzip intent_vec intent_of commit_vec commit_of.
Proof.
  split.
  - intros [|x b]; simpl; [lia|]. apply Z.mod_pos_bound. lia.
  - intros l d z. unfold zip. case_decide as Hd; intros [= <-]; simpl; [|done].
    by rewrite <- Hd, take_drop.
  - intros [v t s m] b. unfold intent_vec. simpl. case_decide as Hm; [|done].
    intros [= <-]. simpl. by rewrite Hm.
  - by intros [] b [= <-].
  - intros c b [= <-]. done.
Qed.

(** The applier keeps the calls it received. *)
#[local] Instance recorder : RecoveryApplier (list (WalOpType * list Z * Timestamp)) (list Z) := {
  deserialize_redo := fun _ b => Some b;
  replay := fun op b ts a => (a ++ [(op, b, ts)], Ok tt);
  replay_compact := fun ts a => (a ++ [(OpCompact, [], ts)], Ok tt);
}.

Definition cfg : WalConfig := mkWalConfig 256 65536 EveryWrite CompZstd true.

Definition b1 : batch :=
  mkBatch 11 [mkWalEntry OpInsertVertex 4 [1; 2; 3] (Some 11) (Some 0);
              mkWalEntry OpInsertEdge 4 (replicate 70 0) (Some 11) (Some 1)]
    [mkIntent 1 11 0 mutation].

Definition b2 : batch := mkBatch 12 [mkWalEntry OpDeleteVertex 6 [9] (Some 12) (Some 2)] [].

Abbreviation run_open := (Writer.open wio_ok 1 2 3 0 (Some 1000) (Writer.with_config cfg)).

Definition w0 : LocalWalWriter := Eval vm_compute in run_open.1.

Abbreviation append b w := (Writer.append_transaction_batch_with_durability crc zip 3 intent_vec
  commit_vec wio_ok (b_tx b) (b_entries b) (b_intents b) DSync w).

Definition w1 : LocalWalWriter := Eval vm_compute in (append b1 w0).1.

Definition w2 : LocalWalWriter := Eval vm_compute in
  (Writer.append_transaction_batch_no_wait crc zip 3 intent_vec
     commit_vec wio_ok (b_tx b2) (b_entries b2) (b_intents b2) w1).1.

Definition file2 : list Z := Eval vm_compute in default [] (w_file w2).

Lemma b1_ok : batch_ok intent_vec b1.
Proof.
  split; [by repeat constructor|repeat constructor; vm_compute; congruence|].
  intros i b _. unfold intent_vec. case_decide; [|done]. intros [= <-]. done.
Qed.

Lemma b2_ok : batch_ok intent_vec b2.
Proof.
  split; [by repeat constructor|repeat constructor; vm_compute; congruence|].
  intros i b Hi. by apply not_elem_of_nil in Hi.
Qed.

Definition lsn1 : Lsn := w_current_lsn w1.

Definition lsn2 : Lsn := w_current_lsn w2.

Lemma toy_history : history crc zip intent_vec commit_vec 3 w2 [(b1, lsn1); (b2, lsn2)].
Proof.
  apply (h_append_no_wait crc zip intent_vec commit_vec 3 wio_ok b2 w1 [(b1, lsn1)]);
    [|apply b2_ok|by vm_compute|by vm_compute].
  apply (h_append crc zip intent_vec commit_vec 3 wio_ok DSync b1 w0 []);
    [|apply b1_ok|by vm_compute|by vm_compute].
  apply (h_open crc zip intent_vec commit_vec 3 wio_ok cfg 1 2 3 0 (Some 1000));
    [lia..|simpl; lia|done|by vm_compute].
Qed.

(** A cut ten bytes before the end of the second transaction. *)
Definition cut : nat := Eval vm_compute in (64 + Z.to_nat (lsn2 - 1000) - 10)%nat.

Lemma fits1 : Z.of_nat WAL_FILE_HEADER_SIZE + (lsn1 - w_file_start_lsn w2) <= Z.of_nat cut.
Proof. apply Z.leb_le. vm_compute. reflexivity. Qed.

Lemma fits2 : ~ Z.of_nat WAL_FILE_HEADER_SIZE + (lsn2 - w_file_start_lsn w2) <= Z.of_nat cut.
Proof. apply Z.nle_gt, Z.ltb_lt. vm_compute. reflexivity. Qed.

Lemma crash_recovers_prefix_witness :
  exists r k txs,
    Recovery.parse_wal_files crc unzip 4 [] default_recovery_config (crashed cut file2) = Ok r /\
    Commit.collect_committed_transactions crc intent_of commit_of abort_of (all_entries r) = Ok txs /\
    Forall2 recovers (take k [(b1, lsn1); (b2, lsn2)]) txs /\ k = 1%nat.
Proof.
  destruct (crash_recovers_prefix crc zip unzip intent_vec intent_of commit_vec commit_of abort_of 3
    w2 [(b1, lsn1); (b2, lsn2)] file2 cut 4 [] default_recovery_config toy_laws toy_history
    eq_refl ltac:(apply Nat.leb_le; vm_compute; reflexivity) ltac:(lia))
    as (r & k & txs & H1 & H2 & H3 & H4).
  exists r, k, txs. split; [exact H1|]. split; [exact H2|]. split; [exact H3|].
  pose proof (proj2 (H4 0%nat b1 lsn1 eq_refl) fits1) as Hk1.
  pose proof (fun Hk => fits2 (proj1 (H4 1%nat b2 lsn2 eq_refl) Hk)) as Hk2. lia.
Defined.

Lemma recovery_replays_committed_witness :
  let out := Recovery.recover_with_applier crc unzip intent_of commit_of abort_of 4 []
    default_recovery_config (crashed cut file2) true (default_stats, []) in
  out.1.2 = [(OpInsertVertex, [1; 2; 3], 4); (OpInsertEdge, replicate 70 0, 4)] /\ is_ok out.2 = true.
Proof.
  destruct (recovery_replays_committed crc zip unzip intent_vec intent_of commit_vec commit_of abort_of
    3 w2 [(b1, lsn1); (b2, lsn2)] file2 cut 4 [] default_recovery_config true default_stats []
    b1 lsn1 toy_laws toy_history eq_refl ltac:(lia) I eq_refl fits1
    ltac:(apply Nat.leb_le; vm_compute; reflexivity)) as (k & H4 & H1 & H2).
  pose proof (proj2 (H4 0%nat b1 lsn1 eq_refl) fits1) as Hk1.
  pose proof (fun Hk => fits2 (proj1 (H4 1%nat b2 lsn2 eq_refl) Hk)) as Hk2.
  assert (k = 1%nat) as -> by lia. split; [exact H1|exact H2].
Defined.

(** ** What recovery does with a first transaction that is cut off *)

Definition file1 : list Z := Eval vm_compute in default [] (w_file w1).

(** A crash while the first transaction of a log is written is not
    atomic: with no commit and no intent record in the log, recovery takes it
    for a log without transaction markers and replays the redo records that
    are complete, although no transaction is committed in it. *)
Theorem torn_first_transaction_replayed :
  exists n r,
    Recovery.parse_wal_files crc unzip 4 [] default_recovery_config (crashed n file1) = Ok r /\
    Commit.collect_committed_transactions crc intent_of commit_of abort_of (all_entries r) = Ok [] /\
    (Recovery.recover_with_applier crc unzip intent_of commit_of abort_of 4 []
       default_recovery_config (crashed n file1) true (default_stats, [])).1.2 =
      [(OpInsertVertex, [1; 2; 3], 4)].
Proof.
  exists 110%nat. eexists. split; [vm_compute; reflexivity|]. split; vm_compute; reflexivity.
Qed.

(** ** A commit whose fsync fails *)

Definition io_nosync : WalIo := mkWalIo true true None false (Ok tt).

Definition failed : LocalWalWriter * result CommitLsn WalError := Eval vm_compute in
  Writer.append_transaction_batch_with_durability crc zip 3 intent_vec commit_vec io_nosync
    (b_tx b1) (b_entries b1) (b_intents b1) DSync w0.

(** A transaction whose commit was reported as failed can come back.  When
    the fsync of a synchronous batch fails, the batch with its commit record
    stays in the file and the writer is not poisoned (as it is after a failed
    fsync of a single entry): the append returns an error, the next
    transaction is appended behind it, and recovery finds both committed. *)
Theorem failed_sync_transaction_recovered :
  failed.2 = Err IoError /\ w_poisoned failed.1 = false /\
  exists w lsn r txs,
    append b2 failed.1 = (w, Ok lsn) /\
    Recovery.parse_wal_files crc unzip 4 [] default_recovery_config
      (Some [w_file w]) = Ok r /\
    Commit.collect_committed_transactions crc intent_of commit_of abort_of (all_entries r) = Ok txs /\
    ct_transaction_id <$> txs = [b_tx b1; b_tx b2].
Proof.
  split; [done|]. split; [done|]. do 4 eexists. split; [vm_compute; reflexivity|].
  split; [vm_compute; reflexivity|]. split; vm_compute; reflexivity.
Qed.

(** ** Corruption in the skipping mode *)

(** The first payload byte of the segment changed. *)
Definition damaged : list Z := <[104%nat := 99]> file2.

(** The skipping mode does not skip: after a record with a wrong checksum
    the scan still expects the LSN before it, so the next record breaks the
    chain, which is an error in every mode, and the whole segment, committed
    transactions included, is dropped. *)
Theorem skip_mode_loses_segment :
  Scan.parse_wal_file_bytes crc unzip damaged 1000 SkipCorruption true = Some (Err Corrupted) /\
  Parser.parser_result (Parser.parse_wal_files crc unzip (Some [Some damaged])
    (Parser.with_recovery_mode SkipCorruption)).1 = mkRecovery [] 0 0 1 0.
Proof. split; vm_compute; reflexivity. Qed.

(** ** Fragments of a compressed payload *)

Definition big : list Z := replicate (Z.to_nat 33000) 7 ++ [0; 0].

(** A payload that is still larger than a record after compression is
    lost: the writer splits the compressed bytes into fragments that all carry
    the compression flag, the scanner decompresses each fragment by itself. *)
Theorem fragmented_compressed_unrecoverable :
  let out := Writer.append_entry crc zip 3 wio_ok OpInsertVertex 4 big w0 in
  out.2 = Ok tt /\
  Scan.parse_wal_file_bytes crc unzip (default [] (w_file out.1)) 1000 AbortOnCorruption true =
    Some (Err DeserializationError).
Proof. vm_compute. split; reflexivity. Qed.

End WalExample.

(** * The log of a running database

    A WAL manager with group commit and the background flush, both enabled as in
    the default configuration, on a small segment and a small buffer: what
    happens to commits and to other records when both are written, and when a
    write fails. *)

Module BufferedExample.
Import WalCrash WalExample.

(** ** The refinement at work *)

Definition hdr : list Z := Eval vm_compute in take 64 (default [] (w_file w0)).

Lemma w0_dstate : Buffered.dstate hdr w0.
Proof. split; [exists 192%nat; by vm_compute|by vm_compute..]. Qed.

(** The thread is started, an append falls between the halves of its round,
    and a drain and a further append follow. *)
Definition ex_ops : list Buffered.bop :=
  [Buffered.BStart; Buffered.BAppend OpInsertVertex 4 [1; 2; 3]; Buffered.BTake;
   Buffered.BAppend OpInsertEdge 4 (replicate (Z.to_nat 33000) 7); Buffered.BPut true;
   Buffered.BDrain; Buffered.BAppend OpCompact 5 []].

Definition ex_buffered : BufferedWriter :=
  Buffered.enable_async_flush true (mkBuffered w0 None None None 0 false true 64 0).

Abbreviation ex_run := (Buffered.brun crc zip 3 ex_ops (ex_buffered, [])).

Lemma buffered_refines_direct_witness :
  Buffered.background ex_run.1.1 = true /\
  Buffered.flushed (Buffered.flush_round wio_ok false ex_run.1.1) =
    Buffered.dlog (Buffered.drun crc zip 3 ex_ops w0).1.
Proof.
  assert (Hb : Buffered.background ex_run.1.1 = true) by (vm_compute; reflexivity).
  assert (Hl : w_current_lsn (Buffered.drun crc zip 3 ex_ops w0).1 < 2 ^ 64)
    by (apply Z.ltb_lt; vm_compute; reflexivity).
  split; [exact Hb|].
  pose proof (Buffered.buffered_refines_direct crc zip 3 hdr w0 0 64 0 ex_ops false w0_dstate
    ltac:(by vm_compute) Hl eq_refl) as Hr.
  cbv zeta in Hr. change (Buffered.enable_async_flush _ _) with ex_buffered in Hr.
  destruct ex_run as [[b d] rs]. exact (proj2 (proj2 (proj2 (proj2 (proj2 Hr)) eq_refl)) false Hb).
Defined.

(** The thread holds the first record when the second is appended and synced. *)
Definition overtaken_ops : list Buffered.bop :=
  [Buffered.BStart; Buffered.BAppend OpInsertVertex 4 [1; 2; 3]; Buffered.BTake;
   Buffered.BAppend OpInsertEdge 4 [7]].

Abbreviation overtaken := (Buffered.brun crc zip 3 overtaken_ops (ex_buffered, [])).

(** After that sync the file holds the second record and not the first. *)
Example sync_overtakes_flush_example :
  let synced := (Buffered.sync wio_ok overtaken.1.1).1 in
  length overtaken.1.2 = 43%nat /\
  w_last_synced_lsn (bw_writer synced) = 1084 /\
  length (Buffered.flushed synced) = (64 + 41)%nat.
Proof. vm_compute. split_and!; reflexivity. Qed.

(** ** Commits and the buffer *)

Definition m0 : WalManager := Eval vm_compute in
  (WalMgr.open wio_ok true 1 2 3 0 (Some 1000) (WalMgr.with_config cfg true true 1024)).1.

Abbreviation commit_m b m := (WalMgr.append_transaction_with_durability crc zip 3 intent_vec
  commit_vec wio_ok (b_tx b) (b_entries b) (b_intents b) DSync m).

(** A round of the background thread. *)
Definition tick (io : WalIo) (m : WalManager) : WalManager :=
  match local_writer m with
  | Some b => WalMgr.set_local_writer (Buffered.flush_round io false b) m
  | None => m
  end.

Definition disk (m : WalManager) : option (list Z) :=
  match local_writer m with Some b => w_file (bw_writer b) | None => None end.

(** What recovery finds committed on a disk. *)
Definition found (f : option (list Z)) : option (list TransactionId) :=
  match Recovery.parse_wal_files crc unzip 4 [] default_recovery_config (Some [f]) with
  | Ok r => match Commit.collect_committed_transactions crc intent_of commit_of abort_of
                    (all_entries r) with
            | Ok txs => Some (ct_transaction_id <$> txs)
            | Err _ => None
            end
  | Err _ => None
  end.

Definition committed : WalManager := Eval vm_compute in (commit_m b2 (commit_m b1 m0).1).1.

Definition compacted : WalManager := Eval vm_compute in
  tick wio_ok (WalMgr.append_entry crc zip 3 wio_ok OpCompact 7 [] committed).1.

(** A durable commit is lost when a compaction is logged after it.  Commits
    are written at the position of the writer, whatever the mode, and the
    buffer is drained at the position of the flush state, which commits do not
    move: the Compact record of a compaction goes over the first bytes of the
    first commit of the segment.  Before that recovery finds both commits, which
    were acknowledged as durable; afterwards it fails, the log is corrupted. *)
Theorem compaction_overwrites_commits :
  WalMgr.is_async_enabled m0 = true /\
  (commit_m b1 m0).2 = Ok lsn1 /\ is_ok (commit_m b2 (commit_m b1 m0).1).2 = true /\
  found (disk committed) = Some [b_tx b1; b_tx b2] /\
  (WalMgr.append_entry crc zip 3 wio_ok OpCompact 7 [] committed).2 = Ok tt /\
  Recovery.parse_wal_files crc unzip 4 [] default_recovery_config (Some [disk compacted]) =
    Err (RDbError Corrupted).
Proof. vm_compute. split_and!; reflexivity. Qed.

(** ** Failed flushes *)

(** The disk is full for one write. *)
Definition io_full : WalIo := mkWalIo true true (Some 0%nat) true (Ok tt).

Definition staged : WalManager := Eval vm_compute in
  (WalMgr.append_entry crc zip 3 wio_ok OpInsertVertex 4 [1; 2; 3] m0).1.

Definition lost : WalManager := Eval vm_compute in tick io_full staged.

(** A failed background flush loses the staged entries and nobody is told:
    the round takes the bytes out of the buffer, the write fails, the failure is
    only logged and the writer is not poisoned; the next [sync] succeeds and
    reports the entries' LSN as durable, with nothing of them in the file. *)
Theorem flush_failure_acknowledged :
  let out := WalMgr.sync wio_ok lost in
  WalMgr.current_lsn staged = 1043 /\ out.2 = Ok tt /\ WalMgr.durable_lsn out.1 = 1043 /\
  disk out.1 = disk m0.
Proof. vm_compute. split_and!; reflexivity. Qed.

End BufferedExample.

(** * A log of several segments

    Two segments, a checkpoint, a truncation and a restart: what the operations of
    [WalFiles] do, and which segments they lose. *)

Module FilesExample.
Import WalCrash WalExample BufferedExample.

Definition fine (_ : string) : Segments.FileOutcome :=
  Segments.mkOutcome true Segments.Copied true.

(** A writer of thread 0 that starts on a directory; the buffer is off. *)
Definition start (dir : list (string * list Z)) : SegmentWriter :=
  mkSeg (Buffered.with_config cfg false 0) 0 0 None dir None 0 0 0.

Definition s1 : SegmentWriter := Eval vm_compute in
  (Segments.open wio_ok true 1 2 3 (Some 1000) (start [])).1.

Definition commit_s (b : batch) (s : SegmentWriter) : SegmentWriter :=
  (Segments.on_segment (Writer.append_transaction_batch_with_durability crc zip 3 intent_vec commit_vec
     wio_ok (b_tx b) (b_entries b) (b_intents b) DSync) s).1.

(** The first commit is in segment 1; then segment 2 is opened, and a checkpoint
    gets the number 1. *)
Definition s2 : SegmentWriter := Eval vm_compute in
  (Segments.rotate wio_ok true true 4 5 6 (commit_s b1 s1)).1.

Definition s3 : SegmentWriter := Eval vm_compute in
  (Segments.on_segment (Writer.set_checkpoint_seq wio_ok 1) s2).1.

(** The index still needs what is above this position. *)
Definition barrier : Lsn := 1001.

Definition s4 : SegmentWriter := Eval vm_compute in
  (Segments.manager_truncate wio_ok fine 9 (Some [barrier]) lsn1 s3).1.

Definition name1 : string := "thread_0_wal_00000001".

Definition name2 : string := "thread_0_wal_00000002".

(** Truncation does not stop at the oldest index barrier: the barrier only
    lowers the LSN that [truncate] checks against the durable one, and the
    segments are chosen by their checkpoint number, so the segment that holds a
    commit above the barrier is deleted. *)
Theorem truncate_passes_barrier :
  (sg_dir s3).*1 = [name1] /\
  barrier < lsn1 /\ found (snd <$> head (sg_dir s3)) = Some [b_tx b1] /\
  (Segments.manager_truncate wio_ok fine 9 (Some [barrier]) lsn1 s3).2 = Ok 1 /\ sg_dir s4 = [].
Proof. vm_compute. split_and!; reflexivity. Qed.

(** The second commit is in segment 2 when the database stops. *)
Definition s5 : SegmentWriter := Eval vm_compute in Segments.close wio_ok true (commit_s b2 s4).

Definition s6 : SegmentWriter := Eval vm_compute in
  (Segments.open wio_ok true 7 8 9 (Some lsn2) (start (sg_dir s5))).1.

Definition s7 : SegmentWriter := Eval vm_compute in
  (Segments.rotate wio_ok true true 4 5 6 s6).1.

(** A rotation can erase a segment: after segment 1 was reclaimed a restarted
    writer takes the free name of version 1, although version 2 exists, and its
    first rotation opens version 2 with truncation: the commit in it, which no
    checkpoint covers, is gone. *)
Theorem rotate_erases_segment :
  ((sg_dir s5).*1 = [name2]) /\ found (snd <$> head (sg_dir s5)) = Some [b_tx b2] /\
  sg_path s6 = Some name1 /\
  (Segments.rotate wio_ok true true 4 5 6 s6).2 = Ok tt /\ sg_path s7 = Some name2 /\
  ((sg_dir s7).*1 = [name1]) /\ found (w_file (bw_writer (sg_writer s7))) = Some [].
Proof. vm_compute. split_and!; reflexivity. Qed.

(** ** Witnesses *)

Lemma segment_name_roundtrip_witness :
  Segments.version_of 7 (Segments.get_wal_file_path 7 48879) = Some 48879.
Proof. apply (Segments.segment_name_roundtrip 7 48879). lia. Defined.

Lemma open_takes_free_name_witness :
  exists v, sg_path s6 = Some (Segments.get_wal_file_path 0 v) /\ sg_dir s6 = sg_dir s5.
Proof.
  destruct (Segments.open_takes_free_name wio_ok true 7 8 9 (Some lsn2) (start (sg_dir s5)) s6)
    as (v & _ & _ & Hp & _ & Hd & _); [by vm_compute|done|by vm_compute|].
  exists v. split; [exact Hp|exact Hd].
Defined.

Lemma reclaim_exact_witness :
  exists n, (Segments.reclaim_before_checkpoint fine 9 s3).2 = Ok n /\
    forall f, (f ∈ sg_dir s4) <-> f ∈ sg_dir s3 /\ ~ Segments.old_segment s3 f.
Proof.
  destruct (Segments.reclaim_exact fine 9 s3 s4 (Ok 1)) as (R & T & _ & _ & _ & _ & _ & _ & H).
  - by vm_compute.
  - apply NoDup_singleton.
  - exists 1. split; [by vm_compute|]. apply (H 1 eq_refl). by vm_compute.
Defined.

(** In copy mode a removal that fails after the copy leaves the segment in both
    places: the reclaim reports the error, and a later one archives it again. *)
Example copied_not_removed :
  let s := Segments.set_archive (Some (ArchiveCopy, [])) s3 in
  let out := Segments.reclaim_before_checkpoint
    (fun _ => Segments.mkOutcome true Segments.Copied false) 9 s in
  out.2 = Err IoError /\ sg_dir out.1 = sg_dir s3 /\
  sg_archive out.1 = Some (ArchiveCopy, sg_dir s3) /\ sg_archived out.1 = 0.
Proof. vm_compute. split_and!; reflexivity. Qed.

Lemma rotate_continues_witness :
  w_current_lsn (bw_writer (sg_writer s2)) = lsn1 /\
  (name1, default [] (w_file (bw_writer (sg_writer (commit_s b1 s1))))) ∈ sg_dir s2.
Proof.
  destruct (Segments.rotate_continues true true 4 5 6 (commit_s b1 s1) s2 name1
    (default [] (w_file (bw_writer (sg_writer (commit_s b1 s1)))))) as (_ & Hl & _ & _ & Hd & _).
  - by vm_compute.
  - by vm_compute.
  - by vm_compute.
  - split; [rewrite Hl; by vm_compute|]. apply Hd. by vm_compute.
Defined.

End FilesExample.
