(* ===== verification/Stats.v ===== *)
(** * Transaction statistics

    [linkrs-transaction/src/types/stats.rs]: the wrapping 64-bit counters, the
    per-class conflict counters and the sliding window of conflicts per
    second.  [now] is the wall clock in whole seconds. *)

From stdpp Require Import base list.
From Stdlib Require Import ZArith Lia SpecFloat.
From S2P Require Import Prelude Types.

Definition CONFLICT_WINDOW_BUCKETS : nat := 60.

Record ConflictBreakdown := mkBreakdown {
  cb_write_write : Z; cb_read_write : Z; cb_phantom : Z;
  cb_schema_generation : Z; cb_index_generation : Z;
}.

Record TransactionStats := mkStats {
  total_transactions : Z;
  active_transactions : Z;
  committed_transactions : Z;
  aborted_transactions : Z;
  timeout_transactions : Z;
  conflict_transactions : Z;
  conflicts_by_type : ConflictBreakdown;
  disconnect_transactions : Z;
  cleanup_failure_transactions : Z;
  hook_dispatch_total : Z;
  hook_panic_total : Z;
  hook_slow_total : Z;
  active_statements : Z;
  window_buckets : list Z;
  window_head : Z;
  window_last_epoch_sec : Z;
}.

Module Stats.

Definition new : TransactionStats :=
  mkStats 0 0 0 0 0 0 (mkBreakdown 0 0 0 0 0) 0 0 0 0 0 0
    (replicate CONFLICT_WINDOW_BUCKETS 0) 0 0.

Definition increment_total (s : TransactionStats) : TransactionStats :=
  mkStats (wrap_u64 (total_transactions s + 1)) (active_transactions s)
    (committed_transactions s) (aborted_transactions s) (timeout_transactions s)
    (conflict_transactions s) (conflicts_by_type s) (disconnect_transactions s)
    (cleanup_failure_transactions s) (hook_dispatch_total s) (hook_panic_total s)
    (hook_slow_total s) (active_statements s) (window_buckets s) (window_head s)
    (window_last_epoch_sec s).

Definition add_active (d : Z) (s : TransactionStats) : TransactionStats :=
  mkStats (total_transactions s) (wrap_u64 (active_transactions s + d))
    (committed_transactions s) (aborted_transactions s) (timeout_transactions s)
    (conflict_transactions s) (conflicts_by_type s) (disconnect_transactions s)
    (cleanup_failure_transactions s) (hook_dispatch_total s) (hook_panic_total s)
    (hook_slow_total s) (active_statements s) (window_buckets s) (window_head s)
    (window_last_epoch_sec s).

Definition increment_active (s : TransactionStats) : TransactionStats := add_active 1 s.

Definition decrement_active (s : TransactionStats) : TransactionStats := add_active (-1) s.

Definition increment_committed (s : TransactionStats) : TransactionStats :=
  mkStats (total_transactions s) (active_transactions s)
    (wrap_u64 (committed_transactions s + 1)) (aborted_transactions s)
    (timeout_transactions s) (conflict_transactions s) (conflicts_by_type s)
    (disconnect_transactions s) (cleanup_failure_transactions s) (hook_dispatch_total s)
    (hook_panic_total s) (hook_slow_total s) (active_statements s) (window_buckets s)
    (window_head s) (window_last_epoch_sec s).

Definition increment_aborted (s : TransactionStats) : TransactionStats :=
  mkStats (total_transactions s) (active_transactions s) (committed_transactions s)
    (wrap_u64 (aborted_transactions s + 1)) (timeout_transactions s)
    (conflict_transactions s) (conflicts_by_type s) (disconnect_transactions s)
    (cleanup_failure_transactions s) (hook_dispatch_total s) (hook_panic_total s)
    (hook_slow_total s) (active_statements s) (window_buckets s) (window_head s)
    (window_last_epoch_sec s).

Definition increment_timeout (s : TransactionStats) : TransactionStats :=
  mkStats (total_transactions s) (active_transactions s) (committed_transactions s)
    (aborted_transactions s) (wrap_u64 (timeout_transactions s + 1))
    (conflict_transactions s) (conflicts_by_type s) (disconnect_transactions s)
    (cleanup_failure_transactions s) (hook_dispatch_total s) (hook_panic_total s)
    (hook_slow_total s) (active_statements s) (window_buckets s) (window_head s)
    (window_last_epoch_sec s).

Definition record_timeout (s : TransactionStats) : TransactionStats := increment_timeout s.

Definition increment_disconnect (s : TransactionStats) : TransactionStats :=
  mkStats (total_transactions s) (active_transactions s) (committed_transactions s)
    (aborted_transactions s) (timeout_transactions s) (conflict_transactions s)
    (conflicts_by_type s) (wrap_u64 (disconnect_transactions s + 1))
    (cleanup_failure_transactions s) (hook_dispatch_total s) (hook_panic_total s)
    (hook_slow_total s) (active_statements s) (window_buckets s) (window_head s)
    (window_last_epoch_sec s).

Definition increment_cleanup_failure (s : TransactionStats) : TransactionStats :=
  mkStats (total_transactions s) (active_transactions s) (committed_transactions s)
    (aborted_transactions s) (timeout_transactions s) (conflict_transactions s)
    (conflicts_by_type s) (disconnect_transactions s)
    (wrap_u64 (cleanup_failure_transactions s + 1)) (hook_dispatch_total s)
    (hook_panic_total s) (hook_slow_total s) (active_statements s) (window_buckets s)
    (window_head s) (window_last_epoch_sec s).

Definition set_hooks (dispatch panic slow : Z) (s : TransactionStats) : TransactionStats :=
  mkStats (total_transactions s) (active_transactions s) (committed_transactions s)
    (aborted_transactions s) (timeout_transactions s) (conflict_transactions s)
    (conflicts_by_type s) (disconnect_transactions s) (cleanup_failure_transactions s)
    dispatch panic slow (active_statements s) (window_buckets s) (window_head s)
    (window_last_epoch_sec s).

Definition record_hook_dispatch (delivered panics : Z) (s : TransactionStats)
  : TransactionStats :=
  set_hooks (wrap_u64 (hook_dispatch_total s + delivered))
    (if decide (panics > 0) then wrap_u64 (hook_panic_total s + panics)
     else hook_panic_total s) (hook_slow_total s) s.

Definition record_hook_slow (slow : Z) (s : TransactionStats) : TransactionStats :=
  if decide (slow > 0)
  then set_hooks (hook_dispatch_total s) (hook_panic_total s)
         (wrap_u64 (hook_slow_total s + slow)) s
  else s.

Definition set_statements (n : Z) (s : TransactionStats) : TransactionStats :=
  mkStats (total_transactions s) (active_transactions s) (committed_transactions s)
    (aborted_transactions s) (timeout_transactions s) (conflict_transactions s)
    (conflicts_by_type s) (disconnect_transactions s) (cleanup_failure_transactions s)
    (hook_dispatch_total s) (hook_panic_total s) (hook_slow_total s) n (window_buckets s)
    (window_head s) (window_last_epoch_sec s).

Definition begin_statement (s : TransactionStats) : TransactionStats :=
  set_statements (wrap_u64 (active_statements s + 1)) s.

(** [checked_sub(1)]: the update is dropped at zero. *)
Definition end_statement (s : TransactionStats) : TransactionStats :=
  if decide (1 <= active_statements s)
  then set_statements (active_statements s - 1) s else s.

Definition record_txn_begin (s : TransactionStats) : TransactionStats :=
  increment_active (increment_total s).

Definition record_txn_commit (s : TransactionStats) : TransactionStats :=
  increment_committed (decrement_active s).

Definition record_txn_rollback (s : TransactionStats) : TransactionStats :=
  increment_aborted (decrement_active s).

Definition set_window (b : list Z) (head last : Z) (s : TransactionStats)
  : TransactionStats :=
  mkStats (total_transactions s) (active_transactions s) (committed_transactions s)
    (aborted_transactions s) (timeout_transactions s) (conflict_transactions s)
    (conflicts_by_type s) (disconnect_transactions s) (cleanup_failure_transactions s)
    (hook_dispatch_total s) (hook_panic_total s) (hook_slow_total s) (active_statements s)
    b head last.

(** [for i in 0..elapsed] storing zero at [(head + i) % n]. *)
Definition zero_buckets (head elapsed : Z) (b : list Z) : list Z :=
  fold_left (fun acc i =>
      <[Z.to_nat ((head + Z.of_nat i) mod Z.of_nat CONFLICT_WINDOW_BUCKETS) := 0]> acc)
    (seq 0 (Z.to_nat elapsed)) b.

Definition record_conflict_in_window (now : Z) (s : TransactionStats) : TransactionStats :=
  let last := window_last_epoch_sec s in
  let head := window_head s in
  let n := Z.of_nat CONFLICT_WINDOW_BUCKETS in
  let '(b, head', last') :=
    if decide (now > last) then
      let elapsed := now - last in
      if decide (elapsed >= n) then (replicate CONFLICT_WINDOW_BUCKETS 0, 0, now)
      else (zero_buckets head elapsed (window_buckets s), (head + elapsed) mod n, now)
    else (window_buckets s, head, last) in
  let idx := Z.to_nat (head' mod n) in
  set_window (alter (fun c => wrap_u64 (c + 1)) idx b) head' last' s.

Definition set_conflicts (total : Z) (b : ConflictBreakdown) (s : TransactionStats)
  : TransactionStats :=
  mkStats (total_transactions s) (active_transactions s) (committed_transactions s)
    (aborted_transactions s) (timeout_transactions s) total b (disconnect_transactions s)
    (cleanup_failure_transactions s) (hook_dispatch_total s) (hook_panic_total s)
    (hook_slow_total s) (active_statements s) (window_buckets s) (window_head s)
    (window_last_epoch_sec s).

Definition record_txn_conflict (now : Z) (s : TransactionStats) : TransactionStats :=
  record_conflict_in_window now
    (set_conflicts (wrap_u64 (conflict_transactions s + 1)) (conflicts_by_type s) s).

Definition bump_type (kind : ConflictType) (b : ConflictBreakdown) : ConflictBreakdown :=
  let up k := if decide (kind = k) then (fun z => wrap_u64 (z + 1)) else (fun z => z) in
  mkBreakdown (up WriteWrite (cb_write_write b)) (up ReadWrite (cb_read_write b))
    (up Phantom (cb_phantom b)) (up SchemaGeneration (cb_schema_generation b))
    (up IndexGeneration (cb_index_generation b)).

Definition record_txn_conflict_with_type (now : Z) (kind : ConflictType)
    (s : TransactionStats) : TransactionStats :=
  record_conflict_in_window now
    (set_conflicts (wrap_u64 (conflict_transactions s + 1))
       (bump_type kind (conflicts_by_type s)) s).

Definition conflict_breakdown (s : TransactionStats) : ConflictBreakdown := conflicts_by_type s.

Definition conflict_rate (s : TransactionStats) : spec_float :=
  if decide (total_transactions s = 0) then f64_of_Z 0
  else f64_div (f64_of_Z (conflict_transactions s)) (f64_of_Z (total_transactions s)).

(** The sum the window rate is computed from. *)
Definition window_total (s : TransactionStats) : Z := foldr Z.add 0 (window_buckets s).

Definition conflict_rate_windowed (s : TransactionStats) : spec_float :=
  f64_div (f64_of_Z (window_total s)) (f64_of_Z (Z.of_nat CONFLICT_WINDOW_BUCKETS)).

(** ** The window *)

(** Only the bucket at the head ever holds a count. *)
Record window_inv (s : TransactionStats) : Prop := {
  wi_len : length (window_buckets s) = CONFLICT_WINDOW_BUCKETS;
  wi_head : 0 <= window_head s < Z.of_nat CONFLICT_WINDOW_BUCKETS;
  wi_zero : forall i c, window_buckets s !! i = Some c -> i <> Z.to_nat (window_head s) -> c = 0;
}.

Lemma new_window_inv : window_inv new.
Proof.
  split; simpl; [done|done|]. intros i c Hi _. change (0 :: _) with (replicate 60 0) in Hi.
  apply lookup_replicate in Hi. tauto.
Qed.

Lemma length_zero_buckets head elapsed b : length (zero_buckets head elapsed b) = length b.
Proof.
  unfold zero_buckets. revert b. induction (seq 0 (Z.to_nat elapsed)) as [|i l IH]; intros b;
    simpl; [done|]. by rewrite IH, length_insert.
Qed.

(** Zeroing keeps zeros and, over at least one step, clears the head. *)
Lemma zero_buckets_spec head elapsed b i c :
  0 <= head < Z.of_nat CONFLICT_WINDOW_BUCKETS -> 0 < elapsed ->
  (forall j d, b !! j = Some d -> j <> Z.to_nat head -> d = 0) ->
  zero_buckets head elapsed b !! i = Some c -> c = 0.
Proof.
  intros Hh He Hz. unfold zero_buckets.
  destruct (Z.to_nat elapsed) as [|n] eqn:En; [lia|]. simpl.
  assert (Hall : forall (l : list nat) (acc : list Z), (forall j d, acc !! j = Some d -> d = 0) ->
    forall j d, fold_left (fun acc i =>
      <[Z.to_nat ((head + Z.of_nat i) mod Z.of_nat CONFLICT_WINDOW_BUCKETS) := 0]> acc) l acc
      !! j = Some d -> d = 0).
  { induction l as [|x l IH]; intros acc Hacc; [done|]. simpl. apply IH.
    intros j d [(? & -> & ?)|(? & ?)]%list_lookup_insert_Some; [done|eauto]. }
  apply Hall. intros j d Hj. rewrite Z.add_0_r, Z.mod_small in Hj by done.
  apply list_lookup_insert_Some in Hj as [(? & -> & ?)|(? & ?)]; [done|]. eauto.
Qed.

Lemma record_window_inv now s :
  window_inv s -> window_inv (record_conflict_in_window now s).
Proof.
  intros [Hl Hh Hz]. unfold record_conflict_in_window.
  assert (Hfin : forall (b : list Z) h t, length b = CONFLICT_WINDOW_BUCKETS ->
    0 <= h < Z.of_nat CONFLICT_WINDOW_BUCKETS ->
    (forall i c, b !! i = Some c -> i <> Z.to_nat h -> c = 0) ->
    window_inv (set_window (alter (fun c => wrap_u64 (c + 1))
      (Z.to_nat (h mod Z.of_nat CONFLICT_WINDOW_BUCKETS)) b) h t s)).
  { intros b h t H1 H2 H3. split; simpl; [by rewrite length_alter|done|].
    intros i c Hi Hne. rewrite (Z.mod_small h) in Hi by done.
    rewrite list_lookup_alter_ne in Hi by done. eauto. }
  destruct (decide (now > window_last_epoch_sec s));
    [destruct (decide (now - window_last_epoch_sec s >= Z.of_nat CONFLICT_WINDOW_BUCKETS))|].
  - apply Hfin; [done|done|]. intros i c Hi _. apply lookup_replicate in Hi. tauto.
  - apply Hfin; [by rewrite length_zero_buckets|by apply Z.mod_pos_bound|].
    intros i c Hi _. eapply zero_buckets_spec; [..|exact Hi]; eauto; lia.
  - by apply Hfin.
Qed.

Lemma foldr_zero (b : list Z) : (forall i c, b !! i = Some c -> c = 0) -> foldr Z.add 0 b = 0.
Proof.
  induction b as [|x b IH]; intros H; [done|]. simpl.
  rewrite (H 0%nat x eq_refl), IH; [done|]. intros i c Hi. by apply (H (S i)).
Qed.

Lemma window_total_head s :
  window_inv s ->
  window_buckets s !! Z.to_nat (window_head s) = Some (window_total s).
Proof.
  intros [Hl Hh Hz]. unfold window_total. set (k := Z.to_nat (window_head s)) in *.
  destruct (lookup_lt_is_Some_2 (window_buckets s) k) as [x Hx]; [lia|]. rewrite Hx. f_equal.
  rewrite <- (take_drop_middle _ _ _ Hx), foldr_app; simpl.
  rewrite (foldr_zero (drop (S k) (window_buckets s))).
  2:{ intros i c Hi. rewrite lookup_drop in Hi. eapply Hz; [done|lia]. }
  assert (Hpre : forall i c, take k (window_buckets s) !! i = Some c -> c = 0).
  { intros i c [Hi ?]%lookup_take_Some. eapply Hz; [done|lia]. }
  clear -Hpre. induction (take k (window_buckets s)) as [|y l IH]; simpl; [lia|].
  rewrite (Hpre 0%nat y eq_refl), <- IH; [lia|]. intros i c Hi. by apply (Hpre (S i)).
Qed.

Definition run_window (nows : list Z) : TransactionStats :=
  fold_left (fun s now => record_conflict_in_window now s) nows new.

Lemma run_window_inv nows : window_inv (run_window nows).
Proof.
  unfold run_window. generalize new_window_inv. generalize new.
  induction nows as [|now l IH]; intros s Hs; simpl; [done|]. by apply IH, record_window_inv.
Qed.

(** The conflict window forgets.  Whatever conflicts were recorded before,
    recording one in a later second leaves a window whose sum is exactly one:
    the advance clears the bucket that holds the counts instead of the buckets
    it moves onto, so the documented sixty-second window only ever covers the
    current second. *)
Theorem conflict_window_forgets nows now :
  window_last_epoch_sec (run_window nows) < now ->
  window_total (record_conflict_in_window now (run_window nows)) = 1.
Proof.
  intros Hlt. pose proof (run_window_inv nows) as Hinv.
  pose proof (record_window_inv now _ Hinv) as Hinv'.
  pose proof (window_total_head _ Hinv') as Ht.
  destruct Hinv as [Hl Hh Hz]. revert Ht Hinv'.
  generalize (window_total (record_conflict_in_window now (run_window nows))).
  unfold record_conflict_in_window. rewrite decide_True by lia. intros t.
  assert (Hfin : forall (b : list Z) h, length b = CONFLICT_WINDOW_BUCKETS ->
    0 <= h < Z.of_nat CONFLICT_WINDOW_BUCKETS -> (forall i c, b !! i = Some c -> c = 0) ->
    alter (fun c => wrap_u64 (c + 1)) (Z.to_nat (h mod Z.of_nat CONFLICT_WINDOW_BUCKETS)) b
      !! Z.to_nat h = Some t -> t = 1).
  { intros b h H1 H2 H3. rewrite (Z.mod_small h) by done. rewrite list_lookup_alter_eq.
    destruct (b !! Z.to_nat h) as [c|] eqn:E; [|discriminate].
    rewrite (H3 _ _ E). simpl. by intros [= <-]. }
  destruct (decide (now - window_last_epoch_sec (run_window nows) >=
    Z.of_nat CONFLICT_WINDOW_BUCKETS)); intros Ht _; (eapply Hfin; [..|exact Ht]).
  - done.
  - done.
  - intros i c Hi. apply lookup_replicate in Hi. tauto.
  - by rewrite length_zero_buckets.
  - by apply Z.mod_pos_bound.
  - intros i c Hi. eapply zero_buckets_spec; [..|exact Hi]; eauto; lia.
Qed.

Lemma conflict_window_forgets_witness :
  window_total (run_window [100; 100; 100]) = 3 /\
  window_total (record_conflict_in_window 101 (run_window [100; 100; 100])) = 1.
Proof.
  split; [reflexivity|]. apply conflict_window_forgets. reflexivity.
Defined.

End Stats.
