(* ===== verification/Certifier.v ===== *)
(** * Write-set certification

    [linkrs-transaction/src/certify.rs] and [certify/]: the committed-write
    indices, the rw-dependency tracker, the pre-check and the publication with
    its final review.  The certifier reads transaction contexts through the
    interface [CertContext]; [Context] implements it.  A pass under the global
    commit lock is one function; [now] is the wall clock in seconds. *)

From stdpp Require Import base gmap sets list strings sorting.
From Stdlib Require Import ZArith Lia.
From S2P Require Import Prelude Types WriteSet Stats.

(** ** What certification needs of a transaction context *)

Class CertContext (Ctx : Type) := {
  cc_read_only : Ctx -> bool;
  cc_write_validated : Ctx -> bool;
  cc_write_set : Ctx -> WriteSet;
  cc_read_set : Ctx -> WriteSet;
  cc_start_timestamp : Ctx -> Timestamp;
  cc_isolation_level : Ctx -> IsolationLevel;
  cc_concurrency_mode : Ctx -> ConcurrencyMode;
  cc_full_scan_threshold : Ctx -> option Z;
  cc_ssi_read_resources : Ctx -> gset ResourceId;
  cc_mark_write_validated : Ctx -> Ctx;
}.

(** What a context promises: marking it validated sets the flag and changes
    nothing certification reads. *)
Class CertContextLaws (Ctx : Type) `{CertContext Ctx} : Prop := {
  mark_validated : forall c, cc_write_validated (cc_mark_write_validated c) = true;
  mark_read_only : forall c, cc_read_only (cc_mark_write_validated c) = cc_read_only c;
  mark_write_set : forall c, cc_write_set (cc_mark_write_validated c) = cc_write_set c;
  mark_read_set : forall c, cc_read_set (cc_mark_write_validated c) = cc_read_set c;
  mark_start : forall c,
    cc_start_timestamp (cc_mark_write_validated c) = cc_start_timestamp c;
  mark_isolation : forall c,
    cc_isolation_level (cc_mark_write_validated c) = cc_isolation_level c;
  mark_mode : forall c,
    cc_concurrency_mode (cc_mark_write_validated c) = cc_concurrency_mode c;
}.

(** ** Conflict index *)

Module ConflictIndex.
Section index.
Context {V : Type} `{Countable V}.

(** Entries of a resource: commit timestamp and transaction. *)
Implicit Types m : gmap V (list (Timestamp * TransactionId)).

Definition new : gmap V (list (Timestamp * TransactionId)) := ∅.

Definition conflicts_after (r : V) (since : Timestamp) m : bool :=
  match m !! r with
  | Some l => existsb (fun e => bool_decide (e.1 > since)) l
  | None => false
  end.

Definition add (r : V) (commit_ts : Timestamp) (txn : TransactionId) m
  : gmap V (list (Timestamp * TransactionId)) :=
  let l := default [] (m !! r) in
  <[r := if existsb (fun e => bool_decide (e.1 = commit_ts) && bool_decide (e.2 = txn)) l
         then l else l ++ [(commit_ts, txn)]]> m.

(** [HashMap::retain] over the lists, dropping those left empty. *)
Definition retain (keep : Timestamp * TransactionId -> bool) m
  : gmap V (list (Timestamp * TransactionId)) :=
  omap (fun l => match base.filter (fun e => keep e = true) l with
                 | [] => None
                 | l' => Some l'
                 end) m.

Definition prune (oldest : Timestamp) m : gmap V (list (Timestamp * TransactionId)) :=
  retain (fun e => bool_decide (e.1 > oldest)) m.

(** The entries recorded for a resource. *)
Definition entries (r : V) m : list (Timestamp * TransactionId) := default [] (m !! r).

Lemma conflicts_after_spec r since m :
  conflicts_after r since m = true <-> exists e, e ∈ entries r m /\ since < e.1.
Proof.
  unfold conflicts_after, entries. destruct (m !! r) as [l|]; simpl.
  - rewrite existsb_exists. setoid_rewrite bool_decide_eq_true.
    setoid_rewrite <- list_elem_of_In. split; intros (e & ? & ?); exists e; (split; [done|lia]).
  - split; [done|]. intros (e & He & _). by apply elem_of_nil in He.
Qed.

Lemma entries_add r r' ts txn e m :
  e ∈ entries r' (add r ts txn m) <-> e ∈ entries r' m \/ (r' = r /\ e = (ts, txn)).
Proof.
  unfold add, entries. destruct (decide (r' = r)) as [->|Hne].
  2:{ rewrite lookup_insert_ne by done. split; [by left|]. intros [?|[? _]]; done. }
  rewrite lookup_insert_eq. simpl.
  destruct (existsb _ _) eqn:E.
  - split; [by left|]. intros [?|[_ ->]]; [done|].
    apply existsb_exists in E as ([t i] & Hin%list_elem_of_In & Hb). simpl in Hb.
    apply andb_true_iff in Hb as [->%bool_decide_eq_true ->%bool_decide_eq_true]. done.
  - rewrite elem_of_app, list_elem_of_singleton. naive_solver.
Qed.

Lemma entries_retain r keep e m :
  e ∈ entries r (retain keep m) <-> e ∈ entries r m /\ keep e = true.
Proof.
  unfold retain, entries. rewrite lookup_omap. destruct (m !! r) as [l|]; simpl.
  - rewrite (and_comm (e ∈ l)), <- (list_elem_of_filter (fun e => keep e = true)).
    by destruct (base.filter _ l).
  - split; [|intros [? _]]; intros; by apply elem_of_nil in H0.
Qed.

Lemma entries_prune r oldest e m :
  e ∈ entries r (prune oldest m) <-> e ∈ entries r m /\ oldest < e.1.
Proof. unfold prune. rewrite entries_retain, bool_decide_eq_true. split; intros []; split; done || lia. Qed.

End index.
End ConflictIndex.

(** ** The certifier's state *)

Record Certifier := mkCert {
  committed_write_sets : gmap Z (list WriteSet);
  vertex_writes : gmap VertexId (list (Timestamp * TransactionId));
  edge_writes : gmap EdgeIdentifier (list (Timestamp * TransactionId));
  schema_writes : gmap string (list (Timestamp * TransactionId));
  index_writes : gmap string (list (Timestamp * TransactionId));
  read_locks : gmap ResourceId (list (TransactionId * Timestamp));
  prune_countdown : Z;
}.

Definition PRUNE_INTERVAL : Z := 64.

(** ** rw-dependency tracker ([ssi_tracker.rs]) *)

Module SsiTracker.

Definition new : gmap ResourceId (list (TransactionId * Timestamp)) := ∅.

Definition register_read (txn : TransactionId) (r : ResourceId) (start_ts : Timestamp)
    (m : gmap ResourceId (list (TransactionId * Timestamp))) :=
  <[r := default [] (m !! r) ++ [(txn, start_ts)]]> m.

Definition register_txn_reads (txn : TransactionId) (start_ts : Timestamp) (read_set : WriteSet)
    (m : gmap ResourceId (list (TransactionId * Timestamp))) :=
  fold_left (fun acc r => register_read txn r start_ts acc) (Ws.ssi_resources read_set) m.

Definition readers (r : ResourceId) (m : gmap ResourceId (list (TransactionId * Timestamp)))
  : list (TransactionId * Timestamp) := default [] (m !! r).

Definition unregister_reads (txn : TransactionId)
    (m : gmap ResourceId (list (TransactionId * Timestamp))) :=
  ConflictIndex.retain (fun e => bool_decide (e.1 <> txn)) m.

Definition prune (oldest : Timestamp)
    (m : gmap ResourceId (list (TransactionId * Timestamp))) :=
  ConflictIndex.retain (fun e => bool_decide (e.2 > oldest)) m.

End SsiTracker.

Module Cert.

Definition new : Certifier := mkCert ∅ ∅ ∅ ∅ ∅ ∅ 1.

Definition set_read_locks (m : gmap ResourceId (list (TransactionId * Timestamp)))
    (c : Certifier) : Certifier :=
  mkCert (committed_write_sets c) (vertex_writes c) (edge_writes c) (schema_writes c)
    (index_writes c) m (prune_countdown c).

Definition unregister_reads (txn : TransactionId) (c : Certifier) : Certifier :=
  set_read_locks (SsiTracker.unregister_reads txn (read_locks c)) c.

(** Committed write sets newer than a start timestamp:
    [committed.range((Excluded(start), Unbounded))]. *)
Definition committed_after (start : Timestamp) (c : Certifier) : list WriteSet :=
  mjoin ((base.filter (fun e => e.1 > start) (sorted_entries (committed_write_sets c))).*2).

Definition index_write_set (txn : TransactionId) (ts : Timestamp) (ws : WriteSet)
    (c : Certifier) : Certifier :=
  mkCert (committed_write_sets c)
    (fold_left (fun m v => ConflictIndex.add v ts txn m) (elements (vertices ws)) (vertex_writes c))
    (fold_left (fun m e => ConflictIndex.add e ts txn m) (elements (edges ws)) (edge_writes c))
    (fold_left (fun m r => ConflictIndex.add r ts txn m) (elements (schema_resources ws))
       (schema_writes c))
    (fold_left (fun m r => ConflictIndex.add r ts txn m) (elements (index_resources ws))
       (index_writes c))
    (read_locks c) (prune_countdown c).

(** [committed.entry(ts).or_default().push(ws)]. *)
Definition push_committed (ts : Timestamp) (ws : WriteSet) (c : Certifier) : Certifier :=
  mkCert (<[ts := default [] (committed_write_sets c !! ts) ++ [ws]]> (committed_write_sets c))
    (vertex_writes c) (edge_writes c) (schema_writes c) (index_writes c) (read_locks c)
    (prune_countdown c).

Definition force_publish (txn : TransactionId) (commit_ts : Timestamp) (ws : WriteSet)
    (c : Certifier) : Certifier :=
  if Ws.is_empty ws then unregister_reads txn c
  else if bool_decide (ws ∈ default [] (committed_write_sets c !! commit_ts))
  then unregister_reads txn c
  else unregister_reads txn (index_write_set txn commit_ts ws (push_committed commit_ts ws c)).

Definition prune (oldest : Timestamp) (c : Certifier) : Certifier :=
  let previous := prune_countdown c in
  let next := if decide (previous <= 1) then PRUNE_INTERVAL else previous - 1 in
  let c1 := mkCert (committed_write_sets c) (vertex_writes c) (edge_writes c) (schema_writes c)
              (index_writes c) (read_locks c) next in
  if decide (previous > 1) then c1
  else
    mkCert (base.filter (fun e => e.1 > oldest) (committed_write_sets c1))
      (ConflictIndex.prune oldest (vertex_writes c1)) (ConflictIndex.prune oldest (edge_writes c1))
      (ConflictIndex.prune oldest (schema_writes c1)) (ConflictIndex.prune oldest (index_writes c1))
      (SsiTracker.prune oldest (read_locks c1)) next.

End Cert.

(** ** Certification against active and committed transactions *)

Record CertEnv (Ctx : Type) := mkEnv {
  ce_cert : Certifier;
  ce_active : gmap Z Ctx;
  ce_stats : TransactionStats;
}.
Arguments mkEnv {Ctx}.
Arguments ce_cert {Ctx}.
Arguments ce_active {Ctx}.
Arguments ce_stats {Ctx}.

Module Certify.
Section certify.
Context {Ctx : Type} `{CertContext Ctx}.
Context (now : Z).

Definition with_cert (f : Certifier -> Certifier) (e : CertEnv Ctx) : CertEnv Ctx :=
  mkEnv (f (ce_cert e)) (ce_active e) (ce_stats e).

(** Count the conflict and return it. *)
Definition conflict {A} (kind : ConflictType) : ST (CertEnv Ctx) TransactionError A :=
  fun e => (mkEnv (ce_cert e) (ce_active e)
              (Stats.record_txn_conflict_with_type now kind (ce_stats e)),
            Err (SerializationFailed kind)).

(** [if b { record; return Err } ]. *)
Definition reject_if (b : bool) (kind : ConflictType) : ST (CertEnv Ctx) TransactionError unit :=
  if b then conflict kind else st_ret tt.

Definition serializable (c : Ctx) : bool := bool_decide (cc_isolation_level c = Serializable).

Definition skip_other (txn : TransactionId) (other : TransactionId * Ctx) : bool :=
  bool_decide (other.1 = txn) || cc_read_only other.2 || negb (cc_write_validated other.2).

Fixpoint scan_list (txn : TransactionId) (ws rs : WriteSet) (ser : bool)
    (l : list (TransactionId * Ctx)) : ST (CertEnv Ctx) TransactionError unit :=
  match l with
  | [] => st_ret tt
  | other :: rest =>
      if skip_other txn other then scan_list txn ws rs ser rest
      else
        do! reject_if (Ws.has_conflict_with ws (cc_write_set other.2)) WriteWrite in
        do! reject_if (ser && Ws.has_conflict_with rs (cc_write_set other.2)) ReadWrite in
        scan_list txn ws rs ser rest
  end.

Definition scan_active_transactions (txn : TransactionId) (ctx : Ctx) (ser : bool)
    (read_set : WriteSet) : ST (CertEnv Ctx) TransactionError unit :=
  let! e := st_get in
  scan_list txn (cc_write_set ctx) read_set ser (map_to_list (ce_active e)).

Definition probe {V} `{Countable V} (start : Timestamp) (kind : ConflictType)
    (m : gmap V (list (Timestamp * TransactionId))) (rs : gset V)
  : ST (CertEnv Ctx) TransactionError unit :=
  reject_if (existsb (fun r => ConflictIndex.conflicts_after r start m) (elements rs)) kind.

Definition probe_committed_writes (start : Timestamp) (ws : WriteSet)
  : ST (CertEnv Ctx) TransactionError unit :=
  let! e := st_get in
  do! probe start WriteWrite (vertex_writes (ce_cert e)) (vertices ws) in
  do! probe start WriteWrite (edge_writes (ce_cert e)) (edges ws) in
  do! probe start SchemaGeneration (schema_writes (ce_cert e)) (schema_resources ws) in
  probe start IndexGeneration (index_writes (ce_cert e)) (index_resources ws).

Definition probe_committed_reads (start : Timestamp) (rs : WriteSet)
  : ST (CertEnv Ctx) TransactionError unit :=
  let! e := st_get in
  do! probe start ReadWrite (vertex_writes (ce_cert e)) (vertices rs) in
  do! probe start ReadWrite (edge_writes (ce_cert e)) (edges rs) in
  do! probe start SchemaGeneration (schema_writes (ce_cert e)) (schema_resources rs) in
  probe start IndexGeneration (index_writes (ce_cert e)) (index_resources rs).

Definition check_range_phantoms_and_full_scan (ctx : Ctx) (rs : WriteSet)
  : ST (CertEnv Ctx) TransactionError unit :=
  let! e := st_get in
  let newer := Cert.committed_after (cc_start_timestamp ctx) (ce_cert e) in
  do! (if decide (read_ranges rs = []) then st_ret tt
       else reject_if (existsb (Ws.has_read_range_conflict_with rs) newer) Phantom) in
  match cc_full_scan_threshold ctx with
  | None => st_ret tt
  | Some threshold =>
      let read_size := Ws.size rs + Z.of_nat (length (read_ranges rs)) in
      if decide (read_size >= threshold)
      then reject_if (existsb (Ws.has_read_conflict_with rs) newer) Phantom
      else st_ret tt
  end.

(** One reader of a resource the committer writes completes a dangerous
    structure. *)
Definition dangerous_reader (txn : TransactionId) (ctx : Ctx) (active : gmap Z Ctx)
    (reader : TransactionId * Timestamp) : bool :=
  if decide (reader.1 = txn) then false
  else if decide (reader.2 >= cc_start_timestamp ctx) then false
  else match active !! reader.1 with
       | Some rctx =>
           negb (cc_read_only rctx) && cc_write_validated rctx &&
           existsb (fun r => bool_decide (r ∈ Ws.ssi_resources (cc_write_set rctx)))
             (elements (cc_ssi_read_resources ctx))
       | None => false
       end.

Definition detect_dangerous_structures (txn : TransactionId) (ctx : Ctx) (ws : WriteSet)
  : ST (CertEnv Ctx) TransactionError unit :=
  let! e := st_get in
  reject_if
    (existsb (fun r => existsb (dangerous_reader txn ctx (ce_active e))
                         (SsiTracker.readers r (read_locks (ce_cert e))))
       (Ws.ssi_resources ws)) ReadWrite.

(** [ctx.mark_write_validated()]: contexts are shared, so the entry of the
    active table changes. *)
Definition mark_validated_in (txn : TransactionId) (e : CertEnv Ctx) : CertEnv Ctx :=
  mkEnv (ce_cert e) (alter cc_mark_write_validated txn (ce_active e)) (ce_stats e).

Definition check_write_set_conflict (txn : TransactionId)
  : ST (CertEnv Ctx) TransactionError unit :=
  let! e := st_get in
  match ce_active e !! txn with
  | None => st_err (TransactionNotFound txn)
  | Some ctx =>
      let ws := cc_write_set ctx in
      let rs := cc_read_set ctx in
      let ser := serializable ctx in
      if cc_read_only ctx && (negb ser || Ws.is_empty rs) then st_ret tt
      else if decide (cc_concurrency_mode ctx = SingleWriter)
      then st_modify (mark_validated_in txn)
      else if (Ws.is_empty ws && (negb ser || Ws.is_empty rs)) && negb (cc_read_only ctx)
      then st_ret tt
      else
        do! (if ser
             then st_modify (with_cert (fun c =>
                    Cert.set_read_locks (SsiTracker.register_txn_reads txn
                      (cc_start_timestamp ctx) rs (read_locks c)) c))
             else st_ret tt) in
        do! scan_active_transactions txn ctx ser rs in
        do! probe_committed_writes (cc_start_timestamp ctx) ws in
        do! (if ser then
               do! probe_committed_reads (cc_start_timestamp ctx) rs in
               do! check_range_phantoms_and_full_scan ctx rs in
               detect_dangerous_structures txn ctx ws
             else st_ret tt) in
        st_modify (mark_validated_in txn)
  end.

(** The final review of [publish] over the active table. *)
Fixpoint review_list (txn : TransactionId) (ws : WriteSet) (l : list (TransactionId * Ctx))
  : ST (CertEnv Ctx) TransactionError unit :=
  match l with
  | [] => st_ret tt
  | other :: rest =>
      if skip_other txn other then review_list txn ws rest
      else
        do! reject_if (Ws.has_conflict_with ws (cc_write_set other.2)) WriteWrite in
        review_list txn ws rest
  end.

Definition publish (txn : TransactionId) (write_ts start_ts : Timestamp) (ws : WriteSet)
  : ST (CertEnv Ctx) TransactionError unit :=
  if Ws.is_empty ws then st_modify (with_cert (Cert.unregister_reads txn))
  else
    let! e := st_get in
    do! review_list txn ws (map_to_list (ce_active e)) in
    do! reject_if (existsb (Ws.has_conflict_with ws) (Cert.committed_after start_ts (ce_cert e)))
          WriteWrite in
    st_modify (with_cert (fun c =>
      Cert.unregister_reads txn
        (Cert.index_write_set txn write_ts ws (Cert.push_committed write_ts ws c)))).

End certify.
End Certify.

(** ** The indices against the history of publications *)

Record Publication := mkPub {
  p_commit : Timestamp;
  p_start : Timestamp;
  p_txn : TransactionId;
  p_ws : WriteSet;
}.

Module CertFacts.
Import Cert Certify.

(** An index holds, above the pruning floor, exactly what was published. *)
Definition index_ok {V} `{Countable V} (get : WriteSet -> gset V)
    (m : gmap V (list (Timestamp * TransactionId))) (hist : list Publication) (floor : Z) : Prop :=
  forall r ts txn, floor < ts ->
    (ts, txn) ∈ ConflictIndex.entries r m <->
    exists p, p ∈ hist /\ p_commit p = ts /\ p_txn p = txn /\ r ∈ get (p_ws p).

Record cert_inv (c : Certifier) (hist : list Publication) (floor : Z) : Prop := {
  ci_committed : forall ts ws, floor < ts ->
    ws ∈ default [] (committed_write_sets c !! ts) <->
    exists p, p ∈ hist /\ p_commit p = ts /\ p_ws p = ws;
  ci_vertices : index_ok vertices (vertex_writes c) hist floor;
  ci_edges : index_ok edges (edge_writes c) hist floor;
  ci_schema : index_ok schema_resources (schema_writes c) hist floor;
  ci_index : index_ok index_resources (index_writes c) hist floor;
}.

Lemma cert_inv_new : cert_inv Cert.new [] 0.
Proof.
  assert (Hi : forall V `{Countable V} (get : WriteSet -> gset V), index_ok get ∅ [] 0).
  { intros V ? ? get r ts txn _. unfold ConflictIndex.entries. rewrite lookup_empty. simpl.
    split; [intros Hx|intros (p & Hx & _)]; by apply elem_of_nil in Hx. }
  split; simpl; try apply Hi. intros ts ws _. rewrite lookup_empty. simpl.
  split; [intros Hx|intros (p & Hx & _)]; by apply elem_of_nil in Hx.
Qed.

Lemma committed_after_spec start ws c :
  ws ∈ committed_after start c <->
  exists ts, start < ts /\ ws ∈ default [] (committed_write_sets c !! ts).
Proof.
  unfold committed_after. rewrite list_elem_of_join. split.
  - intros (l & Hl & Hin). apply list_elem_of_fmap in Hin as ([ts l'] & -> & Hin).
    apply list_elem_of_filter in Hin as [Hts Hin]. apply elem_of_sorted_entries in Hin.
    exists ts. rewrite Hin. simpl in *. split; [lia|done].
  - intros (ts & Hts & Hin). destruct (committed_write_sets c !! ts) as [l|] eqn:E;
      [|by apply elem_of_nil in Hin].
    exists l. split; [done|]. apply list_elem_of_fmap. exists (ts, l). split; [done|].
    apply list_elem_of_filter. split; [simpl; lia|]. by apply elem_of_sorted_entries.
Qed.

Lemma committed_after_hist start c hist floor ws :
  cert_inv c hist floor -> floor <= start ->
  ws ∈ committed_after start c <-> exists p, p ∈ hist /\ start < p_commit p /\ p_ws p = ws.
Proof.
  intros [Hc _ _ _ _] Hf. rewrite committed_after_spec. split.
  - intros (ts & Hts & Hin). apply Hc in Hin as (p & ? & ? & ?); [|lia].
    exists p. subst. auto.
  - intros (p & Hp & Hs & Hw). exists (p_commit p). split; [done|]. apply Hc; [lia|]. eauto.
Qed.

Lemma conflicts_after_hist {V} `{Countable V} (get : WriteSet -> gset V) m hist floor r start :
  index_ok get m hist floor -> floor <= start ->
  ConflictIndex.conflicts_after r start m = true <->
  exists p, p ∈ hist /\ start < p_commit p /\ r ∈ get (p_ws p).
Proof.
  intros Hi Hf. rewrite ConflictIndex.conflicts_after_spec. split.
  - intros ([ts txn] & Hin & Hs). simpl in Hs. apply Hi in Hin as (p & ? & ? & ? & ?); [|lia].
    exists p. subst. auto.
  - intros (p & Hp & Hs & Hr). exists (p_commit p, p_txn p). split; [|done].
    apply Hi; [lia|]. eauto.
Qed.

(** Indexing one resource after another. *)
Lemma entries_add_all {V} `{Countable V} (l : list V) ts txn m r e :
  e ∈ ConflictIndex.entries r
        (fold_left (fun m v => ConflictIndex.add v ts txn m) l m) <->
  e ∈ ConflictIndex.entries r m \/ (r ∈ l /\ e = (ts, txn)).
Proof.
  revert m. induction l as [|x l IH]; intros m; simpl.
  - split; [by left|]. intros [?|[Hn _]]; [done|]. by apply elem_of_nil in Hn.
  - rewrite IH, ConflictIndex.entries_add, elem_of_cons. tauto.
Qed.

Lemma index_ok_add {V} `{Countable V} (get : WriteSet -> gset V) m hist floor p :
  index_ok get m hist floor ->
  index_ok get (fold_left (fun m v => ConflictIndex.add v (p_commit p) (p_txn p) m)
                  (elements (get (p_ws p))) m) (hist ++ [p]) floor.
Proof.
  intros Hi r ts txn Hts. rewrite entries_add_all, (Hi r ts txn Hts), elem_of_elements.
  setoid_rewrite elem_of_app. setoid_rewrite list_elem_of_singleton. split.
  - intros [(q & ? & ? & ? & ?)|(Hr & [= -> ->])]; [exists q; auto|exists p; auto 6].
  - intros (q & [Hq| ->] & <- & <- & Hr); [left; eauto|right; auto].
Qed.

(** Publishing records the publication and nothing else. *)
Lemma cert_inv_publish c hist floor p txn :
  cert_inv c hist floor -> txn = p_txn p ->
  cert_inv (Cert.unregister_reads txn (Cert.index_write_set (p_txn p) (p_commit p) (p_ws p)
    (Cert.push_committed (p_commit p) (p_ws p) c))) (hist ++ [p]) floor.
Proof.
  intros [Hc Hv He Hs Hx] _. split; simpl; try by apply index_ok_add.
  intros ts ws Hts. setoid_rewrite elem_of_app. setoid_rewrite list_elem_of_singleton.
  destruct (decide (ts = p_commit p)) as [->|Hne].
  - rewrite lookup_insert_eq. simpl. rewrite elem_of_app, list_elem_of_singleton, (Hc _ _ Hts).
    split; [intros [(q & ? & ? & ?)| ->]|intros (q & [Hq| ->] & ? & <-)]; eauto 8.
  - rewrite lookup_insert_ne by done. rewrite (Hc _ _ Hts).
    split; [intros (q & ? & ? & ?)|intros (q & [Hq| ->] & ? & ?)]; eauto 8; congruence.
Qed.

(** A higher floor only forgets. *)
Lemma cert_inv_floor c hist floor floor' :
  floor <= floor' -> cert_inv c hist floor -> cert_inv c hist floor'.
Proof.
  intros Hle [Hc Hv He Hs Hx].
  split; [intros; apply Hc; lia|..]; intros r ts txn Hts; [apply Hv|apply He|apply Hs|apply Hx]; lia.
Qed.

Lemma index_ok_prune {V} `{Countable V} (get : WriteSet -> gset V) m hist floor oldest :
  index_ok get m hist floor -> floor <= oldest ->
  index_ok get (ConflictIndex.prune oldest m) hist oldest.
Proof.
  intros Hi Hle r ts txn Hts. rewrite ConflictIndex.entries_prune, (Hi r ts txn) by lia.
  simpl. tauto.
Qed.

(** Pruning at a timestamp no active transaction is older than. *)
Lemma cert_inv_prune c hist floor oldest :
  cert_inv c hist floor -> floor <= oldest -> cert_inv (Cert.prune oldest c) hist oldest.
Proof.
  intros Hinv Hle. unfold Cert.prune.
  destruct (decide (prune_countdown c > 1)).
  - apply (cert_inv_floor _ _ floor oldest Hle). by destruct Hinv.
  - destruct Hinv as [Hc Hv He Hs Hx]. split; simpl; try by eapply index_ok_prune.
    intros ts ws Hts. rewrite <- Hc by lia. rewrite map_lookup_filter.
    destruct (committed_write_sets c !! ts) as [l|]; simpl; [|done].
    by rewrite option_guard_True by (simpl; lia).
Qed.

Section facts.
Context {Ctx : Type} `{CertContext Ctx}.
Context (now : Z).
Implicit Types e : CertEnv Ctx.

Lemma reject_if_ok b kind e e' :
  reject_if now b kind e = (e', Ok tt) -> b = false /\ e' = e.
Proof. unfold reject_if, conflict, st_ret. destruct b; [discriminate|]. by intros [= <-]. Qed.

(** What an outcome of a certification step may change: on success nothing, on
    failure only the statistics. *)
Definition certified_frame (m : ST (CertEnv Ctx) TransactionError unit) : Prop :=
  forall e e' r, m e = (e', r) ->
    ce_cert e' = ce_cert e /\ ce_active e' = ce_active e /\
    match r with Ok _ => e' = e | Err x => exists k, x = SerializationFailed k end.

Lemma frame_reject b kind : certified_frame (reject_if now b kind).
Proof.
  intros e e' r. unfold reject_if, conflict, st_ret.
  destruct b; intros [= <- <-]; simpl; eauto.
Qed.

Lemma frame_ret : certified_frame (st_ret tt).
Proof. intros e e' r [= <- <-]. auto. Qed.

Lemma frame_bind m k :
  certified_frame m -> (forall u, certified_frame (k u)) -> certified_frame (st_bind m k).
Proof.
  intros Hm Hk e e' r. unfold st_bind. destruct (m e) as [e1 [u|x]] eqn:E.
  - apply Hm in E as (_ & _ & ->). apply Hk.
  - intros [= <- <-]. by apply Hm in E.
Qed.

Lemma frame_get f :
  (forall e, certified_frame (f e)) -> certified_frame (st_bind st_get f).
Proof. intros Hf e e' r. unfold st_bind, st_get. apply Hf. Qed.

Lemma frame_scan txn ws rs ser l : certified_frame (scan_list now txn ws rs ser l).
Proof.
  induction l as [|o l IH]; [apply frame_ret|]. simpl. destruct (skip_other txn o); [done|].
  repeat (apply frame_bind; [apply frame_reject|intros _]). done.
Qed.

Lemma frame_review txn ws l : certified_frame (review_list now txn ws l).
Proof.
  induction l as [|o l IH]; [apply frame_ret|]. simpl. destruct (skip_other txn o); [done|].
  apply frame_bind; [apply frame_reject|intros _]. done.
Qed.

(** Another transaction that certification compares against. *)
Definition rival e (txn : TransactionId) (other : TransactionId) (octx : Ctx) : Prop :=
  ce_active e !! other = Some octx /\ other <> txn /\
  cc_read_only octx = false /\ cc_write_validated octx = true.

Lemma rival_spec e txn other octx :
  rival e txn other octx <->
  (other, octx) ∈ map_to_list (ce_active e) /\ skip_other txn (other, octx) = false.
Proof.
  unfold rival, skip_other. rewrite elem_of_map_to_list. simpl.
  rewrite !orb_false_iff, negb_false_iff, bool_decide_eq_false. tauto.
Qed.

Lemma scan_list_ok txn ws rs ser l e e' :
  scan_list now txn ws rs ser l e = (e', Ok tt) ->
  forall o, o ∈ l -> skip_other txn o = false ->
    Ws.has_conflict_with ws (cc_write_set o.2) = false /\
    (ser = true -> Ws.has_conflict_with rs (cc_write_set o.2) = false).
Proof.
  revert e. induction l as [|x l IH]; intros e Hs o Hin Hsk; [by apply elem_of_nil in Hin|].
  simpl in Hs. destruct (skip_other txn x) eqn:Ex.
  - apply elem_of_cons in Hin as [->|Hin]; [congruence|eauto].
  - unfold st_bind in Hs. destruct (reject_if _ _ WriteWrite e) as [e1 [[]|]] eqn:E1; [|done].
    apply reject_if_ok in E1 as [Hw ->].
    destruct (reject_if _ _ ReadWrite e) as [e2 [[]|]] eqn:E2; [|done].
    apply reject_if_ok in E2 as [Hr ->].
    apply elem_of_cons in Hin as [->|Hin]; [|eauto].
    split; [done|]. intros ->. done.
Qed.

Lemma review_list_iff txn ws l e :
  (review_list now txn ws l e).2 = Ok tt <->
  forall o, o ∈ l -> skip_other txn o = false ->
    Ws.has_conflict_with ws (cc_write_set o.2) = false.
Proof.
  revert e. induction l as [|x l IH]; intros e; simpl.
  { split; [|done]. intros _ o Hin. by apply elem_of_nil in Hin. }
  setoid_rewrite elem_of_cons. destruct (skip_other txn x) eqn:Ex.
  - rewrite IH. split; [intros Hl o [->|Hin] ?; [congruence|auto]|auto].
  - unfold st_bind, reject_if, conflict, st_ret.
    destruct (Ws.has_conflict_with ws (cc_write_set x.2)) eqn:Ec.
    + split; [done|]. intros Hl. rewrite (Hl x) in Ec; [done|by left|done].
    + rewrite IH. split; [intros Hl o [->|Hin] ?; auto|auto].
Qed.

(** Publication is decided by the history, and all or nothing. *)
Lemma publish_cases e hist floor txn write_ts start ws :
  cert_inv (ce_cert e) hist floor -> floor <= start -> Ws.is_empty ws = false ->
  let r := publish now txn write_ts start ws e in
  (r.2 = Ok tt <->
    (forall o octx, rival e txn o octx -> Ws.has_conflict_with ws (cc_write_set octx) = false) /\
    (forall p, p ∈ hist -> start < p_commit p -> Ws.has_conflict_with ws (p_ws p) = false)) /\
  (r.2 = Ok tt -> cert_inv (ce_cert r.1) (hist ++ [mkPub write_ts start txn ws]) floor) /\
  (r.2 <> Ok tt -> ce_cert r.1 = ce_cert e /\ r.2 = Err (SerializationFailed WriteWrite)).
Proof.
  intros Hinv Hf Hne. cbv zeta. unfold publish. rewrite Hne. unfold st_bind, st_get.
  pose proof (review_list_iff txn ws (map_to_list (ce_active e)) e) as Hrev.
  assert (Hnew : existsb (Ws.has_conflict_with ws) (committed_after start (ce_cert e)) = false <->
    forall p, p ∈ hist -> start < p_commit p -> Ws.has_conflict_with ws (p_ws p) = false).
  { rewrite <- not_true_iff_false, existsb_exists. setoid_rewrite <- list_elem_of_In.
    setoid_rewrite (committed_after_hist start _ hist floor); [|done..]. split.
    - intros Hn p Hp Hs. apply not_true_iff_false. intros Ht. apply Hn. eauto 8.
    - intros Ha (w & (p & Hp & Hs & <-) & Ht). rewrite Ha in Ht by done. done. }
  assert (Hriv : (forall o octx, rival e txn o octx ->
      Ws.has_conflict_with ws (cc_write_set octx) = false) <->
    forall o, o ∈ map_to_list (ce_active e) -> skip_other txn o = false ->
      Ws.has_conflict_with ws (cc_write_set o.2) = false).
  { setoid_rewrite rival_spec. split; [intros Ha [o c] ? ?; eauto|intros Ha o c [? ?]].
    by apply (Ha (o, c)). }
  assert (Hkind : forall x, (review_list now txn ws (map_to_list (ce_active e)) e).2 = Err x ->
    x = SerializationFailed WriteWrite).
  { clear. generalize (map_to_list (ce_active e)). intros l. generalize e.
    induction l as [|o l IH]; intros e0 x; [done|].
    simpl. destruct (skip_other txn o); [apply IH|].
    unfold st_bind, reject_if, conflict, st_ret.
    destruct (Ws.has_conflict_with _ _); [by intros [= <-]|apply IH]. }
  pose proof (frame_review txn ws (map_to_list (ce_active e)) e) as Hfr.
  destruct (review_list now txn ws _ e) as [e1 [[]|x]] eqn:E; simpl in *.
  - destruct (Hfr _ _ eq_refl) as (_ & _ & ->).
    unfold reject_if, conflict, st_ret, st_modify.
    destruct (existsb _ _) eqn:Ex; simpl.
    + split; [|split; [intros Hx; discriminate Hx|done]]. split; [intros Hx; discriminate Hx|].
      intros [_ Hh]. apply Hnew in Hh. discriminate Hh.
    + rewrite Hriv, <- Hnew, <- Hrev. split; [done|]. split; [|done]. intros _.
      by apply (cert_inv_publish _ hist floor (mkPub write_ts start txn ws)).
  - destruct (Hfr _ _ eq_refl) as (Hc & _ & _).
    rewrite Hriv, <- Hrev. split; [split; [done|intros [? _]; done]|]. split; [done|].
    intros _. split; [done|]. by rewrite (Hkind x eq_refl).
Qed.

(** ** What a successful pre-check has established *)

(** A common vertex, edge, schema or index resource. *)
Definition items_overlap (a b : WriteSet) : Prop :=
  (exists v, v ∈ vertices a /\ v ∈ vertices b) \/ (exists x, x ∈ edges a /\ x ∈ edges b) \/
  (exists r, r ∈ schema_resources a /\ r ∈ schema_resources b) \/
  (exists r, r ∈ index_resources a /\ r ∈ index_resources b).

Lemma probe_ok {V} `{Countable V} (get : WriteSet -> gset V) m hist floor start kind rs e e' :
  index_ok get m hist floor -> floor <= start ->
  probe now start kind m rs e = (e', Ok tt) ->
  e' = e /\ forall p r, p ∈ hist -> start < p_commit p -> r ∈ rs -> r ∉ get (p_ws p).
Proof.
  intros Hi Hf Hp. unfold probe in Hp. apply reject_if_ok in Hp as [Hx ->]. split; [done|].
  intros p r Hin Hs Hr Hg. apply not_true_iff_false in Hx. apply Hx, existsb_exists.
  exists r. rewrite <- list_elem_of_In, elem_of_elements. split; [done|].
  apply (conflicts_after_hist get m hist floor); eauto.
Qed.

Lemma probes_ok k1 k2 k3 k4 start rs hist floor e e' :
  cert_inv (ce_cert e) hist floor -> floor <= start ->
  (do! probe now start k1 (vertex_writes (ce_cert e)) (vertices rs) in
   do! probe now start k2 (edge_writes (ce_cert e)) (edges rs) in
   do! probe now start k3 (schema_writes (ce_cert e)) (schema_resources rs) in
   probe now start k4 (index_writes (ce_cert e)) (index_resources rs)) e = (e', Ok tt) ->
  e' = e /\ forall p, p ∈ hist -> start < p_commit p -> ~ items_overlap rs (p_ws p).
Proof.
  intros [_ Hv He Hs Hx] Hf Hb.
  apply st_bind_ok in Hb as (e1 & [] & H1 & Hb).
  eapply (probe_ok vertices) in H1 as [-> H1]; [|done..].
  apply st_bind_ok in Hb as (e2 & [] & H2 & Hb).
  eapply (probe_ok edges) in H2 as [-> H2]; [|done..].
  apply st_bind_ok in Hb as (e3 & [] & H3 & H4).
  eapply (probe_ok schema_resources) in H3 as [-> H3]; [|done..].
  eapply (probe_ok index_resources) in H4 as [-> H4]; [|done..].
  split; [done|]. intros p Hp Hc Ho.
  destruct Ho as [(x & ? & ?)|[(x & ? & ?)|[(x & ? & ?)|(x & ? & ?)]]];
    [eapply H1|eapply H2|eapply H3|eapply H4]; eauto.
Qed.

(** The verdict of a full certification pass. *)
Record certified e (hist : list Publication) (txn : TransactionId) (ctx : Ctx) : Prop := {
  cf_active : forall o octx, rival e txn o octx ->
    Ws.has_conflict_with (cc_write_set ctx) (cc_write_set octx) = false;
  cf_active_reads : forall o octx, rival e txn o octx -> serializable ctx = true ->
    Ws.has_conflict_with (cc_read_set ctx) (cc_write_set octx) = false;
  cf_writes : forall p, p ∈ hist -> cc_start_timestamp ctx < p_commit p ->
    ~ items_overlap (cc_write_set ctx) (p_ws p);
  cf_reads : forall p, p ∈ hist -> cc_start_timestamp ctx < p_commit p ->
    serializable ctx = true -> ~ items_overlap (cc_read_set ctx) (p_ws p);
  cf_ranges : forall p, p ∈ hist -> cc_start_timestamp ctx < p_commit p ->
    serializable ctx = true ->
    Ws.has_read_range_conflict_with (cc_read_set ctx) (p_ws p) = false;
}.

Definition bypasses (ctx : Ctx) : Prop :=
  (cc_read_only ctx = true /\
     (serializable ctx = false \/ Ws.is_empty (cc_read_set ctx) = true)) \/
  (cc_read_only ctx = false /\ Ws.is_empty (cc_write_set ctx) = true /\
     (serializable ctx = false \/ Ws.is_empty (cc_read_set ctx) = true)).

Lemma range_check_ok ctx rs hist floor e e' :
  cert_inv (ce_cert e) hist floor -> floor <= cc_start_timestamp ctx ->
  check_range_phantoms_and_full_scan now ctx rs e = (e', Ok tt) ->
  e' = e /\ forall p, p ∈ hist -> cc_start_timestamp ctx < p_commit p ->
    Ws.has_read_range_conflict_with rs (p_ws p) = false.
Proof.
  intros Hinv Hf Hc. unfold check_range_phantoms_and_full_scan, st_bind at 1, st_get in Hc.
  apply st_bind_ok in Hc as (e1 & [] & H1 & H2).
  assert (He1 : e1 = e /\ forall p, p ∈ hist -> cc_start_timestamp ctx < p_commit p ->
    Ws.has_read_range_conflict_with rs (p_ws p) = false).
  { destruct (decide (read_ranges rs = [])) as [En|En].
    - injection H1 as <-. split; [done|]. intros p _ _.
      unfold Ws.has_read_range_conflict_with. by rewrite En.
    - apply reject_if_ok in H1 as [Hx ->]. split; [done|]. intros p Hp Hs.
      apply not_true_iff_false. intros Ht. apply not_true_iff_false in Hx.
      apply Hx, existsb_exists. exists (p_ws p). rewrite <- list_elem_of_In.
      split; [|done]. apply (committed_after_hist _ _ hist floor); eauto. }
  destruct He1 as [-> He1]. split; [|done].
  destruct (cc_full_scan_threshold ctx) as [t|]; [|by injection H2 as <-].
  destruct (decide _); [by apply reject_if_ok in H2 as [_ ->]|by injection H2 as <-].
Qed.

Lemma frame_probe {V} `{Countable V} start kind (m : gmap V (list (Timestamp * TransactionId))) rs :
  certified_frame (probe now start kind m rs).
Proof. apply frame_reject. Qed.

Lemma frame_probes k1 k2 k3 k4 start rs :
  certified_frame (let! e := st_get in
    do! probe now start k1 (vertex_writes (ce_cert e)) (vertices rs) in
    do! probe now start k2 (edge_writes (ce_cert e)) (edges rs) in
    do! probe now start k3 (schema_writes (ce_cert e)) (schema_resources rs) in
    probe now start k4 (index_writes (ce_cert e)) (index_resources rs)).
Proof.
  apply frame_get. intros e.
  repeat (apply frame_bind; [apply frame_probe|intros _]). apply frame_probe.
Qed.

Lemma frame_scan_active txn ctx ser rs :
  certified_frame (scan_active_transactions now txn ctx ser rs).
Proof. apply frame_get. intros e. apply frame_scan. Qed.

(** The serializable part of the pass. *)
Lemma frame_serializable txn ctx :
  certified_frame
    (if serializable ctx then
       do! probe_committed_reads now (cc_start_timestamp ctx) (cc_read_set ctx) in
       do! check_range_phantoms_and_full_scan now ctx (cc_read_set ctx) in
       detect_dangerous_structures now txn ctx (cc_write_set ctx)
     else st_ret tt).
Proof.
  destruct (serializable ctx); [|apply frame_ret].
  apply frame_bind; [apply frame_probes|intros _].
  apply frame_bind; [|intros _; apply frame_get; intros e; apply frame_reject].
  apply frame_get. intros e. apply frame_bind.
  - case_decide; [apply frame_ret|apply frame_reject].
  - intros _. destruct (cc_full_scan_threshold ctx); [|apply frame_ret].
    cbv zeta. case_decide; [apply frame_reject|apply frame_ret].
Qed.

(** Every success of the pre-check is one of its three bypasses or a full
    pass, after which the transaction is marked; the pass certifies it against
    the history when nothing above its start has been dropped. *)
Lemma check_ok_cases e e' hist floor txn :
  cert_inv (ce_cert e) hist floor ->
  check_write_set_conflict now txn e = (e', Ok tt) ->
  exists ctx, ce_active e !! txn = Some ctx /\
    ((bypasses ctx /\ e' = e) \/
     (cc_concurrency_mode ctx = SingleWriter /\ e' = mark_validated_in txn e) \/
     (cc_concurrency_mode ctx <> SingleWriter /\
      (floor <= cc_start_timestamp ctx -> certified e hist txn ctx) /\
      exists locks, e' = mark_validated_in txn
        (mkEnv (Cert.set_read_locks locks (ce_cert e)) (ce_active e) (ce_stats e)))).
Proof.
  intros Hinv Hc. unfold check_write_set_conflict, st_bind at 1, st_get in Hc.
  destruct (ce_active e !! txn) as [ctx|] eqn:Ea; [|discriminate]. exists ctx. split; [done|].
  destruct (cc_read_only ctx && _) eqn:Hro.
  { injection Hc as <-. left. split; [|done]. left.
    apply andb_true_iff in Hro as [-> [Hs|Hs]%orb_true_iff]; [apply negb_true_iff in Hs|]; auto. }
  destruct (decide (cc_concurrency_mode ctx = SingleWriter)) as [Hsw|Hsw].
  { injection Hc as <-. auto. }
  destruct ((Ws.is_empty (cc_write_set ctx) && _) && negb (cc_read_only ctx)) eqn:Hem.
  { injection Hc as <-. left. split; [|done]. right.
    apply andb_true_iff in Hem as [[Hw [Hs|Hs]%orb_true_iff]%andb_true_iff Hn%negb_true_iff];
      [apply negb_true_iff in Hs|]; auto. }
  right; right. split; [done|].
  apply st_bind_ok in Hc as (e1 & [] & H1 & Hc).
  assert (He1 : exists locks, e1 = mkEnv (Cert.set_read_locks locks (ce_cert e)) (ce_active e) (ce_stats e)).
  { destruct (serializable ctx); injection H1 as <-; [by eexists|].
    exists (read_locks (ce_cert e)). by destruct e as [[] ? ?]. }
  destruct He1 as [locks He1].
  assert (Hinv1 : cert_inv (ce_cert e1) hist floor).
  { rewrite He1. destruct Hinv as [? ? ? ? ?]. by split. }
  assert (Hact1 : ce_active e1 = ce_active e) by by rewrite He1.
  clear H1. apply st_bind_ok in Hc as (e2 & [] & H2 & Hc).
  pose proof (frame_get _ (fun e0 => frame_scan txn (cc_write_set ctx) (cc_read_set ctx)
    (serializable ctx) (map_to_list (ce_active e0))) _ _ _ H2) as (_ & _ & ->).
  unfold scan_active_transactions, st_bind, st_get in H2.
  pose proof (scan_list_ok _ _ _ _ _ _ _ H2) as Hscan. clear H2.
  apply st_bind_ok in Hc as (e3 & [] & H3 & Hc).
  pose proof (frame_probes _ _ _ _ _ _ _ _ _ H3) as (_ & _ & ->).
  apply st_bind_ok in Hc as (e4 & [] & H4 & Hc). injection Hc as <-.
  pose proof (frame_serializable _ _ _ _ _ H4) as (_ & _ & ->).
  assert (Hriv : forall o octx, rival e txn o octx ->
    Ws.has_conflict_with (cc_write_set ctx) (cc_write_set octx) = false /\
    (serializable ctx = true -> Ws.has_conflict_with (cc_read_set ctx) (cc_write_set octx) = false)).
  { intros o octx [Hin Hsk]%rival_spec. apply (Hscan (o, octx)); [by rewrite Hact1|done]. }
  split; [|exists locks; by rewrite He1]. intros Hf.
  apply probes_ok with (hist := hist) (floor := floor) in H3 as [_ Hw]; [|done..].
  assert (Hser : serializable ctx = true ->
    forall p, p ∈ hist -> cc_start_timestamp ctx < p_commit p ->
      ~ items_overlap (cc_read_set ctx) (p_ws p) /\
      Ws.has_read_range_conflict_with (cc_read_set ctx) (p_ws p) = false).
  { intros Hs. rewrite Hs in H4.
    apply st_bind_ok in H4 as (e5 & [] & H5 & H4).
    apply probes_ok with (hist := hist) (floor := floor) in H5 as [-> Hr]; [|done..].
    apply st_bind_ok in H4 as (e6 & [] & H6 & _).
    apply range_check_ok with (hist := hist) (floor := floor) in H6 as [_ Hg]; [|done..].
    intros p Hp Hc. split; auto. }
  split; try (intros; by eapply Hriv); try done; intros; by eapply Hser.
Qed.

(** A rejected pre-check leaves the active table and the committed indices
    alone. *)
Lemma check_err_frame e e' txn x :
  check_write_set_conflict now txn e = (e', Err x) ->
  ce_active e' = ce_active e /\
  exists locks, ce_cert e' = Cert.set_read_locks locks (ce_cert e).
Proof.
  assert (Hsame : ce_cert e = Cert.set_read_locks (read_locks (ce_cert e)) (ce_cert e)).
  { by destruct (ce_cert e). }
  intros Hc. unfold check_write_set_conflict, st_bind at 1, st_get in Hc.
  destruct (ce_active e !! txn) as [ctx|]; [|injection Hc as <- <-; eauto].
  destruct (cc_read_only ctx && _); [discriminate|].
  destruct (decide (cc_concurrency_mode ctx = SingleWriter)); [discriminate|].
  destruct ((Ws.is_empty (cc_write_set ctx) && _) && negb (cc_read_only ctx)); [discriminate|].
  apply st_bind_err in Hc as [Hc|(e1 & [] & E1 & Hc)]; [destruct (serializable ctx); discriminate|].
  assert (He1 : ce_active e1 = ce_active e /\
    exists locks, ce_cert e1 = Cert.set_read_locks locks (ce_cert e)).
  { destruct (serializable ctx); injection E1 as <-; simpl; eauto. }
  assert (Hdone : forall m, certified_frame m -> forall e2 y, m e1 = (e2, Err y) ->
    ce_active e2 = ce_active e /\ exists locks, ce_cert e2 = Cert.set_read_locks locks (ce_cert e)).
  { intros m Hm e2 y Hy. apply Hm in Hy as (-> & -> & _). done. }
  apply st_bind_err in Hc as [Hc|(e2 & [] & E2 & Hc)];
    [eapply Hdone; [apply frame_scan_active|exact Hc]|].
  apply frame_scan_active in E2 as (_ & _ & ->).
  apply st_bind_err in Hc as [Hc|(e3 & [] & E3 & Hc)];
    [eapply Hdone; [apply frame_probes|exact Hc]|].
  apply frame_probes in E3 as (_ & _ & ->).
  apply st_bind_err in Hc as [Hc|(e4 & [] & E4 & Hc)];
    [eapply Hdone; [apply frame_serializable|exact Hc]|discriminate].
Qed.

Lemma publish_active txn write_ts start ws e :
  ce_active (publish now txn write_ts start ws e).1 = ce_active e.
Proof.
  unfold publish. destruct (Ws.is_empty ws); [done|]. unfold st_bind, st_get.
  pose proof (frame_review txn ws (map_to_list (ce_active e)) e) as Hfr.
  destruct (review_list _ _ _ _ e) as [e1 [[]|]]; destruct (Hfr _ _ eq_refl) as (_ & Ha & Hb);
    [|done]. subst e1. unfold reject_if, conflict, st_ret, st_modify. by destruct (existsb _ _).
Qed.

(** Publication extends the history by itself or leaves the certifier alone,
    whatever has been dropped. *)
Lemma publish_keeps txn write_ts start ws e hist floor :
  cert_inv (ce_cert e) hist floor -> Ws.is_empty ws = false ->
  let r := publish now txn write_ts start ws e in
  (r.2 = Ok tt -> cert_inv (ce_cert r.1) (hist ++ [mkPub write_ts start txn ws]) floor) /\
  (r.2 <> Ok tt -> ce_cert r.1 = ce_cert e).
Proof.
  intros Hinv Hne. cbv zeta. unfold publish. rewrite Hne. unfold st_bind, st_get.
  pose proof (frame_review txn ws (map_to_list (ce_active e)) e) as Hfr.
  destruct (review_list now txn ws _ e) as [e1 [[]|x]]; destruct (Hfr _ _ eq_refl) as (Hc & _ & Hs);
    [|done]. subst e1. unfold reject_if, conflict, st_ret, st_modify.
  destruct (existsb _ _); simpl; [done|]. split; [|done]. intros _.
  by apply (cert_inv_publish _ hist floor (mkPub write_ts start txn ws)).
Qed.

(** A forced publication enters the history unless it is there already. *)
Lemma cert_inv_force c hist floor p :
  cert_inv c hist floor -> Ws.is_empty (p_ws p) = false ->
  cert_inv (Cert.force_publish (p_txn p) (p_commit p) (p_ws p) c)
    (if bool_decide (p_ws p ∈ default [] (committed_write_sets c !! p_commit p)) then hist
     else hist ++ [p]) floor.
Proof.
  intros Hinv Hne. unfold Cert.force_publish. rewrite Hne.
  case_bool_decide; [|by apply cert_inv_publish]. destruct Hinv. by split.
Qed.

(** The greatest commit timestamp, at most [oldest], of a publication. *)
Definition newest_upto (oldest : Z) (hist : list Publication) : Z :=
  foldr (fun p a => if decide (p_commit p <= oldest) then Z.max (p_commit p) a else a) 0 hist.

(** What a pruning pass at [oldest] may drop reaches up to here. *)
Definition floor_after (oldest : Z) (c : Certifier) (hist : list Publication) (floor : Z) : Z :=
  if decide (prune_countdown c > 1) then floor else Z.max floor (newest_upto oldest hist).

Lemma newest_upto_ge oldest hist p :
  p ∈ hist -> p_commit p <= oldest -> p_commit p <= newest_upto oldest hist.
Proof.
  intros Hin Ho. induction hist as [|q hist IH]; [by apply elem_of_nil in Hin|].
  simpl. apply elem_of_cons in Hin as [<-|Hin]; [rewrite decide_True by done; lia|].
  specialize (IH Hin). case_decide; lia.
Qed.

Lemma newest_upto_bound oldest hist b :
  0 <= b -> (forall p, p ∈ hist -> p_commit p <= oldest -> p_commit p <= b) ->
  newest_upto oldest hist <= b.
Proof.
  intros Hb Hall. induction hist as [|q hist IH]; simpl; [done|].
  assert (Hq := Hall q (list_elem_of_here _ _)).
  assert (newest_upto oldest hist <= b) by (apply IH; intros p Hp; apply Hall; by right).
  case_decide; [specialize (Hq H1)|]; lia.
Qed.

(** Pruning at any timestamp keeps the indices exact above that. *)
Lemma cert_inv_prune_any c hist floor oldest :
  cert_inv c hist floor -> cert_inv (Cert.prune oldest c) hist (floor_after oldest c hist floor).
Proof.
  intros Hinv. unfold floor_after, Cert.prune.
  destruct (decide (prune_countdown c > 1)); [by destruct Hinv|].
  assert (Hno : forall ts p, Z.max floor (newest_upto oldest hist) < ts -> p ∈ hist ->
    p_commit p = ts -> oldest < ts).
  { intros ts p Hts Hp <-. apply Z.nle_gt. intros Hle.
    pose proof (newest_upto_ge oldest hist p Hp Hle). lia. }
  assert (Hix : forall V `{Countable V} (get : WriteSet -> gset V) m, index_ok get m hist floor ->
    index_ok get (ConflictIndex.prune oldest m) hist (Z.max floor (newest_upto oldest hist))).
  { intros V ? ? get m Hi r ts txn Hts.
    rewrite ConflictIndex.entries_prune, (Hi r ts txn) by lia. simpl.
    split; [tauto|]. intros (p & Hp & Hc & Hr). pose proof (Hno ts p Hts Hp Hc). eauto 8. }
  destruct Hinv as [Hc Hv He Hs Hx]. split; simpl; try by apply Hix.
  intros ts ws Hts. rewrite <- Hc by lia. rewrite map_lookup_filter.
  destruct (committed_write_sets c !! ts) as [l|] eqn:El; simpl; [|done].
  destruct (decide (ts > oldest)); [by rewrite option_guard_True|].
  rewrite option_guard_False by done. simpl. split; [intros Hn; by apply elem_of_nil in Hn|].
  intros Hin. assert (Hd : ws ∈ default [] (committed_write_sets c !! ts)) by by rewrite El.
  apply Hc in Hd as (p & Hp & Hpc & _); [|lia]. pose proof (Hno ts p Hts Hp Hpc). lia.
Qed.

(** The pre-check changes the table at most by marking its transaction. *)
Lemma check_active txn e :
  ce_active (check_write_set_conflict now txn e).1 = ce_active e \/
  ce_active (check_write_set_conflict now txn e).1 =
    alter cc_mark_write_validated txn (ce_active e).
Proof.
  destruct (check_write_set_conflict now txn e) as [e' [[]|x]] eqn:Hc; simpl;
    [|left; by apply check_err_frame in Hc as [? _]].
  unfold check_write_set_conflict, st_bind at 1, st_get in Hc.
  destruct (ce_active e !! txn) as [ctx|]; [|discriminate].
  destruct (cc_read_only ctx && _); [injection Hc as <-; by left|].
  destruct (decide (cc_concurrency_mode ctx = SingleWriter)); [injection Hc as <-; by right|].
  destruct ((Ws.is_empty (cc_write_set ctx) && _) && negb (cc_read_only ctx));
    [injection Hc as <-; by left|].
  apply st_bind_ok in Hc as (e1 & [] & E1 & Hc).
  assert (ce_active e1 = ce_active e) as He1.
  { destruct (serializable ctx); by injection E1 as <-. }
  apply st_bind_ok in Hc as (e2 & [] & E2 & Hc). apply frame_scan_active in E2 as (_ & _ & ->).
  apply st_bind_ok in Hc as (e3 & [] & E3 & Hc). apply frame_probes in E3 as (_ & _ & ->).
  apply st_bind_ok in Hc as (e4 & [] & E4 & Hc). apply frame_serializable in E4 as (_ & _ & ->).
  injection Hc as <-. right. simpl. by rewrite He1.
Qed.

(** [C36] Publication is decided by the whole history although the indices are
    pruned.  Let the indices reflect all publications above some floor, and prune
    them at a timestamp that is not below that floor and not above the committer's
    start.  Publishing a non-empty
    write set then succeeds exactly when it conflicts neither with another
    validated active writer nor with any publication ever committed after its
    start; the verdict is the one without the pruning.  On success the indices
    reflect the history extended by exactly this publication; on failure the
    certifier is unchanged and a write-write conflict is reported. *)
Theorem publish_exact e hist floor oldest txn write_ts start ws :
  cert_inv (ce_cert e) hist floor -> floor <= oldest <= start -> Ws.is_empty ws = false ->
  let pruned := with_cert (Cert.prune oldest) e in
  let r := publish now txn write_ts start ws pruned in
  (r.2 = Ok tt <->
    (forall o octx, rival e txn o octx -> Ws.has_conflict_with ws (cc_write_set octx) = false) /\
    (forall p, p ∈ hist -> start < p_commit p -> Ws.has_conflict_with ws (p_ws p) = false)) /\
  r.2 = (publish now txn write_ts start ws e).2 /\
  (r.2 = Ok tt -> cert_inv (ce_cert r.1) (hist ++ [mkPub write_ts start txn ws]) oldest) /\
  (r.2 <> Ok tt ->
     ce_cert r.1 = ce_cert pruned /\ r.2 = Err (SerializationFailed WriteWrite)).
Proof.
  intros Hinv Hle Hne. cbv zeta.
  pose proof (cert_inv_prune _ _ _ oldest Hinv ltac:(lia)) as Hpr.
  destruct (publish_cases (with_cert (Cert.prune oldest) e) hist oldest txn write_ts start ws
    Hpr ltac:(lia) Hne) as (A1 & A2 & A3).
  destruct (publish_cases e hist floor txn write_ts start ws Hinv ltac:(lia) Hne) as (B1 & _ & B3).
  split; [exact A1|]. split; [|auto].
  destruct (decide ((publish now txn write_ts start ws e).2 = Ok tt)) as [E|E].
  - rewrite E. apply A1, B1, E.
  - destruct (B3 E) as [_ ->]. apply A3. intros Hx. apply E, B1, A1, Hx.
Qed.

End facts.

End CertFacts.
