(* ===== verification/UndoLog.v ===== *)
(** * Undo log

    [linkrs-transaction/src/undo_log.rs] and [undo_log/file_backed.rs]: the
    undo entries and what each asks of the undo target, and the log that keeps
    the newest entries in memory and spills older ones to a temporary file in
    length-prefixed blocks.  The file is its byte sequence.  [postcard] is not
    part of the repository: encoding and decoding of one entry are parameters,
    with its documented round trip as a hypothesis.  Input and output
    operations may fail, as given by an [IoEnv].

    The abstract log is a stack of entries; [log_refines] relates the buffer,
    the file bytes and the block offsets to it. *)

From stdpp Require Import base gmap list strings.
From Stdlib Require Import ZArith Lia.
From S2P Require Import Prelude Types.

Inductive UndoLogError :=
| UndoFailed | InvalidState | LabelNotFound (l : Z) | VertexNotFound (v : VertexId)
| EdgeNotFound (e : Z) | PropertyNotFound (s : string).

#[export] Instance UndoLogError_eq_dec : EqDecision UndoLogError.
Proof. solve_decision. Defined.

(** [EdgeDeletionContext]: an edge identity and the timestamp. *)
Record EdgeDeletionContext := mkEdgeDel { ed_edge : EdgeIdentifier; ed_timestamp : Timestamp }.

(** [StagedWriteMark]: the storage staging boundary captured at a savepoint. *)
Record StagedWriteMark := mkMark {
  staging_journal_len : Z;
  staging_index_len : Z;
  staged_wal_len : Z;
}.

#[export] Instance StagedWriteMark_eq_dec : EqDecision StagedWriteMark.
Proof. solve_decision. Defined.

(** ** The undo target

    [trait UndoTarget]: the storage that entries are undone against.  The
    operations the undo entries and savepoints call, as functions of the
    target's state. *)
Class UndoTarget (Value G : Type) := {
  delete_vertex_type : Z -> G -> G * result unit UndoLogError;
  delete_edge_type : Z * Z * Z -> G -> G * result unit UndoLogError;
  delete_edge : EdgeDeletionContext -> G -> G * result unit UndoLogError;
  restore_edge : EdgeIdentifier -> list (string * Value) -> Timestamp -> G ->
    G * result unit UndoLogError;
  undo_update_edge_property : EdgeIdentifier -> Z -> Value -> Timestamp -> G ->
    G * result unit UndoLogError;
  revert_delete_edge : EdgeDeletionContext -> G -> G * result unit UndoLogError;
  rollback_staged_writes : TransactionId -> StagedWriteMark -> G -> G * result unit UndoLogError;
}.

(** ** Entries *)

Section entries.
Context {Value : Type}.

Inductive UndoLogEntry :=
| CreateVertexType (vertex_type : Z)
| CreateEdgeType (src_type dst_type edge_type : Z)
| InsertEdge (edge : EdgeIdentifier)
| RestoreEdge (edge : EdgeIdentifier) (properties : list (string * Value))
| UpdateEdgeProp (edge : EdgeIdentifier) (col_id : Z) (old_value : Value)
| RemoveEdge (edge : EdgeIdentifier).

Definition undo {G} `{UndoTarget Value G} (e : UndoLogEntry) (ts : Timestamp) (g : G)
  : G * result unit UndoLogError :=
  match e with
  | CreateVertexType t => delete_vertex_type t g
  | CreateEdgeType s d t => delete_edge_type (s, d, t) g
  | InsertEdge i => delete_edge (mkEdgeDel i ts) g
  | RestoreEdge i ps => restore_edge i ps ts g
  | UpdateEdgeProp i c v => undo_update_edge_property i c v ts g
  | RemoveEdge i => revert_delete_edge (mkEdgeDel i ts) g
  end.

End entries.
Arguments UndoLogEntry : clear implicits.

(** ** The spilling log *)

(** Outcome of the file operations of one call: which succeed, and how many
    bytes a failed write left behind. *)
Record IoEnv := mkIo {
  io_create : bool;
  io_seek : bool;
  io_write : option nat;
  io_set_len : bool;
  io_read : bool;
}.

Definition io_ok : IoEnv := mkIo true true None true true.

Record FileBackedUndoLog (Value : Type) := mkLog {
  buffer : list (UndoLogEntry Value);
  file : option (list Z);
  block_offsets : list Z;
  total_entries : Z;
  threshold : Z;
}.
Arguments mkLog {Value}.
Arguments buffer {Value}.
Arguments file {Value}.
Arguments block_offsets {Value}.
Arguments total_entries {Value}.
Arguments threshold {Value}.

(** [u64::to_le_bytes] and [from_le_bytes]. *)
Definition to_le_bytes (z : Z) : list Z := rev (be_bytes 8 z).

Arguments to_le_bytes : simpl never.

Definition from_le_bytes (l : list Z) : Z := from_be_bytes (rev l).

Module UndoLog.
Section log.
Context {Value : Type}.
Context (to_stdvec : UndoLogEntry Value -> option (list Z)).
Context (from_bytes : list Z -> option (UndoLogEntry Value)).

Abbreviation entry := (UndoLogEntry Value).
Abbreviation log := (FileBackedUndoLog Value).

Definition default_threshold : Z := 10000.

Definition new (memory_overflow_threshold : Z) : log :=
  mkLog [] None [] 0 (Z.max memory_overflow_threshold 1).

Definition is_empty (l : log) : bool := bool_decide (total_entries l = 0).

Definition len (l : log) : Z := total_entries l.

(** Entries, each behind its length. *)
Fixpoint serialize_entries (es : list entry) : option (list Z) :=
  match es with
  | [] => Some []
  | e :: es' =>
      match to_stdvec e, serialize_entries es' with
      | Some b, Some rest => Some (to_le_bytes (Z.of_nat (length b)) ++ b ++ rest)
      | _, _ => None
      end
  end.

(** The count, patched in at the end by the code, then the entries. *)
Definition serialize_block (es : list entry) : option (list Z) :=
  match serialize_entries es with
  | Some b => Some (to_le_bytes (Z.of_nat (length es)) ++ b)
  | None => None
  end.

Definition spill_to_file (io : IoEnv) (l : log) : log * result unit UndoLogError :=
  match serialize_block (buffer l) with
  | None => (l, Err UndoFailed)
  | Some block_data =>
      let created := match file l with
                     | Some f => Some f
                     | None => if io_create io then Some [] else None
                     end in
      match created with
      | None => (l, Err UndoFailed)
      | Some f =>
          let l1 := mkLog (buffer l) (Some f) (block_offsets l) (total_entries l) (threshold l) in
          if negb (io_seek io) then (l1, Err UndoFailed)
          else
            let new_offset := Z.of_nat (length f) in
            match io_write io with
            | Some n =>
                let f' := if io_set_len io then f else f ++ take n block_data in
                (mkLog (buffer l) (Some f') (block_offsets l) (total_entries l) (threshold l),
                 Err UndoFailed)
            | None =>
                (mkLog [] (Some (f ++ block_data)) (block_offsets l ++ [new_offset])
                   (total_entries l) (threshold l), Ok tt)
            end
      end
  end.

Definition add (io : IoEnv) (e : entry) (l : log) : log * result unit UndoLogError :=
  let l1 := mkLog (buffer l ++ [e]) (file l) (block_offsets l) (total_entries l + 1)
              (threshold l) in
  if decide (Z.of_nat (length (buffer l1)) >= threshold l1) then spill_to_file io l1
  else (l1, Ok tt).

Definition clear (io : IoEnv) (l : log) : log * result unit UndoLogError :=
  match file l with
  | Some _ =>
      if io_set_len io then (mkLog [] (Some []) [] 0 (threshold l), Ok tt) else (l, Err UndoFailed)
  | None => (mkLog [] None [] 0 (threshold l), Ok tt)
  end.

(** [read_exact] of [n] bytes at a position. *)
Definition read_at (f : list Z) (pos n : nat) : option (list Z) :=
  if decide (pos + n <= length f)%nat then Some (take n (drop pos f)) else None.

(** The loop over the entries of a block. *)
Fixpoint read_entries (f : list Z) (count : nat) (pos : nat) : option (list entry * nat) :=
  match count with
  | O => Some ([], pos)
  | S count' =>
      match read_at f pos 8 with
      | None => None
      | Some lb =>
          let len_u64 := from_le_bytes lb in
          let start := (pos + 8)%nat in
          if decide (len_u64 > Z.of_nat (length f) - Z.of_nat start) then None
          else
            match read_at f start (Z.to_nat len_u64) with
            | None => None
            | Some eb =>
                match from_bytes eb with
                | None => None
                | Some e =>
                    match read_entries f count' (start + Z.to_nat len_u64) with
                    | Some (es, p) => Some (e :: es, p)
                    | None => None
                    end
                end
            end
      end
  end.

(** Decode the block at [last_offset], which must reach the end of the file. *)
Definition decode_block (f : list Z) (last_offset : Z) : option (list entry) :=
  match read_at f (Z.to_nat last_offset) 8 with
  | None => None
  | Some cb =>
      let entry_count := from_le_bytes cb in
      if decide (entry_count = 0) then None
      else
        let entry_start := (Z.to_nat last_offset + 8)%nat in
        let remaining := Z.of_nat (length f) - Z.of_nat entry_start in
        if decide (entry_count > Z.max remaining 0 / 8) then None
        else
          match read_entries f (Z.to_nat entry_count) entry_start with
          | None => None
          | Some (es, block_end) =>
              if decide (block_end = length f) then Some es else None
          end
  end.

Definition pop_from_file (io : IoEnv) (l : log) : log * result (option entry) UndoLogError :=
  match file l with
  | None => (l, Ok None)
  | Some f =>
      match last (block_offsets l) with
      | None => (l, Ok None)
      | Some last_offset =>
          if decide (total_entries l = 0) then (l, Err UndoFailed)
          else if negb (io_seek io && io_read io) then (l, Err UndoFailed)
          else
            match decode_block f last_offset with
            | None => (l, Err UndoFailed)
            | Some es =>
                match last es with
                | None => (l, Err UndoFailed)
                | Some newest =>
                    if negb (io_set_len io) then (l, Err UndoFailed)
                    else
                      (mkLog (removelast es) (Some (take (Z.to_nat last_offset) f))
                         (removelast (block_offsets l)) (Z.max (total_entries l - 1) 0)
                         (threshold l), Ok (Some newest))
                end
            end
      end
  end.

Definition pop (io : IoEnv) (l : log) : log * result (option entry) UndoLogError :=
  match last (buffer l) with
  | Some e =>
      (mkLog (removelast (buffer l)) (file l) (block_offsets l) (Z.max (total_entries l - 1) 0)
         (threshold l), Ok (Some e))
  | None => pop_from_file io l
  end.

Section undo.
Context {G : Type} `{UndoTarget Value G}.

(** [execute_next]: [Ok false] when the log is empty; a failed entry is pushed
    back. *)
Definition execute_next (io : IoEnv) (ts : Timestamp) (l : log) (g : G)
  : log * G * result bool UndoLogError :=
  match pop io l with
  | (l1, Err x) => (l1, g, Err x)
  | (l1, Ok None) => (l1, g, Ok false)
  | (l1, Ok (Some e)) =>
      match undo e ts g with
      | (g1, Ok _) => (l1, g1, Ok true)
      | (g1, Err x) =>
          (mkLog (buffer l1 ++ [e]) (file l1) (block_offsets l1) (total_entries l1 + 1)
             (threshold l1), g1, Err x)
      end
  end.

(** [while self.execute_next()? {}], with fuel for the rounds. *)
Fixpoint execute_loop (fuel : nat) (io : IoEnv) (ts : Timestamp) (l : log) (g : G)
  : log * G * option (result unit UndoLogError) :=
  match fuel with
  | O => (l, g, None)
  | S fuel' =>
      match execute_next io ts l g with
      | (l1, g1, Err x) => (l1, g1, Some (Err x))
      | (l1, g1, Ok false) => (l1, g1, Some (Ok tt))
      | (l1, g1, Ok true) => execute_loop fuel' io ts l1 g1
      end
  end.

(** Each round removes an entry: the entry count plus one bounds the rounds. *)
Definition execute_undo (io : IoEnv) (ts : Timestamp) (l : log) (g : G)
  : log * G * option (result unit UndoLogError) :=
  execute_loop (S (Z.to_nat (total_entries l))) io ts l g.

Fixpoint execute_times (n : nat) (io : IoEnv) (ts : Timestamp) (l : log) (g : G)
  : log * G * result unit UndoLogError :=
  match n with
  | O => (l, g, Ok tt)
  | S n' =>
      match execute_next io ts l g with
      | (l1, g1, Err x) => (l1, g1, Err x)
      | (l1, g1, Ok false) => (l1, g1, Err UndoFailed)
      | (l1, g1, Ok true) => execute_times n' io ts l1 g1
      end
  end.

Definition execute_undo_from_index (io : IoEnv) (ts : Timestamp) (start_index : Z) (l : log)
    (g : G) : log * G * result unit UndoLogError :=
  if decide (start_index > total_entries l) then (l, g, Err UndoFailed)
  else execute_times (Z.to_nat (total_entries l - start_index)) io ts l g.

(** ** The abstract log *)

(** Undo a list of entries, newest last: run from the end, stopping at the
    first failure with the failed entry still in the log. *)
Fixpoint undo_stack (n : nat) (ts : Timestamp) (es : list entry) (g : G)
  : list entry * G * result unit UndoLogError :=
  match n with
  | O => (es, g, Ok tt)
  | S n' =>
      match last es with
      | None => (es, g, Ok tt)
      | Some e =>
          match undo e ts g with
          | (g1, Ok _) => undo_stack n' ts (removelast es) g1
          | (g1, Err x) => (es, g1, Err x)
          end
      end
  end.

End undo.

(** Byte offset at which each block starts. *)
Fixpoint offsets_from (pos : Z) (blocks : list (list Z)) : list Z :=
  match blocks with
  | [] => []
  | b :: bs => pos :: offsets_from (pos + Z.of_nat (length b)) bs
  end.

(** The simulation relation: the abstract log is the entries of the file's
    blocks followed by the buffer. *)
Record log_refines (l : log) (es : list entry) : Prop := {
  lr_split : exists blocks bytes,
    es = mjoin blocks ++ buffer l /\
    Forall2 (fun b s => b <> [] /\ serialize_block b = Some s) blocks bytes /\
    default [] (file l) = mjoin bytes /\
    block_offsets l = offsets_from 0 bytes;
  lr_total : total_entries l = Z.of_nat (length es);
  lr_threshold : 1 <= threshold l;
}.

(** ** Encoding round trip *)

(** What the code relies on of [postcard]: decoding what was encoded gives the
    entry back; an encoding fits in memory. *)
Definition postcard_roundtrip : Prop :=
  forall e b, to_stdvec e = Some b ->
    from_bytes b = Some e /\ Z.of_nat (length b) < 2 ^ 64.

Hypothesis Hpostcard : postcard_roundtrip.

Lemma le_roundtrip z : 0 <= z < 2 ^ 64 -> from_le_bytes (to_le_bytes z) = z.
Proof.
  intros Hz. unfold from_le_bytes, to_le_bytes. rewrite rev_involutive.
  by apply from_be_bytes_be.
Qed.

Lemma length_le z : length (to_le_bytes z) = 8%nat.
Proof. unfold to_le_bytes. by rewrite length_rev, length_be_bytes. Qed.

Lemma read_at_middle a b c : read_at (a ++ b ++ c) (length a) (length b) = Some b.
Proof.
  unfold read_at. rewrite decide_True by (rewrite !length_app; lia).
  by rewrite drop_app_length, take_app_length.
Qed.

Lemma serialize_entries_length es b :
  serialize_entries es = Some b -> (8 * length es <= length b)%nat.
Proof.
  revert b. induction es as [|e es IH]; intros b; cbn [serialize_entries length]; [lia|].
  destruct (to_stdvec e); [|done]. destruct (serialize_entries es) as [r|]; [|done].
  intros Hb%(inj Some). subst b. rewrite !length_app, length_le. specialize (IH r eq_refl). lia.
Qed.

Lemma read_entries_ok es b pre post :
  serialize_entries es = Some b ->
  read_entries (pre ++ b ++ post) (length es) (length pre) =
  Some (es, (length pre + length b)%nat).
Proof.
  revert b pre. induction es as [|e es IH]; intros b pre; cbn [serialize_entries length read_entries].
  { intros [= <-]. simpl. by rewrite Nat.add_0_r. }
  destruct (to_stdvec e) as [eb|] eqn:Ee; [|done].
  destruct (serialize_entries es) as [rest|] eqn:Es; [|done]. intros Hx%(inj Some). subst b.
  destruct (Hpostcard e eb Ee) as [Hdec Hlen].
  rewrite <- !app_assoc.
  rewrite <- (length_le (Z.of_nat (length eb))) at 1. rewrite read_at_middle, le_roundtrip by lia.
  rewrite decide_False by (rewrite !length_app, length_le; lia). rewrite Nat2Z.id.
  rewrite (app_assoc pre (to_le_bytes _)).
  replace (length pre + 8)%nat with (length (pre ++ to_le_bytes (Z.of_nat (length eb))))
    by (rewrite length_app, length_le; lia).
  rewrite read_at_middle, Hdec.
  specialize (IH rest ((pre ++ to_le_bytes (Z.of_nat (length eb))) ++ eb) eq_refl).
  rewrite (length_app _ eb), <- app_assoc in IH. rewrite IH.
  do 2 f_equal. rewrite !length_app, length_le. lia.
Qed.

Lemma decode_block_ok es s pre :
  es <> [] -> Z.of_nat (length es) < 2 ^ 64 -> serialize_block es = Some s ->
  decode_block (pre ++ s) (Z.of_nat (length pre)) = Some es.
Proof.
  intros Hne Hlen. unfold serialize_block. destruct (serialize_entries es) as [b|] eqn:Eb; [|done].
  intros Hx%(inj Some). subst s. pose proof (serialize_entries_length es b Eb) as Hb.
  unfold decode_block. rewrite Nat2Z.id.
  rewrite <- (length_le (Z.of_nat (length es))) at 1.
  rewrite read_at_middle, le_roundtrip by lia.
  assert (length es <> 0)%nat by by destruct es.
  rewrite decide_False by lia. rewrite decide_False.
  2:{ rewrite !length_app, length_le. intros Hgt.
      assert (Z.of_nat (length es) <=
        Z.max (Z.of_nat (length pre + (8 + length b)) - Z.of_nat (length pre + 8)) 0 / 8); [|lia].
      apply Z.div_le_lower_bound; lia. }
  rewrite Nat2Z.id. pose proof (read_entries_ok es b (pre ++ to_le_bytes (Z.of_nat (length es))) [] Eb)
    as Hr. rewrite app_nil_r, <- app_assoc, length_app, length_le in Hr. rewrite Hr.
  by rewrite decide_True by (rewrite !length_app, length_le; lia).
Qed.

(** ** Refinement *)

Lemma offsets_snoc p bs s :
  offsets_from p (bs ++ [s]) = offsets_from p bs ++ [p + Z.of_nat (length (mjoin bs))].
Proof.
  revert p. induction bs as [|b bs IH]; intros p; simpl; [by rewrite Z.add_0_r|].
  rewrite IH, length_app. do 3 f_equal. lia.
Qed.

Lemma removelast_snoc {A} (l : list A) x : removelast (l ++ [x]) = l.
Proof. rewrite removelast_app by done. simpl. by rewrite app_nil_r. Qed.

Lemma mjoin_snoc {A} (bs : list (list A)) b : mjoin (bs ++ [b]) = mjoin bs ++ b.
Proof.
  induction bs as [|x bs IH]; simpl; [by rewrite app_nil_r|]. by rewrite IH, app_assoc.
Qed.

Lemma undo_new_refines m : log_refines (new m) [].
Proof. split; simpl; [|done|lia]. by exists [], []. Qed.

(** Spilling moves the buffer to a block of the file; a failed spill keeps it,
    unless a failed write also could not be truncated away. *)
Lemma spill_refines io l es :
  buffer l <> [] -> io_write io = None \/ io_set_len io = true ->
  log_refines l es -> log_refines (spill_to_file io l).1 es.
Proof.
  intros Hne Hio Href. pose proof Href as [(blocks & bytes & Hes & Hb & Hf & Ho) Ht Hth].
  unfold spill_to_file. destruct (serialize_block (buffer l)) as [s|] eqn:Es; [|done].
  set (created := match file l with Some f => Some f | None => _ end).
  destruct created as [f|] eqn:Ec; [|done].
  assert (Hfd : f = mjoin bytes).
  { rewrite <- Hf. subst created. destruct (file l); [by injection Ec as ->|].
    destruct (io_create io); [by injection Ec as <-|done]. }
  destruct (negb (io_seek io)); simpl.
  { split; simpl; [|done|done]. exists blocks, bytes. auto. }
  destruct (io_write io) as [n|]; simpl.
  { destruct Hio as [?| ->]; [done|]. split; simpl; [|done|done]. exists blocks, bytes. auto. }
  split; simpl; [|done|done]. exists (blocks ++ [buffer l]), (bytes ++ [s]).
  rewrite !mjoin_snoc, app_nil_r, offsets_snoc, Ho, Hfd. split; [done|].
  split; [apply Forall2_app; [done|by repeat constructor]|]. done.
Qed.

Lemma undo_add_refines io e l es :
  io_write io = None \/ io_set_len io = true ->
  log_refines l es -> log_refines (add io e l).1 (es ++ [e]).
Proof.
  intros Hio [(blocks & bytes & Hes & Hb & Hf & Ho) Ht Hth]. unfold add. cbv zeta.
  set (l1 := mkLog (buffer l ++ [e]) _ _ _ _).
  assert (H1 : log_refines l1 (es ++ [e])).
  { split; simpl; [|rewrite length_app; simpl; lia|done]. exists blocks, bytes.
    rewrite Hes, <- app_assoc. auto. }
  case_decide; [|done]. apply spill_refines; [|done|done]. simpl. by destruct (buffer l).
Qed.

Lemma clear_refines io l es :
  log_refines l es -> (clear io l).2 = Ok tt -> log_refines (clear io l).1 [].
Proof.
  intros [_ _ Hth]. unfold clear. destruct (file l); [destruct (io_set_len io)|]; simpl; try done;
    intros _; (split; simpl; [|done|done]); by exists [], [].
Qed.

(** A failed pop changes nothing. *)
Lemma pop_err io l l' x : pop io l = (l', Err x) -> l' = l.
Proof.
  unfold pop, pop_from_file. intros Hp. repeat case_match; by simplify_eq.
Qed.

Lemma pop_refines io l es :
  io_seek io = true -> io_read io = true -> io_set_len io = true ->
  Z.of_nat (length es) < 2 ^ 64 -> log_refines l es ->
  (pop io l).2 = Ok (last es) /\ log_refines (pop io l).1 (removelast es).
Proof.
  intros Hs Hr Hl Hlen Href. pose proof Href as [(blocks & bytes & Hes & Hb & Hf & Ho) Ht Hth].
  unfold pop. destruct (last (buffer l)) as [e|] eqn:Elast.
  - apply last_Some in Elast as [bf Ebf]. rewrite Ebf, app_assoc in Hes. subst es.
    rewrite last_snoc, removelast_snoc. split; [done|]. rewrite length_app in *. simpl in *.
    split; simpl; [|lia|done]. exists blocks, bytes.
    rewrite Ebf, removelast_snoc. auto.
  - apply last_None in Elast. rewrite Elast, app_nil_r in Hes. unfold pop_from_file.
    destruct blocks as [|b bs _] using rev_ind.
    + apply Forall2_nil_inv_l in Hb as ->. simpl in Ho. subst es. simpl.
      destruct (file l); [rewrite Ho|]; simpl; auto.
    + apply Forall2_app_inv_l in Hb as (bys & s1 & Hbs & Hb1 & ->).
      apply Forall2_cons_inv_l in Hb1 as (s & s2 & [Hbne Hser] & ->%Forall2_nil_inv_l & ->).
      rewrite mjoin_snoc in Hes. rewrite mjoin_snoc in Hf. rewrite offsets_snoc, Z.add_0_l in Ho.
      assert (Hsne : s <> []).
      { unfold serialize_block in Hser. destruct (serialize_entries b); [|done].
        apply (inj Some) in Hser. subst s. intros Hx%(f_equal length).
        rewrite length_app, length_le in Hx. simpl in Hx. lia. }
      destruct (file l) as [f|]; simpl in Hf; [|by destruct (mjoin bys), s].
      rewrite Ho, last_snoc, removelast_snoc, Hs, Hr, Hl. simpl.
      assert (Hbl : (length b <> 0)%nat) by by destruct b.
      assert (Hesl : length es = (length (mjoin bs) + length b)%nat)
        by by rewrite Hes, length_app.
      rewrite decide_False by lia. subst f.
      rewrite (decode_block_ok b s (mjoin bys)) by (done || lia).
      destruct (exists_last Hbne) as (b' & e & ->).
      rewrite last_snoc, removelast_snoc, Hes, app_assoc, last_snoc, removelast_snoc.
      split; [done|]. rewrite Nat2Z.id, take_app_length.
      rewrite length_app in Hesl. simpl in Hesl.
      split; simpl; [|rewrite length_app; lia|done]. exists bs, bys. auto.
Qed.

Lemma push_back_refines e l es :
  log_refines l es ->
  log_refines (mkLog (buffer l ++ [e]) (file l) (block_offsets l) (total_entries l + 1)
    (threshold l)) (es ++ [e]).
Proof.
  intros [(blocks & bytes & Hes & Hb & Hf & Ho) Ht Hth].
  split; simpl; [|rewrite length_app; simpl; lia|done]. exists blocks, bytes.
  rewrite Hes, <- app_assoc. auto.
Qed.

Section undo_refines.
Context {G : Type} `{UndoTarget Value G}.

Lemma execute_next_refines ts l es (g : G) :
  Z.of_nat (length es) < 2 ^ 64 -> log_refines l es ->
  match last es with
  | None => exists l', execute_next io_ok ts l g = (l', g, Ok false) /\ log_refines l' es
  | Some e =>
      match undo e ts g with
      | (g1, Ok _) =>
          exists l', execute_next io_ok ts l g = (l', g1, Ok true) /\
                log_refines l' (removelast es)
      | (g1, Err x) =>
          exists l', execute_next io_ok ts l g = (l', g1, Err x) /\ log_refines l' es
      end
  end.
Proof.
  intros Hlen Href.
  destruct (pop_refines io_ok l es eq_refl eq_refl eq_refl Hlen Href) as [Hans Href'].
  unfold execute_next. destruct (pop io_ok l) as [l1 r]. simpl in *. subst r.
  destruct (last es) as [e|] eqn:El; simpl.
  - apply last_Some in El as [es' ->]. rewrite removelast_snoc in *.
    destruct (undo e ts g) as [g1 [?|x]]; eexists; (split; [done|]); [done|].
    by apply push_back_refines.
  - apply last_None in El. subst es. eauto.
Qed.

Lemma length_removelast {A} (l : list A) : length (removelast l) = (length l - 1)%nat.
Proof.
  destruct l as [|x l _] using rev_ind; [done|]. rewrite removelast_snoc, length_app. simpl. lia.
Qed.

Lemma execute_times_refines n ts l es (g : G) :
  (n <= length es)%nat -> Z.of_nat (length es) < 2 ^ 64 -> log_refines l es ->
  let '(l', g', r) := execute_times n io_ok ts l g in
  let '(es', g'', r') := undo_stack n ts es g in
  g' = g'' /\ r = r' /\ log_refines l' es'.
Proof.
  revert l es g. induction n as [|n IH]; intros l es g Hn Hlen Href; simpl; [done|].
  pose proof (execute_next_refines ts l es g Hlen Href) as Hnext.
  destruct (last es) as [e|] eqn:El; [|apply last_None in El; subst; simpl in Hn; lia].
  destruct (undo e ts g) as [g1 [?|x]]; destruct Hnext as (l' & -> & Href').
  - apply IH; [rewrite length_removelast; lia..|done].
  - done.
Qed.

Lemma execute_loop_refines fuel ts l es (g : G) :
  (length es < fuel)%nat -> Z.of_nat (length es) < 2 ^ 64 -> log_refines l es ->
  let '(l', g', r) := execute_loop fuel io_ok ts l g in
  let '(es', g'', r') := undo_stack (length es) ts es g in
  g' = g'' /\ r = Some r' /\ log_refines l' es'.
Proof.
  revert l es g. induction fuel as [|fuel IH]; intros l es g Hn Hlen Href; [lia|]. simpl.
  pose proof (execute_next_refines ts l es g Hlen Href) as Hnext.
  destruct (last es) as [e|] eqn:El.
  2:{ destruct Hnext as (l' & -> & Href'). apply last_None in El. subst. done. }
  apply last_Some in El as [es' ->]. rewrite removelast_snoc in *.
  replace (length (es' ++ [e])) with (S (length es')) in * by (rewrite length_app; simpl; lia).
  simpl. rewrite last_snoc, removelast_snoc.
  destruct (undo e ts g) as [g1 [?|x]]; destruct Hnext as (l' & -> & Href'); [|done].
  apply IH; [lia|lia|done].
Qed.

(** What the abstract undo leaves: on success exactly the oldest entries. *)
Lemma undo_stack_ok n ts es (g g' : G) es' :
  (n <= length es)%nat -> undo_stack n ts es g = (es', g', Ok tt) ->
  es' = take (length es - n) es.
Proof.
  revert es g. induction n as [|n IH]; intros es g Hn; simpl.
  { intros [= <- _]. by rewrite Nat.sub_0_r, firstn_all. }
  destruct es as [|e es0 _] using rev_ind; [simpl in Hn; lia|].
  rewrite last_snoc, removelast_snoc. rewrite length_app in *. simpl in *.
  destruct (undo e ts g) as [g1 [?|x]]; [|done]. intros Hu.
  apply IH in Hu; [|lia]. rewrite Hu, take_app_le by lia. f_equal. lia.
Qed.

(** Whatever its outcome, the abstract undo of [n] entries keeps the older
    ones. *)
Lemma undo_stack_prefix n ts es (g : G) :
  (n <= length es)%nat ->
  let '(es', _, _) := undo_stack n ts es g in
  take (length es - n) es' = take (length es - n) es /\
  (length es - n <= length es' <= length es)%nat.
Proof.
  revert es g. induction n as [|n IH]; intros es g Hn; simpl; [split; [done|lia]|].
  destruct es as [|e es0 _] using rev_ind; [simpl in Hn; lia|].
  rewrite last_snoc, removelast_snoc. rewrite length_app in *. simpl in *.
  destruct (undo e ts g) as [g1 [?|x]].
  - specialize (IH es0 g1 ltac:(lia)). destruct (undo_stack n ts es0 g1) as [[es' g'] r].
    destruct IH as [IH1 IH2]. replace (length es0 + 1 - S n)%nat with (length es0 - n)%nat by lia.
    rewrite IH1, take_app_le by lia. split; [done|lia].
  - split; [done|]. rewrite length_app. simpl. lia.
Qed.

Lemma from_index_refines ts l es k (g : G) :
  Z.of_nat (length es) < 2 ^ 64 -> log_refines l es -> 0 <= k <= Z.of_nat (length es) ->
  let '(l', g', r) := execute_undo_from_index io_ok ts k l g in
  let '(es', g'', r') := undo_stack (length es - Z.to_nat k) ts es g in
  g' = g'' /\ r = r' /\ log_refines l' es' /\ (r = Ok tt -> es' = take (Z.to_nat k) es).
Proof.
  intros Hlen Href Hk. unfold execute_undo_from_index.
  rewrite (lr_total _ _ Href), decide_False by lia.
  replace (Z.to_nat (Z.of_nat (length es) - k)) with (length es - Z.to_nat k)%nat by lia.
  pose proof (execute_times_refines (length es - Z.to_nat k) ts l es g ltac:(lia) Hlen Href) as Hx.
  destruct (execute_times _ _ _ _ _) as [[l' g'] r].
  destruct (undo_stack _ _ _ _) as [[es' g''] r'] eqn:Eu.
  destruct Hx as (-> & -> & Hx). split; [done|]. split; [done|]. split; [done|]. intros ->.
  apply undo_stack_ok in Eu; [|lia]. rewrite Eu. f_equal. lia.
Qed.

(** Partial rollback undoes exactly the newest entries, newest first.  For
    a log in any state of spilling that holds the entries [es], undoing from
    index [k] behaves on the undo target as undoing the entries after the
    first [k] one by one from the newest; it stops at the first failure with
    that entry and all older ones still in the log, and on success the log
    holds exactly the first [k] entries.  An index beyond the log is refused
    and changes nothing; undoing everything terminates and behaves the same
    with [k = 0]. *)
Theorem undo_from_index_lifo ts l es k (g : G) :
  Z.of_nat (length es) < 2 ^ 64 -> log_refines l es -> 0 <= k ->
  (k > Z.of_nat (length es) -> execute_undo_from_index io_ok ts k l g = (l, g, Err UndoFailed)) /\
  (k <= Z.of_nat (length es) ->
    let n := (length es - Z.to_nat k)%nat in
    let '(l', g', r) := execute_undo_from_index io_ok ts k l g in
    let '(es', g'', r') := undo_stack n ts es g in
    g' = g'' /\ r = r' /\ log_refines l' es' /\ (r = Ok tt -> es' = take (Z.to_nat k) es)) /\
  (let '(l', g', r) := execute_undo io_ok ts l g in
   let '(es', g'', r') := undo_stack (length es) ts es g in
   g' = g'' /\ r = Some r' /\ log_refines l' es' /\ (r' = Ok tt -> es' = [])).
Proof.
  intros Hlen Href Hk. split; [|split].
  - intros Hgt. unfold execute_undo_from_index.
    by rewrite (lr_total _ _ Href), decide_True by lia.
  - intros Hle. cbv zeta. by apply from_index_refines.
  - unfold execute_undo. rewrite (lr_total _ _ Href), Nat2Z.id.
    pose proof (execute_loop_refines (S (length es)) ts l es g ltac:(lia) Hlen Href) as Hx.
    destruct (execute_loop _ _ _ _ _) as [[l' g'] r].
    destruct (undo_stack _ _ _ _) as [[es' g''] r'] eqn:Eu.
    destruct Hx as (-> & -> & Hx). split; [done|]. split; [done|]. split; [done|]. intros ->.
    apply undo_stack_ok in Eu; [|lia]. rewrite Eu. by rewrite Nat.sub_diag.
Qed.

End undo_refines.

(** ** The log as a stack *)

Inductive uop := UAdd (io : IoEnv) (e : entry) | UPop | UClear.

(** Run the operations; the answers of the pops are collected. *)
Fixpoint run_log (ops : list uop) (l : log) : log * list (result (option entry) UndoLogError) :=
  match ops with
  | [] => (l, [])
  | UAdd io e :: ops' => run_log ops' (add io e l).1
  | UPop :: ops' =>
      let '(l1, a) := pop io_ok l in
      let '(l2, rest) := run_log ops' l1 in (l2, a :: rest)
  | UClear :: ops' => run_log ops' (clear io_ok l).1
  end.

Fixpoint run_stack (ops : list uop) (es : list entry)
  : list entry * list (result (option entry) UndoLogError) :=
  match ops with
  | [] => (es, [])
  | UAdd _ e :: ops' => run_stack ops' (es ++ [e])
  | UPop :: ops' =>
      let '(es', rest) := run_stack ops' (removelast es) in (es', Ok (last es) :: rest)
  | UClear :: ops' => run_stack ops' []
  end.

Definition uop_ok (o : uop) : Prop :=
  match o with UAdd io _ => io_write io = None \/ io_set_len io = true | _ => True end.

Lemma run_log_refines ops l es :
  Forall uop_ok ops -> Z.of_nat (length es + length ops) < 2 ^ 64 -> log_refines l es ->
  (run_log ops l).2 = (run_stack ops es).2 /\
  log_refines (run_log ops l).1 (run_stack ops es).1.
Proof.
  revert l es. induction ops as [|o ops IH]; intros l es Hok Hlen Href; [done|].
  apply Forall_cons in Hok as [Ho Hok]. simpl in Hlen. destruct o as [io e| |]; simpl.
  - apply IH; [done|rewrite length_app; simpl; lia|]. by apply undo_add_refines.
  - destruct (pop_refines io_ok l es eq_refl eq_refl eq_refl ltac:(lia) Href) as [Ha Hr].
    destruct (pop io_ok l) as [l1 a]. simpl in *. subst a.
    destruct (IH l1 (removelast es) Hok) as [H1 H2]; [rewrite length_removelast; lia|done|].
    destruct (run_log ops l1), (run_stack ops (removelast es)). simpl in *. by subst.
  - apply IH; [done|simpl; lia|]. eapply clear_refines; [done|].
    unfold clear. by destruct (file l).
Qed.

(** [C37] The spilling undo log is a stack.  For any memory threshold and any
    sequence of appends, pops and clears, every pop answers with the newest
    entry not yet popped, whether it is in memory or in a block of the spill
    file, and the entry count is the stack's size.  Appends whose spill fails
    at any point (encoding, file creation, seek, write) still keep their
    entry; only a partial write that also cannot be truncated away is
    excluded. *)
Theorem undo_log_is_stack m ops :
  Forall uop_ok ops -> Z.of_nat (length ops) < 2 ^ 64 ->
  (run_log ops (new m)).2 = (run_stack ops []).2 /\
  len (run_log ops (new m)).1 = Z.of_nat (length (run_stack ops []).1).
Proof.
  intros Hok Hlen. destruct (run_log_refines ops (new m) [] Hok) as [H1 H2];
    [done|apply undo_new_refines|]. split; [done|]. apply H2.
Qed.

End log.
End UndoLog.

(** ** A concrete codec and target *)

Module UndoExample.

(** One-byte encoding of vertex-type creations. *)
Definition enc (e : UndoLogEntry Z) : option (list Z) :=
  match e with
  | CreateVertexType t => if decide (0 <= t < 256) then Some [t] else None
  | _ => None
  end.

Definition dec (b : list Z) : option (UndoLogEntry Z) :=
  match b with [t] => Some (CreateVertexType t) | _ => None end.

Lemma codec_roundtrip : UndoLog.postcard_roundtrip enc dec.
Proof.
  intros [] b; simpl; try discriminate. case_decide; [|discriminate]. by intros [= <-].
Qed.

(** A target that records the vertex types deleted, newest first. *)
#[export] Instance trace_target : UndoTarget Z (list Z) := {|
  delete_vertex_type t g := (t :: g, Ok tt);
  delete_edge_type _ g := (g, Err UndoFailed);
  delete_edge _ g := (g, Err UndoFailed);
  restore_edge _ _ _ g := (g, Err UndoFailed);
  undo_update_edge_property _ _ _ _ g := (g, Err UndoFailed);
  revert_delete_edge _ g := (g, Err UndoFailed);
  rollback_staged_writes _ _ g := (g, Ok tt);
|}.

(** Three appends with a threshold of two: one block of two, one in memory. *)
Definition ex_ops : list (UndoLog.uop (Value := Z)) :=
  [UndoLog.UAdd io_ok (CreateVertexType 1); UndoLog.UAdd io_ok (CreateVertexType 2);
   UndoLog.UAdd io_ok (CreateVertexType 3)].

Definition ex_log : FileBackedUndoLog Z := (UndoLog.run_log enc dec ex_ops (UndoLog.new 2)).1.

Lemma ex_log_refines :
  UndoLog.log_refines enc ex_log [CreateVertexType 1; CreateVertexType 2; CreateVertexType 3].
Proof.
  apply (UndoLog.run_log_refines enc dec codec_roundtrip ex_ops (UndoLog.new 2) []).
  - repeat constructor; by left.
  - done.
  - apply UndoLog.undo_new_refines.
Qed.

Lemma undo_from_index_lifo_witness :
  block_offsets ex_log = [0] /\
  (UndoLog.execute_undo_from_index dec io_ok 7 1 ex_log []).1.2 = [2; 3].
Proof.
  split; [reflexivity|].
  pose proof (proj1 (proj2 (UndoLog.undo_from_index_lifo enc dec codec_roundtrip 7 ex_log
    [CreateVertexType 1; CreateVertexType 2; CreateVertexType 3] 1 []
    ltac:(reflexivity) ex_log_refines ltac:(lia))) ltac:(simpl; lia)) as Hx.
  cbv zeta in Hx. destruct (UndoLog.execute_undo_from_index dec io_ok 7 1 ex_log [])
    as [[l' g'] r]. simpl in Hx. by destruct Hx as (-> & _).
Defined.

Lemma undo_log_is_stack_witness :
  let ops := ex_ops ++ [UndoLog.UPop; UndoLog.UPop; UndoLog.UPop; UndoLog.UPop] in
  (UndoLog.run_log enc dec ops (UndoLog.new 2)).2 =
  [Ok (Some (CreateVertexType 3)); Ok (Some (CreateVertexType 2));
   Ok (Some (CreateVertexType 1)); Ok None].
Proof.
  cbv zeta. refine (proj1 (UndoLog.undo_log_is_stack enc dec codec_roundtrip 2 _ _ _)).
  - repeat constructor; by left.
  - reflexivity.
Defined.

End UndoExample.
