(* ===== verification/Journal.v ===== *)
(** * Mutation journal

    [linkrs-transaction/src/mutation_journal.rs], the mutation description
    [MutationResult] of [types.rs], and the local WAL buffer of
    [wal/buffer.rs] that is rebuilt from the journal.  Undo entries carry
    property values of an arbitrary type. *)

From stdpp Require Import base gmap list strings.
From Stdlib Require Import ZArith Lia.
From S2P Require Import Prelude Types WriteSet WalTypes UndoLog.

Inductive MutationResource :=
| MVertex | MEdge | MVertexProperty | MEdgeProperty | MSchema | MIndex | MSequence | MMacro
| MTypeAlias | MSyncIntent | MUnknown.

#[export] Instance MutationResource_eq_dec : EqDecision MutationResource.
Proof. solve_decision. Defined.

(** [MutationEntityKey]. *)
Inductive MutationEntityKey := KeyVertex (v : VertexId) | KeyEdge (e : EdgeIdentifier).

(** [MutationResource::from_wal_op]. *)
Definition from_wal_op (op : WalOpType) : MutationResource :=
  match op with
  | OpInsertVertex | OpDeleteVertex => MVertex
  | OpInsertEdge | OpDeleteEdge => MEdge
  | OpUpdateVertexProp | OpAddVertexProp | OpDeleteVertexProp | OpRenameVertexProp =>
      MVertexProperty
  | OpUpdateEdgeProp | OpAddEdgeProp | OpDeleteEdgeProp | OpRenameEdgeProp => MEdgeProperty
  | OpCreateVertexType | OpDeleteVertexType | OpCreateEdgeType | OpDeleteEdgeType
  | OpCreateSpace | OpDropSpace | OpClearSpace => MSchema
  | OpCreateTagIndex | OpDropTagIndex | OpCreateEdgeIndex | OpDropEdgeIndex => MIndex
  | OpUpdateSequence => MSequence
  | OpCreateMacro | OpDropMacro => MMacro
  | OpCreateTypeAlias | OpDropTypeAlias => MTypeAlias
  | OpOutboxIntent => MSyncIntent
  | _ => MUnknown
  end.

(** [MutationResource::from_modified_table]. *)
Definition from_modified_table (table : option string) : MutationResource :=
  match table with
  | None => MUnknown
  | Some t =>
      if decide (t = "vertex"%string) then MVertex
      else if decide (t = "edge"%string) then MEdge
      else if decide (t = "schema"%string) then MSchema
      else if decide (t = "index"%string) then MIndex
      else if decide (t = "sequence"%string) then MSequence
      else if decide (t = "macro"%string) then MMacro
      else if decide (t = "type_alias"%string) then MTypeAlias
      else if decide (t = "sync"%string) then MSyncIntent
      else MUnknown
  end.

(** [MutationResult]. *)
Record MutationResult (Value : Type) := mkMut {
  mu_entity_keys : list MutationEntityKey;
  mu_undo_entry : option (UndoLogEntry Value);
  mu_redo_entry : option TransactionWalEntry;
  mu_modified_table : option string;
  mu_index_intents : list OutboxIntent;
  mu_resource : MutationResource;
}.
Arguments mkMut {Value}.
Arguments mu_entity_keys {Value}.
Arguments mu_undo_entry {Value}.
Arguments mu_redo_entry {Value}.
Arguments mu_modified_table {Value}.
Arguments mu_index_intents {Value}.
Arguments mu_resource {Value}.

Module Mutation.
Section mutation.
Context {Value : Type}.
Implicit Types m : MutationResult Value.

Definition default : MutationResult Value := mkMut [] None None None [] MUnknown.

Definition new (k : MutationEntityKey) : MutationResult Value :=
  mkMut [k] None None None [] MUnknown.

Definition with_undo (e : UndoLogEntry Value) m : MutationResult Value :=
  mkMut (mu_entity_keys m) (Some e) (mu_redo_entry m) (mu_modified_table m) (mu_index_intents m)
    (mu_resource m).

(** [if resource == Unknown { resource = r }]. *)
Definition or_resource (r : MutationResource) (cur : MutationResource) : MutationResource :=
  if decide (cur = MUnknown) then r else cur.

Definition with_redo (e : TransactionWalEntry) m : MutationResult Value :=
  mkMut (mu_entity_keys m) (mu_undo_entry m) (Some e) (mu_modified_table m) (mu_index_intents m)
    (or_resource (from_wal_op (we_op_type e)) (mu_resource m)).

Definition with_table (t : string) m : MutationResult Value :=
  mkMut (mu_entity_keys m) (mu_undo_entry m) (mu_redo_entry m) (Some t) (mu_index_intents m)
    (or_resource (from_modified_table (Some t)) (mu_resource m)).

Definition with_resource (r : MutationResource) m : MutationResult Value :=
  mkMut (mu_entity_keys m) (mu_undo_entry m) (mu_redo_entry m) (mu_modified_table m)
    (mu_index_intents m) r.

Definition with_index_intent (i : OutboxIntent) m : MutationResult Value :=
  mkMut (mu_entity_keys m) (mu_undo_entry m) (mu_redo_entry m) (mu_modified_table m)
    (mu_index_intents m ++ [i]) (or_resource MSyncIntent (mu_resource m)).

End mutation.
End Mutation.

(** [TransactionMutationRecord]. *)
Record TransactionMutationRecord (Value : Type) := mkRec {
  r_sequence : Z;
  r_transaction_id : TransactionId;
  r_entity_keys : list MutationEntityKey;
  r_resource : MutationResource;
  r_undo : option (UndoLogEntry Value);
  r_redo : option TransactionWalEntry;
  r_index_intents : list OutboxIntent;
  r_modified_table : option string;
  r_write_timestamp : Timestamp;
  r_commit_timestamp : option Timestamp;
}.
Arguments mkRec {Value}.
Arguments r_sequence {Value}.
Arguments r_transaction_id {Value}.
Arguments r_entity_keys {Value}.
Arguments r_resource {Value}.
Arguments r_undo {Value}.
Arguments r_redo {Value}.
Arguments r_index_intents {Value}.
Arguments r_modified_table {Value}.
Arguments r_write_timestamp {Value}.
Arguments r_commit_timestamp {Value}.

Record MutationJournal (Value : Type) := mkJournal {
  j_records : list (TransactionMutationRecord Value);
  j_next_sequence : Z;
}.
Arguments mkJournal {Value}.
Arguments j_records {Value}.
Arguments j_next_sequence {Value}.

(** Failures of [check_invariants] and [validate_against]; the source reports
    a message. *)
Inductive JournalError :=
| SequenceGap | InvalidRedoOp | NextSequenceMismatch | TruncatedBeyond | PositionMismatch.

Module Journal.
Section journal.
Context {Value : Type}.
Abbreviation record := (TransactionMutationRecord Value).
Abbreviation journal := (MutationJournal Value).
Implicit Types (j : journal) (r : record).

Definition new : journal := mkJournal [] 0.

Definition len j : Z := Z.of_nat (length (j_records j)).

Definition is_empty j : bool := bool_decide (j_records j = []).

Definition set_sequence (seq : Z) r : record :=
  mkRec seq (r_transaction_id r) (r_entity_keys r) (r_resource r) (r_undo r) (r_redo r)
    (r_index_intents r) (r_modified_table r) (r_write_timestamp r) (r_commit_timestamp r).

(** The new journal and the sequence assigned. *)
Definition push r j : journal * Z :=
  let seq := j_next_sequence j in
  (mkJournal (j_records j ++ [set_sequence seq r]) (seq + 1), seq).

Definition truncate (n : Z) j : journal :=
  if decide (n < len j)
  then let rs := take (Z.to_nat n) (j_records j) in mkJournal rs (Z.of_nat (length rs))
  else j.

Definition range (start stop : Z) j : list record :=
  let stop' := Z.min stop (len j) in
  let start' := Z.min start stop' in
  take (Z.to_nat (stop' - start')) (drop (Z.to_nat start') (j_records j)).

Fixpoint check_records (idx : Z) (rs : list record) : result unit JournalError :=
  match rs with
  | [] => Ok tt
  | r :: rest =>
      if decide (r_sequence r <> idx) then Err SequenceGap
      else match r_redo r with
           | Some e =>
               match op_try_from (op_as_u8 (we_op_type e)) with
               | Err _ => Err InvalidRedoOp
               | Ok _ => check_records (idx + 1) rest
               end
           | None => check_records (idx + 1) rest
           end
  end.

Definition check_invariants j : result unit JournalError :=
  match check_records 0 (j_records j) with
  | Err e => Err e
  | Ok _ =>
      if decide (j_next_sequence j <> len j) then Err NextSequenceMismatch else Ok tt
  end.

Definition total_redo_entries j : Z :=
  Z.of_nat (length (base.filter (fun r => is_Some (r_redo r)) (j_records j))).

Definition total_intents j : Z :=
  foldr (fun r acc => Z.of_nat (length (r_index_intents r)) + acc) 0 (j_records j).

Definition redo_entries j : list TransactionWalEntry := omap r_redo (j_records j).

Definition wal_intents j : list OutboxIntent := j_records j ≫= r_index_intents.

Definition publish_record (commit_ts : Timestamp) r : record :=
  match r_commit_timestamp r with
  | Some _ => r
  | None =>
      mkRec (r_sequence r) (r_transaction_id r) (r_entity_keys r) (r_resource r) (r_undo r)
        (r_redo r) (r_index_intents r) (r_modified_table r) (r_write_timestamp r) (Some commit_ts)
  end.

Definition publish_commit_timestamp (commit_ts : Timestamp) j : journal :=
  mkJournal (publish_record commit_ts <$> j_records j) (j_next_sequence j).

(** ** Invariant *)

(** Sequences are the positions, and the next one is the length. *)
Definition wf j : Prop :=
  (forall i r, j_records j !! i = Some r -> r_sequence r = Z.of_nat i) /\
  j_next_sequence j = len j.

Lemma wf_new : wf new.
Proof. split; [|done]. intros i r Hx. simpl in Hx. by rewrite lookup_nil in Hx. Qed.

Lemma wf_push r j : wf j -> wf (push r j).1 /\ (push r j).2 = len j.
Proof.
  intros [Hs Hn]. split; [|done]. split; simpl.
  - intros i r0 Hx. apply lookup_app_Some in Hx as [Hx|[Hle Hx]]; [by apply Hs|].
    apply list_lookup_singleton_Some in Hx as [Hi <-]. simpl. rewrite Hn. unfold len. lia.
  - rewrite Hn. unfold len. simpl. rewrite length_app. simpl. lia.
Qed.

Lemma records_truncate n j :
  0 <= n -> j_records (truncate n j) = take (Z.to_nat n) (j_records j).
Proof.
  intros. unfold truncate, len. case_decide; [done|]. by rewrite take_ge by lia.
Qed.

Lemma wf_truncate n j : 0 <= n -> wf j -> wf (truncate n j).
Proof.
  intros H0 [Hs Hn]. unfold truncate. case_decide as Hd; [|by split]. split; [|done].
  simpl. intros i r Hx. apply lookup_take_Some in Hx as [Hx _]. by apply Hs.
Qed.

Lemma wf_publish ts j : wf j -> wf (publish_commit_timestamp ts j).
Proof.
  intros [Hs Hn]. split; simpl.
  - intros i r Hx. apply list_lookup_fmap_Some in Hx as (r0 & -> & Hx).
    unfold publish_record. destruct (r_commit_timestamp r0); simpl; by apply Hs.
  - rewrite Hn. unfold len. simpl. by rewrite length_fmap.
Qed.

Lemma check_records_ok idx rs :
  check_records idx rs = Ok tt <-> forall i r, rs !! i = Some r -> r_sequence r = idx + Z.of_nat i.
Proof.
  revert idx. induction rs as [|r rs IH]; intros idx; simpl.
  - split; [|done]. intros _ i r Hx. by rewrite lookup_nil in Hx.
  - assert (Hmatch : match r_redo r with
      | Some e => match op_try_from (op_as_u8 (we_op_type e)) with
                  | Err _ => Err InvalidRedoOp | Ok _ => check_records (idx + 1) rs end
      | None => check_records (idx + 1) rs end = check_records (idx + 1) rs)
      by (destruct (r_redo r); [by rewrite op_try_from_as_u8|done]).
    rewrite Hmatch. case_decide as Hd.
    + split; [done|]. intros Hx. specialize (Hx 0%nat r eq_refl). lia.
    + rewrite IH. split.
      * intros Hx [|i] r0 Hr; simpl in Hr; [injection Hr as <-; lia|]. rewrite (Hx i r0 Hr). lia.
      * intros Hx i r0 Hr. rewrite (Hx (S i) r0 Hr). lia.
Qed.

Lemma check_invariants_iff j : check_invariants j = Ok tt <-> wf j.
Proof.
  unfold check_invariants, wf. destruct (check_records 0 (j_records j)) as [[]|x] eqn:E.
  - rewrite check_records_ok in E. split.
    + intros Hx. case_decide as Hd; [done|]. split; [exact E|lia].
    + intros [_ Hn]. by rewrite decide_False by (intros ?; done).
  - split; [done|]. intros [Hs _]. pose proof (check_records_ok 0 (j_records j)) as [_ Hx].
    rewrite Hx in E; [done|]. intros i r Hr. rewrite (Hs i r Hr). lia.
Qed.

End journal.
End Journal.

(** ** Savepoint position *)

Record MutationJournalPosition := mkPos {
  jp_journal_len : Z;
  jp_next_sequence : Z;
  jp_undo_log_index : Z;
  jp_modified_tables : list string;
  jp_write_set_snapshot : WriteSet;
  jp_read_set_snapshot : WriteSet;
  jp_sync_sequence : Z;
  jp_savepoint_sequence : Z;
}.

Definition validate_against {Value} (p : MutationJournalPosition) (j : MutationJournal Value)
  : result unit JournalError :=
  if decide (jp_journal_len p > Journal.len j) then Err TruncatedBeyond
  else if decide (jp_next_sequence p <> jp_journal_len p) then Err PositionMismatch
  else Ok tt.

(** ** Local WAL buffer ([wal/buffer.rs]) *)

Record LocalWalBuffer := mkBuf {
  lb_entries : list TransactionWalEntry;
  lb_intents : list OutboxIntent;
  lb_buffered_bytes : Z;
  lb_max_buffer_bytes : Z;
  lb_checksum_enabled : bool;
  lb_group_commit_enabled : bool;
}.

Module LocalWal.

Definition new : LocalWalBuffer := mkBuf [] [] 0 (16 * 1024 * 1024) true true.

(** [size_of::<WalOpType>()] is one byte; the limit only logs a warning. *)
Definition append_full_entry (e : TransactionWalEntry) (b : LocalWalBuffer) : LocalWalBuffer :=
  mkBuf (lb_entries b ++ [e]) (lb_intents b)
    (lb_buffered_bytes b + (Z.of_nat (length (we_payload e)) + 1 + 8)) (lb_max_buffer_bytes b)
    (lb_checksum_enabled b) (lb_group_commit_enabled b).

Definition append_intent (i : OutboxIntent) (b : LocalWalBuffer)
  : LocalWalBuffer * result unit WalError :=
  match validate_intent i with
  | Err e => (b, Err e)
  | Ok _ =>
      (mkBuf (lb_entries b) (lb_intents b ++ [i])
         (lb_buffered_bytes b + (4 + Z.of_nat (length (document_or_vector (oi_mutation i))) + 64))
         (lb_max_buffer_bytes b) (lb_checksum_enabled b) (lb_group_commit_enabled b), Ok tt)
  end.

Definition is_empty (b : LocalWalBuffer) : bool :=
  bool_decide (lb_entries b = []) && bool_decide (lb_intents b = []).

Definition clear (b : LocalWalBuffer) : LocalWalBuffer :=
  mkBuf [] [] 0 (lb_max_buffer_bytes b) (lb_checksum_enabled b) (lb_group_commit_enabled b).

(** [rebuild_derived_logs] of the context: errors of the appends are
    dropped. *)
Definition rebuild {Value} (j : MutationJournal Value) (b : LocalWalBuffer) : LocalWalBuffer :=
  fold_left (fun acc i => (append_intent i acc).1) (Journal.wal_intents j)
    (fold_left (fun acc e => append_full_entry e acc) (Journal.redo_entries j) (clear b)).

Lemma fold_entries es b :
  lb_entries (fold_left (fun acc e => append_full_entry e acc) es b) = lb_entries b ++ es /\
  lb_intents (fold_left (fun acc e => append_full_entry e acc) es b) = lb_intents b.
Proof.
  revert b. induction es as [|e es IH]; intros b; simpl; [by rewrite app_nil_r|].
  destruct (IH (append_full_entry e b)) as [-> ->]. simpl. by rewrite <- app_assoc.
Qed.

Lemma fold_intents ints b :
  lb_entries (fold_left (fun acc i => (append_intent i acc).1) ints b) = lb_entries b /\
  lb_intents (fold_left (fun acc i => (append_intent i acc).1) ints b) =
    lb_intents b ++ base.filter (fun i => validate_intent i = Ok tt) ints.
Proof.
  revert b. induction ints as [|i ints IH]; intros b; simpl; [by rewrite app_nil_r|].
  destruct (IH (append_intent i b).1) as [-> ->]. unfold append_intent at 1 2.
  rewrite filter_cons. destruct (validate_intent i) as [[]|x]; simpl.
  - by rewrite <- app_assoc.
  - done.
Qed.

(** The rebuilt buffer mirrors the journal. *)
Lemma rebuild_mirrors {Value} (j : MutationJournal Value) b :
  lb_entries (rebuild j b) = Journal.redo_entries j /\
  lb_intents (rebuild j b) =
    base.filter (fun i => validate_intent i = Ok tt) (Journal.wal_intents j).
Proof.
  unfold rebuild. set (b1 := fold_left _ (Journal.redo_entries j) _).
  destruct (fold_entries (Journal.redo_entries j) (clear b)) as [H1 H2]. fold b1 in H1, H2.
  destruct (fold_intents (Journal.wal_intents j) b1) as [-> ->]. by rewrite H1, H2.
Qed.

End LocalWal.
