(* ===== verification/Context.v ===== *)
(** * Transaction context

    [linkrs-transaction/src/context.rs] and [context/]: the state of one
    transaction.  The fields are grouped as the source groups their methods:
    the immutable part, lifecycle, snapshot, logs and budgets.  Cells and locks
    are plain fields, since each method is one atomic step here; a method reads
    the clock once, as its argument [now], and durations and instants share
    its unit.  The undo log's entry codec is the parameter of [UndoLog]. *)

From stdpp Require Import base gmap sets list strings.
From Stdlib Require Import ZArith Lia SpecFloat.
From S2P Require Import Prelude Types WriteSet Stats WalTypes Certifier UndoLog Journal.

(** [TransactionConfig]. *)
Record TransactionConfig := mkConfig {
  cfg_timeout : Z;
  cfg_durability : DurabilityLevel;
  cfg_isolation_level : IsolationLevel;
  cfg_query_timeout : option Z;
  cfg_statement_timeout : option Z;
  cfg_idle_timeout : option Z;
  cfg_auto_commit : bool;
  cfg_max_mutation_count : Z;
  cfg_max_undo_bytes : Z;
  cfg_budget_warning_threshold : spec_float;
  cfg_concurrency_mode : ConcurrencyMode;
  cfg_serializable_full_scan_threshold : option Z;
}.

(** [TransactionConfig::default]; durations in milliseconds, [0.8] as binary64. *)
Definition default_config : TransactionConfig :=
  mkConfig 30000 DSync RepeatableRead None None None false 100000 (128 * 1024 * 1024)
    (S754_finite false 7205759403792794 (-53)) Optimistic (Some 10000).

(** [TransactionEvent]. *)
Inductive TransactionEvent :=
| EvCommitted (txn_id : TransactionId) (write_timestamp commit_timestamp : Timestamp)
    (write_set : WriteSet) (schema_catalog_version : Z) (replayed : bool)
| EvAborted (txn_id : TransactionId) (write_timestamp : Timestamp)
| EvDurableUnfinalized (txn_id : TransactionId) (write_timestamp : Timestamp)
    (commit_lsn : CommitLsn)
| EvBudgetWarning (txn_id : TransactionId) (resource : string) (current limit : Z).

(** [SavepointInfo], without its creation instant (never read). *)
Record SavepointInfo := mkSavepoint {
  sp_id : Z;
  sp_name : option string;
  sp_sequence : Z;
  sp_undo_log_index : Z;
  sp_sync_sequence : Z;
  sp_write_set : WriteSet;
  sp_read_set : WriteSet;
  sp_modified_tables : list string;
  sp_journal_len : Z;
  sp_journal_next_sequence : Z;
  sp_staged_write_mark : option StagedWriteMark;
}.

(** [SavepointParams]. *)
Record SavepointParams := mkParams {
  pa_name : option string;
  pa_undo_log_index : Z;
  pa_sync_sequence : Z;
  pa_write_set : WriteSet;
  pa_read_set : WriteSet;
  pa_modified_tables : list string;
  pa_journal_len : Z;
  pa_journal_next_sequence : Z;
}.

Record SavepointManager := mkSpm {
  savepoints : gmap Z SavepointInfo;
  next_id : Z;
  sp_next_sequence : Z;
}.

Module Savepoints.

Definition new : SavepointManager := mkSpm ∅ 1 1.

Definition create_savepoint (p : SavepointParams) (m : SavepointManager)
  : SavepointManager * Z :=
  let id := next_id m in
  let sequence := sp_next_sequence m in
  let info := mkSavepoint id (pa_name p) sequence (pa_undo_log_index p) (pa_sync_sequence p)
    (pa_write_set p) (pa_read_set p) (pa_modified_tables p) (pa_journal_len p)
    (pa_journal_next_sequence p) None in
  (mkSpm (<[id := info]> (savepoints m)) (id + 1) (sequence + 1), id).

Definition set_mark (mark : option StagedWriteMark) (s : SavepointInfo) : SavepointInfo :=
  mkSavepoint (sp_id s) (sp_name s) (sp_sequence s) (sp_undo_log_index s) (sp_sync_sequence s)
    (sp_write_set s) (sp_read_set s) (sp_modified_tables s) (sp_journal_len s)
    (sp_journal_next_sequence s) mark.

Definition set_staging_mark (id : Z) (mark : option StagedWriteMark) (m : SavepointManager)
  : SavepointManager * result unit TransactionError :=
  match savepoints m !! id with
  | None => (m, Err (SavepointNotFound id))
  | Some s =>
      (mkSpm (<[id := set_mark mark s]> (savepoints m)) (next_id m) (sp_next_sequence m), Ok tt)
  end.

Definition get_savepoint (id : Z) (m : SavepointManager) : option SavepointInfo :=
  savepoints m !! id.

Definition remove_savepoint (id : Z) (m : SavepointManager)
  : SavepointManager * option SavepointInfo :=
  (mkSpm (delete id (savepoints m)) (next_id m) (sp_next_sequence m), savepoints m !! id).

Definition clear (m : SavepointManager) : SavepointManager :=
  mkSpm ∅ (next_id m) (sp_next_sequence m).

(** [max_by_key]: the last of the maximal elements. *)
Fixpoint max_by_sequence (l : list SavepointInfo) : option SavepointInfo :=
  match l with
  | [] => None
  | s :: rest =>
      match max_by_sequence rest with
      | Some b => if decide (sp_sequence s > sp_sequence b) then Some s else Some b
      | None => Some s
      end
  end.

Definition find_by_name (name : string) (m : SavepointManager) : option SavepointInfo :=
  max_by_sequence
    (base.filter (fun s => sp_name s = Some name) (map_to_list (savepoints m)).*2).

(** The savepoints that a rollback to sequence [seq] keeps. *)
Definition retain_upto (seq : Z) (m : SavepointManager) : SavepointManager :=
  mkSpm (base.filter (fun e => ~ sp_sequence e.2 > seq) (savepoints m)) (next_id m)
    (sp_next_sequence m).

End Savepoints.

(** ** State *)

(** The immutable fields. *)
Record CtxConst := mkConst {
  id : TransactionId;
  txn_type : TransactionType;
  start_timestamp : Timestamp;
  start_time : Z;
  timeout : Z;
  read_only : bool;
  auto_commit : bool;
  isolation_level : IsolationLevel;
  query_timeout : option Z;
  statement_timeout : option Z;
  idle_timeout : option Z;
  durability : DurabilityLevel;
  max_mutation_count : Z;
  max_undo_bytes : Z;
  budget_warning_threshold : spec_float;
  concurrency_mode : ConcurrencyMode;
  serializable_full_scan_threshold : option Z;
}.

(** Lifecycle ([lifecycle.rs], commit metadata of [budget.rs]). *)
Record CtxLife := mkLife {
  state : TransactionState;
  commit_timestamp : Timestamp;
  last_activity : Z;
  statement_start : Z;
  query_count : Z;
  rollback_only : bool;
  resources_released : bool;
  commit_published : bool;
  commit_lsn : CommitLsn;
  owner : option string;
  pessimistic_lock_held : bool;
}.

(** Snapshot ([snapshot.rs]). *)
Record CtxSnap := mkSnap {
  refreshed_read_ts : option Timestamp;
  statement_snapshot_pin : option Timestamp;
  ssi_state : SsiState;
}.

(** Logs and sets ([savepoint.rs], [journal.rs], [certification.rs]). *)
Record CtxLogs (Value : Type) := mkLogs {
  modified_tables : list string;
  savepoint_manager : SavepointManager;
  undo_logs : FileBackedUndoLog Value;
  write_set : WriteSet;
  read_set : WriteSet;
  local_wal : LocalWalBuffer;
  write_validated : bool;
  mutation_journal : MutationJournal Value;
}.
Arguments mkLogs {Value}.
Arguments modified_tables {Value}.
Arguments savepoint_manager {Value}.
Arguments undo_logs {Value}.
Arguments write_set {Value}.
Arguments read_set {Value}.
Arguments local_wal {Value}.
Arguments write_validated {Value}.
Arguments mutation_journal {Value}.

(** Budgets ([budget.rs]). *)
Record CtxBudget := mkBudget {
  staged_bytes : Z;
  mutation_count : Z;
  undo_bytes : Z;
  mutation_warning_emitted : bool;
  undo_warning_emitted : bool;
  budget_warnings : list TransactionEvent;
  schema_catalog_version : Z;
}.

Record TransactionContext (Value : Type) := mkCtx {
  x_const : CtxConst;
  x_life : CtxLife;
  x_snap : CtxSnap;
  x_logs : CtxLogs Value;
  x_budget : CtxBudget;
}.
Arguments mkCtx {Value}.
Arguments x_const {Value}.
Arguments x_life {Value}.
Arguments x_snap {Value}.
Arguments x_logs {Value}.
Arguments x_budget {Value}.

(** [Instant::elapsed]. *)
Definition elapsed (now t : Z) : Z := Z.max (now - t) 0.

Module Ctx.
Section context.
Context {Value : Type}.
Abbreviation context := (TransactionContext Value).
Implicit Types c : context.

Definition new_const (i : TransactionId) (t : TransactionType) (ro : bool) (start : Timestamp)
    (now : Z) (cfg : TransactionConfig) : CtxConst :=
  mkConst i t start now (cfg_timeout cfg) ro (cfg_auto_commit cfg) (cfg_isolation_level cfg)
    (cfg_query_timeout cfg) (cfg_statement_timeout cfg) (cfg_idle_timeout cfg)
    (cfg_durability cfg) (cfg_max_mutation_count cfg) (cfg_max_undo_bytes cfg)
    (cfg_budget_warning_threshold cfg) (cfg_concurrency_mode cfg)
    (cfg_serializable_full_scan_threshold cfg).

Definition fresh (k : CtxConst) (now : Z) : context :=
  mkCtx k (mkLife Active 0 now now 0 false false false 0 None false) (mkSnap None None Ssi.new)
    (mkLogs [] Savepoints.new (UndoLog.new UndoLog.default_threshold) Ws.new Ws.new LocalWal.new
       false Journal.new)
    (mkBudget 0 0 0 false false [] 0).

Definition new (i : TransactionId) (start : Timestamp) (now : Z) (cfg : TransactionConfig)
  : context := fresh (new_const i TWrite false start now cfg) now.

Definition new_readonly (i : TransactionId) (start : Timestamp) (now : Z)
    (cfg : TransactionConfig) : context := fresh (new_const i TReadOnly true start now cfg) now.

Definition new_checkpoint (i : TransactionId) (start : Timestamp) (now : Z)
    (cfg : TransactionConfig) : context := fresh (new_const i TCheckpoint false start now cfg) now.

Definition new_recovery (i : TransactionId) (start : Timestamp) (now : Z)
    (cfg : TransactionConfig) : context := fresh (new_const i TRecovery false start now cfg) now.

Definition new_dummy (i : TransactionId) (start : Timestamp) (now : Z)
    (cfg : TransactionConfig) : context := fresh (new_const i TDummy false start now cfg) now.

(** Update of one group. *)
Definition on_life (f : CtxLife -> CtxLife) c : context :=
  mkCtx (x_const c) (f (x_life c)) (x_snap c) (x_logs c) (x_budget c).

Definition on_snap (f : CtxSnap -> CtxSnap) c : context :=
  mkCtx (x_const c) (x_life c) (f (x_snap c)) (x_logs c) (x_budget c).

Definition on_logs (f : CtxLogs Value -> CtxLogs Value) c : context :=
  mkCtx (x_const c) (x_life c) (x_snap c) (f (x_logs c)) (x_budget c).

Definition on_budget (f : CtxBudget -> CtxBudget) c : context :=
  mkCtx (x_const c) (x_life c) (x_snap c) (x_logs c) (f (x_budget c)).

(** ** Lifecycle *)

Definition set_state (s : TransactionState) : context -> context :=
  on_life (fun l => mkLife s (commit_timestamp l) (last_activity l) (statement_start l)
    (query_count l) (rollback_only l) (resources_released l) (commit_published l) (commit_lsn l)
    (owner l) (pessimistic_lock_held l)).

Definition set_commit_timestamp (ts : Timestamp) : context -> context :=
  on_life (fun l => mkLife (state l) ts (last_activity l) (statement_start l)
    (query_count l) (rollback_only l) (resources_released l) (commit_published l) (commit_lsn l)
    (owner l) (pessimistic_lock_held l)).

Definition set_clocks (activity start : Z) : context -> context :=
  on_life (fun l => mkLife (state l) (commit_timestamp l) activity start
    (query_count l) (rollback_only l) (resources_released l) (commit_published l) (commit_lsn l)
    (owner l) (pessimistic_lock_held l)).

Definition set_query_count (n : Z) : context -> context :=
  on_life (fun l => mkLife (state l) (commit_timestamp l) (last_activity l) (statement_start l)
    n (rollback_only l) (resources_released l) (commit_published l) (commit_lsn l)
    (owner l) (pessimistic_lock_held l)).

Definition set_flags (ro released : bool) : context -> context :=
  on_life (fun l => mkLife (state l) (commit_timestamp l) (last_activity l) (statement_start l)
    (query_count l) ro released (commit_published l) (commit_lsn l)
    (owner l) (pessimistic_lock_held l)).

Definition is_expired (now : Z) c : bool :=
  bool_decide (elapsed now (start_time (x_const c)) > timeout (x_const c)).

Definition is_query_timeout (now : Z) c : bool :=
  match query_timeout (x_const c) with
  | Some t => bool_decide (elapsed now (statement_start (x_life c)) > t)
  | None => false
  end.

Definition is_statement_timeout (now start : Z) c : bool :=
  match statement_timeout (x_const c) with
  | Some t => bool_decide (elapsed now start > t)
  | None => false
  end.

Definition is_idle_timeout (now : Z) c : bool :=
  match idle_timeout (x_const c) with
  | Some t => bool_decide (elapsed now (last_activity (x_life c)) > t)
  | None => false
  end.

Definition check_timeouts (now : Z) c : result unit TransactionError :=
  if is_expired now c then Err TransactionTimeout
  else if is_idle_timeout now c then Err TransactionTimeout
  else Ok tt.

Definition update_activity (now : Z) c : context :=
  set_clocks now (statement_start (x_life c)) c.

Definition mark_rollback_only c : context :=
  set_flags true (resources_released (x_life c)) c.

Definition can_execute (now : Z) c : result unit TransactionError :=
  let s := state (x_life c) in
  if negb (can_execute_state s) then Err (InvalidStateForExecution s)
  else if rollback_only (x_life c) then Err (InvalidStateForExecution s)
  else if is_expired now c then Err TransactionExpired
  else Ok tt.

Definition validate_write_allowed c : result unit TransactionError :=
  if read_only (x_const c) then Err ReadOnlyTransaction else Ok tt.

Definition begin_statement (now : Z) c : context * result Z TransactionError :=
  match can_execute now c with
  | Err e => (c, Err e)
  | Ok _ =>
      match check_timeouts now c with
      | Err e => (c, Err e)
      | Ok _ =>
          let c1 := set_clocks (last_activity (x_life c)) now c in
          (set_query_count (wrap_u64 (query_count (x_life c1) + 1)) c1, Ok now)
      end
  end.

Definition finish_statement (now start : Z) c : context * result unit TransactionError :=
  let query_timed_out :=
    match query_timeout (x_const c) with
    | Some t => bool_decide (elapsed now start > t)
    | None => false
    end in
  let statement_timed_out := is_statement_timeout now start c in
  let c1 := set_clocks now now c in
  if query_timed_out || statement_timed_out
  then (mark_rollback_only c1, Err TransactionTimeout)
  else (c1, Ok tt).

Definition set_owner (o : string) : context -> context :=
  on_life (fun l => mkLife (state l) (commit_timestamp l) (last_activity l) (statement_start l)
    (query_count l) (rollback_only l) (resources_released l) (commit_published l) (commit_lsn l)
    (Some o) (pessimistic_lock_held l)).

Definition owner_matches (o : option string) c : bool :=
  match owner (x_life c), o with
  | None, _ => true
  | Some expected, Some actual => bool_decide (expected = actual)
  | Some _, None => false
  end.

(** [compare_exchange(false, true)]: whether this call claimed the release. *)
Definition mark_resources_released c : context * bool :=
  if resources_released (x_life c) then (c, false)
  else (set_flags (rollback_only (x_life c)) true c, true).

Definition remaining_time (now : Z) c : Z :=
  let e := elapsed now (start_time (x_const c)) in
  if decide (e >= timeout (x_const c)) then 0 else timeout (x_const c) - e.

Definition valid_transition (from to : TransactionState) : bool :=
  match from, to with
  | Active, (Committing | Aborting) => true
  | Committing, (Committed | Aborting | Aborted) => true
  | Aborting, Aborted => true
  | _, _ => false
  end.

(** The compare-and-swap loop, as one atomic step. *)
Definition transition_to (s : TransactionState) c : context * result unit TransactionError :=
  let current := state (x_life c) in
  if valid_transition current s then (set_state s c, Ok tt)
  else (c, Err (InvalidStateTransition current s)).

Definition mark_commit_published (lsn : CommitLsn) : context -> context :=
  on_life (fun l => mkLife (state l) (commit_timestamp l) (last_activity l) (statement_start l)
    (query_count l) (rollback_only l) (resources_released l) true lsn
    (owner l) (pessimistic_lock_held l)).

Definition set_pessimistic_lock (b : bool) : context -> context :=
  on_life (fun l => mkLife (state l) (commit_timestamp l) (last_activity l) (statement_start l)
    (query_count l) (rollback_only l) (resources_released l) (commit_published l) (commit_lsn l)
    (owner l) b).

(** ** Snapshot *)

Definition effective_read_timestamp c : Timestamp :=
  match refreshed_read_ts (x_snap c) with
  | Some r => Z.max r (start_timestamp (x_const c))
  | None => start_timestamp (x_const c)
  end.

Definition set_refreshed_read_ts (ts : Timestamp) : context -> context :=
  on_snap (fun s => mkSnap (Some ts) (statement_snapshot_pin s) (ssi_state s)).

(** The new pin and the one replaced. *)
Definition set_statement_snapshot_pin (ts : Timestamp) c : context * option Timestamp :=
  (on_snap (fun s => mkSnap (refreshed_read_ts s) (Some ts) (ssi_state s)) c,
   statement_snapshot_pin (x_snap c)).

Definition take_statement_snapshot_pin c : context * option Timestamp :=
  (on_snap (fun s => mkSnap (refreshed_read_ts s) None (ssi_state s)) c,
   statement_snapshot_pin (x_snap c)).

Definition record_ssi_read (r : ResourceId) : context -> context :=
  on_snap (fun s => mkSnap (refreshed_read_ts s) (statement_snapshot_pin s)
    (Ssi.record_read r (ssi_state s))).

Definition record_ssi_write (r : ResourceId) : context -> context :=
  on_snap (fun s => mkSnap (refreshed_read_ts s) (statement_snapshot_pin s)
    (Ssi.record_write r (ssi_state s))).

Definition clear_ssi_state : context -> context :=
  on_snap (fun s => mkSnap (refreshed_read_ts s) (statement_snapshot_pin s) Ssi.new).

(** ** Read and write sets *)

Definition set_sets (ws rs : WriteSet) (validated : bool) : context -> context :=
  on_logs (fun l => mkLogs (modified_tables l) (savepoint_manager l) (undo_logs l) ws rs
    (local_wal l) validated (mutation_journal l)).

Definition on_write_set (f : WriteSet -> WriteSet) c : context :=
  set_sets (f (write_set (x_logs c))) (read_set (x_logs c)) (write_validated (x_logs c)) c.

Definition on_read_set (f : WriteSet -> WriteSet) c : context :=
  set_sets (write_set (x_logs c)) (f (read_set (x_logs c))) (write_validated (x_logs c)) c.

Definition mark_write_validated c : context :=
  set_sets (write_set (x_logs c)) (read_set (x_logs c)) true c.

Definition clear_write_validation c : context :=
  set_sets (write_set (x_logs c)) (read_set (x_logs c)) false c.

Definition has_write_conflict_with c (other : context) : bool :=
  Ws.has_conflict_with (write_set (x_logs c)) (write_set (x_logs other)).

Definition record_vertex_read (v : VertexId) : context -> context := on_read_set (Ws.record_vertex v).

Definition record_edge_read (e : EdgeIdentifier) : context -> context :=
  on_read_set (Ws.record_edge e).

Definition record_schema_read (r : string) : context -> context :=
  on_read_set (Ws.record_schema_resource r).

Definition record_index_read (r : string) : context -> context :=
  on_read_set (Ws.record_index_resource r).

Definition record_read_range (r : ReadRange) : context -> context :=
  on_read_set (Ws.record_read_range r).

Definition record_vertex_write (v : VertexId) : context -> context :=
  on_write_set (Ws.record_vertex v).

Definition record_vertex_delete (v : VertexId) : context -> context :=
  on_write_set (Ws.record_vertex_delete v).

Definition record_edge_write (e : EdgeIdentifier) : context -> context :=
  on_write_set (Ws.record_edge e).

Definition record_schema_write (r : string) : context -> context :=
  on_write_set (Ws.record_schema_resource r).

Definition record_index_write (r : string) : context -> context :=
  on_write_set (Ws.record_index_resource r).

Definition restore_write_set (w : WriteSet) c : context := set_sets w (read_set (x_logs c)) false c.

Definition restore_read_set (r : WriteSet) c : context :=
  set_sets (write_set (x_logs c)) r (write_validated (x_logs c)) c.

(** ** Budgets *)

Definition drain_budget_warnings c : context * list TransactionEvent :=
  (on_budget (fun b => mkBudget (staged_bytes b) (mutation_count b) (undo_bytes b)
     (mutation_warning_emitted b) (undo_warning_emitted b) [] (schema_catalog_version b)) c,
   budget_warnings (x_budget c)).

Definition add_staged_bytes (n : Z) : context -> context :=
  on_budget (fun b => mkBudget (wrap_u64 (staged_bytes b + n)) (mutation_count b) (undo_bytes b)
    (mutation_warning_emitted b) (undo_warning_emitted b) (budget_warnings b)
    (schema_catalog_version b)).

Definition bump_schema_catalog_version c : context * Z :=
  let v := wrap_u64 (schema_catalog_version (x_budget c) + 1) in
  (on_budget (fun b => mkBudget (staged_bytes b) (mutation_count b) (undo_bytes b)
     (mutation_warning_emitted b) (undo_warning_emitted b) (budget_warnings b) v) c, v).

Definition set_counts (mutations undo : Z) : context -> context :=
  on_budget (fun b => mkBudget (staged_bytes b) mutations undo
    (mutation_warning_emitted b) (undo_warning_emitted b) (budget_warnings b)
    (schema_catalog_version b)).

(** The warning test: [threshold > 0.0 && max > 0 && !emitted &&
    count as f64 >= max as f64 * threshold]. *)
Definition warns (threshold : spec_float) (max count : Z) (emitted : bool) : bool :=
  SFltb (f64_of_Z 0) threshold && bool_decide (max > 0) && negb emitted &&
  SFleb (f64_mul (f64_of_Z max) threshold) (f64_of_Z count).

(** ** Logs *)

Definition set_tables (t : list string) : context -> context :=
  on_logs (fun l => mkLogs t (savepoint_manager l) (undo_logs l) (write_set l) (read_set l)
    (local_wal l) (write_validated l) (mutation_journal l)).

Definition set_savepoints (m : SavepointManager) : context -> context :=
  on_logs (fun l => mkLogs (modified_tables l) m (undo_logs l) (write_set l) (read_set l)
    (local_wal l) (write_validated l) (mutation_journal l)).

Definition set_undo (u : FileBackedUndoLog Value) : context -> context :=
  on_logs (fun l => mkLogs (modified_tables l) (savepoint_manager l) u (write_set l) (read_set l)
    (local_wal l) (write_validated l) (mutation_journal l)).

Definition set_local_wal (w : LocalWalBuffer) : context -> context :=
  on_logs (fun l => mkLogs (modified_tables l) (savepoint_manager l) (undo_logs l) (write_set l)
    (read_set l) w (write_validated l) (mutation_journal l)).

Definition set_journal (j : MutationJournal Value) : context -> context :=
  on_logs (fun l => mkLogs (modified_tables l) (savepoint_manager l) (undo_logs l) (write_set l)
    (read_set l) (local_wal l) (write_validated l) j).

Definition record_table_modification (t : string) c : context :=
  if bool_decide (t ∈ modified_tables (x_logs c)) then c
  else set_tables (modified_tables (x_logs c) ++ [t]) c.

Definition redo_log_len c : Z := Journal.total_redo_entries (mutation_journal (x_logs c)).

Definition materialize_redo c : list TransactionWalEntry :=
  Journal.redo_entries (mutation_journal (x_logs c)).

Definition materialize_wal_intents c : list OutboxIntent :=
  Journal.wal_intents (mutation_journal (x_logs c)).

Definition rebuild_derived_logs c : context :=
  set_local_wal (LocalWal.rebuild (mutation_journal (x_logs c)) (local_wal (x_logs c))) c.

Definition clear_derived_wal c : context :=
  set_local_wal (LocalWal.clear (local_wal (x_logs c))) c.

Definition publish_commit_timestamp (ts : Timestamp) c : context :=
  set_journal (Journal.publish_commit_timestamp ts (mutation_journal (x_logs c))) c.

(** ** Undo log *)

Section undo.
Context (to_stdvec : UndoLogEntry Value -> option (list Z)).
Context (from_bytes : list Z -> option (UndoLogEntry Value)).

Definition undo_log_len c : Z := UndoLog.len (undo_logs (x_logs c)).

Definition add_undo_log (io : IoEnv) (e : UndoLogEntry Value) c
  : context * result unit TransactionError :=
  let '(u, r) := UndoLog.add to_stdvec io e (undo_logs (x_logs c)) in
  (set_undo u c, map_err (fun _ => InternalError) r).

Definition clear_undo_logs (io : IoEnv) c : context * result unit TransactionError :=
  let '(u, r) := UndoLog.clear io (undo_logs (x_logs c)) in
  (set_undo u c, map_err (fun _ => InternalError) r).

(** ** Recording a mutation *)

(** The resource of the journal record. *)
Definition classify (m : MutationResult Value) : MutationResource :=
  if decide (mu_resource m <> MUnknown) then mu_resource m
  else match mu_modified_table m with
       | Some t => from_modified_table (Some t)
       | None =>
           match mu_redo_entry m with
           | Some e => from_wal_op (we_op_type e)
           | None => if decide (mu_index_intents m <> []) then MSyncIntent else MUnknown
           end
       end.

(** Count the mutation against its budget. *)
Definition charge_mutation : ST context TransactionError unit :=
  let! c := st_get in
  let k := x_const c in
  let new_count := wrap_u64 (mutation_count (x_budget c) + 1) in
  do! st_modify (set_counts new_count (undo_bytes (x_budget c))) in
  if decide (max_mutation_count k > 0 /\ new_count > max_mutation_count k)
  then st_err (TransactionBudgetExceeded new_count (max_mutation_count k))
  else if warns (budget_warning_threshold k) (max_mutation_count k) new_count
            (mutation_warning_emitted (x_budget c))
  then st_modify (on_budget (fun b => mkBudget (staged_bytes b) (mutation_count b) (undo_bytes b)
         true (undo_warning_emitted b)
         (budget_warnings b ++
            [EvBudgetWarning (id k) "mutation count" new_count (max_mutation_count k)])
         (schema_catalog_version b)))
  else st_ret tt.

(** Charge 64 estimated bytes of undo. *)
Definition charge_undo : ST context TransactionError unit :=
  let! c := st_get in
  let k := x_const c in
  let undo_estimate := wrap_u64 (undo_bytes (x_budget c) + 64) in
  do! st_modify (set_counts (mutation_count (x_budget c)) undo_estimate) in
  if decide (max_undo_bytes k > 0 /\ undo_estimate > max_undo_bytes k)
  then st_err (TransactionBudgetExceeded undo_estimate (max_undo_bytes k))
  else if warns (budget_warning_threshold k) (max_undo_bytes k) undo_estimate
            (undo_warning_emitted (x_budget c))
  then st_modify (on_budget (fun b => mkBudget (staged_bytes b) (mutation_count b) (undo_bytes b)
         (mutation_warning_emitted b) true
         (budget_warnings b ++
            [EvBudgetWarning (id k) "undo bytes" undo_estimate (max_undo_bytes k)])
         (schema_catalog_version b)))
  else st_ret tt.

(** Append the journal record. *)
Definition append_record (m : MutationResult Value) c : context :=
  let j := mutation_journal (x_logs c) in
  let redo := (fun e => mkWalEntry (we_op_type e) (we_timestamp e) (we_payload e)
                 (Some (id (x_const c))) (Some (j_next_sequence j))) <$> mu_redo_entry m in
  let r := mkRec (Journal.len j) (id (x_const c)) (mu_entity_keys m) (classify m)
    (mu_undo_entry m) redo (mu_index_intents m) (mu_modified_table m)
    (start_timestamp (x_const c)) None in
  set_journal (Journal.push r j).1 c.

Definition record_key (k : MutationEntityKey) : context -> context :=
  match k with
  | KeyVertex v => record_vertex_write v
  | KeyEdge e => record_edge_write e
  end.

(** Write-set entries that follow from the record. *)
Definition record_footprint (m : MutationResult Value) c : context :=
  let resource := classify m in
  let c1 := fold_left (fun acc k => record_key k acc) (mu_entity_keys m) c in
  let c2 := if decide (resource = MSchema)
            then record_schema_write (default "schema"%string (mu_modified_table m)) c1 else c1 in
  if decide (resource = MIndex \/ resource = MSyncIntent)
  then fold_left (fun acc i => record_index_write (ordering_key (oi_mutation i)) acc)
         (mu_index_intents m) c2
  else c2.

Definition record_mutation (now : Z) (io : IoEnv) (m : MutationResult Value)
  : ST context TransactionError unit :=
  let! c := st_get in
  do! st_lift (can_execute now c) in
  do! st_lift (validate_write_allowed c) in
  do! charge_mutation in
  do! charge_undo in
  do! st_modify (append_record m) in
  do! st_modify (record_footprint m) in
  do! (match mu_undo_entry m with
       | Some e => add_undo_log io e
       | None => st_ret tt
       end) in
  do! (match mu_modified_table m with
       | Some t => st_modify (record_table_modification t)
       | None => st_ret tt
       end) in
  st_modify clear_write_validation.

(** ** Savepoints *)

Definition create_savepoint (name : option string) (sync_sequence : Z) c : context * Z :=
  let j := mutation_journal (x_logs c) in
  let p := mkParams name (undo_log_len c) sync_sequence (write_set (x_logs c))
    (read_set (x_logs c)) (modified_tables (x_logs c)) (Journal.len j) (j_next_sequence j) in
  let '(m, i) := Savepoints.create_savepoint p (savepoint_manager (x_logs c)) in
  (set_savepoints m c, i).

Definition set_savepoint_staging_mark (i : Z) (mark : option StagedWriteMark) c
  : context * result unit TransactionError :=
  let '(m, r) := Savepoints.set_staging_mark i mark (savepoint_manager (x_logs c)) in
  (set_savepoints m c, r).

Definition get_savepoint (i : Z) c : option SavepointInfo :=
  Savepoints.get_savepoint i (savepoint_manager (x_logs c)).

Definition get_all_savepoints c : list SavepointInfo :=
  (map_to_list (savepoints (savepoint_manager (x_logs c)))).*2.

Definition find_savepoint_by_name (n : string) c : option SavepointInfo :=
  Savepoints.find_by_name n (savepoint_manager (x_logs c)).

Definition release_savepoint (i : Z) c : context * result unit TransactionError :=
  let '(m, r) := Savepoints.remove_savepoint i (savepoint_manager (x_logs c)) in
  (set_savepoints m c, match r with Some _ => Ok tt | None => Err (SavepointNotFound i) end).

Definition clear (io : IoEnv) c : context * result unit TransactionError :=
  match clear_undo_logs io c with
  | (c1, Err e) => (c1, Err e)
  | (c1, Ok _) =>
      let c2 := set_sets Ws.new (read_set (x_logs c1)) false c1 in
      let c3 := set_flags false false c2 in
      let c4 := on_budget (fun b => mkBudget 0 (mutation_count b) (undo_bytes b)
        (mutation_warning_emitted b) (undo_warning_emitted b) (budget_warnings b)
        (schema_catalog_version b)) c3 in
      let c5 := set_tables [] c4 in
      let c6 := set_savepoints (Savepoints.clear (savepoint_manager (x_logs c5))) c5 in
      let c7 := set_journal (Journal.truncate 0 (mutation_journal (x_logs c6))) c6 in
      let c8 := clear_derived_wal c7 in
      (set_counts 0 0 (restore_read_set Ws.new c8), Ok tt)
  end.

Section target.
Context {G : Type} `{UndoTarget Value G}.

(** [undo] on a target, with its error as [RollbackFailed]; [None] would be a
    loop that did not finish. *)
Definition execute_undo_logs (io : IoEnv) c (g : G)
  : context * G * option (result unit TransactionError) :=
  let '(u, g1, r) := UndoLog.execute_undo from_bytes io (start_timestamp (x_const c))
    (undo_logs (x_logs c)) g in
  (set_undo u c, g1, map_err (fun _ => RollbackFailed) <$> r).

Definition execute_undo_logs_from_index (io : IoEnv) (i : Z) c (g : G)
  : context * G * result unit TransactionError :=
  let '(u, g1, r) := UndoLog.execute_undo_from_index from_bytes io (start_timestamp (x_const c))
    i (undo_logs (x_logs c)) g in
  (set_undo u c, g1, map_err (fun _ => RollbackFailed) r).

(** The boundary a savepoint stands for. *)
Definition savepoint_position (s : SavepointInfo) : MutationJournalPosition :=
  mkPos (sp_journal_len s) (sp_journal_next_sequence s) (sp_undo_log_index s)
    (sp_modified_tables s) (sp_write_set s) (sp_read_set s) (sp_sync_sequence s) (sp_sequence s).

(** After the undo entries: restore the sets, the tables and the journal, and
    rebuild what derives from it. *)
Definition restore_savepoint (s : SavepointInfo) c : context * result unit TransactionError :=
  let c1 := restore_read_set (sp_read_set s) (restore_write_set (sp_write_set s) c) in
  let c2 := set_tables (sp_modified_tables s) c1 in
  let j := mutation_journal (x_logs c2) in
  if decide (sp_journal_len s > Journal.len j) then (c2, Err RollbackFailed)
  else
    let c3 := rebuild_derived_logs (set_journal (Journal.truncate (sp_journal_len s) j) c2) in
    let n := Journal.len (mutation_journal (x_logs c3)) in
    (set_counts n (wrap_u64 (n * 64)) c3, Ok tt).

Definition rollback_to_savepoint (now : Z) (io : IoEnv) (i : Z) c (g : G)
  : context * G * result unit TransactionError :=
  let st := state (x_life c) in
  if negb (can_execute_state st) then (c, g, Err (InvalidStateForAbort st))
  else if is_expired now c then (c, g, Err TransactionExpired)
  else
    match get_savepoint i c with
    | None => (c, g, Err (SavepointNotFound i))
    | Some s =>
        match validate_against (savepoint_position s) (mutation_journal (x_logs c)) with
        | Err _ => (c, g, Err RollbackFailed)
        | Ok _ =>
            let c1 := set_savepoints
              (Savepoints.retain_upto (sp_sequence s) (savepoint_manager (x_logs c))) c in
            match execute_undo_logs_from_index io (sp_undo_log_index s) c1 g with
            | (c2, g2, Err _) => (c2, g2, Err RollbackFailed)
            | (c2, g2, Ok _) =>
                match
                  match sp_staged_write_mark s with
                  | Some mark => rollback_staged_writes (id (x_const c)) mark g2
                  | None => (g2, Ok tt)
                  end
                with
                | (g3, Err _) => (c2, g3, Err RollbackFailed)
                | (g3, Ok _) => let '(c3, r) := restore_savepoint s c2 in (c3, g3, r)
                end
            end
        end
    end.

End target.
End undo.
End context.
End Ctx.

(** ** The certifier's view of a context *)

#[export] Instance ctx_cert {Value} : CertContext (TransactionContext Value) := {|
  cc_read_only c := read_only (x_const c);
  cc_write_validated c := write_validated (x_logs c);
  cc_write_set c := write_set (x_logs c);
  cc_read_set c := read_set (x_logs c);
  cc_start_timestamp c := start_timestamp (x_const c);
  cc_isolation_level c := isolation_level (x_const c);
  cc_concurrency_mode c := concurrency_mode (x_const c);
  cc_full_scan_threshold c := serializable_full_scan_threshold (x_const c);
  cc_ssi_read_resources c := read_resources (ssi_state (x_snap c));
  cc_mark_write_validated := Ctx.mark_write_validated;
|}.

#[export] Instance ctx_cert_laws {Value} : CertContextLaws (TransactionContext Value).
Proof. by split. Qed.
