(* ===== verification/ContextFacts.v ===== *)
(** * Facts about transaction contexts

    A context under any sequence of its operations: what a savepoint keeps and
    a rollback to it restores, what recording a mutation does, the budget, the
    lifecycle. *)

From stdpp Require Import base gmap sets list strings.
From Stdlib Require Import ZArith Lia SpecFloat.
From S2P Require Import Prelude Types WriteSet Stats WalTypes Certifier UndoLog Journal Context.

(** ** Operations *)

(** Recording methods of the read and write sets. *)
Inductive access :=
| AVertexRead (v : VertexId) | AEdgeRead (e : EdgeIdentifier) | ASchemaRead (r : string)
| AIndexRead (r : string) | ARange (r : ReadRange)
| AVertexWrite (v : VertexId) | AVertexDelete (v : VertexId) | AEdgeWrite (e : EdgeIdentifier)
| ASchemaWrite (r : string) | AIndexWrite (r : string).

(** The operations of a running transaction. *)
Inductive cop (Value : Type) :=
| CTransition (s : TransactionState)
| CBegin (now : Z) | CFinish (now start : Z)
| CRollbackOnly | COwner (o : string) | CReleased
| CRefresh (ts : Timestamp) | CPin (ts : Timestamp) | CUnpin
| CSsiRead (r : ResourceId) | CSsiWrite (r : ResourceId)
| CAccess (a : access) | CValidated
| CStaged (n : Z) | CBump | CDrain | CTable (t : string)
| CRebuild
| CUndo (io : IoEnv) (e : UndoLogEntry Value)
| CMutate (now : Z) (io : IoEnv) (m : MutationResult Value)
| CSavepoint (name : option string) (sync : Z)
| CMark (i : Z) (mark : option StagedWriteMark)
| CRelease (i : Z)
| CRollback (now : Z) (i : Z)
| CClear (io : IoEnv).
Arguments CTransition {Value}.
Arguments CBegin {Value}.
Arguments CFinish {Value}.
Arguments CRollbackOnly {Value}.
Arguments COwner {Value}.
Arguments CReleased {Value}.
Arguments CRefresh {Value}.
Arguments CPin {Value}.
Arguments CUnpin {Value}.
Arguments CSsiRead {Value}.
Arguments CSsiWrite {Value}.
Arguments CAccess {Value}.
Arguments CValidated {Value}.
Arguments CStaged {Value}.
Arguments CBump {Value}.
Arguments CDrain {Value}.
Arguments CTable {Value}.
Arguments CRebuild {Value}.
Arguments CUndo {Value}.
Arguments CMutate {Value}.
Arguments CSavepoint {Value}.
Arguments CMark {Value}.
Arguments CRelease {Value}.
Arguments CRollback {Value}.
Arguments CClear {Value}.

Module CtxFacts.
Import Ctx.

Section facts.
Context {Value : Type}.
Context (to_stdvec : UndoLogEntry Value -> option (list Z)).
Context (from_bytes : list Z -> option (UndoLogEntry Value)).
Context {G : Type} `{UndoTarget Value G}.
Abbreviation ctx := (TransactionContext Value).
Implicit Types (c : ctx) (g : G) (es : list (UndoLogEntry Value)).

Definition run_access (a : access) : ctx -> ctx :=
  match a with
  | AVertexRead v => record_vertex_read v | AEdgeRead e => record_edge_read e
  | ASchemaRead r => record_schema_read r | AIndexRead r => record_index_read r
  | ARange r => record_read_range r
  | AVertexWrite v => record_vertex_write v | AVertexDelete v => record_vertex_delete v
  | AEdgeWrite e => record_edge_write e
  | ASchemaWrite r => record_schema_write r | AIndexWrite r => record_index_write r
  end.

(** The context after an operation, and the undo target. *)
Definition run_op (o : cop Value) (cg : ctx * G) : ctx * G :=
  let '(c, g) := cg in
  match o with
  | CTransition s => ((transition_to s c).1, g)
  | CBegin now => ((begin_statement now c).1, g)
  | CFinish now start => ((finish_statement now start c).1, g)
  | CRollbackOnly => (mark_rollback_only c, g)
  | COwner o => (set_owner o c, g)
  | CReleased => ((mark_resources_released c).1, g)
  | CRefresh ts => (set_refreshed_read_ts ts c, g)
  | CPin ts => ((set_statement_snapshot_pin ts c).1, g)
  | CUnpin => ((take_statement_snapshot_pin c).1, g)
  | CSsiRead r => (record_ssi_read r c, g)
  | CSsiWrite r => (record_ssi_write r c, g)
  | CAccess a => (run_access a c, g)
  | CValidated => (mark_write_validated c, g)
  | CStaged n => (add_staged_bytes n c, g)
  | CBump => ((bump_schema_catalog_version c).1, g)
  | CDrain => ((drain_budget_warnings c).1, g)
  | CTable t => (record_table_modification t c, g)
  | CRebuild => (rebuild_derived_logs c, g)
  | CUndo io e => ((add_undo_log to_stdvec io e c).1, g)
  | CMutate now io m => ((record_mutation to_stdvec now io m c).1, g)
  | CSavepoint name sync => ((create_savepoint name sync c).1, g)
  | CMark i mark => ((set_savepoint_staging_mark i mark c).1, g)
  | CRelease i => ((release_savepoint i c).1, g)
  | CRollback now i => (rollback_to_savepoint from_bytes now io_ok i c g).1
  | CClear io => ((clear io c).1, g)
  end.

Fixpoint run_ops (ops : list (cop Value)) (cg : ctx * G) : ctx * G :=
  match ops with
  | [] => cg
  | o :: rest => run_ops rest (run_op o cg)
  end.

(** A spill that fails in the middle of a write can be truncated away. *)
Definition op_ok (o : cop Value) : Prop :=
  match o with
  | CUndo io _ | CMutate _ io _ => io_write io = None \/ io_set_len io = true
  | _ => True
  end.

(** ** Invariant *)

Definition journal_of c := mutation_journal (x_logs c).
Definition mgr_of c := savepoint_manager (x_logs c).
Definition live c (i : Z) (s : SavepointInfo) : Prop := savepoints (mgr_of c) !! i = Some s.

Record inv c es : Prop := {
  iv_journal : Journal.wf (journal_of c);
  iv_undo : UndoLog.log_refines to_stdvec (undo_logs (x_logs c)) es;
  iv_live : forall i s, live c i s ->
    i < next_id (mgr_of c) /\ sp_sequence s < sp_next_sequence (mgr_of c) /\
    sp_journal_next_sequence s = sp_journal_len s /\
    0 <= sp_journal_len s <= Journal.len (journal_of c) /\
    0 <= sp_undo_log_index s <= Z.of_nat (length es);
  iv_order : forall i s i' s', live c i s -> live c i' s' -> sp_sequence s <= sp_sequence s' ->
    sp_journal_len s <= sp_journal_len s' /\ sp_undo_log_index s <= sp_undo_log_index s';
  iv_ids : next_id (mgr_of c) = sp_next_sequence (mgr_of c) /\
    forall i s, live c i s -> sp_sequence s = i;
}.

(** Two views of one savepoint: equal but for the staging mark. *)
Definition same_sp (s s' : SavepointInfo) : Prop :=
  Savepoints.set_mark None s = Savepoints.set_mark None s'.

(** What a savepoint refers to is still there. *)
Definition kept (s : SavepointInfo) c es c' es' : Prop :=
  take (Z.to_nat (sp_journal_len s)) (j_records (journal_of c')) =
    take (Z.to_nat (sp_journal_len s)) (j_records (journal_of c)) /\
  sp_journal_len s <= Journal.len (journal_of c') /\
  take (Z.to_nat (sp_undo_log_index s)) es' = take (Z.to_nat (sp_undo_log_index s)) es /\
  sp_undo_log_index s <= Z.of_nat (length es').

Record keeps c es c' es' : Prop := {
  kp_journal : Journal.wf (journal_of c');
  kp_undo : UndoLog.log_refines to_stdvec (undo_logs (x_logs c')) es';
  kp_id : next_id (mgr_of c') = next_id (mgr_of c);
  kp_seq : sp_next_sequence (mgr_of c') = sp_next_sequence (mgr_of c);
  kp_live : forall i s', live c' i s' -> exists s, live c i s /\ same_sp s s' /\ kept s c es c' es';
}.

Lemma same_sp_fields s s' :
  same_sp s s' -> sp_journal_len s = sp_journal_len s' /\
  sp_undo_log_index s = sp_undo_log_index s' /\ sp_sequence s = sp_sequence s' /\
  sp_journal_next_sequence s = sp_journal_next_sequence s' /\
  sp_write_set s = sp_write_set s' /\ sp_read_set s = sp_read_set s' /\
  sp_modified_tables s = sp_modified_tables s'.
Proof. destruct s, s'. unfold same_sp, Savepoints.set_mark. simpl. intros [= ]. subst. done. Qed.

Lemma keeps_refl c es : inv c es -> keeps c es c es.
Proof.
  intros [Hj Hu Hl Ho Hid]. split; try done. intros i s Hs. exists s.
  destruct (Hl i s Hs) as (? & ? & ? & ? & ?). split; [done|]. split; [done|].
  unfold kept. repeat split; lia.
Qed.

Lemma keeps_inv c es c' es' : inv c es -> keeps c es c' es' -> inv c' es'.
Proof.
  intros [Hj Hu Hl Ho Hid] [Kj Ku Ki Ks Kl]. split; try done.
  - intros i s' Hs'. destruct (Kl i s' Hs') as (s & Hs & Hsame & _ & Hlen & _ & Hidx).
    destruct (Hl i s Hs) as (? & ? & ? & ? & ?).
    apply same_sp_fields in Hsame as (E1 & E2 & E3 & E4 & _).
    rewrite Ki, Ks, <- E1, <- E2, <- E3, <- E4. repeat split; lia.
  - intros i s' j t' Hs' Ht' Hle.
    destruct (Kl i s' Hs') as (s & Hs & (E1 & E2 & E3 & _)%same_sp_fields & _).
    destruct (Kl j t' Ht') as (t & Ht & (F1 & F2 & F3 & _)%same_sp_fields & _).
    rewrite <- E1, <- E2, <- F1, <- F2. eapply Ho; [done..|lia].
  - rewrite Ki, Ks. split; [apply Hid|]. intros i s' Hs'.
    destruct (Kl i s' Hs') as (s & Hs & (_ & _ & E3 & _)%same_sp_fields & _).
    rewrite <- E3. by apply Hid.
Qed.

Lemma keeps_trans c1 es1 c2 es2 c3 es3 :
  keeps c1 es1 c2 es2 -> keeps c2 es2 c3 es3 -> keeps c1 es1 c3 es3.
Proof.
  intros [Aj Au Ai As Al] [Bj Bu Bi Bs Bl]. split; try done; try congruence.
  intros i s3 H3. destruct (Bl i s3 H3) as (s2 & H2 & S2 & K2 & L2 & U2 & N2).
  destruct (Al i s2 H2) as (s1 & H1 & S1 & K1 & L1 & U1 & N1).
  exists s1. split; [done|]. pose proof (same_sp_fields _ _ S1) as (E1 & E2 & _).
  split; [unfold same_sp in *; congruence|]. rewrite <- E1, <- E2 in *.
  unfold kept. rewrite K2, U2. done.
Qed.

(** Appending to the journal and to the undo log. *)
Lemma keeps_extend c es c' es' :
  inv c es -> Journal.wf (journal_of c') ->
  UndoLog.log_refines to_stdvec (undo_logs (x_logs c')) es' ->
  mgr_of c' = mgr_of c ->
  j_records (journal_of c) `prefix_of` j_records (journal_of c') -> es `prefix_of` es' ->
  keeps c es c' es'.
Proof.
  intros [Hj Hu Hl Ho Hid] Kj Ku Km [tj Hpj] [tu Hpu].
  split; [done|done|by rewrite Km..|]. unfold live. rewrite Km.
  intros i s Hs. exists s. split; [done|]. split; [done|].
  destruct (Hl i s Hs) as (_ & _ & _ & Hlen & Hidx). unfold kept, Journal.len in *.
  rewrite Hpj, Hpu, !take_app_le, !length_app by lia. repeat split; lia.
Qed.

(** The three parts of the logs that savepoints depend on are unchanged. *)
Lemma keeps_frame c es c' :
  inv c es -> journal_of c' = journal_of c -> undo_logs (x_logs c') = undo_logs (x_logs c) ->
  mgr_of c' = mgr_of c -> keeps c es c' es.
Proof.
  intros Hinv Ej Eu Em. apply keeps_extend; rewrite ?Ej, ?Eu; try done; apply Hinv.
Qed.

(** A change of the savepoint table that only removes or re-marks. *)
Lemma keeps_table c es m :
  inv c es -> next_id m = next_id (mgr_of c) -> sp_next_sequence m = sp_next_sequence (mgr_of c) ->
  (forall i s', savepoints m !! i = Some s' -> exists s, live c i s /\ same_sp s s') ->
  keeps c es (set_savepoints m c) es.
Proof.
  intros [Hj Hu Hl Ho Hid] Ei Es Hm. split; try done. intros i s' Hs'.
  destruct (Hm i s' Hs') as (s & Hs & Hsame). exists s. split; [done|]. split; [done|].
  destruct (Hl i s Hs) as (_ & _ & _ & ? & ?). unfold kept.
  change (journal_of (set_savepoints m c)) with (journal_of c). repeat split; lia.
Qed.

(** ** Recording a mutation *)

(** A step that keeps every savepoint and adds at most [n] undo entries. *)
Definition st_keeps {A} (n : nat) (m : ST ctx TransactionError A) : Prop :=
  forall c es, inv c es ->
    exists es', keeps c es (m c).1 es' /\ (length es' <= length es + n)%nat.

Lemma st_keeps_bind {A B} n1 n2 (m : ST ctx TransactionError A) (k : A -> ST ctx TransactionError B) :
  st_keeps n1 m -> (forall a, st_keeps n2 (k a)) -> st_keeps (n1 + n2) (st_bind m k).
Proof.
  intros Hm Hk c es Hinv. destruct (Hm c es Hinv) as (es1 & K1 & L1).
  unfold st_bind. destruct (m c) as [c1 [a|e]]; simpl in *.
  - destruct (Hk a c1 es1 (keeps_inv _ _ _ _ Hinv K1)) as (es2 & K2 & L2).
    exists es2. split; [by eapply keeps_trans|lia].
  - exists es1. split; [done|lia].
Qed.

(** A step that leaves journal, undo log and savepoints alone. *)
Definition st_frame {A} (m : ST ctx TransactionError A) : Prop :=
  forall c, journal_of (m c).1 = journal_of c /\
    undo_logs (x_logs (m c).1) = undo_logs (x_logs c) /\ mgr_of (m c).1 = mgr_of c.

Lemma st_frame_keeps {A} (m : ST ctx TransactionError A) : st_frame m -> st_keeps 0 m.
Proof.
  intros Hf c es Hinv. destruct (Hf c) as (E1 & E2 & E3). exists es. split; [|lia].
  by apply keeps_frame.
Qed.

Lemma st_frame_bind {A B} (m : ST ctx TransactionError A) (k : A -> ST ctx TransactionError B) :
  st_frame m -> (forall a, st_frame (k a)) -> st_frame (st_bind m k).
Proof.
  intros Hm Hk c. destruct (Hm c) as (E1 & E2 & E3). unfold st_bind.
  destruct (m c) as [c1 [a|e]]; simpl in *; [|done].
  destruct (Hk a c1) as (F1 & F2 & F3). by rewrite F1, F2, F3.
Qed.

Lemma frame_charge_mutation : st_frame charge_mutation.
Proof. intros c. unfold charge_mutation, st_bind. simpl. by repeat case_match; simplify_eq. Qed.

Lemma frame_charge_undo : st_frame charge_undo.
Proof. intros c. unfold charge_undo, st_bind. simpl. by repeat case_match; simplify_eq. Qed.

Lemma frame_footprint m : st_frame (st_modify (record_footprint m)).
Proof.
  assert (Hkeys : forall ks c, let c' := fold_left (fun acc k => record_key k acc) ks c in
    journal_of c' = journal_of c /\ undo_logs (x_logs c') = undo_logs (x_logs c) /\
    mgr_of c' = mgr_of c).
  { induction ks as [|k ks IH]; intros c; simpl; [done|].
    destruct (IH (record_key k c)) as (-> & -> & ->). by destruct k. }
  assert (Hints : forall l c,
    let c' := fold_left (fun acc i => record_index_write (ordering_key (oi_mutation i)) acc) l c in
    journal_of c' = journal_of c /\ undo_logs (x_logs c') = undo_logs (x_logs c) /\
    mgr_of c' = mgr_of c).
  { induction l as [|i l IH]; intros c; simpl; [done|].
    by destruct (IH (record_index_write (ordering_key (oi_mutation i)) c)) as (-> & -> & ->). }
  intros c. simpl. unfold record_footprint.
  destruct (Hkeys (mu_entity_keys m) c) as (E1 & E2 & E3).
  set (c1 := fold_left _ _ c) in *.
  set (c2 := if decide (classify m = MSchema) then _ else c1).
  assert (journal_of c2 = journal_of c /\ undo_logs (x_logs c2) = undo_logs (x_logs c) /\
    mgr_of c2 = mgr_of c) as (F1 & F2 & F3) by (subst c2; case_decide; done).
  case_decide; [|done]. destruct (Hints (mu_index_intents m) c2) as (-> & -> & ->). done.
Qed.

Lemma keeps_append_record m : st_keeps 0 (st_modify (append_record m)).
Proof.
  intros c es Hinv. exists es. split; [|lia]. pose proof Hinv as [Hj Hu _ _ _].
  apply keeps_extend; try done.
  - simpl. by apply Journal.wf_push.
  - simpl. by apply prefix_app_r.
Qed.

Lemma keeps_add_undo io e :
  io_write io = None \/ io_set_len io = true -> st_keeps 1 (add_undo_log to_stdvec io e).
Proof.
  intros Hio c es Hinv. pose proof Hinv as [Hj Hu _ _ _]. exists (es ++ [e]).
  split; [|rewrite length_app; simpl; lia].
  pose proof (UndoLog.undo_add_refines to_stdvec io e _ _ Hio Hu) as Hadd.
  unfold add_undo_log. destruct (UndoLog.add to_stdvec io e (undo_logs (x_logs c))) as [u r].
  simpl in *. apply keeps_extend; try done. by apply prefix_app_r.
Qed.

Lemma keeps_record_mutation now io m :
  io_write io = None \/ io_set_len io = true -> st_keeps 1 (record_mutation to_stdvec now io m).
Proof.
  intros Hio. unfold record_mutation.
  assert (Hlift : forall A (r : result A TransactionError), st_frame (st_lift r))
    by (by intros A r c).
  apply (st_keeps_bind 0 1); [by apply st_frame_keeps|intros c0].
  apply (st_keeps_bind 0 1); [by apply st_frame_keeps|intros _].
  apply (st_keeps_bind 0 1); [by apply st_frame_keeps|intros _].
  apply (st_keeps_bind 0 1); [apply st_frame_keeps, frame_charge_mutation|intros _].
  apply (st_keeps_bind 0 1); [apply st_frame_keeps, frame_charge_undo|intros _].
  apply (st_keeps_bind 0 1); [apply keeps_append_record|intros _].
  apply (st_keeps_bind 0 1); [apply st_frame_keeps, frame_footprint|intros _].
  apply (st_keeps_bind 1 0); [|intros _; apply (st_keeps_bind 0 0); intros; apply st_frame_keeps].
  - destruct (mu_undo_entry m); [by apply keeps_add_undo|].
    intros c es Hinv. exists es. split; [by apply keeps_refl|lia].
  - intros c. destruct (mu_modified_table m) as [t|]; [|done]. simpl.
    unfold record_table_modification. by case_match.
  - by intros c.
Qed.

(** ** Rollback to a savepoint *)

Lemma take_take_eq {A} (n m : nat) (l l' : list A) :
  (n <= m)%nat -> take m l' = take m l -> take n l' = take n l.
Proof.
  intros Hle Hm. replace n with (n `min` m)%nat by lia. by rewrite <- !take_take, Hm.
Qed.

(** Going back to what savepoint [s] refers to keeps the older ones. *)
Lemma keeps_shrink c es c' es' i s :
  inv c es -> live c i s -> Journal.wf (journal_of c') ->
  UndoLog.log_refines to_stdvec (undo_logs (x_logs c')) es' ->
  mgr_of c' = Savepoints.retain_upto (sp_sequence s) (mgr_of c) ->
  kept s c es c' es' -> keeps c es c' es'.
Proof.
  intros [Hj Hu Hl Ho Hid] Hs Kj Ku Km (K1 & K2 & K3 & K4).
  split; [done|done|by rewrite Km..|]. unfold live. rewrite Km. simpl.
  intros k t Ht. apply map_lookup_filter_Some in Ht as [Ht Hseq]. simpl in Hseq.
  exists t. split; [done|]. split; [done|].
  destruct (Ho k t i s Ht Hs ltac:(lia)) as [O1 O2].
  unfold kept. split_and!; [by eapply take_take_eq; [|exact K1]; lia|lia|
    by eapply take_take_eq; [|exact K3]; lia|lia].
Qed.

(** The context after the undo entries ran. *)
Definition rolled_undo (s : SavepointInfo) (u : FileBackedUndoLog Value) c : ctx :=
  set_undo u (set_savepoints (Savepoints.retain_upto (sp_sequence s) (mgr_of c)) c).

(** The context after a complete rollback. *)
Definition rolled_back (s : SavepointInfo) (u : FileBackedUndoLog Value) c : ctx :=
  (restore_savepoint s (rolled_undo s u c)).1.

Definition staged_outcome (s : SavepointInfo) c g : G * result unit UndoLogError :=
  match sp_staged_write_mark s with
  | Some mark => rollback_staged_writes (id (x_const c)) mark g
  | None => (g, Ok tt)
  end.

Hypothesis Hpostcard : UndoLog.postcard_roundtrip to_stdvec from_bytes.

Lemma rollback_spec now i s c g es :
  inv c es -> Z.of_nat (length es) < 2 ^ 64 -> state (x_life c) = Active ->
  is_expired now c = false -> live c i s ->
  let '(es', g2, r) := UndoLog.undo_stack (length es - Z.to_nat (sp_undo_log_index s))
    (start_timestamp (x_const c)) es g in
  exists u, UndoLog.log_refines to_stdvec u es' /\
    (r = Ok tt -> es' = take (Z.to_nat (sp_undo_log_index s)) es) /\
    rollback_to_savepoint from_bytes now io_ok i c g =
      match r with
      | Err _ => (rolled_undo s u c, g2, Err RollbackFailed)
      | Ok _ =>
          match staged_outcome s c g2 with
          | (g3, Err _) => (rolled_undo s u c, g3, Err RollbackFailed)
          | (g3, Ok _) => (rolled_back s u c, g3, Ok tt)
          end
      end.
Proof.
  intros Hinv Hlen Hact Hexp Hs. pose proof Hinv as [Hj Hu Hl Ho Hid].
  destruct (Hl i s Hs) as (_ & _ & Hnext & Hjl & Hidx).
  pose proof (UndoLog.from_index_refines to_stdvec from_bytes Hpostcard
    (start_timestamp (x_const c)) _ es (sp_undo_log_index s) g Hlen Hu Hidx) as Hund.
  unfold rollback_to_savepoint. rewrite Hact, Hexp. simpl.
  unfold get_savepoint, Savepoints.get_savepoint. unfold live, mgr_of in Hs. rewrite Hs.
  unfold validate_against. simpl. unfold journal_of in Hjl.
  rewrite !decide_False by lia. unfold execute_undo_logs_from_index. simpl.
  destruct (UndoLog.execute_undo_from_index _ _ _ _ _ _) as [[u g1] r1].
  destruct (UndoLog.undo_stack _ _ _ _) as [[es' g2] r].
  destruct Hund as (-> & -> & Href & Htake). exists u. split; [done|]. split; [done|].
  destruct r as [[]|x]; simpl; [|done]. unfold staged_outcome.
  destruct (match sp_staged_write_mark s with Some mark => _ | None => _ end) as [g3 [?|?]];
    [|done].
  change (set_undo u _) with (rolled_undo s u c).
  unfold rolled_back, restore_savepoint. simpl. by rewrite decide_False by lia.
Qed.

Lemma keeps_rolled_undo s i u c es es' :
  inv c es -> live c i s -> UndoLog.log_refines to_stdvec u es' ->
  take (Z.to_nat (sp_undo_log_index s)) es' = take (Z.to_nat (sp_undo_log_index s)) es ->
  sp_undo_log_index s <= Z.of_nat (length es') ->
  keeps c es (rolled_undo s u c) es'.
Proof.
  intros Hinv Hs Hu Ht Hle. pose proof Hinv as [Hj _ Hl _ _].
  destruct (Hl i s Hs) as (_ & _ & _ & Hjl & _).
  eapply keeps_shrink; try done. unfold kept. simpl. unfold journal_of in *. simpl. naive_solver.
Qed.

(** What a complete rollback leaves. *)
Lemma rolled_back_fields s i u c es :
  inv c es -> live c i s ->
  let c' := rolled_back s u c in
  j_records (journal_of c') = take (Z.to_nat (sp_journal_len s)) (j_records (journal_of c)) /\
  Journal.wf (journal_of c') /\ Journal.len (journal_of c') = sp_journal_len s /\
  undo_logs (x_logs c') = u /\
  mgr_of c' = Savepoints.retain_upto (sp_sequence s) (mgr_of c) /\
  write_set (x_logs c') = sp_write_set s /\ read_set (x_logs c') = sp_read_set s /\
  modified_tables (x_logs c') = sp_modified_tables s /\
  write_validated (x_logs c') = false /\
  lb_entries (local_wal (x_logs c')) = Journal.redo_entries (journal_of c') /\
  mutation_count (x_budget c') = sp_journal_len s /\
  undo_bytes (x_budget c') = wrap_u64 (sp_journal_len s * 64).
Proof.
  intros [Hj _ Hl _ _] Hs. destruct (Hl i s Hs) as (_ & _ & _ & Hjl & _).
  assert (Hlen : Journal.len (Journal.truncate (sp_journal_len s) (journal_of c)) =
    sp_journal_len s).
  { unfold Journal.len. rewrite Journal.records_truncate by lia. rewrite length_take.
    unfold Journal.len in Hjl. lia. }
  unfold rolled_back, restore_savepoint. simpl. unfold journal_of in *.
  rewrite decide_False by lia. cbn [fst]. split_and!; try done.
  - simpl. apply Journal.records_truncate. lia.
  - simpl. apply Journal.wf_truncate; [lia|done].
  - by apply LocalWal.rebuild_mirrors.
  - simpl. by rewrite Hlen.
Qed.

Lemma keeps_rolled_back s i u c es :
  inv c es -> live c i s ->
  UndoLog.log_refines to_stdvec u (take (Z.to_nat (sp_undo_log_index s)) es) ->
  keeps c es (rolled_back s u c) (take (Z.to_nat (sp_undo_log_index s)) es).
Proof.
  intros Hinv Hs Hu. pose proof (rolled_back_fields s i u c es Hinv Hs) as Hf. cbv zeta in Hf.
  destruct Hf as (F1 & F2 & F3 & F4 & F5 & _). pose proof Hinv as [_ _ Hl _ _].
  destruct (Hl i s Hs) as (_ & _ & _ & Hjl & Hidx).
  eapply keeps_shrink; try done; [by rewrite F4|]. unfold kept.
  rewrite F1, F3, !take_take, !Nat.min_id, length_take. split_and!; try done; lia.
Qed.

Lemma keeps_rollback now i c g es :
  inv c es -> Z.of_nat (length es) < 2 ^ 64 ->
  exists es', keeps c es (rollback_to_savepoint from_bytes now io_ok i c g).1.1 es' /\
    (length es' <= length es)%nat.
Proof.
  intros Hinv Hlen.
  assert (Hrefl : exists es', keeps c es c es' /\ (length es' <= length es)%nat)
    by (exists es; split; [by apply keeps_refl|done]).
  destruct (decide (state (x_life c) = Active)) as [Hact|Hact].
  2:{ unfold rollback_to_savepoint. by destruct (state (x_life c)). }
  destruct (is_expired now c) eqn:Hexp.
  { unfold rollback_to_savepoint. by rewrite Hact, Hexp. }
  destruct (savepoints (mgr_of c) !! i) as [s|] eqn:Hs.
  2:{ unfold rollback_to_savepoint, get_savepoint, Savepoints.get_savepoint.
      unfold mgr_of in Hs. by rewrite Hact, Hexp, Hs. }
  pose proof (rollback_spec now i s c g es Hinv Hlen Hact Hexp Hs) as Hspec.
  pose proof (iv_live _ _ Hinv i s Hs) as (_ & _ & _ & _ & Hidx).
  pose proof (UndoLog.undo_stack_prefix (length es - Z.to_nat (sp_undo_log_index s))
    (start_timestamp (x_const c)) es g ltac:(lia)) as Hpre.
  destruct (UndoLog.undo_stack _ _ _ _) as [[es' g2] r]. destruct Hspec as (u & Hu & Hok & ->).
  replace (length es - (length es - Z.to_nat (sp_undo_log_index s)))%nat
    with (Z.to_nat (sp_undo_log_index s)) in Hpre by lia. destruct Hpre as [Hpre Hl2].
  assert (Hundo : exists es', keeps c es (rolled_undo s u c) es' /\ (length es' <= length es)%nat).
  { exists es'. split; [|lia]. eapply keeps_rolled_undo; [done..|lia]. }
  destruct r as [[]|x]; [|done]. destruct (staged_outcome s c g2) as [g3 [?|?]]; [|done].
  rewrite (Hok eq_refl) in Hu. exists (take (Z.to_nat (sp_undo_log_index s)) es).
  split; [by eapply keeps_rolled_back|]. rewrite length_take. lia.
Qed.

(** ** Any operation *)

Lemma keeps_clear io c es :
  inv c es -> exists es', keeps c es (clear io c).1 es' /\ (length es' <= length es)%nat.
Proof.
  intros Hinv. pose proof Hinv as [Hj Hu _ _ _].
  pose proof (UndoLog.clear_refines to_stdvec io _ _ Hu) as Hc.
  unfold clear, clear_undo_logs.
  destruct (UndoLog.clear io (undo_logs (x_logs c))) as [u [[]|x]] eqn:E; simpl in *.
  - exists []. split; [|simpl; lia]. split; simpl; try done; [|by apply Hc].
    apply Journal.wf_truncate; [lia|done].
  - exists es. split; [|done]. apply keeps_frame; try done. simpl.
    unfold UndoLog.clear in E. by repeat case_match; simplify_eq.
Qed.

Lemma frame_access a c :
  journal_of (run_access a c) = journal_of c /\
  undo_logs (x_logs (run_access a c)) = undo_logs (x_logs c) /\
  mgr_of (run_access a c) = mgr_of c.
Proof. by destruct a. Qed.

Lemma keeps_op o c g es :
  (forall n q, o <> CSavepoint n q) -> inv c es -> op_ok o -> Z.of_nat (length es) < 2 ^ 64 ->
  exists es', keeps c es (run_op o (c, g)).1 es' /\ (length es' <= length es + 1)%nat.
Proof.
  intros Hno Hinv Hok Hlen.
  assert (Hframe : forall c', journal_of c' = journal_of c ->
    undo_logs (x_logs c') = undo_logs (x_logs c) -> mgr_of c' = mgr_of c ->
    exists es', keeps c es c' es' /\ (length es' <= length es + 1)%nat)
    by (intros; exists es; split; [by apply keeps_frame|lia]).
  assert (Htable : forall m, next_id m = next_id (mgr_of c) ->
    sp_next_sequence m = sp_next_sequence (mgr_of c) ->
    (forall i s', savepoints m !! i = Some s' -> exists s, live c i s /\ same_sp s s') ->
    exists es', keeps c es (set_savepoints m c) es' /\ (length es' <= length es + 1)%nat)
    by (intros; exists es; split; [by apply keeps_table|lia]).
  destruct o; simpl in *; try by apply Hframe.
  - unfold transition_to. case_match; by apply Hframe.
  - unfold begin_statement. repeat case_match; by apply Hframe.
  - unfold finish_statement. case_match; by apply Hframe.
  - unfold mark_resources_released. case_match; by apply Hframe.
  - destruct (frame_access a c) as (? & ? & ?). by apply Hframe.
  - unfold record_table_modification. case_match; by apply Hframe.
  - by apply keeps_add_undo.
  - by apply keeps_record_mutation.
  - by destruct (Hno name sync).
  - unfold set_savepoint_staging_mark, Savepoints.set_staging_mark.
    destruct (savepoints (savepoint_manager (x_logs c)) !! i) as [s|] eqn:Es; simpl.
    + apply Htable; try done. simpl. intros k s' Hk. destruct (decide (k = i)) as [->|Hne].
      * rewrite lookup_insert_eq in Hk. injection Hk as <-. exists s. split; [done|].
        by destruct s.
      * rewrite lookup_insert_ne in Hk by done. by exists s'.
    + apply Htable; try done. intros k s' Hk. by exists s'.
  - unfold release_savepoint, Savepoints.remove_savepoint. simpl.
    apply Htable; try done. simpl. intros k s' [_ Hk]%lookup_delete_Some. by exists s'.
  - destruct (keeps_rollback now i c g es Hinv Hlen) as (es' & K & L). exists es'.
    split; [done|lia].
  - destruct (keeps_clear io c es Hinv) as (es' & K & L). exists es'. split; [done|lia].
Qed.

(** What savepoint [i], created as [s0] over the journal records [recs] and the
    undo entries [es0], still refers to while it lives. *)
Definition track (i : Z) (s0 : SavepointInfo) (recs : list (TransactionMutationRecord Value))
    (es0 : list (UndoLogEntry Value)) c es : Prop :=
  i < next_id (mgr_of c) /\
  forall s, live c i s -> same_sp s0 s /\
    take (Z.to_nat (sp_journal_len s0)) (j_records (journal_of c)) = recs /\
    take (Z.to_nat (sp_undo_log_index s0)) es = es0.

Lemma track_keeps i s0 recs es0 c es c' es' :
  keeps c es c' es' -> track i s0 recs es0 c es -> track i s0 recs es0 c' es'.
Proof.
  intros [_ _ Ki _ Kl] [Hi Ht]. split; [by rewrite Ki|]. intros s' Hs'.
  destruct (Kl i s' Hs') as (s & Hs & Hsame & K1 & _ & K3 & _).
  destruct (Ht s Hs) as (S1 & R1 & E1). pose proof (same_sp_fields _ _ S1) as (F1 & F2 & _).
  split; [unfold same_sp in *; congruence|]. by rewrite F1, F2, K1, K3, <- F1, <- F2.
Qed.

Lemma create_savepoint_inv name sync c es :
  inv c es ->
  let '(c', i) := create_savepoint name sync c in
  inv c' es /\
  (exists s0, live c' i s0 /\ sp_write_set s0 = write_set (x_logs c) /\
    sp_read_set s0 = read_set (x_logs c) /\ sp_modified_tables s0 = modified_tables (x_logs c) /\
    sp_journal_len s0 = Journal.len (journal_of c) /\
    sp_undo_log_index s0 = Z.of_nat (length es) /\
    track i s0 (j_records (journal_of c)) es c' es) /\
  (forall k s0 recs es0, track k s0 recs es0 c es -> track k s0 recs es0 c' es).
Proof.
  intros [Hj Hu Hl Ho Hid]. unfold create_savepoint. simpl.
  pose proof (UndoLog.lr_total _ _ _ Hu) as Htot. pose proof Hj as [_ Hnext].
  set (s0 := mkSavepoint _ _ _ _ _ _ _ _ _ _ _).
  set (c' := set_savepoints _ c).
  assert (Hlive : forall k s, live c' k s <->
    (k = next_id (mgr_of c) /\ s = s0) \/ (k <> next_id (mgr_of c) /\ live c k s)).
  { intros k s. unfold live. subst c'. simpl. rewrite lookup_insert_Some. naive_solver. }
  assert (Hs0 : sp_journal_len s0 = Journal.len (journal_of c) /\
    sp_undo_log_index s0 = Z.of_nat (length es) /\
    sp_sequence s0 = sp_next_sequence (mgr_of c)).
  { subst s0. simpl. unfold undo_log_len, UndoLog.len. by rewrite Htot. }
  destruct Hs0 as (L0 & U0 & Q0). split; [|split].
  - split; try done.
    + intros k s [[-> ->]|[Hne Hk]]%Hlive.
      * rewrite Q0, L0, U0. split; [subst c'; simpl; unfold mgr_of; lia|].
        split; [subst c'; simpl; unfold mgr_of; lia|]. split; [done|].
        change (journal_of c') with (journal_of c). unfold Journal.len. lia.
      * destruct (Hl k s Hk) as (? & ? & ? & ? & ?). subst c'. simpl. split_and!; try done; try lia;
        unfold journal_of, mgr_of in *; simpl; lia.
    + intros k s k' s' [[-> ->]|[Hne Hk]]%Hlive [[-> ->]|[Hne' Hk']]%Hlive Hle; try lia.
      * destruct (Hl k' s' Hk') as (_ & ? & _). lia.
      * destruct (Hl k s Hk) as (_ & _ & _ & ? & ?). lia.
      * by eapply Ho.
    + destruct Hid as [Hid1 Hid2]. split; [subst c'; simpl; unfold mgr_of in *; lia|].
      intros k s [[-> ->]|[_ Hk]]%Hlive; [by rewrite Q0|by apply Hid2].
  - exists s0. split; [apply Hlive; by left|]. split_and!; try done.
    split; [subst c'; simpl; unfold mgr_of; lia|].
    intros s [[_ ->]|[? _]]%Hlive; [|done]. rewrite L0, U0, Nat2Z.id.
    change (journal_of c') with (journal_of c). unfold Journal.len.
    by rewrite Nat2Z.id, !firstn_all.
  - intros k t recs es0 [Hk Ht]. split; [subst c'; simpl; unfold mgr_of in *; lia|].
    intros s [[-> ->]|[_ Hs]]%Hlive; [lia|]. by apply Ht.
Qed.

Lemma run_op_inv o c g es :
  inv c es -> op_ok o -> Z.of_nat (length es) < 2 ^ 64 ->
  exists es', inv (run_op o (c, g)).1 es' /\ (length es' <= length es + 1)%nat /\
    forall i s0 recs es0, track i s0 recs es0 c es -> track i s0 recs es0 (run_op o (c, g)).1 es'.
Proof.
  intros Hinv Hok Hlen.
  assert (Hcase : (exists n q, o = CSavepoint n q) \/ forall n q, o <> CSavepoint n q)
    by (destruct o; solve [left; by do 2 eexists | by right; intros]). 
  destruct Hcase as [(n & q & ->)|Hno].
  - exists es. cbn [run_op fst]. pose proof (create_savepoint_inv n q c es Hinv) as Hc.
    destruct (create_savepoint n q c) as [c' i]. cbn [fst]. destruct Hc as (? & _ & ?).
    split; [done|]. split; [lia|done].
  - destruct (keeps_op o c g es Hno Hinv Hok Hlen) as (es' & K & L). exists es'.
    split; [by eapply keeps_inv|]. split; [done|]. intros. by eapply track_keeps.
Qed.

Lemma run_ops_inv ops c g es :
  inv c es -> Forall op_ok ops -> Z.of_nat (length es + length ops) < 2 ^ 64 ->
  exists es', inv (run_ops ops (c, g)).1 es' /\ (length es' <= length es + length ops)%nat /\
    forall i s0 recs es0, track i s0 recs es0 c es -> track i s0 recs es0 (run_ops ops (c, g)).1 es'.
Proof.
  revert c g es. induction ops as [|o ops IH]; intros c g es Hinv Hok Hlen; cbn [run_ops length] in *.
  - exists es. split; [done|]. split; [lia|done].
  - apply Forall_cons in Hok as [Ho Hok].
    destruct (run_op_inv o c g es Hinv Ho ltac:(lia)) as (es1 & I1 & L1 & T1).
    destruct (run_op o (c, g)) as [c1 g1]. cbn [fst] in *.
    destruct (IH c1 g1 es1 I1 Hok ltac:(lia)) as (es2 & I2 & L2 & T2).
    exists es2. split; [done|]. split; [lia|]. eauto.
Qed.

Lemma inv_fresh k now : inv (fresh k now) [].
Proof.
  assert (Hno : forall i s, ~ live (fresh k now) i s)
    by (unfold live; simpl; intros i s Hs; by rewrite lookup_empty in Hs).
  split; [apply Journal.wf_new|apply UndoLog.undo_new_refines|..].
  - intros i s Hs. by destruct (Hno i s).
  - intros i s i' s' Hs. by destruct (Hno i s).
  - split; [done|]. intros i s Hs. by destruct (Hno i s).
Qed.



(** ** Lifecycle *)

(** The next state an operation leads to. *)
Definition next_state (o : cop Value) (s : TransactionState) : TransactionState :=
  match o with
  | CTransition t => if valid_transition s t then t else s
  | _ => s
  end.

Lemma st_life_bind {A B} (m : ST ctx TransactionError A) (k : A -> ST ctx TransactionError B) c :
  (forall c, x_life (m c).1 = x_life c /\ x_const (m c).1 = x_const c) ->
  (forall a c, x_life (k a c).1 = x_life c /\ x_const (k a c).1 = x_const c) ->
  x_life (st_bind m k c).1 = x_life c /\ x_const (st_bind m k c).1 = x_const c.
Proof.
  intros Hm Hk. destruct (Hm c) as [E1 E2]. unfold st_bind.
  destruct (m c) as [c1 [a|e]]; simpl in *; [|done].
  destruct (Hk a c1) as [F1 F2]. by rewrite F1, F2.
Qed.

Lemma footprint_life m c :
  x_life (record_footprint m c) = x_life c /\ x_const (record_footprint m c) = x_const c /\
  x_budget (record_footprint m c) = x_budget c.
Proof.
  assert (Hkeys : forall ks c0, let c' := fold_left (fun acc k => record_key k acc) ks c0 in
    x_life c' = x_life c0 /\ x_const c' = x_const c0 /\ x_budget c' = x_budget c0).
  { induction ks as [|k ks IH]; intros c0; simpl; [done|].
    destruct (IH (record_key k c0)) as (-> & -> & ->). by destruct k. }
  assert (Hints : forall l c0,
    let c' := fold_left (fun acc i => record_index_write (ordering_key (oi_mutation i)) acc) l c0 in
    x_life c' = x_life c0 /\ x_const c' = x_const c0 /\ x_budget c' = x_budget c0).
  { induction l as [|i l IH]; intros c0; simpl; [done|].
    by destruct (IH (record_index_write (ordering_key (oi_mutation i)) c0)) as (-> & -> & ->). }
  unfold record_footprint. destruct (Hkeys (mu_entity_keys m) c) as (E1 & E2 & E3).
  set (c1 := fold_left _ _ c) in *.
  set (c2 := if decide (classify m = MSchema) then _ else c1).
  assert (x_life c2 = x_life c /\ x_const c2 = x_const c /\ x_budget c2 = x_budget c)
    as (F1 & F2 & F3) by (subst c2; case_decide; done).
  case_decide; [|done]. by destruct (Hints (mu_index_intents m) c2) as (-> & -> & ->).
Qed.

Lemma record_mutation_life now io m c :
  x_life (record_mutation to_stdvec now io m c).1 = x_life c /\
  x_const (record_mutation to_stdvec now io m c).1 = x_const c.
Proof.
  unfold record_mutation. apply st_life_bind; [done|intros c0 ?].
  repeat (apply st_life_bind; [try done|intros _ ?]); try done.
  - intros cx. unfold charge_mutation, st_bind. simpl. by repeat case_match; simplify_eq.
  - intros cx. unfold charge_undo, st_bind. simpl. by repeat case_match; simplify_eq.
  - intros cx. simpl. by destruct (footprint_life m cx) as (? & ? & _).
  - intros cx. destruct (mu_undo_entry m); [|done]. unfold add_undo_log.
    by destruct (UndoLog.add _ _ _ _).
  - intros cx. destruct (mu_modified_table m) as [t|]; [|done]. simpl.
    unfold record_table_modification. by case_match.
Qed.

Lemma rollback_life now io i c g :
  x_life (rollback_to_savepoint from_bytes now io i c g).1.1 = x_life c /\
  x_const (rollback_to_savepoint from_bytes now io i c g).1.1 = x_const c.
Proof.
  unfold rollback_to_savepoint, execute_undo_logs_from_index.
  destruct (negb _); [done|]. destruct (is_expired now c); [done|].
  destruct (get_savepoint i c) as [s|]; [|done].
  destruct (validate_against _ _); [|done].
  destruct (UndoLog.execute_undo_from_index _ _ _ _ _ _) as [[u g1] [[]|x]]; simpl; [|done].
  destruct (match sp_staged_write_mark s with Some mark => _ | None => _ end) as [g3 [?|?]];
    simpl; [|done].
  unfold restore_savepoint. by case_decide.
Qed.

(** Every operation moves the state as [next_state] says, and leaves the
    immutable part alone. *)
Lemma run_op_life o c g :
  state (x_life (run_op o (c, g)).1) = next_state o (state (x_life c)) /\
  x_const (run_op o (c, g)).1 = x_const c.
Proof.
  destruct o; simpl; try done.
  - unfold transition_to. by destruct (valid_transition _ _).
  - unfold begin_statement. by repeat case_match.
  - unfold finish_statement. by case_match.
  - unfold mark_resources_released. by case_match.
  - by destruct a.
  - unfold record_table_modification. by case_match.
  - unfold add_undo_log. by destruct (UndoLog.add _ _ _ _).
  - by destruct (record_mutation_life now io m c) as [-> ->].
  - unfold set_savepoint_staging_mark. by destruct (Savepoints.set_staging_mark _ _ _).
  - by destruct (rollback_life now io_ok i c g) as [-> ->].
  - unfold clear, clear_undo_logs. by destruct (UndoLog.clear _ _) as [? [?|?]].
Qed.

(** Outside [Active], no operation but [clear] touches the journal. *)
Lemma frozen_op o c g :
  state (x_life c) <> Active -> (forall io, o <> CClear io) ->
  journal_of (run_op o (c, g)).1 = journal_of c.
Proof.
  intros Hst Hno. destruct o; simpl; try done.
  - unfold transition_to. by case_match.
  - unfold begin_statement. by repeat case_match.
  - unfold finish_statement. by case_match.
  - unfold mark_resources_released. by case_match.
  - by destruct a.
  - unfold record_table_modification. by case_match.
  - unfold add_undo_log. by destruct (UndoLog.add _ _ _ _).
  - unfold record_mutation, st_bind, st_get, st_lift, can_execute. simpl.
    by destruct (state (x_life c)).
  - unfold set_savepoint_staging_mark. by destruct (Savepoints.set_staging_mark _ _ _).
  - unfold rollback_to_savepoint. by destruct (state (x_life c)).
  - by destruct (Hno io).
Qed.

(** Position of a state on the way to an end. *)
Definition progress (s : TransactionState) : Z :=
  match s with Active => 0 | Committing => 1 | Aborting => 2 | Committed | Aborted => 3 end.

Lemma next_state_progress o s :
  next_state o s = s \/ progress s < progress (next_state o s).
Proof.
  destruct o; simpl; try by left. destruct (valid_transition s s0) eqn:E; [right|by left].
  by destruct s, s0.
Qed.

Lemma run_ops_progress ops c g :
  let s := state (x_life c) in
  let s' := state (x_life (run_ops ops (c, g)).1) in s' = s \/ progress s < progress s'.
Proof.
  revert c g. induction ops as [|o ops IH]; intros c g; cbn [run_ops]; [by left|].
  destruct (run_op_life o c g) as [Ho _]. destruct (run_op o (c, g)) as [c1 g1]. cbn [fst] in Ho.
  specialize (IH c1 g1). cbv zeta in *. rewrite Ho in IH.
  destruct (next_state_progress o (state (x_life c))) as [E|E];
    destruct IH as [->|IH]; rewrite ?E in *; auto; right; lia.
Qed.

Lemma run_ops_app ops1 ops2 cg : run_ops (ops1 ++ ops2) cg = run_ops ops2 (run_ops ops1 cg).
Proof. revert cg. induction ops1; intros cg; simpl; auto. Qed.

(** The lifecycle only moves forward.  Under any operations, the state of
    a transaction stays or moves along Active, Committing, Aborting, end; a
    committed or aborted transaction keeps that state for ever, and a
    transaction can be committed only if some operation of the sequence found
    it in Committing.  Once it left Active its journal is frozen: no mutation,
    savepoint rollback or any other operation except [clear] changes it. *)
Theorem lifecycle_forward ops (c : ctx) g :
  let s := state (x_life c) in
  let c' := (run_ops ops (c, g)).1 in
  let s' := state (x_life c') in
  (s' = s \/ progress s < progress s') /\
  (is_terminal s = true -> s' = s) /\
  (s <> Committed -> s' = Committed -> exists ops1 ops2, ops = ops1 ++ CTransition Committed :: ops2 /\
    state (x_life (run_ops ops1 (c, g)).1) = Committing) /\
  (s <> Active -> (forall io, CClear io ∉ ops) ->
    mutation_journal (x_logs c') = mutation_journal (x_logs c)).
Proof.
  cbv zeta. split; [apply run_ops_progress|]. split; [|split].
  - pose proof (run_ops_progress ops c g) as Hp. cbv zeta in Hp. intros Ht.
    destruct Hp as [?|Hp]; [done|]. destruct (state (x_life c)); try done;
      destruct (state (x_life (run_ops ops (c, g)).1)); simpl in Hp; lia.
  - induction ops as [|o ops IH] using rev_ind; [done|]. rewrite run_ops_app. simpl.
    intros Hs. destruct (run_ops ops (c, g)) as [c1 g1] eqn:E1. cbn [fst] in IH.
    destruct (run_op_life o c1 g1) as [-> _]. intros Hc.
    destruct (decide (state (x_life c1) = Committed)) as [Hd|Hd].
    + destruct (IH Hs Hd) as (o1 & o2 & -> & Hst). exists o1, (o2 ++ [o]).
      by rewrite <- app_assoc.
    + destruct o; simpl in Hc; try done.
      destruct (valid_transition _ _) eqn:Hv; [|done]. subst s.
      exists ops, []. split; [done|]. rewrite E1. simpl.
      by destruct (state (x_life c1)).
  - revert c g. induction ops as [|o ops IH]; intros c g Hs Hno; [done|]. cbn [run_ops].
    destruct (run_op_life o c g) as [Ho _].
    pose proof (frozen_op o c g Hs) as Hf. destruct (run_op o (c, g)) as [c1 g1]. cbn [fst] in *.
    rewrite IH; [apply Hf|..].
    + intros io ->. apply (Hno io). by left.
    + rewrite Ho. destruct (next_state_progress o (state (x_life c))) as [->|Hp]; [done|].
      intros Heq. rewrite Heq in Hp. by destruct (state (x_life c)).
    + intros io Hin. apply (Hno io). by right.
Qed.

End facts.
End CtxFacts.

(** ** A concrete transaction *)

Module CtxExample.
Import Ctx CtxFacts UndoExample.

Definition ex_vertex (n : Z) : VertexId := from_u64 n.

(** Insert vertex [n], with an undo entry the example codec can encode. *)
Definition ex_insert (n : Z) : MutationResult Z :=
  Mutation.with_redo (WalEntry.new OpInsertVertex 5 [n])
    (Mutation.with_undo (CreateVertexType n) (Mutation.new (KeyVertex (ex_vertex n)))).

Definition ex_const : CtxConst := new_const 1 TWrite false 5 0 default_config.

Definition ex_before : list (cop Z) := [CBegin 0; CMutate 0 io_ok (ex_insert 1)].

(** A nested savepoint, a rollback to it and more writes. *)
Definition ex_after : list (cop Z) :=
  [CMutate 0 io_ok (ex_insert 2); CSavepoint None 0; CMutate 0 io_ok (ex_insert 3);
   CAccess (AVertexRead (ex_vertex 9)); CRollback 0 2; CMutate 0 io_ok (ex_insert 4)].

Definition ex_c1 : TransactionContext Z * list Z :=
  run_ops enc dec ex_before (fresh ex_const 0, []).

Definition ex_c2 : TransactionContext Z * Z := create_savepoint (Some "a"%string) 0 ex_c1.1.

Definition ex_c3 : TransactionContext Z * list Z := run_ops enc dec ex_after (ex_c2.1, ex_c1.2).

Definition ex_c4 : TransactionContext Z * list Z * result unit TransactionError :=
  rollback_to_savepoint dec 0 io_ok ex_c2.2 ex_c3.1 ex_c3.2.


End CtxExample.
