(* ===== verification/ContextMutation.v ===== *)
(** * Mutations and budgets

    What recording a mutation does to a context on every branch, the budget
    that bounds the journal under any sequence of operations, and the lookup of
    savepoints by name. *)

From stdpp Require Import base gmap sets list strings.
From Stdlib Require Import ZArith Lia SpecFloat.
From S2P Require Import Prelude Types WriteSet Stats WalTypes Certifier UndoLog Journal Context.
From S2P Require Import ContextFacts.

Module CtxMutation.
Import Ctx CtxFacts.

Section mutation.
Context {Value : Type}.
Context (to_stdvec : UndoLogEntry Value -> option (list Z)).
Context (from_bytes : list Z -> option (UndoLogEntry Value)).
Abbreviation ctx := (TransactionContext Value).
Implicit Types c : ctx.

(** Number of mutations recorded. *)
Definition recorded_mutations c : Z := Journal.len (mutation_journal (x_logs c)).

(** Growth of a write set. *)
Definition ws_grows (a b : WriteSet) : Prop :=
  vertices a ⊆ vertices b /\ edges a ⊆ edges b /\ schema_resources a ⊆ schema_resources b /\
  index_resources a ⊆ index_resources b.

Definition covers (w : WriteSet) (k : MutationEntityKey) : Prop :=
  match k with KeyVertex v => v ∈ vertices w | KeyEdge e => e ∈ edges w end.

Lemma ws_grows_refl w : ws_grows w w.
Proof. unfold ws_grows. set_solver. Qed.

Lemma ws_grows_trans w1 w2 w3 : ws_grows w1 w2 -> ws_grows w2 w3 -> ws_grows w1 w3.
Proof. unfold ws_grows. set_solver. Qed.

Lemma covers_grows a b k : ws_grows a b -> covers a k -> covers b k.
Proof. unfold ws_grows, covers. destruct k; set_solver. Qed.

Definition ws_of c : WriteSet := write_set (x_logs c).

Lemma fold_keys_covers ks c :
  let c' := fold_left (fun acc k => record_key k acc) ks c in
  ws_grows (ws_of c) (ws_of c') /\ Forall (covers (ws_of c')) ks.
Proof.
  revert c. induction ks as [|k ks IH]; intros c; simpl; [split; [apply ws_grows_refl|done]|].
  assert (Hk : ws_grows (ws_of c) (ws_of (record_key k c)) /\ covers (ws_of (record_key k c)) k)
    by (destruct k; unfold ws_grows, ws_of; simpl; set_solver).
  destruct Hk as [G1 C1], (IH (record_key k c)) as [G2 C2].
  split; [by eapply ws_grows_trans|]. constructor; [by eapply covers_grows|done].
Qed.

Lemma fold_intents_grows l c :
  ws_grows (ws_of c)
    (ws_of (fold_left (fun acc i => record_index_write (ordering_key (oi_mutation i)) acc) l c)).
Proof.
  revert c. induction l as [|i l IH]; intros c; simpl; [apply ws_grows_refl|].
  eapply ws_grows_trans; [|apply IH]. unfold ws_grows, ws_of. simpl. set_solver.
Qed.

(** The footprint of a mutation: its keys, and the schema it changes. *)
Lemma footprint_covers m c :
  let c' := record_footprint m c in
  ws_grows (ws_of c) (ws_of c') /\ Forall (covers (ws_of c')) (mu_entity_keys m) /\
  (classify m = MSchema ->
    default "schema"%string (mu_modified_table m) ∈ schema_resources (ws_of c')).
Proof.
  cbv zeta. unfold record_footprint. destruct (fold_keys_covers (mu_entity_keys m) c) as [G1 C1].
  set (c1 := fold_left _ _ c) in *.
  set (c2 := if decide (classify m = MSchema) then _ else c1).
  assert (ws_grows (ws_of c1) (ws_of c2) /\ (classify m = MSchema ->
    default "schema"%string (mu_modified_table m) ∈ schema_resources (ws_of c2))) as [G2 S2].
  { subst c2. case_decide; [|split; [apply ws_grows_refl|done]].
    unfold ws_grows, ws_of. simpl. set_solver. }
  set (c3 := if decide (classify m = MIndex \/ _) then _ else c2).
  assert (G3 : ws_grows (ws_of c2) (ws_of c3))
    by (subst c3; case_decide; [apply fold_intents_grows|apply ws_grows_refl]).
  split; [by do 2 (eapply ws_grows_trans; [eassumption|])|]. split.
  - eapply Forall_impl; [exact C1|]. intros k. apply covers_grows. by eapply ws_grows_trans.
  - intros E. destruct G3 as (_ & _ & Hs & _). set_solver.
Qed.

(** The two charges: either both pass, or the mutation is refused with the
    logs untouched. *)
Lemma charge_mutation_cases c c' r :
  charge_mutation c = (c', r) ->
  x_logs c' = x_logs c /\ x_const c' = x_const c /\ x_life c' = x_life c /\
  mutation_count (x_budget c') = wrap_u64 (mutation_count (x_budget c) + 1) /\
  undo_bytes (x_budget c') = undo_bytes (x_budget c) /\
  (r = Ok tt /\ (max_mutation_count (x_const c) > 0 ->
                 mutation_count (x_budget c') <= max_mutation_count (x_const c)) \/
   exists n k, r = Err (TransactionBudgetExceeded n k)).
Proof.
  unfold charge_mutation, st_bind, st_err, st_modify, st_ret. simpl. intros Hc.
  case_decide as Hd; [|case_match]; simplify_eq/=; split_and!; try done;
    first [right; by eauto | left; split; [done|lia]].
Qed.

Lemma charge_undo_cases c c' r :
  charge_undo c = (c', r) ->
  x_logs c' = x_logs c /\ x_const c' = x_const c /\ x_life c' = x_life c /\
  mutation_count (x_budget c') = mutation_count (x_budget c) /\
  undo_bytes (x_budget c') = wrap_u64 (undo_bytes (x_budget c) + 64) /\
  (r = Ok tt /\ (max_undo_bytes (x_const c) > 0 ->
                 undo_bytes (x_budget c') <= max_undo_bytes (x_const c)) \/
   exists n k, r = Err (TransactionBudgetExceeded n k)).
Proof.
  unfold charge_undo, st_bind, st_err, st_modify, st_ret. simpl. intros Hc.
  case_decide as Hd; [|case_match]; simplify_eq/=; split_and!; try done;
    first [right; by eauto | left; split; [done|lia]].
Qed.

(** What the part of [record_mutation] after the charges does. *)
Lemma record_rest_cases io m c c' r :
  Journal.wf (journal_of c) ->
  st_bind (st_modify (append_record m)) (fun _ =>
    st_bind (st_modify (record_footprint m)) (fun _ =>
      st_bind (match mu_undo_entry m with
               | Some e => add_undo_log to_stdvec io e
               | None => st_ret tt
               end) (fun _ =>
        st_bind (match mu_modified_table m with
                 | Some t => st_modify (record_table_modification t)
                 | None => st_ret tt
                 end) (fun _ => st_modify clear_write_validation)))) c = (c', r) ->
  (r = Ok tt \/ r = Err InternalError) /\
  x_const c' = x_const c /\ x_budget c' = x_budget c /\ x_life c' = x_life c /\
  journal_of c' = journal_of (append_record m c) /\
  ws_of c' = ws_of (record_footprint m (append_record m c)) /\
  (r = Ok tt -> write_validated (x_logs c') = false /\
    forall t, mu_modified_table m = Some t -> t ∈ modified_tables (x_logs c')).
Proof.
  intros Hj. unfold st_bind, st_modify. cbn [fst].
  set (c2 := record_footprint m (append_record m c)).
  destruct (footprint_life m (append_record m c)) as (L1 & L2 & L3). fold c2 in L1, L2, L3.
  destruct (frame_footprint m (append_record m c)) as (F1 & _ & _). simpl in F1. fold c2 in F1.
  match goal with |- (let (_, _) := ?X in _) = _ -> _ => destruct X as [c3 r3] eqn:E3 end.
  assert (H3 : (r3 = Ok tt \/ r3 = Err InternalError) /\ x_const c3 = x_const c /\
    x_budget c3 = x_budget c /\ x_life c3 = x_life c /\ journal_of c3 = journal_of (append_record m c) /\
    ws_of c3 = ws_of c2).
  { destruct (mu_undo_entry m).
    - unfold add_undo_log in E3. destruct (UndoLog.add _ _ _ _) as [ul [[]|x]];
        injection E3 as <- <-; split_and!; simpl; auto.
    - injection E3 as <- <-. split_and!; auto. }
  destruct H3 as (R3 & A1 & A2 & A3 & A4 & A5). destruct r3 as [[]|x].
  2:{ intros Hrun. injection Hrun as <- <-. by split_and!. }
  match goal with |- (let (_, _) := ?X in _) = _ -> _ => set (c4 := X) end.
  assert (H4 : exists c5, c4 = (c5, Ok tt) /\ x_const c5 = x_const c3 /\ x_budget c5 = x_budget c3 /\
    x_life c5 = x_life c3 /\ journal_of c5 = journal_of c3 /\ ws_of c5 = ws_of c3 /\
    forall t, mu_modified_table m = Some t -> t ∈ modified_tables (x_logs c5)).
  { subst c4. destruct (mu_modified_table m) as [t|]; [|by exists c3].
    exists (record_table_modification t c3). split; [done|].
    unfold record_table_modification. case_bool_decide as Hb.
    - split_and!; try done. by intros ? [= <-].
    - split_and!; try done. intros ? [= <-]. simpl. set_solver. }
  destruct H4 as (c5 & -> & B1 & B2 & B3 & B4 & B5 & B6). intros [= <- <-].
  split; [by left|]. simpl. split_and!; [congruence..| | |done].
  - change (journal_of (clear_write_validation c5)) with (journal_of c5). congruence.
  - change (ws_of (clear_write_validation c5)) with (ws_of c5). congruence.
Qed.

(** Recording a mutation, on every branch.  Either it is refused (by the
    transaction's state, its rollback-only mark, its expiry, a read-only
    transaction or a budget) and journal, sets, undo log, tables and
    savepoints are untouched; or exactly one record is appended to the
    journal, whose sequence is its position, which is not yet committed, and
    whose redo entry carries the transaction and that sequence; the write set
    only grows and covers every entity of the mutation and the schema it
    changes.  The second case also covers a failure to spill the undo log,
    which is the only error reported after the record was appended; without
    it the transaction must be certified again. *)
Theorem record_mutation_effect now io m c c' r :
  Journal.wf (mutation_journal (x_logs c)) ->
  record_mutation to_stdvec now io m c = (c', r) ->
  (x_logs c' = x_logs c /\ exists e, r = Err e /\ e <> InternalError) \/
  ((r = Ok tt \/ r = Err InternalError) /\
   can_execute now c = Ok tt /\ read_only (x_const c) = false /\
   (exists rec,
     j_records (mutation_journal (x_logs c')) = j_records (mutation_journal (x_logs c)) ++ [rec] /\
     r_sequence rec = Journal.len (mutation_journal (x_logs c)) /\
     r_commit_timestamp rec = None /\ r_undo rec = mu_undo_entry m /\
     r_redo rec = WalEntry.with_transaction (id (x_const c)) (r_sequence rec) <$> mu_redo_entry m) /\
   ws_grows (write_set (x_logs c)) (write_set (x_logs c')) /\
   Forall (covers (write_set (x_logs c'))) (mu_entity_keys m) /\
   (classify m = MSchema ->
     default "schema"%string (mu_modified_table m) ∈ schema_resources (write_set (x_logs c'))) /\
   (r = Ok tt -> write_validated (x_logs c') = false /\
     forall t, mu_modified_table m = Some t -> t ∈ modified_tables (x_logs c'))).
Proof.
  intros Hj. unfold record_mutation. intros Hrun.
  unfold st_bind at 1, st_get in Hrun. unfold st_bind at 1, st_lift at 1 in Hrun.
  destruct (can_execute now c) as [[]|e] eqn:Ec.
  2:{ injection Hrun as <- <-. left. split; [done|]. exists e. split; [done|].
      unfold can_execute in Ec. intros ->. repeat case_match; discriminate. }
  unfold st_bind at 1, st_lift at 1, validate_write_allowed in Hrun.
  destruct (read_only (x_const c)) eqn:Ero; [injection Hrun as <- <-; left; split; [done|by eexists]|].
  unfold st_bind at 1 in Hrun.
  destruct (charge_mutation c) as [c1 r1] eqn:E1. apply charge_mutation_cases in E1 as
    (L1 & K1 & _ & _ & _ & [[-> _]|(n & k & ->)]);
    [|injection Hrun as <- <-; left; split; [done|by eexists]].
  unfold st_bind at 1 in Hrun.
  destruct (charge_undo c1) as [c2 r2] eqn:E2. apply charge_undo_cases in E2 as
    (L2 & K2 & _ & _ & _ & [[-> _]|(n & k & ->)]);
    [|injection Hrun as <- <-; left; split; [congruence|by eexists]].
  assert (Hlogs : x_logs c2 = x_logs c) by congruence.
  assert (Hconst : x_const c2 = x_const c) by congruence.
  right. apply record_rest_cases in Hrun as (R & _ & _ & _ & J & W & V);
    [|unfold journal_of; by rewrite Hlogs].
  destruct (footprint_covers m (append_record m c2)) as (G1 & G2 & G3). rewrite <- W in G1, G2, G3.
  split_and!; try done.
  - unfold journal_of in J. rewrite J. simpl. rewrite Hlogs. eexists. split; [done|].
    destruct Hj as [_ Hn]. simpl. rewrite Hn, Hconst. by destruct (mu_redo_entry m).
  - unfold ws_of in G1. simpl in G1. by rewrite Hlogs in G1.
Qed.

(** ** Budgets *)

Context {G : Type} `{UndoTarget Value G}.
Implicit Types g : G.

(** After [n] operations. *)
Record binv (n : Z) c : Prop := {
  bi_count : Journal.len (journal_of c) <= mutation_count (x_budget c) <= n;
  bi_undo : 64 * Journal.len (journal_of c) <= undo_bytes (x_budget c) <= 64 * n;
  bi_max : max_mutation_count (x_const c) > 0 ->
    Journal.len (journal_of c) <= max_mutation_count (x_const c);
  bi_max_undo : max_undo_bytes (x_const c) > 0 ->
    64 * Journal.len (journal_of c) <= max_undo_bytes (x_const c);
}.

Lemma len_nonneg (j : MutationJournal Value) : 0 <= Journal.len j.
Proof. unfold Journal.len. lia. Qed.

Lemma binv_frame n c c' :
  binv n c -> x_const c' = x_const c -> journal_of c' = journal_of c ->
  mutation_count (x_budget c') = mutation_count (x_budget c) ->
  undo_bytes (x_budget c') = undo_bytes (x_budget c) -> binv (n + 1) c'.
Proof. intros [] Ek Ej Em Eu. split; rewrite ?Ek, ?Ej, ?Em, ?Eu; auto; lia. Qed.

Lemma binv_record n now io m c :
  binv n c -> Journal.wf (journal_of c) -> 64 * (n + 1) < 2 ^ 64 ->
  binv (n + 1) (record_mutation to_stdvec now io m c).1.
Proof.
  intros Hb Hj Hn. pose proof Hb as [B1 B2 B3 B4]. pose proof (len_nonneg (journal_of c)).
  unfold record_mutation. unfold st_bind at 1, st_get. unfold st_bind at 1, st_lift at 1.
  destruct (can_execute now c) as [[]|e]; [|by eapply binv_frame].
  unfold st_bind at 1, st_lift at 1.
  destruct (validate_write_allowed c) as [[]|e]; [|by eapply binv_frame].
  unfold st_bind at 1. destruct (charge_mutation c) as [c1 r1] eqn:E1.
  apply charge_mutation_cases in E1 as (L1 & K1 & _ & M1 & U1 & R1).
  rewrite wrap_u64_small in M1 by (unfold is_u64, U64_MAX; lia).
  assert (J1 : journal_of c1 = journal_of c) by (unfold journal_of; by rewrite L1).
  destruct R1 as [[-> Hc1]|(x & y & ->)].
  2:{ simpl. split; rewrite ?K1, ?J1, ?M1, ?U1; auto; lia. }
  unfold st_bind at 1. destruct (charge_undo c1) as [c2 r2] eqn:E2.
  apply charge_undo_cases in E2 as (L2 & K2 & _ & M2 & U2 & R2).
  rewrite U1, wrap_u64_small in U2 by (unfold is_u64, U64_MAX; lia).
  assert (J2 : journal_of c2 = journal_of c) by (unfold journal_of; by rewrite L2, L1).
  rewrite K1 in *. destruct R2 as [[-> Hc2]|(x & y & ->)].
  2:{ simpl. split; rewrite ?K2, ?J2, ?M2, ?U2, ?M1; auto; lia. }
  destruct (st_bind (st_modify (append_record m)) _ c2) as [c' r] eqn:E3. simpl.
  apply record_rest_cases in E3 as (_ & K3 & B3' & _ & J3 & _); [|by rewrite J2].
  assert (Hl : Journal.len (journal_of c') = Journal.len (journal_of c) + 1).
  { rewrite J3. unfold journal_of, append_record in *. simpl. unfold Journal.len. simpl.
    rewrite J2, length_app. simpl. lia. }
  split; rewrite ?K3, ?K2, ?Hl, ?B3', ?M2, ?U2, ?M1 in *; auto; lia.
Qed.

Lemma len_truncate k (j : MutationJournal Value) :
  0 <= k -> Journal.len (Journal.truncate k j) <= Journal.len j.
Proof.
  intros Hk. unfold Journal.len. rewrite Journal.records_truncate, length_take by done. lia.
Qed.

Lemma len_truncate_0 (j : MutationJournal Value) : Journal.len (Journal.truncate 0 j) = 0.
Proof. unfold Journal.len. by rewrite Journal.records_truncate. Qed.

Lemma binv_shrink n c c' :
  binv n c -> x_const c' = x_const c ->
  Journal.len (journal_of c') <= Journal.len (journal_of c) ->
  mutation_count (x_budget c') = Journal.len (journal_of c') ->
  undo_bytes (x_budget c') = 64 * Journal.len (journal_of c') -> binv (n + 1) c'.
Proof.
  intros [B1 B2 B3 B4] Ek Hl Em Eu. split; rewrite ?Ek, ?Em, ?Eu; lia.
Qed.

Lemma binv_rollback n now i c g es :
  inv to_stdvec c es -> binv n c -> 64 * (n + 1) < 2 ^ 64 ->
  binv (n + 1) (rollback_to_savepoint from_bytes now io_ok i c g).1.1.
Proof.
  intros Hinv Hb Hn. destruct (rollback_life from_bytes now io_ok i c g) as [_ Hk].
  unfold rollback_to_savepoint, execute_undo_logs_from_index in *.
  destruct (negb _); [by eapply binv_frame|].
  destruct (is_expired now c); [by eapply binv_frame|].
  destruct (get_savepoint i c) as [s|] eqn:Es; [|by eapply binv_frame].
  destruct (iv_live _ _ _ Hinv i s Es) as (_ & _ & _ & Hjl & _).
  destruct (validate_against _ _); [|by eapply binv_frame].
  destruct (UndoLog.execute_undo_from_index _ _ _ _ _ _) as [[ul g1] [[]|x]]; simpl in *;
    [|by eapply binv_frame].
  destruct (match sp_staged_write_mark s with Some mark => _ | None => _ end) as [g3 [?|?]];
    simpl in *; [|by eapply binv_frame].
  unfold restore_savepoint in *. case_decide as Hd; [by eapply binv_frame|].
  cbn [fst] in *. eapply binv_shrink; [exact Hb|done|..].
  - simpl. apply len_truncate. lia.
  - done.
  - simpl. change (mutation_journal (x_logs c)) with (journal_of c).
    pose proof (len_truncate (sp_journal_len s) (journal_of c) ltac:(lia)).
    pose proof (len_nonneg (Journal.truncate (sp_journal_len s) (journal_of c))).
    destruct Hb as [B1 B2 _ _]. rewrite wrap_u64_small by (unfold is_u64, U64_MAX; lia). apply Z.mul_comm.
Qed.

Lemma binv_op n o c g es :
  inv to_stdvec c es -> binv n c -> 64 * (n + 1) < 2 ^ 64 ->
  binv (n + 1) (run_op to_stdvec from_bytes o (c, g)).1.
Proof.
  intros Hinv Hb Hn. destruct (run_op_life to_stdvec from_bytes o c g) as [_ Hk].
  pose proof (iv_journal _ _ _ Hinv) as Hj.
  destruct o; simpl in *; try by eapply binv_frame.
  - unfold transition_to. case_match; by eapply binv_frame.
  - unfold begin_statement. repeat case_match; by eapply binv_frame.
  - unfold finish_statement. case_match; by eapply binv_frame.
  - unfold mark_resources_released. case_match; by eapply binv_frame.
  - destruct a; by eapply binv_frame.
  - unfold record_table_modification. case_match; by eapply binv_frame.
  - unfold add_undo_log. destruct (UndoLog.add _ _ _ _). by eapply binv_frame.
  - by apply binv_record.
  - unfold set_savepoint_staging_mark. destruct (Savepoints.set_staging_mark _ _ _).
    by eapply binv_frame.
  - by eapply binv_rollback.
  - unfold clear, clear_undo_logs in *. destruct (UndoLog.clear _ _) as [? [?|?]]; simpl in *;
      [|by eapply binv_frame].
    eapply binv_shrink; [exact Hb|done|..].
    + by apply len_truncate.
    + symmetry. apply len_truncate_0.
    + transitivity (64 * 0); [done|]. f_equal. symmetry. apply len_truncate_0.
Qed.

Lemma binv_run n ops c g es :
  UndoLog.postcard_roundtrip to_stdvec from_bytes ->
  inv to_stdvec c es -> binv n c -> 0 <= n -> Z.of_nat (length es) <= n ->
  Forall (op_ok (Value := Value)) ops -> 64 * (n + Z.of_nat (length ops)) < 2 ^ 64 ->
  binv (n + Z.of_nat (length ops)) (run_ops to_stdvec from_bytes ops (c, g)).1.
Proof.
  intros Hpc. revert n c g es. induction ops as [|o ops IH]; intros n c g es Hinv Hb Hn Hes Hok Hlen;
    cbn [run_ops length] in *.
  - by rewrite Z.add_0_r.
  - apply Forall_cons in Hok as [Ho Hok].
    destruct (run_op_inv to_stdvec from_bytes Hpc o c g es Hinv Ho ltac:(lia)) as (es1 & I1 & L1 & _).
    pose proof (binv_op n o c g es Hinv Hb ltac:(lia)) as Hb1.
    destruct (run_op to_stdvec from_bytes o (c, g)) as [c1 g1]. cbn [fst] in *.
    replace (n + Z.of_nat (S (length ops))) with (n + 1 + Z.of_nat (length ops)) by lia.
    eapply IH; [done|done|lia|lia|done|lia].
Qed.

(** The budget bounds the journal.  Under any sequence of operations from
    a fresh transaction, with a mutation limit the journal never holds more
    records than the limit, and with an undo limit its estimated undo bytes
    (64 for each record) never exceed it; the counters never fall below what
    the journal holds, also after rollbacks to savepoints, which reset them. *)
Theorem journal_within_budget k now0 g0 ops :
  UndoLog.postcard_roundtrip to_stdvec from_bytes ->
  Forall (op_ok (Value := Value)) ops -> 64 * Z.of_nat (length ops) < 2 ^ 64 ->
  let c := (run_ops to_stdvec from_bytes ops (fresh k now0, g0)).1 in
  let n := recorded_mutations c in
  (max_mutation_count k > 0 -> n <= max_mutation_count k) /\
  (max_undo_bytes k > 0 -> 64 * n <= max_undo_bytes k) /\
  n <= mutation_count (x_budget c) /\ 64 * n <= undo_bytes (x_budget c).
Proof.
  intros Hpc Hok Hlen. cbv zeta. unfold recorded_mutations.
  assert (Hb : binv 0 (fresh (Value := Value) k now0)) by (split; simpl; unfold Journal.len; simpl; lia).
  pose proof (binv_run 0 ops _ g0 [] Hpc (inv_fresh to_stdvec k now0) Hb ltac:(lia) ltac:(simpl; lia)
    Hok ltac:(lia)) as [B1 B2 B3 B4].
  assert (Hk : x_const (run_ops to_stdvec from_bytes ops (fresh k now0, g0)).1 = k).
  { clear. assert (Hgen : forall cg, x_const (run_ops to_stdvec from_bytes ops cg).1 = x_const cg.1).
    { induction ops as [|o ops IH]; intros [c g]; cbn [run_ops]; [done|]. rewrite IH.
      by apply run_op_life. }
    apply Hgen. }
  rewrite Hk in *. unfold journal_of in *. split_and!; try done; lia.
Qed.

End mutation.

(** ** Savepoints by name *)

(** A live savepoint with a name. *)
Definition live_named {Value} (c : TransactionContext Value) (n : string) (s : SavepointInfo) : Prop :=
  sp_name s = Some n /\ exists i, get_savepoint i c = Some s.

Lemma max_by_sequence_spec l :
  match Savepoints.max_by_sequence l with
  | Some s => s ∈ l /\ forall t, t ∈ l -> sp_sequence t <= sp_sequence s
  | None => l = []
  end.
Proof.
  induction l as [|s l IH]; simpl; [done|].
  destruct (Savepoints.max_by_sequence l) as [b|].
  - destruct IH as [Hin Hmax]. case_decide as Hd.
    + split; [by left|]. intros t [->|Ht]%elem_of_cons; [lia|]. specialize (Hmax t Ht). lia.
    + split; [by right|]. intros t [->|Ht]%elem_of_cons; [lia|auto].
  - subst. split; [by left|]. intros t ->%list_elem_of_singleton. lia.
Qed.

(** A savepoint name means the newest live savepoint with that name: the
    lookup answers with a live savepoint of that name whose sequence is
    maximal among them, and with nothing exactly when there is none. *)
Theorem find_by_name_newest {Value} (c : TransactionContext Value) n :
  match find_savepoint_by_name n c with
  | Some s => live_named c n s /\ forall t, live_named c n t -> sp_sequence t <= sp_sequence s
  | None => forall t, ~ live_named c n t
  end.
Proof.
  unfold find_savepoint_by_name, Savepoints.find_by_name.
  set (m := savepoints (savepoint_manager (x_logs c))).
  assert (Hin : forall t, t ∈ base.filter (fun s => sp_name s = Some n) (map_to_list m).*2 <->
    live_named c n t).
  { intros t. rewrite list_elem_of_filter, list_elem_of_fmap. unfold live_named. f_equiv. split.
    - intros ([i t'] & -> & Ht%elem_of_map_to_list). eauto.
    - intros (i & Ht). exists (i, t). split; [done|by apply elem_of_map_to_list]. }
  pose proof (max_by_sequence_spec (base.filter (fun s => sp_name s = Some n) (map_to_list m).*2)) as Hs.
  destruct (Savepoints.max_by_sequence _) as [s|].
  - destruct Hs as [Hs%Hin Hmax]. split; [done|]. intros t Ht. by apply Hmax, Hin.
  - intros t Ht%Hin. rewrite Hs in Ht. by apply elem_of_nil in Ht.
Qed.

End CtxMutation.

(** ** Concrete inputs *)

Module CtxMutationExample.
Import Ctx CtxFacts CtxMutation UndoExample CtxExample.

Definition ex_ctx : TransactionContext Z := fresh ex_const 0.

Definition ex_mut : TransactionContext Z * result unit TransactionError :=
  record_mutation enc 0 io_ok (ex_insert 1) ex_ctx.

Lemma record_mutation_effect_witness :
  ex_mut.2 = Ok tt /\ ex_vertex 1 ∈ vertices (write_set (x_logs ex_mut.1)).
Proof.
  split; [vm_compute; reflexivity|].
  assert (Hr : ex_mut.2 = Ok tt) by (vm_compute; reflexivity).
  destruct (record_mutation_effect enc 0 io_ok (ex_insert 1) ex_ctx ex_mut.1 ex_mut.2
    Journal.wf_new ltac:(vm_compute; reflexivity)) as [(_ & e & He & _)|Hx].
  - rewrite Hr in He. discriminate.
  - destruct Hx as (_ & _ & _ & _ & _ & Hcov & _). by apply Forall_inv in Hcov.
Defined.

(** A limit of two mutations, and three attempts. *)
Definition ex_small : CtxConst :=
  new_const 1 TWrite false 5 0
    (mkConfig 30000 DSync RepeatableRead None None None false 2 0 (S754_zero false) Optimistic None).

Definition ex_three : list (cop Z) :=
  [CMutate 0 io_ok (ex_insert 1); CMutate 0 io_ok (ex_insert 2); CMutate 0 io_ok (ex_insert 3)].

Lemma journal_within_budget_witness :
  let c := (run_ops (G := list Z) enc dec ex_three (fresh ex_small 0, [])).1 in
  Journal.len (mutation_journal (x_logs c)) <= 2.
Proof.
  assert (Hop : forall n, op_ok (CMutate 0 io_ok (ex_insert n))) by (intros n; by left).
  assert (Hok : Forall op_ok ex_three)
    by (repeat first [apply Forall_nil_2 | apply Forall_cons_2; [apply Hop|]]).
  exact (proj1 (journal_within_budget enc dec ex_small 0 [] ex_three codec_roundtrip Hok
    ltac:(reflexivity)) ltac:(reflexivity)).
Defined.

End CtxMutationExample.
