(* ===== verification/Isolation.v ===== *)
(** * Isolation

    Certification as a system: any number of transactions reserve a start
    timestamp, begin, accumulate reads and writes, are pre-checked, published
    and removed, in any order, while old publications are pruned at any
    cutoff and durable commits are re-driven by forced publication.  The
    contexts are seen only through [CertContext] and its laws.

    The history of publications is ghost state; the certifier itself keeps
    only what pruning leaves.  The code does not tie the cutoff of a pruning
    to the transactions that still need the dropped entries: a start
    timestamp is reserved before it is pinned, and a cutoff is read before it
    is used.  So prunings are unrestricted here, and the ghost floor, the
    greatest commit timestamp a pruning may have dropped, decides for every
    verdict whether it was taken against everything committed after the
    transaction's start ([Certified]) or not ([Overrun]). *)

From stdpp Require Import base gmap sets list strings relations.
From Stdlib Require Import ZArith Lia.
From S2P Require Import Prelude Types SnapshotTracker VersionManager WriteSet Stats Certifier Context.

(** How a publication entered the history. *)
Inductive Grade :=
| Certified  (** reviewed, nothing above its start dropped before *)
| Overrun    (** reviewed after a pruning above its start *)
| Forced.    (** re-driven without review *)

#[export] Instance Grade_eq_dec : EqDecision Grade.
Proof. solve_decision. Defined.

(** The write clock, the start timestamps reserved for transactions not yet
    in the active table, and every commit timestamp issued. *)
Record wclock := mkClock {
  k_now : Z;
  k_starts : gset Z;
  k_commits : gset Z;
}.

Record sys (Ctx : Type) := mkSys {
  s_env : CertEnv Ctx;
  s_hist : list (Publication * Grade);
  s_floor : Z;
  s_checked : list (TransactionId * (Ctx * bool));
  s_used : gset Z;
  s_clock : wclock;
}.
Arguments mkSys {Ctx}.
Arguments s_env {Ctx}.
Arguments s_hist {Ctx}.
Arguments s_floor {Ctx}.
Arguments s_checked {Ctx}.
Arguments s_used {Ctx}.
Arguments s_clock {Ctx}.

Module Isolation.
Import Certify CertFacts.

Section isolation.
Context {Ctx : Type} `{CertContextLaws Ctx}.
(** Which cutoffs a pruning may use. *)
Context (prune_ok : sys Ctx -> Z -> Prop).
Implicit Types s : sys Ctx.

Definition set_active (m : gmap Z Ctx) (e : CertEnv Ctx) : CertEnv Ctx :=
  mkEnv (ce_cert e) m (ce_stats e).

Definition reserve_start (k : wclock) : wclock :=
  mkClock (k_now k + 1) ({[k_now k + 1]} ∪ k_starts k) (k_commits k).

Definition take_start (ts : Z) (k : wclock) : wclock :=
  mkClock (k_now k) (k_starts k ∖ {[ts]}) (k_commits k).

Definition reserve_commit (k : wclock) : wclock :=
  mkClock (k_now k + 1) (k_starts k) ({[k_now k + 1]} ∪ k_commits k).

(** Nothing committed after [start] has been dropped. *)
Definition covers (floor start : Z) : bool := bool_decide (floor <= start).

Definition published (h : list (Publication * Grade)) (txn : TransactionId) : Prop :=
  exists p, p ∈ h.*1 /\ p_txn p = txn.

Definition pub_of (commit : Z) (txn : TransactionId) (ctx : Ctx) : Publication :=
  mkPub commit (cc_start_timestamp ctx) txn (cc_write_set ctx).

(** [force_publish] skips what the certifier still holds. *)
Definition forced (c : Certifier) (p : Publication) (h : list (Publication * Grade))
  : list (Publication * Grade) :=
  if bool_decide (p_ws p ∈ default [] (committed_write_sets c !! p_commit p)) then h
  else h ++ [(p, Forced)].

(** The pre-checks that marked their transaction. *)
Definition note_check (f : Z) (txn : TransactionId) (e : CertEnv Ctx)
    (ck : list (TransactionId * (Ctx * bool))) : list (TransactionId * (Ctx * bool)) :=
  match ce_active e !! txn with
  | Some c => if cc_write_validated c then ck ++ [(txn, (c, covers f (cc_start_timestamp c)))] else ck
  | None => ck
  end.

Inductive cstep : sys Ctx -> sys Ctx -> Prop :=
(** A write transaction reserves its start timestamp; nothing pins it yet. *)
| cs_reserve e h f ck u k :
    cstep (mkSys e h f ck u k) (mkSys e h f ck u (reserve_start k))
(** A reservation is given up. *)
| cs_abandon e h f ck u k ts :
    cstep (mkSys e h f ck u k) (mkSys e h f ck u (take_start ts k))
(** A transaction enters the active table under a fresh identifier; a
    read-only one starts at any snapshot. *)
| cs_begin e h f ck u k txn ctx :
    txn ∉ u -> cc_write_validated ctx = false ->
    cc_read_only ctx = true \/ cc_start_timestamp ctx ∈ k_starts k ->
    cstep (mkSys e h f ck u k)
      (mkSys (set_active (<[txn := ctx]> (ce_active e)) e) h f ck ({[txn]} ∪ u)
         (if cc_read_only ctx then k else take_start (cc_start_timestamp ctx) k))
(** It records reads and writes while not validated. *)
| cs_update e h f ck u k txn ctx ctx' :
    ce_active e !! txn = Some ctx -> cc_write_validated ctx = false ->
    cc_write_validated ctx' = false -> cc_start_timestamp ctx' = cc_start_timestamp ctx ->
    cc_read_only ctx' = cc_read_only ctx ->
    cstep (mkSys e h f ck u k)
      (mkSys (set_active (<[txn := ctx']> (ce_active e)) e) h f ck u k)
(** Pre-check, whatever its verdict. *)
| cs_check e h f ck u k now txn ctx e' :
    ce_active e !! txn = Some ctx -> cc_write_validated ctx = false ->
    check_write_set_conflict now txn e = (e', Ok tt) ->
    cstep (mkSys e h f ck u k) (mkSys e' h f (note_check f txn e' ck) u k)
| cs_check_fails e h f ck u k now txn e' x :
    check_write_set_conflict now txn e = (e', Err x) ->
    cstep (mkSys e h f ck u k) (mkSys e' h f ck u k)
(** A commit timestamp is reserved. *)
| cs_reserve_commit e h f ck u k :
    cstep (mkSys e h f ck u k) (mkSys e h f ck u (reserve_commit k))
(** Publication of a validated writer that has not been published, with its
    verdict. *)
| cs_publish e h f ck u k now txn ctx commit e' :
    ce_active e !! txn = Some ctx -> cc_write_validated ctx = true ->
    cc_read_only ctx = false -> Ws.is_empty (cc_write_set ctx) = false ->
    ~ published h txn -> commit ∈ k_commits k ->
    publish now txn commit (cc_start_timestamp ctx) (cc_write_set ctx) e = (e', Ok tt) ->
    cstep (mkSys e h f ck u k)
      (mkSys e' (h ++ [(pub_of commit txn ctx,
                        if covers f (cc_start_timestamp ctx) then Certified else Overrun)])
         f ck u k)
| cs_publish_fails e h f ck u k now txn ctx commit e' x :
    ce_active e !! txn = Some ctx ->
    publish now txn commit (cc_start_timestamp ctx) (cc_write_set ctx) e = (e', Err x) ->
    cstep (mkSys e h f ck u k) (mkSys e' h f ck u k)
(** Re-drive of a durable commit, its context still in the table or gone. *)
| cs_force e h f ck u k txn ctx commit :
    ce_active e !! txn = Some ctx -> cc_write_validated ctx = true ->
    Ws.is_empty (cc_write_set ctx) = false -> published h txn -> commit ∈ k_commits k ->
    cstep (mkSys e h f ck u k)
      (mkSys (with_cert (Cert.force_publish txn commit (cc_write_set ctx)) e)
         (forced (ce_cert e) (pub_of commit txn ctx) h) f ck u k)
| cs_force_gone e h f ck u k p :
    p ∈ h.*1 -> Ws.is_empty (p_ws p) = false ->
    cstep (mkSys e h f ck u k)
      (mkSys (with_cert (Cert.force_publish (p_txn p) (p_commit p) (p_ws p)) e)
         (forced (ce_cert e) p h) f ck u k)
(** Removal after commit or abort. *)
| cs_remove e h f ck u k txn :
    cstep (mkSys e h f ck u k)
      (mkSys (set_active (delete txn (ce_active e))
                (with_cert (Cert.unregister_reads txn) e)) h f ck u k)
(** Pruning. *)
| cs_prune e h f ck u k oldest :
    prune_ok (mkSys e h f ck u k) oldest ->
    cstep (mkSys e h f ck u k)
      (mkSys (with_cert (Cert.prune oldest) e) h (floor_after oldest (ce_cert e) h.*1 f) ck u k).

(** The write clock of a new version manager stands at 1. *)
Definition start_sys (st : TransactionStats) : sys Ctx :=
  mkSys (mkEnv Cert.new ∅ st) [] 0 [] ∅ (mkClock 1 ∅ ∅).

Definition creachable s : Prop := exists st, rtc cstep (start_sys st) s.

(** ** Invariant *)

(** First committer wins: a certified publication does not conflict with an
    earlier one, reviewed or forced, that committed after its start. *)
Definition hist_ok (h : list (Publication * Grade)) : Prop :=
  forall i j p g q, (i < j)%nat -> h !! i = Some (p, g) -> h !! j = Some (q, Certified) ->
    p_start q < p_commit p -> Ws.has_conflict_with (p_ws q) (p_ws p) = false.

(** A serializable transaction validated after another, against a complete
    history, did not read what that one wrote, unless that one is gone without
    a concurrent publication. *)
Definition reads_ok s : Prop :=
  forall i j t1 c1 b1 t2 c2, (i < j)%nat ->
    s_checked s !! i = Some (t1, (c1, b1)) -> s_checked s !! j = Some (t2, (c2, true)) ->
    cc_concurrency_mode c2 <> SingleWriter -> serializable c2 = true ->
    cc_read_only c1 = false ->
    ~ items_overlap (cc_read_set c2) (cc_write_set c1) \/
    (ce_active (s_env s) !! t1 = None /\
     forall p, p ∈ (s_hist s).*1 -> p_txn p = t1 -> p_commit p <= cc_start_timestamp c2).

Record cinv s : Prop := {
  cv_cert : cert_inv (ce_cert (s_env s)) (s_hist s).*1 (s_floor s);
  cv_active : forall t c, ce_active (s_env s) !! t = Some c -> t ∈ s_used s;
  cv_hist : hist_ok (s_hist s);
  cv_nodup : NoDup (s_checked s).*1;
  cv_checked : forall t c b, (t, (c, b)) ∈ s_checked s ->
    t ∈ s_used s /\ cc_write_validated c = true /\
    (forall c', ce_active (s_env s) !! t = Some c' -> c' = c);
  cv_validated : forall t c, ce_active (s_env s) !! t = Some c ->
    cc_write_validated c = true -> exists b, (t, (c, b)) ∈ s_checked s;
  cv_pub : forall p, p ∈ (s_hist s).*1 -> exists c b, (p_txn p, (c, b)) ∈ s_checked s /\
    p_ws p = cc_write_set c /\ p_start p = cc_start_timestamp c;
  cv_reads : reads_ok s;
}.

Lemma checked_unique s t c1 c2 :
  NoDup (s_checked s).*1 -> (t, c1) ∈ s_checked s -> (t, c2) ∈ s_checked s -> c1 = c2.
Proof.
  intros Hnd [i Hi]%list_elem_of_lookup [j Hj]%list_elem_of_lookup.
  assert (i = j) as ->; [|congruence].
  eapply (NoDup_lookup _ _ _ t Hnd); by rewrite list_lookup_fmap, ?Hi, ?Hj.
Qed.

Lemma hist_ok_snoc h q g :
  hist_ok h ->
  (g = Certified -> forall p, p ∈ h.*1 -> p_start q < p_commit p ->
    Ws.has_conflict_with (p_ws q) (p_ws p) = false) ->
  hist_ok (h ++ [(q, g)]).
Proof.
  intros Hh Hq i j a ga b Hij Ha Hb Hs.
  apply lookup_app_Some in Hb as [Hb|[Hlen Hb]].
  - rewrite lookup_app_l in Ha by (apply lookup_lt_Some in Hb; lia). eauto.
  - apply list_lookup_singleton_Some in Hb as [Hj [= -> ->]].
    rewrite lookup_app_l in Ha by lia. apply list_elem_of_lookup_2 in Ha.
    apply Hq; [done| |done]. by apply (list_elem_of_fmap_2 fst) in Ha.
Qed.

(** The invariant does not read the clock. *)
Lemma cinv_clock e h f ck u k k' :
  cinv (mkSys e h f ck u k) -> cinv (mkSys e h f ck u k').
Proof. intros [? ? ? ? ? ? ? ?]. by split. Qed.

(** The parts of the invariant that mention only contexts not yet validated. *)
Lemma cinv_set_active e h f ck u k txn ctx u' :
  cinv (mkSys e h f ck u k) -> u ⊆ u' -> txn ∈ u' ->
  cc_write_validated ctx = false ->
  (forall x, (txn, x) ∉ ck) ->
  cinv (mkSys (set_active (<[txn := ctx]> (ce_active e)) e) h f ck u' k).
Proof.
  intros [Hc Ha Hh Hn Hck Hv Hp Hr] Hu Ht Hval Hnew; simpl in *.
  assert (Hne : forall t x, (t, x) ∈ ck -> t <> txn) by (intros t x Hin ->; by eapply Hnew).
  split; simpl; try done.
  - intros t c [[<- <-]|[? Hx]]%lookup_insert_Some; [done|]. apply Ha in Hx. auto.
  - intros t c b Hin. destruct (Hck t c b Hin) as (? & ? & ?). split; [auto|]. split; [done|].
    rewrite lookup_insert_ne by (symmetry; by eapply Hne). done.
  - intros t c [[<- <-]|[? Hx]]%lookup_insert_Some; [congruence|auto].
  - intros i j t1 c1 b1 t2 c2 Hij H1 H2 Hm Hs Hro. simpl in *.
    rewrite lookup_insert_ne; [by eapply Hr|].
    apply list_elem_of_lookup_2 in H1. symmetry. by eapply Hne.
Qed.

Lemma cinv_same_active e e' h f ck u k :
  ce_active e' = ce_active e -> cert_inv (ce_cert e') h.*1 f ->
  cinv (mkSys e h f ck u k) -> cinv (mkSys e' h f ck u k).
Proof.
  intros Ea Hc [_ Hact Hh Hn Hck Hv Hp Hr]. unfold reads_ok in *; simpl in *.
  rewrite <- Ea in *. by split.
Qed.

Lemma cert_inv_locks c h f locks :
  cert_inv c h f -> cert_inv (Cert.set_read_locks locks c) h f.
Proof. intros [? ? ? ? ?]. by split. Qed.

(** A transaction just validated against a complete history read nothing that
    an earlier validated one wrote and may still publish, or published after
    its start. *)
Lemma reads_validate e h f ck u k txn ctx t1 c1 b1 :
  cinv (mkSys e h f ck u k) -> (t1, (c1, b1)) ∈ ck -> t1 <> txn ->
  certified e h.*1 txn ctx -> serializable ctx = true -> cc_read_only c1 = false ->
  ~ items_overlap (cc_read_set ctx) (cc_write_set c1) \/
  (ce_active e !! t1 = None /\
   forall p, p ∈ h.*1 -> p_txn p = t1 -> p_commit p <= cc_start_timestamp ctx).
Proof.
  intros [Hc Ha Hh Hn Hck Hv Hp Hr] Hi Ht1 Hcert Hs Hro; simpl in *.
  destruct (Hck _ _ _ Hi) as (_ & Hv1 & Hu1).
  destruct (ce_active e !! t1) as [c'|] eqn:E1.
  - left. specialize (Hu1 _ eq_refl). subst c'.
    pose proof (cf_active_reads _ _ _ _ Hcert t1 c1) as Hnc.
    rewrite <- not_true_iff_false, WsFacts.has_conflict_spec in Hnc.
    intros Ho. apply Hnc; [by repeat split|done|].
    unfold items_overlap in Ho. unfold Ws.conflicts. tauto.
  - destruct (decide (Exists (fun p => p_txn p = t1 /\ cc_start_timestamp ctx < p_commit p) h.*1))
      as [Hex|Hex].
    + left. apply Exists_exists in Hex as (p & Hin & Hpt & Hpc).
      destruct (Hp p Hin) as (c & b & Hc1 & Hws & _). rewrite Hpt in Hc1.
      pose proof (checked_unique (mkSys e h f ck u k) _ _ _ Hn Hi Hc1) as [= <- <-].
      rewrite <- Hws. by apply (cf_reads _ _ _ _ Hcert).
    + right. split; [done|]. intros p Hin Hpt. apply Z.nlt_ge. intros Hlt.
      apply Hex, Exists_exists. eauto.
Qed.

(** Marking one context validated after a pass. *)
Lemma cinv_validate e h f ck u k txn ctx b :
  cinv (mkSys e h f ck u k) -> ce_active e !! txn = Some ctx -> cc_write_validated ctx = false ->
  (b = true -> cc_concurrency_mode ctx = SingleWriter \/ certified e h.*1 txn ctx) ->
  cinv (mkSys (mark_validated_in txn e) h f
    (ck ++ [(txn, (cc_mark_write_validated ctx, b))]) u k).
Proof.
  intros Hinv Hact Hval Hcert. pose proof Hinv as [Hc Ha Hh Hn Hck Hv Hp Hr]; simpl in *.
  assert (Hnew : forall x, (txn, x) ∉ ck).
  { intros [c b'] Hin. destruct (Hck _ _ _ Hin) as (_ & Hvc & Hc').
    rewrite (Hc' _ Hact) in Hval. congruence. }
  assert (Hother : forall t, t <> txn ->
    alter cc_mark_write_validated txn (ce_active e) !! t = ce_active e !! t)
    by (intros; by apply lookup_alter_ne).
  assert (Hself : alter cc_mark_write_validated txn (ce_active e) !! txn =
    Some (cc_mark_write_validated ctx)) by by rewrite lookup_alter_eq, Hact.
  split; simpl; try done.
  - intros t c. destruct (decide (t = txn)) as [->|Hne]; [|rewrite Hother by done; apply Ha].
    intros _. by eapply Ha.
  - rewrite fmap_app. apply NoDup_app. split; [done|]. split; [|apply NoDup_singleton].
    simpl. intros t Ht ->%list_elem_of_singleton. apply list_elem_of_fmap in Ht as ([t' c] & -> & Hin).
    by eapply Hnew.
  - intros t c b' [Hin|Hin]%elem_of_app;
      [|apply list_elem_of_singleton in Hin; injection Hin as -> -> ->].
    + destruct (Hck t c b' Hin) as (? & ? & ?). split; [done|]. split; [done|].
      rewrite Hother; [done|]. intros ->. by eapply Hnew.
    + split; [by eapply Ha|]. split; [apply mark_validated|]. rewrite Hself. by intros c' [= <-].
  - intros t c. destruct (decide (t = txn)) as [->|Hne].
    + rewrite Hself. intros [= <-] _. exists b. apply elem_of_app. right. by left.
    + rewrite Hother by done. intros Hx Hy. destruct (Hv t c Hx Hy) as [b' ?]. exists b'.
      apply elem_of_app. by left.
  - intros p Hin. destruct (Hp p Hin) as (c & b' & ? & ? & ?). exists c, b'.
    rewrite elem_of_app. auto.
  - intros i j t1 c1 b1 t2 c2 Hij H1 H2 Hm Hs Hro. simpl in *.
    assert (Hi : ck !! i = Some (t1, (c1, b1))).
    { rewrite lookup_app_l in H1; [done|]. apply lookup_lt_Some in H2.
      rewrite length_app in H2. simpl in H2. lia. }
    assert (Ht1 : t1 <> txn).
    { intros ->. eapply Hnew. by eapply list_elem_of_lookup_2. }
    rewrite Hother by done.
    apply lookup_app_Some in H2 as [H2|[Hlen H2]]; [by eapply Hr|].
    apply list_lookup_singleton_Some in H2 as [_ [= <- <- ->]].
    rewrite mark_mode in Hm. destruct (Hcert eq_refl) as [Hsw|Hcf]; [congruence|].
    rewrite mark_read_set, mark_start. unfold serializable in Hs. rewrite mark_isolation in Hs.
    apply list_elem_of_lookup_2 in Hi. by eapply (reads_validate e h f ck u k).
Qed.

Lemma cinv_check e h f ck u k now txn ctx e' :
  cinv (mkSys e h f ck u k) -> ce_active e !! txn = Some ctx -> cc_write_validated ctx = false ->
  check_write_set_conflict now txn e = (e', Ok tt) ->
  cinv (mkSys e' h f (note_check f txn e' ck) u k).
Proof.
  intros Hinv Hact Hval Hchk. pose proof (cv_cert _ Hinv) as Hc. simpl in Hc.
  destruct (check_ok_cases now e e' h.*1 f txn Hc Hchk) as (c0 & Hc0 & Hcases).
  rewrite Hact in Hc0. injection Hc0 as <-. unfold note_check.
  assert (Hmark : forall e1, ce_active e1 = ce_active e ->
    ce_active (mark_validated_in txn e1) !! txn = Some (cc_mark_write_validated ctx)).
  { intros e1 E1. simpl. by rewrite E1, lookup_alter_eq, Hact. }
  destruct Hcases as [[_ ->]|[[Hsw ->]|(Hsw & Hcf & locks & ->)]].
  - by rewrite Hact, Hval.
  - rewrite Hmark, mark_validated by done. apply cinv_validate; auto.
  - rewrite Hmark, mark_validated, mark_start by done. apply cinv_validate; simpl; auto.
    + eapply cinv_same_active; [..|exact Hinv]; [done|by apply cert_inv_locks].
    + intros Hb. right. destruct Hcf as [F1 F2 F3 F4 F5]; [by apply bool_decide_eq_true in Hb|].
      by split.
Qed.

(** A publication of a validated transaction still in the table. *)
Lemma reads_publish e e' h h' f ck u k p g ctx :
  ce_active e' = ce_active e -> h' = h \/ h' = h ++ [(p, g)] ->
  ce_active e !! p_txn p = Some ctx ->
  reads_ok (mkSys e h f ck u k) -> reads_ok (mkSys e' h' f ck u k).
Proof.
  intros Hae Hh' Hact Hr i j t1 c1 b1 t2 c2 Hij H1 H2 Hm Hs Hro. simpl in *. rewrite Hae.
  destruct (Hr i j t1 c1 b1 t2 c2 Hij H1 H2 Hm Hs Hro) as [?|[Hnone Hle]]; [by left|right].
  split; [done|]. intros q Hq Hqt. simpl in *. destruct Hh' as [->| ->]; [by apply Hle|].
  rewrite fmap_app in Hq. apply elem_of_app in Hq as [Hq|Hq]; [by apply Hle|].
  apply list_elem_of_singleton in Hq as ->. simpl in *. congruence.
Qed.

Lemma cinv_publish e h f ck u k now txn ctx commit e' :
  cinv (mkSys e h f ck u k) -> ce_active e !! txn = Some ctx -> cc_write_validated ctx = true ->
  Ws.is_empty (cc_write_set ctx) = false ->
  publish now txn commit (cc_start_timestamp ctx) (cc_write_set ctx) e = (e', Ok tt) ->
  cinv (mkSys e' (h ++ [(pub_of commit txn ctx,
    if covers f (cc_start_timestamp ctx) then Certified else Overrun)]) f ck u k).
Proof.
  intros [Hc Ha Hh Hn Hck Hv Hp Hr] Hact Hval Hne Hpub; simpl in *.
  pose proof (publish_keeps now txn commit (cc_start_timestamp ctx) (cc_write_set ctx) e
    h.*1 f Hc Hne) as [Hok _].
  pose proof (publish_active now txn commit (cc_start_timestamp ctx) (cc_write_set ctx) e) as Hae.
  pose proof (publish_cases now e h.*1 f txn commit (cc_start_timestamp ctx) (cc_write_set ctx)
    Hc) as Hno. rewrite Hpub in *. simpl in *.
  split; simpl; rewrite ?Hae; try done.
  - rewrite fmap_app. by apply Hok.
  - apply hist_ok_snoc; [done|]. unfold covers. case_bool_decide; [|done]. intros _.
    destruct Hno as ([Hno _] & _); [done|done|]. by apply Hno.
  - intros p. rewrite fmap_app.
    intros [Hin| ->%list_elem_of_singleton]%elem_of_app; [auto|]. simpl.
    destruct (Hv _ _ Hact Hval) as [b ?]. eauto 8.
  - by eapply (reads_publish e); [done|by right|exact Hact|].
Qed.

Lemma forced_cases c p h : forced c p h = h \/ forced c p h = h ++ [(p, Forced)].
Proof. unfold forced. case_bool_decide; auto. Qed.

Lemma cert_inv_forced c p h f :
  cert_inv c h.*1 f -> Ws.is_empty (p_ws p) = false ->
  cert_inv (Cert.force_publish (p_txn p) (p_commit p) (p_ws p) c) (forced c p h).*1 f.
Proof.
  intros Hc Hne. pose proof (cert_inv_force c h.*1 f p Hc Hne) as Hf. unfold forced.
  case_bool_decide; [done|]. by rewrite fmap_app.
Qed.

(** A forced publication of what the history or the table vouches for. *)
Lemma cinv_force e h f ck u k p :
  cinv (mkSys e h f ck u k) -> Ws.is_empty (p_ws p) = false ->
  (exists ctx b, (p_txn p, (ctx, b)) ∈ ck /\ p_ws p = cc_write_set ctx /\
    p_start p = cc_start_timestamp ctx) ->
  (forall h', h' = h \/ h' = h ++ [(p, Forced)] ->
    reads_ok (mkSys (with_cert (Cert.force_publish (p_txn p) (p_commit p) (p_ws p)) e) h' f ck u k)) ->
  cinv (mkSys (with_cert (Cert.force_publish (p_txn p) (p_commit p) (p_ws p)) e)
    (forced (ce_cert e) p h) f ck u k).
Proof.
  intros [Hc Ha Hh Hn Hck Hv Hp Hr] Hne Hctx Hreads; simpl in *.
  pose proof (cert_inv_forced _ _ _ _ Hc Hne) as Hfc.
  specialize (Hreads _ (forced_cases (ce_cert e) p h)).
  split; simpl; try done.
  - destruct (forced_cases (ce_cert e) p h) as [->| ->]; [done|]. by apply hist_ok_snoc.
  - destruct (forced_cases (ce_cert e) p h) as [->| ->]; [done|]. intros q. rewrite fmap_app.
    intros [Hin| ->%list_elem_of_singleton]%elem_of_app; [auto|done].
Qed.

Lemma cinv_remove e h f ck u k txn :
  cinv (mkSys e h f ck u k) ->
  cinv (mkSys (set_active (delete txn (ce_active e))
          (with_cert (Cert.unregister_reads txn) e)) h f ck u k).
Proof.
  intros [Hc Ha Hh Hn Hck Hv Hp Hr]; simpl in *.
  assert (Hdel : forall t c, delete txn (ce_active e) !! t = Some c -> ce_active e !! t = Some c)
    by by intros t c [_ ?]%lookup_delete_Some.
  split; simpl; try done.
  - by apply cert_inv_locks.
  - intros t c Hx%Hdel. eauto.
  - intros t c b Hin. destruct (Hck t c b Hin) as (? & ? & ?). split; [done|]. split; [done|].
    intros c' Hx%Hdel. auto.
  - intros t c Hx%Hdel. auto.
  - intros i j t1 c1 b1 t2 c2 Hij H1 H2 Hm Hs Hro. simpl in *.
    destruct (Hr i j t1 c1 b1 t2 c2 Hij H1 H2 Hm Hs Hro) as [?|[Hnone Hle]]; [by left|right].
    split; [|done]. simpl in Hnone. apply lookup_delete_None. auto.
Qed.

(** Not validated means not pre-checked. *)
Lemma unvalidated_fresh e h f ck u k txn ctx x :
  cinv (mkSys e h f ck u k) -> ce_active e !! txn = Some ctx ->
  cc_write_validated ctx = false -> (txn, x) ∉ ck.
Proof.
  intros Hinv Hact Hval Hin. destruct x as [c b].
  apply (cv_checked _ Hinv) in Hin as (_ & Hv & Hc). simpl in *.
  rewrite (Hc _ Hact) in Hval. congruence.
Qed.

Lemma cinv_step s s' : cstep s s' -> cinv s -> cinv s'.
Proof.
  destruct 1 as [| |? ? ? ? ? ? txn ctx Hu Hval|? ? ? ? ? ? txn ctx ctx' Hact Hval Hval'| |
    ? ? ? ? ? ? ? ? ? ? Hchk| | |? ? ? ? ? ? now txn ctx commit e' x Hact Hpub|
    e h f ck u k txn ctx commit Hact Hval Hne|e h f ck u k p Hin Hne| |]; intros Hinv;
    try by eapply cinv_clock.
  - eapply cinv_clock, cinv_set_active; [exact Hinv|set_solver|set_solver|done|].
    intros [c b] Hin. by apply (cv_checked _ Hinv) in Hin as [? _].
  - apply cinv_set_active with (u := u); [done|done|by eapply (cv_active _ Hinv)|done|].
    intros x. by eapply unvalidated_fresh.
  - by eapply cinv_check.
  - apply check_err_frame in Hchk as [Ha (locks & Hl)].
    eapply cinv_same_active; [done| |done]. rewrite Hl. by apply cert_inv_locks, (cv_cert _ Hinv).
  - by eapply cinv_publish.
  - destruct (Ws.is_empty (cc_write_set ctx)) eqn:Hne.
    { unfold publish in Hpub. rewrite Hne in Hpub. discriminate. }
    pose proof (publish_keeps now txn commit (cc_start_timestamp ctx) _ _ _ _
      (cv_cert _ Hinv) Hne) as [_ Herr].
    pose proof (publish_active now txn commit (cc_start_timestamp ctx) (cc_write_set ctx) e) as Hae.
    simpl in *. rewrite Hpub in *. simpl in *. 
    eapply cinv_same_active; [done| |done]. rewrite Herr by done. apply (cv_cert _ Hinv).
  - apply (cinv_force e h f ck u k (pub_of commit txn ctx)); [done|done| |].
    + destruct (cv_validated _ Hinv _ _ Hact Hval) as [b ?]. eauto.
    + intros h' Hh'. by eapply reads_publish; [..|apply (cv_reads _ Hinv)].
  - apply cinv_force; [done|done|by apply (cv_pub _ Hinv)|].
    intros h' Hh' i j t1 c1 b1 t2 c2 Hij H1 H2 Hm Hs Hro. simpl in *.
    destruct (cv_reads _ Hinv i j t1 c1 b1 t2 c2 Hij H1 H2 Hm Hs Hro) as [?|[Hnone Hle]];
      [by left|right]. split; [done|]. simpl in *.
    destruct Hh' as [->| ->]; [done|]. intros q. rewrite fmap_app.
    intros [Hq| ->%list_elem_of_singleton]%elem_of_app; auto.
  - by apply cinv_remove.
  - destruct Hinv as [Hc Ha Hh Hn Hck Hv Hp Hr]; simpl in *. split; simpl; try done.
    by apply cert_inv_prune_any.
Qed.

Lemma cinv_start st : cinv (start_sys st).
Proof.
  split; simpl; try done.
  - apply cert_inv_new.
  - constructor.
  - intros t c b Hin. by apply elem_of_nil in Hin.
  - intros p Hin. by apply elem_of_nil in Hin.
Qed.

Lemma cinv_reachable s : creachable s -> cinv s.
Proof.
  intros (st & Hsteps). remember (start_sys st) as s0 eqn:E0.
  assert (Hstart0 : cinv s0) by (subst; apply cinv_start).
  clear E0. induction Hsteps; eauto using cinv_step.
Qed.

(** [C3] No lost update.  In every state the certification system can reach,
    under any interleaving of reservations, begins, reads and writes,
    pre-checks, publications, forced re-drives, removals and prunings at any
    cutoff: a publication that was reviewed before any pruning dropped an
    entry committed after its start ([Certified]) does not conflict with any
    earlier publication, reviewed or forced, whose commit timestamp is above
    its start: no common vertex, edge, schema or index resource, no deletion
    of a vertex under the other's edge, and no schema change beside the
    other's data writes. *)
Theorem no_lost_update s i j p g q :
  creachable s -> (i < j)%nat -> s_hist s !! i = Some (p, g) ->
  s_hist s !! j = Some (q, Certified) -> p_start q < p_commit p ->
  Ws.has_conflict_with (p_ws q) (p_ws p) = false.
Proof. intros Hinv%cinv_reachable Hij Hi Hj Hs. by eapply (cv_hist _ Hinv i j). Qed.

(** [C4] No write skew on items.  Two overlapping publications of serializable,
    optimistic, not read-only transactions that were both pre-checked before
    any pruning dropped an entry committed after their start never form a
    write-skew pair: it is impossible that each read a vertex, edge, schema or
    index resource the other wrote. *)
Theorem no_write_skew s p q cp cq :
  creachable s -> p ∈ (s_hist s).*1 -> q ∈ (s_hist s).*1 -> p_txn p <> p_txn q ->
  (p_txn p, (cp, true)) ∈ s_checked s -> (p_txn q, (cq, true)) ∈ s_checked s ->
  serializable cp = true -> serializable cq = true ->
  cc_concurrency_mode cp = Optimistic -> cc_concurrency_mode cq = Optimistic ->
  cc_read_only cp = false -> cc_read_only cq = false ->
  p_start p < p_commit q -> p_start q < p_commit p ->
  ~ (items_overlap (cc_read_set cp) (p_ws q) /\ items_overlap (cc_read_set cq) (p_ws p)).
Proof.
  intros Hinv%cinv_reachable Hp Hq Hne Hcp Hcq Sp Sq Mp Mq Rp Rq H1 H2 [O1 O2].
  pose proof Hinv as [_ _ _ Hn _ _ Hpub Hr].
  destruct (Hpub p Hp) as (c1 & b1 & Hc1 & Hw1 & Hs1), (Hpub q Hq) as (c2 & b2 & Hc2 & Hw2 & Hs2).
  pose proof (checked_unique _ _ _ _ Hn Hc1 Hcp) as [= -> ->].
  pose proof (checked_unique _ _ _ _ Hn Hc2 Hcq) as [= -> ->].
  rewrite Hw1 in O2. rewrite Hw2 in O1.
  apply list_elem_of_lookup in Hcp as [i Hi], Hcq as [j Hj].
  destruct (decide (i < j)%nat) as [Hij|Hij]; [|destruct (decide (i = j)) as [->|]; [congruence|]].
  - destruct (Hr i j _ _ _ _ _ Hij Hi Hj) as [?|[_ Hle]]; [congruence|done|done|done|].
    specialize (Hle p Hp eq_refl). lia.
  - destruct (Hr j i _ _ _ _ _ ltac:(lia) Hj Hi) as [?|[_ Hle]]; [congruence|done|done|done|].
    specialize (Hle q Hq eq_refl). lia.
Qed.

End isolation.

(** ** When nothing is overrun *)

Section discipline.
Context {Ctx : Type} `{CertContextLaws Ctx}.
Implicit Types s : sys Ctx.

(** Any cutoff, as the code takes it. *)
Definition any_prune s (oldest : Z) : Prop := True.

(** A cutoff not above a reserved start, nor above the start of a writer in
    the table that has not been published. *)
Definition prune_safe s (oldest : Z) : Prop :=
  (forall ts, ts ∈ k_starts (s_clock s) -> oldest <= ts) /\
  (forall t c, ce_active (s_env s) !! t = Some c -> cc_read_only c = false ->
     ~ published (s_hist s) t -> oldest <= cc_start_timestamp c).

Record sinv s : Prop := {
  sv_floor : 0 <= s_floor s <= k_now (s_clock s);
  sv_hist : forall p, p ∈ (s_hist s).*1 -> p_commit p <= k_now (s_clock s);
  sv_commits : forall c, c ∈ k_commits (s_clock s) -> c <= k_now (s_clock s);
  sv_starts : forall ts, ts ∈ k_starts (s_clock s) -> s_floor s <= ts;
  sv_active : forall t c, ce_active (s_env s) !! t = Some c -> cc_read_only c = false ->
    ~ published (s_hist s) t -> s_floor s <= cc_start_timestamp c;
  sv_grades : forall p g, (p, g) ∈ s_hist s -> g <> Overrun;
  sv_checks : forall t c b, (t, (c, b)) ∈ s_checked s -> cc_read_only c = false -> b = true;
}.

Lemma published_app h1 h2 (t : TransactionId) : published h1 t -> published (h1 ++ h2) t.
Proof. intros (p & Hp & Ht). exists p. rewrite fmap_app, elem_of_app. auto. Qed.

(** Environments whose table only loses or marks contexts. *)
Lemma sinv_env e e' h f ck ck' u k :
  (forall t c', ce_active e' !! t = Some c' -> exists c, ce_active e !! t = Some c /\
    cc_read_only c' = cc_read_only c /\ cc_start_timestamp c' = cc_start_timestamp c) ->
  (forall t c b, (t, (c, b)) ∈ ck' -> cc_read_only c = false -> b = true) ->
  sinv (mkSys e h f ck u k) -> sinv (mkSys e' h f ck' u k).
Proof.
  intros Hact Hck [Hf Hh Hc Hs Ha Hg _]; split; simpl in *; try done.
  intros t c' Hx Hro Hnp. destruct (Hact t c' Hx) as (c & Hc0 & Hr & ->). rewrite Hr in Hro. eauto.
Qed.

(** One more publication, its commit timestamp issued by the clock. *)
Lemma sinv_publish e e' h f ck u k p g :
  ce_active e' = ce_active e -> p_commit p <= k_now k -> g <> Overrun ->
  sinv (mkSys e h f ck u k) -> sinv (mkSys e' (h ++ [(p, g)]) f ck u k).
Proof.
  intros He Hp Hg [Hf Hh Hc Hs Ha Hgr Hck]; split; simpl in *; try done.
  - intros q. rewrite fmap_app. intros [Hq| ->%list_elem_of_singleton]%elem_of_app; auto.
  - rewrite He. intros t c Hx Hro Hnp. eapply Ha; eauto using published_app.
  - intros q g' [Hq|Hq]%elem_of_app; [by eapply Hgr|].
    apply list_elem_of_singleton in Hq. by injection Hq as -> ->.
Qed.

Lemma sinv_forced e e' h f ck u k p c0 :
  ce_active e' = ce_active e -> p_commit p <= k_now k ->
  sinv (mkSys e h f ck u k) -> sinv (mkSys e' (forced c0 p h) f ck u k).
Proof.
  intros He Hp Hs. destruct (forced_cases c0 p h) as [->| ->]; [|by eapply sinv_publish].
  eapply sinv_env; [|apply (sv_checks _ Hs)|exact Hs]. rewrite He. eauto.
Qed.

(** A published transaction is validated, so an unvalidated one in the table
    has not been published. *)
Lemma unvalidated_unpublished e h f ck u k txn ctx :
  cinv (mkSys e h f ck u k) -> ce_active e !! txn = Some ctx ->
  cc_write_validated ctx = false -> ~ published h txn.
Proof.
  intros Hinv Hact Hval (p & Hp & <-). apply (cv_pub _ Hinv) in Hp as (c & b & Hin & _).
  by eapply unvalidated_fresh.
Qed.

Lemma sinv_check e h f ck u k now txn ctx e' :
  cinv (mkSys e h f ck u k) -> sinv (mkSys e h f ck u k) ->
  ce_active e !! txn = Some ctx -> cc_write_validated ctx = false ->
  check_write_set_conflict now txn e = (e', Ok tt) ->
  sinv (mkSys e' h f (note_check f txn e' ck) u k).
Proof.
  intros Hinv Hs Hact Hval Hchk.
  assert (Hae : ce_active e' = ce_active e \/
    ce_active e' = alter cc_mark_write_validated txn (ce_active e)).
  { pose proof (check_active now txn e) as Hc. by rewrite Hchk in Hc. }
  assert (Hold : forall t c', ce_active e' !! t = Some c' -> exists c, ce_active e !! t = Some c /\
    cc_read_only c' = cc_read_only c /\ cc_start_timestamp c' = cc_start_timestamp c).
  { intros t c'. destruct Hae as [->| ->]; [eauto|]. intros Hx.
    destruct (decide (t = txn)) as [->|Hne]; [|rewrite lookup_alter_ne in Hx by done; eauto].
    rewrite lookup_alter_eq, Hact in Hx. injection Hx as <-.
    rewrite mark_read_only, mark_start. eauto. }
  eapply sinv_env; [exact Hold| |exact Hs].
  unfold note_check. destruct (ce_active e' !! txn) as [c'|] eqn:Ec; [|apply (sv_checks _ Hs)].
  destruct (cc_write_validated c'); [|apply (sv_checks _ Hs)].
  intros t c b [Hin|Hin]%elem_of_app; [by apply (sv_checks _ Hs _ _ _ Hin)|].
  apply list_elem_of_singleton in Hin. injection Hin as -> -> ->. intros Hro.
  destruct (Hold txn c' Ec) as (c0 & Hc0 & Hr & Hst).
  apply bool_decide_eq_true. rewrite Hst. apply (sv_active _ Hs txn); [done|congruence|].
  exact (unvalidated_unpublished _ _ _ _ _ _ _ _ Hinv Hact Hval).
Qed.

Lemma sinv_step s s' : cstep prune_safe s s' -> cinv s -> sinv s -> sinv s'.
Proof.
  destruct 1 as [| |e h f ck u k txn ctx Hu Hval Hst|e h f ck u k txn ctx ctx' Hact Hval Hval' Hst Hro| |
    ? ? ? ? ? ? ? ? ? ? Hchk| |e h f ck u k now txn ctx commit e' Hact Hval Hro Hne Hnp Hk Hpub|
    ? ? ? ? ? ? now txn ctx commit e' x Hact Hpub|
    e h f ck u k txn ctx commit Hact Hval Hne _ Hk|e h f ck u k p Hin Hne| |
    e h f ck u k oldest Hsafe]; intros Hinv Hs.
  - destruct Hs as [Hf Hh Hc Hs Ha Hg Hck]. split; simpl in *; try done; [lia| | |].
    + intros p Hp. specialize (Hh p Hp). lia.
    + intros c Hx. specialize (Hc c Hx). lia.
    + intros ts [->%elem_of_singleton|Hx]%elem_of_union; [lia|auto].
  - destruct Hs as [Hf Hh Hc Hs Ha Hg Hck]. split; simpl in *; try done.
    intros t [Hx _]%elem_of_difference. auto.
  - destruct Hs as [Hf Hh Hc Hs Ha Hg Hck]. destruct (cc_read_only ctx) eqn:Er; split; simpl in *;
      try done.
    + intros t c [[<- <-]|[? Hx]]%lookup_insert_Some; [congruence|eauto].
    + intros t [Hx _]%elem_of_difference. auto.
    + intros t c [[<- <-]|[? Hx]]%lookup_insert_Some; [|eauto].
      intros _ _. destruct Hst as [?|Hst]; [congruence|auto].
  - eapply sinv_env; [|apply (sv_checks _ Hs)|exact Hs]. simpl.
    intros t c [[<- <-]|[? Hx]]%lookup_insert_Some; eauto.
  - by eapply sinv_check.
  - apply check_err_frame in Hchk as [Ha _].
    eapply sinv_env; [|apply (sv_checks _ Hs)|exact Hs]. rewrite Ha. eauto.
  - destruct Hs as [Hf Hh Hc Hs Ha Hg Hck]. split; simpl in *; try done; [lia| |].
    + intros p Hp. specialize (Hh p Hp). lia.
    + intros c [->%elem_of_singleton|Hx]%elem_of_union; [lia|]. specialize (Hc c Hx). lia.
  - pose proof (publish_active now txn commit (cc_start_timestamp ctx) (cc_write_set ctx) e) as Hae.
    rewrite Hpub in Hae. eapply sinv_publish; [exact Hae| | |exact Hs].
    + by apply (sv_commits _ Hs).
    + unfold covers. rewrite bool_decide_eq_true_2; [done|]. by apply (sv_active _ Hs txn).
  - pose proof (publish_active now txn commit (cc_start_timestamp ctx) (cc_write_set ctx) e) as Hae.
    rewrite Hpub in Hae. simpl in Hae.
    eapply sinv_env; [|apply (sv_checks _ Hs)|exact Hs]. rewrite Hae. eauto.
  - apply (sinv_forced e); [done| |exact Hs]. by apply (sv_commits _ Hs).
  - apply (sinv_forced e); [done| |exact Hs]. by apply (sv_hist _ Hs).
  - eapply sinv_env; [|apply (sv_checks _ Hs)|exact Hs]. simpl.
    intros t c [_ Hx]%lookup_delete_Some. eauto.
  - assert (Hb : forall b, 0 <= b -> s_floor (mkSys e h f ck u k) <= b ->
      (forall p, p ∈ h.*1 -> p_commit p <= oldest -> p_commit p <= b) ->
      floor_after oldest (ce_cert e) h.*1 f <= b).
    { intros b Hb0 Hfb Hall. unfold floor_after. case_decide; [done|].
      pose proof (newest_upto_bound oldest h.*1 b Hb0 Hall). simpl in *. lia. }
    destruct Hsafe as [Hst Hac], Hs as [Hf Hh Hc Hs Ha Hg Hck]. split; simpl in *; try done.
    + split; [unfold floor_after; case_decide; lia|]. apply Hb; [lia|lia|auto].
    + intros ts Hx. specialize (Hst ts Hx). specialize (Hs ts Hx).
      apply Hb; [lia|lia|intros; lia].
    + intros t c Hx Hro Hnp. specialize (Hac t c Hx Hro Hnp). specialize (Ha t c Hx Hro Hnp).
      apply Hb; [lia|lia|intros; lia].
Qed.

Lemma sinv_reachable s : creachable prune_safe s -> sinv s.
Proof.
  intros (st & Hsteps). remember (start_sys st) as s0 eqn:E0.
  assert (Hstart0 : cinv s0 /\ sinv s0).
  { subst. split; [apply cinv_start|]. split; simpl; try done;
      try (intros ? ?; set_solver); intros ? ? ?; set_solver. }
  clear E0. cut (cinv s /\ sinv s); [tauto|].
  induction Hsteps; [done|]. apply IHHsteps. destruct Hstart0. eauto using cinv_step, sinv_step.
Qed.


End discipline.

End Isolation.

(** ** Concrete runs

    Serializable transactions over real contexts, run step by step. *)

Module IsolationExample.
Import Certify CertFacts Isolation.

Abbreviation ectx := (TransactionContext Z).

Definition ser_config : TransactionConfig :=
  mkConfig 30000 DSync Serializable None None None false 0 0 (SpecFloat.S754_zero false) Optimistic
    (Some 10000).

Definition v (n : Z) : VertexId := from_u64 n.

(** Transaction [i], started at [i + 1], that wrote vertex [w] and read vertex [r]. *)
Definition ex_txn (i w r : Z) : ectx :=
  Ctx.record_vertex_read (v r) (Ctx.record_vertex_write (v w) (Ctx.new i (i + 1) 0 ser_config)).

Definition ex_e0 : CertEnv ectx := mkEnv Cert.new ∅ Stats.new.
Definition ex_e1 : CertEnv ectx := set_active (<[1 := ex_txn 1 1 2]> (ce_active ex_e0)) ex_e0.
Definition ex_e2 : CertEnv ectx := set_active (<[2 := ex_txn 2 2 3]> (ce_active ex_e1)) ex_e1.
Definition ex_e3 : CertEnv ectx := (check_write_set_conflict 0 1 ex_e2).1.
Definition ex_e4 : CertEnv ectx := (check_write_set_conflict 0 2 ex_e3).1.
Definition ex_val1 : ectx := Ctx.mark_write_validated (ex_txn 1 1 2).
Definition ex_val2 : ectx := Ctx.mark_write_validated (ex_txn 2 2 3).
Definition ex_p1 : Publication := pub_of 4 1 ex_val1.
Definition ex_p2 : Publication := pub_of 5 2 ex_val2.
Definition ex_e5 : CertEnv ectx := (publish 0 1 4 2 (cc_write_set ex_val1) ex_e4).1.
Definition ex_e6 : CertEnv ectx := with_cert (Cert.prune 3) ex_e5.
Definition ex_e7 : CertEnv ectx := (publish 0 2 5 3 (cc_write_set ex_val2) ex_e6).1.

(** Starts 2 and 3 reserved, then commits 4 and 5. *)
Definition ex_k2 : wclock := reserve_start (reserve_start (mkClock 1 ∅ ∅)).
Definition ex_k4 : wclock := reserve_commit (reserve_commit (take_start 3 (take_start 2 ex_k2))).

Definition ex_hist : list (Publication * Grade) := [(ex_p1, Certified); (ex_p2, Certified)].
Definition ex_checked : list (Z * (ectx * bool)) := [(1, (ex_val1, true)); (2, (ex_val2, true))].

Definition ex_final : sys ectx :=
  mkSys ex_e7 ex_hist 0 ex_checked ({[2]} ∪ ({[1]} ∪ ∅)) ex_k4.

(** Rewrites the history, the floor and the checks of the state to what they
    compute to. *)
Ltac settle_sys hist floor checked :=
  match goal with |- rtc _ (mkSys _ ?h ?f ?c _ _) _ =>
    replace h with hist by (vm_compute; reflexivity);
    replace f with floor by (vm_compute; reflexivity);
    replace c with checked by (vm_compute; reflexivity) end.

Ltac in_set := apply (bool_decide_eq_true_1 _); vm_compute; reflexivity.

Lemma ex_prune_safe h : h = [(ex_p1, Certified)] ->
  prune_safe (mkSys ex_e5 h 0 ex_checked ({[2]} ∪ ({[1]} ∪ ∅)) ex_k4) 3.
Proof.
  intros ->. split.
  - intros ts Hts. exfalso. assert (Hk : k_starts ex_k4 = ∅) by (vm_compute; reflexivity).
    change (ts ∈ k_starts ex_k4) in Hts. rewrite Hk in Hts. by apply elem_of_empty in Hts.
  - intros t c Hx _ Hnp. change (ce_active ex_e5 !! t = Some c) in Hx.
    assert (Ha : ce_active ex_e5 = <[1 := ex_val1]> (<[2 := ex_val2]> ∅)) by (vm_compute; reflexivity).
    rewrite Ha in Hx. apply lookup_insert_Some in Hx as [[<- <-]|[_ Hx]].
    + destruct Hnp. exists ex_p1. split; [exact (list_elem_of_here ex_p1 [])|reflexivity].
    + apply lookup_insert_Some in Hx as [[<- <-]|[_ Hx]]; [vm_compute; discriminate|].
      rewrite lookup_empty in Hx. discriminate Hx.
Qed.

(** The run, with a pruning between the two publications. *)
Lemma ex_final_reachable : creachable prune_safe ex_final.
Proof.
  exists Stats.new. unfold start_sys. fold ex_e0.
  eapply rtc_l; [apply cs_reserve|]. eapply rtc_l; [apply cs_reserve|]. fold ex_k2.
  eapply rtc_l; [apply (cs_begin _ ex_e0 [] 0 [] ∅ _ 1 (ex_txn 1 1 2));
    [set_solver|done|right; in_set]|].
  eapply rtc_l; [apply (cs_begin _ ex_e1 [] 0 [] ({[1]} ∪ ∅) _ 2 (ex_txn 2 2 3));
    [set_solver|done|right; in_set]|].
  eapply rtc_l; [apply cs_reserve_commit|]. eapply rtc_l; [apply cs_reserve_commit|].
  change (reserve_commit _) with ex_k4.
  eapply rtc_l.
  { apply (cs_check _ ex_e2 [] 0 [] _ _ 0 1 (ex_txn 1 1 2) ex_e3); vm_compute; reflexivity. }
  settle_sys (@nil (Publication * Grade)) 0 [(1, (ex_val1, true))].
  eapply rtc_l.
  { apply (cs_check _ ex_e3 [] 0 _ _ _ 0 2 (ex_txn 2 2 3) ex_e4); vm_compute; reflexivity. }
  settle_sys (@nil (Publication * Grade)) 0 ex_checked.
  eapply rtc_l.
  { apply (cs_publish _ ex_e4 [] 0 _ _ _ 0 1 ex_val1 4 ex_e5);
      [vm_compute; reflexivity..|intros (p & Hp & _); by apply elem_of_nil in Hp|in_set|
       vm_compute; reflexivity]. }
  settle_sys [(ex_p1, Certified)] 0 ex_checked.
  eapply rtc_l; [apply (cs_prune _ ex_e5 _ 0 _ _ _ 3); by apply ex_prune_safe|]. fold ex_e6.
  settle_sys [(ex_p1, Certified)] 0 ex_checked.
  eapply rtc_l.
  { apply (cs_publish _ ex_e6 _ 0 _ _ _ 0 2 ex_val2 5 ex_e7);
      [vm_compute; reflexivity..| |in_set|vm_compute; reflexivity].
    intros (p & Hp & Ht). apply list_elem_of_singleton in Hp as ->. discriminate Ht. }
  settle_sys ex_hist 0 ex_checked. apply rtc_refl.
Qed.

Lemma no_lost_update_witness :
  p_start ex_p2 < p_commit ex_p1 /\ Ws.has_conflict_with (p_ws ex_p2) (p_ws ex_p1) = false.
Proof.
  split; [reflexivity|].
  exact (no_lost_update prune_safe ex_final 0 1 ex_p1 Certified ex_p2 ex_final_reachable ltac:(lia)
    eq_refl eq_refl ltac:(reflexivity)).
Defined.

(** The first read what the second wrote; not also the other way round. *)
Lemma no_write_skew_witness :
  items_overlap (cc_read_set ex_val1) (p_ws ex_p2) /\
  ~ items_overlap (cc_read_set ex_val2) (p_ws ex_p1).
Proof.
  assert (Ho : items_overlap (cc_read_set ex_val1) (p_ws ex_p2)).
  { left. exists (v 2). split; apply (bool_decide_eq_true_1 _); vm_compute; reflexivity. }
  split; [exact Ho|]. intros Hq.
  exact (no_write_skew prune_safe ex_final ex_p1 ex_p2 ex_val1 ex_val2 ex_final_reachable
    (list_elem_of_here _ _) (list_elem_of_further _ _ _ (list_elem_of_here _ _)) ltac:(done)
    (list_elem_of_here _ _) (list_elem_of_further _ _ _ (list_elem_of_here _ _))
    eq_refl eq_refl eq_refl eq_refl eq_refl eq_refl ltac:(reflexivity) ltac:(reflexivity)
    (conj Ho Hq)).
Defined.


(** ** A pruning between reservation and pin

    The cutoff of a pruning is the oldest pinned snapshot.  Transaction 1
    starts at 2 and is pinned; transaction 2 has reserved its start 3 and not
    pinned it yet; transaction 1 commits at 4.  Then nothing is pinned. *)

Definition race_cutoff : list Z :=
  match Vm.acquire_insert_timestamp 0 Vm.new with
  | (v1, Ok s1) =>
      match Vm.reserve_timestamp v1 with
      | (v2, Ok s2) =>
          match Vm.reserve_commit_timestamp 0 s1 v2 with
          | (v3, Ok c1) =>
              [s1; s2; c1; Vm.get_safe_gc_timestamp (Vm.publish_reserved_commit 0 s1 c1 v3)]
          | _ => []
          end
      | _ => []
      end
  | _ => []
  end.

Example race_cutoff_unbounded : race_cutoff = [2; 3; 4; U64_MAX].
Proof. by vm_compute. Qed.

(** Both transactions write vertex 1; the pruning takes that cutoff before
    transaction 2 enters the table. *)
Definition race_e1 : CertEnv ectx := set_active (<[1 := ex_txn 1 1 2]> (ce_active ex_e0)) ex_e0.
Definition race_e2 : CertEnv ectx := (check_write_set_conflict 0 1 race_e1).1.
Definition race_e3 : CertEnv ectx := (publish 0 1 4 2 (cc_write_set ex_val1) race_e2).1.
Definition race_e4 : CertEnv ectx :=
  set_active (delete 1 (ce_active race_e3)) (with_cert (Cert.unregister_reads 1) race_e3).
Definition race_e5 : CertEnv ectx := with_cert (Cert.prune U64_MAX) race_e4.
Definition race_e6 : CertEnv ectx := set_active (<[2 := ex_txn 2 1 3]> (ce_active race_e5)) race_e5.
Definition race_e7 : CertEnv ectx := (check_write_set_conflict 0 2 race_e6).1.
Definition race_val : ectx := Ctx.mark_write_validated (ex_txn 2 1 3).
Definition race_e8 : CertEnv ectx := (publish 0 2 5 3 (cc_write_set race_val) race_e7).1.

Definition race_pub : Publication := pub_of 5 2 race_val.
Definition race_hist : list (Publication * Grade) := [(ex_p1, Certified); (race_pub, Overrun)].
Definition race_checked : list (Z * (ectx * bool)) :=
  [(1, (ex_val1, true)); (2, (race_val, false))].
Definition race_final : sys ectx :=
  mkSys race_e8 race_hist 4 race_checked ({[2]} ∪ ({[1]} ∪ ∅))
    (reserve_commit (take_start 3 (reserve_commit (take_start 2 ex_k2)))).

Lemma race_reachable : creachable any_prune race_final.
Proof.
  exists Stats.new. unfold start_sys. fold ex_e0.
  eapply rtc_l; [apply cs_reserve|]. eapply rtc_l; [apply cs_reserve|]. fold ex_k2.
  eapply rtc_l; [apply (cs_begin _ ex_e0 [] 0 [] ∅ _ 1 (ex_txn 1 1 2));
    [set_solver|done|right; in_set]|].
  eapply rtc_l.
  { apply (cs_check _ race_e1 [] 0 [] _ _ 0 1 (ex_txn 1 1 2) race_e2); vm_compute; reflexivity. }
  settle_sys (@nil (Publication * Grade)) 0 [(1, (ex_val1, true))].
  eapply rtc_l; [apply cs_reserve_commit|].
  eapply rtc_l.
  { apply (cs_publish _ race_e2 [] 0 _ _ _ 0 1 ex_val1 4 race_e3);
      [vm_compute; reflexivity..|intros (p & Hp & _); by apply elem_of_nil in Hp|in_set|
       vm_compute; reflexivity]. }
  eapply rtc_l; [apply (cs_remove _ _ _ _ _ _ _ 1)|]. fold race_e4.
  eapply rtc_l; [apply (cs_prune _ _ _ _ _ _ _ U64_MAX); exact I|]. fold race_e5.
  settle_sys [(ex_p1, Certified)] 4 [(1, (ex_val1, true))].
  eapply rtc_l; [apply (cs_begin _ race_e5 _ 4 _ _ _ 2 (ex_txn 2 1 3));
    [set_solver|done|right; in_set]|].
  eapply rtc_l.
  { apply (cs_check _ race_e6 _ 4 _ _ _ 0 2 (ex_txn 2 1 3) race_e7); vm_compute; reflexivity. }
  settle_sys [(ex_p1, Certified)] 4 race_checked.
  eapply rtc_l; [apply cs_reserve_commit|].
  eapply rtc_l.
  { apply (cs_publish _ race_e7 _ 4 _ _ _ 0 2 race_val 5 race_e8);
      [vm_compute; reflexivity..| |in_set|vm_compute; reflexivity].
    intros (p & Hp & Ht). apply list_elem_of_singleton in Hp as ->. discriminate Ht. }
  settle_sys race_hist 4 race_checked. apply rtc_refl.
Qed.

(** A pruning between the reservation of a start timestamp and its pin loses
    an update: at the cutoff the version manager reports, both transactions
    are published although they write the same vertex and the second started
    before the first committed. *)
Theorem prune_before_pin_loses_update :
  race_cutoff = [2; 3; 4; U64_MAX] /\
  creachable any_prune race_final /\
  s_hist race_final = [(ex_p1, Certified); (race_pub, Overrun)] /\
  p_start race_pub < p_commit ex_p1 /\ p_start ex_p1 < p_commit race_pub /\
  Ws.has_conflict_with (p_ws race_pub) (p_ws ex_p1) = true.
Proof.
  split; [exact race_cutoff_unbounded|]. split; [exact race_reachable|].
  split; [reflexivity|]. split; [reflexivity|]. split; [reflexivity|]. by vm_compute.
Qed.

(** ** Range write skew

    Two serializable transactions each scan the whole of a label and insert a
    vertex of it. *)

Definition scan_all : ReadRange := mkRange "person" None None None.

Definition ex_scan (i w : Z) : ectx :=
  Ctx.record_read_range scan_all (Ctx.record_vertex_write (v w) (Ctx.new i 5 0 ser_config)).

Definition ex_skew : CertEnv ectx :=
  mkEnv Cert.new (<[1 := ex_scan 1 1]> (<[2 := ex_scan 2 2]> ∅)) Stats.new.

Definition ex_skew_run : list bool :=
  let '(e1, r1) := check_write_set_conflict 0 1 ex_skew in
  let '(e2, r2) := check_write_set_conflict 0 2 e1 in
  let '(e3, r3) := publish 0 1 7 5 (cc_write_set (ex_scan 1 1)) e2 in
  let '(e4, r4) := publish 0 2 8 5 (cc_write_set (ex_scan 2 2)) e3 in
  [is_ok r1; is_ok r2; is_ok r3; is_ok r4].

(** Range reads are not certified against concurrent writers.  Two
    overlapping serializable transactions that each scanned a range covering
    the vertex the other inserts both pass the pre-check and are both
    published: the range predicate detects the conflict in both directions,
    but it is consulted only against transactions already committed when the
    pre-check runs. *)
Theorem range_write_skew_admitted :
  serializable (ex_scan 1 1) = true /\ serializable (ex_scan 2 2) = true /\
  Ws.has_read_range_conflict_with (cc_read_set (ex_scan 1 1)) (cc_write_set (ex_scan 2 2)) = true /\
  Ws.has_read_range_conflict_with (cc_read_set (ex_scan 2 2)) (cc_write_set (ex_scan 1 1)) = true /\
  ex_skew_run = [true; true; true; true].
Proof. by vm_compute. Qed.

(** After a pruning: the history holds a publication committed after the
    start, and its transaction is still a validated rival; the write sets are
    disjoint. *)
Lemma publish_exact_witness :
  ce_active ex_e5 <> ∅ /\
  (publish 0 2 5 3 (cc_write_set ex_val2) (with_cert (Cert.prune 2) ex_e5)).2 = Ok tt.
Proof.
  assert (Hne : Ws.is_empty (cc_write_set ex_val2) = false) by (vm_compute; reflexivity).
  assert (Ha : ce_active ex_e5 = <[1 := ex_val1]> (<[2 := ex_val2]> ∅)) by (vm_compute; reflexivity).
  assert (Hinv : cert_inv (ce_cert ex_e5) [ex_p1] 0).
  { assert (Hc : ce_cert ex_e5 = Cert.unregister_reads 1 (Cert.index_write_set 1 4
      (cc_write_set ex_val1) (Cert.push_committed 4 (cc_write_set ex_val1)
        (Cert.set_read_locks (read_locks (ce_cert ex_e4)) Cert.new)))) by (vm_compute; reflexivity).
    rewrite Hc. apply (cert_inv_publish _ [] 0 ex_p1 1); [|reflexivity].
    apply cert_inv_locks, cert_inv_new. }
  split; [rewrite Ha; apply insert_non_empty|].
  refine (proj2 (proj1 (publish_exact 0 ex_e5 [ex_p1] 0 2 2 5 3 (cc_write_set ex_val2) Hinv _
    Hne)) _); [lia|]. split.
  - intros o octx (Hr & Ho & _). rewrite Ha in Hr.
    apply lookup_insert_Some in Hr as [[_ <-]|[_ Hr]]; [vm_compute; reflexivity|].
    apply lookup_insert_Some in Hr as [[<- _]|[_ Hr]]; [by destruct Ho|].
    rewrite lookup_empty in Hr. discriminate Hr.
  - intros p Hp _. apply list_elem_of_singleton in Hp as ->. vm_compute; reflexivity.
Defined.

End IsolationExample.
