(* ===== verification/Events.v ===== *)
(** * Event subscriptions

    [linkrs-core/src/event_dispatch.rs]: the registry of observers that the
    transaction manager notifies.  A callback is a function on the world that
    observers can reach and says whether it panicked; a filter that panics
    returns nothing. *)

From stdpp Require Import base list.
From Stdlib Require Import ZArith Lia.
From S2P Require Import Prelude.

(** [DispatchOutcome]. *)
Record DispatchOutcome := mkOutcome {
  delivered : Z;
  skipped_by_filter : Z;
  panics : Z;
}.

(** [FilterEval]. *)
Inductive FilterEval := Matched | Skip | Panicked.

Record SubscriptionEntry (E W : Type) := mkSub {
  se_id : Z;
  se_callback : E -> W -> W * bool;
  se_filter : option (E -> option bool);
}.
Arguments mkSub {E W}.
Arguments se_id {E W}.
Arguments se_callback {E W}.
Arguments se_filter {E W}.

Record EventSubscriptions (E W : Type) := mkSubs {
  subs_next_id : Z;
  subs_entries : list (SubscriptionEntry E W);
}.
Arguments mkSubs {E W}.
Arguments subs_next_id {E W}.
Arguments subs_entries {E W}.

Module Events.
Section events.
Context {E W : Type}.
Implicit Types s : EventSubscriptions E W.

Definition new : EventSubscriptions E W := mkSubs 1 [].

Definition eval_filter (f : option (E -> option bool)) (ev : E) : FilterEval :=
  match f with
  | None => Matched
  | Some f =>
      match f ev with
      | Some true => Matched
      | Some false => Skip
      | None => Panicked
      end
  end.

Definition add_filtered (cb : Z -> E -> W -> W * bool) (f : option (E -> option bool)) s
  : EventSubscriptions E W * Z :=
  let i := subs_next_id s in
  (mkSubs (wrap_u64 (i + 1)) (subs_entries s ++ [mkSub i (cb i) f]), i).

Definition add (cb : Z -> E -> W -> W * bool) s : EventSubscriptions E W * Z :=
  add_filtered cb None s.

Definition remove (i : Z) s : EventSubscriptions E W * bool :=
  let kept := base.filter (fun e => se_id e <> i) (subs_entries s) in
  (mkSubs (subs_next_id s) kept, bool_decide (length kept <> length (subs_entries s))).

Definition clear s : EventSubscriptions E W := mkSubs (subs_next_id s) [].

Definition len s : Z := Z.of_nat (length (subs_entries s)).

Definition is_empty s : bool := bool_decide (subs_entries s = []).

(** One observer of the dispatch loop. *)
Definition notify (ev : E) (e : SubscriptionEntry E W) (wo : W * DispatchOutcome)
  : W * DispatchOutcome :=
  let '(w, o) := wo in
  match eval_filter (se_filter e) ev with
  | Skip => (w, mkOutcome (delivered o) (skipped_by_filter o + 1) (panics o))
  | Panicked => (w, mkOutcome (delivered o) (skipped_by_filter o + 1) (panics o + 1))
  | Matched =>
      match se_callback e ev w with
      | (w1, false) => (w1, mkOutcome (delivered o + 1) (skipped_by_filter o) (panics o))
      | (w1, true) => (w1, mkOutcome (delivered o) (skipped_by_filter o) (panics o + 1))
      end
  end.

Definition dispatch_detailed (ev : E) s (w : W) : W * DispatchOutcome :=
  fold_left (fun wo e => notify ev e wo) (subs_entries s) (w, mkOutcome 0 0 0).

Definition dispatch (ev : E) s (w : W) : W * Z :=
  let '(w1, o) := dispatch_detailed ev s w in (w1, panics o).

(** A relation on worlds that every callback respects is respected by a
    dispatch. *)
Lemma dispatch_pres (R : W -> W -> Prop) ev s w :
  (forall x, R x x) -> (forall x y z, R x y -> R y z -> R x z) ->
  (forall e x, e ∈ subs_entries s -> R x (se_callback e ev x).1) ->
  R w (dispatch_detailed ev s w).1.
Proof.
  intros Hr Ht Hcb. unfold dispatch_detailed.
  change w with ((w, mkOutcome 0 0 0).1) at 1. generalize (w, mkOutcome 0 0 0).
  induction (subs_entries s) as [|e l IH]; intros [x o]; cbn [fold_left]; [apply Hr|].
  eapply Ht; [|apply IH; intros; apply Hcb; by right].
  specialize (Hcb e x ltac:(left)). unfold notify.
  destruct (eval_filter _ _); try apply Hr. destruct (se_callback e ev x) as [x1 []]; exact Hcb.
Qed.

End events.
End Events.
