(* ===== verification/CheckpointGate.v ===== *)
(** * Checkpoint gate

    [linkrs-transaction/src/checkpoint.rs] ([CheckpointGate]) and
    [maintenance.rs]: writers take a slot before they begin and give it back
    when they finish; a checkpoint or a migration pauses new writers and waits
    until the slots are free.

    [CkGate] has each method as one step.  [GateSteps] cuts the methods at
    their atomic accesses (all [SeqCst]) and interleaves any number of writers
    with one checkpoint, since the gate exists for exactly that race; the
    writers between two accesses are counted, not named, and a store to a flag
    that neither side reads is joined to its neighbour. *)

From stdpp Require Import base list relations.
From Stdlib Require Import ZArith Lia.
From S2P Require Import Prelude Types.

Record CheckpointGate := mkCkGate {
  writing_paused : bool;
  checkpoint_active : bool;
  in_storage_phase : bool;
  active_writes : Z;
}.

Module CkGate.

Definition new : CheckpointGate := mkCkGate false false false 0.

Definition set_paused (b : bool) (g : CheckpointGate) : CheckpointGate :=
  mkCkGate b (checkpoint_active g) (in_storage_phase g) (active_writes g).

Definition set_checkpoint_active (b : bool) (g : CheckpointGate) : CheckpointGate :=
  mkCkGate (writing_paused g) b (in_storage_phase g) (active_writes g).

Definition set_storage_phase (b : bool) (g : CheckpointGate) : CheckpointGate :=
  mkCkGate (writing_paused g) (checkpoint_active g) b (active_writes g).

(** [AtomicU64::fetch_add] and [fetch_sub]. *)
Definition add_writes (d : Z) (g : CheckpointGate) : CheckpointGate :=
  mkCkGate (writing_paused g) (checkpoint_active g) (in_storage_phase g)
    (wrap_u64 (active_writes g + d)).

Definition acquire_write (g : CheckpointGate) : CheckpointGate * result unit TransactionError :=
  if writing_paused g then (g, Err CheckpointInProgress)
  else
    let g1 := add_writes 1 g in
    if writing_paused g1 then (add_writes (-1) g1, Err CheckpointInProgress) else (g1, Ok tt).

(** The flag says whether the waiting checkpoint is notified. *)
Definition release_write (g : CheckpointGate) : CheckpointGate * bool :=
  (add_writes (-1) g, bool_decide (active_writes g = 1)).

(** The three stores in front of the drain loop. *)
Definition pause_writes (g : CheckpointGate) : CheckpointGate :=
  set_storage_phase false (set_checkpoint_active true (set_paused true g)).

(** The stores of both timeout branches. *)
Definition resume_after_timeout (g : CheckpointGate) : CheckpointGate :=
  set_checkpoint_active false (set_paused false g).

(** A drain during which nobody releases a slot: the first round returns, or
    the wait ends at the timeout. *)
Definition pause_writes_and_drain (g : CheckpointGate)
  : CheckpointGate * result unit TransactionError :=
  let g1 := pause_writes g in
  if decide (active_writes g1 = 0) then (g1, Ok tt)
  else (resume_after_timeout g1, Err (CheckpointTimeout (active_writes g1))).

Definition resume_writes (g : CheckpointGate) : CheckpointGate :=
  set_storage_phase false (set_checkpoint_active false (set_paused false g)).

Definition release_write_gate_early (g : CheckpointGate) : CheckpointGate :=
  set_storage_phase true (set_paused false g).

Definition complete_checkpoint (g : CheckpointGate) : CheckpointGate :=
  set_storage_phase false (set_checkpoint_active false (set_paused false g)).

Definition is_paused (g : CheckpointGate) : bool := writing_paused g.

Definition is_checkpoint_active (g : CheckpointGate) : bool := checkpoint_active g.

Definition is_in_storage_phase (g : CheckpointGate) : bool := in_storage_phase g.

Definition active_write_count (g : CheckpointGate) : Z := active_writes g.

End CkGate.

(** ** Migration fence *)

Inductive MigrationCommand := BeginMigration | RequestDrain | ConfirmSwitch.

(** [MigrationDrainFence]; the gate it holds is passed next to it. *)
Record MigrationDrainFence := mkFence { released : bool }.

Module Migration.

Definition issue_begin_migration (has_pending_schema_change migration_active : bool)
  : result MigrationCommand TransactionError :=
  if has_pending_schema_change then Err BeginFailed
  else if migration_active then Err TooManyTransactions
  else Ok BeginMigration.

Definition hold (g : CheckpointGate)
  : CheckpointGate * result MigrationDrainFence TransactionError :=
  match CkGate.pause_writes_and_drain g with
  | (g1, Err e) => (g1, Err e)
  | (g1, Ok _) => (g1, Ok (mkFence false))
  end.

Definition issue_request_drain (g : CheckpointGate)
  : CheckpointGate * result MigrationDrainFence TransactionError := hold g.

Definition drop (f : MigrationDrainFence) (g : CheckpointGate) : CheckpointGate :=
  if released f then g else CkGate.resume_writes g.

(** [complete] resumes the writers and then drops the fence. *)
Definition complete (f : MigrationDrainFence) (g : CheckpointGate) : CheckpointGate :=
  drop (mkFence true) (CkGate.resume_writes g).

End Migration.

(** ** Interleavings *)

(** Where the checkpoint thread is: between the stores of
    [pause_writes_and_drain], in front of the counter load with the mutex
    held, after a load that saw writers, asleep on the condition variable,
    woken by the timeout, inside the checkpoint, in its storage phase, or on
    its way out. *)
Inductive ck_pc :=
| CkIdle | CkPaused | CkMarked | CkPolling | CkSaw (n : Z) | CkWaiting | CkTimedOut
| CkResuming | CkDrained | CkReleasing | CkStorage | CkFinishing | CkFailed (n : Z).

(** Writers: [checked] passed the first load, [counted] incremented,
    [bailing] saw the pause after that, [holding] own a slot, [notifying]
    gave the last slot back and are about to notify. *)
Record gstate := mkGs {
  gs_gate : CheckpointGate;
  gs_checked : nat;
  gs_counted : nat;
  gs_bailing : nat;
  gs_holding : nat;
  gs_notifying : nat;
  gs_ck : ck_pc;
}.

Module GateSteps.
Import CkGate.

Definition wake (ck : ck_pc) : ck_pc :=
  match ck with CkWaiting => CkPolling | _ => ck end.

(** Accesses of the writers: [acquire_write] and [release_write]. *)
Inductive wstep : gstate -> gstate -> Prop :=
| w_check g a b c d e k :
    writing_paused g = false -> wstep (mkGs g a b c d e k) (mkGs g (S a) b c d e k)
| w_reject g a b c d e k :
    writing_paused g = true -> wstep (mkGs g a b c d e k) (mkGs g a b c d e k)
| w_count g a b c d e k :
    active_writes g < U64_MAX ->
    wstep (mkGs g (S a) b c d e k) (mkGs (add_writes 1 g) a (S b) c d e k)
| w_admit g a b c d e k :
    writing_paused g = false ->
    wstep (mkGs g a (S b) c d e k) (mkGs g a b c (S d) e k)
| w_refuse g a b c d e k :
    writing_paused g = true ->
    wstep (mkGs g a (S b) c d e k) (mkGs g a b (S c) d e k)
| w_bail g a b c d e k :
    wstep (mkGs g a b (S c) d e k) (mkGs (add_writes (-1) g) a b c d e k)
| w_release g a b c d e k :
    wstep (mkGs g a b c (S d) e k)
      (mkGs (release_write g).1 a b c d (if (release_write g).2 then S e else e) k)
| w_notify g a b c d e k :
    wstep (mkGs g a b c d (S e) k) (mkGs g a b c d e (wake k)).

(** Accesses of the checkpoint: [pause_writes_and_drain], then
    [resume_writes] or [complete_checkpoint], with or without
    [release_write_gate_early]. *)
Inductive cstep : gstate -> gstate -> Prop :=
| c_pause g a b c d e :
    cstep (mkGs g a b c d e CkIdle) (mkGs (set_paused true g) a b c d e CkPaused)
| c_mark g a b c d e :
    cstep (mkGs g a b c d e CkPaused) (mkGs (set_checkpoint_active true g) a b c d e CkMarked)
| c_enter g a b c d e :
    cstep (mkGs g a b c d e CkMarked) (mkGs (set_storage_phase false g) a b c d e CkPolling)
| c_drained g a b c d e :
    active_writes g = 0 ->
    cstep (mkGs g a b c d e CkPolling) (mkGs g a b c d e CkDrained)
| c_saw g a b c d e :
    active_writes g <> 0 ->
    cstep (mkGs g a b c d e CkPolling) (mkGs g a b c d e (CkSaw (active_writes g)))
| c_elapsed g a b c d e n :
    cstep (mkGs g a b c d e (CkSaw n))
      (mkGs (resume_after_timeout g) a b c d e (CkFailed n))
| c_wait g a b c d e n :
    cstep (mkGs g a b c d e (CkSaw n)) (mkGs g a b c d e CkWaiting)
| c_timeout g a b c d e :
    cstep (mkGs g a b c d e CkWaiting) (mkGs g a b c d e CkTimedOut)
| c_give_up g a b c d e :
    cstep (mkGs g a b c d e CkTimedOut)
      (mkGs (resume_after_timeout g) a b c d e CkResuming)
| c_report g a b c d e :
    cstep (mkGs g a b c d e CkResuming) (mkGs g a b c d e (CkFailed (active_writes g)))
| c_reset g a b c d e n :
    cstep (mkGs g a b c d e (CkFailed n)) (mkGs g a b c d e CkIdle)
| c_early g a b c d e :
    cstep (mkGs g a b c d e CkDrained) (mkGs (set_paused false g) a b c d e CkReleasing)
| c_storage g a b c d e :
    cstep (mkGs g a b c d e CkReleasing) (mkGs (set_storage_phase true g) a b c d e CkStorage)
| c_resume g a b c d e k :
    k = CkDrained \/ k = CkStorage ->
    cstep (mkGs g a b c d e k) (mkGs (set_paused false g) a b c d e CkFinishing)
| c_finish g a b c d e :
    cstep (mkGs g a b c d e CkFinishing)
      (mkGs (set_storage_phase false (set_checkpoint_active false g)) a b c d e CkIdle).

Definition gstep (s s' : gstate) : Prop := wstep s s' \/ cstep s s'.

Definition gate_init : gstate := mkGs new 0 0 0 0 0 CkIdle.

Definition gate_reachable (s : gstate) : Prop := rtc gstep gate_init s.

(** ** Invariant *)

(** The program points at which the pause is in force. *)
Definition pausing (k : ck_pc) : bool :=
  match k with
  | CkPaused | CkMarked | CkPolling | CkSaw _ | CkWaiting | CkTimedOut | CkDrained => true
  | _ => false
  end.

Record ginv (s : gstate) : Prop := {
  gi_count : active_writes (gs_gate s) =
    Z.of_nat (gs_counted s) + Z.of_nat (gs_bailing s) + Z.of_nat (gs_holding s);
  gi_range : is_u64 (active_writes (gs_gate s));
  gi_paused : writing_paused (gs_gate s) = pausing (gs_ck s);
  gi_drained : gs_ck s = CkDrained -> gs_holding s = 0%nat;
}.

Lemma pausing_wake k : pausing (wake k) = pausing k.
Proof. by destruct k. Qed.

Lemma wake_drained k : wake k = CkDrained -> k = CkDrained.
Proof. by destruct k. Qed.

Lemma ginv_init : ginv gate_init.
Proof. split; try done. Qed.

Lemma ginv_wstep s s' : wstep s s' -> ginv s -> ginv s'.
Proof.
  intros Hs [Hc Hr Hp Hd]. destruct Hs; simpl in *; (split; simpl;
    [try (unfold release_write, add_writes; simpl; rewrite wrap_u64_small);
       unfold is_u64 in *; lia
    |try (unfold release_write, add_writes; simpl); try apply wrap_u64_range; done
    |rewrite ?pausing_wake; congruence
    |intros Hk; rewrite ?pausing_wake in *; try apply wake_drained in Hk;
       first [done | (specialize (Hd Hk); congruence) | (subst; simpl in *; congruence)]]).
Qed.

Lemma ginv_cstep s s' : cstep s s' -> ginv s -> ginv s'.
Proof.
  intros Hs [Hc Hr Hp Hd].
  destruct Hs; simpl in *; split; simpl; try done; try lia; intros [=].
Qed.

Lemma ginv_reachable s : gate_reachable s -> ginv s.
Proof.
  intros H. unfold gate_reachable in H. remember gate_init as s0 eqn:E.
  assert (ginv s0) as H0 by (subst; apply ginv_init). clear E.
  induction H as [|x y z [Hs|Hs] _ IH]; eauto using ginv_wstep, ginv_cstep.
Qed.

(** ** Properties *)

(** [C25] Mutual exclusion of checkpoint and writers: in every interleaving, from
    the moment [pause_writes_and_drain] returns until the checkpoint lifts the
    pause, no writer owns a slot, the pause is in force, and no step of a
    writer admits one; the gate counter is exactly the writers that are between
    increment and decrement. *)
Theorem gate_excludes_writers s :
  gate_reachable s -> gs_ck s = CkDrained ->
  gs_holding s = 0%nat /\ writing_paused (gs_gate s) = true /\
  active_write_count (gs_gate s) = Z.of_nat (gs_counted s) + Z.of_nat (gs_bailing s) /\
  forall s', wstep s s' -> gs_holding s' = 0%nat /\ gs_ck s' = CkDrained.
Proof.
  intros Hr Hk. destruct (ginv_reachable s Hr) as [Hc Hu Hp Hd].
  specialize (Hd Hk). rewrite Hk in Hp. simpl in Hp.
  split; [done|]. split; [done|]. unfold active_write_count. split; [lia|].
  intros s' Hs. destruct Hs; simpl in *; subst; simpl; try done; try congruence.
Qed.

(** The checkpoint thread, left alone, lifts the pause in a few steps. *)
Lemma lift_saw g a b c d e n :
  rtc cstep (mkGs g a b c d e (CkSaw n)) (mkGs (resume_after_timeout g) a b c d e (CkFailed n)).
Proof. eapply rtc_l; [apply c_elapsed|]. reflexivity. Qed.

Lemma lift_polling g a b c d e :
  exists g' k, rtc cstep (mkGs g a b c d e CkPolling) (mkGs g' a b c d e k) /\
    writing_paused g' = false.
Proof.
  destruct (decide (active_writes g = 0)) as [Hz|Hz].
  - exists (set_paused false g), CkFinishing. split; [|done].
    eapply rtc_l; [by apply c_drained|]. apply rtc_once, c_resume. by left.
  - exists (resume_after_timeout g), (CkFailed (active_writes g)). split; [|done].
    eapply rtc_l; [by apply c_saw|]. apply lift_saw.
Qed.

(** [C32] The gate is never wedged: from every reachable state the checkpoint
    thread alone, whatever the writers do not do, reaches a state in which the
    pause is lifted, in particular when it times out with writers still active,
    and there [acquire_write] succeeds. *)
Theorem gate_never_wedged s :
  gate_reachable s ->
  exists s', rtc cstep s s' /\ writing_paused (gs_gate s') = false /\
    (acquire_write (gs_gate s')).2 = Ok tt.
Proof.
  intros Hr. destruct (ginv_reachable s Hr) as [_ _ Hp _].
  assert (exists s', rtc cstep s s' /\ writing_paused (gs_gate s') = false) as (s' & ? & Hf).
  2: { exists s'. split; [done|]. split; [done|]. unfold acquire_write. by rewrite Hf; simpl; rewrite Hf. }
  destruct s as [g a b c d e k]. simpl in Hp.
  assert (forall g1 k1, rtc cstep (mkGs g a b c d e k) (mkGs g1 a b c d e k1) ->
    writing_paused g1 = false ->
    exists s', rtc cstep (mkGs g a b c d e k) s' /\ writing_paused (gs_gate s') = false) as Hgo.
  { intros g1 k1 H1 H2. by exists (mkGs g1 a b c d e k1). }
  destruct k; try (by apply (Hgo g _ (rtc_refl _ _))).
  - edestruct lift_polling as (g' & k & H & Hf); eapply (Hgo g' k); [|done].
    eapply rtc_l; [apply c_mark|]. eapply rtc_l; [apply c_enter|]. exact H.
  - edestruct lift_polling as (g' & k & H & Hf); eapply (Hgo g' k); [|done].
    eapply rtc_l; [apply c_enter|]. exact H.
  - edestruct lift_polling as (g' & k & H & Hf); eapply (Hgo g' k); [|done]. exact H.
  - eapply Hgo; [apply lift_saw|done].
  - eapply (Hgo (resume_after_timeout g) CkResuming); [|done].
    eapply rtc_l; [apply c_timeout|]. apply rtc_once, c_give_up.
  - eapply (Hgo (resume_after_timeout g) CkResuming); [|done]. apply rtc_once, c_give_up.
  - eapply (Hgo (set_paused false g) CkFinishing); [|done]. apply rtc_once, c_resume. by left.
Qed.

(** ** Lost wake-up *)

(** A writer that had passed the first load when the pause came, counted
    itself, saw the pause and left again: its decrement notifies nobody. *)
Definition ex_lost : gstate :=
  mkGs (mkCkGate true true false 0) 0 0 0 0 0 CkWaiting.

Lemma ex_lost_reachable : gate_reachable ex_lost.
Proof.
  unfold gate_reachable, gate_init.
  eapply rtc_l; [left; by apply w_check|].
  eapply rtc_l; [left; apply w_count; vm_compute; done|].
  eapply rtc_l; [right; apply c_pause|].
  eapply rtc_l; [right; apply c_mark|].
  eapply rtc_l; [right; apply c_enter|].
  eapply rtc_l; [right; apply c_saw; vm_compute; done|].
  eapply rtc_l; [right; apply c_wait|].
  eapply rtc_l; [left; apply w_refuse; done|].
  eapply rtc_l; [left; apply w_bail|].
  apply rtc_refl.
Qed.

(** Lost wake-up: [pause_writes_and_drain] can sleep although no writer is
    left, because the refused writer's decrement in [acquire_write] does not
    notify (and [release_write] notifies without the mutex, so its notification
    can also fall between the load and the wait).  In that state nothing but the
    timeout can happen, so the checkpoint fails with a timeout that reports
    zero active writes. *)
Theorem drain_lost_wakeup :
  gate_reachable ex_lost /\ active_write_count (gs_gate ex_lost) = 0 /\
  (forall s', gstep ex_lost s' -> s' = ex_lost \/ gs_ck s' = CkTimedOut) /\
  exists s', rtc gstep ex_lost s' /\ gs_ck s' = CkFailed 0.
Proof.
  split; [apply ex_lost_reachable|]. split; [done|]. split.
  - intros s' [Hs|Hs]; inversion Hs; subst; simpl in *; try discriminate; auto; naive_solver.
  - exists (mkGs (mkCkGate false false false 0) 0 0 0 0 0 (CkFailed 0)). split; [|reflexivity].
    eapply rtc_l; [right; apply c_timeout|]. eapply rtc_l; [right; apply c_give_up|].
    apply rtc_once. right. apply (c_report (resume_after_timeout (mkCkGate true true false 0))).
Qed.

(** ** Witnesses *)

Definition ex_drained : gstate :=
  mkGs (mkCkGate true true false 0) 0 0 0 0 0 CkDrained.

Lemma ex_drained_reachable : gate_reachable ex_drained.
Proof.
  eapply rtc_l; [right; apply c_pause|]. eapply rtc_l; [right; apply c_mark|].
  eapply rtc_l; [right; apply c_enter|]. apply rtc_once. right. by apply c_drained.
Qed.

Lemma gate_excludes_writers_witness : gs_holding ex_drained = 0%nat.
Proof. exact (proj1 (gate_excludes_writers ex_drained ex_drained_reachable eq_refl)). Defined.

Lemma gate_never_wedged_witness :
  exists s', rtc cstep ex_lost s' /\ writing_paused (gs_gate s') = false /\
    (acquire_write (gs_gate s')).2 = Ok tt.
Proof. apply (gate_never_wedged ex_lost). exact ex_lost_reachable. Defined.

End GateSteps.
