(* ===== verification/PendingRecovery.v ===== *)
(** * Pending finalizations and commit participants

    [linkrs-transaction/src/participant.rs] (the descriptors and the commit
    sink) and [recovery.rs] (the queue of commits that are durable and not yet
    finalized, with its sidecar file).

    The sink is a trait object, so it is a class here: a storage state and the
    effect of each method on it, default methods included where an instance
    keeps them.  The sidecar is text, modelled as its code points, from the
    decimal printing of a record to the whitespace splitting of a line; a write
    of it either replaces the file or fails, since the source writes a sibling
    file, syncs it and renames it. *)

From stdpp Require Import base gmap list strings.
From Stdlib Require Import ZArith Lia.
From S2P Require Import Prelude Types WriteSet WalTypes UndoLog Journal Context.

(** [TransactionCommitDescriptor]. *)
Record TransactionCommitDescriptor := mkDesc {
  d_transaction_id : TransactionId;
  d_write_timestamp : Timestamp;
  d_commit_timestamp : Timestamp;
  d_durability : DurabilityLevel;
  d_write_set : WriteSet;
  d_read_set : WriteSet;
  d_first_sequence : Z;
  d_entry_count : Z;
  d_intent_count : Z;
  d_journal_range : Z * Z;
}.

Module Descriptor.

Definition new (i : TransactionId) (ts : Timestamp) (d : DurabilityLevel) (ws : WriteSet)
  : TransactionCommitDescriptor := mkDesc i ts 0 d ws Ws.new 0 0 0 (0, 0).

Definition set_commit_timestamp (ts : Timestamp) (d : TransactionCommitDescriptor)
  : TransactionCommitDescriptor :=
  mkDesc (d_transaction_id d) (d_write_timestamp d) ts (d_durability d) (d_write_set d)
    (d_read_set d) (d_first_sequence d) (d_entry_count d) (d_intent_count d)
    (d_journal_range d).

(** [TransactionContext::build_commit_descriptor]. *)
Definition build_commit_descriptor {Value} (c : TransactionContext Value)
  : TransactionCommitDescriptor :=
  let j := mutation_journal (x_logs c) in
  mkDesc (id (x_const c)) (start_timestamp (x_const c)) 0 (durability (x_const c))
    (write_set (x_logs c)) (read_set (x_logs c))
    (match j_records j with [] => 0 | r :: _ => r_sequence r end)
    (Journal.total_redo_entries j) (Journal.total_intents j) (0, Journal.len j).

End Descriptor.

(** [TransactionCommitSink].  [sink_abort] gets the context through its
    descriptor and may run its undo log, so it returns the log. *)
Class CommitSink (Value S : Type) := {
  sink_commit : TransactionCommitDescriptor -> S -> S * result CommitLsn string;
  sink_finalize : TransactionCommitDescriptor -> CommitLsn -> S -> S * result unit string;
  sink_abort : TransactionId -> Timestamp -> FileBackedUndoLog Value -> S ->
    S * FileBackedUndoLog Value * result unit string;
  sink_recover : S -> S * result Z string;
  sink_auto_checkpoint : S -> S * result unit string;
}.

(** ** The queue *)

(** [PendingFinalization]. *)
Record PendingFinalization := mkPending {
  pf_txn_id : TransactionId;
  pf_write_timestamp : Timestamp;
  pf_commit_timestamp : Timestamp;
  pf_commit_lsn : CommitLsn;
  pf_descriptor : TransactionCommitDescriptor;
}.

(** [SidecarRecord]. *)
Record SidecarRecord := mkSidecar {
  sc_txn_id : Z;
  sc_write_timestamp : Timestamp;
  sc_commit_timestamp : Timestamp;
  sc_commit_lsn : Z;
}.

(** [RecoveryManager], with the files its path can name. *)
Record RecoveryManager := mkRecovery {
  pending_finalizations : list PendingFinalization;
  sidecar_path : option string;
  sidecar_files : gmap string (list Z);
}.

(** ** Decimal text *)

Module Text.

(** [u64]'s [Display]: at most twenty digits. *)
Fixpoint digits (fuel : nat) (z : Z) : list Z :=
  match fuel with
  | O => []
  | S fuel' => (if decide (z < 10) then [] else digits fuel' (z / 10)) ++ [48 + z mod 10]
  end.

Definition show_u64 (z : Z) : list Z := digits 20 z.

(** [u64::from_str]: an optional plus sign, at least one digit, no overflow. *)
Fixpoint parse_digits (acc : Z) (l : list Z) : option Z :=
  match l with
  | [] => Some acc
  | c :: rest =>
      if decide (48 <= c <= 57) then
        let v := acc * 10 + (c - 48) in
        if decide (v <= U64_MAX) then parse_digits v rest else None
      else None
  end.

Definition parse_u64 (l : list Z) : option Z :=
  match l with
  | [] => None
  | c :: rest =>
      if decide (c = 43) then (if decide (rest = []) then None else parse_digits 0 rest)
      else parse_digits 0 l
  end.

(** [char::is_whitespace]. *)
Definition is_whitespace (c : Z) : bool :=
  bool_decide (9 <= c <= 13 \/ c = 32 \/ c = 133 \/ c = 160 \/ c = 5760 \/
    8192 <= c <= 8202 \/ c = 8232 \/ c = 8233 \/ c = 8239 \/ c = 8287 \/ c = 12288).

(** [str::split_whitespace]: [acc] is the word read so far, reversed. *)
Fixpoint split_whitespace (acc : list Z) (l : list Z) : list (list Z) :=
  match l with
  | [] => if decide (acc = []) then [] else [reverse acc]
  | c :: rest =>
      if is_whitespace c then
        (if decide (acc = []) then [] else [reverse acc]) ++ split_whitespace [] rest
      else split_whitespace (c :: acc) rest
  end.

(** [str::lines]: a line ends at a newline, less a carriage return in front of
    it; a last line without newline counts. *)
Definition strip_cr (l : list Z) : list Z :=
  match reverse l with
  | c :: rest => if decide (c = 13) then reverse rest else l
  | [] => l
  end.

Fixpoint lines (acc : list Z) (l : list Z) : list (list Z) :=
  match l with
  | [] => if decide (acc = []) then [] else [reverse acc]
  | c :: rest =>
      if decide (c = 10) then strip_cr (reverse acc) :: lines [] rest else lines (c :: acc) rest
  end.

End Text.

Module Pending.
Import Text.

Definition new : RecoveryManager := mkRecovery [] None ∅.

Definition set_queue (q : list PendingFinalization) (r : RecoveryManager) : RecoveryManager :=
  mkRecovery q (sidecar_path r) (sidecar_files r).

Definition set_files (f : gmap string (list Z)) (r : RecoveryManager) : RecoveryManager :=
  mkRecovery (pending_finalizations r) (sidecar_path r) f.

Definition set_sidecar_path (p : string) (r : RecoveryManager) : RecoveryManager :=
  mkRecovery (pending_finalizations r) (Some p) (sidecar_files r).

(** One line of the sidecar. *)
Definition show_pending (p : PendingFinalization) : list Z :=
  show_u64 (pf_txn_id p) ++ [32] ++ show_u64 (pf_write_timestamp p) ++ [32] ++
  show_u64 (pf_commit_timestamp p) ++ [32] ++ show_u64 (pf_commit_lsn p) ++ [10].

Definition sidecar_text (q : list PendingFinalization) : list Z := q ≫= show_pending.

(** [persist_locked]; [ok] is whether write, sync and rename succeed. *)
Definition persist_locked (ok : bool) (r : RecoveryManager) : RecoveryManager :=
  match sidecar_path r with
  | None => r
  | Some p =>
      if ok then set_files (<[p := sidecar_text (pending_finalizations r)]> (sidecar_files r)) r
      else r
  end.

Definition record (ok : bool) (d : TransactionCommitDescriptor) (commit_ts : Timestamp)
    (lsn : CommitLsn) (r : RecoveryManager) : RecoveryManager :=
  let kept := base.filter (fun p => pf_txn_id p <> d_transaction_id d)
                (pending_finalizations r) in
  persist_locked ok (set_queue (kept ++
    [mkPending (d_transaction_id d) (d_write_timestamp d) commit_ts lsn d]) r).

Definition parse_line (line : list Z) : option SidecarRecord :=
  match split_whitespace [] line with
  | a :: b :: c :: d :: _ =>
      match parse_u64 a, parse_u64 b, parse_u64 c, parse_u64 d with
      | Some i, Some w, Some t, Some l => Some (mkSidecar i w t l)
      | _, _, _, _ => None
      end
  | _ => None
  end.

(** [load_sidecar]; a missing file has no records, a malformed or empty line
    is skipped ([trim] is subsumed by the splitting). *)
Definition load_sidecar (r : RecoveryManager) : list SidecarRecord :=
  match sidecar_path r with
  | None => []
  | Some p =>
      match sidecar_files r !! p with
      | None => []
      | Some text => omap parse_line (lines [] text)
      end
  end.

Definition clear_sidecar (r : RecoveryManager) : RecoveryManager :=
  match sidecar_path r with
  | None => r
  | Some p => set_files (delete p (sidecar_files r)) r
  end.

Definition pending_txn_ids (r : RecoveryManager) : list TransactionId :=
  pf_txn_id <$> pending_finalizations r.

(** Remove the first entry of [txn]. *)
Fixpoint take_first (txn : TransactionId) (q : list PendingFinalization)
  : option (PendingFinalization * list PendingFinalization) :=
  match q with
  | [] => None
  | p :: rest =>
      if decide (pf_txn_id p = txn) then Some (p, rest)
      else match take_first txn rest with
           | Some (x, rest') => Some (x, p :: rest')
           | None => None
           end
  end.

Definition take_pending (txn : TransactionId) (r : RecoveryManager)
  : RecoveryManager * option PendingFinalization :=
  match take_first txn (pending_finalizations r) with
  | Some (p, q) => (set_queue q r, Some p)
  | None => (r, None)
  end.

Definition sync_sidecar (ok : bool) (r : RecoveryManager) : RecoveryManager :=
  persist_locked ok r.

Definition recover {Value S} `{CommitSink Value S} (sink : option S) (r : RecoveryManager)
  : RecoveryManager * option S * result Z TransactionError :=
  let n := Z.of_nat (length (pending_finalizations r)) in
  let r1 := set_queue [] r in
  let records := Z.of_nat (length (load_sidecar r1)) in
  match sink with
  | None => (clear_sidecar r1, None, Ok (n + records))
  | Some s =>
      match sink_recover s with
      | (s1, Err _) => (r1, Some s1, Err InternalError)
      | (s1, Ok k) => (clear_sidecar r1, Some s1, Ok (n + records + k))
      end
  end.

End Pending.

(** ** Facts *)

Module PendingFacts.
Import Text Pending.

Lemma parse_digits_app acc l1 l2 :
  parse_digits acc (l1 ++ l2) = parse_digits acc l1 ≫= fun v => parse_digits v l2.
Proof.
  revert acc. induction l1 as [|c l1 IH]; intros acc; simpl; [done|].
  repeat case_decide; auto.
Qed.

Lemma parse_digits_show fuel z :
  0 <= z < 10 ^ Z.of_nat fuel -> z <= U64_MAX -> parse_digits 0 (digits fuel z) = Some z.
Proof.
  revert z. induction fuel as [|fuel IH]; intros z Hz Hm; [simpl in *; f_equal; lia|].
  rewrite Nat2Z.inj_succ, Z.pow_succ_r in Hz by lia. cbn [digits].
  pose proof (Z.div_mod z 10 ltac:(lia)) as Hdm. pose proof (Z.mod_pos_bound z 10 ltac:(lia)).
  rewrite parse_digits_app.
  replace (parse_digits 0 (if decide (z < 10) then [] else digits fuel (z / 10)))
    with (Some (z / 10)).
  2: { case_decide; [simpl; f_equal; rewrite Z.div_small; lia|]. rewrite IH; [done| |].
       - split; [apply Z.div_pos; lia|apply Z.div_lt_upper_bound; lia].
       - etransitivity; [apply Z.div_le_upper_bound with (q := z)|]; lia. }
  simpl. rewrite decide_True by lia. rewrite decide_True by lia. f_equal. lia.
Qed.

Lemma digits_range fuel z : 0 <= z -> Forall (fun c => 48 <= c <= 57) (digits fuel z).
Proof.
  revert z. induction fuel as [|fuel IH]; intros z Hz; cbn [digits]; [done|].
  pose proof (Z.mod_pos_bound z 10 ltac:(lia)).
  apply Forall_app. split; [|by constructor; [lia|]].
  case_decide; [done|]. apply IH. apply Z.div_pos; lia.
Qed.

Lemma show_u64_cons z : exists c l, show_u64 z = c :: l.
Proof.
  unfold show_u64. cbn [digits]. destruct (if decide (z < 10) then [] else _); simpl; eauto.
Qed.

Lemma show_u64_range z : is_u64 z -> Forall (fun c => 48 <= c <= 57) (show_u64 z).
Proof. intros [? ?]. by apply digits_range. Qed.

(** Printing and parsing of a [u64]. *)
Lemma parse_show_u64 z : is_u64 z -> parse_u64 (show_u64 z) = Some z.
Proof.
  intros Hz. pose proof (show_u64_range z Hz) as Hr. unfold parse_u64.
  destruct (show_u64_cons z) as (c & l & E). rewrite E in Hr |- *.
  rewrite decide_False by (inversion Hr; lia). rewrite <- E.
  apply parse_digits_show; unfold is_u64, U64_MAX in *; lia.
Qed.

Lemma digit_not_white c : 48 <= c <= 57 -> is_whitespace c = false.
Proof. intros. unfold is_whitespace. apply bool_decide_eq_false. lia. Qed.

Lemma split_word acc w rest :
  Forall (fun c => 48 <= c <= 57) w -> reverse acc ++ w <> [] ->
  split_whitespace acc (w ++ 32 :: rest) = (reverse acc ++ w) :: split_whitespace [] rest.
Proof.
  revert acc. induction w as [|c w IH]; intros acc Hw Hne; simpl.
  - rewrite app_nil_r in *. destruct acc; [by destruct Hne|]. by simpl.
  - inversion Hw; subst. rewrite digit_not_white by done.
    rewrite IH; [|done|rewrite reverse_cons; by intros [[? [=]]%app_eq_nil ?]%app_eq_nil].
    by rewrite reverse_cons, <- app_assoc.
Qed.

Lemma split_last acc w :
  Forall (fun c => 48 <= c <= 57) w -> reverse acc ++ w <> [] ->
  split_whitespace acc w = [reverse acc ++ w].
Proof.
  revert acc. induction w as [|c w IH]; intros acc Hw Hne; simpl.
  - rewrite app_nil_r in *. destruct acc; [by destruct Hne|done].
  - inversion Hw; subst. rewrite digit_not_white by done.
    rewrite IH; [|done|rewrite reverse_cons; by intros [[? [=]]%app_eq_nil ?]%app_eq_nil].
    by rewrite reverse_cons, <- app_assoc.
Qed.

Lemma lines_line acc l rest :
  Forall (fun c => c <> 10 /\ c <> 13) l ->
  lines acc (l ++ 10 :: rest) = strip_cr (reverse acc ++ l) :: lines [] rest.
Proof.
  revert acc. induction l as [|c l IH]; intros acc Hl; simpl.
  - by rewrite app_nil_r.
  - inversion Hl; subst. rewrite decide_False by tauto. rewrite IH by done.
    by rewrite reverse_cons, <- app_assoc.
Qed.

Lemma strip_cr_id l : Forall (fun c => c <> 10 /\ c <> 13) l -> strip_cr l = l.
Proof.
  intros Hl. unfold strip_cr. destruct (reverse l) as [|c r] eqn:E; [done|].
  rewrite decide_False; [done|]. rewrite <- (reverse_involutive l), E in Hl.
  rewrite reverse_cons, Forall_app in Hl. destruct Hl as [_ Hc]. inversion Hc; tauto.
Qed.

(** What the sidecar says of a queue entry. *)
Definition sidecar_of (p : PendingFinalization) : SidecarRecord :=
  mkSidecar (pf_txn_id p) (pf_write_timestamp p) (pf_commit_timestamp p) (pf_commit_lsn p).

Definition u64_pending (p : PendingFinalization) : Prop :=
  is_u64 (pf_txn_id p) /\ is_u64 (pf_write_timestamp p) /\
  is_u64 (pf_commit_timestamp p) /\ is_u64 (pf_commit_lsn p).

Lemma show_word z : is_u64 z -> reverse [] ++ show_u64 z <> [].
Proof. intros _. destruct (show_u64_cons z) as (? & ? & ->). done. Qed.

Lemma word_plain z : is_u64 z -> Forall (fun c => c <> 10 /\ c <> 13) (show_u64 z).
Proof. intros Hz. eapply Forall_impl; [by apply show_u64_range|]. simpl. intros; lia. Qed.

Lemma parse_show_line p rest :
  u64_pending p ->
  omap parse_line (lines [] (show_pending p ++ rest)) =
  sidecar_of p :: omap parse_line (lines [] rest).
Proof.
  intros (Hi & Hw & Ht & Hl). unfold show_pending.
  rewrite !app_assoc, <- app_assoc. cbn [app]. rewrite lines_line.
  2: { rewrite !Forall_app. repeat split; try (by apply word_plain); repeat constructor; lia. }
  rewrite reverse_nil. cbn [omap list_omap app]. rewrite strip_cr_id.
  2: { rewrite !Forall_app. repeat split; try (by apply word_plain); repeat constructor; lia. }
  unfold parse_line at 1. rewrite <- !app_assoc. cbn [app].
  rewrite split_word by auto using show_u64_range, show_word.
  rewrite split_word by auto using show_u64_range, show_word.
  rewrite split_word by auto using show_u64_range, show_word.
  rewrite split_last by auto using show_u64_range, show_word.
  rewrite !reverse_nil. cbn [app]. by rewrite !parse_show_u64.
Qed.

Lemma load_text q :
  Forall u64_pending q -> omap parse_line (lines [] (sidecar_text q)) = sidecar_of <$> q.
Proof.
  induction 1 as [|p q Hp _ IH]; [done|].
  change (sidecar_text (p :: q)) with (show_pending p ++ sidecar_text q).
  by rewrite parse_show_line, IH.
Qed.

(** A new process over the same files. *)
Definition restart (r : RecoveryManager) : RecoveryManager :=
  mkRecovery [] (sidecar_path r) (sidecar_files r).

Lemma queue_record ok d ts lsn r :
  pending_finalizations (record ok d ts lsn r) =
  base.filter (fun p => pf_txn_id p <> d_transaction_id d) (pending_finalizations r) ++
  [mkPending (d_transaction_id d) (d_write_timestamp d) ts lsn d].
Proof. unfold record, persist_locked. simpl. by destruct (sidecar_path r), ok. Qed.

Lemma load_record d ts lsn r p :
  sidecar_path r = Some p ->
  Forall u64_pending (pending_finalizations (record true d ts lsn r)) ->
  load_sidecar (restart (record true d ts lsn r)) =
  sidecar_of <$> pending_finalizations (record true d ts lsn r).
Proof.
  intros Hp. rewrite queue_record. intros Hq.
  unfold load_sidecar, restart, record, persist_locked. simpl. rewrite Hp. simpl.
  rewrite Hp, lookup_insert_eq. by rewrite load_text.
Qed.

Lemma take_first_other txn q x :
  Forall (fun p => pf_txn_id p <> txn) q -> pf_txn_id x = txn ->
  take_first txn (q ++ [x]) = Some (x, q).
Proof.
  intros Hq Hx. induction Hq as [|p q Hp _ IH]; simpl.
  - by rewrite decide_True.
  - by rewrite decide_False, IH.
Qed.

Lemma take_record ok d ts lsn r :
  (take_pending (d_transaction_id d) (record ok d ts lsn r)).2 =
  Some (mkPending (d_transaction_id d) (d_write_timestamp d) ts lsn d).
Proof.
  unfold take_pending. rewrite queue_record, take_first_other; [done| |done].
  apply Forall_forall. intros p Hp%list_elem_of_filter. tauto.
Qed.

(** The sidecar round trip: when the write of the sidecar succeeds, a
    process that restarts on the same files reads back exactly the queue, one
    record per entry and in its order, and in the running process the recorded
    transaction is handed to the next re-drive with the values it was recorded
    with, whatever older entry it had. *)
Theorem sidecar_roundtrip d ts lsn r p :
  sidecar_path r = Some p ->
  Forall u64_pending (pending_finalizations r) ->
  u64_pending (mkPending (d_transaction_id d) (d_write_timestamp d) ts lsn d) ->
  load_sidecar (restart (record true d ts lsn r)) =
    sidecar_of <$> pending_finalizations (record true d ts lsn r) /\
  (take_pending (d_transaction_id d) (record true d ts lsn r)).2 =
    Some (mkPending (d_transaction_id d) (d_write_timestamp d) ts lsn d).
Proof.
  intros Hp Hq Hd. split; [|apply take_record]. apply (load_record d ts lsn r p Hp).
  rewrite queue_record. apply Forall_app. split; [|by apply Forall_singleton].
  apply Forall_forall. intros x [_ Hx]%list_elem_of_filter. by eapply Forall_forall in Hq.
Qed.

(** [recover] counts every commit twice: the queue is mirrored in the
    sidecar, and the method adds the length of the queue and the number of
    sidecar records, so in the process that queued [n] commits it reports
    [2 * n] recovered ones. *)
Theorem recover_double_counts {Value S} `{CommitSink Value S} d ts lsn r p :
  sidecar_path r = Some p ->
  Forall u64_pending (pending_finalizations (record true d ts lsn r)) ->
  (recover (S := S) None (record true d ts lsn r)).2 =
  Ok (2 * Z.of_nat (length (pending_finalizations (record true d ts lsn r)))).
Proof.
  intros Hp Hq. unfold recover. cbn [snd]. f_equal.
  replace (load_sidecar (set_queue [] (record true d ts lsn r))) with
    (load_sidecar (restart (record true d ts lsn r))) by done.
  rewrite (load_record d ts lsn r p Hp Hq), length_fmap. lia.
Qed.

(** ** Witnesses *)

Definition ex_desc : TransactionCommitDescriptor := Descriptor.new 7 42 DSync Ws.new.

Definition ex_recovery : RecoveryManager := set_sidecar_path "pending" new.

(** A sink that accepts everything. *)
#[local] Instance unit_sink : CommitSink unit unit := {|
  sink_commit _ s := (s, Ok 7);
  sink_finalize _ _ s := (s, Ok tt);
  sink_abort _ _ u s := (s, u, Ok tt);
  sink_recover s := (s, Ok 0);
  sink_auto_checkpoint s := (s, Ok tt);
|}.

Lemma sidecar_roundtrip_witness :
  load_sidecar (restart (record true ex_desc 43 100 ex_recovery)) = [mkSidecar 7 42 43 100].
Proof.
  refine (eq_trans (proj1 (sidecar_roundtrip ex_desc 43 100 ex_recovery "pending" _ _ _)) _);
    [reflexivity|constructor|split_and!; split; vm_compute; congruence|reflexivity].
Defined.

Lemma recover_double_counts_witness :
  (recover (S := unit) None (record true ex_desc 0 100 ex_recovery)).2 = Ok 2.
Proof.
  apply (recover_double_counts ex_desc 0 100 ex_recovery "pending");
    [reflexivity|repeat constructor; vm_compute; congruence].
Defined.

End PendingFacts.
