(* ===== verification/WalCheckpoint.v ===== *)
(** * Checkpoint metadata

    [wal/checkpoint.rs] ([CheckpointManager]) with the modification tracker it
    reads ([linkrs-core/src/types/table_tracker.rs]): the sequence of checkpoints,
    the text file that makes the last one the recovery boundary, and the log
    segments a checkpoint makes superfluous.

    The file is its text; a [MetaIo] says which file operations of a call
    succeed.  The log directory is the list of its files. *)

From stdpp Require Import base gmap sets list strings pretty.
From Stdlib Require Import ZArith Lia.
From S2P Require Import Prelude Types WalTypes WalScan WalWriter WalFacts WalCommit WalCrash.
From S2P Require Import WalBuffered WalFiles Certifier UndoLog Journal Context PendingRecovery.

Inductive TableType := TVertex | TEdge | TProperty | TSchema.

#[export] Instance TableType_eq_dec : EqDecision TableType.
Proof. solve_decision. Defined.

Record TableId := mkTableId { table_type : TableType; table_label : Z }.

#[export] Instance TableId_eq_dec : EqDecision TableId.
Proof. solve_decision. Defined.

(** The sets keep the order in which they iterate; times are seconds of the
    monotonic clock. *)
Record TableTracker := mkTableTracker {
  tt_modified : list TableId;
  last_flush : Z;
  flush_threshold : Z;
  flush_interval : Z;
  tables_since_checkpoint : list TableId;
  modification_count : Z;
}.

Record Checkpoint := mkCheckpoint {
  ck_seq : Z;
  ck_timestamp : Timestamp;
  ck_lsn : Lsn;
  ck_wal_files : list string;
  ck_active : list TransactionId;
  redo_lsn : Lsn;
}.

Inductive CheckpointMode := ModeAuto | ModeForce.

#[export] Instance CheckpointMode_eq_dec : EqDecision CheckpointMode.
Proof. solve_decision. Defined.

(** The duration is left out. *)
Record CheckpointResult := mkCkResult {
  pages_written : Z;
  wal_files_processed : Z;
  cr_mode : CheckpointMode;
  cr_success : bool;
}.

(** [cm_meta]: the characters of [checkpoint.meta], when it exists. *)
Record CheckpointManager := mkCkMgr {
  current_seq : Z;
  last_checkpoint_ts : Timestamp;
  last_checkpoint_lsn : Lsn;
  cm_active : list TransactionId;
  cm_modified : list TableId;
  cm_tracker : option TableTracker;
  checkpoint_count : Z;
  cm_meta : option (list Z);
  cm_dir : list (string * list Z);
}.

(** Outcome of the write, the sync, the rename and the directory sync. *)
Record MetaIo := mkMetaIo { mio_write : bool; mio_sync : bool; mio_rename : bool; mio_dir : bool }.

Definition meta_ok : MetaIo := mkMetaIo true true true true.

Module Track.

Definition new (threshold interval now : Z) : TableTracker :=
  mkTableTracker [] now threshold interval [] 0.

Definition default_tracker (now : Z) : TableTracker := new 1000 60 now.

Definition set_tables (l : list TableId) (count : Z) (k : TableTracker) : TableTracker :=
  mkTableTracker l (last_flush k) (flush_threshold k) (flush_interval k)
    (tables_since_checkpoint k) count.

Definition set_since (l : list TableId) (k : TableTracker) : TableTracker :=
  mkTableTracker (tt_modified k) (last_flush k) (flush_threshold k) (flush_interval k) l
    (modification_count k).

Definition update_flush_time (now : Z) (k : TableTracker) : TableTracker :=
  mkTableTracker (tt_modified k) now (flush_threshold k) (flush_interval k)
    (tables_since_checkpoint k) (modification_count k).

Definition insert (t : TableId) (l : list TableId) : list TableId :=
  if decide (t ∈ l) then l else l ++ [t].

Definition mark_modified (t : TableId) (k : TableTracker) : TableTracker :=
  set_tables (insert t (tt_modified k)) (wrap_u64 (modification_count k + 1)) k.

Definition mark_modified_batch (ts : list TableId) (k : TableTracker) : TableTracker :=
  set_tables (foldl (fun l t => insert t l) (tt_modified k) ts)
    (wrap_u64 (modification_count k + Z.of_nat (length ts))) k.

Definition mark_modified_since_checkpoint (t : TableId) (k : TableTracker) : TableTracker :=
  set_since (insert t (tables_since_checkpoint k)) k.

Definition is_modified_since_checkpoint (t : TableId) (k : TableTracker) : bool :=
  bool_decide (t ∈ tables_since_checkpoint k).

Definition clear_checkpoint_tracking (k : TableTracker) : TableTracker := set_since [] k.

Definition unmark_modified (t : TableId) (k : TableTracker) : TableTracker :=
  set_tables (filter (fun x => x <> t) (tt_modified k)) (modification_count k) k.

Definition is_modified (t : TableId) (k : TableTracker) : bool := bool_decide (t ∈ tt_modified k).

Definition should_flush (now : Z) (k : TableTracker) : bool :=
  bool_decide (flush_threshold k <= Z.of_nat (length (tt_modified k))) ||
  bool_decide (flush_interval k <= now - last_flush k).

Definition clear (k : TableTracker) : TableTracker := set_tables [] (modification_count k) k.

Definition flush_and_reset (now : Z) (k : TableTracker) : TableTracker * list TableId :=
  (update_flush_time now (clear k), tt_modified k).

Definition get_modified_tables (k : TableTracker) : list TableId := tt_modified k.

Definition get_tables_for_full_write (k : TableTracker) : list TableId := tables_since_checkpoint k.

End Track.

Module Ckpt.
Import Text.

(** ** State *)

Definition new (tracker : option TableTracker) (dir : list (string * list Z)) (meta : option (list Z))
  : CheckpointManager := mkCkMgr 0 0 0 [] [] tracker 0 meta dir.

Definition set_point (seq : Z) (ts : Timestamp) (lsn : Lsn) (k : CheckpointManager)
  : CheckpointManager :=
  mkCkMgr seq ts lsn (cm_active k) (cm_modified k) (cm_tracker k) (checkpoint_count k) (cm_meta k)
    (cm_dir k).

Definition set_modified (l : list TableId) (k : CheckpointManager) : CheckpointManager :=
  mkCkMgr (current_seq k) (last_checkpoint_ts k) (last_checkpoint_lsn k) (cm_active k) l
    (cm_tracker k) (checkpoint_count k) (cm_meta k) (cm_dir k).

Definition set_active (l : list TransactionId) (k : CheckpointManager) : CheckpointManager :=
  mkCkMgr (current_seq k) (last_checkpoint_ts k) (last_checkpoint_lsn k) l (cm_modified k)
    (cm_tracker k) (checkpoint_count k) (cm_meta k) (cm_dir k).

Definition set_meta (m : option (list Z)) (k : CheckpointManager) : CheckpointManager :=
  mkCkMgr (current_seq k) (last_checkpoint_ts k) (last_checkpoint_lsn k) (cm_active k)
    (cm_modified k) (cm_tracker k) (checkpoint_count k) m (cm_dir k).

Definition set_ck_dir (d : list (string * list Z)) (k : CheckpointManager) : CheckpointManager :=
  mkCkMgr (current_seq k) (last_checkpoint_ts k) (last_checkpoint_lsn k) (cm_active k)
    (cm_modified k) (cm_tracker k) (checkpoint_count k) (cm_meta k) d.

Definition register_transaction (t : TransactionId) (k : CheckpointManager) : CheckpointManager :=
  if decide (t ∈ cm_active k) then k else set_active (cm_active k ++ [t]) k.

Definition unregister_transaction (t : TransactionId) (k : CheckpointManager) : CheckpointManager :=
  set_active (filter (fun x => x <> t) (cm_active k)) k.

Definition mark_table_modified (t : TableId) (k : CheckpointManager) : CheckpointManager :=
  if decide (t ∈ cm_modified k) then k else set_modified (cm_modified k ++ [t]) k.

Definition mark_table_clean (t : TableId) (k : CheckpointManager) : CheckpointManager :=
  set_modified (filter (fun x => x <> t) (cm_modified k)) k.

(** ** The metadata file *)

(** Bytes of an ASCII text. *)
Fixpoint ascii (s : string) : list Z :=
  match s with
  | EmptyString => []
  | String c rest => Z.of_nat (Ascii.nat_of_ascii c) :: ascii rest
  end.

Definition CHECKPOINT_FORMAT_VERSION : list Z := ascii "1".

Definition meta_line (key : string) (value : list Z) : list Z := ascii key ++ [61] ++ value ++ [10].

Definition meta_text (seq : Z) (ts : Timestamp) (lsn : Lsn) : list Z :=
  meta_line "format_version" CHECKPOINT_FORMAT_VERSION ++ meta_line "seq" (show_u64 seq) ++
  meta_line "timestamp" (show_u64 ts) ++ meta_line "lsn" (show_u64 lsn).

(** A new file is complete before it takes the name of the old one. *)
Definition save_checkpoint_meta (io : MetaIo) : ST CheckpointManager WalError unit :=
  fun k =>
    if mio_write io && mio_sync io && mio_rename io then
      let k1 := set_meta (Some (meta_text (current_seq k) (last_checkpoint_ts k)
                                  (last_checkpoint_lsn k))) k in
      (k1, if mio_dir io then Ok tt else Err IoError)
    else (k, Err IoError).

(** [str::split_once('=')]. *)
Fixpoint split_once (l : list Z) : option (list Z * list Z) :=
  match l with
  | [] => None
  | c :: rest =>
      if decide (c = 61) then Some ([], rest)
      else match split_once rest with
           | Some (a, b) => Some (c :: a, b)
           | None => None
           end
  end.

Fixpoint trim_start (l : list Z) : list Z :=
  match l with
  | [] => []
  | c :: rest => if is_whitespace c then trim_start rest else l
  end.

Definition trim (l : list Z) : list Z := reverse (trim_start (reverse (trim_start l))).

(** One line; the flag says whether the version was seen. *)
Definition load_line (k : CheckpointManager) (seen : bool) (line : list Z)
  : result (CheckpointManager * bool) WalError :=
  match split_once line with
  | None => Ok (k, seen)
  | Some (key, value) =>
      let key := trim key in
      let value := trim value in
      if decide (key = ascii "format_version") then
        if decide (value <> CHECKPOINT_FORMAT_VERSION) then Err IoError else Ok (k, true)
      else if decide (key = ascii "seq") then
        match parse_u64 value with
        | Some n => Ok (set_point n (last_checkpoint_ts k) (last_checkpoint_lsn k) k, seen)
        | None => Err IoError
        end
      else if decide (key = ascii "timestamp") then
        match parse_u64 value with
        | Some n => Ok (set_point (current_seq k) n (last_checkpoint_lsn k) k, seen)
        | None => Err IoError
        end
      else if decide (key = ascii "lsn") then
        match parse_u64 value with
        | Some n => Ok (set_point (current_seq k) (last_checkpoint_ts k) n k, seen)
        | None => Err IoError
        end
      else Ok (k, seen)
  end.

(** The fields set before an error stay. *)
Fixpoint load_lines (ls : list (list Z)) (seen : bool) : ST CheckpointManager WalError bool :=
  match ls with
  | [] => st_ret seen
  | l :: rest => fun k =>
      match load_line k seen l with
      | Err e => (k, Err e)
      | Ok (k1, seen1) => load_lines rest seen1 k1
      end
  end.

Definition load_checkpoint_meta : ST CheckpointManager WalError unit :=
  fun k =>
    match cm_meta k with
    | None => (k, Ok tt)
    | Some text =>
        match load_lines (lines [] text) false k with
        | (k1, Err e) => (k1, Err e)
        | (k1, Ok seen) =>
            if existsb (fun l => bool_decide (61 ∈ l)) (lines [] text) && negb seen
            then (k1, Err IoError) else (k1, Ok tt)
        end
    end.

(** [dirs]: the directories exist or could be created. *)
Definition init (dirs : bool) : ST CheckpointManager WalError unit :=
  fun k => if dirs then load_checkpoint_meta k else (k, Err IoError).

(** ** Checkpoints *)

Definition checked_next (seq : Z) : option Z := checked_add_u64 seq 1.

(** The name filter of the log directory. *)
Definition is_wal_name (name : string) : bool :=
  let rev_suffix := String.rev ".wal" in
  (bool_decide (is_Some (Segments.strip_prefix rev_suffix (String.rev name))) &&
   bool_decide (name <> ".wal"%string)) ||
  (bool_decide (is_Some (Segments.strip_prefix "thread_" name)) &&
   match String.index 0 "_wal_" name with Some _ => true | None => false end).

Definition is_wal_file_before_checkpoint (content : list Z) (seq : Z) : bool :=
  if decide (length content < WAL_FILE_HEADER_SIZE)%nat then false
  else match FileHeader.from_bytes (take WAL_FILE_HEADER_SIZE content) with
       | Some h => bool_decide (fh_checkpoint_seq h < seq)
       | None => false
       end.

Definition get_wal_files_before_checkpoint (seq : Z) (k : CheckpointManager) : list string :=
  (filter (fun f => is_wal_name f.1 && is_wal_file_before_checkpoint f.2 seq = true) (cm_dir k)).*1.

Definition prepare_checkpoint (ts : Timestamp) (lsn : Lsn) (k : CheckpointManager)
  : result Checkpoint WalError :=
  match checked_next (current_seq k) with
  | None => Err IoError
  | Some next => Ok (mkCheckpoint next ts lsn (get_wal_files_before_checkpoint next k) (cm_active k)
      (if decide (cm_active k = []) then lsn else 0))
  end.

Definition publish_checkpoint (io : MetaIo) (c : Checkpoint) : ST CheckpointManager WalError unit :=
  fun k =>
    match checked_next (current_seq k) with
    | None => (k, Err IoError)
    | Some expected =>
        if decide (ck_seq c <> expected) then (k, Err IoError)
        else match save_checkpoint_meta io (set_point (ck_seq c) (ck_timestamp c) (ck_lsn c) k) with
             | (k1, Ok _) => (k1, Ok tt)
             | (k1, Err e) =>
                 (set_point (current_seq k) (last_checkpoint_ts k) (last_checkpoint_lsn k) k1, Err e)
             end
    end.

Definition create_checkpoint (io : MetaIo) (ts : Timestamp) (lsn : Lsn)
  : ST CheckpointManager WalError Checkpoint :=
  fun k =>
    match prepare_checkpoint ts lsn k with
    | Err e => (k, Err e)
    | Ok c => match publish_checkpoint io c k with
              | (k1, Ok _) => (k1, Ok c)
              | (k1, Err e) => (k1, Err e)
              end
    end.

Definition create_checkpoint_with_tables (io : MetaIo) (ts : Timestamp) (lsn : Lsn)
    (tables : list TableId) : ST CheckpointManager WalError Checkpoint :=
  fun k => create_checkpoint io ts lsn (set_modified tables k).

(** The page count is taken after the tables were cleared. *)
Definition checkpoint (io : MetaIo) (ts : Timestamp) (lsn : Lsn) (mode : CheckpointMode)
  : ST CheckpointManager WalError CheckpointResult :=
  fun k =>
    match create_checkpoint io ts lsn k with
    | (k1, Err e) => (k1, Err e)
    | (k1, Ok c) =>
        let k2 := if decide (mode = ModeForce) then set_modified [] k1 else k1 in
        (k2, Ok (mkCkResult (Z.of_nat (length (cm_modified k2))) (Z.of_nat (length (ck_wal_files c)))
                   mode true))
    end.

Definition create_checkpoint_with_tracker (io : MetaIo) (ts : Timestamp) (lsn : Lsn)
    (mode : CheckpointMode) : ST CheckpointManager WalError CheckpointResult :=
  fun k =>
    let tables := match cm_tracker k with
                  | Some t => Track.get_modified_tables t
                  | None => cm_modified k
                  end in
    match checkpoint io ts lsn mode (set_modified tables k) with
    | (k1, Err e) => (k1, Err e)
    | (k1, Ok r) =>
        let tracker := if decide (mode = ModeForce) then Track.clear <$> cm_tracker k1
                       else cm_tracker k1 in
        (mkCkMgr (current_seq k1) (last_checkpoint_ts k1) (last_checkpoint_lsn k1) (cm_active k1)
           (cm_modified k1) tracker (wrap_u64 (checkpoint_count k1 + 1)) (cm_meta k1) (cm_dir k1), Ok r)
    end.

(** [fine name] tells whether the file can be removed. *)
Fixpoint cleanup_loop (fine : string -> bool) (names : list string) (count : Z)
  : ST CheckpointManager WalError Z :=
  match names with
  | [] => st_ret count
  | n :: rest => fun k =>
      if decide (n ∈ (cm_dir k).*1) then
        if fine n then cleanup_loop fine rest (count + 1)
                         (set_ck_dir (Segments.remove_file n (cm_dir k)) k)
        else (k, Err IoError)
      else cleanup_loop fine rest count k
  end.

Definition cleanup_before_checkpoint (fine : string -> bool) (c : Checkpoint)
  : ST CheckpointManager WalError Z := cleanup_loop fine (ck_wal_files c) 0.

(** A sequence found on disk; the raised sequence stays when the file cannot be
    written. *)
Definition adopt_published_sequence (io : MetaIo) (seq : Z) : ST CheckpointManager WalError unit :=
  fun k =>
    if decide (seq <= current_seq k) then (k, Ok tt)
    else save_checkpoint_meta io (set_point seq (last_checkpoint_ts k) (last_checkpoint_lsn k) k).

Definition calculate_redo_lsn (k : CheckpointManager) : Lsn :=
  if decide (cm_active k = []) then last_checkpoint_lsn k else 0.

Definition get_latest_checkpoint (k : CheckpointManager) : option Checkpoint :=
  if decide (current_seq k = 0) then None
  else Some (mkCheckpoint (current_seq k) (last_checkpoint_ts k) (last_checkpoint_lsn k) []
    (cm_active k) (calculate_redo_lsn k)).

Definition sync_modified_tables_from_tracker (k : CheckpointManager) : CheckpointManager :=
  match cm_tracker k with
  | Some t => foldl (fun k x => mark_table_modified x k) k (Track.get_modified_tables t)
  | None => k
  end.

End Ckpt.

Module CkptFacts.
Import Text PendingFacts Ckpt.

(** ** The metadata file, read back *)

Abbreviation plain := (Forall (fun c : Z => c <> 10 /\ c <> 13)).

Abbreviation word := (Forall (fun c : Z => is_whitespace c = false)).

Lemma trim_start_word l : word l -> trim_start l = l.
Proof. destruct 1 as [|c l Hc _]; [done|]. simpl. by rewrite Hc. Qed.

Lemma trim_word l : word l -> trim l = l.
Proof.
  intros Hl. unfold trim. rewrite (trim_start_word l), trim_start_word by (done || by apply Forall_reverse).
  apply reverse_involutive.
Qed.

Lemma split_once_key key value :
  Forall (fun c => c <> 61) key -> split_once (key ++ 61 :: value) = Some (key, value).
Proof. induction 1 as [|c key Hc _ IH]; simpl; [done|]. rewrite decide_False by done. by rewrite IH. Qed.

Lemma lines_meta key value rest :
  plain (ascii key) -> plain value ->
  lines [] (meta_line key value ++ rest) = (ascii key ++ 61 :: value) :: lines [] rest.
Proof.
  intros Hk Hv. unfold meta_line. rewrite <- !app_assoc. cbn [app].
  assert (Hl : plain (ascii key ++ 61 :: value)).
  { rewrite Forall_app, Forall_cons. repeat split; (done || lia). }
  replace (ascii key ++ 61 :: value ++ 10 :: rest)
    with ((ascii key ++ 61 :: value) ++ 10 :: rest) by by rewrite <- app_assoc.
  rewrite lines_line by done. by rewrite reverse_nil, strip_cr_id.
Qed.

Lemma show_word_white z : is_u64 z -> word (show_u64 z).
Proof. intros Hz. eapply Forall_impl; [by apply show_u64_range|]. intros c. apply digit_not_white. Qed.

(** The effect of one line the manager wrote itself. *)
Lemma load_line_value key z k seen :
  Forall (fun c => c <> 61) (ascii key) -> word (ascii key) -> is_u64 z ->
  load_line k seen (ascii key ++ 61 :: show_u64 z) =
  (if decide (ascii key = ascii "format_version") then
     if decide (show_u64 z <> CHECKPOINT_FORMAT_VERSION) then Err IoError else Ok (k, true)
   else if decide (ascii key = ascii "seq") then
     Ok (set_point z (last_checkpoint_ts k) (last_checkpoint_lsn k) k, seen)
   else if decide (ascii key = ascii "timestamp") then
     Ok (set_point (current_seq k) z (last_checkpoint_lsn k) k, seen)
   else if decide (ascii key = ascii "lsn") then
     Ok (set_point (current_seq k) (last_checkpoint_ts k) z k, seen)
   else Ok (k, seen)).
Proof.
  intros Hk Hw Hz. unfold load_line. rewrite split_once_key by done. cbv zeta.
  rewrite !trim_word by auto using show_word_white. by rewrite parse_show_u64.
Qed.

Ltac closed_key := apply (bool_decide_unpack _); vm_compute; exact I.

Ltac key_branch :=
  repeat rewrite decide_False by (vm_compute; congruence);
  rewrite decide_True by reflexivity; reflexivity.

Lemma format_version_shown : CHECKPOINT_FORMAT_VERSION = show_u64 1.
Proof. reflexivity. Qed.

Lemma meta_lines seq ts lsn :
  is_u64 seq -> is_u64 ts -> is_u64 lsn ->
  lines [] (meta_text seq ts lsn) =
  [ascii "format_version" ++ 61 :: show_u64 1; ascii "seq" ++ 61 :: show_u64 seq;
   ascii "timestamp" ++ 61 :: show_u64 ts; ascii "lsn" ++ 61 :: show_u64 lsn].
Proof.
  intros Hs Ht Hl. unfold meta_text. rewrite format_version_shown.
  rewrite <- (app_nil_r (meta_line "lsn" _)).
  rewrite !lines_meta by ((by apply word_plain) || closed_key). done.
Qed.

Lemma load_version k seen :
  load_line k seen (ascii "format_version" ++ 61 :: show_u64 1) = Ok (k, true).
Proof. reflexivity. Qed.

Lemma load_seq z k seen :
  is_u64 z -> load_line k seen (ascii "seq" ++ 61 :: show_u64 z) =
  Ok (set_point z (last_checkpoint_ts k) (last_checkpoint_lsn k) k, seen).
Proof. intros Hz. rewrite load_line_value; [key_branch | closed_key | closed_key | exact Hz]. Qed.

Lemma load_timestamp z k seen :
  is_u64 z -> load_line k seen (ascii "timestamp" ++ 61 :: show_u64 z) =
  Ok (set_point (current_seq k) z (last_checkpoint_lsn k) k, seen).
Proof. intros Hz. rewrite load_line_value; [key_branch | closed_key | closed_key | exact Hz]. Qed.

Lemma load_lsn z k seen :
  is_u64 z -> load_line k seen (ascii "lsn" ++ 61 :: show_u64 z) =
  Ok (set_point (current_seq k) (last_checkpoint_ts k) z k, seen).
Proof. intros Hz. rewrite load_line_value; [key_branch | closed_key | closed_key | exact Hz]. Qed.

(** A manager that loads the file another one wrote has its point. *)
Lemma load_point seq ts lsn k :
  is_u64 seq -> is_u64 ts -> is_u64 lsn -> cm_meta k = Some (meta_text seq ts lsn) ->
  load_checkpoint_meta k = (set_point seq ts lsn k, Ok tt).
Proof.
  intros Hs Ht Hl Hm. unfold load_checkpoint_meta. rewrite Hm, meta_lines by done.
  cbn [load_lines]. rewrite load_version, load_seq by exact Hs.
  rewrite load_timestamp by exact Ht. rewrite load_lsn by exact Hl.
  unfold st_ret. cbn iota beta. by rewrite andb_false_r.
Qed.

(** ** Publication *)

(** What [init] finds in the directory of [k]. *)
Definition reopened (k : CheckpointManager) : CheckpointManager * result unit WalError :=
  init true (new None (cm_dir k) (cm_meta k)).

(** The manager and its file agree. *)
Definition synced (k : CheckpointManager) : Prop :=
  cm_meta k = Some (meta_text (current_seq k) (last_checkpoint_ts k) (last_checkpoint_lsn k)) \/
  (cm_meta k = None /\ current_seq k = 0 /\ last_checkpoint_ts k = 0 /\ last_checkpoint_lsn k = 0).

Definition u64_point (k : CheckpointManager) : Prop :=
  is_u64 (current_seq k) /\ is_u64 (last_checkpoint_ts k) /\ is_u64 (last_checkpoint_lsn k).

Lemma reopened_synced k :
  u64_point k -> synced k ->
  reopened k = (set_point (current_seq k) (last_checkpoint_ts k) (last_checkpoint_lsn k)
                  (new None (cm_dir k) (cm_meta k)), Ok tt).
Proof.
  intros (Hs & Ht & Hl) [Hm | (Hm & -> & -> & ->)]; unfold reopened, init.
  - by apply load_point.
  - rewrite Hm. reflexivity.
Qed.

Lemma publish_meta_cases io c k :
  ck_seq c = current_seq k + 1 -> ck_seq c <= U64_MAX -> 0 <= current_seq k ->
  publish_checkpoint io c k =
  let text := Some (meta_text (ck_seq c) (ck_timestamp c) (ck_lsn c)) in
  if mio_write io && mio_sync io && mio_rename io then
    if mio_dir io
    then (set_meta text (set_point (ck_seq c) (ck_timestamp c) (ck_lsn c) k), Ok tt)
    else (set_meta text k, Err IoError)
  else (k, Err IoError).
Proof.
  intros Hc Hm Hp. unfold publish_checkpoint, checked_next, checked_add_u64, save_checkpoint_meta.
  rewrite decide_True by lia. rewrite decide_False by lia.
  destruct k, io as [[] [] [] []]; reflexivity.
Qed.

(** Where recovery starts: at the checkpoint, unless a transaction was active. *)
Definition ck_redo (c : Checkpoint) (k : CheckpointManager) (lsn : Lsn) : Prop :=
  redo_lsn c = if decide (cm_active k = []) then lsn else 0.

(** A call of [create_checkpoint] by what its file operations did. *)
Lemma create_cases io ts lsn k :
  0 <= current_seq k ->
  match create_checkpoint io ts lsn k with
  | (k1, Ok c) =>
      ck_seq c = current_seq k + 1 /\ current_seq k + 1 <= U64_MAX /\
      ck_redo c k lsn /\
      k1 = set_meta (Some (meta_text (current_seq k + 1) ts lsn)) (set_point (current_seq k + 1) ts lsn k)
  | (k1, Err e) =>
      k1 = k \/
      (mio_dir io = false /\ current_seq k + 1 <= U64_MAX /\
       k1 = set_meta (Some (meta_text (current_seq k + 1) ts lsn)) k)
  end.
Proof.
  intros Hp. unfold create_checkpoint, prepare_checkpoint, checked_next, checked_add_u64.
  destruct (decide (current_seq k + 1 <= U64_MAX)) as [Hle|]; [|by left].
  rewrite publish_meta_cases by (cbn; lia). cbv zeta. cbn [ck_seq ck_timestamp ck_lsn].
  destruct (mio_write io && mio_sync io && mio_rename io); [|by left].
  destruct (mio_dir io); cbn iota; [|by right].
  done.
Qed.

(** The sequence a restarted manager takes up. *)
Definition file_seq (k : CheckpointManager) : Z := current_seq (reopened k).1.

(** The file is the manager's point, or one checkpoint ahead of it: the one whose
    last step, the directory sync, failed. *)
Definition bounded (k : CheckpointManager) : Prop :=
  u64_point k /\
  ((cm_meta k = None /\ current_seq k = 0 /\ last_checkpoint_ts k = 0 /\ last_checkpoint_lsn k = 0) \/
   exists s t l, is_u64 s /\ is_u64 t /\ is_u64 l /\ cm_meta k = Some (meta_text s t l) /\
     current_seq k <= s <= current_seq k + 1).

Lemma reopened_text s t l k :
  is_u64 s -> is_u64 t -> is_u64 l -> cm_meta k = Some (meta_text s t l) ->
  reopened k = (set_point s t l (new None (cm_dir k) (cm_meta k)), Ok tt).
Proof. intros. unfold reopened, init. by apply load_point. Qed.

Lemma reopened_bounded k :
  bounded k -> (reopened k).2 = Ok tt /\ current_seq k <= file_seq k <= current_seq k + 1.
Proof.
  intros [_ [(Hm & Hs & _) | (s & t & l & Hs & Ht & Hl & Hm & Hb)]]; unfold file_seq.
  - unfold reopened, init, load_checkpoint_meta. rewrite Hm. cbn. split; [done|lia].
  - rewrite (reopened_text s t l) by done. done.
Qed.

Lemma bounded_text s t l k :
  u64_point k -> is_u64 s -> is_u64 t -> is_u64 l -> cm_meta k = Some (meta_text s t l) ->
  current_seq k <= s <= current_seq k + 1 -> bounded k /\ file_seq k = s.
Proof.
  intros Hu Hs Ht Hl Hm Hb. split; [|unfold file_seq; by rewrite (reopened_text s t l)].
  split; [done|]. right. by exists s, t, l.
Qed.

Lemma bounded_create io ts lsn k :
  bounded k -> is_u64 ts -> is_u64 lsn ->
  let k1 := (create_checkpoint io ts lsn k).1 in
  bounded k1 /\ file_seq k <= file_seq k1 /\ current_seq k <= current_seq k1.
Proof.
  intros Hk Ht Hl. destruct (reopened_bounded k Hk) as [_ Hf].
  assert (Hu := proj1 Hk). pose proof (create_cases io ts lsn k (proj1 (proj1 Hu))) as Hc.
  assert (Hs : current_seq k + 1 <= U64_MAX -> is_u64 (current_seq k + 1))
    by (split; [destruct Hu as ([? _] & _)|]; lia).
  destruct (create_checkpoint io ts lsn k) as [k1 [c|e]]; cbv zeta; cbn [fst].
  - destruct Hc as (_ & Hle & _ & ->). destruct (Hs Hle).
    match goal with |- bounded ?k1 /\ _ =>
      destruct (bounded_text (current_seq k + 1) ts lsn k1) as [? ->] end;
      cbn [current_seq set_meta set_point]; try (done || lia || by apply Hs).
    split; [done|lia].
  - destruct Hc as [-> | (_ & Hle & ->)]; [split; [done|lia]|].
    match goal with |- bounded ?k1 /\ _ =>
      destruct (bounded_text (current_seq k + 1) ts lsn k1) as [? ->] end;
      cbn [current_seq set_meta set_point]; try (done || lia || by apply Hs).
    split; [done|lia].
Qed.

Definition create_all (calls : list (MetaIo * Timestamp * Lsn)) (k : CheckpointManager)
  : CheckpointManager :=
  foldl (fun k c => (create_checkpoint c.1.1 c.1.2 c.2 k).1) k calls.

Lemma bounded_create_all calls k :
  bounded k -> Forall (fun c => is_u64 c.1.2 /\ is_u64 c.2) calls ->
  bounded (create_all calls k) /\ file_seq k <= file_seq (create_all calls k).
Proof.
  intros Hk Hc. revert k Hk. induction Hc as [|c calls [Ht Hl] _ IH]; intros k Hk.
  { split; [done|]. apply Z.le_refl. }
  destruct (bounded_create c.1.1 c.1.2 c.2 k Hk Ht Hl) as (Hk1 & Hf & _).
  destruct (IH _ Hk1) as [? ?]. split; [done|]. by etrans.
Qed.

(** The recovery boundary of a checkpoint manager never moves back: whatever
    file operations of any sequence of [create_checkpoint] calls fail, a manager
    that is started over the directory reads the metadata without an error, its
    sequence is at least the one a restart would have read before the calls, and
    it is the running manager's or one more (a checkpoint whose rename took
    effect and whose directory sync failed). *)
Theorem boundary_monotone calls k :
  bounded k -> Forall (fun c => is_u64 c.1.2 /\ is_u64 c.2) calls ->
  let k1 := create_all calls k in
  (reopened k1).2 = Ok tt /\ file_seq k <= file_seq k1 /\
  current_seq k1 <= file_seq k1 <= current_seq k1 + 1.
Proof.
  intros Hk Hc. destruct (bounded_create_all calls k Hk Hc) as [Hb Hf].
  destruct (reopened_bounded _ Hb). done.
Qed.

(** A checkpoint that is reported is the one recovery finds: when
    [create_checkpoint] returns [Ok], a manager started over the directory has
    the next sequence and the timestamp and LSN of the call, whatever the metadata
    file held before; a refused one leaves the manager as it was but for the file,
    which differs only when the directory sync alone failed. *)
Theorem checkpoint_roundtrip io ts lsn k :
  u64_point k -> is_u64 ts -> is_u64 lsn ->
  match create_checkpoint io ts lsn k with
  | (k1, Ok c) =>
      ck_seq c = current_seq k + 1 /\
      get_latest_checkpoint (reopened k1).1 =
        Some (mkCheckpoint (current_seq k + 1) ts lsn [] [] lsn) /\
      get_latest_checkpoint k1 =
        Some (mkCheckpoint (current_seq k + 1) ts lsn [] (cm_active k) (redo_lsn c))
  | (k1, Err _) =>
      k1 = set_meta (cm_meta k1) k /\ (mio_dir io = true -> cm_meta k1 = cm_meta k)
  end.
Proof.
  intros Hu Ht Hl. pose proof (create_cases io ts lsn k (proj1 (proj1 Hu))) as Hc.
  destruct (create_checkpoint io ts lsn k) as [k1 [c|e]].
  - destruct Hc as (Hs & Hle & Hr & ->). destruct Hu as ([Hz _] & _).
    rewrite (reopened_text (current_seq k + 1) ts lsn) by (done || split; lia).
    unfold get_latest_checkpoint. cbn -[meta_text].
    rewrite !decide_False by lia. split_and!; [done..|]. by rewrite Hr.
  - destruct Hc as [-> | (Hd & _ & ->)]; [by destruct k|].
    split; [done|]. rewrite Hd. done.
Qed.

End CkptFacts.

Module CkptExample.
Import Ckpt CkptFacts.

Definition segment_header : list Z :=
  FileHeader.as_bytes (FileHeader.new 1 2 0 0 0 0).

Definition ex_manager : CheckpointManager :=
  set_modified [mkTableId TVertex 1; mkTableId TEdge 2]
    (new None [("thread_0_wal_00000000"%string, segment_header)] None).

(** The directory sync of the second call fails, the third cannot write. *)
Definition ex_calls : list (MetaIo * Timestamp * Lsn) :=
  [(meta_ok, 10, 100); (mkMetaIo true true true false, 20, 200); (mkMetaIo false true true true, 30, 300)].

Lemma ex_bounded : bounded ex_manager.
Proof. split; [repeat split; vm_compute; congruence|]. left. done. Qed.

Lemma boundary_monotone_witness :
  current_seq (create_all ex_calls ex_manager) = 1 /\ file_seq (create_all ex_calls ex_manager) = 2 /\
  (reopened (create_all ex_calls ex_manager)).2 = Ok tt.
Proof.
  split; [vm_compute; reflexivity|]. split; [vm_compute; reflexivity|].
  refine (proj1 (boundary_monotone ex_calls ex_manager ex_bounded _)).
  repeat constructor; vm_compute; congruence.
Defined.

Lemma checkpoint_roundtrip_witness :
  (create_checkpoint meta_ok 10 100 ex_manager).2 =
    Ok (mkCheckpoint 1 10 100 ["thread_0_wal_00000000"%string] [] 100) /\
  get_latest_checkpoint (reopened (create_checkpoint meta_ok 10 100 ex_manager).1).1 =
    Some (mkCheckpoint 1 10 100 [] [] 100).
Proof.
  split; [vm_compute; reflexivity|].
  pose proof (checkpoint_roundtrip meta_ok 10 100 ex_manager (proj1 ex_bounded)) as H.
  destruct (create_checkpoint meta_ok 10 100 ex_manager) as [k1 [c|e]] eqn:E.
  - refine (proj1 (proj2 (H _ _))); split; vm_compute; congruence.
  - exfalso. vm_compute in E. congruence.
Defined.

(** A forced checkpoint reports that it wrote no pages, whatever was modified:
    the tables are cleared before they are counted. *)
Theorem force_reports_no_pages io ts lsn k :
  match checkpoint io ts lsn ModeForce k with
  | (_, Ok r) => pages_written r = 0
  | (_, Err _) => True
  end.
Proof. unfold checkpoint. by destruct (create_checkpoint io ts lsn k) as [k1 [c|e]]. Qed.

(** The files a checkpoint declares superfluous include the segment that is being
    written: its header has the sequence of the checkpoint before. *)
Theorem live_segment_listed :
  match prepare_checkpoint 10 100 ex_manager with
  | Ok c => (cleanup_before_checkpoint (fun _ => true) c ex_manager).2 = Ok 1 /\
            cm_dir (cleanup_before_checkpoint (fun _ => true) c ex_manager).1 = []
  | Err _ => False
  end.
Proof. vm_compute. done. Qed.

(** A sequence adopted from the directory stays in memory when it cannot be
    saved, and the next adoption of it is skipped. *)
Theorem adopted_unsaved :
  let k := (adopt_published_sequence (mkMetaIo false true true true) 7 ex_manager).1 in
  current_seq k = 7 /\ file_seq k = 0 /\ adopt_published_sequence meta_ok 7 k = (k, Ok tt).
Proof. vm_compute. done. Qed.

End CkptExample.
