(* ===== verification/Manager.v ===== *)
(** * Transaction manager: state, begin, abort and cleanup

    [linkrs-transaction/src/manager.rs], [manager/begin.rs], [abort.rs],
    [event_registry.rs], [statement_scope.rs], [snapshot_lease.rs],
    [leases_checkpoint.rs] and [cleaner.rs].

    Each method is one step.  A context is shared ([Arc]) between the table of
    active transactions and the calls that work on it; a call keeps its context
    next to the manager and writes it back where it lives, in the table or,
    after its removal, among the retired contexts.  Storage (the commit sink)
    and the index synchronizer are classes.  The metrics mirror of the
    statistics is left out. *)

From stdpp Require Import base gmap sets list strings.
From Stdlib Require Import ZArith Lia SpecFloat.
From S2P Require Import Prelude Types SnapshotTracker VersionManager Watermarks WriteSet Stats.
From S2P Require Import WalTypes Certifier UndoLog Journal Context Events CheckpointGate.
From S2P Require Import PendingRecovery.

(** [TransactionManagerConfig]; durations in milliseconds. *)
Record TransactionManagerConfig := mkMgrConfig {
  default_timeout : Z;
  max_concurrent_transactions : Z;
  auto_cleanup : bool;
  commit_retry_attempts : nat;
  abort_retry_attempts : nat;
  txn_config : TransactionConfig;
  in_memory : bool;
  group_commit_enabled : bool;
  group_commit_timeout : Z;
  auto_checkpoint_after_commit : bool;
  auto_checkpoint_commit_threshold : Z;
  default_lease_ttl : Z;
  long_read_max_live_leases : Z;
  long_read_max_pin_secs : Z;
}.

Definition default_manager_config : TransactionManagerConfig :=
  mkMgrConfig 30000 1000 true 3 3 default_config false true 30000 true 1 300000 64 300.

(** [TransactionOptions]. *)
Record TransactionOptions := mkOptions {
  opt_timeout : option Z;
  opt_read_only : bool;
  opt_long_read : bool;
  opt_durability : DurabilityLevel;
  opt_isolation_level : IsolationLevel;
  opt_query_timeout : option Z;
  opt_statement_timeout : option Z;
  opt_idle_timeout : option Z;
}.

Definition default_options : TransactionOptions :=
  mkOptions None false false DSync RepeatableRead None None None.

Record VetoDecision := mkVeto { veto : bool; reason : option string }.

(** [SyncManager], as the manager uses it. *)
Class SyncPort (Y : Type) := {
  sync_rollback : TransactionId -> Y -> Y * result unit string;
  sync_rollback_to_sequence : TransactionId -> Z -> Y -> Y * result unit string;
  sync_intent_sequence : TransactionId -> Y -> Z;
  sync_retry_outbox : Y -> Y * result Z string;
}.

(** What observers reach: the statistics, and the notifications delivered. *)
Definition World : Type := TransactionStats * list (Z * TransactionEvent).

(** What a call reads from outside: the clock, the outcome of the undo-log file
    operations (of a first and of a repeated attempt) and of a sidecar write. *)
Record CallEnv := mkCall {
  call_now : Z;
  call_io : IoEnv;
  call_io_retry : IoEnv;
  call_persist : bool;
}.

(** ** State *)

Record TransactionManager (Value S Y : Type) := mkMgr {
  m_vm : VersionManager;
  m_config : TransactionManagerConfig;
  m_active : gmap Z (TransactionContext Value);
  m_retired : gmap Z (TransactionContext Value);
  m_id_generator : Z;
  m_stats : TransactionStats;
  m_callbacks : EventSubscriptions TransactionEvent World;
  m_trace : list (Z * TransactionEvent);
  m_vetoes : list (Z * (TransactionId -> Timestamp -> option VetoDecision));
  m_next_veto_id : Z;
  m_shutdown : bool;
  m_sync : option Y;
  m_sink : option S;
  m_gate : CheckpointGate;
  m_cert : Certifier;
  m_owner : Z;
  m_recovery : RecoveryManager;
  m_commits : Z;
  m_leases : gmap Z LongReadLease;
}.
Arguments mkMgr {Value S Y}.
Arguments m_vm {Value S Y}.
Arguments m_config {Value S Y}.
Arguments m_active {Value S Y}.
Arguments m_retired {Value S Y}.
Arguments m_id_generator {Value S Y}.
Arguments m_stats {Value S Y}.
Arguments m_callbacks {Value S Y}.
Arguments m_trace {Value S Y}.
Arguments m_vetoes {Value S Y}.
Arguments m_next_veto_id {Value S Y}.
Arguments m_shutdown {Value S Y}.
Arguments m_sync {Value S Y}.
Arguments m_sink {Value S Y}.
Arguments m_gate {Value S Y}.
Arguments m_cert {Value S Y}.
Arguments m_owner {Value S Y}.
Arguments m_recovery {Value S Y}.
Arguments m_commits {Value S Y}.
Arguments m_leases {Value S Y}.

(** [for attempt in 0..=n]: stop at the first success, keep the last error. *)
Fixpoint retry {St E A : Type} (n : nat) (op : ST St E A) : ST St E A :=
  fun s =>
    match op s with
    | (s1, Ok a) => (s1, Ok a)
    | (s1, Err e) => match n with O => (s1, Err e) | S n' => retry n' op s1 end
    end.

Module Mgr.
Section manager.
Context {Value S Y : Type} `{CommitSink Value S} `{SyncPort Y}.
Abbreviation mgr := (TransactionManager Value S Y).
Abbreviation context := (TransactionContext Value).
Implicit Types m : mgr.
Implicit Types c : context.

(** *** Field updates *)

Definition set_vm (x : VersionManager) (m : mgr) : mgr :=
  mkMgr x (m_config m) (m_active m) (m_retired m) (m_id_generator m) (m_stats m) (m_callbacks
    m) (m_trace m) (m_vetoes m) (m_next_veto_id m) (m_shutdown m) (m_sync m) (m_sink m) (m_gate
    m) (m_cert m) (m_owner m) (m_recovery m) (m_commits m) (m_leases m).

Definition set_config (x : TransactionManagerConfig) (m : mgr) : mgr :=
  mkMgr (m_vm m) x (m_active m) (m_retired m) (m_id_generator m) (m_stats m) (m_callbacks m)
    (m_trace m) (m_vetoes m) (m_next_veto_id m) (m_shutdown m) (m_sync m) (m_sink m) (m_gate m)
    (m_cert m) (m_owner m) (m_recovery m) (m_commits m) (m_leases m).

Definition set_active (x : gmap Z (TransactionContext Value)) (m : mgr) : mgr :=
  mkMgr (m_vm m) (m_config m) x (m_retired m) (m_id_generator m) (m_stats m) (m_callbacks m)
    (m_trace m) (m_vetoes m) (m_next_veto_id m) (m_shutdown m) (m_sync m) (m_sink m) (m_gate m)
    (m_cert m) (m_owner m) (m_recovery m) (m_commits m) (m_leases m).

Definition set_retired (x : gmap Z (TransactionContext Value)) (m : mgr) : mgr :=
  mkMgr (m_vm m) (m_config m) (m_active m) x (m_id_generator m) (m_stats m) (m_callbacks m)
    (m_trace m) (m_vetoes m) (m_next_veto_id m) (m_shutdown m) (m_sync m) (m_sink m) (m_gate m)
    (m_cert m) (m_owner m) (m_recovery m) (m_commits m) (m_leases m).

Definition set_id_generator (x : Z) (m : mgr) : mgr :=
  mkMgr (m_vm m) (m_config m) (m_active m) (m_retired m) x (m_stats m) (m_callbacks m)
    (m_trace m) (m_vetoes m) (m_next_veto_id m) (m_shutdown m) (m_sync m) (m_sink m) (m_gate m)
    (m_cert m) (m_owner m) (m_recovery m) (m_commits m) (m_leases m).

Definition set_stats (x : TransactionStats) (m : mgr) : mgr :=
  mkMgr (m_vm m) (m_config m) (m_active m) (m_retired m) (m_id_generator m) x (m_callbacks m)
    (m_trace m) (m_vetoes m) (m_next_veto_id m) (m_shutdown m) (m_sync m) (m_sink m) (m_gate m)
    (m_cert m) (m_owner m) (m_recovery m) (m_commits m) (m_leases m).

Definition set_callbacks (x : EventSubscriptions TransactionEvent World) (m : mgr) : mgr :=
  mkMgr (m_vm m) (m_config m) (m_active m) (m_retired m) (m_id_generator m) (m_stats m) x
    (m_trace m) (m_vetoes m) (m_next_veto_id m) (m_shutdown m) (m_sync m) (m_sink m) (m_gate m)
    (m_cert m) (m_owner m) (m_recovery m) (m_commits m) (m_leases m).

Definition set_trace (x : list (Z * TransactionEvent)) (m : mgr) : mgr :=
  mkMgr (m_vm m) (m_config m) (m_active m) (m_retired m) (m_id_generator m) (m_stats m)
    (m_callbacks m) x (m_vetoes m) (m_next_veto_id m) (m_shutdown m) (m_sync m) (m_sink m)
    (m_gate m) (m_cert m) (m_owner m) (m_recovery m) (m_commits m) (m_leases m).

Definition set_vetoes (x : list (Z * (TransactionId -> Timestamp -> option VetoDecision))) (m :
    mgr) : mgr :=
  mkMgr (m_vm m) (m_config m) (m_active m) (m_retired m) (m_id_generator m) (m_stats m)
    (m_callbacks m) (m_trace m) x (m_next_veto_id m) (m_shutdown m) (m_sync m) (m_sink m)
    (m_gate m) (m_cert m) (m_owner m) (m_recovery m) (m_commits m) (m_leases m).

Definition set_next_veto_id (x : Z) (m : mgr) : mgr :=
  mkMgr (m_vm m) (m_config m) (m_active m) (m_retired m) (m_id_generator m) (m_stats m)
    (m_callbacks m) (m_trace m) (m_vetoes m) x (m_shutdown m) (m_sync m) (m_sink m) (m_gate m)
    (m_cert m) (m_owner m) (m_recovery m) (m_commits m) (m_leases m).

Definition set_shutdown (x : bool) (m : mgr) : mgr :=
  mkMgr (m_vm m) (m_config m) (m_active m) (m_retired m) (m_id_generator m) (m_stats m)
    (m_callbacks m) (m_trace m) (m_vetoes m) (m_next_veto_id m) x (m_sync m) (m_sink m) (m_gate
    m) (m_cert m) (m_owner m) (m_recovery m) (m_commits m) (m_leases m).

Definition set_sync (x : option Y) (m : mgr) : mgr :=
  mkMgr (m_vm m) (m_config m) (m_active m) (m_retired m) (m_id_generator m) (m_stats m)
    (m_callbacks m) (m_trace m) (m_vetoes m) (m_next_veto_id m) (m_shutdown m) x (m_sink m)
    (m_gate m) (m_cert m) (m_owner m) (m_recovery m) (m_commits m) (m_leases m).

Definition set_sink (x : option S) (m : mgr) : mgr :=
  mkMgr (m_vm m) (m_config m) (m_active m) (m_retired m) (m_id_generator m) (m_stats m)
    (m_callbacks m) (m_trace m) (m_vetoes m) (m_next_veto_id m) (m_shutdown m) (m_sync m) x
    (m_gate m) (m_cert m) (m_owner m) (m_recovery m) (m_commits m) (m_leases m).

Definition set_gate (x : CheckpointGate) (m : mgr) : mgr :=
  mkMgr (m_vm m) (m_config m) (m_active m) (m_retired m) (m_id_generator m) (m_stats m)
    (m_callbacks m) (m_trace m) (m_vetoes m) (m_next_veto_id m) (m_shutdown m) (m_sync m)
    (m_sink m) x (m_cert m) (m_owner m) (m_recovery m) (m_commits m) (m_leases m).

Definition set_cert (x : Certifier) (m : mgr) : mgr :=
  mkMgr (m_vm m) (m_config m) (m_active m) (m_retired m) (m_id_generator m) (m_stats m)
    (m_callbacks m) (m_trace m) (m_vetoes m) (m_next_veto_id m) (m_shutdown m) (m_sync m)
    (m_sink m) (m_gate m) x (m_owner m) (m_recovery m) (m_commits m) (m_leases m).

Definition set_owner (x : Z) (m : mgr) : mgr :=
  mkMgr (m_vm m) (m_config m) (m_active m) (m_retired m) (m_id_generator m) (m_stats m)
    (m_callbacks m) (m_trace m) (m_vetoes m) (m_next_veto_id m) (m_shutdown m) (m_sync m)
    (m_sink m) (m_gate m) (m_cert m) x (m_recovery m) (m_commits m) (m_leases m).

Definition set_recovery (x : RecoveryManager) (m : mgr) : mgr :=
  mkMgr (m_vm m) (m_config m) (m_active m) (m_retired m) (m_id_generator m) (m_stats m)
    (m_callbacks m) (m_trace m) (m_vetoes m) (m_next_veto_id m) (m_shutdown m) (m_sync m)
    (m_sink m) (m_gate m) (m_cert m) (m_owner m) x (m_commits m) (m_leases m).

Definition set_commits (x : Z) (m : mgr) : mgr :=
  mkMgr (m_vm m) (m_config m) (m_active m) (m_retired m) (m_id_generator m) (m_stats m)
    (m_callbacks m) (m_trace m) (m_vetoes m) (m_next_veto_id m) (m_shutdown m) (m_sync m)
    (m_sink m) (m_gate m) (m_cert m) (m_owner m) (m_recovery m) x (m_leases m).

Definition set_leases (x : gmap Z LongReadLease) (m : mgr) : mgr :=
  mkMgr (m_vm m) (m_config m) (m_active m) (m_retired m) (m_id_generator m) (m_stats m)
    (m_callbacks m) (m_trace m) (m_vetoes m) (m_next_veto_id m) (m_shutdown m) (m_sync m)
    (m_sink m) (m_gate m) (m_cert m) (m_owner m) (m_recovery m) (m_commits m) x.

(** ** Observers *)

Definition is_commit_event (ev : TransactionEvent) : bool :=
  match ev with EvCommitted _ _ _ _ _ _ | EvDurableUnfinalized _ _ _ => true | _ => false end.

Definition is_rollback_event (ev : TransactionEvent) : bool :=
  match ev with EvAborted _ _ => true | _ => false end.

Definition is_budget_warning_event (ev : TransactionEvent) : bool :=
  match ev with EvBudgetWarning _ _ _ _ => true | _ => false end.

(** The two observers that the constructor registers. *)
Definition commit_stats_callback (i : Z) (ev : TransactionEvent) (w : World) : World * bool :=
  match ev with
  | EvCommitted _ _ _ _ _ _ => ((Stats.record_txn_commit w.1, w.2), false)
  | EvDurableUnfinalized _ _ _ =>
      ((Stats.increment_cleanup_failure (Stats.record_txn_commit w.1), w.2), false)
  | _ => (w, false)
  end.

Definition rollback_stats_callback (i : Z) (ev : TransactionEvent) (w : World) : World * bool :=
  match ev with
  | EvAborted _ _ => ((Stats.record_txn_rollback w.1, w.2), false)
  | _ => (w, false)
  end.

(** An observer of a client: it receives the event and may panic. *)
Definition client_callback (panics : TransactionEvent -> bool) (i : Z) (ev : TransactionEvent)
    (w : World) : World * bool := ((w.1, w.2 ++ [(i, ev)]), panics ev).

Definition register (panics : TransactionEvent -> bool)
    (f : option (TransactionEvent -> option bool)) m : mgr * Z :=
  let '(s, i) := Events.add_filtered (client_callback panics) f (m_callbacks m) in
  (set_callbacks s m, i).

Definition register_txn_callback (panics : TransactionEvent -> bool) m : mgr * Z :=
  register panics None m.

Definition register_txn_callback_filtered (panics : TransactionEvent -> bool)
    (f : TransactionEvent -> option bool) m : mgr * Z := register panics (Some f) m.

(** [Self::is_x(event) && filter(event)]. *)
Definition both (p : TransactionEvent -> bool) (f : TransactionEvent -> option bool)
    (ev : TransactionEvent) : option bool := if p ev then f ev else Some false.

Definition register_commit_callback (panics : TransactionEvent -> bool) m : mgr * Z :=
  register panics (Some (fun ev => Some (is_commit_event ev))) m.

Definition register_commit_callback_filtered (panics : TransactionEvent -> bool)
    (f : TransactionEvent -> option bool) m : mgr * Z :=
  register panics (Some (both is_commit_event f)) m.

Definition register_rollback_callback (panics : TransactionEvent -> bool) m : mgr * Z :=
  register panics (Some (fun ev => Some (is_rollback_event ev))) m.

Definition register_rollback_callback_filtered (panics : TransactionEvent -> bool)
    (f : TransactionEvent -> option bool) m : mgr * Z :=
  register panics (Some (both is_rollback_event f)) m.

Definition register_budget_warning_callback (panics : TransactionEvent -> bool) m : mgr * Z :=
  register panics (Some (fun ev => Some (is_budget_warning_event ev))) m.

Definition register_budget_warning_callback_filtered (panics : TransactionEvent -> bool)
    (f : TransactionEvent -> option bool) m : mgr * Z :=
  register panics (Some (both is_budget_warning_event f)) m.

Definition unregister_txn_callback (i : Z) m : mgr * bool :=
  let '(s, b) := Events.remove i (m_callbacks m) in (set_callbacks s m, b).

Definition txn_callback_count m : Z := Events.len (m_callbacks m).

(** [emit_commit_event], [emit_rollback_event] and [emit_budget_warning_event]
    differ in the owner name of the log line. *)
Definition emit (ev : TransactionEvent) m : mgr :=
  if Events.is_empty (m_callbacks m) then m
  else
    let '((st, tr), o) := Events.dispatch_detailed ev (m_callbacks m) (m_stats m, m_trace m) in
    let st1 := Stats.record_hook_dispatch (delivered o) (panics o) st in
    let st2 := Nat.iter (Z.to_nat (panics o)) Stats.increment_cleanup_failure st1 in
    set_stats st2 (set_trace tr m).

(** *** Vetoes *)

Definition register_commit_veto (cb : TransactionId -> Timestamp -> option VetoDecision) m
  : mgr * Z :=
  let i := m_next_veto_id m in
  (set_vetoes (m_vetoes m ++ [(i, cb)]) (set_next_veto_id (wrap_u64 (i + 1)) m), i).

Definition unregister_commit_veto (i : Z) m : mgr * bool :=
  let kept := base.filter (fun e => e.1 <> i) (m_vetoes m) in
  (set_vetoes kept m, bool_decide (length kept <> length (m_vetoes m))).

Definition commit_veto_count m : Z := Z.of_nat (length (m_vetoes m)).

(** The first veto wins; a hook that panics allows. *)
Fixpoint eval_vetoes (i : TransactionId) (ts : Timestamp)
    (l : list (Z * (TransactionId -> Timestamp -> option VetoDecision))) : option string :=
  match l with
  | [] => None
  | (_, cb) :: rest =>
      match cb i ts with
      | Some d => if veto d then Some (default "commit vetoed"%string (reason d))
                  else eval_vetoes i ts rest
      | None => eval_vetoes i ts rest
      end
  end.

Definition eval_commit_vetoes c m : option string :=
  eval_vetoes (id (x_const c)) (start_timestamp (x_const c)) (m_vetoes m).

(** ** Construction *)

Definition with_components (cfg : TransactionManagerConfig) (vm : VersionManager) : mgr :=
  let subs := (Events.add_filtered rollback_stats_callback
     (Some (fun ev => Some (is_rollback_event ev)))
     (Events.add_filtered commit_stats_callback (Some (fun ev => Some (is_commit_event ev)))
        Events.new).1).1 in
  mkMgr vm cfg ∅ ∅ 1 Stats.new subs [] [] 1 false None None CkGate.new Cert.new 0 Pending.new
    0 ∅.

Definition new (cfg : TransactionManagerConfig) : mgr := with_components cfg Vm.new.

Definition with_version_config (cfg : TransactionManagerConfig) (vc : VersionManagerConfig)
  : mgr := with_components cfg (Vm.with_config vc).

Definition with_sync_manager (y : Y) m : mgr := set_sync (Some y) m.

Definition with_commit_sink (s : S) m : mgr := set_sink (Some s) m.

(** ** Contexts *)

(** The object behind a handle, in the table or retired. *)
Definition find_ctx (i : TransactionId) m : option context :=
  match m_active m !! i with Some c => Some c | None => m_retired m !! i end.

(** Write a context back where it lives. *)
Definition store c m : mgr :=
  let i := id (x_const c) in
  match m_active m !! i with
  | Some _ => set_active (<[i := c]> (m_active m)) m
  | None => set_retired (<[i := c]> (m_retired m)) m
  end.

(** [active_transactions.remove]. *)
Definition remove_active (i : TransactionId) m : mgr :=
  match m_active m !! i with
  | Some c => set_active (delete i (m_active m)) (set_retired (<[i := c]> (m_retired m)) m)
  | None => m
  end.

Definition get_context (i : TransactionId) m : result context TransactionError :=
  match m_active m !! i with Some c => Ok c | None => Err (TransactionNotFound i) end.

(** A call that works on a context. *)
Abbreviation held := (context * mgr)%type.

Definition on_ctx (f : context -> context) : ST held TransactionError unit :=
  fun h => let c := f h.1 in ((c, store c h.2), Ok tt).

Definition on_ctx_st {A} (f : ST context TransactionError A) : ST held TransactionError A :=
  fun h => let '(c, r) := f h.1 in ((c, store c h.2), r).

Definition on_mgr (f : mgr -> mgr) : ST held TransactionError unit :=
  fun h => ((h.1, f h.2), Ok tt).

Definition bump_cleanup_failure m : mgr := set_stats (Stats.increment_cleanup_failure (m_stats m)) m.

Definition set_transaction_owner (i : TransactionId) (o : string)
  : ST mgr TransactionError unit := fun m =>
  match get_context i m with
  | Err e => (m, Err e)
  | Ok c => (store (Ctx.set_owner o c) m, Ok tt)
  end.

Definition check_transaction_owner (i : TransactionId) (o : option string) m
  : result unit TransactionError :=
  match get_context i m with
  | Err e => Err e
  | Ok c => if Ctx.owner_matches o c then Ok tt else Err (TransactionNotOwner i)
  end.

Definition mark_disconnect (i : TransactionId) : ST mgr TransactionError unit := fun m =>
  match get_context i m with
  | Err e => (m, Err e)
  | Ok c =>
      let m1 := store (Ctx.mark_rollback_only c) m in
      (set_stats (Stats.increment_disconnect (m_stats m1)) m1, Ok tt)
  end.

Definition is_transaction_active (i : TransactionId) m : bool :=
  match m_active m !! i with
  | Some c => can_execute_state (state (x_life c))
  | None => false
  end.

(** ** Leases *)

Definition release_long_read (i : TransactionId) m : mgr * bool :=
  (set_leases (delete i (m_leases m)) m, bool_decide (is_Some (m_leases m !! i))).

(** [release_write_lease]: the gate slot and the write exclusion, once. *)
Definition release_write_lease : ST held TransactionError bool := fun h =>
  let '(c, claimed) := Ctx.mark_resources_released h.1 in
  if negb claimed then (h, Ok false)
  else
    let m := store c h.2 in
    if decide (txn_type (x_const c) <> TWrite) then ((c, m), Ok true)
    else
      let m1 := if pessimistic_lock_held (x_life c) then set_owner 0 m else m in
      let m2 := if in_memory (m_config m1) then m1
                else set_gate (CkGate.release_write (m_gate m1)).1 m1 in
      ((c, m2), Ok true).

(** [release_statement_snapshot_pin]; a missing tracker entry is ignored. *)
Definition release_statement_snapshot_pin : ST held TransactionError unit := fun h =>
  match Ctx.take_statement_snapshot_pin h.1 with
  | (_, None) => (h, Ok tt)
  | (c, Some ts) =>
      let m := store c h.2 in
      let t := (Tracker.release_snapshot ts (snapshot_tracker (m_vm m))).1 in
      ((c, set_vm (Vm.set_tracker t (m_vm m)) m), Ok tt)
  end.

(** [rollback_context_timestamp]. *)
Definition rollback_context_timestamp c (vm : VersionManager) : VersionManager :=
  if negb (uses_mvcc (txn_type (x_const c))) then vm
  else match txn_type (x_const c) with
       | TReadOnly => Vm.release_read_timestamp_at (start_timestamp (x_const c)) vm
       | TWrite => Vm.abort_write_timestamp (start_timestamp (x_const c)) vm
       | _ => vm
       end.

Definition prune_committed_write_sets (ts : Timestamp) m : mgr :=
  set_cert (Cert.prune ts (m_cert m)) m.

(** ** Abort *)

Definition finalize_abort_resources (env : CallEnv) : ST held TransactionError unit :=
  let! h := st_get in
  let i := id (x_const h.1) in
  do! on_mgr (fun m => set_vm (rollback_context_timestamp h.1 (m_vm m)) m) in
  do! release_write_lease in
  do! on_mgr (fun m => set_cert (Cert.unregister_reads i (m_cert m)) m) in
  do! release_statement_snapshot_pin in
  do! on_mgr (fun m => (release_long_read i m).1) in
  do! on_mgr (remove_active i) in
  do! on_ctx (fun c => (Ctx.clear_undo_logs (call_io env) c).1) in
  fun h =>
    match Ctx.transition_to Aborted h.1 with
    | (c, Err _) => ((c, store c h.2), Ok tt)
    | (c, Ok _) =>
        ((c, emit (EvAborted i (start_timestamp (x_const c))) (store c h.2)), Ok tt)
    end.

Definition finalize_resources_after_sink_failure (env : CallEnv)
  : ST held TransactionError unit :=
  do! finalize_abort_resources env in on_mgr bump_cleanup_failure.

(** The sink runs the undo log of the context it is given. *)
Definition sink_abort_ctx : ST (context * S) string unit := fun cs =>
  let k := x_const cs.1 in
  let '(s, u, r) := sink_abort (id k) (start_timestamp k) (undo_logs (x_logs cs.1)) cs.2 in
  ((Ctx.set_undo u cs.1, s), r).

(** Discard the transaction in storage, or in the synchronizer when there is
    no storage. *)
Definition abort_participants : ST held TransactionError unit := fun h =>
  let '(c, m) := h in
  let n := abort_retry_attempts (m_config m) in
  if negb (in_memory (m_config m)) && is_user_transaction (txn_type (x_const c)) then
    match m_sink m with
    | Some s =>
        let '((c1, s1), r) := retry n sink_abort_ctx (c, s) in
        ((c1, set_sink (Some s1) (store c1 m)), map_err (fun _ => RollbackFailed) r)
    | None =>
        match m_sync m with
        | Some y =>
            let '(y1, r) := retry n (sync_rollback (id (x_const c))) y in
            ((c, set_sync (Some y1) m), map_err (fun _ => SyncFailed) r)
        | None => (h, Ok tt)
        end
    end
  else (h, Ok tt).

Definition execute_abort_internal (env : CallEnv) : ST held TransactionError unit := fun h =>
  match abort_participants h with
  | (h1, Err e) => ((finalize_resources_after_sink_failure env h1).1, Err e)
  | (h1, Ok _) =>
      (do! finalize_abort_resources env in
       on_mgr (fun m => prune_committed_write_sets (Vm.get_safe_gc_timestamp (m_vm m)) m)) h1
  end.

(** [abort_common]; the local undo runs only without a sink, on a target [g]. *)
Definition abort_common {G} (env : CallEnv)
    (run : option (context -> G -> context * G * result unit TransactionError))
    (h : held) (g : G) : held * G * result unit TransactionError :=
  if commit_published (x_life h.1) then (h, g, Err CommitFailed)
  else
    match on_ctx_st (Ctx.transition_to Aborting) h with
    | (h1, Err e) => (h1, g, Err e)
    | (h1, Ok _) =>
        match run, m_sink h1.2 with
        | Some f, None =>
            match f h1.1 g with
            | (c2, g2, Err e) => ((execute_abort_internal env (c2, store c2 h1.2)).1, g2, Err e)
            | (c2, g2, Ok _) =>
                let '(h3, r) := execute_abort_internal env (c2, store c2 h1.2) in (h3, g2, r)
            end
        | _, _ => let '(h2, r) := execute_abort_internal env h1 in (h2, g, r)
        end
    end.

Definition abort_without_target (env : CallEnv) : ST held TransactionError unit := fun h =>
  let '(h1, _, r) := abort_common (G := unit) env None h tt in (h1, r).

Definition abort_transaction_internal (env : CallEnv) : ST held TransactionError unit :=
  abort_without_target env.

Definition fetch_abortable_context (i : TransactionId) m : result context TransactionError :=
  match get_context i m with
  | Err e => Err e
  | Ok c =>
      if negb (can_abort (state (x_life c))) then Err (InvalidStateForAbort (state (x_life c)))
      else if commit_published (x_life c) then Err CommitFailed
      else Ok c
  end.

Definition abort_transaction (env : CallEnv) (i : TransactionId)
  : ST mgr TransactionError unit := fun m =>
  match fetch_abortable_context i m with
  | Err e => (m, Err e)
  | Ok c => let '(h, r) := abort_without_target env (c, m) in (h.2, r)
  end.

(** The local undo of [abort_transaction_with_undo]: run the log, then clear
    it. *)
Definition run_local_undo {G} `{UndoTarget Value G}
    (from_bytes : list Z -> option (UndoLogEntry Value)) (env : CallEnv) c (g : G)
  : context * G * result unit TransactionError :=
  match Ctx.execute_undo_logs from_bytes (call_io env) c g with
  | (c1, g1, Some (Ok _)) =>
      let '(c2, r) := Ctx.clear_undo_logs (call_io env) c1 in
      (c2, g1, map_err (fun _ => RollbackFailed) r)
  | (c1, g1, _) => (c1, g1, Err RollbackFailed)
  end.

Definition abort_transaction_with_undo {G} `{UndoTarget Value G}
    (from_bytes : list Z -> option (UndoLogEntry Value)) (env : CallEnv) (i : TransactionId)
    m (g : G) : mgr * G * result unit TransactionError :=
  match fetch_abortable_context i m with
  | Err e => (m, g, Err e)
  | Ok c =>
      let '(h, g1, r) := abort_common env (Some (run_local_undo from_bytes env)) (c, m) g in
      (h.2, g1, r)
  end.

(** ** Cleanup *)

(** The timestamps of live writers, which the reaper spares. *)
Definition owned_timestamps m : gset Z :=
  list_to_set ((fun e => start_timestamp (x_const e.2)) <$>
    base.filter (fun e => read_only (x_const e.2) = false) (map_to_list (m_active m))).

(** Executing transactions past their deadline or idle for too long, in key
    order, with whether the deadline is the reason. *)
Definition expired_transactions (now : Z) m : list (TransactionId * bool) :=
  (fun e => (e.1, Ctx.is_expired now e.2)) <$>
  base.filter (fun e => can_execute_state (state (x_life e.2)) = true /\
                        (Ctx.is_expired now e.2 || Ctx.is_idle_timeout now e.2) = true)
    (sorted_entries (m_active m)).

Fixpoint cleanup_loop (env : CallEnv) (l : list (TransactionId * bool)) m : mgr :=
  match l with
  | [] => m
  | (i, timed_out) :: rest =>
      let m1 := if timed_out then set_stats (Stats.record_timeout (m_stats m)) m else m in
      match abort_transaction env i m1 with
      | (m2, Ok _) => cleanup_loop env rest m2
      | (m2, Err _) => cleanup_loop env rest (bump_cleanup_failure m2)
      end
  end.

Definition cleanup_expired_transactions_with (env : CallEnv) m : mgr :=
  let owned := owned_timestamps m in
  let vm := (Vm.reap_expired_write_timestamps (write_reap_timeout (vm_config (m_vm m))) owned
               (call_now env) (m_vm m)).1 in
  cleanup_loop env (expired_transactions (call_now env) m) (set_vm vm m).

(** [release_dead_write_owner]. *)
Definition release_dead_write_owner m : mgr :=
  if decide (m_owner m = 0) then m
  else
    let alive := match m_active m !! m_owner m with
                 | Some c => pessimistic_lock_held (x_life c) &&
                             can_execute_state (state (x_life c))
                 | None => false
                 end in
    if alive then m else set_owner 0 m.

Definition cleanup_expired_transactions (env : CallEnv) m : mgr :=
  release_dead_write_owner (cleanup_expired_transactions_with env m).

Definition maybe_cleanup_expired_transactions (env : CallEnv) m : mgr :=
  if auto_cleanup (m_config m) then cleanup_expired_transactions env m else m.

(** [shutdown]. *)
Fixpoint shutdown_loop (env : CallEnv) (ids : list TransactionId) m : mgr :=
  match ids with
  | [] => m
  | i :: rest =>
      let committed := match m_active m !! i with
                       | Some c => bool_decide (state (x_life c) = Committed)
                       | None => false
                       end in
      if committed then shutdown_loop env rest m
      else match abort_transaction env i m with
           | (m1, Ok _) => shutdown_loop env rest m1
           | (m1, Err _) => shutdown_loop env rest (bump_cleanup_failure m1)
           end
  end.

Definition shutdown (env : CallEnv) m : mgr :=
  let m1 := set_shutdown true m in
  shutdown_loop env (sorted_entries (m_active m1)).*1 m1.

(** ** Begin *)

(** The configuration of a transaction: the options over the defaults. *)
Definition options_config (o : TransactionOptions) (cfg : TransactionManagerConfig)
  : TransactionConfig :=
  let d := txn_config cfg in
  mkConfig (default (default_timeout cfg) (opt_timeout o)) (opt_durability o)
    (opt_isolation_level o) (opt_query_timeout o) (opt_statement_timeout o)
    (opt_idle_timeout o) (cfg_auto_commit d) (cfg_max_mutation_count d) (cfg_max_undo_bytes d)
    (cfg_budget_warning_threshold d) (cfg_concurrency_mode d)
    (cfg_serializable_full_scan_threshold d).

Definition take_id m : mgr * TransactionId :=
  let i := m_id_generator m in (set_id_generator (wrap_u64 (i + 1)) m, i).

(** Put a new context into the table. *)
Definition enlist c m : mgr :=
  let m1 := set_active (<[id (x_const c) := c]> (m_active m)) m in
  set_stats (Stats.record_txn_begin (m_stats m1)) m1.

Definition too_many m : bool :=
  bool_decide (Z.of_nat (size (m_active m)) >= max_concurrent_transactions (m_config m)).

(** [None] is a reader that waits for [acquire_read_timestamp]. *)
Definition begin_read_transaction (env : CallEnv) (o : TransactionOptions) m
  : mgr * option (result TransactionId TransactionError) :=
  if m_shutdown m then (m, Some (Err InternalError))
  else
    let m1 := maybe_cleanup_expired_transactions env m in
    if too_many m1 then (m1, Some (Err TooManyTransactions))
    else
      let '(m2, i) := take_id m1 in
      match Vm.acquire_read_round (call_now env) (m_vm m2) with
      | None => (m2, None)
      | Some (vm, Err _) => (set_vm vm m2, Some (Err InternalError))
      | Some (vm, Ok ts) =>
          let c := Ctx.new_readonly i ts (call_now env) (options_config o (m_config m2)) in
          (enlist c (set_vm vm m2), Some (Ok i))
      end.

Definition release_gate m : mgr :=
  if in_memory (m_config m) then m else set_gate (CkGate.release_write (m_gate m)).1 m.

(** [compare_exchange(0, id)] on the exclusion owner. *)
Definition claim_exclusion (i : TransactionId) m : mgr * bool :=
  if decide (m_owner m = 0) then (set_owner i m, true) else (m, false).

(** From the timestamp on: build the context, claim the exclusion, enlist. *)
Definition open_insert (env : CallEnv) (o : TransactionOptions) (i : TransactionId)
    (ts : Timestamp) : ST mgr TransactionError TransactionId := fun m =>
  let c := Ctx.new i ts (call_now env) (options_config o (m_config m)) in
  if decide (concurrency_mode (x_const c) = SingleWriter) then
    match claim_exclusion i m with
    | (m1, false) =>
        (release_gate (set_vm (Vm.abort_write_timestamp ts (m_vm m1)) m1),
         Err WriteTransactionConflict)
    | (m1, true) => (enlist (Ctx.set_pessimistic_lock true c) m1, Ok i)
    end
  else (enlist c m, Ok i).

Definition begin_insert_transaction (env : CallEnv) (o : TransactionOptions)
  : ST mgr TransactionError TransactionId := fun m =>
  if m_shutdown m then (m, Err InternalError)
  else
    match (if in_memory (m_config m) then (m_gate m, Ok tt)
           else CkGate.acquire_write (m_gate m)) with
    | (g, Err e) => (set_gate g m, Err e)
    | (g, Ok _) =>
        let m1 := maybe_cleanup_expired_transactions env (set_gate g m) in
        if too_many m1 then (release_gate m1, Err TooManyTransactions)
        else
          let '(m2, i) := take_id m1 in
          match Vm.acquire_insert_timestamp (call_now env) (m_vm m2) with
          | (vm, Err _) => (release_gate (set_vm vm m2), Err InternalError)
          | (vm, Ok ts) => open_insert env o i ts (set_vm vm m2)
          end
    end.

Definition begin_transaction (env : CallEnv) (o : TransactionOptions) m
  : mgr * option (result TransactionId TransactionError) :=
  if opt_read_only o then begin_read_transaction env o m
  else let '(m1, r) := begin_insert_transaction env o m in (m1, Some r).

Definition begin_transaction_with_owner (env : CallEnv) (o : TransactionOptions) (own : string) m
  : mgr * option (result TransactionId TransactionError) :=
  match begin_transaction env o m with
  | (m1, Some (Ok i)) =>
      match set_transaction_owner i own m1 with
      | (m2, Ok _) => (m2, Some (Ok i))
      | (m2, Err e) => (m2, Some (Err e))
      end
  | r => r
  end.

End manager.
End Mgr.
