(* ===== verification/ManagerCommit.v ===== *)
(** * Transaction manager: commit, recovery, statements and checkpoints

    [manager/commit.rs] (the commit protocol, cut where the source's comments
    cut it, and the re-drive of a durable commit that was not finalized),
    [statement_scope.rs], [savepoint.rs], [snapshot_lease.rs], [checkpoint.rs],
    [monitoring.rs], and [CheckpointTransaction] of [src/checkpoint.rs]. *)

From stdpp Require Import base gmap sets list strings.
From Stdlib Require Import ZArith Lia.
From S2P Require Import Prelude Types SnapshotTracker VersionManager Watermarks WriteSet Stats.
From S2P Require Import WalTypes Certifier UndoLog Journal Context Events CheckpointGate.
From S2P Require Import PendingRecovery Manager.

(** [TransactionOutcome]. *)
Inductive TransactionOutcome := OutcomeCommit | OutcomeAbort.

(** [TransactionExecution], without the recorder handle. *)
Record TransactionExecution := mkExecution {
  ex_transaction_id : TransactionId;
  ex_read_timestamp : Timestamp;
  ex_write_timestamp : option Timestamp;
  ex_read_only : bool;
  ex_auto_commit : bool;
  ex_rollback_only : bool;
  ex_isolation_level : IsolationLevel;
  ex_owner : option string;
}.

(** [TransactionResourceMetrics], less the drain time (always zero). *)
Record TransactionResourceMetrics := mkMetrics {
  active_snapshots : Z;
  pending_writes : Z;
  committed_frontier_lag : Z;
  staged_wal_bytes : Z;
  undo_bytes_total : Z;
}.

(** [CheckpointTransaction], without its references to manager and gate. *)
Record CheckpointTransaction := mkCkTxn {
  ck_txn_id : TransactionId;
  ck_write_ts : Timestamp;
  ck_finished : bool;
  ck_released_early : bool;
}.

Module MgrOps.
Import Mgr.
Section ops.
Context {Value S Y : Type} `{CommitSink Value S} `{SyncPort Y}.
Abbreviation mgr := (TransactionManager Value S Y).
Abbreviation context := (TransactionContext Value).
Abbreviation held := (context * mgr)%type.
Implicit Types m : mgr.
Implicit Types c : context.

(** ** Commit *)

(** Abort, count a failed abort, and return the error that caused it. *)
Definition abort_and_fail {A} (env : CallEnv) (e : TransactionError)
  : ST held TransactionError A := fun h =>
  match abort_transaction_internal env h with
  | (h1, Ok _) => (h1, Err e)
  | (h1, Err _) => ((h1.1, bump_cleanup_failure h1.2), Err e)
  end.

(** State, rollback-only mark and timeouts. *)
Definition commit_admission (env : CallEnv) : ST held TransactionError unit := fun h =>
  let l := x_life h.1 in
  if negb (can_commit (state l)) then (h, Err (InvalidStateForCommit (state l)))
  else if rollback_only l then (h, Err (InvalidStateForCommit (state l)))
  else match Ctx.check_timeouts (call_now env) h.1 with
       | Ok _ => (h, Ok tt)
       | Err _ =>
           (do! on_mgr (fun m => set_stats (Stats.record_timeout (m_stats m)) m) in
            abort_and_fail env TransactionTimeout) h
       end.

(** Run the certifier over the table; it marks contexts of the table, so the
    call reloads its own. *)
Definition with_certifier {A} (f : ST (CertEnv context) TransactionError A)
  : ST held TransactionError A := fun h =>
  let '(c, m) := h in
  let '(e, r) := f (mkEnv (m_cert m) (m_active m) (m_stats m)) in
  let m1 := set_cert (ce_cert e) (set_active (ce_active e) (set_stats (ce_stats e) m)) in
  ((default c (ce_active e !! id (x_const c)), m1), r).

Definition check_write_set_conflict (env : CallEnv) : ST held TransactionError unit := fun h =>
  with_certifier (Certify.check_write_set_conflict (call_now env) (id (x_const h.1))) h.

Definition commit_certify (env : CallEnv) : ST held TransactionError unit := fun h =>
  if is_user_transaction (txn_type (x_const h.1)) then
    match check_write_set_conflict env h with
    | (h1, Ok _) => (h1, Ok tt)
    | (h1, Err e) => abort_and_fail env e h1
    end
  else (h, Ok tt).

(** Recovery and dummy transactions, then the vetoes. *)
Definition commit_decide : ST held TransactionError unit := fun h =>
  let '(c, m) := h in
  let t := txn_type (x_const c) in
  if bool_decide (t = TRecovery) || bool_decide (t = TDummy)
  then (h, Err (InvalidStateForCommit (state (x_life c))))
  else match eval_commit_vetoes c m with
       | Some _ => (h, Err CommitVetoed)
       | None => (h, Ok tt)
       end.

(** The durability point: the sink with its retries, or a synthetic LSN. *)
Definition commit_persist (env : CallEnv) (d : TransactionCommitDescriptor)
  : ST held TransactionError CommitLsn := fun h =>
  let '(c, m) := h in
  if is_user_transaction (txn_type (x_const c)) then
    if in_memory (m_config m) then
      (do! on_ctx Ctx.clear_derived_wal in st_ret (start_timestamp (x_const c))) h
    else
      match m_sink m with
      | None => (h, Ok CommitLsn_ZERO)
      | Some s =>
          match retry (commit_retry_attempts (m_config m)) (sink_commit d) s with
          | (s1, Ok lsn) => ((c, set_sink (Some s1) m), Ok lsn)
          | (s1, Err _) => abort_and_fail env CommitFailed (c, set_sink (Some s1) m)
          end
      end
  else (h, Ok CommitLsn_ZERO).

(** Queue the commit for a re-drive and tell the observers. *)
Definition record_unfinalized (env : CallEnv) (d : TransactionCommitDescriptor)
    (commit_ts : Timestamp) (lsn : CommitLsn) : ST held TransactionError unit := fun h =>
  on_mgr (fun m =>
    emit (EvDurableUnfinalized (id (x_const h.1)) (start_timestamp (x_const h.1)) lsn)
      (set_recovery (Pending.record (call_persist env) d commit_ts lsn (m_recovery m)) m)) h.

Definition on_vm {A} (f : ST VersionManager VersionManagerError A)
  : ST held VersionManagerError A := fun h =>
  let '(vm, r) := f (m_vm h.2) in ((h.1, set_vm vm h.2), r).

(** A reader gives its snapshot back; a writer gives its lease back and
    reserves the commit timestamp. *)
Definition commit_reserve (env : CallEnv) (d : TransactionCommitDescriptor) (lsn : CommitLsn)
  : ST held TransactionError Timestamp := fun h =>
  let k := x_const h.1 in
  match txn_type k with
  | TReadOnly =>
      (do! on_mgr (fun m =>
             set_vm (Vm.release_read_timestamp_at (start_timestamp k) (m_vm m)) m) in
       do! release_statement_snapshot_pin in
       st_ret 0) h
  | TWrite =>
      (do! on_mgr (fun m => prune_committed_write_sets (Vm.get_safe_gc_timestamp (m_vm m)) m) in
       do! release_write_lease in
       fun h1 =>
         match on_vm (Vm.reserve_commit_timestamp (call_now env) (start_timestamp k)) h1 with
         | (h2, Ok ts) => (h2, Ok ts)
         | (h2, Err _) =>
             (do! record_unfinalized env d 0 lsn in st_err CommitFailed) h2
         end) h
  | _ => (h, Ok 0)
  end.

Definition needs_commit_ts c : bool := bool_decide (txn_type (x_const c) = TWrite).

(** The final review, indexed by the reserved timestamp. *)
Definition commit_review (env : CallEnv) (d : TransactionCommitDescriptor)
    (commit_ts : Timestamp) : ST held TransactionError unit := fun h =>
  let k := x_const h.1 in
  if negb (needs_commit_ts h.1) then (h, Ok tt)
  else if Ws.is_empty (d_write_set d)
  then on_mgr (fun m => set_cert (Cert.unregister_reads (id k) (m_cert m)) m) h
  else
    match with_certifier (Certify.publish (call_now env) (id k) commit_ts (start_timestamp k)
                            (d_write_set d)) h with
    | (h1, Ok _) => (h1, Ok tt)
    | (h1, Err e) =>
        (do! on_mgr (fun m => set_vm (Vm.abort_write_timestamp commit_ts (m_vm m)) m) in
         abort_and_fail env e) h1
    end.

(** Run the sink's finalization with its retries. *)
Definition finalize_sink (d : TransactionCommitDescriptor) (lsn : CommitLsn)
  : ST mgr TransactionError unit := fun m =>
  match m_sink m with
  | None => (m, Ok tt)
  | Some s =>
      let '(s1, r) := retry (commit_retry_attempts (m_config m)) (sink_finalize d lsn) s in
      (set_sink (Some s1) m, map_err (fun _ => CommitFailed) r)
  end.

(** The visibility gate: on failure both slots are retired unpublished. *)
Definition commit_finalize (env : CallEnv) (d : TransactionCommitDescriptor) (lsn : CommitLsn)
    (commit_ts : Timestamp) : ST held TransactionError unit := fun h =>
  let '(c, m) := h in
  let k := x_const c in
  if is_user_transaction (txn_type k) && negb (in_memory (m_config m)) then
    match finalize_sink d lsn m with
    | (m1, Ok _) => ((c, m1), Ok tt)
    | (m1, Err e) =>
        (do! record_unfinalized env d 0 lsn in
         do! on_mgr (fun m => set_vm (Vm.abort_write_timestamp (start_timestamp k) (m_vm m)) m) in
         do! (if decide (commit_ts <> 0)
              then on_mgr (fun m => set_vm (Vm.abort_write_timestamp commit_ts (m_vm m)) m)
              else st_ret tt) in
         do! on_mgr (fun m => set_cert (Cert.unregister_reads (id k) (m_cert m)) m) in
         st_err e) (c, m1)
    end
  else (h, Ok tt).

(** Publish the reserved timestamp to readers and stamp the journal. *)
Definition commit_settle (env : CallEnv) (commit_ts : Timestamp)
  : ST held TransactionError unit := fun h =>
  if needs_commit_ts h.1 then
    (do! on_mgr (fun m => set_vm (Vm.publish_reserved_commit (call_now env)
           (start_timestamp (x_const h.1)) commit_ts (m_vm m)) m) in
     do! on_ctx (Ctx.set_commit_timestamp commit_ts) in
     do! on_ctx (Ctx.publish_commit_timestamp commit_ts) in
     release_statement_snapshot_pin) h
  else (h, Ok tt).

(** [clear_undo_logs] with one inline repetition. *)
Definition clear_undo_twice (env : CallEnv) : ST context TransactionError unit := fun c =>
  match Ctx.clear_undo_logs (call_io env) c with
  | (c1, Ok _) => (c1, Ok tt)
  | (c1, Err _) => Ctx.clear_undo_logs (call_io_retry env) c1
  end.

Definition drain_context_budget_warnings : ST held TransactionError unit := fun h =>
  let '(c, evs) := Ctx.drain_budget_warnings h.1 in
  ((c, fold_left (fun m ev => emit ev m) evs (store c h.2)), Ok tt).

Definition should_auto_checkpoint m : bool :=
  if negb (auto_checkpoint_after_commit (m_config m)) || in_memory (m_config m) then false
  else bool_decide (m_commits m >= Z.max (auto_checkpoint_commit_threshold (m_config m)) 1).

(** Offer a checkpoint to the sink; its error is not fatal. *)
Definition offer_checkpoint c m : mgr :=
  if should_auto_checkpoint m && bool_decide (txn_type (x_const c) = TWrite) then
    match m_sink m with
    | Some s => set_sink (Some (sink_auto_checkpoint s).1) m
    | None => m
    end
  else m.

(** Remove the context and its lease, and tell the observers. *)
Definition retire_committed (replayed : bool) : ST held TransactionError unit := fun h =>
  let i := id (x_const h.1) in
  (do! on_mgr (remove_active i) in
   do! on_mgr (fun m => (release_long_read i m).1) in
   do! (if replayed then on_mgr (fun m => set_cert (Cert.unregister_reads i (m_cert m)) m)
        else st_ret tt) in
   drain_context_budget_warnings) h.

Definition emit_committed (d : TransactionCommitDescriptor) (commit_ts : Timestamp)
    (replayed : bool) : ST held TransactionError unit := fun h =>
  on_mgr (fun m =>
    if decide (txn_callback_count m <> 0)
    then emit (EvCommitted (id (x_const h.1)) (start_timestamp (x_const h.1)) commit_ts
                (d_write_set d) (schema_catalog_version (x_budget h.1)) replayed) m
    else m) h.

(** Undo-log cleanup, the terminal state, removal, events, checkpoint offer. *)
Definition commit_complete (env : CallEnv) (d : TransactionCommitDescriptor)
    (commit_ts : Timestamp) (lsn : CommitLsn) : ST held TransactionError unit := fun h =>
  let i := id (x_const h.1) in
  match on_ctx_st (clear_undo_twice env) h with
  | (h1, Err _) =>
      (do! on_mgr (fun m => set_recovery
             (Pending.record (call_persist env) d commit_ts lsn (m_recovery m)) m) in
       do! on_mgr (remove_active i) in
       do! on_mgr (fun m => (release_long_read i m).1) in
       on_mgr (emit (EvDurableUnfinalized i (start_timestamp (x_const h1.1)) lsn))) h1
  | (h1, Ok _) =>
      (do! on_ctx_st (Ctx.transition_to Committed) in
       do! retire_committed false in
       do! emit_committed d commit_ts false in
       do! on_mgr (fun m => if decide (txn_type (x_const h1.1) = TWrite)
                            then set_commits (wrap_u64 (m_commits m + 1)) m else m) in
       on_mgr (offer_checkpoint h1.1)) h1
  end.

(** Everything in front of the WAL. *)
Definition commit_prepare (env : CallEnv) : ST held TransactionError unit :=
  do! commit_admission env in
  do! commit_certify env in
  do! commit_decide in
  on_ctx_st (Ctx.transition_to Committing).

(** Everything behind the WAL. *)
Definition commit_publish (env : CallEnv) (d : TransactionCommitDescriptor) (lsn : CommitLsn)
  : ST held TransactionError unit :=
  let! commit_ts := commit_reserve env d lsn in
  do! commit_review env d commit_ts in
  do! on_ctx (Ctx.mark_commit_published lsn) in
  do! commit_finalize env d lsn commit_ts in
  do! commit_settle env commit_ts in
  commit_complete env (Descriptor.set_commit_timestamp commit_ts d) commit_ts lsn.

Definition commit_body (env : CallEnv) : ST held TransactionError unit :=
  do! commit_prepare env in
  let! h := st_get in
  let d := Descriptor.build_commit_descriptor h.1 in
  let! lsn := commit_persist env d in
  commit_publish env d lsn.

Definition commit_transaction (env : CallEnv) (i : TransactionId)
  : ST mgr TransactionError unit := fun m =>
  match m_active m !! i with
  | None => (m, Err (TransactionNotFound i))
  | Some c => let '(h, r) := commit_body env (c, m) in (h.2, r)
  end.

(** ** Re-drive of a durable commit *)

Definition requeue (env : CallEnv) (p : PendingFinalization) m : mgr :=
  set_recovery (Pending.record (call_persist env) (pf_descriptor p) (pf_commit_timestamp p)
    (pf_commit_lsn p) (m_recovery m)) m.

(** Without a context: storage once more, and the conflict window. *)
Definition recover_orphan (i : TransactionId) (p : PendingFinalization) m : mgr :=
  let d := pf_descriptor p in
  let m1 := if in_memory (m_config m) then m
            else match m_sink m with
                 | Some s => set_sink (Some (sink_finalize d (pf_commit_lsn p) s).1) m
                 | None => m
                 end in
  if decide (pf_commit_timestamp p <> 0 /\ Ws.is_empty (d_write_set d) = false)
  then set_cert (Cert.force_publish i (pf_commit_timestamp p) (d_write_set d) (m_cert m1)) m1
  else m1.

(** The commit timestamp of a re-drive. *)
Definition recover_timestamp (env : CallEnv) (p : PendingFinalization)
  : ST held VersionManagerError Timestamp := fun h =>
  let own := commit_timestamp (x_life h.1) in
  if decide (pf_commit_timestamp p = 0 /\ own = 0) then
    match on_vm (Vm.allocate_commit_timestamp (call_now env) (start_timestamp (x_const h.1))) h with
    | (h1, Err e) => (h1, Err e)
    | (h1, Ok ts) =>
        let c := Ctx.publish_commit_timestamp ts (Ctx.set_commit_timestamp ts h1.1) in
        ((c, store c h1.2), Ok ts)
    end
  else
    let ts := Z.max own (pf_commit_timestamp p) in
    if decide (own = 0 /\ ts <> 0) then
      let c := Ctx.publish_commit_timestamp ts (Ctx.set_commit_timestamp ts h.1) in
      ((c, store c h.2), Ok ts)
    else (h, Ok ts).

(** From a known commit timestamp to the committed state. *)
Definition recover_complete (env : CallEnv) (i : TransactionId) (p : PendingFinalization)
    (ts : Timestamp) : ST held TransactionError unit := fun h =>
  let d := Descriptor.set_commit_timestamp ts (pf_descriptor p) in
  let '(h1, _) := (do! on_mgr (fun m =>
      if decide (ts <> 0 /\ Ws.is_empty (d_write_set d) = false)
      then set_cert (Cert.force_publish i ts (d_write_set d) (m_cert m)) m else m) in
    release_statement_snapshot_pin) h in
  match on_ctx_st (Ctx.clear_undo_logs (call_io env)) h1 with
  | (h2, Err _) => (do! on_mgr (requeue env p) in st_err RollbackFailed) h2
  | (h2, Ok _) =>
      (do! on_ctx_st (Ctx.transition_to Committed) in
       do! retire_committed true in
       do! on_mgr (fun m => set_recovery
             (Pending.sync_sidecar (call_persist env) (m_recovery m)) m) in
       emit_committed d ts true) h2
  end.

Definition recover_body (env : CallEnv) (i : TransactionId) (p : PendingFinalization)
  : ST held TransactionError unit := fun h =>
  let '(c, m) := h in
  if decide (state (x_life c) <> Committing \/ commit_published (x_life c) = false)
  then ((c, requeue env p m), Err (InvalidStateForCommit (state (x_life c))))
  else
    match (if in_memory (m_config m) then (m, Ok tt)
           else finalize_sink (pf_descriptor p) (pf_commit_lsn p) m) with
    | (m1, Err e) => ((c, requeue env p m1), Err e)
    | (m1, Ok _) =>
        match recover_timestamp env p (c, m1) with
        | (h2, Err _) => ((h2.1, requeue env p h2.2), Err CommitFailed)
        | (h2, Ok ts) => recover_complete env i p ts h2
        end
    end.

Definition recover_pending_finalization (env : CallEnv) (i : TransactionId)
  : ST mgr TransactionError unit := fun m =>
  match Pending.take_pending i (m_recovery m) with
  | (_, None) => (m, Err (TransactionNotFound i))
  | (q, Some p) =>
      let m1 := set_recovery q m in
      match m_active m1 !! i with
      | None => (recover_orphan i p m1, Ok tt)
      | Some c => let '(h, r) := recover_body env i p (c, m1) in (h.2, r)
      end
  end.

(** The loop of [startup_recovery]; it counts the successes. *)
Fixpoint redrive (env : CallEnv) (ids : list TransactionId) m : mgr * Z :=
  match ids with
  | [] => (m, 0)
  | i :: rest =>
      match recover_pending_finalization env i m with
      | (m1, Ok _) => let '(m2, n) := redrive env rest m1 in (m2, n + 1)
      | (m1, Err _) => redrive env rest m1
      end
  end.

Definition startup_recovery (env : CallEnv) : ST mgr TransactionError Z := fun m =>
  let '(m1, n) := redrive env (Pending.pending_txn_ids (m_recovery m)) m in
  let '(q, s, r) := Pending.recover (m_sink m1) (m_recovery m1) in
  let m2 := set_recovery q (set_sink s m1) in
  match r with
  | Err e => (m2, Err e)
  | Ok k => (m2, Ok (n + k))
  end.

(** ** Dispatch points *)

Definition finalize_transaction (env : CallEnv) (i : TransactionId) (o : TransactionOutcome)
  : ST mgr TransactionError unit :=
  match o with
  | OutcomeCommit => commit_transaction env i
  | OutcomeAbort => abort_transaction env i
  end.

(** [auto_commit]; the operation works on the context of its transaction. *)
Definition auto_commit {T} (env : CallEnv) (op : ST context TransactionError T)
  : ST mgr TransactionError T :=
  let! i := begin_insert_transaction env default_options in
  fun m =>
    match get_context i m with
    | Err e => (m, Err e)
    | Ok c =>
        match op c with
        | (c1, Ok a) => (do! commit_transaction env i in st_ret a) (store c1 m)
        | (c1, Err e) => ((abort_transaction env i (store c1 m)).1, Err e)
        end
    end.

Definition as_owner (i : TransactionId) (o : option string) (f : ST mgr TransactionError unit)
  : ST mgr TransactionError unit := fun m =>
  match check_transaction_owner i o m with
  | Err e => (m, Err e)
  | Ok _ => f m
  end.

Definition kill_transaction (env : CallEnv) (i : TransactionId) (o : option string)
  : ST mgr TransactionError unit := as_owner i o (abort_transaction env i).

Definition commit_transaction_as_owner (env : CallEnv) (i : TransactionId) (o : option string)
  : ST mgr TransactionError unit := as_owner i o (commit_transaction env i).

Definition abort_transaction_as_owner (env : CallEnv) (i : TransactionId) (o : option string)
  : ST mgr TransactionError unit := as_owner i o (abort_transaction env i).

(** ** Statements *)

(** [pin_statement_snapshot]: pin the new snapshot, then drop the old pin. *)
Definition pin_statement_snapshot (env : CallEnv) (ts : Timestamp)
  : ST held TransactionError unit := fun h =>
  let '(c, m) := h in
  match Tracker.add_snapshot (call_now env) ts (snapshot_tracker (m_vm m)) with
  | (t, Err _) => ((c, set_vm (Vm.set_tracker t (m_vm m)) m), Err InternalError)
  | (t, Ok _) =>
      let '(c1, previous) := Ctx.set_statement_snapshot_pin ts c in
      let t1 := match previous with
                | Some p => (Tracker.release_snapshot p t).1
                | None => t
                end in
      ((c1, store c1 (set_vm (Vm.set_tracker t1 (m_vm m)) m)), Ok tt)
  end.

(** The snapshot of a READ COMMITTED statement. *)
Definition refreshed_snapshot c m : Timestamp :=
  Z.max (Vm.read_timestamp (m_vm m)) (start_timestamp (x_const c)).

Definition begin_statement (env : CallEnv) (i : TransactionId)
  : ST mgr TransactionError Z := fun m =>
  match get_context i m with
  | Err e => (m, Err e)
  | Ok c =>
      let '(h, r) :=
        (let! ts := (fun h : held =>
           if decide (isolation_level (x_const c) = ReadCommitted) then
             let ts := refreshed_snapshot h.1 h.2 in
             (do! on_ctx (Ctx.set_refreshed_read_ts ts) in st_ret ts) h
           else (h, Ok (start_timestamp (x_const c)))) in
         let! start := on_ctx_st (Ctx.begin_statement (call_now env)) in
         do! pin_statement_snapshot env ts in
         do! on_mgr (fun m => set_stats (Stats.begin_statement (m_stats m)) m) in
         st_ret start) (c, m) in
      (h.2, r)
  end.

Definition refresh_statement_snapshot (env : CallEnv) (i : TransactionId)
  : ST mgr TransactionError unit := fun m =>
  match get_context i m with
  | Err e => (m, Err e)
  | Ok c =>
      let '(h, r) :=
        (do! st_lift (Ctx.can_execute (call_now env) c) in
         do! st_lift (Ctx.check_timeouts (call_now env) c) in
         if decide (isolation_level (x_const c) = ReadCommitted) then
           let ts := refreshed_snapshot c m in
           do! on_ctx (Ctx.set_refreshed_read_ts ts) in
           pin_statement_snapshot env ts
         else pin_statement_snapshot env (start_timestamp (x_const c))) (c, m) in
      (h.2, r)
  end.

(** [finish_statement]; its context may have left the table. *)
Definition finish_statement (env : CallEnv) (i : TransactionId) (start : Z)
  : ST mgr TransactionError unit := fun m =>
  match find_ctx i m with
  | None => (m, Err (TransactionNotFound i))
  | Some c =>
      let '(h1, r) := on_ctx_st (Ctx.finish_statement (call_now env) start) (c, m) in
      let h2 := (release_statement_snapshot_pin h1).1 in
      let m2 := set_stats (Stats.end_statement (m_stats h2.2)) h2.2 in
      match r with
      | Ok _ => (m2, Ok tt)
      | Err e =>
          (match e with
           | TransactionTimeout | TransactionExpired | CheckpointTimeout _ =>
               set_stats (Stats.record_timeout (m_stats m2)) m2
           | _ => m2
           end, Err e)
      end
  end.

(** ** Savepoints *)

Definition create_savepoint (env : CallEnv) (i : TransactionId) (name : option string)
    (mark : option StagedWriteMark) : ST mgr TransactionError Z := fun m =>
  match get_context i m with
  | Err e => (m, Err e)
  | Ok c =>
      match Ctx.can_execute (call_now env) c with
      | Err e => (m, Err e)
      | Ok _ =>
          let duplicate := match name with
                           | Some n => bool_decide (is_Some (Ctx.find_savepoint_by_name n c))
                           | None => false
                           end in
          if duplicate then (m, Err SavepointFailed)
          else
            let seq := match m_sync m with Some y => sync_intent_sequence i y | None => 0 end in
            let '(c1, sp) := Ctx.create_savepoint name seq c in
            let '(c2, r) := Ctx.set_savepoint_staging_mark sp mark c1 in
            (store c2 m, match r with Ok _ => Ok sp | Err e => Err e end)
      end
  end.

Definition get_savepoint (i : TransactionId) (sp : Z) m : option SavepointInfo :=
  match get_context i m with Ok c => Ctx.get_savepoint sp c | Err _ => None end.

Definition release_savepoint (i : TransactionId) (sp : Z) : ST mgr TransactionError unit :=
  fun m =>
  match get_context i m with
  | Err e => (m, Err e)
  | Ok c => let '(c1, r) := Ctx.release_savepoint sp c in (store c1 m, r)
  end.

Definition rollback_to_savepoint {G} `{UndoTarget Value G}
    (from_bytes : list Z -> option (UndoLogEntry Value)) (env : CallEnv) (i : TransactionId)
    (sp : Z) m (g : G) : mgr * G * result unit TransactionError :=
  match get_context i m with
  | Err e => (m, g, Err e)
  | Ok c =>
      match Ctx.get_savepoint sp c with
      | None => (m, g, Err (SavepointNotFound sp))
      | Some s =>
          match (match m_sync m with
                 | None => (m, Ok tt)
                 | Some y =>
                     let '(y1, r) := sync_rollback_to_sequence i (sp_sync_sequence s) y in
                     (set_sync (Some y1) m, r)
                 end) with
          | (m1, Err _) => (m1, g, Err SyncFailed)
          | (m1, Ok _) =>
              let '(c1, g1, r) :=
                Ctx.rollback_to_savepoint from_bytes (call_now env) (call_io env) sp c g in
              (store c1 m1, g1, map_err (fun _ => RollbackFailed) r)
          end
      end
  end.

Definition get_active_savepoints (i : TransactionId) m : list SavepointInfo :=
  match get_context i m with Ok c => Ctx.get_all_savepoints c | Err _ => [] end.

(** ** Long reads *)

Definition lease_thresholds m : LeaseAdmissionThresholds :=
  mkThresholds (long_read_max_live_leases (m_config m)) (long_read_max_pin_secs (m_config m)).

Definition begin_long_read_transaction (env : CallEnv) (o : TransactionOptions)
    (b : LeaseBackpressureView) (storage_max_ttl : Z) m
  : mgr * option (result TransactionId TransactionError) :=
  match Lease.check_long_read_admission b (lease_thresholds m) with
  | Err e => (m, Some (Err e))
  | Ok _ =>
      match begin_read_transaction env o m with
      | (m1, Some (Ok i)) =>
          match get_context i m1 with
          | Err e => (m1, Some (Err e))
          | Ok c =>
              let ttl := Lease.clamp_lease_ttl (default_lease_ttl (m_config m1)) storage_max_ttl in
              (set_leases (<[i := mkLease i (start_timestamp (x_const c)) (call_now env + ttl)]>
                 (m_leases m1)) m1, Some (Ok i))
          end
      | r => r
      end
  end.

Definition check_long_read (i : TransactionId) (now : Z) m : result unit TransactionError :=
  match m_leases m !! i with
  | None => Ok tt
  | Some l => if Lease.is_live l now then Ok tt
              else Err (Lease.snapshot_expired (holder l) (floor_ts l))
  end.

Definition renew_long_read (i : TransactionId) (storage_max_ttl now : Z) m : mgr * bool :=
  let ttl := Lease.clamp_lease_ttl (default_lease_ttl (m_config m)) storage_max_ttl in
  match m_leases m !! i with
  | Some l => (set_leases (<[i := mkLease (holder l) (floor_ts l) (now + ttl)]> (m_leases m)) m,
               true)
  | None => (m, false)
  end.

Definition reap_expired_long_reads (now : Z) m : mgr * Z :=
  let live := base.filter (fun e => Lease.is_live e.2 now = true) (m_leases m) in
  (set_leases live m, Z.of_nat (size (m_leases m)) - Z.of_nat (size live)).

Definition live_long_reads (now : Z) m : Z :=
  Z.of_nat (size (base.filter (fun e => Lease.is_live e.2 now = true) (m_leases m))).

(** ** Checkpoints *)

Definition begin_checkpoint : ST mgr TransactionError unit := fun m =>
  if in_memory (m_config m) then (m, Ok tt)
  else let '(g, r) := CkGate.pause_writes_and_drain (m_gate m) in (set_gate g m, r).

Definition end_checkpoint m : mgr :=
  if in_memory (m_config m) then m else set_gate (CkGate.resume_writes (m_gate m)) m.

Definition begin_checkpoint_transaction (env : CallEnv)
  : ST mgr TransactionError CheckpointTransaction := fun m =>
  if m_shutdown m then (m, Err InternalError)
  else if too_many m then (m, Err TooManyTransactions)
  else
    match begin_checkpoint (set_commits 0 m) with
    | (m1, Err e) => (m1, Err e)
    | (m1, Ok _) =>
        let ts := Vm.write_timestamp (m_vm m1) in
        let '(m2, i) := take_id m1 in
        let c := Ctx.new_checkpoint i ts (call_now env) (txn_config (m_config m2)) in
        (enlist c m2, Ok (mkCkTxn i ts false false))
    end.

Definition complete_gate m : mgr := set_gate (CkGate.complete_checkpoint (m_gate m)) m.

Definition ck_release_write_gate_early (k : CheckpointTransaction) m
  : mgr * CheckpointTransaction :=
  if ck_released_early k then (m, k)
  else (set_gate (CkGate.release_write_gate_early (m_gate m)) m,
        mkCkTxn (ck_txn_id k) (ck_write_ts k) (ck_finished k) true).

Definition ck_commit (env : CallEnv) (k : CheckpointTransaction)
  : ST mgr TransactionError unit := fun m =>
  let '(m1, r) := commit_transaction env (ck_txn_id k) m in (complete_gate m1, r).

Definition ck_abort (env : CallEnv) (k : CheckpointTransaction)
  : ST mgr TransactionError unit := fun m =>
  let '(m1, r) := abort_transaction env (ck_txn_id k) m in (complete_gate m1, r).

Definition ck_drop (env : CallEnv) (k : CheckpointTransaction) m : mgr :=
  if ck_finished k then m else (ck_abort env k m).1.

(** Storage callbacks of a checkpoint run on the sink's side: they see the
    manager's timestamp and return. *)
Definition ck_commit_with_early_release (env : CallEnv) (k : CheckpointTransaction)
    (storage_phase : Timestamp -> result unit TransactionError)
  : ST mgr TransactionError unit := fun m =>
  let '(m1, k1) := ck_release_write_gate_early k m in
  match storage_phase (ck_write_ts k1) with
  | Err e => ((ck_abort env k1 m1).1, Err e)
  | Ok _ => ck_commit env k1 m1
  end.

Definition coordinated_checkpoint (env : CallEnv) (f : Timestamp -> result Z TransactionError)
  : ST mgr TransactionError (Timestamp * Z) := fun m =>
  if in_memory (m_config m) then
    let ts := Vm.write_timestamp (m_vm m) in
    (m, match f ts with Ok lsn => Ok (ts, lsn) | Err e => Err e end)
  else
    match begin_checkpoint_transaction env m with
    | (m1, Err e) => (m1, Err e)
    | (m1, Ok k) =>
        match f (ck_write_ts k) with
        | Ok lsn => (do! ck_commit env k in st_ret (ck_write_ts k, lsn)) m1
        | Err e => ((ck_abort env k m1).1, Err e)
        end
    end.

Definition coordinated_checkpoint_with_early_release (env : CallEnv)
    (wal_phase : Timestamp -> result Z TransactionError)
    (storage_phase : Timestamp -> Z -> result unit TransactionError)
  : ST mgr TransactionError (Timestamp * Z) := fun m =>
  if in_memory (m_config m) then
    let ts := Vm.write_timestamp (m_vm m) in
    (m, match wal_phase ts with
        | Err e => Err e
        | Ok lsn => match storage_phase ts lsn with Ok _ => Ok (ts, lsn) | Err e => Err e end
        end)
  else
    match begin_checkpoint_transaction env m with
    | (m1, Err e) => (m1, Err e)
    | (m1, Ok k) =>
        let ts := ck_write_ts k in
        match wal_phase ts with
        | Err e => ((ck_abort env k m1).1, Err e)
        | Ok lsn =>
            let '(m2, k2) := ck_release_write_gate_early k m1 in
            match storage_phase ts lsn with
            | Err e => ((ck_abort env k2 m2).1, Err e)
            | Ok _ => (do! ck_commit env k2 in st_ret (ts, lsn)) m2
            end
        end
    end.

(** ** Observation *)

Definition create_execution (i : TransactionId) (auto : bool) m
  : result TransactionExecution TransactionError :=
  match get_context i m with
  | Err e => Err e
  | Ok c =>
      let k := x_const c in
      Ok (mkExecution i (Ctx.effective_read_timestamp c)
        (if read_only k then None else Some (start_timestamp k)) (read_only k)
        (auto || Context.auto_commit k) (rollback_only (x_life c)) (isolation_level k)
        (owner (x_life c)))
  end.

Definition active_write_count m : Z :=
  Z.of_nat (length (base.filter
    (fun e => txn_type (x_const e.2) = TWrite /\ state (x_life e.2) = Active)
    (map_to_list (m_active m)))).

Definition list_active_transactions m : list context :=
  base.filter (fun c => can_execute_state (state (x_life c)) = true) (map_to_list (m_active m)).*2.

Definition list_transactions m : list context := (map_to_list (m_active m)).*2.

Definition retry_outbox_projection : ST mgr TransactionError Z := fun m =>
  match m_sync m with
  | None => (m, Err SyncFailed)
  | Some y =>
      let '(y1, r) := sync_retry_outbox y in
      (set_sync (Some y1) m, map_err (fun _ => SyncFailed) r)
  end.

Definition resource_metrics m : TransactionResourceMetrics :=
  let ctxs := (map_to_list (m_active m)).*2 in
  mkMetrics (Tracker.active_count (snapshot_tracker (m_vm m))) (Vm.pending_count (m_vm m))
    (saturating_sub_u64 (Vm.write_timestamp (m_vm m)) (Vm.read_timestamp (m_vm m)))
    (foldr (fun c n => staged_bytes (x_budget c) + n) 0 ctxs)
    (foldr (fun c n => Ctx.undo_log_len c + n) 0 ctxs).

End ops.
End MgrOps.
