(* ===== verification/ManagerFacts.v ===== *)
(** * Facts of the transaction manager

    The part of the manager's state that its invariants speak of is its
    [View]; most updates do not touch it.  The lemmas below give the view after
    each protocol step, then after a whole abort. *)

From stdpp Require Import base gmap sets list strings.
From Stdlib Require Import ZArith Lia.
From S2P Require Import Prelude Types SnapshotTracker VersionManager Watermarks WriteSet Stats.
From S2P Require Import WalTypes Certifier UndoLog Journal Context Events CheckpointGate.
From S2P Require Import PendingRecovery Manager ManagerCommit.

Record View (Value : Type) := mkView {
  v_vm : VersionManager;
  v_config : TransactionManagerConfig;
  v_active : gmap Z (TransactionContext Value);
  v_retired : gmap Z (TransactionContext Value);
  v_gen : Z;
  v_gate : CheckpointGate;
  v_owner : Z;
}.
Arguments mkView {Value}.
Arguments v_vm {Value}.
Arguments v_config {Value}.
Arguments v_active {Value}.
Arguments v_retired {Value}.
Arguments v_gen {Value}.
Arguments v_gate {Value}.
Arguments v_owner {Value}.

Module MgrFacts.
Import Mgr MgrOps.
Section facts.
Context {Value S Y : Type} `{CommitSink Value S} `{SyncPort Y}.
Abbreviation mgr := (TransactionManager Value S Y).
Abbreviation context := (TransactionContext Value).
Abbreviation held := (context * mgr)%type.
Implicit Types m : mgr.
Implicit Types c : context.

Definition view m : View Value :=
  mkView (m_vm m) (m_config m) (m_active m) (m_retired m) (m_id_generator m) (m_gate m)
    (m_owner m).

Definition xid c : Z := id (x_const c).

(** *** Updates of a view *)

Definition vset_vm (f : VersionManager -> VersionManager) (v : View Value) : View Value :=
  mkView (f (v_vm v)) (v_config v) (v_active v) (v_retired v) (v_gen v) (v_gate v) (v_owner v).

Definition vput c (v : View Value) : View Value :=
  mkView (v_vm v) (v_config v) (<[xid c := c]> (v_active v)) (v_retired v) (v_gen v) (v_gate v)
    (v_owner v).

(** A transaction leaves the table with the final context [c]. *)
Definition vretire c (v : View Value) : View Value :=
  mkView (v_vm v) (v_config v) (delete (xid c) (v_active v)) (<[xid c := c]> (v_retired v))
    (v_gen v) (v_gate v) (v_owner v).

(** The gate slot and the exclusion of a writer that still holds them. *)
Definition holds_slot c : bool :=
  bool_decide (txn_type (x_const c) = TWrite) && negb (resources_released (x_life c)).

Definition vrelease c (v : View Value) : View Value :=
  if holds_slot c then
    mkView (v_vm v) (v_config v) (v_active v) (v_retired v) (v_gen v)
      (if in_memory (v_config v) then v_gate v else CkGate.add_writes (-1) (v_gate v))
      (if pessimistic_lock_held (x_life c) then 0 else v_owner v)
  else v.

Lemma emit_view ev m : view (emit ev m) = view m.
Proof.
  unfold emit. destruct (Events.is_empty _); [done|].
  by destruct (Events.dispatch_detailed _ _ _) as [[st tr] o].
Qed.

Lemma emit_fold_view evs m : view (fold_left (fun m ev => emit ev m) evs m) = view m.
Proof. revert m. induction evs as [|ev evs IH]; intros m; simpl; [done|]. by rewrite IH, emit_view. Qed.

(** *** Where a context lives *)

Definition home c m : Prop := m_active m !! xid c = Some c.

Definition gone c m : Prop := m_active m !! xid c = None.

Lemma store_home c c' m :
  home c m -> xid c' = xid c -> view (store c' m) = vput c' (view m).
Proof. unfold vput, home, store, xid. intros Hh ->. by rewrite Hh. Qed.

Lemma home_store c c' m : home c m -> xid c' = xid c -> home c' (store c' m).
Proof.
  unfold home, store, xid. intros Hh E. rewrite <- E in Hh. rewrite Hh. simpl.
  by rewrite lookup_insert_eq.
Qed.

Lemma store_gone c m :
  gone c m ->
  view (store c m) = mkView (m_vm m) (m_config m) (m_active m) (<[xid c := c]> (m_retired m))
    (m_id_generator m) (m_gate m) (m_owner m).
Proof. unfold gone, store, xid. intros ->. done. Qed.

Lemma gone_store c c' m : gone c m -> xid c' = xid c -> gone c' (store c' m).
Proof. unfold gone, store, xid. intros Hg E. rewrite <- E in Hg. by rewrite Hg. Qed.

(** A context update that keeps the identity, on a context in the table. *)
Lemma vput_vput c c' (v : View Value) : xid c' = xid c -> vput c' (vput c v) = vput c' v.
Proof. unfold vput. simpl. intros ->. by rewrite insert_insert_eq. Qed.

Lemma vput_same c m : home c m -> vput c (view m) = view m.
Proof. unfold vput, home. intros Hh. simpl. by rewrite insert_id. Qed.

Lemma view_home c m m' : view m' = view m -> home c m -> home c m'.
Proof. unfold home, view. intros E. injection E. by intros _ _ _ _ -> _ _. Qed.

(** *** Releasing resources *)

Definition mark_released c : context := Ctx.set_flags (rollback_only (x_life c)) true c.

Definition unpinned c : context :=
  Ctx.on_snap (fun s => mkSnap (refreshed_read_ts s) None (ssi_state s)) c.

Definition unpin c (vm : VersionManager) : VersionManager :=
  match statement_snapshot_pin (x_snap c) with
  | Some ts => Vm.set_tracker (Tracker.release_snapshot ts (snapshot_tracker vm)).1 vm
  | None => vm
  end.

Lemma mark_released_id c : resources_released (x_life c) = true -> mark_released c = c.
Proof. destruct c as [? [] ? ? ?]. simpl. unfold mark_released, Ctx.set_flags, Ctx.on_life. simpl. by intros ->. Qed.

Lemma unpinned_id c : statement_snapshot_pin (x_snap c) = None -> unpinned c = c.
Proof. destruct c as [? ? [] ? ?]. unfold unpinned, Ctx.on_snap. simpl. by intros ->. Qed.

Lemma release_lease_view c m :
  home c m ->
  exists m' b, release_write_lease (c, m) = ((mark_released c, m'), Ok b) /\
    view m' = vput (mark_released c) (vrelease c (view m)) /\ home (mark_released c) m' /\
    m_recovery m' = m_recovery m /\ m_sink m' = m_sink m.
Proof.
  intros Hh. unfold release_write_lease, Ctx.mark_resources_released. simpl fst.
  destruct (resources_released (x_life c)) eqn:Hr; simpl.
  { exists m, false. rewrite mark_released_id by done. split; [done|].
    unfold vrelease, holds_slot. rewrite Hr, andb_false_r. by rewrite vput_same. }
  fold (mark_released c). set (c1 := mark_released c).
  pose proof (store_home c c1 m Hh eq_refl) as Hv. pose proof (home_store c c1 m Hh eq_refl) as Hh1.
  assert (m_recovery (store c1 m) = m_recovery m /\ m_sink (store c1 m) = m_sink m) as [Hq Hs].
  { unfold store. by destruct (m_active m !! id (x_const c1)). }
  unfold vrelease, holds_slot. rewrite Hr. simpl negb. rewrite andb_true_r.
  change (txn_type (x_const c1)) with (txn_type (x_const c)).
  destruct (decide (txn_type (x_const c) <> TWrite)) as [Ht|Ht].
  { eexists _, _. split; [done|]. rewrite bool_decide_eq_false_2 by done. by rewrite Hv. }
  rewrite bool_decide_eq_true_2 by (by apply dec_stable).
  eexists _, _. split; [done|]. revert Hv Hh1 Hq Hs. generalize (store c1 m) as m1.
  intros m1 Hv Hh1 Hq Hs. unfold view, vput in Hv; simpl in Hv; injection Hv as E1 E2 E3 E4 E5 E6 E7.
  destruct (pessimistic_lock_held (x_life c1)) eqn:El;
    change (pessimistic_lock_held (x_life c1)) with (pessimistic_lock_held (x_life c)) in El;
    rewrite El; simpl; rewrite E2; destruct (in_memory (m_config m)); simpl;
    repeat split; try done; unfold view, vput; simpl; congruence.
Qed.

Lemma release_pin_view c m :
  home c m ->
  exists m', release_statement_snapshot_pin (c, m) = ((unpinned c, m'), Ok tt) /\
    view m' = vset_vm (unpin c) (vput (unpinned c) (view m)) /\ home (unpinned c) m' /\
    m_recovery m' = m_recovery m /\ m_sink m' = m_sink m.
Proof.
  intros Hh. unfold release_statement_snapshot_pin, unpin, Ctx.take_statement_snapshot_pin.
  simpl fst. destruct (statement_snapshot_pin (x_snap c)) as [ts|] eqn:Ep.
  - eexists. split; [reflexivity|]. cbn [fst snd]. fold (unpinned c).
    pose proof (store_home c (unpinned c) m Hh eq_refl) as Hv.
    pose proof (home_store c (unpinned c) m Hh eq_refl) as Hh1.
    assert (m_recovery (store (unpinned c) m) = m_recovery m /\
            m_sink (store (unpinned c) m) = m_sink m) as [Hq Hs].
    { unfold store. by destruct (m_active m !! _). }
    revert Hv Hh1 Hq Hs. generalize (store (unpinned c) m) as m1. intros m1 Hv Hh1 Hq Hs.
    unfold view, vput in Hv; simpl in Hv; injection Hv as E1 E2 E3 E4 E5 E6 E7.
    repeat split; try done. unfold view, vset_vm, vput. simpl.
    by rewrite E1, E2, E3, E4, E5, E6, E7.
  - exists m. rewrite unpinned_id by done. split; [done|]. rewrite vput_same by done. done.
Qed.

(** *** Leaving the table *)

Lemma remove_view c m :
  home c m ->
  view (remove_active (xid c) m) = vretire c (view m) /\ gone c (remove_active (xid c) m) /\
  m_recovery (remove_active (xid c) m) = m_recovery m /\
  m_sink (remove_active (xid c) m) = m_sink m.
Proof.
  unfold home, gone, remove_active, vretire. intros Hh. rewrite Hh. simpl.
  repeat split. apply lookup_delete_eq.
Qed.

Lemma store_frame c m :
  m_recovery (store c m) = m_recovery m /\ m_sink (store c m) = m_sink m.
Proof. unfold store. by destruct (m_active m !! _). Qed.

Lemma emit_frame ev m :
  m_recovery (emit ev m) = m_recovery m /\ m_sink (emit ev m) = m_sink m.
Proof.
  unfold emit. destruct (Events.is_empty _); [done|].
  by destruct (Events.dispatch_detailed _ _ _) as [[st tr] o].
Qed.

(** A retired context is written back among the retired ones. *)
Lemma store_retired c c' m v :
  gone c m -> xid c' = xid c -> view m = vretire c v ->
  view (store c' m) = vretire c' v /\ gone c' (store c' m).
Proof.
  intros Hg E Hv. split; [|by apply (gone_store c)].
  rewrite store_gone by (unfold gone in *; by rewrite E).
  unfold view, vretire in *. injection Hv as -> -> -> -> -> -> ->.
  rewrite E. simpl. by rewrite insert_insert_eq.
Qed.

Lemma view_gone c m m' : view m' = view m -> gone c m -> gone c m'.
Proof. unfold gone, view. intros E. injection E. by intros _ _ _ _ -> _ _. Qed.

(** [finalize_abort_resources] releases every resource and retires the
    context. *)
Lemma finalize_abort_view env c m :
  home c m -> state (x_life c) = Aborting ->
  exists c' m', finalize_abort_resources env (c, m) = ((c', m'), Ok tt) /\
    view m' = vretire c' (vset_vm (fun vm => unpin c (rollback_context_timestamp c vm))
                            (vrelease c (view m))) /\
    x_const c' = x_const c /\ state (x_life c') = Aborted /\
    resources_released (x_life c') = true /\
    commit_published (x_life c') = commit_published (x_life c) /\ gone c' m' /\
    m_recovery m' = m_recovery m /\ m_sink m' = m_sink m.
Proof.
  intros Hh Hst. unfold finalize_abort_resources, st_bind, st_get, on_mgr. cbn [fst snd].
  destruct (release_lease_view c (set_vm (rollback_context_timestamp c (m_vm m)) m) Hh)
    as (m1 & b & E & Hv1 & Hh1 & Hq1 & Hs1). rewrite E. cbn [fst snd].
  set (c1 := mark_released c) in *.
  destruct (release_pin_view c1 (set_cert (Cert.unregister_reads (xid c) (m_cert m1)) m1) Hh1)
    as (m2 & E2 & Hv2 & Hh2 & Hq2 & Hs2).
  unfold xid in E2. rewrite E2. cbn [fst snd]. set (c2 := unpinned c1) in *.
  set (m3 := (release_long_read (id (x_const c)) m2).1).
  assert (home c2 m3) as Hh3 by exact Hh2.
  destruct (remove_view c2 m3 Hh3) as (Hv4 & Hg4 & Hq4 & Hs4).
  change (id (x_const c)) with (xid c2). set (m4 := remove_active (xid c2) m3) in *.
  unfold on_ctx. cbn [fst snd]. set (c5 := (Ctx.clear_undo_logs (call_io env) c2).1).
  assert (x_const c5 = x_const c /\ x_life c5 = x_life c1) as [Hk5 Hl5].
  { unfold c5, Ctx.clear_undo_logs. by destruct (UndoLog.clear _ _). }
  assert (xid c5 = xid c2) as Hi5 by (unfold xid; by rewrite Hk5).
  destruct (store_retired c2 c5 m4 _ Hg4 Hi5 Hv4) as [Hv5 Hg5].
  unfold Ctx.transition_to. rewrite Hl5.
  change (state (x_life c1)) with (state (x_life c)). rewrite Hst. cbn [Ctx.valid_transition].
  set (c6 := Ctx.set_state Aborted c5).
  destruct (store_retired c5 c6 (store c5 m4) _ Hg5 eq_refl Hv5) as [Hv6 Hg6].
  eexists c6, _. split; [reflexivity|]. rewrite emit_view, Hv6.
  assert (view m3 = vput c2 (vset_vm (fun vm => unpin c (rollback_context_timestamp c vm))
            (vrelease c (view m)))) as Hv3.
  { change (view m3) with (view m2). rewrite Hv2.
    change (view (set_cert _ m1)) with (view m1). rewrite Hv1.
    unfold vrelease, vset_vm, vput. destruct (holds_slot c); simpl; by rewrite insert_insert_eq. }
  rewrite Hv3. split.
  { assert (xid c6 = xid c2) as Hi6 by exact Hi5. unfold vretire, vput. rewrite Hi6.
    cbn [v_vm v_config v_active v_retired v_gen v_gate v_owner]. by rewrite delete_insert_eq. }
  split; [exact Hk5|]. split; [done|].
  split; [change (resources_released (x_life c6)) with (resources_released (x_life c5)); by rewrite Hl5|].
  split; [change (commit_published (x_life c6)) with (commit_published (x_life c5)); by rewrite Hl5|].
  split; [eapply view_gone; [apply emit_view|exact Hg6]|].
  destruct (emit_frame (EvAborted (xid c2) (start_timestamp (x_const c6))) (store c6 (store c5 m4)))
    as [-> ->].
  rewrite !(proj1 (store_frame _ _)), !(proj2 (store_frame _ _)), Hq4, Hs4.
  change (m_recovery m3) with (m_recovery m2). change (m_sink m3) with (m_sink m2).
  rewrite Hq2, Hs2. simpl. by rewrite Hq1, Hs1.
Qed.


(** ** Abort *)

Lemma retry_pres {St E A} (P : St -> Prop) n (op : ST St E A) s :
  (forall s, P s -> P (op s).1) -> P s -> P (retry n op s).1.
Proof.
  intros Hop. revert s. induction n as [|n IH]; intros s Hs; simpl;
    pose proof (Hop s Hs) as Hs1; destruct (op s) as [s1 [a|e]]; simpl in *; auto.
Qed.

(** Same context but for its logs. *)
Definition log_only c c' : Prop :=
  x_const c' = x_const c /\ x_life c' = x_life c /\ x_snap c' = x_snap c.

Lemma log_only_refl c : log_only c c.
Proof. done. Qed.

Lemma log_only_trans c1 c2 c3 : log_only c1 c2 -> log_only c2 c3 -> log_only c1 c3.
Proof. unfold log_only. intuition congruence. Qed.

Lemma log_only_xid c c' : log_only c c' -> xid c' = xid c.
Proof. unfold log_only, xid. by intros (-> & _). Qed.

Lemma participants_view c m :
  home c m ->
  exists c1 m1 r, abort_participants (c, m) = ((c1, m1), r) /\ log_only c c1 /\
    view m1 = vput c1 (view m) /\ home c1 m1 /\ m_recovery m1 = m_recovery m /\
    (is_Some (m_sink m1) <-> is_Some (m_sink m)).
Proof.
  intros Hh. unfold abort_participants.
  assert (forall r : result unit TransactionError, exists c1 m1 r', (c, m, r) = ((c1, m1), r') /\ log_only c c1 /\
    view m1 = vput c1 (view m) /\ home c1 m1 /\ m_recovery m1 = m_recovery m /\
    (is_Some (m_sink m1) <-> is_Some (m_sink m))) as Hsame.
  { intros r. exists c, m, r. by rewrite vput_same. }
  destruct (negb _ && _); [|apply Hsame].
  destruct (m_sink m) as [s|] eqn:Es.
  - pose proof (retry_pres (fun cs => log_only c cs.1) (abort_retry_attempts (m_config m))
      sink_abort_ctx (c, s)) as Hr.
    destruct (retry _ _ _) as [[c1 s1] r]. cbn [fst] in Hr.
    assert (log_only c c1) as Hl.
    { apply Hr; [|apply log_only_refl]. intros [x t] Hx. unfold sink_abort_ctx. simpl.
      destruct (sink_abort _ _ _ _) as [[t1 u] r1]. simpl.
      eapply log_only_trans; [exact Hx|]. done. }
    eexists c1, _, _. split; [reflexivity|]. split; [done|].
    pose proof (store_home c c1 m Hh (log_only_xid _ _ Hl)) as Hv.
    pose proof (home_store c c1 m Hh (log_only_xid _ _ Hl)) as Hh1.
    split; [exact Hv|]. split; [exact Hh1|]. split; [apply store_frame|]. simpl. split; eauto.
  - destruct (m_sync m) as [y|].
    + destruct (retry _ _ y) as [y1 r]. eexists c, _, _. split; [reflexivity|].
      split; [done|]. rewrite vput_same by done. split; [done|]. split; [exact Hh|].
      split; [done|]. simpl. by rewrite Es.
    + exists c, m, (Ok tt). rewrite vput_same by done. by rewrite Es.
Qed.

(** The view after an abort that retires the context as [c']. *)
Definition vabort c c' (v : View Value) : View Value :=
  vretire c' (vset_vm (fun vm => unpin c (rollback_context_timestamp c vm)) (vrelease c v)).

Record aborted c c' : Prop := {
  ab_const : x_const c' = x_const c;
  ab_state : state (x_life c') = Aborted;
  ab_released : resources_released (x_life c') = true;
  ab_unpublished : commit_published (x_life c') = commit_published (x_life c);
}.

Lemma vabort_vput c c1 c' v :
  v_active v !! xid c = Some c -> log_only c c1 -> x_const c' = x_const c ->
  vabort c1 c' (vput c1 v) = vabort c c' v.
Proof.
  intros Hh (Hk & Hl & Hs) Hk'. unfold vabort, vretire, vset_vm, vrelease, holds_slot, vput,
    unpin, rollback_context_timestamp, xid. rewrite Hk, Hl, Hs, Hk'.
  destruct (_ && _); simpl; by rewrite delete_insert_eq.
Qed.

Lemma execute_abort_view env c m :
  home c m -> state (x_life c) = Aborting ->
  exists c' m' r, execute_abort_internal env (c, m) = ((c', m'), r) /\
    view m' = vabort c c' (view m) /\ aborted c c' /\ gone c' m' /\ m_recovery m' = m_recovery m /\
    (is_Some (m_sink m') <-> is_Some (m_sink m)).
Proof.
  intros Hh Hst. unfold execute_abort_internal.
  destruct (participants_view c m Hh) as (c1 & m1 & r & E & Hl & Hv1 & Hh1 & Hq1 & Hs1).
  rewrite E. assert (state (x_life c1) = Aborting) as Hst1 by (destruct Hl as (_ & -> & _); done).
  destruct (finalize_abort_view env c1 m1 Hh1 Hst1)
    as (c' & m' & E2 & Hv2 & Hk & Hs & Hr & Hp & Hg & Hq2 & Hs2).
  pose proof Hl as (Hk1 & Hl1 & _).
  assert (aborted c c') as Hab by (split; congruence).
  assert (view m' = vabort c c' (view m)) as Hv.
  { rewrite Hv2. fold (vabort c1 c' (view m1)). rewrite Hv1.
    apply vabort_vput; [exact Hh|done|congruence]. }
  destruct r as [[]|e].
  - unfold st_bind. rewrite E2. unfold on_mgr. eexists c', _, _. split; [reflexivity|].
    split; [exact Hv|]. split; [done|]. split; [exact Hg|].
    split; [by simpl; rewrite Hq2, Hq1|]. simpl. by rewrite Hs2.
  - unfold finalize_resources_after_sink_failure, st_bind. rewrite E2. unfold on_mgr.
    eexists c', _, _. split; [reflexivity|].
    split; [exact Hv|]. split; [done|]. split; [exact Hg|].
    split; [by simpl; rewrite Hq2, Hq1|]. simpl. by rewrite Hs2.
Qed.

Definition abortable c : Prop :=
  commit_published (x_life c) = false /\
  (state (x_life c) = Active \/ state (x_life c) = Committing).

(** The context on which an abort runs. *)
Definition aborting c : context := Ctx.set_state Aborting c.

Lemma vabort_aborting c c' v :
  v_active v !! xid c = Some c -> x_const c' = x_const c ->
  vabort (aborting c) c' (vput (aborting c) v) = vabort c c' v.
Proof.
  intros Hh Hk'. unfold vabort, vretire, vset_vm, vrelease, holds_slot, vput, unpin,
    rollback_context_timestamp, xid. rewrite Hk'. simpl.
  destruct (_ && _); simpl; by rewrite delete_insert_eq.
Qed.

(** An abort with or without local undo retires the transaction and releases
    all it holds, whatever the participants answer. *)
Lemma abort_common_view {G} env
    (run : option (context -> G -> context * G * result unit TransactionError)) c m g :
  home c m -> abortable c ->
  (forall f c0 g0, run = Some f -> log_only c0 (f c0 g0).1.1) ->
  exists c' m' g' r, abort_common env run (c, m) g = ((c', m'), g', r) /\
    view m' = vabort c c' (view m) /\ aborted c c' /\ gone c' m' /\ m_recovery m' = m_recovery m /\
    (is_Some (m_sink m') <-> is_Some (m_sink m)).
Proof.
  intros Hh [Hp Hs] Hrun. unfold abort_common, on_ctx_st. cbn [fst snd]. rewrite Hp.
  unfold Ctx.transition_to.
  replace (Ctx.valid_transition (state (x_life c)) Aborting) with true
    by (by destruct Hs as [-> | ->]).
  fold (aborting c). set (c1 := aborting c). set (m1 := store c1 m).
  pose proof (home_store c c1 m Hh eq_refl : home c1 m1) as Hh1.
  pose proof (store_home c c1 m Hh eq_refl : view m1 = _) as Hv1.
  destruct (store_frame c1 m) as [Hq1 Hs1]. fold m1 in Hq1, Hs1.
  assert (forall c2 m2, log_only c1 c2 -> home c2 m2 -> view m2 = vput c2 (view m1) ->
    m_recovery m2 = m_recovery m1 -> m_sink m2 = m_sink m1 ->
    exists c' m' r, execute_abort_internal env (c2, m2) = ((c', m'), r) /\
      view m' = vabort c c' (view m) /\ aborted c c' /\ gone c' m' /\
      m_recovery m' = m_recovery m /\ (is_Some (m_sink m') <-> is_Some (m_sink m))) as Hgo.
  { intros c2 m2 Hl Hh2 Hv2 Hq2 Hs2.
    assert (state (x_life c2) = Aborting) as Hst by (destruct Hl as (_ & -> & _); done).
    destruct (execute_abort_view env c2 m2 Hh2 Hst) as (c' & m' & r & E & Hv & Hab & Hg & Hq & Hsk).
    destruct Hab as [A1 A2 A3 A4]. pose proof Hl as (L1 & L2 & L3).
    exists c', m', r. split; [done|]. split.
    { rewrite Hv, Hv2, (vabort_vput c1 c2 c' (view m1)); [|exact Hh1|done|congruence].
      rewrite Hv1. apply vabort_aborting; [exact Hh|exact (eq_trans A1 L1)]. }
    split; [split; [exact (eq_trans A1 L1)|done|done|by rewrite A4, L2]|]. split; [done|].
    split; [congruence|]. by rewrite Hsk, Hs2, Hs1. }
  assert (vput c1 (view m1) = view m1) as Hid by (by apply vput_same).
  assert (exists c' m' r, execute_abort_internal env (c1, m1) = ((c', m'), r) /\
      view m' = vabort c c' (view m) /\ aborted c c' /\ gone c' m' /\
      m_recovery m' = m_recovery m /\ (is_Some (m_sink m') <-> is_Some (m_sink m))) as Hplain.
  { apply Hgo; try done. }
  cbn [fst snd]. destruct run as [f|]; [destruct (m_sink m1) eqn:Esk|];
    try (destruct Hplain as (c' & m' & r & E & HR); rewrite E; by exists c', m', g, r).
  specialize (Hrun f c1 g eq_refl). destruct (f c1 g) as [[c2 g2] r2]. cbn [fst] in Hrun.
  destruct (Hgo c2 (store c2 m1)) as (c' & m' & r & E & HR); try done.
  - eapply (home_store c1); [exact Hh1|by apply (log_only_xid c1)].
  - apply (store_home c1); [done|by apply (log_only_xid c1)].
  - apply store_frame.
  - rewrite <- Esk. apply store_frame.
  - rewrite E. destruct r2 as [|e]; [by exists c', m', g2, r|by exists c', m', g2, (Err e)].
Qed.

Lemma abort_view env c m :
  home c m -> abortable c ->
  exists c' m' r, abort_transaction_internal env (c, m) = ((c', m'), r) /\
    view m' = vabort c c' (view m) /\ aborted c c' /\ gone c' m' /\ m_recovery m' = m_recovery m /\
    (is_Some (m_sink m') <-> is_Some (m_sink m)).
Proof.
  intros Hh Ha. unfold abort_transaction_internal, abort_without_target.
  destruct (abort_common_view (G := unit) env None c m tt Hh Ha) as (c' & m' & g' & r & E & HR);
    [done|]. rewrite E. by exists c', m', r.
Qed.


End facts.
End MgrFacts.
