(* ===== verification/ManagerInv.v ===== *)
(** * Invariant of the transaction manager

    The invariant ties the table of transactions to the version manager, the
    checkpoint gate and the write exclusion, and holds between any two calls.
    Inside a call it holds for every transaction but the one being worked on;
    that one is the parameter [x] (0 is no transaction), and [k] counts gate
    slots taken by calls whose transaction is not in the table yet. *)

From stdpp Require Import base gmap sets list strings.
From Stdlib Require Import ZArith Lia.
From S2P Require Import Prelude Types SnapshotTracker VersionManager Watermarks WriteSet Stats.
From S2P Require Import WalTypes Certifier UndoLog Journal Context Events CheckpointGate.
From S2P Require Import PendingRecovery Manager ManagerCommit ManagerFacts.

(** ** Timestamp slots *)

Module Slots.
Import Vm.

(** The part of the version manager that slots and the frontier live in. *)
Definition core (vm : VersionManager) : Z * Z * gmap Z (Z * WriteTimestampState) :=
  (write_ts vm, read_ts vm, write_states vm).

Definition pending (vm : VersionManager) (ts : Z) : Prop := slot_state vm ts = Some WPending.

Record vm_ok (vm : VersionManager) : Prop := {
  vo_range : 0 <= read_ts vm <= write_ts vm /\ write_ts vm < MAX_TIMESTAMP;
  vo_slots : forall ts e, write_states vm !! ts = Some e ->
    ts <= write_ts vm /\ (e.2 = WPending -> read_ts vm < ts);
}.

Lemma pending_core vm vm' ts : core vm' = core vm -> pending vm' ts <-> pending vm ts.
Proof. unfold core, pending, slot_state. by intros [= _ _ ->]. Qed.

Lemma vm_ok_core vm vm' : core vm' = core vm -> vm_ok vm -> vm_ok vm'.
Proof. unfold core. intros [= E1 E2 E3] [H1 H2]. split; by rewrite ?E1, ?E2, ?E3. Qed.

Lemma pending_range vm ts : vm_ok vm -> pending vm ts -> read_ts vm < ts <= write_ts vm.
Proof.
  intros [_ Hs]. unfold pending, slot_state.
  destruct (write_states vm !! ts) as [e|] eqn:E; [|done]. simpl. intros [= He].
  destruct (Hs ts e E) as [? Hp]. specialize (Hp He). lia.
Qed.

Lemma vm_ok_advance vm :
  vm_ok vm ->
  vm_ok (advance_read_frontier vm) /\ write_ts (advance_read_frontier vm) = write_ts vm /\
  forall x, pending (advance_read_frontier vm) x <-> pending vm x.
Proof.
  intros [Hr Hs]. assert (MAX_TIMESTAMP < U64_MAX) as HM by (unfold MAX_TIMESTAMP; lia).
  destruct (advance_spec vm) as [A1 A2 A3 A4 A5]; [lia| |].
  { intros ts [e He]. destruct (Hs ts e He). lia. }
  destruct (advance_frame vm) as (Hw & _).
  assert (read_ts (advance_read_frontier vm) <= write_ts vm) as Hle.
  { destruct (decide (read_ts (advance_read_frontier vm) = read_ts vm)) as [->|]; [lia|].
    destruct (A2 (read_ts (advance_read_frontier vm))) as (e & He & _); [lia|].
    by destruct (Hs _ _ He). }
  assert (forall x, pending (advance_read_frontier vm) x <-> pending vm x) as Hp.
  { intros x. unfold pending, slot_state.
    destruct (decide (read_ts vm < x <= read_ts (advance_read_frontier vm))) as [Hin|Hout].
    - rewrite A4 by done. destruct (A2 x Hin) as (e & -> & Ht). simpl.
      split; [done|]. intros [= He]. by rewrite He in Ht.
    - by rewrite A3. }
  split; [split|done].
  - rewrite Hw. lia.
  - intros ts e He. rewrite Hw.
    assert (~ (read_ts vm < ts <= read_ts (advance_read_frontier vm))) as Hout.
    { intros Hin. by rewrite A4 in He. }
    rewrite A3 in He by done. destruct (Hs ts e He) as [? Hpd]. split; [done|].
    intros E. specialize (Hpd E). lia.
Qed.

Lemma vm_ok_settle ts s vm :
  vm_ok vm -> s <> WPending ->
  vm_ok (settle_slot ts s vm) /\ write_ts (settle_slot ts s vm) = write_ts vm /\
  forall x, pending (settle_slot ts s vm) x <-> pending vm x /\ x <> ts.
Proof.
  intros [Hr Hs] Hne. destruct (settle_slot_frame ts s vm) as (Hw & Hrd & _).
  split; [split|split; [done|]].
  - by rewrite Hw, Hrd.
  - intros x e. rewrite settle_slot_states, Hw, Hrd. case_decide as Hc; [|apply Hs].
    destruct Hc as [-> _]. destruct (write_states vm !! ts) as [[a w]|] eqn:E; [|done].
    simpl. intros [= <-]. simpl. destruct (Hs ts _ E). split; [done|]. by intros ->.
  - intros x. unfold pending. rewrite slot_state_settle. case_decide as Hc.
    + destruct Hc as [-> _]. split; [by intros [= ->]|]. by intros [_ []].
    + split; [|tauto]. intros Hx. split; [done|]. intros ->. by apply Hc.
Qed.

Lemma vm_ok_finish ts s vm :
  vm_ok vm -> s <> WPending ->
  vm_ok (finish_write_timestamp ts s vm) /\
  write_ts (finish_write_timestamp ts s vm) = write_ts vm /\
  forall x, pending (finish_write_timestamp ts s vm) x <-> pending vm x /\ x <> ts.
Proof.
  intros Hok Hne. destruct (vm_ok_settle ts s vm Hok Hne) as (H1 & H2 & H3).
  destruct (vm_ok_advance _ H1) as (H4 & H5 & H6). unfold finish_write_timestamp.
  split; [done|]. split; [congruence|]. intros x. by rewrite H6, H3.
Qed.

Lemma vm_ok_insert ts now s vm :
  vm_ok vm -> ts <= write_ts vm -> (s = WPending -> read_ts vm < ts) ->
  vm_ok (insert_slot ts now s vm) /\
  forall x, x <> ts -> pending (insert_slot ts now s vm) x <-> pending vm x.
Proof.
  intros [Hr Hs] Hle Hp. split; [split|].
  - exact Hr.
  - intros x e. simpl. destruct (decide (x = ts)) as [->|Hne].
    + rewrite lookup_insert_eq. intros [= <-]. simpl. auto.
    + rewrite lookup_insert_ne by done. apply Hs.
  - intros x Hne. unfold pending, slot_state. simpl. by rewrite lookup_insert_ne.
Qed.

Lemma vm_ok_reserve vm vm' ts :
  vm_ok vm -> reserve_timestamp vm = (vm', Ok ts) ->
  vm_ok vm' /\ ts = write_ts vm + 1 /\ write_ts vm' = ts /\ read_ts vm' = read_ts vm /\
  forall x, pending vm' x <-> pending vm x.
Proof.
  intros [Hr Hs] (-> & -> & Hal)%reserve_timestamp_ok.
  assert (write_ts vm + 1 < MAX_TIMESTAMP) as Hlt.
  { apply is_allocatable_spec in Hal; [lia|]. unfold is_u64, MAX_TIMESTAMP in *. lia. }
  split; [split; simpl|]; [lia| |done].
  intros x e He. destruct (Hs x e He) as [? Hp]. split; [lia|]. done.
Qed.

Lemma acquire_insert_ok now vm vm' ts :
  vm_ok vm -> acquire_insert_timestamp now vm = (vm', Ok ts) ->
  vm_ok vm' /\ ts = write_ts vm + 1 /\ write_ts vm' = ts /\ pending vm' ts /\
  forall x, pending vm x -> pending vm' x.
Proof.
  intros Hok Ha. unfold acquire_insert_timestamp in Ha.
  apply st_bind_ok in Ha as (vm1 & ts1 & E1 & Ha).
  destruct (vm_ok_reserve _ _ _ Hok E1) as (Hok1 & -> & Hw1 & Hr1 & Hp1).
  apply st_bind_ok in Ha as (vm2 & [] & E2 & Ha). rewrite track_ok in E2. injection E2 as <-.
  unfold st_bind, st_modify, st_ret in Ha. injection Ha as <- <-.
  set (t := (Tracker.add_snapshot now (write_ts vm + 1) (snapshot_tracker vm1)).1).
  destruct (vm_ok_insert (write_ts vm + 1) now WPending vm1 Hok1) as [Hok2 Hp2];
    [lia|rewrite Hr1; destruct Hok; lia|].
  split; [apply (vm_ok_core (insert_slot (write_ts vm + 1) now WPending vm1)); [done|exact Hok2]|].
  split; [done|]. split; [exact Hw1|].
  split; [unfold pending, slot_state; simpl; by rewrite lookup_insert_eq|].
  intros x Hx. pose proof (pending_range vm x Hok Hx).
  apply (Hp2 x ltac:(lia)). by apply Hp1.
Qed.

Lemma acquire_insert_err now vm vm' e :
  acquire_insert_timestamp now vm = (vm', Err e) -> vm' = vm.
Proof.
  intros Ha. unfold acquire_insert_timestamp in Ha.
  apply st_bind_err in Ha as [Ha|(vm1 & ts1 & E1 & Ha)];
    [by apply reserve_timestamp_err in Ha as [-> _]|].
  apply st_bind_err in Ha as [Ha|(vm2 & [] & E2 & Ha)]; [by rewrite track_ok in Ha|].
  discriminate.
Qed.

Lemma reserve_commit_ok now start vm vm' c :
  vm_ok vm -> reserve_commit_timestamp now start vm = (vm', Ok c) ->
  vm_ok vm' /\ c = write_ts vm + 1 /\ write_ts vm' = c /\ pending vm start /\
  forall x, pending vm' x <-> pending vm x \/ x = c.
Proof.
  intros Hok. unfold reserve_commit_timestamp, st_bind at 1, st_get.
  destruct (slot_state vm start) as [[]|] eqn:Es; try discriminate.
  intros Hc. apply st_bind_ok in Hc as (vm1 & ts1 & E1 & Hc).
  destruct (vm_ok_reserve _ _ _ Hok E1) as (Hok1 & -> & Hw1 & Hr1 & Hp1).
  unfold st_bind, st_modify, st_ret in Hc. injection Hc as <- <-.
  destruct (vm_ok_insert (write_ts vm + 1) now WPending vm1 Hok1) as [Hok2 Hp2];
    [lia|rewrite Hr1; destruct Hok; lia|].
  split; [done|]. split; [done|]. split; [exact Hw1|]. split; [done|]. intros x.
  destruct (decide (x = write_ts vm + 1)) as [->|Hne].
  - split; [by right|]. intros _. unfold pending, slot_state. simpl. by rewrite lookup_insert_eq.
  - rewrite Hp2 by done. rewrite Hp1. naive_solver.
Qed.

Lemma reserve_commit_err now start vm vm' e :
  reserve_commit_timestamp now start vm = (vm', Err e) -> vm' = vm.
Proof.
  unfold reserve_commit_timestamp, st_bind at 1, st_get.
  destruct (slot_state vm start) as [[]|]; intros Hc; try (by injection Hc as <-).
  apply st_bind_err in Hc as [Hc|(vm1 & ts1 & E1 & Hc)]; [|discriminate].
  by apply reserve_timestamp_err in Hc as [-> _].
Qed.

Lemma publish_reserved_ok now start c vm :
  vm_ok vm -> c <= write_ts vm ->
  vm_ok (publish_reserved_commit now start c vm) /\
  write_ts (publish_reserved_commit now start c vm) = write_ts vm /\
  forall x, pending (publish_reserved_commit now start c vm) x <->
    pending vm x /\ x <> start /\ x <> c.
Proof.
  intros Hok Hc. destruct (vm_ok_settle start WCommitted vm Hok ltac:(done)) as (H1 & H2 & H3).
  assert (vm_ok (publish_commit_slot now c (settle_slot start WCommitted vm)) /\
    write_ts (publish_commit_slot now c (settle_slot start WCommitted vm)) = write_ts vm /\
    forall x, pending (publish_commit_slot now c (settle_slot start WCommitted vm)) x <->
      pending (settle_slot start WCommitted vm) x /\ x <> c) as (H4 & H5 & H6).
  { revert H1 H2. generalize (settle_slot start WCommitted vm) as vm1. intros vm1 H1 H2.
    unfold publish_commit_slot.
    destruct (write_states vm1 !! c) as [[a []]|] eqn:E;
      try (split; [done|]; split; [done|]; intros x; split; [|tauto]; intros Hx; split; [done|];
           intros ->; unfold pending, slot_state in Hx; rewrite E in Hx; done);
      (destruct (vm_ok_insert c (default a (Some a)) WCommitted vm1 H1) as [Ha Hb] ||
       destruct (vm_ok_insert c now WCommitted vm1 H1) as [Ha Hb]); try lia; try done;
      (split; [done|]; split; [done|]; intros x; destruct (decide (x = c)) as [->|Hne];
       [split; [unfold pending, slot_state; simpl; rewrite lookup_insert_eq; done|by intros [_ []]]
       |rewrite Hb by done; tauto]). }
  destruct (vm_ok_advance _ H4) as (H7 & H8 & H9). unfold publish_reserved_commit.
  split; [done|]. split; [congruence|]. intros x. rewrite H9, H6, H3. tauto.
Qed.

Lemma allocate_commit_ok now start vm vm' c :
  vm_ok vm -> allocate_commit_timestamp now start vm = (vm', Ok c) ->
  vm_ok vm' /\ c = write_ts vm + 1 /\ write_ts vm' = c /\
  forall x, pending vm' x <-> pending vm x /\ x <> start.
Proof.
  intros Hok Hc. unfold allocate_commit_timestamp in Hc.
  apply st_bind_ok in Hc as (vm1 & ts1 & E1 & Hc).
  destruct (vm_ok_reserve _ _ _ Hok E1) as (Hok1 & -> & Hw1 & Hr1 & Hp1).
  unfold st_bind, st_modify, st_ret in Hc. injection Hc as <- <-.
  destruct (vm_ok_settle start WCommitted vm1 Hok1 ltac:(done)) as (H1 & H2 & H3).
  destruct (vm_ok_insert (write_ts vm + 1) now WCommitted _ H1) as [H4 H5]; [lia|done|].
  destruct (vm_ok_advance _ H4) as (H6 & H7 & H8).
  split; [done|]. split; [done|]. split; [rewrite H7; simpl; lia|]. intros x. rewrite H8.
  destruct (decide (x = write_ts vm + 1)) as [->|Hne].
  - split.
    + unfold pending, slot_state. simpl. rewrite lookup_insert_eq. by intros [=].
    + intros [Hx _]. pose proof (pending_range vm _ Hok Hx). lia.
  - by rewrite H5, H3, Hp1.
Qed.

Lemma allocate_commit_err now start vm vm' e :
  allocate_commit_timestamp now start vm = (vm', Err e) -> vm' = vm.
Proof.
  unfold allocate_commit_timestamp. intros Hc.
  apply st_bind_err in Hc as [Hc|(vm1 & ts1 & E1 & Hc)]; [|discriminate].
  by apply reserve_timestamp_err in Hc as [-> _].
Qed.

Lemma reap_loop_ok expired vm :
  vm_ok vm ->
  vm_ok (reap_loop expired vm).1 /\ write_ts (reap_loop expired vm).1 = write_ts vm /\
  forall x, x ∉ expired -> pending vm x -> pending (reap_loop expired vm).1 x.
Proof.
  revert vm. induction expired as [|ts l IH]; intros vm Hok; simpl; [done|].
  assert (vm_ok (reap_loop l vm).1 /\ write_ts (reap_loop l vm).1 = write_ts vm /\
    forall x, x ∉ ts :: l -> pending vm x -> pending (reap_loop l vm).1 x) as Hskip.
  { destruct (IH vm Hok) as (? & ? & Hx). split; [done|]. split; [done|].
    intros x Hn. apply Hx. set_solver. }
  destruct (slot_state vm ts) as [[]|]; try exact Hskip.
  destruct (vm_ok_settle ts WAborted vm Hok ltac:(done)) as (H1 & H2 & H3).
  clear Hskip.
  destruct (IH _ H1) as (H4 & H5 & H6).
  destruct (reap_loop l (settle_slot ts WAborted vm)) as [vm' n]. simpl in *.
  split; [done|]. split; [congruence|]. intros x Hn Hx. apply H6; [set_solver|].
  apply H3. split; [done|]. set_solver.
Qed.

Lemma reap_ok timeout owned now vm :
  vm_ok vm ->
  vm_ok (reap_expired_write_timestamps timeout owned now vm).1 /\
  write_ts (reap_expired_write_timestamps timeout owned now vm).1 = write_ts vm /\
  forall x, x ∈ owned -> pending vm x ->
    pending (reap_expired_write_timestamps timeout owned now vm).1 x.
Proof.
  intros Hok. unfold reap_expired_write_timestamps.
  destruct (reap_loop_ok (expired_slots timeout owned now vm) vm Hok) as (H1 & H2 & H3).
  destruct (reap_loop _ vm) as [vm' n]. simpl in *.
  assert (forall x, x ∈ owned -> x ∉ expired_slots timeout owned now vm) as Hown.
  { intros x Hx Hin. unfold expired_slots in Hin.
    apply list_elem_of_fmap in Hin as (e & -> & [(_ & Hn & _) _]%list_elem_of_filter). done. }
  case_decide; simpl; [|auto].
  destruct (vm_ok_advance _ H1) as (H4 & H5 & H6).
  split; [done|]. split; [congruence|]. intros x Hx Hp. apply H6. auto.
Qed.

(** ** Growth *)

Definition grows (vm vm' : VersionManager) : Prop :=
  write_ts vm <= write_ts vm' /\ read_ts vm <= read_ts vm'.

Lemma grows_refl vm : grows vm vm.
Proof. unfold grows. lia. Qed.

Lemma grows_trans vm1 vm2 vm3 : grows vm1 vm2 -> grows vm2 vm3 -> grows vm1 vm3.
Proof. unfold grows. lia. Qed.

Lemma grows_core vm vm' : core vm' = core vm -> grows vm vm'.
Proof. unfold core, grows. intros [= -> -> _]. lia. Qed.

Lemma grows_advance vm : vm_ok vm -> grows vm (advance_read_frontier vm).
Proof.
  intros [Hr Hs]. assert (MAX_TIMESTAMP < U64_MAX) as HM by (unfold MAX_TIMESTAMP; lia).
  destruct (advance_spec vm) as [A1 _ _ _ _]; [lia| |].
  { intros ts [e He]. destruct (Hs ts e He). lia. }
  destruct (advance_frame vm) as (Hw & _). unfold grows. lia.
Qed.

Lemma grows_settle ts s vm : grows vm (settle_slot ts s vm).
Proof. destruct (settle_slot_frame ts s vm) as (Hw & Hr & _). unfold grows. lia. Qed.

Lemma grows_finish ts s vm : vm_ok vm -> s <> WPending -> grows vm (finish_write_timestamp ts s vm).
Proof.
  intros Hok Hne. eapply grows_trans; [apply (grows_settle ts s)|]. apply grows_advance.
  by apply vm_ok_settle.
Qed.

Lemma grows_reserve vm vm' ts : reserve_timestamp vm = (vm', Ok ts) -> grows vm vm'.
Proof. intros (-> & -> & _)%reserve_timestamp_ok. unfold grows. simpl. lia. Qed.

Lemma grows_acquire now vm vm' ts : acquire_insert_timestamp now vm = (vm', Ok ts) -> grows vm vm'.
Proof.
  unfold acquire_insert_timestamp. intros Ha. apply st_bind_ok in Ha as (vm1 & ts1 & E1 & Ha).
  apply grows_reserve in E1. apply st_bind_ok in Ha as (vm2 & [] & E2 & Ha).
  rewrite track_ok in E2. injection E2 as <-.
  unfold st_bind, st_modify, st_ret in Ha. by injection Ha as <- <-.
Qed.

Lemma grows_reserve_commit now start vm vm' c :
  reserve_commit_timestamp now start vm = (vm', Ok c) -> grows vm vm'.
Proof.
  unfold reserve_commit_timestamp, st_bind at 1, st_get.
  destruct (slot_state vm start) as [[]|]; try discriminate.
  intros Hc. apply st_bind_ok in Hc as (vm1 & ts1 & E1 & Hc). apply grows_reserve in E1.
  unfold st_bind, st_modify, st_ret in Hc. by injection Hc as <- <-.
Qed.

Lemma grows_publish now start c vm :
  vm_ok vm -> c <= write_ts vm -> grows vm (publish_reserved_commit now start c vm).
Proof.
  intros Hok Hc. unfold publish_reserved_commit.
  destruct (vm_ok_settle start WCommitted vm Hok ltac:(done)) as (H1 & H2 & _).
  eapply grows_trans; [apply (grows_settle start WCommitted)|].
  assert (vm_ok (publish_commit_slot now c (settle_slot start WCommitted vm)) /\
    grows (settle_slot start WCommitted vm)
      (publish_commit_slot now c (settle_slot start WCommitted vm))) as [H3 H4].
  { revert H1 H2. generalize (settle_slot start WCommitted vm) as vm1. intros vm1 H1 H2.
    unfold publish_commit_slot.
    destruct (write_states vm1 !! c) as [[a []]|]; (split; [|unfold grows; simpl; lia]); try done;
      apply vm_ok_insert; done || lia. }
  eapply grows_trans; [exact H4|]. by apply grows_advance.
Qed.

Lemma grows_allocate now start vm vm' c :
  vm_ok vm -> allocate_commit_timestamp now start vm = (vm', Ok c) -> grows vm vm'.
Proof.
  intros Hok Hc. unfold allocate_commit_timestamp in Hc.
  apply st_bind_ok in Hc as (vm1 & ts1 & E1 & Hc).
  destruct (vm_ok_reserve _ _ _ Hok E1) as (Hok1 & -> & Hw1 & Hr1 & Hp1).
  apply grows_reserve in E1. unfold st_bind, st_modify, st_ret in Hc. injection Hc as <- <-.
  destruct (vm_ok_settle start WCommitted vm1 Hok1 ltac:(done)) as (H1 & H2 & _).
  destruct (vm_ok_insert (write_ts vm + 1) now WCommitted _ H1) as [H4 _]; [lia|done|].
  eapply grows_trans; [exact E1|]. eapply grows_trans; [apply (grows_settle start WCommitted)|].
  eapply grows_trans; [|by apply grows_advance]. unfold grows. simpl. lia.
Qed.

Lemma grows_reap timeout owned now vm :
  vm_ok vm -> grows vm (reap_expired_write_timestamps timeout owned now vm).1.
Proof.
  intros Hok. unfold reap_expired_write_timestamps.
  assert (forall l vm, vm_ok vm -> vm_ok (reap_loop l vm).1 /\ grows vm (reap_loop l vm).1) as Hl.
  { clear. induction l as [|ts l IH]; intros vm Hok; simpl; [split; [done|apply grows_refl]|].
    destruct (slot_state vm ts) as [[]|]; auto.
    destruct (IH (settle_slot ts WAborted vm)) as [H1 H2]; [by apply vm_ok_settle|].
    destruct (reap_loop l (settle_slot ts WAborted vm)). simpl in *. split; [done|].
    eapply grows_trans; [apply (grows_settle ts WAborted)|done]. }
  destruct (Hl (expired_slots timeout owned now vm) vm Hok) as [H1 H2].
  destruct (reap_loop (expired_slots timeout owned now vm) vm) as [vm' n]. simpl in *.
  case_decide; [|done]. eapply grows_trans; [exact H2|]. by apply grows_advance.
Qed.

End Slots.

Module MgrInv.
Import Mgr MgrOps MgrFacts Slots.
Section inv.
Context {Value S Y : Type} `{CommitSink Value S} `{SyncPort Y}.
Abbreviation mgr := (TransactionManager Value S Y).
Abbreviation context := (TransactionContext Value).
Abbreviation view_t := (View Value).
Implicit Types m : mgr.
Implicit Types c d : context.
Implicit Types v : view_t.
Implicit Types M : gmap Z context.
Implicit Types k : Z.

(** ** Counting slot holders *)

Definition slots M : Z :=
  Z.of_nat (length (base.filter (fun e => holds_slot e.2 = true) (map_to_list M))).

Lemma slots_empty : slots ∅ = 0.
Proof. unfold slots. by rewrite map_to_list_empty. Qed.

Lemma slots_fresh M i c : M !! i = None -> slots (<[i := c]> M) = slots M + Z.b2z (holds_slot c).
Proof.
  intros Hi. unfold slots. rewrite (map_to_list_insert M i c Hi). rewrite filter_cons. simpl.
  destruct (holds_slot c); simpl; lia.
Qed.

Lemma slots_delete M i c : M !! i = Some c -> slots M = slots (delete i M) + Z.b2z (holds_slot c).
Proof.
  intros Hi. rewrite <- (insert_delete_id M i c Hi) at 1. apply slots_fresh, lookup_delete_eq.
Qed.

Lemma slots_put M i c d :
  M !! i = Some c -> slots (<[i := d]> M) = slots M - Z.b2z (holds_slot c) + Z.b2z (holds_slot d).
Proof.
  intros Hi. rewrite (slots_delete M i c Hi), <- (insert_delete_eq M i d).
  rewrite slots_fresh by apply lookup_delete_eq. lia.
Qed.

Lemma slots_nonneg M : 0 <= slots M.
Proof. unfold slots. lia. Qed.

(** ** The invariant *)

Definition is_write c : Prop := txn_type (x_const c) = TWrite.

(** A transaction in the table between two calls: it executes or awaits its
    finalization; as long as it holds its slot it executes, and its timestamp
    is pending. *)
Record live_ok (vm : VersionManager) c : Prop := {
  lo_state : state (x_life c) = Active \/ state (x_life c) = Committing;
  lo_slot : holds_slot c = true ->
    state (x_life c) = Active /\ pending vm (start_timestamp (x_const c));
  lo_active : is_write c -> state (x_life c) = Active -> holds_slot c = true;
  lo_published : commit_published (x_life c) = true -> state (x_life c) = Committing;
  lo_user : state (x_life c) = Committing -> is_user_transaction (txn_type (x_const c)) = true;
}.

(** A commit that is out: still in the table and published, or retired and not
    aborted. *)
Definition vdurable v (i : Z) : Prop :=
  (exists c, v_active v !! i = Some c /\ commit_published (x_life c) = true) \/
  (exists c, v_retired v !! i = Some c /\ commit_published (x_life c) = true /\
     state (x_life c) <> Aborted).

Lemma vdurable_same v v' i :
  v_active v' = v_active v -> v_retired v' = v_retired v -> vdurable v i -> vdurable v' i.
Proof. unfold vdurable. by intros -> ->. Qed.

(** The commits in [D] are out. *)
Context {D : Z -> Prop}.

Record minv (k x : Z) v : Prop := {
  mi_inflight : 0 <= k;
  mi_vm : vm_ok (v_vm v);
  mi_gen : 1 <= v_gen v;
  mi_id : forall i c, v_active v !! i = Some c -> xid c = i /\ 0 < i < v_gen v;
  mi_retired : forall i c, v_retired v !! i = Some c ->
    xid c = i /\ i < v_gen v /\ v_active v !! i = None;
  mi_gate : in_memory (v_config v) = false -> active_writes (v_gate v) = slots (v_active v) + k;
  mi_u64 : is_u64 (active_writes (v_gate v));
  mi_start : forall i c, v_active v !! i = Some c -> is_write c ->
    0 < start_timestamp (x_const c) <= write_ts (v_vm v);
  mi_distinct : forall i j c d, v_active v !! i = Some c -> v_active v !! j = Some d ->
    is_write c -> is_write d ->
    start_timestamp (x_const c) = start_timestamp (x_const d) -> i = j;
  mi_live : forall i c, i <> x -> v_active v !! i = Some c -> live_ok (v_vm v) c;
  mi_lock : forall i c, v_active v !! i = Some c -> holds_slot c = true ->
    pessimistic_lock_held (x_life c) = true -> v_owner v = i;
  mi_owner : v_owner v <> 0 -> exists c, v_active v !! v_owner v = Some c /\
    holds_slot c = true /\ pessimistic_lock_held (x_life c) = true;
  mi_ro : forall i c, v_active v !! i = Some c -> is_write c -> read_only (x_const c) = false;
  mi_reader : forall i c, v_active v !! i = Some c -> txn_type (x_const c) = TReadOnly ->
    start_timestamp (x_const c) <= read_ts (v_vm v);
  mi_durable : forall i, D i -> vdurable v i;
}.

Lemma holds_write c : holds_slot c = true -> is_write c.
Proof. unfold holds_slot. by intros [?%bool_decide_eq_true _]%andb_true_iff. Qed.

Lemma live_pending vm vm' c :
  (pending vm (start_timestamp (x_const c)) -> holds_slot c = true ->
   pending vm' (start_timestamp (x_const c))) ->
  live_ok vm c -> live_ok vm' c.
Proof. intros Hp [H1 H2 H3 H4 H5]. split; auto. intros Hs. destruct (H2 Hs). auto. Qed.

(** Between calls nothing is exempt; inside one, its own transaction is. *)
Lemma minv_exempt k x v : minv k 0 v -> minv k x v.
Proof.
  intros [H0k H1 H2 H3 H4 H5 H6 H7 H8 H9 H10 H11 H12 H13 H14]. split; auto. intros i c _ Hi.
  apply (H9 i); [|done]. destruct (H3 i c Hi). lia.
Qed.

Lemma minv_settle k x v :
  minv k x v -> (forall c, v_active v !! x = Some c -> live_ok (v_vm v) c) -> minv k 0 v.
Proof.
  intros [H0k H1 H2 H3 H4 H5 H6 H7 H8 H9 H10 H11 H12 H13 H14] Hx. split; auto. intros i c Hne Hi.
  destruct (decide (i = x)) as [->|]; eauto.
Qed.

(** Only slots of the exempt transaction may be settled. *)
Lemma minv_vm k x v f :
  minv k x v ->
  vm_ok (f (v_vm v)) -> grows (v_vm v) (f (v_vm v)) ->
  (forall i c, i <> x -> v_active v !! i = Some c -> is_write c ->
     pending (v_vm v) (start_timestamp (x_const c)) ->
     pending (f (v_vm v)) (start_timestamp (x_const c))) ->
  minv k x (vset_vm f v).
Proof.
  intros [H0k H1 H2 H3 H4 H5 H6 H7 H8 H9 H10 H11 H12 H13 H14] Hok [Hw Hr] Hp.
  split; try done; simpl.
  - intros i c Hi Hc. specialize (H7 i c Hi Hc). lia.
  - intros i c Hne Hi. eapply live_pending; [|by apply (H9 i)].
    intros Hpd Hs. eapply Hp; eauto using holds_write.
  - intros i c Hi Hc. specialize (H13 i c Hi Hc). lia.
Qed.

(** The timestamps of other writers differ from that of [x]. *)
Lemma other_start k x v c i d :
  minv k x v -> v_active v !! x = Some c -> is_write c -> i <> x -> v_active v !! i = Some d ->
  is_write d -> start_timestamp (x_const d) <> start_timestamp (x_const c).
Proof.
  intros Hm Hx Hc Hne Hi Hd E. apply Hne. eapply (mi_distinct k x v Hm i x); eauto.
Qed.

Lemma vdurable_put x v c d i :
  xid d = x -> v_active v !! x = Some c ->
  (commit_published (x_life c) = true -> commit_published (x_life d) = true) ->
  vdurable v i -> vdurable (vput d v) i.
Proof.
  intros Hxd Hx Hpb [(e & He & Hp)|Hret]; [left|by right]. unfold vput. simpl. rewrite Hxd.
  destruct (decide (i = x)) as [->|Hne].
  - exists d. rewrite lookup_insert_eq. split; [done|]. apply Hpb. congruence.
  - exists e. by rewrite lookup_insert_ne.
Qed.

Lemma vdurable_retire x v c d i :
  xid d = x -> v_active v !! x = Some c ->
  (forall e, v_retired v !! x = Some e -> v_active v !! x = None) ->
  (commit_published (x_life c) = true ->
     commit_published (x_life d) = true /\ state (x_life d) <> Aborted) ->
  vdurable v i -> vdurable (vretire d v) i.
Proof.
  intros Hxd Hx Hret Hpb. unfold vretire, vdurable. simpl. rewrite Hxd.
  destruct (decide (i = x)) as [->|Hne].
  - intros [(e & He & Hp)|(e & He & _)]; [|by rewrite (Hret e He) in Hx].
    right. exists d. rewrite lookup_insert_eq. split; [done|]. apply Hpb. congruence.
  - rewrite lookup_delete_ne, lookup_insert_ne by done. done.
Qed.

(** Replace the exempt context by one that holds as much. *)
Lemma minv_put k x v c d :
  minv k x v -> v_active v !! x = Some c -> x_const d = x_const c ->
  holds_slot d = holds_slot c ->
  (holds_slot c = true -> pessimistic_lock_held (x_life d) = pessimistic_lock_held (x_life c)) ->
  (commit_published (x_life c) = true -> commit_published (x_life d) = true) ->
  minv k x (vput d v).
Proof.
  intros Hm Hx Hk Hs Hl Hpb. pose proof (mi_id k x v Hm x c Hx) as [Hxc Hr].
  assert (xid d = x) as Hxd by (unfold xid in *; congruence).
  destruct Hm as [H0k H1 H2 H3 H4 H5 H6 H7 H8 H9 H10 H11 H12 H13 H14].
  assert (forall i e, v_active (vput d v) !! i = Some e ->
    (i = x /\ e = d) \/ (i <> x /\ v_active v !! i = Some e)) as Hlook.
  { intros i e. unfold vput. simpl. rewrite Hxd.
    intros [[<- <-]|[? ?]]%lookup_insert_Some; auto. }
  split; try done.
  - intros i e [[-> ->]|[? Hi]]%Hlook; auto.
  - intros i e Hi. destruct (H4 i e Hi) as (? & ? & Hn). split; [done|]. split; [done|].
    unfold vput. simpl. rewrite Hxd, lookup_insert_ne; [done|]. intros ->. congruence.
  - intros Hmem. unfold vput. simpl. rewrite Hxd, (slots_put _ x c d Hx), Hs, (H5 Hmem). lia.
  - intros i e [[-> ->]|[? Hi]]%Hlook; [|eauto]. unfold is_write. rewrite Hk. by apply (H7 x).
  - intros i j e1 e2 Hi Hj. 
    destruct (Hlook i e1 Hi) as [[-> ->]|[? ?]]; destruct (Hlook j e2 Hj) as [[-> ->]|[? ?]];
      unfold is_write; rewrite ?Hk; intros; eauto.
  - intros i e Hne [[-> ->]|[? Hi]]%Hlook; [done|]. by apply (H9 i).
  - intros i e [[-> ->]|[? Hi]]%Hlook; [|exact (H10 i e Hi)]. intros Hd Hp.
    rewrite Hs in Hd. rewrite (Hl Hd) in Hp. exact (H10 x c Hx Hd Hp).
  - simpl. intros Ho. destruct (H11 Ho) as (e & He & Hh & Hp). unfold vput. simpl. rewrite Hxd.
    destruct (decide (v_owner v = x)) as [E|E].
    + rewrite E in He |- *. rewrite lookup_insert_eq. exists d. split; [done|].
      rewrite He in Hx. injection Hx as ->. by rewrite Hs, Hl.
    + rewrite lookup_insert_ne by done. eauto.
  - intros i e [[-> ->]|[? Hi]]%Hlook; [|eauto]. unfold is_write. rewrite Hk. by apply (H12 x).
  - intros i e [[-> ->]|[? Hi]]%Hlook; [rewrite Hk; by apply (H13 x)|eauto].
  - intros i Hi. apply (vdurable_put x v c d i Hxd Hx Hpb), H14, Hi.
Qed.

(** Give the slot back and mark the context. *)
Lemma minv_release k x v c :
  minv k x v -> v_active v !! x = Some c -> minv k x (vput (mark_released c) (vrelease c v)).
Proof.
  intros Hm Hx. unfold vrelease. destruct (holds_slot c) eqn:Hs.
  2: { eapply minv_put; try done. unfold holds_slot, mark_released in *. simpl.
       rewrite andb_false_r. by rewrite Hs. }
  pose proof (mi_id k x v Hm x c Hx) as [Hxc Hr]. set (d := mark_released c).
  assert (xid d = x) as Hxd by exact Hxc.
  assert (holds_slot d = false) as Hd by (unfold holds_slot, d; simpl; apply andb_false_r).
  destruct Hm as [H0k H1 H2 H3 H4 H5 H6 H7 H8 H9 H10 H11 H12 H13 H14].
  assert (forall i e, <[xid d := d]> (v_active v) !! i = Some e ->
    (i = x /\ e = d) \/ (i <> x /\ v_active v !! i = Some e)) as Hlook.
  { intros i e. rewrite Hxd. intros [[<- <-]|[? ?]]%lookup_insert_Some; auto. }
  assert (1 <= slots (v_active v)) as Hone.
  { rewrite (slots_delete _ x c Hx), Hs. pose proof (slots_nonneg (delete x (v_active v))). simpl. lia. }
  split; simpl; try done.
  - intros i e [[-> ->]|[? Hi]]%Hlook; auto.
  - intros i e Hi. destruct (H4 i e Hi) as (? & ? & Hn). split; [done|]. split; [done|].
    rewrite Hxd, lookup_insert_ne; [done|]. intros ->. congruence.
  - intros Hmem. rewrite Hmem. rewrite Hxd, (slots_put _ x c d Hx), Hs, Hd.
    unfold CkGate.add_writes. simpl. rewrite (H5 Hmem). rewrite wrap_u64_small; [lia|].
    rewrite (H5 Hmem) in H6. unfold is_u64 in *. lia.
  - destruct (in_memory (v_config v)); [done|]. apply wrap_u64_range.
  - intros i e [[-> ->]|[? Hi]]%Hlook; [exact (H7 x c Hx)|exact (H7 i e Hi)].
  - intros i j e1 e2 Hi Hj.
    destruct (Hlook i e1 Hi) as [[-> ->]|[? Hi']]; destruct (Hlook j e2 Hj) as [[-> ->]|[? Hj']].
    + done.
    + exact (H8 x j c e2 Hx Hj').
    + exact (H8 i x e1 c Hi' Hx).
    + exact (H8 i j e1 e2 Hi' Hj').
  - intros i e Hne [[-> ->]|[? Hi]]%Hlook; [done|]. by apply (H9 i).
  - intros i e [[-> ->]|[Hne Hi]]%Hlook; [congruence|]. intros He Hp.
    destruct (pessimistic_lock_held (x_life c)) eqn:El; [|by apply (H10 i e)].
    exfalso. apply Hne. rewrite <- (H10 i e Hi He Hp). by apply (H10 x c).
  - destruct (pessimistic_lock_held (x_life c)) eqn:El; [done|]. intros Ho.
    destruct (H11 Ho) as (e & He & Hh & Hp). exists e. rewrite Hxd, lookup_insert_ne; [done|].
    intros E. rewrite <- E in He. rewrite He in Hx. injection Hx as ->. congruence.
  - intros i e [[-> ->]|[? Hi]]%Hlook; [exact (H12 x c Hx)|exact (H12 i e Hi)].
  - intros i e [[-> ->]|[? Hi]]%Hlook; [exact (H13 x c Hx)|exact (H13 i e Hi)].
  - intros i Hi. apply (vdurable_same (vput d v)); [done|done|].
    by apply (vdurable_put x v c d i), H14.
Qed.

(** A context that holds nothing leaves the table. *)
Lemma minv_retire k x v c d :
  minv k x v -> v_active v !! x = Some c -> holds_slot c = false -> x_const d = x_const c ->
  (commit_published (x_life c) = true ->
     commit_published (x_life d) = true /\ state (x_life d) <> Aborted) ->
  minv k 0 (vretire d v).
Proof.
  intros Hm Hx Hs Hk Hpb. pose proof (mi_id k x v Hm x c Hx) as [Hxc Hr].
  assert (xid d = x) as Hxd by (unfold xid in *; congruence).
  destruct Hm as [H0k H1 H2 H3 H4 H5 H6 H7 H8 H9 H10 H11 H12 H13 H14].
  assert (forall i e, delete x (v_active v) !! i = Some e -> i <> x /\ v_active v !! i = Some e)
    as Hlook.
  { intros i e [? ?]%lookup_delete_Some; auto. }
  assert (forall i, D i -> vdurable (vretire d v) i) as Hdur.
  { intros i Hi. apply (vdurable_retire x v c d i Hxd Hx); [|done|by apply H14].
    intros e He. by destruct (H4 x e He) as (_ & _ & ?). }
  unfold vretire in *. rewrite Hxd in *. split; simpl; try done.
  - intros i e [? Hi]%Hlook; auto.
  - intros i e [[<- <-]|[? Hi]]%lookup_insert_Some.
    + split; [done|]. split; [lia|]. apply lookup_delete_eq.
    + destruct (H4 i e Hi) as (? & ? & Hn). split; [done|]. split; [done|].
      by rewrite lookup_delete_ne.
  - intros Hmem. rewrite (H5 Hmem), (slots_delete _ x c Hx), Hs. simpl. lia.
  - intros i e [? Hi]%Hlook; eauto.
  - intros i j e1 e2 [? Hi]%Hlook [? Hj]%Hlook. eauto.
  - intros i e _ [? Hi]%Hlook. by apply (H9 i).
  - intros i e [? Hi]%Hlook. by apply (H10 i).
  - intros Ho. destruct (H11 Ho) as (e & He & Hh & Hp). exists e.
    rewrite lookup_delete_ne; [done|].
    intros E. rewrite <- E in He. rewrite He in Hx. injection Hx as ->. congruence.
  - intros i e [? Hi]%Hlook. eauto.
  - intros i e [? Hi]%Hlook. eauto.
Qed.

(** ** Abort *)

Lemma unpin_core c vm : core (unpin c vm) = core vm.
Proof. unfold unpin. by destruct (statement_snapshot_pin _). Qed.

Lemma rollback_ok c vm :
  vm_ok vm ->
  vm_ok (unpin c (rollback_context_timestamp c vm)) /\
  write_ts (unpin c (rollback_context_timestamp c vm)) = write_ts vm /\
  forall y, pending vm y -> (is_write c -> y <> start_timestamp (x_const c)) ->
    pending (unpin c (rollback_context_timestamp c vm)) y.
Proof.
  intros Hok. pose proof (unpin_core c (rollback_context_timestamp c vm)) as Hc.
  assert (vm_ok (rollback_context_timestamp c vm) /\
    write_ts (rollback_context_timestamp c vm) = write_ts vm /\
    forall y, pending vm y -> (is_write c -> y <> start_timestamp (x_const c)) ->
      pending (rollback_context_timestamp c vm) y) as (H1 & H2 & H3).
  { unfold rollback_context_timestamp, is_write.
    destruct (txn_type (x_const c)); cbn [uses_mvcc negb]; try done.
    - split; [by apply (vm_ok_core vm)|]. split; [done|]. intros y Hy _. exact Hy.
    - destruct (vm_ok_finish (start_timestamp (x_const c)) WAborted vm Hok ltac:(done))
        as (H1 & H2 & H3). split; [done|]. split; [done|]. intros y Hy Hne. apply H3. auto. }
  split; [by apply (vm_ok_core (rollback_context_timestamp c vm))|].
  split; [unfold core in Hc; congruence|]. intros y Hy Hne.
  apply (pending_core _ _ y Hc). auto.
Qed.

Lemma grows_rollback c vm : vm_ok vm -> grows vm (unpin c (rollback_context_timestamp c vm)).
Proof.
  intros Hok. eapply grows_trans; [|apply grows_core, unpin_core].
  unfold rollback_context_timestamp. destruct (txn_type (x_const c)); cbn [uses_mvcc negb];
    try (by apply grows_core); by apply grows_finish.
Qed.

Lemma vabort_put c c' v :
  xid c' = xid c ->
  vretire c' (vset_vm (fun vm => unpin c (rollback_context_timestamp c vm))
    (vput (mark_released c) (vrelease c v))) = vabort c c' v.
Proof.
  intros E. unfold vabort, vretire, vset_vm, vput.
  cbn [v_vm v_config v_active v_retired v_gen v_gate v_owner]. rewrite E.
  change (xid (mark_released c)) with (xid c). by rewrite delete_insert_eq.
Qed.

Lemma minv_abort k x v c c' :
  minv k x v -> v_active v !! x = Some c -> commit_published (x_life c) = false ->
  aborted c c' -> minv k 0 (vabort c c' v).
Proof.
  intros Hm Hx Hnp [Hk _ _ _]. pose proof (mi_id k x v Hm x c Hx) as [Hxc _].
  rewrite <- (vabort_put c c' v) by (unfold xid; by rewrite Hk).
  pose proof (minv_release k x v c Hm Hx) as Hm1.
  assert (v_vm (vput (mark_released c) (vrelease c v)) = v_vm v) as Ev.
  { unfold vrelease. by destruct (holds_slot c). }
  assert (v_active (vput (mark_released c) (vrelease c v)) !! x = Some (mark_released c)) as Hx1.
  { unfold vput, vrelease. change (xid (mark_released c)) with (xid c). rewrite Hxc.
    destruct (holds_slot c); simpl; by rewrite lookup_insert_eq. }
  destruct (rollback_ok c (v_vm v) (mi_vm k x v Hm)) as (R1 & R2 & R3).
  eapply minv_retire; [|exact Hx1|unfold holds_slot; simpl; apply andb_false_r|exact Hk|
    simpl; by rewrite Hnp].
  apply minv_vm; [exact Hm1|by rewrite Ev|rewrite Ev; apply grows_rollback, (mi_vm k x v Hm)|].
  rewrite Ev. intros i d Hne Hi Hd Hp. apply R3; [done|]. intros Hc.
  eapply (other_start k x _ (mark_released c)); eauto.
Qed.

Lemma live_abortable vm c :
  live_ok vm c -> commit_published (x_life c) = false -> abortable c.
Proof. intros [H1 _ _ _ _] Hp. by split. Qed.

Lemma fetch_abortable_ok i m c :
  fetch_abortable_context i m = Ok c ->
  m_active m !! i = Some c /\ commit_published (x_life c) = false.
Proof.
  unfold fetch_abortable_context, get_context. destruct (m_active m !! i) as [d|]; [|done].
  destruct (can_abort _); [|done]. destruct (commit_published (x_life d)) eqn:E; [done|].
  simpl. by intros [= <-].
Qed.

(** [abort_transaction] either refuses and changes nothing, or retires the
    transaction. *)
Lemma abort_transaction_cases env k i m m' r :
  minv k 0 (view m) -> abort_transaction env i m = (m', r) ->
  (m' = m /\ exists e, r = Err e /\ fetch_abortable_context i m = Err e) \/
  (exists c c', m_active m !! i = Some c /\ commit_published (x_life c) = false /\
    view m' = vabort c c' (view m) /\ aborted c c' /\ m_recovery m' = m_recovery m /\
    (is_Some (m_sink m') <-> is_Some (m_sink m))).
Proof.
  intros Hm. unfold abort_transaction.
  destruct (fetch_abortable_context i m) as [c|e] eqn:Ef; [|intros [= <- <-]; eauto].
  apply fetch_abortable_ok in Ef as [Hi Hp].
  destruct (mi_id k 0 _ Hm i c Hi) as [Hid Hr].
  assert (home c m) as Hh by (unfold home; by rewrite Hid).
  pose proof (mi_live k 0 _ Hm i c ltac:(lia) Hi) as Hl.
  destruct (abort_view env c m Hh (live_abortable _ _ Hl Hp))
    as (c' & m1 & r1 & E & Hv & Hab & _ & Hq & Hs).
  unfold abort_transaction_internal in E. rewrite E. intros [= <- <-]. right. exists c, c'. eauto 10.
Qed.

Lemma minv_abort_transaction env k i m :
  minv k 0 (view m) -> minv k 0 (view (abort_transaction env i m).1).
Proof.
  intros Hm. destruct (abort_transaction env i m) as [m' r] eqn:E. simpl.
  destruct (abort_transaction_cases env k i m m' r Hm E) as [[-> _]|(c & c' & Hi & Hnp & -> & Hab & _)];
    [done|].
  apply (minv_abort k i); [|done|done|done]. by apply minv_exempt.
Qed.

(** ** Cleanup and shutdown *)

Lemma minv_view k x m m' : view m' = view m -> minv k x (view m) -> minv k x (view m').
Proof. by intros ->. Qed.

Lemma minv_cleanup_loop env k l m : minv k 0 (view m) -> minv k 0 (view (cleanup_loop env l m)).
Proof.
  revert m. induction l as [|[i t] l IH]; intros m Hm; simpl; [done|].
  set (m1 := if t then _ else _).
  assert (minv k 0 (view m1)) as Hm1 by (unfold m1; by destruct t).
  pose proof (minv_abort_transaction env k i m1 Hm1) as Hm2.
  destruct (abort_transaction env i m1) as [m2 [[]|e]]; apply IH; exact Hm2.
Qed.

Lemma owned_spec m i c :
  m_active m !! i = Some c -> read_only (x_const c) = false ->
  start_timestamp (x_const c) ∈ owned_timestamps m.
Proof.
  intros Hi Hr. unfold owned_timestamps. apply elem_of_list_to_set, list_elem_of_fmap.
  exists (i, c). split; [done|]. apply list_elem_of_filter. split; [done|].
  by apply elem_of_map_to_list.
Qed.

Lemma minv_reap env k m :
  minv k 0 (view m) ->
  minv k 0 (view (set_vm (Vm.reap_expired_write_timestamps
    (write_reap_timeout (vm_config (m_vm m))) (owned_timestamps m) (call_now env) (m_vm m)).1 m)).
Proof.
  intros Hm. set (f := fun vm => (Vm.reap_expired_write_timestamps
    (write_reap_timeout (vm_config (m_vm m))) (owned_timestamps m) (call_now env) vm).1).
  destruct (reap_ok (write_reap_timeout (vm_config (m_vm m))) (owned_timestamps m) (call_now env)
    (m_vm m) (mi_vm k 0 _ Hm)) as (R1 & R2 & R3).
  apply (minv_vm k 0 (view m) f Hm R1); [apply grows_reap, (mi_vm k 0 _ Hm)|].
  intros i c _ Hi Hc Hp. apply R3; [|done]. eapply owned_spec; [exact Hi|].
  by apply (mi_ro k 0 _ Hm i).
Qed.

(** Between calls a write exclusion is never found dead. *)
Lemma dead_owner_noop k m : minv k 0 (view m) -> release_dead_write_owner m = m.
Proof.
  intros Hm. unfold release_dead_write_owner. case_decide as Ho; [done|].
  destruct (mi_owner k 0 _ Hm Ho) as (c & Hc & Hs & Hl). simpl in Hc. rewrite Hc.
  pose proof (mi_live k 0 _ Hm (m_owner m) c Ho Hc) as [_ Hlive _ _ _].
  destruct (Hlive Hs) as [-> _]. by rewrite Hl.
Qed.

Lemma minv_cleanup env k m :
  minv k 0 (view m) -> minv k 0 (view (maybe_cleanup_expired_transactions env m)).
Proof.
  intros Hm. unfold maybe_cleanup_expired_transactions. destruct (auto_cleanup _); [|done].
  unfold cleanup_expired_transactions.
  assert (minv k 0 (view (cleanup_expired_transactions_with env m))) as Hc.
  { unfold cleanup_expired_transactions_with. apply minv_cleanup_loop. by apply minv_reap. }
  by rewrite (dead_owner_noop k).
Qed.

Lemma minv_shutdown_loop env k ids m : minv k 0 (view m) -> minv k 0 (view (shutdown_loop env ids m)).
Proof.
  revert m. induction ids as [|i l IH]; intros m Hm; simpl; [done|].
  pose proof (minv_abort_transaction env k i m Hm) as Hm2.
  destruct (match m_active m !! i with Some c => _ | None => _ end); [by apply IH|].
  destruct (abort_transaction env i m) as [m2 [[]|e]]; apply IH; exact Hm2.
Qed.

Lemma minv_shutdown env k m : minv k 0 (view m) -> minv k 0 (view (shutdown env m)).
Proof. intros Hm. apply minv_shutdown_loop. exact Hm. Qed.

(** ** Begin *)

(** The gate after a call took or gave back a slot. *)
Lemma minv_gate k k' v g :
  minv k 0 v -> 0 <= k' -> is_u64 (active_writes g) ->
  (in_memory (v_config v) = false ->
   active_writes g = active_writes (v_gate v) + k' - k) ->
  minv k' 0 (mkView (v_vm v) (v_config v) (v_active v) (v_retired v) (v_gen v) g (v_owner v)).
Proof.
  intros [H0k H1 H2 H3 H4 H5 H6 H7 H8 H9 H10 H11 H12 H13 H14] Hk Hg Hc. split; try done; simpl.
  intros Hmem. rewrite (Hc Hmem), (H5 Hmem). lia.
Qed.

Lemma minv_release_gate k m :
  minv (k + 1) 0 (view m) -> 0 <= k -> minv k 0 (view (release_gate m)).
Proof.
  intros Hm Hk. unfold release_gate. destruct (in_memory (m_config m)) eqn:Em.
  - apply (minv_gate (k + 1) k (view m) (m_gate m)); [done|done|apply (mi_u64 _ _ _ Hm)|].
    simpl. by rewrite Em.
  - apply (minv_gate (k + 1) k (view m)); [done|done|apply wrap_u64_range|].
    intros _. pose proof (mi_gate _ _ _ Hm Em) as Hg. pose proof (mi_u64 _ _ _ Hm) as Hu.
    simpl in *. pose proof (slots_nonneg (m_active m)).
    rewrite wrap_u64_small; [lia|]. unfold is_u64 in *. lia.
Qed.

(** A new transaction enters the table under the next identifier. *)
Lemma minv_insert k v c own :
  minv (k + Z.b2z (holds_slot c)) 0 v -> 0 <= k -> xid c = v_gen v ->
  live_ok (v_vm v) c ->
  (is_write c -> 0 < start_timestamp (x_const c) <= write_ts (v_vm v) /\
     read_only (x_const c) = false /\
     forall j d, v_active v !! j = Some d -> is_write d ->
       start_timestamp (x_const d) <> start_timestamp (x_const c)) ->
  (pessimistic_lock_held (x_life c) = true -> v_owner v = 0 /\ holds_slot c = true /\ own = xid c) ->
  (pessimistic_lock_held (x_life c) = false -> own = v_owner v) ->
  (txn_type (x_const c) = TReadOnly -> start_timestamp (x_const c) <= read_ts (v_vm v)) ->
  minv k 0 (mkView (v_vm v) (v_config v) (<[xid c := c]> (v_active v)) (v_retired v)
              (v_gen v + 1) (v_gate v) own).
Proof.
  intros [H0k H1 H2 H3 H4 H5 H6 H7 H8 H9 H10 H11 H12 H13 H14] Hk Hi Hlive Hw Hp Hnp Hrd.
  assert (v_active v !! v_gen v = None) as Hfresh.
  { destruct (v_active v !! v_gen v) as [d|] eqn:E; [|done]. destruct (H3 _ _ E). lia. }
  assert (forall j d, <[v_gen v := c]> (v_active v) !! j = Some d ->
    (j = v_gen v /\ d = c) \/ (j <> v_gen v /\ v_active v !! j = Some d)) as Hlook.
  { intros j d [[<- <-]|[? ?]]%lookup_insert_Some; auto. }
  rewrite Hi in *. split; simpl; try done.
  - lia.
  - intros j d [[-> ->]|[? Hj]]%Hlook; [split; [done|lia]|]. destruct (H3 j d Hj). split; [done|lia].
  - intros j d Hj. destruct (H4 j d Hj) as (? & ? & ?). split; [done|]. split; [lia|].
    rewrite lookup_insert_ne by lia. done.
  - intros Hmem. rewrite (H5 Hmem), slots_fresh by done. lia.
  - intros j d [[-> ->]|[? Hj]]%Hlook Hd; [by apply Hw|by apply (H7 j d)].
  - intros j1 j2 d1 d2 [[-> ->]|[? Hj1]]%Hlook [[-> ->]|[? Hj2]]%Hlook W1 W2 E; try done.
    + destruct (Hw W1) as (_ & _ & Hne). by destruct (Hne j2 d2 Hj2 W2).
    + destruct (Hw W2) as (_ & _ & Hne). by destruct (Hne j1 d1 Hj1 W1).
    + by apply (H8 j1 j2 d1 d2).
  - intros j d Hne [[-> ->]|[? Hj]]%Hlook; [done|by apply (H9 j d)].
  - intros j d [[-> ->]|[? Hj]]%Hlook Hs Hl; [by destruct (Hp Hl) as (_ & _ & ->)|].
    pose proof (H10 j d Hj Hs Hl) as Ho.
    destruct (pessimistic_lock_held (x_life c)) eqn:El; [|by rewrite (Hnp eq_refl)].
    destruct (Hp eq_refl) as (Hz & _). destruct (H3 j d Hj). lia.
  - intros Ho. destruct (pessimistic_lock_held (x_life c)) eqn:El.
    + destruct (Hp eq_refl) as (_ & Hs & ->). exists c. by rewrite lookup_insert_eq.
    + rewrite (Hnp eq_refl) in Ho |- *. destruct (H11 Ho) as (d & Hd & HR). exists d.
      rewrite lookup_insert_ne; [done|]. destruct (H3 _ _ Hd). lia.
  - intros j d [[-> ->]|[? Hj]]%Hlook Hd; [by destruct (Hw Hd) as (_ & ? & _)|by apply (H12 j d)].
  - intros j d [[-> ->]|[? Hj]]%Hlook Hd; [by apply Hrd|by apply (H13 j d)].
  - intros j Hj. destruct (H14 j Hj) as [(d & Hd & Hpb)|?]; [left|by right]. exists d.
    simpl. rewrite lookup_insert_ne; [done|]. intros <-. congruence.
Qed.

(** Identifiers and gate slots are counted in 64 bits. *)
Definition room m : Prop :=
  m_id_generator m < U64_MAX /\ active_writes (m_gate m) < U64_MAX.


Lemma vabort_gen c c' v : v_gen (vabort c c' v) = v_gen v /\ v_config (vabort c c' v) = v_config v.
Proof. unfold vabort, vrelease. by destruct (holds_slot c). Qed.

(** What an abort, a cleanup or a shutdown leaves alone. *)
Definition kept m m' : Prop :=
  v_gen (view m') = v_gen (view m) /\ v_config (view m') = v_config (view m) /\
  write_ts (m_vm m') = write_ts (m_vm m) /\ m_active m' ⊆ m_active m /\
  m_recovery m' = m_recovery m.

Lemma kept_refl m : kept m m.
Proof. done. Qed.

Lemma kept_trans m1 m2 m3 : kept m1 m2 -> kept m2 m3 -> kept m1 m3.
Proof.
  intros (A1 & A2 & A3 & A4 & A5) (B1 & B2 & B3 & B4 & B5).
  split_and!; try congruence. by transitivity (m_active m2).
Qed.

Lemma kept_abort env k i m :
  minv k 0 (view m) -> kept m (abort_transaction env i m).1.
Proof.
  intros Hm. destruct (abort_transaction env i m) as [m' r] eqn:E. simpl.
  destruct (abort_transaction_cases env k i m m' r Hm E)
    as [[-> _]|(c & c' & Hi & _ & Hv & Hab & Hq & _)]; [apply kept_refl|].
  destruct (rollback_ok c (m_vm m) (mi_vm _ _ _ Hm)) as (_ & Hw & _).
  unfold kept. rewrite Hv. destruct (vabort_gen c c' (view m)) as [-> ->].
  change (m_vm m') with (v_vm (view m')). change (m_active m') with (v_active (view m')).
  rewrite Hv. unfold vabort, vrelease, vretire, vset_vm. 
  destruct (holds_slot c); simpl; split_and!; try done; apply delete_subseteq.
Qed.

Lemma kept_cleanup_loop env k l m : minv k 0 (view m) -> kept m (cleanup_loop env l m).
Proof.
  revert m. induction l as [|[i t] l IH]; intros m Hm; simpl; [apply kept_refl|].
  set (m1 := if t then _ else _).
  assert (minv k 0 (view m1) /\ kept m m1) as [Hm1 Hk1] by (unfold m1; by destruct t).
  pose proof (kept_abort env k i m1 Hm1) as Hk2.
  pose proof (minv_abort_transaction env k i m1 Hm1) as Hm2.
  eapply kept_trans; [exact Hk1|]. eapply kept_trans; [exact Hk2|].
  destruct (abort_transaction env i m1) as [m2 [[]|e]];
    [exact (IH m2 Hm2)|exact (IH (bump_cleanup_failure m2) Hm2)].
Qed.

Lemma kept_cleanup env k m :
  minv k 0 (view m) -> kept m (maybe_cleanup_expired_transactions env m).
Proof.
  intros Hm. unfold maybe_cleanup_expired_transactions. destruct (auto_cleanup _); [|apply kept_refl].
  unfold cleanup_expired_transactions. rewrite (dead_owner_noop k).
  2: { unfold cleanup_expired_transactions_with. apply minv_cleanup_loop. by apply minv_reap. }
  unfold cleanup_expired_transactions_with. eapply kept_trans; [|apply (kept_cleanup_loop env k)].
  - destruct (reap_ok (write_reap_timeout (vm_config (m_vm m))) (owned_timestamps m) (call_now env)
      (m_vm m) (mi_vm k 0 _ Hm)) as (_ & R2 & _). by split_and!.
  - by apply minv_reap.
Qed.

Lemma room_cleanup env k m :
  minv k 0 (view m) -> m_id_generator m < U64_MAX ->
  m_id_generator (maybe_cleanup_expired_transactions env m) < U64_MAX.
Proof. intros Hm Hr. destruct (kept_cleanup env k m Hm) as (E & _). simpl in E. by rewrite E. Qed.


Lemma new_holds i ts now cfg b :
  holds_slot (Ctx.set_pessimistic_lock b (Ctx.new (Value := Value) i ts now cfg)) = true.
Proof. done. Qed.

(** [open_insert] on a manager whose version manager just handed out [ts]. *)
Lemma minv_open_insert env k o ts m :
  minv (k + 1) 0 (view m) -> 0 <= k -> 1 <= v_gen (view m) - 1 ->
  pending (m_vm m) ts -> 0 < ts <= write_ts (m_vm m) ->
  (forall j d, m_active m !! j = Some d -> is_write d ->
     j < m_id_generator m - 1 /\ start_timestamp (x_const d) <> ts) ->
  (forall j, is_Some (m_active m !! j) \/ is_Some (m_retired m !! j) -> j < m_id_generator m - 1) ->
  minv k 0 (view (open_insert env o (m_id_generator m - 1) ts m).1).
Proof.
  intros Hm Hk Hgen Hp Hts Hne Hlt. set (i := m_id_generator m - 1).
  set (c := Ctx.new i ts (call_now env) (options_config o (m_config m)) : context).
  set (v0 := mkView (m_vm m) (m_config m) (m_active m) (m_retired m) i (m_gate m) (m_owner m)).
  assert (minv (k + 1) 0 v0) as Hm0.
  { destruct Hm as [H0k H1 H2 H3 H4 H5 H6 H7 H8 H9 H10 H11 H12 H13 H14]. split; try done; simpl in *.
    - intros j d Hj. destruct (H3 j d Hj). specialize (Hlt j (or_introl (ex_intro _ d Hj))). 
      split; [done|]. unfold i. lia.
    - intros j d Hj. destruct (H4 j d Hj) as (? & ? & ?).
      specialize (Hlt j (or_intror (ex_intro _ d Hj))). split_and!; done. }
  assert (forall b own, (b = true -> m_owner m = 0 /\ own = i) -> (b = false -> own = m_owner m) ->
    minv k 0 (mkView (m_vm m) (m_config m) (<[i := Ctx.set_pessimistic_lock b c]> (m_active m))
      (m_retired m) (m_id_generator m) (m_gate m) own)) as Hins.
  { intros b own Hb Hnb. replace (m_id_generator m) with (i + 1) by (unfold i; lia).
    apply (minv_insert k v0 (Ctx.set_pessimistic_lock b c) own); try done.
    - split; simpl; [by left|intros _; split; [done|exact Hp]|done|done|done].
    - intros _. simpl. split; [done|]. split; [done|]. intros j d Hj Hd. by apply (Hne j d).
    - simpl. intros E. destruct (Hb E). done. }
  unfold open_insert. fold i. fold c. case_decide as Hmode.
  - unfold claim_exclusion. case_decide as Ho; simpl.
    + apply (Hins true i); [done|done].
    + apply minv_release_gate; [|done].
      destruct (vm_ok_finish ts WAborted (m_vm m) (mi_vm _ _ _ Hm) ltac:(done)) as (F1 & F2 & F3).
      apply (minv_vm (k + 1) 0 (view m) (Vm.abort_write_timestamp ts)); 
        [done|done|apply grows_finish; [exact (mi_vm _ _ _ Hm)|done]|].
      intros j d _ Hj Hd Hpd. apply F3. split; [done|]. by apply (Hne j d).
  - assert (Ctx.set_pessimistic_lock false c = c) as <- by done.
    apply (Hins false (m_owner m)); done.
Qed.

Lemma minv_begin_insert env k o m :
  minv k 0 (view m) -> room m -> minv k 0 (view (begin_insert_transaction env o m).1).
Proof.
  intros Hm [Hr Hw]. unfold begin_insert_transaction. destruct (m_shutdown m); [done|].
  pose proof (mi_inflight _ _ _ Hm) as Hk. pose proof (mi_u64 _ _ _ Hm) as Hu. simpl in Hu.
  set (acq := if in_memory (m_config m) then _ else _).
  assert (exists g r, acq = (g, r) /\ is_u64 (active_writes g) /\
    (in_memory (m_config m) = false ->
     active_writes g = active_writes (m_gate m) + (if is_ok r then 1 else 0))) as (g & r & Ea & Hgu & Hg).
  { unfold acq. destruct (in_memory (m_config m)); [by exists (m_gate m), (Ok tt)|].
    unfold CkGate.acquire_write. destruct (writing_paused (m_gate m)) eqn:Ep.
    - exists (m_gate m), (Err CheckpointInProgress). simpl. split_and!; try done; lia.
    - simpl. rewrite Ep. eexists _, (Ok tt). split; [done|]. simpl.
      split; [apply wrap_u64_range|]. intros _. rewrite wrap_u64_small; [done|].
      unfold is_u64 in *. lia. }
  rewrite Ea. destruct r as [[]|e].
  2: { apply (minv_gate k k (view m) g); [done|done|done|]. intros Hmem. rewrite (Hg Hmem). simpl. lia. }
  assert (minv (k + 1) 0 (view (set_gate g m))) as Hm1.
  { apply (minv_gate k (k + 1) (view m) g); [done|lia|done|].
    intros Hmem. rewrite (Hg Hmem). simpl. lia. }
  set (m1 := maybe_cleanup_expired_transactions env (set_gate g m)).
  pose proof (minv_cleanup env (k + 1) _ Hm1 : minv (k + 1) 0 (view m1)) as Hm2.
  pose proof (room_cleanup env (k + 1) _ Hm1 Hr : m_id_generator m1 < U64_MAX) as Hr1.
  destruct (too_many m1); [by apply minv_release_gate|]. unfold take_id.
  pose proof (mi_gen _ _ _ Hm2) as Hgen. simpl in Hgen.
  set (m2 := set_id_generator (wrap_u64 (m_id_generator m1 + 1)) m1).
  assert (m_id_generator m2 = m_id_generator m1 + 1) as Hid.
  { simpl. apply wrap_u64_small. unfold is_u64. lia. }
  assert (minv (k + 1) 0 (view m2)) as Hm3.
  { destruct Hm2 as [H0k H1 H2 H3 H4 H5 H6 H7 H8 H9 H10 H11 H12 H13 H14]. split; try done; simpl in *.
    - lia.
    - intros j d Hj. destruct (H3 j d Hj). split; [done|lia].
    - intros j d Hj. destruct (H4 j d Hj) as (? & ? & ?). split_and!; try done. lia. }
  destruct (Vm.acquire_insert_timestamp (call_now env) (m_vm m2)) as [vm [ts|e]] eqn:Eacq.
  2: { apply minv_release_gate; [|done]. apply acquire_insert_err in Eacq as ->. exact Hm3. }
  destruct (acquire_insert_ok _ _ _ _ (mi_vm _ _ _ Hm3) Eacq) as (A1 & A2 & A3 & A4 & A5).
  replace (m_id_generator m1) with (m_id_generator (set_vm vm m2) - 1)
    by (change (m_id_generator (set_vm vm m2)) with (m_id_generator m2); lia).
  pose proof (mi_vm _ _ _ Hm3) as [V1 _]. simpl in V1.
  apply minv_open_insert; try done.
  - apply (minv_vm (k + 1) 0 (view m2) (fun _ => vm)); [done|done|by apply (grows_acquire _ _ _ _ Eacq)|].
    intros j d _ _ _ Hpd. by apply A5.
  - simpl in *. lia.
  - simpl in *. lia.
  - intros j d Hj Hd. destruct (mi_id _ _ _ Hm2 j d Hj). destruct (mi_start _ _ _ Hm2 j d Hj Hd).
    simpl in *. lia.
  - intros j [[d Hj]|[d Hj]].
    + destruct (mi_id _ _ _ Hm2 j d Hj). simpl in *. lia.
    + destruct (mi_retired _ _ _ Hm2 j d Hj) as (? & ? & ?). simpl in *. lia.
Qed.


(** A reader or a checkpoint enters the table. *)
Lemma minv_admit_other k m vm c :
  minv k 0 (view m) -> m_id_generator m < U64_MAX -> core vm = core (m_vm m) ->
  xid c = m_id_generator m -> ~ is_write c -> state (x_life c) = Active ->
  commit_published (x_life c) = false -> pessimistic_lock_held (x_life c) = false ->
  (txn_type (x_const c) = TReadOnly -> start_timestamp (x_const c) <= read_ts vm) ->
  minv k 0 (view (enlist c (set_vm vm (take_id m).1))).
Proof.
  intros Hm Hr Hc Hi Hnw Hst Hp Hl Hrd. pose proof (mi_gen _ _ _ Hm) as Hg. simpl in Hg.
  assert (holds_slot c = false) as Hs.
  { unfold holds_slot. by rewrite bool_decide_eq_false_2. }
  assert (minv k 0 (vset_vm (fun _ => vm) (view m))) as Hm1.
  { apply minv_vm; [done|by apply (vm_ok_core (m_vm m)), (mi_vm _ _ _ Hm)| |].
    - by apply grows_core.
    - intros i d _ _ _ Hpd. by apply (pending_core (m_vm m)). }
  replace (view (enlist c (set_vm vm (take_id m).1))) with
    (mkView vm (m_config m) (<[xid c := c]> (m_active m)) (m_retired m) (m_id_generator m + 1)
       (m_gate m) (m_owner m)).
  2: { unfold view. simpl. rewrite wrap_u64_small; [done|]. unfold is_u64. lia. }
  apply (minv_insert k (vset_vm (fun _ => vm) (view m)) c (m_owner m)); try done.
  - rewrite Hs. simpl. by rewrite Z.add_0_r.
  - apply (mi_inflight _ _ _ Hm).
  - split; [by left|by rewrite Hs|done|by rewrite Hp|by rewrite Hst].
  - by rewrite Hl.
Qed.

Lemma minv_take_id k m :
  minv k 0 (view m) -> m_id_generator m < U64_MAX -> minv k 0 (view (take_id m).1).
Proof.
  intros [H0k H1 H2 H3 H4 H5 H6 H7 H8 H9 H10 H11 H12 H13 H14] Hr. simpl in *.
  assert (wrap_u64 (m_id_generator m + 1) = m_id_generator m + 1) as E.
  { apply wrap_u64_small. unfold is_u64. lia. }
  split; try done; simpl; rewrite ?E.
  - lia.
  - intros j d Hj. destruct (H3 j d Hj). split; [done|lia].
  - intros j d Hj. destruct (H4 j d Hj) as (? & ? & ?). split_and!; try done. lia.
Qed.

Lemma acquire_read_core now vm vm' r :
  Vm.acquire_read_round now vm = Some (vm', r) ->
  core vm' = core vm /\ forall ts, r = Ok ts -> ts = read_ts vm'.
Proof.
  unfold Vm.acquire_read_round. case_decide; [|done]. case_decide; [done|].
  rewrite Vm.track_ok. intros [= <- <-]. split; [done|]. by intros ts [= <-].
Qed.

Lemma minv_begin_read env k o m :
  minv k 0 (view m) -> room m -> minv k 0 (view (begin_read_transaction env o m).1).
Proof.
  intros Hm [Hr _]. unfold begin_read_transaction. destruct (m_shutdown m); [done|].
  set (m1 := maybe_cleanup_expired_transactions env m).
  pose proof (minv_cleanup env k m Hm : minv k 0 (view m1)) as Hm1.
  pose proof (room_cleanup env k m Hm Hr : m_id_generator m1 < U64_MAX) as Hr1.
  destruct (too_many m1); [done|].
  pose proof (minv_take_id k m1 Hm1 Hr1) as Hm2. unfold take_id in Hm2 |- *.
  set (m2 := set_id_generator _ m1) in *.
  destruct (Vm.acquire_read_round (call_now env) (m_vm m2)) as [[vm [ts|e]]|] eqn:E; [| |done].
  - apply acquire_read_core in E as [E Hts].
    apply (minv_admit_other k m1 vm); try done. intros _. simpl. rewrite (Hts ts eq_refl). lia.
  - apply acquire_read_core in E as [E _].
    apply (minv_vm k 0 (view m2) (fun _ => vm)); [done| | |].
    + apply (vm_ok_core (m_vm m2)); [done|]. apply (mi_vm _ _ _ Hm2).
    + by apply grows_core.
    + intros i d _ _ _ Hpd. by apply (pending_core (m_vm m2)).
Qed.

Lemma pause_writes_count g : active_writes (CkGate.pause_writes_and_drain g).1 = active_writes g.
Proof. unfold CkGate.pause_writes_and_drain. by case_decide. Qed.

Lemma minv_set_gate k g m :
  minv k 0 (view m) -> active_writes g = active_writes (m_gate m) -> minv k 0 (view (set_gate g m)).
Proof.
  intros Hm E. apply (minv_gate k k (view m) g); [done|apply (mi_inflight _ _ _ Hm)| |].
  - rewrite E. apply (mi_u64 _ _ _ Hm).
  - intros _. rewrite E. simpl. lia.
Qed.

Lemma minv_begin_checkpoint k m : minv k 0 (view m) -> minv k 0 (view (begin_checkpoint m).1).
Proof.
  intros Hm. unfold begin_checkpoint. destruct (in_memory _); [done|].
  pose proof (pause_writes_count (m_gate m)) as Hg.
  destruct (CkGate.pause_writes_and_drain (m_gate m)) as [g r]. by apply minv_set_gate.
Qed.

Lemma minv_begin_checkpoint_transaction env k m :
  minv k 0 (view m) -> room m -> minv k 0 (view (begin_checkpoint_transaction env m).1).
Proof.
  intros Hm [Hr _]. unfold begin_checkpoint_transaction. destruct (m_shutdown m); [done|].
  destruct (too_many m); [done|].
  pose proof (minv_begin_checkpoint k (set_commits 0 m) Hm) as Hm1.
  assert (m_id_generator (begin_checkpoint (set_commits 0 m)).1 = m_id_generator m) as Hg.
  { unfold begin_checkpoint. destruct (in_memory _); [done|].
    by destruct (CkGate.pause_writes_and_drain _). }
  destruct (begin_checkpoint _) as [m1 [[]|e]]; [|done]. cbn [fst] in *.
  pose proof (minv_admit_other k m1 (m_vm m1) (Ctx.new_checkpoint (m_id_generator m1)
    (Vm.write_timestamp (m_vm m1)) (call_now env) (txn_config (m_config m1)))) as Ha.
  unfold take_id in *. cbn [fst] in *. apply Ha; try done. by rewrite Hg.
Qed.


End inv.
End MgrInv.
