(* ===== verification/ManagerOutcome.v ===== *)
(** * Outcomes of a commit

    The view after each phase of [commit_transaction], composed into the list
    of outcomes of a whole commit of a write transaction. *)

From stdpp Require Import base gmap sets list strings.
From Stdlib Require Import ZArith Lia.
From S2P Require Import Prelude Types SnapshotTracker VersionManager Watermarks WriteSet Stats.
From S2P Require Import WalTypes Certifier UndoLog Journal Context Events CheckpointGate.
From S2P Require Import PendingRecovery Manager ManagerCommit ManagerFacts ManagerInv.

Module MgrOutcome.
Import Mgr MgrOps MgrFacts Slots MgrInv.
Section outcome.
Context {Value S Y : Type} `{CommitSink Value S} `{SyncPort Y}.
Abbreviation mgr := (TransactionManager Value S Y).
Abbreviation context := (TransactionContext Value).
Abbreviation held := (context * mgr)%type.
Implicit Types m : mgr.
Implicit Types c : context.
Implicit Types d : TransactionCommitDescriptor.

(** *** Composition *)

Lemma vput_log c c1 m : home c m -> log_only c c1 -> xid c1 = xid c.
Proof. intros _. apply log_only_xid. Qed.

(** The manager after a phase that only rewrites logs of its context. *)
Record log_step c m c1 m1 : Prop := {
  ls_log : log_only c c1;
  ls_view : view m1 = vput c1 (view m);
  ls_home : home c1 m1;
  ls_recovery : m_recovery m1 = m_recovery m;
}.

Lemma log_step_refl c m : home c m -> log_step c m c m.
Proof. intros Hh. split; [done|by rewrite vput_same|done|done]. Qed.

Lemma log_step_store c c1 m : home c m -> log_only c c1 -> log_step c m c1 (store c1 m).
Proof.
  intros Hh Hl. pose proof (log_only_xid c c1 Hl).
  split; [done|by apply (store_home c)|by apply (home_store c)|apply store_frame].
Qed.

(** *** The certifier *)

Lemma alter_some (f : context -> context) i (M : gmap Z context) c :
  M !! i = Some c -> alter f i M = <[i := f c]> M.
Proof.
  intros Hi. apply map_eq. intros j. destruct (decide (i = j)) as [<-|Hne].
  - by rewrite lookup_alter_eq, Hi, lookup_insert_eq.
  - by rewrite lookup_alter_ne, lookup_insert_ne.
Qed.

Lemma check_step env c m :
  home c m ->
  exists c1 m1 r, check_write_set_conflict env (c, m) = ((c1, m1), r) /\ log_step c m c1 m1 /\
    m_sink m1 = m_sink m.
Proof.
  intros Hh. unfold check_write_set_conflict, with_certifier. cbn [fst].
  pose proof (CertFacts.check_active (call_now env) (xid c)
    (mkEnv (m_cert m) (m_active m) (m_stats m))) as Ha. unfold xid in Ha.
  destruct (Certify.check_write_set_conflict _ _ _) as [e r]. cbn [fst ce_active] in Ha.
  eexists _, _, _. split; [reflexivity|]. split; [|done].
  destruct Ha as [-> | ->].
  - unfold home, xid in Hh. rewrite Hh. simpl. split; [done| |exact Hh|done].
    unfold vput, view. simpl. by rewrite insert_id.
  - unfold home, xid in Hh. rewrite lookup_alter_eq, Hh. simpl.
    rewrite (alter_some _ _ _ c Hh).
    split; [done|done| |done]. unfold home. simpl. by rewrite lookup_insert_eq.
Qed.

Lemma publish_step env c m i ts start ws :
  home c m ->
  exists m1 r, with_certifier (Certify.publish (call_now env) i ts start ws) (c, m) = ((c, m1), r) /\
    view m1 = view m /\ home c m1 /\ m_recovery m1 = m_recovery m /\ m_sink m1 = m_sink m.
Proof.
  intros Hh. unfold with_certifier.
  pose proof (CertFacts.publish_active (call_now env) i ts start ws
    (mkEnv (m_cert m) (m_active m) (m_stats m))) as Ha.
  destruct (Certify.publish _ _ _ _ _ _) as [e r]. cbn [fst ce_active] in Ha.
  eexists _, r. rewrite Ha. unfold home, xid in Hh. rewrite Hh. simpl.
  split; [reflexivity|]. by split_and!.
Qed.

(** *** In front of the WAL *)

(** A phase that aborted its transaction. *)
Record abort_step c m m1 : Prop := {
  as_retired : exists c', view m1 = vabort c c' (view m) /\ aborted c c';
  as_recovery : m_recovery m1 = m_recovery m;
}.

Lemma abort_and_fail_step {A} env e c m :
  home c m -> abortable c ->
  exists h, abort_and_fail (A := A) env e (c, m) = (h, Err e) /\ abort_step c m h.2.
Proof.
  intros Hh Ha. unfold abort_and_fail.
  destruct (abort_view env c m Hh Ha) as (c' & m' & r & E & Hv & Hab & _ & Hq & _). rewrite E.
  destruct r as [[]|e']; (eexists; split; [reflexivity|]); (split; [by exists c'|done]).
Qed.

Lemma abort_step_log c m c1 m1 m2 :
  home c m -> log_step c m c1 m1 -> abort_step c1 m1 m2 -> abort_step c m m2.
Proof.
  intros Hh [Hl Hv Hh1 Hq] [(c' & Hv2 & Hab) Hq2]. destruct Hab as [A1 A2 A3 A4].
  pose proof Hl as (L1 & L2 & L3). split; [|congruence]. exists c'. split.
  - rewrite Hv2, Hv. apply vabort_vput; [exact Hh|done|congruence].
  - split; congruence.
Qed.

(** Outcomes of [commit_prepare]. *)
Lemma prepare_cases env c m :
  home c m -> abortable c ->
  (exists c1 m1 e, commit_prepare env (c, m) = ((c1, m1), Err e) /\ log_step c m c1 m1) \/
  (exists h e, commit_prepare env (c, m) = (h, Err e) /\ state (x_life c) = Active /\
     abort_step c m h.2) \/
  (exists c1 m1, commit_prepare env (c, m) =
       ((Ctx.set_state Committing c1, store (Ctx.set_state Committing c1) m1), Ok tt) /\
     log_step c m c1 m1 /\ state (x_life c) = Active /\ txn_type (x_const c) <> TRecovery /\
     txn_type (x_const c) <> TDummy).
Proof.
  intros Hh Ha. unfold commit_prepare, st_bind, commit_admission. cbn [fst].
  destruct (can_commit (state (x_life c))) eqn:Ec; cbn [negb].
  2: { left. eexists c, m, _. split; [done|by apply log_step_refl]. }
  assert (state (x_life c) = Active) as Hst by (by destruct (state (x_life c))).
  destruct (rollback_only (x_life c)).
  { left. eexists c, m, _. split; [done|by apply log_step_refl]. }
  destruct (Ctx.check_timeouts (call_now env) c).
  2: { right; left. unfold st_bind, on_mgr. cbn [fst snd].
       destruct (abort_and_fail_step (A := unit) env TransactionTimeout c
         (set_stats (Stats.record_timeout (m_stats m)) m) Hh Ha) as (h & E & Hs).
       rewrite E. exists h, TransactionTimeout. split; [done|]. split; [done|].
       destruct Hs as [Hs1 Hs2]. by split. }
  unfold commit_certify. cbn [fst].
  assert (forall c1 m1, log_step c m c1 m1 ->
    (exists e, commit_decide (c1, m1) = ((c1, m1), Err e)) \/
    (commit_decide (c1, m1) = ((c1, m1), Ok tt) /\ txn_type (x_const c) <> TRecovery /\
     txn_type (x_const c) <> TDummy)) as Hdec.
  { intros c1 m1 [(Hk & _) _ _ _]. unfold commit_decide. rewrite Hk.
    destruct (bool_decide_reflect (txn_type (x_const c) = TRecovery)); [by left; eexists|].
    destruct (bool_decide_reflect (txn_type (x_const c) = TDummy)); [by left; eexists|].
    simpl. destruct (eval_commit_vetoes c1 m1); [left; by eexists|by right]. }
  assert (forall c1 m1, log_step c m c1 m1 ->
    on_ctx_st (Ctx.transition_to Committing) (c1, m1) =
    ((Ctx.set_state Committing c1, store (Ctx.set_state Committing c1) m1), Ok tt)) as Htr.
  { intros c1 m1 [(_ & Hl & _) _ _ _]. unfold on_ctx_st, Ctx.transition_to. cbn [fst snd].
    by rewrite Hl, Hst. }
  destruct (is_user_transaction (txn_type (x_const c))).
  - destruct (check_step env c m Hh) as (c1 & m1 & r & E & Hs & _). rewrite E.
    destruct r as [[]|e].
    + destruct (Hdec c1 m1 Hs) as [(e & ->)|(-> & T1 & T2)].
      * left. by eexists c1, m1, e.
      * right; right. exists c1, m1. rewrite (Htr c1 m1 Hs). by split_and!.
    + right; left.
      assert (abortable c1) as Ha1.
      { destruct Hs as [(_ & L2 & _) _ _ _]. unfold abortable. by rewrite L2. }
      destruct (abort_and_fail_step (A := unit) env e c1 m1 (ls_home _ _ _ _ Hs) Ha1)
        as (h & E2 & Hs2). rewrite E2. exists h, e. split; [done|]. split; [done|].
      by eapply abort_step_log.
  - pose proof (log_step_refl c m Hh) as Hs.
    destruct (Hdec c m Hs) as [(e & ->)|(-> & T1 & T2)].
    + left. by eexists c, m, e.
    + right; right. exists c, m. rewrite (Htr c m Hs). by split_and!.
Qed.

(** Outcomes of [commit_persist]. *)
Lemma persist_cases env d c m :
  home c m -> abortable c ->
  (exists c1 m1 lsn, commit_persist env d (c, m) = ((c1, m1), Ok lsn) /\ log_step c m c1 m1) \/
  (exists h, commit_persist env d (c, m) = (h, Err CommitFailed) /\ abort_step c m h.2).
Proof.
  intros Hh Ha. unfold commit_persist.
  destruct (is_user_transaction _); [|left; by eexists c, m, _; split; [|apply log_step_refl]].
  destruct (in_memory _).
  { left. unfold st_bind, on_ctx, st_ret. cbn [fst snd]. eexists _, _, _. split; [reflexivity|].
    by apply log_step_store. }
  destruct (m_sink m) as [s|]; [|left; by eexists c, m, _; split; [|apply log_step_refl]].
  destruct (retry _ _ s) as [s1 [lsn|e]].
  - left. eexists _, _, _. split; [reflexivity|]. split; [done|by rewrite vput_same|done|done].
  - right. destruct (abort_and_fail_step (A := CommitLsn) env CommitFailed c
      (set_sink (Some s1) m) Hh Ha) as (h & E & [Hs1 Hs2]). exists h. split; [exact E|]. by split.
Qed.

(** *** Behind the WAL, for a writer *)

Definition start c : Timestamp := start_timestamp (x_const c).

Definition reserves env m c (vm : VersionManager) (ts : Timestamp) : Prop :=
  Vm.reserve_commit_timestamp (call_now env) (start c) (m_vm m) = (vm, Ok ts).

(** The view once the lease is back and the commit timestamp reserved. *)
Definition vreserved c (vm : VersionManager) (v : View Value) : View Value :=
  vset_vm (fun _ => vm) (vput (mark_released c) (vrelease c v)).

Lemma record_unfinalized_view env d ts lsn c m :
  exists m', record_unfinalized env d ts lsn (c, m) = ((c, m'), Ok tt) /\ view m' = view m /\
    m_recovery m' = Pending.record (call_persist env) d ts lsn (m_recovery m).
Proof.
  unfold record_unfinalized, on_mgr. cbn [fst snd]. eexists. split; [reflexivity|].
  split; [by rewrite emit_view|]. by rewrite (proj1 (emit_frame _ _)).
Qed.

Lemma reserve_cases env d lsn c m :
  home c m -> is_write c ->
  (exists m1 vm ts, commit_reserve env d lsn (c, m) = ((mark_released c, m1), Ok ts) /\
     reserves env m c vm ts /\ view m1 = vreserved c vm (view m) /\ home (mark_released c) m1 /\
     m_recovery m1 = m_recovery m) \/
  (exists m1 e, commit_reserve env d lsn (c, m) = ((mark_released c, m1), Err CommitFailed) /\
     Vm.reserve_commit_timestamp (call_now env) (start c) (m_vm m) = (m_vm m, Err e) /\
     view m1 = vput (mark_released c) (vrelease c (view m)) /\
     m_recovery m1 = Pending.record (call_persist env) d 0 lsn (m_recovery m)).
Proof.
  intros Hh Hw. unfold commit_reserve, reserves. cbn [fst]. rewrite Hw.
  unfold st_bind, on_mgr, on_vm. cbn [fst snd]. set (m0 := prune_committed_write_sets _ m).
  destruct (release_lease_view c m0 Hh) as (m1 & b & E & Hv & Hh1 & Hq1 & _).
  rewrite E. cbn [fst snd].
  assert (m_vm m1 = m_vm m) as Evm.
  { change (m_vm m1) with (v_vm (view m1)). rewrite Hv. unfold vput, vrelease. by destruct (holds_slot c). }
  rewrite Evm. fold (start c).
  destruct (Vm.reserve_commit_timestamp _ (start c) (m_vm m)) as [vm [ts|e]] eqn:Er.
  - left. eexists _, vm, ts. split; [reflexivity|]. split; [done|].
    split; [|split; [exact Hh1|exact Hq1]].
    change (view (set_vm vm m1)) with (vset_vm (fun _ => vm) (view m1)). by rewrite Hv.
  - right. pose proof (reserve_commit_err _ _ _ _ _ Er) as ->.
    destruct (record_unfinalized_view env d 0 lsn (mark_released c) (set_vm (m_vm m) m1))
      as (m2 & E2 & Hv2 & Hq2).
    rewrite E2. eexists _, e. split; [reflexivity|]. split; [done|].
    split; [|by rewrite Hq2; simpl; rewrite Hq1].
    rewrite Hv2. change (view (set_vm (m_vm m) m1)) with (vset_vm (fun _ => m_vm m) (view m1)).
    rewrite Hv. unfold vset_vm, vput, vrelease. by destruct (holds_slot c).
Qed.

Lemma review_cases env d ts c m :
  home c m -> is_write c -> abortable c ->
  (exists m1, commit_review env d ts (c, m) = ((c, m1), Ok tt) /\ view m1 = view m /\ home c m1 /\
     m_recovery m1 = m_recovery m) \/
  (exists h e c', commit_review env d ts (c, m) = (h, Err e) /\
     view h.2 = vabort c c' (vset_vm (Vm.abort_write_timestamp ts) (view m)) /\ aborted c c' /\
     m_recovery h.2 = m_recovery m).
Proof.
  intros Hh Hw Ha. unfold commit_review, needs_commit_ts. cbn [fst].
  rewrite bool_decide_eq_true_2 by exact Hw. cbn [negb].
  destruct (Ws.is_empty (d_write_set d)).
  { left. eexists. split; [reflexivity|]. by split_and!. }
  destruct (publish_step env c m (id (x_const c)) ts (start_timestamp (x_const c)) (d_write_set d) Hh)
    as (m1 & r & E & Hv & Hh1 & Hq & _). rewrite E. destruct r as [[]|e].
  { left. exists m1. by split_and!. }
  right. unfold st_bind, on_mgr. cbn [fst snd].
  set (m2 := set_vm (Vm.abort_write_timestamp ts (m_vm m1)) m1).
  destruct (abort_and_fail_step (A := unit) env e c m2 Hh1 Ha) as (h & E2 & [(c' & Hv2 & Hab) Hq2]).
  exists h, e, c'. split; [exact E2|].
  split; [|split; [done|by rewrite Hq2; simpl]]. rewrite Hv2.
  change (view m2) with (vset_vm (Vm.abort_write_timestamp ts) (view m1)). by rewrite Hv.
Qed.

Lemma finalize_cases env d lsn ts c m :
  home c m -> is_write c -> 0 < ts ->
  (exists m1, commit_finalize env d lsn ts (c, m) = ((c, m1), Ok tt) /\ view m1 = view m /\
     home c m1 /\ m_recovery m1 = m_recovery m) \/
  (exists m1, commit_finalize env d lsn ts (c, m) = ((c, m1), Err CommitFailed) /\
     view m1 = vset_vm (fun vm => Vm.abort_write_timestamp ts
                          (Vm.abort_write_timestamp (start c) vm)) (view m) /\
     m_recovery m1 = Pending.record (call_persist env) d 0 lsn (m_recovery m)).
Proof.
  intros Hh Hw Hts. unfold commit_finalize.
  destruct (is_user_transaction _ && _); [|left; exists m; by split_and!].
  unfold finalize_sink. destruct (m_sink m) as [s|]; [|left; exists m; by split_and!].
  destruct (retry _ _ s) as [s1 [[]|e]]; cbn [map_err].
  { left. eexists. split; [reflexivity|]. by split_and!. }
  right. destruct (record_unfinalized_view env d 0 lsn c (set_sink (Some s1) m))
    as (m2 & E2 & Hv2 & Hq2).
  unfold st_bind at 1. rewrite E2. rewrite decide_True by lia.
  unfold st_bind, on_mgr, st_err. cbn [fst snd]. eexists. split; [reflexivity|].
  split; [|exact Hq2].
  change (view (set_sink (Some s1) m)) with (view m) in Hv2. rewrite <- Hv2. done.
Qed.

(** The context of a published commit. *)
Definition stamped (ts : Timestamp) c : context :=
  Ctx.publish_commit_timestamp ts (Ctx.set_commit_timestamp ts c).

Lemma settle_view env ts c m :
  home c m -> is_write c ->
  exists m1, commit_settle env ts (c, m) = ((unpinned (stamped ts c), m1), Ok tt) /\
    view m1 = vset_vm (fun vm => unpin c (Vm.publish_reserved_commit (call_now env) (start c) ts vm))
      (vput (unpinned (stamped ts c)) (view m)) /\
    home (unpinned (stamped ts c)) m1 /\ m_recovery m1 = m_recovery m.
Proof.
  intros Hh Hw. unfold commit_settle, needs_commit_ts. cbn [fst].
  rewrite bool_decide_eq_true_2 by exact Hw. unfold st_bind, on_mgr, on_ctx. cbn [fst snd].
  set (m0 := set_vm _ m). set (c1 := Ctx.set_commit_timestamp ts c).
  assert (home c m0) as Hh0 by exact Hh.
  pose proof (home_store c c1 m0 Hh0 eq_refl) as Hh1.
  pose proof (store_home c c1 m0 Hh0 eq_refl) as Hv1.
  fold (stamped ts c). set (c2 := stamped ts c). 
  change (Ctx.publish_commit_timestamp ts c1) with c2.
  pose proof (home_store c1 c2 _ Hh1 eq_refl) as Hh2.
  pose proof (store_home c1 c2 _ Hh1 eq_refl) as Hv2.
  destruct (release_pin_view c2 _ Hh2) as (m1 & E & Hv & Hh3 & Hq & _). rewrite E.
  exists m1. split; [done|]. split; [|split; [done|]].
  - rewrite Hv, Hv2, Hv1, !vput_vput by done. reflexivity.
  - rewrite Hq, (proj1 (store_frame c2 _)), (proj1 (store_frame c1 _)). done.
Qed.

Lemma retire_view c m :
  gone c m -> forall v, view m = vretire c v ->
  exists c1 m1, drain_context_budget_warnings (c, m) = ((c1, m1), Ok tt) /\
    view m1 = vretire c1 v /\ x_const c1 = x_const c /\ x_life c1 = x_life c /\ gone c1 m1 /\
    m_recovery m1 = m_recovery m.
Proof.
  intros Hg v Hv. unfold drain_context_budget_warnings, Ctx.drain_budget_warnings. cbn [fst snd].
  set (c1 := Ctx.on_budget _ c). 
  destruct (store_retired c c1 m v Hg eq_refl Hv) as [Hv1 Hg1].
  eexists c1, _. split; [reflexivity|]. rewrite emit_fold_view. split; [done|]. split; [done|].
  split; [done|]. split; [eapply view_gone; [apply emit_fold_view|done]|].
  assert (forall evs x, m_recovery (fold_left (fun m ev => emit ev m) evs x) = m_recovery x) as Hf.
  { induction evs as [|ev evs IH]; intros x; simpl; [done|].
    by rewrite IH, (proj1 (emit_frame ev x)). }
  rewrite Hf. by rewrite (proj1 (store_frame c1 m)).
Qed.

Lemma clear_undo_twice_log env c : log_only c (clear_undo_twice env c).1.
Proof.
  unfold clear_undo_twice, Ctx.clear_undo_logs. destruct (UndoLog.clear (call_io env) _) as [u [[]|]];
    simpl; [done|]. by destruct (UndoLog.clear (call_io_retry env) u).
Qed.

(** The end of a commit: the context leaves the table, committed, or queued for
    the cleanup of its undo log. *)
Lemma complete_cases env d ts lsn c m :
  home c m -> state (x_life c) = Committing ->
  exists c1 m1, commit_complete env d ts lsn (c, m) = ((c1, m1), Ok tt) /\
    view m1 = vretire c1 (view m) /\ x_const c1 = x_const c /\
    commit_timestamp (x_life c1) = commit_timestamp (x_life c) /\
    commit_published (x_life c1) = commit_published (x_life c) /\
    ((state (x_life c1) = Committed /\ m_recovery m1 = m_recovery m) \/
     (state (x_life c1) = Committing /\
      m_recovery m1 = Pending.record (call_persist env) d ts lsn (m_recovery m))).
Proof.
  intros Hh Hst. unfold commit_complete, on_ctx_st. cbn [fst snd].
  pose proof (clear_undo_twice_log env c) as Hl. destruct (clear_undo_twice env c) as [c1 r].
  cbn [fst] in Hl. pose proof (log_step_store c c1 m Hh Hl) as [_ Hv1 Hh1 Hq1].
  pose proof Hl as (L1 & L2 & L3). set (m1 := store c1 m) in *.
  assert (forall c2 v, xid c2 = xid c -> vretire c2 (vput c1 v) = vretire c2 v) as Hvr.
  { intros c2 v E. unfold vretire, vput. cbn [v_vm v_config v_active v_retired v_gen v_gate v_owner].
    rewrite (log_only_xid _ _ Hl), E. by rewrite delete_insert_eq. }
  destruct r as [[]|e].
  - unfold st_bind. cbn [fst snd]. unfold Ctx.transition_to. rewrite L2, Hst.
    cbn [Ctx.valid_transition]. set (c2 := Ctx.set_state Committed c1).
    pose proof (home_store c1 c2 m1 Hh1 eq_refl) as Hh2.
    pose proof (store_home c1 c2 m1 Hh1 eq_refl) as Hv2.
    unfold retire_committed, st_bind, on_mgr, st_ret. cbn [fst snd].
    destruct (remove_view c2 (store c2 m1) Hh2) as (Hv3 & Hg3 & Hq3 & _).
    change (id (x_const c2)) with (xid c2). 
    set (m3 := (release_long_read (xid c2) (remove_active (xid c2) (store c2 m1))).1).
    destruct (retire_view c2 m3 Hg3 _ Hv3) as (c4 & m4 & E4 & Hv4 & K4 & L4 & Hg4 & Hq4).
    rewrite E4. unfold emit_committed, on_mgr. cbn [fst snd].
    eexists c4, _. split; [reflexivity|].
    set (m5 := if decide (txn_callback_count m4 <> 0) then _ else m4).
    assert (view m5 = view m4 /\ m_recovery m5 = m_recovery m4) as [Hv5 Hq5].
    { unfold m5. case_decide; [|done]. split; [apply emit_view|apply emit_frame]. }
    set (m6 := if decide (txn_type (x_const c1) = TWrite) then _ else m5).
    assert (view m6 = view m5 /\ m_recovery m6 = m_recovery m5) as [Hv6 Hq6]
      by (unfold m6; by case_decide).
    assert (view (offer_checkpoint c1 m6) = view m6 /\
            m_recovery (offer_checkpoint c1 m6) = m_recovery m6) as [Hv7 Hq7].
    { unfold offer_checkpoint. destruct (_ && _); [|done]. by destruct (m_sink m6). }
    split; [|split; [exact (eq_trans K4 L1)|split; [by rewrite L4; simpl; rewrite L2|
      split; [by rewrite L4; simpl; rewrite L2|left; split; [by rewrite L4|]]]]].
    + rewrite Hv7, Hv6, Hv5, Hv4, Hv2, Hv1. rewrite vput_vput by done.
      unfold vretire, vput. cbn [v_vm v_config v_active v_retired v_gen v_gate v_owner].
      assert (xid c4 = xid c2) as -> by (unfold xid; by rewrite K4). by rewrite delete_insert_eq.
    + rewrite Hq7, Hq6, Hq5, Hq4. change (m_recovery m3) with (m_recovery (remove_active (xid c2) (store c2 m1))).
      by rewrite Hq3, (proj1 (store_frame c2 m1)).
  - unfold st_bind, on_mgr. cbn [fst snd].
    set (m2 := set_recovery _ m1). assert (home c1 m2) as Hh2 by exact Hh1.
    change (id (x_const c)) with (xid c). rewrite <- (log_only_xid _ _ Hl).
    destruct (remove_view c1 m2 Hh2) as (Hv3 & Hg3 & Hq3 & _).
    eexists c1, _. split; [reflexivity|]. rewrite emit_view, (proj1 (emit_frame _ _)).
    change (view (release_long_read (xid c1) (remove_active (xid c1) m2)).1) with
      (view (remove_active (xid c1) m2)).
    change (m_recovery (release_long_read (xid c1) (remove_active (xid c1) m2)).1) with
      (m_recovery (remove_active (xid c1) m2)).
    rewrite Hv3, Hq3. change (view m2) with (view m1). rewrite Hv1.
    split; [apply Hvr, (log_only_xid _ _ Hl)|]. split; [done|].
    split; [by rewrite L2|]. split; [by rewrite L2|]. right. split; [by rewrite L2|].
    simpl. by rewrite Hq1.
Qed.


(** *** The whole commit of a writer *)

(** Same identity, same resources. *)
Record same_hold c c1 : Prop := {
  sh_const : x_const c1 = x_const c;
  sh_snap : x_snap c1 = x_snap c;
  sh_released : resources_released (x_life c1) = resources_released (x_life c);
  sh_lock : pessimistic_lock_held (x_life c1) = pessimistic_lock_held (x_life c);
  sh_published : commit_published (x_life c1) = commit_published (x_life c);
  sh_stamp : commit_timestamp (x_life c1) = commit_timestamp (x_life c);
}.

Lemma log_same_hold c c1 : log_only c c1 -> same_hold c c1.
Proof. intros (E1 & E2 & E3). split; congruence. Qed.

Lemma same_hold_trans c1 c2 c3 : same_hold c1 c2 -> same_hold c2 c3 -> same_hold c1 c3.
Proof. intros [] []. split; congruence. Qed.

Lemma same_hold_xid c c1 : same_hold c c1 -> xid c1 = xid c.
Proof. intros [E _ _ _ _ _]. unfold xid. by rewrite E. Qed.

Lemma vrelease_same c c1 v : same_hold c c1 -> vrelease c1 (vput c1 v) = vput c1 (vrelease c v).
Proof.
  intros [E1 E2 E3 E4 _ _]. unfold vrelease, holds_slot, vput. rewrite E1, E3, E4.
  by destruct (_ && _).
Qed.

Lemma vabort_same c c1 c' v :
  same_hold c c1 -> x_const c' = x_const c -> vabort c1 c' (vput c1 v) = vabort c c' v.
Proof.
  intros [E1 E2 E3 E4 _ _] Hk. unfold vabort, vretire, vset_vm, vrelease, holds_slot, vput, unpin,
    rollback_context_timestamp, xid. rewrite E1, E2, E3, E4, Hk.
  destruct (_ && _); simpl; by rewrite delete_insert_eq.
Qed.

Lemma abort_step_same c m c1 m1 m2 :
  same_hold c c1 -> view m1 = vput c1 (view m) -> m_recovery m1 = m_recovery m ->
  abort_step c1 m1 m2 -> abort_step c m m2.
Proof.
  intros Hs Hv Hq [(c' & Hv2 & [A1 A2 A3 A4]) Hq2]. split; [|congruence]. exists c'.
  pose proof Hs as [E1 E2 E3 E4 E5 E6]. split.
  - rewrite Hv2, Hv. apply vabort_same; [done|congruence].
  - split; congruence.
Qed.

(** A commit that reached the WAL and did not become visible stays in the
    table. *)
Record unfinished c c1 (published : bool) : Prop := {
  uf_const : x_const c1 = x_const c;
  uf_state : state (x_life c1) = Committing;
  uf_released : resources_released (x_life c1) = true;
  uf_published : commit_published (x_life c1) = published;
}.

(** What a commit of the writer [c] may do to the manager [m]. *)
Inductive commit_outcome env m c : mgr -> result unit TransactionError -> Prop :=
(** refused in front of the WAL (state, veto): nothing but logs changed *)
| co_refused c1 m' e :
    log_only c c1 -> view m' = vput c1 (view m) -> m_recovery m' = m_recovery m ->
    commit_outcome env m c m' (Err e)
(** aborted: timeout, conflict, or the WAL write failed *)
| co_aborted m' e : abort_step c m m' -> commit_outcome env m c m' (Err e)
(** aborted by the final review, with its reserved timestamp *)
| co_reviewed c' m' e vm ts :
    reserves env m c vm ts -> aborted c c' ->
    view m' = vretire c' (vset_vm (fun _ =>
      unpin c (rollback_context_timestamp c (Vm.abort_write_timestamp ts vm)))
      (vrelease c (view m))) ->
    m_recovery m' = m_recovery m -> commit_outcome env m c m' (Err e)
(** in the WAL, without a commit timestamp *)
| co_unreserved c1 m' d lsn e :
    Vm.reserve_commit_timestamp (call_now env) (start c) (m_vm m) = (m_vm m, Err e) ->
    unfinished c c1 false -> d_transaction_id d = xid c ->
    view m' = vput c1 (vrelease c (view m)) ->
    m_recovery m' = Pending.record (call_persist env) d 0 lsn (m_recovery m) ->
    commit_outcome env m c m' (Err CommitFailed)
(** in the WAL, not finalized by storage *)
| co_unfinalized c1 m' d lsn vm ts :
    reserves env m c vm ts -> unfinished c c1 true -> d_transaction_id d = xid c ->
    commit_timestamp (x_life c1) = commit_timestamp (x_life c) ->
    view m' = vset_vm (fun _ => Vm.abort_write_timestamp ts (Vm.abort_write_timestamp (start c) vm))
      (vput c1 (vrelease c (view m))) ->
    m_recovery m' = Pending.record (call_persist env) d 0 lsn (m_recovery m) ->
    commit_outcome env m c m' (Err CommitFailed)
(** committed and visible; the undo log may still await its cleanup *)
| co_committed c' m' d lsn vm ts :
    reserves env m c vm ts -> x_const c' = x_const c ->
    commit_timestamp (x_life c') = ts -> commit_published (x_life c') = true ->
    d_transaction_id d = xid c ->
    view m' = vretire c' (vset_vm (fun _ =>
      unpin c (Vm.publish_reserved_commit (call_now env) (start c) ts vm)) (vrelease c (view m))) ->
    ((state (x_life c') = Committed /\ m_recovery m' = m_recovery m) \/
     (state (x_life c') = Committing /\
      m_recovery m' = Pending.record (call_persist env) d ts lsn (m_recovery m))) ->
    commit_outcome env m c m' (Ok tt).

(** The context of the commit once its lease is back. *)
Lemma same_hold_released c c1 :
  same_hold c c1 -> state (x_life c1) = Committing -> commit_published (x_life c) = false ->
  unfinished c (mark_released c1) false.
Proof. intros [E1 E2 E3 E4 E5 _] Hs Hp. split; simpl; congruence. Qed.

(** The final review refused the commit: seen from the start of the commit. *)
Lemma reviewed_outcome env m0 c0 c m1 m' c' vm ts e :
  same_hold c0 c -> reserves env m0 c0 vm ts ->
  view m1 = vset_vm (fun _ => vm) (vput (mark_released c) (vrelease c0 (view m0))) ->
  m_recovery m' = m_recovery m0 ->
  view m' = vabort (mark_released c) c' (vset_vm (Vm.abort_write_timestamp ts) (view m1)) ->
  aborted (mark_released c) c' -> commit_outcome env m0 c0 m' (Err e).
Proof.
  intros [E1 E2 E3 E4 E5 E6] Hres Hv1 Hq Hv2 [A1 A2 A3 A4].
  apply (co_reviewed _ _ _ c' m' e vm ts Hres); [|rewrite Hv2, Hv1|done].
  - split; [exact (eq_trans A1 E1)|done|done|]. rewrite A4. exact E5.
  - assert (xid c' = xid c0) as Hx by (unfold xid; by rewrite A1; simpl; rewrite E1).
    unfold vabort, vrelease at 1.
    assert (holds_slot (mark_released c) = false) as ->
      by (unfold holds_slot; simpl; apply andb_false_r).
    unfold vretire, vset_vm, vput. cbn [v_vm v_config v_active v_retired v_gen v_gate v_owner].
    assert (xid (mark_released c) = xid c0) as -> by (unfold xid; simpl; by rewrite E1).
    rewrite Hx, delete_insert_eq. unfold unpin, rollback_context_timestamp.
    simpl x_snap. simpl x_const. by rewrite E1, E2.
Qed.

(** From the published mark on. *)
Lemma finish_outcome env d lsn m0 c0 c2 m3 vm ts :
  home c2 m3 -> is_write c0 -> 0 < ts -> reserves env m0 c0 vm ts ->
  x_const c2 = x_const c0 -> x_snap c2 = x_snap c0 ->
  unfinished c0 c2 true -> commit_timestamp (x_life c2) = commit_timestamp (x_life c0) ->
  d_transaction_id d = xid c0 ->
  view m3 = vset_vm (fun _ => vm) (vput c2 (vrelease c0 (view m0))) ->
  m_recovery m3 = m_recovery m0 ->
  exists h r,
    (do! commit_finalize env d lsn ts in
     do! commit_settle env ts in
     commit_complete env (Descriptor.set_commit_timestamp ts d) ts lsn) (c2, m3) = (h, r) /\
    commit_outcome env m0 c0 h.2 r.
Proof.
  intros Hh3 Hw Hts Hres K2 Hsn Huf Hstamp Hd Hv3 Hq3.
  assert (is_write c2) as Hw2 by (unfold is_write; by rewrite K2).
  assert (start c2 = start c0) as Hs2 by (unfold start; by rewrite K2).
  unfold st_bind at 1.
  destruct (finalize_cases env d lsn ts c2 m3 Hh3 Hw2 Hts)
    as [(m4 & Ef & Hv4 & Hh4 & Hq4)|(m4 & Ef & Hv4 & Hq4)]; rewrite Ef.
  2: { eexists _, _. split; [reflexivity|].
       apply (co_unfinalized _ _ _ c2 m4 d lsn vm ts Hres); [done|done|done| |by rewrite Hq4, Hq3].
       rewrite Hv4, Hv3, Hs2. done. }
  unfold st_bind at 1.
  destruct (settle_view env ts c2 m4 Hh4 Hw2) as (m5 & Es & Hv5 & Hh5 & Hq5). rewrite Es.
  set (c5 := unpinned (stamped ts c2)) in *.
  destruct (complete_cases env (Descriptor.set_commit_timestamp ts d) ts lsn c5 m5 Hh5)
    as (c6 & m6 & Ec & Hv6 & K6 & T6 & P6 & R6); [exact (uf_state _ _ _ Huf)|]. rewrite Ec.
  eexists _, _. split; [reflexivity|].
  apply (co_committed _ _ _ c6 m6 (Descriptor.set_commit_timestamp ts d) lsn vm ts Hres).
  - exact (eq_trans K6 K2).
  - by rewrite T6.
  - rewrite P6. exact (uf_published _ _ _ Huf).
  - done.
  - cbn [snd]. rewrite Hv6, Hv5, Hv4, Hv3, Hs2.
    assert (xid c6 = xid c0) as Hx by (unfold xid; rewrite K6; simpl; by rewrite K2).
    unfold vretire, vset_vm, vput. cbn [v_vm v_config v_active v_retired v_gen v_gate v_owner].
    assert (xid c5 = xid c0) as -> by (unfold c5, xid; simpl; by rewrite K2).
    assert (xid c2 = xid c0) as -> by (unfold xid; by rewrite K2).
    rewrite Hx, !delete_insert_eq. unfold unpin. by rewrite Hsn.
  - cbn [snd]. destruct R6 as [[S6 R6]|[S6 R6]]; [left|right]; (split; [done|]);
      rewrite R6, Hq5, Hq4; [done|by rewrite Hq3].
Qed.

Lemma commit_publish_cases env d lsn m0 c0 c m :
  same_hold c0 c -> state (x_life c) = Committing -> commit_published (x_life c0) = false ->
  home c m -> is_write c0 -> vm_ok (m_vm m0) -> d_transaction_id d = xid c0 ->
  view m = vput c (view m0) -> m_recovery m = m_recovery m0 ->
  exists h r, commit_publish env d lsn (c, m) = (h, r) /\ commit_outcome env m0 c0 h.2 r.
Proof.
  intros Hsh Hst Hnp Hh Hw Hok Hd Hv Hq. pose proof Hsh as [E1 E2 E3 E4 E5 E6].
  assert (is_write c) as Hwc by (unfold is_write; by rewrite E1).
  assert (start c = start c0) as Hstart by (unfold start; by rewrite E1).
  assert (m_vm m = m_vm m0) as Hvm by (change (v_vm (view m) = m_vm m0); by rewrite Hv).
  unfold commit_publish, st_bind at 1.
  destruct (reserve_cases env d lsn c m Hh Hwc)
    as [(m1 & vm & ts & Er & Hres & Hv1 & Hh1 & Hq1)|(m1 & e & Er & Hres & Hv1 & Hq1)]; rewrite Er.
  2: { eexists _, _. split; [reflexivity|]. rewrite Hvm, Hstart in Hres.
       apply (co_unreserved _ _ _ (mark_released c) m1 d lsn e); [done|by apply same_hold_released|done| |].
       - rewrite Hv1, Hv, (vrelease_same c0 c _ Hsh). by rewrite vput_vput.
       - by rewrite Hq1, Hq. }
  set (c1 := mark_released c) in *.
  assert (reserves env m0 c0 vm ts) as Hres0 by (unfold reserves in *; by rewrite <- Hvm, <- Hstart).
  assert (0 < ts) as Hts.
  { unfold reserves in Hres0. destruct (reserve_commit_ok _ _ _ _ _ Hok Hres0) as (_ & -> & _).
    destruct Hok. lia. }
  assert (view m1 = vset_vm (fun _ => vm) (vput c1 (vrelease c0 (view m0)))) as Hv1'.
  { rewrite Hv1. unfold vreserved. rewrite Hv, (vrelease_same c0 c _ Hsh). by rewrite vput_vput. }
  assert (abortable c1) as Ha1 by (split; [simpl; congruence|right; exact Hst]).
  unfold st_bind at 1.
  destruct (review_cases env d ts c1 m1 Hh1 Hwc Ha1)
    as [(m2 & Ev & Hv2 & Hh2 & Hq2)|(h & e & c' & Ev & Hv2 & Hab & Hq2)]; rewrite Ev.
  2: { eexists _, _. split; [reflexivity|].
       apply (reviewed_outcome env m0 c0 c m1 h.2 c' vm ts e); try done. by rewrite Hq2, Hq1, Hq. }
  unfold st_bind at 1, on_ctx at 1. cbn [fst snd]. set (c2 := Ctx.mark_commit_published lsn c1).
  apply (finish_outcome env d lsn m0 c0 c2 (store c2 m2) vm ts);
    [by apply (home_store c1)|done|done|done|exact E1|exact E2| |exact E6|done| |].
  - split; [exact E1|exact Hst|done|done].
  - rewrite (store_home c1 c2 m2 Hh2 eq_refl), Hv2, Hv1'. unfold vset_vm, vput.
    cbn [v_vm v_config v_active v_retired v_gen v_gate v_owner].
    change (xid c2) with (xid c1). by rewrite insert_insert_eq.
  - rewrite (proj1 (store_frame c2 m2)). congruence.
Qed.

Lemma refused_not_active env c m :
  state (x_life c) <> Active -> exists e, commit_body env (c, m) = ((c, m), Err e).
Proof.
  intros Hs. unfold commit_body, commit_prepare, st_bind, commit_admission. cbn [fst].
  destruct (state (x_life c)); try done; by eexists.
Qed.

(** A commit up to the WAL: refused, aborted, or continued behind the WAL with
    a context that holds what it held. *)
Lemma body_cases env c m :
  home c m -> abortable c -> state (x_life c) = Active ->
  (exists c1 m1 e, commit_body env (c, m) = ((c1, m1), Err e) /\ log_step c m c1 m1) \/
  (exists h e, commit_body env (c, m) = (h, Err e) /\ abort_step c m h.2) \/
  (exists c3 m3 d lsn, commit_body env (c, m) = commit_publish env d lsn (c3, m3) /\
     same_hold c c3 /\ state (x_life c3) = Committing /\ home c3 m3 /\
     d_transaction_id d = xid c /\ view m3 = vput c3 (view m) /\ m_recovery m3 = m_recovery m).
Proof.
  intros Hh Ha Hst. unfold commit_body. unfold st_bind at 1 4 7.
  destruct (prepare_cases env c m Hh Ha)
    as [(c1 & m1 & e & E & Hs)|[(h & e & E & _ & Hs)|(c1 & m1 & E & [L1 L2 L3 L4] & _)]]; rewrite E.
  - left. by exists c1, m1, e.
  - right; left. by exists h, e.
  - unfold st_bind, st_get. cbn [fst snd].
    set (c2 := Ctx.set_state Committing c1). set (m2 := store c2 m1).
    set (d := Descriptor.build_commit_descriptor c2).
    pose proof (home_store c1 c2 m1 L3 eq_refl : home c2 m2) as Hh2.
    pose proof (store_home c1 c2 m1 L3 eq_refl : view m2 = _) as Hv2.
    assert (m_recovery m2 = m_recovery m) as Hq2.
    { unfold m2. by rewrite (proj1 (store_frame c2 m1)). }
    assert (same_hold c c2) as Hs2 by (destruct (log_same_hold c c1 L1); by split).
    assert (view m2 = vput c2 (view m)) as Hv2'.
    { rewrite Hv2, L2. apply vput_vput. reflexivity. }
    assert (abortable c2) as Ha2.
    { split; [rewrite (sh_published _ _ Hs2); apply Ha|by right]. }
    destruct (persist_cases env d c2 m2 Hh2 Ha2)
      as [(c3 & m3 & lsn & E3 & [P1 P2 P3 P4])|(h & E3 & Hs3)]; rewrite E3; right.
    + right. exists c3, m3, d, lsn. split; [done|].
      split; [eapply same_hold_trans; [exact Hs2|by apply log_same_hold]|].
      split; [by destruct P1 as (_ & -> & _)|]. split; [done|].
      split; [exact (same_hold_xid c c2 Hs2)|]. split; [|congruence].
      rewrite P2, Hv2'. apply vput_vput. by apply log_only_xid.
    + left. exists h, CommitFailed. split; [done|]. by apply (abort_step_same c m c2 m2).
Qed.

Lemma active_unpublished vm c :
  live_ok vm c -> state (x_life c) = Active -> commit_published (x_life c) = false.
Proof.
  intros Hl Hst. destruct (commit_published (x_life c)) eqn:E; [|done].
  pose proof (lo_published _ _ Hl E). congruence.
Qed.

(** Every commit of a writer has one of the listed outcomes. *)
Lemma commit_write_cases env m i c m' r :
  m_active m !! i = Some c -> xid c = i -> is_write c -> vm_ok (m_vm m) -> live_ok (m_vm m) c ->
  commit_transaction env i m = (m', r) -> commit_outcome env m c m' r.
Proof.
  intros Hi Hid Hw Hok Hl. unfold commit_transaction. rewrite Hi.
  assert (home c m) as Hh by (unfold home; by rewrite Hid).
  destruct (decide (state (x_life c) = Active)) as [Hst|Hst].
  2: { destruct (refused_not_active env c m Hst) as (e & ->). intros [= <- <-].
       apply (co_refused _ _ _ c m e); [done|by rewrite vput_same|done]. }
  pose proof (active_unpublished _ c Hl Hst) as Hnp.
  destruct (body_cases env c m Hh) as [(c1 & m1 & e & -> & [L1 L2 L3 L4])|[(h & e & -> & Hs)
    |(c3 & m3 & d & lsn & -> & Hs & Hst3 & Hh3 & Hd & Hv3 & Hq3)]]; [by split; auto|done| | |].
  - intros [= <- <-]. by apply (co_refused _ _ _ c1 m1 e).
  - intros [= <- <-]. by apply co_aborted.
  - destruct (commit_publish_cases env d lsn m c c3 m3) as (h & r0 & E4 & Ho); try done.
    rewrite E4. by intros [= <- <-].
Qed.

End outcome.
End MgrOutcome.
