(* ===== verification/ManagerReach.v ===== *)
(** * Calls of the transaction manager preserve its invariant

    [minv] of [ManagerInv] over commits, re-drives, statements, savepoints,
    leases and checkpoints, and by rule induction over every sequence of
    calls. *)

From stdpp Require Import base gmap sets list strings.
From Stdlib Require Import ZArith Lia.
From S2P Require Import Prelude Types SnapshotTracker VersionManager Watermarks WriteSet Stats.
From S2P Require Import WalTypes Certifier UndoLog Journal Context Events CheckpointGate.
From S2P Require Import PendingRecovery Manager ManagerCommit ManagerFacts ManagerInv.
From S2P Require Import ManagerOutcome.

Module MgrReach.
Import Mgr MgrOps MgrFacts Slots MgrInv MgrOutcome.
Section reach.
Context {Value S Y : Type} `{CommitSink Value S} `{SyncPort Y}.
Abbreviation mgr := (TransactionManager Value S Y).
Abbreviation context := (TransactionContext Value).
Abbreviation held := (context * mgr)%type.
Implicit Types m : mgr.
Implicit Types c d : context.
Implicit Types v : View Value.
Implicit Types k : Z.

(** The commits known to be out. *)
Context {D : Z -> Prop}.
Abbreviation minv := (MgrInv.minv (D := D)).

(** ** Commit of a writer *)

(** A call retires its context after a change of the version manager that
    touches no slot of another writer. *)
Lemma minv_finish k i v c c' f :
  minv k i v -> v_active v !! i = Some c -> x_const c' = x_const c ->
  (commit_published (x_life c) = true ->
     commit_published (x_life c') = true /\ state (x_life c') <> Aborted) ->
  vm_ok (f (v_vm v)) -> grows (v_vm v) (f (v_vm v)) ->
  (forall x, pending (v_vm v) x -> (is_write c -> x <> start_timestamp (x_const c)) ->
     (~ is_write c -> read_ts (v_vm v) < x) -> pending (f (v_vm v)) x) ->
  minv k 0 (vretire c' (vset_vm f (vrelease c v))).
Proof.
  intros Hm Hi Hk Hpb Hok Hg Hp. destruct (mi_id _ _ _ Hm i c Hi) as [Hid _].
  assert (vretire c' (vset_vm f (vrelease c v)) =
    vretire c' (vset_vm f (vput (mark_released c) (vrelease c v)))) as ->.
  { unfold vretire, vset_vm, vput. simpl. unfold xid. rewrite Hk. simpl. by rewrite delete_insert_eq. }
  pose proof (minv_release k i v c Hm Hi) as Hm1.
  assert (v_vm (vput (mark_released c) (vrelease c v)) = v_vm v) as Ev.
  { unfold vrelease. by destruct (holds_slot c). }
  assert (v_active (vput (mark_released c) (vrelease c v)) !! i = Some (mark_released c)) as Hi1.
  { unfold vput. simpl. change (xid (mark_released c)) with (xid c). rewrite Hid.
    by rewrite lookup_insert_eq. }
  eapply (minv_retire k i _ (mark_released c)); [| |unfold holds_slot; simpl; apply andb_false_r|exact Hk|exact Hpb].
  2: { simpl. exact Hi1. }
  apply minv_vm; [exact Hm1|by rewrite Ev|by rewrite Ev|]. rewrite Ev.
  intros j d Hne Hj Hd Hpd. apply Hp; [done| |].
  - intros Hc. by apply (other_start k i _ (mark_released c) j d Hm1).
  - intros _. by apply (pending_range _ _ (mi_vm _ _ _ Hm)).
Qed.

(** A call leaves its context in the table without its slot. *)
Lemma minv_leave k i v c c1 f :
  minv k i v -> v_active v !! i = Some c -> x_const c1 = x_const c -> holds_slot c1 = false ->
  state (x_life c1) = Committing -> is_user_transaction (txn_type (x_const c)) = true ->
  (commit_published (x_life c) = true -> commit_published (x_life c1) = true) ->
  vm_ok (f (v_vm v)) -> grows (v_vm v) (f (v_vm v)) ->
  (forall x, pending (v_vm v) x -> (is_write c -> x <> start_timestamp (x_const c)) ->
     (~ is_write c -> read_ts (v_vm v) < x) -> pending (f (v_vm v)) x) ->
  minv k 0 (vset_vm f (vput c1 (vrelease c v))).
Proof.
  intros Hm Hi Hk Hs Hst Hus Hpb Hok Hg Hp. destruct (mi_id _ _ _ Hm i c Hi) as [Hid _].
  assert (xid c1 = xid c) as Hx by (unfold xid; by rewrite Hk).
  rewrite <- (vput_vput (mark_released c) c1) by exact Hx.
  pose proof (minv_release k i v c Hm Hi) as Hm1.
  assert (v_vm (vput (mark_released c) (vrelease c v)) = v_vm v) as Ev.
  { unfold vrelease. by destruct (holds_slot c). }
  assert (v_active (vput (mark_released c) (vrelease c v)) !! i = Some (mark_released c)) as Hi1.
  { unfold vput. simpl. change (xid (mark_released c)) with (xid c). rewrite Hid.
    by rewrite lookup_insert_eq. }
  assert (holds_slot (mark_released c) = false) as Hr.
  { unfold holds_slot. simpl. apply andb_false_r. }
  assert (minv k i (vput c1 (vput (mark_released c) (vrelease c v)))) as Hm2.
  { eapply minv_put; [exact Hm1|exact Hi1|exact Hk|by rewrite Hs, Hr|by rewrite Hr|exact Hpb]. }
  apply (minv_settle k i).
  - apply minv_vm; [exact Hm2|simpl in *; by rewrite Ev|simpl in *; by rewrite Ev|].
    intros j d Hne Hj Hd. simpl in Ev |- *. rewrite Ev. intros Hpd. apply Hp; [done| |].
    + intros Hc. rewrite <- Hk. apply (other_start k i _ c1 j d Hm2); [| |done|exact Hj|done].
      * unfold vput. simpl. rewrite Hx, Hid. by rewrite lookup_insert_eq.
      * unfold is_write. by rewrite Hk.
    + intros _. by apply (pending_range _ _ (mi_vm _ _ _ Hm)).
  - simpl. rewrite Hx, Hid, lookup_insert_eq. intros d [= <-].
    split; [by right|by rewrite Hs|intros _; by rewrite Hst|done|by rewrite Hk].
Qed.

Lemma live_log vm c c1 : log_only c c1 -> live_ok vm c -> live_ok vm c1.
Proof.
  intros (E1 & E2 & E3) [H1 H2 H3 H4 H5]. unfold is_write in *.
  split; unfold holds_slot, is_write in *; rewrite ?E1, ?E2; done.
Qed.

(** A context of the table is replaced by one that differs in its logs. *)
Lemma minv_put_log k i v c c1 :
  minv k 0 v -> v_active v !! i = Some c -> log_only c c1 -> minv k 0 (vput c1 v).
Proof.
  intros Hm Hi Hl. destruct (mi_id _ _ _ Hm i c Hi) as [Hid Hr].
  pose proof (mi_live _ _ _ Hm i c ltac:(lia) Hi) as Hlive. pose proof Hl as (E1 & E2 & E3).
  apply (minv_settle k i).
  - eapply minv_put; [by apply minv_exempt|exact Hi|done| |by rewrite E2|by rewrite E2].
    unfold holds_slot. by rewrite E1, E2.
  - simpl. rewrite (log_only_xid _ _ Hl), Hid, lookup_insert_eq. intros d [= <-].
    by apply (live_log _ c).
Qed.

Lemma reserve_review_ok now vm vm1 st ts :
  vm_ok vm -> Vm.reserve_commit_timestamp now st vm = (vm1, Ok ts) ->
  vm_ok (Vm.abort_write_timestamp ts vm1) /\ grows vm (Vm.abort_write_timestamp ts vm1) /\
  forall x, pending vm x -> pending (Vm.abort_write_timestamp ts vm1) x.
Proof.
  intros Hok Hr. destruct (reserve_commit_ok _ _ _ _ _ Hok Hr) as (R1 & R2 & R3 & R4 & R5).
  destruct (vm_ok_finish ts WAborted vm1 R1 ltac:(done)) as (F1 & F2 & F3).
  split; [done|]. split.
  - eapply grows_trans; [by eapply grows_reserve_commit|]. by apply grows_finish.
  - intros x Hx. apply F3. pose proof (pending_range _ _ Hok Hx). rewrite R5. split; [by left|lia].
Qed.

(** Whatever a commit of a writer comes to, the invariant holds after it. *)
Lemma minv_commit_outcome env k i c m m' r :
  minv k 0 (view m) -> m_active m !! i = Some c -> is_write c ->
  commit_published (x_life c) = false -> commit_outcome env m c m' r ->
  minv k 0 (view m').
Proof.
  intros Hm Hi Hw Hnp. pose proof (mi_vm _ _ _ Hm) as Hok. simpl in Hok.
  pose proof (minv_exempt k i _ Hm) as Hx.
  destruct 1 as [c1 m' e Hl Hv|m' e [(c' & Hv & Hab) _]|c' m' e vm ts Hr Hab Hv
    |c1 m' d lsn e Hr [U1 U2 U3 U4] _ Hv _|c1 m' d lsn vm ts Hr [U1 U2 U3 U4] _ _ Hv _
    |c' m' d lsn vm ts Hr Hk _ _ _ Hv _]; rewrite Hv.
  - by apply (minv_put_log k i _ c).
  - by apply (minv_abort k i).
  - destruct (reserve_review_ok _ _ _ _ _ Hok Hr) as (F1 & F2 & F3).
    destruct (rollback_ok c _ F1) as (R1 & R2 & R3).
    apply (minv_finish k i _ c c' (fun _ =>
      unpin c (rollback_context_timestamp c (Vm.abort_write_timestamp ts vm)))); try done.
    + apply Hab.
    + by rewrite Hnp.
    + eapply grows_trans; [exact F2|]. by apply grows_rollback.
    + intros x Hx1 Hne _. apply R3; [by apply F3|done].
  - apply (minv_leave k i (view m) c c1 (fun vm => vm)); try done.
    + unfold holds_slot. rewrite U3. apply andb_false_r.
    + by rewrite Hw.
    + by rewrite Hnp.
  - destruct (reserve_commit_ok _ _ _ _ _ Hok Hr) as (R1 & R2 & R3 & R4 & R5).
    destruct (vm_ok_finish (start c) WAborted vm R1 ltac:(done)) as (F1 & F2 & F3).
    destruct (vm_ok_finish ts WAborted _ F1 ltac:(done)) as (G1 & G2 & G3).
    apply (minv_leave k i (view m) c c1 (fun _ => Vm.abort_write_timestamp ts
      (Vm.abort_write_timestamp (start c) vm))); try done.
    + unfold holds_slot. rewrite U3. apply andb_false_r.
    + by rewrite Hw.
    + eapply grows_trans; [by eapply grows_reserve_commit|].
      eapply grows_trans; by apply grows_finish.
    + intros x Hx1 Hne _. pose proof (pending_range _ _ Hok Hx1). apply G3. rewrite F3, R5.
      split; [|simpl in *; lia]. split; [by left|by apply Hne].
  - destruct (reserve_commit_ok _ _ _ _ _ Hok Hr) as (R1 & R2 & R3 & R4 & R5).
    destruct (publish_reserved_ok (call_now env) (start c) ts vm R1 ltac:(lia)) as (P1 & P2 & P3).
    pose proof (unpin_core c (Vm.publish_reserved_commit (call_now env) (start c) ts vm)) as Hc.
    apply (minv_finish k i _ c c' (fun _ =>
      unpin c (Vm.publish_reserved_commit (call_now env) (start c) ts vm))); try done.
    + by rewrite Hnp.
    + by apply (vm_ok_core _ _ Hc).
    + eapply grows_trans; [by eapply grows_reserve_commit|].
      eapply grows_trans; [apply (grows_publish (call_now env) (start c) ts); [exact R1|lia]|
        by apply grows_core].
    + intros x Hx1 Hne _. pose proof (pending_range _ _ Hok Hx1). apply (pending_core _ _ x Hc).
      apply P3. rewrite R5. split; [by left|]. split; [by apply Hne|simpl in *; lia].
Qed.


(** ** Commit of a reader or a checkpoint *)

(** A change of the version manager that only touches slots behind the read
    frontier. *)
Record behind (vm vm' : VersionManager) : Prop := {
  be_ok : vm_ok vm';
  be_grows : grows vm vm';
  be_pending : forall x, pending vm x -> read_ts vm < x -> pending vm' x;
}.

Lemma behind_core vm vm' : vm_ok vm -> core vm' = core vm -> behind vm vm'.
Proof.
  intros Hok Hc. split; [by apply (vm_ok_core vm)|by apply grows_core|].
  intros x Hx _. by apply (pending_core vm).
Qed.

Lemma behind_abort vm ts : vm_ok vm -> ts <= read_ts vm -> behind vm (Vm.abort_write_timestamp ts vm).
Proof.
  intros Hok Hts. destruct (vm_ok_finish ts WAborted vm Hok ltac:(done)) as (F1 & F2 & F3).
  split; [done|by apply grows_finish|]. intros x Hx Hlt. apply F3. split; [done|lia].
Qed.

Lemma behind_trans vm1 vm2 vm3 :
  vm_ok vm1 -> read_ts vm2 = read_ts vm1 -> behind vm1 vm2 -> behind vm2 vm3 -> behind vm1 vm3.
Proof.
  intros Hok E [A1 A2 A3] [B1 B2 B3]. split; [done|by eapply grows_trans|].
  intros x Hx Hlt. apply B3; [by apply A3|by rewrite E].
Qed.

Lemma not_write_slot c : ~ is_write c -> holds_slot c = false.
Proof. intros Hn. unfold holds_slot. by rewrite bool_decide_eq_false_2. Qed.

Lemma not_write_release c v : ~ is_write c -> vrelease c v = v.
Proof. intros Hn. unfold vrelease. by rewrite not_write_slot. Qed.

Lemma reserve_other env (d : TransactionCommitDescriptor) lsn c m :
  home c m -> ~ is_write c ->
  exists c1 m1 f, commit_reserve env d lsn (c, m) = ((c1, m1), Ok 0) /\
    x_const c1 = x_const c /\ x_life c1 = x_life c /\
    view m1 = vset_vm f (vput c1 (view m)) /\ home c1 m1 /\ core (f (m_vm m)) = core (m_vm m).
Proof.
  intros Hh Hn. unfold commit_reserve, is_write in *. cbn [fst].
  destruct (txn_type (x_const c)) eqn:Et; try done;
    try (exists c, m, (fun vm => vm); split; [done|]; split_and!; try done; by rewrite vput_same).
  unfold st_bind, on_mgr, st_ret. cbn [fst snd].
  set (m0 := set_vm (Vm.release_read_timestamp_at (start_timestamp (x_const c)) (m_vm m)) m).
  destruct (release_pin_view c m0 Hh) as (m1 & E & Hv & Hh1 & _). rewrite E.
  exists (unpinned c), m1,
    (fun vm => unpin c (Vm.release_read_timestamp_at (start_timestamp (x_const c)) vm)).
  split_and!; try done. by rewrite unpin_core.
Qed.

Lemma finalize_other env (d : TransactionCommitDescriptor) lsn c m :
  home c m ->
  (exists m1, commit_finalize env d lsn 0 (c, m) = ((c, m1), Ok tt) /\ view m1 = view m /\ home c m1) \/
  (exists m1, commit_finalize env d lsn 0 (c, m) = ((c, m1), Err CommitFailed) /\
     is_user_transaction (txn_type (x_const c)) = true /\
     view m1 = vset_vm (Vm.abort_write_timestamp (start c)) (view m)).
Proof.
  intros Hh. unfold commit_finalize.
  destruct (is_user_transaction _); [|by left; exists m]. simpl.
  destruct (in_memory _); [by left; exists m|]. simpl.
  unfold finalize_sink. destruct (m_sink m) as [s|]; [|by left; exists m].
  destruct (retry _ _ s) as [s1 [[]|e]]; cbn [map_err].
  { left. eexists. by split_and!. }
  right. destruct (record_unfinalized_view env d 0 lsn c (set_sink (Some s1) m))
    as (m2 & E2 & Hv2 & Hq2).
  unfold st_bind at 1. rewrite E2.
  unfold st_bind, on_mgr, st_ret, st_err. cbn [fst snd]. eexists. split; [reflexivity|].
  split; [done|]. change (view (set_sink (Some s1) m)) with (view m) in Hv2. by rewrite <- Hv2.
Qed.

Lemma publish_other env (d : TransactionCommitDescriptor) lsn c m :
  home c m -> ~ is_write c -> state (x_life c) = Committing -> vm_ok (m_vm m) ->
  (txn_type (x_const c) = TReadOnly -> start c <= read_ts (m_vm m)) ->
  exists c' m' r f, commit_publish env d lsn (c, m) = ((c', m'), r) /\
    x_const c' = x_const c /\ behind (m_vm m) (f (m_vm m)) /\
    ((r = Err CommitFailed /\ state (x_life c') = Committing /\
      is_user_transaction (txn_type (x_const c)) = true /\
      view m' = vset_vm f (vput c' (view m))) \/
     (r = Ok tt /\ view m' = vretire c' (vset_vm f (view m)))).
Proof.
  intros Hh Hn Hst Hok Hrd. unfold commit_publish, st_bind at 1.
  destruct (reserve_other env d lsn c m Hh Hn) as (c1 & m1 & f & E & K1 & L1 & Hv1 & Hh1 & Hf).
  rewrite E. assert (~ is_write c1) as Hn1 by (unfold is_write; by rewrite K1).
  assert (needs_commit_ts c1 = false) as Hnc by (by apply bool_decide_eq_false_2).
  unfold st_bind at 1, commit_review. cbn [fst]. rewrite Hnc. cbn [negb].
  unfold st_bind at 1, on_ctx at 1. cbn [fst snd]. set (c2 := Ctx.mark_commit_published lsn c1).
  pose proof (home_store c1 c2 m1 Hh1 eq_refl) as Hh2.
  pose proof (store_home c1 c2 m1 Hh1 eq_refl) as Hv2. set (m2 := store c2 m1) in *.
  assert (xid c2 = xid c) as Hx2 by (unfold xid, c2; simpl; by rewrite K1).
  assert (view m2 = vset_vm f (vput c2 (view m))) as Hv2'.
  { rewrite Hv2, Hv1. unfold vset_vm, vput. simpl. change (xid c2) with (xid c1).
    by rewrite insert_insert_eq. }
  unfold st_bind at 1.
  destruct (finalize_other env d lsn c2 m2 Hh2) as [(m3 & Ef & Hv3 & Hh3)|(m3 & Ef & Hu & Hv3)];
    rewrite Ef.
  2: { eexists c2, m3, _, (fun vm => Vm.abort_write_timestamp (start c) (f vm)).
       split; [reflexivity|]. split; [exact K1|]. split.
       - eapply behind_trans; [done| |by apply behind_core|apply behind_abort].
         + unfold core in Hf. congruence.
         + by apply (vm_ok_core _ _ Hf).
         + assert (read_ts (f (m_vm m)) = read_ts (m_vm m)) as -> by (unfold core in Hf; congruence).
           apply Hrd. unfold c2 in Hu. simpl in Hu. rewrite K1 in Hu.
           unfold is_write in Hn. by destruct (txn_type (x_const c)).
       - left. split; [done|]. split; [simpl; by rewrite L1|]. split; [by rewrite <- K1|]. rewrite Hv3, Hv2'.
         assert (start c2 = start c) as -> by (unfold start, c2; simpl; by rewrite K1). done. }
  unfold st_bind at 1, commit_settle. cbn [fst].
  change (needs_commit_ts c2) with (needs_commit_ts c1). rewrite Hnc.
  destruct (complete_cases env (Descriptor.set_commit_timestamp 0 d) 0 lsn c2 m3 Hh3)
    as (c4 & m4 & E4 & Hv4 & K4 & _); [simpl; by rewrite L1|].
  rewrite E4. exists c4, m4, (Ok tt), f. split; [done|]. split; [by rewrite K4; simpl; rewrite K1|].
  split; [by apply behind_core|]. right. split; [done|].
  rewrite Hv4, Hv3, Hv2'. unfold vretire, vset_vm, vput. simpl.
  assert (xid c4 = xid c) as -> by (unfold xid; rewrite K4; simpl; by rewrite K1).
  by rewrite Hx2, delete_insert_eq.
Qed.


Lemma commit_other env k i c m m' r :
  minv k 0 (view m) -> m_active m !! i = Some c -> ~ is_write c ->
  commit_transaction env i m = (m', r) -> minv k 0 (view m').
Proof.
  intros Hm Hi Hn. destruct (mi_id _ _ _ Hm i c Hi) as [Hid Hr].
  pose proof (mi_live _ _ _ Hm i c ltac:(lia) Hi) as Hl. pose proof (minv_exempt k i _ Hm) as Hx.
  assert (home c m) as Hh by (unfold home; by rewrite Hid).
  unfold commit_transaction. rewrite Hi.
  destruct (decide (state (x_life c) = Active)) as [Hst|Hst].
  2: { destruct (refused_not_active env c m Hst) as (e & ->). by intros [= <- <-]. }
  pose proof (active_unpublished _ c Hl Hst) as Hnp.
  destruct (body_cases env c m Hh) as [(c1 & m1 & e & -> & [L1 L2 L3 L4])|[(h & e & -> & [(c' & Hv & Hab) _])
    |(c3 & m3 & d & lsn & -> & [K3 _ _ _ _ _] & Hst3 & Hh3 & _ & Hv3 & _)]]; [by split; auto|done| | |].
  - intros [= <- <-]. cbn [snd]. rewrite L2. by apply (minv_put_log k i _ c).
  - intros [= <- <-]. rewrite Hv. by apply (minv_abort k i).
  - assert (m_vm m3 = m_vm m) as Evm by (change (v_vm (view m3) = m_vm m); by rewrite Hv3).
    assert (~ is_write c3) as Hn3 by (unfold is_write; by rewrite K3).
    destruct (publish_other env d lsn c3 m3 Hh3 Hn3 Hst3)
      as (c4 & m4 & r4 & f & E4 & K4 & [B1 B2 B3] & Hc).
    { rewrite Evm. apply (mi_vm _ _ _ Hm). }
    { unfold start. rewrite Evm, K3. by apply (mi_reader _ _ _ Hm i). }
    rewrite E4. intros [= <- <-]. cbn [snd]. rewrite Evm in *.
    assert (x_const c4 = x_const c) as K4' by congruence.
    assert (xid c4 = xid c3) as X4 by (unfold xid; by rewrite K4).
    destruct Hc as [(_ & Hst4 & Hu4 & Hv4)|(_ & Hv4)]; rewrite Hv4, Hv3.
    + rewrite vput_vput by done. rewrite <- (not_write_release c (view m)) by done.
      apply (minv_leave k i (view m) c c4 f Hx Hi K4'); try done.
      * apply not_write_slot. unfold is_write. by rewrite K4'.
      * by rewrite <- K3.
      * by rewrite Hnp.
      * intros x Hp _ Hlt. apply B3; [done|by apply Hlt].
    + assert (vretire c4 (vset_vm f (vput c3 (view m))) =
              vretire c4 (vset_vm f (vrelease c (view m)))) as ->.
      { rewrite not_write_release by done. unfold vretire, vset_vm, vput. simpl.
        by rewrite X4, delete_insert_eq. }
      apply (minv_finish k i (view m) c c4 f Hx Hi K4'); [by rewrite Hnp|done|done|].
      intros x Hp _ Hlt. apply B3; [done|by apply Hlt].
Qed.

(** A commit preserves the invariant. *)
Lemma minv_commit env k i m :
  minv k 0 (view m) -> minv k 0 (view (commit_transaction env i m).1).
Proof.
  intros Hm. destruct (m_active m !! i) as [c|] eqn:Hi.
  2: { unfold commit_transaction. by rewrite Hi. }
  destruct (commit_transaction env i m) as [m' r] eqn:E. cbn [fst].
  destruct (mi_id _ _ _ Hm i c Hi) as [Hid Hr].
  destruct (decide (txn_type (x_const c) = TWrite)) as [Hw|Hn].
  - destruct (decide (state (x_life c) = Active)) as [Hst|Hst].
    2: { unfold commit_transaction in E. rewrite Hi in E.
         destruct (refused_not_active env c m Hst) as (e & Er). rewrite Er in E.
         by injection E as <- <-. }
    pose proof (mi_live _ _ _ Hm i c ltac:(lia) Hi) as Hl.
    apply (minv_commit_outcome env k i c m m' r Hm Hi Hw (active_unpublished _ _ Hl Hst)).
    eapply commit_write_cases; eauto. apply (mi_vm _ _ _ Hm).
  - by apply (commit_other env k i c m m' r Hm Hi Hn).
Qed.


(** ** Re-drive *)

(** A re-drive changes nothing of the context but stamp, pin and logs. *)
Record driven c c1 : Prop := {
  dr_const : x_const c1 = x_const c;
  dr_state : state (x_life c1) = state (x_life c);
  dr_released : resources_released (x_life c1) = resources_released (x_life c);
  dr_published : commit_published (x_life c1) = commit_published (x_life c);
}.

Lemma driven_slot c c1 : driven c c1 -> holds_slot c1 = holds_slot c.
Proof. intros [E1 _ E3 _]. unfold holds_slot. by rewrite E1, E3. Qed.

Lemma driven_trans c c1 c2 : driven c c1 -> driven c1 c2 -> driven c c2.
Proof. intros [] []. split; congruence. Qed.

(** Settles no slot but [ts]. *)
Record settles (ts : Timestamp) (vm vm' : VersionManager) : Prop := {
  se_ok : vm_ok vm';
  se_grows : grows vm vm';
  se_pending : forall x, pending vm x -> x <> ts -> pending vm' x;
}.

Lemma settles_core ts vm vm' : vm_ok vm -> core vm' = core vm -> settles ts vm vm'.
Proof.
  intros Hok Hc. split; [by apply (vm_ok_core vm)|by apply grows_core|].
  intros x Hx _. by apply (pending_core vm).
Qed.

Lemma settles_trans ts vm1 vm2 vm3 : settles ts vm1 vm2 -> settles ts vm2 vm3 -> settles ts vm1 vm3.
Proof.
  intros [A1 A2 A3] [B1 B2 B3]. split; [done|by eapply grows_trans|]. auto.
Qed.

(** One phase of a re-drive on a context of the table. *)
Record drive_step c m c1 m1 : Prop := {
  ds_driven : driven c c1;
  ds_view : exists f, view m1 = vset_vm f (vput c1 (view m)) /\ settles (start c) (m_vm m) (f (m_vm m));
  ds_home : home c1 m1;
}.

Lemma drive_step_refl c m m1 : home c m -> vm_ok (m_vm m) -> view m1 = view m -> drive_step c m c m1.
Proof.
  intros Hh Hok Hv. split; [done| |by apply (view_home c m)].
  exists (fun vm => vm). split; [|by apply settles_core].
  rewrite Hv. by rewrite vput_same.
Qed.

Lemma drive_step_trans c m c1 m1 c2 m2 :
  drive_step c m c1 m1 -> drive_step c1 m1 c2 m2 -> drive_step c m c2 m2.
Proof.
  intros [D1 (f & Hv1 & S1) _] [D2 (g & Hv2 & S2) Hh2].
  assert (m_vm m1 = f (m_vm m)) as Evm by (change (v_vm (view m1) = f (m_vm m)); by rewrite Hv1).
  assert (start c1 = start c) as Es by (unfold start; by rewrite (dr_const _ _ D1)).
  assert (xid c2 = xid c1) as Ex by (unfold xid; by rewrite (dr_const _ _ D2)).
  rewrite Evm, Es in S2. split; [by eapply driven_trans| |done].
  exists (fun vm => g (f vm)). split; [|by eapply settles_trans].
  rewrite Hv2, Hv1. unfold vset_vm, vput. simpl. by rewrite Ex, insert_insert_eq.
Qed.

Lemma drive_store c c1 m :
  home c m -> vm_ok (m_vm m) -> driven c c1 -> drive_step c m c1 (store c1 m).
Proof.
  intros Hh Hok Hd. assert (xid c1 = xid c) as Hx by (unfold xid; by rewrite (dr_const _ _ Hd)).
  split; [done| |by apply (home_store c)]. exists (fun vm => vm).
  split; [|by apply settles_core]. by rewrite (store_home c).
Qed.

Lemma drive_step_ok c m c1 m1 : drive_step c m c1 m1 -> vm_ok (m_vm m1).
Proof.
  intros [_ (f & Hv & Hs) _]. change (vm_ok (v_vm (view m1))). rewrite Hv. apply Hs.
Qed.

Lemma recover_timestamp_step env p c m :
  home c m -> vm_ok (m_vm m) ->
  exists c1 m1 r, recover_timestamp env p (c, m) = ((c1, m1), r) /\ drive_step c m c1 m1 /\
    (write_ts (m_vm m) + 1 < MAX_TIMESTAMP -> exists ts, r = Ok ts).
Proof.
  intros Hh Hok. unfold recover_timestamp, on_vm. cbn [fst snd]. case_decide.
  - destruct (Vm.allocate_commit_timestamp _ _ _) as [vm [ts|e]] eqn:E; cbn [fst snd].
    + eexists _, _, _. split; [reflexivity|]. split; [|by eexists].
      destruct (allocate_commit_ok _ _ _ _ _ Hok E) as (A1 & A2 & A3 & A4).
      eapply drive_step_trans; [|by apply drive_store].
      split; [done| |exact Hh]. exists (fun _ => vm).
      split; [unfold vset_vm; simpl; by rewrite (insert_id _ _ _ Hh)|].
      split; [done|by apply (grows_allocate _ _ _ _ _ Hok E)|]. intros x Hx Hne. apply A4. auto.
    + eexists _, _, _. split; [reflexivity|]. split.
      * apply allocate_commit_err in E as ->. by apply drive_step_refl.
      * intros Hlt. exfalso. apply st_bind_err in E as [E|(vm1 & ts & _ & E)]; [|done].
        destruct (Vm.reserve_timestamp_total (m_vm m)) as [[_ E2]|[? _]]; [|congruence|lia].
        destruct Hok as [Hrg _]. unfold MAX_TIMESTAMP in *. lia.
  - case_decide; (eexists _, _, _; split; [reflexivity|]);
      (split; [by apply drive_store || by apply drive_step_refl|by eexists]).
Qed.


Lemma drive_unpin c m :
  home c m -> vm_ok (m_vm m) ->
  exists m1, release_statement_snapshot_pin (c, m) = ((unpinned c, m1), Ok tt) /\
    drive_step c m (unpinned c) m1.
Proof.
  intros Hh Hok. destruct (release_pin_view c m Hh) as (m1 & E & Hv & Hh1 & _).
  exists m1. split; [done|]. split; [done| |done]. exists (unpin c). split; [done|].
  apply settles_core; [done|apply unpin_core].
Qed.

Lemma drive_clear env c m :
  home c m -> vm_ok (m_vm m) ->
  exists c1 m1 r, on_ctx_st (Ctx.clear_undo_logs (call_io env)) (c, m) = ((c1, m1), r) /\
    drive_step c m c1 m1 /\ (io_set_len (call_io env) = true -> r = Ok tt).
Proof.
  intros Hh Hok. unfold on_ctx_st, Ctx.clear_undo_logs. cbn [fst snd].
  assert (io_set_len (call_io env) = true ->
    exists u, UndoLog.clear (call_io env) (undo_logs (x_logs c)) = (u, Ok tt)) as Hio.
  { unfold UndoLog.clear. intros ->. destruct (file _); by eexists. }
  destruct (UndoLog.clear _ _) as [u [[]|]]; cbn [fst snd];
    (eexists _, _, _; split; [reflexivity|]); (split; [by apply drive_store|]); [done|].
  intros Hs. by destruct (Hio Hs) as (u' & [=]).
Qed.

(** A re-drive leaves its context in the table, or retires it committed. *)
Definition drive_end c m m' (r : result unit TransactionError) : Prop :=
  exists c1 m1, drive_step c m c1 m1 /\
    ((exists e, r = Err e /\ view m' = view m1) \/
     (exists c', r = Ok tt /\ view m' = vretire c' (view m1) /\ x_const c' = x_const c /\
        state (x_life c') = Committed /\
        commit_published (x_life c') = commit_published (x_life c))).

Lemma retire_committed_end b c m :
  home c m ->
  exists c1 m1, retire_committed b (c, m) = ((c1, m1), Ok tt) /\
    view m1 = vretire c1 (view m) /\ x_const c1 = x_const c /\ x_life c1 = x_life c.
Proof.
  intros Hh. unfold retire_committed, st_bind, on_mgr, st_ret. cbn [fst snd].
  change (id (x_const c)) with (xid c).
  destruct (remove_view c m Hh) as (Hv & Hg & _).
  set (m1 := (release_long_read (xid c) (remove_active (xid c) m)).1).
  set (m2 := set_cert (Cert.unregister_reads (xid c) (m_cert m1)) m1).
  destruct b.
  - destruct (retire_view c m2 Hg _ Hv) as (c1 & m3 & E & Hv3 & K3 & L3 & _).
    exists c1, m3. by split_and!.
  - destruct (retire_view c m1 Hg _ Hv) as (c1 & m3 & E & Hv3 & K3 & L3 & _).
    exists c1, m3. by split_and!.
Qed.

Lemma recover_complete_end env i p ts c m :
  home c m -> vm_ok (m_vm m) -> state (x_life c) = Committing ->
  exists h r, recover_complete env i p ts (c, m) = (h, r) /\ drive_end c m h.2 r /\
    (io_set_len (call_io env) = true -> r = Ok tt).
Proof.
  intros Hh Hok Hst. unfold recover_complete. unfold st_bind at 1. unfold on_mgr at 1. cbn [fst snd].
  set (m0 := if decide (ts <> 0 /\ _) then _ else m).
  assert (view m0 = view m) as Hv0 by (unfold m0; by case_decide).
  pose proof (drive_step_refl c m m0 Hh Hok Hv0) as D0. 
  destruct (drive_unpin c m0 (ds_home _ _ _ _ D0) (drive_step_ok _ _ _ _ D0)) as (m1 & E1 & D1).
  rewrite E1. pose proof (drive_step_trans _ _ _ _ _ _ D0 D1) as D01.
  destruct (drive_clear env (unpinned c) m1 (ds_home _ _ _ _ D1) (drive_step_ok _ _ _ _ D1))
    as (c2 & m2 & r2 & E2 & D2 & Hio). rewrite E2.
  pose proof (drive_step_trans _ _ _ _ _ _ D01 D2) as Dr.
  destruct r2 as [[]|e].
  2: { unfold st_bind, on_mgr, st_err. eexists _, _. split; [reflexivity|].
       split; [|by intros [=]%Hio]. exists c2, m2. split; [done|]. left. by eexists. }
  unfold st_bind at 1, on_ctx_st, Ctx.transition_to. cbn [fst snd].
  assert (state (x_life c2) = Committing) as -> by (rewrite (dr_state _ _ (ds_driven _ _ _ _ Dr)); done).
  cbn [Ctx.valid_transition fst snd]. set (c3 := Ctx.set_state Committed c2).
  pose proof (ds_home _ _ _ _ D2) as Hh2.
  pose proof (home_store c2 c3 m2 Hh2 eq_refl) as Hh3.
  pose proof (store_home c2 c3 m2 Hh2 eq_refl) as Hv3.
  unfold st_bind at 1.
  destruct (retire_committed_end true c3 (store c3 m2) Hh3) as (c4 & m4 & E4 & Hv4 & K4 & L4).
  rewrite E4. unfold st_bind, on_mgr, emit_committed, on_mgr. cbn [fst snd].
  eexists _, _. split; [reflexivity|]. split; [|done]. exists c2, m2. split; [done|]. right. exists c4.
  split; [done|]. cbn [snd]. split; [|split; [|split]].
  - set (m5 := set_recovery _ m4).
    assert (view (if decide (txn_callback_count m5 <> 0) then
      emit (EvCommitted (id (x_const c4)) (start_timestamp (x_const c4)) ts
        (d_write_set (Descriptor.set_commit_timestamp ts (pf_descriptor p)))
        (schema_catalog_version (x_budget c4)) true) m5 else m5) = view m5) as ->.
    { case_decide; [apply emit_view|done]. }
    change (view m5) with (view m4). rewrite Hv4, Hv3. unfold vretire, vput. simpl.
    assert (xid c4 = xid c2) as -> by (unfold xid; by rewrite K4). change (xid c3) with (xid c2).
    by rewrite delete_insert_eq.
  - rewrite K4. apply (dr_const _ _ (ds_driven _ _ _ _ Dr)).
  - by rewrite L4.
  - rewrite L4. apply (dr_published _ _ (ds_driven _ _ _ _ Dr)).
Qed.


Lemma finalize_sink_view dsc lsn m :
  exists m1 r, finalize_sink dsc lsn m = (m1, r) /\ view m1 = view m /\
    m_recovery m1 = m_recovery m.
Proof.
  unfold finalize_sink. destruct (m_sink m) as [s|]; [|by eexists _, _].
  destruct (retry _ _ s) as [s1 r]. by eexists _, _.
Qed.

Lemma recover_body_end env i p c m :
  home c m -> vm_ok (m_vm m) ->
  exists h r, recover_body env i p (c, m) = (h, r) /\
    (view h.2 = view m \/
     (state (x_life c) = Committing /\ commit_published (x_life c) = true /\ drive_end c m h.2 r)) /\
    (state (x_life c) = Committing -> commit_published (x_life c) = true ->
     (in_memory (m_config m) = true \/
      exists m1, finalize_sink (pf_descriptor p) (pf_commit_lsn p) m = (m1, Ok tt)) ->
     write_ts (m_vm m) + 1 < MAX_TIMESTAMP -> io_set_len (call_io env) = true ->
     r = Ok tt /\ drive_end c m h.2 r).
Proof.
  intros Hh Hok. unfold recover_body.
  destruct (decide (state (x_life c) <> Committing \/ commit_published (x_life c) = false)) as [Hn|Hs].
  { eexists _, _. split; [reflexivity|]. split; [by left|]. intros Hst Hp.
    rewrite Hst, Hp in Hn. by destruct Hn. }
  assert (state (x_life c) = Committing) as Hst by (destruct (decide (state (x_life c) = Committing)); tauto).
  assert (commit_published (x_life c) = true) as Hp by (destruct (commit_published (x_life c)); tauto).
  set (fin := if in_memory (m_config m) then (m, Ok tt)
    else finalize_sink (pf_descriptor p) (pf_commit_lsn p) m).
  assert (exists m1 r, fin = (m1, r) /\ view m1 = view m) as (m1 & r1 & Ef & Hv1).
  { unfold fin. destruct (in_memory _); [by exists m, (Ok tt)|].
    destruct (finalize_sink_view (pf_descriptor p) (pf_commit_lsn p) m) as (m1 & r & ? & ? & _).
    by exists m1, r. }
  assert (m_vm m1 = m_vm m) as Evm by (change (v_vm (view m1) = m_vm m); by rewrite Hv1).
  rewrite Ef. destruct r1 as [[]|e].
  2: { eexists _, _; split; [reflexivity|]. split; [by left|]. intros _ _ [Hmem|(m2 & Hf)]; unfold fin in Ef.
       - by rewrite Hmem in Ef.
       - rewrite Hf in Ef. by destruct (in_memory _). }
  pose proof (drive_step_refl c m m1 Hh Hok Hv1) as D1.
  destruct (recover_timestamp_step env p c m1 (ds_home _ _ _ _ D1) (drive_step_ok _ _ _ _ D1))
    as (c2 & m2 & r2 & E2 & D2 & Hts). rewrite E2.
  pose proof (drive_step_trans _ _ _ _ _ _ D1 D2) as Dr. rewrite Evm in Hts.
  destruct r2 as [ts|e].
  2: { eexists _, _. split; [reflexivity|]. split; [right; split; [done|]; split; [done|]|].
       - exists c2, m2. split; [done|]. left. by eexists.
       - intros _ _ _ Hlt. by destruct (Hts Hlt) as (ts & [=]). }
  destruct (recover_complete_end env i p ts c2 m2 (ds_home _ _ _ _ D2) (drive_step_ok _ _ _ _ D2))
    as (h & r & E3 & (c3 & m3 & D3 & Hend) & Hio).
  { by rewrite (dr_state _ _ (ds_driven _ _ _ _ Dr)). }
  rewrite E3. eexists _, _. split; [reflexivity|].
  assert (drive_end c m h.2 r) as Hde.
  { exists c3, m3. split; [by eapply drive_step_trans|].
    destruct Hend as [?|(c' & ? & ? & K & ? & K2)]; [by left|right]. exists c'. split_and!; try done.
    - rewrite K. apply (dr_const _ _ (ds_driven _ _ _ _ Dr)).
    - rewrite K2. apply (dr_published _ _ (ds_driven _ _ _ _ Dr)). }
  split; [by right|]. intros _ _ _ _ Hl. split; [by apply Hio|done].
Qed.

Lemma minv_drive k i c m m' r :
  minv k 0 (view m) -> m_active m !! i = Some c -> state (x_life c) = Committing ->
  drive_end c m m' r -> minv k 0 (view m').
Proof.
  intros Hm Hi Hst (c1 & m1 & [Dr (f & Hv & [S1 S2 S3]) Hh] & Hend).
  destruct (mi_id _ _ _ Hm i c Hi) as [Hid Hr].
  pose proof (mi_live _ _ _ Hm i c ltac:(lia) Hi) as Hl. pose proof (minv_exempt k i _ Hm) as Hx.
  assert (holds_slot c = false) as Hs.
  { destruct (holds_slot c) eqn:E; [|done]. destruct (lo_slot _ _ Hl E). congruence. }
  assert (vrelease c (view m) = view m) as Hrel by (unfold vrelease; by rewrite Hs).
  assert (forall x, pending (v_vm (view m)) x -> (is_write c -> x <> start_timestamp (x_const c)) ->
     (~ is_write c -> read_ts (v_vm (view m)) < x) -> pending (f (v_vm (view m))) x) as Hp.
  { intros x Hpx Hw Hn. apply S3; [exact Hpx|]. pose proof (lo_user _ _ Hl Hst) as Hu.
    pose proof (mi_reader _ _ _ Hm i c Hi) as Hrd. unfold is_write, start in *. simpl in *.
    destruct (txn_type (x_const c)); try done; [|by apply Hw].
    specialize (Hrd eq_refl). assert (read_ts (m_vm m) < x) by (by apply Hn). lia. }
  destruct Hend as [(e & _ & ->)|(c' & _ & -> & K & Hst' & Hpb)]; rewrite Hv.
  - rewrite <- Hrel. apply (minv_leave k i (view m) c c1 f); try done.
    + apply Dr.
    + by rewrite (driven_slot c c1).
    + by rewrite (dr_state _ _ Dr).
    + apply (lo_user _ _ Hl Hst).
    + by rewrite (dr_published _ _ Dr).
  - replace (vretire c' (vset_vm f (vput c1 (view m)))) with
      (vretire c' (vset_vm f (vrelease c (view m)))).
    2: { rewrite Hrel. unfold vretire, vset_vm, vput. simpl.
         assert (xid c1 = xid c') as -> by (unfold xid; by rewrite K, (dr_const _ _ Dr)).
         by rewrite delete_insert_eq. }
    apply (minv_finish k i (view m) c c' f); try done. rewrite Hpb, Hst'. done.
Qed.

Lemma recover_orphan_view i p m : view (recover_orphan i p m) = view m.
Proof.
  unfold recover_orphan. destruct (in_memory _); [by case_decide|].
  destruct (m_sink m); by case_decide.
Qed.

Lemma minv_recover env k i m :
  minv k 0 (view m) -> minv k 0 (view (recover_pending_finalization env i m).1).
Proof.
  intros Hm. unfold recover_pending_finalization.
  destruct (Pending.take_pending i (m_recovery m)) as [q [p|]]; [|done].
  set (m1 := set_recovery q m).
  assert (minv k 0 (view m1)) as Hm1 by exact Hm.
  destruct (m_active m1 !! i) as [c|] eqn:Hi; [|cbn [fst]; by rewrite recover_orphan_view].
  destruct (mi_id _ _ _ Hm1 i c Hi) as [Hid Hr].
  destruct (recover_body_end env i p c m1) as (h & r & E & Hc & _).
  { unfold home. by rewrite Hid. }
  { apply (mi_vm _ _ _ Hm1). }
  rewrite E. cbn [fst]. destruct Hc as [->|(Hst & _ & Hd)]; [done|].
  by apply (minv_drive k i c m1 h.2 r).
Qed.

Lemma minv_redrive env k ids m : minv k 0 (view m) -> minv k 0 (view (redrive env ids m).1).
Proof.
  revert m. induction ids as [|i ids IH]; intros m Hm; simpl; [done|].
  pose proof (minv_recover env k i m Hm) as Hm1.
  destruct (recover_pending_finalization env i m) as [m1 [[]|e]]; cbn [fst] in Hm1; [|by apply IH].
  specialize (IH m1 Hm1). by destruct (redrive env ids m1).
Qed.

Lemma minv_startup env k m : minv k 0 (view m) -> minv k 0 (view (startup_recovery env m).1).
Proof.
  intros Hm. unfold startup_recovery. pose proof (minv_redrive env k
    (Pending.pending_txn_ids (m_recovery m)) m Hm) as Hm1.
  destruct (redrive _ _ m) as [m1 n]. destruct (Pending.recover _ _) as [[q s] [j|e]]; exact Hm1.
Qed.


(** ** Statements, savepoints and owners *)

(** A context update that moves neither identity nor lifecycle. *)
Record tame c c1 : Prop := {
  ta_const : x_const c1 = x_const c;
  ta_state : state (x_life c1) = state (x_life c);
  ta_released : resources_released (x_life c1) = resources_released (x_life c);
  ta_published : commit_published (x_life c1) = commit_published (x_life c);
  ta_lock : pessimistic_lock_held (x_life c1) = pessimistic_lock_held (x_life c);
}.

Lemma tame_refl c : tame c c.
Proof. done. Qed.

Lemma tame_trans c c1 c2 : tame c c1 -> tame c1 c2 -> tame c c2.
Proof. intros [] []. split; congruence. Qed.

Lemma tame_slot c c1 : tame c c1 -> holds_slot c1 = holds_slot c.
Proof. intros [E1 _ E3 _ _]. unfold holds_slot. by rewrite E1, E3. Qed.

Lemma tame_live vm c c1 : tame c c1 -> live_ok vm c -> live_ok vm c1.
Proof.
  intros Ht [H1 H2 H3 H4 H5]. pose proof (tame_slot c c1 Ht) as Es. destruct Ht as [E1 E2 E3 E4 E5].
  unfold is_write in *. split; unfold is_write; rewrite ?E1, ?E2, ?E4, ?Es; done.
Qed.

(** The manager after calm work on a context of its table. *)
Record calm c m c1 m1 : Prop := {
  ca_tame : tame c c1;
  ca_view : exists f, view m1 = vset_vm f (vput c1 (view m)) /\ core (f (m_vm m)) = core (m_vm m);
  ca_home : home c1 m1;
}.

Lemma calm_refl c m m1 : home c m -> view m1 = view m -> calm c m c m1.
Proof.
  intros Hh Hv. split; [done| |by apply (view_home c m)].
  exists (fun vm => vm). split; [|done]. rewrite Hv. by rewrite vput_same.
Qed.

Lemma calm_trans c m c1 m1 c2 m2 : calm c m c1 m1 -> calm c1 m1 c2 m2 -> calm c m c2 m2.
Proof.
  intros [D1 (f & Hv1 & S1) _] [D2 (g & Hv2 & S2) Hh2].
  assert (m_vm m1 = f (m_vm m)) as Evm by (change (v_vm (view m1) = f (m_vm m)); by rewrite Hv1).
  assert (xid c2 = xid c1) as Ex by (unfold xid; by rewrite (ta_const _ _ D2)).
  rewrite Evm in S2. split; [by eapply tame_trans| |done].
  exists (fun vm => g (f vm)). split; [|by rewrite S2].
  rewrite Hv2, Hv1. unfold vset_vm, vput. simpl. by rewrite Ex, insert_insert_eq.
Qed.

Lemma calm_store c c1 m : home c m -> tame c c1 -> calm c m c1 (store c1 m).
Proof.
  intros Hh Hd. assert (xid c1 = xid c) as Hx by (unfold xid; by rewrite (ta_const _ _ Hd)).
  split; [done| |by apply (home_store c)]. exists (fun vm => vm).
  split; [|done]. by rewrite (store_home c).
Qed.

Lemma calm_tracker c m t :
  home c m -> calm c m c (set_vm (Vm.set_tracker t (m_vm m)) m).
Proof.
  intros Hh. split; [done| |exact Hh]. exists (Vm.set_tracker t). split; [|done].
  unfold vset_vm. simpl. by rewrite (insert_id _ _ _ Hh).
Qed.

Lemma calm_unpin c m :
  home c m -> calm c m (release_statement_snapshot_pin (c, m)).1.1
    (release_statement_snapshot_pin (c, m)).1.2.
Proof.
  intros Hh. destruct (release_pin_view c m Hh) as (m1 & E & Hv & Hh1 & _). rewrite E.
  split; [done| |done]. exists (unpin c). split; [done|]. apply unpin_core.
Qed.

Lemma minv_calm k i c m c1 m1 :
  minv k 0 (view m) -> m_active m !! i = Some c -> calm c m c1 m1 -> minv k 0 (view m1).
Proof.
  intros Hm Hi [Ht (f & -> & Hf) _]. destruct (mi_id _ _ _ Hm i c Hi) as [Hid Hr].
  pose proof (mi_live _ _ _ Hm i c ltac:(lia) Hi) as Hl.
  assert (xid c1 = i) as Hx by (unfold xid in *; by rewrite (ta_const _ _ Ht)).
  assert (minv k 0 (vput c1 (view m))) as Hm1.
  { apply (minv_settle k i).
    - eapply minv_put; [by apply minv_exempt|exact Hi|apply Ht|by apply tame_slot| |].
      + intros _. apply Ht.
      + by rewrite (ta_published _ _ Ht).
    - simpl. rewrite Hx, lookup_insert_eq. intros d [= <-]. by apply (tame_live _ c). }
  apply minv_vm; [done|simpl; by apply (vm_ok_core _ _ Hf), (mi_vm _ _ _ Hm)| |].
  - simpl. by apply grows_core.
  - intros j d _ _ _ Hp. by apply (pending_core _ _ _ Hf).
Qed.

Lemma minv_store k i c c1 m :
  minv k 0 (view m) -> m_active m !! i = Some c -> tame c c1 -> minv k 0 (view (store c1 m)).
Proof.
  intros Hm Hi Ht. destruct (mi_id _ _ _ Hm i c Hi) as [Hid Hr].
  apply (minv_calm k i c m c1); try done. apply calm_store; [|done]. unfold home. by rewrite Hid.
Qed.


(** Calls built from calm steps are calm. *)
Definition calm_call {E A} (f : ST held E A) : Prop :=
  forall c m, home c m -> exists c1 m1 r, f (c, m) = ((c1, m1), r) /\ calm c m c1 m1.

Lemma calm_bind {E A B} (f : ST held E A) (g : A -> ST held E B) :
  calm_call f -> (forall a, calm_call (g a)) -> calm_call (st_bind f g).
Proof.
  intros Hf Hg c m Hh. unfold st_bind. destruct (Hf c m Hh) as (c1 & m1 & r & -> & C1).
  destruct r as [a|e]; [|by eexists _, _, _].
  destruct (Hg a c1 m1 (ca_home _ _ _ _ C1)) as (c2 & m2 & r2 & -> & C2).
  eexists _, _, _. split; [done|]. by eapply calm_trans.
Qed.

Lemma calm_ret {E A} (r : result A E) : calm_call (fun h => (h, r)).
Proof. intros c m Hh. eexists _, _, _. split; [done|]. by apply calm_refl. Qed.

Lemma calm_on_ctx f : (forall c, tame c (f c)) -> calm_call (on_ctx f).
Proof. intros Hf c m Hh. eexists _, _, _. split; [done|]. by apply calm_store. Qed.

Lemma calm_on_ctx_st {A} (f : ST context TransactionError A) :
  (forall c, tame c (f c).1) -> calm_call (on_ctx_st f).
Proof.
  intros Hf c m Hh. unfold on_ctx_st. cbn [fst snd]. specialize (Hf c).
  destruct (f c) as [c1 r]. eexists _, _, _. split; [done|]. by apply calm_store.
Qed.

Lemma calm_on_mgr f : (forall m, view (f m) = view m) -> calm_call (on_mgr f).
Proof. intros Hf c m Hh. eexists _, _, _. split; [done|]. by apply calm_refl. Qed.

Lemma calm_pin env ts : calm_call (pin_statement_snapshot env ts).
Proof.
  intros c m Hh. unfold pin_statement_snapshot.
  destruct (Tracker.add_snapshot _ ts _) as [t [[]|e]].
  - cbn [Ctx.set_statement_snapshot_pin]. eexists _, _, _. split; [reflexivity|].
    eapply calm_trans; [by apply calm_tracker|]. by apply calm_store.
  - eexists _, _, _. split; [reflexivity|]. by apply calm_tracker.
Qed.

Lemma tame_begin_statement now c : tame c (Ctx.begin_statement now c).1.
Proof.
  unfold Ctx.begin_statement. destruct (Ctx.can_execute now c); [|done].
  by destruct (Ctx.check_timeouts now c).
Qed.

Lemma tame_finish_statement now start c : tame c (Ctx.finish_statement now start c).1.
Proof. unfold Ctx.finish_statement. by destruct (_ || _). Qed.

Lemma minv_calm_call {A} k i c m (f : ST held TransactionError A) :
  minv k 0 (view m) -> m_active m !! i = Some c -> calm_call f -> minv k 0 (view (f (c, m)).1.2).
Proof.
  intros Hm Hi Hf. destruct (mi_id _ _ _ Hm i c Hi) as [Hid Hr].
  destruct (Hf c m) as (c1 & m1 & r & E & C); [unfold home; by rewrite Hid|].
  rewrite E. by apply (minv_calm k i c m c1).
Qed.

Lemma minv_begin_statement env k i m :
  minv k 0 (view m) -> minv k 0 (view (begin_statement env i m).1).
Proof.
  intros Hm. unfold begin_statement, get_context.
  destruct (m_active m !! i) as [c|] eqn:Hi; [|done].
  match goal with |- context [let '(h, r) := ?f (c, m) in _] =>
    assert (calm_call f) as Hf; [|pose proof (minv_calm_call k i c m f Hm Hi Hf) as Hm1;
      destruct (f (c, m)) as [h r]; exact Hm1] end.
  apply calm_bind; [|intros ts; apply calm_bind; [|intros start; apply calm_bind; [|intros [];
    apply calm_bind; [by apply calm_on_mgr|intros []; apply calm_ret]]]].
  - case_decide; [|apply calm_ret]. intros c1 m1. cbn [fst snd].
    apply calm_bind; [by apply calm_on_ctx|intros []; apply calm_ret].
  - apply calm_on_ctx_st, tame_begin_statement.
  - apply calm_pin.
Qed.

Lemma minv_refresh env k i m :
  minv k 0 (view m) -> minv k 0 (view (refresh_statement_snapshot env i m).1).
Proof.
  intros Hm. unfold refresh_statement_snapshot, get_context.
  destruct (m_active m !! i) as [c|] eqn:Hi; [|done].
  match goal with |- context [let '(h, r) := ?f (c, m) in _] =>
    assert (calm_call f) as Hf; [|pose proof (minv_calm_call k i c m f Hm Hi Hf) as Hm1;
      destruct (f (c, m)) as [h r]; exact Hm1] end.
  apply calm_bind; [apply calm_ret|intros []].
  apply calm_bind; [apply calm_ret|intros []].
  case_decide; [|apply calm_pin]. apply calm_bind; [by apply calm_on_ctx|intros []; apply calm_pin].
Qed.

(** A retired context is written back. *)
Lemma minv_store_retired k i c c1 m :
  minv k 0 (view m) -> m_active m !! i = None -> m_retired m !! i = Some c -> tame c c1 ->
  minv k 0 (view (store c1 m)).
Proof.
  intros Hm Hn Hi Ht. pose proof (mi_retired _ _ _ Hm i c Hi) as (Hid & Hlt & _).
  assert (xid c1 = i) as Hx by (unfold xid in *; by rewrite (ta_const _ _ Ht)).
  rewrite store_gone by (unfold gone; by rewrite Hx).
  destruct Hm as [H0k H1 H2 H3 H4 H5 H6 H7 H8 H9 H10 H11 H12 H13 H14]. split; try done; simpl.
  - intros j d. rewrite Hx. intros [[<- <-]|[? Hj]]%lookup_insert_Some; [|by apply H4].
    split_and!; done.
  - intros j Hj. destruct (H14 j Hj) as [?|(d & Hd & Hp & Hs)]; [by left|right]. simpl.
    rewrite Hx. destruct (decide (j = i)) as [->|Hne].
    + exists c1. rewrite lookup_insert_eq. simpl in Hd. rewrite Hi in Hd. injection Hd as <-.
      by rewrite (ta_published _ _ Ht), (ta_state _ _ Ht).
    + exists d. by rewrite lookup_insert_ne.
Qed.

Lemma minv_core k m vm :
  minv k 0 (view m) -> core vm = core (m_vm m) -> minv k 0 (view (set_vm vm m)).
Proof.
  intros Hm Hc. apply (minv_vm k 0 (view m) (fun _ => vm)); [done| |by apply grows_core|].
  - apply (vm_ok_core _ _ Hc), (mi_vm _ _ _ Hm).
  - intros j d _ _ _ Hp. by apply (pending_core _ _ _ Hc).
Qed.


(** [finish_statement] works on a context of the table or on a retired one. *)
Definition finish_steps (env : CallEnv) (start : Z) (h : held) : held :=
  (release_statement_snapshot_pin (on_ctx_st (Ctx.finish_statement (call_now env) start) h).1).1.

Lemma finish_steps_active env k i start c m :
  minv k 0 (view m) -> m_active m !! i = Some c -> minv k 0 (view (finish_steps env start (c, m)).2).
Proof.
  intros Hm Hi. destruct (mi_id _ _ _ Hm i c Hi) as [Hid Hr].
  assert (home c m) as Hh by (unfold home; by rewrite Hid). unfold finish_steps.
  destruct (calm_on_ctx_st (Ctx.finish_statement (call_now env) start)
    (tame_finish_statement (call_now env) start) c m Hh) as (c1 & m1 & r & -> & C1). cbn [fst].
  pose proof (calm_unpin c1 m1 (ca_home _ _ _ _ C1)) as C2.
  eapply (minv_calm k i c m); [done|done|by eapply calm_trans].
Qed.

Lemma finish_steps_retired env k i start c m :
  minv k 0 (view m) -> m_active m !! i = None -> m_retired m !! i = Some c ->
  minv k 0 (view (finish_steps env start (c, m)).2).
Proof.
  intros Hm Hn Hi. destruct (mi_retired _ _ _ Hm i c Hi) as (Hid & _). unfold finish_steps.
  pose proof (tame_finish_statement (call_now env) start c) as Ht.
  unfold on_ctx_st. cbn [fst snd].
  destruct (Ctx.finish_statement (call_now env) start c) as [c1 r]. cbn [fst] in *.
  assert (xid c1 = i) as Hx by (unfold xid in *; by rewrite (ta_const _ _ Ht)).
  pose proof (minv_store_retired k i c c1 m Hm Hn Hi Ht) as Hm1.
  unfold release_statement_snapshot_pin, Ctx.take_statement_snapshot_pin. cbn [fst snd].
  destruct (statement_snapshot_pin (x_snap c1)) as [ts|]; [|done]. cbn [fst snd].
  set (c2 := Ctx.on_snap _ c1). set (m1 := store c1 m) in *.
  assert (m_active m1 !! i = None /\ m_retired m1 !! i = Some c1) as [Hn1 Hi1].
  { unfold m1, store. change (id (x_const c1)) with (xid c1). rewrite Hx, Hn. simpl.
    by rewrite lookup_insert_eq. }
  apply minv_core; [|done]. by apply (minv_store_retired k i c1).
Qed.

Lemma minv_finish_statement env k i start m :
  minv k 0 (view m) -> minv k 0 (view (finish_statement env i start m).1).
Proof.
  intros Hm. unfold finish_statement, find_ctx.
  assert (forall c, m_active m !! i = Some c \/ (m_active m !! i = None /\ m_retired m !! i = Some c) ->
    minv k 0 (view (finish_steps env start (c, m)).2)) as Hc.
  { intros c [Hi|[Hn Hi]]; [by apply (finish_steps_active env k i)|by apply (finish_steps_retired env k i)]. }
  unfold finish_steps in Hc.
  destruct (m_active m !! i) as [c|]; [|destruct (m_retired m !! i) as [c|]; [|done]].
  - specialize (Hc c (or_introl eq_refl)). destruct (on_ctx_st _ (c, m)) as [h1 r].
    destruct r as [[]|[]]; exact Hc.
  - specialize (Hc c (or_intror (conj eq_refl eq_refl))). destruct (on_ctx_st _ (c, m)) as [h1 r].
    destruct r as [[]|[]]; exact Hc.
Qed.

Lemma tame_create_savepoint n s c : tame c (Ctx.create_savepoint n s c).1.
Proof. done. Qed.

Lemma tame_mark sp mark c : tame c (Ctx.set_savepoint_staging_mark sp mark c).1.
Proof. unfold Ctx.set_savepoint_staging_mark. by destruct (Savepoints.set_staging_mark _ _ _). Qed.

Lemma minv_create_savepoint env k i n mark m :
  minv k 0 (view m) -> minv k 0 (view (create_savepoint env i n mark m).1).
Proof.
  intros Hm. unfold create_savepoint, get_context. destruct (m_active m !! i) as [c|] eqn:Hi; [|done].
  destruct (Ctx.can_execute _ _); [|done]. destruct (match n with Some _ => _ | None => _ end); [done|].
  set (seq := match m_sync m with Some y => _ | None => _ end).
  pose proof (tame_create_savepoint n seq c) as T1. destruct (Ctx.create_savepoint n seq c) as [c1 sp].
  pose proof (tame_mark sp mark c1) as T2.
  destruct (Ctx.set_savepoint_staging_mark sp mark c1) as [c2 r]. cbn [fst] in *.
  apply (minv_store k i c c2); [done|done|by eapply tame_trans].
Qed.

Lemma minv_release_savepoint k i sp m :
  minv k 0 (view m) -> minv k 0 (view (release_savepoint i sp m).1).
Proof.
  intros Hm. unfold release_savepoint, get_context. destruct (m_active m !! i) as [c|] eqn:Hi; [|done].
  unfold Ctx.release_savepoint. destruct (Savepoints.remove_savepoint _ _) as [sm o].
  by apply (minv_store k i c).
Qed.


Section target.
Context {G : Type} `{UndoTarget Value G}.
Variable from_bytes : list Z -> option (UndoLogEntry Value).

Lemma tame_rollback now io sp c (g : G) :
  tame c (Ctx.rollback_to_savepoint from_bytes now io sp c g).1.1.
Proof.
  unfold Ctx.rollback_to_savepoint. destruct (negb _); [done|]. destruct (Ctx.is_expired now c); [done|].
  destruct (Ctx.get_savepoint sp c) as [s|]; [|done]. destruct (validate_against _ _); [|done].
  unfold Ctx.execute_undo_logs_from_index.
  destruct (UndoLog.execute_undo_from_index _ _ _ _ _ _) as [[u g1] [[]|e]]; cbn [map_err]; [|done].
  destruct (match sp_staged_write_mark s with Some _ => _ | None => _ end) as [g2 [[]|e]]; [|done].
  unfold Ctx.restore_savepoint. by case_decide.
Qed.

Lemma minv_rollback env k i sp m (g : G) :
  minv k 0 (view m) -> minv k 0 (view (rollback_to_savepoint from_bytes env i sp m g).1.1).
Proof.
  intros Hm. unfold rollback_to_savepoint, get_context.
  destruct (m_active m !! i) as [c|] eqn:Hi; [|done].
  destruct (Ctx.get_savepoint sp c) as [s|]; [|done].
  set (y := match m_sync m with None => _ | Some _ => _ end).
  assert (view y.1 = view m) as Hv.
  { unfold y. destruct (m_sync m); [|done]. by destruct (sync_rollback_to_sequence _ _ _). }
  destruct y as [m1 [[]|e]]; cbn [fst] in *; [|by rewrite Hv].
  pose proof (tame_rollback (call_now env) (call_io env) sp c g) as Ht.
  destruct (Ctx.rollback_to_savepoint _ _ _ sp c g) as [[c1 g1] r]. cbn [fst] in *.
  apply (minv_store k i c c1); [by rewrite Hv|by change (v_active (view m1) !! i = Some c); rewrite Hv|done].
Qed.

Lemma run_local_undo_log env c (g : G) : log_only c (run_local_undo from_bytes env c g).1.1.
Proof.
  unfold run_local_undo, Ctx.execute_undo_logs.
  destruct (UndoLog.execute_undo _ _ _ _ _) as [[u g1] [[[]|e]|]]; cbn; [|done|done].
  unfold Ctx.clear_undo_logs. by destruct (UndoLog.clear _ _) as [u1 [[]|]].
Qed.

Lemma minv_abort_with_undo env k i m (g : G) :
  minv k 0 (view m) -> minv k 0 (view (abort_transaction_with_undo from_bytes env i m g).1.1).
Proof.
  intros Hm. unfold abort_transaction_with_undo.
  destruct (fetch_abortable_context i m) as [c|e] eqn:Ef; [|done].
  apply fetch_abortable_ok in Ef as [Hi Hp]. destruct (mi_id k 0 _ Hm i c Hi) as [Hid Hr].
  pose proof (mi_live k 0 _ Hm i c ltac:(lia) Hi) as Hl.
  destruct (abort_common_view env (Some (run_local_undo from_bytes env)) c m g)
    as (c' & m1 & g1 & r1 & E & Hv & Hab & _).
  - unfold home. by rewrite Hid.
  - by apply (live_abortable _ _ Hl).
  - intros f c0 g0 [= <-]. apply run_local_undo_log.
  - rewrite E. cbn [fst snd]. rewrite Hv. apply (minv_abort k i); [by apply minv_exempt|done|done|done].
Qed.

End target.

(** ** Owners *)

Lemma minv_set_owner k i o m : minv k 0 (view m) -> minv k 0 (view (set_transaction_owner i o m).1).
Proof.
  intros Hm. unfold set_transaction_owner, get_context.
  destruct (m_active m !! i) as [c|] eqn:Hi; [|done]. by apply (minv_store k i c).
Qed.

Lemma minv_disconnect k i m : minv k 0 (view m) -> minv k 0 (view (mark_disconnect i m).1).
Proof.
  intros Hm. unfold mark_disconnect, get_context.
  destruct (m_active m !! i) as [c|] eqn:Hi; [|done].
  by apply (minv_store k i c (Ctx.mark_rollback_only c) m).
Qed.

Lemma minv_as_owner k i o (f : ST mgr TransactionError unit) m :
  minv k 0 (view (f m).1) -> minv k 0 (view m) -> minv k 0 (view (as_owner i o f m).1).
Proof. intros Hf Hm. unfold as_owner. by destruct (check_transaction_owner i o m). Qed.

(** ** Checkpoints *)

Lemma minv_complete_gate k m : minv k 0 (view m) -> minv k 0 (view (complete_gate m)).
Proof. intros Hm. by apply minv_set_gate. Qed.

Lemma minv_ck_commit env k ck m : minv k 0 (view m) -> minv k 0 (view (ck_commit env ck m).1).
Proof.
  intros Hm. unfold ck_commit. pose proof (minv_commit env k (ck_txn_id ck) m Hm) as Hm1.
  destruct (commit_transaction _ _ m) as [m1 r]. by apply minv_complete_gate.
Qed.

Lemma minv_ck_abort env k ck m : minv k 0 (view m) -> minv k 0 (view (ck_abort env ck m).1).
Proof.
  intros Hm. unfold ck_abort. pose proof (minv_abort_transaction env k (ck_txn_id ck) m Hm) as Hm1.
  destruct (abort_transaction _ _ m) as [m1 r]. by apply minv_complete_gate.
Qed.

Lemma minv_ck_early k ck m : minv k 0 (view m) -> minv k 0 (view (ck_release_write_gate_early ck m).1).
Proof. intros Hm. unfold ck_release_write_gate_early. destruct (ck_released_early ck); [done|]. by apply minv_set_gate. Qed.

Lemma minv_end_checkpoint k m : minv k 0 (view m) -> minv k 0 (view (end_checkpoint m)).
Proof. intros Hm. unfold end_checkpoint. destruct (in_memory _); [done|]. by apply minv_set_gate. Qed.

Lemma minv_begin_long_read env k o b ttl m :
  minv k 0 (view m) -> room m -> minv k 0 (view (begin_long_read_transaction env o b ttl m).1).
Proof.
  intros Hm Hr. unfold begin_long_read_transaction. destruct (Lease.check_long_read_admission _ _); [|done].
  pose proof (minv_begin_read env k o m Hm Hr) as Hm1.
  destruct (begin_read_transaction env o m) as [m1 [[i|e]|]]; [|done|done].
  by destruct (get_context i m1).
Qed.

Lemma minv_begin env k o m :
  minv k 0 (view m) -> room m -> minv k 0 (view (begin_transaction env o m).1).
Proof.
  intros Hm Hr. unfold begin_transaction. destruct (opt_read_only o); [by apply minv_begin_read|].
  pose proof (minv_begin_insert env k o m Hm Hr) as Hm1.
  by destruct (begin_insert_transaction env o m).
Qed.


End reach.
End MgrReach.
