(* ===== verification/ManagerSafety.v ===== *)
(** * Safety of the transaction manager over sequences of calls

    A step is one call of the manager, or work of a session on its own
    context; [mreach] is what any sequence of them reaches from a new manager.
    The invariant gives the accounting of gate slots, the single write
    exclusion, the invisibility of active writers and the durability of
    published commits. *)

From stdpp Require Import base gmap sets list strings.
From Stdlib Require Import ZArith Lia.
From S2P Require Import Prelude Types SnapshotTracker VersionManager Watermarks WriteSet Stats.
From S2P Require Import WalTypes Certifier UndoLog Journal Context Events CheckpointGate.
From S2P Require Import PendingRecovery Manager ManagerCommit ManagerFacts ManagerInv.
From S2P Require Import ManagerOutcome ManagerReach.

Module MgrSafety.
Import Mgr MgrOps MgrFacts Slots MgrInv MgrOutcome MgrReach.
Section safety.
Context {Value S Y : Type} `{CommitSink Value S} `{SyncPort Y}.
Abbreviation mgr := (TransactionManager Value S Y).
Abbreviation context := (TransactionContext Value).
Implicit Types m : mgr.
Implicit Types c d : context.

(** ** Steps *)

Inductive mstep m : mgr -> Prop :=
| ms_begin env o : room m -> mstep m (begin_transaction env o m).1
| ms_long_read env o b ttl : room m -> mstep m (begin_long_read_transaction env o b ttl m).1
| ms_checkpoint env : room m -> mstep m (begin_checkpoint_transaction env m).1
| ms_commit env i : mstep m (commit_transaction env i m).1
| ms_abort env i : mstep m (abort_transaction env i m).1
| ms_abort_undo G (U : UndoTarget Value G) from_bytes env i (g : G) :
    mstep m (abort_transaction_with_undo from_bytes env i m g).1.1
| ms_recover env i : mstep m (recover_pending_finalization env i m).1
| ms_startup env : mstep m (startup_recovery env m).1
| ms_cleanup env : mstep m (maybe_cleanup_expired_transactions env m)
| ms_shutdown env : mstep m (shutdown env m)
| ms_begin_statement env i : mstep m (begin_statement env i m).1
| ms_refresh env i : mstep m (refresh_statement_snapshot env i m).1
| ms_finish env i t : mstep m (finish_statement env i t m).1
| ms_savepoint env i n mark : mstep m (create_savepoint env i n mark m).1
| ms_release_savepoint i sp : mstep m (release_savepoint i sp m).1
| ms_rollback G (U : UndoTarget Value G) from_bytes env i sp (g : G) :
    mstep m (rollback_to_savepoint from_bytes env i sp m g).1.1
| ms_owner i o : mstep m (set_transaction_owner i o m).1
| ms_disconnect i : mstep m (mark_disconnect i m).1
| ms_begin_checkpoint : mstep m (begin_checkpoint m).1
| ms_end_checkpoint : mstep m (end_checkpoint m)
| ms_ck_early k : mstep m (ck_release_write_gate_early k m).1
| ms_ck_commit env k : mstep m (ck_commit env k m).1
| ms_ck_abort env k : mstep m (ck_abort env k m).1
(** a session works on its context: reads, mutations, budgets *)
| ms_session i c c' : m_active m !! i = Some c -> tame c c' -> mstep m (store c' m)
(** registrations, lease renewal, statistics: nothing the view shows *)
| ms_frame m' : view m' = view m -> mstep m m'.

Inductive mreach : mgr -> Prop :=
| mr_new cfg vm : vm_ok vm -> mreach (with_components cfg vm)
| mr_step m m' : mreach m -> mstep m m' -> mreach m'.

Inductive msteps m : mgr -> Prop :=
| mss_refl : msteps m m
| mss_step m1 m2 : msteps m m1 -> mstep m1 m2 -> msteps m m2.

Lemma minv_mstep (D : Z -> Prop) m m' :
  minv (D := D) 0 0 (view m) -> mstep m m' -> minv (D := D) 0 0 (view m').
Proof.
  intros Hm [| | | | | | | | | | | | | | | | | | | | | | |i c c' Hi Ht|m'' Hv]; cbn [fst].
  - by apply minv_begin.
  - by apply minv_begin_long_read.
  - by apply minv_begin_checkpoint_transaction.
  - by apply minv_commit.
  - by apply minv_abort_transaction.
  - by apply minv_abort_with_undo.
  - by apply minv_recover.
  - by apply minv_startup.
  - by apply minv_cleanup.
  - by apply minv_shutdown.
  - by apply minv_begin_statement.
  - by apply minv_refresh.
  - by apply minv_finish_statement.
  - by apply minv_create_savepoint.
  - by apply minv_release_savepoint.
  - by apply minv_rollback.
  - by apply minv_set_owner.
  - by apply minv_disconnect.
  - by apply minv_begin_checkpoint.
  - by apply minv_end_checkpoint.
  - by apply minv_ck_early.
  - by apply minv_ck_commit.
  - by apply minv_ck_abort.
  - by apply (minv_store 0 i c).
  - by rewrite Hv.
Qed.

Definition nothing (_ : Z) : Prop := False.

Lemma minv_new cfg vm : vm_ok vm -> minv (D := nothing) 0 0 (view (with_components cfg vm : mgr)).
Proof.
  intros Hok. split; simpl; try done; try lia.
Qed.

Lemma minv_reach m : mreach m -> minv (D := nothing) 0 0 (view m).
Proof. induction 1; [by apply minv_new|by eapply minv_mstep]. Qed.

Lemma minv_steps D m m' :
  minv (D := D) 0 0 (view m) -> msteps m m' -> minv (D := D) 0 0 (view m').
Proof. intros Hm. induction 1; [done|by eapply minv_mstep]. Qed.

(** The set of commits known to be out may be chosen at any point. *)
Lemma minv_choose D m :
  minv (D := nothing) 0 0 (view m) -> (forall i, D i -> vdurable (view m) i) ->
  minv (D := D) 0 0 (view m).
Proof.
  intros [H0k H1 H2 H3 H4 H5 H6 H7 H8 H9 H10 H11 H12 H13 _] Hd. by split.
Qed.

(** ** What the invariant gives *)

Lemma slots_zero (M : gmap Z context) :
  slots M = 0 <-> forall i c, M !! i = Some c -> holds_slot c = false.
Proof.
  unfold slots. split.
  - intros E i c Hi. destruct (holds_slot c) eqn:Hs; [|done].
    assert ((i, c) ∈ base.filter (fun e => holds_slot e.2 = true) (map_to_list M)) as Hin.
    { apply list_elem_of_filter. split; [done|]. by apply elem_of_map_to_list. }
    destruct (base.filter _ _); [by apply elem_of_nil in Hin|simpl in E; lia].
  - intros Hn. destruct (base.filter _ _) as [|[i c] l] eqn:E; [done|].
    assert ((i, c) ∈ base.filter (fun e => holds_slot e.2 = true) (map_to_list M)) as Hin
      by (rewrite E; set_solver).
    apply list_elem_of_filter in Hin as [Hs Hin%elem_of_map_to_list]. simpl in Hs.
    by rewrite (Hn i c Hin) in Hs.
Qed.

(** After any sequence of calls the checkpoint gate counts exactly the
    write transactions of the table that still hold their lease: a checkpoint
    that has drained the gate runs with no such transaction, and none is
    counted that has ended. *)
Theorem gate_leases_exact m :
  mreach m -> in_memory (m_config m) = false ->
  active_writes (m_gate m) = slots (m_active m) /\
  (active_writes (m_gate m) = 0 <->
   forall i c, m_active m !! i = Some c -> is_write c -> resources_released (x_life c) = true).
Proof.
  intros Hm%minv_reach Hmem. pose proof (mi_gate _ _ _ Hm Hmem) as Hg. simpl in Hg.
  rewrite Z.add_0_r in Hg. split; [done|]. rewrite Hg, slots_zero.
  split; intros Hs i c Hi; specialize (Hs i c Hi).
  - intros Hw. unfold holds_slot in Hs. rewrite bool_decide_eq_true_2 in Hs by exact Hw.
    by destruct (resources_released (x_life c)).
  - unfold holds_slot. case_bool_decide; [|done]. by rewrite Hs.
Qed.

(** After any sequence of calls at most one live transaction holds the
    write exclusion of the pessimistic mode, the manager's owner field names
    it, and it is still executing; without one the field is zero. *)
Theorem single_exclusion m :
  mreach m ->
  (forall i c, m_active m !! i = Some c -> holds_slot c = true ->
     pessimistic_lock_held (x_life c) = true -> m_owner m = i) /\
  (m_owner m <> 0 -> exists c, m_active m !! m_owner m = Some c /\ holds_slot c = true /\
     pessimistic_lock_held (x_life c) = true /\ state (x_life c) = Active).
Proof.
  intros Hm%minv_reach. split; [exact (mi_lock _ _ _ Hm)|]. intros Ho.
  destruct (mi_owner _ _ _ Hm Ho) as (c & Hc & Hs & Hl). exists c. split_and!; try done.
  pose proof (mi_live _ _ _ Hm _ c Ho Hc) as Hlive. by destruct (lo_slot _ _ Hlive Hs).
Qed.

(** [C22] After any sequence of calls the timestamp of every executing write
    transaction is pending and above the read frontier, and every reader's
    snapshot is at or below the frontier: no reader's snapshot ever covers a
    transaction that has not committed. *)
Theorem writers_above_readers m i j r w :
  mreach m ->
  m_active m !! i = Some r -> txn_type (x_const r) = TReadOnly ->
  m_active m !! j = Some w -> is_write w -> state (x_life w) = Active ->
  start r <= read_ts (m_vm m) < start w /\ pending (m_vm m) (start w).
Proof.
  intros Hm%minv_reach Hi Hr Hj Hw Hst. pose proof (mi_reader _ _ _ Hm i r Hi Hr) as Hle.
  destruct (mi_id _ _ _ Hm j w Hj) as [_ Hpos].
  pose proof (mi_live _ _ _ Hm j w ltac:(lia) Hj) as Hl.
  destruct (lo_slot _ _ Hl (lo_active _ _ Hl Hw Hst)) as [_ Hp].
  pose proof (pending_range _ _ (mi_vm _ _ _ Hm) Hp) as Hrange. unfold start in *. simpl in *.
  split; [lia|done].
Qed.

(** A transaction whose commit is out, wherever its context lives. *)
Definition durable m (i : Z) : Prop :=
  exists c, find_ctx i m = Some c /\ commit_published (x_life c) = true /\
    state (x_life c) <> Aborted.

Lemma durable_view D m i : minv (D := D) 0 0 (view m) -> durable m i <-> vdurable (view m) i.
Proof.
  intros Hm. unfold durable, vdurable, find_ctx. simpl. split.
  - intros (c & Hc & Hp & Hs). destruct (m_active m !! i) as [d|] eqn:E.
    + injection Hc as ->. left. eauto.
    + right. eauto.
  - intros [(c & Hc & Hp)|(c & Hc & Hp & Hs)]; exists c.
    + rewrite Hc. split; [done|]. split; [done|]. destruct (mi_id _ _ _ Hm i c Hc).
      pose proof (mi_live _ _ _ Hm i c ltac:(lia) Hc) as Hl.
      by rewrite (lo_published _ _ Hl Hp).
    + destruct (mi_retired _ _ _ Hm i c Hc) as (_ & _ & Hn). simpl in Hn. by rewrite Hn.
Qed.

(** [C21] A commit that is published stays so: no later call, neither an abort,
    a cleanup, a shutdown nor a recovery, turns it into an aborted
    transaction. *)
Theorem durable_never_aborted m m' i :
  mreach m -> durable m i -> msteps m m' -> durable m' i.
Proof.
  intros Hm%minv_reach Hd Hs. apply (durable_view _ m i Hm) in Hd.
  pose proof (minv_choose (fun j => j = i) m Hm) as Hm1.
  assert (minv (D := fun j => j = i) 0 0 (view m')) as Hm2.
  { eapply minv_steps; [|exact Hs]. apply Hm1. by intros j ->. }
  apply (durable_view _ m' i Hm2). by apply (mi_durable _ _ _ Hm2).
Qed.


(** ** Outcomes of a commit *)

Definition gone_as m i (c' : context) : Prop :=
  m_active m !! i = None /\ m_retired m !! i = Some c'.

Lemma retire_gone m c' v i :
  view m = vretire c' v -> xid c' = i -> gone_as m i c'.
Proof.
  intros Hv <-. split; [change (v_active (view m) !! xid c' = None)|
    change (v_retired (view m) !! xid c' = Some c')]; rewrite Hv; simpl;
    [apply lookup_delete_eq|apply lookup_insert_eq].
Qed.

Lemma put_there m c' v f i :
  view m = vset_vm f (vput c' v) -> xid c' = i -> m_active m !! i = Some c'.
Proof.
  intros Hv <-. change (v_active (view m) !! xid c' = Some c'). rewrite Hv. apply lookup_insert_eq.
Qed.

Lemma record_queued ok (ds : TransactionCommitDescriptor) ts lsn q :
  d_transaction_id ds ∈ Pending.pending_txn_ids (Pending.record ok ds ts lsn q).
Proof.
  unfold Pending.record, Pending.persist_locked, Pending.pending_txn_ids.
  set (q1 := Pending.set_queue _ q).
  assert (d_transaction_id ds ∈ pf_txn_id <$> pending_finalizations q1) as Hin.
  { simpl. rewrite fmap_app. apply elem_of_app. right. apply list_elem_of_here. }
  destruct (sidecar_path q1); [|done]. by destruct ok.
Qed.

Lemma vm_of_view m v : view m = v -> m_vm m = v_vm v.
Proof. by intros <-. Qed.

Lemma v_vm_release c (v : View Value) : v_vm (vrelease c v) = v_vm v.
Proof. unfold vrelease. by destruct (holds_slot c). Qed.

Lemma rollback_settled c vm :
  vm_ok vm -> is_write c ->
  ~ pending (unpin c (rollback_context_timestamp c vm)) (start c).
Proof.
  intros Hok Hw Hp. rewrite (pending_core _ _ _ (unpin_core c _)) in Hp. unfold is_write in Hw.
  unfold rollback_context_timestamp in Hp. rewrite Hw in Hp. cbn [uses_mvcc negb] in Hp.
  destruct (vm_ok_finish (start c) WAborted vm Hok ltac:(done)) as (_ & _ & F).
  apply F in Hp. by destruct Hp as [_ []].
Qed.

(** How a commit may end, for the transaction [c] in slot [i]. *)
Inductive commit_end m m' i c : result unit TransactionError -> Prop :=
| ce_committed c' ts :
    gone_as m' i c' -> commit_published (x_life c') = true -> state (x_life c') <> Aborted ->
    commit_timestamp (x_life c') = ts -> write_ts (m_vm m) < ts ->
    ~ pending (m_vm m') (start c) -> ~ pending (m_vm m') ts -> commit_end m m' i c (Ok tt)
| ce_aborted c' e :
    gone_as m' i c' -> state (x_life c') = Aborted -> ~ pending (m_vm m') (start c) ->
    commit_end m m' i c (Err e)
| ce_refused c' e :
    m_active m' !! i = Some c' -> state (x_life c') = Active -> holds_slot c' = true ->
    pending (m_vm m') (start c) -> commit_end m m' i c (Err e)
| ce_queued c' e :
    m_active m' !! i = Some c' -> state (x_life c') = Committing -> holds_slot c' = false ->
    i ∈ Pending.pending_txn_ids (m_recovery m') -> commit_end m m' i c (Err e).

(** [C20] Every commit of an executing write transaction ends in one of four
    ways: it succeeds, and then the transaction has left the table, published
    under a fresh commit timestamp with both of its slots settled; it is
    aborted, and then its slot is settled and it never became visible; it is
    refused and the transaction goes on with its slot; or it is in the WAL but
    not finalized, and then it has given its lease back and waits in the
    recovery queue. *)
Theorem commit_resolves env m i c m' r :
  mreach m -> m_active m !! i = Some c -> is_write c -> state (x_life c) = Active ->
  commit_transaction env i m = (m', r) -> commit_end m m' i c r.
Proof.
  intros Hm%minv_reach Hi Hw Hst E. destruct (mi_id _ _ _ Hm i c Hi) as [Hid Hpos].
  pose proof (mi_live _ _ _ Hm i c ltac:(lia) Hi) as Hl.
  pose proof (mi_vm _ _ _ Hm : vm_ok (m_vm m)) as Hok.
  pose proof (lo_active _ _ Hl Hw Hst) as Hs. destruct (lo_slot _ _ Hl Hs) as [_ Hp].
  destruct (commit_write_cases env m i c m' r Hi Hid Hw Hok Hl E)
    as [c1 m' e (K & L & _) Hv|m' e [(c' & Hv & [K Hst' _ _]) _]|c' m' e vm ts Hr [K Hst' _ _] Hv _
    |c1 m' d lsn e Hr [U1 U2 U3 U4] Hd Hv Hq|c1 m' d lsn vm ts Hr [U1 U2 U3 U4] Hd _ Hv Hq
    |c' m' d lsn vm ts Hr K Hts Hpb Hd Hv Hst'];
    pose proof (vm_of_view _ _ Hv) as Hvm.
  - apply (ce_refused _ _ _ _ c1).
    + apply (put_there m' c1 (view m) (fun vm => vm)); [done|unfold xid in *; by rewrite K].
    + by rewrite L.
    + unfold holds_slot in *. by rewrite K, L.
    + by rewrite Hvm.
  - apply (ce_aborted _ _ _ _ c'); [eapply retire_gone; [exact Hv|unfold xid in *; by rewrite K]|done|].
    rewrite Hvm. simpl. rewrite v_vm_release. by apply rollback_settled.
  - apply (ce_aborted _ _ _ _ c'); [eapply retire_gone; [exact Hv|unfold xid in *; by rewrite K]|done|].
    rewrite Hvm. simpl. destruct (reserve_review_ok _ _ _ _ _ Hok Hr) as (F1 & _).
    by apply rollback_settled.
  - apply (ce_queued _ _ _ _ c1); [|done| |].
    + apply (put_there m' c1 (vrelease c (view m)) (fun vm => vm)); [done|unfold xid in *; by rewrite U1].
    + unfold holds_slot. rewrite U3. apply andb_false_r.
    + rewrite Hq, <- Hid, <- Hd. apply record_queued.
  - apply (ce_queued _ _ _ _ c1); [|done| |].
    + eapply put_there; [exact Hv|unfold xid in *; by rewrite U1].
    + unfold holds_slot. rewrite U3. apply andb_false_r.
    + rewrite Hq, <- Hid, <- Hd. apply record_queued.
  - destruct (reserve_commit_ok _ _ _ _ _ Hok Hr) as (R1 & R2 & R3 & R4 & R5).
    destruct (publish_reserved_ok (call_now env) (start c) ts vm R1 ltac:(lia)) as (P1 & P2 & P3).
    assert (forall x, pending (m_vm m') x -> x <> start c /\ x <> ts) as Hset.
    { intros x. rewrite Hvm. simpl. rewrite (pending_core _ _ _ (unpin_core c _)), P3. tauto. }
    apply (ce_committed _ _ _ _ c' ts); try done.
    + eapply retire_gone; [exact Hv|unfold xid in *; by rewrite K].
    + destruct Hst' as [[-> _]|[-> _]]; done.
    + lia.
    + intros Hx1%Hset. tauto.
    + intros Hx1%Hset. tauto.
Qed.


(** ** Shutdown *)

Lemma abort_leaves env i m j c :
  minv (D := nothing) 0 0 (view m) -> m_active (abort_transaction env i m).1 !! j = Some c ->
  m_active m !! j = Some c /\ (j = i -> commit_published (x_life c) = true).
Proof.
  intros Hm Hj. pose proof (kept_abort env 0 i m Hm) as (_ & _ & _ & Hsub & _).
  pose proof (lookup_weaken _ _ _ _ Hj Hsub) as Hj0. split; [done|]. intros ->.
  destruct (abort_transaction env i m) as [m' r] eqn:E. cbn [fst] in *.
  destruct (abort_transaction_cases env 0 i m m' r Hm E)
    as [[-> (e & _ & Hf)]|(d & d' & Hd & _ & Hv & [K _ _ _] & _)].
  - destruct (mi_id _ _ _ Hm i c Hj0). pose proof (mi_live _ _ _ Hm i c ltac:(lia) Hj0) as [Hst _ _ _ _].
    unfold fetch_abortable_context, get_context in Hf. rewrite Hj0 in Hf.
    assert (can_abort (state (x_life c)) = true) as Ha by (by destruct Hst as [-> | ->]).
    rewrite Ha in Hf. by destruct (commit_published (x_life c)).
  - destruct (mi_id _ _ _ Hm i d Hd) as [Hid _]. exfalso.
    assert (xid d' = i) as Hx by (unfold xid in *; by rewrite K).
    change (v_active (view m') !! i = Some c) in Hj. rewrite Hv in Hj. unfold vabort, vretire in Hj.
    simpl in Hj. rewrite Hx in Hj. by rewrite lookup_delete_eq in Hj.
Qed.

Lemma shutdown_loop_leaves env ids m j c :
  minv (D := nothing) 0 0 (view m) -> m_active (shutdown_loop env ids m) !! j = Some c ->
  m_active m !! j = Some c /\ (j ∈ ids -> commit_published (x_life c) = true).
Proof.
  revert m. induction ids as [|i ids IH]; intros m Hm; simpl; [intros Hj; split; [done|set_solver]|].
  pose proof (abort_leaves env i m j c Hm) as Hab.
  pose proof (minv_abort_transaction env 0 i m Hm) as Hm1.
  assert (match m_active m !! i with Some c => bool_decide (state (x_life c) = Committed)
          | None => false end = false) as ->.
  { destruct (m_active m !! i) as [d|] eqn:Hi; [|done]. apply bool_decide_eq_false_2.
    destruct (mi_id _ _ _ Hm i d Hi). pose proof (mi_live _ _ _ Hm i d ltac:(lia) Hi) as [Hst _ _ _ _].
    by destruct Hst as [-> | ->]. }
  destruct (abort_transaction env i m) as [m1 r]. cbn [fst] in *.
  assert (forall m2, m_active m2 = m_active m1 -> minv (D := nothing) 0 0 (view m2) ->
    m_active (shutdown_loop env ids m2) !! j = Some c ->
    m_active m !! j = Some c /\ (j ∈ i :: ids -> commit_published (x_life c) = true)) as Hgo.
  { intros m2 E2 Hm2 Hj. destruct (IH m2 Hm2 Hj) as [Hj1 Hin]. rewrite E2 in Hj1.
    destruct (Hab Hj1) as [Hj0 Heq]. split; [done|]. intros [->|?]%elem_of_cons; auto. }
  destruct r as [[]|e]; by apply Hgo.
Qed.

Lemma shutdown_loop_config env ids m :
  minv (D := nothing) 0 0 (view m) -> m_config (shutdown_loop env ids m) = m_config m.
Proof.
  revert m. induction ids as [|i ids IH]; intros m Hm; simpl; [done|].
  pose proof (kept_abort env 0 i m Hm) as (_ & Hc & _).
  pose proof (minv_abort_transaction env 0 i m Hm) as Hm1. simpl in Hc.
  destruct (match m_active m !! i with Some c => _ | None => _ end); [by apply IH|].
  destruct (abort_transaction env i m) as [m1 [[]|e]]; cbn [fst] in *; rewrite IH; done.
Qed.

Lemma sorted_ids m i c : m_active m !! i = Some c -> i ∈ (sorted_entries (m_active m)).*1.
Proof.
  intros Hi. apply list_elem_of_fmap. exists (i, c). split; [done|].
  by apply elem_of_sorted_entries.
Qed.

(** Shutdown ends every transaction it may end: afterwards the table holds
    only published commits that await their finalization, no transaction holds
    a gate slot, the gate counts none and the write exclusion is free. *)
Theorem shutdown_releases env m :
  mreach m ->
  (forall i c, m_active (shutdown env m) !! i = Some c ->
     m_active m !! i = Some c /\ commit_published (x_life c) = true /\
     state (x_life c) = Committing) /\
  (in_memory (m_config m) = false -> active_writes (m_gate (shutdown env m)) = 0) /\
  m_owner (shutdown env m) = 0.
Proof.
  intros Hm%minv_reach. pose proof (minv_shutdown env 0 m Hm) as Hm1.
  assert (forall i c, m_active (shutdown env m) !! i = Some c ->
     m_active m !! i = Some c /\ commit_published (x_life c) = true /\
     state (x_life c) = Committing) as Hleft.
  { intros i c Hi. destruct (shutdown_loop_leaves env _ (set_shutdown true m) i c Hm Hi) as [Hi0 Hp].
    pose proof (Hp (sorted_ids (set_shutdown true m) i c Hi0)) as Hpb. split_and!; [done..|].
    destruct (mi_id _ _ _ Hm i c Hi0). pose proof (mi_live _ _ _ Hm i c ltac:(lia) Hi0) as Hl.
    by apply (lo_published _ _ Hl). }
  assert (forall i c, m_active (shutdown env m) !! i = Some c -> holds_slot c = false) as Hno.
  { intros i c Hi. destruct (holds_slot c) eqn:Hs; [|done]. destruct (Hleft i c Hi) as (_ & _ & Hst).
    destruct (mi_id _ _ _ Hm1 i c Hi). pose proof (mi_live _ _ _ Hm1 i c ltac:(lia) Hi) as Hl.
    destruct (lo_slot _ _ Hl Hs). congruence. }
  split; [done|]. split.
  - intros Hmem. assert (m_config (shutdown env m) = m_config m) as Hc.
    { exact (shutdown_loop_config env _ (set_shutdown true m) Hm). }
    rewrite <- Hc in Hmem. pose proof (mi_gate _ _ _ Hm1 Hmem) as Hg. simpl in Hg. rewrite Hg.
    rewrite (proj2 (slots_zero _) Hno). done.
  - destruct (decide (m_owner (shutdown env m) = 0)) as [|Hne]; [done|].
    destruct (mi_owner _ _ _ Hm1 Hne) as (c & Hc & Hs & _). by rewrite (Hno _ c Hc) in Hs.
Qed.


(** ** Re-drive *)

(** [C34] A durable commit that storage did not finalize, and whose record is still in
    the recovery queue, is not stuck: as soon as storage accepts the finalization,
    the clock has a timestamp left and the undo log can be truncated, its re-drive
    succeeds and the transaction leaves the table committed. *)
Theorem redrive_completes env m i c q p :
  mreach m -> m_active m !! i = Some c -> commit_published (x_life c) = true ->
  Pending.take_pending i (m_recovery m) = (q, Some p) ->
  (in_memory (m_config m) = true \/
   exists m1, finalize_sink (pf_descriptor p) (pf_commit_lsn p) (set_recovery q m) = (m1, Ok tt)) ->
  write_ts (m_vm m) + 1 < MAX_TIMESTAMP -> io_set_len (call_io env) = true ->
  exists m' c', recover_pending_finalization env i m = (m', Ok tt) /\ gone_as m' i c' /\
    state (x_life c') = Committed /\ commit_published (x_life c') = true.
Proof.
  intros Hm%minv_reach Hi Hp Htake Hfin Hts Hio. unfold recover_pending_finalization. rewrite Htake.
  change (m_active (set_recovery q m)) with (m_active m). rewrite Hi.
  destruct (mi_id _ _ _ Hm i c Hi) as [Hid Hpos].
  pose proof (mi_live _ _ _ Hm i c ltac:(lia) Hi) as Hl. pose proof (lo_published _ _ Hl Hp) as Hst.
  destruct (recover_body_end (D := nothing) env i p c (set_recovery q m)) as (h & r & E & _ & Hok).
  { unfold home. rewrite Hid. exact Hi. }
  { exact (mi_vm _ _ _ Hm). }
  rewrite E. destruct (Hok Hst Hp Hfin Hts Hio) as [-> (c1 & m1 & _ & [(e & [=] & _)|Hend])].
  destruct Hend as (c' & _ & Hv & K & Hst' & Hpb). exists h.2, c'. split; [done|].
  split; [|split; [done|by rewrite Hpb]].
  eapply retire_gone; [exact Hv|]. unfold xid in *. by rewrite K.
Qed.


Lemma recover_empties (s : option S) q : pending_finalizations (Pending.recover s q).1.1 = [].
Proof.
  assert (forall q0, pending_finalizations q0 = [] -> pending_finalizations (Pending.clear_sidecar q0) = [])
    as Hc by (intros q0; unfold Pending.clear_sidecar; by destruct (sidecar_path q0)).
  unfold Pending.recover. destruct s as [s|]; [|by apply Hc].
  destruct (sink_recover s) as [s1 [n|e]]; [by apply Hc|done].
Qed.

(** [startup_recovery] strands the commits it fails to re-drive: the queue
    is empty afterwards, so a published commit that is still in the table can
    neither be re-driven ("not found") nor aborted. *)
Theorem startup_strands env env' m m' r i c :
  mreach m -> startup_recovery env m = (m', r) ->
  m_active m' !! i = Some c -> commit_published (x_life c) = true ->
  Pending.pending_txn_ids (m_recovery m') = [] /\
  recover_pending_finalization env' i m' = (m', Err (TransactionNotFound i)) /\
  abort_transaction env' i m' = (m', Err CommitFailed).
Proof.
  intros Hr%minv_reach E Hi Hp. pose proof (minv_startup env 0 m Hr) as Hm. rewrite E in Hm.
  cbn [fst] in Hm. destruct (mi_id _ _ _ Hm i c Hi).
  pose proof (mi_live _ _ _ Hm i c ltac:(lia) Hi) as Hl.
  assert (pending_finalizations (m_recovery m') = []) as Hq.
  { unfold startup_recovery in E. destruct (redrive _ _ m) as [m1 n].
    pose proof (recover_empties (m_sink m1) (m_recovery m1)) as He.
    destruct (Pending.recover _ _) as [[q s] [j|e]]; injection E as <- _; exact He. }
  split; [unfold Pending.pending_txn_ids; by rewrite Hq|]. split.
  - unfold recover_pending_finalization, Pending.take_pending. by rewrite Hq.
  - unfold abort_transaction, fetch_abortable_context, get_context. rewrite Hi.
    by rewrite (lo_published _ _ Hl Hp), Hp.
Qed.


End safety.
End MgrSafety.
