(* ===== verification/Connection.v ===== *)
(** * Connections

    [connection.rs]: a connection has a mode and at most one current transaction;
    the connection manager begins, commits and aborts it through the transaction
    manager, under the connection's name as owner.

    A method works on the connection table and the transaction manager.  The
    operation a caller passes works on a context and may change it. *)

From stdpp Require Import base gmap sets list strings pretty.
From Stdlib Require Import ZArith Lia.
From S2P Require Import Prelude Types SnapshotTracker VersionManager Watermarks WriteSet Stats.
From S2P Require Import WalTypes Certifier UndoLog Journal Context Events CheckpointGate.
From S2P Require Import PendingRecovery Manager ManagerCommit ManagerFacts ManagerInv.
From S2P Require Import ManagerOutcome ManagerReach ManagerSafety.

Inductive TransactionMode := AutoCommit | Manual.

#[export] Instance TransactionMode_eq_dec : EqDecision TransactionMode.
Proof. solve_decision. Defined.

Record ConnectionContext := mkConn {
  cn_id : Z;
  cn_mode : TransactionMode;
  current_transaction : option TransactionId;
  savepoint_stack : list Z;
  transaction_options : TransactionOptions;
  cn_auto_commit : bool;
}.

Record ConnectionManager := mkConns {
  connections : gmap Z ConnectionContext;
  id_generator : Z;
}.

Module Conn.
Import Mgr MgrOps MgrFacts MgrInv MgrOutcome MgrReach MgrSafety.

(** ** One connection *)

Definition with_mode (i : Z) (mode : TransactionMode) : ConnectionContext :=
  mkConn i mode None [] default_options (bool_decide (mode = AutoCommit)).

Definition new_connection (i : Z) : ConnectionContext := with_mode i AutoCommit.

Definition set_mode (mode : TransactionMode) (c : ConnectionContext) : ConnectionContext :=
  mkConn (cn_id c) mode (current_transaction c) (savepoint_stack c) (transaction_options c)
    (bool_decide (mode = AutoCommit)).

Definition set_auto_commit (b : bool) (c : ConnectionContext) : ConnectionContext :=
  mkConn (cn_id c) (if b then AutoCommit else Manual) (current_transaction c) (savepoint_stack c)
    (transaction_options c) b.

Definition has_active_transaction (c : ConnectionContext) : bool :=
  bool_decide (is_Some (current_transaction c)).

Definition bind_transaction (t : TransactionId) (c : ConnectionContext) : ConnectionContext :=
  mkConn (cn_id c) (cn_mode c) (Some t) (savepoint_stack c) (transaction_options c) (cn_auto_commit c).

Definition unbind_transaction (c : ConnectionContext) : ConnectionContext :=
  mkConn (cn_id c) (cn_mode c) None [] (transaction_options c) (cn_auto_commit c).

Definition set_transaction_options (o : TransactionOptions) (c : ConnectionContext)
  : ConnectionContext :=
  mkConn (cn_id c) (cn_mode c) (current_transaction c) (savepoint_stack c) o (cn_auto_commit c).

Definition push_savepoint (s : Z) (c : ConnectionContext) : ConnectionContext :=
  mkConn (cn_id c) (cn_mode c) (current_transaction c) (savepoint_stack c ++ [s])
    (transaction_options c) (cn_auto_commit c).

Definition clear_savepoints (c : ConnectionContext) : ConnectionContext :=
  mkConn (cn_id c) (cn_mode c) (current_transaction c) [] (transaction_options c) (cn_auto_commit c).

(** ** The table *)

Definition new : ConnectionManager := mkConns ∅ 1.

Definition create_connection_with_mode (mode : TransactionMode) (k : ConnectionManager)
  : ConnectionManager * Z :=
  let i := id_generator k in
  (mkConns (<[i := with_mode i mode]> (connections k)) (wrap_u64 (i + 1)), i).

Definition create_connection (k : ConnectionManager) : ConnectionManager * Z :=
  create_connection_with_mode AutoCommit k.

Definition remove_connection (i : Z) (k : ConnectionManager) : ConnectionManager :=
  mkConns (delete i (connections k)) (id_generator k).

(** A change of a connection through its shared handle. *)
Definition update (i : Z) (f : ConnectionContext -> ConnectionContext) (k : ConnectionManager)
  : ConnectionManager := mkConns (alter f i (connections k)) (id_generator k).

Definition owner_for_connection (i : Z) : string := "conn:conn-" +:+ pretty i.

Section connections.
Context {Value S Y : Type} `{CommitSink Value S} `{SyncPort Y}.
Abbreviation mgr := (TransactionManager Value S Y).
Abbreviation context := (TransactionContext Value).
Implicit Types m : mgr.

(** The outcome is [None] when the begin of a reader waits, as in
    [Mgr.begin_transaction]. *)
Definition begin_for_connection (env : CallEnv) (i : Z) (o : TransactionOptions)
    (k : ConnectionManager) m
  : ConnectionManager * mgr * option (result TransactionId TransactionError) :=
  match connections k !! i with
  | None => (k, m, Some (Err InternalError))
  | Some conn =>
      if has_active_transaction conn then (k, m, Some (Err InternalError))
      else match begin_transaction env o m with
           | (m1, Some (Ok t)) =>
               match set_transaction_owner t (owner_for_connection i) m1 with
               | (m2, Ok _) => (update i (bind_transaction t) k, m2, Some (Ok t))
               | (m2, Err e) => (k, (abort_transaction env t m2).1, Some (Err e))
               end
           | (m1, r) => (k, m1, r)
           end
  end.

(** The shape of commit and abort: [f] runs on the current transaction when the
    connection owns it, and the binding ends when [f] succeeds. *)
Definition end_for_connection (f : TransactionId -> ST mgr TransactionError unit) (i : Z)
    (k : ConnectionManager) m : ConnectionManager * mgr * result unit TransactionError :=
  match connections k !! i with
  | None => (k, m, Err InternalError)
  | Some conn =>
      match current_transaction conn with
      | None => (k, m, Err InternalError)
      | Some t =>
          match check_transaction_owner t (Some (owner_for_connection i)) m with
          | Err e => (k, m, Err e)
          | Ok _ =>
              match f t m with
              | (m1, Err e) => (k, m1, Err e)
              | (m1, Ok _) => (update i unbind_transaction k, m1, Ok tt)
              end
          end
      end
  end.

Definition commit_for_connection (env : CallEnv) (i : Z) (k : ConnectionManager) m
  : ConnectionManager * mgr * result unit TransactionError :=
  end_for_connection (commit_transaction env) i k m.

Definition abort_for_connection (env : CallEnv) (i : Z) (k : ConnectionManager) m
  : ConnectionManager * mgr * result unit TransactionError :=
  end_for_connection (abort_transaction env) i k m.

(** A caller's operation on the context of a transaction. *)
Definition run_operation {A} (op : context -> context * result A TransactionError)
    (t : TransactionId) m : mgr * result A TransactionError :=
  match get_context t m with
  | Err e => (m, Err e)
  | Ok c => let '(c1, r) := op c in (store c1 m, r)
  end.

(** One statement in a transaction of its own. *)
Definition one_shot {A} (env : CallEnv) (o : TransactionOptions)
    (op : context -> context * result A TransactionError) m
  : mgr * option (result A TransactionError) :=
  match begin_transaction env o m with
  | (m1, None) => (m1, None)
  | (m1, Some (Err e)) => (m1, Some (Err e))
  | (m1, Some (Ok t)) =>
      match get_context t m1 with
      | Err e => (m1, Some (Err e))
      | Ok c =>
          let '(c1, r) := op c in
          let m2 := store c1 m1 in
          match r with
          | Ok a =>
              match commit_transaction env t m2 with
              | (m3, Ok _) => (m3, Some (Ok a))
              | (m3, Err e) => (m3, Some (Err e))
              end
          | Err e => ((abort_transaction env t m2).1, Some (Err e))
          end
      end
  end.

Definition execute_auto_commit {A} (env : CallEnv) (i : Z) (o : TransactionOptions)
    (op : context -> context * result A TransactionError) (k : ConnectionManager) m
  : mgr * option (result A TransactionError) :=
  match connections k !! i with
  | None => (m, Some (Err InternalError))
  | Some conn =>
      match cn_mode conn with
      | Manual =>
          match current_transaction conn with
          | Some t => let '(m1, r) := run_operation op t m in (m1, Some r)
          | None => (m, Some (Err InternalError))
          end
      | AutoCommit => one_shot env o op m
      end
  end.

Definition with_connection_transaction {A} (env : CallEnv) (i : Z)
    (op : context -> context * result A TransactionError) (k : ConnectionManager) m
  : mgr * option (result A TransactionError) :=
  match connections k !! i with
  | None => (m, Some (Err InternalError))
  | Some conn =>
      match current_transaction conn with
      | Some t => let '(m1, r) := run_operation op t m in (m1, Some r)
      | None =>
          if cn_auto_commit conn then execute_auto_commit env i (transaction_options conn) op k m
          else (m, Some (Err InternalError))
      end
  end.

(** ** Ownership *)

Lemma owner_inj i j : owner_for_connection i = owner_for_connection j -> i = j.
Proof. unfold owner_for_connection. by intros ?%(inj _)%(inj _). Qed.

(** ** The connection layer over the manager *)

(** A call of the connection layer, with the changes it makes to the manager. *)
Inductive cstep (k : ConnectionManager) m : ConnectionManager -> mgr -> Prop :=
| cs_table k' : cstep k m k' m
| cs_begin env i o :
    let r := begin_for_connection env i o k m in cstep k m r.1.1 r.1.2
| cs_commit env i :
    let r := commit_for_connection env i k m in cstep k m r.1.1 r.1.2
| cs_abort env i :
    let r := abort_for_connection env i k m in cstep k m r.1.1 r.1.2
| cs_execute A env i o (op : context -> context * result A TransactionError) :
    (forall c, tame c (op c).1) -> cstep k m k (execute_auto_commit env i o op k m).1
| cs_with A env i (op : context -> context * result A TransactionError) :
    (forall c, tame c (op c).1) -> cstep k m k (with_connection_transaction env i op k m).1.

Lemma steps_one m m' : mstep m m' -> msteps m m'.
Proof. intros Hs. eapply mss_step; [apply mss_refl|exact Hs]. Qed.

Lemma get_context_active t m c : get_context t m = Ok c -> m_active m !! t = Some c.
Proof. unfold get_context. by destruct (m_active m !! t); intros [= ->]. Qed.

Lemma run_operation_steps {A} (op : context -> context * result A TransactionError) t m :
  (forall c, tame c (op c).1) -> msteps m (run_operation op t m).1.
Proof.
  intros Ht. unfold run_operation. destruct (get_context t m) as [c|e] eqn:Ec; [|apply mss_refl].
  specialize (Ht c). destruct (op c) as [c1 r]. simpl in *.
  eapply steps_one, ms_session; [by apply get_context_active|done].
Qed.

Lemma one_shot_steps {A} env o (op : context -> context * result A TransactionError) m :
  room m -> (forall c, tame c (op c).1) -> msteps m (one_shot env o op m).1.
Proof.
  intros Hr Ht. unfold one_shot. pose proof (ms_begin m env o Hr) as Hb.
  destruct (begin_transaction env o m) as [m1 [[t|e]|]]; simpl in *; try by apply steps_one.
  destruct (get_context t m1) as [c|e] eqn:Ec; simpl; [|by apply steps_one].
  specialize (Ht c). destruct (op c) as [c1 r]. simpl in *.
  assert (msteps m (store c1 m1)) as H2.
  { eapply mss_step; [by apply steps_one|]. eapply ms_session; [by apply get_context_active|done]. }
  destruct r as [a|e]; simpl.
  - pose proof (ms_commit (store c1 m1) env t) as Hc.
    destruct (commit_transaction env t (store c1 m1)) as [m3 [[]|]]; simpl in *; by eapply mss_step.
  - eapply mss_step; [exact H2|apply ms_abort].
Qed.

Lemma begin_for_connection_steps env i o k m :
  room m -> msteps m (begin_for_connection env i o k m).1.2.
Proof.
  intros Hr. unfold begin_for_connection. destruct (connections k !! i); [|apply mss_refl].
  destruct (has_active_transaction _); [apply mss_refl|]. pose proof (ms_begin m env o Hr) as Hb.
  destruct (begin_transaction env o m) as [m1 [[t|e]|]]; simpl in *; try by apply steps_one.
  pose proof (ms_owner m1 t (owner_for_connection i)) as Ho.
  destruct (set_transaction_owner t (owner_for_connection i) m1) as [m2 [[]|e]]; simpl in *.
  - eapply mss_step; [by apply steps_one|done].
  - eapply mss_step; [|apply ms_abort]. eapply mss_step; [by apply steps_one|done].
Qed.

Lemma end_for_connection_steps f i k m :
  (forall t m, mstep m (f t m).1) -> msteps m (end_for_connection f i k m).1.2.
Proof.
  intros Hf. unfold end_for_connection. destruct (connections k !! i) as [conn|]; [|apply mss_refl].
  destruct (current_transaction conn) as [t|]; [|apply mss_refl].
  destruct (check_transaction_owner _ _ _) as [[]|]; [|apply mss_refl].
  specialize (Hf t m). destruct (f t m) as [m1 [[]|e]]; by apply steps_one.
Qed.

(** The connection layer adds nothing to the manager: every call is a sequence of
    manager calls, so what holds of the manager over any sequence of its calls
    holds under any use of connections. *)
Theorem connection_refines_manager k m k' m' :
  cstep k m k' m' -> room m -> msteps m m'.
Proof.
  intros Hs Hr. destruct Hs as [| | | |A env i o op Ht|A env i op Ht].
  - apply mss_refl.
  - by apply begin_for_connection_steps.
  - apply end_for_connection_steps. intros. apply ms_commit.
  - apply end_for_connection_steps. intros. apply ms_abort.
  - unfold execute_auto_commit. destruct (connections k !! i) as [conn|]; [|apply mss_refl].
    destruct (cn_mode conn); [by apply one_shot_steps|].
    destruct (current_transaction conn) as [t|]; [|apply mss_refl].
    pose proof (run_operation_steps op t m Ht). by destruct (run_operation op t m).
  - unfold with_connection_transaction. destruct (connections k !! i) as [conn|] eqn:Ek; [|apply mss_refl].
    destruct (current_transaction conn) as [t|] eqn:Et.
    + pose proof (run_operation_steps op t m Ht). by destruct (run_operation op t m).
    + destruct (cn_auto_commit conn); [|apply mss_refl]. unfold execute_auto_commit. rewrite Ek.
      destruct (cn_mode conn); [by apply one_shot_steps|]. rewrite Et. apply mss_refl.
Qed.

(** A transaction that a connection began is its own: after a successful
    [begin_for_connection] the connection is bound to the new transaction, and no
    other connection can commit or abort it, even when it is bound to it; the
    attempt is refused and changes nothing. *)
Theorem begin_binds_owner env i o k m k' m' t :
  mreach m -> room m -> begin_for_connection env i o k m = (k', m', Some (Ok t)) ->
  (exists conn, connections k' !! i = Some conn /\ current_transaction conn = Some t) /\
  (exists c, m_active m' !! t = Some c /\ owner (x_life c) = Some (owner_for_connection i)) /\
  forall env' j conn k2, j <> i -> connections k2 !! j = Some conn ->
    current_transaction conn = Some t ->
    commit_for_connection env' j k2 m' = (k2, m', Err (TransactionNotOwner t)) /\
    abort_for_connection env' j k2 m' = (k2, m', Err (TransactionNotOwner t)).
Proof.
  intros Hm Hr. unfold begin_for_connection. destruct (connections k !! i) as [conn|] eqn:Ek; [|done].
  destruct (has_active_transaction conn); [done|].
  pose proof (mr_step m _ Hm (ms_begin m env o Hr)) as H1.
  destruct (begin_transaction env o m) as [m1 [[t1|e]|]]; simpl in H1; try done.
  unfold set_transaction_owner. destruct (get_context t1 m1) as [c|e] eqn:Ec; [|done].
  intros [= <- <- <-]. apply get_context_active in Ec.
  pose proof (mi_id _ _ _ (minv_reach m1 H1) t1 c Ec) as [Hid _].
  set (c1 := Ctx.set_owner (owner_for_connection i) c). set (m2 := store c1 m1).
  assert (m_active m2 !! t1 = Some c1) as H2.
  { subst m2 c1. unfold store. simpl. unfold xid in Hid. rewrite Hid, Ec. simpl. by rewrite lookup_insert_eq. }
  split; [|split].
  - exists (bind_transaction t1 conn). unfold update. simpl. by rewrite lookup_alter_eq, Ek.
  - by exists c1.
  - intros env' j conn' k2 Hj Hk Hc.
    assert (check_transaction_owner t1 (Some (owner_for_connection j)) m2 = Err (TransactionNotOwner t1))
      as Hno.
    { unfold check_transaction_owner, get_context. rewrite H2. subst c1. unfold Ctx.owner_matches. simpl.
      rewrite bool_decide_eq_false_2; [done|]. intros E. by apply Hj, owner_inj. }
    unfold commit_for_connection, abort_for_connection, end_for_connection. by rewrite Hk, Hc, Hno.
Qed.

(** A failed commit wedges its connection: the binding is dropped only when
    the commit succeeds, so when the failure has ended the transaction (it was
    aborted) the connection stays bound to a transaction that no longer exists.
    From then on, in every state of the manager without that transaction, the
    connection cannot begin, commit or abort: all three are refused and change
    nothing. *)
Theorem failed_commit_wedges env i k m k' m' e conn t :
  commit_for_connection env i k m = (k', m', Err e) ->
  connections k !! i = Some conn -> current_transaction conn = Some t ->
  k' = k /\
  forall env2 o m2, m_active m2 !! t = None ->
    begin_for_connection env2 i o k' m2 = (k', m2, Some (Err InternalError)) /\
    commit_for_connection env2 i k' m2 = (k', m2, Err (TransactionNotFound t)) /\
    abort_for_connection env2 i k' m2 = (k', m2, Err (TransactionNotFound t)).
Proof.
  intros He Hk Hc. assert (k' = k) as ->.
  { unfold commit_for_connection, end_for_connection in He. rewrite Hk, Hc in He.
    repeat (case_match; simplify_eq); done. }
  split; [done|]. intros env2 o m2 Hm.
  unfold begin_for_connection, commit_for_connection, abort_for_connection, end_for_connection,
    check_transaction_owner, get_context, has_active_transaction.
  rewrite Hk, Hc, Hm. by rewrite bool_decide_eq_true_2 by eauto.
Qed.

End connections.
End Conn.
