(* ===== verification/ManagerExample.v ===== *)
(** * Runs of the transaction manager

    Concrete managers over a small storage sink: the theorems of
    [ManagerSafety] applied to them, and runs that show where the manager does
    not do what its documentation says. *)

From stdpp Require Import base gmap sets list strings pretty.
From Stdlib Require Import ZArith Lia.
From S2P Require Import Prelude Types SnapshotTracker VersionManager Watermarks WriteSet WalTypes Stats Certifier UndoLog.
From S2P Require Import Journal Context Events CheckpointGate PendingRecovery Manager ManagerCommit ManagerFacts ManagerInv ManagerOutcome.
From S2P Require Import ManagerReach ManagerSafety Connection.

Module MgrExample.
Import Mgr MgrOps MgrFacts Slots MgrInv MgrOutcome MgrReach MgrSafety.

(** A sink that refuses its next [n] finalizations. *)
#[local] Instance busy_sink : CommitSink Z nat := {
  sink_commit _ s := (s, Ok 7);
  sink_finalize _ _ s := match s with O => (O, Ok tt) | S n => (n, Err "busy"%string) end;
  sink_abort _ _ u s := (s, u, Ok tt);
  sink_recover s := (s, Ok 0);
  sink_auto_checkpoint s := (s, Ok tt);
}.

#[local] Instance no_sync : SyncPort unit := {
  sync_rollback _ y := (y, Ok tt);
  sync_rollback_to_sequence _ _ y := (y, Ok tt);
  sync_intent_sequence _ _ := 0;
  sync_retry_outbox y := (y, Ok 0);
}.

Abbreviation demo := (TransactionManager Z nat unit).

Definition env0 : CallEnv := mkCall 5 io_ok io_ok true.

Definition fresh (n : nat) : demo := with_commit_sink n (new default_manager_config).

Definition read_options : TransactionOptions :=
  mkOptions None true false DSync RepeatableRead None None None.

Definition begin_write (m : demo) : demo := (begin_transaction env0 default_options m).1.
Definition begin_read (m : demo) : demo := (begin_transaction env0 read_options m).1.
Definition commit (i : Z) (m : demo) : demo := (commit_transaction env0 i m).1.

Lemma vm_new_ok : vm_ok Vm.new.
Proof. by split. Qed.

Lemma fresh_reach n : mreach (fresh n).
Proof. eapply mr_step; [apply (mr_new default_manager_config Vm.new vm_new_ok)|by apply ms_frame]. Qed.

Ltac roomy := split; vm_compute; reflexivity.

Lemma writing_reach n : mreach (begin_write (fresh n)).
Proof. eapply mr_step; [apply (fresh_reach n)|apply ms_begin; roomy]. Qed.

Definition one_writer : demo := begin_write (fresh 0).
Definition writer_and_reader : demo := begin_read one_writer.
Definition unfinalized : demo := commit 1 (begin_write (fresh 4)).

Lemma both_reach : mreach writer_and_reader.
Proof. eapply mr_step; [apply (writing_reach 0)|apply ms_begin; roomy]. Qed.

Lemma unfinalized_reach : mreach unfinalized.
Proof. eapply mr_step; [apply (writing_reach 4)|apply ms_commit]. Qed.

(** ** Witnesses *)

Lemma gate_leases_exact_witness :
  active_writes (m_gate one_writer) = slots (m_active one_writer) /\ active_writes (m_gate one_writer) = 1.
Proof.
  split; [|vm_compute; reflexivity].
  destruct (gate_leases_exact one_writer (writing_reach 0)) as [E _]; [reflexivity|exact E].
Defined.

(** A single-writer configuration. *)
Definition single_config : TransactionManagerConfig :=
  mkMgrConfig 30000 1000 true 3 3
    (mkConfig 30000 DSync RepeatableRead None None None false 1000 1000
       (cfg_budget_warning_threshold default_config) SingleWriter None)
    false true 30000 true 1 300000 64 300.

Definition single : demo := new single_config.
Definition excluding : demo := begin_write single.

Lemma excluding_reach : mreach excluding.
Proof. eapply mr_step; [apply (mr_new single_config Vm.new vm_new_ok)|apply ms_begin; roomy]. Qed.

Lemma single_exclusion_witness :
  m_owner excluding = 1 /\
  exists c, m_active excluding !! 1 = Some c /\ state (x_life c) = Active.
Proof.
  split; [vm_compute; reflexivity|].
  destruct (single_exclusion excluding excluding_reach) as [_ Ho].
  destruct Ho as (c & Hc & _ & _ & Hs); [vm_compute; discriminate|].
  exists c. split; [exact Hc|exact Hs].
Defined.

Definition reader : TransactionContext Z := default (Ctx.new 0 0 0 default_config)
  (m_active writer_and_reader !! 2).
Definition writer : TransactionContext Z := default (Ctx.new 0 0 0 default_config)
  (m_active writer_and_reader !! 1).

Lemma writers_above_readers_witness :
  start reader <= read_ts (m_vm writer_and_reader) < start writer /\
  pending (m_vm writer_and_reader) (start writer).
Proof.
  apply (writers_above_readers writer_and_reader 2 1); [exact both_reach|vm_compute; reflexivity..].
Defined.

Lemma unfinalized_durable : durable unfinalized 1.
Proof.
  exists (default (Ctx.new 0 0 0 default_config) (m_active unfinalized !! 1)).
  vm_compute. done.
Qed.

(** The unfinalized commit survives a shutdown. *)
Lemma durable_never_aborted_witness : durable (shutdown env0 unfinalized) 1.
Proof.
  apply (durable_never_aborted unfinalized); [exact unfinalized_reach|exact unfinalized_durable|].
  eapply mss_step; [apply mss_refl|apply ms_shutdown].
Defined.

Lemma commit_resolves_witness :
  commit_end one_writer (commit 1 one_writer) 1
    (default (Ctx.new 0 0 0 default_config) (m_active one_writer !! 1)) (Ok tt).
Proof.
  apply (commit_resolves env0 one_writer 1 _ _ _ (writing_reach 0));
    [vm_compute; reflexivity|vm_compute; reflexivity|vm_compute; reflexivity|].
  unfold commit. rewrite (surjective_pairing (commit_transaction env0 1 one_writer)) at 1.
  apply (f_equal2 pair); [reflexivity|vm_compute; reflexivity].
Defined.

Lemma shutdown_releases_witness :
  m_owner (shutdown env0 excluding) = 0 /\ m_active (shutdown env0 excluding) = ∅.
Proof.
  split; [|vm_compute; reflexivity].
  destruct (shutdown_releases env0 excluding excluding_reach) as (_ & _ & E). exact E.
Defined.

Definition redriven : RecoveryManager * option PendingFinalization :=
  Pending.take_pending 1 (m_recovery unfinalized).

Lemma redrive_completes_witness :
  exists m' c', recover_pending_finalization env0 1 unfinalized = (m', Ok tt) /\ gone_as m' 1 c' /\
    state (x_life c') = Committed /\ commit_published (x_life c') = true.
Proof.
  destruct (Pending.take_pending 1 (m_recovery unfinalized)) as [q [p|]] eqn:E;
    [|vm_compute in E; discriminate].
  apply (redrive_completes env0 unfinalized 1
    (default (Ctx.new 0 0 0 default_config) (m_active unfinalized !! 1)) q p unfinalized_reach);
    [vm_compute; reflexivity|vm_compute; reflexivity|exact E| |vm_compute; reflexivity|reflexivity].
  right. eexists. unfold finalize_sink.
  replace (m_sink (set_recovery q unfinalized)) with (Some 0%nat) by (vm_compute; reflexivity).
  reflexivity.
Defined.

(** ** Runs that contradict the documentation *)

(** Storage stays busy for the commit and for the startup. *)
Definition stranded : demo := (startup_recovery env0 (commit 1 (begin_write (fresh 8)))).1.

Lemma startup_strands_witness :
  recover_pending_finalization env0 1 stranded = (stranded, Err (TransactionNotFound 1)) /\
  abort_transaction env0 1 stranded = (stranded, Err CommitFailed).
Proof.
  assert (mreach (commit 1 (begin_write (fresh 8)))) as Hr.
  { eapply mr_step; [apply (writing_reach 8)|apply ms_commit]. }
  destruct (startup_strands env0 env0 _ stranded
    (startup_recovery env0 (commit 1 (begin_write (fresh 8)))).2 1
    (default (Ctx.new 0 0 0 default_config) (m_active stranded !! 1)) Hr) as (_ & E1 & E2).
  - unfold stranded. by destruct (startup_recovery _ _).
  - vm_compute. reflexivity.
  - vm_compute. reflexivity.
  - split; [exact E1|exact E2].
Defined.

(** The stranded commit is counted among the recovered ones. *)
Example startup_counts_stranded :
  (startup_recovery env0 (commit 1 (begin_write (fresh 8)))).2 = Ok 1 /\
  is_Some (m_active stranded !! 1).
Proof. split; vm_compute; [reflexivity|by eexists]. Qed.

(** One commit that storage finalized late is counted twice, and the gauge of
    active transactions wraps around: the built-in statistics observer does
    not look at the [replayed] flag. *)
Example replayed_commit_counted_twice :
  let m := (recover_pending_finalization env0 1 unfinalized).1 in
  total_transactions (m_stats m) = 1 /\ committed_transactions (m_stats m) = 2 /\
  active_transactions (m_stats m) = U64_MAX.
Proof. vm_compute. done. Qed.

(** Two checkpoints overlap: ending the first lets writers in while the second
    handle is open. *)
Definition first_checkpoint := begin_checkpoint_transaction env0 (fresh 0).
Definition second_checkpoint := begin_checkpoint_transaction env0 first_checkpoint.1.
Definition first_ended := ck_commit env0 (mkCkTxn 1 1 false false) second_checkpoint.1.

Example overlapping_checkpoints :
  first_checkpoint.2 = Ok (mkCkTxn 1 1 false false) /\
  second_checkpoint.2 = Ok (mkCkTxn 2 1 false false) /\
  first_ended.2 = Ok tt /\ bool_decide (is_Some (m_active first_ended.1 !! 2)) = true /\
  (begin_insert_transaction env0 default_options first_ended.1).2 = Ok 3.
Proof. vm_compute. done. Qed.

(** A committing owner counts as dead: a sweep between the two halves of its
    commit hands the exclusion on, and the owner's own release then frees the
    exclusion of its successor. *)
Definition half_committed : TransactionContext Z * demo :=
  match m_active excluding !! 1 with
  | Some c => (commit_prepare env0 (c, excluding)).1
  | None => (writer, excluding)
  end.

Definition swept : demo := begin_write half_committed.2.

Definition rest_of_commit : demo :=
  (commit_publish env0 (Descriptor.build_commit_descriptor half_committed.1) 7
     (half_committed.1, swept)).1.2.

Definition two_writers : demo := begin_write rest_of_commit.

Example committing_owner_is_not_dead :
  let locked i := match m_active two_writers !! i with
                  | Some c => pessimistic_lock_held (x_life c) && can_execute_state (state (x_life c))
                  | None => false
                  end in
  locked 2 = true /\ locked 3 = true.
Proof. vm_compute. done. Qed.

(** The last timestamp: the commit reaches the WAL and finds no commit
    timestamp.  It is queued as durable, every re-drive refuses it, and an
    abort is accepted. *)
Definition exhausted : demo :=
  commit 1 (begin_write (with_commit_sink 0%nat
    (with_components default_manager_config (Vm.init_ts (MAX_TIMESTAMP - 2) Vm.new)))).

Example durable_commit_aborted :
  Pending.pending_txn_ids (m_recovery exhausted) = [1] /\
  (recover_pending_finalization env0 1 exhausted).2 = Err (InvalidStateForCommit Committing) /\
  (abort_transaction env0 1 exhausted).2 = Ok tt /\
  (state ∘ x_life <$> m_retired (abort_transaction env0 1 exhausted).1 !! 1) = Some Aborted.
Proof. vm_compute. done. Qed.


End MgrExample.

(** * Runs of the connection layer

    The theorems of [Connection] applied to concrete connections and managers. *)

Module ConnExample.
Import Mgr MgrOps MgrFacts MgrInv MgrSafety MgrExample Conn.
#[local] Existing Instances MgrExample.busy_sink MgrExample.no_sync.

(** Two connections. *)
Definition two : ConnectionManager := (create_connection (create_connection new).1).1.

Definition begun : ConnectionManager * demo * option (result TransactionId TransactionError) :=
  begin_for_connection env0 1 default_options two (fresh 0).

Lemma triple_eta {A B C} (x : A * B * C) c : x.2 = c -> x = (x.1.1, x.1.2, c).
Proof. destruct x as [[] ?]. by intros <-. Qed.

Lemma begun_ok : begun = (begun.1.1, begun.1.2, Some (Ok 1)).
Proof. apply triple_eta. vm_compute. reflexivity. Qed.

Lemma begin_binds_owner_witness :
  exists c, m_active begun.1.2 !! 1 = Some c /\ owner (x_life c) = Some (owner_for_connection 1).
Proof.
  destruct (begin_binds_owner env0 1 default_options two (fresh 0) begun.1.1 begun.1.2 1)
    as (_ & H & _); [apply fresh_reach|roomy|exact begun_ok|exact H].
Defined.

(** The commit comes after the transaction has expired, and aborts it. *)
Definition late_env : CallEnv := mkCall 1000000000 io_ok io_ok true.

Definition failed : ConnectionManager * demo * result unit TransactionError :=
  commit_for_connection late_env 1 begun.1.1 begun.1.2.

Lemma failed_err : failed = (failed.1.1, failed.1.2, Err TransactionTimeout).
Proof. apply triple_eta. vm_compute. reflexivity. Qed.

Lemma failed_commit_wedges_witness :
  m_active failed.1.2 !! 1 = None /\
  begin_for_connection env0 1 default_options failed.1.1 failed.1.2 =
    (failed.1.1, failed.1.2, Some (Err InternalError)).
Proof.
  assert (m_active failed.1.2 !! 1 = None) as Hn by (vm_compute; reflexivity).
  split; [exact Hn|].
  destruct (failed_commit_wedges late_env 1 begun.1.1 begun.1.2 failed.1.1 failed.1.2 TransactionTimeout
    (bind_transaction 1 (new_connection 1)) 1) as [E Hw];
    [exact failed_err|vm_compute; reflexivity|reflexivity|].
  exact (proj1 (Hw env0 default_options failed.1.2 Hn)).
Defined.

End ConnExample.
